(* ===== verification/_CoqProject ===== *)
-Q . S2P
Prelude.v
JsNumber.v
Utf16.v
JsData.v
StrictJson.v
JsText.v
StrictJsonFacts.v
StrictJsonRoundtrip.v
Decode.v
ModelTypes.v
Canonical.v
Descriptor.v
DescriptorFacts.v
DescriptorReorder.v
Digest.v
Contract.v
Requests.v
Replies.v
Protocol.v
ProtocolFacts.v
ClientMessages.v
Connection.v
ConnectionFacts.v
AdapterRegistry.v
Negotiation.v
DescriptorCache.v
MatchedEvidence.v
EvidenceFacts.v
JsonText.v
ReplayReport.v
ReplayCore.v
ReplayFacts.v
RecorderFacts.v
Acceptance.v
Transport.v
TransportFacts.v
ReportFacts.v
Client.v
Explore.v
ExploreFacts.v
SpecFiles.v
SpecFacts.v
Reproduction.v
Stability.v
PrefixReduction.v
OpaqueItf.v
OpaqueFacts.v
NativeCodec.v
CodecFacts.v
DynamicBinding.v
BindingFacts.v
ScheduleData.v
Schedule.v
ScheduleFacts.v
ScheduleRuns.v
Exploration.v
ExplorationFacts.v
ExplorationRuns.v
BundleText.v
Bundle.v
BundlePreflight.v
BundleValues.v
BundleFacts.v
Suite.v
SuitePreflight.v
SuiteRun.v
SuiteFacts.v
SuiteScope.v
LeaseTrace.v
LeaseReduction.v
Registry.v
Waits.v
Negotiated.v
NegotiatedFacts.v
NegotiatedReport.v
Campaign.v
FrameworkText.v
FrameworkCatalog.v
FrameworkPreflight.v
FrameworkFacts.v
