(* ===== verification/Prelude.v ===== *)
(** * MirrorECMA verification library: root file and prelude

    MirrorECMA is the TypeScript client of a mirror: a model checker behind a line
    protocol. A client registers a TLA+ specification, optionally negotiates the
    model interface (a semantic descriptor identified by the digest of its canonical
    text), and then replays traces: the mirror asks for an action, the application
    computes the next state, the client reports it, the mirror compares. This
    library models that path from the bytes on the wire to the evidence a replay
    leaves, and proves what makes it correct. File names below are under [src/src/].

    ** Ground

    - [Prelude], [JsNumber], [Utf16], [JsData], [JsText]: the language. A string is
      a list of UTF-16 units, a number an IEEE-754 binary64 value (the Standard
      Library's [spec_float]), a bigint a [Z]. A value of unknown type is [js]: one
      constructor for each case of [typeof], an object the list of its own
      properties in the order of [Object.keys]. Fallible code returns [res]: a
      value or the error that was thrown, with its class and message. A class whose
      methods change fields is a record with [method]s: an operation gives its
      result and the state after it, also when it throws.

    ** Model interface ([model-interface.ts], [negotiation-core.ts],
       [adapter-registry.ts], [descriptor-cache.ts])

    - [StrictJson]: [StrictJsonParser]. [StrictJsonFacts] and
      [StrictJsonRoundtrip]: it always ends, what an accepted value satisfies, it
      agrees with [JSON.parse], and it reads back what the canonical writer wrote.
    - [Decode], [ModelTypes], [Canonical], [Descriptor], [Contract]: the decoders of
      types, literals, paths, descriptors and companion contracts, and the canonical
      text. [DescriptorFacts], [DescriptorReorder], [Digest]: the decoder accepts
      exactly the written descriptors within the limits, and canonical text
      identifies a descriptor up to the order of its unordered parts. The hash is a
      parameter [sha256].
    - [Requests], [Replies], [Negotiation]: the extension a client adds to its
      registration, the replies with the recomputed digest, the strict first reply
      and its classification.
    - [AdapterRegistry], [DescriptorCache]: exact-key lookup and the bounded cache of
      verified descriptors, a refinement of a least-recently-used list.

    - [OpaqueItf], [OpaqueFacts] ([opaque-itf.ts]): the checked copy of a value and
      its identity, which decides equality up to the order of sets, maps and
      records.
    - [NativeCodec], [CodecFacts] ([dynamic-binding.ts]): values of the protocol as
      native values of a structural type and back. [DynamicBinding],
      [BindingFacts]: the synchronous and the asynchronous binding of a descriptor
      to callbacks, as [method]s over the state of a binding; what a callback does
      to the binding while it runs is an input.

    ** Line protocol ([protocol.ts], [transport.ts], [connection.ts], [client.ts])

    - [Protocol], [ProtocolFacts], [ClientMessages], [JsonText]: values, messages,
      their encoding and decoding and the rendering of states; round trips of states
      and of client messages.
    - [Transport], [TransportFacts]: the framing of a byte stream into
      lines, with a specification of the lines of a text of bytes that does not know
      about chunks, and the arrival of sent lines.
    - [Connection], [ConnectionFacts]: the session object as a machine whose events
      are the points between two suspensions of its methods; invariants by induction
      over the reachable states, termination of its queue.

    ** Replay ([replay-core.ts], [replay.ts], [replay-report.ts],
       [matched-evidence.ts], [acceptance.ts])

    - [ReplayCore]: the loop and its owners. The environment of one pass is a [turn]
      (what arrives, whether the run is cancelled, what the callback does, whether
      sending succeeds); a run is a list of turns, so there is no fuel: a run that
      wants more turns returns [None]. [ReplayFacts]: lock step, the evidence of a
      completed and of a failed replay.
    - [MatchedEvidence], [EvidenceFacts]: the tracker against a log of what the
      mirror acknowledged. [ReplayReport], [RecorderFacts]: the bounded recorder
      against the history of its calls. [Acceptance]: requirements and their
      assessment.

    ** Runs and reproduction ([client.ts], [spec.ts], [reproduction-bundle.ts],
       [reproduction-stability.ts], [reproduction-prefix-reducer.ts])

    - [Client], [ReportFacts]: the runners that own a transport, from registration to
      report. [Explore], [ExploreFacts]: the interactive session as a machine.
    - [SpecFiles], [SpecFacts]: the modules a specification reaches.
    - [Reproduction]: the signature of a failure and its equality. [Stability]: the
      repeated replays and their class. [PrefixReduction]: the descent over the
      prefixes of a failing trace.

    ** Schedules ([schedule-data.ts], [schedule.ts], [schedule-exploration.ts])

    - [ScheduleData]: schedules, inert data and the parser of a schedule.
    - [Schedule]: the controller of an execution as a machine. Its inputs are the
      calls of its methods, the messages and exits of the workers, the answers of
      the program and the readings of the clock; [ex_point] is where the controller
      is suspended. [ScheduleFacts], [ScheduleRuns]: the invariants of the machine
      ([progress], [wiring], [resources]) and what a passed execution has done.
    - [Exploration]: the enumeration of interleavings with a bound on preemptions,
      the loop over the runs and the evidence it asks for. [ExplorationFacts]: the
      enumeration against the interleavings themselves. [ExplorationRuns]: a
      complete exploration is one, and the receipt of a passed execution is evidence.

    ** Reproduction bundles, suites and runs
       ([reproduction-bundle.ts], [suite-*.ts], [lease-reduction.ts], [registry.ts],
       [async-replay.ts], [replay-control.ts], [negotiated.ts],
       [mutation-campaign.ts])

    - [BundleText], [Bundle]: the bounded scanner of a bundle, its validators, text
      and digest, the capture of a failure, the preflight with the evaluator it calls,
      and the replay. [BundlePreflight]: what was checked before a call to the
      evaluator. [BundleValues], [BundleFacts]: the round trip of a
      bundle, up to the order of properties.
    - [Suite], [SuitePreflight], [SuiteRun], [SuiteScope]: the definition of a suite,
      its preflight over the bytes of files, its run with the classification of what
      it met, and the construction scope of a local implementation. [SuiteFacts]: what
      a passed suite means.
    - [LeaseTrace], [LeaseReduction]: the reduced trace, and the reduction of one
      candidate with its oracle. [Registry]: discovery of a usable mirror.
    - [Waits]: the bounded waits, the control of a run and the lifetime
      of a suite, as machines over the events of the platform.
    - [Negotiated], [NegotiatedFacts]: the callback runner of negotiated runs.
      [NegotiatedReport]: the runner with a report. On whose word a
      factory of the application is called, and the cleanup of a run.
    - [Campaign] ([mutation-campaign.ts]): the declaration of a
      campaign of mutants, its run and its acceptance: what an accepted campaign has
      shown, and under what conditions a mutant is evaluated.

    ** The framework catalogue ([framework-catalog.ts])

    - [FrameworkText]: the parser that refuses repeated names, the checks of fields
      and the canonical text. [FrameworkCatalog]: the readers of a catalogue, of the
      manifest of a distribution and of the index of its cache, and the check of the
      two against each other. [FrameworkPreflight]: whether what is installed is the
      selected combination, and may be used.
    - [FrameworkFacts]: the canonical text is read back, so it identifies a value and
      comparisons of identities are equality; what an accepted distribution and a
      matched preflight have.

    ** Bounds and fuel

    The strict parser recurses on the nesting it still allows (128) and its loops on
    the length of the text that remains; [strict_json_total] and
    [mirror_message_total] show that no bound is hit. The loop over a chunk
    ([Transport.records]) has one step more than the chunk has bytes, and
    [records_spec] shows that this is enough. The walk over specification files
    gets fuel for one call more than there are files, which [spec_closure_correct]
    shows to be enough. The enumeration of schedules gets the number
    of steps of all chains, which [enumeration_exact] shows to be enough. Every other recursion is structural.
    Counters that JavaScript keeps in numbers are exact below 2^53, where
    [js_succ] saturates as addition does.

    ** Parameters

    The hash [sha256]; the text of a number that is not a safe integer
    ([number_text]); what inspecting a thrown value of unknown type gives
    ([foreign_code], [foreign_message], [foreign_object]); the file system of a
    specification ([absolute], [dirname], [candidatePath], [access], [realpath],
    [readSource]); the reading of a date ([date_parses]) and the comparison of texts in
    the locale of the platform ([localeCompare]); the cleanups that throw ([fails]).
    No theorem assumes more about them than its statement says.

    ** Not modelled

    Sockets, TLS, child processes, timers and files are the environment: where the
    modelled code waits for one of them, its outcome is an input. Freezing of objects
    and the identity of objects have no counterpart where nothing depends on them.
    Obtaining the iterator of a transport is taken not to throw in the callback
    runner. Not modelled: the binding of replays to scheduled executions, whose order
    of calls is decided by the async context of the platform; the workers, which are
    threads; the projected corpus and the project tool, which read directories and
    start processes; the scripts and experiments, which drive them. *)

From Stdlib Require Export Lia ZifyBool ZifyN Sorted.
From stdpp Require Export base strings numbers option gmap list.


(** ** JavaScript strings

    A JavaScript string is a finite sequence of UTF-16 code units. [ustring]
    keeps the units as they are: no well-formedness is assumed, so unpaired
    surrogates are representable exactly as they are in the source. *)
Abbreviation ustring := (list N).

Fixpoint lit (s : string) : ustring :=
  match s with
  | EmptyString => []
  | String a s' => Ascii.N_of_ascii a :: lit s'
  end.

Declare Scope ustr_scope.
Delimit Scope ustr_scope with ustr.
Notation "$ s" := (lit s%string) (at level 1, s at level 0, format "$ s") : ustr_scope.
Open Scope ustr_scope.

Arguments lit : simpl never.

(** ** Results: a value or the error that was thrown *)

Inductive res (E A : Type) : Type :=
| Ok (a : A)
| Err (e : E).
Arguments Ok {_ _} _.
Arguments Err {_ _} _.

#[export] Instance res_mret E : MRet (res E) := fun _ a => Ok a.
#[export] Instance res_mbind E : MBind (res E) :=
  fun _ _ f m => match m with Ok a => f a | Err e => Err e end.
#[export] Instance res_fmap E : FMap (res E) :=
  fun _ _ f m => match m with Ok a => Ok (f a) | Err e => Err e end.

(** [require b e]: the source's [if (!b) throw e]. *)
Definition require {E} (b : bool) (e : E) : res E unit :=
  if b then Ok tt else Err e.

Definition is_ok {E A} (r : res E A) : bool :=
  match r with Ok _ => true | Err _ => false end.

(** ** Results threading a mutable state (a counter, the rest of an input)

    A thrown error discards the state: no modelled [catch] reads it. *)
Definition stres (S E A : Type) : Type := S -> res E (A * S).

#[export] Instance stres_mret S E : MRet (stres S E) := fun _ a s => Ok (a, s).
#[export] Instance stres_mbind S E : MBind (stres S E) :=
  fun _ _ f m s => match m s with Ok (a, s') => f a s' | Err e => Err e end.

Definition liftR {S E A} (r : res E A) : stres S E A :=
  fun s => match r with Ok a => Ok (a, s) | Err e => Err e end.

(** Array.prototype.map with the index, in a monad. *)
Section mapMi.
Context `{MRet M, MBind M} {A B : Type}.
Fixpoint mapMi_from (i : N) (f : N -> A -> M B) (l : list A) : M (list B) :=
  match l with
  | [] => mret []
  | x :: l' => y ← f i x; ys ← mapMi_from (N.succ i) f l'; mret (y :: ys)
  end.
Definition mapMi (f : N -> A -> M B) (l : list A) : M (list B) := mapMi_from 0 f l.
End mapMi.

(** ** Inversion lemmas for the two monads *)

Section res_lemmas.
Context {E A B : Type}.

Lemma res_bind_Ok (m : res E A) (f : A -> res E B) (b : B) :
  m ≫= f = Ok b <-> exists a, m = Ok a /\ f a = Ok b.
Proof.
  destruct m as [a|e]; cbn; split.
  - intros H. by exists a.
  - intros (a' & [= ->] & H). done.
  - done.
  - intros (a' & H & _). done.
Qed.

Lemma res_bind_Err (m : res E A) (f : A -> res E B) (e : E) :
  m ≫= f = Err e <-> m = Err e \/ exists a, m = Ok a /\ f a = Err e.
Proof.
  destruct m as [a|e']; cbn; split; naive_solver.
Qed.

Lemma require_Ok (b : bool) (e : E) u : require b e = Ok u <-> b = true.
Proof. destruct b, u; cbn; naive_solver. Qed.

Lemma require_Err (b : bool) (e e' : E) :
  require b e = Err e' <-> b = false /\ e = e'.
Proof. destruct b; cbn; naive_solver. Qed.
End res_lemmas.

Section stres_lemmas.
Context {S E A B : Type}.

Lemma stres_bind_Ok (m : stres S E A) (f : A -> stres S E B) s b s' :
  (m ≫= f) s = Ok (b, s') <->
  exists a s1, m s = Ok (a, s1) /\ f a s1 = Ok (b, s').
Proof.
  unfold mbind, stres_mbind. destruct (m s) as [[a s1]|e]; naive_solver.
Qed.

Lemma liftR_Ok (r : res E A) s a (s' : S) :
  liftR r s = Ok (a, s') <-> r = Ok a /\ s = s'.
Proof. unfold liftR. destruct r; naive_solver. Qed.

Lemma stres_ret_Ok (a b : A) (s s' : S) :
  (mret a : stres S E A) s = Ok (b, s') <-> a = b /\ s = s'.
Proof. unfold mret, stres_mret. naive_solver. Qed.
End stres_lemmas.

(** [res_inv] turns every hypothesis that says a monadic computation succeeded
    into the facts its steps established. *)
Ltac res_inv1 :=
  match goal with
  | H : (_ ≫= _) = Ok _ |- _ => apply res_bind_Ok in H as (? & ? & ?)
  | H : (_ ≫= _) _ = Ok (_, _) |- _ => apply stres_bind_Ok in H as (? & ? & ? & ?)
  | H : require _ _ = Ok _ |- _ => apply require_Ok in H
  | H : liftR _ _ = Ok (_, _) |- _ => apply liftR_Ok in H as [H ?]
  | H : mret _ _ = Ok (_, _) |- _ => apply stres_ret_Ok in H as [? ?]
  | H : Ok _ = Ok _ |- _ => injection H as H
  | H : mret _ = Ok _ |- _ => injection H as H
  | H : Err _ = Ok _ |- _ => discriminate H
  | H : Ok _ = Err _ |- _ => discriminate H
  | H : andb _ _ = true |- _ => apply andb_true_iff in H as [? ?]
  | H : negb _ = true |- _ => apply negb_true_iff in H
  | H : bool_decide _ = true |- _ => apply bool_decide_eq_true in H
  | H : bool_decide _ = false |- _ => apply bool_decide_eq_false in H
  end.
Ltac res_inv := repeat (res_inv1; try subst; simpl in *).

Lemma fmap_Ok {E A B} (f : A -> B) (r : res E A) b :
  f <$> r = Ok b <-> exists a, r = Ok a /\ b = f a.
Proof. destruct r; cbn; naive_solver. Qed.

Create HintDb mirror.

(** ** Lists *)

Lemma mapMi_from_length {E A B} (f : N -> A -> res E B) l i ys :
  mapMi_from i f l = Ok ys -> length ys = length l.
Proof.
  revert i ys. induction l as [|x l IH]; intros i ys H; cbn in H; res_inv; [done|].
  cbn. f_equal. eauto.
Qed.

Lemma mapMi_from_Forall2 {E A B} (f : N -> A -> res E B) l i ys :
  mapMi_from i f l = Ok ys -> Forall2 (fun x y => exists j, f j x = Ok y) l ys.
Proof.
  revert i ys. induction l as [|x l IH]; intros i ys H; cbn in H; res_inv; [done|].
  constructor; eauto.
Qed.

Lemma forallb_perm {A} (f : A -> bool) l k : l ≡ₚ k -> forallb f l = forallb f k.
Proof. induction 1 as [|x l k _ IH|x y l|l k m _ IH1 _ IH2]; cbn; [done|by rewrite IH|destruct (f x), (f y); done|congruence]. Qed.

(** Boolean duplicate test: [new Set(values).size !== values.length]. *)
Definition no_dups {A} `{EqDecision A} (l : list A) : bool := bool_decide (NoDup l).

Lemma no_dups_NoDup {A} `{EqDecision A} (l : list A) : no_dups l = true <-> NoDup l.
Proof. unfold no_dups. apply bool_decide_eq_true. Qed.

(** ** Array.prototype.sort with a comparator

    A stable sort: the only behaviour ECMAScript allows for a consistent
    comparator, whatever algorithm the engine uses. *)
Section sort_by.
Context {A : Type} (cmp : A -> A -> comparison).

Fixpoint insert_by (x : A) (l : list A) : list A :=
  match l with
  | [] => [x]
  | y :: l' => match cmp x y with Gt => y :: insert_by x l' | _ => x :: l end
  end.

Definition sort_by (l : list A) : list A := foldr insert_by [] l.

Lemma insert_by_Permutation x l : insert_by x l ≡ₚ x :: l.
Proof.
  induction l as [|y l IH]; cbn; [done|].
  destruct (cmp x y); [done..|]. rewrite IH. apply Permutation_swap.
Qed.

Lemma sort_by_Permutation l : sort_by l ≡ₚ l.
Proof. induction l as [|x l IH]; cbn; [done|]. by rewrite insert_by_Permutation, IH. Qed.

Lemma sort_by_length l : length (sort_by l) = length l.
Proof. apply Permutation_length, sort_by_Permutation. Qed.

Lemma insert_by_comm_Lt x y l :
  cmp x y = Lt -> cmp y x = Gt ->
  (forall z, cmp x z = Gt -> cmp y z = Gt) ->
  insert_by x (insert_by y l) = insert_by y (insert_by x l).
Proof.
  intros Hxy Hyx Hz. induction l as [|z l IH]; cbn.
  - by rewrite Hxy, Hyx.
  - destruct (cmp x z) eqn:Exz.
    3: { rewrite (Hz z Exz). cbn. rewrite Exz, (Hz z Exz). by rewrite IH. }
    all: cbn; rewrite Hyx; destruct (cmp y z) eqn:Eyz; cbn; by rewrite ?Hxy, ?Exz.
Qed.

Context (Hop : forall x y, cmp y x = CompOpp (cmp x y))
  (Hlt : forall x y z, cmp x y = Lt -> cmp x z = Gt -> cmp y z = Gt).

(** Sorting forgets the order of its input when the comparator separates the
    elements. *)
Lemma sort_by_perm_eq l1 l2 :
  (forall x y, x ∈ l1 -> y ∈ l1 -> cmp x y = Eq -> x = y) ->
  l1 ≡ₚ l2 -> sort_by l1 = sort_by l2.
Proof.
  intros Hin Hp. revert Hin. induction Hp as [|x l1 l2 _ IH|x y l|l1 l2 l3 H12 IH1 _ IH2];
    intros Hin; cbn.
  - done.
  - f_equal. apply IH. set_solver.
  - destruct (cmp x y) eqn:E.
    + by rewrite (Hin x y) by (set_solver || done).
    + symmetry. apply insert_by_comm_Lt; [done|by rewrite Hop, E|].
      intros z. by apply Hlt.
    + assert (cmp y x = Lt) as E' by (by rewrite Hop, E).
      apply insert_by_comm_Lt; [done..|]. intros z. by apply Hlt.
  - rewrite IH1 by done. apply IH2. intros x y Hx Hy.
    apply Hin; by rewrite H12.
Qed.
End sort_by.

Lemma map_insert_by {A B} (f : A -> B) (cmp : A -> A -> comparison) (cmpB : B -> B -> comparison) x l :
  (forall y, cmpB (f x) (f y) = cmp x y) ->
  map f (insert_by cmp x l) = insert_by cmpB (f x) (map f l).
Proof.
  intros H. induction l as [|y l IH]; cbn; [done|].
  rewrite H. destruct (cmp x y); cbn; [done..|]. by rewrite IH.
Qed.

Lemma map_sort_by {A B} (f : A -> B) (cmp : A -> A -> comparison) (cmpB : B -> B -> comparison) l :
  (forall x y, cmpB (f x) (f y) = cmp x y) ->
  map f (sort_by cmp l) = sort_by cmpB (map f l).
Proof.
  intros H. induction l as [|x l IH]; [done|].
  change (sort_by cmp (x :: l)) with (insert_by cmp x (sort_by cmp l)).
  rewrite (map_insert_by f cmp cmpB) by done. by rewrite IH.
Qed.

Lemma mapM_res_Ok {E A B} (f : A -> res E B) l ys :
  mapM f l = Ok ys <-> Forall2 (fun x y => f x = Ok y) l ys.
Proof.
  revert ys. induction l as [|x l IH]; intros ys; cbn; split.
  - intros [= <-]. constructor.
  - by inversion 1.
  - intros H. res_inv. constructor; [done|]. by apply IH.
  - inversion 1 as [|? y ? ys' Hx Hl]; subst. apply IH in Hl. cbn. by rewrite Hx, Hl.
Qed.

(** ** Stability of the sort

    [same_by key l1 l2]: the lists have the same entries under every key, in
    the same order. With distinct keys this is [Permutation]. *)
Section stable.
Context {A K : Type} `{EqDecision K} (key : A -> K) (cmp : A -> A -> comparison).

Definition same_by (l1 l2 : list A) : Prop :=
  forall k, filter (fun x => key x = k) l1 = filter (fun x => key x = k) l2.

#[export] Instance same_by_equivalence : Equivalence same_by.
Proof.
  split; [by intros l k|intros l1 l2 H k|intros l1 l2 l3 H1 H2 k].
  - by rewrite H.
  - by rewrite H1.
Qed.

Lemma same_by_elem l1 l2 x : same_by l1 l2 -> x ∈ l1 -> x ∈ l2.
Proof.
  intros H Hx. specialize (H (key x)).
  assert (x ∈ filter (fun y => key y = key x) l2) as [_ Hi]%list_elem_of_filter; [|done].
  rewrite <- H. by apply list_elem_of_filter.
Qed.

Lemma perm_same_by l1 l2 :
  NoDup (map key l1) -> l1 ≡ₚ l2 -> same_by l1 l2.
Proof.
  intros Hnd Hp k. assert (filter (fun x => key x = k) l1 ≡ₚ filter (fun x => key x = k) l2) as H
    by by rewrite Hp.
  assert (length (filter (fun x => key x = k) l1) <= 1)%nat as Hlen.
  { clear H Hp. induction l1 as [|x l IH]; [cbn; lia|].
    cbn in Hnd. apply NoDup_cons in Hnd as [Hx Hnd]. specialize (IH Hnd).
    rewrite filter_cons. destruct (decide _) as [<-|]; [|done]. cbn.
    destruct (filter _ l) as [|y l'] eqn:E; [cbn; lia|]. exfalso.
    assert (y ∈ filter (fun y => key y = key x) l) as [Hk Hy]%list_elem_of_filter by (rewrite E; by left).
    apply Hx. rewrite <- Hk. apply list_elem_of_fmap. by exists y. }
  destruct (filter _ l1) as [|x [|]]; cbn in Hlen; [|..|lia].
  - by apply Permutation_nil_l in H.
  - by apply Permutation_singleton_l in H as ->.
Qed.

Context (Heq : forall x y, cmp x y = Eq <-> key x = key y)
  (Hop : forall x y, cmp y x = CompOpp (cmp x y))
  (Htrans : forall x y z, cmp x y <> Gt -> cmp y z <> Gt -> cmp x z <> Gt).

Lemma filter_insert_by k x l :
  filter (fun y => key y = k) (insert_by cmp x l) = filter (fun y => key y = k) (x :: l).
Proof.
  induction l as [|y l IH]; cbn [insert_by]; [done|].
  destruct (cmp x y) eqn:E; [done..|].
  assert (key x <> key y) by (rewrite <- Heq; congruence).
  rewrite filter_cons, IH, !filter_cons.
  repeat destruct (decide _); congruence.
Qed.

Lemma sort_by_stable l : same_by l (sort_by cmp l).
Proof.
  intros k. induction l as [|x l IH]; [done|].
  change (sort_by cmp (x :: l)) with (insert_by cmp x (sort_by cmp l)).
  by rewrite filter_insert_by, !filter_cons, IH.
Qed.

Definition ordered : list A -> Prop := Sorted.StronglySorted (fun x y => cmp x y <> Gt).

Lemma insert_by_ordered x l : ordered l -> ordered (insert_by cmp x l).
Proof.
  induction 1 as [|y l Hs IH Hy]; cbn; [repeat constructor|].
  destruct (cmp x y) eqn:E.
  3: { constructor; [done|]. rewrite (insert_by_Permutation cmp). constructor; [|done].
       rewrite Hop, E. done. }
  all: constructor; [by constructor|]; constructor; [congruence|];
    eapply Forall_impl; [exact Hy|]; intros z Hz; apply (Htrans x y z); congruence.
Qed.

Lemma sort_by_ordered l : ordered (sort_by cmp l).
Proof. induction l as [|x l IH]; [constructor|]. by apply insert_by_ordered. Qed.

Lemma ordered_head x l y : ordered (x :: l) -> y ∈ x :: l -> cmp x y <> Gt.
Proof.
  intros H [->|Hy]%elem_of_cons.
  - by rewrite (proj2 (Heq x x) eq_refl).
  - inversion H as [|? ? _ Hf]; subst. rewrite Forall_forall in Hf. auto.
Qed.

Lemma ordered_same_eq l1 l2 : ordered l1 -> ordered l2 -> same_by l1 l2 -> l1 = l2.
Proof.
  revert l2. induction l1 as [|x l1 IH]; intros [|y l2] H1 H2 Hs; [done| | |].
  - apply (symmetry (R := same_by)) in Hs. assert (y ∈ []) by (eapply same_by_elem; [done|by left]).
    by apply not_elem_of_nil in H.
  - assert (x ∈ []) by (eapply same_by_elem; [done|by left]). by apply not_elem_of_nil in H.
  - assert (key x = key y) as Hk.
    { apply Heq. pose proof (ordered_head x l1 y H1) as A1. pose proof (ordered_head y l2 x H2) as A2.
      rewrite Hop in A2. destruct (cmp x y); [done| |].
      - exfalso. apply A2; [|done]. eapply same_by_elem; [exact Hs|by left].
      - exfalso. apply A1; [|done]. eapply same_by_elem; [by symmetry|by left]. }
    pose proof (Hs (key x)) as Hx. rewrite !filter_cons, !decide_True in Hx by done.
    injection Hx as <- _. f_equal.
    inversion H1; inversion H2; subst. apply IH; [done..|]. intros k.
    specialize (Hs k). rewrite !filter_cons in Hs. destruct (decide _); congruence.
Qed.

Lemma sort_by_same l1 l2 : same_by l1 l2 -> sort_by cmp l1 = sort_by cmp l2.
Proof.
  intros Hs. apply ordered_same_eq; [apply sort_by_ordered..|].
  rewrite <- (sort_by_stable l1), Hs. apply sort_by_stable.
Qed.
End stable.

Lemma same_by_map {A B K} `{EqDecision K} (f : A -> B) (key : B -> K) l1 l2 :
  same_by (fun x => key (f x)) l1 l2 -> same_by key (map f l1) (map f l2).
Proof.
  intros H k. specialize (H k).
  assert (forall l, filter (fun y => key y = k) (map f l) =
                    map f (filter (fun x => key (f x) = k) l)) as Hm.
  { intros l. induction l as [|x l IH]; [done|]. cbn [map]. rewrite !filter_cons, IH.
    by destruct (decide _). }
  by rewrite !Hm, H.
Qed.

Lemma Forall2_perm {A B} (R : A -> B -> Prop) l l' k :
  l ≡ₚ l' -> Forall2 R l k -> exists k', k ≡ₚ k' /\ Forall2 R l' k'.
Proof.
  intros Hp. revert k. induction Hp as [|x l l' _ IH|x y l|l1 l2 l3 _ IH1 _ IH2]; intros k Hk.
  - exists k. by inversion Hk.
  - inversion Hk as [|? b ? k0 Hb Hk0]; subst. destruct (IH _ Hk0) as (k' & Hp' & HF).
    exists (b :: k'). split; [by constructor|by constructor].
  - inversion Hk as [|? b ? k0 Hb Hk0]; subst. inversion Hk0 as [|? b' ? k1 Hb' Hk1]; subst.
    exists (b' :: b :: k1). split; [constructor|by repeat constructor].
  - destruct (IH1 _ Hk) as (k2 & P1 & F1). destruct (IH2 _ F1) as (k3 & P2 & F2).
    exists k3. split; [by etrans|done].
Qed.

(** Sorting related lists by related texts keeps them related. *)
Lemma Forall2_sort_by {A B} (R : A -> B -> Prop) (ca : A -> A -> comparison)
  (cb : B -> B -> comparison) l k :
  (forall x x' y y', R x y -> R x' y' -> ca x x' = cb y y') ->
  Forall2 R l k -> Forall2 R (sort_by ca l) (sort_by cb k).
Proof.
  intros Hc.
  assert (forall x y l k, R x y -> Forall2 R l k -> Forall2 R (insert_by ca x l) (insert_by cb y k)) as Hi.
  { intros x y l0 k0 Hxy. induction 1 as [|x' y' l1 k1 Hxy' Hl IH]; cbn; [by repeat constructor|].
    rewrite (Hc _ _ _ _ Hxy Hxy'). destruct (cb y y'); by repeat constructor. }
  induction 1; cbn; [constructor|]. by apply Hi.
Qed.

(** [l2] is [l1] with related elements, in another order. *)
Definition perm_by {A B} (R : A -> B -> Prop) (l1 : list A) (l2 : list B) : Prop :=
  exists l, Forall2 R l1 l /\ l ≡ₚ l2.

Lemma perm_by_map_NoDup {A B C} (R : A -> B -> Prop) (f : A -> C) (g : B -> C) l1 l2 :
  (forall a b, R a b -> f a = g b) -> perm_by R l1 l2 -> map f l1 ≡ₚ map g l2.
Proof.
  intros H (l & HF & Hp). rewrite <- Hp. clear Hp.
  assert (map f l1 = map g l) as ->; [|done].
  induction HF; cbn; [done|]. f_equal; auto.
Qed.

Lemma perm_by_flat_map {A B C} (R : A -> B -> Prop) (f : A -> list C) (g : B -> list C) l1 l2 :
  (forall a b, R a b -> f a ≡ₚ g b) -> perm_by R l1 l2 -> flat_map f l1 ≡ₚ flat_map g l2.
Proof.
  intros H (l & HF & Hp). rewrite <- Hp. clear Hp.
  induction HF; cbn; [done|]. by apply Permutation_app; auto.
Qed.

Lemma NoDup_map_inj {A B} (f : A -> B) l x y :
  NoDup (map f l) -> x ∈ l -> y ∈ l -> f x = f y -> x = y.
Proof.
  induction l as [|z l IH]; cbn; [by intros _ ?%not_elem_of_nil|].
  intros [Hz Hnd]%NoDup_cons.
  assert (forall w, w ∈ l -> f z <> f w) as Hne.
  { intros w Hw He. apply Hz. rewrite He. apply list_elem_of_fmap. by exists w. }
  intros [->|Hx]%elem_of_cons [->|Hy]%elem_of_cons He; [done|..]; try (by exfalso; eapply Hne); eauto.
Qed.

Lemma sublist_map {A B} (f : A -> B) l k : l `sublist_of` k -> map f l `sublist_of` map f k.
Proof. induction 1; by constructor. Qed.

Lemma Forall_sub {A} (P : A -> Prop) l k : l `sublist_of` k -> Forall P k -> Forall P l.
Proof.
  induction 1 as [|x l k _ IH|x l k _ IH]; intros H; [done| |].
  - apply Forall_cons in H as [Hx H]. by constructor; [|apply IH].
  - apply Forall_cons in H as [_ H]. by apply IH.
Qed.

(** ** Mutable state that survives a thrown error

    A method of an object: it ends with a value or an error and leaves the object
    in some state in both cases. [triple] is partial-correctness reasoning for it,
    with one postcondition for each way to end. *)

Definition method (S E A : Type) : Type := S -> res E A * S.

#[export] Instance method_mret S E : MRet (method S E) := fun _ a s => (Ok a, s).
#[export] Instance method_mbind S E : MBind (method S E) :=
  fun _ _ f m s => match m s with (Ok a, s') => f a s' | (Err e, s') => (Err e, s') end.

Definition this {S E A} (f : S -> A) : method S E A := fun s => (Ok (f s), s).
Definition modify {S E} (f : S -> S) : method S E unit := fun s => (Ok tt, f s).
Definition throws {S E A} (e : E) : method S E A := fun s => (Err e, s).
(** [if (b) m] *)
Definition when {S E} (b : bool) (m : method S E unit) : method S E unit := if b then m else mret tt.

Lemma method_bind_Ok {S E A B} (m : method S E A) (f : A -> method S E B) s b s' :
  (m ≫= f) s = (Ok b, s') <-> exists a s1, m s = (Ok a, s1) /\ f a s1 = (Ok b, s').
Proof. unfold mbind, method_mbind. destruct (m s) as [[a|e] s1]; naive_solver. Qed.

Section triple.
Context {S E A B : Type}.
Implicit Types (P : S -> Prop) (R : E -> S -> Prop).

Definition triple {A} P (m : method S E A) (Q : A -> S -> Prop) R : Prop :=
  forall s, P s -> match m s with (Ok a, s') => Q a s' | (Err e, s') => R e s' end.

Lemma triple_bind P (m : method S E A) (f : A -> method S E B) Q Q' R :
  triple P m Q R -> (forall a, triple (Q a) (f a) Q' R) -> triple P (m ≫= f) Q' R.
Proof.
  intros Hm Hf s Hs. unfold mbind, method_mbind. specialize (Hm s Hs).
  destruct (m s) as [[a|e] s']; [by apply Hf|done].
Qed.

Lemma triple_ret P (a : A) Q R : (forall s, P s -> Q a s) -> triple P (mret a : method S E A) Q R.
Proof. intros H s Hs. by apply H. Qed.

Lemma triple_this P (f : S -> A) Q R : (forall s, P s -> Q (f s) s) -> triple P (this f) Q R.
Proof. intros H s Hs. by apply H. Qed.

Lemma triple_modify P (f : S -> S) Q R : (forall s, P s -> Q tt (f s)) -> triple P (modify f) Q R.
Proof. intros H s Hs. by apply H. Qed.

Lemma triple_throws P (e : E) (Q : A -> S -> Prop) R : (forall s, P s -> R e s) -> triple P (throws e) Q R.
Proof. intros H s Hs. by apply H. Qed.

Lemma triple_when P (b : bool) (m : method S E unit) Q R :
  (b = true -> triple P m Q R) -> (b = false -> forall s, P s -> Q tt s) -> triple P (when b m) Q R.
Proof. destruct b; intros H1 H2; [by apply H1|]. intros s Hs. by apply H2. Qed.

Lemma triple_conseq P P' (m : method S E A) (Q Q' : A -> S -> Prop) R R' :
  triple P' m Q' R' -> (forall s, P s -> P' s) -> (forall a s, Q' a s -> Q a s) ->
  (forall e s, R' e s -> R e s) -> triple P m Q R.
Proof.
  intros H HP HQ HR s Hs. specialize (H s (HP s Hs)).
  destruct (m s) as [[a|e] s']; [by apply HQ|by apply HR].
Qed.

(** A part of the precondition that is about no state. *)
Lemma triple_pure (phi : Prop) P P' (m : method S E A) Q R :
  (forall s, P' s -> phi /\ P s) -> (phi -> triple P m Q R) -> triple P' m Q R.
Proof. intros HP H s [Hphi Hs]%HP. by apply H. Qed.
End triple.
