(* ===== verification/JsNumber.v ===== *)
(** * JavaScript numbers

    A JavaScript number is an IEEE-754 binary64 value, modelled by the Standard
    Library's [spec_float] at precision 53 and exponent bound 1024. The file
    holds what the source uses of [Number]: conversion of a decimal literal
    with round-to-nearest-even, [Number.isFinite], [Number.isSafeInteger],
    [String] on safe integers, and [BigInt] of an integral number; and the
    decimal printing and reading of integers with their round trip. *)

From Stdlib Require Import ZArith SpecFloat.
From S2P Require Import Prelude.

Abbreviation number := spec_float.
Definition js_prec : Z := 53.
Definition js_emax : Z := 1024.

Definition MAX_SAFE_INTEGER : Z := 2 ^ 53 - 1.

(** ** Decimal digits *)

Definition is_digit (c : N) : bool := (48 <=? c)%N && (c <=? 57)%N.

Fixpoint dec_aux (fuel : nat) (n : N) (acc : ustring) : ustring :=
  match fuel with
  | O => acc
  | S fuel' =>
      let acc' := (48 + n mod 10)%N :: acc in
      if (n <? 10)%N then acc' else dec_aux fuel' (n / 10)%N acc'
  end.

(** [String(n)] of a nonnegative integer. *)
Definition dec_of_N (n : N) : ustring := dec_aux (S (N.to_nat (N.size n))) n [].

Definition N_of_dec (l : ustring) : N := foldl (fun a d => (10 * a + (d - 48))%N) 0%N l.

(** [String(z)] of an integer (a bigint, or a number that is a safe integer). *)
Definition dec_of_Z (z : Z) : ustring :=
  match z with
  | Z0 => [48%N]
  | Zpos p => dec_of_N (Npos p)
  | Zneg p => 45%N :: dec_of_N (Npos p)
  end.

(** ** Numbers *)

(** The binary64 number nearest to an integer. *)
Definition num_of_Z (z : Z) : number := binary_normalize js_prec js_emax z 0 false.

(** [Number(text)] of the decimal literal [(-1)^neg * m * 10^e]. *)
Definition num_of_decimal (neg : bool) (m : N) (e : Z) : number :=
  match m with
  | N0 => S754_zero neg
  | Npos p =>
      if (0 <=? e)%Z
      then binary_normalize js_prec js_emax
             (cond_Zopp neg (Zpos p * 10 ^ e)) 0 false
      else match (10 ^ (- e))%Z with
           | Zpos q =>
               let '(mz, ez, lz) :=
                 SFdiv_core_binary js_prec js_emax (Zpos p) 0 (Zpos q) 0 in
               binary_round_aux js_prec js_emax neg mz ez lz
           | _ => S754_nan
           end
  end.

Definition num_is_finite (x : number) : bool :=
  match x with S754_zero _ | S754_finite _ _ _ => true | _ => false end.

(** The integer a number denotes, when it denotes one. *)
Definition num_to_Z (x : number) : option Z :=
  match x with
  | S754_zero _ => Some 0%Z
  | S754_finite s m e =>
      if (0 <=? e)%Z then Some (cond_Zopp s (Zpos m * 2 ^ e))
      else if (Zpos m mod 2 ^ (- e) =? 0)%Z
           then Some (cond_Zopp s (Zpos m / 2 ^ (- e)))
           else None
  | _ => None
  end.

Definition num_safe_Z (x : number) : option Z :=
  match num_to_Z x with
  | Some z => if (Z.abs z <=? MAX_SAFE_INTEGER)%Z then Some z else None
  | None => None
  end.

(** [Number.isSafeInteger(x)]. *)
Definition num_isSafeInteger (x : number) : bool := bool_decide (is_Some (num_safe_Z x)).

#[export] Instance number_eq_dec : EqDecision number.
Proof. intros x y. unfold Decision. repeat decide equality. Defined.

#[global] Arguments dec_of_N : simpl never.
#[global] Arguments num_of_Z : simpl never.
#[global] Arguments num_of_decimal : simpl never.

(** ** Decimal round trip *)

Lemma N_of_dec_from (a : N) l :
  foldl (fun a d => (10 * a + (d - 48))%N) a l
  = (a * 10 ^ N.of_nat (length l) + N_of_dec l)%N.
Proof.
  revert a. unfold N_of_dec. induction l as [|d l IH]; intros a.
  - cbn [foldl length N.of_nat]. rewrite N.pow_0_r. lia.
  - cbn [foldl length]. rewrite (IH (10 * a + _)%N), (IH (10 * 0 + _)%N).
    rewrite Nat2N.inj_succ, N.pow_succ_r'. lia.
Qed.

Lemma N_of_dec_app l1 l2 :
  N_of_dec (l1 ++ l2) = (N_of_dec l1 * 10 ^ N.of_nat (length l2) + N_of_dec l2)%N.
Proof. unfold N_of_dec at 1. rewrite foldl_app. apply N_of_dec_from. Qed.

Lemma N_of_dec_single d : N_of_dec [d] = (d - 48)%N.
Proof. unfold N_of_dec. cbn [foldl]. lia. Qed.

(** What printing establishes: the digits denote the number, and there is no
    leading zero, so the text is the one [canonical decimal] regular
    expressions of the source accept. *)
Record dec_ok (n : N) (ds : ustring) : Prop := {
  dec_ok_value : N_of_dec ds = n;
  dec_ok_digits : Forall (fun c => is_digit c = true) ds;
  dec_ok_nonempty : ds <> [];
  dec_ok_zero : n = 0%N -> ds = [48%N];
  dec_ok_lead : n <> 0%N -> head ds <> Some 48%N }.

Lemma dec_aux_spec fuel n acc :
  (n < 2 ^ N.of_nat fuel)%N -> (0 < fuel)%nat ->
  exists ds, dec_aux fuel n acc = ds ++ acc /\ dec_ok n ds.
Proof.
  revert n acc. induction fuel as [|fuel IH]; intros n acc Hf Hpos; [lia|].
  cbn [dec_aux]. destruct (N.ltb_spec n 10) as [Hlt|Hge].
  - exists [(48 + n mod 10)%N]. rewrite N.mod_small by done.
    split; [done|]. constructor; try done.
    + rewrite N_of_dec_single. lia.
    + constructor; [|done]. unfold is_digit. lia.
    + intros ->. done.
    + cbn. intros ? [= ?]. lia.
  - assert (Hdiv : n = (10 * (n / 10) + n mod 10)%N) by (apply N.div_mod; lia).
    assert (Hmod : (n mod 10 < 10)%N) by (apply N.mod_lt; lia).
    rewrite Nat2N.inj_succ, N.pow_succ_r' in Hf.
    assert (Hfuel : (0 < fuel)%nat).
    { destruct fuel; [|lia]. cbn in Hf. lia. }
    destruct (IH (n / 10)%N ((48 + n mod 10)%N :: acc)) as (ds & Heq & Hok); [lia|done|].
    exists (ds ++ [(48 + n mod 10)%N]). rewrite Heq, <- app_assoc. split; [done|].
    destruct Hok as [Hv Hd Hne Hz Hl]. constructor.
    + rewrite N_of_dec_app, Hv, N_of_dec_single. cbn [length]. lia.
    + apply Forall_app. split; [done|]. constructor; [|done]. unfold is_digit. lia.
    + by destruct ds.
    + lia.
    + intros _. destruct ds; [done|]. cbn. apply Hl. lia.
Qed.

Lemma dec_of_N_ok n : dec_ok n (dec_of_N n).
Proof.
  unfold dec_of_N.
  destruct (dec_aux_spec (S (N.to_nat (N.size n))) n []) as (ds & -> & H).
  - eapply N.lt_le_trans; [apply N.size_gt|]. apply N.pow_le_mono_r; lia.
  - lia.
  - by rewrite app_nil_r.
Qed.

(** ** Exactness of integers of at most 53 bits *)

Lemma digits2_pos_bounds p :
  (2 ^ (Z.pos (digits2_pos p) - 1) <= Z.pos p < 2 ^ Z.pos (digits2_pos p))%Z.
Proof.
  induction p as [p IH|p IH|]; cbn [digits2_pos]; [| |lia];
    rewrite Pos2Z.inj_succ;
    (replace (Z.succ (Z.pos (digits2_pos p)) - 1)%Z
       with (Z.succ (Z.pos (digits2_pos p) - 1)) by lia);
    rewrite !Z.pow_succ_r by lia; lia.
Qed.

Lemma digits2_pos_le p n : (0 <= n)%Z -> (Z.pos p < 2 ^ n)%Z -> (Z.pos (digits2_pos p) <= n)%Z.
Proof.
  intros Hn Hp. destruct (digits2_pos_bounds p) as [Hlo _].
  assert (2 ^ (Z.pos (digits2_pos p) - 1) < 2 ^ n)%Z as H by lia.
  apply Z.pow_lt_mono_r_iff in H; lia.
Qed.

Lemma iter_xO p k :
  Z.pos (Pos.iter xO p k) = (Z.pos p * 2 ^ Z.pos k)%Z /\
  Z.pos (digits2_pos (Pos.iter xO p k)) = (Z.pos (digits2_pos p) + Z.pos k)%Z.
Proof.
  induction k as [|k IH] using Pos.peano_ind.
  - cbn. lia.
  - rewrite Pos.iter_succ. cbn [digits2_pos]. rewrite !Pos2Z.inj_succ, Z.pow_succ_r by lia. lia.
Qed.

(** A mantissa of exactly 53 bits needs no rounding. *)
Lemma binary_round_aux_exact s q e :
  Z.pos (digits2_pos q) = 53%Z -> (-1074 <= e <= 971)%Z ->
  binary_round_aux js_prec js_emax s (Z.pos q) e loc_Exact = S754_finite s q e.
Proof.
  intros Hd He. unfold binary_round_aux, shr_fexp.
  cbn [Zdigits2 shr_record_of_loc]. rewrite Hd.
  assert (fexp js_prec js_emax (53 + e) - e = 0)%Z as Hf.
  { unfold fexp, emin, js_prec, js_emax. lia. }
  rewrite Hf. cbn [shr shr_m loc_of_shr_record round_nearest_even Zdigits2 shr_record_of_loc].
  rewrite Hd, Hf. cbn [shr shr_m].
  replace (e <=? js_emax - js_prec)%Z with true; [done|].
  symmetry. apply Z.leb_le. unfold js_emax, js_prec. lia.
Qed.

Lemma binary_round_int s p :
  (Z.pos p <= MAX_SAFE_INTEGER)%Z ->
  num_to_Z (binary_round js_prec js_emax s p 0) = Some (cond_Zopp s (Z.pos p)).
Proof.
  intros Hp. unfold MAX_SAFE_INTEGER in Hp.
  assert (Hd : (Z.pos (digits2_pos p) <= 53)%Z) by (apply digits2_pos_le; lia).
  unfold binary_round, shl_align.
  assert (fexp js_prec js_emax (Z.pos (digits2_pos p) + 0) - 0
          = Z.pos (digits2_pos p) - 53)%Z as ->.
  { unfold fexp, emin, js_prec, js_emax. lia. }
  assert (fexp js_prec js_emax (Z.pos (digits2_pos p) + 0)
          = Z.pos (digits2_pos p) - 53)%Z as ->.
  { unfold fexp, emin, js_prec, js_emax. lia. }
  destruct (Z.pos (digits2_pos p) - 53)%Z as [|k|k] eqn:Hk; [|lia|].
  - rewrite binary_round_aux_exact by lia. cbn [num_to_Z]. do 2 f_equal. lia.
  - destruct (iter_xO p k) as [Hv Hdig].
    rewrite binary_round_aux_exact by lia. cbn [num_to_Z].
    change (0 <=? Z.neg k)%Z with false. cbn match.
    change (- Z.neg k)%Z with (Z.pos k). rewrite Hv.
    rewrite Z.mod_mul, Z.div_mul by lia. done.
Qed.

(** Every safe integer is represented exactly. *)
Lemma num_of_Z_exact z :
  (Z.abs z <= MAX_SAFE_INTEGER)%Z -> num_safe_Z (num_of_Z z) = Some z.
Proof.
  intros Hz. unfold num_safe_Z.
  assert (num_to_Z (num_of_Z z) = Some z) as ->.
  { destruct z as [|p|p]; [done| |]; apply binary_round_int; lia. }
  by rewrite (proj2 (Z.leb_le _ _) Hz).
Qed.

(** The literal a safe integer is printed as denotes that integer. *)
Lemma num_of_decimal_int neg m :
  (Z.of_N m <= MAX_SAFE_INTEGER)%Z ->
  num_of_decimal neg m 0 =
    match m with N0 => S754_zero neg | Npos p => num_of_Z (cond_Zopp neg (Z.pos p)) end.
Proof.
  intros Hm. destruct m as [|p]; [done|]. unfold num_of_decimal, num_of_Z.
  change (0 <=? 0)%Z with true. change (10 ^ 0)%Z with 1%Z. by rewrite Z.mul_1_r.
Qed.

Example num_tenth_not_integer : num_to_Z (num_of_decimal false 1 (-1)) = None.
Proof. vm_compute. reflexivity. Qed.

Example num_one_point_zero : num_safe_Z (num_of_decimal false 10 (-1)) = Some 1%Z.
Proof. vm_compute. reflexivity. Qed.

Example num_2_53_plus_1_rounds :
  num_of_decimal false 9007199254740993 0 = num_of_Z 9007199254740992.
Proof. vm_compute. reflexivity. Qed.

Example num_overflow : num_is_finite (num_of_decimal false 1 400) = false.
Proof. vm_compute. reflexivity. Qed.
