(* ===== verification/Utf16.v ===== *)
(** * UTF-16 text

    Surrogates, code points ([Array.from(s)]), the UTF-8 byte length of
    [Buffer.byteLength], the well-formedness scan of [string] and the scalar
    order [compareUnicodeScalars] of [src/src/model-interface.ts]. *)

From S2P Require Import Prelude.

Definition is_high (c : N) : bool := (0xd800 <=? c)%N && (c <=? 0xdbff)%N.
Definition is_low (c : N) : bool := (0xdc00 <=? c)%N && (c <=? 0xdfff)%N.

(** The scan of [string]: every surrogate unit starts a pair. *)
Fixpoint well_formed (s : ustring) : bool :=
  match s with
  | [] => true
  | c :: t =>
      if (c <? 0xd800)%N || (0xdfff <? c)%N then well_formed t
      else if (0xdbff <? c)%N then false
      else match t with
           | [] => false
           | d :: t' => if (d <? 0xdc00)%N || (0xdfff <? d)%N then false else well_formed t'
           end
  end.

Definition join_pair (h l : N) : N := (0x10000 + (h - 0xd800) * 0x400 + (l - 0xdc00))%N.

(** The characters a [for..of] loop over a string yields. *)
Fixpoint characters (s : ustring) : list ustring :=
  match s with
  | [] => []
  | h :: t =>
      if is_high h
      then match t with
           | l :: t' => if is_low l then [h; l] :: characters t' else [h] :: characters t
           | [] => [[h]]
           end
      else [h] :: characters t
  end.

(** [character.codePointAt(0)]. *)
Definition codePointAt0 (c : ustring) : N :=
  match c with
  | [] => 0
  | [h] => h
  | h :: l :: _ => if is_high h && is_low l then join_pair h l else h
  end.

Definition code_points (s : ustring) : list N := map codePointAt0 (characters s).

(** [String.fromCodePoint]. *)
Definition fromCodePoint (cp : N) : ustring :=
  if (cp <? 0x10000)%N then [cp]
  else [(0xd800 + (cp - 0x10000) / 0x400)%N; (0xdc00 + (cp - 0x10000) mod 0x400)%N].

(** Bytes of one code point in UTF-8; an unpaired surrogate is encoded as the
    three bytes of U+FFFD. *)
Definition utf8_size (cp : N) : N :=
  if (cp <? 0x80)%N then 1 else if (cp <? 0x800)%N then 2
  else if (cp <? 0x10000)%N then 3 else 4.

(** [Buffer.byteLength(s, "utf8")]. *)
Definition byteLength (s : ustring) : N :=
  foldr (fun cp n => (utf8_size cp + n)%N) 0%N (code_points s).

(** The UTF-8 bytes of a code point (of a lone surrogate, which Buffer.from
    replaces by U+FFFD, as well), and [Buffer.from(s, "utf8")]. *)
Definition utf8_of (cp : N) : list N :=
  let cp := if (0xd800 <=? cp)%N && (cp <=? 0xdfff)%N then 0xfffd%N else cp in
  if (cp <? 0x80)%N then [cp]
  else if (cp <? 0x800)%N then [0xc0 + cp / 64; 0x80 + cp mod 64]%N
  else if (cp <? 0x10000)%N
       then [0xe0 + cp / 4096; 0x80 + (cp / 64) mod 64; 0x80 + cp mod 64]%N
       else [0xf0 + cp / 262144; 0x80 + (cp / 4096) mod 64; 0x80 + (cp / 64) mod 64; 0x80 + cp mod 64]%N.

Definition utf8_bytes (s : ustring) : list N := concat (map utf8_of (code_points s)).

Fixpoint compare_lists (a b : list N) : comparison :=
  match a, b with
  | [], [] => Eq
  | [], _ :: _ => Lt
  | _ :: _, [] => Gt
  | x :: a', y :: b' =>
      match (x ?= y)%N with Eq => compare_lists a' b' | c => c end
  end.

(** [compareUnicodeScalars]: the first differing code point decides, then the
    lengths. *)
Definition compareUnicodeScalars (left right : ustring) : comparison :=
  compare_lists (code_points left) (code_points right).

(** ** Facts *)

(** A list of genuine 16-bit units. *)
Definition js_string (s : ustring) : Prop := Forall (fun c => (c < 0x10000)%N) s.

Lemma lit_units s : js_string (lit s).
Proof. induction s as [|a s IH]; cbn; constructor; [|done]. pose proof (Ascii.N_ascii_bounded a). lia. Qed.

Lemma lit_inj s t : lit s = lit t -> s = t.
Proof.
  revert t. induction s as [|a s IH]; intros [|b t]; cbn [lit]; intros H; try discriminate H; [done|].
  injection H as H1 H2. f_equal; [|auto]. apply (f_equal Ascii.ascii_of_N) in H1. by rewrite !Ascii.ascii_N_embedding in H1.
Qed.

Lemma concat_characters s : concat (characters s) = s.
Proof.
  enough (forall n s, (length s <= n)%nat -> concat (characters s) = s) as H by (by apply (H (length s) s)).
  clear s. induction n as [|n IH]; intros [|h t] Hn; cbn in *; try done; [lia|].
  destruct (is_high h).
  - destruct t as [|l t']; [done|]. destruct (is_low l); cbn in *.
    + do 2 f_equal. apply IH. lia.
    + f_equal. apply (IH (l :: t')). cbn. lia.
  - cbn. f_equal. apply IH. lia.
Qed.

Lemma join_pair_inv h l :
  is_high h = true -> is_low l = true -> fromCodePoint (join_pair h l) = [h; l].
Proof.
  unfold is_high, is_low, fromCodePoint, join_pair. intros Hh Hl.
  destruct (N.ltb_spec (0x10000 + (h - 0xd800) * 0x400 + (l - 0xdc00)) 0x10000); [lia|].
  f_equal; [|f_equal].
  - replace (_ - 0x10000)%N with ((l - 0xdc00) + (h - 0xd800) * 0x400)%N by lia.
    rewrite N.div_add by lia. rewrite N.div_small by lia. lia.
  - replace (_ - 0x10000)%N with ((l - 0xdc00) + (h - 0xd800) * 0x400)%N by lia.
    rewrite N.Div0.mod_add. rewrite N.mod_small by lia. lia.
Qed.

Lemma characters_fromCodePoint s :
  js_string s -> Forall (fun c => fromCodePoint (codePointAt0 c) = c) (characters s).
Proof.
  enough (forall n s, (length s <= n)%nat -> js_string s ->
    Forall (fun c => fromCodePoint (codePointAt0 c) = c) (characters s)) as H by (intros; by apply (H (length s) s)).
  clear s. unfold js_string.
  induction n as [|n IH]; intros [|h t] Hn Hs; cbn in *; try done; [lia|].
  apply Forall_cons_1 in Hs as [Hh Hs].
  assert (fromCodePoint (codePointAt0 [h]) = [h]) as H1.
  { unfold fromCodePoint. cbn. by rewrite (proj2 (N.ltb_lt _ _) Hh). }
  destruct (is_high h) eqn:Eh.
  - destruct t as [|l t']; [by constructor|].
    destruct (is_low l) eqn:El.
    + apply Forall_cons_1 in Hs as [_ Hs].
      constructor; [|apply IH; [cbn in Hn; lia|done]].
      cbn. rewrite Eh, El. cbn [andb]. by apply join_pair_inv.
    + constructor; [done|]. apply (IH (l :: t')); [cbn in *; lia|done].
  - constructor; [done|]. apply IH; [lia|done].
Qed.

Lemma code_points_decode s :
  js_string s -> concat (map fromCodePoint (code_points s)) = s.
Proof.
  intros Hs. rewrite <- (concat_characters s) at 2. f_equal.
  unfold code_points. rewrite map_map. rewrite <- (map_id (characters s)) at 2.
  apply map_ext_in. intros c Hc. apply list_elem_of_In in Hc.
  pose proof (characters_fromCodePoint s Hs) as H. rewrite Forall_forall in H.
  by apply H.
Qed.

Lemma code_points_inj a b : js_string a -> js_string b -> code_points a = code_points b -> a = b.
Proof.
  intros Ha Hb H. rewrite <- (code_points_decode a), <- (code_points_decode b) by done.
  by rewrite H.
Qed.

Lemma compare_lists_Eq a b : compare_lists a b = Eq <-> a = b.
Proof.
  revert b. induction a as [|x a IH]; intros [|y b]; cbn; try done.
  destruct (N.compare_spec x y); subst.
  - rewrite IH. naive_solver.
  - split; [done|]. intros [= -> _]. lia.
  - split; [done|]. intros [= -> _]. lia.
Qed.

Lemma compare_lists_op a b : compare_lists b a = CompOpp (compare_lists a b).
Proof.
  revert b. induction a as [|x a IH]; intros [|y b]; cbn; try done.
  rewrite (N.compare_antisym x y). destruct (x ?= y)%N; cbn; auto.
Qed.

Lemma compare_lists_lt_trans a b c :
  compare_lists a b = Lt -> compare_lists b c = Lt -> compare_lists a c = Lt.
Proof.
  revert b c. induction a as [|x a IH]; intros [|y b] [|z c]; cbn; try done.
  destruct (N.compare_spec x y), (N.compare_spec y z), (N.compare_spec x z); subst;
    try done; try lia; eauto.
Qed.

Lemma compare_lists_trans a b c :
  compare_lists a b <> Gt -> compare_lists b c <> Gt -> compare_lists a c <> Gt.
Proof.
  intros H1 H2. destruct (compare_lists a b) eqn:E1; [apply compare_lists_Eq in E1 as ->; done| |done].
  destruct (compare_lists b c) eqn:E2; [apply compare_lists_Eq in E2 as ->; congruence| |done].
  by rewrite (compare_lists_lt_trans a b c).
Qed.

Lemma compare_lists_lt_gt a b c :
  compare_lists a b = Lt -> compare_lists a c = Gt -> compare_lists b c = Gt.
Proof.
  intros H1 H2. rewrite compare_lists_op in H2.
  destruct (compare_lists c a) eqn:E; try done. rewrite compare_lists_op.
  by rewrite (compare_lists_lt_trans c a b).
Qed.

Lemma compareUnicodeScalars_op a b :
  compareUnicodeScalars b a = CompOpp (compareUnicodeScalars a b).
Proof. apply compare_lists_op. Qed.

Lemma compareUnicodeScalars_lt_gt a b c :
  compareUnicodeScalars a b = Lt -> compareUnicodeScalars a c = Gt ->
  compareUnicodeScalars b c = Gt.
Proof. apply compare_lists_lt_gt. Qed.

Lemma compareUnicodeScalars_eq a b :
  js_string a -> js_string b -> compareUnicodeScalars a b = Eq -> a = b.
Proof. intros Ha Hb H. apply code_points_inj; [done..|]. by apply compare_lists_Eq. Qed.

Lemma byteLength_ascii s : Forall (fun c => (c < 0x80)%N) s -> byteLength s = N.of_nat (length s).
Proof.
  induction s as [|c s IH]; intros H; [done|]. apply Forall_cons_1 in H as [Hc Hs].
  unfold byteLength, code_points in *. cbn [characters].
  assert (is_high c = false) as -> by (unfold is_high; lia).
  cbn [map foldr codePointAt0]. rewrite IH by done. unfold utf8_size.
  assert ((c <? 0x80)%N = true) as -> by lia. cbn [length]. lia.
Qed.

Lemma utf8_of_length cp : N.of_nat (length (utf8_of cp)) = utf8_size cp.
Proof.
  unfold utf8_of, utf8_size. destruct ((0xd800 <=? cp)%N && (cp <=? 0xdfff)%N) eqn:E.
  - apply andb_true_iff in E as [E1%N.leb_le E2%N.leb_le]. cbn.
    destruct (N.ltb_spec cp 0x80), (N.ltb_spec cp 0x800), (N.ltb_spec cp 0x10000); lia.
  - destruct (N.ltb_spec cp 0x80), (N.ltb_spec cp 0x800), (N.ltb_spec cp 0x10000); cbn; lia.
Qed.

(** [Buffer.byteLength] counts the bytes [Buffer.from] gives. *)
Lemma utf8_bytes_length s : N.of_nat (length (utf8_bytes s)) = byteLength s.
Proof.
  unfold utf8_bytes, byteLength. induction (code_points s) as [|cp l IH]; cbn; [done|].
  rewrite length_app, Nat2N.inj_add, utf8_of_length, IH. done.
Qed.
