(* ===== verification/JsData.v ===== *)
(** * JavaScript data values

    The plain values the program inspects through [unknown]: [js] has one
    constructor per [typeof] case of inert data. An object is the list of its
    own enumerable string properties in the order [Object.keys] gives them:
    array indices ascending, then the other names in insertion order.

    The file also holds the canonical writer of [src/src/model-interface.ts]
    ([compressCanonicalString], [compressCanonicalJson]). *)

From Stdlib Require Import SpecFloat.
From S2P Require Import Prelude JsNumber Utf16.

(** ** Errors *)

(** The class of a thrown error; [XFuel] is never thrown (the totality theorems
    say so): it marks a loop bound that was too small. *)
Inductive exn_class :=
| XModelInterface | XError | XSyntax | XRange | XType | XFuel.

Record exn := Exn { exn_name : exn_class; exn_message : ustring }.

#[export] Instance exn_class_eq_dec : EqDecision exn_class.
Proof. solve_decision. Defined.
#[export] Instance exn_eq_dec : EqDecision exn.
Proof. solve_decision. Defined.

(** [fail(path, message)] of model-interface.ts. *)
Definition fail {A} (path msg : ustring) : res exn A :=
  Err (Exn XModelInterface (path ++ $": " ++ msg)).

Definition require_at (b : bool) (path msg : ustring) : res exn unit :=
  if b then Ok tt else fail path msg.

(** ** Values *)

Inductive js :=
| JUndef
| JNull
| JBool (b : bool)
| JNum (x : number)
| JBig (z : Z)
| JStr (s : ustring)
| JArr (l : list js)
| JObj (o : list (ustring * js)).

Section js_ind'.
Context (P : js -> Prop).
Context (Hundef : P JUndef) (Hnull : P JNull) (Hbool : forall b, P (JBool b))
  (Hnum : forall x, P (JNum x)) (Hbig : forall z, P (JBig z)) (Hstr : forall s, P (JStr s))
  (Harr : forall l, Forall P l -> P (JArr l))
  (Hobj : forall o, Forall (fun kv => P kv.2) o -> P (JObj o)).
Fixpoint js_ind' (v : js) : P v :=
  match v with
  | JUndef => Hundef | JNull => Hnull | JBool b => Hbool b | JNum x => Hnum x
  | JBig z => Hbig z | JStr s => Hstr s
  | JArr l => Harr l ((fix go (l : list js) : Forall P l :=
      match l with
      | [] => @ListDef.Forall_nil _ _
      | x :: l' => @ListDef.Forall_cons _ _ x _ (js_ind' x) (go l')
      end) l)
  | JObj o => Hobj o ((fix go (o : list (ustring * js)) : Forall (fun kv => P kv.2) o :=
      match o with
      | [] => @ListDef.Forall_nil _ _
      | kv :: o' => @ListDef.Forall_cons _ _ kv _ (js_ind' kv.2) (go o')
      end) o)
  end.
End js_ind'.

(** ** Objects *)

Abbreviation object_t := (list (ustring * js)).

Fixpoint getf (o : object_t) (k : ustring) : js :=
  match o with
  | [] => JUndef
  | (k', v) :: o' => if bool_decide (k = k') then v else getf o' k
  end.

Definition keys (o : object_t) : list ustring := map fst o.

(** [Object.prototype.hasOwnProperty.call(o, k)] *)
Definition has_own (o : object_t) (k : ustring) : bool := bool_decide (k ∈ keys o).

(** A canonical array index: the decimal of an integer below 2^32 - 1. *)
Definition array_index (k : ustring) : option N :=
  let n := N_of_dec k in
  if bool_decide (k = dec_of_N n) && (n <? 4294967295)%N then Some n else None.

Definition key_before (k k' : ustring) : bool :=
  match array_index k, array_index k' with
  | Some i, Some j => (i <? j)%N
  | Some _, None => true
  | None, _ => false
  end.

(** Property assignment [o[k] = v]: an existing property keeps its place. *)
Fixpoint obj_set {A} (o : list (ustring * A)) (k : ustring) (v : A) : list (ustring * A) :=
  match o with
  | [] => [(k, v)]
  | (k', v') :: o' =>
      if bool_decide (k = k') then (k, v) :: o'
      else if key_before k k' then (k, v) :: o
      else (k', v') :: obj_set o' k v
  end.

Definition obj_of_entries {A} (es : list (ustring * A)) : list (ustring * A) :=
  foldl (fun o kv => obj_set o kv.1 kv.2) [] es.

(** The order every object keeps its own keys in. *)
Fixpoint own_key_order {A} (o : list (ustring * A)) : Prop :=
  match o with
  | [] => True
  | (k, _) :: o' =>
      Forall (fun kv => k <> kv.1 /\ key_before kv.1 k = false) o' /\ own_key_order o'
  end.

(** ** Canonical writing *)

(** The escape of one character of [compressCanonicalString]. *)
Definition hex_digit (n : N) : N := if (n <? 10)%N then (48 + n)%N else (87 + n)%N.

Definition escape_character (c : ustring) : ustring :=
  let codePoint := codePointAt0 c in
  if (codePoint =? 0x22)%N then [0x5c; 0x22]%N
  else if (codePoint =? 0x5c)%N then [0x5c; 0x5c]%N
  else if (codePoint =? 0x0a)%N then $"\n"
  else if (codePoint =? 0x0d)%N then $"\r"
  else if (codePoint <? 0x20)%N
       then $"\u00" ++ [hex_digit (codePoint / 16); hex_digit (codePoint mod 16)]
       else c.

Definition compressCanonicalString (value : ustring) : ustring :=
  [0x22%N] ++ concat (map escape_character (characters value)) ++ [0x22%N].

Fixpoint join (sep : ustring) (l : list ustring) : ustring :=
  match l with
  | [] => []
  | [x] => x
  | x :: l' => x ++ sep ++ join sep l'
  end.

Fixpoint compressCanonicalJson (value : js) : res exn ustring :=
  match value with
  | JNull => Ok ($"null")
  | JStr s => Ok (compressCanonicalString s)
  | JBool b => Ok (if b then $"true" else $"false")
  | JNum x =>
      match num_safe_Z x with
      | Some z => Ok (dec_of_Z z)
      | None => fail ($"canonical JSON") ($"expected a safe integer")
      end
  | JArr l =>
      items ← mapM compressCanonicalJson l;
      mret ($"[" ++ join ($",") items ++ $"]")
  | JObj o =>
      items ← mapM (fun kv => item ← compressCanonicalJson kv.2;
                              mret (compressCanonicalString kv.1 ++ $":" ++ item)) o;
      mret ($"{" ++ join ($",") items ++ $"}")
  | JUndef => fail ($"canonical JSON") ($"unsupported value type 'undefined'")
  | JBig _ => fail ($"canonical JSON") ($"unsupported value type 'bigint'")
  end.

(** ** Facts about objects *)

Lemma obj_set_append {A} (o : list (ustring * A)) k v :
  Forall (fun kv => kv.1 <> k /\ key_before k kv.1 = false) o ->
  obj_set o k v = o ++ [(k, v)].
Proof.
  induction o as [|[k' v'] o IH]; intros H; cbn; [done|].
  apply Forall_cons in H as [[Hne Hb] H]. cbn in *.
  rewrite bool_decide_eq_false_2 by congruence. rewrite Hb. by rewrite IH.
Qed.

Lemma own_key_order_app {A} (o1 : list (ustring * A)) k v o2 :
  own_key_order (o1 ++ (k, v) :: o2) ->
  Forall (fun kv => kv.1 <> k /\ key_before k kv.1 = false) o1.
Proof.
  induction o1 as [|[k' v'] o1 IH]; cbn; intros H; [done|].
  destruct H as [H1 H2]. constructor; [|by apply IH].
  apply Forall_app in H1 as [_ H1]. apply Forall_cons in H1 as [[Hne Hb] _]. done.
Qed.

(** Writing an object's own properties one after the other, in their order,
    rebuilds the object. *)
Lemma foldl_obj_set {A} (o1 o2 : list (ustring * A)) :
  own_key_order (o1 ++ o2) ->
  foldl (fun o kv => obj_set o kv.1 kv.2) o1 o2 = o1 ++ o2.
Proof.
  revert o1. induction o2 as [|[k v] o2 IH]; intros o1 H; cbn; [by rewrite app_nil_r|].
  rewrite obj_set_append by by eapply own_key_order_app.
  rewrite IH; by rewrite <- app_assoc.
Qed.

Lemma getf_obj_set o k v k' :
  getf (obj_set o k v) k' = if bool_decide (k' = k) then v else getf o k'.
Proof.
  induction o as [|[k1 v1] o IH]; cbn; [done|].
  destruct (decide (k = k1)) as [->|Hne].
  - rewrite (bool_decide_eq_true_2 (k1 = k1)) by done. cbn.
    by destruct (bool_decide (k' = k1)).
  - rewrite (bool_decide_eq_false_2 (k = k1)) by done.
    destruct (key_before k k1); cbn; [done|]. rewrite IH.
    case_bool_decide; case_bool_decide; congruence.
Qed.

Lemma getf_has_own o k : has_own o k = false -> getf o k = JUndef.
Proof.
  unfold has_own, keys. rewrite bool_decide_eq_false.
  induction o as [|[k1 v1] o IH]; cbn; [done|].
  rewrite elem_of_cons. intros H. rewrite bool_decide_eq_false_2 by tauto. apply IH. tauto.
Qed.
