(* ===== verification/StrictJson.v ===== *)
(** * The strict JSON parser

    [StrictJsonParser] of [src/src/model-interface.ts]: a recursive-descent
    parser over UTF-16 units that rejects duplicate keys, unpaired surrogates,
    non-finite numbers, nesting beyond 128 containers and texts beyond 65535
    UTF-8 bytes. The same parser with those rejections switched off is
    [JSON.parse], which [decodeMirrorMessage] applies to the same text.

    The private field [offset] is the pair of the offset and the text that
    remains. A container is parsed by recursion on the nesting that is still
    allowed, a member list or a string by a loop whose bound is the length of
    the remaining text; [strict_json_total] shows that no bound is ever hit. *)

From Stdlib Require Import SpecFloat.
From S2P Require Import Prelude JsNumber Utf16 JsData.

Definition MAX_MODEL_INTERFACE_MESSAGE_BYTES : N := 65535.
Definition MAX_MODEL_INTERFACE_JSON_DEPTH : nat := 128.

Record pst := Pst { offset : N; rest : ustring }.
Abbreviation parser A := (stres pst exn A).

Record dialect := Dialect {
  reject_duplicates : bool;
  reject_surrogates : bool;
  reject_nonfinite : bool }.

Definition strict : dialect := Dialect true true true.
Definition lenient : dialect := Dialect false false false.

Definition advance (n : nat) (s : pst) : pst :=
  Pst (offset s + N.of_nat n) (drop n (rest s)).

Definition peek (s : pst) : option N := head (rest s).

Definition syntax {A} (message : ustring) : parser A :=
  fun s => fail ($"strict JSON at offset " ++ dec_of_N (offset s)) message.

Definition out_of_fuel {A} : parser A := fun _ => Err (Exn XFuel []).

(** The error is reported at the offset of [s0]. *)
Definition syntax_at {A} (s0 : pst) (message : ustring) : parser A := fun _ => syntax message s0.

Definition get : parser pst := fun s => Ok (s, s).

Definition skip (n : nat) : parser unit := fun s => Ok (tt, advance n s).

(** ** Lexical level *)

Definition is_ws (c : N) : bool :=
  (c =? 0x09)%N || (c =? 0x0a)%N || (c =? 0x0d)%N || (c =? 0x20)%N.

Fixpoint ws_length (t : ustring) : nat :=
  match t with
  | [] => 0
  | c :: t' => if is_ws c then S (ws_length t') else 0
  end.

Definition whitespace : parser unit := fun s => skip (ws_length (rest s)) s.

Fixpoint digits_length (t : ustring) : nat :=
  match t with
  | [] => 0
  | c :: t' => if is_digit c then S (digits_length t') else 0
  end.

(** The groups of the number regular expression of the parser: an optional
    sign, an integer part without leading zero, an optional fraction, an
    optional exponent. *)
Definition match_sign (t : ustring) : bool * ustring :=
  match t with
  | c :: t' => if (c =? 0x2d)%N then (true, t') else (false, t)
  | [] => (false, [])
  end.

(** The length of the integer part; 0 is no match. *)
Definition match_int (t : ustring) : nat :=
  match t with
  | c :: _ => if (c =? 48)%N then 1%nat else digits_length t
  | [] => 0%nat
  end.

(** The digits of the fraction: a point without a digit after it is not one. *)
Definition match_fraction (t : ustring) : ustring :=
  match t with
  | c :: t' => if (c =? 0x2e)%N then take (digits_length t') t' else []
  | [] => []
  end.

Definition exponent_digits (lsign : nat) (negative : bool) (t : ustring) : nat * Z :=
  match digits_length t with
  | O => (0%nat, 0%Z)
  | S n => let z := Z.of_N (N_of_dec (take (S n) t)) in
           ((lsign + S n)%nat, if negative then (- z)%Z else z)
  end.

(** The length of the exponent part and its value. *)
Definition match_exponent (t : ustring) : nat * Z :=
  match t with
  | c :: t' =>
      if (c =? 0x65)%N || (c =? 0x45)%N
      then match t' with
           | d :: t'' => if (d =? 0x2b)%N then exponent_digits 2 false t''
                         else if (d =? 0x2d)%N then exponent_digits 2 true t''
                         else exponent_digits 1 false t'
           | [] => (0%nat, 0%Z)
           end
      else (0%nat, 0%Z)
  | [] => (0%nat, 0%Z)
  end.

(** The length of the match and the number it denotes. *)
Definition number_match (t : ustring) : option (nat * number) :=
  let '(negative, t0) := match_sign t in
  match match_int t0 with
  | O => None
  | S n =>
      let t1 := drop (S n) t0 in
      let frac := match_fraction t1 in
      let lfrac := match frac with [] => 0%nat | _ => S (length frac) end in
      let '(lexp, e) := match_exponent (drop lfrac t1) in
      Some (((if negative then 1 else 0) + S n + lfrac + lexp)%nat,
            num_of_decimal negative (N_of_dec (take (S n) t0 ++ frac))
              (e - Z.of_nat (length frac)))
  end.

Definition hex_value (c : N) : option N :=
  if is_digit c then Some (c - 48)%N
  else if (0x41 <=? c)%N && (c <=? 0x46)%N then Some (c - 0x37)%N
  else if (0x61 <=? c)%N && (c <=? 0x66)%N then Some (c - 0x57)%N
  else None.

Definition hex4 : parser N := fun s =>
  match rest s with
  | a :: b :: c :: d :: _ =>
      match hex_value a, hex_value b, hex_value c, hex_value d with
      | Some x, Some y, Some z, Some w =>
          Ok ((x * 4096 + y * 256 + z * 16 + w)%N, advance 4 s)
      | _, _, _, _ => syntax ($"incomplete Unicode escape") s
      end
  | _ => syntax ($"incomplete Unicode escape") s
  end.

Section dialect.
Context (D : dialect).

Definition number_ : parser js := fun s =>
  match number_match (rest s) with
  | None => syntax ($"invalid number") s
  | Some (len, x) =>
      let s' := advance len s in
      if reject_nonfinite D && negb (num_is_finite x)
      then syntax ($"number is outside the finite range") s'
      else Ok (JNum x, s')
  end.

Definition literal (source : ustring) (result : js) : parser js := fun s =>
  if bool_decide (take (length source) (rest s) = source)
  then Ok (result, advance (length source) s)
  else syntax ($"expected '" ++ source ++ $"'") s.

Definition low_escape (first : N) : parser ustring :=
  s ← get;
  if bool_decide (take 2 (rest s) = $"\u") then
    _ ← skip 2; second ← hex4;
    if is_low second then mret (fromCodePoint (join_pair first second))
    else syntax ($"high surrogate is not followed by a low surrogate")
  else syntax ($"high surrogate is not followed by a low surrogate").

Definition unicodeEscape : parser ustring :=
  first ← hex4;
  if reject_surrogates D then
    if is_high first then low_escape first
    else if is_low first then syntax ($"unpaired low surrogate")
    else mret (fromCodePoint first)
  else mret [first].

(** The body of one escape: [None] is the default case of the switch. *)
Definition simple_escape (c : N) : option N :=
  if (c =? 0x22)%N then Some 0x22%N
  else if (c =? 0x5c)%N then Some 0x5c%N
  else if (c =? 0x2f)%N then Some 0x2f%N
  else if (c =? 0x62)%N then Some 0x08%N
  else if (c =? 0x66)%N then Some 0x0c%N
  else if (c =? 0x6e)%N then Some 0x0a%N
  else if (c =? 0x72)%N then Some 0x0d%N
  else if (c =? 0x74)%N then Some 0x09%N
  else None.

Definition string_escape : parser ustring := fun s =>
  let s' := advance 1 s in
  match peek s with
  | Some c =>
      if (c =? 0x75)%N then unicodeEscape s'
      else match simple_escape c with
           | Some unit => Ok ([unit], s')
           | None => syntax ($"invalid string escape") s'
           end
  | None => syntax ($"invalid string escape") s'
  end.

(** One raw unit that was just consumed, with the pairing check. *)
Definition raw_unit (unit : N) : parser ustring := fun s =>
  if (unit <? 0x20)%N then syntax ($"unescaped control character in string") s
  else if reject_surrogates D && (is_high unit || is_low unit) then
    if (0xdbff <? unit)%N then syntax ($"unpaired UTF-16 surrogate") s
    else match peek s with
         | None => syntax ($"unpaired UTF-16 surrogate") s
         | Some low =>
             if is_low low then Ok ([unit; low], advance 1 s)
             else syntax ($"unpaired UTF-16 surrogate") s
         end
  else Ok ([unit], s).

Fixpoint string_loop (fuel : nat) (result : ustring) : parser ustring :=
  match fuel with
  | O => out_of_fuel
  | S fuel' =>
      s ← get;
      match peek s with
      | None => syntax ($"unterminated string")
      | Some char =>
          _ ← skip 1;
          if (char =? 0x22)%N then mret result
          else if (char =? 0x5c)%N then
            chunk ← string_escape; string_loop fuel' (result ++ chunk)
          else
            chunk ← raw_unit char; string_loop fuel' (result ++ chunk)
      end
  end.

Definition string_ : parser ustring :=
  _ ← skip 1; s ← get; string_loop (S (length (rest s))) [].

(** ** Structural level *)

Fixpoint members (fuel : nat) (child : parser js) (result : object_t) : parser js :=
  match fuel with
  | O => out_of_fuel
  | S fuel' =>
      _ ← whitespace;
      s0 ← get;
      if bool_decide (peek s0 = Some 0x22%N) then
        key ← string_;
        if reject_duplicates D && has_own result key
        then syntax_at s0 ($"duplicate object key '" ++ key ++ $"'")
        else
          _ ← whitespace;
          s1 ← get;
          if bool_decide (peek s1 = Some 0x3a%N) then
            _ ← skip 1;
            v ← child;
            _ ← whitespace;
            s2 ← get;
            if bool_decide (peek s2 = Some 0x7d%N)
            then _ ← skip 1; mret (JObj (obj_set result key v))
            else if bool_decide (peek s2 = Some 0x2c%N)
            then _ ← skip 1; members fuel' child (obj_set result key v)
            else syntax ($"expected ',' or '}' after object member")
          else syntax ($"expected ':' after object key")
      else syntax ($"expected an object key")
  end.

Definition object_ (child : parser js) : parser js :=
  _ ← skip 1; _ ← whitespace;
  s ← get;
  if bool_decide (peek s = Some 0x7d%N) then _ ← skip 1; mret (JObj [])
  else members (S (length (rest s))) child [].

Fixpoint elements_ (fuel : nat) (child : parser js) (result : list js) : parser js :=
  match fuel with
  | O => out_of_fuel
  | S fuel' =>
      v ← child;
      _ ← whitespace;
      s ← get;
      if bool_decide (peek s = Some 0x5d%N)
      then _ ← skip 1; mret (JArr (result ++ [v]))
      else if bool_decide (peek s = Some 0x2c%N)
      then _ ← skip 1; elements_ fuel' child (result ++ [v])
      else syntax ($"expected ',' or ']' after array element")
  end.

Definition array_ (child : parser js) : parser js :=
  _ ← skip 1; _ ← whitespace;
  s ← get;
  if bool_decide (peek s = Some 0x5d%N) then _ ← skip 1; mret (JArr [])
  else elements_ (S (length (rest s))) child [].

(** [containerDepth]: [allowed] is 128 minus the depth of the value. *)
Definition too_deep {A} : parser A :=
  syntax ($"JSON nesting exceeds 128").

Fixpoint value_ (allowed : nat) : parser js :=
  _ ← whitespace;
  s ← get;
  match peek s with
  | Some char =>
      if (char =? 0x7b)%N
      then match allowed with O => too_deep | S a => object_ (value_ a) end
      else if (char =? 0x5b)%N
      then match allowed with O => too_deep | S a => array_ (value_ a) end
      else if (char =? 0x22)%N then str ← string_; mret (JStr str)
      else if (char =? 0x74)%N then literal ($"true") (JBool true)
      else if (char =? 0x66)%N then literal ($"false") (JBool false)
      else if (char =? 0x6e)%N then literal ($"null") JNull
      else if (char =? 0x2d)%N || is_digit char then number_
      else syntax ($"expected a JSON value")
  | None => syntax ($"expected a JSON value")
  end.

Definition parse_all (allowed : nat) : parser js :=
  v ← value_ allowed;
  _ ← whitespace;
  s ← get;
  match rest s with
  | [] => mret v
  | _ => syntax ($"trailing characters after JSON value")
  end.

Definition parse_ (allowed : nat) (text : ustring) : res exn js :=
  fst <$> parse_all allowed (Pst 0 text).
End dialect.

(** [parseStrictJson]. *)
Definition parseStrictJson (text : ustring) : res exn js :=
  let bytes := byteLength text in
  if (MAX_MODEL_INTERFACE_MESSAGE_BYTES <? bytes)%N
  then fail ($"strict JSON")
         ($"message is " ++ dec_of_N bytes ++ $" UTF-8 bytes; maximum is 65535")
  else parse_ strict MAX_MODEL_INTERFACE_JSON_DEPTH text.

(** [JSON.parse]: no limit on nesting; a text cannot nest deeper than it is
    long, so the allowance below is never used up. Its error messages are the
    engine's; only the class is modelled. *)
Definition JSON_parse (text : ustring) : res exn js :=
  match parse_ lenient (MAX_MODEL_INTERFACE_JSON_DEPTH + length text) text with
  | Ok v => Ok v
  | Err e => match exn_name e with
             | XFuel => Err e
             | _ => Err (Exn XSyntax ($"invalid JSON"))
             end
  end.
