(* ===== verification/JsText.v ===== *)
(** * JavaScript text conversions

    What the program uses of the language to turn data into text and back:
    [JSON.stringify], template conversion, [BigInt] of a string or a number, and
    property access on a value of unknown type. The text of a number that is not
    a safe integer ([Number.prototype.toString]) is the parameter
    [number_text]. *)

From Stdlib Require Import SpecFloat.
From S2P Require Import Prelude JsNumber Utf16 JsData StrictJson.

Definition throw {A} (c : exn_class) (msg : string) : res exn A := Err (Exn c (lit msg)).

(** ** JSON.stringify *)

Definition hex4_of (c : N) : ustring :=
  map hex_digit [c / 4096; (c / 256) mod 16; (c / 16) mod 16; c mod 16]%N.

(** [QuoteJSONString]: a unit, or a pair, at a time; lone surrogates and control
    characters are escaped. *)
Definition quote_character (c : ustring) : ustring :=
  match c with
  | [u] =>
      if (u =? 0x22)%N then [0x5c; 0x22]%N
      else if (u =? 0x5c)%N then [0x5c; 0x5c]%N
      else if (u =? 0x08)%N then $"\b"
      else if (u =? 0x09)%N then $"\t"
      else if (u =? 0x0a)%N then $"\n"
      else if (u =? 0x0c)%N then $"\f"
      else if (u =? 0x0d)%N then $"\r"
      else if (u <? 0x20)%N || is_high u || is_low u then $"\u" ++ hex4_of u
      else c
  | _ => c
  end.

Definition quote_string (s : ustring) : ustring :=
  [0x22%N] ++ concat (map quote_character (characters s)) ++ [0x22%N].

Section text.
Context (number_text : number -> ustring).

(** [String(x)] *)
Definition num_text (x : number) : ustring :=
  match num_safe_Z x with Some z => dec_of_Z z | None => number_text x end.

(** [JSON.stringify]; [None] stands for [undefined]. In arrays undefined is
    written null, in objects the property is left out. A bigint throws. *)
Fixpoint stringify (v : js) : res exn (option ustring) :=
  match v with
  | JUndef => Ok None
  | JNull => Ok (Some ($"null"))
  | JBool b => Ok (Some (if b then $"true" else $"false"))
  | JNum x => Ok (Some (if num_is_finite x then num_text x else $"null"))
  | JBig _ => throw XType "Do not know how to serialize a BigInt"
  | JStr s => Ok (Some (quote_string s))
  | JArr l =>
      items ← mapM (fun x => default ($"null") <$> stringify x) l;
      mret (Some ($"[" ++ join ($",") items ++ $"]"))
  | JObj o =>
      items ← mapM (fun kv => option_map (fun t => quote_string kv.1 ++ $":" ++ t) <$> stringify kv.2) o;
      mret (Some ($"{" ++ join ($",") (omap id items) ++ $"}"))
  end.

(** The value of [JSON.stringify(v)]. *)
Definition stringified (v : js) : res exn js :=
  (fun t => match t with Some t => JStr t | None => JUndef end) <$> stringify v.

(** [`${v}`]: an object without its own (never callable) [toString] is
    "[object Object]", one with it cannot be converted. *)
Fixpoint template_text (v : js) : res exn ustring :=
  match v with
  | JUndef => Ok ($"undefined")
  | JNull => Ok ($"null")
  | JBool b => Ok (if b then $"true" else $"false")
  | JNum x => Ok (num_text x)
  | JBig z => Ok (dec_of_Z z)
  | JStr s => Ok s
  | JArr l =>
      join ($",") <$> mapM (fun x => match x with JUndef | JNull => Ok [] | _ => template_text x end) l
  | JObj o =>
      if has_own o ($"toString") then throw XType "Cannot convert object to primitive value"
      else Ok ($"[object Object]")
  end.

(** The message of [new Error(v)]. *)
Definition error_text (v : js) : res exn ustring :=
  match v with JUndef => Ok [] | _ => template_text v end.
End text.

(** ** Searching a text *)

Fixpoint prefixed (p s : ustring) : bool :=
  match p, s with
  | [], _ => true
  | a :: p', b :: s' => (a =? b)%N && prefixed p' s'
  | _ :: _, [] => false
  end.

Fixpoint contains (p s : ustring) : bool :=
  prefixed p s || match s with [] => false | _ :: s' => contains p s' end.

Lemma prefixed_spec p s : prefixed p s = true <-> exists t, s = p ++ t.
Proof.
  revert s. induction p as [|a p IH]; intros s; cbn; [split; eauto|].
  destruct s as [|b s]; [split; [done|by intros [t ?]]|].
  rewrite andb_true_iff, N.eqb_eq, IH. split.
  - intros [-> [t ->]]. by exists t.
  - intros [t [= -> ->]]. split; [done|by exists t].
Qed.

Lemma contains_spec p s : contains p s = true <-> exists a t, s = a ++ p ++ t.
Proof.
  induction s as [|c s IH]; cbn [contains]; rewrite orb_true_iff, prefixed_spec.
  - split; [intros [[t ->]|]; [by exists [], t|done]|]. intros (a & t & H). left.
    destruct a; [by exists t|done].
  - rewrite IH. split.
    + intros [[t ->]|(a & t & ->)]; [by exists [], t|by exists (c :: a), t].
    + intros ([|x a] & t & H); [left; by exists t|]. right. injection H as _ ->. by exists a, t.
Qed.

(** ** BigInt *)

Definition is_space (c : N) : bool :=
  (9 <=? c)%N && (c <=? 13)%N || (c =? 32)%N || (c =? 0xa0)%N || (c =? 0x1680)%N ||
  (0x2000 <=? c)%N && (c <=? 0x200a)%N || (c =? 0x2028)%N || (c =? 0x2029)%N || (c =? 0x202f)%N ||
  (c =? 0x205f)%N || (c =? 0x3000)%N || (c =? 0xfeff)%N.

Fixpoint drop_spaces (s : ustring) : ustring :=
  match s with
  | c :: s' => if is_space c then drop_spaces s' else s
  | [] => []
  end.

Definition trim (s : ustring) : ustring := rev (drop_spaces (rev (drop_spaces s))).

(** The value of a digit in the given radix. *)
Definition digit_in (radix c : N) : option N :=
  match hex_value c with
  | Some d => if (d <? radix)%N then Some d else None
  | None => None
  end.

Fixpoint radix_value (radix : N) (s : ustring) (acc : N) : option N :=
  match s with
  | [] => Some acc
  | c :: s' => d ← digit_in radix c; radix_value radix s' (acc * radix + d)%N
  end.

(** At least one digit, and nothing else. *)
Definition digits_value (radix : N) (s : ustring) : option N :=
  match s with [] => None | _ => radix_value radix s 0%N end.

(** [StringToBigInt] after trimming. *)
Definition big_literal (s : ustring) : option Z :=
  match s with
  | [] => Some 0%Z
  | 0x2d%N :: s' => Z.opp <$> (Z.of_N <$> digits_value 10 s')
  | 0x2b%N :: s' => Z.of_N <$> digits_value 10 s'
  | 0x30%N :: c :: s' =>
      if (c =? 0x78)%N || (c =? 0x58)%N then Z.of_N <$> digits_value 16 s'
      else if (c =? 0x6f)%N || (c =? 0x4f)%N then Z.of_N <$> digits_value 8 s'
      else if (c =? 0x62)%N || (c =? 0x42)%N then Z.of_N <$> digits_value 2 s'
      else Z.of_N <$> digits_value 10 s
  | _ => Z.of_N <$> digits_value 10 s
  end.

Definition BigInt_of_string (s : ustring) : res exn Z :=
  match big_literal (trim s) with
  | Some z => Ok z
  | None => Err (Exn XSyntax ($"Cannot convert " ++ s ++ $" to a BigInt"))
  end.

Definition BigInt_of_number (x : number) : res exn Z :=
  match num_to_Z x with
  | Some z => Ok z
  | None => throw XRange "The number cannot be converted to a BigInt because it is not an integer"
  end.

(** ** Values of unknown type *)

(** [v.name], for a name that no prototype defines. *)
Definition get_prop (v : js) (name : string) : res exn js :=
  match v with
  | JUndef | JNull => throw XType "Cannot read properties of undefined or null"
  | JObj o => Ok (getf o (lit name))
  | _ => Ok JUndef
  end.

(** [name in v], for a name that no prototype defines. *)
Definition in_prop (name : string) (v : js) : res exn bool :=
  match v with
  | JObj o => Ok (has_own o (lit name))
  | JArr _ => Ok false
  | _ => throw XType "Cannot use 'in' operator to search for a property in a primitive"
  end.

(** [a ?? b] *)
Definition nullish (a b : js) : js := match a with JUndef | JNull => b | _ => a end.

(** The decimal text of an integer is read back exactly. *)
Lemma radix_value_app r a b n :
  radix_value r (a ++ b) n = (m ← radix_value r a n; radix_value r b m).
Proof.
  revert n. induction a as [|c a IH]; intros n; cbn; [done|].
  destruct (digit_in r c); cbn; [apply IH|done].
Qed.

Lemma digit_in_dec c : is_digit c = true -> digit_in 10 c = Some (c - 48)%N.
Proof.
  intros H. unfold digit_in, hex_value. rewrite H. unfold is_digit in H.
  assert ((c - 48 <? 10)%N = true) as -> by lia. done.
Qed.

Lemma radix_value_dec s acc :
  Forall (fun c => is_digit c = true) s ->
  radix_value 10 s acc = Some (foldl (fun a d => (10 * a + (d - 48))%N) acc s).
Proof.
  intros H. revert acc. induction H as [|c s Hc _ IH]; intros acc; cbn; [done|].
  rewrite digit_in_dec by done. cbn. rewrite IH. do 3 f_equal. lia.
Qed.

Lemma digits_value_dec n : digits_value 10 (dec_of_N n) = Some n.
Proof.
  destruct (dec_of_N_ok n) as [Hv Hd Hne _ _]. unfold digits_value.
  destruct (dec_of_N n) as [|c s] eqn:E; [done|]. rewrite radix_value_dec by done.
  unfold N_of_dec in Hv. by rewrite Hv.
Qed.

Lemma drop_spaces_id s : (forall c s', s = c :: s' -> is_space c = false) -> drop_spaces s = s.
Proof. destruct s as [|c s]; [done|]. intros H. cbn. by rewrite (H c s). Qed.

Lemma trim_id s : Forall (fun c => is_space c = false) s -> trim s = s.
Proof.
  intros H. unfold trim. rewrite (drop_spaces_id s).
  2: { intros c s' ->. by apply Forall_cons_1 in H as [? _]. }
  rewrite drop_spaces_id; [apply rev_involutive|].
  intros c s' E. assert (c ∈ rev s) as Hc by (rewrite E; by left).
  apply list_elem_of_In, in_rev, list_elem_of_In in Hc.
  rewrite Forall_forall in H. by apply H.
Qed.

Lemma digit_not_space c : is_digit c = true -> is_space c = false.
Proof. unfold is_digit, is_space. lia. Qed.

Lemma BigInt_of_dec_of_Z z : BigInt_of_string (dec_of_Z z) = Ok z.
Proof.
  assert (forall n, Forall (fun c => is_space c = false) (dec_of_N n)) as Hsp.
  { intros n. destruct (dec_of_N_ok n) as [_ H _ _ _]. eapply Forall_impl; [exact H|].
    intros c. apply digit_not_space. }
  assert (forall n, n <> 0%N -> big_literal (dec_of_N n) = Some (Z.of_N n)) as Hpos.
  { intros n Hn. pose proof (digits_value_dec n) as Hv.
    destruct (dec_of_N_ok n) as [_ Hd Hne _ Hl]. specialize (Hl Hn).
    destruct (dec_of_N n) as [|c s] eqn:E; [done|]. cbn in Hl.
    apply Forall_cons_1 in Hd as [Hc _]. unfold is_digit in Hc.
    assert (big_literal (c :: s) = Z.of_N <$> digits_value 10 (c :: s)) as ->; [|by rewrite Hv].
    assert (c <> 48)%N as Hc0 by congruence. unfold big_literal.
    assert (c = 49 \/ c = 50 \/ c = 51 \/ c = 52 \/ c = 53 \/ c = 54 \/ c = 55 \/ c = 56 \/ c = 57)%N as Hcs by lia.
    clear -Hcs. repeat destruct Hcs as [-> | Hcs]; try done. by subst. }
  unfold BigInt_of_string. destruct z as [|p|p]; [done| |].
  - change (dec_of_Z (Z.pos p)) with (dec_of_N (N.pos p)). rewrite trim_id by done. by rewrite Hpos.
  - change (dec_of_Z (Z.neg p)) with (45%N :: dec_of_N (N.pos p)).
    rewrite trim_id by by constructor. cbn [big_literal]. by rewrite digits_value_dec.
Qed.

(** [v === "s"] *)
Definition is_str (v : js) (s : string) : bool :=
  match v with JStr x => bool_decide (x = lit s) | _ => false end.
