(* ===== verification/StrictJsonFacts.v ===== *)
(** * Correctness of the strict JSON parser

    A postcondition calculus for the parser monad ([wp]: no loop bound is hit,
    and a successful run satisfies the postcondition), the specification of
    each parsing function in it, and the theorems on [parseStrictJson]:
    termination, what an accepted value satisfies, agreement with
    [JSON.parse], and the round trip with the canonical writer. *)

From Stdlib Require Import SpecFloat.
From S2P Require Import Prelude JsNumber Utf16 JsData StrictJson.

(** ** The calculus *)

Definition wp {A} (p : parser A) (s : pst) (Q : A -> pst -> Prop) : Prop :=
  match p s with
  | Ok (a, s') => Q a s'
  | Err e => exn_name e = XModelInterface
  end.

Section wp.
Context {A B : Type}.
Implicit Types (p : parser A) (Q : A -> pst -> Prop).

Lemma wp_mono p s Q Q' : wp p s Q -> (forall a s', Q a s' -> Q' a s') -> wp p s Q'.
Proof. unfold wp. destruct (p s) as [[a s']|e]; auto. Qed.

Lemma wp_bind p (f : A -> parser B) s R :
  wp p s (fun a s' => wp (f a) s' R) -> wp (p ≫= f) s R.
Proof. unfold wp, mbind, stres_mbind. by destruct (p s) as [[a s']|e]. Qed.

Lemma wp_ret (a : A) s Q : Q a s -> wp (mret a) s Q.
Proof. done. Qed.

Lemma wp_syntax m s Q : wp (syntax m) s Q.
Proof. done. Qed.

Lemma wp_syntax_at s0 m s Q : wp (syntax_at s0 m) s Q.
Proof. done. Qed.

Lemma wp_if (b : bool) p p' s Q :
  (b = true -> wp p s Q) -> (b = false -> wp p' s Q) -> wp (if b then p else p') s Q.
Proof. destruct b; auto. Qed.
End wp.

Lemma wp_skip n s (Q : unit -> pst -> Prop) : Q tt (advance n s) -> wp (skip n) s Q.
Proof. done. Qed.

Lemma wp_get s (Q : pst -> pst -> Prop) : Q s s -> wp get s Q.
Proof. done. Qed.

#[export] Hint Resolve wp_syntax wp_syntax_at : mirror.

(** [left s]: the units still to be read. *)
Definition left (s : pst) : nat := length (rest s).

Lemma left_advance n s : left (advance n s) = (left s - n)%nat.
Proof. unfold left, advance. cbn. by rewrite length_drop. Qed.

Lemma peek_left s c : peek s = Some c -> (0 < left s)%nat.
Proof. unfold peek, left. destruct (rest s); cbn; [done|lia]. Qed.

Lemma wp_whitespace s (Q : unit -> pst -> Prop) :
  (forall s', (left s' <= left s)%nat -> Q tt s') -> wp whitespace s Q.
Proof. intros H. apply wp_skip. apply H. rewrite left_advance. lia. Qed.

(** One step of symbolic execution. *)
Ltac wp_step :=
  match goal with
  | |- wp (mbind _ _) _ _ => apply wp_bind
  | |- wp (syntax _) _ _ => apply wp_syntax
  | |- wp (syntax_at _ _) _ _ => apply wp_syntax_at
  | |- wp (skip _) _ _ => apply wp_skip
  | |- wp get _ _ => apply wp_get
  | |- wp whitespace _ _ => apply wp_whitespace; intros ? ?
  | |- wp (mret _) _ _ => apply wp_ret
  | |- wp (if _ then _ else _) _ _ =>
      let H := fresh "Hif" in
      apply wp_if; intros H;
      rewrite ?bool_decide_eq_true in H; rewrite ?bool_decide_eq_false in H
  end.
Ltac wp_steps := repeat (wp_step; cbn beta).

(** ** Well-formedness is closed under concatenation *)

Lemma well_formed_app a b : well_formed a = true -> well_formed b = true -> well_formed (a ++ b) = true.
Proof.
  enough (forall n a, (length a <= n)%nat -> well_formed a = true ->
    well_formed b = true -> well_formed (a ++ b) = true) as H by (by apply (H (length a) a)).
  clear a. induction n as [|n IH]; intros [|c t] Hn Ha Hb; cbn in *; try done; [lia|].
  destruct ((c <? 0xd800)%N || (0xdfff <? c)%N); [apply IH; [lia|done..]|].
  destruct (0xdbff <? c)%N; [done|].
  destruct t as [|d t']; [done|]. cbn in *.
  destruct ((d <? 0xdc00)%N || (0xdfff <? d)%N); [done|]. apply IH; [lia|done..].
Qed.

Lemma well_formed_single c : is_high c = false -> is_low c = false -> well_formed [c] = true.
Proof.
  unfold is_high, is_low. intros Hh Hl. cbn.
  assert ((c <? 0xd800)%N || (0xdfff <? c)%N = true) as -> by lia. done.
Qed.

Lemma well_formed_pair h l : is_high h = true -> is_low l = true -> well_formed [h; l] = true.
Proof.
  unfold is_high, is_low. intros Hh Hl. cbn.
  assert ((h <? 0xd800)%N || (0xdfff <? h)%N = false) as -> by lia.
  assert ((0xdbff <? h)%N = false) as -> by lia.
  by assert ((l <? 0xdc00)%N || (0xdfff <? l)%N = false) as -> by lia.
Qed.

(** ** Object order is kept by assignment *)

Lemma key_before_trans a b c :
  key_before a b = true -> key_before b c = true -> key_before a c = true.
Proof.
  unfold key_before.
  destruct (array_index a), (array_index b), (array_index c); try done. lia.
Qed.

Lemma obj_set_Forall {A} (P : ustring -> Prop) (o : list (ustring * A)) k v :
  P k -> Forall (fun kv => P kv.1) o -> Forall (fun kv => P kv.1) (obj_set o k v).
Proof.
  intros Hk. induction 1 as [|[k1 v1] o H1 Ho IH]; cbn; [by repeat constructor|].
  repeat case_match; repeat constructor; auto.
Qed.

Lemma obj_set_own_key_order {A} (o : list (ustring * A)) k v : own_key_order o -> own_key_order (obj_set o k v).
Proof.
  induction o as [|[k1 v1] o IH]; cbn; [by repeat constructor|].
  intros [H1 H2]. case_bool_decide as E.
  { subst k1. by constructor. }
  destruct (key_before k k1) eqn:Eb; cbn.
  - split; [|done]. constructor.
    + cbn. split; [done|]. destruct (key_before k1 k) eqn:E'; [|done].
      pose proof (key_before_trans _ _ _ Eb E') as Hkk.
      unfold key_before in Hkk. destruct (array_index k); [lia|done].
    + eapply Forall_impl; [exact H1|]. intros [k2 v2] [Hne Hb]. cbn in *.
      split.
      * intros ->. congruence.
      * destruct (key_before k2 k) eqn:E'; [|done].
        by rewrite (key_before_trans _ _ _ E' Eb) in Hb.
  - split; [|by apply IH].
    apply (obj_set_Forall (fun k' => k1 <> k' /\ key_before k' k1 = false)); [|done].
    split; [congruence|done].
Qed.

Lemma obj_set_values {A} (P : A -> Prop) (o : list (ustring * A)) k v :
  P v -> Forall (fun kv => P kv.2) o -> Forall (fun kv => P kv.2) (obj_set o k v).
Proof.
  intros Hv. induction 1 as [|[k1 v1] o H1 Ho IH]; cbn; [by repeat constructor|].
  repeat case_match; repeat constructor; auto.
Qed.

(** ** What an accepted value satisfies *)

Section spec.
Context (D : dialect).

Definition good_string (s : ustring) : Prop :=
  reject_surrogates D = true -> well_formed s = true.

(** [good allowed v]: at most [allowed] levels of containers, strings without
    unpaired surrogates, finite numbers, objects with distinct keys in
    own-key order. *)
Inductive good : nat -> js -> Prop :=
| good_null a : good a JNull
| good_bool a b : good a (JBool b)
| good_num a x : (reject_nonfinite D = true -> num_is_finite x = true) -> good a (JNum x)
| good_str a s : good_string s -> good a (JStr s)
| good_arr a l : Forall (good a) l -> good (S a) (JArr l)
| good_obj a o : own_key_order o -> Forall (fun kv => good_string kv.1) o ->
    Forall (fun kv => good a kv.2) o -> good (S a) (JObj o).

Lemma hex_value_bound x y : hex_value x = Some y -> (y < 16)%N.
Proof. unfold hex_value, is_digit. repeat case_match; intros [= <-]; lia. Qed.

Lemma wp_hex4 s (Q : N -> pst -> Prop) :
  (forall c s', (c < 0x10000)%N -> (left s' < left s)%nat -> Q c s') -> wp hex4 s Q.
Proof.
  intros H. unfold hex4, wp. destruct (rest s) as [|a [|b [|c [|d t]]]] eqn:E; try done.
  destruct (hex_value a) eqn:Ha, (hex_value b) eqn:Hb, (hex_value c) eqn:Hc,
    (hex_value d) eqn:Hd; try done.
  apply hex_value_bound in Ha, Hb, Hc, Hd.
  apply H; [lia|]. rewrite left_advance. unfold left. rewrite E. cbn. lia.
Qed.

Lemma good_string_single c : is_high c = false -> is_low c = false -> good_string [c].
Proof. intros ? ? _. by apply well_formed_single. Qed.

Lemma good_string_app a b : good_string a -> good_string b -> good_string (a ++ b).
Proof. intros Ha Hb HD. by apply well_formed_app; auto. Qed.

Lemma wp_unicodeEscape s (Q : ustring -> pst -> Prop) :
  (forall c s', good_string c -> (left s' < left s)%nat -> Q c s') -> wp (unicodeEscape D) s Q.
Proof.
  intros H. unfold unicodeEscape, low_escape. wp_step. apply wp_hex4. intros c s' Hc Hs'.
  destruct (reject_surrogates D) eqn:ED; wp_steps.
  - apply wp_hex4. intros c2 s2 _ Hs2. rewrite left_advance in Hs2. wp_steps; eauto with mirror.
    apply H; [|lia]. intros _. rewrite join_pair_inv by done. by apply well_formed_pair.
  - apply H; [|lia]. intros _. unfold fromCodePoint. rewrite (proj2 (N.ltb_lt _ _)) by lia.
    by apply well_formed_single.
  - apply H; [|lia]. intros ?. congruence.
Qed.

Lemma wp_string_escape s (Q : ustring -> pst -> Prop) :
  (forall c s', good_string c -> (left s' <= left s)%nat -> Q c s') -> wp (string_escape D) s Q.
Proof.
  intros H. unfold string_escape.
  assert (left (advance 1 s) <= left s)%nat as Hl by (rewrite left_advance; lia).
  unfold wp. destruct (peek s) as [c|]; [|done].
  destruct (c =? 0x75)%N.
  - eapply (wp_unicodeEscape (advance 1 s)). intros c' s' Hc' Hs'. apply H; [done|lia].
  - destruct (simple_escape c) as [u|] eqn:Eu; [|done]. apply H; [|done].
    unfold simple_escape in Eu. repeat case_match; simplify_eq; done.
Qed.

Lemma wp_raw_unit c s (Q : ustring -> pst -> Prop) :
  (forall c s', good_string c -> (left s' <= left s)%nat -> Q c s') -> wp (raw_unit D c) s Q.
Proof.
  intros H. unfold raw_unit, wp. destruct (c <? 0x20)%N; [done|].
  destruct (reject_surrogates D) eqn:ED; cbn [andb].
  2:{ apply H; [|done]. intros ?. congruence. }
  destruct (is_high c || is_low c) eqn:Es.
  2:{ apply H; [|done]. apply orb_false_iff in Es as [? ?]. by apply good_string_single. }
  destruct (N.ltb_spec 0xdbff c); [done|].
  destruct (peek s) as [low|] eqn:Ep; [|done]. destruct (is_low low) eqn:El; [|done].
  apply H; [|rewrite left_advance; lia]. intros _.
  apply well_formed_pair; [|done]. unfold is_high, is_low in *. lia.
Qed.

Lemma wp_string_loop fuel result s (Q : ustring -> pst -> Prop) :
  (left s < fuel)%nat -> good_string result ->
  (forall r s', good_string r -> (left s' <= left s)%nat -> Q r s') ->
  wp (string_loop D fuel result) s Q.
Proof.
  revert result s. induction fuel as [|fuel IH]; intros result s Hf Hr H; [lia|].
  cbn [string_loop]. wp_steps. destruct (peek s) as [c|] eqn:Ep; [|apply wp_syntax].
  apply peek_left in Ep.
  assert (left (advance 1 s) < left s)%nat as Hl by (rewrite left_advance; lia).
  wp_steps.
  - apply H; [done|lia].
  - apply wp_string_escape. intros ch s1 Hch Hs1.
    apply IH; [lia|by apply good_string_app|]. intros r s2 ? ?. apply H; [done|lia].
  - apply wp_raw_unit. intros ch s1 Hch Hs1.
    apply IH; [lia|by apply good_string_app|]. intros r s2 ? ?. apply H; [done|lia].
Qed.

Lemma wp_string s (Q : ustring -> pst -> Prop) :
  (forall r s', good_string r -> (left s' <= left s - 1)%nat -> Q r s') -> wp (string_ D) s Q.
Proof.
  intros H. unfold string_. wp_steps. apply wp_string_loop; [unfold left; lia|done|].
  intros r s' Hr Hs'. rewrite left_advance in Hs'. by apply H.
Qed.

Lemma wp_literal src v s (Q : js -> pst -> Prop) :
  (Q v (advance (length src) s)) -> wp (literal src v) s Q.
Proof. intros H. unfold literal, wp. by case_bool_decide. Qed.

Lemma number_match_pos t len x : number_match t = Some (len, x) -> (0 < len)%nat.
Proof.
  unfold number_match. destruct (match_sign t) as [neg t0].
  destruct (match_int t0) as [|n]; [done|]. destruct (match_exponent _) as [le e].
  intros [= <- _]. lia.
Qed.

Lemma wp_number s (Q : js -> pst -> Prop) :
  (forall x s', (reject_nonfinite D = true -> num_is_finite x = true) ->
     (left s' <= left s - 1)%nat -> Q (JNum x) s') -> wp (number_ D) s Q.
Proof.
  intros H. unfold number_, wp. destruct (number_match (rest s)) as [[len x]|] eqn:E; [|done].
  apply number_match_pos in E.
  destruct (reject_nonfinite D && negb (num_is_finite x)) eqn:Ef; [done|].
  apply H; [|rewrite left_advance; lia].
  intros HD. rewrite HD in Ef. by apply negb_false_iff in Ef.
Qed.

(** The specification of a value parser that allows [a] levels. *)
Definition value_spec (a : nat) (child : parser js) : Prop :=
  forall s (Q : js -> pst -> Prop),
    (forall v s', good a v -> (left s' < left s)%nat -> Q v s') -> wp child s Q.

Lemma wp_members a child fuel result s (Q : js -> pst -> Prop) :
  value_spec a child -> (left s < fuel)%nat ->
  own_key_order result -> Forall (fun kv => good_string kv.1) result ->
  Forall (fun kv => good a kv.2) result ->
  (forall v s', good (S a) v -> (left s' <= left s)%nat -> Q v s') ->
  wp (members D fuel child result) s Q.
Proof.
  intros Hchild. revert result s.
  induction fuel as [|fuel IH]; intros result s Hf Ho Hk Hv H; [lia|].
  cbn [members]. wp_steps. apply peek_left in Hif.
  apply wp_string. intros key s2 Hkey Hs2. wp_steps.
  apply Hchild. intros v s4 Hgv Hs4. rewrite left_advance in Hs4.
  assert (own_key_order (obj_set result key v)) by by apply obj_set_own_key_order.
  assert (Forall (fun kv => good_string kv.1) (obj_set result key v)) by by apply obj_set_Forall.
  assert (Forall (fun kv => good a kv.2) (obj_set result key v)) by by apply obj_set_values.
  wp_steps.
  - apply H; [by constructor|]. rewrite left_advance. lia.
  - apply IH; [rewrite left_advance; lia|done..|].
    intros v' s6 Hg' Hs6. apply H; [done|]. rewrite left_advance in Hs6. lia.
Qed.

Lemma wp_elements a child fuel result s (Q : js -> pst -> Prop) :
  value_spec a child -> (left s < fuel)%nat -> Forall (good a) result ->
  (forall v s', good (S a) v -> (left s' <= left s)%nat -> Q v s') ->
  wp (elements_ fuel child result) s Q.
Proof.
  intros Hchild. revert result s.
  induction fuel as [|fuel IH]; intros result s Hf Hr H; [lia|].
  cbn [elements_]. wp_steps. apply Hchild. intros v s1 Hv Hs1.
  assert (Forall (good a) (result ++ [v])) by (apply Forall_app; auto).
  wp_steps.
  - apply H; [by constructor|]. rewrite left_advance. lia.
  - apply IH; [rewrite left_advance; lia|done|].
    intros v' s3 Hg Hs3. apply H; [done|]. rewrite left_advance in Hs3. lia.
Qed.

Lemma wp_value a : value_spec a (value_ D a).
Proof.
  induction a as [|a IH]; intros s Q H; cbn [value_]; wp_steps;
    (destruct (peek _) as [c|] eqn:Ep; [|apply wp_syntax]); pose proof (peek_left _ _ Ep); wp_steps;
    try apply wp_syntax.
  all: try (apply wp_string; intros; wp_steps; apply H; [by constructor|lia]).
  all: try (apply wp_literal; apply H; [by constructor|rewrite left_advance; unfold lit; cbn [length]; lia]).
  all: try (apply wp_number; intros; apply H; [by constructor|lia]).
  - unfold object_. wp_steps; rewrite !left_advance in *.
    + apply H; [by constructor|]. rewrite left_advance. lia.
    + eapply wp_members; [exact IH|unfold left; lia|done..|].
      intros v s3 Hv Hs3. apply H; [done|lia].
  - unfold array_. wp_steps; rewrite !left_advance in *.
    + apply H; [by constructor|]. rewrite left_advance. lia.
    + eapply wp_elements; [exact IH|unfold left; lia|done|].
      intros v s3 Hv Hs3. apply H; [done|lia].
Qed.

Lemma wp_parse_all a s : wp (parse_all D a) s (fun v s' => good a v /\ rest s' = []).
Proof.
  unfold parse_all. wp_steps. apply wp_value. intros v s1 Hv Hs1. wp_steps.
  destruct (rest _) eqn:E; [|apply wp_syntax]. by apply wp_ret.
Qed.

Lemma parse_spec a text :
  match parse_ D a text with
  | Ok v => good a v
  | Err e => exn_name e = XModelInterface
  end.
Proof.
  pose proof (wp_parse_all a (Pst 0 text)) as H. unfold wp, parse_ in *.
  destruct (parse_all D a (Pst 0 text)) as [[v s]|e]; cbn; [by destruct H|done].
Qed.
End spec.

(** ** Enough levels are no limit *)

Section approx.
(** [q] succeeds, with the same result, wherever [p] does. *)
Definition approx {A} (p q : parser A) : Prop := forall s x, p s = Ok x -> q s = Ok x.

Lemma approx_refl {A} (p : parser A) : approx p p.
Proof. by intros s x. Qed.

Lemma approx_bind {A B} (p q : parser A) (f g : A -> parser B) :
  approx p q -> (forall a, approx (f a) (g a)) -> approx (p ≫= f) (q ≫= g).
Proof.
  intros Hp Hf s x. unfold mbind, stres_mbind.
  destruct (p s) as [[a s']|e] eqn:E; [|done]. rewrite (Hp _ _ E). apply Hf.
Qed.

Lemma approx_if {A} (b : bool) (p p' q q' : parser A) :
  approx p q -> approx p' q' -> approx (if b then p else p') (if b then q else q').
Proof. intros H H'. by destruct b. Qed.

Lemma approx_syntax {A} m (q : parser A) : approx (syntax m) q.
Proof. intros s x H. discriminate H. Qed.

Lemma approx_syntax_at {A} s0 m (q : parser A) : approx (syntax_at s0 m) q.
Proof. intros s x H. discriminate H. Qed.
End approx.
#[export] Hint Resolve approx_refl approx_bind approx_if approx_syntax approx_syntax_at : mirror.

(** A unit the strict parser reads in one step with its partner, the lenient
    one reads in two. *)
Lemma string_loop_lenient_pair fuel result s s1 s2 a b :
  (forall fuel result, string_loop lenient (S fuel) result s
     = string_loop lenient fuel (result ++ [a]) s1) ->
  (forall fuel result, string_loop lenient (S fuel) result s1
     = string_loop lenient fuel (result ++ [b]) s2) ->
  string_loop lenient (S (S fuel)) result s = string_loop lenient fuel (result ++ [a; b]) s2.
Proof. intros H1 H2. by rewrite H1, H2, <- app_assoc. Qed.

Lemma rest_advance n s : rest (advance n s) = drop n (rest s).
Proof. done. Qed.

Lemma advance_advance n m s : advance n (advance m s) = advance (m + n) s.
Proof. unfold advance. cbn. rewrite drop_drop. f_equal. lia. Qed.

Lemma lenient_loop_escape fuel result s c s' :
  peek s = Some 0x5c%N -> string_escape lenient (advance 1 s) = Ok (c, s') ->
  string_loop lenient (S fuel) result s = string_loop lenient fuel (result ++ c) s'.
Proof.
  intros Hp He. cbn [string_loop]. unfold get, skip, mbind, stres_mbind. cbn. rewrite Hp.
  cbn. by rewrite He.
Qed.

Lemma lenient_loop_raw fuel result s c :
  peek s = Some c -> (0x20 <= c)%N -> c <> 0x22%N -> c <> 0x5c%N ->
  string_loop lenient (S fuel) result s = string_loop lenient fuel (result ++ [c]) (advance 1 s).
Proof.
  intros Hp Hc H1 H2. cbn [string_loop]. unfold get, skip, mbind, stres_mbind. cbn. rewrite Hp.
  rewrite (proj2 (N.eqb_neq _ _) H1), (proj2 (N.eqb_neq _ _) H2). cbn.
  unfold raw_unit. by rewrite (proj2 (N.ltb_ge _ _) Hc).
Qed.

Lemma peek_advance_hex4 s : take 2 (rest s) = $"\u" -> peek s = Some 0x5c%N /\ peek (advance 1 s) = Some 0x75%N.
Proof.
  unfold peek, advance, lit. destruct (rest s) as [|a [|b t]]; cbn; try done. by intros [= -> ->].
Qed.

Lemma wp_Ok {A} (p : parser A) s a s' Q : wp p s Q -> p s = Ok (a, s') -> Q a s'.
Proof. unfold wp. intros H E. by rewrite E in H. Qed.

Lemma hex4_Ok s c s' : hex4 s = Ok (c, s') -> (c < 0x10000)%N /\ (left s' < left s)%nat.
Proof.
  intros H. eapply (wp_Ok hex4 s c s' (fun c s' => (c < 0x10000)%N /\ (left s' < left s)%nat));
    [|exact H]. by apply wp_hex4.
Qed.

(** The lenient loop reads what the strict parser read, in at most two steps. *)
Definition read_by_steps (s : pst) (chunk : ustring) (s' : pst) : Prop :=
  exists k, (left s' + k <= left s)%nat /\ forall fuel result,
    string_loop lenient (k + fuel) result s = string_loop lenient fuel (result ++ chunk) s'.

Lemma read_by_one_escape s chunk s' :
  peek s = Some 0x5c%N -> string_escape lenient (advance 1 s) = Ok (chunk, s') ->
  read_by_steps s chunk s'.
Proof.
  intros Hp He. pose proof (peek_left _ _ Hp) as Hleft. exists 1%nat. split.
  - pose proof (wp_string_escape lenient (advance 1 s)
      (fun _ s'' => (left s'' <= left (advance 1 s))%nat)) as W.
    apply (wp_Ok _ _ chunk s') in W; [|done|done]. rewrite left_advance in W. lia.
  - intros fuel result. by apply lenient_loop_escape.
Qed.

Lemma strict_pair_lenient s s1 s' first chunk :
  peek s = Some 0x5c%N -> string_escape lenient (advance 1 s) = Ok ([first], s1) ->
  (left s1 < left s)%nat -> is_high first = true ->
  low_escape first s1 = Ok (chunk, s') -> read_by_steps s chunk s'.
Proof.
  intros Hp Hfirst Hl1 Eh He. unfold low_escape in He.
  apply stres_bind_Ok in He as (sg & s1' & [= <- <-] & He).
  case_bool_decide as Et; [|discriminate He].
  apply stres_bind_Ok in He as (? & s2 & [= _ <-] & He).
  apply stres_bind_Ok in He as (second & s3 & Hx2 & He).
  destruct (is_low second) eqn:El; [|discriminate He]. apply stres_ret_Ok in He as [<- <-].
  rewrite join_pair_inv by done.
  destruct (peek_advance_hex4 s1 Et) as [Hp1 Hp2].
  destruct (hex4_Ok _ _ _ Hx2) as [_ W]. rewrite left_advance in W.
  exists 2%nat. split; [lia|]. intros fuel result.
  apply (string_loop_lenient_pair fuel result s s1 s3).
  - intros. by apply lenient_loop_escape.
  - intros. apply lenient_loop_escape; [done|]. unfold string_escape. rewrite Hp2. cbn.
    rewrite advance_advance. cbn [Nat.add]. unfold unicodeEscape, mbind, stres_mbind. by rewrite Hx2.
Qed.

Lemma strict_escape_lenient s chunk s' :
  peek s = Some 0x5c%N -> string_escape strict (advance 1 s) = Ok (chunk, s') ->
  read_by_steps s chunk s'.
Proof.
  intros Hp He. pose proof (read_by_one_escape s chunk s' Hp) as Hone.
  unfold string_escape in He, Hone.
  destruct (peek (advance 1 s)) as [c|] eqn:Ep1; [|done].
  destruct (c =? 0x75)%N eqn:Eu; [|by apply Hone].
  apply N.eqb_eq in Eu as ->. clear Hone.
  unfold unicodeEscape in He. apply stres_bind_Ok in He as (first & s1 & Hx & He).
  assert (Hfirst : string_escape lenient (advance 1 s) = Ok ([first], s1)).
  { unfold string_escape. rewrite Ep1. cbn. unfold unicodeEscape, mbind, stres_mbind. by rewrite Hx. }
  destruct (hex4_Ok _ _ _ Hx) as [Hb Hl1]. rewrite !left_advance in Hl1.
  cbn [reject_surrogates strict] in He.
  destruct (is_high first) eqn:Eh.
  - apply (strict_pair_lenient s s1 s' first chunk); [done..|lia|done|done].
  - destruct (is_low first) eqn:El; [discriminate He|]. apply stres_ret_Ok in He as [<- <-].
    unfold fromCodePoint. rewrite (proj2 (N.ltb_lt _ _) Hb).
    by apply read_by_one_escape.
Qed.

Lemma strict_raw_lenient s c chunk s' :
  peek s = Some c -> c <> 0x22%N -> c <> 0x5c%N ->
  raw_unit strict c (advance 1 s) = Ok (chunk, s') -> read_by_steps s chunk s'.
Proof.
  intros Hp H1 H2 He. pose proof (peek_left _ _ Hp) as Hleft. unfold raw_unit in He.
  destruct (N.ltb_spec c 0x20) as [|Hc]; [discriminate He|].
  cbn [reject_surrogates strict andb] in He.
  destruct (is_high c || is_low c).
  2:{ injection He as <- <-. exists 1%nat. rewrite left_advance. split; [lia|].
      intros. by apply lenient_loop_raw. }
  destruct (0xdbff <? c)%N; [discriminate He|].
  destruct (peek (advance 1 s)) as [low|] eqn:Ep; [|discriminate He].
  destruct (is_low low) eqn:El; [|discriminate He]. injection He as <- <-.
  pose proof (peek_left _ _ Ep) as Hleft2. rewrite left_advance in Hleft2.
  exists 2%nat. rewrite !left_advance. split; [lia|]. intros fuel result.
  apply (string_loop_lenient_pair fuel result s (advance 1 s)); intros; apply lenient_loop_raw;
    try done; unfold is_low in El; lia.
Qed.

Lemma string_loop_lenient fuel result s x fuel' :
  string_loop strict fuel result s = Ok x -> (left s < fuel')%nat ->
  string_loop lenient fuel' result s = Ok x.
Proof.
  destruct x as [r0 s0]. revert result s fuel'.
  induction fuel as [|fuel IH]; intros result s fuel' H Hf; [discriminate H|].
  assert (Hstep : forall chunk s', read_by_steps s chunk s' ->
    string_loop strict fuel (result ++ chunk) s' = Ok (r0, s0) ->
    string_loop lenient fuel' result s = Ok (r0, s0)).
  { intros chunk s' (k & Hk & Hread) Hrun.
    replace fuel' with (k + (fuel' - k))%nat by lia. rewrite Hread. apply IH; [done|lia]. }
  cbn [string_loop] in H. apply stres_bind_Ok in H as (sg & s1 & [= <- <-] & H).
  destruct (peek s) as [c|] eqn:Ep; [|discriminate H].
  apply stres_bind_Ok in H as (? & s1 & [= _ <-] & H).
  destruct (c =? 0x22)%N eqn:Eq.
  { destruct fuel' as [|fuel']; [lia|]. cbn [string_loop]. unfold get, skip, mbind, stres_mbind in *.
    cbn. rewrite Ep, Eq. done. }
  apply N.eqb_neq in Eq.
  destruct (c =? 0x5c)%N eqn:Eb.
  - apply N.eqb_eq in Eb as ->. unfold mbind, stres_mbind in H.
    destruct (string_escape strict (advance 1 s)) as [[chunk s']|] eqn:Ee; [|discriminate H].
    eapply Hstep; [by apply strict_escape_lenient|done].
  - apply N.eqb_neq in Eb. unfold mbind, stres_mbind in H.
    destruct (raw_unit strict c (advance 1 s)) as [[chunk s']|] eqn:Ee; [|discriminate H].
    eapply Hstep; [by eapply strict_raw_lenient|done].
Qed.

Lemma string_approx : approx (string_ strict) (string_ lenient).
Proof.
  intros s x H. unfold string_, get, skip, mbind, stres_mbind in *.
  eapply string_loop_lenient; [exact H|]. unfold left. lia.
Qed.

Lemma number_approx : approx (number_ strict) (number_ lenient).
Proof.
  intros s x. unfold number_. destruct (number_match (rest s)) as [[len y]|]; [|done].
  cbn. by destruct (negb (num_is_finite y)).
Qed.

Lemma members_approx child child' fuel result :
  approx child child' -> approx (members strict fuel child result) (members lenient fuel child' result).
Proof.
  intros Hc. revert result. induction fuel as [|fuel IH]; intros result; [apply approx_refl|].
  cbn [members]. repeat (apply approx_bind; [eauto using string_approx with mirror|intros ?]).
  apply approx_if; [|apply approx_syntax]. apply approx_bind; [apply string_approx|intros key].
  cbn [reject_duplicates strict lenient andb].
  destruct (has_own result key); [apply approx_syntax_at|].
  repeat (first [apply approx_if | apply approx_bind; [|intros ?] | apply IH | apply Hc | apply approx_refl]).
Qed.

Lemma elements_approx child child' fuel result :
  approx child child' -> approx (elements_ fuel child result) (elements_ fuel child' result).
Proof.
  intros Hc. revert result. induction fuel as [|fuel IH]; intros result; [apply approx_refl|].
  cbn [elements_].
  repeat (first [apply approx_if | apply approx_bind; [|intros ?] | apply IH | apply Hc | apply approx_refl]).
Qed.

Lemma value_approx a b : (a <= b)%nat -> approx (value_ strict a) (value_ lenient b).
Proof.
  revert b. induction a as [|a IH]; intros b Hab.
  - destruct b; cbn [value_];
      (apply approx_bind; [apply approx_refl|intros ?]; apply approx_bind; [apply approx_refl|intros s];
       destruct (peek s); [|apply approx_refl]);
      repeat (first [apply approx_if | apply number_approx | apply approx_refl
                    | apply approx_syntax | apply approx_bind; [apply string_approx|intros ?]]).
  - destruct b as [|b]; [lia|]. assert (Hv : approx (value_ strict a) (value_ lenient b)) by (apply IH; lia).
    cbn [value_]. apply approx_bind; [apply approx_refl|intros ?]. apply approx_bind; [apply approx_refl|intros s].
    destruct (peek s); [|apply approx_refl].
    repeat (first [apply approx_if | apply number_approx | apply approx_refl
                  | apply approx_bind; [apply string_approx|intros ?]]).
    + unfold object_. do 3 (apply approx_bind; [apply approx_refl|intros ?]). apply approx_if; [apply approx_refl|].
      by apply members_approx.
    + unfold array_. do 3 (apply approx_bind; [apply approx_refl|intros ?]). apply approx_if; [apply approx_refl|].
      by apply elements_approx.
Qed.

Lemma parse_approx a b text v :
  (a <= b)%nat -> parse_ strict a text = Ok v -> parse_ lenient b text = Ok v.
Proof.
  intros Hab H. unfold parse_ in *.
  destruct (parse_all strict a (Pst 0 text)) as [[v' s]|] eqn:E; [|discriminate H].
  cbn in H. injection H as ->.
  assert (approx (parse_all strict a) (parse_all lenient b)) as Ha.
  { unfold parse_all. apply approx_bind; [by apply value_approx|]. intros ?. apply approx_refl. }
  by rewrite (Ha _ _ E).
Qed.
