(* ===== verification/StrictJsonRoundtrip.v ===== *)
(** * Parsing canonical JSON text

    The strict parser reads back exactly the value that [compressCanonicalJson]
    wrote: the round trip between the writer and the parser of
    [src/src/model-interface.ts]. *)

From Stdlib Require Import SpecFloat.
From S2P Require Import Prelude JsNumber Utf16 JsData StrictJson StrictJsonFacts.

(** The values the writer is meant for: integers in the safe range, well-formed
    strings, objects in own-key order, at most [a] levels of containers. *)
Inductive canon : nat -> js -> Prop :=
| canon_null a : canon a JNull
| canon_bool a b : canon a (JBool b)
| canon_num a z : (Z.abs z <= MAX_SAFE_INTEGER)%Z -> canon a (JNum (num_of_Z z))
| canon_str a s : well_formed s = true -> canon a (JStr s)
| canon_arr a l : Forall (canon a) l -> canon (S a) (JArr l)
| canon_obj a o : own_key_order o -> Forall (fun kv => well_formed kv.1 = true) o ->
    Forall (fun kv => canon a kv.2) o -> canon (S a) (JObj o).

(** A text that cannot extend a number. *)
Definition stop (r : ustring) : Prop :=
  match r with
  | [] => True
  | c :: _ => is_digit c = false /\ c <> 0x2e%N /\ c <> 0x65%N /\ c <> 0x45%N
  end.

(** [reads p text v]: in front of any [stop] text, [p] consumes [text] and
    returns [v]. *)
Definition reads {A} (p : parser A) (text : ustring) (v : A) : Prop :=
  forall off r, stop r -> exists off', p (Pst off (text ++ r)) = Ok (v, Pst off' r).

(** ** Symbolic execution *)

Lemma run_bind {A B} (p : parser A) (f : A -> parser B) s a s' :
  p s = Ok (a, s') -> (p ≫= f) s = f a s'.
Proof. intros H. unfold mbind, stres_mbind. by rewrite H. Qed.

Lemma run_get {B} (f : pst -> parser B) s : (get ≫= f) s = f s s.
Proof. done. Qed.

Lemma run_skip1 {B} (f : unit -> parser B) off c r :
  (skip 1 ≫= f) (Pst off (c :: r)) = f tt (Pst (off + 1) r).
Proof. done. Qed.

Lemma run_whitespace {B} (f : unit -> parser B) off c r :
  is_ws c = false -> (whitespace ≫= f) (Pst off (c :: r)) = f tt (Pst (off + 0) (c :: r)).
Proof. intros H. unfold whitespace, mbind, stres_mbind, skip. cbn. by rewrite H. Qed.

Lemma run_whitespace_nil {B} (f : unit -> parser B) off :
  (whitespace ≫= f) (Pst off []) = f tt (Pst (off + 0) []).
Proof. done. Qed.

(** ** Strings *)

Definition chunk_ok (c : ustring) : Prop :=
  (exists u, c = [u] /\ is_high u = false /\ is_low u = false) \/
  (exists h l, c = [h; l] /\ is_high h = true /\ is_low l = true).

Lemma characters_ok s : well_formed s = true -> Forall chunk_ok (characters s).
Proof.
  enough (forall n s, (length s <= n)%nat -> well_formed s = true -> Forall chunk_ok (characters s))
    as H by (by apply (H (length s) s)).
  clear s. induction n as [|n IH]; intros [|h t] Hn Hs; cbn in *; try done; [lia|].
  destruct ((h <? 0xd800)%N || (0xdfff <? h)%N) eqn:E1.
  { assert (is_high h = false) as Eh by (unfold is_high; lia).
    rewrite Eh. constructor; [|apply IH; [lia|done]].
    left. exists h. repeat split; [done|]. unfold is_low. lia. }
  destruct (0xdbff <? h)%N eqn:E2; [done|].
  assert (is_high h = true) as Eh by (unfold is_high; lia).
  destruct t as [|l t']; [done|].
  destruct ((l <? 0xdc00)%N || (0xdfff <? l)%N) eqn:E3; [done|].
  assert (is_low l = true) as El by (unfold is_low; lia).
  rewrite Eh, El. constructor; [|apply IH; [cbn in *; lia|done]].
  right. by exists h, l.
Qed.

(** One written character is read by the string loop, in at most one step for
    each unit of its text. *)
Definition loop_step (D : dialect) (text chunk : ustring) : Prop :=
  forall fuel acc off r, exists fuel' off', (fuel <= fuel')%nat /\
    string_loop D (length text + fuel) acc (Pst off (text ++ r)) =
    string_loop D fuel' (acc ++ chunk) (Pst off' r).

Lemma loop_step_raw D u :
  (reject_surrogates D = true -> is_high u = false /\ is_low u = false) ->
  (0x20 <= u)%N -> u <> 0x22%N -> u <> 0x5c%N -> loop_step D [u] [u].
Proof.
  intros Hs Hu H1 H2 fuel acc off r. exists fuel. eexists. split; [done|]. cbn [length Nat.add string_loop app].
  rewrite run_get. cbn [peek rest head]. rewrite run_skip1.
  rewrite (proj2 (N.eqb_neq _ _) H1), (proj2 (N.eqb_neq _ _) H2).
  erewrite run_bind; [done|]. unfold raw_unit. rewrite (proj2 (N.ltb_ge _ _) Hu).
  destruct (reject_surrogates D); [by destruct (Hs eq_refl) as [-> ->]|done].
Qed.

Lemma loop_step_app D t1 c1 t2 c2 :
  loop_step D t1 c1 -> loop_step D t2 c2 -> loop_step D (t1 ++ t2) (c1 ++ c2).
Proof.
  intros H1 H2 fuel acc off r. rewrite length_app, <- Nat.add_assoc, <- app_assoc.
  destruct (H1 (length t2 + fuel)%nat acc off (t2 ++ r)) as (f1 & off1 & Hf1 & ->).
  replace f1 with (length t2 + (f1 - length t2))%nat by lia.
  destruct (H2 (f1 - length t2)%nat (acc ++ c1) off1 r) as (f2 & off2 & Hf2 & ->).
  exists f2, off2. rewrite app_assoc. split; [lia|done].
Qed.

Lemma loop_step_pair h l :
  is_high h = true -> is_low l = true -> loop_step strict [h; l] [h; l].
Proof.
  intros Hh Hl fuel acc off r. exists (S fuel). eexists. split; [lia|]. cbn [length Nat.add string_loop app].
  rewrite run_get. cbn [peek rest head]. rewrite run_skip1.
  unfold is_high in Hh.
  rewrite (proj2 (N.eqb_neq h 0x22)) by lia. rewrite (proj2 (N.eqb_neq h 0x5c)) by lia.
  erewrite run_bind; [done|]. unfold raw_unit.
  rewrite (proj2 (N.ltb_ge h 0x20)) by lia.
  assert (is_high h = true) as -> by done. cbn [strict reject_surrogates andb orb].
  rewrite (proj2 (N.ltb_ge 0xdbff h)) by lia. cbn [peek rest head]. rewrite Hl. done.
Qed.

Lemma loop_step_escape D body chunk :
  (forall off r, exists off', string_escape D (Pst off (body ++ r)) = Ok (chunk, Pst off' r)) ->
  loop_step D (0x5c%N :: body) chunk.
Proof.
  intros H fuel acc off r. destruct (H (off + 1)%N r) as [off' E].
  exists (length body + fuel)%nat, off'. split; [lia|]. cbn [length Nat.add string_loop app].
  rewrite run_get. cbn [peek rest head]. rewrite run_skip1. cbn [N.eqb Pos.eqb].
  by rewrite (run_bind _ _ _ _ _ E).
Qed.

(** An escape that evaluates. *)
Ltac loop_step_escape := apply loop_step_escape; intros off r; eexists; reflexivity.

Lemma loop_step_control u : (u < 0x20)%N -> loop_step strict (escape_character [u]) [u].
Proof.
  intros Hu. destruct u as [|p]; [loop_step_escape|].
  do 5 try (destruct p as [p|p|]; [| |loop_step_escape]); lia.
Qed.

Lemma loop_step_character c : chunk_ok c -> loop_step strict (escape_character c) c.
Proof.
  intros [(u & -> & Hh & Hl)|(h & l & -> & Hh & Hl)].
  - destruct (N.lt_ge_cases u 0x20) as [?|Hge]; [by apply loop_step_control|].
    unfold escape_character. cbn [codePointAt0].
    destruct (N.eqb_spec u 0x22) as [->|?]; [loop_step_escape|].
    destruct (N.eqb_spec u 0x5c) as [->|?]; [loop_step_escape|].
    rewrite (proj2 (N.eqb_neq u 0x0a)), (proj2 (N.eqb_neq u 0x0d)) by lia.
    rewrite (proj2 (N.ltb_ge u 0x20)) by lia. by apply loop_step_raw.
  - unfold escape_character. cbn [codePointAt0]. rewrite Hh, Hl. cbn [andb].
    unfold join_pair.
    do 4 (rewrite (proj2 (N.eqb_neq _ _)) by lia).
    rewrite (proj2 (N.ltb_ge _ _)) by lia. by apply loop_step_pair.
Qed.

Lemma loop_steps D write cs fuel acc off r :
  Forall (fun c => loop_step D (write c) c) cs -> (length (concat (map write cs)) < fuel)%nat ->
  exists off',
    string_loop D fuel acc (Pst off (concat (map write cs) ++ 0x22%N :: r)) =
    Ok (acc ++ concat cs, Pst off' r).
Proof.
  intros Hcs. revert fuel acc off.
  induction Hcs as [|c cs Hc Hcs IH]; intros fuel acc off Hf.
  - destruct fuel as [|fuel]; [cbn in Hf; lia|]. eexists. cbn [map concat app]. rewrite app_nil_r. done.
  - cbn [map concat] in *. rewrite length_app in Hf. rewrite <- app_assoc.
    destruct (Hc (fuel - length (write c))%nat acc off (concat (map write cs) ++ 0x22%N :: r))
      as (f1 & off1 & Hf1 & E).
    replace (length (write c) + (fuel - length (write c)))%nat with fuel in E by lia. rewrite E.
    destruct (IH f1 (acc ++ c) off1) as [off2 ->]; [lia|].
    exists off2. by rewrite <- app_assoc.
Qed.

(** [text] is the quoted form of [s]. *)
Definition quoted (D : dialect) (text s : ustring) : Prop :=
  head text = Some 0x22%N /\ reads (string_ D) text s.

Lemma characters_quoted D write s :
  Forall (fun c => loop_step D (write c) c) (characters s) ->
  quoted D ([0x22%N] ++ concat (map write (characters s)) ++ [0x22%N]) s.
Proof.
  intros Hs. split; [done|]. intros off r _. unfold string_.
  rewrite <- !app_assoc. cbn [app]. rewrite run_skip1, run_get.
  destruct (loop_steps D write (characters s)
    (S (length (rest (Pst (off + 1) (concat (map write (characters s)) ++ 0x22%N :: r))))) [] (off + 1) r)
    as [off' Hrun]; [done| |].
  - cbn [rest]. rewrite length_app. lia.
  - rewrite concat_characters in Hrun. exists off'. exact Hrun.
Qed.

Lemma canonical_quoted s : well_formed s = true -> quoted strict (compressCanonicalString s) s.
Proof.
  intros Hs. apply characters_quoted. eapply Forall_impl; [by apply characters_ok|]. apply loop_step_character.
Qed.

(** ** Numbers *)

Lemma digits_length_app ds r :
  Forall (fun c => is_digit c = true) ds -> stop r -> digits_length (ds ++ r) = length ds.
Proof.
  intros Hd Hr. induction Hd as [|c ds Hc _ IH]; cbn.
  - destruct r as [|c r]; [done|]. cbn. by destruct Hr as [-> _].
  - by rewrite Hc, IH.
Qed.

Lemma stop_no_fraction r : stop r -> match_fraction r = [].
Proof.
  destruct r as [|c r]; [done|]. intros (_ & H & _). cbn. by rewrite (proj2 (N.eqb_neq _ _) H).
Qed.

Lemma stop_no_exponent r : stop r -> match_exponent r = (0%nat, 0%Z).
Proof.
  destruct r as [|c r]; [done|]. intros (_ & _ & H1 & H2). cbn.
  by rewrite (proj2 (N.eqb_neq _ _) H1), (proj2 (N.eqb_neq _ _) H2).
Qed.

Definition sign_text (neg : bool) : ustring := if neg then [0x2d%N] else [].

Lemma match_sign_dec neg n r :
  match_sign (sign_text neg ++ dec_of_N n ++ r) = (neg, dec_of_N n ++ r).
Proof.
  destruct neg; [done|]. destruct (dec_of_N_ok n) as [_ Hd Hne _ _].
  destruct (dec_of_N n) as [|c ds]; [done|]. apply Forall_inv in Hd. cbn.
  unfold is_digit in Hd. by rewrite (proj2 (N.eqb_neq c 0x2d)) by lia.
Qed.

Lemma match_int_dec n r : stop r -> match_int (dec_of_N n ++ r) = length (dec_of_N n).
Proof.
  intros Hr. destruct (dec_of_N_ok n) as [_ Hd Hne Hz Hl].
  destruct (dec_of_N n) as [|c ds] eqn:E; [done|]. cbn [match_int app].
  destruct (N.eqb_spec c 48) as [->|].
  - destruct (decide (n = 0%N)) as [->|Hn]; [by injection (Hz eq_refl) as ->|].
    by specialize (Hl Hn).
  - rewrite app_comm_cons. by apply digits_length_app.
Qed.

Lemma number_match_dec (neg : bool) n r :
  stop r ->
  number_match (sign_text neg ++ dec_of_N n ++ r) =
  Some (length (sign_text neg ++ dec_of_N n), num_of_decimal neg n 0).
Proof.
  intros Hr. unfold number_match. rewrite match_sign_dec, match_int_dec by done.
  destruct (dec_of_N_ok n) as [Hv _ Hne _ _].
  destruct (length (dec_of_N n)) as [|k] eqn:Hk; [by destruct (dec_of_N n)|].
  rewrite <- Hk, drop_app_length, take_app_length, stop_no_fraction by done.
  rewrite drop_0, stop_no_exponent, app_nil_r, Hv by done.
  do 2 f_equal. rewrite length_app. destruct neg; cbn; lia.
Qed.

Lemma dec_of_Z_split z :
  dec_of_Z z = sign_text (z <? 0)%Z ++ dec_of_N (Z.abs_N z).
Proof. by destruct z. Qed.

Lemma num_of_decimal_Z z :
  num_of_decimal (z <? 0)%Z (Z.abs_N z) 0 = num_of_Z z.
Proof.
  destruct z as [|p|p]; [done| |];
    unfold num_of_decimal, num_of_Z; cbn [Z.abs_N];
    change (0 <=? 0)%Z with true; change (10 ^ 0)%Z with 1%Z; by rewrite Z.mul_1_r.
Qed.

Lemma num_of_Z_finite z : (Z.abs z <= MAX_SAFE_INTEGER)%Z -> num_is_finite (num_of_Z z) = true.
Proof.
  intros H. pose proof (num_of_Z_exact z H) as E. unfold num_safe_Z in E.
  destruct (num_of_Z z); try done.
Qed.

Lemma number_reads D z :
  (Z.abs z <= MAX_SAFE_INTEGER)%Z ->
  reads (number_ D) (dec_of_Z z) (JNum (num_of_Z z)).
Proof.
  intros Hz off r Hr. unfold number_. cbn [rest].
  rewrite dec_of_Z_split, <- app_assoc, number_match_dec, num_of_decimal_Z by done.
  rewrite num_of_Z_finite, andb_false_r by done.
  eexists. unfold advance. cbn [rest offset].
  by rewrite app_assoc, drop_app_length.
Qed.

(** ** Containers *)

Definition ustr_comma : ustring := [0x2c%N].

Lemma elements_read (child : parser js) texts l fuel acc off r :
  Forall2 (reads child) texts l -> l <> [] -> (length l <= fuel)%nat ->
  exists off',
    elements_ fuel child acc (Pst off (join ustr_comma texts ++ 0x5d%N :: r)) =
    Ok (JArr (acc ++ l), Pst off' r).
Proof.
  intros Hl. revert fuel acc off.
  induction Hl as [|t v ts vs Hread Hrest IH]; intros fuel acc off Hne Hf; [done|].
  destruct fuel as [|fuel]; [cbn in Hf; lia|]. cbn [elements_].
  destruct Hrest as [|t2 v2 ts2 vs2 Hread2 Hrest2].
  - cbn [join]. destruct (Hread off (0x5d%N :: r)) as [off1 Hv]; [done|].
    rewrite (run_bind _ _ _ _ _ Hv), run_whitespace, run_get by done. cbn [peek rest head].
    rewrite bool_decide_eq_true_2, run_skip1 by done. by eexists.
  - change (join ustr_comma (t :: t2 :: ts2)) with (t ++ ustr_comma ++ join ustr_comma (t2 :: ts2)).
    rewrite <- !app_assoc.
    destruct (Hread off (ustr_comma ++ join ustr_comma (t2 :: ts2) ++ 0x5d%N :: r)) as [off1 Hv]; [done|].
    rewrite (run_bind _ _ _ _ _ Hv). unfold ustr_comma at 1. cbn [app].
    rewrite run_whitespace, run_get by done. cbn [peek rest head].
    rewrite bool_decide_eq_false_2, bool_decide_eq_true_2, run_skip1 by done.
    destruct (IH fuel (acc ++ [v]) (off1 + 0 + 1)%N) as [off2 ->]; [done|cbn in *; lia|].
    exists off2. by rewrite <- app_assoc.
Qed.

(** The text of one member. *)
Definition member_text (key t : ustring) : ustring := key ++ $":" ++ t.

(** [t] is the text of the member [kv]. *)
Definition member_reads (D : dialect) (child : parser js) (t : ustring) (kv : ustring * js) : Prop :=
  exists key t', t = member_text key t' /\ quoted D key kv.1 /\ reads child t' kv.2.

Lemma members_read D (child : parser js) (texts : list ustring) o fuel acc off r :
  Forall2 (member_reads D child) texts o ->
  own_key_order (acc ++ o) -> o <> [] -> (length o <= fuel)%nat ->
  exists off',
    members D fuel child acc (Pst off (join ustr_comma texts ++ 0x7d%N :: r)) =
    Ok (JObj (acc ++ o), Pst off' r).
Proof.
  intros Ho. revert fuel acc off.
  induction Ho as [|t [k v] ts vs (key & t' & -> & [Hq Hk] & Hread) Hrest IH];
    intros fuel acc off Hord Hne Hf; [done|].
  cbn [fst snd] in *.
  destruct fuel as [|fuel]; [cbn in Hf; lia|]. cbn [members].
  pose proof (own_key_order_app _ _ _ _ Hord) as Hacc.
  assert (Hnew : has_own acc k = false).
  { unfold has_own, keys. apply bool_decide_eq_false. intros Hin.
    apply list_elem_of_fmap in Hin as ([k' v'] & -> & Hin). rewrite Forall_forall in Hacc.
    by destruct (Hacc _ Hin). }
  destruct key as [|q key]; [done|]. injection Hq as ->.
  assert (Hrun : forall tail off, exists off1,
    members D (S fuel) child acc (Pst off (member_text (0x22%N :: key) t' ++ tail)) =
    (v ← child; _ ← whitespace; s2 ← get;
     if bool_decide (peek s2 = Some 0x7d%N) then _ ← skip 1; mret (JObj (obj_set acc k v))
     else if bool_decide (peek s2 = Some 0x2c%N)
     then _ ← skip 1; members D fuel child (obj_set acc k v)
     else syntax ($"expected ',' or '}' after object member")) (Pst off1 (t' ++ tail))).
  { intros tail off'. cbn [members]. unfold member_text. rewrite <- !app_assoc.
    destruct (Hk (off' + 0)%N ($":" ++ t' ++ tail)) as [off1 Hs]; [done|].
    cbn [app] in *.
    rewrite run_whitespace, run_get by done. cbn [peek rest head].
    rewrite bool_decide_eq_true_2 by done. rewrite (run_bind _ _ _ _ _ Hs).
    rewrite Hnew, andb_false_r. unfold lit. cbn [app].
    rewrite run_whitespace, run_get by done. cbn [peek rest head].
    rewrite bool_decide_eq_true_2, run_skip1 by done. by eexists. }
  cbn [members] in Hrun.
  assert (Hset : obj_set acc k v = acc ++ [(k, v)]) by by apply obj_set_append.
  destruct Hrest as [|t2 [k2 v2] ts2 vs2 Hread2 Hrest2].
  - cbn [join]. destruct (Hrun (0x7d%N :: r) off) as [off1 ->].
    destruct (Hread off1 (0x7d%N :: r)) as [off2 Hv]; [done|].
    rewrite (run_bind _ _ _ _ _ Hv), run_whitespace, run_get by done. cbn [peek rest head].
    rewrite bool_decide_eq_true_2, run_skip1 by done. rewrite Hset. by eexists.
  - change (join ustr_comma (member_text (0x22%N :: key) t' :: t2 :: ts2))
      with (member_text (0x22%N :: key) t' ++ ustr_comma ++ join ustr_comma (t2 :: ts2)).
    rewrite <- !app_assoc.
    destruct (Hrun (ustr_comma ++ join ustr_comma (t2 :: ts2) ++ 0x7d%N :: r) off) as [off1 ->].
    destruct (Hread off1 (ustr_comma ++ join ustr_comma (t2 :: ts2) ++ 0x7d%N :: r)) as [off2 Hv]; [done|].
    rewrite (run_bind _ _ _ _ _ Hv). unfold ustr_comma at 1. cbn [app].
    rewrite run_whitespace, run_get by done. cbn [peek rest head].
    rewrite bool_decide_eq_false_2, bool_decide_eq_true_2, run_skip1, Hset by done.
    destruct (IH fuel (acc ++ [(k, v)]) (off2 + 0 + 1)%N) as [off3 H3];
      [by rewrite <- app_assoc|done|cbn in *; lia|].
    rewrite H3. exists off3. by rewrite <- app_assoc.
Qed.

Lemma join_length_ge (texts : list ustring) :
  (length texts <= length (join ustr_comma texts) + 1)%nat.
Proof.
  induction texts as [|t [|t2 ts] IH]; [cbn; lia..|].
  change (join ustr_comma (t :: t2 :: ts)) with (t ++ ustr_comma ++ join ustr_comma (t2 :: ts)).
  rewrite !length_app. cbn [length ustr_comma] in *. lia.
Qed.

(** ** Values *)

Lemma compress_head v text :
  compressCanonicalJson v = Ok text -> exists c t, text = c :: t /\ is_ws c = false /\
    c <> 0x5d%N /\ c <> 0x7d%N.
Proof.
  destruct v as [| |b|x|z|str|l|o]; cbn; intros H; try discriminate H.
  - injection H as <-. by do 2 eexists.
  - injection H as <-. destruct b; by do 2 eexists.
  - destruct (num_safe_Z x) as [z|]; [|discriminate H]. injection H as <-.
    rewrite dec_of_Z_split. destruct (z <? 0)%Z; [by do 2 eexists|].
    destruct (dec_of_N_ok (Z.abs_N z)) as [_ Hd Hne _ _].
    destruct (dec_of_N (Z.abs_N z)) as [|c ds]; [done|].
    apply Forall_inv in Hd. unfold is_digit in Hd. exists c, ds. unfold is_ws.
    repeat split; lia.
  - injection H as <-. by do 2 eexists.
  - apply res_bind_Ok in H as (items & _ & H). injection H as <-. by do 2 eexists.
  - apply res_bind_Ok in H as (items & _ & H). injection H as <-. by do 2 eexists.
Qed.

Lemma literal_reads src v : reads (literal src v) src v.
Proof.
  intros off r _. unfold literal. cbn [rest]. rewrite take_app_length.
  rewrite bool_decide_eq_true_2 by done. eexists. unfold advance. cbn [rest].
  by rewrite drop_app_length.
Qed.

Lemma array_reads (child : parser js) texts l :
  Forall2 (reads child) texts l ->
  Forall (fun t => exists c t', t = c :: t' /\ is_ws c = false /\ c <> 0x5d%N) texts ->
  reads (array_ child) (0x5b%N :: join ustr_comma texts ++ [0x5d%N]) (JArr l).
Proof.
  intros Hl Hhead off r Hr. unfold array_. cbn [app]. rewrite <- app_assoc. cbn [app].
  rewrite run_skip1. destruct Hl as [|t v ts vs Hread Hrest].
  - cbn [join app]. rewrite run_whitespace, run_get by done. cbn [peek rest head].
    rewrite bool_decide_eq_true_2, run_skip1 by done. by eexists.
  - apply Forall_cons in Hhead as [(c & t' & -> & Hc & Hne) _].
    assert (exists tl, join ustr_comma ((c :: t') :: ts) = c :: tl) as [tl Htl].
    { destruct ts; cbn; eauto. }
    rewrite Htl. cbn [app]. rewrite run_whitespace, run_get by done. cbn [peek rest head].
    rewrite bool_decide_eq_false_2 by congruence.
    rewrite app_comm_cons, <- Htl.
    destruct (elements_read child ((c :: t') :: ts) (v :: vs)
      (S (length (join ustr_comma ((c :: t') :: ts) ++ 0x5d%N :: r))) [] (off + 1 + 0)%N r)
      as [off' Hrun]; [by constructor|done| |by exists off'].
    pose proof (join_length_ge ((c :: t') :: ts)) as Hge.
    pose proof (Forall2_length _ _ _ Hrest). rewrite length_app. cbn [length] in *. lia.
Qed.

Lemma object_reads D (child : parser js) texts o :
  Forall2 (member_reads D child) texts o -> own_key_order o ->
  reads (object_ D child) (0x7b%N :: join ustr_comma texts ++ [0x7d%N]) (JObj o).
Proof.
  intros Ho Hord off r Hr. unfold object_. cbn [app]. rewrite <- app_assoc. cbn [app].
  rewrite run_skip1. destruct Ho as [|t [k v] ts vs Hread Hrest].
  - cbn [join app]. rewrite run_whitespace, run_get by done. cbn [peek rest head].
    rewrite bool_decide_eq_true_2, run_skip1 by done. by eexists.
  - assert (exists tl, join ustr_comma (t :: ts) = 0x22%N :: tl) as [tl Htl].
    { destruct Hread as (key & t' & -> & [Hq _] & _). destruct key as [|q key]; [done|]. injection Hq as ->.
      destruct ts; cbn; eauto. }
    rewrite Htl. cbn [app]. rewrite run_whitespace, run_get by done. cbn [peek rest head].
    rewrite bool_decide_eq_false_2 by done. rewrite app_comm_cons, <- Htl.
    destruct (members_read D child (t :: ts) ((k, v) :: vs)
      (S (length (join ustr_comma (t :: ts) ++ 0x7d%N :: r))) [] (off + 1 + 0)%N r)
      as [off' Hrun]; [by constructor|done..| |by exists off'].
    pose proof (join_length_ge (t :: ts)) as Hge.
    pose proof (Forall2_length _ _ _ Hrest). rewrite length_app. cbn [length] in *. lia.
Qed.

(** ** The round trip *)

Lemma run_value D allowed off c r :
  is_ws c = false ->
  value_ D allowed (Pst off (c :: r)) =
  (if (c =? 0x7b)%N
   then match allowed with O => too_deep | S a => object_ D (value_ D a) end
   else if (c =? 0x5b)%N
   then match allowed with O => too_deep | S a => array_ (value_ D a) end
   else if (c =? 0x22)%N then str ← string_ D; mret (JStr str)
   else if (c =? 0x74)%N then literal ($"true") (JBool true)
   else if (c =? 0x66)%N then literal ($"false") (JBool false)
   else if (c =? 0x6e)%N then literal ($"null") JNull
   else if (c =? 0x2d)%N || is_digit c then number_ D
   else syntax ($"expected a JSON value")) (Pst (off + 0) (c :: r)).
Proof.
  intros H. destruct allowed; cbn [value_]; by rewrite run_whitespace, run_get.
Qed.

Lemma value_null_reads D a : reads (value_ D a) ($"null") JNull.
Proof. intros off r Hr. unfold lit. cbn [app]. rewrite run_value by done. by apply (literal_reads ($"null") JNull). Qed.

Lemma value_bool_reads D a (b : bool) : reads (value_ D a) (if b then $"true" else $"false") (JBool b).
Proof.
  intros off r Hr. destruct b; unfold lit; cbn [app]; rewrite run_value by done.
  - by apply (literal_reads ($"true") (JBool true)).
  - by apply (literal_reads ($"false") (JBool false)).
Qed.

Lemma dec_of_Z_head z : exists c t, dec_of_Z z = c :: t /\ (c = 0x2d%N \/ is_digit c = true).
Proof.
  rewrite dec_of_Z_split. destruct (z <? 0)%Z; [do 2 eexists; by split; [|left]|].
  destruct (dec_of_N_ok (Z.abs_N z)) as [_ Hd Hne _ _].
  destruct (dec_of_N (Z.abs_N z)) as [|c t]; [done|]. exists c, t. split; [done|].
  right. by apply Forall_inv in Hd.
Qed.

Lemma value_num_reads D a z :
  (Z.abs z <= MAX_SAFE_INTEGER)%Z -> reads (value_ D a) (dec_of_Z z) (JNum (num_of_Z z)).
Proof.
  intros Hz off r Hr. destruct (dec_of_Z_head z) as (c & t & E & Hc).
  destruct (number_reads D z Hz (off + 0)%N r Hr) as [off' Hn]. exists off'.
  rewrite E in *. cbn [app] in *. unfold is_digit in *. rewrite run_value by (unfold is_ws; lia).
  do 6 (match goal with |- context [(c =? ?k)%N] =>
          rewrite (proj2 (N.eqb_neq c k)) by lia end).
  unfold is_digit.
  assert ((c =? 0x2d)%N || ((48 <=? c)%N && (c <=? 57)%N) = true) as -> by lia.
  exact Hn.
Qed.

Lemma value_str_reads D a text s : quoted D text s -> reads (value_ D a) text (JStr s).
Proof.
  intros [Hq Hs] off r Hr. destruct text as [|q text]; [done|]. injection Hq as ->.
  destruct (Hs (off + 0)%N r Hr) as [off' Hn]. exists off'.
  cbn [app] in *. rewrite run_value by done. cbn. by rewrite (run_bind _ _ _ _ _ Hn).
Qed.

Lemma value_arr_reads D a texts l :
  Forall2 (reads (value_ D a)) texts l ->
  Forall (fun t => exists c t', t = c :: t' /\ is_ws c = false /\ c <> 0x5d%N) texts ->
  reads (value_ D (S a)) ($"[" ++ join ($",") texts ++ $"]") (JArr l).
Proof.
  intros Hl Hh off r Hr.
  change ($"[" ++ join ($",") texts ++ $"]") with (0x5b%N :: join ustr_comma texts ++ [0x5d%N]).
  cbn [app]. rewrite run_value by done. by apply array_reads.
Qed.

Lemma value_obj_reads D a texts o :
  Forall2 (member_reads D (value_ D a)) texts o -> own_key_order o ->
  reads (value_ D (S a)) ($"{" ++ join ($",") texts ++ $"}") (JObj o).
Proof.
  intros Ho Hord off r Hr.
  change ($"{" ++ join ($",") texts ++ $"}") with (0x7b%N :: join ustr_comma texts ++ [0x7d%N]).
  cbn [app]. rewrite run_value by done. by apply object_reads.
Qed.

Lemma value_reads a v text :
  canon a v -> compressCanonicalJson v = Ok text -> reads (value_ strict a) text v.
Proof.
  revert v text. induction a as [|a IH]; intros v text Hc Hw;
    inversion Hc as [| |? z Hz|? s Hs|? l Hl|? o Hord Hk Hv]; subst; cbn in Hw;
    try (rewrite num_of_Z_exact in Hw by done);
    try (injection Hw as <-; first [by apply value_null_reads|by apply value_bool_reads|by apply value_num_reads
                                   |by apply value_str_reads, canonical_quoted]);
    apply res_bind_Ok in Hw as (items & Hitems & Hw); injection Hw as <-; apply mapM_res_Ok in Hitems.
  - apply value_arr_reads.
    + revert Hl. clear -IH Hitems. induction Hitems; intros Hl; [constructor|].
      apply Forall_cons in Hl as [? ?]. constructor; auto.
    + clear -Hitems. induction Hitems as [|x y l ys Hx _ IHi]; constructor; [|done].
      destruct (compress_head x y Hx) as (c & t & ? & ? & ? & _). eauto.
  - apply value_obj_reads; [|done].
    revert Hk Hv. clear -IH Hitems. induction Hitems as [|[k x] y o ys Hx _ IHi]; intros Hk Hv; [constructor|].
    apply Forall_cons in Hv as [Hx' Hv]. apply Forall_cons in Hk as [Hk' Hk]. constructor; [|auto]. cbn in *.
    apply res_bind_Ok in Hx as (t' & Ht & Hy). injection Hy as <-.
    exists (compressCanonicalString k), t'. split; [done|]. split; [by apply canonical_quoted|auto].
Qed.

Lemma canon_parse a v text :
  canon a v -> compressCanonicalJson v = Ok text -> parse_ strict a text = Ok v.
Proof.
  intros Hc Hw. unfold parse_, parse_all.
  destruct (value_reads a v text Hc Hw 0%N [] I) as [off Hv]. rewrite app_nil_r in Hv.
  rewrite (run_bind _ _ _ _ _ Hv), run_whitespace_nil, run_get. done.
Qed.

(** ** Theorems about the parser *)

(** Parsing a text always ends, with a value or with a protocol error: the
    loop bounds of the model (the length of the remaining text) are never hit,
    whatever the text is. *)
Theorem strict_json_total (text : ustring) :
  (exists v, parseStrictJson text = Ok v) \/
  (exists e, parseStrictJson text = Err e /\ exn_name e = XModelInterface).
Proof.
  unfold parseStrictJson. destruct (_ <? _)%N; [right; by eexists|].
  pose proof (parse_spec strict MAX_MODEL_INTERFACE_JSON_DEPTH text) as H.
  destruct (parse_ _ _ text); eauto.
Qed.

(** An accepted text has at most 65535 UTF-8 bytes, and the value it denotes
    nests at most 128 containers, has only finite numbers and strings without
    unpaired surrogates, and objects whose keys are distinct. *)
Theorem strict_json_safe (text : ustring) (v : js) (Hok : parseStrictJson text = Ok v) :
  (byteLength text <= 65535)%N /\ good strict 128 v.
Proof.
  unfold parseStrictJson in Hok.
  destruct (N.ltb_spec MAX_MODEL_INTERFACE_MESSAGE_BYTES (byteLength text)) as [?|Hb]; [done|].
  pose proof (parse_spec strict MAX_MODEL_INTERFACE_JSON_DEPTH text) as H.
  by rewrite Hok in H.
Qed.

Definition sample_text : ustring := 0x7b%N :: 0x22%N :: $"a" ++ 0x22%N :: $":[1,-2e1,true]}".

Lemma strict_json_safe_witness :
  exists v, parseStrictJson sample_text = Ok v /\
    ((byteLength sample_text <= 65535)%N /\ good strict 128 v).
Proof.
  eexists. split; [vm_compute; reflexivity|].
  apply (strict_json_safe sample_text). vm_compute. reflexivity.
Defined.

Lemma strict_then_lenient text v : parseStrictJson text = Ok v -> JSON_parse text = Ok v.
Proof.
  unfold parseStrictJson. destruct (_ <? _)%N; [done|]. intros Hok.
  unfold JSON_parse. erewrite parse_approx; [done| |exact Hok]. lia.
Qed.

(** Whenever the strict parser accepts a text, [JSON.parse] accepts it and
    returns the same value, so the ordinary decoder that runs on the same line
    sees the data the strict validation saw. *)
Theorem strict_json_agrees_with_JSON_parse (text : ustring) (v : js)
  (Hok : parseStrictJson text = Ok v) :
  JSON_parse text = Ok v.
Proof. by apply strict_then_lenient. Qed.

Lemma strict_json_agrees_with_JSON_parse_witness :
  exists v, parseStrictJson sample_text = Ok v /\ JSON_parse sample_text = Ok v.
Proof.
  eexists. split; [vm_compute; reflexivity|].
  apply (strict_json_agrees_with_JSON_parse sample_text). vm_compute. reflexivity.
Defined.

(** C27: writing a value canonically and parsing the text strictly gives the
    value back, for every value in the writer's range that fits the message
    limit. *)
Theorem strict_json_roundtrip (v : js) (text : ustring)
  (Hcanon : canon 128 v) (Hwrite : compressCanonicalJson v = Ok text)
  (Hsize : (byteLength text <= 65535)%N) :
  parseStrictJson text = Ok v.
Proof.
  unfold parseStrictJson, MAX_MODEL_INTERFACE_MESSAGE_BYTES.
  destruct (N.ltb_spec 65535 (byteLength text)); [lia|]. by apply canon_parse.
Qed.

Definition sample_value : js :=
  JObj [($"k", JArr [JNum (num_of_Z (-7)); JNull]); ([0xd83d%N; 0xde00%N], JBool false)].

Lemma sample_value_canon : canon 128 sample_value.
Proof.
  repeat (constructor || (vm_compute; repeat split; discriminate)).
Qed.

Lemma strict_json_roundtrip_witness :
  exists text, compressCanonicalJson sample_value = Ok text /\
    parseStrictJson text = Ok sample_value.
Proof.
  eexists. split; [vm_compute; reflexivity|].
  apply (strict_json_roundtrip sample_value);
    [exact sample_value_canon|vm_compute; reflexivity|vm_compute; discriminate].
Defined.
