(* ===== verification/Decode.v ===== *)
(** * Field decoders

    The small checking functions every decoder of
    [src/src/model-interface.ts] is built from: [object], [exactObject],
    [string], [nonnegativeInteger], [array], [optional], [assertShortString],
    and the wire form of semantic digests. [Object.freeze] has no counterpart:
    the values of the model are immutable. *)

From Stdlib Require Import SpecFloat.
From S2P Require Import Prelude JsNumber Utf16 JsData.

Notation "a =s s" := (bool_decide (a = lit s%string)) (at level 70, no associativity) : ustr_scope.

(** [`${path}.${name}`] and [`${path}[${i}]`]. *)
Definition dot (path : ustring) (name : string) : ustring := path ++ $"." ++ lit name.
Definition idx (path : ustring) (i : N) : ustring := path ++ $"[" ++ dec_of_N i ++ $"]".

Definition object (value : js) (path : ustring) : res exn object_t :=
  match value with
  | JObj o => Ok o
  | _ => fail path ($"expected an object")
  end.

Fixpoint check_allowed (ks allowed : list ustring) (path : ustring) : res exn unit :=
  match ks with
  | [] => Ok tt
  | key :: ks' =>
      if bool_decide (key ∈ allowed) then check_allowed ks' allowed path
      else fail path ($"unknown field '" ++ key ++ $"'")
  end.

Fixpoint check_required (o : object_t) (required : list ustring) (path : ustring) : res exn unit :=
  match required with
  | [] => Ok tt
  | key :: required' =>
      if has_own o key then check_required o required' path
      else fail path ($"missing required field '" ++ key ++ $"'")
  end.

Definition exactObject (value : js) (path : ustring) (allowed required : list ustring)
  : res exn object_t :=
  result ← object value path;
  _ ← check_allowed (keys result) allowed path;
  _ ← check_required result required path;
  mret result.

(** The decoder [string] of the source. *)
Definition string_val (value : js) (path : ustring) : res exn ustring :=
  match value with
  | JStr s => if well_formed s then Ok s
              else fail path ($"contains an unpaired UTF-16 surrogate")
  | _ => fail path ($"expected a string")
  end.

Definition nonnegativeInteger (value : js) (path : ustring) : res exn Z :=
  match value with
  | JNum x =>
      match num_safe_Z x with
      | Some z => if (z <? 0)%Z then fail path ($"expected a nonnegative safe integer") else Ok z
      | None => fail path ($"expected a nonnegative safe integer")
      end
  | _ => fail path ($"expected a nonnegative safe integer")
  end.

Definition array (value : js) (path : ustring) : res exn (list js) :=
  match value with
  | JArr l => Ok l
  | _ => fail path ($"expected an array")
  end.

Definition optional {M : Type -> Type} `{MRet M, FMap M} {A} (value : js) (decode : js -> M A)
  : M (option A) :=
  match value with
  | JUndef | JNull => mret None
  | _ => Some <$> decode value
  end.

#[export] Instance stres_fmap S E : FMap (stres S E) :=
  fun _ _ f m s => match m s with Ok (a, s') => Ok (f a, s') | Err e => Err e end.

Definition assertShortString (value path : ustring) : res exn ustring :=
  if (256 <? byteLength value)%N then fail path ($"string exceeds 256 UTF-8 bytes") else Ok value.

(** [assertShortString(string(value, path), path)], the form every use has. *)
Definition shortString (value : js) (path : ustring) : res exn ustring :=
  s ← string_val value path; assertShortString s path.

(** A mandatory short string field of [o]. *)
Definition shortField (o : object_t) (name : string) (path : ustring) : res exn ustring :=
  shortString (getf o (lit name)) (dot path name).

Definition requireUnique (values : list ustring) (path label : ustring) : res exn unit :=
  if no_dups values then Ok tt else fail path ($"duplicate " ++ label).

(** At most [n] elements, with the error the source reports. *)
Definition require_length {A} (l : list A) (n : nat) (path msg : ustring) : res exn unit :=
  if (n <? length l)%nat then fail path msg else Ok tt.

(** ** Semantic digests *)

Definition is_lower_hex (c : N) : bool := is_digit c || ((0x61 <=? c)%N && (c <=? 0x66)%N).

(** The test [/^[0-9a-f]{64}$/]. *)
Definition is_digest (value : ustring) : bool :=
  (length value =? 64)%nat && forallb is_lower_hex value.

Definition semanticDigestFromHex (value : ustring) : res exn ustring :=
  if is_digest value then Ok value
  else fail ($"semanticDigest") ($"expected exactly 64 lowercase hexadecimal characters").

Definition digest_prefix : ustring := $"sha256:".

Definition parseWireSemanticDigest (value : ustring) : res exn ustring :=
  if bool_decide (take 7 value = digest_prefix)
  then semanticDigestFromHex (drop 7 value)
  else fail ($"digest") ($"expected the 'sha256:' prefix").

Definition renderWireSemanticDigest (value : ustring) : res exn ustring :=
  d ← semanticDigestFromHex value; mret (digest_prefix ++ d).

(** [digestField(fields, name, path)] *)
Definition digestField (fields : object_t) (name : string) (path : ustring)
  : res exn (option ustring) :=
  optional (getf fields (lit name))
    (fun value => s ← string_val value (dot path name); parseWireSemanticDigest s).

(** ** Facts *)

Lemma semanticDigestFromHex_Ok d r :
  semanticDigestFromHex d = Ok r <-> r = d /\ is_digest d = true.
Proof. unfold semanticDigestFromHex. destruct (is_digest d); naive_solver. Qed.

Lemma parse_render_digest d w :
  renderWireSemanticDigest d = Ok w -> parseWireSemanticDigest w = Ok d /\ is_digest d = true.
Proof.
  unfold renderWireSemanticDigest. intros H.
  apply res_bind_Ok in H as (d' & (-> & E)%semanticDigestFromHex_Ok & H).
  assert (w = digest_prefix ++ d) as -> by (by injection H).
  unfold parseWireSemanticDigest.
  assert (take 7 (digest_prefix ++ d) = digest_prefix) as -> by exact (take_app_length digest_prefix d).
  assert (drop 7 (digest_prefix ++ d) = d) as -> by exact (drop_app_length digest_prefix d).
  rewrite bool_decide_eq_true_2 by done.
  by rewrite semanticDigestFromHex_Ok.
Qed.

Lemma string_val_Ok v p s : string_val v p = Ok s <-> v = JStr s /\ well_formed s = true.
Proof.
  unfold string_val. destruct v; try (split; [done|naive_solver]).
  destruct (well_formed s0) eqn:E; naive_solver congruence.
Qed.

Lemma object_Ok v p o : object v p = Ok o <-> v = JObj o.
Proof. destruct v; cbn; naive_solver. Qed.

Lemma array_Ok v p l : array v p = Ok l <-> v = JArr l.
Proof. destruct v; cbn; naive_solver. Qed.

Lemma assertShortString_Ok s p r :
  assertShortString s p = Ok r <-> r = s /\ (byteLength s <= 256)%N.
Proof.
  unfold assertShortString. destruct (N.ltb_spec 256 (byteLength s)); split;
    [done| intros [_ ?]; lia | naive_solver | naive_solver].
Qed.

Lemma shortString_Ok v p s :
  shortString v p = Ok s <-> v = JStr s /\ well_formed s = true /\ (byteLength s <= 256)%N.
Proof.
  unfold shortString. rewrite res_bind_Ok. setoid_rewrite string_val_Ok.
  setoid_rewrite assertShortString_Ok. naive_solver.
Qed.

(** The shape [exactObject] accepts. *)
Definition has_keys (o : object_t) (allowed required : list ustring) : bool :=
  forallb (fun k => bool_decide (k ∈ allowed)) (keys o) && forallb (has_own o) required.

Lemma exactObject_Ok v p allowed required o :
  exactObject v p allowed required = Ok o <-> v = JObj o /\ has_keys o allowed required = true.
Proof.
  assert (check_allowed (keys o) allowed p = Ok tt <->
          forallb (fun k => bool_decide (k ∈ allowed)) (keys o) = true) as Ha.
  { induction (keys o) as [|k ks IH]; cbn; [done|].
    destruct (bool_decide (k ∈ allowed)); cbn; [done|]. by split. }
  assert (check_required o required p = Ok tt <-> forallb (has_own o) required = true) as Hr.
  { clear Ha. induction required as [|k ks IH]; cbn; [done|].
    destruct (has_own o k); cbn; [done|]. by split. }
  unfold exactObject, has_keys. rewrite andb_true_iff, <- Ha, <- Hr. split.
  - intros H. apply res_bind_Ok in H as (o' & Ho & H). apply object_Ok in Ho as ->.
    apply res_bind_Ok in H as ([] & H1 & H). apply res_bind_Ok in H as ([] & H2 & H).
    injection H as ->. done.
  - intros (-> & H1 & H2). cbn. by rewrite H1, H2.
Qed.

Lemma requireUnique_Ok l p lab u : requireUnique l p lab = Ok u <-> NoDup l.
Proof.
  unfold requireUnique. destruct (no_dups l) eqn:E, u.
  - apply no_dups_NoDup in E. naive_solver.
  - split; [done|]. intros Hn. apply no_dups_NoDup in Hn. congruence.
Qed.

Lemma require_length_Ok {A} (l : list A) n p m u :
  require_length l n p m = Ok u <-> (length l <= n)%nat.
Proof.
  unfold require_length. destruct u, (Nat.ltb_spec n (length l)); split; try done; lia.
Qed.

(** What an optional field stands for. *)
Definition opt_rep {A} (R : js -> A -> Prop) (v : js) (r : option A) : Prop :=
  match r with
  | None => v = JUndef \/ v = JNull
  | Some a => v <> JUndef /\ v <> JNull /\ R v a
  end.

Lemma optional_Ok {A} v (f : js -> res exn A) (r : option A) :
  optional v f = Ok r <-> opt_rep (fun v a => f v = Ok a) v r.
Proof.
  destruct v; cbn; unfold fmap, res_fmap; destruct r; cbn; try naive_solver;
    repeat match goal with |- context [match ?x with Ok _ => _ | Err _ => _ end] => destruct x end;
    naive_solver.
Qed.

Lemma require_at_Ok b p m u : require_at b p m = Ok u <-> b = true.
Proof. destruct b, u; cbn; naive_solver. Qed.

Lemma nonnegativeInteger_Ok v p z :
  nonnegativeInteger v p = Ok z <-> (exists x, v = JNum x /\ num_safe_Z x = Some z) /\ (0 <= z)%Z.
Proof.
  unfold nonnegativeInteger. destruct v; try (split; [done|naive_solver]).
  destruct (num_safe_Z x) as [z'|] eqn:E; [|naive_solver].
  destruct (Z.ltb_spec z' 0); split; try done.
  - intros [(? & [= <-] & ?) ?]. simplify_eq. lia.
  - intros [= <-]. naive_solver.
  - intros [(? & [= <-] & ?) ?]. by simplify_eq.
Qed.

(** The value of a mandatory short string field. *)
Definition short (s : ustring) : Prop := well_formed s = true /\ (byteLength s <= 256)%N.

Lemma shortField_Ok o name p s :
  shortField o name p = Ok s <-> getf o (lit name) = JStr s /\ short s.
Proof. apply shortString_Ok. Qed.

(** [Array.prototype.map] with a decoder that spends a budget: it succeeds
    exactly when every item does and the budget covers the sum. *)
Section sum_by.
Context {A : Type} (w : A -> N).
Fixpoint sum_by (l : list A) : N :=
  match l with [] => 0%N | x :: l' => (w x + sum_by l')%N end.
End sum_by.

Section mapMi_budget.
Context {A B : Type} (f : N -> A -> stres N exn B) (R : A -> B -> Prop) (w : B -> N) (limit : N).

Lemma mapMi_from_budget i l s ys s' :
  (forall i x s y s', x ∈ l -> (s <= limit)%N ->
     f i x s = Ok (y, s') <-> R x y /\ s' = (s + w y)%N /\ (s' <= limit)%N) ->
  (s <= limit)%N ->
  mapMi_from i f l s = Ok (ys, s') <->
  Forall2 R l ys /\ s' = (s + sum_by w ys)%N /\ (s' <= limit)%N.
Proof.
  revert i s ys s'. induction l as [|x l IH]; intros i s ys s' Hf Hs; cbn.
  - split.
    + intros [<- ->]%stres_ret_Ok. cbn. split; [constructor|lia].
    + intros (H & -> & _). inversion H; subst. cbn. by rewrite N.add_0_r.
  - assert (forall i x s y s', x ∈ l -> (s <= limit)%N ->
     f i x s = Ok (y, s') <-> R x y /\ s' = (s + w y)%N /\ (s' <= limit)%N) as Hf'
      by (intros; apply Hf; [by right|done]).
    split.
    + intros (y & s1 & (HR & -> & Hle)%Hf & H)%stres_bind_Ok; [|by left|done].
      apply stres_bind_Ok in H as (zs & s2 & H & [<- ->]%stres_ret_Ok).
      apply IH in H as (HF & -> & Hl); [|done..]. cbn. split; [by constructor|lia].
    + intros (HF & -> & Hle). inversion HF as [|? y ? zs HR HF']; subst. cbn in *.
      apply stres_bind_Ok. exists y, (s + w y)%N. split; [apply Hf; [by left|done|split; [done|lia]]|].
      apply stres_bind_Ok. eexists zs, _. split.
      * apply IH; [done|lia|]. split; [done|]. split; [reflexivity|lia].
      * apply stres_ret_Ok. split; [done|lia].
Qed.
End mapMi_budget.

(** The same without a budget. *)
Lemma mapMi_from_rep {A B} (f : N -> A -> res exn B) (R : A -> B -> Prop) i l ys :
  (forall i x y, x ∈ l -> f i x = Ok y <-> R x y) ->
  mapMi_from i f l = Ok ys <-> Forall2 R l ys.
Proof.
  revert i ys. induction l as [|x l IH]; intros i ys Hf; cbn.
  - split; [intros [= <-]; constructor|]. by inversion 1.
  - assert (forall i x y, x ∈ l -> f i x = Ok y <-> R x y) as Hf' by (intros; apply Hf; by right).
    split.
    + intros (y & HR%Hf & H)%res_bind_Ok; [|by left].
      apply res_bind_Ok in H as (zs & H & [= <-]). constructor; [done|]. by apply (IH (N.succ i)).
    + inversion 1 as [|? y ? zs HR HF]; subst. apply res_bind_Ok. exists y.
      split; [apply Hf; [by left|done]|]. apply res_bind_Ok. exists zs. split; [|done]. by apply IH.
Qed.

(** Inversion of the decoders inside [res_inv]-style scripts. *)
Ltac dec_inv1 :=
  match goal with
  | H : string_val _ _ = Ok _ |- _ => apply string_val_Ok in H as [? ?]
  | H : shortString _ _ = Ok _ |- _ => apply shortString_Ok in H as (? & ? & ?)
  | H : shortField _ _ _ = Ok _ |- _ => apply shortField_Ok in H as (? & ?)
  | H : exactObject _ _ _ _ = Ok _ |- _ => apply exactObject_Ok in H as (? & ?)
  | H : nonnegativeInteger _ _ = Ok _ |- _ => apply nonnegativeInteger_Ok in H as (? & ?)
  | H : array _ _ = Ok _ |- _ => apply array_Ok in H
  | H : object _ _ = Ok _ |- _ => apply object_Ok in H
  | H : requireUnique _ _ _ = Ok _ |- _ => apply requireUnique_Ok in H
  | H : require_length _ _ _ _ = Ok _ |- _ => apply require_length_Ok in H
  | H : require_at _ _ _ = Ok _ |- _ => apply require_at_Ok in H
  | H : optional _ _ = Ok _ |- _ => apply optional_Ok in H
  | H : (_ ≫= _) = Ok _ |- _ => apply res_bind_Ok in H as (? & ? & ?)
  | H : (_ ≫= _) _ = Ok (_, _) |- _ => apply stres_bind_Ok in H as (? & ? & ? & ?)
  | H : liftR _ _ = Ok (_, _) |- _ => apply liftR_Ok in H as [H ?]
  | H : mret _ _ = Ok (_, _) |- _ => apply stres_ret_Ok in H as [? ?]
  | H : Ok _ = Ok _ |- _ => injection H as H
  | H : mret _ = Ok _ |- _ => injection H as H
  | H : fail _ _ = Ok _ |- _ => discriminate H
  | H : Err _ = Ok _ |- _ => discriminate H
  | H : JObj _ = JObj _ |- _ => injection H as H
  end.
Ltac dec_inv := repeat (dec_inv1; subst).

(** Conversely, running a decoder on a value whose shape is known: each step
    is one of the lemmas above, its premise in the context. *)
Ltac dec_leaf :=
  first
  [ eassumption
  | apply string_val_Ok; split; eassumption
  | apply shortString_Ok; repeat split; eassumption
  | apply shortField_Ok; split; eassumption
  | apply exactObject_Ok; split; [reflexivity|eassumption]
  | apply object_Ok; reflexivity
  | apply array_Ok; eassumption
  | apply (requireUnique_Ok _ _ _ tt); eassumption
  | apply (require_length_Ok _ _ _ _ tt); eassumption
  | apply (require_at_Ok _ _ _ tt); first [eassumption | apply bool_decide_eq_true; reflexivity] ].
Lemma bind_lift {S A B} (r : res exn A) a (f : A -> stres S exn B) s :
  r = Ok a -> (liftR r ≫= f) s = f a s.
Proof. by intros ->. Qed.
Lemma bind_run {S A B} (m : stres S exn A) a s s' (f : A -> stres S exn B) :
  m s = Ok (a, s') -> (m ≫= f) s = f a s'.
Proof. unfold mbind, stres_mbind. by intros ->. Qed.
Lemma bind_ok {A B} (r : res exn A) a (f : A -> res exn B) : r = Ok a -> (r ≫= f) = f a.
Proof. by intros ->. Qed.

Ltac dec_run1 :=
  match goal with
  | |- (liftR _ ≫= _) _ = Ok _ => erewrite bind_lift by dec_leaf
  | |- (_ ≫= _) = Ok _ => erewrite bind_ok by dec_leaf
  | |- liftR _ _ = Ok _ => apply liftR_Ok; split; [dec_leaf|reflexivity]
  end.
Ltac dec_run := repeat dec_run1.

(** Comparisons of literals are decided by computation. *)
Ltac lit_simp :=
  repeat match goal with
  | |- context [bool_decide (lit ?a = lit ?b)] =>
      let r := eval vm_compute in (bool_decide (lit a = lit b)) in
      change (bool_decide (lit a = lit b)) with r; cbv iota
  | H : context [bool_decide (lit ?a = lit ?b)] |- _ =>
      let r := eval vm_compute in (bool_decide (lit a = lit b)) in
      change (bool_decide (lit a = lit b)) with r in H; cbv iota in H
  end.
