(* ===== verification/ModelTypes.v ===== *)
(** * Structural types, literals and paths

    The data of the model-interface contract ([ModelType],
    [CanonicalItfLiteral], [ContractPathSegment] of
    [src/src/model-interface.ts]) and their decoders. The depth a decoder has
    left is its recursion argument, so the source's nesting limits (32 for
    types, 128 for literals) are the base case; the mutable [TypeBudget] is the
    state of the monad. *)

From S2P Require Import Prelude JsNumber Utf16 JsData StrictJson Decode.

Inductive ModelType :=
| TInt | TBool | TStr | TNull
| TSet (element : ModelType)
| TSeq (element : ModelType)
| TTuple (elements : list ModelType)
| TRecord (fields : list (ustring * ModelType))
| TMap (key value : ModelType)
| TVariant (cases : list (ustring * ModelType))
| TOpaqueItf (description : ustring).

Inductive CanonicalItfLiteral :=
| LInt (value : ustring)
| LBool (value : bool)
| LStr (value : ustring)
| LNull
| LSet (values : list CanonicalItfLiteral)
| LSeq (values : list CanonicalItfLiteral)
| LTuple (values : list CanonicalItfLiteral)
| LRecord (fields : list (ustring * CanonicalItfLiteral))
| LMap (entries : list (CanonicalItfLiteral * CanonicalItfLiteral))
| LVariant (tag : ustring) (payload : CanonicalItfLiteral).

Inductive ContractPathSegment :=
| PField (field : ustring)
| PIndex (index : Z)
| PMapKey (mapKey : CanonicalItfLiteral)
| PVariantValue (variantValue : ustring).

(** ** decodeModelType *)

Definition MAX_TYPE_DEPTH : nat := 32.
Definition MAX_TYPE_NODES : N := 8192.

(** [budget.nodes += 1; if (budget.nodes > 8_192) fail(...)] *)
Definition tick (path : ustring) : stres N exn unit :=
  fun nodes =>
    let nodes' := (nodes + 1)%N in
    if (MAX_TYPE_NODES <? nodes')%N
    then fail path ($"structural type graph exceeds 8192 nodes")
    else Ok (tt, nodes').

Fixpoint decodeModelType (depth_left : nat) (value : js) (path : ustring)
  : stres N exn ModelType :=
  match depth_left with
  | O => liftR (fail path ($"structural type nesting exceeds 32"))
  | S d =>
      _ ← tick path;
      tagged ← liftR (object value path);
      kind ← liftR (string_val (getf tagged ($"kind")) (dot path "kind"));
      if kind =s "int" then
        _ ← liftR (exactObject value path [$"kind"] [$"kind"]); mret TInt
      else if kind =s "bool" then
        _ ← liftR (exactObject value path [$"kind"] [$"kind"]); mret TBool
      else if kind =s "str" then
        _ ← liftR (exactObject value path [$"kind"] [$"kind"]); mret TStr
      else if kind =s "null" then
        _ ← liftR (exactObject value path [$"kind"] [$"kind"]); mret TNull
      else if kind =s "set" then
        fields ← liftR (exactObject value path [$"kind"; $"element"] [$"kind"; $"element"]);
        element ← decodeModelType d (getf fields ($"element")) (dot path "element");
        mret (TSet element)
      else if kind =s "seq" then
        fields ← liftR (exactObject value path [$"kind"; $"element"] [$"kind"; $"element"]);
        element ← decodeModelType d (getf fields ($"element")) (dot path "element");
        mret (TSeq element)
      else if kind =s "tuple" then
        fields ← liftR (exactObject value path [$"kind"; $"elements"] [$"kind"; $"elements"]);
        items ← liftR (array (getf fields ($"elements")) (dot path "elements"));
        elements ← mapMi (fun i item => decodeModelType d item (idx (dot path "elements") i)) items;
        mret (TTuple elements)
      else if kind =s "record" then
        fields ← liftR (exactObject value path [$"kind"; $"fields"] [$"kind"; $"fields"]);
        items ← liftR (array (getf fields ($"fields")) (dot path "fields"));
        decoded ← mapMi (fun i item =>
            let itemPath := idx (dot path "fields") i in
            field ← liftR (exactObject item itemPath [$"wireName"; $"type"] [$"wireName"; $"type"]);
            wireName ← liftR (shortField field "wireName" itemPath);
            type ← decodeModelType d (getf field ($"type")) (dot itemPath "type");
            mret (wireName, type)) items;
        mret (TRecord decoded)
      else if kind =s "map" then
        fields ← liftR (exactObject value path [$"kind"; $"key"; $"value"] [$"kind"; $"key"; $"value"]);
        key ← decodeModelType d (getf fields ($"key")) (dot path "key");
        val ← decodeModelType d (getf fields ($"value")) (dot path "value");
        mret (TMap key val)
      else if kind =s "variant" then
        fields ← liftR (exactObject value path [$"kind"; $"cases"] [$"kind"; $"cases"]);
        items ← liftR (array (getf fields ($"cases")) (dot path "cases"));
        cases ← mapMi (fun i item =>
            let itemPath := idx (dot path "cases") i in
            variant ← liftR (exactObject item itemPath [$"tag"; $"payload"] [$"tag"; $"payload"]);
            tag ← liftR (shortField variant "tag" itemPath);
            payload ← decodeModelType d (getf variant ($"payload")) (dot itemPath "payload");
            mret (tag, payload)) items;
        mret (TVariant cases)
      else if kind =s "opaqueItf" then
        fields ← liftR (exactObject value path [$"kind"; $"description"] [$"kind"; $"description"]);
        description ← liftR (shortField fields "description" path);
        mret (TOpaqueItf description)
      else liftR (fail (dot path "kind") ($"unknown structural type '" ++ kind ++ $"'"))
  end.

(** ** decodeLiteral *)

Definition MAX_LITERAL_DEPTH : nat := 128.

(** A canonical decimal integer: an optional sign, then 0 or digits without a
    leading zero, and nothing else. *)
Definition canonical_decimal (s : ustring) : bool :=
  let t := (match_sign s).2 in
  negb (match_int t =? 0)%nat && (match_int t =? length t)%nat.

Fixpoint decodeLiteral (depth_left : nat) (value : js) (path : ustring)
  : res exn CanonicalItfLiteral :=
  match depth_left with
  | O => fail path ($"literal nesting exceeds 128")
  | S d =>
      tagged ← object value path;
      kind ← string_val (getf tagged ($"kind")) (dot path "kind");
      let decodeValues :=
        fields ← exactObject value path [$"kind"; $"values"] [$"kind"; $"values"];
        items ← array (getf fields ($"values")) (dot path "values");
        mapMi (fun i item => decodeLiteral d item (idx (dot path "values") i)) items in
      if kind =s "int" then
        fields ← exactObject value path [$"kind"; $"value"] [$"kind"; $"value"];
        literal ← string_val (getf fields ($"value")) (dot path "value");
        _ ← require_at (canonical_decimal literal) (dot path "value")
              ($"expected a canonical decimal integer");
        mret (LInt literal)
      else if kind =s "bool" then
        fields ← exactObject value path [$"kind"; $"value"] [$"kind"; $"value"];
        match getf fields ($"value") with
        | JBool b => mret (LBool b)
        | _ => fail (dot path "value") ($"expected a boolean")
        end
      else if kind =s "str" then
        fields ← exactObject value path [$"kind"; $"value"] [$"kind"; $"value"];
        s ← string_val (getf fields ($"value")) (dot path "value");
        mret (LStr s)
      else if kind =s "null" then
        _ ← exactObject value path [$"kind"] [$"kind"]; mret LNull
      else if kind =s "set" then LSet <$> decodeValues
      else if kind =s "seq" then LSeq <$> decodeValues
      else if kind =s "tuple" then LTuple <$> decodeValues
      else if kind =s "record" then
        fields ← exactObject value path [$"kind"; $"fields"] [$"kind"; $"fields"];
        items ← array (getf fields ($"fields")) (dot path "fields");
        decoded ← mapMi (fun i item =>
            let itemPath := idx (dot path "fields") i in
            entry ← exactObject item itemPath [$"name"; $"value"] [$"name"; $"value"];
            name ← string_val (getf entry ($"name")) (dot itemPath "name");
            v ← decodeLiteral d (getf entry ($"value")) (dot itemPath "value");
            mret (name, v)) items;
        mret (LRecord decoded)
      else if kind =s "map" then
        fields ← exactObject value path [$"kind"; $"entries"] [$"kind"; $"entries"];
        items ← array (getf fields ($"entries")) (dot path "entries");
        entries ← mapMi (fun i item =>
            let itemPath := idx (dot path "entries") i in
            entry ← exactObject item itemPath [$"key"; $"value"] [$"key"; $"value"];
            k ← decodeLiteral d (getf entry ($"key")) (dot itemPath "key");
            v ← decodeLiteral d (getf entry ($"value")) (dot itemPath "value");
            mret (k, v)) items;
        mret (LMap entries)
      else if kind =s "variant" then
        fields ← exactObject value path [$"kind"; $"tag"; $"payload"] [$"kind"; $"tag"; $"payload"];
        tag ← string_val (getf fields ($"tag")) (dot path "tag");
        payload ← decodeLiteral d (getf fields ($"payload")) (dot path "payload");
        mret (LVariant tag payload)
      else fail (dot path "kind") ($"unknown canonical literal '" ++ kind ++ $"'")
  end.

(** ** decodePathSegment *)

Definition decodePathSegment (value : js) (path : ustring) : res exn ContractPathSegment :=
  fields ← object value path;
  match keys fields with
  | [key] =>
      if key =s "field" then PField <$> shortField fields "field" path
      else if key =s "index" then
        PIndex <$> nonnegativeInteger (getf fields ($"index")) (dot path "index")
      else if key =s "mapKey" then
        PMapKey <$> decodeLiteral MAX_LITERAL_DEPTH (getf fields ($"mapKey")) (dot path "mapKey")
      else if key =s "variantValue" then PVariantValue <$> shortField fields "variantValue" path
      else fail path ($"unknown path selector '" ++ key ++ $"'")
  | _ => fail path ($"path segment must contain exactly one selector")
  end.

(** ** validateModelType *)

(** [values.forEach((x, i) => check)] *)
Section iteri.
Context {E A : Type} (f : N -> A -> res E unit).
Fixpoint iteri_from (i : N) (l : list A) : res E unit :=
  match l with
  | [] => Ok tt
  | x :: l' => _ ← f i x; iteri_from (N.succ i) l'
  end.
Definition iteri : list A -> res E unit := iteri_from 0.
End iteri.

Definition nonempty_all (names : list ustring) : bool :=
  forallb (fun name => negb (bool_decide (name = []))) names.

Fixpoint validateModelType (type : ModelType) (path : ustring) : res exn unit :=
  match type with
  | TInt | TBool | TStr | TNull => Ok tt
  | TSet element | TSeq element => validateModelType element (dot path "element")
  | TTuple elements =>
      iteri (fun i item => validateModelType item (idx (dot path "elements") i)) elements
  | TRecord fields =>
      let names := map fst fields in
      _ ← require_at (nonempty_all names) (dot path "fields") ($"record field names must not be empty");
      _ ← requireUnique names (dot path "fields") ($"record field name");
      iteri (fun i field =>
        validateModelType field.2 (dot (idx (dot path "fields") i) "type")) fields
  | TMap key value =>
      _ ← validateModelType key (dot path "key");
      validateModelType value (dot path "value")
  | TVariant cases =>
      let tags := map fst cases in
      _ ← require_at (nonempty_all tags) (dot path "cases") ($"variant tags must not be empty");
      _ ← requireUnique tags (dot path "cases") ($"variant tag");
      iteri (fun i item =>
        validateModelType item.2 (dot (idx (dot path "cases") i) "payload")) cases
  | TOpaqueItf description =>
      require_at (negb (bool_decide (description = []))) (dot path "description") ($"must not be empty")
  end.

(** ** What the decoders accept

    [rep_type d v t]: the JavaScript value [v] is a tagged object that writes
    the type [t] with at most [d] levels. The relation reads the fields by
    name: the order of an object's properties does not count. *)

(** An object with exactly the fields [names], the [kind] being [kind]. *)
Definition tagged (o : object_t) (kind : string) (names : list ustring) : Prop :=
  has_keys o ($"kind" :: names) ($"kind" :: names) = true /\ getf o ($"kind") = JStr (lit kind).

(** An entry [{name: s, value: v}] of a record or variant, [s] in [P]. *)
Definition rep_entry {A} (P : ustring -> Prop) (R : js -> A -> Prop) (name value : ustring)
  (v : js) (e : ustring * A) : Prop :=
  exists o, v = JObj o /\ has_keys o [name; value] [name; value] = true /\
    (getf o name = JStr e.1 /\ P e.1) /\ R (getf o value) e.2.

Fixpoint rep_type (d : nat) (v : js) (t : ModelType) : Prop :=
  match d with
  | O => False
  | S d =>
      exists o, v = JObj o /\
      match t with
      | TInt => tagged o "int" []
      | TBool => tagged o "bool" []
      | TStr => tagged o "str" []
      | TNull => tagged o "null" []
      | TSet e => tagged o "set" [$"element"] /\ rep_type d (getf o ($"element")) e
      | TSeq e => tagged o "seq" [$"element"] /\ rep_type d (getf o ($"element")) e
      | TTuple ts => tagged o "tuple" [$"elements"] /\
          exists l, getf o ($"elements") = JArr l /\ Forall2 (rep_type d) l ts
      | TRecord fs => tagged o "record" [$"fields"] /\
          exists l, getf o ($"fields") = JArr l /\
            Forall2 (rep_entry short (rep_type d) ($"wireName") ($"type")) l fs
      | TMap k e => tagged o "map" [$"key"; $"value"] /\
          rep_type d (getf o ($"key")) k /\ rep_type d (getf o ($"value")) e
      | TVariant cs => tagged o "variant" [$"cases"] /\
          exists l, getf o ($"cases") = JArr l /\
            Forall2 (rep_entry short (rep_type d) ($"tag") ($"payload")) l cs
      | TOpaqueItf s => tagged o "opaqueItf" [$"description"] /\
          getf o ($"description") = JStr s /\ short s
      end
  end.

(** The nodes of a type: what decoding it takes from the budget. *)
Fixpoint type_nodes (t : ModelType) : N :=
  match t with
  | TInt | TBool | TStr | TNull | TOpaqueItf _ => 1
  | TSet e | TSeq e => 1 + type_nodes e
  | TTuple ts => 1 + sum_by type_nodes ts
  | TRecord fs => 1 + sum_by (fun f => type_nodes f.2) fs
  | TMap k e => 1 + (type_nodes k + type_nodes e)
  | TVariant cs => 1 + sum_by (fun c => type_nodes c.2) cs
  end.

Lemma tick_Ok p n u n' :
  tick p n = Ok (u, n') <-> n' = (n + 1)%N /\ (n' <= MAX_TYPE_NODES)%N.
Proof.
  unfold tick. destruct u, (N.ltb_spec MAX_TYPE_NODES (n + 1)); split; try done.
  - lia.
  - intros [= <-]. done.
  - by intros [-> _].
Qed.

Ltac split_kind :=
  repeat match goal with
  | H : (if bool_decide (?k = lit ?s) then _ else _) _ = Ok _ |- _ =>
      let Hb := fresh "Hb" in
      destruct (bool_decide (k = lit s)) eqn:Hb; [apply bool_decide_eq_true in Hb; subst k|clear Hb]
  | H : (if bool_decide (?k = lit ?s) then _ else _) = Ok _ |- _ =>
      let Hb := fresh "Hb" in
      destruct (bool_decide (k = lit s)) eqn:Hb; [apply bool_decide_eq_true in Hb; subst k|clear Hb]
  end.

(** An entry item, in the loops over record fields and variant cases. *)
Lemma decode_entry_Ok {A} (g : js -> ustring -> stres N exn A) (R : js -> A -> Prop)
  (w : A -> N) limit name value v p n e n' :
  (forall v p n a n', (n <= limit)%N ->
     g v p n = Ok (a, n') <-> R v a /\ n' = (n + w a)%N /\ (n' <= limit)%N) ->
  (n <= limit)%N ->
  (field ← liftR (exactObject v p [lit name; lit value] [lit name; lit value]);
   x ← liftR (shortField field name p);
   y ← g (getf field (lit value)) (dot p value);
   mret (x, y) : stres N exn (ustring * A)) n = Ok (e, n') <->
  rep_entry short R (lit name) (lit value) v e /\ n' = (n + w e.2)%N /\ (n' <= limit)%N.
Proof.
  intros Hg Hn. split.
  - intros H. dec_inv.
    match goal with H : g _ _ _ = _ |- _ => apply Hg in H as (HR & -> & Hle); [|done] end.
    cbn. split; [|done]. unfold rep_entry. eauto 8.
  - intros ((o & -> & Hk & [Hs Hsh] & HR) & -> & Hle). destruct e as [x y]; cbn [fst snd] in *.
    apply stres_bind_Ok. do 2 eexists. split.
    { apply liftR_Ok. split; [|done]. dec_leaf. }
    apply stres_bind_Ok. do 2 eexists. split.
    { apply liftR_Ok. split; [|done]. dec_leaf. }
    apply stres_bind_Ok. do 2 eexists. split; [by apply Hg|done].
Qed.

Lemma decodeModelType_spec d v p n t n' :
  (n <= MAX_TYPE_NODES)%N ->
  decodeModelType d v p n = Ok (t, n') <->
  rep_type d v t /\ n' = (n + type_nodes t)%N /\ (n' <= MAX_TYPE_NODES)%N.
Proof.
  revert v p n t n'. induction d as [|d IH]; intros v p n t n' Hn; [cbn; split; [done|tauto]|].
  cbn [decodeModelType rep_type]. split.
  - intros H.
    apply stres_bind_Ok in H as ([] & n1 & (-> & Hn1)%tick_Ok & H).
    apply stres_bind_Ok in H as (o & ? & (->%object_Ok & <-)%liftR_Ok & H).
    apply stres_bind_Ok in H as (k & ? & ((Hk & Hwf)%string_val_Ok & <-)%liftR_Ok & H).
    split_kind.
    all: dec_inv.
    all: try (split; [eexists; split; [reflexivity|]; split; assumption|cbn; lia]).
    all: repeat match goal with
      | H : decodeModelType _ _ _ _ = Ok _ |- _ => apply IH in H as (? & -> & ?); [|done]
      | H : mapMi _ _ _ = Ok (?y, _), G : getf _ ($"elements") = _ |- _ =>
          apply (mapMi_from_budget _ (rep_type d) type_nodes MAX_TYPE_NODES) in H as (? & -> & ?);
            [|intros; by apply IH|done]
      | H : mapMi _ _ _ = Ok (?y, _), G : getf _ ($"fields") = _ |- _ =>
          apply (mapMi_from_budget _ (rep_entry short (rep_type d) ($"wireName") ($"type"))
             (fun f => type_nodes f.2) MAX_TYPE_NODES) in H as (? & -> & ?);
            [|intros; apply decode_entry_Ok; [|done]; intros; by apply IH|done]
      | H : mapMi _ _ _ = Ok (?y, _), G : getf _ ($"cases") = _ |- _ =>
          apply (mapMi_from_budget _ (rep_entry short (rep_type d) ($"tag") ($"payload"))
             (fun f => type_nodes f.2) MAX_TYPE_NODES) in H as (? & -> & ?);
            [|intros; apply decode_entry_Ok; [|done]; intros; by apply IH|done]
      end.
    all: (split; [|cbn; lia]; eexists; split; [reflexivity|]; split; [done|]; eauto).
  - intros ((o & -> & Ht) & -> & Hle).
    erewrite (bind_run (tick p) tt) by (apply tick_Ok; split; [done|destruct t; cbn in Hle; lia]).
    destruct t; destruct Ht as [[Hk Hkind] Ht] || destruct Ht as [Hk Hkind];
      (erewrite bind_lift by (apply object_Ok; reflexivity));
      (erewrite bind_lift by (apply string_val_Ok; split; [exact Hkind|reflexivity]));
      lit_simp; cbn in Hle; dec_run.
    all: try destruct Ht as (l & Hl & HF); dec_run.
    all: repeat match goal with
      | H : _ /\ _ |- _ => destruct H
      | H : rep_type _ ?v _ |- (decodeModelType _ ?v _ ≫= _) _ = _ =>
          erewrite bind_run by (apply IH; [lia|split; [exact H|split; [reflexivity|lia]]])
      | |- (mapMi _ ?l ≫= _) _ = Ok (TTuple _, _) =>
          erewrite bind_run by (eapply (mapMi_from_budget _ (rep_type d) type_nodes MAX_TYPE_NODES);
            [intros; by apply IH|lia|split; [eassumption|split; [reflexivity|lia]]])
      | |- (mapMi _ ?l ≫= _) _ = Ok (TRecord _, _) =>
          erewrite bind_run by (eapply (mapMi_from_budget _
              (rep_entry short (rep_type d) ($"wireName") ($"type")) (fun f => type_nodes f.2) MAX_TYPE_NODES);
            [intros; apply decode_entry_Ok; [|done]; intros; by apply IH|lia
            |split; [eassumption|split; [reflexivity|lia]]])
      | |- (mapMi _ ?l ≫= _) _ = Ok (TVariant _, _) =>
          erewrite bind_run by (eapply (mapMi_from_budget _
              (rep_entry short (rep_type d) ($"tag") ($"payload")) (fun f => type_nodes f.2) MAX_TYPE_NODES);
            [intros; apply decode_entry_Ok; [|done]; intros; by apply IH|lia
            |split; [eassumption|split; [reflexivity|lia]]])
      end.
    all: apply stres_ret_Ok; split; [done|cbn; lia].
Qed.

(** Every type the decoder produces is within the limits, whatever wrote it. *)
Fixpoint type_depth (t : ModelType) : nat :=
  match t with
  | TInt | TBool | TStr | TNull | TOpaqueItf _ => 1
  | TSet e | TSeq e => S (type_depth e)
  | TTuple ts => S (list_max (map type_depth ts))
  | TRecord fs => S (list_max (map (fun f => type_depth f.2) fs))
  | TMap k e => S (Nat.max (type_depth k) (type_depth e))
  | TVariant cs => S (list_max (map (fun c => type_depth c.2) cs))
  end.

Lemma list_max_map_le {A} (f : A -> nat) l n :
  (list_max (map f l) <= n)%nat <-> Forall (fun x => (f x <= n)%nat) l.
Proof.
  rewrite list_max_le. by rewrite Forall_map.
Qed.

Lemma Forall2_Forall_right {A B} (R : A -> B -> Prop) (P : B -> Prop) l1 l2 :
  (forall a b, R a b -> P b) -> Forall2 R l1 l2 -> Forall P l2.
Proof. intros H. induction 1; constructor; eauto. Qed.

Lemma rep_type_depth d v t : rep_type d v t -> (type_depth t <= d)%nat.
Proof.
  revert v t. induction d as [|d IH]; intros v t; [done|].
  intros (o & -> & Ht).
  destruct t; cbn; try lia; destruct Ht as [_ Ht];
    try (apply IH in Ht; lia);
    try (destruct Ht as (l & _ & HF); apply le_n_S, list_max_map_le;
         eapply Forall2_Forall_right; [|exact HF]; intros ? ? H; try eapply IH, H;
         destruct H as (? & _ & _ & _ & H); eapply IH, H).
  destruct Ht as [H1%IH H2%IH]. lia.
Qed.

(** The object the source builds for a decoded type, and that it can be
    decoded again: [decodeModelType] accepts its own results. *)
Definition tag_obj (kind : string) (fields : object_t) : js :=
  JObj (($"kind", JStr (lit kind)) :: fields).

Fixpoint type_js (t : ModelType) : js :=
  match t with
  | TInt => tag_obj "int" []
  | TBool => tag_obj "bool" []
  | TStr => tag_obj "str" []
  | TNull => tag_obj "null" []
  | TSet e => tag_obj "set" [($"element", type_js e)]
  | TSeq e => tag_obj "seq" [($"element", type_js e)]
  | TTuple ts => tag_obj "tuple" [($"elements", JArr (map type_js ts))]
  | TRecord fs => tag_obj "record" [($"fields",
      JArr (map (fun f => JObj [($"wireName", JStr f.1); ($"type", type_js f.2)]) fs))]
  | TMap k e => tag_obj "map" [($"key", type_js k); ($"value", type_js e)]
  | TVariant cs => tag_obj "variant" [($"cases",
      JArr (map (fun c => JObj [($"tag", JStr c.1); ($"payload", type_js c.2)]) cs))]
  | TOpaqueItf s => tag_obj "opaqueItf" [($"description", JStr s)]
  end.

Lemma Forall2_map_rep {A B C} (R : A -> B -> Prop) (S : C -> B -> Prop) (f : B -> C) l1 l2 :
  (forall a b, R a b -> S (f b) b) -> Forall2 R l1 l2 -> Forall2 S (map f l2) l2.
Proof. intros H. induction 1; constructor; eauto. Qed.

Lemma rep_entry_js {A} (P : ustring -> Prop) (R S : js -> A -> Prop) (g : A -> js) name value v e :
  bool_decide (value = name) = false ->
  (forall v a, R v a -> S (g a) a) ->
  rep_entry P R name value v e ->
  rep_entry P S name value (JObj [(name, JStr e.1); (value, g e.2)]) e.
Proof.
  intros Hne HS (o & _ & _ & [_ HP] & HR). eexists. split; [reflexivity|].
  unfold has_keys. cbn. unfold has_own. cbn.
  rewrite Hne, !bool_decide_eq_true_2 by set_solver.
  repeat split; eauto.
Qed.

Lemma rep_type_js d v t : rep_type d v t -> rep_type d (type_js t) t.
Proof.
  revert v t. induction d as [|d IH]; intros v t; [done|].
  intros (o & -> & Ht).
  destruct t; cbn [type_js rep_type]; eexists; (split; [reflexivity|]); try (by split);
    destruct Ht as [_ Ht]; (split; [by split|]); cbn [getf]; lit_simp;
    try (by eapply IH); try (by split).
  - destruct Ht as (l & _ & HF). eexists. split; [reflexivity|].
    eapply Forall2_map_rep; [|exact HF]. intros ? ? H. eapply IH, H.
  - destruct Ht as (l & _ & HF). eexists. split; [reflexivity|].
    eapply Forall2_map_rep; [|exact HF]. intros ? ? H. by eapply rep_entry_js.
  - destruct Ht as [H1%IH H2%IH]. by split.
  - destruct Ht as (l & _ & HF). eexists. split; [reflexivity|].
    eapply Forall2_map_rep; [|exact HF]. intros ? ? H. by eapply rep_entry_js.
  - destruct Ht as [_ ?]. by split.
Qed.

(** ** The same for literals and path segments *)

Fixpoint rep_lit (d : nat) (v : js) (t : CanonicalItfLiteral) : Prop :=
  match d with
  | O => False
  | S d =>
      exists o, v = JObj o /\
      let values kind ts := tagged o kind [$"values"] /\
          exists l, getf o ($"values") = JArr l /\ Forall2 (rep_lit d) l ts in
      match t with
      | LInt s => tagged o "int" [$"value"] /\
          (getf o ($"value") = JStr s /\ well_formed s = true) /\ canonical_decimal s = true
      | LBool b => tagged o "bool" [$"value"] /\ getf o ($"value") = JBool b
      | LStr s => tagged o "str" [$"value"] /\ getf o ($"value") = JStr s /\ well_formed s = true
      | LNull => tagged o "null" []
      | LSet ts => values "set" ts
      | LSeq ts => values "seq" ts
      | LTuple ts => values "tuple" ts
      | LRecord fs => tagged o "record" [$"fields"] /\
          exists l, getf o ($"fields") = JArr l /\
            Forall2 (rep_entry (fun s => well_formed s = true) (rep_lit d) ($"name") ($"value")) l fs
      | LMap es => tagged o "map" [$"entries"] /\
          exists l, getf o ($"entries") = JArr l /\
            Forall2 (fun v e => exists o, v = JObj o /\
              has_keys o [$"key"; $"value"] [$"key"; $"value"] = true /\
              rep_lit d (getf o ($"key")) e.1 /\ rep_lit d (getf o ($"value")) e.2) l es
      | LVariant tag p => tagged o "variant" [$"tag"; $"payload"] /\
          (getf o ($"tag") = JStr tag /\ well_formed tag = true) /\ rep_lit d (getf o ($"payload")) p
      end
  end.

Fixpoint lit_js (t : CanonicalItfLiteral) : js :=
  let values kind ts := tag_obj kind [($"values", JArr ts)] in
  match t with
  | LInt s => tag_obj "int" [($"value", JStr s)]
  | LBool b => tag_obj "bool" [($"value", JBool b)]
  | LStr s => tag_obj "str" [($"value", JStr s)]
  | LNull => tag_obj "null" []
  | LSet ts => values "set"%string (map lit_js ts)
  | LSeq ts => values "seq"%string (map lit_js ts)
  | LTuple ts => values "tuple"%string (map lit_js ts)
  | LRecord fs => tag_obj "record" [($"fields",
      JArr (map (fun f => JObj [($"name", JStr f.1); ($"value", lit_js f.2)]) fs))]
  | LMap es => tag_obj "map" [($"entries",
      JArr (map (fun e => JObj [($"key", lit_js e.1); ($"value", lit_js e.2)]) es))]
  | LVariant tag p => tag_obj "variant" [($"tag", JStr tag); ($"payload", lit_js p)]
  end.

Lemma rep_lit_js d v t : rep_lit d v t -> rep_lit d (lit_js t) t.
Proof.
  revert v t. induction d as [|d IH]; intros v t; [done|].
  intros (o & -> & Ht).
  destruct t; cbn [lit_js rep_lit]; eexists; (split; [reflexivity|]); try (by split);
    destruct Ht as [_ Ht]; (split; [by split|]); cbn [getf]; lit_simp.
  1: by destruct Ht as [[_ ?] ?].
  1: by destruct Ht as [_ ?].
  6: { destruct Ht as [[_ ?] H%IH]. done. }
  all: destruct Ht as (l & _ & HF); eexists; (split; [reflexivity|]);
    eapply Forall2_map_rep; [|exact HF]; intros ? ? H; try (eapply IH, H).
  - by eapply rep_entry_js.
  - destruct H as (? & _ & _ & H1%IH & H2%IH). by eexists.
Qed.

(** One item of a literal record, as [decodeLiteral] reads it. *)
Lemma decode_field_Ok {A} (g : js -> ustring -> res exn A) (R : js -> A -> Prop) name value v p e :
  (forall v p a, g v p = Ok a <-> R v a) ->
  (entry ← exactObject v p [lit name; lit value] [lit name; lit value];
   x ← string_val (getf entry (lit name)) (dot p name);
   y ← g (getf entry (lit value)) (dot p value);
   mret (x, y) : res exn (ustring * A)) = Ok e <->
  rep_entry (fun s => well_formed s = true) R (lit name) (lit value) v e.
Proof.
  intros Hg. split.
  - intros H. dec_inv.
    match goal with H : g _ _ = _ |- _ => apply Hg in H end.
    unfold rep_entry. eauto 8.
  - intros (o & -> & Hk & [Hs Hsh] & HR). destruct e as [x y]; cbn [fst snd] in *.
    dec_run. erewrite bind_ok by (by apply Hg). done.
Qed.


(** One entry of a literal map. *)
Lemma decode_pair_Ok {A} (g : js -> ustring -> res exn A) (R : js -> A -> Prop) key value v p e :
  (forall v p a, g v p = Ok a <-> R v a) ->
  (entry ← exactObject v p [lit key; lit value] [lit key; lit value];
   x ← g (getf entry (lit key)) (dot p key);
   y ← g (getf entry (lit value)) (dot p value);
   mret (x, y) : res exn (A * A)) = Ok e <->
  exists o, v = JObj o /\ has_keys o [lit key; lit value] [lit key; lit value] = true /\
    R (getf o (lit key)) e.1 /\ R (getf o (lit value)) e.2.
Proof.
  intros Hg. split.
  - intros H. dec_inv.
    repeat match goal with H : g _ _ = _ |- _ => apply Hg in H end. eauto 8.
  - intros (o & -> & Hk & H1 & H2). destruct e as [x y]; cbn [fst snd] in *.
    dec_run. erewrite bind_ok by (by apply Hg). by erewrite bind_ok by (by apply Hg).
Qed.

Lemma decodeLiteral_spec d v p t : decodeLiteral d v p = Ok t <-> rep_lit d v t.
Proof.
  revert v p t. induction d as [|d IH]; intros v p t; [done|].
  cbn [decodeLiteral rep_lit]. split.
  - intros H.
    apply res_bind_Ok in H as (o & ->%object_Ok & H).
    apply res_bind_Ok in H as (k & (Hk & Hwf)%string_val_Ok & H).
    split_kind; rewrite ?fmap_Ok in H.
    all: repeat match goal with H : exists a, _ = Ok a /\ _ |- _ => destruct H as (? & ? & ->) end.
    all: dec_inv.
    all: repeat match goal with
      | H : decodeLiteral _ _ _ = Ok _ |- _ => apply IH in H
      | H : match ?x with _ => _ end = Ok _ |- _ => destruct x eqn:?; dec_inv
      end.
    all: eexists; (split; [reflexivity|]).
    all: try match goal with H : mapMi _ _ = Ok _ |- _ => rename H into HF end.
    all: try (apply (mapMi_from_rep _ (rep_lit d)) in HF; [|intros; by apply IH]).
    all: try (apply (mapMi_from_rep _ (rep_entry (fun s => well_formed s = true) (rep_lit d) ($"name") ($"value"))) in HF;
              [|intros; apply decode_field_Ok; intros; by apply IH]).
    all: try (apply (mapMi_from_rep _ (fun v e => exists o, v = JObj o /\
              has_keys o [$"key"; $"value"] [$"key"; $"value"] = true /\
              rep_lit d (getf o ($"key")) e.1 /\ rep_lit d (getf o ($"value")) e.2)) in HF;
              [|intros; apply decode_pair_Ok; intros; by apply IH]).
    all: repeat match goal with |- _ /\ _ => split end; try (by split); eauto.
  - intros (o & -> & Ht).
    destruct t; destruct Ht as [[Hk Hkind] Ht] || destruct Ht as [Hk Hkind];
      (erewrite bind_ok by (apply object_Ok; reflexivity));
      (erewrite bind_ok by (apply string_val_Ok; split; [exact Hkind|reflexivity]));
      lit_simp; rewrite ?fmap_Ok.
    all: repeat match goal with H : _ /\ _ |- _ => destruct H | H : exists _, _ |- _ => destruct H end.
    all: try (eexists; split; [|reflexivity]).
    all: dec_run; try done.
    all: try match goal with H : getf _ _ = JBool _ |- _ => by rewrite H end.
    all: try (eapply (mapMi_from_rep _ (rep_lit d)); [intros; by apply IH|done]).
    all: try (erewrite bind_ok by (eapply (mapMi_from_rep _
                (rep_entry (fun s => well_formed s = true) (rep_lit d) ($"name") ($"value")));
              [intros; apply decode_field_Ok; intros; by apply IH|eassumption]); done).
    all: try (erewrite bind_ok by (eapply (mapMi_from_rep _ (fun v e => exists o, v = JObj o /\
              has_keys o [$"key"; $"value"] [$"key"; $"value"] = true /\
              rep_lit d (getf o ($"key")) e.1 /\ rep_lit d (getf o ($"value")) e.2));
              [intros; apply decode_pair_Ok; intros; by apply IH|eassumption]); done).
    by erewrite bind_ok by (by apply IH).
Qed.

(** A path segment is an object with one selector. *)
Definition rep_path (v : js) (s : ContractPathSegment) : Prop :=
  exists k x, v = JObj [(k, x)] /\
  match s with
  | PField f => k = $"field" /\ x = JStr f /\ short f
  | PIndex i => k = $"index" /\ (exists n, x = JNum n /\ num_safe_Z n = Some i) /\ (0 <= i)%Z
  | PMapKey l => k = $"mapKey" /\ rep_lit MAX_LITERAL_DEPTH x l
  | PVariantValue f => k = $"variantValue" /\ x = JStr f /\ short f
  end.

Lemma getf_single k x : getf [(k, x)] k = x.
Proof. cbn. by rewrite bool_decide_eq_true_2. Qed.

Lemma decodePathSegment_spec v p s : decodePathSegment v p = Ok s <-> rep_path v s.
Proof.
  unfold decodePathSegment, rep_path. split.
  - intros H. apply res_bind_Ok in H as (o & ->%object_Ok & H).
    destruct o as [|[k x] [|]]; cbn [keys map fst] in H; [done| |done].
    split_kind; [..|done]; apply fmap_Ok in H as (a & H & ->); dec_inv;
      rewrite ?getf_single in *; eexists _, _; (split; [reflexivity|]); (split; [reflexivity|]).
    1, 2, 4: done. by eapply decodeLiteral_spec.
  - intros (k & x & -> & H). cbn [object]. erewrite bind_ok by reflexivity. cbn [keys map fst].
    destruct s; destruct H as [-> H]; lit_simp; rewrite fmap_Ok; eexists; (split; [|reflexivity]).
    + apply shortField_Ok. rewrite getf_single. by destruct H as (-> & ?).
    + apply nonnegativeInteger_Ok. by rewrite getf_single.
    + apply decodeLiteral_spec. by rewrite getf_single.
    + apply shortField_Ok. rewrite getf_single. by destruct H as (-> & ?).
Qed.

Definition path_js (s : ContractPathSegment) : js :=
  match s with
  | PField f => JObj [($"field", JStr f)]
  | PIndex i => JObj [($"index", JNum (num_of_Z i))]
  | PMapKey l => JObj [($"mapKey", lit_js l)]
  | PVariantValue f => JObj [($"variantValue", JStr f)]
  end.

Lemma rep_path_js v s : rep_path v s -> rep_path (path_js s) s.
Proof.
  intros (k & x & _ & H). destruct s; cbn; eexists _, _; (split; [reflexivity|]); (split; [reflexivity|]).
  - by destruct H as (_ & _ & ?).
  - destruct H as (_ & (n & _ & Hn) & Hi). split; [|done]. eexists. split; [reflexivity|].
    apply num_of_Z_exact. unfold num_safe_Z in Hn. destruct (num_to_Z n) as [z|]; [|done].
    destruct (Z.leb_spec (Z.abs z) MAX_SAFE_INTEGER); [|done]. by simplify_eq.
  - destruct H as [_ H]. by eapply rep_lit_js.
  - by destruct H as (_ & _ & ?).
Qed.

(** ** What [validateModelType] accepts *)

Section ModelType_ind'.
Context (P : ModelType -> Prop).
Context (Hint : P TInt) (Hbool : P TBool) (Hstr : P TStr) (Hnull : P TNull)
  (Hset : forall t, P t -> P (TSet t)) (Hseq : forall t, P t -> P (TSeq t))
  (Htuple : forall ts, Forall P ts -> P (TTuple ts))
  (Hrecord : forall fs, Forall (fun f => P f.2) fs -> P (TRecord fs))
  (Hmap : forall k t, P k -> P t -> P (TMap k t))
  (Hvariant : forall cs, Forall (fun c => P c.2) cs -> P (TVariant cs))
  (Hopaque : forall s, P (TOpaqueItf s)).
Fixpoint ModelType_ind' (t : ModelType) : P t :=
  let entries := fix go (l : list (ustring * ModelType)) : Forall (fun f => P f.2) l :=
    match l with
    | [] => @ListDef.Forall_nil _ _
    | f :: l' => @ListDef.Forall_cons _ _ f _ (ModelType_ind' f.2) (go l')
    end in
  match t with
  | TInt => Hint | TBool => Hbool | TStr => Hstr | TNull => Hnull
  | TSet t => Hset t (ModelType_ind' t)
  | TSeq t => Hseq t (ModelType_ind' t)
  | TTuple ts => Htuple ts ((fix go (l : list ModelType) : Forall P l :=
      match l with
      | [] => @ListDef.Forall_nil _ _
      | x :: l' => @ListDef.Forall_cons _ _ x _ (ModelType_ind' x) (go l')
      end) ts)
  | TRecord fs => Hrecord fs (entries fs)
  | TMap k t => Hmap k t (ModelType_ind' k) (ModelType_ind' t)
  | TVariant cs => Hvariant cs (entries cs)
  | TOpaqueItf s => Hopaque s
  end.
End ModelType_ind'.

(** Names are not empty and do not repeat, at every level. *)
Inductive type_valid : ModelType -> Prop :=
| tv_int : type_valid TInt
| tv_bool : type_valid TBool
| tv_str : type_valid TStr
| tv_null : type_valid TNull
| tv_set t : type_valid t -> type_valid (TSet t)
| tv_seq t : type_valid t -> type_valid (TSeq t)
| tv_tuple ts : Forall type_valid ts -> type_valid (TTuple ts)
| tv_record fs : [] ∉ map fst fs -> NoDup (map fst fs) ->
    Forall (fun f => type_valid f.2) fs -> type_valid (TRecord fs)
| tv_map k t : type_valid k -> type_valid t -> type_valid (TMap k t)
| tv_variant cs : [] ∉ map fst cs -> NoDup (map fst cs) ->
    Forall (fun c => type_valid c.2) cs -> type_valid (TVariant cs)
| tv_opaque s : s <> [] -> type_valid (TOpaqueItf s).

Lemma iteri_from_Ok {E A} (f : N -> A -> res E unit) (P : A -> Prop) l i :
  (forall i x, x ∈ l -> f i x = Ok tt <-> P x) ->
  iteri_from f i l = Ok tt <-> Forall P l.
Proof.
  revert i. induction l as [|x l IH]; intros i H; cbn; [done|].
  rewrite Forall_cons, <- (H i x) by by left.
  rewrite <- (IH (N.succ i)) by (intros; apply H; by right).
  destruct (f i x) as [[]|]; cbn; naive_solver.
Qed.

Lemma nonempty_all_Ok names : nonempty_all names = true <-> [] ∉ names.
Proof.
  unfold nonempty_all. induction names as [|n names IH]; cbn; [by split; [intros _ ?%not_elem_of_nil|]|].
  rewrite andb_true_iff, IH, not_elem_of_cons, negb_true_iff, bool_decide_eq_false. naive_solver.
Qed.

Lemma bind_unit_Ok {E} (a b : res E unit) : (a ≫= fun _ => b) = Ok tt <-> a = Ok tt /\ b = Ok tt.
Proof. destruct a as [[]|]; cbn; naive_solver. Qed.

Lemma validateModelType_Ok t p : validateModelType t p = Ok tt <-> type_valid t.
Proof.
  revert p.
  assert (forall l q q', Forall (fun f : ustring * ModelType =>
      forall p, validateModelType f.2 p = Ok tt <-> type_valid f.2) l ->
    iteri (fun i f => validateModelType f.2 (dot (idx q i) q')) l = Ok tt <->
    Forall (fun f => type_valid f.2) l) as He.
  { intros l q q' Hl. apply iteri_from_Ok. intros i x Hx. rewrite Forall_forall in Hl. by apply Hl. }
  induction t as [| | | |t IH|t IH|ts IH|fs IH|k t IHk IHt|cs IH|s] using ModelType_ind';
    intros p; cbn.
  1-4: by split; [constructor|].
  - rewrite IH. split; [by constructor|by inversion 1].
  - rewrite IH. split; [by constructor|by inversion 1].
  - transitivity (Forall type_valid ts).
    + apply iteri_from_Ok. intros i x Hx. rewrite Forall_forall in IH. by apply IH.
    + split; [by constructor|by inversion 1].
  - rewrite !bind_unit_Ok, require_at_Ok, nonempty_all_Ok, requireUnique_Ok, He by done.
    split; [intros (? & ? & ?); by constructor|by inversion 1].
  - rewrite bind_unit_Ok, IHk, IHt. split; [intros [? ?]; by constructor|by inversion 1].
  - rewrite !bind_unit_Ok, require_at_Ok, nonempty_all_Ok, requireUnique_Ok, He by done.
    split; [intros (? & ? & ?); by constructor|by inversion 1].
  - rewrite require_at_Ok, negb_true_iff, bool_decide_eq_false.
    split; [by constructor|by inversion 1].
Qed.
