(* ===== verification/Canonical.v ===== *)
(** * Canonical projections of types, literals and paths

    [canonicalLiteralValue], [canonicalPathSegmentValue] and
    [canonicalModelTypeValue] of [src/src/model-interface.ts]: the JSON values
    whose text is hashed. Unordered parts are sorted; the keys of every object
    are written in alphabetical order.

    The source sorts the fields of a record (and the cases of a variant) before
    it maps them; here the mapping comes first, because the recursion then is
    structural. The comparator reads only the names, which the mapping keeps,
    and the sort is stable, so the result is the same ([map_sort_by]). *)

From S2P Require Import Prelude JsNumber Utf16 JsData StrictJson StrictJsonFacts StrictJsonRoundtrip Decode ModelTypes.

(** The text the comparators use. [compressCanonicalJson] does not fail on
    canonical values ([canonical_lit_text] below). *)
Definition compressed (v : js) : ustring :=
  match compressCanonicalJson v with Ok s => s | Err _ => [] end.

Definition by_name {A} (a b : ustring * A) : comparison := compareUnicodeScalars a.1 b.1.
Definition by_text (a b : js) : comparison := compareUnicodeScalars (compressed a) (compressed b).
Definition by_key_text (a b : js * js) : comparison := by_text a.1 b.1.

Fixpoint canonicalLiteralValue (literal : CanonicalItfLiteral) : js :=
  match literal with
  | LInt value => JObj [($"kind", JStr ($"int")); ($"value", JStr value)]
  | LBool value => JObj [($"kind", JStr ($"bool")); ($"value", JBool value)]
  | LStr value => JObj [($"kind", JStr ($"str")); ($"value", JStr value)]
  | LNull => JObj [($"kind", JStr ($"null"))]
  | LSet values =>
      JObj [($"kind", JStr ($"set"));
            ($"values", JArr (sort_by by_text (map canonicalLiteralValue values)))]
  | LSeq values =>
      JObj [($"kind", JStr ($"seq")); ($"values", JArr (map canonicalLiteralValue values))]
  | LTuple values =>
      JObj [($"kind", JStr ($"tuple")); ($"values", JArr (map canonicalLiteralValue values))]
  | LRecord fields =>
      let sorted := sort_by by_name (map (fun f => (f.1, canonicalLiteralValue f.2)) fields) in
      JObj [($"fields", JArr (map (fun f => JObj [($"name", JStr f.1); ($"value", f.2)]) sorted));
            ($"kind", JStr ($"record"))]
  | LMap entries =>
      let sorted := sort_by by_key_text
        (map (fun e => (canonicalLiteralValue e.1, canonicalLiteralValue e.2)) entries) in
      JObj [($"entries", JArr (map (fun e => JObj [($"key", e.1); ($"value", e.2)]) sorted));
            ($"kind", JStr ($"map"))]
  | LVariant tag payload =>
      JObj [($"kind", JStr ($"variant")); ($"payload", canonicalLiteralValue payload);
            ($"tag", JStr tag)]
  end.

Definition canonicalPathSegmentValue (segment : ContractPathSegment) : js :=
  match segment with
  | PField field => JObj [($"field", JStr field)]
  | PIndex index => JObj [($"index", JNum (num_of_Z index))]
  | PMapKey mapKey => JObj [($"mapKey", canonicalLiteralValue mapKey)]
  | PVariantValue variantValue => JObj [($"variantValue", JStr variantValue)]
  end.

Fixpoint canonicalModelTypeValue (type : ModelType) : js :=
  match type with
  | TInt => JObj [($"kind", JStr ($"int"))]
  | TBool => JObj [($"kind", JStr ($"bool"))]
  | TStr => JObj [($"kind", JStr ($"str"))]
  | TNull => JObj [($"kind", JStr ($"null"))]
  | TSet element =>
      JObj [($"element", canonicalModelTypeValue element); ($"kind", JStr ($"set"))]
  | TSeq element =>
      JObj [($"element", canonicalModelTypeValue element); ($"kind", JStr ($"seq"))]
  | TTuple elements =>
      JObj [($"elements", JArr (map canonicalModelTypeValue elements)); ($"kind", JStr ($"tuple"))]
  | TRecord fields =>
      let sorted := sort_by by_name (map (fun f => (f.1, canonicalModelTypeValue f.2)) fields) in
      JObj [($"fields", JArr (map (fun f => JObj [($"type", f.2); ($"wireName", JStr f.1)]) sorted));
            ($"kind", JStr ($"record"))]
  | TMap key value =>
      JObj [($"key", canonicalModelTypeValue key); ($"kind", JStr ($"map"));
            ($"value", canonicalModelTypeValue value)]
  | TVariant cases =>
      let sorted := sort_by by_name (map (fun c => (c.1, canonicalModelTypeValue c.2)) cases) in
      JObj [($"cases", JArr (map (fun c => JObj [($"payload", c.2); ($"tag", JStr c.1)]) sorted));
            ($"kind", JStr ($"variant"))]
  | TOpaqueItf description =>
      JObj [($"description", JStr description); ($"kind", JStr ($"opaqueItf"))]
  end.

(** ** Facts: the comparators *)

Lemma compareUnicodeScalars_trans a b c :
  compareUnicodeScalars a b <> Gt -> compareUnicodeScalars b c <> Gt ->
  compareUnicodeScalars a c <> Gt.
Proof.
  unfold compareUnicodeScalars. intros H1 H2.
  destruct (compare_lists (code_points a) (code_points b)) eqn:E1; [|clear H1|done].
  - apply compare_lists_Eq in E1. by rewrite E1.
  - destruct (compare_lists (code_points b) (code_points c)) eqn:E2; [| |done].
    + apply compare_lists_Eq in E2. rewrite <- E2, E1. done.
    + by rewrite (compare_lists_lt_trans _ _ _ E1 E2).
Qed.

(** Sorting by a text: two lists with the same entries under every text (in
    the same order) sort to the same list. *)
Definition by_key {A} (text : A -> ustring) (a b : A) : comparison :=
  compareUnicodeScalars (text a) (text b).

Lemma sort_by_key_same {A} (text : A -> ustring) l1 l2 :
  same_by (fun x => code_points (text x)) l1 l2 ->
  sort_by (by_key text) l1 = sort_by (by_key text) l2.
Proof.
  apply sort_by_same; unfold by_key.
  - intros. apply compare_lists_Eq.
  - intros. apply compareUnicodeScalars_op.
  - intros. eapply compareUnicodeScalars_trans; eassumption.
Qed.

Lemma sort_by_key_stable {A} (text : A -> ustring) l :
  same_by (fun x => code_points (text x)) l (sort_by (by_key text) l).
Proof. apply sort_by_stable. intros. apply compare_lists_Eq. Qed.

Lemma sort_by_key_perm {A} (text : A -> ustring) l1 l2 :
  (forall x y, x ∈ l1 -> y ∈ l1 -> code_points (text x) = code_points (text y) -> x = y) ->
  l1 ≡ₚ l2 -> sort_by (by_key text) l1 = sort_by (by_key text) l2.
Proof.
  intros Hin. apply sort_by_perm_eq; unfold by_key.
  - intros. apply compareUnicodeScalars_op.
  - intros x y z. apply compareUnicodeScalars_lt_gt.
  - intros x y Hx Hy H. apply Hin; [done..|]. by apply compare_lists_Eq.
Qed.

(** ** Trees of JavaScript values

    [tree P a v]: at most [a] levels of containers, well-formed strings of
    16-bit units, keys in own-key order, and numbers in [P]. *)
Definition text_ok (s : ustring) : Prop := well_formed s = true /\ js_string s.

Inductive tree (P : number -> Prop) : nat -> js -> Prop :=
| tree_null a : tree P a JNull
| tree_bool a b : tree P a (JBool b)
| tree_num a x : P x -> tree P a (JNum x)
| tree_str a s : text_ok s -> tree P a (JStr s)
| tree_arr a l : Forall (tree P a) l -> tree P (S a) (JArr l)
| tree_obj a o : own_key_order o -> Forall (fun kv => text_ok kv.1) o ->
    Forall (fun kv => tree P a kv.2) o -> tree P (S a) (JObj o).

(** Any JavaScript data of bounded depth. *)
Definition plain : nat -> js -> Prop := tree (fun _ => True).
(** The values the canonical writer accepts. *)
Definition writable : nat -> js -> Prop :=
  tree (fun x => exists z, (Z.abs z <= MAX_SAFE_INTEGER)%Z /\ x = num_of_Z z).

Lemma tree_mono P a v : tree P a v -> forall b, (a <= b)%nat -> tree P b v.
Proof.
  revert a. induction v as [| | | | | |l IH|o IH] using js_ind'; intros a0 H b0 Hb;
    inversion H; subst; try (by constructor); (destruct b0 as [|b0]; [lia|]); constructor; try done.
  - eapply Forall_impl; [apply Forall_and; split; [exact IH|eassumption]|].
    intros x [Hx ?]. eapply Hx; [eassumption|lia].
  - eapply Forall_impl; [apply Forall_and; split; [exact IH|eassumption]|].
    intros x [Hx ?]. eapply Hx; [eassumption|lia].
Qed.

Lemma writable_canon a v : writable a v -> canon a v.
Proof.
  revert a. induction v as [| | | | | |l IH|o IH] using js_ind'; intros a H;
    inversion H; subst; try (by constructor).
  - match goal with H : exists _, _ |- _ => destruct H as (z & ? & ->) end. by constructor.
  - constructor. by match goal with H : text_ok _ |- _ => apply H end.
  - constructor. eapply Forall_impl; [apply Forall_and; split; [exact IH|eassumption]|].
    intros x [Hx ?]. by apply Hx.
  - constructor; [done| |].
    + match goal with H : Forall (fun _ => text_ok _) _ |- _ => eapply Forall_impl; [exact H|] end.
      by intros x [? _].
    + eapply Forall_impl; [apply Forall_and; split; [exact IH|eassumption]|].
      intros x [Hx ?]. by apply Hx.
Qed.

Lemma plain_getf a o k v :
  plain (S a) (JObj o) -> getf o k = v -> v <> JUndef -> plain a v.
Proof.
  intros H <- Hne. inversion H as [| | | | |? ? _ _ Hf]; subst.
  induction Hf as [|[k' v'] o Hv _ IH]; cbn in *; [done|].
  destruct (bool_decide (k = k')); [done|]. apply IH; [|done].
  inversion H as [| | | | |? ? Ho Hk Hf']; subst. constructor; [by destruct Ho| |];
    by eapply Forall_cons_1.
Qed.

(** [plain] by computation. *)
Definition text_okb (s : ustring) : bool := well_formed s && forallb (fun c => (c <? 0x10000)%N) s.

Fixpoint own_key_orderb (o : object_t) : bool :=
  match o with
  | [] => true
  | (k, _) :: o' =>
      forallb (fun kv => negb (bool_decide (k = kv.1)) && negb (key_before kv.1 k)) o' && own_key_orderb o'
  end.

Fixpoint plainb (a : nat) (v : js) : bool :=
  match v, a with
  | JNull, _ | JBool _, _ | JNum _, _ => true
  | JStr s, _ => text_okb s
  | JArr l, S a => forallb (plainb a) l
  | JObj o, S a => own_key_orderb o && forallb (fun kv => text_okb kv.1) o &&
                   forallb (fun kv => plainb a kv.2) o
  | _, _ => false
  end.

Lemma text_okb_ok s : text_okb s = true -> text_ok s.
Proof.
  intros [Hw Hs]%andb_true_iff. split; [done|]. apply Forall_forall. intros c Hc.
  rewrite forallb_forall in Hs. apply list_elem_of_In, Hs in Hc. lia.
Qed.

Lemma own_key_orderb_ok o : own_key_orderb o = true -> own_key_order o.
Proof.
  induction o as [|[k v] o IH]; cbn; [done|]. intros [Hk Ho]%andb_true_iff. split; [|auto].
  apply Forall_forall. intros kv Hkv. rewrite forallb_forall in Hk.
  apply list_elem_of_In, Hk, andb_true_iff in Hkv as [H1 H2].
  by apply negb_true_iff, bool_decide_eq_false in H1; apply negb_true_iff in H2.
Qed.

Lemma plainb_ok a v : plainb a v = true -> plain a v.
Proof.
  revert a. induction v as [| | | | | |l IH|o IH] using js_ind'; intros [|a] H; cbn in H; try done;
    try (by constructor); try (by constructor; apply text_okb_ok).
  - constructor. apply Forall_forall. intros x Hx. rewrite Forall_forall in IH.
    rewrite forallb_forall in H. apply IH; [done|]. apply H. by apply list_elem_of_In.
  - apply andb_true_iff in H as [[Ho Hk]%andb_true_iff Hv].
    constructor; [by apply own_key_orderb_ok| |].
    + apply Forall_forall. intros kv Hkv. rewrite forallb_forall in Hk.
      apply text_okb_ok, Hk. by apply list_elem_of_In.
    + apply Forall_forall. intros kv Hkv. rewrite Forall_forall in IH. rewrite forallb_forall in Hv.
      apply IH; [done|]. apply Hv. by apply list_elem_of_In.
Qed.

(** The text of a writable value consists of 16-bit units, and determines it. *)
Lemma js_string_app a b : js_string (a ++ b) <-> js_string a /\ js_string b.
Proof. apply Forall_app. Qed.

Lemma js_string_lit s : js_string (lit s).
Proof.
  unfold lit. induction s as [|c s IH]; cbn; constructor; [|done].
  pose proof (Ascii.N_ascii_bounded c). lia.
Qed.

Lemma js_string_concat l : Forall js_string l -> js_string (concat l).
Proof. induction 1; cbn; [constructor|]. by apply js_string_app. Qed.

Lemma js_string_join sep l : js_string sep -> Forall js_string l -> js_string (join sep l).
Proof.
  intros Hs. induction 1 as [|x [|y l] Hx Hl IH]; [constructor|done|].
  change (join sep (x :: y :: l)) with (x ++ sep ++ join sep (y :: l)).
  by rewrite !js_string_app.
Qed.

Lemma characters_js s : js_string s -> Forall js_string (characters s).
Proof.
  intros H. rewrite <- (concat_characters s) in H. revert H.
  induction (characters s) as [|c l IH]; cbn; [constructor|].
  rewrite js_string_app. intros [? ?]. constructor; auto.
Qed.

Lemma compressCanonicalString_js s : js_string s -> js_string (compressCanonicalString s).
Proof.
  intros H. unfold compressCanonicalString. rewrite !js_string_app.
  split; [by repeat constructor|]. split; [|by repeat constructor].
  apply js_string_concat, Forall_map. eapply Forall_impl; [by apply characters_js|].
  intros c Hc. unfold escape_character, hex_digit.
  repeat match goal with |- context [if ?b then _ else _] => destruct b eqn:? end; try done;
    try (by repeat constructor); try apply js_string_lit; try (apply js_string_app; split;
      [apply js_string_lit|]).
  all: repeat constructor; try lia.
  all: apply N.lt_le_trans with (87 + 0x20)%N; [|lia].
  all: pose proof (N.mod_lt (codePointAt0 c) 16); pose proof (N.Div0.div_le_upper_bound (codePointAt0 c) 16 2); lia.
Qed.

Lemma dec_of_Z_js z : js_string (dec_of_Z z).
Proof.
  assert (forall n, js_string (dec_of_N n)) as H.
  { intros n. destruct (dec_of_N_ok n) as [_ H _ _ _]. eapply Forall_impl; [exact H|].
    unfold is_digit. intros c Hc. lia. }
  destruct z; cbn; [by repeat constructor|apply H|]. constructor; [lia|apply H].
Qed.

#[global] Arguments compressCanonicalString : simpl never.

Lemma writable_text a v :
  writable a v -> exists text, compressCanonicalJson v = Ok text /\ js_string text.
Proof.
  revert a. induction v as [| |b|x| |s|l IH|o IH] using js_ind'; intros a H;
    inversion H as [| |? ? Hx|? ? Hs|? ? Hf|? ? _ Hk Hf]; subst; cbn.
  - eexists. split; [done|]. apply js_string_lit.
  - eexists. split; [done|]. destruct b; apply js_string_lit.
  - destruct Hx as (z & Hz & ->). rewrite num_of_Z_exact by done.
    eexists. split; [done|]. apply dec_of_Z_js.
  - eexists. split; [done|]. apply compressCanonicalString_js, Hs.
  - assert (exists items, mapM compressCanonicalJson l = Ok items /\ Forall js_string items)
      as (items & -> & Hi).
    { clear H. induction IH as [|v l Hv _ IHl]; [by exists []|].
      apply Forall_cons in Hf as [Hva Hf]. destruct (Hv _ Hva) as (t & Ht & Hj).
      destruct (IHl Hf) as (ts & Hts & Hjs). exists (t :: ts). cbn. rewrite Ht, Hts.
      split; [done|]. by constructor. }
    eexists. split; [done|]. rewrite !js_string_app.
    repeat split; try apply js_string_lit. apply js_string_join; [apply js_string_lit|done].
  - match goal with |- context [mapM ?f o] => set (g := f) end.
    assert (exists items, mapM g o = Ok items /\ Forall js_string items) as (items & -> & Hi).
    { clear H. induction IH as [|[k v] o Hv _ IHl]; [by exists []|].
      apply Forall_cons in Hf as [Hva Hf]. apply Forall_cons in Hk as [Hka Hk].
      destruct (Hv _ Hva) as (t & Ht & Hj). destruct (IHl Hk Hf) as (ts & Hts & Hjs).
      eexists (_ :: ts). unfold g at 1. cbn. cbn in Ht. rewrite Ht. fold g. rewrite Hts. cbn.
      split; [done|]. constructor; [|done]. rewrite !js_string_app.
      split; [apply compressCanonicalString_js, Hka|]. split; [apply js_string_lit|done]. }
    eexists. split; [done|]. rewrite !js_string_app.
    repeat split; try apply js_string_lit. apply js_string_join; [apply js_string_lit|done].
Qed.

Lemma writable_compressed a v :
  writable a v -> compressCanonicalJson v = Ok (compressed v) /\ js_string (compressed v).
Proof. intros (t & Ht & Hj)%writable_text. unfold compressed. by rewrite Ht. Qed.

Lemma compressed_inj a v w :
  writable a v -> writable a w -> code_points (compressed v) = code_points (compressed w) -> v = w.
Proof.
  intros Hv Hw He.
  destruct (writable_compressed _ _ Hv) as [Tv Jv]. destruct (writable_compressed _ _ Hw) as [Tw Jw].
  apply code_points_inj in He; [|done..].
  apply writable_canon in Hv, Hw. rewrite He in Tv.
  pose proof (canon_parse _ _ _ Hv Tv). pose proof (canon_parse _ _ _ Hw Tw). congruence.
Qed.

(** ** Reordering

    [lit_reorders t u]: [u] is [t] with the elements of sets, the fields of
    records and the entries of maps in another order. Fields of the same name
    (and entries of the same key), which the decoder does not reject, keep
    their relative order. Names are compared by their code points. *)
Definition name_points {A} (e : ustring * A) : list N := code_points e.1.

Definition entry_rel {A B} (R : A -> B -> Prop) (e : ustring * A) (f : ustring * B) : Prop :=
  e.1 = f.1 /\ R e.2 f.2.

Inductive lit_reorders : CanonicalItfLiteral -> CanonicalItfLiteral -> Prop :=
| lr_refl t : lit_reorders t t
| lr_set vs us ws : Forall2 lit_reorders vs us -> us ≡ₚ ws -> lit_reorders (LSet vs) (LSet ws)
| lr_seq vs us : Forall2 lit_reorders vs us -> lit_reorders (LSeq vs) (LSeq us)
| lr_tuple vs us : Forall2 lit_reorders vs us -> lit_reorders (LTuple vs) (LTuple us)
| lr_record fs gs hs : Forall2 (entry_rel lit_reorders) fs gs -> same_by name_points gs hs ->
    lit_reorders (LRecord fs) (LRecord hs)
| lr_map es fs gs :
    Forall2 (fun e f => lit_reorders e.1 f.1 /\ lit_reorders e.2 f.2) es fs ->
    same_by (fun e => code_points (compressed (canonicalLiteralValue e.1))) fs gs ->
    lit_reorders (LMap es) (LMap gs)
| lr_variant tag p q : lit_reorders p q -> lit_reorders (LVariant tag p) (LVariant tag q).

(** Keys in own-key order and strings of the canonical objects are decided by
    computation. *)
Lemma text_ok_lit s : well_formed (lit s) = true -> text_ok (lit s).
Proof. split; [done|apply js_string_lit]. Qed.

Ltac own_keys := cbn [own_key_order fst]; repeat split;
  repeat (apply List.Forall_cons; [split; [discriminate|vm_compute; reflexivity]|]);
  try apply List.Forall_nil.
Ltac canon_obj :=
  apply tree_obj;
  [ own_keys
  | repeat (apply List.Forall_cons; [by apply text_ok_lit|]); apply List.Forall_nil
  | repeat (apply List.Forall_cons; [cbn [snd]|]); try apply List.Forall_nil ].
Ltac canon_leaf :=
  first [ apply tree_str, text_ok_lit; reflexivity | apply tree_str; assumption
        | apply tree_bool | apply tree_null ].

Lemma plain_str a o k s : plain (S a) (JObj o) -> getf o k = JStr s -> text_ok s.
Proof. intros H Hk. pose proof (plain_getf _ _ _ _ H Hk ltac:(done)) as Hs. by inversion Hs. Qed.

Lemma plain_arr a o k l : plain (S a) (JObj o) -> getf o k = JArr l ->
  exists b, a = S b /\ Forall (plain b) l.
Proof.
  intros H Hk. pose proof (plain_getf _ _ _ _ H Hk ltac:(done)) as Hs.
  inversion Hs as [| | | |b ? Hf|]; subst. by exists b.
Qed.

Lemma plain_obj a o : plain a (JObj o) -> exists b, a = S b.
Proof. inversion 1; eauto. Qed.

Lemma rep_lit_defined d v t : rep_lit d v t -> v <> JUndef.
Proof. destruct d; [done|]. by intros (o & -> & _). Qed.

Lemma plain_getf_lit a o k d t :
  plain (S a) (JObj o) -> rep_lit d (getf o k) t -> plain a (getf o k).
Proof. intros H Hr. eapply plain_getf; [done..|]. by eapply rep_lit_defined. Qed.

(** Related lists, one side of which is plain. *)
Lemma Forall2_plain {A} (R : js -> A -> Prop) b l ts :
  Forall2 R l ts -> Forall (plain b) l -> Forall2 (fun v t => R v t /\ plain b v) l ts.
Proof. induction 1; intros Hp; constructor; apply Forall_cons in Hp as [? ?]; eauto. Qed.

Lemma Forall2_to_map {A B C} (R : A -> B -> Prop) (P : C -> Prop) (f : B -> C) l1 l2 :
  (forall a b, R a b -> P (f b)) -> Forall2 R l1 l2 -> Forall P (map f l2).
Proof. intros H. induction 1; constructor; eauto. Qed.

Lemma Forall_sort_by {A} (P : A -> Prop) cmp l : Forall P l -> Forall P (sort_by cmp l).
Proof. by rewrite (sort_by_Permutation cmp l). Qed.

(** The sorted entries of a record or variant. *)
Lemma writable_entries {A} (P : ustring -> Prop) (R : js -> A -> Prop) (g : A -> js) name value b l fs :
  (forall c v t, R v t -> plain c v -> writable c (g t)) ->
  (forall v t, R v t -> v <> JUndef) ->
  Forall2 (rep_entry P R name value) l fs -> Forall (plain b) l ->
  Forall (fun f => exists c, b = S c /\ text_ok f.1 /\ writable c f.2)
    (sort_by by_name (map (fun f => (f.1, g f.2)) fs)).
Proof.
  intros Hg HR HF Hp. apply Forall_sort_by.
  pose proof (Forall2_plain _ _ _ _ HF Hp) as H. eapply Forall2_to_map; [|exact H].
  intros v e ((o & -> & _ & [Hn _] & Hr) & Hpl). destruct (plain_obj _ _ Hpl) as [c ->].
  exists c. cbn. split; [done|]. split; [by eapply plain_str|]. eapply Hg; [exact Hr|].
  by eapply plain_getf; [done..|eapply HR].
Qed.

Lemma canonical_lit_writable d a v t :
  rep_lit d v t -> plain a v -> writable a (canonicalLiteralValue t).
Proof.
  revert a v t. induction d as [|d IH]; intros a v t; [done|].
  intros (o & -> & Ht) Hp. destruct (plain_obj _ _ Hp) as [a' ->]. rename a' into a.
  assert (forall l ts, getf o ($"values") = JArr l -> Forall2 (rep_lit d) l ts ->
            exists b, a = S b /\ Forall (writable b) (map canonicalLiteralValue ts)) as Hvalues.
  { intros l ts Hl HF. destruct (plain_arr _ _ _ _ Hp Hl) as (b & -> & Hb). exists b.
    split; [done|]. eapply Forall2_to_map; [|by eapply Forall2_plain]. cbn. intros ? ? [? ?]. eauto. }
  destruct t; cbn [canonicalLiteralValue]; try (destruct Ht as [_ Ht]).
  - destruct Ht as [[Hs _] _]. canon_obj; try canon_leaf. by eapply tree_str, plain_str.
  - canon_obj; canon_leaf.
  - destruct Ht as [Hs _]. canon_obj; try canon_leaf. by eapply tree_str, plain_str.
  - canon_obj; canon_leaf.
  - destruct Ht as (l & Hl & HF). destruct (Hvalues _ _ Hl HF) as (b & -> & Hb).
    canon_obj; try canon_leaf. by constructor; apply Forall_sort_by.
  - destruct Ht as (l & Hl & HF). destruct (Hvalues _ _ Hl HF) as (b & -> & Hb).
    canon_obj; try canon_leaf. by constructor.
  - destruct Ht as (l & Hl & HF). destruct (Hvalues _ _ Hl HF) as (b & -> & Hb).
    canon_obj; try canon_leaf. by constructor.
  - destruct Ht as (l & Hl & HF). destruct (plain_arr _ _ _ _ Hp Hl) as (b & -> & Hb).
    canon_obj; try canon_leaf. constructor. apply Forall_map.
    eapply Forall_impl; [eapply (writable_entries _ (rep_lit d)); [by intros; eapply IH|by intros; eapply rep_lit_defined|done..]|].
    intros f (c & -> & Hf & Hw). canon_obj; [by constructor|done].
  - destruct Ht as (l & Hl & HF). destruct (plain_arr _ _ _ _ Hp Hl) as (b & -> & Hb).
    canon_obj; try canon_leaf. constructor. apply Forall_map, Forall_sort_by.
    eapply Forall2_to_map; [|by eapply Forall2_plain].
    intros x e ((o' & -> & _ & Hk & Hv) & Hpl). destruct (plain_obj _ _ Hpl) as [c ->].
    canon_obj; (eapply IH; [eassumption|]; by eapply plain_getf_lit).
  - destruct Ht as [[Hs _] Hr]. canon_obj; try canon_leaf.
    + eapply IH; [done|]. by eapply plain_getf_lit.
    + by eapply tree_str, plain_str.
Qed.

(** ** The canonical value does not depend on the order *)

Lemma Forall2_map_eq {A B C} (R : A -> B -> Prop) (f : A -> C) (g : B -> C) l1 l2 :
  (forall a b, R a b -> f a = g b) -> Forall2 R l1 l2 -> map f l1 = map g l2.
Proof. intros H. induction 1; cbn; f_equal; auto. Qed.

Lemma Forall2_join {A B C} (R : A -> B -> Prop) (S : B -> C -> Prop) l1 l2 l3 :
  Forall2 R l1 l2 -> Forall2 S l2 l3 ->
  Forall2 (fun b c => S b c /\ exists a, R a b) l2 l3.
Proof. intros H. revert l3. induction H; inversion 1; subst; constructor; eauto. Qed.

Lemma canonical_sorted {A} (g : A -> js) fs gs hs :
  Forall2 (entry_rel (fun x y => g x = g y)) fs gs -> same_by name_points gs hs ->
  sort_by by_name (map (fun f => (f.1, g f.2)) fs) = sort_by by_name (map (fun f => (f.1, g f.2)) hs).
Proof.
  intros HF Hs.
  rewrite (Forall2_map_eq (entry_rel (fun x y => g x = g y)) _ (fun f => (f.1, g f.2)) fs gs);
    [|by intros x y [-> ->]|exact HF].
  apply (sort_by_key_same fst). by apply (same_by_map _ (fun x : ustring * js => code_points x.1)).
Qed.

Lemma canonical_lit_reorders d a v t u :
  lit_reorders t u -> rep_lit d v t -> plain a v ->
  canonicalLiteralValue t = canonicalLiteralValue u.
Proof.
  revert a v t u. induction d as [|d IH]; intros a v t u Hr; [done|].
  intros (o & -> & Ht) Hp. destruct (plain_obj _ _ Hp) as [a' ->]. rename a' into a.
  assert (forall l ts us, getf o ($"values") = JArr l -> Forall2 (rep_lit d) l ts ->
            Forall2 lit_reorders ts us ->
            map canonicalLiteralValue ts = map canonicalLiteralValue us) as Hvalues.
  { intros l ts us Hl HF Hr'. destruct (plain_arr _ _ _ _ Hp Hl) as (b & -> & Hb).
    eapply Forall2_map_eq; [|eapply Forall2_join; [eapply (Forall2_plain _ b); eassumption|exact Hr']].
    cbn. intros ? ? (? & ? & ? & ?). eauto. }
  inversion Hr as [|vs us ws HF Hperm|vs us HF|vs us HF|fs gs hs HF Hs|es fs gs HF Hs|tag p q Hpq];
    subst; [done|..]; destruct Ht as [_ Ht]; cbn [canonicalLiteralValue].
  - destruct Ht as (l & Hl & HR). do 3 f_equal. rewrite (Hvalues _ _ _ Hl HR HF).
    do 2 f_equal. apply (sort_by_key_perm compressed).
    + intros x y Hx Hy. destruct (plain_arr _ _ _ _ Hp Hl) as (b & -> & Hb).
      assert (Forall (writable b) (map canonicalLiteralValue us)) as Hw.
      { rewrite <- (Hvalues _ _ _ Hl HR HF). eapply Forall2_to_map; [|by eapply Forall2_plain].
        cbn. intros ? ? [? ?]. by eapply canonical_lit_writable. }
      rewrite Forall_forall in Hw. by apply (compressed_inj b); apply Hw.
    + by rewrite Hperm.
  - destruct Ht as (l & Hl & HR). by rewrite (Hvalues _ _ _ Hl HR HF).
  - destruct Ht as (l & Hl & HR). by rewrite (Hvalues _ _ _ Hl HR HF).
  - destruct Ht as (l & Hl & HR). destruct (plain_arr _ _ _ _ Hp Hl) as (b & -> & Hb).
    rewrite (canonical_sorted _ fs gs hs); [done| |done].
    eapply Forall2_impl; [eapply Forall2_join; [eapply (Forall2_plain _ b); eassumption|exact HF]|].
    cbn. intros x y ((Hn & Hxy) & w & (o' & -> & _ & _ & Hx) & Hpl). split; [done|].
    destruct (plain_obj _ _ Hpl) as [c ->]. eapply IH; [done..|]. by eapply plain_getf_lit.
  - destruct Ht as (l & Hl & HR). destruct (plain_arr _ _ _ _ Hp Hl) as (b & -> & Hb).
    do 5 f_equal.
    assert (map (fun e => (canonicalLiteralValue e.1, canonicalLiteralValue e.2)) es =
            map (fun e => (canonicalLiteralValue e.1, canonicalLiteralValue e.2)) fs) as ->.
    { eapply Forall2_map_eq; [|eapply Forall2_join; [eapply (Forall2_plain _ b); eassumption|exact HF]].
      cbn. intros x y ((H1 & H2) & w & (o' & -> & _ & R1 & R2) & Hpl).
      destruct (plain_obj _ _ Hpl) as [c ->].
      f_equal; (eapply IH; [done..|]; by eapply plain_getf_lit). }
    apply (sort_by_key_same (fun e : js * js => compressed e.1)).
    by apply (same_by_map _ (fun e : js * js => code_points (compressed e.1))).
  - destruct Ht as [_ Hr']. do 4 f_equal. eapply IH; [done..|]. by eapply plain_getf_lit.
Qed.

(** ** The canonical value writes a reordering of the literal *)

Lemma Forall2_choose {A B C} (R : A -> B -> Prop) (P : B -> C -> Prop) l1 l2 :
  (forall a b, R a b -> exists c, P b c) -> Forall2 R l1 l2 -> exists l3, Forall2 P l2 l3.
Proof.
  intros H. induction 1 as [|a b l1 l2 Hab _ (l3 & Hl)]; [by exists []|].
  destruct (H _ _ Hab) as [c Hc]. exists (c :: l3). by constructor.
Qed.

(** The sorted entries represent the sorted reorderings. *)
Lemma rep_sorted_entries {A} (P : ustring -> Prop) (R : js -> A -> Prop) (g : A -> js)
  (mk : ustring * js -> js) name value fs gs :
  (forall f h, rep_entry P R name value (mk f) h <-> f.1 = h.1 /\ P h.1 /\ R f.2 h.2) ->
  Forall2 (fun f h => f.1 = h.1 /\ P h.1 /\ R (g f.2) h.2) fs gs ->
  Forall2 (rep_entry P R name value)
    (map mk (sort_by by_name (map (fun f => (f.1, g f.2)) fs))) (sort_by by_name gs).
Proof.
  intros Hmk HF. apply Forall2_fmap_l.
  apply (Forall2_impl (fun f h => f.1 = h.1 /\ P h.1 /\ R f.2 h.2)); [|intros; by apply Hmk].
  apply Forall2_sort_by; [intros ? ? ? ? (H1 & _) (H2 & _); unfold by_name; by rewrite H1, H2|].
  by apply Forall2_fmap_l.
Qed.

Lemma rep_entry_mk {A} (P : ustring -> Prop) (R : js -> A -> Prop) name value o s x h :
  has_keys o [name; value] [name; value] = true -> getf o name = JStr s -> getf o value = x ->
  rep_entry P R name value (JObj o) h <-> s = h.1 /\ P h.1 /\ R x h.2.
Proof.
  intros Hk Hn <-. unfold rep_entry. split.
  - intros (o' & [= <-] & _ & [Hs HP] & HR). rewrite Hn in Hs. by injection Hs.
  - intros (-> & HP & HR). eauto 8.
Qed.

Lemma sort_by_name_same {A} (gs : list (ustring * A)) : same_by name_points gs (sort_by by_name gs).
Proof. apply (sort_by_key_stable fst). Qed.

Ltac obj_rep := eexists; split; [reflexivity|].

Lemma canonical_lit_rep d a v t :
  rep_lit d v t -> plain a v ->
  exists u, lit_reorders t u /\ rep_lit d (canonicalLiteralValue t) u.
Proof.
  revert a v t. induction d as [|d IH]; intros a v t; [done|].
  intros Hrep Hp. pose proof Hrep as (o & -> & Ht).
  destruct (plain_obj _ _ Hp) as [a' ->]. rename a' into a.
  assert (forall l ts, getf o ($"values") = JArr l -> Forall2 (rep_lit d) l ts ->
            exists us, Forall2 (fun t u => lit_reorders t u /\ rep_lit d (canonicalLiteralValue t) u) ts us)
    as Hvalues.
  { intros l ts Hl HF. destruct (plain_arr _ _ _ _ Hp Hl) as (b & -> & Hb).
    eapply Forall2_choose; [|by eapply Forall2_plain]. cbn. intros ? ? [? ?]. by eapply IH. }
  destruct t; try (destruct Ht as [_ Ht]).
  - eexists. split; [apply lr_refl|]. obj_rep. repeat split; by try apply Ht.
  - eexists. split; [apply lr_refl|]. obj_rep. repeat split; by try apply Ht.
  - eexists. split; [apply lr_refl|]. obj_rep. repeat split; by try apply Ht.
  - eexists. split; [apply lr_refl|]. obj_rep. by repeat split.
  - destruct Ht as (l & Hl & HF). destruct (Hvalues _ _ Hl HF) as (us & Hus).
    destruct (Forall2_perm (rep_lit d) (map canonicalLiteralValue values)
      (sort_by by_text (map canonicalLiteralValue values)) us) as (us' & Hp' & Hus').
    { symmetry. apply sort_by_Permutation. }
    { apply Forall2_fmap_l. eapply Forall2_impl; [exact Hus|]. naive_solver. }
    exists (LSet us'). split; [eapply lr_set; [|done]; eapply Forall2_impl; [exact Hus|]; naive_solver|].
    obj_rep. split; [by split|]. by eexists.
  - destruct Ht as (l & Hl & HF). destruct (Hvalues _ _ Hl HF) as (us & Hus).
    exists (LSeq us). split; [apply lr_seq; eapply Forall2_impl; [exact Hus|]; naive_solver|].
    obj_rep. split; [by split|]. eexists. split; [done|]. apply Forall2_fmap_l.
    eapply Forall2_impl; [exact Hus|]. naive_solver.
  - destruct Ht as (l & Hl & HF). destruct (Hvalues _ _ Hl HF) as (us & Hus).
    exists (LTuple us). split; [apply lr_tuple; eapply Forall2_impl; [exact Hus|]; naive_solver|].
    obj_rep. split; [by split|]. eexists. split; [done|]. apply Forall2_fmap_l.
    eapply Forall2_impl; [exact Hus|]. naive_solver.
  - destruct Ht as (l & Hl & HF). destruct (plain_arr _ _ _ _ Hp Hl) as (b & -> & Hb).
    assert (exists gs, Forall2 (fun f g => (f.1 = g.1 /\ well_formed g.1 = true /\
        rep_lit d (canonicalLiteralValue f.2) g.2) /\ lit_reorders f.2 g.2) fields gs) as (gs & Hgs).
    { eapply Forall2_choose; [|eapply (Forall2_plain _ b); eassumption].
      intros x [s t] ((o' & -> & _ & [_ Hw] & Hr) & Hpl). destruct (plain_obj _ _ Hpl) as [c ->].
      destruct (IH c _ _ Hr) as (u & ? & ?); [by eapply plain_getf_lit|]. exists (s, u). by repeat split. }
    exists (LRecord (sort_by by_name gs)). split.
    { eapply lr_record; [|apply sort_by_name_same]. eapply Forall2_impl; [exact Hgs|].
      unfold entry_rel. naive_solver. }
    obj_rep. split; [by split|]. eexists. split; [done|].
    eapply (rep_sorted_entries (fun s => well_formed s = true)).
    + intros f h. by apply (rep_entry_mk (fun s => well_formed s = true)).
    + eapply Forall2_impl; [exact Hgs|]. naive_solver.
  - destruct Ht as (l & Hl & HF). destruct (plain_arr _ _ _ _ Hp Hl) as (b & -> & Hb).
    assert (exists fs, Forall2 (fun e f =>
        (lit_reorders e.1 f.1 /\ canonicalLiteralValue e.1 = canonicalLiteralValue f.1 /\
         rep_lit d (canonicalLiteralValue e.1) f.1) /\
        lit_reorders e.2 f.2 /\ rep_lit d (canonicalLiteralValue e.2) f.2) entries fs) as (fs & Hfs).
    { eapply Forall2_choose; [|eapply (Forall2_plain _ b); eassumption].
      intros x [k t] ((o' & -> & _ & Hk & Hr) & Hpl). destruct (plain_obj _ _ Hpl) as [c ->].
      destruct (IH c _ _ Hk) as (k' & ? & ?); [by eapply plain_getf_lit|].
      destruct (IH c _ _ Hr) as (u & ? & ?); [by eapply plain_getf_lit|].
      exists (k', u). repeat split; try done. cbn.
      eapply canonical_lit_reorders; [done..|]. by eapply plain_getf_lit. }
    exists (LMap (sort_by (by_key (fun e => compressed (canonicalLiteralValue e.1))) fs)). split.
    { eapply lr_map; [|apply sort_by_key_stable]. eapply Forall2_impl; [exact Hfs|]. naive_solver. }
    obj_rep. split; [by split|]. eexists. split; [done|]. apply Forall2_fmap_l.
    eapply (Forall2_impl (fun e f => e.1 = canonicalLiteralValue f.1 /\ rep_lit d e.1 f.1 /\ rep_lit d e.2 f.2)).
    2: { intros e f (_ & ? & ?). obj_rep. by repeat split. }
    apply Forall2_sort_by.
    { intros ? ? ? ? (H1 & _) (H2 & _). unfold by_key_text, by_text, by_key. by rewrite H1, H2. }
    apply Forall2_fmap_l. eapply Forall2_impl; [exact Hfs|]. cbn. naive_solver.
  - destruct Ht as [Hs Hr]. destruct (IH a _ _ Hr) as (u & Hu & Hru); [by eapply plain_getf_lit|].
    exists (LVariant tag u). split; [by constructor|]. obj_rep. split; [by split|]. split; [|done].
    split; [done|]. by destruct Hs.
Qed.

(** ** The same for structural types *)

Inductive type_reorders : ModelType -> ModelType -> Prop :=
| tr_refl t : type_reorders t t
| tr_set t u : type_reorders t u -> type_reorders (TSet t) (TSet u)
| tr_seq t u : type_reorders t u -> type_reorders (TSeq t) (TSeq u)
| tr_tuple ts us : Forall2 type_reorders ts us -> type_reorders (TTuple ts) (TTuple us)
| tr_record fs gs hs : Forall2 (entry_rel type_reorders) fs gs -> same_by name_points gs hs ->
    type_reorders (TRecord fs) (TRecord hs)
| tr_map k l t u : type_reorders k l -> type_reorders t u -> type_reorders (TMap k t) (TMap l u)
| tr_variant fs gs hs : Forall2 (entry_rel type_reorders) fs gs -> same_by name_points gs hs ->
    type_reorders (TVariant fs) (TVariant hs).

Lemma rep_type_defined d v t : rep_type d v t -> v <> JUndef.
Proof. destruct d; [done|]. by intros (o & -> & _). Qed.

Lemma plain_getf_type a o k d t :
  plain (S a) (JObj o) -> rep_type d (getf o k) t -> plain a (getf o k).
Proof. intros H Hr. eapply plain_getf; [done..|]. by eapply rep_type_defined. Qed.

Lemma canonical_type_writable d a v t :
  rep_type d v t -> plain a v -> writable a (canonicalModelTypeValue t).
Proof.
  revert a v t. induction d as [|d IH]; intros a v t; [done|].
  intros (o & -> & Ht) Hp. destruct (plain_obj _ _ Hp) as [a' ->]. rename a' into a.
  destruct t; cbn [canonicalModelTypeValue]; try (destruct Ht as [_ Ht]).
  1-4: canon_obj; canon_leaf.
  1-2: canon_obj; try canon_leaf; eapply IH; [done|]; by eapply plain_getf_type.
  - destruct Ht as (l & Hl & HF). destruct (plain_arr _ _ _ _ Hp Hl) as (b & -> & Hb).
    canon_obj; try canon_leaf. constructor. eapply Forall2_to_map; [|by eapply Forall2_plain].
    cbn. intros ? ? [? ?]. by eapply IH.
  - destruct Ht as (l & Hl & HF). destruct (plain_arr _ _ _ _ Hp Hl) as (b & -> & Hb).
    canon_obj; try canon_leaf. constructor. apply Forall_map.
    eapply Forall_impl; [eapply (writable_entries _ (rep_type d)); [by intros; eapply IH|by intros; eapply rep_type_defined|done..]|].
    intros f (c & -> & Hf & Hw). canon_obj; [done|by constructor].
  - destruct Ht as [H1 H2]. canon_obj; try canon_leaf; (eapply IH; [done|]); by eapply plain_getf_type.
  - destruct Ht as (l & Hl & HF). destruct (plain_arr _ _ _ _ Hp Hl) as (b & -> & Hb).
    canon_obj; try canon_leaf. constructor. apply Forall_map.
    eapply Forall_impl; [eapply (writable_entries _ (rep_type d)); [by intros; eapply IH|by intros; eapply rep_type_defined|done..]|].
    intros f (c & -> & Hf & Hw). canon_obj; [done|by constructor].
  - destruct Ht as [Hs _]. canon_obj; try canon_leaf. by eapply tree_str, plain_str.
Qed.

Lemma canonical_type_reorders d v t u :
  type_reorders t u -> rep_type d v t ->
  canonicalModelTypeValue t = canonicalModelTypeValue u.
Proof.
  revert v t u. induction d as [|d IH]; intros v t u Hr; [done|].
  intros (o & -> & Ht).
  assert (forall name value l fs gs hs,
    Forall2 (rep_entry short (rep_type d) name value) l fs ->
    Forall2 (entry_rel type_reorders) fs gs -> same_by name_points gs hs ->
    sort_by by_name (map (fun f => (f.1, canonicalModelTypeValue f.2)) fs) =
    sort_by by_name (map (fun f => (f.1, canonicalModelTypeValue f.2)) hs)) as Hentries.
  { intros name value l fs gs hs HR HF Hs. apply (canonical_sorted _ fs gs hs); [|done].
    eapply Forall2_impl; [eapply Forall2_join; [exact HR|exact HF]|].
    cbn. intros x y ((Hn & Hxy) & w & (o' & -> & _ & _ & Hx)). split; [done|]. by eapply IH. }
  inversion Hr as [|? ? H|? ? H|ts us HF|fs gs hs HF Hs|? ? ? ? H1 H2|fs gs hs HF Hs];
    subst; [done|..]; destruct Ht as [_ Ht]; cbn [canonicalModelTypeValue].
  - by rewrite (IH _ _ _ H Ht).
  - by rewrite (IH _ _ _ H Ht).
  - destruct Ht as (l & Hl & HR). do 4 f_equal.
    eapply Forall2_map_eq; [|eapply Forall2_join; [exact HR|exact HF]].
    cbn. intros ? ? (? & ? & ?). by eapply IH.
  - destruct Ht as (l & Hl & HR). by rewrite (Hentries _ _ _ _ _ _ HR HF Hs).
  - destruct Ht as [R1 R2]. by rewrite (IH _ _ _ H1 R1), (IH _ _ _ H2 R2).
  - destruct Ht as (l & Hl & HR). by rewrite (Hentries _ _ _ _ _ _ HR HF Hs).
Qed.

Lemma canonical_type_rep d v t :
  rep_type d v t -> exists u, type_reorders t u /\ rep_type d (canonicalModelTypeValue t) u.
Proof.
  revert v t. induction d as [|d IH]; intros v t; [done|].
  intros (o & -> & Ht).
  assert (forall name value l fs mk,
    (forall f h, rep_entry short (rep_type d) name value (mk f) h <->
                 f.1 = h.1 /\ short h.1 /\ rep_type d f.2 h.2) ->
    Forall2 (rep_entry short (rep_type d) name value) l fs ->
    exists gs, Forall2 (entry_rel type_reorders) fs gs /\
      Forall2 (rep_entry short (rep_type d) name value)
        (map mk (sort_by by_name (map (fun f => (f.1, canonicalModelTypeValue f.2)) fs)))
        (sort_by by_name gs)) as Hentries.
  { intros name value l fs mk Hmk HR.
    assert (exists gs, Forall2 (fun f g => (f.1 = g.1 /\ short g.1 /\
        rep_type d (canonicalModelTypeValue f.2) g.2) /\ type_reorders f.2 g.2) fs gs) as (gs & Hgs).
    { eapply Forall2_choose; [|exact HR].
      intros x [s t'] (o' & -> & _ & [_ Hw] & Hr). destruct (IH _ _ Hr) as (u & ? & ?).
      exists (s, u). split; [|done]. split; [done|]. by split. }
    exists gs. split.
    - eapply Forall2_impl; [exact Hgs|]. unfold entry_rel. naive_solver.
    - apply (rep_sorted_entries short); [done|]. eapply Forall2_impl; [exact Hgs|]. naive_solver. }
  destruct t; try (destruct Ht as [_ Ht]).
  1-4: by eexists; split; [apply tr_refl|]; obj_rep; repeat split.
  1-2: destruct (IH _ _ Ht) as (u & Hu & Hru); eexists; (split; [by constructor|]); obj_rep;
    (split; [by split|done]).
  - destruct Ht as (l & Hl & HF).
    assert (exists us, Forall2 (fun t u => type_reorders t u /\
      rep_type d (canonicalModelTypeValue t) u) elements us) as (us & Hus).
    { eapply Forall2_choose; [|exact HF]. intros ? ? H. by eapply IH. }
    exists (TTuple us). split; [apply tr_tuple; eapply Forall2_impl; [exact Hus|]; naive_solver|].
    obj_rep. split; [by split|]. eexists. split; [done|]. apply Forall2_fmap_l.
    eapply Forall2_impl; [exact Hus|]. naive_solver.
  - destruct Ht as (l & Hl & HF).
    destruct (Hentries ($"wireName") ($"type") l fields
      (fun f => JObj [($"type", f.2); ($"wireName", JStr f.1)])) as (gs & H1 & H2); [|done|].
    { intros. by apply (rep_entry_mk short). }
    eexists. split; [eapply tr_record; [exact H1|apply sort_by_name_same]|]. obj_rep.
    split; [by split|]. by eexists.
  - destruct Ht as [(u1 & ? & ?)%IH (u2 & ? & ?)%IH].
    eexists. split; [by apply tr_map|]. obj_rep. split; [by split|]. by split.
  - destruct Ht as (l & Hl & HF).
    destruct (Hentries ($"tag") ($"payload") l cases
      (fun f => JObj [($"payload", f.2); ($"tag", JStr f.1)])) as (gs & H1 & H2); [|done|].
    { intros. by apply (rep_entry_mk short). }
    eexists. split; [eapply tr_variant; [exact H1|apply sort_by_name_same]|]. obj_rep.
    split; [by split|]. by eexists.
  - eexists. split; [apply tr_refl|]. obj_rep. split; [by split|]. split; [done|apply Ht].
Qed.

(** ** The same for path segments *)

Definition path_reorders (s s' : ContractPathSegment) : Prop :=
  match s, s' with
  | PMapKey l, PMapKey l' => lit_reorders l l'
  | _, _ => s = s'
  end.

Lemma num_safe_Z_bound x z : num_safe_Z x = Some z -> (Z.abs z <= MAX_SAFE_INTEGER)%Z.
Proof.
  unfold num_safe_Z. destruct (num_to_Z x) as [z'|]; [|done].
  destruct (Z.leb_spec (Z.abs z') MAX_SAFE_INTEGER); [|done]. by intros [= <-].
Qed.

Lemma plain_single a k x : plain a (JObj [(k, x)]) -> exists b, a = S b /\ plain b x.
Proof.
  intros H. destruct (plain_obj _ _ H) as [b ->]. exists b. split; [done|].
  inversion H as [| | | | |? ? _ _ Hf]; subst. by apply Forall_cons in Hf as [? _].
Qed.

Lemma canonical_path_writable a v s :
  rep_path v s -> plain a v -> writable a (canonicalPathSegmentValue s).
Proof.
  intros (k & x & -> & H) (b & -> & Hp)%plain_single.
  destruct s; cbn [canonicalPathSegmentValue]; canon_obj.
  - destruct H as (_ & -> & _). inversion Hp. by constructor.
  - destruct H as (_ & (n & _ & Hn) & _). constructor. eexists. split; [|done].
    by eapply num_safe_Z_bound.
  - destruct H as (_ & H). by eapply canonical_lit_writable.
  - destruct H as (_ & -> & _). inversion Hp. by constructor.
Qed.

Lemma canonical_path_reorders a v s s' :
  path_reorders s s' -> rep_path v s -> plain a v ->
  canonicalPathSegmentValue s = canonicalPathSegmentValue s'.
Proof.
  intros Hr (k & x & -> & H) (b & -> & Hp)%plain_single.
  destruct s, s'; cbn in Hr; try done; try by simplify_eq.
  cbn. do 3 f_equal. destruct H as (_ & H). by eapply canonical_lit_reorders.
Qed.

Lemma canonical_path_rep a v s :
  rep_path v s -> plain a v ->
  exists s', path_reorders s s' /\ rep_path (canonicalPathSegmentValue s) s'.
Proof.
  intros (k & x & -> & H) (b & -> & Hp)%plain_single. destruct s as [f|i|l|f].
  - exists (PField f). split; [done|]. eexists _, _. split; [done|]. split; [done|]. by split; [|apply H].
  - exists (PIndex i). split; [done|]. eexists _, _. split; [done|]. destruct H as (_ & (n & _ & Hn) & Hi).
    split; [done|]. split; [|done]. eexists. split; [done|].
    by eapply num_of_Z_exact, num_safe_Z_bound.
  - destruct H as (_ & H). destruct (canonical_lit_rep _ _ _ _ H Hp) as (u & Hu & Hr).
    exists (PMapKey u). split; [done|]. by eexists _, _.
  - exists (PVariantValue f). split; [done|]. eexists _, _. split; [done|]. split; [done|].
    by split; [|apply H].
Qed.
