(* ===== verification/Descriptor.v ===== *)
(** * The semantic descriptor

    [SemanticDescriptor] of [src/src/model-interface.ts] with its decoder
    ([decodeSemanticDescriptorValue] and the functions it calls), the canonical
    value and text of a descriptor, and its digest. The three constant fields
    ([schema], [resolverSemanticsVersion], [comparisonPolicyVersion]), the
    constant [actionVariable] and the constant [provenance] are checked by the
    decoder and not stored: their types have one inhabitant. *)

From S2P Require Import Prelude JsNumber Utf16 JsData StrictJson Decode ModelTypes Canonical.

Inductive phase_t := Initialize | Transition.

Inductive root_t := InitialState | StepParameters.

Record ResolvedInput := MkInput {
  ri_id : ustring;
  ri_root : root_t;
  ri_path : list ContractPathSegment;
  ri_type : ModelType }.

Record ResolvedAction := MkAction {
  ra_id : ustring;
  ra_phase : phase_t;
  ra_wireAction : ustring;
  ra_wireAliases : list ustring;
  ra_inputs : list ResolvedInput }.

Record ResolvedObservation := MkObservation {
  ro_id : ustring;
  ro_wireName : ustring;
  ro_type : ModelType }.

Record ResolvedRunProfile := MkRunProfile {
  rp_configuredParamVar : option ustring;
  rp_itfParamVars : list ustring;
  rp_effectiveParamVars : list ustring }.

Record SemanticDescriptor := MkDescriptor {
  sd_interfaceVersion : ustring;
  sd_module : ustring;
  sd_runProfile : ResolvedRunProfile;
  sd_initializers : list ResolvedAction;
  sd_actions : list ResolvedAction;
  sd_observations : list ResolvedObservation }.

Definition DESCRIPTOR_SCHEMA : ustring := $"mirrors.model-interface-descriptor/v1".
Definition RESOLVER_SEMANTICS_VERSION : ustring := $"mirrors-model-interface-resolver/v1".
Definition COMPARISON_POLICY_VERSION : ustring := $"mirrors-applyParamVars-filterMeta/v1".
Definition DIGEST_DOMAIN : ustring := $"mirrors-model-interface-descriptor/v1".
Definition MAX_DESCRIPTOR_BYTES : N := 32768.

Definition phase_name (p : phase_t) : ustring :=
  match p with Initialize => $"initialize" | Transition => $"transition" end.

Definition root_name (r : root_t) : ustring :=
  match r with InitialState => $"initialState" | StepParameters => $"stepParameters" end.

(** ** Name syntax *)

Definition is_upper (c : N) : bool := (0x41 <=? c)%N && (c <=? 0x5a)%N.
Definition is_lower (c : N) : bool := (0x61 <=? c)%N && (c <=? 0x7a)%N.
Definition is_alnum (c : N) : bool := is_upper c || is_lower c || is_digit c.

(** [/^[A-Z][A-Za-z0-9]*$/] *)
Definition validStableId (value : ustring) : bool :=
  match value with
  | c :: rest => is_upper c && forallb is_alnum rest
  | [] => false
  end.

(** [/^[A-Za-z_][A-Za-z0-9_]*$/] *)
Definition validModuleName (value : ustring) : bool :=
  match value with
  | c :: rest => (is_upper c || is_lower c || (c =? 0x5f)%N) &&
                 forallb (fun c => is_alnum c || (c =? 0x5f)%N) rest
  | [] => false
  end.

(** [[0-9]+] at the front: the rest after the digits. *)
Fixpoint skip_digits (s : ustring) : ustring :=
  match s with
  | c :: s' => if is_digit c then skip_digits s' else s
  | [] => []
  end.
Definition digits1 (s : ustring) : option ustring :=
  match s with
  | c :: s' => if is_digit c then Some (skip_digits s') else None
  | [] => None
  end.
Definition a_dot (s : ustring) : option ustring :=
  match s with
  | c :: s' => if (c =? 0x2e)%N then Some s' else None
  | [] => None
  end.

(** [/^[0-9]+\.[0-9]+\.[0-9]+$/] *)
Definition validInterfaceVersion (value : ustring) : bool :=
  let rest : option ustring :=
    (s1 ← digits1 value; s2 ← a_dot s1; s3 ← digits1 s2; s4 ← a_dot s3; digits1 s4) in
  bool_decide (rest = Some []).

(** ** Canonical values *)

Definition opt_js (o : option ustring) : js :=
  match o with Some s => JStr s | None => JNull end.

Definition strings_js (l : list ustring) : js := JArr (map JStr l).

Definition canonicalResolvedInputValue (input : ResolvedInput) : js :=
  JObj [($"from", JObj [($"path", JArr (map canonicalPathSegmentValue (ri_path input)));
                        ($"root", JStr (root_name (ri_root input)))]);
        ($"id", JStr (ri_id input));
        ($"type", canonicalModelTypeValue (ri_type input))].

Definition canonicalResolvedActionValue (action : ResolvedAction) : js :=
  JObj [($"id", JStr (ra_id action));
        ($"inputs", JArr (map canonicalResolvedInputValue (sort_by (by_key ri_id) (ra_inputs action))));
        ($"phase", JStr (phase_name (ra_phase action)));
        ($"wireAction", JStr (ra_wireAction action));
        ($"wireAliases", strings_js (sort_by compareUnicodeScalars (ra_wireAliases action)))].

Definition canonicalResolvedObservationValue (observation : ResolvedObservation) : js :=
  JObj [($"id", JStr (ro_id observation));
        ($"provenance", JStr ($"implementation"));
        ($"type", canonicalModelTypeValue (ro_type observation));
        ($"wireName", JStr (ro_wireName observation))].

Definition canonicalDescriptorValue (descriptor : SemanticDescriptor) : js :=
  JObj [($"actions", JArr (map canonicalResolvedActionValue
           (sort_by (by_key ra_id) (sd_actions descriptor))));
        ($"comparisonPolicyVersion", JStr COMPARISON_POLICY_VERSION);
        ($"initializers", JArr (map canonicalResolvedActionValue
           (sort_by (by_key ra_id) (sd_initializers descriptor))));
        ($"interfaceVersion", JStr (sd_interfaceVersion descriptor));
        ($"model", JObj [($"module", JStr (sd_module descriptor))]);
        ($"observations", JArr (map canonicalResolvedObservationValue
           (sort_by (by_key ro_id) (sd_observations descriptor))));
        ($"resolverSemanticsVersion", JStr RESOLVER_SEMANTICS_VERSION);
        ($"runProfile", JObj
          [($"actionVariable", JStr ($"action_taken"));
           ($"configuredParamVar", opt_js (rp_configuredParamVar (sd_runProfile descriptor)));
           ($"effectiveParamVars", strings_js (sort_by compareUnicodeScalars
              (rp_effectiveParamVars (sd_runProfile descriptor))));
           ($"itfParamVars", strings_js (sort_by compareUnicodeScalars
              (rp_itfParamVars (sd_runProfile descriptor))))]);
        ($"schema", JStr DESCRIPTOR_SCHEMA)].

(** ** Decoding *)

Definition expectedRoot (phase : phase_t) : root_t :=
  match phase with Initialize => InitialState | Transition => StepParameters end.

(** The text [x] was compared with, as the source's [x !== "..."]. *)
Definition is_text (value : js) (s : ustring) : bool :=
  match value with JStr x => bool_decide (x = s) | _ => false end.

Definition decodeResolvedInput (value : js) (path : ustring) (phase : phase_t)
  : stres N exn ResolvedInput :=
  fields ← liftR (exactObject value path [$"id"; $"from"; $"type"] [$"id"; $"from"; $"type"]);
  id ← liftR (shortField fields "id" path);
  _ ← liftR (require_at (validStableId id) (dot path "id") ($"expected an uppercase ASCII stable ID"));
  from ← liftR (exactObject (getf fields ($"from")) (dot path "from")
                  [$"root"; $"path"] [$"root"; $"path"]);
  root ← liftR (string_val (getf from ($"root")) (dot (dot path "from") "root"));
  let expected := root_name (expectedRoot phase) in
  _ ← liftR (require_at (bool_decide (root = expected)) (dot (dot path "from") "root")
               ($"expected '" ++ expected ++ $"' for " ++ phase_name phase));
  rawPath ← liftR (array (getf from ($"path")) (dot (dot path "from") "path"));
  _ ← liftR (require_length rawPath 32 (dot (dot path "from") "path") ($"path exceeds 32 segments"));
  decodedPath ← liftR (mapMi (fun i item =>
      decodePathSegment item (idx (dot (dot path "from") "path") i)) rawPath);
  type ← decodeModelType MAX_TYPE_DEPTH (getf fields ($"type")) (dot path "type");
  _ ← liftR (validateModelType type (dot path "type"));
  mret (MkInput id (expectedRoot phase) decodedPath type).

Definition decodeResolvedAction (value : js) (path : ustring) (requiredPhase : phase_t)
  : stres N exn ResolvedAction :=
  let names := [$"id"; $"phase"; $"wireAction"; $"wireAliases"; $"inputs"] in
  fields ← liftR (exactObject value path names names);
  phase ← liftR (string_val (getf fields ($"phase")) (dot path "phase"));
  _ ← liftR (require_at (bool_decide (phase = phase_name requiredPhase)) (dot path "phase")
               ($"expected '" ++ phase_name requiredPhase ++ $"'"));
  id ← liftR (shortField fields "id" path);
  _ ← liftR (require_at (validStableId id) (dot path "id") ($"expected an uppercase ASCII stable ID"));
  wireAction ← liftR (shortField fields "wireAction" path);
  _ ← liftR (require_at (negb (bool_decide (wireAction = []))) (dot path "wireAction")
               ($"must not be empty"));
  rawAliases ← liftR (array (getf fields ($"wireAliases")) (dot path "wireAliases"));
  _ ← liftR (require_length rawAliases 16 (dot path "wireAliases") ($"array exceeds 16 aliases"));
  wireAliases ← liftR (mapMi (fun i item =>
      shortString item (idx (dot path "wireAliases") i)) rawAliases);
  _ ← liftR (requireUnique (wireAction :: wireAliases) (dot path "wireAliases") ($"wire label"));
  rawInputs ← liftR (array (getf fields ($"inputs")) (dot path "inputs"));
  _ ← liftR (require_length rawInputs 128 (dot path "inputs") ($"array exceeds 128 inputs"));
  inputs ← mapMi (fun i item =>
      decodeResolvedInput item (idx (dot path "inputs") i) requiredPhase) rawInputs;
  _ ← liftR (requireUnique (map ri_id inputs) (dot path "inputs") ($"input ID"));
  mret (MkAction id requiredPhase wireAction wireAliases inputs).

Definition decodeResolvedObservation (value : js) (path : ustring)
  : stres N exn ResolvedObservation :=
  let names := [$"id"; $"wireName"; $"type"; $"provenance"] in
  fields ← liftR (exactObject value path names names);
  id ← liftR (shortField fields "id" path);
  _ ← liftR (require_at (validStableId id) (dot path "id") ($"expected an uppercase ASCII stable ID"));
  wireName ← liftR (shortField fields "wireName" path);
  _ ← liftR (require_at (negb (bool_decide (wireName = []))) (dot path "wireName")
               ($"must not be empty"));
  _ ← liftR (require_at (is_text (getf fields ($"provenance")) ($"implementation"))
               (dot path "provenance") ($"version 1 supports only 'implementation'"));
  type ← decodeModelType MAX_TYPE_DEPTH (getf fields ($"type")) (dot path "type");
  _ ← liftR (validateModelType type (dot path "type"));
  mret (MkObservation id wireName type).

(** [[...new Set(values)].sort(compareUnicodeScalars)] *)
Definition set_values (values : list ustring) : list ustring :=
  foldl (fun acc x => if bool_decide (x ∈ acc) then acc else acc ++ [x]) [] values.

Definition sortedUnique (values : list ustring) : list ustring :=
  sort_by compareUnicodeScalars (set_values values).

Definition decodeStringOrNull (value : js) (path : ustring) : res exn (option ustring) :=
  match value with
  | JNull => Ok None
  | _ => Some <$> string_val value path
  end.

Definition decodeRunProfile (value : js) (path : ustring) : res exn ResolvedRunProfile :=
  let names := [$"actionVariable"; $"configuredParamVar"; $"itfParamVars"; $"effectiveParamVars"] in
  runFields ← exactObject value path names names;
  _ ← require_at (is_text (getf runFields ($"actionVariable")) ($"action_taken"))
        (dot path "actionVariable") ($"expected 'action_taken'");
  configuredParamVar ← decodeStringOrNull (getf runFields ($"configuredParamVar"))
        (dot path "configuredParamVar");
  rawItf ← array (getf runFields ($"itfParamVars")) (dot path "itfParamVars");
  itfParamVars ← mapMi (fun i item => string_val item (idx (dot path "itfParamVars") i)) rawItf;
  _ ← requireUnique itfParamVars (dot path "itfParamVars") ($"parameter variable");
  rawEff ← array (getf runFields ($"effectiveParamVars")) (dot path "effectiveParamVars");
  effectiveParamVars ← mapMi (fun i item =>
        string_val item (idx (dot path "effectiveParamVars") i)) rawEff;
  let expectedEffective := sortedUnique (itfParamVars ++ option_list configuredParamVar) in
  _ ← require_at (bool_decide (effectiveParamVars = expectedEffective))
        (dot path "effectiveParamVars")
        ($"does not equal the sorted effective parameter variables");
  mret (MkRunProfile configuredParamVar itfParamVars effectiveParamVars).

(** The labels an action answers to. *)
Definition wire_labels (action : ResolvedAction) : list ustring :=
  ra_wireAction action :: ra_wireAliases action.

(** The lists of a descriptor, which share the node budget. *)
Definition decodeParts (fields : object_t) (path : ustring)
  : stres N exn (list ResolvedAction * list ResolvedAction * list ResolvedObservation) :=
  rawInitializers ← liftR (array (getf fields ($"initializers")) (dot path "initializers"));
  _ ← liftR (require_at (negb (length rawInitializers =? 0)%nat) (dot path "initializers")
               ($"at least one initializer is required"));
  _ ← liftR (require_length rawInitializers 32 (dot path "initializers")
               ($"array exceeds 32 initializers"));
  initializers ← mapMi (fun i item =>
      decodeResolvedAction item (idx (dot path "initializers") i) Initialize) rawInitializers;
  rawActions ← liftR (array (getf fields ($"actions")) (dot path "actions"));
  _ ← liftR (require_length rawActions 256 (dot path "actions") ($"array exceeds 256 actions"));
  actions ← mapMi (fun i item =>
      decodeResolvedAction item (idx (dot path "actions") i) Transition) rawActions;
  let allActions := initializers ++ actions in
  _ ← liftR (requireUnique (map ra_id allActions) path ($"action ID"));
  _ ← liftR (requireUnique (flat_map wire_labels allActions) path ($"action wire label"));
  rawObservations ← liftR (array (getf fields ($"observations")) (dot path "observations"));
  _ ← liftR (require_length rawObservations 1024 (dot path "observations")
               ($"array exceeds 1024 observations"));
  observations ← mapMi (fun i item =>
      decodeResolvedObservation item (idx (dot path "observations") i)) rawObservations;
  _ ← liftR (requireUnique (map ro_id observations) (dot path "observations") ($"observation ID"));
  _ ← liftR (requireUnique (map ro_wireName observations) (dot path "observations")
               ($"observation wire name"));
  mret (initializers, actions, observations).

(** The value computed with a fresh budget, whose final state is dropped. *)
Definition with_budget {A} (m : stres N exn A) : res exn A := fst <$> m 0%N.

Definition descriptor_names : list ustring :=
  [$"schema"; $"interfaceVersion"; $"model"; $"resolverSemanticsVersion";
   $"comparisonPolicyVersion"; $"runProfile"; $"initializers"; $"actions"; $"observations"].

Definition decodeSemanticDescriptorValue (value : js) : res exn SemanticDescriptor :=
  let path := $"descriptor" in
  fields ← exactObject value path descriptor_names descriptor_names;
  _ ← require_at (is_text (getf fields ($"schema")) DESCRIPTOR_SCHEMA) (dot path "schema")
        ($"expected '" ++ DESCRIPTOR_SCHEMA ++ $"'");
  interfaceVersion ← shortField fields "interfaceVersion" path;
  _ ← require_at (validInterfaceVersion interfaceVersion) (dot path "interfaceVersion")
        ($"expected decimal major.minor.patch");
  modelFields ← exactObject (getf fields ($"model")) (dot path "model") [$"module"] [$"module"];
  modelModule ← shortField modelFields "module" (dot path "model");
  _ ← require_at (validModuleName modelModule) (dot (dot path "model") "module")
        ($"invalid TLA+ module name");
  _ ← require_at (is_text (getf fields ($"resolverSemanticsVersion")) RESOLVER_SEMANTICS_VERSION)
        (dot path "resolverSemanticsVersion") ($"expected '" ++ RESOLVER_SEMANTICS_VERSION ++ $"'");
  _ ← require_at (is_text (getf fields ($"comparisonPolicyVersion")) COMPARISON_POLICY_VERSION)
        (dot path "comparisonPolicyVersion") ($"expected '" ++ COMPARISON_POLICY_VERSION ++ $"'");
  runProfile ← decodeRunProfile (getf fields ($"runProfile")) (dot path "runProfile");
  parts ← with_budget (decodeParts fields path);
  let descriptor := MkDescriptor interfaceVersion modelModule runProfile
                      parts.1.1 parts.1.2 parts.2 in
  canonical ← compressCanonicalJson (canonicalDescriptorValue descriptor);
  let canonicalBytes := byteLength canonical in
  _ ← require_at (negb (MAX_DESCRIPTOR_BYTES <? canonicalBytes)%N) path
        ($"canonical descriptor is " ++ dec_of_N canonicalBytes ++
         $" UTF-8 bytes; maximum is " ++ dec_of_N MAX_DESCRIPTOR_BYTES);
  mret descriptor.

Definition decodeSemanticDescriptor (value : js) : res exn SemanticDescriptor :=
  decodeSemanticDescriptorValue value.

Definition parseSemanticDescriptor (text : ustring) : res exn SemanticDescriptor :=
  value ← parseStrictJson text; decodeSemanticDescriptorValue value.

(** ** The object a decoded descriptor is at run time *)

Definition input_js (i : ResolvedInput) : js :=
  JObj [($"id", JStr (ri_id i));
        ($"from", JObj [($"root", JStr (root_name (ri_root i)));
                        ($"path", JArr (map path_js (ri_path i)))]);
        ($"type", type_js (ri_type i))].

Definition action_js (a : ResolvedAction) : js :=
  JObj [($"id", JStr (ra_id a)); ($"phase", JStr (phase_name (ra_phase a)));
        ($"wireAction", JStr (ra_wireAction a)); ($"wireAliases", strings_js (ra_wireAliases a));
        ($"inputs", JArr (map input_js (ra_inputs a)))].

Definition observation_js (b : ResolvedObservation) : js :=
  JObj [($"id", JStr (ro_id b)); ($"wireName", JStr (ro_wireName b));
        ($"type", type_js (ro_type b)); ($"provenance", JStr ($"implementation"))].

Definition profile_js (r : ResolvedRunProfile) : js :=
  JObj [($"actionVariable", JStr ($"action_taken"));
        ($"configuredParamVar", opt_js (rp_configuredParamVar r));
        ($"itfParamVars", strings_js (rp_itfParamVars r));
        ($"effectiveParamVars", strings_js (rp_effectiveParamVars r))].

Definition descriptor_js (d : SemanticDescriptor) : js :=
  JObj [($"schema", JStr DESCRIPTOR_SCHEMA);
        ($"interfaceVersion", JStr (sd_interfaceVersion d));
        ($"model", JObj [($"module", JStr (sd_module d))]);
        ($"resolverSemanticsVersion", JStr RESOLVER_SEMANTICS_VERSION);
        ($"comparisonPolicyVersion", JStr COMPARISON_POLICY_VERSION);
        ($"runProfile", profile_js (sd_runProfile d));
        ($"initializers", JArr (map action_js (sd_initializers d)));
        ($"actions", JArr (map action_js (sd_actions d)));
        ($"observations", JArr (map observation_js (sd_observations d)))].

(** ** Canonical text, bytes and digest *)

Definition canonicalSemanticDescriptorString (value : js) : res exn ustring :=
  descriptor ← decodeSemanticDescriptorValue value;
  compressCanonicalJson (canonicalDescriptorValue descriptor).

Definition canonicalSemanticDescriptorBytes (value : js) : res exn (list N) :=
  utf8_bytes <$> canonicalSemanticDescriptorString value.

(** [sha256] stands for [createHash("sha256") ... digest("hex")] of node:crypto,
    as a function of all the bytes given to [update]. *)
Definition semanticDescriptorDigest (sha256 : list N -> ustring) (value : js) : res exn ustring :=
  bytes ← canonicalSemanticDescriptorBytes value;
  semanticDigestFromHex (sha256 (utf8_bytes DIGEST_DOMAIN ++ [0%N] ++ bytes)).
