(* ===== verification/DescriptorFacts.v ===== *)
(** * What the descriptor decoder accepts

    [rep_descriptor v d]: the JavaScript value [v] writes the descriptor [d].
    The decoder succeeds exactly on the values that represent a descriptor
    within the limits; the canonical value of a descriptor represents a
    reordering of it, and is the same for all its reorderings. *)

From S2P Require Import Prelude JsNumber Utf16 JsData StrictJson StrictJsonFacts StrictJsonRoundtrip Decode ModelTypes Canonical Descriptor.

(** ** The relations *)

Definition rep_short (v : js) (s : ustring) : Prop := v = JStr s /\ short s.
Definition rep_text (v : js) (s : ustring) : Prop := v = JStr s /\ well_formed s = true.

Definition rep_input (ph : phase_t) (v : js) (i : ResolvedInput) : Prop :=
  exists o f l, v = JObj o /\ has_keys o [$"id"; $"from"; $"type"] [$"id"; $"from"; $"type"] = true /\
    (rep_short (getf o ($"id")) (ri_id i) /\ validStableId (ri_id i) = true) /\
    (getf o ($"from") = JObj f /\ has_keys f [$"root"; $"path"] [$"root"; $"path"] = true /\
     getf f ($"root") = JStr (root_name (expectedRoot ph)) /\ ri_root i = expectedRoot ph) /\
    (getf f ($"path") = JArr l /\ (length l <= 32)%nat /\ Forall2 rep_path l (ri_path i)) /\
    rep_type MAX_TYPE_DEPTH (getf o ($"type")) (ri_type i) /\ type_valid (ri_type i).

Definition action_names : list ustring := [$"id"; $"phase"; $"wireAction"; $"wireAliases"; $"inputs"].

Definition rep_action (ph : phase_t) (v : js) (a : ResolvedAction) : Prop :=
  exists o la li, v = JObj o /\ has_keys o action_names action_names = true /\
    (getf o ($"phase") = JStr (phase_name ph) /\ ra_phase a = ph) /\
    (rep_short (getf o ($"id")) (ra_id a) /\ validStableId (ra_id a) = true) /\
    (rep_short (getf o ($"wireAction")) (ra_wireAction a) /\ ra_wireAction a <> []) /\
    (getf o ($"wireAliases") = JArr la /\ (length la <= 16)%nat /\
     Forall2 rep_short la (ra_wireAliases a) /\ NoDup (wire_labels a)) /\
    (getf o ($"inputs") = JArr li /\ (length li <= 128)%nat /\
     Forall2 (rep_input ph) li (ra_inputs a) /\ NoDup (map ri_id (ra_inputs a))).

Definition observation_names : list ustring := [$"id"; $"wireName"; $"type"; $"provenance"].

Definition rep_observation (v : js) (b : ResolvedObservation) : Prop :=
  exists o, v = JObj o /\ has_keys o observation_names observation_names = true /\
    (rep_short (getf o ($"id")) (ro_id b) /\ validStableId (ro_id b) = true) /\
    (rep_short (getf o ($"wireName")) (ro_wireName b) /\ ro_wireName b <> []) /\
    getf o ($"provenance") = JStr ($"implementation") /\
    rep_type MAX_TYPE_DEPTH (getf o ($"type")) (ro_type b) /\ type_valid (ro_type b).

Definition input_nodes (i : ResolvedInput) : N := type_nodes (ri_type i).
Definition action_nodes (a : ResolvedAction) : N := sum_by input_nodes (ra_inputs a).
Definition observation_nodes (b : ResolvedObservation) : N := type_nodes (ro_type b).

(** ** The decoders decide the relations *)

Lemma bool_eq_Ok (b : ustring) x : bool_decide (x = b) = true <-> x = b.
Proof. apply bool_decide_eq_true. Qed.

Lemma nonempty_Ok (s : ustring) : negb (bool_decide (s = [])) = true <-> s <> [].
Proof. by rewrite negb_true_iff, bool_decide_eq_false. Qed.

Lemma is_text_Ok v s : is_text v s = true <-> v = JStr s.
Proof. destruct v; cbn; try (split; congruence). rewrite bool_decide_eq_true. naive_solver. Qed.

(** A run of pure steps: [(liftR r ≫= f) s = Ok _] as facts about [r]. *)
Lemma bind_lift_Ok {S A B} (r : res exn A) (f : A -> stres S exn B) s b s' :
  (liftR r ≫= f) s = Ok (b, s') <-> exists a, r = Ok a /\ f a s = Ok (b, s').
Proof.
  rewrite stres_bind_Ok. split.
  - intros (a & s1 & [-> <-]%liftR_Ok & H). eauto.
  - intros (a & -> & H). exists a, s. by rewrite liftR_Ok.
Qed.

Lemma mapMi_Ok {A B} (f : N -> A -> res exn B) (R : A -> B -> Prop) l ys :
  (forall i x y, f i x = Ok y <-> R x y) -> mapMi f l = Ok ys <-> Forall2 R l ys.
Proof. intros H. apply mapMi_from_rep. intros. apply H. Qed.

Lemma exists_tt (P : unit -> Prop) : (exists u, P u) <-> P tt.
Proof. split; [by intros [[] ?]|eauto]. Qed.

Lemma decodeResolvedInput_spec v p ph s i s' :
  (s <= MAX_TYPE_NODES)%N ->
  decodeResolvedInput v p ph s = Ok (i, s') <->
  rep_input ph v i /\ s' = (s + input_nodes i)%N /\ (s' <= MAX_TYPE_NODES)%N.
Proof.
  intros Hs. unfold decodeResolvedInput, rep_input, input_nodes. split.
  - intros H. dec_inv.
    match goal with H : decodeModelType _ _ _ _ = _ |- _ => apply decodeModelType_spec in H as (? & -> & ?); [|done] end.
    match goal with H : mapMi _ _ = _ |- _ => apply (mapMi_Ok _ rep_path) in H; [|intros; apply decodePathSegment_spec] end.
    repeat match goal with H : bool_decide _ = true |- _ => apply bool_decide_eq_true in H; subst end.
    match goal with H : validateModelType _ _ = Ok ?u |- _ => destruct u; apply validateModelType_Ok in H end.
    cbn [ri_id ri_root ri_path ri_type]. split; [|done].
    do 3 eexists. unfold rep_short. split_and!; eauto.
  - intros ((o & f & l & -> & Hk & [[Hid Hsid] Hvid] & (Hf & Hkf & Hroot & Hr) & (Hl & Hlen & HF) & Ht & Hv) & -> & Hle).
    destruct i as [id root path type]; cbn [ri_id ri_root ri_path ri_type] in *. subst root.
    dec_run. erewrite bind_lift by (apply exactObject_Ok; split; eassumption).
    erewrite bind_lift by (apply string_val_Ok; split; [eassumption|by destruct ph]).
    dec_run. erewrite bind_lift by (apply (mapMi_Ok _ rep_path); [intros; apply decodePathSegment_spec|eassumption]).
    erewrite bind_run by (apply decodeModelType_spec; [done|]; split; [eassumption|done]).
    erewrite bind_lift by (apply validateModelType_Ok; eassumption). done.
Qed.

Lemma decodeResolvedAction_spec v p ph s a s' :
  (s <= MAX_TYPE_NODES)%N ->
  decodeResolvedAction v p ph s = Ok (a, s') <->
  rep_action ph v a /\ s' = (s + action_nodes a)%N /\ (s' <= MAX_TYPE_NODES)%N.
Proof.
  intros Hs. unfold decodeResolvedAction, rep_action, action_nodes. split.
  - intros H. dec_inv.
    match goal with H : mapMi _ _ _ = Ok _ |- _ =>
      apply (mapMi_from_budget _ (rep_input ph) input_nodes MAX_TYPE_NODES) in H as (? & -> & ?);
        [|intros; by apply decodeResolvedInput_spec|done] end.
    match goal with H : mapMi _ _ = Ok _ |- _ => apply (mapMi_Ok _ rep_short) in H; [|intros; apply shortString_Ok] end.
    repeat match goal with H : bool_decide _ = true |- _ => apply bool_decide_eq_true in H; subst end.
    repeat match goal with H : negb (bool_decide _) = true |- _ => apply nonempty_Ok in H end.
    cbn [ra_id ra_phase ra_wireAction ra_wireAliases ra_inputs]. split; [|done].
    do 3 eexists. unfold rep_short, wire_labels. split_and!; eauto.
  - intros ((o & la & li & -> & Hk & [Hph Hp] & [[Hid Hsid] Hvid] & [[Hw Hsw] Hnw] &
      (Hla & Hlen & HF & Hnd) & (Hli & Hlen' & HF' & Hnd')) & -> & Hle).
    destruct a as [id phase wireAction wireAliases inputs]; cbn [ra_id ra_phase ra_wireAction ra_wireAliases ra_inputs] in *.
    subst phase. dec_run.
    erewrite bind_lift by (apply string_val_Ok; split; [eassumption|by destruct ph]). dec_run.
    erewrite bind_lift by (apply (require_at_Ok _ _ _ tt), nonempty_Ok; eassumption). dec_run.
    erewrite bind_lift by (apply (mapMi_Ok _ rep_short); [intros; apply shortString_Ok|eassumption]).
    dec_run.
    erewrite bind_run by (eapply (mapMi_from_budget _ (rep_input ph) input_nodes MAX_TYPE_NODES);
      [intros; by apply decodeResolvedInput_spec|done|split; [eassumption|by split]]).
    dec_run. done.
Qed.

Lemma decodeResolvedObservation_spec v p s b s' :
  (s <= MAX_TYPE_NODES)%N ->
  decodeResolvedObservation v p s = Ok (b, s') <->
  rep_observation v b /\ s' = (s + observation_nodes b)%N /\ (s' <= MAX_TYPE_NODES)%N.
Proof.
  intros Hs. unfold decodeResolvedObservation, rep_observation, observation_nodes. split.
  - intros H. dec_inv.
    match goal with H : decodeModelType _ _ _ _ = _ |- _ => apply decodeModelType_spec in H as (? & -> & ?); [|done] end.
    match goal with H : validateModelType _ _ = Ok ?u |- _ => destruct u; apply validateModelType_Ok in H end.
    repeat match goal with H : negb (bool_decide _) = true |- _ => apply nonempty_Ok in H end.
    repeat match goal with H : is_text _ _ = true |- _ => apply is_text_Ok in H end.
    cbn [ro_id ro_wireName ro_type]. split; [|done].
    eexists. unfold rep_short. split_and!; eauto.
  - intros ((o & -> & Hk & [[Hid Hsid] Hvid] & [[Hw Hsw] Hnw] & Hp & Ht & Hv) & -> & Hle).
    destruct b as [id wireName type]; cbn [ro_id ro_wireName ro_type] in *.
    dec_run. erewrite bind_lift by (apply (require_at_Ok _ _ _ tt), nonempty_Ok; eassumption).
    erewrite bind_lift by (apply (require_at_Ok _ _ _ tt), is_text_Ok; eassumption).
    erewrite bind_run by (apply decodeModelType_spec; [done|]; split; [eassumption|done]).
    erewrite bind_lift by (apply validateModelType_Ok; eassumption). done.
Qed.

Definition profile_names : list ustring :=
  [$"actionVariable"; $"configuredParamVar"; $"itfParamVars"; $"effectiveParamVars"].

Definition rep_profile (v : js) (r : ResolvedRunProfile) : Prop :=
  exists o li le, v = JObj o /\ has_keys o profile_names profile_names = true /\
    getf o ($"actionVariable") = JStr ($"action_taken") /\
    match rp_configuredParamVar r with
    | None => getf o ($"configuredParamVar") = JNull
    | Some s => rep_text (getf o ($"configuredParamVar")) s
    end /\
    (getf o ($"itfParamVars") = JArr li /\ Forall2 rep_text li (rp_itfParamVars r) /\
     NoDup (rp_itfParamVars r)) /\
    (getf o ($"effectiveParamVars") = JArr le /\ Forall2 rep_text le (rp_effectiveParamVars r)) /\
    rp_effectiveParamVars r =
      sortedUnique (rp_itfParamVars r ++ option_list (rp_configuredParamVar r)).

Lemma decodeStringOrNull_Ok v p r :
  decodeStringOrNull v p = Ok r <->
  match r with None => v = JNull | Some s => rep_text v s end.
Proof.
  unfold decodeStringOrNull, rep_text. destruct v; try (rewrite fmap_Ok; setoid_rewrite string_val_Ok);
    destruct r; naive_solver.
Qed.

Lemma decodeRunProfile_spec v p r : decodeRunProfile v p = Ok r <-> rep_profile v r.
Proof.
  unfold decodeRunProfile, rep_profile. split.
  - intros H. dec_inv.
    repeat match goal with H : mapMi _ _ = Ok _ |- _ =>
      apply (mapMi_Ok _ rep_text) in H; [|intros; apply string_val_Ok] end.
    repeat match goal with H : is_text _ _ = true |- _ => apply is_text_Ok in H end.
    repeat match goal with H : decodeStringOrNull _ _ = _ |- _ => apply decodeStringOrNull_Ok in H end.
    repeat match goal with H : bool_decide _ = true |- _ => apply bool_decide_eq_true in H end.
    cbn [rp_configuredParamVar rp_itfParamVars rp_effectiveParamVars].
    do 3 eexists. split_and!; eauto.
  - intros (o & li & le & -> & Hk & Ha & Hc & (Hi & HFi & Hnd) & (He & HFe) & Heff).
    destruct r as [conf itf eff]; cbn [rp_configuredParamVar rp_itfParamVars rp_effectiveParamVars] in *.
    dec_run. erewrite bind_ok by (apply (require_at_Ok _ _ _ tt), is_text_Ok; eassumption).
    erewrite bind_ok by (apply decodeStringOrNull_Ok; eassumption). dec_run.
    erewrite bind_ok by (apply (mapMi_Ok _ rep_text); [intros; apply string_val_Ok|eassumption]). dec_run.
    erewrite bind_ok by (apply (mapMi_Ok _ rep_text); [intros; apply string_val_Ok|eassumption]).
    rewrite Heff. dec_run. done.
Qed.

Definition rep_parts (o : object_t)
  (parts : list ResolvedAction * list ResolvedAction * list ResolvedObservation) : Prop :=
  exists li la lo,
    (getf o ($"initializers") = JArr li /\ length li <> 0%nat /\ (length li <= 32)%nat /\
     Forall2 (rep_action Initialize) li parts.1.1) /\
    (getf o ($"actions") = JArr la /\ (length la <= 256)%nat /\
     Forall2 (rep_action Transition) la parts.1.2) /\
    (NoDup (map ra_id (parts.1.1 ++ parts.1.2)) /\
     NoDup (flat_map wire_labels (parts.1.1 ++ parts.1.2))) /\
    (getf o ($"observations") = JArr lo /\ (length lo <= 1024)%nat /\
     Forall2 rep_observation lo parts.2 /\
     NoDup (map ro_id parts.2) /\ NoDup (map ro_wireName parts.2)).

Definition parts_nodes (parts : list ResolvedAction * list ResolvedAction * list ResolvedObservation) : N :=
  (sum_by action_nodes parts.1.1 + sum_by action_nodes parts.1.2 + sum_by observation_nodes parts.2)%N.

Lemma decodeParts_spec o p parts s' :
  decodeParts o p 0%N = Ok (parts, s') <->
  rep_parts o parts /\ s' = parts_nodes parts /\ (s' <= MAX_TYPE_NODES)%N.
Proof.
  unfold decodeParts, rep_parts, parts_nodes. split.
  - intros H. dec_inv.
    repeat match goal with
    | H : mapMi _ _ 0%N = Ok _ |- _ =>
        apply (mapMi_from_budget _ (rep_action Initialize) action_nodes MAX_TYPE_NODES) in H as (? & -> & ?);
          [|intros; by apply decodeResolvedAction_spec|done]
    | H : mapMi _ _ (0 + _)%N = Ok _ |- _ =>
        apply (mapMi_from_budget _ (rep_action Transition) action_nodes MAX_TYPE_NODES) in H as (? & -> & ?);
          [|intros; by apply decodeResolvedAction_spec|done]
    | H : mapMi _ _ (_ + _)%N = Ok _ |- _ =>
        apply (mapMi_from_budget _ rep_observation observation_nodes MAX_TYPE_NODES) in H as (? & -> & ?);
          [|intros; by apply decodeResolvedObservation_spec|done]
    end.
    cbn [fst snd]. split; [|lia]. do 3 eexists.
    split_and!; eauto. destruct (Nat.eqb_spec (length x) 0); [done|lia].
  - intros ((li & la & lo & (Hi & Hi0 & Hi32 & HFi) & (Ha & Hal & HFa) & (Hnd1 & Hnd2) &
      (Ho & Hol & HFo & Hnd3 & Hnd4)) & -> & Hle).
    destruct parts as [[inits acts] obs]; cbn [fst snd] in *.
    dec_run. erewrite bind_lift by (apply (require_at_Ok _ _ _ tt); destruct (Nat.eqb_spec (length li) 0); [lia|reflexivity]).
    dec_run.
    erewrite bind_run by (eapply (mapMi_from_budget _ (rep_action Initialize) action_nodes MAX_TYPE_NODES);
      [intros; by apply decodeResolvedAction_spec|done|split; [eassumption|split; [reflexivity|lia]]]).
    dec_run.
    erewrite bind_run by (eapply (mapMi_from_budget _ (rep_action Transition) action_nodes MAX_TYPE_NODES);
      [intros; by apply decodeResolvedAction_spec|lia|split; [eassumption|split; [reflexivity|lia]]]).
    dec_run.
    erewrite bind_run by (eapply (mapMi_from_budget _ rep_observation observation_nodes MAX_TYPE_NODES);
      [intros; by apply decodeResolvedObservation_spec|lia|split; [eassumption|split; [reflexivity|lia]]]).
    dec_run. apply stres_ret_Ok. split; [done|lia].
Qed.

Definition parts_of (d : SemanticDescriptor) :=
  (sd_initializers d, sd_actions d, sd_observations d).

Definition rep_descriptor (v : js) (d : SemanticDescriptor) : Prop :=
  exists o m, v = JObj o /\ has_keys o descriptor_names descriptor_names = true /\
    getf o ($"schema") = JStr DESCRIPTOR_SCHEMA /\
    (rep_short (getf o ($"interfaceVersion")) (sd_interfaceVersion d) /\
     validInterfaceVersion (sd_interfaceVersion d) = true) /\
    (getf o ($"model") = JObj m /\ has_keys m [$"module"] [$"module"] = true /\
     rep_short (getf m ($"module")) (sd_module d) /\ validModuleName (sd_module d) = true) /\
    getf o ($"resolverSemanticsVersion") = JStr RESOLVER_SEMANTICS_VERSION /\
    getf o ($"comparisonPolicyVersion") = JStr COMPARISON_POLICY_VERSION /\
    rep_profile (getf o ($"runProfile")) (sd_runProfile d) /\
    rep_parts o (parts_of d).

(** The limits on the whole. *)
Definition within_limits (d : SemanticDescriptor) : Prop :=
  (parts_nodes (parts_of d) <= MAX_TYPE_NODES)%N /\
  exists text, compressCanonicalJson (canonicalDescriptorValue d) = Ok text /\
    (byteLength text <= MAX_DESCRIPTOR_BYTES)%N.

Lemma with_budget_Ok {A} (m : stres N exn A) a :
  with_budget m = Ok a <-> exists n, m 0%N = Ok (a, n).
Proof.
  unfold with_budget. rewrite fmap_Ok. split.
  - intros ([a' n] & H & ->). eauto.
  - intros (n & H). by exists (a, n).
Qed.

Lemma decodeSemanticDescriptorValue_spec v d :
  decodeSemanticDescriptorValue v = Ok d <-> rep_descriptor v d /\ within_limits d.
Proof.
  unfold decodeSemanticDescriptorValue, rep_descriptor, within_limits. split.
  - intros H. dec_inv.
    match goal with H : with_budget _ = _ |- _ => apply with_budget_Ok in H as (n & (? & -> & ?)%decodeParts_spec) end.
    match goal with H : decodeRunProfile _ _ = _ |- _ => apply decodeRunProfile_spec in H end.
    repeat match goal with H : is_text _ _ = true |- _ => apply is_text_Ok in H end.
    match goal with H : negb _ = true |- _ => apply negb_true_iff, N.ltb_ge in H end.
    match goal with H : rep_parts _ ?p |- _ => destruct p as [[? ?] ?] end.
    unfold parts_of.
    cbn [fst snd sd_interfaceVersion sd_module sd_runProfile sd_initializers sd_actions sd_observations] in *.
    split; [|eauto]. do 2 eexists. unfold rep_short. split_and!; eauto.
  - intros ((o & m & -> & Hk & Hs & [[Hv Hsv] Hvv] & (Hm & Hkm & [Hn Hsn] & Hvm) & Hr & Hc & Hp & Hparts) &
      Hle & text & Htext & Hbytes).
    destruct d as [iv module profile inits acts obs]. unfold parts_of in *.
    cbn [sd_interfaceVersion sd_module sd_runProfile sd_initializers sd_actions sd_observations] in *.
    dec_run. erewrite bind_ok by (apply (require_at_Ok _ _ _ tt), is_text_Ok; eassumption).
    dec_run. erewrite bind_ok by (apply exactObject_Ok; split; eassumption).
    dec_run. erewrite bind_ok by (apply (require_at_Ok _ _ _ tt), is_text_Ok; eassumption).
    erewrite bind_ok by (apply (require_at_Ok _ _ _ tt), is_text_Ok; eassumption).
    erewrite bind_ok by (apply decodeRunProfile_spec; eassumption).
    erewrite bind_ok by (apply with_budget_Ok; eexists; apply decodeParts_spec; split; [eassumption|by split]).
    cbn [fst snd]. erewrite bind_ok by eassumption.
    erewrite bind_ok by (apply (require_at_Ok _ _ _ tt), negb_true_iff, N.ltb_ge; eassumption).
    done.
Qed.

(** ** Objects that write their own value *)

(** Equations between computed values, and facts of the context. *)
Ltac easy_eq :=
  match goal with
  | |- getf _ _ = _ => cbn [getf]; lit_simp; reflexivity
  | |- has_keys _ _ _ = true => vm_compute; reflexivity
  | |- phase_name _ = _ => reflexivity
  | |- ?x = ?x => is_var x; reflexivity
  | |- short _ => assumption
  | |- NoDup _ => assumption
  | |- _ <> _ => assumption
  | |- type_valid _ => assumption
  | |- validStableId _ = true => assumption
  | |- validModuleName _ = true => assumption
  | |- validInterfaceVersion _ = true => assumption
  | |- expectedRoot _ = _ => reflexivity
  | |- rp_effectiveParamVars _ = _ => assumption
  end.

Lemma Forall2_js {A} (R : js -> A -> Prop) (f : A -> js) l ts :
  (forall v t, R v t -> R (f t) t) -> Forall2 R l ts -> Forall2 R (map f ts) ts.
Proof. intros H HF. eapply Forall2_map_rep; [|exact HF]. eauto. Qed.
