(* ===== verification/DescriptorReorder.v ===== *)
(** * Reordering a descriptor

    [descriptor_reorders d e]: [e] is [d] with its actions, initializers,
    observations, inputs, aliases, parameter variables and the unordered parts
    of its types and literals in another order. The canonical value is the same
    for every reordering, and itself writes one. *)

From S2P Require Import Prelude JsNumber Utf16 JsData StrictJson StrictJsonFacts StrictJsonRoundtrip Decode ModelTypes Canonical Descriptor DescriptorFacts.

Definition input_reorders (i j : ResolvedInput) : Prop :=
  ri_id i = ri_id j /\ ri_root i = ri_root j /\
  Forall2 path_reorders (ri_path i) (ri_path j) /\ type_reorders (ri_type i) (ri_type j).

Definition action_reorders (a b : ResolvedAction) : Prop :=
  ra_id a = ra_id b /\ ra_phase a = ra_phase b /\ ra_wireAction a = ra_wireAction b /\
  ra_wireAliases a ≡ₚ ra_wireAliases b /\ perm_by input_reorders (ra_inputs a) (ra_inputs b).

Definition observation_reorders (a b : ResolvedObservation) : Prop :=
  ro_id a = ro_id b /\ ro_wireName a = ro_wireName b /\ type_reorders (ro_type a) (ro_type b).

Definition profile_reorders (r s : ResolvedRunProfile) : Prop :=
  rp_configuredParamVar r = rp_configuredParamVar s /\
  rp_itfParamVars r ≡ₚ rp_itfParamVars s /\
  rp_effectiveParamVars r ≡ₚ rp_effectiveParamVars s.

Definition descriptor_reorders (d e : SemanticDescriptor) : Prop :=
  sd_interfaceVersion d = sd_interfaceVersion e /\ sd_module d = sd_module e /\
  profile_reorders (sd_runProfile d) (sd_runProfile e) /\
  perm_by action_reorders (sd_initializers d) (sd_initializers e) /\
  perm_by action_reorders (sd_actions d) (sd_actions e) /\
  perm_by observation_reorders (sd_observations d) (sd_observations e).

(** ** Sorting by stable IDs *)

Lemma stable_id_js s : validStableId s = true -> js_string s.
Proof.
  destruct s as [|c s]; [done|]. cbn. intros [Hc Hs]%andb_true_iff.
  constructor; [unfold is_upper in Hc; lia|].
  apply Forall_forall. intros x Hx. rewrite forallb_forall in Hs.
  apply list_elem_of_In in Hx. apply Hs in Hx.
  unfold is_alnum, is_upper, is_lower, is_digit in Hx. lia.
Qed.

(** Sorting by a key that tells the elements apart forgets their order. *)
Lemma sort_by_key_NoDup {A} (text : A -> ustring) l1 l2 :
  Forall (fun x => js_string (text x)) l1 -> NoDup (map text l1) -> l1 ≡ₚ l2 ->
  sort_by (by_key text) l1 = sort_by (by_key text) l2.
Proof.
  intros Hj Hnd. apply sort_by_key_perm. intros x y Hx Hy He.
  rewrite Forall_forall in Hj. apply code_points_inj in He; [|by apply Hj..].
  by apply (NoDup_map_inj text l1).
Qed.

Lemma canonical_sorted_perm {A} (text : A -> ustring) (g : A -> js) l1 l2 :
  Forall (fun x => js_string (text x)) l1 -> NoDup (map text l1) ->
  perm_by (fun x y => text x = text y /\ g x = g y) l1 l2 ->
  map g (sort_by (by_key text) l1) = map g (sort_by (by_key text) l2).
Proof.
  intros Hj Hnd (l & HF & Hp).
  assert (map text l1 = map text l) as Ht by (eapply Forall2_map_eq; [|exact HF]; by intros ? ? [? _]).
  rewrite <- (sort_by_key_NoDup text l l2); [|..|done].
  - eapply (Forall2_map_eq (fun x y => text x = text y /\ g x = g y)); [by intros ? ? [_ ?]|].
    apply Forall2_sort_by; [|done]. intros ? ? ? ? [H1 _] [H2 _]. unfold by_key. by rewrite H1, H2.
  - clear -HF Hj. induction HF as [|x y l1 l [Hxy _] _ IH]; constructor.
    + apply Forall_cons in Hj as [Hj _]. by rewrite <- Hxy.
    + apply IH. by apply Forall_cons in Hj as [_ ?].
  - by rewrite <- Ht.
Qed.

Lemma rep_sorted_perm {A} (text : A -> ustring) (g : A -> js) (R : A -> A -> Prop)
  (rep : js -> A -> Prop) l1 l :
  Forall2 (fun x y => R x y /\ text x = text y /\ rep (g x) y) l1 l ->
  perm_by R l1 (sort_by (by_key text) l) /\
  Forall2 rep (map g (sort_by (by_key text) l1)) (sort_by (by_key text) l).
Proof.
  intros HF. split.
  - exists l. split; [|symmetry; apply sort_by_Permutation].
    eapply Forall2_impl; [exact HF|]. naive_solver.
  - apply Forall2_fmap_l.
    apply (Forall2_impl (fun x y => R x y /\ text x = text y /\ rep (g x) y)); [|naive_solver].
    apply Forall2_sort_by; [|done].
    intros ? ? ? ? (_ & H1 & _) (_ & H2 & _). unfold by_key. by rewrite H1, H2.
Qed.

Lemma perm_by_impl {A B} (R S : A -> B -> Prop) (P : A -> Prop) l1 l2 :
  (forall a b, P a -> R a b -> S a b) -> Forall P l1 -> perm_by R l1 l2 -> perm_by S l1 l2.
Proof.
  intros H HP (l & HF & Hp). exists l. split; [|done]. clear Hp.
  revert HP. induction HF; intros HP; apply Forall_cons in HP || clear HP; constructor; naive_solver.
Qed.

(** Sorting texts. *)
Lemma sort_texts_perm l1 l2 :
  Forall js_string l1 -> l1 ≡ₚ l2 ->
  sort_by compareUnicodeScalars l1 = sort_by compareUnicodeScalars l2.
Proof.
  intros Hj. apply (sort_by_key_perm (fun s => s)). intros x y Hx Hy He.
  rewrite Forall_forall in Hj. apply code_points_inj; auto.
Qed.

(** ** Plain values of the parts *)

Lemma plain_sub a o k f : plain (S a) (JObj o) -> getf o k = JObj f -> exists b, a = S b /\ plain (S b) (JObj f).
Proof.
  intros H Hk. pose proof (plain_getf _ _ _ _ H Hk ltac:(done)) as Hf.
  destruct (plain_obj _ _ Hf) as [b ->]. eauto.
Qed.

Lemma rep_short_js b v s : rep_short v s -> plain b v -> js_string s.
Proof. intros [-> _] H. inversion H as [| | |? ? [_ ?]| |]; by subst. Qed.

Lemma rep_text_js b v s : rep_text v s -> plain b v -> text_ok s.
Proof. intros [-> Hw] H. inversion H as [| | |? ? [_ ?]| |]; by subst. Qed.

Lemma Forall2_plain_impl {A} (R : js -> A -> Prop) (P : A -> Prop) b l ts :
  (forall v t, R v t -> plain b v -> P t) -> Forall2 R l ts -> Forall (plain b) l -> Forall P ts.
Proof. intros H. induction 1; intros Hp; constructor; apply Forall_cons in Hp as [? ?]; eauto. Qed.

(** ** The canonical value of a reordering *)

Lemma canonical_input_reorders ph a v i j :
  input_reorders i j -> rep_input ph v i -> plain a v ->
  canonicalResolvedInputValue i = canonicalResolvedInputValue j.
Proof.
  intros (Hid & Hroot & Hpath & Ht) (o & f & l & -> & _ & _ & (Hf & _ & _ & _) & (Hl & _ & HF) & Htype & _) Hp.
  destruct (plain_obj _ _ Hp) as [b ->].
  destruct (plain_sub _ _ _ _ Hp Hf) as (c & -> & Hpf).
  destruct (plain_arr _ _ _ _ Hpf Hl) as (e & -> & He).
  unfold canonicalResolvedInputValue. rewrite Hid, Hroot.
  rewrite (canonical_type_reorders _ _ _ _ Ht Htype).
  assert (map canonicalPathSegmentValue (ri_path i) = map canonicalPathSegmentValue (ri_path j)) as ->; [|done].
  eapply Forall2_map_eq; [|eapply Forall2_join; [eapply (Forall2_plain _ e); eassumption|exact Hpath]].
  cbn. intros ? ? (? & ? & ? & ?). by eapply canonical_path_reorders.
Qed.

Lemma canonical_action_reorders ph c v a b :
  action_reorders a b -> rep_action ph v a -> plain c v ->
  canonicalResolvedActionValue a = canonicalResolvedActionValue b.
Proof.
  intros (Hid & Hph & Hw & Hal & Hin) (o & la & li & -> & _ & _ & _ & _ & (Hla & _ & HFa & Hnd) & (Hli & _ & HFi & Hndi)) Hp.
  destruct (plain_obj _ _ Hp) as [n ->].
  destruct (plain_arr _ _ _ _ Hp Hla) as (e & -> & Hea).
  destruct (plain_arr _ _ _ _ Hp Hli) as (e' & [= <-] & Hei).
  unfold canonicalResolvedActionValue. rewrite Hid, Hph, Hw.
  rewrite (sort_texts_perm (ra_wireAliases a) (ra_wireAliases b)); [| |done].
  2: { eapply Forall2_plain_impl; [|exact HFa|exact Hea]. intros. by eapply rep_short_js. }
  rewrite (canonical_sorted_perm ri_id _ (ra_inputs a) (ra_inputs b)); [done| |done|].
  - eapply Forall2_plain_impl; [|exact HFi|exact Hei].
    intros ? ? (? & ? & ? & _ & _ & [_ Hv] & _) _. by apply stable_id_js.
  - eapply (perm_by_impl _ _ (fun i => exists v, rep_input ph v i /\ plain e v)); [|..|exact Hin].
    + intros i j (w & Hw' & Hpl) Hij. split; [apply Hij|]. by eapply canonical_input_reorders.
    + eapply Forall2_plain_impl; [|exact HFi|exact Hei]. eauto.
Qed.

Lemma canonical_observation_reorders v a b :
  observation_reorders a b -> rep_observation v a ->
  canonicalResolvedObservationValue a = canonicalResolvedObservationValue b.
Proof.
  intros (Hid & Hw & Ht) (o & -> & _ & _ & _ & _ & Hty & _).
  unfold canonicalResolvedObservationValue. rewrite Hid, Hw.
  by rewrite (canonical_type_reorders _ _ _ _ Ht Hty).
Qed.

Lemma canonical_actions_reorder ph c l ls ks :
  Forall2 (rep_action ph) l ls -> Forall (plain c) l -> NoDup (map ra_id ls) ->
  perm_by action_reorders ls ks ->
  map canonicalResolvedActionValue (sort_by (by_key ra_id) ls) =
  map canonicalResolvedActionValue (sort_by (by_key ra_id) ks).
Proof.
  intros HF Hp Hnd Hr. apply canonical_sorted_perm; [|done|].
  - eapply Forall2_plain_impl; [|exact HF|exact Hp].
    intros ? ? (? & ? & ? & _ & _ & _ & [_ Hv] & _) _. by apply stable_id_js.
  - eapply (perm_by_impl _ _ (fun i => exists v, rep_action ph v i /\ plain c v)); [|..|exact Hr].
    + intros i j (w & Hw' & Hpl) Hij. split; [apply Hij|]. by eapply canonical_action_reorders.
    + eapply Forall2_plain_impl; [|exact HF|exact Hp]. eauto.
Qed.

Lemma canonical_descriptor_reorders c v d e :
  descriptor_reorders d e -> rep_descriptor v d -> plain c v ->
  canonicalDescriptorValue d = canonicalDescriptorValue e.
Proof.
  intros (Hiv & Hm & (Hcf & Hitf & Heff) & Hini & Hact & Hobs)
    (o & m & -> & _ & _ & _ & _ & _ & _ & Hprof & (li & la & lo & (Hli & _ & _ & HFi) & (Hla & _ & HFa)
      & (Hnd & _) & (Hlo & _ & HFo & Hndo & _))) Hp.
  destruct (plain_obj _ _ Hp) as [n ->].
  destruct (plain_arr _ _ _ _ Hp Hli) as (k & -> & Hpi).
  destruct (plain_arr _ _ _ _ Hp Hla) as (? & [= <-] & Hpa).
  unfold parts_of in *; cbn [fst snd] in *.
  rewrite map_app in Hnd. apply NoDup_app in Hnd as (Hnd1 & _ & Hnd2).
  destruct Hprof as (po & pi & pe & Hpo & _ & _ & _ & (Hpi' & HFpi & _) & (Hpe & HFpe) & _).
  destruct (plain_sub _ _ _ _ Hp Hpo) as (b & [= ->] & Hpp).
  destruct (plain_arr _ _ _ _ Hpp Hpi') as (b' & -> & Hppi).
  destruct (plain_arr _ _ _ _ Hpp Hpe) as (? & [= <-] & Hppe).
  unfold canonicalDescriptorValue. rewrite Hiv, Hm, Hcf.
  rewrite (canonical_actions_reorder _ _ _ _ _ HFi Hpi Hnd1 Hini).
  rewrite (canonical_actions_reorder _ _ _ _ _ HFa Hpa Hnd2 Hact).
  rewrite (sort_texts_perm _ _ ltac:(eapply Forall2_plain_impl; [|exact HFpi|exact Hppi]; intros; by eapply rep_text_js) Hitf).
  rewrite (sort_texts_perm _ _ ltac:(eapply Forall2_plain_impl; [|exact HFpe|exact Hppe]; intros; by eapply rep_text_js) Heff).
  rewrite (canonical_sorted_perm ro_id _ (sd_observations d) (sd_observations e)); [done| |done|].
  - eapply Forall2_Forall_right; [|exact HFo].
    intros ? ? (? & _ & _ & [_ Hv] & _). by apply stable_id_js.
  - eapply (perm_by_impl _ _ (fun i => exists v, rep_observation v i)); [|..|exact Hobs].
    + intros i j (w & Hw') Hij. split; [apply Hij|]. by eapply canonical_observation_reorders.
    + eapply Forall2_Forall_right; [|exact HFo]. eauto.
Qed.

(** ** Reordering keeps the sizes and the validity *)

Lemma sum_by_perm {A} (w : A -> N) l1 l2 : l1 ≡ₚ l2 -> sum_by w l1 = sum_by w l2.
Proof. induction 1; cbn; lia. Qed.

Lemma sum_by_Forall2 {A B} (R : A -> B -> Prop) (w : A -> N) (w' : B -> N) l1 l2 :
  (forall a b, R a b -> w a = w' b) -> Forall2 R l1 l2 -> sum_by w l1 = sum_by w' l2.
Proof. intros H. induction 1 as [|? ? ? ? Hab _ IH]; cbn; [done|]. by rewrite (H _ _ Hab), IH. Qed.

Lemma sum_by_perm_by {A} (R : A -> A -> Prop) (w : A -> N) l1 l2 :
  (forall a b, R a b -> w a = w b) -> perm_by R l1 l2 -> sum_by w l1 = sum_by w l2.
Proof. intros H (l & HF & Hp). rewrite <- (sum_by_perm _ _ _ Hp). by eapply sum_by_Forall2. Qed.

Lemma same_by_perm {A K} `{EqDecision K} (key : A -> K) l1 l2 : same_by key l1 l2 -> l1 ≡ₚ l2.
Proof.
  revert l2. induction l1 as [|x l1 IH]; intros l2 Hs.
  - destruct l2 as [|y l2]; [done|]. specialize (Hs (key y)).
    rewrite filter_cons, decide_True in Hs by done. done.
  - assert (x ∈ l2) as Hx by (eapply same_by_elem; [done|by left]).
    assert (exists a b, l2 = a ++ x :: b /\ Forall (fun y => key y <> key x) a) as (a & b & -> & Ha).
    { specialize (Hs (key x)). rewrite filter_cons, decide_True in Hs by done. clear IH Hx.
      induction l2 as [|y l2 IH]; [done|]. rewrite filter_cons in Hs.
      destruct (decide (key y = key x)) as [Hk|Hk].
      - injection Hs as <- _. by exists [], l2.
      - destruct (IH Hs) as (a & b & -> & Ha). exists (y :: a), b. split; [done|]. by constructor. }
    rewrite <- Permutation_middle. constructor. apply IH. intros k. specialize (Hs k).
    rewrite filter_app, !filter_cons in *. destruct (decide (key x = k)) as [<-|]; [|done].
    assert (filter (fun y => key y = key x) a = []) as E.
    { clear Hs IH Hx. induction Ha; [done|]. rewrite filter_cons, decide_False by done. done. }
    rewrite E in *. cbn in *. congruence.
Qed.

Lemma type_reorders_nodes t u : type_reorders t u -> type_nodes t = type_nodes u.
Proof.
  revert u. induction t as [| | | |t IH|t IH|ts IH|fs IH|k t IHk IHt|cs IH|s] using ModelType_ind';
    intros u H; inversion H as [| | |? us HF|? gs hs HF Hs| |? gs hs HF Hs]; subst; cbn; try done; try f_equal; eauto.
  - clear H. revert IH. induction HF; intros IH; [done|]. apply Forall_cons in IH as [? ?].
    cbn. f_equal; eauto.
  - rewrite <- (sum_by_perm _ _ _ (same_by_perm _ _ _ Hs)). clear H Hs.
    revert IH. induction HF as [|? ? ? ? [? ?] _ IHF]; intros IH; [done|]. apply Forall_cons in IH as [? ?].
    cbn. f_equal; eauto.
  - f_equal; eauto.
  - rewrite <- (sum_by_perm _ _ _ (same_by_perm _ _ _ Hs)). clear H Hs.
    revert IH. induction HF as [|? ? ? ? [? ?] _ IHF]; intros IH; [done|]. apply Forall_cons in IH as [? ?].
    cbn. f_equal; eauto.
Qed.

Lemma type_reorders_valid t u : type_reorders t u -> type_valid t -> type_valid u.
Proof.
  revert u. induction t as [| | | |t IH|t IH|ts IH|fs IH|k t IHk IHt|cs IH|s] using ModelType_ind';
    intros u H Hv; inversion H as [| | |? us HF|? gs hs HF Hs| |? gs hs HF Hs]; subst; try done;
    inversion Hv; subst; try (constructor; eauto; fail).
  - constructor. clear H Hv. revert IH H1. induction HF; intros IH H1; constructor;
      apply Forall_cons in IH as [? ?]; apply Forall_cons in H1 as [? ?]; eauto.
  - assert (map fst fs = map fst gs) as E by (eapply Forall2_map_eq; [|exact HF]; by intros ? ? [? _]).
    pose proof (same_by_perm _ _ _ Hs) as Hp.
    constructor; [by rewrite <- Hp, <- E..|]. rewrite <- Hp. clear H Hv Hs Hp E.
    revert IH H3. clear -HF. induction HF as [|? ? ? ? [? ?] _ IHF]; intros IH H3; constructor;
      apply Forall_cons in IH as [? ?]; apply Forall_cons in H3 as [? ?]; eauto.
  - assert (map fst cs = map fst gs) as E by (eapply Forall2_map_eq; [|exact HF]; by intros ? ? [? _]).
    pose proof (same_by_perm _ _ _ Hs) as Hp.
    constructor; [by rewrite <- Hp, <- E..|]. rewrite <- Hp. clear H Hv Hs Hp E.
    revert IH H3. clear -HF. induction HF as [|? ? ? ? [? ?] _ IHF]; intros IH H3; constructor;
      apply Forall_cons in IH as [? ?]; apply Forall_cons in H3 as [? ?]; eauto.
Qed.

(** ** The canonical value writes a reordering *)

Ltac len_same HF := rewrite ?length_fmap, ?length_map, ?sort_by_length, <- ?(Forall2_length _ _ _ HF).

Lemma canonical_input_rep ph a v i :
  rep_input ph v i -> plain a v ->
  exists j, input_reorders i j /\ rep_input ph (canonicalResolvedInputValue i) j.
Proof.
  intros (o & f & l & -> & _ & [[Hid Hsid] Hvid] & (Hf & _ & Hroot & Hr) & (Hl & Hlen & HF) & Ht & Hv) Hp.
  destruct (plain_obj _ _ Hp) as [b ->].
  destruct (plain_sub _ _ _ _ Hp Hf) as (c & -> & Hpf).
  destruct (plain_arr _ _ _ _ Hpf Hl) as (e & -> & He).
  destruct (canonical_type_rep _ _ _ Ht) as (u & Hu & Hru).
  assert (exists us, Forall2 (fun s s' => path_reorders s s' /\ rep_path (canonicalPathSegmentValue s) s')
    (ri_path i) us) as (us & Hus).
  { eapply Forall2_choose; [|eapply (Forall2_plain _ e); eassumption]. cbn.
    intros ? ? [? ?]. by eapply canonical_path_rep. }
  exists (MkInput (ri_id i) (ri_root i) us u). split.
  { split_and!; try done. eapply Forall2_impl; [exact Hus|]. naive_solver. }
  do 3 eexists. split; [reflexivity|]. cbn [ri_id ri_root ri_path ri_type].
  split_and!; try reflexivity; try done.
  - rewrite Hr. by destruct ph.
  - by len_same HF.
  - apply Forall2_fmap_l. eapply Forall2_impl; [exact Hus|]. naive_solver.
  - by eapply type_reorders_valid.
Qed.

Lemma rep_strings_sorted (P : js -> ustring -> Prop) (Q : ustring -> Prop) l ss :
  (forall v s, P v s <-> v = JStr s /\ Q s) ->
  Forall2 P l ss -> Forall2 P (map JStr (sort_by compareUnicodeScalars ss)) (sort_by compareUnicodeScalars ss).
Proof.
  intros HP HF. apply Forall2_fmap_l. apply Forall_Forall2_diag, Forall_sort_by.
  eapply Forall2_Forall_right; [|exact HF]. intros v s [_ ?]%HP. by apply HP.
Qed.

Lemma action_labels_perm a b : action_reorders a b -> wire_labels a ≡ₚ wire_labels b.
Proof. intros (_ & _ & Hw & Hal & _). unfold wire_labels. by rewrite Hw, Hal. Qed.

Lemma canonical_action_rep ph c v a :
  rep_action ph v a -> plain c v ->
  exists b, action_reorders a b /\ rep_action ph (canonicalResolvedActionValue a) b.
Proof.
  intros (o & la & li & -> & _ & [Hph Hpha] & [[Hid Hsid] Hvid] & [[Hw Hsw] Hnw] &
    (Hla & Hlena & HFa & Hnd) & (Hli & Hleni & HFi & Hndi)) Hp.
  destruct (plain_obj _ _ Hp) as [n ->].
  destruct (plain_arr _ _ _ _ Hp Hli) as (e & -> & Hei).
  assert (exists ks, Forall2 (fun i j => input_reorders i j /\ ri_id i = ri_id j /\
    rep_input ph (canonicalResolvedInputValue i) j) (ra_inputs a) ks) as (ks & His).
  { eapply Forall2_choose; [|eapply (Forall2_plain _ e); eassumption]. cbn.
    intros ? ? [? ?]. edestruct canonical_input_rep as (j & Hj & ?); [done..|]. exists j.
    split; [done|]. split; [apply Hj|done]. }
  apply rep_sorted_perm in His as [Hperm HF].
  exists (MkAction (ra_id a) (ra_phase a) (ra_wireAction a)
    (sort_by compareUnicodeScalars (ra_wireAliases a)) (sort_by (by_key ri_id) ks)).
  assert (action_reorders a (MkAction (ra_id a) (ra_phase a) (ra_wireAction a)
    (sort_by compareUnicodeScalars (ra_wireAliases a)) (sort_by (by_key ri_id) ks))) as Hr.
  { split_and!; try done. symmetry. apply sort_by_Permutation. }
  split; [exact Hr|].
  do 3 eexists. split; [reflexivity|]. cbn [ra_id ra_phase ra_wireAction ra_wireAliases ra_inputs].
  split_and!; try reflexivity; try done.
  - by rewrite Hpha.
  - by len_same HFa.
  - by apply (rep_strings_sorted rep_short short la).
  - by rewrite <- (action_labels_perm _ _ Hr).
  - by len_same HFi.
  - assert (map ri_id (ra_inputs a) ≡ₚ map ri_id (sort_by (by_key ri_id) ks)) as <-; [|done].
    eapply (perm_by_map_NoDup input_reorders); [|exact Hperm]. by intros ? ? [? _].
Qed.

Lemma canonical_observation_rep v b :
  rep_observation v b ->
  exists b', observation_reorders b b' /\ rep_observation (canonicalResolvedObservationValue b) b'.
Proof.
  intros (o & -> & _ & [[Hid Hsid] Hvid] & [[Hw Hsw] Hnw] & Hp & Ht & Hv).
  destruct (canonical_type_rep _ _ _ Ht) as (u & Hu & Hru).
  exists (MkObservation (ro_id b) (ro_wireName b) u). split; [by split_and!|].
  eexists. split; [reflexivity|]. cbn [ro_id ro_wireName ro_type].
  split_and!; try reflexivity; try done. by eapply type_reorders_valid.
Qed.

Lemma canonical_actions_rep ph c l ls :
  Forall2 (rep_action ph) l ls -> Forall (plain c) l ->
  exists ks, perm_by action_reorders ls ks /\
    Forall2 (rep_action ph) (map canonicalResolvedActionValue (sort_by (by_key ra_id) ls)) ks.
Proof.
  intros HF Hp.
  assert (exists ks, Forall2 (fun a b => action_reorders a b /\ ra_id a = ra_id b /\
    rep_action ph (canonicalResolvedActionValue a) b) ls ks) as (ks & Hks).
  { eapply Forall2_choose; [|eapply (Forall2_plain _ c); eassumption]. cbn.
    intros ? ? [? ?]. edestruct canonical_action_rep as (j & Hj & ?); [done..|]. exists j.
    split; [done|]. split; [apply Hj|done]. }
  apply rep_sorted_perm in Hks. eauto.
Qed.

(** ** The run profile *)

Lemma set_values_spec l : NoDup (set_values l) /\ forall x, x ∈ set_values l <-> x ∈ l.
Proof.
  unfold set_values.
  enough (forall acc, NoDup acc ->
    NoDup (foldl (fun acc x => if bool_decide (x ∈ acc) then acc else acc ++ [x]) acc l) /\
    forall x, x ∈ foldl (fun acc x => if bool_decide (x ∈ acc) then acc else acc ++ [x]) acc l <->
              x ∈ acc \/ x ∈ l) as H.
  { destruct (H [] (NoDup_nil_2)) as [H1 H2]. split; [done|]. intros x. rewrite H2, elem_of_nil. tauto. }
  induction l as [|y l IH]; intros acc Hacc; cbn.
  - split; [done|]. intros x. rewrite elem_of_nil. tauto.
  - case_bool_decide as Hy.
    + destruct (IH acc Hacc) as [H1 H2]. split; [done|]. intros x. rewrite H2, elem_of_cons.
      naive_solver.
    + destruct (IH (acc ++ [y])) as [H1 H2].
      { apply NoDup_app. split; [done|]. split; [set_solver|]. apply NoDup_singleton. }
      split; [done|]. intros x. rewrite H2. set_solver.
Qed.

Lemma sortedUnique_perm l1 l2 :
  Forall js_string l1 -> l1 ≡ₚ l2 -> sortedUnique l1 = sortedUnique l2.
Proof.
  intros Hj Hp. destruct (set_values_spec l1) as [N1 E1], (set_values_spec l2) as [N2 E2].
  apply sort_texts_perm.
  - apply Forall_forall. intros x Hx%E1. rewrite Forall_forall in Hj. by apply Hj.
  - apply NoDup_Permutation; [done..|]. intros x. by rewrite E1, E2, Hp.
Qed.

Lemma sortedUnique_sorted l :
  sort_by compareUnicodeScalars (sortedUnique l) = sortedUnique l.
Proof.
  apply (ordered_same_eq code_points compareUnicodeScalars).
  - intros. apply compare_lists_Eq.
  - intros. apply compareUnicodeScalars_op.
  - apply sort_by_ordered; [intros; apply compareUnicodeScalars_op|intros ? ? ?; apply compareUnicodeScalars_trans].
  - apply sort_by_ordered; [intros; apply compareUnicodeScalars_op|intros ? ? ?; apply compareUnicodeScalars_trans].
  - symmetry. apply sort_by_stable. intros. apply compare_lists_Eq.
Qed.

Lemma canonical_profile_rep c v r :
  rep_profile v r -> plain c v ->
  exists s, profile_reorders r s /\ rep_profile
    (JObj [($"actionVariable", JStr ($"action_taken"));
           ($"configuredParamVar", opt_js (rp_configuredParamVar r));
           ($"effectiveParamVars", strings_js (sort_by compareUnicodeScalars (rp_effectiveParamVars r)));
           ($"itfParamVars", strings_js (sort_by compareUnicodeScalars (rp_itfParamVars r)))]) s.
Proof.
  intros (o & li & le & -> & _ & _ & Hc & (Hi & HFi & Hnd) & (He & HFe) & Heff) Hp.
  destruct (plain_obj _ _ Hp) as [n ->].
  destruct (plain_arr _ _ _ _ Hp Hi) as (b & -> & Hpi).
  assert (Forall js_string (rp_itfParamVars r)) as Hji.
  { eapply Forall2_plain_impl; [|exact HFi|exact Hpi]. intros. by eapply rep_text_js. }
  exists (MkRunProfile (rp_configuredParamVar r) (sort_by compareUnicodeScalars (rp_itfParamVars r))
            (sort_by compareUnicodeScalars (rp_effectiveParamVars r))).
  split; [split_and!; [done|symmetry; apply sort_by_Permutation..]|].
  do 3 eexists. split; [reflexivity|]. cbn [rp_configuredParamVar rp_itfParamVars rp_effectiveParamVars].
  split_and!; try reflexivity.
  - destruct (rp_configuredParamVar r) as [s|]; [|done]. split; [done|]. by destruct Hc.
  - by apply (rep_strings_sorted rep_text (fun s => well_formed s = true) li).
  - by rewrite (sort_by_Permutation compareUnicodeScalars).
  - by apply (rep_strings_sorted rep_text (fun s => well_formed s = true) le).
  - rewrite Heff, sortedUnique_sorted. apply sortedUnique_perm.
    + apply Forall_app. split; [done|]. destruct (rp_configuredParamVar r) as [s|]; [|constructor].
      constructor; [|constructor]. destruct Hc as [Hs _].
      by apply (plain_str _ _ _ _ Hp) in Hs as [_ ?].
    + by rewrite (sort_by_Permutation compareUnicodeScalars).
Qed.

Lemma perm_by_app {A B} (R : A -> B -> Prop) l1 l2 k1 k2 :
  perm_by R l1 k1 -> perm_by R l2 k2 -> perm_by R (l1 ++ l2) (k1 ++ k2).
Proof.
  intros (m1 & F1 & P1) (m2 & F2 & P2). exists (m1 ++ m2).
  split; [by apply Forall2_app|by rewrite P1, P2].
Qed.

Lemma action_reorders_nodes a b : action_reorders a b -> action_nodes a = action_nodes b.
Proof.
  intros (_ & _ & _ & _ & H). eapply sum_by_perm_by; [|exact H].
  intros i j (_ & _ & _ & Ht). by apply type_reorders_nodes.
Qed.

Lemma canonical_descriptor_rep c v d :
  rep_descriptor v d -> plain c v ->
  exists e, descriptor_reorders d e /\ rep_descriptor (canonicalDescriptorValue d) e.
Proof.
  intros (o & m & -> & _ & _ & [[Hv Hsv] Hvv] & (Hm & _ & [Hn Hsn] & Hvm) & _ & _ & Hprof &
    (li & la & lo & (Hli & Hl0 & Hl32 & HFi) & (Hla & Hl256 & HFa) & (Hnd & Hndw) &
     (Hlo & Hl1024 & HFo & Hndo & Hndow))) Hp.
  destruct (plain_obj _ _ Hp) as [n ->].
  destruct (plain_arr _ _ _ _ Hp Hli) as (k & -> & Hpi).
  destruct (plain_arr _ _ _ _ Hp Hla) as (? & [= <-] & Hpa).
  unfold parts_of in *; cbn [fst snd] in *.
  assert (plain (S k) (getf o ($"runProfile"))) as Hpp.
  { destruct Hprof as (po & ? & ? & Hpo & _). eapply plain_getf; [done..|]. by rewrite Hpo. }
  destruct (canonical_profile_rep _ _ _ Hprof Hpp) as (prof & Hrprof & Hprof').
  destruct (canonical_actions_rep _ _ _ _ HFi Hpi) as (ini & Hrini & HFini).
  destruct (canonical_actions_rep _ _ _ _ HFa Hpa) as (act & Hract & HFact).
  assert (exists obs, perm_by observation_reorders (sd_observations d) obs /\
    Forall2 rep_observation (map canonicalResolvedObservationValue
      (sort_by (by_key ro_id) (sd_observations d))) obs) as (obs & Hrobs & HFobs).
  { assert (exists ks, Forall2 (fun a b => observation_reorders a b /\ ro_id a = ro_id b /\
      rep_observation (canonicalResolvedObservationValue a) b) (sd_observations d) ks) as (ks & Hks).
    { eapply Forall2_choose; [|exact HFo]. cbn. intros ? ? H.
      edestruct canonical_observation_rep as (j & Hj & ?); [exact H|]. exists j.
      split; [done|]. split; [apply Hj|done]. }
    apply rep_sorted_perm in Hks. eauto. }
  exists (MkDescriptor (sd_interfaceVersion d) (sd_module d) prof ini act obs).
  split; [by split_and!|].
  do 2 eexists. split; [reflexivity|]. unfold parts_of.
  cbn [fst snd sd_interfaceVersion sd_module sd_runProfile sd_initializers sd_actions sd_observations].
  split_and!; try reflexivity; try done.
  do 3 eexists. cbn [fst snd].
  split_and!; try reflexivity; try done; try (by len_same HFi); try (by len_same HFa); try (by len_same HFo).
  - eapply perm_by_app in Hract; [|exact Hrini].
    eapply (perm_by_map_NoDup _ ra_id ra_id) in Hract as <-; [done|]. by intros ? ? [? _].
  - eapply perm_by_app in Hract; [|exact Hrini].
    eapply (perm_by_flat_map _ wire_labels wire_labels) in Hract as <-; [done|]. apply action_labels_perm.
  - eapply (perm_by_map_NoDup _ ro_id ro_id) in Hrobs as <-; [done|]. by intros ? ? [? _].
  - eapply (perm_by_map_NoDup _ ro_wireName ro_wireName) in Hrobs as <-; [done|]. by intros ? ? (_ & ? & _).
Qed.

Lemma descriptor_reorders_nodes d e :
  descriptor_reorders d e -> parts_nodes (parts_of d) = parts_nodes (parts_of e).
Proof.
  intros (_ & _ & _ & Hi & Ha & Ho). unfold parts_nodes, parts_of; cbn [fst snd].
  rewrite (sum_by_perm_by _ action_nodes _ _ action_reorders_nodes Hi).
  rewrite (sum_by_perm_by _ action_nodes _ _ action_reorders_nodes Ha).
  rewrite (sum_by_perm_by observation_reorders observation_nodes _ (sd_observations e)); [done| |exact Ho].
  intros a b (_ & _ & Ht). by apply type_reorders_nodes.
Qed.

(** Decoding the canonical value of a decoded descriptor succeeds, with a
    reordering. *)
Lemma decode_canonical c v d :
  decodeSemanticDescriptorValue v = Ok d -> plain c v ->
  exists e, decodeSemanticDescriptorValue (canonicalDescriptorValue d) = Ok e /\
    descriptor_reorders d e /\ canonicalDescriptorValue e = canonicalDescriptorValue d.
Proof.
  intros [Hrep (Hn & text & Ht & Hb)]%decodeSemanticDescriptorValue_spec Hp.
  destruct (canonical_descriptor_rep _ _ _ Hrep Hp) as (e & Hde & Hre).
  pose proof (canonical_descriptor_reorders _ _ _ _ Hde Hrep Hp) as Hc.
  exists e. split; [|by split]. apply decodeSemanticDescriptorValue_spec. split; [done|].
  unfold within_limits. rewrite <- (descriptor_reorders_nodes _ _ Hde), <- Hc. eauto.
Qed.
