(* ===== verification/Digest.v ===== *)
(** * Identity of a descriptor

    The theorems about decoding, canonical text and digest of a semantic
    descriptor: a decoded descriptor can be decoded and written again; its
    canonical text parses back to a reordering of it; and two descriptors have
    the same canonical text exactly when they are the same up to order. *)

From S2P Require Import Prelude JsNumber Utf16 JsData StrictJson StrictJsonFacts StrictJsonRoundtrip Decode ModelTypes Canonical Descriptor DescriptorFacts DescriptorReorder.

(** ** A decoded descriptor writes itself *)

Lemma rep_input_js ph v i : rep_input ph v i -> rep_input ph (input_js i) i.
Proof.
  intros (o & f & l & -> & _ & [[_ ?] ?] & (_ & _ & _ & Hr) & (_ & Hlen & HF) & Ht & ?).
  destruct i as [id root path type]; cbn [ri_id ri_root ri_path ri_type] in *. subst root.
  do 3 eexists. split; [reflexivity|]. unfold rep_short. cbn [ri_id ri_root ri_path ri_type].
  split_and!; try easy_eq.
  - by rewrite length_map, <- (Forall2_length _ _ _ HF).
  - eapply Forall2_js; [apply rep_path_js|done].
  - by eapply rep_type_js.
Qed.

Lemma rep_action_js ph v a : rep_action ph v a -> rep_action ph (action_js a) a.
Proof.
  intros (o & la & li & -> & _ & [_ Hph] & [[_ ?] ?] & [[_ ?] ?] & (_ & ? & HFa & ?) & (_ & ? & HFi & ?)).
  destruct a as [id phase wireAction wireAliases inputs];
    cbn [ra_id ra_phase ra_wireAction ra_wireAliases ra_inputs] in *. subst phase.
  do 3 eexists. split; [reflexivity|]. unfold rep_short.
  cbn [ra_id ra_phase ra_wireAction ra_wireAliases ra_inputs].
  split_and!; try easy_eq.
  - by rewrite length_map, <- (Forall2_length _ _ _ HFa).
  - eapply Forall2_js; [|done]. by intros ? ? [_ ?].
  - by rewrite length_map, <- (Forall2_length _ _ _ HFi).
  - eapply Forall2_js; [apply rep_input_js|done].
Qed.

Lemma rep_observation_js v b : rep_observation v b -> rep_observation (observation_js b) b.
Proof.
  intros (o & -> & _ & [[_ ?] ?] & [[_ ?] ?] & _ & ? & ?).
  eexists. split; [reflexivity|]. unfold rep_short. split_and!; try easy_eq.
  by eapply rep_type_js.
Qed.

Lemma rep_profile_js v r : rep_profile v r -> rep_profile (profile_js r) r.
Proof.
  intros (o & li & le & -> & _ & _ & Hc & (_ & HFi & ?) & (_ & HFe) & ?).
  do 3 eexists. split; [reflexivity|]. split_and!; try easy_eq.
  - destruct (rp_configuredParamVar r); [|done]. by destruct Hc as [_ ?].
  - eapply Forall2_js; [|done]. by intros ? ? [_ ?].
  - eapply Forall2_js; [|done]. by intros ? ? [_ ?].
Qed.

Lemma rep_descriptor_js v d : rep_descriptor v d -> rep_descriptor (descriptor_js d) d.
Proof.
  intros (o & m & -> & _ & _ & [[_ ?] ?] & (_ & _ & [_ ?] & ?) & _ & _ & Hprof &
    (li & la & lo & (_ & ? & ? & HFi) & (_ & ? & HFa) & (? & ?) & (_ & ? & HFo & ? & ?))).
  do 2 eexists. split; [reflexivity|]. unfold rep_short.
  split_and!; try easy_eq; [by eapply rep_profile_js|].
  unfold parts_of in *; cbn [fst snd] in *.
  do 3 eexists. unfold parts_of; cbn [fst snd]. split_and!; try easy_eq;
    try (by rewrite length_map, <- (Forall2_length _ _ _ HFi));
    try (by rewrite length_map, <- (Forall2_length _ _ _ HFa));
    try (by rewrite length_map, <- (Forall2_length _ _ _ HFo)).
  - eapply Forall2_js; [apply rep_action_js|done].
  - eapply Forall2_js; [apply rep_action_js|done].
  - eapply Forall2_js; [apply rep_observation_js|done].
Qed.

Lemma decode_descriptor_js v d :
  decodeSemanticDescriptorValue v = Ok d -> decodeSemanticDescriptorValue (descriptor_js d) = Ok d.
Proof.
  intros [H Hl]%decodeSemanticDescriptorValue_spec. apply decodeSemanticDescriptorValue_spec.
  split; [|done]. by eapply rep_descriptor_js.
Qed.

Lemma canonicalString_decoded v d text :
  decodeSemanticDescriptorValue v = Ok d ->
  canonicalSemanticDescriptorString (descriptor_js d) = Ok text <->
  compressCanonicalJson (canonicalDescriptorValue d) = Ok text.
Proof.
  intros H. unfold canonicalSemanticDescriptorString.
  by rewrite (decode_descriptor_js _ _ H).
Qed.

(** ** The canonical value is writable *)

Lemma writable_strings b ss :
  Forall text_ok ss -> writable (S b) (strings_js ss).
Proof. intros H. constructor. apply Forall_map. eapply Forall_impl; [exact H|]. by constructor. Qed.

Lemma short_text_ok b v s : rep_short v s -> plain b v -> text_ok s.
Proof. intros [-> _] H. by inversion H. Qed.

Lemma Forall_canonical {A} (R : js -> A -> Prop) (g : A -> js) cmp b l ts :
  (forall v t, R v t -> plain b v -> writable b (g t)) ->
  Forall2 R l ts -> Forall (plain b) l -> Forall (writable b) (map g (sort_by cmp ts)).
Proof.
  intros H HF Hp. apply Forall_map, Forall_sort_by.
  eapply Forall2_plain_impl; [|exact HF|exact Hp]. done.
Qed.

Lemma canonical_input_writable ph a v i :
  rep_input ph v i -> plain a v -> writable a (canonicalResolvedInputValue i).
Proof.
  intros (o & f & l & -> & _ & [[Hid _] _] & (Hf & _ & _ & _) & (Hl & _ & HF) & Ht & _) Hp.
  destruct (plain_obj _ _ Hp) as [b ->].
  destruct (plain_sub _ _ _ _ Hp Hf) as (c & -> & Hpf).
  destruct (plain_arr _ _ _ _ Hpf Hl) as (e & -> & He).
  unfold canonicalResolvedInputValue. canon_obj.
  - canon_obj.
    + constructor. eapply Forall2_to_map; [|by eapply Forall2_plain].
      cbn. intros ? ? [? ?]. by eapply canonical_path_writable.
    + destruct (ri_root i); canon_leaf.
  - by eapply tree_str, plain_str.
  - eapply canonical_type_writable; [done|]. by eapply plain_getf_type.
Qed.

Lemma canonical_action_writable ph c v a :
  rep_action ph v a -> plain c v -> writable c (canonicalResolvedActionValue a).
Proof.
  intros (o & la & li & -> & _ & [_ _] & [[Hid _] _] & [[Hw _] _] & (Hla & _ & HFa & _) & (Hli & _ & HFi & _)) Hp.
  destruct (plain_obj _ _ Hp) as [n ->].
  destruct (plain_arr _ _ _ _ Hp Hla) as (e & -> & Hea).
  destruct (plain_arr _ _ _ _ Hp Hli) as (? & [= <-] & Hei).
  unfold canonicalResolvedActionValue. canon_obj.
  - by eapply tree_str, plain_str.
  - constructor. eapply Forall_canonical; [|exact HFi|exact Hei].
    intros. by eapply canonical_input_writable.
  - destruct (ra_phase a); canon_leaf.
  - by eapply tree_str, plain_str.
  - apply writable_strings, Forall_sort_by. eapply Forall2_plain_impl; [|exact HFa|exact Hea].
    intros. by eapply short_text_ok.
Qed.

Lemma canonical_observation_writable c v b :
  rep_observation v b -> plain c v -> writable c (canonicalResolvedObservationValue b).
Proof.
  intros (o & -> & _ & [[Hid _] _] & [[Hw _] _] & _ & Ht & _) Hp.
  destruct (plain_obj _ _ Hp) as [n ->].
  unfold canonicalResolvedObservationValue. canon_obj; try canon_leaf.
  - by eapply tree_str, plain_str.
  - eapply canonical_type_writable; [done|]. by eapply plain_getf_type.
  - by eapply tree_str, plain_str.
Qed.

Lemma canonical_descriptor_writable c v d :
  rep_descriptor v d -> plain c v -> writable c (canonicalDescriptorValue d).
Proof.
  intros (o & m & -> & _ & _ & [[Hv _] _] & (Hm & _ & [Hn _] & _) & _ & _ &
    (po & pi & pe & Hpo & _ & _ & Hc & (Hpi & HFpi & _) & (Hpe & HFpe) & _) &
    (li & la & lo & (Hli & _ & _ & HFi) & (Hla & _ & HFa) & _ & (Hlo & _ & HFo & _))) Hp.
  destruct (plain_obj _ _ Hp) as [n ->].
  destruct (plain_arr _ _ _ _ Hp Hli) as (k & -> & Hki).
  destruct (plain_arr _ _ _ _ Hp Hla) as (? & [= <-] & Hka).
  destruct (plain_arr _ _ _ _ Hp Hlo) as (? & [= <-] & Hko).
  destruct (plain_sub _ _ _ _ Hp Hm) as (? & [= <-] & Hpm).
  destruct (plain_sub _ _ _ _ Hp Hpo) as (? & [= <-] & Hpp).
  destruct (plain_arr _ _ _ _ Hpp Hpi) as (b' & -> & Hbi).
  destruct (plain_arr _ _ _ _ Hpp Hpe) as (? & [= <-] & Hbe).
  unfold parts_of in *; cbn [fst snd] in *.
  unfold canonicalDescriptorValue. canon_obj; try canon_leaf.
  - constructor. eapply Forall_canonical; [|exact HFa|exact Hka]. intros. by eapply canonical_action_writable.
  - constructor. eapply Forall_canonical; [|exact HFi|exact Hki]. intros. by eapply canonical_action_writable.
  - by eapply tree_str, plain_str.
  - canon_obj. apply tree_str, (plain_str _ _ _ _ Hpm Hn).
  - constructor. eapply Forall_canonical; [|exact HFo|exact Hko]. intros. by eapply canonical_observation_writable.
  - canon_obj; try canon_leaf.
    + destruct (rp_configuredParamVar _) as [s|]; [|constructor].
      destruct Hc as [Hc _]. apply tree_str, (plain_str _ _ _ _ Hpp Hc).
    + apply writable_strings, Forall_sort_by. eapply Forall2_plain_impl; [|exact HFpe|exact Hbe].
      intros. by eapply rep_text_js.
    + apply writable_strings, Forall_sort_by. eapply Forall2_plain_impl; [|exact HFpi|exact Hbi].
      intros. by eapply rep_text_js.
Qed.

(** ** Theorems *)

(** C33: [decodeSemanticDescriptor] accepts exactly the values that write a
    descriptor: an object with the nine fields, the fixed schema and version
    texts, names of the right syntax, a run profile whose effective variables
    are the sorted union, at most 32 initializers (at least one), 256 actions,
    1024 observations, 16 aliases and 128 inputs per action, distinct IDs and
    labels, types that nest at most 32 levels; with at most 8192 type nodes and
    32768 canonical bytes in all. It returns the descriptor written. *)
Theorem descriptor_decode_correct (v : js) (d : SemanticDescriptor) :
  decodeSemanticDescriptor v = Ok d <-> rep_descriptor v d /\ within_limits d.
Proof. apply decodeSemanticDescriptorValue_spec. Qed.

(** A decoded descriptor is accepted again unchanged, and its canonical text
    and bytes exist and are within the descriptor limit: none of the later
    calls on it can throw. *)
Theorem decoded_descriptor_stable (v : js) (d : SemanticDescriptor)
  (Hd : decodeSemanticDescriptor v = Ok d) :
  decodeSemanticDescriptor (descriptor_js d) = Ok d /\
  exists text bytes,
    canonicalSemanticDescriptorString (descriptor_js d) = Ok text /\
    canonicalSemanticDescriptorBytes (descriptor_js d) = Ok bytes /\
    N.of_nat (length bytes) = byteLength text /\ (byteLength text <= 32768)%N.
Proof.
  split; [by eapply decode_descriptor_js|].
  pose proof Hd as [_ (_ & text & Ht & Hb)]%decodeSemanticDescriptorValue_spec.
  exists text, (utf8_bytes text). unfold canonicalSemanticDescriptorBytes.
  rewrite (proj2 (canonicalString_decoded _ _ _ Hd) Ht).
  split_and!; try done. apply utf8_bytes_length.
Qed.

(** The canonical text of a decoded descriptor is strict JSON that decodes to
    the same descriptor up to order, and writing that one gives the same text:
    canonicalisation loses nothing and is idempotent. *)
Theorem canonical_text_roundtrip (v : js) (d : SemanticDescriptor) (text : ustring)
  (Hplain : plain 128 v) (Hd : decodeSemanticDescriptor v = Ok d)
  (Htext : canonicalSemanticDescriptorString (descriptor_js d) = Ok text) :
  exists e, parseSemanticDescriptor text = Ok e /\ descriptor_reorders d e /\
    canonicalSemanticDescriptorString (descriptor_js e) = Ok text.
Proof.
  apply (canonicalString_decoded _ _ _ Hd) in Htext.
  pose proof Hd as [Hrep (_ & text' & Ht & Hb)]%decodeSemanticDescriptorValue_spec.
  assert (text' = text) as -> by congruence.
  destruct (decode_canonical _ _ _ Hd Hplain) as (e & He & Hde & Hc).
  exists e. split_and!; [|done|].
  - unfold parseSemanticDescriptor. erewrite bind_ok; [exact He|].
    unfold parseStrictJson, MAX_MODEL_INTERFACE_MESSAGE_BYTES. unfold MAX_DESCRIPTOR_BYTES in Hb.
    destruct (N.ltb_spec 65535 (byteLength text)); [lia|].
    apply canon_parse; [|done]. by eapply writable_canon, canonical_descriptor_writable.
  - eapply (canonicalString_decoded _ _ _ He). by rewrite Hc.
Qed.

(** C28: two descriptors have the same canonical text exactly when both are
    reorderings of one descriptor: the text identifies the interface up to the
    order of its unordered parts, and nothing else. *)
Theorem canonical_text_identity (v w : js) (d e : SemanticDescriptor)
  (Hv : plain 128 v) (Hw : plain 128 w)
  (Hd : decodeSemanticDescriptor v = Ok d) (He : decodeSemanticDescriptor w = Ok e) :
  canonicalSemanticDescriptorString (descriptor_js d) =
  canonicalSemanticDescriptorString (descriptor_js e) <->
  exists f, descriptor_reorders d f /\ descriptor_reorders e f.
Proof.
  pose proof Hd as [Hrd (_ & td & Htd & _)]%decodeSemanticDescriptorValue_spec.
  pose proof He as [Hre (_ & te & Hte & _)]%decodeSemanticDescriptorValue_spec.
  rewrite (proj2 (canonicalString_decoded _ _ _ Hd) Htd), (proj2 (canonicalString_decoded _ _ _ He) Hte).
  split.
  - intros [= <-].
    pose proof (canonical_descriptor_writable _ _ _ Hrd Hv) as Cd%writable_canon.
    pose proof (canonical_descriptor_writable _ _ _ Hre Hw) as Ce%writable_canon.
    pose proof (canon_parse _ _ _ Cd Htd) as P1. pose proof (canon_parse _ _ _ Ce Hte) as P2.
    assert (canonicalDescriptorValue d = canonicalDescriptorValue e) as Heq by congruence.
    destruct (decode_canonical _ _ _ Hd Hv) as (f & Hf & Hdf & _).
    destruct (decode_canonical _ _ _ He Hw) as (g & Hg & Heg & _).
    exists f. split; [done|]. assert (f = g) as -> by congruence. done.
  - intros (f & Hdf & Hef).
    pose proof (canonical_descriptor_reorders _ _ _ _ Hdf Hrd Hv) as E1.
    pose proof (canonical_descriptor_reorders _ _ _ _ Hef Hre Hw) as E2. congruence.
Qed.

Section digest.
Context (sha256 : list N -> ustring) (Hsha : forall bytes, is_digest (sha256 bytes) = true).

(** The digest of a decoded descriptor exists, is a well-formed digest, and
    is the same for every reordering of the descriptor. *)
Theorem digest_reordering (v w : js) (d e : SemanticDescriptor)
  (Hv : plain 128 v) (Hd : decodeSemanticDescriptor v = Ok d)
  (He : decodeSemanticDescriptor w = Ok e) (Hde : descriptor_reorders d e) :
  exists digest, semanticDescriptorDigest sha256 (descriptor_js d) = Ok digest /\
    semanticDescriptorDigest sha256 (descriptor_js e) = Ok digest /\ is_digest digest = true.
Proof using Hsha.
  pose proof Hd as [Hrd (_ & td & Htd & _)]%decodeSemanticDescriptorValue_spec.
  pose proof (canonical_descriptor_reorders _ _ _ _ Hde Hrd Hv) as Hc.
  unfold semanticDescriptorDigest, canonicalSemanticDescriptorBytes.
  rewrite (proj2 (canonicalString_decoded _ _ _ Hd) Htd).
  rewrite (proj2 (canonicalString_decoded _ _ td He)) by by rewrite <- Hc.
  exists (sha256 (utf8_bytes DIGEST_DOMAIN ++ [0%N] ++ utf8_bytes td)).
  cbn [fmap res_fmap mbind res_mbind]. split_and!; [by apply semanticDigestFromHex_Ok..|done].
Qed.
End digest.

(** ** A concrete descriptor *)

Definition sample_input (id : string) (t : ModelType) : ResolvedInput :=
  MkInput (lit id) StepParameters [PField ($"amount"); PMapKey (LSet [LInt ($"2"); LInt ($"-1")])] t.

Definition sample_descriptor (swap : bool) : SemanticDescriptor :=
  let i1 := sample_input "To" TStr in
  let i2 := sample_input "Amount" (TRecord [($"b", TInt); ($"a", TSet TBool)]) in
  let a1 := MkAction ($"Transfer") Transition ($"transfer") [$"move"; $"send"]
              (if swap then [i2; i1] else [i1; i2]) in
  let a2 := MkAction ($"Burn") Transition ($"burn") [] [] in
  MkDescriptor ($"1.0.0") ($"Token") (MkRunProfile (Some ($"params")) [$"nondet"] [$"nondet"; $"params"])
    [MkAction ($"Init") Initialize ($"init") [] []]
    (if swap then [a2; a1] else [a1; a2])
    [MkObservation ($"Balance") ($"balance") (TMap TStr TInt)].

Lemma sample_decodes swap :
  decodeSemanticDescriptor (descriptor_js (sample_descriptor swap)) = Ok (sample_descriptor swap).
Proof. destruct swap; vm_compute; reflexivity. Qed.

Lemma sample_plain swap : plain 128 (descriptor_js (sample_descriptor swap)).
Proof. destruct swap; apply plainb_ok; vm_compute; reflexivity. Qed.

Lemma sample_reorders : descriptor_reorders (sample_descriptor false) (sample_descriptor true).
Proof.
  assert (forall i, input_reorders i i) as Hi.
  { intros i. split_and!; try constructor. apply Forall_Forall2_diag, Forall_forall.
    intros [] _; cbn; constructor. }
  assert (forall l, Forall2 input_reorders l l) as Hl.
  { intros l. apply Forall_Forall2_diag, Forall_forall. auto. }
  assert (forall a, action_reorders a a) as Ha.
  { intros a. split_and!; try done. by exists (ra_inputs a). }
  split_and!; try reflexivity.
  - split_and!; reflexivity.
  - eexists. split; [|reflexivity]. constructor; [apply Ha|constructor].
  - eexists [_; _]. split; [|apply perm_swap].
    constructor; [|constructor; [apply Ha|constructor]].
    split_and!; try reflexivity. eexists. split; [apply Hl|apply perm_swap].
  - eexists. split; [|reflexivity]. constructor; [|constructor]. split_and!; by try constructor.
Qed.

Lemma decoded_descriptor_stable_witness :
  exists d, decodeSemanticDescriptor (descriptor_js (sample_descriptor false)) = Ok d /\
  (decodeSemanticDescriptor (descriptor_js d) = Ok d /\
  exists text bytes,
    canonicalSemanticDescriptorString (descriptor_js d) = Ok text /\
    canonicalSemanticDescriptorBytes (descriptor_js d) = Ok bytes /\
    N.of_nat (length bytes) = byteLength text /\ (byteLength text <= 32768)%N).
Proof.
  exists (sample_descriptor false). split; [apply sample_decodes|].
  apply (decoded_descriptor_stable (descriptor_js (sample_descriptor false))). apply sample_decodes.
Defined.

Lemma canonical_text_roundtrip_witness :
  exists text e, canonicalSemanticDescriptorString (descriptor_js (sample_descriptor true)) = Ok text /\
    parseSemanticDescriptor text = Ok e /\ descriptor_reorders (sample_descriptor true) e /\
    canonicalSemanticDescriptorString (descriptor_js e) = Ok text.
Proof.
  assert (exists text, canonicalSemanticDescriptorString (descriptor_js (sample_descriptor true)) = Ok text)
    as [text Ht] by (eexists; vm_compute; reflexivity).
  destruct (canonical_text_roundtrip (descriptor_js (sample_descriptor true)) (sample_descriptor true) text
    (sample_plain true) (sample_decodes true) Ht) as (e & He). by exists text, e.
Defined.

Lemma canonical_text_identity_witness :
  canonicalSemanticDescriptorString (descriptor_js (sample_descriptor false)) =
  canonicalSemanticDescriptorString (descriptor_js (sample_descriptor true)) <->
  exists f, descriptor_reorders (sample_descriptor false) f /\ descriptor_reorders (sample_descriptor true) f.
Proof.
  apply (canonical_text_identity (descriptor_js (sample_descriptor false)) (descriptor_js (sample_descriptor true)));
    [apply sample_plain|apply sample_plain|apply sample_decodes|apply sample_decodes].
Defined.

(** A stand-in for the hash: 64 hexadecimal digits. *)
Definition zero_hash (bytes : list N) : ustring := repeat 48%N 64.

Lemma digest_reordering_witness :
  (forall bytes, is_digest (zero_hash bytes) = true) /\
  exists digest,
    semanticDescriptorDigest zero_hash (descriptor_js (sample_descriptor false)) = Ok digest /\
    semanticDescriptorDigest zero_hash (descriptor_js (sample_descriptor true)) = Ok digest /\
    is_digest digest = true.
Proof.
  assert (forall bytes, is_digest (zero_hash bytes) = true) as Hz by (intros; vm_compute; reflexivity).
  split; [exact Hz|].
  apply (digest_reordering zero_hash Hz (descriptor_js (sample_descriptor false))
    (descriptor_js (sample_descriptor true)));
    [apply sample_plain|apply sample_decodes|apply sample_decodes|apply sample_reorders].
Defined.
