(* ===== verification/Contract.v ===== *)
(** * The companion contract

    [ContractV1] of [src/src/model-interface.ts] with its decoder
    ([decodeContractInput], [decodeContractAction], [decodeContractV1]), what
    the decoder accepts, and the object a decoded contract is at run time. *)

From S2P Require Import Prelude JsNumber Utf16 JsData StrictJson Decode ModelTypes Descriptor DescriptorFacts.

Inductive provenance_t := Implementation | Oracle | Derived.

Record ContractInput := MkCInput {
  ci_id : ustring;
  ci_root : root_t;
  ci_path : list ContractPathSegment;
  ci_expectedType : option ModelType }.

Record ContractAction := MkCAction {
  ca_id : ustring;
  ca_wireAction : ustring;
  ca_wireAliases : list ustring;
  ca_inputs : list ContractInput }.

Record ContractObservation := MkCObservation {
  co_id : ustring;
  co_wireName : ustring;
  co_provenance : provenance_t;
  co_expectedType : option ModelType }.

Record ContractV1 := MkContract {
  cv_interfaceVersion : ustring;
  cv_module : ustring;
  cv_source : ustring;
  cv_actionVariable : ustring;
  cv_parameterVariable : option ustring;
  cv_initializers : list ContractAction;
  cv_actions : list ContractAction;
  cv_observations : list ContractObservation }.

Definition CONTRACT_SCHEMA : ustring := $"mirrors.model-interface/v1".

Definition provenance_name (p : provenance_t) : ustring :=
  match p with
  | Implementation => $"implementation" | Oracle => $"oracle" | Derived => $"derived"
  end.

(** The two roots, and the provenances, by name. *)
Definition root_of (root : ustring) : option root_t :=
  if root =s "initialState" then Some InitialState
  else if root =s "stepParameters" then Some StepParameters else None.

Definition provenance_of (p : ustring) : option provenance_t :=
  if p =s "implementation" then Some Implementation
  else if p =s "oracle" then Some Oracle
  else if p =s "derived" then Some Derived else None.

(** [if (x is none of the names) fail(...)], and the value it is then. *)
Definition one_of {A} (r : option A) (path msg : ustring) : res exn A :=
  match r with Some a => Ok a | None => fail path msg end.

Definition decodeExpectedType (value : js) (path : ustring) : stres N exn (option ModelType) :=
  optional value (fun item => decodeModelType MAX_TYPE_DEPTH item path).

Definition decodeContractInput (value : js) (path : ustring) : stres N exn ContractInput :=
  fields ← liftR (exactObject value path [$"id"; $"from"; $"expectedType"] [$"id"; $"from"]);
  from ← liftR (exactObject (getf fields ($"from")) (dot path "from")
                  [$"root"; $"path"] [$"root"; $"path"]);
  rootName ← liftR (string_val (getf from ($"root")) (dot (dot path "from") "root"));
  root ← liftR (one_of (root_of rootName) (dot (dot path "from") "root")
                  ($"unknown path root '" ++ rootName ++ $"'"));
  rawPath ← liftR (array (getf from ($"path")) (dot (dot path "from") "path"));
  _ ← liftR (require_length rawPath 32 (dot (dot path "from") "path") ($"path exceeds 32 segments"));
  decodedPath ← liftR (mapMi (fun i item =>
      decodePathSegment item (idx (dot (dot path "from") "path") i)) rawPath);
  expectedType ← decodeExpectedType (getf fields ($"expectedType")) (dot path "expectedType");
  id ← liftR (shortField fields "id" path);
  mret (MkCInput id root decodedPath expectedType).

Definition decodeContractAction (value : js) (path : ustring) : stres N exn ContractAction :=
  let names := [$"id"; $"wireAction"; $"wireAliases"; $"inputs"] in
  fields ← liftR (exactObject value path names names);
  rawAliases ← liftR (array (getf fields ($"wireAliases")) (dot path "wireAliases"));
  _ ← liftR (require_length rawAliases 16 (dot path "wireAliases") ($"array exceeds 16 aliases"));
  wireAliases ← liftR (mapMi (fun i item =>
      shortString item (idx (dot path "wireAliases") i)) rawAliases);
  rawInputs ← liftR (array (getf fields ($"inputs")) (dot path "inputs"));
  _ ← liftR (require_length rawInputs 128 (dot path "inputs") ($"array exceeds 128 inputs"));
  inputs ← mapMi (fun i item => decodeContractInput item (idx (dot path "inputs") i)) rawInputs;
  id ← liftR (shortField fields "id" path);
  wireAction ← liftR (shortField fields "wireAction" path);
  mret (MkCAction id wireAction wireAliases inputs).

Definition decodeContractObservation (item : js) (itemPath : ustring)
  : stres N exn ContractObservation :=
  observation ← liftR (exactObject item itemPath
      [$"id"; $"wireName"; $"provenance"; $"expectedType"] [$"id"; $"wireName"; $"provenance"]);
  name ← liftR (string_val (getf observation ($"provenance")) (dot itemPath "provenance"));
  provenance ← liftR (one_of (provenance_of name) (dot itemPath "provenance")
      ($"unknown observation provenance '" ++ name ++ $"'"));
  expectedType ← decodeExpectedType (getf observation ($"expectedType")) (dot itemPath "expectedType");
  id ← liftR (shortField observation "id" itemPath);
  wireName ← liftR (shortField observation "wireName" itemPath);
  mret (MkCObservation id wireName provenance expectedType).

(** The lists of a contract, which share the node budget. *)
Definition decodeContractParts (fields : object_t) (path : ustring)
  : stres N exn (list ContractAction * list ContractAction * list ContractObservation) :=
  rawInitializers ← liftR (array (getf fields ($"initializers")) (dot path "initializers"));
  _ ← liftR (require_length rawInitializers 32 (dot path "initializers")
               ($"array exceeds 32 initializers"));
  initializers ← mapMi (fun i item =>
      decodeContractAction item (idx (dot path "initializers") i)) rawInitializers;
  rawActions ← liftR (array (getf fields ($"actions")) (dot path "actions"));
  _ ← liftR (require_length rawActions 256 (dot path "actions") ($"array exceeds 256 actions"));
  actions ← mapMi (fun i item => decodeContractAction item (idx (dot path "actions") i)) rawActions;
  rawObservations ← liftR (array (getf fields ($"observations")) (dot path "observations"));
  _ ← liftR (require_length rawObservations 1024 (dot path "observations")
               ($"array exceeds 1024 observations"));
  observations ← mapMi (fun i item =>
      decodeContractObservation item (idx (dot path "observations") i)) rawObservations;
  mret (initializers, actions, observations).

Definition contract_names : list ustring :=
  [$"schema"; $"interfaceVersion"; $"model"; $"wire"; $"initializers"; $"actions"; $"observations"].

Definition decodeContractV1 (value : js) : res exn ContractV1 :=
  let path := $"contract" in
  fields ← exactObject value path contract_names contract_names;
  _ ← require_at (is_text (getf fields ($"schema")) CONTRACT_SCHEMA) (dot path "schema")
        ($"expected '" ++ CONTRACT_SCHEMA ++ $"'");
  model ← exactObject (getf fields ($"model")) (dot path "model")
        [$"module"; $"source"] [$"module"; $"source"];
  wire ← exactObject (getf fields ($"wire")) (dot path "wire")
        [$"actionVariable"; $"parameterVariable"] [$"actionVariable"; $"parameterVariable"];
  parameterVariable ← decodeStringOrNull (getf wire ($"parameterVariable"))
        (dot (dot path "wire") "parameterVariable");
  parts ← with_budget (decodeContractParts fields path);
  interfaceVersion ← shortField fields "interfaceVersion" path;
  module ← shortField model "module" (dot path "model");
  source ← shortField model "source" (dot path "model");
  actionVariable ← shortField wire "actionVariable" (dot path "wire");
  mret (MkContract interfaceVersion module source actionVariable parameterVariable
          parts.1.1 parts.1.2 parts.2).

(** ** The run-time objects *)

Definition opt_field (name : string) (value : option js) : object_t :=
  match value with Some v => [(lit name, v)] | None => [] end.

Definition cinput_js (i : ContractInput) : js :=
  JObj ([($"id", JStr (ci_id i));
         ($"from", JObj [($"root", JStr (root_name (ci_root i)));
                         ($"path", JArr (map path_js (ci_path i)))])] ++
        opt_field "expectedType" (type_js <$> ci_expectedType i)).

Definition caction_js (a : ContractAction) : js :=
  JObj [($"id", JStr (ca_id a)); ($"wireAction", JStr (ca_wireAction a));
        ($"wireAliases", strings_js (ca_wireAliases a));
        ($"inputs", JArr (map cinput_js (ca_inputs a)))].

Definition cobservation_js (b : ContractObservation) : js :=
  JObj ([($"id", JStr (co_id b)); ($"wireName", JStr (co_wireName b));
         ($"provenance", JStr (provenance_name (co_provenance b)))] ++
        opt_field "expectedType" (type_js <$> co_expectedType b)).

Definition contract_js (c : ContractV1) : js :=
  JObj [($"schema", JStr CONTRACT_SCHEMA);
        ($"interfaceVersion", JStr (cv_interfaceVersion c));
        ($"model", JObj [($"module", JStr (cv_module c)); ($"source", JStr (cv_source c))]);
        ($"wire", JObj [($"actionVariable", JStr (cv_actionVariable c));
                        ($"parameterVariable", opt_js (cv_parameterVariable c))]);
        ($"initializers", JArr (map caction_js (cv_initializers c)));
        ($"actions", JArr (map caction_js (cv_actions c)));
        ($"observations", JArr (map cobservation_js (cv_observations c)))].

(** ** What the decoder accepts *)

Definition opt_nodes (t : option ModelType) : N :=
  match t with Some t => type_nodes t | None => 0 end.

Definition rep_expected : js -> option ModelType -> Prop := opt_rep (rep_type MAX_TYPE_DEPTH).

Definition rep_cinput (v : js) (i : ContractInput) : Prop :=
  exists o f l, v = JObj o /\ has_keys o [$"id"; $"from"; $"expectedType"] [$"id"; $"from"] = true /\
    rep_short (getf o ($"id")) (ci_id i) /\
    (getf o ($"from") = JObj f /\ has_keys f [$"root"; $"path"] [$"root"; $"path"] = true /\
     getf f ($"root") = JStr (root_name (ci_root i))) /\
    (getf f ($"path") = JArr l /\ (length l <= 32)%nat /\ Forall2 rep_path l (ci_path i)) /\
    rep_expected (getf o ($"expectedType")) (ci_expectedType i).

Definition caction_names : list ustring := [$"id"; $"wireAction"; $"wireAliases"; $"inputs"].

Definition rep_caction (v : js) (a : ContractAction) : Prop :=
  exists o la li, v = JObj o /\ has_keys o caction_names caction_names = true /\
    rep_short (getf o ($"id")) (ca_id a) /\ rep_short (getf o ($"wireAction")) (ca_wireAction a) /\
    (getf o ($"wireAliases") = JArr la /\ (length la <= 16)%nat /\
     Forall2 rep_short la (ca_wireAliases a)) /\
    (getf o ($"inputs") = JArr li /\ (length li <= 128)%nat /\ Forall2 rep_cinput li (ca_inputs a)).

Definition rep_cobservation (v : js) (b : ContractObservation) : Prop :=
  exists o, v = JObj o /\
    has_keys o [$"id"; $"wireName"; $"provenance"; $"expectedType"]
               [$"id"; $"wireName"; $"provenance"] = true /\
    rep_short (getf o ($"id")) (co_id b) /\ rep_short (getf o ($"wireName")) (co_wireName b) /\
    getf o ($"provenance") = JStr (provenance_name (co_provenance b)) /\
    rep_expected (getf o ($"expectedType")) (co_expectedType b).

Definition cinput_nodes (i : ContractInput) : N := opt_nodes (ci_expectedType i).
Definition caction_nodes (a : ContractAction) : N := sum_by cinput_nodes (ca_inputs a).
Definition cobservation_nodes (b : ContractObservation) : N := opt_nodes (co_expectedType b).

Lemma decodeExpectedType_spec v p s r s' :
  (s <= MAX_TYPE_NODES)%N ->
  decodeExpectedType v p s = Ok (r, s') <->
  rep_expected v r /\ s' = (s + opt_nodes r)%N /\ (s' <= MAX_TYPE_NODES)%N.
Proof.
  intros Hs. unfold decodeExpectedType, rep_expected.
  assert (v = JUndef \/ v = JNull -> optional (M:=stres N exn) v
    (fun item => decodeModelType MAX_TYPE_DEPTH item p) s = Ok (None, s)) as Hnone.
  { by intros [-> | ->]. }
  assert (v <> JUndef -> v <> JNull -> optional (M:=stres N exn) v
    (fun item => decodeModelType MAX_TYPE_DEPTH item p) s =
    match decodeModelType MAX_TYPE_DEPTH v p s with
    | Ok (t, s') => Ok (Some t, s') | Err e => Err e end) as Hsome by (by destruct v).
  assert ((v = JUndef \/ v = JNull) \/ ~ (v = JUndef \/ v = JNull)) as [Hn|Hn] by (destruct v; auto; right; intros [?|?]; discriminate).
  - rewrite (Hnone Hn). destruct r as [t|]; cbn [opt_rep opt_nodes].
    + split; [done|]. intros [(? & ? & _) _]. tauto.
    + split; [intros [= <-]; split; [done|lia]|]. intros (_ & -> & _). do 2 f_equal. lia.
  - rewrite Hsome by tauto. split.
    + intros H. destruct (decodeModelType _ v p s) as [[t s1]|] eqn:E; [|done].
      injection H as <- <-. apply decodeModelType_spec in E as (? & ? & ?); [|done].
      cbn [opt_rep opt_nodes]. split; [split; tauto|done].
    + intros (Hr & -> & Hle). destruct r as [t|]; cbn [opt_rep opt_nodes] in *; [|tauto].
      destruct Hr as (_ & _ & Hr).
      by rewrite (proj2 (decodeModelType_spec _ _ _ _ _ _ Hs) (conj Hr (conj eq_refl Hle))).
Qed.

Lemma one_of_Ok {A} (r : option A) p m a : one_of r p m = Ok a <-> r = Some a.
Proof. destruct r; cbn; naive_solver. Qed.

Lemma root_of_Ok s r : root_of s = Some r <-> s = root_name r.
Proof.
  unfold root_of. repeat case_bool_decide; destruct r; cbn; naive_solver.
Qed.

Lemma provenance_of_Ok s r : provenance_of s = Some r <-> s = provenance_name r.
Proof.
  unfold provenance_of. repeat case_bool_decide; destruct r; cbn; subst; naive_solver.
Qed.

Lemma decodeContractInput_spec v p s i s' :
  (s <= MAX_TYPE_NODES)%N ->
  decodeContractInput v p s = Ok (i, s') <->
  rep_cinput v i /\ s' = (s + cinput_nodes i)%N /\ (s' <= MAX_TYPE_NODES)%N.
Proof.
  intros Hs. unfold decodeContractInput, rep_cinput, cinput_nodes. split.
  - intros H. dec_inv.
    match goal with H : decodeExpectedType _ _ _ = _ |- _ => apply decodeExpectedType_spec in H as (? & -> & ?); [|done] end.
    match goal with H : mapMi _ _ = _ |- _ => apply (mapMi_Ok _ rep_path) in H; [|intros; apply decodePathSegment_spec] end.
    match goal with H : one_of _ _ _ = _ |- _ => apply one_of_Ok, root_of_Ok in H; subst end.
    cbn [ci_id ci_root ci_path ci_expectedType]. split; [|done].
    do 3 eexists. unfold rep_short. split_and!; eauto.
  - intros ((o & f & l & -> & Hk & [Hid Hsid] & (Hf & Hkf & Hroot) & (Hl & Hlen & HF) & Ht) & -> & Hle).
    destruct i as [id root path type]; cbn [ci_id ci_root ci_path ci_expectedType] in *.
    dec_run. erewrite bind_lift by (apply exactObject_Ok; split; eassumption).
    erewrite bind_lift by (apply string_val_Ok; split; [eassumption|by destruct root]).
    erewrite bind_lift by (apply one_of_Ok, root_of_Ok; reflexivity).
    dec_run. erewrite bind_lift by (apply (mapMi_Ok _ rep_path); [intros; apply decodePathSegment_spec|eassumption]).
    erewrite bind_run by (apply decodeExpectedType_spec; [done|]; split; [eassumption|done]).
    dec_run. done.
Qed.

Lemma decodeContractAction_spec v p s a s' :
  (s <= MAX_TYPE_NODES)%N ->
  decodeContractAction v p s = Ok (a, s') <->
  rep_caction v a /\ s' = (s + caction_nodes a)%N /\ (s' <= MAX_TYPE_NODES)%N.
Proof.
  intros Hs. unfold decodeContractAction, rep_caction, caction_nodes. split.
  - intros H. dec_inv.
    match goal with H : mapMi _ _ _ = Ok _ |- _ =>
      apply (mapMi_from_budget _ rep_cinput cinput_nodes MAX_TYPE_NODES) in H as (? & -> & ?);
        [|intros; by apply decodeContractInput_spec|done] end.
    match goal with H : mapMi _ _ = Ok _ |- _ => apply (mapMi_Ok _ rep_short) in H; [|intros; apply shortString_Ok] end.
    cbn [ca_id ca_wireAction ca_wireAliases ca_inputs]. split; [|done].
    do 3 eexists. unfold rep_short. split_and!; eauto.
  - intros ((o & la & li & -> & Hk & [Hid Hsid] & [Hw Hsw] & (Hla & Hlen & HF) & (Hli & Hlen' & HF')) & -> & Hle).
    destruct a as [id wireAction wireAliases inputs]; cbn [ca_id ca_wireAction ca_wireAliases ca_inputs] in *.
    dec_run.
    erewrite bind_lift by (apply (mapMi_Ok _ rep_short); [intros; apply shortString_Ok|eassumption]).
    dec_run.
    erewrite bind_run by (eapply (mapMi_from_budget _ rep_cinput cinput_nodes MAX_TYPE_NODES);
      [intros; by apply decodeContractInput_spec|done|split; [eassumption|by split]]).
    dec_run. done.
Qed.

Lemma decodeContractObservation_spec v p s b s' :
  (s <= MAX_TYPE_NODES)%N ->
  decodeContractObservation v p s = Ok (b, s') <->
  rep_cobservation v b /\ s' = (s + cobservation_nodes b)%N /\ (s' <= MAX_TYPE_NODES)%N.
Proof.
  intros Hs. unfold decodeContractObservation, rep_cobservation, cobservation_nodes. split.
  - intros H. dec_inv.
    match goal with H : decodeExpectedType _ _ _ = _ |- _ => apply decodeExpectedType_spec in H as (? & -> & ?); [|done] end.
    match goal with H : one_of _ _ _ = _ |- _ => apply one_of_Ok, provenance_of_Ok in H; subst end.
    cbn [co_id co_wireName co_provenance co_expectedType]. split; [|done].
    eexists. unfold rep_short. split_and!; eauto.
  - intros ((o & -> & Hk & [Hid Hsid] & [Hw Hsw] & Hp & Ht) & -> & Hle).
    destruct b as [id wireName prov type]; cbn [co_id co_wireName co_provenance co_expectedType] in *.
    dec_run. erewrite bind_lift by (apply string_val_Ok; split; [eassumption|by destruct prov]).
    erewrite bind_lift by (apply one_of_Ok, provenance_of_Ok; reflexivity).
    erewrite bind_run by (apply decodeExpectedType_spec; [done|]; split; [eassumption|done]).
    dec_run. done.
Qed.

Definition cparts_of (c : ContractV1) := (cv_initializers c, cv_actions c, cv_observations c).

Definition cparts_nodes (parts : list ContractAction * list ContractAction * list ContractObservation) : N :=
  (sum_by caction_nodes parts.1.1 + sum_by caction_nodes parts.1.2 + sum_by cobservation_nodes parts.2)%N.

Definition rep_cparts (o : object_t)
  (parts : list ContractAction * list ContractAction * list ContractObservation) : Prop :=
  exists li la lo,
    (getf o ($"initializers") = JArr li /\ (length li <= 32)%nat /\ Forall2 rep_caction li parts.1.1) /\
    (getf o ($"actions") = JArr la /\ (length la <= 256)%nat /\ Forall2 rep_caction la parts.1.2) /\
    (getf o ($"observations") = JArr lo /\ (length lo <= 1024)%nat /\ Forall2 rep_cobservation lo parts.2).

Lemma decodeContractParts_spec o p parts s' :
  decodeContractParts o p 0%N = Ok (parts, s') <->
  rep_cparts o parts /\ s' = cparts_nodes parts /\ (s' <= MAX_TYPE_NODES)%N.
Proof.
  unfold decodeContractParts, rep_cparts, cparts_nodes. split.
  - intros H. dec_inv.
    repeat match goal with
    | H : mapMi _ _ 0%N = Ok _ |- _ =>
        apply (mapMi_from_budget _ rep_caction caction_nodes MAX_TYPE_NODES) in H as (? & -> & ?);
          [|intros; by apply decodeContractAction_spec|done]
    | H : mapMi _ _ (0 + _)%N = Ok _ |- _ =>
        apply (mapMi_from_budget _ rep_caction caction_nodes MAX_TYPE_NODES) in H as (? & -> & ?);
          [|intros; by apply decodeContractAction_spec|done]
    | H : mapMi _ _ (_ + _)%N = Ok _ |- _ =>
        apply (mapMi_from_budget _ rep_cobservation cobservation_nodes MAX_TYPE_NODES) in H as (? & -> & ?);
          [|intros; by apply decodeContractObservation_spec|done]
    end.
    cbn [fst snd]. split; [|lia]. do 3 eexists. split_and!; eauto.
  - intros ((li & la & lo & (Hi & Hi32 & HFi) & (Ha & Hal & HFa) & (Ho & Hol & HFo)) & -> & Hle).
    destruct parts as [[inits acts] obs]; cbn [fst snd] in *.
    dec_run.
    erewrite bind_run by (eapply (mapMi_from_budget _ rep_caction caction_nodes MAX_TYPE_NODES);
      [intros; by apply decodeContractAction_spec|done|split; [eassumption|split; [reflexivity|lia]]]).
    dec_run.
    erewrite bind_run by (eapply (mapMi_from_budget _ rep_caction caction_nodes MAX_TYPE_NODES);
      [intros; by apply decodeContractAction_spec|lia|split; [eassumption|split; [reflexivity|lia]]]).
    dec_run.
    erewrite bind_run by (eapply (mapMi_from_budget _ rep_cobservation cobservation_nodes MAX_TYPE_NODES);
      [intros; by apply decodeContractObservation_spec|lia|split; [eassumption|split; [reflexivity|lia]]]).
    apply stres_ret_Ok. split; [done|lia].
Qed.

(** [rep_contract v c]: [v] writes the contract [c], within its limits. *)
Definition rep_contract (v : js) (c : ContractV1) : Prop :=
  exists o m w, v = JObj o /\ has_keys o contract_names contract_names = true /\
    getf o ($"schema") = JStr CONTRACT_SCHEMA /\
    rep_short (getf o ($"interfaceVersion")) (cv_interfaceVersion c) /\
    (getf o ($"model") = JObj m /\ has_keys m [$"module"; $"source"] [$"module"; $"source"] = true /\
     rep_short (getf m ($"module")) (cv_module c) /\ rep_short (getf m ($"source")) (cv_source c)) /\
    (getf o ($"wire") = JObj w /\
     has_keys w [$"actionVariable"; $"parameterVariable"] [$"actionVariable"; $"parameterVariable"] = true /\
     rep_short (getf w ($"actionVariable")) (cv_actionVariable c) /\
     match cv_parameterVariable c with
     | None => getf w ($"parameterVariable") = JNull
     | Some s => rep_text (getf w ($"parameterVariable")) s
     end) /\
    rep_cparts o (cparts_of c) /\ (cparts_nodes (cparts_of c) <= MAX_TYPE_NODES)%N.

Lemma decodeContractV1_spec v c : decodeContractV1 v = Ok c <-> rep_contract v c.
Proof.
  unfold decodeContractV1, rep_contract. split.
  - intros H. dec_inv.
    match goal with H : with_budget _ = _ |- _ =>
      apply with_budget_Ok in H as (n & (? & -> & ?)%decodeContractParts_spec) end.
    match goal with H : is_text _ _ = true |- _ => apply is_text_Ok in H end.
    match goal with H : decodeStringOrNull _ _ = _ |- _ => apply decodeStringOrNull_Ok in H end.
    match goal with H : rep_cparts _ ?p |- _ => destruct p as [[? ?] ?] end.
    unfold cparts_of.
    cbn [fst snd cv_interfaceVersion cv_module cv_source cv_actionVariable cv_parameterVariable
      cv_initializers cv_actions cv_observations] in *.
    do 3 eexists. unfold rep_short. split_and!; eauto.
  - intros (o & m & w & -> & Hk & Hs & [Hv Hsv] & (Hm & Hkm & [Hn Hsn] & [Hsr Hssr]) &
      (Hw & Hkw & [Ha Hsa] & Hp) & Hparts & Hle).
    destruct c as [iv module source av pv inits acts obs]. unfold cparts_of in *.
    cbn [cv_interfaceVersion cv_module cv_source cv_actionVariable cv_parameterVariable
      cv_initializers cv_actions cv_observations] in *.
    dec_run. erewrite bind_ok by (apply (require_at_Ok _ _ _ tt), is_text_Ok; eassumption).
    erewrite bind_ok by (apply exactObject_Ok; split; eassumption).
    erewrite bind_ok by (apply exactObject_Ok; split; eassumption).
    erewrite bind_ok by (apply decodeStringOrNull_Ok; eassumption).
    erewrite bind_ok by (apply with_budget_Ok; eexists; apply decodeContractParts_spec; split; [eassumption|by split]).
    cbn [fst snd]. dec_run. done.
Qed.

(** ** A decoded contract writes itself *)

Lemma rep_expected_js v t : rep_expected v t -> rep_expected (default JUndef (type_js <$> t)) t.
Proof.
  destruct t as [t|]; cbn [opt_rep fmap option_fmap option_map default]; [|by left].
  intros (_ & _ & H). split_and!; [by destruct t..|]. by eapply rep_type_js.
Qed.

Lemma rep_cinput_js v i : rep_cinput v i -> rep_cinput (cinput_js i) i.
Proof.
  intros (o & f & l & -> & _ & [_ ?] & _ & (_ & Hlen & HF) & Ht%rep_expected_js).
  destruct i as [id root path type]; cbn [ci_id ci_root ci_path ci_expectedType] in *.
  do 3 eexists. split; [reflexivity|]. unfold rep_short. cbn [ci_id ci_root ci_path ci_expectedType].
  split_and!; try (destruct type; easy_eq); try easy_eq.
  - by rewrite length_map, <- (Forall2_length _ _ _ HF).
  - eapply Forall2_js; [apply rep_path_js|done].
  - by destruct type.
Qed.

Lemma rep_caction_js v a : rep_caction v a -> rep_caction (caction_js a) a.
Proof.
  intros (o & la & li & -> & _ & [_ ?] & [_ ?] & (_ & ? & HFa) & (_ & ? & HFi)).
  do 3 eexists. split; [reflexivity|]. unfold rep_short. split_and!; try easy_eq.
  - by rewrite length_map, <- (Forall2_length _ _ _ HFa).
  - eapply Forall2_js; [|exact HFa]. by intros ? ? [_ ?].
  - by rewrite length_map, <- (Forall2_length _ _ _ HFi).
  - eapply Forall2_js; [apply rep_cinput_js|exact HFi].
Qed.

Lemma rep_cobservation_js v b : rep_cobservation v b -> rep_cobservation (cobservation_js b) b.
Proof.
  intros (o & -> & _ & [_ ?] & [_ ?] & _ & Ht%rep_expected_js).
  destruct b as [id wireName prov type]; cbn [co_id co_wireName co_provenance co_expectedType] in *.
  eexists. split; [reflexivity|]. unfold rep_short. cbn [co_id co_wireName co_provenance co_expectedType].
  split_and!; try (destruct type; easy_eq); try easy_eq. by destruct type.
Qed.

Lemma rep_contract_js v c : rep_contract v c -> rep_contract (contract_js c) c.
Proof.
  intros (o & m & w & -> & _ & _ & [_ ?] & (_ & _ & [_ ?] & [_ ?]) & (_ & _ & [_ ?] & Hp) &
    (li & la & lo & (_ & ? & HFi) & (_ & ? & HFa) & (_ & ? & HFo)) & Hle).
  do 3 eexists. split; [reflexivity|]. unfold rep_short. split_and!; try easy_eq; [| |exact Hle].
  - destruct (cv_parameterVariable c); [|done]. by destruct Hp as [_ ?].
  - unfold cparts_of in *; cbn [fst snd] in *.
    do 3 eexists. unfold cparts_of; cbn [fst snd]. split_and!; try easy_eq.
    + by rewrite length_map, <- (Forall2_length _ _ _ HFi).
    + eapply Forall2_js; [apply rep_caction_js|exact HFi].
    + by rewrite length_map, <- (Forall2_length _ _ _ HFa).
    + eapply Forall2_js; [apply rep_caction_js|exact HFa].
    + by rewrite length_map, <- (Forall2_length _ _ _ HFo).
    + eapply Forall2_js; [apply rep_cobservation_js|exact HFo].
Qed.

Lemma decode_contract_js v c : decodeContractV1 v = Ok c -> decodeContractV1 (contract_js c) = Ok c.
Proof. rewrite !decodeContractV1_spec. apply rep_contract_js. Qed.
