(* ===== verification/Requests.v ===== *)
(** * Negotiation requests

    [ModelInterfaceRequest] of [src/src/model-interface.ts]: building
    ([createVerifyRequest], [createDescriptorRequest]), decoding
    ([decodeRequestValue]) and writing ([wireRequest]) the extension a client
    adds to its registration. *)

From S2P Require Import Prelude JsNumber Utf16 JsData StrictJson Decode ModelTypes Descriptor DescriptorFacts Contract.

Inductive NegotiationPolicy := PolicyRequire | PolicyPrefer.

Inductive request_mode :=
| RVerify (expectedSemanticDigest : ustring)
| RDescriptor (expectedSemanticDigest ifNoneMatch : option ustring).

Record ModelInterfaceRequest := MkRequest {
  rq_policy : NegotiationPolicy;
  rq_acceptDescriptorSchemas : list ustring;
  rq_mode : request_mode;
  rq_contract : ContractV1 }.

Definition NEGOTIATION_SCHEMA : ustring := $"mirrors.model-interface-negotiation/v1".

Definition policy_name (p : NegotiationPolicy) : ustring :=
  match p with PolicyRequire => $"require" | PolicyPrefer => $"prefer" end.

Definition policy_of (policy : ustring) : option NegotiationPolicy :=
  if policy =s "require" then Some PolicyRequire
  else if policy =s "prefer" then Some PolicyPrefer else None.

Definition rq_expected (r : ModelInterfaceRequest) : option ustring :=
  match rq_mode r with RVerify d => Some d | RDescriptor e _ => e end.

Definition rq_ifNoneMatch (r : ModelInterfaceRequest) : option ustring :=
  match rq_mode r with RVerify _ => None | RDescriptor _ i => i end.

Definition mode_name (m : request_mode) : ustring :=
  match m with RVerify _ => $"verify" | RDescriptor _ _ => $"descriptor" end.

(** ** Decoding *)

Definition decodeAcceptedSchemas (value : js) (path : ustring) : res exn (list ustring) :=
  raw ← array value path;
  _ ← require_at (negb (length raw =? 0)%nat) path ($"at least one schema is required");
  _ ← require_length raw 8 path ($"at most eight schemas are accepted");
  schemas ← mapMi (fun i item => string_val item (idx path i)) raw;
  _ ← require_at (nonempty_all schemas) path ($"schema names must not be empty");
  _ ← require_at (no_dups schemas) path ($"duplicate schema name");
  mret schemas.

Definition request_fields : list ustring :=
  [$"schema"; $"request"; $"policy"; $"acceptDescriptorSchemas"; $"expectedSemanticDigest";
   $"ifNoneMatch"; $"contract"].
Definition request_required : list ustring :=
  [$"schema"; $"request"; $"policy"; $"acceptDescriptorSchemas"; $"contract"].

(** The single field of the contract reference must be [inline]. *)
Definition inlineContract (value : js) (path : ustring) : res exn js :=
  contractReference ← object value path;
  match keys contractReference with
  | [name] =>
      if name =s "digest" then
        fail (dot path "digest") ($"digest contract references are unsupported in version 1")
      else if name =s "inline" then Ok (getf contractReference ($"inline"))
      else fail path ($"unknown contract reference '" ++ name ++ $"'")
  | _ => fail path ($"exactly one contract reference form is required")
  end.

(** The digests a mode requires and forbids. *)
Definition decodeMode (request : ustring) (expectedSemanticDigest ifNoneMatch : option ustring)
  (path : ustring) : res exn request_mode :=
  if request =s "verify" then
    match expectedSemanticDigest, ifNoneMatch with
    | None, _ => fail (dot path "expectedSemanticDigest") ($"required for verify")
    | Some _, Some _ => fail (dot path "ifNoneMatch") ($"allowed only for descriptor requests")
    | Some d, None => Ok (RVerify d)
    end
  else Ok (RDescriptor expectedSemanticDigest ifNoneMatch).

Definition decodeRequestValue (value : js) : res exn ModelInterfaceRequest :=
  let path := $"modelInterface" in
  fields ← exactObject value path request_fields request_required;
  _ ← require_at (is_text (getf fields ($"schema")) NEGOTIATION_SCHEMA) (dot path "schema")
        ($"expected '" ++ NEGOTIATION_SCHEMA ++ $"'");
  request ← string_val (getf fields ($"request")) (dot path "request");
  _ ← require_at ((request =s "verify") || (request =s "descriptor")) (dot path "request")
        ($"unknown request mode '" ++ request ++ $"'");
  policyName ← string_val (getf fields ($"policy")) (dot path "policy");
  policy ← one_of (policy_of policyName) (dot path "policy") ($"expected 'require' or 'prefer'");
  schemas ← decodeAcceptedSchemas (getf fields ($"acceptDescriptorSchemas"))
              (dot path "acceptDescriptorSchemas");
  expectedSemanticDigest ← digestField fields "expectedSemanticDigest" path;
  ifNoneMatch ← digestField fields "ifNoneMatch" path;
  mode ← decodeMode request expectedSemanticDigest ifNoneMatch path;
  inline ← inlineContract (getf fields ($"contract")) (dot path "contract");
  contract ← decodeContractV1 inline;
  mret (MkRequest policy schemas mode contract).

Definition decodeModelInterfaceRequest (value : js) : res exn ModelInterfaceRequest :=
  decodeRequestValue value.

Definition parseModelInterfaceRequest (text : ustring) : res exn ModelInterfaceRequest :=
  value ← parseStrictJson text; decodeRequestValue value.

(** ** Building *)

Definition createVerifyRequest (semanticDigest : ustring) (contract : js) (policy : ustring)
  : res exn ModelInterfaceRequest :=
  p ← one_of (policy_of policy) ($"modelInterface.policy") ($"expected 'require' or 'prefer'");
  digest ← semanticDigestFromHex semanticDigest;
  c ← decodeContractV1 contract;
  mret (MkRequest p [DESCRIPTOR_SCHEMA] (RVerify digest) c).

Record DescriptorRequestOptions := MkOptions {
  op_policy : option ustring;
  op_expectedSemanticDigest : option ustring;
  op_ifNoneMatch : option ustring;
  op_acceptDescriptorSchemas : option (list ustring) }.

(** [...(d === undefined ? {} : { name: renderWireSemanticDigest(d) })] *)
Definition rendered (name : string) (d : option ustring) : res exn object_t :=
  match d return res exn object_t with
  | None => Ok []
  | Some d => (fun w => [(lit name, JStr w)]) <$> renderWireSemanticDigest d
  end.

Definition createDescriptorRequest (contract : js) (options : DescriptorRequestOptions)
  : res exn ModelInterfaceRequest :=
  expected ← rendered "expectedSemanticDigest" (op_expectedSemanticDigest options);
  none ← rendered "ifNoneMatch" (op_ifNoneMatch options);
  let value := JObj (
    [($"schema", JStr NEGOTIATION_SCHEMA);
     ($"request", JStr ($"descriptor"));
     ($"policy", JStr (default ($"require") (op_policy options)));
     ($"acceptDescriptorSchemas",
        strings_js (default [DESCRIPTOR_SCHEMA] (op_acceptDescriptorSchemas options)));
     ($"contract", JObj [($"inline", contract)])] ++ expected ++ none) in
  request ← decodeRequestValue value;
  match rq_mode request with
  | RDescriptor _ _ => mret request
  | RVerify _ => fail ($"modelInterface.request") ($"expected 'descriptor'")
  end.

(** ** Writing *)

(** The run-time object of a request; its digests have no prefix. *)
Definition request_js (r : ModelInterfaceRequest) : object_t :=
  [($"schema", JStr NEGOTIATION_SCHEMA);
   ($"policy", JStr (policy_name (rq_policy r)));
   ($"acceptDescriptorSchemas", strings_js (rq_acceptDescriptorSchemas r));
   ($"contract", JObj [($"inline", contract_js (rq_contract r))]);
   ($"request", JStr (mode_name (rq_mode r)))] ++
  opt_field "expectedSemanticDigest" (JStr <$> rq_expected r) ++
  opt_field "ifNoneMatch" (JStr <$> rq_ifNoneMatch r).

(** [{ ...o, ...fields }] *)
Definition obj_merge (o fields : object_t) : object_t :=
  foldl (fun o kv => obj_set o kv.1 kv.2) o fields.

Definition wireRequest (request : ModelInterfaceRequest) : res exn js :=
  expected ← rendered "expectedSemanticDigest" (rq_expected request);
  none ← rendered "ifNoneMatch" (rq_ifNoneMatch request);
  normalized ← decodeRequestValue (JObj (obj_merge (obj_merge (request_js request) expected) none));
  expected' ← rendered "expectedSemanticDigest" (rq_expected normalized);
  none' ← rendered "ifNoneMatch" (rq_ifNoneMatch normalized);
  mret (JObj (
    [($"schema", JStr NEGOTIATION_SCHEMA);
     ($"request", JStr (mode_name (rq_mode normalized)));
     ($"policy", JStr (policy_name (rq_policy normalized)));
     ($"acceptDescriptorSchemas", strings_js (rq_acceptDescriptorSchemas normalized))] ++
    expected' ++ none' ++
    [($"contract", JObj [($"inline", contract_js (rq_contract normalized))])])).

(** ** Facts *)

Definition opt_digest (d : option ustring) : Prop :=
  match d with Some d => is_digest d = true | None => True end.

(** The requests a client can hold. *)
Definition request_wf (r : ModelInterfaceRequest) : Prop :=
  let schemas := rq_acceptDescriptorSchemas r in
  (schemas <> [] /\ (length schemas <= 8)%nat /\ Forall (fun s => well_formed s = true) schemas /\
   ([] ∉ schemas) /\ NoDup schemas) /\
  opt_digest (rq_expected r) /\ opt_digest (rq_ifNoneMatch r) /\
  exists v, decodeContractV1 v = Ok (rq_contract r).

Lemma policy_of_Ok s p : policy_of s = Some p <-> s = policy_name p.
Proof.
  unfold policy_of. split.
  - repeat case_bool_decide; intros [= <-]; done.
  - intros ->. by destruct p.
Qed.

Lemma parse_wire_digest w d :
  parseWireSemanticDigest w = Ok d -> is_digest d = true.
Proof.
  unfold parseWireSemanticDigest. destruct (bool_decide _); [|done].
  by intros [-> ?]%semanticDigestFromHex_Ok.
Qed.

Lemma digestField_Ok o name p r : digestField o name p = Ok r -> opt_digest r.
Proof.
  unfold digestField. intros H%optional_Ok. destruct r as [d|]; [|done].
  cbn [opt_rep] in H. destruct H as (_ & _ & H). apply res_bind_Ok in H as (s & _ & H).
  by eapply parse_wire_digest.
Qed.

Lemma decodeAcceptedSchemas_Ok v p schemas :
  decodeAcceptedSchemas v p = Ok schemas <->
  exists l, v = JArr l /\ Forall2 rep_text l schemas /\
    (schemas <> [] /\ (length schemas <= 8)%nat /\ ([] ∉ schemas) /\ NoDup schemas).
Proof.
  unfold decodeAcceptedSchemas. split.
  - intros H. dec_inv.
    match goal with H : mapMi _ _ = Ok _ |- _ => apply (mapMi_Ok _ rep_text) in H as HF; [|intros; apply string_val_Ok] end.
    match goal with H : nonempty_all _ = true |- _ => apply nonempty_all_Ok in H end.
    match goal with H : no_dups _ = true |- _ => apply no_dups_NoDup in H end.
    eexists. split_and!; try done.
    + intros ->. inversion HF; subst. done.
    + by rewrite <- (Forall2_length _ _ _ HF).
  - intros (l & -> & HF & Hne & Hlen & Hemp & Hnd). cbn [array]. rewrite <- (Forall2_length _ _ _ HF) in Hlen.
    erewrite bind_ok by reflexivity.
    erewrite bind_ok by (apply (require_at_Ok _ _ _ tt); inversion HF; by subst). dec_run.
    erewrite bind_ok by (apply (mapMi_Ok _ rep_text); [intros; apply string_val_Ok|eassumption]).
    erewrite bind_ok by (apply (require_at_Ok _ _ _ tt), nonempty_all_Ok; eassumption).
    erewrite bind_ok by (apply (require_at_Ok _ _ _ tt), no_dups_NoDup; eassumption). done.
Qed.

Lemma inlineContract_Ok v p c : inlineContract v p = Ok c <-> v = JObj [($"inline", c)].
Proof.
  unfold inlineContract. split.
  - intros H. apply res_bind_Ok in H as (o & ->%object_Ok & H).
    destruct o as [|[k x] [|]]; [done| |done]. cbn [keys map fst] in H.
    destruct (bool_decide (k = lit "digest")); [done|].
    destruct (bool_decide (k = lit "inline")) eqn:E; [|done].
    apply bool_decide_eq_true in E as ->. rewrite getf_single in H. by injection H as ->.
  - intros ->. done.
Qed.

Lemma decodeMode_Ok request e n p m :
  (request = $"verify" \/ request = $"descriptor") ->
  decodeMode request e n p = Ok m <->
  request = mode_name m /\
  match m with RVerify d => e = Some d /\ n = None | RDescriptor e' n' => e = e' /\ n = n' end.
Proof.
  unfold decodeMode. intros [-> | ->]; lit_simp.
  - destruct e as [d|], n as [i|]; (split; [intros H; try discriminate H; try (injection H as <-); done|intros [Hm H]]);
      destruct m; try discriminate Hm; destruct H as [H1 H2]; try discriminate; by simplify_eq.
  - split; [by intros [= <-]|]. intros [Hm H]. destruct m; [discriminate Hm|]. by destruct H as [-> ->].
Qed.

Lemma mode_cases (request : ustring) :
  (request =s "verify") || (request =s "descriptor") = true <->
  request = $"verify" \/ request = $"descriptor".
Proof. by rewrite orb_true_iff, !bool_decide_eq_true. Qed.

Lemma decode_request_wf v r : decodeRequestValue v = Ok r -> request_wf r.
Proof.
  unfold decodeRequestValue, request_wf. intros H. dec_inv.
  match goal with H : decodeAcceptedSchemas _ _ = _ |- _ =>
    apply decodeAcceptedSchemas_Ok in H as (l & _ & HF & ? & ? & ? & ?) end.
  repeat match goal with H : digestField _ _ _ = Ok _ |- _ => apply digestField_Ok in H end.
  match goal with H : _ || _ = true |- _ => apply mode_cases in H end.
  match goal with H : decodeMode _ _ _ _ = Ok ?m |- _ => apply decodeMode_Ok in H as [_ Hm]; [|done] end.
  unfold rq_expected, rq_ifNoneMatch. cbn [rq_policy rq_acceptDescriptorSchemas rq_mode rq_contract].
  split_and!; try done; [|..|eauto].
  - eapply Forall2_Forall_right; [|exact HF]. by intros ? ? [_ ?].
  - match goal with |- opt_digest (match ?m with _ => _ end) => destruct m end; destruct Hm as [? ?]; by subst.
  - match goal with |- opt_digest (match ?m with _ => _ end) => destruct m end; destruct Hm as [? ?]; by subst.
Qed.

(** The field a digest is written in. *)
Definition digest_field_of (d : option ustring) : js :=
  match d with Some d => JStr (digest_prefix ++ d) | None => JUndef end.

Lemma rendered_Ok name d :
  opt_digest d ->
  rendered name d = Ok (match d with Some d => [(lit name, JStr (digest_prefix ++ d))] | None => [] end).
Proof.
  destruct d as [d|]; [|done]. intros H. unfold rendered, renderWireSemanticDigest.
  by rewrite (proj2 (semanticDigestFromHex_Ok d d)).
Qed.

Lemma digest_well_formed d : is_digest d = true -> well_formed (digest_prefix ++ d) = true.
Proof.
  intros [_ Hd]%andb_true_iff.
  assert (Forall (fun c => (c < 0xd800)%N) (digest_prefix ++ d)) as H.
  { apply Forall_app. split; [by repeat constructor|].
    apply Forall_forall. intros c Hc. rewrite forallb_forall in Hd.
    apply list_elem_of_In, Hd in Hc. unfold is_lower_hex, is_digit in *. lia. }
  induction H as [|c s H1 _ IH]; [done|]. cbn [well_formed].
  by rewrite (proj2 (N.ltb_lt _ _) H1).
Qed.

Lemma digestField_run o name p d :
  opt_digest d -> getf o (lit name) = digest_field_of d -> digestField o name p = Ok d.
Proof.
  intros Hd Ho. unfold digestField. rewrite Ho. destruct d as [d|]; [|done].
  cbn [optional digest_field_of fmap res_fmap]. unfold string_val.
  rewrite digest_well_formed by done. cbn [mbind res_mbind].
  destruct (parse_render_digest d (digest_prefix ++ d)) as [-> _]; [|done].
  unfold renderWireSemanticDigest. by rewrite (proj2 (semanticDigestFromHex_Ok d d)).
Qed.

(** Any object with a request's fields decodes to the request. *)
Lemma decode_request_run o r :
  request_wf r -> has_keys o request_fields request_required = true ->
  getf o ($"schema") = JStr NEGOTIATION_SCHEMA ->
  getf o ($"request") = JStr (mode_name (rq_mode r)) ->
  getf o ($"policy") = JStr (policy_name (rq_policy r)) ->
  getf o ($"acceptDescriptorSchemas") = strings_js (rq_acceptDescriptorSchemas r) ->
  getf o ($"expectedSemanticDigest") = digest_field_of (rq_expected r) ->
  getf o ($"ifNoneMatch") = digest_field_of (rq_ifNoneMatch r) ->
  getf o ($"contract") = JObj [($"inline", contract_js (rq_contract r))] ->
  decodeRequestValue (JObj o) = Ok r.
Proof.
  intros ((Hne & Hlen & Hw & Hemp & Hnd) & Hde & Hdn & v & Hv) Hk Hs Hr Hp Ha He Hn Hc.
  unfold decodeRequestValue. dec_run.
  erewrite bind_ok by (apply (require_at_Ok _ _ _ tt), is_text_Ok; eassumption).
  erewrite bind_ok by (apply string_val_Ok; split; [eassumption|by destruct (rq_mode r)]).
  erewrite bind_ok by (apply (require_at_Ok _ _ _ tt), mode_cases; destruct (rq_mode r); [by left|by right]).
  erewrite bind_ok by (apply string_val_Ok; split; [eassumption|by destruct (rq_policy r)]).
  erewrite bind_ok by (apply one_of_Ok, policy_of_Ok; reflexivity).
  erewrite bind_ok by (apply decodeAcceptedSchemas_Ok; eexists; split; [eassumption|];
    split; [apply Forall2_fmap_l, Forall_Forall2_diag; eapply Forall_impl; [exact Hw|by split]|done]).
  erewrite bind_ok by (apply digestField_run; [exact Hde|exact He]).
  erewrite bind_ok by (apply digestField_run; [exact Hdn|exact Hn]).
  erewrite bind_ok.
  2: { apply decodeMode_Ok; [destruct (rq_mode r); [by left|by right]|]. split; [reflexivity|].
       unfold rq_expected, rq_ifNoneMatch. by destruct (rq_mode r). }
  erewrite bind_ok by (apply inlineContract_Ok; eassumption).
  erewrite bind_ok by (by eapply decode_contract_js). by destruct r.
Qed.

(** ** Theorems *)

(** How a client comes by a request. *)
Definition obtained (r : ModelInterfaceRequest) : Prop :=
  (exists digest contract policy, createVerifyRequest digest contract policy = Ok r) \/
  (exists contract options, createDescriptorRequest contract options = Ok r) \/
  (exists value, decodeModelInterfaceRequest value = Ok r).

Lemma obtained_wf r : obtained r -> request_wf r.
Proof.
  intros [(d & c & p & H) | [(c & o & H) | (v & H)]].
  - unfold createVerifyRequest in H. dec_inv.
    match goal with H : semanticDigestFromHex _ = _ |- _ => apply semanticDigestFromHex_Ok in H as [-> ?] end.
    unfold request_wf. cbn [rq_acceptDescriptorSchemas rq_contract]. split_and!; try done; [cbn; lia|..|eauto].
    + by repeat constructor.
    + by intros [?|?%not_elem_of_nil]%elem_of_cons.
    + apply NoDup_singleton.
  - unfold createDescriptorRequest in H. dec_inv.
    match goal with H : decodeRequestValue _ = Ok ?r' |- _ => apply decode_request_wf in H as Hwf; rename r' into q end.
    match goal with H : match rq_mode q with _ => _ end = _ |- _ => destruct (rq_mode q) eqn:E; [done|]; by injection H as <- end.
  - by eapply decode_request_wf.
Qed.

(** The fields of a request's object, for each of its modes; the field values
    play no part. *)
Ltac shape_by_mode r :=
  generalize (contract_js (rq_contract r)), (strings_js (rq_acceptDescriptorSchemas r)),
    (policy_name (rq_policy r)); intros contract schemas policy;
  destruct (rq_mode r) as [d|[d|] [i|]]; vm_compute; reflexivity.

Lemma normalized_request r :
  request_wf r ->
  exists e n, rendered "expectedSemanticDigest" (rq_expected r) = Ok e /\
    rendered "ifNoneMatch" (rq_ifNoneMatch r) = Ok n /\
    decodeRequestValue (JObj (obj_merge (obj_merge (request_js r) e) n)) = Ok r.
Proof.
  intros Hwf. pose proof Hwf as (_ & Hde & Hdn & _).
  do 2 eexists. split; [by apply rendered_Ok|]. split; [by apply rendered_Ok|].
  apply decode_request_run; [exact Hwf|..]; unfold request_js, rq_expected, rq_ifNoneMatch;
    shape_by_mode r.
Qed.

Lemma wireRequest_decodes r : request_wf r ->
  exists w, wireRequest r = Ok w /\ decodeModelInterfaceRequest w = Ok r.
Proof.
  intros Hwf. destruct (normalized_request r Hwf) as (e & n & He & Hn & Hdec).
  unfold wireRequest. rewrite He, Hn. cbn [mbind res_mbind]. rewrite Hdec. cbn [mbind res_mbind].
  rewrite He, Hn. eexists. split; [reflexivity|].
  pose proof Hwf as (_ & Hde & Hdn & _).
  rewrite rendered_Ok in He, Hn by done. injection He as <-. injection Hn as <-.
  apply decode_request_run; [exact Hwf|..]; unfold rq_expected, rq_ifNoneMatch;
    shape_by_mode r.
Qed.

(** Every request a client builds or decodes can be sent: writing it does
    not throw, and the receiver that decodes the written value gets the same
    request. *)
Theorem request_wire_roundtrip (r : ModelInterfaceRequest) (Hr : obtained r) :
  exists w, wireRequest r = Ok w /\ decodeModelInterfaceRequest w = Ok r.
Proof. apply wireRequest_decodes, obtained_wf, Hr. Qed.

Definition sample_contract : ContractV1 :=
  MkContract ($"1.0.0") ($"Token") ($"Token.tla") ($"action_taken") (Some ($"params"))
    [MkCAction ($"Init") ($"init") [] []]
    [MkCAction ($"Transfer") ($"transfer") [$"move"]
       [MkCInput ($"To") StepParameters [PField ($"to"); PIndex 3] (Some TStr);
        MkCInput ($"Amount") StepParameters [PField ($"amount")] None]]
    [MkCObservation ($"Balance") ($"balance") Implementation (Some (TMap TStr TInt))].

Lemma request_wire_roundtrip_witness :
  exists r, obtained r /\ exists w, wireRequest r = Ok w /\ decodeModelInterfaceRequest w = Ok r.
Proof.
  pose (r := MkRequest PolicyRequire [DESCRIPTOR_SCHEMA] (RVerify (repeat 0x61%N 64)) sample_contract).
  assert (obtained r) as H.
  { left. exists (repeat 0x61%N 64), (contract_js sample_contract), ($"require"). vm_compute. reflexivity. }
  exists r. split; [exact H|]. apply (request_wire_roundtrip r H).
Defined.
