(* ===== verification/Replies.v ===== *)
(** * Negotiation replies

    [ModelInterfaceReply] and [ModelInterfaceFailure] of
    [src/src/model-interface.ts] with their decoders. A [resolved] reply is
    believed only after the descriptor's canonical size and digest have been
    recomputed. *)

From S2P Require Import Prelude JsNumber Utf16 JsData StrictJson Decode ModelTypes Canonical Descriptor DescriptorFacts Contract Requests Digest.

Record identity := MkIdentity {
  id_semanticDigest : ustring;
  id_provenanceDigest : option ustring }.

Inductive ModelInterfaceReply :=
| Matched (i : identity)
| Resolved (i : identity) (descriptorBytes : Z) (descriptor : SemanticDescriptor)
| NotModified (i : identity)
| TooLarge (i : identity) (descriptorBytes : Z)
| Mismatch (descriptorSchema semanticDigest provenanceDigest : option ustring)
| Unsupported
| Unavailable.

Inductive failure_status := FMismatch | FUnsupported | FUnavailable | FTooLarge.

Record ModelInterfaceFailure := MkFailure {
  mf_status : failure_status;
  mf_code : ustring;
  mf_expectedSemanticDigest : option ustring;
  mf_actualSemanticDigest : option ustring;
  mf_provenanceDigest : option ustring;
  mf_descriptorBytes : option Z }.

Definition failure_status_of (status : ustring) : option failure_status :=
  if status =s "mismatch" then Some FMismatch
  else if status =s "unsupported" then Some FUnsupported
  else if status =s "unavailable" then Some FUnavailable
  else if status =s "too_large" then Some FTooLarge else None.

Definition requireDescriptorIdentity (fields : object_t) (path : ustring) : res exn identity :=
  _ ← require_at (is_text (getf fields ($"descriptorSchema")) DESCRIPTOR_SCHEMA)
        (dot path "descriptorSchema") ($"expected '" ++ DESCRIPTOR_SCHEMA ++ $"'");
  semanticDigest ← digestField fields "semanticDigest" path;
  d ← one_of semanticDigest (dot path "semanticDigest") ($"required for this status");
  provenanceDigest ← digestField fields "provenanceDigest" path;
  mret (MkIdentity d provenanceDigest).

(** [if (value !== undefined) fail(...)] *)
Definition forbidden {A} (value : option A) (path msg : ustring) : res exn unit :=
  match value with None => Ok tt | Some _ => fail path msg end.

(** The fields a bare status forbids, one after the other. *)
Fixpoint forbid_fields (fields : object_t) (names : list ustring) (status path : ustring) : res exn unit :=
  match names with
  | [] => Ok tt
  | name :: names' =>
      match getf fields name with
      | JUndef | JNull => forbid_fields fields names' status path
      | _ => fail path ($"field '" ++ name ++ $"' is forbidden for " ++ status)
      end
  end.

Definition reply_names : list ustring :=
  [$"schema"; $"status"; $"descriptorSchema"; $"semanticDigest"; $"provenanceDigest";
   $"descriptorBytes"; $"descriptor"].

Section sha256.
Context (sha256 : list N -> ustring).

Definition decodeModelInterfaceReply (value : js) : res exn ModelInterfaceReply :=
  let path := $"modelInterface" in
  fields ← exactObject value path reply_names [$"schema"; $"status"];
  _ ← require_at (is_text (getf fields ($"schema")) NEGOTIATION_SCHEMA) (dot path "schema")
        ($"expected '" ++ NEGOTIATION_SCHEMA ++ $"'");
  status ← string_val (getf fields ($"status")) (dot path "status");
  descriptorBytes ← optional (getf fields ($"descriptorBytes"))
        (fun value => nonnegativeInteger value (dot path "descriptorBytes"));
  descriptor ← optional (getf fields ($"descriptor")) decodeSemanticDescriptorValue;
  if status =s "matched" then
    identity ← requireDescriptorIdentity fields path;
    _ ← forbidden descriptor (dot path "descriptor") ($"forbidden for matched");
    _ ← forbidden descriptorBytes (dot path "descriptorBytes") ($"forbidden for matched");
    mret (Matched identity)
  else if status =s "resolved" then
    identity ← requireDescriptorIdentity fields path;
    d ← one_of descriptor (dot path "descriptor") ($"required for resolved");
    n ← one_of descriptorBytes (dot path "descriptorBytes") ($"required for resolved");
    canonicalBytes ← canonicalSemanticDescriptorBytes (descriptor_js d);
    _ ← require_at (n =? Z.of_nat (length canonicalBytes))%Z (dot path "descriptorBytes")
          ($"expected " ++ dec_of_N (N.of_nat (length canonicalBytes)));
    actualDigest ← semanticDescriptorDigest sha256 (descriptor_js d);
    _ ← require_at (bool_decide (id_semanticDigest identity = actualDigest))
          (dot path "semanticDigest") ($"does not match canonical descriptor");
    mret (Resolved identity n d)
  else if status =s "not_modified" then
    identity ← requireDescriptorIdentity fields path;
    _ ← forbidden descriptor (dot path "descriptor") ($"forbidden for not_modified");
    _ ← forbidden descriptorBytes (dot path "descriptorBytes") ($"forbidden for not_modified");
    mret (NotModified identity)
  else if status =s "too_large" then
    identity ← requireDescriptorIdentity fields path;
    _ ← forbidden descriptor (dot path "descriptor") ($"forbidden for too_large");
    n ← one_of descriptorBytes (dot path "descriptorBytes") ($"required for too_large");
    mret (TooLarge identity n)
  else if status =s "mismatch" then
    _ ← forbidden descriptor (dot path "descriptor") ($"forbidden for failure status");
    _ ← forbidden descriptorBytes (dot path "descriptorBytes") ($"forbidden for mismatch");
    descriptorSchema ← optional (getf fields ($"descriptorSchema"))
          (fun value => string_val value (dot path "descriptorSchema"));
    semanticDigest ← digestField fields "semanticDigest" path;
    provenanceDigest ← digestField fields "provenanceDigest" path;
    mret (Mismatch descriptorSchema semanticDigest provenanceDigest)
  else if (status =s "unsupported") || (status =s "unavailable") then
    _ ← forbid_fields fields [$"descriptorSchema"; $"semanticDigest"; $"provenanceDigest";
          $"descriptorBytes"; $"descriptor"] status path;
    mret (if status =s "unsupported" then Unsupported else Unavailable)
  else fail (dot path "status") ($"unknown negotiation status '" ++ status ++ $"'").

Definition parseModelInterfaceReply (text : ustring) : res exn ModelInterfaceReply :=
  value ← parseStrictJson text; decodeModelInterfaceReply value.
End sha256.

Definition failure_names : list ustring :=
  [$"schema"; $"status"; $"code"; $"expectedSemanticDigest"; $"actualSemanticDigest";
   $"provenanceDigest"; $"descriptorBytes"].

Definition is_some {A} (o : option A) : bool := match o with Some _ => true | None => false end.

Definition decodeModelInterfaceFailure (value : js) : res exn ModelInterfaceFailure :=
  let path := $"modelInterface" in
  fields ← exactObject value path failure_names [$"schema"; $"status"; $"code"];
  _ ← require_at (is_text (getf fields ($"schema")) NEGOTIATION_SCHEMA) (dot path "schema")
        ($"expected '" ++ NEGOTIATION_SCHEMA ++ $"'");
  statusName ← string_val (getf fields ($"status")) (dot path "status");
  status ← one_of (failure_status_of statusName) (dot path "status")
        ($"success or unknown status '" ++ statusName ++ $"' is invalid on register_error");
  code ← string_val (getf fields ($"code")) (dot path "code");
  _ ← require_at (negb (bool_decide (code = []))) (dot path "code") ($"must not be empty");
  descriptorBytes ← optional (getf fields ($"descriptorBytes"))
        (fun value => nonnegativeInteger value (dot path "descriptorBytes"));
  expectedSemanticDigest ← digestField fields "expectedSemanticDigest" path;
  actualSemanticDigest ← digestField fields "actualSemanticDigest" path;
  provenanceDigest ← digestField fields "provenanceDigest" path;
  _ ← require_at (match status with FMismatch => is_some expectedSemanticDigest | _ => true end)
        (dot path "expectedSemanticDigest") ($"required for mismatch");
  _ ← require_at (match status with FTooLarge => is_some descriptorBytes | _ => true end)
        (dot path "descriptorBytes") ($"required for too_large");
  mret (MkFailure status code expectedSemanticDigest actualSemanticDigest provenanceDigest descriptorBytes).

Definition parseModelInterfaceFailure (text : ustring) : res exn ModelInterfaceFailure :=
  value ← parseStrictJson text; decodeModelInterfaceFailure value.

(** ** Theorems *)

Section theorems.
Context (sha256 : list N -> ustring).

Lemma identity_digest fields path i :
  requireDescriptorIdentity fields path = Ok i ->
  is_digest (id_semanticDigest i) = true /\ opt_digest (id_provenanceDigest i).
Proof.
  unfold requireDescriptorIdentity. intros H. dec_inv. cbn [id_semanticDigest id_provenanceDigest].
  match goal with H : one_of _ _ _ = _ |- _ => apply one_of_Ok in H as -> end.
  repeat match goal with H : digestField _ _ _ = Ok _ |- _ => apply digestField_Ok in H end. by split.
Qed.

(** C38: a [resolved] reply is accepted only if the descriptor it carries decodes,
    the stated size is the length of its canonical UTF-8 bytes, and the stated
    digest is the domain-separated hash of those bytes: a server cannot have a
    client accept a descriptor under another descriptor's digest. *)
Theorem resolved_reply_verified (value : js) (i : identity) (n : Z) (d : SemanticDescriptor)
  (Hreply : decodeModelInterfaceReply sha256 value = Ok (Resolved i n d)) :
  exists text,
    decodeSemanticDescriptor (descriptor_js d) = Ok d /\
    canonicalSemanticDescriptorString (descriptor_js d) = Ok text /\
    n = Z.of_N (byteLength text) /\ (n <= 32768)%Z /\
    id_semanticDigest i = sha256 (utf8_bytes DIGEST_DOMAIN ++ [0%N] ++ utf8_bytes text) /\
    is_digest (id_semanticDigest i) = true.
Proof.
  unfold decodeModelInterfaceReply in Hreply.
  repeat (apply res_bind_Ok in Hreply as (? & ? & Hreply)).
  split_kind; repeat (apply res_bind_Ok in Hreply as (? & ? & Hreply)).
  2: {
    injection Hreply as -> -> ->.
    match goal with H : requireDescriptorIdentity _ _ = _ |- _ => apply identity_digest in H as [? _] end.
    match goal with H : optional _ decodeSemanticDescriptorValue = Ok ?r,
      H' : one_of ?r _ _ = _ |- _ => apply one_of_Ok in H' as ->; apply optional_Ok in H as (_ & _ & Hd) end.
    pose proof Hd as [_ (_ & text & Ht & Hb)]%decodeSemanticDescriptorValue_spec.
    assert (canonicalSemanticDescriptorString (descriptor_js d) = Ok text) as Hs
      by (by eapply canonicalString_decoded).
    unfold semanticDescriptorDigest, canonicalSemanticDescriptorBytes in *. rewrite Hs in *.
    cbn [fmap res_fmap mbind res_mbind] in *.
    match goal with H : Ok (utf8_bytes _) = Ok _ |- _ => injection H as <- end.
    match goal with H : semanticDigestFromHex _ = _ |- _ => apply semanticDigestFromHex_Ok in H as [-> _] end.
    repeat match goal with H : require_at _ _ _ = _ |- _ => apply require_at_Ok in H end.
    match goal with H : bool_decide _ = true |- _ => apply bool_decide_eq_true in H end.
    match goal with H : (_ =? _)%Z = true |- _ => apply Z.eqb_eq in H as -> end.
    exists text. pose proof (utf8_bytes_length text). unfold MAX_DESCRIPTOR_BYTES in Hb.
    split_and!; try done; [by eapply decode_descriptor_js|lia|lia]. }
  all: try discriminate Hreply.
  destruct (_ || _); [|done]. apply res_bind_Ok in Hreply as (? & _ & Hreply).
  by destruct (bool_decide _).
Qed.
End theorems.

Definition sample_reply : js :=
  let d := descriptor_js (sample_descriptor false) in
  let size := match canonicalSemanticDescriptorBytes d with
              | Ok bytes => Z.of_nat (length bytes) | Err _ => 0%Z end in
  JObj [($"schema", JStr NEGOTIATION_SCHEMA); ($"status", JStr ($"resolved"));
        ($"descriptorSchema", JStr DESCRIPTOR_SCHEMA);
        ($"semanticDigest", JStr (digest_prefix ++ zero_hash []));
        ($"descriptorBytes", JNum (num_of_Z size)); ($"descriptor", d)].

Lemma resolved_reply_verified_witness :
  exists i n d, decodeModelInterfaceReply zero_hash sample_reply = Ok (Resolved i n d) /\
  exists text,
    decodeSemanticDescriptor (descriptor_js d) = Ok d /\
    canonicalSemanticDescriptorString (descriptor_js d) = Ok text /\
    n = Z.of_N (byteLength text) /\ (n <= 32768)%Z /\
    id_semanticDigest i = zero_hash (utf8_bytes DIGEST_DOMAIN ++ [0%N] ++ utf8_bytes text) /\
    is_digest (id_semanticDigest i) = true.
Proof.
  do 3 eexists. assert (decodeModelInterfaceReply zero_hash sample_reply = Ok (Resolved _ _ _)) as H
    by (vm_compute; reflexivity).
  split; [exact H|]. exact (resolved_reply_verified zero_hash sample_reply _ _ _ H).
Defined.
