(* ===== verification/Protocol.v ===== *)
(** * The line protocol

    [src/src/protocol.ts]: the ITF values, the messages, their encoding
    ([encodeValue], [encodeState], [encodeReportState], [encodeClientMessage])
    and decoding ([walk], [walkMessage], [decodeMirrorMessage]).

    The source casts the fields of a message with [as]. A field of a message
    record is therefore the JavaScript value found there ([js]), and a state is
    a [cell]: the record [walk] returned, or, when the value was not a record,
    what the cast hides. [walk] on an object with a [proto_step] field returns
    a message in the place of a value: [VMessage]. *)

From Stdlib Require Import SpecFloat.
From S2P Require Import Prelude JsNumber Utf16 JsData StrictJson Decode JsText.

(** ** Data *)

Inductive TransitionStatus := Enabled | Disabled | TransitionUnknown.
Inductive InvariantStatus := Satisfied | Violated | InvariantUnknown.
Inductive JobPhase := Pending | Running | Done | Failed | Cancelled | PhaseUnknown.
Inductive JobKind := ValidateJob | GenTracesJob.

Inductive ValidateResult := Valid | Invalid (reason : js).

Inductive PathSeg := SegField (field : ustring) | SegIndex (index : js).

Inductive JobOutcome :=
| OutcomeValidate (result : ValidateResult)
| OutcomeGenTraces (itfTracePaths itfTraces : js)
| OutcomeError (error : js).

Inductive Value :=
| VInt (val : Z)
| VBool (val : bool)
| VStr (val : ustring)
| VSet (val : list Value)
| VSeq (val : list Value)
| VTuple (val : list Value)
| VMap (val : list (Value * Value))
| VRecord (val : list (ustring * Value))
| VVariant (variantTag : ustring) (value : Value)
| VUnserializable (val : ustring)
| VNull
| VMessage (m : MirrorMessage)
with cell :=
| CState (fields : list (ustring * Value))
| COther (v : Value)
with DiffHint :=
| HValueMismatch (path : list PathSeg) (expected actual : Value)
| HMissing (path : list PathSeg) (expected : Value)
| HExtra (path : list PathSeg) (actual : Value)
| HMissingElem (path : list PathSeg) (expected : Value)
| HExtraElem (path : list PathSeg) (actual : Value)
| HTypeMismatch (path : list PathSeg) (expected actual : Value)
| HTruncated (path : list PathSeg)
with MirrorMessage :=
| SpecValidated (result : ValidateResult)
| InitialState (action : js) (state : cell)
| NextStep (action : js) (parameters : cell)
| StepOk
| StepMismatch (action : js) (expected actual : cell) (hints : option (list DiffHint))
| AllStepsDone
| GenTracesDone (itfTracePaths itfTraces : js)
| ProtocolError (error : js)
| RegisterError (error : js)
| JobAccepted (jobId kind : js)
| JobStatus (jobId phase : js)
| JobResult (jobId : js) (outcome : JobOutcome)
| ExplorerReady (initTransitions nextTransitions stateInvariants : js)
| ExploreTransitionStatus (status : js)
| ExploreStepDone (stepNo : js)
| ExploreState (state : cell)
| ExploreInvariantStatus (status : js)
| ExploreAssumeStatus (status : js)
| ExploreRollbackDone (snapshotId : js)
| ExploreSessionDone.

Abbreviation State := (list (ustring * Value)).

(** ** Encoding *)

Fixpoint encodeValue (v : Value) : js :=
  match v with
  | VInt val => JObj [($"#bigint", JStr (dec_of_Z val))]
  | VBool val => JBool val
  | VStr val => JStr val
  | VSet val => JObj [($"#set", JArr (map encodeValue val))]
  | VSeq val => JArr (map encodeValue val)
  | VTuple val => JObj [($"#tup", JArr (map encodeValue val))]
  | VMap val => JObj [($"#map", JArr (map (fun e => JArr [encodeValue e.1; encodeValue e.2]) val))]
  | VRecord val => JObj (map (fun e => (e.1, encodeValue e.2)) val)
  | VVariant variantTag value => JObj [($"tag", JStr variantTag); ($"value", encodeValue value)]
  | VUnserializable val => JObj [($"#unserializable", JStr val)]
  | VNull => JNull
  | VMessage _ => JUndef
  end.

Definition encodeState (state : State) : object_t :=
  map (fun e => (e.1, encodeValue e.2)) state.

Section text.
Context (number_text : number -> ustring).

Definition encodeReportState (state : State) : res exn js :=
  stringified number_text
    (JObj [($"proto_step", JStr ($"report_state")); ($"state", JObj (encodeState state))]).

(** ** Decoding *)

Definition validate_result (v : js) : res exn ValidateResult :=
  match v with
  | JStr s => Ok (if s =s "valid" then Valid else Invalid v)
  | _ =>
      invalid ← match v with
                | JNull | JUndef => Ok JUndef
                | _ => get_prop v "invalid"
                end;
      match invalid with
      | JStr _ => Ok (Invalid invalid)
      | _ => Invalid <$> stringified number_text v
      end
  end.

Definition decodeJobOutcome (raw : js) : res exn JobOutcome :=
  let o := nullish raw (JObj []) in
  has_validate ← in_prop "validate" o;
  if has_validate : bool then
    v ← get_prop o "validate"; OutcomeValidate <$> validate_result v
  else
    has_traces ← in_prop "genTraces" o;
    if has_traces : bool then
      traces ← get_prop o "genTraces";
      let g := nullish traces (JObj []) in
      paths ← get_prop g "itfTracePaths";
      inline ← get_prop g "itfTraces";
      mret (OutcomeGenTraces (nullish paths (JArr [])) (nullish inline (JArr [])))
    else
      error ← get_prop o "error";
      match error with
      | JStr _ => mret (OutcomeError error)
      | _ => OutcomeError <$> stringified number_text raw
      end.

Definition decodePathSeg (seg : js) : res exn PathSeg :=
  field ← get_prop seg "field";
  match field with
  | JStr f => mret (SegField f)
  | _ => SegIndex <$> get_prop seg "index"
  end.

(** [(path ?? []).map(...)]: only an array has a [map] method. *)
Definition decodePath (path : js) : res exn (list PathSeg) :=
  match nullish path (JArr []) with
  | JArr l => mapM decodePathSeg l
  | _ => throw XType "map is not a function"
  end.

Section walk.
Context (walk : js -> res exn Value).

(** [(walk(v) as {tag: "record"}).val] *)
Definition walk_state (v : js) : res exn cell :=
  (fun w => match w with VRecord fields => CState fields | _ => COther w end) <$> walk v.

Definition decodeHint (h : js) : res exn DiffHint :=
  rawPath ← get_prop h "path";
  path ← decodePath rawPath;
  kind ← get_prop h "kind";
  let expected := x ← get_prop h "expected"; walk x in
  let actual := x ← get_prop h "actual"; walk x in
  if is_str kind "value_mismatch" then
    e ← expected; a ← actual; mret (HValueMismatch path e a)
  else if is_str kind "missing" then HMissing path <$> expected
  else if is_str kind "extra" then HExtra path <$> actual
  else if is_str kind "missing_elem" then HMissingElem path <$> expected
  else if is_str kind "extra_elem" then HExtraElem path <$> actual
  else if is_str kind "type_mismatch" then
    e ← expected; a ← actual; mret (HTypeMismatch path e a)
  else mret (HTruncated path).

Definition decodeHints (raw : js) : res exn (option (list DiffHint)) :=
  match raw with
  | JArr l => Some <$> mapM decodeHint l
  | _ => mret None
  end.

Definition walkMessage (obj : object_t) : res exn MirrorMessage :=
  let field name := getf obj (lit name) in
  let step := field "proto_step"%string in
  if is_str step "spec_validated" then SpecValidated <$> validate_result (field "result"%string)
  else if is_str step "initial_state" then InitialState (field "action"%string) <$> walk_state (field "state"%string)
  else if is_str step "next_step" then NextStep (field "action"%string) <$> walk_state (field "parameters"%string)
  else if is_str step "step_ok" then mret StepOk
  else if is_str step "step_mismatch" then
    expected ← walk_state (field "expected"%string);
    actual ← walk_state (field "actual"%string);
    hints ← decodeHints (field "hints"%string);
    mret (StepMismatch (field "action"%string) expected actual hints)
  else if is_str step "all_steps_done" then mret AllStepsDone
  else if is_str step "gen_traces_done" then
    mret (GenTracesDone (nullish (field "itfTracePaths"%string) (JArr [])) (field "itfTraces"%string))
  else if is_str step "protocol_error" then mret (ProtocolError (field "error"%string))
  else if is_str step "register_error" then mret (RegisterError (field "error"%string))
  else if is_str step "job_accepted" then mret (JobAccepted (field "jobId"%string) (field "kind"%string))
  else if is_str step "job_status" then mret (JobStatus (field "jobId"%string) (field "phase"%string))
  else if is_str step "job_result" then JobResult (field "jobId"%string) <$> decodeJobOutcome (field "outcome"%string)
  else if is_str step "explorer_ready" then
    mret (ExplorerReady (field "initTransitions"%string) (field "nextTransitions"%string)
            (field "stateInvariants"%string))
  else if is_str step "explore_transition_status" then mret (ExploreTransitionStatus (field "status"%string))
  else if is_str step "explore_step_done" then mret (ExploreStepDone (field "stepNo"%string))
  else if is_str step "explore_state" then ExploreState <$> walk_state (field "state"%string)
  else if is_str step "explore_invariant_status" then mret (ExploreInvariantStatus (field "status"%string))
  else if is_str step "explore_assume_status" then mret (ExploreAssumeStatus (field "status"%string))
  else if is_str step "explore_rollback_done" then mret (ExploreRollbackDone (field "snapshotId"%string))
  else if is_str step "explore_session_done" then mret ExploreSessionDone
  else
    text ← template_text number_text step;
    mret (ProtocolError (JStr ($"unknown proto_step: " ++ text))).

(** Destructuring [[k, v]] of one element of [#map]. *)
Definition map_entry (e : js) : res exn (Value * Value) :=
  kv ← match e with
       | JArr l => Ok (nth 0 l JUndef, nth 1 l JUndef)
       | JStr s => let cs := map JStr (characters s) in Ok (nth 0 cs JUndef, nth 1 cs JUndef)
       | _ => throw XType "object is not iterable"
       end;
  k ← walk kv.1; v ← walk kv.2; mret (k, v).

(** The object is written with one of the markers. *)
Definition walk_marker (obj : object_t) : option (res exn Value) :=
  match obj with
  | [(key, JStr s)] =>
      if key =s "#bigint" then Some (VInt <$> BigInt_of_string s)
      else if key =s "#unserializable" then Some (Ok (VUnserializable s))
      else None
  | [(key, JArr l)] =>
      if key =s "#tup" then Some (VTuple <$> mapM walk l)
      else if key =s "#set" then Some (VSet <$> mapM walk l)
      else if key =s "#map" then Some (VMap <$> mapM map_entry l)
      else None
  | _ => None
  end.

Definition walk_object (obj : object_t) : res exn Value :=
  match walk_marker obj with
  | Some r => r
  | None =>
      if has_own obj ($"proto_step") then VMessage <$> walkMessage obj
      else if (length obj =? 2)%nat && has_own obj ($"tag") && has_own obj ($"value") then
        match getf obj ($"tag") with
        | JStr tag => VVariant tag <$> walk (getf obj ($"value"))
        | _ => throw XError "invalid ITF variant: tag must be a string"
        end
      else VRecord <$> mapM (fun kv => pair kv.1 <$> walk kv.2) obj
  end.
End walk.

(** The recursion follows the nesting of the value, which bounds it
    ([walk_total]). *)
Fixpoint walk (depth : nat) (v : js) : res exn Value :=
  match depth with
  | O => Err (Exn XFuel [])
  | S d =>
      match v with
      | JNull => Ok VNull
      | JBool b => Ok (VBool b)
      | JStr s => Ok (VStr s)
      | JNum x => VInt <$> BigInt_of_number x
      | JArr l => VSeq <$> mapM (walk d) l
      | JObj obj => walk_object (walk d) obj
      | JUndef | JBig _ => Ok VNull
      end
  end.

(** Levels of a value. *)
Fixpoint js_depth (v : js) : nat :=
  match v with
  | JArr l => S (list_max (map js_depth l))
  | JObj o => S (list_max (map (fun kv => js_depth kv.2) o))
  | _ => 1
  end.

Definition decodeMirrorMessage (line : ustring) : res exn MirrorMessage :=
  raw ← JSON_parse line;
  msg ← walk (S (js_depth raw)) raw;
  match msg with
  | VMessage m => mret m
  | _ => mret (ProtocolError (JStr ($"unknown step: undefined")))
  end.
End text.
