(* ===== verification/ProtocolFacts.v ===== *)
(** * Round trip and totality of the protocol's values

    [encodeValue] followed by [walk] is the identity on exactly the values in
    which no record has the shape of a marker, a variant or a message; the
    decoder always ends. *)

From Stdlib Require Import SpecFloat.
From S2P Require Import Prelude JsNumber Utf16 JsData StrictJson StrictJsonFacts Decode JsText Protocol.

(** Induction over values, a nested message being a leaf. *)
Section Value_ind'.
Context (P : Value -> Prop).
Context (Hint : forall z, P (VInt z)) (Hbool : forall b, P (VBool b)) (Hstr : forall s, P (VStr s))
  (Hset : forall l, Forall P l -> P (VSet l)) (Hseq : forall l, Forall P l -> P (VSeq l))
  (Htuple : forall l, Forall P l -> P (VTuple l))
  (Hmap : forall l, Forall (fun e => P e.1 /\ P e.2) l -> P (VMap l))
  (Hrecord : forall l, Forall (fun e => P e.2) l -> P (VRecord l))
  (Hvariant : forall t v, P v -> P (VVariant t v))
  (Hunser : forall s, P (VUnserializable s)) (Hnull : P VNull) (Hmsg : forall m, P (VMessage m)).
Fixpoint Value_ind' (v : Value) : P v :=
  let values := fix go (l : list Value) : Forall P l :=
    match l with
    | [] => @ListDef.Forall_nil _ _
    | x :: l' => @ListDef.Forall_cons _ _ x _ (Value_ind' x) (go l')
    end in
  match v with
  | VInt z => Hint z | VBool b => Hbool b | VStr s => Hstr s
  | VSet l => Hset l (values l) | VSeq l => Hseq l (values l) | VTuple l => Htuple l (values l)
  | VMap l => Hmap l ((fix go (l : list (Value * Value)) : Forall (fun e => P e.1 /\ P e.2) l :=
      match l with
      | [] => @ListDef.Forall_nil _ _
      | e :: l' => @ListDef.Forall_cons _ _ e _ (conj (Value_ind' e.1) (Value_ind' e.2)) (go l')
      end) l)
  | VRecord l => Hrecord l ((fix go (l : list (ustring * Value)) : Forall (fun e => P e.2) l :=
      match l with
      | [] => @ListDef.Forall_nil _ _
      | e :: l' => @ListDef.Forall_cons _ _ e _ (Value_ind' e.2) (go l')
      end) l)
  | VVariant t v => Hvariant t v (Value_ind' v)
  | VUnserializable s => Hunser s | VNull => Hnull | VMessage m => Hmsg m
  end.
End Value_ind'.

(** The one-field records that are written like another value. *)
Definition marker_like (fields : State) : bool :=
  match fields with
  | [(key, VStr _)] => (key =s "#bigint") || (key =s "#unserializable")
  | [(key, VSeq _)] => (key =s "#tup") || (key =s "#set") || (key =s "#map")
  | _ => false
  end.

Definition state_keys (fields : State) : list ustring := map fst fields.

Definition record_safe (fields : State) : bool :=
  negb (marker_like fields) &&
  negb (bool_decide ($"proto_step" ∈ state_keys fields)) &&
  negb ((length fields =? 2)%nat && bool_decide ($"tag" ∈ state_keys fields) &&
        bool_decide ($"value" ∈ state_keys fields)).

(** The values the wire format can carry. *)
Fixpoint wire_safe (v : Value) : bool :=
  match v with
  | VInt _ | VBool _ | VStr _ | VUnserializable _ | VNull => true
  | VSet l | VSeq l | VTuple l => forallb wire_safe l
  | VMap l => forallb (fun e => wire_safe e.1 && wire_safe e.2) l
  | VRecord l => record_safe l && forallb (fun e => wire_safe e.2) l
  | VVariant _ v => wire_safe v
  | VMessage _ => false
  end.

(** ** Lists *)

Lemma mapM_encode {A} (f : js -> res exn A) (enc : A -> js) l :
  mapM f (map enc l) = Ok l <-> Forall (fun v => f (enc v) = Ok v) l.
Proof.
  rewrite mapM_res_Ok. split.
  - intros H%Forall2_fmap_l. induction l as [|x l IH]; inversion H; subst; constructor; auto.
  - intros H. apply Forall2_fmap_l. induction H; constructor; auto.
Qed.

Lemma Forall_forallb_iff {A} (P : A -> Prop) (p : A -> bool) l :
  Forall (fun x => P x <-> p x = true) l -> Forall P l <-> forallb p l = true.
Proof.
  induction 1 as [|x l Hx _ IH]; cbn; [done|]. by rewrite Forall_cons, andb_true_iff, Hx, IH.
Qed.

Lemma list_max_lt {A} (f : A -> nat) l n : (list_max (map f l) < n)%nat -> Forall (fun x => (f x < n)%nat) l.
Proof.
  intros H. assert (list_max (map f l) <= pred n)%nat as Hm by lia.
  apply list_max_le, Forall_map in Hm. eapply Forall_impl; [exact Hm|]. cbn. intros x. lia.
Qed.

Lemma has_own_encode fields k : has_own (map (fun e => (e.1, encodeValue e.2)) fields) (lit k) =
  bool_decide (lit k ∈ state_keys fields).
Proof. unfold has_own, keys, state_keys. by rewrite map_map. Qed.

Section walk.
Context (number_text : number -> ustring).
Abbreviation walk := (walk number_text).

(** A record that is not safe does not come back as itself. *)
Lemma walk_record n fields :
  walk (S n) (encodeValue (VRecord fields)) = Ok (VRecord fields) <->
  record_safe fields = true /\ Forall (fun e => walk n (encodeValue e.2) = Ok e.2) fields.
Proof.
  cbn [Protocol.walk encodeValue]. unfold walk_object.
  set (obj := map (fun e => (e.1, encodeValue e.2)) fields).
  assert (walk_marker (walk n) obj = None <-> marker_like fields = false) as Hmarker.
  { subst obj. destruct fields as [|[k v] [|]]; [done| |by destruct v].
    cbn. destruct v; cbn; repeat case_bool_decide; cbn; try done; split; try done; congruence. }
  assert (forall r, walk_marker (walk n) obj = Some r -> r <> Ok (VRecord fields)) as Hnot.
  { intros r. unfold walk_marker. destruct obj as [|[k []] [|]]; try done;
      repeat case_bool_decide; try done; intros [= <-];
      try (destruct (BigInt_of_string s)); try (destruct (mapM _ l)); done. }
  unfold record_safe. destruct (walk_marker (walk n) obj) as [r|] eqn:E.
  { split; [intros ->; exfalso; by apply (Hnot _ eq_refl)|].
    intros [H _]. apply andb_true_iff in H as [[Hm%negb_true_iff _]%andb_true_iff _].
    by apply Hmarker in Hm. }
  rewrite (proj1 Hmarker eq_refl). cbn [negb andb].
  unfold obj at 1. rewrite has_own_encode.
  destruct (bool_decide ($"proto_step" ∈ state_keys fields)); cbn [negb andb].
  { split; [|by intros [? _]]. destruct (walkMessage _ _ obj); done. }
  assert (length obj = length fields) as -> by (subst obj; by rewrite length_map).
  unfold obj at 1 2. rewrite !has_own_encode.
  destruct ((length fields =? 2)%nat && _ && _) eqn:Ev; cbn [negb].
  { split; [|by intros [? _]]. destruct (getf obj _); try done. by destruct (walk n _). }
  transitivity (mapM (fun kv => pair kv.1 <$> walk n kv.2) obj = Ok fields).
  { rewrite fmap_Ok. split; [by intros (a & H & [= ->])|]. intros H. by exists fields. }
  rewrite mapM_res_Ok. split.
  - intros H. split; [done|]. unfold obj in H. apply Forall2_fmap_l in H.
    clear -H. induction fields as [|[k v] l IH]; inversion H as [|? ? ? ? H1 H2]; subst; constructor; [|by apply IH].
    cbn in *. apply fmap_Ok in H1 as (a & Ha & [= <-]). done.
  - intros [_ H]. apply Forall2_fmap_l. clear -H. induction H as [|[k v] l Hv _ IH]; constructor; [|done].
    cbn in *. by rewrite Hv.
Qed.

Lemma walk_list n (c : list Value -> Value) l :
  (forall l l', c l = c l' -> l = l') ->
  Forall (fun v => walk n (encodeValue v) = Ok v <-> wire_safe v = true) l ->
  c <$> mapM (walk n) (map encodeValue l) = Ok (c l) <-> forallb wire_safe l = true.
Proof.
  intros Hc Hl. rewrite fmap_Ok.
  transitivity (mapM (walk n) (map encodeValue l) = Ok l).
  { split; [|eauto]. by intros (a & H & <-%Hc). }
  rewrite mapM_encode. by apply Forall_forallb_iff.
Qed.

Lemma depth_single k l n :
  (js_depth (JObj [(k, JArr l)]) < S n)%nat -> Forall (fun x => (js_depth x < n)%nat) l.
Proof.
  intros H. cbn in H. assert (list_max (map js_depth l) < n)%nat as Hm by lia.
  by apply (list_max_lt js_depth) in Hm.
Qed.

Lemma depth_array l n :
  (js_depth (JArr l) < S n)%nat -> Forall (fun x => (js_depth x < n)%nat) l.
Proof. intros H. apply (list_max_lt js_depth). cbn in H. lia. Qed.

Lemma walk_encode v n :
  (js_depth (encodeValue v) < n)%nat ->
  walk n (encodeValue v) = Ok v <-> wire_safe v = true.
Proof.
  revert n. induction v as [z|b|s|l IH|l IH|l IH|l IH|l IH|t v IH|s| |m] using Value_ind';
    intros [|n] Hn; try lia.
  - change (VInt <$> BigInt_of_string (dec_of_Z z) = Ok (VInt z) <-> true = true).
    by rewrite BigInt_of_dec_of_Z.
  - done.
  - done.
  - apply (walk_list n VSet); [by intros ? ? [= ->]|]. apply depth_single, Forall_map in Hn.
    eapply Forall_impl; [apply Forall_and; split; [exact IH|exact Hn]|]. intros x [Hx ?]. by apply Hx.
  - apply (walk_list n VSeq); [by intros ? ? [= ->]|]. apply depth_array, Forall_map in Hn.
    eapply Forall_impl; [apply Forall_and; split; [exact IH|exact Hn]|]. intros x [Hx ?]. by apply Hx.
  - apply (walk_list n VTuple); [by intros ? ? [= ->]|]. apply depth_single, Forall_map in Hn.
    eapply Forall_impl; [apply Forall_and; split; [exact IH|exact Hn]|]. intros x [Hx ?]. by apply Hx.
  - change (VMap <$> mapM (map_entry (walk n)) (map (fun e => JArr [encodeValue e.1; encodeValue e.2]) l) = Ok (VMap l)
      <-> forallb (fun e => wire_safe e.1 && wire_safe e.2) l = true).
    apply depth_single, Forall_map in Hn. rewrite fmap_Ok.
    transitivity (mapM (map_entry (walk n)) (map (fun e => JArr [encodeValue e.1; encodeValue e.2]) l) = Ok l).
    { split; [|eauto]. by intros (a & H & [= ->]). }
    rewrite mapM_encode. apply Forall_forallb_iff.
    eapply Forall_impl; [apply Forall_and; split; [exact IH|exact Hn]|]. intros [k x] [[Hk Hx] Hd].
    change (js_depth (JArr [encodeValue k; encodeValue x]) < n)%nat in Hd.
    cbn [js_depth map list_max foldr] in Hd. cbn [fst snd] in *. rewrite andb_true_iff, <- (Hk n), <- (Hx n) by lia.
    unfold map_entry. cbn [mbind res_mbind nth fst snd].
    destruct (walk n (encodeValue k)), (walk n (encodeValue x)); cbn;
      (split; [intros H; try discriminate H; injection H as -> ->; done
        |intros [H1 H2]; try discriminate H1; try discriminate H2;
         injection H1 as ->; injection H2 as ->; reflexivity]).
  - rewrite walk_record. cbn [wire_safe]. rewrite andb_true_iff.
    assert (Forall (fun e => (js_depth (encodeValue e.2) < n)%nat) l) as Hd.
    { cbn [encodeValue js_depth] in Hn. rewrite map_map in Hn. cbn [snd] in Hn.
      apply (list_max_lt (fun e : ustring * Value => js_depth (encodeValue e.2))). lia. }
    rewrite (Forall_forallb_iff _ (fun e => wire_safe e.2)); [done|].
    eapply Forall_impl; [apply Forall_and; split; [exact IH|exact Hd]|]. intros x [Hx ?]. by apply Hx.
  - change (VVariant t <$> walk n (encodeValue v) = Ok (VVariant t v) <-> wire_safe v = true).
    cbn in Hn. rewrite <- (IH n) by lia. rewrite fmap_Ok. split; [|eauto].
    by intros (a & H & [= ->]).
  - done.
  - done.
  - done.
Qed.

(** ** Totality *)

(** The errors the language throws: neither a protocol error of the program's
    own nor the mark of the model's recursion bound. *)
Definition native (c : exn_class) : bool :=
  match c with XSyntax | XRange | XType | XError => true | _ => false end.

Definition total {A} (r : res exn A) : Prop :=
  match r with Ok _ => True | Err e => native (exn_name e) = true end.

Lemma total_bind {A B} (r : res exn A) (f : A -> res exn B) :
  total r -> (forall a, total (f a)) -> total (r ≫= f).
Proof. destruct r; cbn; auto. Qed.

Lemma total_fmap {A B} (f : A -> B) (r : res exn A) : total r -> total (f <$> r).
Proof. by destruct r. Qed.

Lemma total_mapM {A B} (f : A -> res exn B) l : Forall (fun x => total (f x)) l -> total (mapM f l).
Proof.
  induction 1 as [|x l Hx _ IH]; [done|]. cbn. apply total_bind; [done|]. intros y.
  apply total_bind; [done|]. done.
Qed.

Lemma total_get_prop v name : total (get_prop v name).
Proof. by destruct v. Qed.

Lemma total_in_prop v name : total (in_prop v name).
Proof. by destruct name. Qed.

#[local] Hint Resolve total_fmap total_get_prop total_in_prop : mirror.
#[local] Hint Extern 1 (total (Ok _)) => exact I : mirror.
#[local] Hint Extern 1 (total (mret _)) => exact I : mirror.
#[local] Hint Extern 1 (total (throw _ _)) => reflexivity : mirror.

Lemma total_stringify v : total (stringify number_text v).
Proof.
  induction v as [| | | | | |l IH|o IH] using js_ind'; try done.
  - cbn. apply total_bind; [|done]. apply total_mapM. eapply Forall_impl; [exact IH|]. intros x. apply total_fmap.
  - cbn. apply total_bind; [|done]. apply total_mapM. eapply Forall_impl; [exact IH|]. intros x. apply total_fmap.
Qed.

Lemma total_template v : total (template_text number_text v).
Proof.
  induction v as [| | | | | |l IH|o IH] using js_ind'; try done.
  - cbn. apply total_fmap, total_mapM. eapply Forall_impl; [exact IH|]. by intros [].
  - cbn. by destruct (has_own o _).
Qed.

Lemma total_validate_result v : total (validate_result number_text v).
Proof.
  assert (forall v, total (stringified number_text v)) as Hs
    by (intros; apply total_fmap, total_stringify).
  destruct v; try done; cbn -[stringified get_prop]; try (apply total_fmap, Hs).
  - apply total_bind; [apply total_get_prop|]. intros []; try done; apply total_fmap, Hs.
Qed.

Lemma total_decodeJobOutcome v : total (decodeJobOutcome number_text v).
Proof.
  unfold decodeJobOutcome. apply total_bind; [apply total_in_prop|]. intros [].
  - apply total_bind; [apply total_get_prop|]. intros a. apply total_fmap, total_validate_result.
  - apply total_bind; [apply total_in_prop|]. intros [].
    + do 3 (apply total_bind; [apply total_get_prop|]; intros). done.
    + apply total_bind; [apply total_get_prop|]. intros []; try done; apply total_fmap, total_fmap, total_stringify.
Qed.

Lemma total_decodePath p : total (decodePath p).
Proof.
  unfold decodePath. destruct (nullish p _); try done. apply total_mapM, Forall_forall. intros x _.
  unfold decodePathSeg. apply total_bind; [apply total_get_prop|]. intros []; try done;
    apply total_fmap, total_get_prop.
Qed.

(** Below a bound on the depth, [w] is total. *)
Section total.
Context (w : js -> res exn Value) (n : nat) (Hw : forall v, (js_depth v < n)%nat -> total (w v)).

Lemma depth_getf o k : (js_depth (JObj o) <= n)%nat -> (1 < n)%nat -> (js_depth (getf o k) < n)%nat.
Proof.
  intros Ho Hn. assert (Forall (fun kv => (js_depth kv.2 < n)%nat) o) as Hd.
  { apply (list_max_lt (fun kv : ustring * js => js_depth kv.2)). cbn in Ho. lia. }
  clear Ho. induction o as [|[k' v] o IH]; cbn; [lia|]. apply Forall_cons in Hd as [Hv Hd].
  destruct (bool_decide (k = k')); auto.
Qed.

Lemma total_walk_state v : (js_depth v < n)%nat -> total (walk_state w v).
Proof. intros H. by apply total_fmap, Hw. Qed.

Lemma total_decodeHint h : (js_depth h < n)%nat -> (1 < n)%nat -> total (decodeHint w h).
Proof.
  intros Hh Hn. unfold decodeHint.
  assert (forall name, total (x ← get_prop h name; w x)) as Hx.
  { intros name. destruct h; try done; cbn [get_prop mbind res_mbind]; apply Hw; try (cbn; lia).
    pose proof (depth_getf o (lit name)) as Hd. cbn in Hh, Hd. lia. }
  do 2 (apply total_bind; [apply total_get_prop || apply total_decodePath|]; intros).
  apply total_bind; [apply total_get_prop|]; intros kind.
  repeat match goal with |- context [if ?b then _ else _] => destruct b end; try done;
    try (apply total_fmap, Hx).
  - apply total_bind; [apply Hx|]; intros. apply total_bind; [apply Hx|done].
  - apply total_bind; [apply Hx|]; intros. apply total_bind; [apply Hx|done].
Qed.

Lemma total_decodeHints h : (js_depth h <= n)%nat -> (1 < n)%nat -> total (decodeHints w h).
Proof.
  intros Hh Hn. unfold decodeHints. destruct h as [| | | | | |l|]; try done.
  apply total_fmap, total_mapM. eapply Forall_impl; [apply (list_max_lt js_depth); cbn in Hh; apply Hh|].
  intros x Hx. by apply total_decodeHint.
Qed.

Lemma total_walkMessage obj :
  (js_depth (JObj obj) <= n)%nat -> (1 < n)%nat -> total (walkMessage number_text w obj).
Proof.
  intros Ho Hn.
  assert (forall name, (js_depth (getf obj (lit name)) < n)%nat) as Hf
    by (intros; apply depth_getf; [done|lia]).
  assert (forall name, total (walk_state w (getf obj (lit name)))) as Hs
    by (intros; by apply total_walk_state).
  unfold walkMessage.
  repeat match goal with |- context [if ?b then _ else _] => destruct b end;
    try done; try (by apply total_fmap, Hs); try (by apply total_fmap, total_decodeJobOutcome);
    try (by apply total_fmap, total_validate_result).
  - apply total_bind; [apply Hs|]; intros. apply total_bind; [apply Hs|]; intros.
    apply total_bind; [|done]. apply total_decodeHints; [|done]. apply Nat.lt_le_incl, Hf.
  - apply total_bind; [apply total_template|done].
Qed.

Lemma js_depth_pos v : (1 <= js_depth v)%nat.
Proof. destruct v; cbn; lia. Qed.

Lemma total_walk_object obj :
  (js_depth (JObj obj) <= n)%nat -> total (walk_object number_text w obj).
Proof.
  intros Ho.
  assert (obj <> [] -> (1 < n)%nat) as Hn.
  { destruct obj as [|[k v] obj]; [done|]. intros _. cbn in Ho. pose proof (js_depth_pos v). lia. }
  assert (Forall (fun kv => (js_depth kv.2 < n)%nat) obj) as Hd.
  { apply (list_max_lt (fun kv : ustring * js => js_depth kv.2)). cbn in Ho. lia. }
  assert (forall l, (js_depth (JArr l) < n)%nat -> Forall (fun x => total (w x)) l) as Hl.
  { intros l Hlt. assert (Forall (fun x => (js_depth x < n)%nat) l) as H
      by (apply (list_max_lt js_depth); cbn in Hlt; lia).
    eapply Forall_impl; [exact H|]. intros x. apply Hw. }
  unfold walk_object. destruct (walk_marker w obj) as [r|] eqn:E.
  - destruct obj as [|[k []] [|]]; cbn in E; try done; apply Forall_cons in Hd as [Hd _]; cbn [snd] in Hd;
      repeat match type of E with (if ?b then _ else _) = _ => destruct b end; try done;
      injection E as <-; try done; apply total_fmap; try (apply total_mapM, Hl, Hd).
    + unfold BigInt_of_string. by destruct (big_literal _).
    + apply total_mapM. assert (Forall (fun x => (js_depth x < n)%nat) l) as H
        by (apply (list_max_lt js_depth); cbn in Hd; lia).
      eapply Forall_impl; [exact H|]. intros x Hx. unfold map_entry.
      assert (forall a b, (js_depth a < n)%nat -> (js_depth b < n)%nat ->
        total (k ← w a; v ← w b; mret (k, v))) as Hab.
      { intros a b Ha Hb. apply total_bind; [by apply Hw|]; intros. apply total_bind; [by apply Hw|done]. }
      destruct x as [| | | | |s|xs|]; try done; cbn [mbind res_mbind fst snd].
      * assert (forall i, (js_depth (nth i (map JStr (characters s)) JUndef) < n)%nat) as Hi; [|by apply Hab].
        intros i. generalize (characters s). intros cs. revert i. induction cs as [|c cs IHc]; intros [|i];
          cbn; try (specialize (Hn ltac:(done)); lia); try lia. apply IHc.
      * assert (Forall (fun x => (js_depth x < n)%nat) xs) as Hxs
          by (apply (list_max_lt js_depth); cbn in Hx; lia).
        assert (forall i, (js_depth (nth i xs JUndef) < n)%nat) as Hi; [|by apply Hab].
        intros i. revert i. clear -Hxs Hn. specialize (Hn ltac:(done)). induction Hxs; intros [|i]; cbn; try lia; auto.
  - destruct (has_own obj _) eqn:Hp; [apply total_fmap, total_walkMessage; [done|apply Hn; by intros ->]|].
    destruct (_ && _).
    + destruct (getf obj ($"tag")) eqn:Ht; try done. apply total_fmap, Hw, depth_getf; [done|apply Hn; by intros ->].
    + apply total_fmap, total_mapM. eapply Forall_impl; [exact Hd|]. intros x Hx. apply total_fmap, Hw, Hx.
Qed.
End total.

Lemma walk_total n v : (js_depth v < n)%nat -> total (walk n v).
Proof.
  revert v. induction n as [|n IH]; intros v Hv; [lia|].
  destruct v as [| | |x| | |l|o]; try done.
  - cbn. unfold BigInt_of_number. by destruct (num_to_Z x).
  - cbn [Protocol.walk]. apply total_fmap, total_mapM.
    eapply Forall_impl; [by apply depth_array|]. intros x. apply IH.
  - cbn [Protocol.walk]. apply (total_walk_object _ n); [by apply IH|]. lia.
Qed.

Lemma JSON_parse_total text : total (JSON_parse text).
Proof.
  unfold JSON_parse.
  pose proof (parse_spec lenient (MAX_MODEL_INTERFACE_JSON_DEPTH + length text) text) as H.
  destruct (parse_ lenient _ text); [done|]. by rewrite H.
Qed.

(** ** Theorems *)

(** Decoding a line of the mirror always ends, with a message or with an
    error of the language (a malformed text, a number that is not an integer, a
    malformed [#bigint], [#map] or variant): the recursion bound of the model is
    never met, whatever the line is. *)
Theorem mirror_message_total (line : ustring) :
  (exists m, decodeMirrorMessage number_text line = Ok m) \/
  (exists e, decodeMirrorMessage number_text line = Err e /\ native (exn_name e) = true).
Proof.
  assert (total (decodeMirrorMessage number_text line)) as H.
  { unfold decodeMirrorMessage. apply total_bind; [apply JSON_parse_total|]; intros raw.
    apply total_bind; [apply walk_total; lia|]. by intros []. }
  destruct (decodeMirrorMessage number_text line) as [m|e]; [left|right]; eauto.
Qed.

(** A state that is sent and walked by the receiver comes back unchanged
    exactly when none of its values is a record shaped like a marker ([#bigint],
    [#tup], [#set], [#map], [#unserializable] alone with a value of the marker's
    kind), like a variant ([tag] and [value]) or like a message ([proto_step]). *)
Theorem state_wire_roundtrip (state : State) :
  walk (S (js_depth (JObj (encodeState state)))) (JObj (encodeState state)) = Ok (VRecord state) <->
  wire_safe (VRecord state) = true.
Proof. apply (walk_encode (VRecord state)). cbn [encodeValue]. unfold encodeState. lia. Qed.
End walk.
