(* ===== verification/ClientMessages.v ===== *)
(** * Messages a client sends, and the rendering of states

    [src/src/protocol.ts]: the client side messages, [encodeClientMessage], the
    parameter helpers ([asInt], [getParam], ...), [prettifyState] and the
    rendering of diff hints.

    A job id is the value the mirror's reply carried, which nothing checks. A
    message is the object literal the call sites write: its properties in the
    order of the interfaces, an absent optional field like one that is
    [undefined] ([JSON.stringify] leaves out both). *)

From Stdlib Require Import SpecFloat.
From S2P Require Import Prelude JsNumber Utf16 JsData StrictJson Decode JsText Protocol.

(** ** Data *)

Record ApalacheSpec := { sources : list ustring }.

(** An optional field that may also be null. *)
Inductive nullable A := Missing | Null | Given (a : A).
Arguments Missing {A}.
Arguments Null {A}.
Arguments Given {A} a.

Record ApalacheConfig := {
  specPath : ustring;
  initPredicate : nullable ustring;
  nextPredicate : nullable ustring;
  constInit : nullable ustring;
  cfg_invariant : ustring;
  lengthBound : number;
  paramVars : option ustring }.

Record TraceGenerationConfig := { numTraces : number; view : option ustring }.

Inductive ClientMessage :=
| Register (apalacheConfig : ApalacheConfig) (traceConfig : TraceGenerationConfig)
    (spec : option ApalacheSpec)
| RegisterTraces (apalacheConfig : ApalacheConfig) (itfTracePaths : list ustring)
| RegisterTraceGen (apalacheConfig : ApalacheConfig) (traceConfig : TraceGenerationConfig)
    (destPath : option ustring) (spec : option ApalacheSpec)
| RegisterValidate (apalacheConfig : ApalacheConfig) (bound : number) (spec : option ApalacheSpec)
| RegisterValidateAsync (apalacheConfig : ApalacheConfig) (bound : number)
    (spec : option ApalacheSpec)
| RegisterTraceGenAsync (apalacheConfig : ApalacheConfig) (traceConfig : TraceGenerationConfig)
    (destPath : nullable ustring) (spec : option ApalacheSpec)
| QueryJob (jobId : js)
| AwaitJob (jobId : js) (timeoutSecs : option number)
| CancelJob (jobId : js)
| RegisterExplore (spec : ApalacheSpec) (invariants exports : list ustring) (maxSteps : number)
| RegisterExploreSession (spec : ApalacheSpec) (invariants exports : list ustring)
| ExploreAssumeTransition (transitionId : number)
| ExploreNextStep
| ExploreQueryState
| ExploreCheckInvariant (invariantId : number)
| ExploreAssumeState (state : State)
| ExploreRollback (snapshotId : number)
| ExploreDone
| ReportState (state : State).

(** ** The message objects *)

Definition js_strings (l : list ustring) : js := JArr (map JStr l).
Definition js_opt {A} (f : A -> js) (o : option A) : js := from_option f JUndef o.
Definition js_nullable {A} (f : A -> js) (o : nullable A) : js :=
  match o with Missing => JUndef | Null => JNull | Given a => f a end.

Definition spec_object (s : ApalacheSpec) : js := JObj [($"sources", js_strings (sources s))].

Definition config_object (c : ApalacheConfig) : js :=
  JObj [($"specPath", JStr (specPath c));
        ($"initPredicate", js_nullable JStr (initPredicate c));
        ($"nextPredicate", js_nullable JStr (nextPredicate c));
        ($"constInit", js_nullable JStr (constInit c));
        ($"invariant", JStr (cfg_invariant c));
        ($"lengthBound", JNum (lengthBound c));
        ($"paramVars", js_opt JStr (paramVars c))].

Definition trace_config_object (c : TraceGenerationConfig) : js :=
  JObj [($"numTraces", JNum (numTraces c)); ($"view", js_opt JStr (view c))].

(** A [Value] as the object it is in memory: its tag and its contents. *)
Fixpoint value_object (v : Value) : js :=
  let tagged (tag : string) (val : js) := JObj [($"tag", JStr (lit tag)); ($"val", val)] in
  match v with
  | VInt val => tagged "int"%string (JBig val)
  | VBool val => tagged "bool"%string (JBool val)
  | VStr val => tagged "str"%string (JStr val)
  | VSet val => tagged "set"%string (JArr (map value_object val))
  | VSeq val => tagged "seq"%string (JArr (map value_object val))
  | VTuple val => tagged "tuple"%string (JArr (map value_object val))
  | VMap val => tagged "map"%string (JArr (map (fun e => JArr [value_object e.1; value_object e.2]) val))
  | VRecord val => tagged "record"%string (JObj (map (fun e => (e.1, value_object e.2)) val))
  | VVariant variantTag value =>
      JObj [($"tag", JStr ($"variant")); ($"variantTag", JStr variantTag); ($"value", value_object value)]
  | VUnserializable val => tagged "unserializable"%string (JStr val)
  | VNull => JObj [($"tag", JStr ($"null"))]
  | VMessage _ => JUndef
  end.

Definition state_object (s : State) : js := JObj (map (fun e => (e.1, value_object e.2)) s).

Definition message_object (msg : ClientMessage) : js :=
  let message (step : string) (fields : object_t) :=
    JObj (($"proto_step", JStr (lit step)) :: fields) in
  match msg with
  | Register c t s =>
      message "register"%string
        [($"apalacheConfig", config_object c); ($"traceConfig", trace_config_object t);
         ($"spec", js_opt spec_object s)]
  | RegisterTraces c paths =>
      message "register_traces"%string
        [($"apalacheConfig", config_object c); ($"itfTracePaths", js_strings paths)]
  | RegisterTraceGen c t dest s =>
      message "register_trace_gen"%string
        [($"apalacheConfig", config_object c); ($"traceConfig", trace_config_object t);
         ($"destPath", from_option JStr JNull dest); ($"spec", js_opt spec_object s)]
  | RegisterValidate c bound s =>
      message "register_validate"%string
        [($"apalacheConfig", config_object c); ($"bound", JNum bound); ($"spec", js_opt spec_object s)]
  | RegisterValidateAsync c bound s =>
      message "register_validate_async"%string
        [($"apalacheConfig", config_object c); ($"bound", JNum bound); ($"spec", js_opt spec_object s)]
  | RegisterTraceGenAsync c t dest s =>
      message "register_trace_gen_async"%string
        [($"apalacheConfig", config_object c); ($"traceConfig", trace_config_object t);
         ($"destPath", js_nullable JStr dest); ($"spec", js_opt spec_object s)]
  | QueryJob jobId => message "query_job"%string [($"jobId", jobId)]
  | AwaitJob jobId timeoutSecs =>
      message "await_job"%string [($"jobId", jobId); ($"timeoutSecs", js_opt JNum timeoutSecs)]
  | CancelJob jobId => message "cancel_job"%string [($"jobId", jobId)]
  | RegisterExplore s invariants exports maxSteps =>
      message "register_explore"%string
        [($"spec", spec_object s); ($"invariants", js_strings invariants);
         ($"exports", js_strings exports); ($"maxSteps", JNum maxSteps)]
  | RegisterExploreSession s invariants exports =>
      message "register_explore_session"%string
        [($"spec", spec_object s); ($"invariants", js_strings invariants);
         ($"exports", js_strings exports)]
  | ExploreAssumeTransition transitionId =>
      message "explore_assume_transition"%string [($"transitionId", JNum transitionId)]
  | ExploreNextStep => message "explore_next_step"%string []
  | ExploreQueryState => message "explore_query_state"%string []
  | ExploreCheckInvariant invariantId =>
      message "explore_check_invariant"%string [($"invariantId", JNum invariantId)]
  | ExploreAssumeState s => message "explore_assume_state"%string [($"state", state_object s)]
  | ExploreRollback snapshotId =>
      message "explore_rollback"%string [($"snapshotId", JNum snapshotId)]
  | ExploreDone => message "explore_done"%string []
  | ReportState s => message "report_state"%string [($"state", state_object s)]
  end.

(** ** encodeClientMessage *)

(** The replacer: a bigint anywhere in the message becomes its marker. *)
Fixpoint replace_bigints (v : js) : js :=
  match v with
  | JBig z => JObj [($"#bigint", JStr (dec_of_Z z))]
  | JArr l => JArr (map replace_bigints l)
  | JObj o => JObj (map (fun kv => (kv.1, replace_bigints kv.2)) o)
  | _ => v
  end.

Section text.
Context (number_text : number -> ustring).

Definition encode_object (msg : js) : res exn ustring :=
  default [] <$> stringify number_text (replace_bigints msg).

Definition encodeClientMessage (msg : ClientMessage) : res exn ustring :=
  encode_object (message_object msg).

(** ** Parameter extraction *)

Definition field_of {A} (o : list (ustring * A)) (k : ustring) : option A :=
  snd <$> find (fun e => bool_decide (k = e.1)) o.

Definition asInt (v : Value) : option Z := match v with VInt val => Some val | _ => None end.
Definition asStr (v : Value) : option ustring := match v with VStr val => Some val | _ => None end.
Definition asRecord (v : Value) : option (list (ustring * Value)) :=
  match v with VRecord val => Some val | _ => None end.

Definition getParam (params : State) (varName : ustring) : option (list (ustring * Value)) :=
  field_of params varName ≫= asRecord.

Definition getParamInt (params : State) (varName field : ustring) : number :=
  match getParam params varName with
  | None => num_of_Z 0
  | Some rec => from_option num_of_Z (num_of_Z 0) (field_of rec field ≫= asInt)
  end.

(** ** Prettifying *)

(** [rec[k] = v] on a plain object: the inherited [__proto__] setter makes no
    own property. *)
Definition assign (o : object_t) (k : ustring) (v : js) : object_t :=
  if k =s "__proto__" then o else obj_set o k v.

Fixpoint prettifyValue (v : Value) : js :=
  match v with
  | VInt val => JNum (num_of_Z val)
  | VBool val => JBool val
  | VStr val => JStr val
  | VSet val => JArr (map prettifyValue val)
  | VSeq val => JArr (map prettifyValue val)
  | VTuple val => JArr (map prettifyValue val)
  | VMap val => JArr (map (fun e => JArr [prettifyValue e.1; prettifyValue e.2]) val)
  | VRecord val =>
      JObj (foldl (fun o kv => assign o kv.1 kv.2) [] (map (fun e => (e.1, prettifyValue e.2)) val))
  | VVariant variantTag value => JObj [($"tag", JStr variantTag); ($"value", prettifyValue value)]
  | VUnserializable val => JStr val
  | VNull => JNull
  | VMessage _ => JUndef
  end.

Definition prettifyState (state : State) : object_t :=
  foldl (fun o e => assign o e.1 (prettifyValue e.2)) [] state.

(** ** Rendering diff hints *)

Definition renderSeg (seg : PathSeg) : res exn ustring :=
  match seg with
  | SegField f => Ok ($"." ++ f)
  | SegIndex index => (fun t => $"[" ++ t ++ $"]") <$> template_text number_text index
  end.

Definition renderPath (path : list PathSeg) : res exn ustring :=
  (fun segs =>
     match concat segs with
     | 0x2e%N :: s => s
     | [] => $"<state>"
     | s => s
     end) <$> mapM renderSeg path.

(** [JSON.stringify] in a template: [undefined] is written out. *)
Definition renderHintValue (v : Value) : res exn ustring :=
  default ($"undefined") <$> stringify number_text (prettifyValue v).

Definition hint_path (h : DiffHint) : list PathSeg :=
  match h with
  | HValueMismatch path _ _ | HMissing path _ | HExtra path _ | HMissingElem path _
  | HExtraElem path _ | HTypeMismatch path _ _ | HTruncated path => path
  end.

Definition renderDiffHint (h : DiffHint) : res exn ustring :=
  path ← renderPath (hint_path h);
  let at_ := $"at " ++ path in
  match h with
  | HValueMismatch _ expected actual =>
      e ← renderHintValue expected; a ← renderHintValue actual;
      mret (at_ ++ $": expected " ++ e ++ $", got " ++ a)
  | HMissing _ expected => (fun e => at_ ++ $": missing " ++ e) <$> renderHintValue expected
  | HExtra _ actual => (fun a => at_ ++ $": unexpected " ++ a) <$> renderHintValue actual
  | HMissingElem _ expected => (fun e => at_ ++ $": missing element " ++ e) <$> renderHintValue expected
  | HExtraElem _ actual => (fun a => at_ ++ $": unexpected element " ++ a) <$> renderHintValue actual
  | HTypeMismatch _ expected actual =>
      e ← renderHintValue expected; a ← renderHintValue actual;
      mret (at_ ++ $": expected a value of shape " ++ e ++ $", got " ++ a)
  | HTruncated _ => mret (at_ ++ $": further differences truncated")
  end.

Definition renderDiffHints (hints : list DiffHint) : res exn ustring :=
  match hints with
  | [] => Ok ($"states differ")
  | _ => join ($"; ") <$> mapM renderDiffHint hints
  end.
End text.

(** ** One message, one line

    The transport ends a message with a line feed: the text of a message must
    contain none. *)

Definition one_line (text : ustring) : Prop := Forall (fun c => (0x20 <= c)%N) text.

(** A text with literal parts: what is left are the other parts. *)
Ltac one_line_parts :=
  unfold one_line, lit; simpl;
  repeat first [apply Forall_nil_2
               | apply Forall_cons_2; [vm_compute; discriminate|]
               | apply Forall_app_2].

Lemma one_line_dec_of_Z z : one_line (dec_of_Z z).
Proof.
  assert (forall n, one_line (dec_of_N n)) as H.
  { intros n. destruct (dec_of_N_ok n) as [_ Hd _ _ _]. eapply Forall_impl; [exact Hd|].
    intros c Hc. unfold is_digit in Hc. cbn in *. lia. }
  destruct z; cbn; [by repeat constructor|apply H|constructor; [lia|apply H]].
Qed.

Lemma one_line_join sep l : one_line sep -> Forall one_line l -> one_line (join sep l).
Proof.
  intros Hs. induction 1 as [|x [|y l] Hx _ IH]; cbn; [constructor|done|].
  apply Forall_app; split; [done|]. apply Forall_app; split; [done|]. apply IH.
Qed.

(** A character is one unit, or two that no escape concerns. *)
Lemma characters_shape s :
  Forall (fun c => exists u, c = [u] \/ exists l, c = [u; l] /\ is_high u /\ is_low l) (characters s).
Proof.
  assert (forall n s, (length s <= n)%nat ->
    Forall (fun c => exists u, c = [u] \/ exists l, c = [u; l] /\ is_high u /\ is_low l) (characters s))
    as H; [|by apply (H (length s))].
  clear s. induction n as [|n IH]; intros [|h [|l t]] Hn; cbn in Hn; try lia;
    try solve [repeat constructor; eauto].
  - cbn. destruct (is_high h); repeat constructor; eauto.
  - cbn [characters]. destruct (is_high h) eqn:Eh.
    2: { constructor; [eauto|]. apply (IH (l :: t)). cbn. lia. }
    destruct (is_low l) eqn:El.
    + constructor; [|apply IH; lia]. exists h. right. exists l. by rewrite Eh, El.
    + constructor; [eauto|]. apply (IH (l :: t)). cbn. lia.
Qed.

Lemma one_line_hex_digit n : (0x20 <= hex_digit n)%N.
Proof. unfold hex_digit. destruct (n <? 10)%N; lia. Qed.

Lemma one_line_quote_string s : one_line (quote_string s).
Proof.
  unfold quote_string. apply Forall_app; split; [by repeat constructor|].
  apply Forall_app; split; [|by repeat constructor].
  induction (characters_shape s) as [|c cs Hc _ IH]; [constructor|].
  cbn [map concat]. apply Forall_app; split; [|exact IH].
  destruct Hc as (u & [-> | (l & -> & Hu & Hl)]).
  - unfold quote_character, hex4_of.
    repeat (case_match; [by repeat constructor|]).
    destruct (u <? 0x20)%N eqn:E; cbn [orb].
    { apply Forall_app; split; [by repeat constructor|]. repeat constructor; apply one_line_hex_digit. }
    case_match; [apply Forall_app; split; [by repeat constructor|];
      repeat constructor; apply one_line_hex_digit|].
    repeat constructor. lia.
  - apply Is_true_true in Hu, Hl. unfold is_high, is_low in *. cbn [quote_character]. constructor; [lia|]. constructor; [lia|constructor].
Qed.

Section one_line.
Context (number_text : number -> ustring).
Context (number_one_line : forall x, one_line (number_text x)).

Lemma one_line_num_text x : one_line (num_text number_text x).
Proof. unfold num_text. destruct (num_safe_Z x); [apply one_line_dec_of_Z|apply number_one_line]. Qed.

Lemma stringify_one_line v t : stringify number_text v = Ok (Some t) -> one_line t.
Proof.
  revert t. induction v as [| |b|x|z|s|l IH|o IH] using js_ind'; intros t H; cbn in H; try discriminate.
  - injection H as <-. by repeat constructor.
  - injection H as <-. destruct b; by repeat constructor.
  - injection H as <-. destruct (num_is_finite x); [apply one_line_num_text|by repeat constructor].
  - injection H as <-. apply one_line_quote_string.
  - apply res_bind_Ok in H as (items & Hi & [= <-]). one_line_parts. apply one_line_join; [by one_line_parts|].
    apply mapM_res_Ok in Hi. revert IH. induction Hi as [|x item l items Hx _ IHl]; intros IH; [constructor|].
    apply Forall_cons in IH as [IHx IH]. constructor; [|by apply IHl].
    apply fmap_Ok in Hx as (r & Hr & ->). destruct r as [r|]; [by apply IHx|by one_line_parts].
  - apply res_bind_Ok in H as (items & Hi & [= <-]). one_line_parts. apply one_line_join; [by one_line_parts|].
    apply mapM_res_Ok in Hi. revert IH. induction Hi as [|x item l items Hx _ IHl]; intros IH; [constructor|].
    apply Forall_cons in IH as [IHx IH]. apply fmap_Ok in Hx as (r & Hr & ->).
    destruct r as [r|]; cbn [omap list_omap option_map id]; [|by apply IHl]. constructor; [|by apply IHl].
    apply (Forall_app_2 _ (quote_string x.1)); [apply one_line_quote_string|].
    one_line_parts. by apply IHx.
Qed.

(** Without bigints nothing is thrown. *)
Fixpoint no_bigint (v : js) : bool :=
  match v with
  | JBig _ => false
  | JArr l => forallb no_bigint l
  | JObj o => forallb (fun kv => no_bigint kv.2) o
  | _ => true
  end.

Lemma stringify_total v : no_bigint v -> exists t, stringify number_text v = Ok t.
Proof.
  assert (forall {A B} (f : A -> res exn B) l,
    Forall (fun x => exists y, f x = Ok y) l -> exists ys, mapM f l = Ok ys) as Hm.
  { intros A B f l. induction 1 as [|x l [y Hy] _ [ys IH]]; [by eexists|].
    exists (y :: ys). cbn. rewrite Hy. cbn. by rewrite IH. }
  induction v as [| |b|x|z|s|l IH|o IH] using js_ind'; cbn [no_bigint]; intros H; [by eexists|by eexists|by eexists|by eexists|done|by eexists| |].
  - cbn [stringify]. edestruct (Hm _ _ (fun x => default ($"null") <$> stringify number_text x) l) as [ys ->]; [|by eexists].
    apply forallb_True in H. eapply Forall_impl; [apply Forall_and; split; [exact IH|exact H]|].
    cbn. intros x [Hx Hn]. destruct (Hx Hn) as [t ->]. by eexists.
  - cbn [stringify]. edestruct (Hm _ _ (fun kv => option_map (fun t => quote_string kv.1 ++ $":" ++ t) <$>
      stringify number_text kv.2) o) as [ys ->]; [|by eexists].
    apply forallb_True in H. eapply Forall_impl; [apply Forall_and; split; [exact IH|exact H]|].
    cbn. intros x [Hx Hn]. destruct (Hx Hn) as [t ->]. by eexists.
Qed.

Lemma no_bigint_replaced v : no_bigint (replace_bigints v).
Proof.
  induction v as [| |b|x|z|s|l IH|o IH] using js_ind'; cbn; try done.
  - apply forallb_True. by apply Forall_map.
  - apply forallb_True. by apply Forall_map.
Qed.

Lemma message_is_object msg : exists o, replace_bigints (message_object msg) = JObj o.
Proof. destruct msg; by eexists. Qed.

Lemma message_object_text msg :
  exists text, stringify number_text (replace_bigints (message_object msg)) = Ok (Some text).
Proof.
  destruct (stringify_total _ (no_bigint_replaced (message_object msg))) as [t Ht].
  destruct (message_is_object msg) as [o Ho]. rewrite Ho in Ht. rewrite Ho. cbn in Ht |- *.
  destruct (mapM _ o); cbn in *; [by eexists|done].
Qed.

(** Every message a client sends is encoded (the encoder never throws, big
    integers included), and the text holds no line feed nor any other control
    character: the transport, which ends a message with a line feed, sends each
    message as exactly one line. The number texts of the language
    ([number_text]) are assumed to hold no control character. *)
Theorem client_message_one_line (msg : ClientMessage) :
  exists text, encodeClientMessage number_text msg = Ok text /\ text <> [] /\ one_line text.
Proof.
  destruct (message_object_text msg) as [text Ht]. exists text.
  unfold encodeClientMessage, encode_object. rewrite Ht. split_and!; [done| |by eapply stringify_one_line].
  intros ->. destruct (message_is_object msg) as [o Ho]. rewrite Ho in Ht.
  by apply res_bind_Ok in Ht as (items & _ & [= ]).
Qed.
End one_line.

Example client_message_one_line_witness :
  exists text, encodeClientMessage (fun _ => $"0.5") (ReportState [($"x", VInt 5)]) = Ok text /\
    text <> [] /\ one_line text.
Proof.
  apply (client_message_one_line (fun _ => $"0.5")). intros _. one_line_parts.
Defined.
