(* ===== verification/Connection.v ===== *)
(** * A connection to a mirror

    [src/src/connection.ts] as a machine: the state is the private fields of
    [Connection] with the operations that wait in its promise queue, an event is
    what can happen between two suspension points of its methods (a call, the
    start of the operation at the head of the queue, the arrival of what
    [it.next()] yields, [close()]), and a step gives the new state with what
    became visible. The transport is the environment: [send] may throw, [next]
    may yield a line, end or throw. The wait inside [poisonAndThrow] for the
    transport to close is not a separate step: the flags are set before it, and
    whatever it does only the same error can follow. *)

From Stdlib Require Import SpecFloat.
From S2P Require Import Prelude JsNumber Utf16 JsData StrictJson Decode JsText Protocol ClientMessages.

(** ** Errors, requests and results *)

Inductive ConnError :=
| BoundOutsideRange (message : ustring)
| RegisterFailedError (message : ustring)
| JobQueueFullError (message : ustring)
| JobEvictedError (jobId : js)
| AsyncOnStdioError
| ProtocolFailureError (message : ustring)
| ConnectionClosedError (message : ustring)
| Thrown (e : exn).

Inductive mode_t := Stdio | Network.

(** One constructor per operation; [RHandleAwait] is [JobHandle.await] and
    [RPing] is [ping]. *)
Inductive request :=
| RValidate (apalacheConfig : ApalacheConfig) (bound : number) (spec : option ApalacheSpec)
| RSubmitValidate (apalacheConfig : ApalacheConfig) (bound : number) (spec : option ApalacheSpec)
| RSubmitTraceGen (apalacheConfig : ApalacheConfig) (traceConfig : TraceGenerationConfig)
    (destPath : nullable ustring) (spec : option ApalacheSpec)
| RQueryJob (jobId : js)
| RAwaitJob (jobId : js) (timeoutSecs : option number)
| RHandleAwait (jobId : js) (timeoutSecs : option number)
| RCancelJob (jobId : js)
| RPing.

Inductive result :=
| ResValidate (result : ValidateResult)
| ResHandle (jobId kind : js)
| ResReply (reply : MirrorMessage)
| ResAwait (done : bool) (reply : MirrorMessage)
| ResLive (live : bool).

Definition outcome := res ConnError result.

(** ** The message of a request *)

Definition client_message (r : request) : ClientMessage :=
  match r with
  | RValidate cfg bound spec => RegisterValidate cfg bound spec
  | RSubmitValidate cfg bound spec => RegisterValidateAsync cfg bound spec
  | RSubmitTraceGen cfg traceConfig destPath spec =>
      RegisterTraceGenAsync cfg traceConfig (match destPath with Missing => Null | _ => destPath end) spec
  | RQueryJob jobId => QueryJob jobId
  | RAwaitJob jobId timeoutSecs | RHandleAwait jobId timeoutSecs => AwaitJob jobId timeoutSecs
  | RCancelJob jobId => CancelJob jobId
  | RPing => QueryJob (JStr ($"__mirrorecma_ping__"))
  end.

Definition proto_step (m : MirrorMessage) : string :=
  match m with
  | SpecValidated _ => "spec_validated"
  | InitialState _ _ => "initial_state"
  | NextStep _ _ => "next_step"
  | StepOk => "step_ok"
  | StepMismatch _ _ _ _ => "step_mismatch"
  | AllStepsDone => "all_steps_done"
  | GenTracesDone _ _ => "gen_traces_done"
  | ProtocolError _ => "protocol_error"
  | RegisterError _ => "register_error"
  | JobAccepted _ _ => "job_accepted"
  | JobStatus _ _ => "job_status"
  | JobResult _ _ => "job_result"
  | ExplorerReady _ _ _ => "explorer_ready"
  | ExploreTransitionStatus _ => "explore_transition_status"
  | ExploreStepDone _ => "explore_step_done"
  | ExploreState _ => "explore_state"
  | ExploreInvariantStatus _ => "explore_invariant_status"
  | ExploreAssumeStatus _ => "explore_assume_status"
  | ExploreRollbackDone _ => "explore_rollback_done"
  | ExploreSessionDone => "explore_session_done"
  end.

(** ** State, events, outputs *)

Record connection := Connection {
  mode : mode_t;
  closed : bool;
  flowConsumed : bool;
  waiting : list (nat * request);
  current : option (nat * request) }.

Definition spend (c : connection) : connection :=
  Connection (mode c) (closed c) true (waiting c) (current c).
Definition mark_closed (c : connection) : connection :=
  Connection (mode c) true (flowConsumed c) (waiting c) (current c).
Definition enqueue (c : connection) (op : nat * request) : connection :=
  Connection (mode c) (closed c) (flowConsumed c) (waiting c ++ [op]) (current c).
Definition schedule (c : connection) (rest : list (nat * request)) (cur : option (nat * request)) : connection :=
  Connection (mode c) (closed c) (flowConsumed c) rest cur.

(** [opts.mode ?? target.mode ?? "network"] *)
Definition open_mode (requested marked : option mode_t) : mode_t :=
  default (default Network marked) requested.

Definition opened (m : mode_t) : connection := Connection m false false [] None.

Inductive incoming :=
| Line (line : ustring)
| Ended
| Failed (e : exn).

Inductive event :=
| Call (id : nat) (r : request)
| Start (send_error : option exn)
| Receive (reply : incoming)
| Close.

Inductive output :=
| Sent (r : request) (line : ustring)
| Settled (id : nat) (o : outcome)
| Rejected (id : nat) (o : outcome)
| TransportClosed.

(** ** Guards *)

Section text.
Context (number_text : number -> ustring).

Definition validate_bound_ok (bound : number) : bool :=
  match num_to_Z bound with Some z => (1 <=? z)%Z && (z <=? 100)%Z | None => false end.

Definition assertValidateBound (bound : number) : res ConnError unit :=
  require (validate_bound_ok bound)
    (BoundOutsideRange ($"validate bound " ++ num_text number_text bound ++ $" outside allowed range 1..100")).

Definition bound_check (r : request) : res ConnError unit :=
  match r with
  | RValidate _ bound _ | RSubmitValidate _ bound _ => assertValidateBound bound
  | _ => Ok tt
  end.

Definition assertFlowOpen (c : connection) : res ConnError unit :=
  _ ← require (negb (closed c)) (ConnectionClosedError ($"connection is closed"));
  require (negb (flowConsumed c))
    (ConnectionClosedError ($"session flow already terminated on this connection; open a new one")).

Definition isStdio (c : connection) : bool := match mode c with Stdio => true | Network => false end.

Definition assertAsyncAllowed (c : connection) : res ConnError unit :=
  _ ← assertFlowOpen c; require (negb (isStdio c)) AsyncOnStdioError.

Definition admission (c : connection) (r : request) : res ConnError unit :=
  match r with RValidate _ _ _ => assertFlowOpen c | _ => assertAsyncAllowed c end.

(** ** Failing *)

(** [new C(message)] for a message of unknown type. *)
Definition new_error (C : ustring -> ConnError) (message : js) : ConnError :=
  match error_text number_text message with Ok text => C text | Err e => Thrown e end.

Definition poisonAndThrow (c : connection) (message : js) : connection * list output * outcome :=
  (mark_closed (spend c), if closed c then [] else [TransportClosed],
   Err (new_error ProtocolFailureError message)).

(** The [catch] of [roundTrip]. *)
Definition exchange_failed (c : connection) (e : exn) : connection * list output * outcome :=
  if closed c then (c, [], Err (Thrown e))
  else poisonAndThrow c (JStr ($"failed protocol exchange: " ++ exn_message e)).

Definition unexpected (expected : string) (m : MirrorMessage) : js :=
  JStr ($"expected " ++ lit expected ++ $", got " ++ lit (proto_step m)).

(** ** Replies *)

Definition lower_ascii (c : N) : N := if (65 <=? c)%N && (c <=? 90)%N then (c + 32)%N else c.

(** [/queue full/i.test(error)] *)
Definition QUEUE_FULL_RE (text : ustring) : bool := contains ($"queue full") (map lower_ascii text).

Definition validate_reply (c : connection) (m : MirrorMessage) : connection * list output * outcome :=
  let c := spend c in
  match m with
  | SpecValidated result => (c, [], Ok (ResValidate result))
  | RegisterError error => (c, [], Err (new_error RegisterFailedError error))
  | ProtocolError error => poisonAndThrow c error
  | _ => poisonAndThrow c (unexpected "spec_validated" m)
  end.

Definition submit_reply (c : connection) (m : MirrorMessage) : connection * list output * outcome :=
  match m with
  | JobAccepted jobId kind => (c, [], Ok (ResHandle jobId kind))
  | RegisterError error =>
      (c, [], Err (match template_text number_text error with
                   | Ok text => if QUEUE_FULL_RE text then new_error JobQueueFullError error
                                else new_error RegisterFailedError error
                   | Err e => Thrown e
                   end))
  | ProtocolError error => poisonAndThrow c error
  | _ => poisonAndThrow c (unexpected "job_accepted" m)
  end.

(** [queryJob], [cancelJob] and [awaitJob], which differ in the wrapping of the
    two expected replies and in the text of the error. *)
Definition job_reply (wrap : bool -> MirrorMessage -> result) (expected : string)
    (c : connection) (m : MirrorMessage) : connection * list output * outcome :=
  match m with
  | JobStatus _ _ => (c, [], Ok (wrap false m))
  | JobResult _ _ => (c, [], Ok (wrap true m))
  | RegisterError error => (c, [], Err (new_error RegisterFailedError error))
  | ProtocolError error => poisonAndThrow c error
  | _ => poisonAndThrow c (unexpected expected m)
  end.

Definition queryJob_reply := job_reply (fun _ => ResReply) "job_status or job_result".
Definition awaitJob_reply := job_reply ResAwait "job_result or job_status".
Definition cancelJob_reply := job_reply (fun _ => ResReply) "job_result or job_status".

Definition handle_reply (c : connection) (r : request) (m : MirrorMessage) : connection * list output * outcome :=
  match r with
  | RValidate _ _ _ => validate_reply c m
  | RSubmitValidate _ _ _ | RSubmitTraceGen _ _ _ _ => submit_reply c m
  | RQueryJob _ | RPing => queryJob_reply c m
  | RAwaitJob _ _ | RHandleAwait _ _ => awaitJob_reply c m
  | RCancelJob _ => cancelJob_reply c m
  end.

(** The rest of [roundTrip], then what the operation does with the reply. *)
Definition receive (c : connection) (r : request) (reply : incoming) : connection * list output * outcome :=
  match reply with
  | Ended => poisonAndThrow c (JStr ($"mirror closed the connection mid-request"))
  | Failed e => exchange_failed c e
  | Line line =>
      match decodeMirrorMessage number_text line with
      | Err e => exchange_failed c e
      | Ok m => handle_reply c r m
      end
  end.

(** What [JobHandle.await] and [ping] make of the outcome of the operation they
    call. *)
Definition finish (r : request) (o : outcome) : outcome :=
  match r with
  | RHandleAwait jobId _ =>
      match o with
      | Ok (ResAwait false (JobStatus _ phase)) =>
          if is_str phase "unknown" then Err (JobEvictedError jobId) else o
      | _ => o
      end
  | RPing =>
      Ok (ResLive (match o with Ok (ResReply (JobStatus _ phase)) => is_str phase "unknown" | _ => false end))
  | _ => o
  end.

(** ** Steps *)

Definition call (c : connection) (id : nat) (r : request) : connection * list output :=
  match bound_check r with
  | Err e => (c, [Rejected id (Err e)])
  | Ok _ =>
      let not_live := isStdio c || closed c || flowConsumed c in
      if match r with RPing => not_live | _ => false end
      then (c, [Rejected id (Ok (ResLive false))])
      else if closed c
           then (c, [Rejected id (finish r (Err (ConnectionClosedError ($"connection is closed"))))])
           else (enqueue c (id, r), [])
  end.

(** The operation at the head of the queue runs up to its wait for a reply. *)
Definition start (c : connection) (send_error : option exn) (id : nat) (r : request)
    (rest : list (nat * request)) : connection * list output :=
  let c := schedule c rest None in
  match admission c r with
  | Err e => (c, [Settled id (finish r (Err e))])
  | Ok _ =>
      match encodeClientMessage number_text (client_message r) with
      | Err e => (c, [Settled id (finish r (Err (Thrown e)))])
      | Ok line =>
          match send_error with
          | None => (schedule c rest (Some (id, r)), [Sent r line])
          | Some e => let '(c', out, o) := exchange_failed c e in (c', out ++ [Settled id (finish r o)])
          end
      end
  end.

Definition close (c : connection) : connection * list output :=
  if closed c then (c, []) else (mark_closed c, [TransportClosed]).

(** [None]: the event cannot happen in this state. *)
Definition step (c : connection) (e : event) : option (connection * list output) :=
  match e with
  | Call id r => Some (call c id r)
  | Start send_error =>
      match current c, waiting c with
      | None, (id, r) :: rest => Some (start c send_error id r rest)
      | _, _ => None
      end
  | Receive reply =>
      match current c with
      | Some (id, r) =>
          let '(c', out, o) := receive (schedule c (waiting c) None) r reply in
          Some (c', out ++ [Settled id (finish r o)])
      | None => None
      end
  | Close => Some (close c)
  end.

Fixpoint run (c : connection) (es : list event) : option (connection * list output) :=
  match es with
  | [] => Some (c, [])
  | e :: es' =>
      '(c1, out1) ← step c e;
      '(c2, out2) ← run c1 es';
      Some (c2, out1 ++ out2)
  end.

(** ** runClientValidate *)

Definition settlement (out : list output) (id : nat) : option outcome :=
  head (omap (fun x => match x with
                       | Settled i o | Rejected i o => if (i =? id)%nat then Some o else None
                       | _ => None
                       end) out).

(** The event happens if it can. *)
Definition attempt (s : connection * list output) (e : event) : connection * list output :=
  match step s.1 e with Some (c', out) => (c', s.2 ++ out) | None => s end.

(** Open, validate, close whatever happened; [None] when the reply never comes. *)
Definition runClientValidate (m : mode_t) (cfg : ApalacheConfig) (bound : number)
    (spec : option ApalacheSpec) (send_error : option exn) (reply : option incoming)
    : option outcome * list output :=
  let called := attempt (opened m, []) (Call 0 (RValidate cfg bound spec)) in
  let started := attempt called (Start send_error) in
  let answered := match reply with Some i => attempt started (Receive i) | None => started end in
  match settlement answered.2 0 with
  | Some o => (Some o, (attempt answered Close).2)
  | None => (None, answered.2)
  end.
End text.
