(* ===== verification/ConnectionFacts.v ===== *)
(** * What a connection guarantees

    The exchanges are in lock step and settle in call order, every operation
    settles, a connection that is closed or whose flow is spent sends nothing,
    and an unexpected reply poisons it. *)

From Stdlib Require Import SpecFloat.
From S2P Require Import Prelude JsNumber Utf16 JsData StrictJson Decode JsText Protocol ClientMessages Connection.

(** ** Observations *)

Definition is_sent (x : output) : bool := match x with Sent _ _ => true | _ => false end.
Definition is_transport_closed (x : output) : bool :=
  match x with TransportClosed => true | _ => false end.

Definition sends (out : list output) : list output := List.filter is_sent out.
Definition settled (out : list output) : list nat :=
  omap (fun x => match x with Settled id _ => Some id | _ => None end) out.
Definition rejected (out : list output) : list nat :=
  omap (fun x => match x with Rejected id _ => Some id | _ => None end) out.

Definition calls (es : list event) : list nat :=
  omap (fun e => match e with Call id _ => Some id | _ => None end) es.
Definition replies (es : list event) : nat :=
  length (List.filter (fun e => match e with Receive _ => true | _ => false end) es).

Definition in_flight (c : connection) : list nat := match current c with Some (id, _) => [id] | None => [] end.
Definition pending (c : connection) : list nat := in_flight c ++ map fst (waiting c).
Definition spent (c : connection) : bool := closed c || flowConsumed c.
Definition is_validate (r : request) : bool := match r with RValidate _ _ _ => true | _ => false end.

(** The replies an operation waits for. *)
Definition expected (r : request) (m : MirrorMessage) : bool :=
  match m with
  | RegisterError _ => true
  | SpecValidated _ => is_validate r
  | JobAccepted _ _ => match r with RSubmitValidate _ _ _ | RSubmitTraceGen _ _ _ _ => true | _ => false end
  | JobStatus _ _ | JobResult _ _ =>
      match r with RQueryJob _ | RPing | RAwaitJob _ _ | RHandleAwait _ _ | RCancelJob _ => true | _ => false end
  | _ => false
  end.

(** Steps left: an operation that waits starts and then receives. *)
Definition work (c : connection) : nat := length (in_flight c) + 2 * length (waiting c).
Definition is_progress (e : event) : bool := match e with Start _ | Receive _ => true | _ => false end.

(** The outcome of an operation that was not let through. *)
Definition refused (o : outcome) : Prop :=
  o = Ok (ResLive false) \/ exists message, o = Err (ConnectionClosedError message).

Section facts.
Context (number_text : number -> ustring).
Abbreviation step := (step number_text).
Abbreviation run := (run number_text).

(** ** One step *)

(** The parts of a step that only change flags. *)
Definition flags_only (c c' : connection) (out : list output) : Prop :=
  mode c' = mode c /\ waiting c' = waiting c /\ current c' = current c /\
  (out = [] \/ out = [TransportClosed]).

Lemma poison_flags c message c' out o :
  poisonAndThrow number_text c message = (c', out, o) ->
  flags_only c c' out /\ closed c' = true /\ flowConsumed c' = true.
Proof. intros [= <- <- _]. unfold flags_only. destruct (closed c); cbn; auto 10. Qed.

Lemma exchange_failed_flags c e c' out o :
  exchange_failed number_text c e = (c', out, o) ->
  flags_only c c' out /\ closed c' = true.
Proof.
  unfold exchange_failed. destruct (closed c) eqn:E.
  - intros [= <- <- _]. unfold flags_only. auto 10.
  - intros H. apply poison_flags in H. tauto.
Qed.

(** What a reply changes, whatever the operation. *)
Definition poisoning (r : request) (reply : incoming) : bool :=
  match reply with
  | Line line =>
      match decodeMirrorMessage number_text line with Ok m => negb (expected r m) | Err _ => true end
  | Ended | Failed _ => true
  end.

Lemma handle_reply_flags c r m c' out o :
  handle_reply number_text c r m = (c', out, o) ->
  flags_only c c' out /\
  closed c' = closed c || negb (expected r m) /\
  spent c' = spent c || is_validate r || negb (expected r m).
Proof.
  intros H. unfold spent.
  assert (forall c1 msg, poisonAndThrow number_text c1 msg = (c', out, o) ->
    mode c1 = mode c -> waiting c1 = waiting c -> current c1 = current c ->
    flags_only c c' out /\ closed c' = true /\ closed c' || flowConsumed c' = true) as Hp.
  { intros c1 msg Hc1 Hm Hw Hcur. apply poison_flags in Hc1 as ((?&?&?&Ho)&->&->).
    unfold flags_only. split_and!; try congruence; done. }
  destruct r, m; cbn in H |- *;
    first [ injection H as <- <- _; unfold flags_only; cbn;
            rewrite ?orb_false_r, ?orb_true_r; by auto 10
          | apply Hp in H as (Hf & -> & ->); [|done..]; rewrite ?orb_true_r; done ].
Qed.

Lemma receive_flags c r reply c' out o :
  receive number_text c r reply = (c', out, o) ->
  flags_only c c' out /\
  closed c' = closed c || poisoning r reply /\
  spent c' = spent c || is_validate r || poisoning r reply.
Proof.
  unfold receive, poisoning, spent. intros H. destruct reply as [line| |e].
  - destruct (decodeMirrorMessage number_text line) as [m|e]; [by apply (handle_reply_flags _ _ _ _ _ o)|].
    apply exchange_failed_flags in H as (Hf & ->). by rewrite !orb_true_r.
  - apply poison_flags in H as (Hf & -> & ->). by rewrite !orb_true_r.
  - apply exchange_failed_flags in H as (Hf & ->). by rewrite !orb_true_r.
Qed.

Lemma closed_only_out out : out = [] \/ out = [TransportClosed] ->
  sends out = [] /\ settled out = [] /\ rejected out = [].
Proof. by intros [-> | ->]. Qed.

Lemma sends_app a b : sends (a ++ b) = sends a ++ sends b.
Proof. apply List.filter_app. Qed.
Lemma settled_app a b : settled (a ++ b) = settled a ++ settled b.
Proof. apply omap_app. Qed.
Lemma rejected_app a b : rejected (a ++ b) = rejected a ++ rejected b.
Proof. apply omap_app. Qed.
Lemma calls_cons e es : calls (e :: es) = calls [e] ++ calls es.
Proof. unfold calls. cbn. by destruct e. Qed.
Lemma replies_cons e es : replies (e :: es) = (replies [e] + replies es)%nat.
Proof. unfold replies. cbn. by destruct e. Qed.

(** The four kinds of step, with all they change. *)
Inductive stepped (c : connection) : event -> connection -> list output -> Prop :=
| stepped_rejected id r o :
    refused o \/ (exists message, o = Err (BoundOutsideRange message)) ->
    stepped c (Call id r) c [Rejected id o]
| stepped_queued id r :
    closed c = false -> bound_check number_text r = Ok tt ->
    stepped c (Call id r) (enqueue c (id, r)) []
| stepped_sent id r rest line :
    current c = None -> waiting c = (id, r) :: rest -> admission c r = Ok tt ->
    encodeClientMessage number_text (client_message r) = Ok line ->
    stepped c (Start None) (schedule c rest (Some (id, r))) [Sent r line]
| stepped_start_failed send id r rest c' out o :
    current c = None -> waiting c = (id, r) :: rest ->
    mode c' = mode c -> waiting c' = rest -> current c' = None ->
    (spent c = true -> spent c' = true /\ refused o) ->
    out = [] \/ out = [TransportClosed] ->
    stepped c (Start send) c' (out ++ [Settled id o])
| stepped_received reply id r c' out o :
    current c = Some (id, r) ->
    mode c' = mode c -> waiting c' = waiting c -> current c' = None ->
    closed c' = closed c || poisoning r reply ->
    spent c' = spent c || is_validate r || poisoning r reply ->
    out = [] \/ out = [TransportClosed] ->
    stepped c (Receive reply) c' (out ++ [Settled id o])
| stepped_close out :
    out = [] \/ out = [TransportClosed] ->
    stepped c Close (mark_closed c) out.

Lemma admission_spent c r : spent c = true -> exists e, admission c r = Err (ConnectionClosedError e).
Proof.
  unfold spent, admission, assertAsyncAllowed, assertFlowOpen.
  destruct (closed c); [destruct r; by eexists|]. destruct (flowConsumed c); [|done].
  destruct r; by eexists.
Qed.

Lemma refused_finish r e : refused (finish r (Err (ConnectionClosedError e))).
Proof. destruct r; cbn; solve [by left | right; by eexists]. Qed.

Lemma step_call c id r c' out : call number_text c id r = (c', out) -> stepped c (Call id r) c' out.
Proof.
  unfold call. destruct (bound_check number_text r) as [[]|e] eqn:Eb.
  2: { intros [= <- <-]. constructor. right.
       destruct r; try discriminate; cbn in Eb; unfold assertValidateBound in Eb;
         apply require_Err in Eb as [_ <-]; by eexists. }
  case_match; [intros [= <- <-]; constructor; left; by left|].
  destruct (closed c) eqn:Ec; intros [= <- <-]; constructor; try done.
  left. apply refused_finish.
Qed.

Lemma step_start c send id r rest c' out :
  current c = None -> waiting c = (id, r) :: rest ->
  start number_text c send id r rest = (c', out) -> stepped c (Start send) c' out.
Proof.
  intros Hc Hw. unfold start. destruct (admission (schedule c rest None) r) as [[]|e] eqn:Ea.
  2: { intros [= <- <-]. apply (stepped_start_failed c send id r rest _ []); try done; [|by left].
       intros Hs. split; [done|]. destruct (admission_spent (schedule c rest None) r Hs) as [m Hm].
       assert (e = ConnectionClosedError m) as -> by congruence. apply refused_finish. }
  assert (spent c = true -> False) as Hs.
  { intros Hs. destruct (admission_spent (schedule c rest None) r Hs) as [m Hm]. congruence. }
  destruct (encodeClientMessage number_text (client_message r)) as [line|e] eqn:El.
  2: { intros [= <- <-]. apply (stepped_start_failed c send id r rest _ []); try done; by left. }
  destruct send as [e|]; [|intros [= <- <-]; by apply (stepped_sent c id)].
  destruct (exchange_failed number_text (schedule c rest None) e) as [[c1 out1] o] eqn:Ef.
  apply exchange_failed_flags in Ef as ((Hm & Hw1 & Hc1 & Ho) & Hcl). intros [= <- <-].
  by apply (stepped_start_failed c (Some e) id r rest).
Qed.

Lemma step_stepped c e c' out : step c e = Some (c', out) -> stepped c e c' out.
Proof.
  destruct e as [id r|send|reply|]; cbn.
  - intros [= H]. by apply step_call.
  - destruct (current c) eqn:Hc; [done|]. destruct (waiting c) as [|[id r] rest] eqn:Hw; [done|].
    intros [= H]. by eapply step_start.
  - destruct (current c) as [[id r]|] eqn:Hc; [|done].
    destruct (receive number_text (schedule c (waiting c) None) r reply) as [[c1 out1] o] eqn:Er.
    apply receive_flags in Er as ((Hm & Hw & Hc1 & Ho) & Hcl & Hs). intros [= <- <-].
    by apply (stepped_received c reply id r).
  - unfold close. destruct (closed c) eqn:Hc; intros [= <- <-].
    + assert (c = mark_closed c) as Heq by (destruct c; cbn in *; by subst).
      rewrite Heq at 2. constructor. by left.
    + constructor. by right.
Qed.

(** ** Runs *)

Lemma run_ind (P : connection -> list event -> connection -> list output -> Prop) :
  (forall c, P c [] c []) ->
  (forall c e c1 out1 es c2 out2, stepped c e c1 out1 -> run c1 es = Some (c2, out2) ->
    P c1 es c2 out2 -> P c (e :: es) c2 (out1 ++ out2)) ->
  forall es c c' out, run c es = Some (c', out) -> P c es c' out.
Proof.
  intros H0 HS es. induction es as [|e es IH]; intros c c' out; cbn; [by intros [= <- <-]|].
  destruct (step c e) as [[c1 out1]|] eqn:Es; [|done]. cbn.
  destruct (run c1 es) as [[c2 out2]|] eqn:Er; [|done]. intros [= <- <-].
  apply step_stepped in Es. by eapply HS; [| |apply IH].
Qed.

Ltac run_induction :=
  match goal with
  | |- Connection.run number_text ?c ?es = Some (?c', ?out) -> ?G =>
      let P := eval pattern c, es, c', out in G in
      match P with ?f _ _ _ _ => apply (run_ind f); clear; cbv beta end
  end.

(** The calls that were not rejected at once, in order. *)
Lemma step_order c e c' out : stepped c e c' out ->
  exists accepted, accepted `sublist_of` calls [e] /\ accepted ++ rejected out ≡ₚ calls [e] /\
    settled out ++ pending c' = pending c ++ accepted.
Proof.
  unfold pending, in_flight.
  destruct 1 as [id r o Hb|id r Hc Hb|id r rest line Hc Hw|send id r rest c' out o Hc Hw Hm Hw' Hc' Hs Ho
                |reply id r c' out o Hc Hm Hw Hc' _ _ Ho|out Ho].
  - exists []. split_and!; [apply sublist_nil_l|done|by rewrite app_nil_r].
  - exists [id]. split_and!; [done|done|]. cbn. by rewrite map_app, <- app_assoc.
  - exists []. split_and!; [done|done|]. cbn. by rewrite Hc, Hw, app_nil_r.
  - exists []. rewrite settled_app, rejected_app. apply closed_only_out in Ho as (_ & -> & ->).
    split_and!; [done|done|]. rewrite Hc, Hw, Hc', Hw'. cbn. by rewrite app_nil_r.
  - exists []. rewrite settled_app, rejected_app. apply closed_only_out in Ho as (_ & -> & ->).
    split_and!; [done|done|]. rewrite Hc, Hc', Hw. cbn. by rewrite app_nil_r.
  - exists []. apply closed_only_out in Ho as (_ & -> & ->). split_and!; [done|done|].
    cbn. by rewrite app_nil_r.
Qed.

(** Operations settle exactly once and in the order of their calls: in any
    execution of a connection the calls are those rejected at once and those
    accepted, and the accepted ones, in call order, are the operations that have
    settled followed by the one in flight and the ones that wait. *)
Theorem operations_settle_in_order m es c out :
  run (opened m) es = Some (c, out) ->
  exists accepted, accepted `sublist_of` calls es /\ accepted ++ rejected out ≡ₚ calls es /\
    settled out ++ pending c = accepted.
Proof.
  intros H.
  cut (exists accepted, accepted `sublist_of` calls es /\ accepted ++ rejected out ≡ₚ calls es /\
    settled out ++ pending c = pending (opened m) ++ accepted); [done|].
  revert es c out H. generalize (opened m). intros c0 es c out H. revert H. run_induction.
  - intros c. exists []. split_and!; [done|done|]. by rewrite app_nil_r.
  - intros c e c1 out1 es c2 out2 Hs _ (a2 & Hsub2 & Hp2 & He2).
    apply step_order in Hs as (a1 & Hsub1 & Hp1 & He1). exists (a1 ++ a2).
    rewrite calls_cons, rejected_app, settled_app. split_and!; [by apply sublist_app| |].
    + rewrite <- Hp1, <- Hp2. solve_Permutation.
    + by rewrite <- app_assoc, He2, app_assoc, He1, app_assoc.
Qed.

(** *** Lock step *)

Lemma step_lock_step c e c' out : stepped c e c' out ->
  (length (sends out) + length (in_flight c) = replies [e] + length (in_flight c'))%nat.
Proof.
  unfold in_flight.
  destruct 1 as [id r o Hb|id r Hc Hb|id r rest line Hc Hw|send id r rest c' out o Hc Hw Hm Hw' Hc' Hs Ho
                |reply id r c' out o Hc Hm Hw Hc' _ _ Ho|out Ho]; try done.
  - by rewrite Hc.
  - rewrite sends_app. apply closed_only_out in Ho as (-> & _). by rewrite Hc, Hc'.
  - rewrite sends_app. apply closed_only_out in Ho as (-> & _). by rewrite Hc, Hc'.
  - by apply closed_only_out in Ho as (-> & _).
Qed.

Lemma run_lock_step es c c' out : run c es = Some (c', out) ->
  (length (sends out) + length (in_flight c) = replies es + length (in_flight c'))%nat.
Proof.
  run_induction; [done|].
  intros c e c1 out1 es c2 out2 Hs _ IH. apply step_lock_step in Hs.
  rewrite sends_app, replies_cons, length_app. lia.
Qed.

(** The operation in flight is the one of the last line sent, since when nothing
    has settled. *)
Definition last_sent (op : nat * request) (out : list output) : Prop :=
  exists o1 line o2, out = o1 ++ Sent op.2 line :: o2 /\ sends o2 = [] /\ settled o2 = [].

Lemma run_last_sent es c c' out : run c es = Some (c', out) ->
  forall op, current c' = Some op ->
  (current c = Some op /\ sends out = [] /\ settled out = []) \/ last_sent op out.
Proof.
  run_induction; [by left|].
  intros c e c1 out1 es c2 out2 Hs _ IH op Hop.
  destruct (IH op Hop) as [(Hc1 & Hs2 & Ht2) | (o1 & line & o2 & -> & Ho2)].
  2: { right. exists (out1 ++ o1), line, o2. by rewrite <- app_assoc. }
  destruct Hs as [id r o Hb|id r Hc Hb|id r rest line Hc Hw|send id r rest c' out o Hc Hw Hm Hw' Hc' Hs Ho
                |reply id r c' out o Hc Hm Hw Hc' _ _ Ho|out Ho]; cbn in Hc1; try congruence.
  - left. done.
  - left. done.
  - right. injection Hc1 as <-. by exists [], line, out2.
  - left. rewrite sends_app, settled_app. apply closed_only_out in Ho as (-> & -> & _). done.
Qed.

(** C34: request and reply alternate on the wire: in any execution the number of
    lines sent is the number of replies received, plus one exactly when an
    operation is in flight; and the operation in flight is the one whose line was
    sent last, nothing having settled since. A reply therefore always meets the
    operation it answers, however calls and [close] interleave. *)
Theorem exchanges_lock_step m es c out :
  run (opened m) es = Some (c, out) ->
  length (sends out) = (replies es + length (in_flight c))%nat /\
  forall op, current c = Some op -> last_sent op out.
Proof.
  intros H. split.
  - apply run_lock_step in H. cbn in H. lia.
  - intros op Hop. by destruct (run_last_sent _ _ _ _ H op Hop) as [(? & _) | ?].
Qed.

(** *** Every operation settles *)

Lemma step_work c e c' out : stepped c e c' out -> is_progress e = true -> (work c' < work c)%nat.
Proof.
  unfold work, in_flight.
  destruct 1 as [id r o Hb|id r Hc Hb|id r rest line Hc Hw|send id r rest c' out o Hc Hw Hm Hw' Hc' Hs Ho
                |reply id r c' out o Hc Hm Hw Hc' _ _ Ho|out Ho]; try done; intros _.
  - rewrite Hc, Hw. cbn. lia.
  - rewrite Hc, Hc', Hw, Hw'. cbn. lia.
  - rewrite Hc, Hc', Hw. cbn. lia.
Qed.

Lemma run_work es c c' out : run c es = Some (c', out) ->
  forallb is_progress es = true -> (length es + work c' <= work c)%nat /\ settled out ++ pending c' = pending c.
Proof.
  run_induction; [done|].
  intros c e c1 out1 es c2 out2 Hs _ IH H. cbn in H. apply andb_true_iff in H as [He H].
  specialize (IH H) as [IHw IHp]. pose proof (step_work _ _ _ _ Hs He).
  apply step_order in Hs as (acc & Hsub & _ & Heq).
  assert (acc = []) as -> by (apply sublist_nil_r; by destruct e).
  split; [cbn; lia|]. by rewrite settled_app, <- app_assoc, IHp, Heq, app_nil_r.
Qed.

Lemma pending_enabled c : pending c <> [] -> exists e, is_progress e = true /\ step c e <> None.
Proof.
  unfold pending, in_flight. intros H. destruct (current c) as [[id r]|] eqn:Hc.
  - exists (Receive Ended). split; [done|]. unfold Connection.step. rewrite Hc.
    by destruct (receive _ _ _ _) as [[??]?].
  - destruct (waiting c) as [|[id r] rest] eqn:Hw; [done|]. exists (Start None). split; [done|].
    unfold Connection.step. by rewrite Hc, Hw.
Qed.

(** No operation is left behind: from any state, starting what waits and
    answering what is in flight (whatever the transport does) stops after at most
    two steps per operation, and when neither is possible any more exactly the
    operations that were in flight or waiting have settled, in their order. *)
Theorem operations_all_settle c es c' out :
  run c es = Some (c', out) -> forallb is_progress es = true ->
  (length es <= work c)%nat /\
  ((forall e, is_progress e = true -> step c' e = None) -> settled out = pending c).
Proof.
  intros H He. destruct (run_work _ _ _ _ H He) as [Hw Hp]. split; [lia|]. intros Hstop.
  destruct (decide (pending c' = [])) as [E|E]; [by rewrite <- Hp, E, app_nil_r|].
  destruct (pending_enabled _ E) as (e & Hpe & Hne). by rewrite Hstop in Hne.
Qed.

(** *** A spent connection *)

Definition visible_when_spent (c : connection) (x : output) : Prop :=
  match x with
  | Sent _ _ => False
  | Settled id o => id ∈ in_flight c \/ refused o
  | Rejected _ o => refused o \/ exists message, o = Err (BoundOutsideRange message)
  | TransportClosed => True
  end.

Lemma step_spent c e c' out : stepped c e c' out -> spent c = true ->
  spent c' = true /\ in_flight c' ⊆ in_flight c /\ Forall (visible_when_spent c) out.
Proof.
  assert (forall out, out = [] \/ out = [TransportClosed] -> Forall (visible_when_spent c) out) as Hout.
  { intros o [-> | ->]; by repeat constructor. }
  destruct 1 as [id r o Hb|id r Hc Hb|id r rest line Hc Hw Ha|send id r rest c' out o Hc Hw Hm Hw' Hc' Hs Ho
                |reply id r c' out o Hc Hm Hw Hc' _ Hs Ho|out Ho]; intros Hsp.
  - split_and!; [done|done|]. by apply Forall_singleton.
  - split_and!; [done|done|constructor].
  - destruct (admission_spent c r Hsp) as [msg Hmsg]. congruence.
  - destruct (Hs Hsp) as [Hs' Hr]. split_and!; [done| |].
    + unfold in_flight. rewrite Hc'. set_solver.
    + apply Forall_app_2; [by apply Hout|]. apply Forall_singleton. by right.
  - split_and!; [by rewrite Hs, Hsp| |].
    + unfold in_flight. rewrite Hc'. set_solver.
    + apply Forall_app_2; [by apply Hout|]. apply Forall_singleton. left. unfold in_flight. rewrite Hc. set_solver.
  - split_and!; [done|done|by apply Hout].
Qed.

(** A connection that is closed, or whose flow has been used up, never sends
    another line and stays so: whatever is called on it, only the operation that
    was in flight can still get a reply; every other one is refused with the
    connection-closed error, [ping] with false (a bad bound is still reported as
    such). *)
Theorem spent_connection_silent c es c' out :
  run c es = Some (c', out) -> spent c = true ->
  spent c' = true /\ Forall (visible_when_spent c) out.
Proof.
  intros H Hsp. cut (spent c' = true /\ in_flight c' ⊆ in_flight c /\ Forall (visible_when_spent c) out);
    [tauto|].
  revert Hsp. revert H. run_induction; [done|].
  intros c e c1 out1 es c2 out2 Hs _ IH Hsp. destruct (step_spent _ _ _ _ Hs Hsp) as (H1 & H2 & H3).
  destruct (IH H1) as (H4 & H5 & H6). split_and!; [done|set_solver|].
  apply Forall_app_2; [done|]. eapply Forall_impl; [exact H6|].
  intros [ | | | ]; cbn; try done. intros [?|?]; [left; set_solver|by right].
Qed.

(** *** What a reply does *)

Lemma handle_reply_error c r m c' out o :
  handle_reply number_text c r m = (c', out, o) -> expected r m = false -> exists e, o = Err e.
Proof.
  destruct r, m; cbn [expected is_validate]; intros H E; try discriminate E; injection H as _ _ <-; by eexists.
Qed.

Lemma receive_error c r reply c' out o :
  receive number_text c r reply = (c', out, o) -> poisoning r reply = true -> exists e, o = Err e.
Proof.
  unfold receive, poisoning.
  assert (forall e, exchange_failed number_text c e = (c', out, o) -> exists e, o = Err e) as Hf.
  { intros e. unfold exchange_failed. destruct (closed c); intros [= _ _ <-]; by eexists. }
  destruct reply as [line| |e].
  - destruct (decodeMirrorMessage number_text line) as [m|e]; [|by intros ?%Hf].
    rewrite negb_true_iff. apply handle_reply_error.
  - intros [= _ _ <-]. by eexists.
  - by intros ?%Hf.
Qed.

(** The effect of a reply on the connection. The connection is closed by it
    exactly when it is not one of the replies the operation waits for (a line that
    cannot be decoded, another message, a protocol_error, the end or a failure of
    the transport); register_error leaves it open. Its flow is used up, in
    addition, by any reply to [validate]. The operation in flight settles, with an
    error when the reply was not expected ([ping] with false). *)
Theorem reply_effect c reply c' out id r :
  current c = Some (id, r) -> step c (Receive reply) = Some (c', out) ->
  closed c' = closed c || poisoning r reply /\
  spent c' = spent c || is_validate r || poisoning r reply /\
  current c' = None /\ waiting c' = waiting c /\
  exists o, last out = Some (Settled id (finish r o)) /\
    (poisoning r reply = true -> exists e, o = Err e).
Proof.
  intros Hc H. cbn [Connection.step] in H. rewrite Hc in H.
  destruct (receive number_text (schedule c (waiting c) None) r reply) as [[c1 out1] o] eqn:Er.
  injection H as <- <-. pose proof (receive_flags _ _ _ _ _ _ Er) as ((_ & Hw & Hcur & _) & Hcl & Hs).
  split_and!; [done|done|done|done|]. exists o. split; [apply last_snoc|].
  by apply (receive_error _ _ _ _ _ _ Er).
Qed.

(** *** What is sent *)

Definition sendable (m : mode_t) (r : request) (line : ustring) : Prop :=
  bound_check number_text r = Ok tt /\ (m = Stdio -> is_validate r = true) /\
  encodeClientMessage number_text (client_message r) = Ok line.

Lemma stdio_admission c r : mode c = Stdio -> admission c r = Ok tt -> is_validate r = true.
Proof.
  unfold admission, assertAsyncAllowed, isStdio. intros ->.
  destruct r; [done|..]; destruct (assertFlowOpen c) as [[]|]; discriminate.
Qed.

Lemma stepped_sent_line c e c' out r line : stepped c e c' out -> Sent r line ∈ out ->
  exists id, (id, r) ∈ waiting c /\ admission c r = Ok tt /\
    encodeClientMessage number_text (client_message r) = Ok line.
Proof.
  assert (forall out o id, out = [] \/ out = [TransportClosed] -> Sent r line ∈ out ++ [Settled id o] -> False) as Hno.
  { intros o1 o id [-> | ->]; set_solver. }
  destruct 1 as [id r1 o Hb|id r1 Hc Hb|id r1 rest line1 Hc Hw Ha|send id r1 rest c' out o Hc Hw Hm Hw' Hc' Hs Ho
                |reply id r1 c' out o Hc Hm Hw Hc' _ Hs Ho|out Ho]; intros Hin.
  - set_solver.
  - set_solver.
  - apply list_elem_of_singleton in Hin as [= -> ->]. exists id. rewrite Hw. split_and!; [set_solver|done|done].
  - by apply Hno in Hin.
  - by apply Hno in Hin.
  - destruct Ho as [-> | ->]; set_solver.
Qed.

Lemma stepped_waiting c e c' out : stepped c e c' out ->
  mode c' = mode c /\
  forall op, op ∈ waiting c' -> op ∈ waiting c \/ (e = Call op.1 op.2 /\ bound_check number_text op.2 = Ok tt).
Proof.
  destruct 1 as [id r o Hb|id r Hc Hb|id r rest line Hc Hw|send id r rest c' out o Hc Hw Hm Hw' Hc' Hs Ho
                |reply id r c' out o Hc Hm Hw Hc' _ _ Ho|out Ho]; try (split; [done|by left]).
  - split; [done|]. intros op [Hin|Hin]%elem_of_app; [by left|].
    apply list_elem_of_singleton in Hin as ->. by right.
  - split; [done|]. intros op Hin. left. rewrite Hw. by right.
  - split; [done|]. intros op Hin. left. rewrite Hw. right. congruence.
  - split; [done|]. intros op Hin. left. congruence.
Qed.

(** What reaches the wire: every line sent in any execution of a connection is
    the encoding of the message of an operation that was called on it, with a
    bound that is an integer from 1 to 100 where the operation has one, and over
    stdio that operation is [validate]: an asynchronous operation sends nothing
    there. *)
Theorem sent_lines_admitted m es c out r line :
  run (opened m) es = Some (c, out) -> Sent r line ∈ out ->
  sendable m r line /\ exists id, Call id r ∈ es.
Proof.
  intros H. cut (Forall (fun op => bound_check number_text op.2 = Ok tt) (waiting (opened m)) ->
    Sent r line ∈ out -> sendable (mode (opened m)) r line /\
    ((exists id, Call id r ∈ es) \/ exists id, (id, r) ∈ waiting (opened m))).
  { intros Hcut Hin. destruct (Hcut (ListDef.Forall_nil _) Hin) as (? & [?|[id Hid]]); [done|].
    by apply elem_of_nil in Hid. }
  revert H. generalize (opened m). intros c0. run_induction; [set_solver|].
  intros c0 e c1 out1 es c2 out2 Hs _ IH Hok Hin.
  pose proof (stepped_waiting _ _ _ _ Hs) as [Hm Hw].
  apply elem_of_app in Hin as [Hin|Hin].
  - destruct (stepped_sent_line _ _ _ _ _ _ Hs Hin) as (id & Hid & Ha & He).
    rewrite Forall_forall in Hok. split; [|right; by exists id].
    split_and!; [by apply (Hok (id, r))|by intros; eapply stdio_admission|done].
  - destruct IH as [IH1 IH2]; [|done|].
    { rewrite Forall_forall in Hok |- *. intros op Hop. destruct (Hw op Hop) as [?|[_ ?]]; [by apply Hok|done]. }
    split; [by rewrite <- Hm|]. destruct IH2 as [[id Hid]|[id Hid]]; [left; exists id; by right|].
    destruct (Hw _ Hid) as [?|[-> _]]; [right; by exists id|left; exists id; by left].
Qed.

(** *** The transport is closed once *)

Definition closes (out : list output) : nat := length (List.filter is_transport_closed out).

Lemma closes_app a b : closes (a ++ b) = (closes a + closes b)%nat.
Proof. unfold closes. by rewrite List.filter_app, length_app. Qed.

Definition closing (c c' : connection) (out : list output) : Prop :=
  (closes out + Nat.b2n (closed c) = Nat.b2n (closed c'))%nat.

Lemma poison_closing c msg c' out o : poisonAndThrow number_text c msg = (c', out, o) -> closing c c' out.
Proof. intros [= <- <- _]. unfold closing. by destruct (closed c). Qed.

Lemma exchange_failed_closing c e c' out o : exchange_failed number_text c e = (c', out, o) -> closing c c' out.
Proof.
  unfold exchange_failed. destruct (closed c) eqn:E; [by intros [= <- <- _]|]. apply poison_closing.
Qed.

Lemma receive_closing c r reply c' out o : receive number_text c r reply = (c', out, o) -> closing c c' out.
Proof.
  unfold receive.
  destruct reply as [line| |e]; [|apply poison_closing|apply exchange_failed_closing].
  destruct (decodeMirrorMessage number_text line) as [m|e]; [|apply exchange_failed_closing].
  destruct r, m; cbn [handle_reply validate_reply submit_reply queryJob_reply awaitJob_reply cancelJob_reply job_reply];
    first [ apply poison_closing | apply (poison_closing (spend c)) | intros [= <- <- _]; unfold closing; reflexivity ].
Qed.

Lemma step_closing c e c' out : step c e = Some (c', out) -> closing c c' out.
Proof.
  unfold closing. destruct e as [id r|send|reply|]; cbn [Connection.step].
  - intros [= H]. revert H. unfold call. destruct (bound_check _ _); [|by intros [= <- <-]].
    destruct (match r with RPing => _ | _ => _ end); [by intros [= <- <-]|].
    destruct (closed c) eqn:E; intros [= <- <-]; cbn; by rewrite E.
  - destruct (current c); [done|]. destruct (waiting c) as [|[id r] rest]; [done|].
    intros [= H]. revert H. unfold start.
    destruct (admission _ r); [|by intros [= <- <-]].
    destruct (encodeClientMessage _ _); [|by intros [= <- <-]].
    destruct send as [e|]; [|by intros [= <- <-]].
    destruct (exchange_failed _ _ _) as [[c1 out1] o] eqn:E. apply exchange_failed_closing in E.
    intros [= <- <-]. rewrite closes_app. unfold closing in E. cbn in *. lia.
  - destruct (current c) as [[id r]|]; [|done].
    destruct (receive _ _ _ _) as [[c1 out1] o] eqn:E. apply receive_closing in E.
    intros [= <- <-]. rewrite closes_app. unfold closing in E. cbn in *. lia.
  - unfold close. by destruct (closed c) eqn:E; intros [= <- <-]; cbn; rewrite ?E.
Qed.

(** At most one line per start; the counts along attempted events. *)
Definition starts (e : event) : nat := match e with Start _ => 1 | _ => 0 end.

Lemma step_sends c e c' out : stepped c e c' out -> (length (sends out) <= starts e)%nat.
Proof.
  destruct 1 as [id r o Hb|id r Hc Hb|id r rest line Hc Hw|send id r rest c' out o Hc Hw Hm Hw' Hc' Hs Ho
                |reply id r c' out o Hc Hm Hw Hc' _ _ Ho|out Ho]; cbn; try lia.
  - rewrite sends_app. apply closed_only_out in Ho as (-> & _). cbn. lia.
  - rewrite sends_app. apply closed_only_out in Ho as (-> & _). cbn. lia.
  - by apply closed_only_out in Ho as (-> & _).
Qed.

Definition counted (n : nat) (s : connection * list output) : Prop :=
  closes s.2 = Nat.b2n (closed s.1) /\ (length (sends s.2) <= n)%nat.

Lemma counted_attempt n s e : counted n s -> counted (n + starts e) (attempt number_text s e).
Proof.
  intros [Hcl Hs]. unfold attempt, counted. destruct (step s.1 e) as [[c' out]|] eqn:E; cbn [fst snd].
  2: { split; [done|lia]. }
  pose proof (step_closing _ _ _ _ E) as Hc. apply step_stepped, step_sends in E.
  unfold closing in Hc. rewrite closes_app, sends_app, length_app. lia.
Qed.

(** C42: [runClientValidate] cleans up: whatever the bound, the sending and the
    reply, when it returns or throws the transport has been closed, exactly once;
    at most one line was sent, and none when the bound is not an integer from 1 to
    100. *)
Theorem run_client_validate_closes m cfg bound spec send_error reply o out :
  runClientValidate number_text m cfg bound spec send_error reply = (Some o, out) ->
  closes out = 1%nat /\ (length (sends out) <= 1)%nat /\
  (validate_bound_ok bound = false -> sends out = []).
Proof.
  unfold runClientValidate.
  set (called := attempt number_text (opened m, []) _).
  set (started := attempt number_text called (Start send_error)).
  set (answered := match reply with Some i => attempt number_text started (Receive i) | None => started end).
  destruct (settlement answered.2 0) as [o'|]; [|done]. intros [= <- <-].
  assert (counted 1 answered) as Ha.
  { assert (counted 1 started) as Hs by (apply (counted_attempt 0), (counted_attempt 0); split; done).
    unfold answered. destruct reply; [apply (counted_attempt 1)|]; done. }
  pose proof (counted_attempt 1 answered Close Ha) as [Hcl Hs]. split_and!; [|done|].
  - rewrite Hcl. unfold attempt. cbn [Connection.step]. unfold close.
    by destruct (closed answered.1) eqn:E; cbn; rewrite ?E.
  - intros Hb. assert (started = (opened m, snd called) /\ sends called.2 = []) as [Hst Hse].
    { unfold started, called, attempt. cbn. unfold call, bound_check, assertValidateBound.
      by rewrite Hb. }
    assert (answered = started) as -> by (unfold answered; rewrite Hst; by destruct reply).
    rewrite Hst. unfold attempt. cbn [Connection.step fst snd close closed opened].
    by rewrite sends_app, Hse.
Qed.
End facts.

(** ** Witnesses *)

Definition half (x : number) : ustring := $"0.5".
Definition sample_config : ApalacheConfig :=
  Build_ApalacheConfig ($"Counter.tla") Missing Null (Given ($"CInit")) ($"Inv") (num_of_Z 10) None.
Definition job_running : ustring :=
  match compressCanonicalJson (JObj [($"proto_step", JStr ($"job_status")); ($"jobId", JStr ($"a"));
                                     ($"phase", JStr ($"running"))]) with
  | Ok text => text
  | Err _ => []
  end.
Definition sample_events : list event :=
  [Call 1 (RQueryJob (JStr ($"a"))); Call 2 (RSubmitValidate sample_config (num_of_Z 0) None);
   Start None; Call 3 (RValidate sample_config (num_of_Z 5) None); Receive (Line job_running); Start None].
Definition sample_state (es : list event) : connection :=
  match run half (opened Network) es with Some (c, _) => c | None => opened Stdio end.
Definition sample_output (es : list event) : list output :=
  match run half (opened Network) es with Some (_, out) => out | None => [] end.

Example operations_settle_in_order_witness :
  exists accepted, accepted `sublist_of` calls sample_events /\
    accepted ++ rejected (sample_output sample_events) ≡ₚ calls sample_events /\
    settled (sample_output sample_events) ++ pending (sample_state sample_events) = accepted.
Proof. apply (operations_settle_in_order half Network). vm_compute. reflexivity. Defined.

Example exchanges_lock_step_witness :
  length (sends (sample_output sample_events)) =
    (replies sample_events + length (in_flight (sample_state sample_events)))%nat /\
  forall op, current (sample_state sample_events) = Some op -> last_sent op (sample_output sample_events).
Proof. apply (exchanges_lock_step half Network). vm_compute. reflexivity. Defined.

Example operations_all_settle_witness :
  exists c' out, run half (sample_state sample_events) [Receive Ended] = Some (c', out) /\
  (length [Receive Ended] <= work (sample_state sample_events))%nat /\
  ((forall e, is_progress e = true -> step half c' e = None) ->
   settled out = pending (sample_state sample_events)).
Proof.
  eexists _, _. split; [vm_compute; reflexivity|].
  apply (operations_all_settle half _ [Receive Ended]); [vm_compute; reflexivity|reflexivity].
Defined.

Example spent_connection_silent_witness :
  exists c' out, run half (Connection Network false true [] None) [Call 1 (RQueryJob JNull); Start None]
    = Some (c', out) /\
  spent c' = true /\ Forall (visible_when_spent (Connection Network false true [] None)) out.
Proof.
  eexists _, _. split; [vm_compute; reflexivity|].
  apply (spent_connection_silent half (Connection Network false true [] None) [Call 1 (RQueryJob JNull); Start None]);
    [vm_compute; reflexivity|reflexivity].
Defined.

Definition awaiting : connection := Connection Network false false [] (Some (1%nat, RQueryJob (JStr ($"a")))).

Example reply_effect_witness :
  exists c' out, step half awaiting (Receive (Line job_running)) = Some (c', out) /\
  closed c' = closed awaiting || poisoning half (RQueryJob (JStr ($"a"))) (Line job_running) /\
  spent c' = spent awaiting || false || poisoning half (RQueryJob (JStr ($"a"))) (Line job_running) /\
  current c' = None /\ waiting c' = [] /\
  exists o, last out = Some (Settled 1 (finish (RQueryJob (JStr ($"a"))) o)) /\
    (poisoning half (RQueryJob (JStr ($"a"))) (Line job_running) = true -> exists e, o = Err e).
Proof.
  eexists _, _. split; [vm_compute; reflexivity|].
  apply (reply_effect half awaiting (Line job_running) _ _ 1 (RQueryJob (JStr ($"a")))); [reflexivity|].
  vm_compute. reflexivity.
Defined.

Example sent_lines_admitted_witness :
  exists r line, Sent r line ∈ sample_output sample_events /\
    sendable half Network r line /\ exists id, Call id r ∈ sample_events.
Proof.
  eexists (RQueryJob (JStr ($"a"))), _. split; [vm_compute; right; left|].
  apply (sent_lines_admitted half Network sample_events (sample_state sample_events) (sample_output sample_events));
    [vm_compute; reflexivity|vm_compute; right; left].
Defined.

Example run_client_validate_closes_witness :
  exists o out, runClientValidate half Stdio sample_config (num_of_Z 5) None None (Some Ended) = (Some o, out) /\
  closes out = 1%nat /\ (length (sends out) <= 1)%nat /\
  (validate_bound_ok (num_of_Z 5) = false -> sends out = []).
Proof.
  eexists _, _. split; [vm_compute; reflexivity|].
  eapply (run_client_validate_closes half Stdio sample_config (num_of_Z 5) None None (Some Ended)).
  vm_compute. reflexivity.
Defined.
