(* ===== verification/AdapterRegistry.v ===== *)
(** * The adapter registries

    [src/src/adapter-registry.ts]: the coded errors of the negotiated runner and
    the exact-key registry behind [CompiledAdapterRegistry] and
    [AsyncCompiledAdapterRegistry]. The factories are opaque values. *)

From S2P Require Import Prelude JsNumber Utf16 JsData.

Inductive NegotiatedRunnerErrorCode :=
| negotiation_missing
| descriptor_schema_unsupported
| descriptor_digest_invalid
| descriptor_missing
| not_modified_without_cache
| negotiation_status_unexpected
| adapter_not_registered
| adapter_ambiguous
| target_profile_mismatch
| state_computer_contract_mismatch
| interface_digest_mismatch
| binding_digest_mismatch
| binding_config_mismatch
| adapter_factory_failed
| adapter_dispose_failed
| legacy_fallback_unavailable.

#[export] Instance runner_code_eq_dec : EqDecision NegotiatedRunnerErrorCode.
Proof. solve_decision. Defined.

Record NegotiatedRunnerError := runnerError { code : NegotiatedRunnerErrorCode; re_message : ustring }.

Record CompiledAdapterKey := AdapterKey {
  semanticDigest : ustring;
  adapterId : ustring;
  targetProfile : ustring;
  stateComputerContractVersion : ustring }.

#[export] Instance adapter_key_eq_dec : EqDecision CompiledAdapterKey.
Proof. solve_decision. Defined.

Section registry.
Context {F : Type}.
Implicit Types (regs : list (CompiledAdapterKey * F)) (key : CompiledAdapterKey).

Definition exactKey (a b : CompiledAdapterKey) : bool :=
  bool_decide (semanticDigest a = semanticDigest b) && bool_decide (adapterId a = adapterId b) &&
  bool_decide (targetProfile a = targetProfile b) &&
  bool_decide (stateComputerContractVersion a = stateComputerContractVersion b).

Definition same_identity (a b : CompiledAdapterKey) : bool :=
  bool_decide (semanticDigest a = semanticDigest b) && bool_decide (adapterId a = adapterId b).

Definition resolve regs key : res NegotiatedRunnerError F :=
  let exact := List.filter (fun entry => exactKey entry.1 key) regs in
  match exact with
  | _ :: _ :: _ =>
      Err (runnerError adapter_ambiguous ($"multiple adapters registered for " ++ adapterId key))
  | [(_, factory)] => Ok factory
  | [] =>
      let sameIdentity := List.filter (fun entry => same_identity entry.1 key) regs in
      let sameTarget :=
        List.filter (fun entry => bool_decide (targetProfile entry.1 = targetProfile key)) sameIdentity in
      if (0 <? length sameIdentity)%nat && (length sameTarget =? 0)%nat then
        Err (runnerError target_profile_mismatch
          ($"adapter " ++ adapterId key ++ $" is not registered for target profile " ++ targetProfile key))
      else if existsb (fun entry => negb (bool_decide
                 (stateComputerContractVersion entry.1 = stateComputerContractVersion key))) sameTarget then
        Err (runnerError state_computer_contract_mismatch
          ($"adapter " ++ adapterId key ++ $" is not registered for StateComputer contract " ++
           stateComputerContractVersion key))
      else Err (runnerError adapter_not_registered ($"adapter " ++ adapterId key ++ $" is not registered"))
  end.

(** ** Resolution *)

Lemma exactKey_eq a b : exactKey a b = true <-> a = b.
Proof.
  unfold exactKey. rewrite !andb_true_iff, !bool_decide_eq_true.
  destruct a, b; cbn. split; [intros [[[-> ->] ->] ->]; done|by intros [= -> -> -> ->]].
Qed.

Lemma same_identity_eq a b :
  same_identity a b = true <-> semanticDigest a = semanticDigest b /\ adapterId a = adapterId b.
Proof. unfold same_identity. by rewrite andb_true_iff, !bool_decide_eq_true. Qed.

(** The number of registrations under exactly the key. *)
Definition registered regs key : nat := length (List.filter (fun entry => exactKey entry.1 key) regs).
Definition known regs (P : CompiledAdapterKey -> Prop) : Prop := exists entry, entry ∈ regs /\ P entry.1.

Lemma filter_nil_iff {A} (f : A -> bool) (l : list A) :
  List.filter f l = [] <-> forall x, x ∈ l -> f x = false.
Proof.
  induction l as [|a l IH]; cbn; [split; [by intros _ x ?%elem_of_nil|done]|].
  destruct (f a) eqn:E; split; intros H.
  - done.
  - rewrite H in E; [done|by left].
  - intros x [->|Hx]%elem_of_cons; [done|]. by apply IH.
  - apply IH. intros x Hx. apply H. by right.
Qed.

(** What the three failing searches look for, when no key is exact. *)
Lemma resolve_failure regs key :
  registered regs key = 0%nat ->
  exists e, resolve regs key = Err e /\ code e <> adapter_ambiguous /\
    (code e = target_profile_mismatch <->
       known regs (fun k => same_identity k key = true) /\
       ~ known regs (fun k => same_identity k key = true /\ targetProfile k = targetProfile key)) /\
    (code e = state_computer_contract_mismatch <->
       known regs (fun k => same_identity k key = true /\ targetProfile k = targetProfile key)) /\
    (code e = adapter_not_registered <-> ~ known regs (fun k => same_identity k key = true)).
Proof.
  unfold registered, resolve. intros H. apply length_zero_iff_nil in H. rewrite H.
  set (ids := List.filter (fun entry => same_identity entry.1 key) regs).
  set (targets := List.filter (fun entry => bool_decide (targetProfile entry.1 = targetProfile key)) ids).
  assert (known regs (fun k => same_identity k key = true) <-> ids <> []) as Hids.
  { split.
    - intros (e & He & Hk) Hnil. by rewrite (proj1 (filter_nil_iff _ _) Hnil e He) in Hk.
    - intros Hne. destruct ids as [|e l] eqn:E; [done|]. exists e.
      assert (In e ids) as He by (rewrite E; by left).
      apply filter_In in He as [He Hk]. by rewrite list_elem_of_In. }
  assert (known regs (fun k => same_identity k key = true /\ targetProfile k = targetProfile key) <->
          targets <> []) as Htargets.
  { split.
    - intros (e & He & Hk & Ht) Hnil.
      assert (e ∈ ids) as Hi by (apply list_elem_of_In, filter_In; by rewrite <- list_elem_of_In).
      pose proof (proj1 (filter_nil_iff _ _) Hnil e Hi) as Hf. by apply bool_decide_eq_false in Hf.
    - intros Hne. destruct targets as [|e l] eqn:E; [done|]. exists e.
      assert (In e targets) as He by (rewrite E; by left).
      apply filter_In in He as [He Ht]. apply filter_In in He as [He Hk].
      apply bool_decide_eq_true in Ht. by rewrite list_elem_of_In. }
  assert (forall e, e ∈ targets -> stateComputerContractVersion e.1 <> stateComputerContractVersion key) as Hver.
  { intros e He Hv. apply list_elem_of_In, filter_In in He as [He Ht]. apply filter_In in He as [He Hk].
    apply list_elem_of_In in He. pose proof (proj1 (filter_nil_iff _ _) H e He) as Hx.
    apply bool_decide_eq_true in Ht. apply same_identity_eq in Hk as [Hd Ha].
    assert (e.1 = key) as Heq by (destruct e as [[] ?], key; cbn in *; congruence).
    apply exactKey_eq in Heq. congruence. }
  setoid_rewrite Hids. setoid_rewrite Htargets. clear Hids Htargets. destruct ids as [|i ids'] eqn:Ei.
  { exists (runnerError adapter_not_registered ($"adapter " ++ adapterId key ++ $" is not registered")).
    split; [done|]. cbn. split; [done|]. split_and!; intuition congruence. }
  destruct targets as [|t targets'] eqn:Et.
  { eexists. split; [reflexivity|]. cbn. split; [done|]. split_and!; intuition congruence. }
  assert (existsb (fun entry => negb (bool_decide
    (stateComputerContractVersion entry.1 = stateComputerContractVersion key))) (t :: targets') = true) as Hex.
  { cbn. rewrite bool_decide_eq_false_2; [done|]. apply Hver. by left. }
  cbn [length Nat.ltb Nat.leb Nat.eqb andb]. rewrite Hex.
  eexists. split; [reflexivity|]. cbn. split; [done|].
  split_and!; intuition congruence.
Qed.

Lemma resolve_ok regs key f :
  resolve regs key = Ok f <-> exists k, List.filter (fun entry => exactKey entry.1 key) regs = [(k, f)].
Proof.
  unfold resolve. destruct (List.filter _ regs) as [|[k f'] [|? ?]].
  - split; [|by intros [? ?]]. by repeat case_match.
  - split; [intros [= ->]; by exists k|by intros [? [= _ ->]]].
  - split; [done|by intros [? ?]].
Qed.

Lemma filter_single {A} (p : A -> bool) l x : List.filter p l = [x] ->
  exists before after, l = before ++ x :: after /\ p x = true /\ List.filter p (before ++ after) = [].
Proof.
  induction l as [|a l IH]; cbn; [done|]. destruct (p a) eqn:E.
  - intros [= -> Hl]. by exists [], l.
  - intros H. destruct (IH H) as (b & c & -> & Hx & Hr). exists (a :: b), c. cbn. by rewrite E.
Qed.

(** What a registry answers to a key. It returns a factory exactly when one
    registration has the key, and that registration's; two or more are reported as
    ambiguous. Otherwise the error tells how close the registrations come: the
    target profile when the interface and adapter are known but never for this
    target, the state computer contract when they are known for the target, and
    not registered when the interface and adapter are unknown together. *)
Theorem resolve_classified regs key :
  (forall f, resolve regs key = Ok f <->
     exists before after, regs = before ++ (key, f) :: after /\
       registered (before ++ after) key = 0%nat) /\
  (forall e, resolve regs key = Err e ->
     (code e = adapter_ambiguous <-> (2 <= registered regs key)%nat) /\
     (code e = target_profile_mismatch <->
        registered regs key = 0%nat /\ known regs (fun k => same_identity k key = true) /\
        ~ known regs (fun k => same_identity k key = true /\ targetProfile k = targetProfile key)) /\
     (code e = state_computer_contract_mismatch <->
        registered regs key = 0%nat /\
        known regs (fun k => same_identity k key = true /\ targetProfile k = targetProfile key)) /\
     (code e = adapter_not_registered <-> ~ known regs (fun k => same_identity k key = true))).
Proof.
  split.
  - intros f. unfold registered. rewrite resolve_ok. split.
    + intros [k H]. destruct (filter_single _ _ _ H) as (before & after & -> & Hx & Hrest).
      apply exactKey_eq in Hx. cbn in Hx. subst. exists before, after. split; [done|]. by rewrite Hrest.
    + intros (before & after & -> & H). apply length_zero_iff_nil in H.
      exists key. rewrite List.filter_app in H |- *. apply app_eq_nil in H as [-> H]. cbn.
      assert (exactKey key key = true) as -> by by apply exactKey_eq. by rewrite H.
  - intros e He. destruct (decide (registered regs key = 0%nat)) as [H0|H0].
    { destruct (resolve_failure regs key H0) as (e' & He' & Hna & H1 & H2 & H3).
      assert (e' = e) as -> by congruence. split_and!.
      - rewrite H0. split; [done|lia].
      - tauto.
      - tauto.
      - done. }
    assert (code e = adapter_ambiguous /\ (2 <= registered regs key)%nat) as [Hc H2].
    { revert He H0. unfold resolve, registered.
      destruct (List.filter _ regs) as [|[k f] [|? ?]]; cbn; [done|done|]. intros [= <-] _.
      split; [done|lia]. }
    assert (known regs (fun k => same_identity k key = true)) as Hk.
    { unfold registered in H0. destruct (List.filter _ regs) as [|x l] eqn:E; [done|].
      assert (In x (List.filter (fun entry => exactKey entry.1 key) regs)) as Hx by (rewrite E; by left).
      apply filter_In in Hx as [Hx Hk]. exists x. split; [by apply list_elem_of_In|].
      apply exactKey_eq in Hk as ->. by apply same_identity_eq. }
    rewrite Hc. split_and!; (split; [intros; try done; congruence|]); try lia; try done; tauto.
Qed.

Lemma filter_perm {A} (p : A -> bool) l l' : l ≡ₚ l' -> List.filter p l ≡ₚ List.filter p l'.
Proof.
  induction 1 as [|x l l' _ IH|x y l|l1 l2 l3 _ IH1 _ IH2]; cbn.
  - done.
  - destruct (p x); by rewrite IH.
  - destruct (p x), (p y); try done. constructor.
  - by rewrite IH1.
Qed.

Lemma existsb_perm {A} (p : A -> bool) l l' : l ≡ₚ l' -> existsb p l = existsb p l'.
Proof.
  induction 1 as [|x l l' _ IH|x y l|l1 l2 l3 _ IH1 _ IH2]; cbn; [done| | |congruence].
  - by rewrite IH.
  - by destruct (p x), (p y).
Qed.

(** The answer does not depend on the order of the registrations. *)
Theorem resolve_order_irrelevant regs regs' key :
  regs ≡ₚ regs' -> resolve regs key = resolve regs' key.
Proof.
  intros H. unfold resolve.
  pose proof (filter_perm (fun entry => exactKey entry.1 key) _ _ H) as He.
  pose proof (filter_perm (fun entry => same_identity entry.1 key) _ _ H) as Hi.
  pose proof (filter_perm (fun entry => bool_decide (targetProfile entry.1 = targetProfile key)) _ _ Hi) as Ht.
  destruct (List.filter _ regs) as [|x [|y l]].
  - apply Permutation_nil in He as ->. by rewrite (Permutation_length Hi), (Permutation_length Ht), (existsb_perm _ _ _ Ht).
  - apply Permutation_length_1_inv in He as ->. done.
  - apply Permutation_length in He.
    destruct (List.filter (fun entry => exactKey entry.1 key) regs') as [|[? ?] [|? ?]]; try discriminate He.
    by destruct x.
Qed.
End registry.

Definition sample_key (target version : string) : CompiledAdapterKey :=
  AdapterKey ($"d1") ($"counter") (lit target) (lit version).

Example resolve_order_irrelevant_witness :
  resolve [(sample_key "node" "v1", 1%nat); (sample_key "web" "v1", 2%nat)] (sample_key "web" "v1") =
  resolve [(sample_key "web" "v1", 2%nat); (sample_key "node" "v1", 1%nat)] (sample_key "web" "v1").
Proof. apply resolve_order_irrelevant. apply perm_swap. Defined.
