(* ===== verification/Negotiation.v ===== *)
(** * Negotiating the model interface

    The end of [src/src/model-interface.ts] ([encodeModelInterfaceRegistration],
    [decodeModelInterfaceMirrorMessage]), the registration barrier
    [requireValidRegistration] of [src/src/replay-core.ts], and
    [src/src/negotiation-core.ts]: reading the first reply of a negotiated
    registration and classifying what is wrong with it. The authority record that
    [createAsyncNegotiationAuthority] builds afterwards copies its arguments and a
    random identifier, and is not modelled. *)

From S2P Require Import Prelude JsNumber Utf16 JsData StrictJson StrictJsonRoundtrip Decode JsText ModelTypes Canonical Descriptor Contract Requests Digest Replies Protocol ProtocolFacts ClientMessages Connection AdapterRegistry.

(** ** Errors *)

(** What a receive that is cancelled, out of time or controlled from outside
    rejects with: such an error is passed on as it is. *)
Inductive replay_interrupt := ReplayCancelled | ReplayDeadline | ReplayControl.

Inductive neg_error :=
| RunnerError (e : NegotiatedRunnerError)
| ModelInterfaceRegistrationError (code status message : ustring)
| Interrupted (i : replay_interrupt)
| OtherError (e : exn).

Section text.
Context (number_text : number -> ustring) (sha256 : list N -> ustring).

(** ** Registration *)

Definition encodeModelInterfaceRegistration (base : object_t) (request : ModelInterfaceRequest) : res exn ustring :=
  let step := getf base ($"proto_step") in
  _ ← require_at (is_str step "register" || is_str step "register_traces")
        ($"registration.proto_step") ($"negotiation is supported only on stepping registrations");
  _ ← require_at (negb (has_own base ($"modelInterface")))
        ($"registration") ($"field 'modelInterface' already present");
  wire ← wireRequest request;
  encode_object number_text (JObj (obj_set base ($"modelInterface") wire)).

(** ** The first reply *)

Inductive extension := ExtReply (r : ModelInterfaceReply) | ExtFailure (f : ModelInterfaceFailure).

Definition decode_extension (step : ustring) (value : js) : res exn (option extension) :=
  match value with
  | JUndef | JNull => Ok None
  | _ =>
      if step =s "spec_validated" then (fun r => Some (ExtReply r)) <$> decodeModelInterfaceReply sha256 value
      else if step =s "register_error" then (fun f => Some (ExtFailure f)) <$> decodeModelInterfaceFailure value
      else fail ($"mirror message.modelInterface") ($"allowed only on spec_validated or register_error")
  end.

Definition is_valid_result (m : MirrorMessage) : bool :=
  match m with SpecValidated Valid => true | _ => false end.

Definition decodeModelInterfaceMirrorMessage (text : ustring) : res exn (MirrorMessage * option extension) :=
  value ← parseStrictJson text;
  raw ← object value ($"mirror message");
  step ← string_val (getf raw ($"proto_step")) ($"mirror message.proto_step");
  modelInterface ← decode_extension step (getf raw ($"modelInterface"));
  message ← decodeMirrorMessage number_text text;
  _ ← require_at
        (match modelInterface with Some (ExtReply _) => is_valid_result message | _ => true end)
        ($"mirror message.result") ($"a negotiation reply requires a valid specification result");
  mret (message, modelInterface).

(** ** The registration barrier *)

(** [`prefix${v}`] as the message of an error. *)
Definition prefixed_error {E} (mk : ustring -> E) (other : exn -> E) (prefix : string) (v : js) : E :=
  match template_text number_text v with Ok text => mk (lit prefix ++ text) | Err e => other e end.

Definition bare_error {E} (mk : ustring -> E) (other : exn -> E) (v : js) : E :=
  match error_text number_text v with Ok text => mk text | Err e => other e end.

Definition requireValidRegistration (message : MirrorMessage) : res exn unit :=
  let error := Exn XError in
  match message with
  | ProtocolError e => Err (bare_error error id e)
  | RegisterError e => Err (prefixed_error error id "register failed: " e)
  | SpecValidated Valid => Ok tt
  | SpecValidated (Invalid reason) => Err (prefixed_error error id "spec invalid: " reason)
  | _ => Err (error ($"expected spec_validated, got " ++ lit (proto_step message)))
  end.

(** ** negotiationDecodeError *)

Definition is_line_terminator (c : N) : bool :=
  (c =? 0x0a)%N || (c =? 0x0d)%N || (c =? 0x2028)%N || (c =? 0x2029)%N.

(** [/.*b/] from here. *)
Fixpoint same_line_then (b s : ustring) : bool :=
  prefixed b s ||
  match s with [] => false | c :: s' => negb (is_line_terminator c) && same_line_then b s' end.

(** [/a.*b/] *)
Fixpoint matches_then (a b s : ustring) : bool :=
  (prefixed a s && same_line_then b (drop (length a) s)) ||
  match s with [] => false | _ :: s' => matches_then a b s' end.

Definition negotiationDecodeError (cause : exn) : neg_error :=
  let protocol := bool_decide (exn_name cause = XModelInterface) in
  let message := exn_message cause in
  let code :=
    if protocol && (contains ($"digest") message || contains ($"semanticDigest") message)
    then descriptor_digest_invalid
    else if protocol && matches_then ($"descriptor") ($"required for resolved") message
    then descriptor_missing
    else if protocol && contains ($"descriptorSchema") message
    then descriptor_schema_unsupported
    else negotiation_status_unexpected in
  RunnerError (runnerError code ($"invalid model-interface negotiation reply")).

(** ** receiveNegotiatedFirstReply *)

(** What the receive of the first line ends with. *)
Inductive received :=
| ReceivedLine (line : ustring)
| ReceiveInterrupted (i : replay_interrupt)
| ReceiveFailed (e : exn).

Definition failure_status_name (s : failure_status) : ustring :=
  match s with
  | FMismatch => $"mismatch" | FUnsupported => $"unsupported"
  | FUnavailable => $"unavailable" | FTooLarge => $"too_large"
  end.

(** The barrier with coded errors, when the caller passed options. *)
Definition require_registration (message : MirrorMessage) : res neg_error unit :=
  let error code status := ModelInterfaceRegistrationError (lit code) (lit status) in
  match message with
  | ProtocolError e => Err (bare_error (error "protocol_error" "protocol_error")%string OtherError e)
  | RegisterError e =>
      Err (prefixed_error (error "register_error" "register_error")%string OtherError "register failed: " e)
  | SpecValidated Valid => Ok tt
  | SpecValidated (Invalid reason) =>
      Err (prefixed_error (error "spec_invalid" "invalid")%string OtherError "spec invalid: " reason)
  | _ => Err (error "registration_reply_unexpected"%string (proto_step message)
                ($"expected spec_validated, got " ++ lit (proto_step message)))
  end.

(** A structured failure carried by register_error. *)
Definition registration_failure (error : js) (f : ModelInterfaceFailure) (expectedDigest : ustring) : neg_error :=
  let differs := match mf_expectedSemanticDigest f with
                 | Some d => negb (bool_decide (d = expectedDigest))
                 | None => false
                 end in
  if differs then
    RunnerError (runnerError negotiation_status_unexpected
      ($"structured register_error expectedSemanticDigest does not match the request"))
  else prefixed_error (ModelInterfaceRegistrationError (mf_code f) (failure_status_name (mf_status f)))
         OtherError "register failed: " error.

Definition check_first_reply (with_options : bool) (expectedDigest : ustring)
    (decoded : MirrorMessage * option extension) : res neg_error (MirrorMessage * option extension) :=
  match decoded with
  | (RegisterError error, Some (ExtFailure f)) => Err (registration_failure error f expectedDigest)
  | (message, ext) =>
      _ ← (if with_options then require_registration message
           else match requireValidRegistration message with Ok u => Ok u | Err e => Err (OtherError e) end);
      match ext with
      | Some (ExtFailure _) =>
          Err (RunnerError (runnerError negotiation_status_unexpected
                 ($"spec_validated carried a registration failure")))
      | _ => Ok decoded
      end
  end.

Definition receiveNegotiatedFirstReply (receive : received) (with_options : bool) (expectedDigest : ustring)
    : res neg_error (MirrorMessage * option extension) :=
  match receive with
  | ReceiveInterrupted i => Err (Interrupted i)
  | ReceiveFailed e => Err (negotiationDecodeError e)
  | ReceivedLine line =>
      match decodeModelInterfaceMirrorMessage line with
      | Err e => Err (negotiationDecodeError e)
      | Ok decoded => check_first_reply with_options expectedDigest decoded
      end
  end.

(** ** Facts *)

Lemma require_registration_Ok m u : require_registration m = Ok u <-> m = SpecValidated Valid.
Proof.
  destruct u, m as [[]| | | | | | | | | | | | | | | | | | |]; cbn; split; intros H; try discriminate H; done.
Qed.

Lemma requireValidRegistration_Ok m u : requireValidRegistration m = Ok u <-> m = SpecValidated Valid.
Proof.
  destruct u, m as [[]| | | | | | | | | | | | | | | | | | |]; cbn; split; intros H; try discriminate H; done.
Qed.

Lemma barrier_Ok (b : bool) m u :
  (if b then require_registration m
   else match requireValidRegistration m with Ok u => Ok u | Err e => Err (OtherError e) end) = Ok u <->
  m = SpecValidated Valid.
Proof.
  destruct b; [apply require_registration_Ok|].
  destruct (requireValidRegistration m) as [v|e] eqn:E.
  - rewrite requireValidRegistration_Ok in E. subst. by destruct u, v.
  - split; [done|]. rewrite <- (requireValidRegistration_Ok m u). congruence.
Qed.

Lemma check_first_reply_Ok b d decoded r :
  check_first_reply b d decoded = Ok r <->
  r = decoded /\ decoded.1 = SpecValidated Valid /\ forall f, decoded.2 <> Some (ExtFailure f).
Proof.
  destruct decoded as [m ext]. unfold check_first_reply. cbn [fst snd].
  assert (forall (x : res neg_error unit) , (forall u, x = Ok u <-> m = SpecValidated Valid) ->
    (x ≫= (fun _ => match ext with
      | Some (ExtFailure _) => Err (RunnerError (runnerError negotiation_status_unexpected
                 ($"spec_validated carried a registration failure")))
      | _ => Ok (m, ext) end)) = Ok r <->
    r = (m, ext) /\ m = SpecValidated Valid /\ forall f, ext <> Some (ExtFailure f)) as Hx.
  { intros x Hx. rewrite res_bind_Ok. split.
    - intros (u & Hu & H). apply Hx in Hu. by destruct ext as [[|]|]; [injection H as <-|discriminate|injection H as <-].
    - intros (-> & Hm & Hf). exists tt. split; [by apply Hx|]. by destruct ext as [[|f]|]; [|destruct (Hf f)|]. }
  pose proof (Hx _ (barrier_Ok b m)) as Hb.
  destruct m; try exact Hb. destruct ext as [[|f]|]; try exact Hb.
  split; [done|]. by intros (_ & ? & _).
Qed.

(** *** The strict and the ordinary decoder see the same message *)

Definition step_is (m : MirrorMessage) (name : string) : bool := bool_decide (proto_step m = name).

Lemma walkMessage_step w obj m name :
  walkMessage number_text w obj = Ok m -> getf obj ($"proto_step") = JStr (lit name) ->
  (name = "spec_validated"%string -> exists r, m = SpecValidated r) /\
  (name = "register_error"%string -> m = RegisterError (getf obj ($"error"))).
Proof.
  unfold walkMessage. intros H Hs. cbv zeta in H. rewrite Hs in H. split; intros ->; cbn [is_str] in H.
  - rewrite bool_decide_eq_true_2 in H by done. apply fmap_Ok in H as (r & _ & ->). by exists r.
  - repeat (rewrite bool_decide_eq_false_2 in H by (vm_compute; discriminate)).
    rewrite bool_decide_eq_true_2 in H by done. by injection H as <-.
Qed.
Lemma walk_object_message w obj s :
  getf obj ($"proto_step") = JStr s ->
  walk_object number_text w obj = VMessage <$> walkMessage number_text w obj.
Proof.
  intros Hs. assert (has_own obj ($"proto_step") = true) as Ho.
  { destruct (has_own obj ($"proto_step")) eqn:E; [done|]. apply getf_has_own in E. congruence. }
  unfold walk_object. assert (walk_marker w obj = None) as ->; [|by rewrite Ho].
  destruct obj as [|[key v] [|? ?]]; [done| |by destruct v].
  assert (key = $"proto_step") as ->.
  { cbn in Hs. case_bool_decide; [done|discriminate]. }
  by destruct v.
Qed.

(** The message of a line whose object was read strictly. *)
Lemma decoded_step text raw name m :
  parseStrictJson text = Ok (JObj raw) -> getf raw ($"proto_step") = JStr (lit name) ->
  decodeMirrorMessage number_text text = Ok m ->
  (name = "spec_validated"%string -> exists r, m = SpecValidated r) /\
  (name = "register_error"%string -> m = RegisterError (getf raw ($"error"))).
Proof.
  intros Hp Hs. unfold decodeMirrorMessage. rewrite (strict_then_lenient _ _ Hp). cbn [mbind res_mbind].
  change (walk number_text (S (js_depth (JObj raw))) (JObj raw))
    with (walk_object number_text (walk number_text (js_depth (JObj raw))) raw).
  rewrite (walk_object_message _ _ _ Hs).
  destruct (walkMessage number_text _ raw) as [m'|e] eqn:E; [|done]. intros [= ->].
  by apply walkMessage_step with (name := name) in E.
Qed.

Lemma decode_extension_inv step v ext :
  decode_extension step v = Ok ext ->
  ext = None \/
  (step = $"spec_validated" /\ exists r, ext = Some (ExtReply r) /\ decodeModelInterfaceReply sha256 v = Ok r) \/
  (step = $"register_error" /\ exists f, ext = Some (ExtFailure f) /\ decodeModelInterfaceFailure v = Ok f).
Proof.
  assert (forall A B (f : A -> B) (r : res exn A) e, (f <$> r) = Ok e -> exists x, e = f x /\ r = Ok x) as Hf.
  { intros A B f r e H. apply fmap_Ok in H as (x & -> & ->). by exists x. }
  intros H. destruct ext as [ext|]; [|by left]. right.
  assert ((if step =s "spec_validated" then (fun r => Some (ExtReply r)) <$> decodeModelInterfaceReply sha256 v
      else if step =s "register_error" then (fun f => Some (ExtFailure f)) <$> decodeModelInterfaceFailure v
      else fail ($"mirror message.modelInterface") ($"allowed only on spec_validated or register_error")) = Ok (Some ext))
    as H'.
  { destruct v; try exact H; discriminate H. }
  clear H. case_bool_decide; [left; split; [done|]; by apply Hf in H'|].
  case_bool_decide; [right; split; [done|]; by apply Hf in H'|done].
Qed.

Lemma mirror_message_inv text m ext :
  decodeModelInterfaceMirrorMessage text = Ok (m, ext) ->
  decodeMirrorMessage number_text text = Ok m /\
  match ext with
  | Some (ExtReply r) =>
      m = SpecValidated Valid /\ exists raw, parseStrictJson text = Ok (JObj raw) /\
        decodeModelInterfaceReply sha256 (getf raw ($"modelInterface")) = Ok r
  | Some (ExtFailure f) =>
      exists raw, parseStrictJson text = Ok (JObj raw) /\ m = RegisterError (getf raw ($"error")) /\
        decodeModelInterfaceFailure (getf raw ($"modelInterface")) = Ok f
  | None => True
  end.
Proof.
  unfold decodeModelInterfaceMirrorMessage. intros H.
  apply res_bind_Ok in H as (value & Hp & H). apply res_bind_Ok in H as (raw & Ho & H).
  destruct value; try discriminate Ho. injection Ho as ->.
  apply res_bind_Ok in H as (step & Hs & H). apply res_bind_Ok in H as (ext' & He & H).
  apply res_bind_Ok in H as (m' & Hm & H). apply res_bind_Ok in H as (u & Hv & H). injection H as -> ->.
  split; [done|].
  apply string_val_Ok in Hs as [Hstep _].
  destruct (decode_extension_inv _ _ _ He) as [->|Hext]; [done|].
  destruct Hext as [(-> & r & -> & Hr)|(-> & f & -> & Hf)].
  - destruct (decoded_step _ _ _ _ Hp Hstep Hm) as [Hd _]. destruct (Hd eq_refl) as [res ->].
    destruct res; [|discriminate Hv]. split; [done|]. by exists raw.
  - destruct (decoded_step _ _ _ _ Hp Hstep Hm) as [_ Hd]. exists raw. by rewrite Hd.
Qed.

(** The strict and the ordinary reading of a negotiated reply agree: when
    [decodeModelInterfaceMirrorMessage] returns, the message is the one the
    ordinary decoder reads from the same line, a negotiation reply is only ever
    returned with a validated specification, and a negotiation failure only with
    the register_error that carried it, with that line's error text. *)
Theorem negotiated_message_coherent text m ext :
  decodeModelInterfaceMirrorMessage text = Ok (m, ext) ->
  decodeMirrorMessage number_text text = Ok m /\
  (forall r, ext = Some (ExtReply r) -> m = SpecValidated Valid) /\
  (forall f, ext = Some (ExtFailure f) ->
     exists raw, parseStrictJson text = Ok (JObj raw) /\ m = RegisterError (getf raw ($"error"))).
Proof.
  intros H. destruct (mirror_message_inv _ _ _ H) as [Hm He]. split_and!; [done| |].
  - intros r ->. by destruct He.
  - intros f ->. destruct He as (raw & Hp & Hr & _). by exists raw.
Qed.

(** The barrier before a negotiated replay: the first reply is accepted, with
    or without coded errors, exactly when a line was received that decodes
    strictly as a validated specification. In particular no accepted reply
    carries a negotiation failure, so the last check of the source never fires. *)
Theorem first_reply_barrier receive b d m ext :
  receiveNegotiatedFirstReply receive b d = Ok (m, ext) <->
  m = SpecValidated Valid /\
  exists line, receive = ReceivedLine line /\ decodeModelInterfaceMirrorMessage line = Ok (m, ext).
Proof.
  unfold receiveNegotiatedFirstReply. split.
  - destruct receive as [line|i|e]; [|done|done].
    destruct (decodeModelInterfaceMirrorMessage line) as [decoded|e] eqn:E; [|done].
    intros (<- & Hm & _)%check_first_reply_Ok. split; [done|]. by exists line.
  - intros (-> & line & -> & Hd). rewrite Hd. apply check_first_reply_Ok. split_and!; [done|done|].
    intros f. cbn. intros ->. destruct (mirror_message_inv _ _ _ Hd) as [_ (raw & _ & Hm & _)]. discriminate Hm.
Qed.

(** A registration is extended and encoded exactly when it is a stepping
    registration that does not negotiate already and the request can be written,
    which every request a client obtains can; the base object keeps its fields in
    place and the new one is added. *)
Theorem registration_encoding base request :
  (obtained request -> exists wire, wireRequest request = Ok wire) /\
  forall text, encodeModelInterfaceRegistration base request = Ok text <->
    (getf base ($"proto_step") = JStr ($"register") \/ getf base ($"proto_step") = JStr ($"register_traces")) /\
    has_own base ($"modelInterface") = false /\
    exists wire, wireRequest request = Ok wire /\
      encode_object number_text (JObj (obj_set base ($"modelInterface") wire)) = Ok text.
Proof.
  split.
  { intros Hr. destruct (wireRequest_decodes _ (obtained_wf _ Hr)) as (w & Hw & _). by exists w. }
  intros text. unfold encodeModelInterfaceRegistration.
  assert (forall name, is_str (getf base ($"proto_step")) name = true <->
    getf base ($"proto_step") = JStr (lit name)) as His.
  { intros name. unfold is_str. destruct (getf base ($"proto_step")); try done.
    rewrite bool_decide_eq_true. split; congruence. }
  rewrite <- !His. rewrite <- negb_true_iff, <- orb_true_iff. split.
  - intros H. apply res_bind_Ok in H as ([] & H1 & H). apply res_bind_Ok in H as ([] & H2 & H).
    apply res_bind_Ok in H as (w & Hw & H).
    unfold require_at in H1, H2. destruct (_ || _); [|discriminate H1]. destruct (negb _); [|discriminate H2].
    split_and!; [done|done|]. by exists w.
  - intros (H1 & H2 & w & Hw & H). rewrite H1, H2. cbn [require_at mbind res_mbind]. by rewrite Hw.
Qed.
End text.

(** ** Witness *)

Definition sample_first_reply : ustring :=
  compressed (JObj [($"proto_step", JStr ($"spec_validated")); ($"result", JStr ($"valid"));
                    ($"modelInterface", JObj [($"schema", JStr NEGOTIATION_SCHEMA);
                       ($"status", JStr ($"matched")); ($"descriptorSchema", JStr DESCRIPTOR_SCHEMA);
                       ($"semanticDigest", JStr (digest_prefix ++ zero_hash []))])]).

Example negotiated_message_coherent_witness :
  exists m ext, decodeModelInterfaceMirrorMessage (fun _ => $"0.5") zero_hash sample_first_reply = Ok (m, ext) /\
  decodeMirrorMessage (fun _ => $"0.5") sample_first_reply = Ok m /\
  (forall r, ext = Some (ExtReply r) -> m = SpecValidated Valid) /\
  (forall f, ext = Some (ExtFailure f) ->
     exists raw, parseStrictJson sample_first_reply = Ok (JObj raw) /\ m = RegisterError (getf raw ($"error"))).
Proof.
  eexists _, _. split; [vm_compute; reflexivity|].
  apply (negotiated_message_coherent (fun _ => $"0.5") zero_hash sample_first_reply).
  vm_compute. reflexivity.
Defined.
