(* ===== verification/DescriptorCache.v ===== *)
(** * The descriptor cache

    [src/src/descriptor-cache.ts]: a bounded LRU of verified descriptors. The
    JavaScript [Map] is the list of its entries in insertion order, oldest first.
    An operation gives its result and the cache after it, also when it throws:
    verification removes a bad entry before throwing. *)

From S2P Require Import Prelude JsNumber Utf16 JsData StrictJson Decode ModelTypes Canonical Descriptor DescriptorFacts Digest.

(** ** Data *)

Inductive DescriptorCacheErrorCode :=
| descriptor_cache_invalid_options
| descriptor_cache_entry_too_large
| descriptor_cache_corrupt
| descriptor_cache_miss.

Inductive cache_error :=
| DescriptorCacheError (code : DescriptorCacheErrorCode) (message : ustring)
| DecodeError (e : exn).

Definition DEFAULT_DESCRIPTOR_CACHE_ENTRIES : number := num_of_Z 128.
Definition DEFAULT_DESCRIPTOR_CACHE_BYTES : number := num_of_Z (16 * 1024 * 1024).

Record CacheEntry := MkEntry {
  ce_digest : ustring;
  ce_descriptor : SemanticDescriptor;
  ce_bytes : list N }.

Record CachedSemanticDescriptor := MkCached {
  cd_digest : ustring;
  cd_descriptorBytes : Z;
  cd_descriptor : SemanticDescriptor;
  cd_canonicalBytes : list N }.

Record cache := MkCache {
  maxEntries : Z;
  maxBytes : Z;
  entries : list (ustring * CacheEntry);
  storedBytes : Z }.

Definition with_entries (c : cache) (l : list (ustring * CacheEntry)) (stored : Z) : cache :=
  MkCache (maxEntries c) (maxBytes c) l stored.

(** ** The Map *)

Definition map_get (l : list (ustring * CacheEntry)) (d : ustring) : option CacheEntry :=
  snd <$> find (fun kv => bool_decide (d = kv.1)) l.

Definition map_delete (l : list (ustring * CacheEntry)) (d : ustring) : list (ustring * CacheEntry) :=
  List.filter (fun kv => negb (bool_decide (d = kv.1))) l.

(** [Map.set] of an absent key. *)
Definition map_append (l : list (ustring * CacheEntry)) (d : ustring) (e : CacheEntry) :=
  l ++ [(d, e)].

(** ** Operations *)

Definition equalBytes (left right : list N) : bool := bool_decide (left = right).
Definition size_of (e : CacheEntry) : Z := Z.of_nat (length (ce_bytes e)).

Definition positiveSafeInteger (value : number) (name : string) : res cache_error Z :=
  match num_safe_Z value with
  | Some z => if (0 <? z)%Z then Ok z
              else Err (DescriptorCacheError descriptor_cache_invalid_options
                          (lit name ++ $" must be a positive safe integer"))
  | None => Err (DescriptorCacheError descriptor_cache_invalid_options
                   (lit name ++ $" must be a positive safe integer"))
  end.

Definition new_cache (max_entries max_bytes : option number) : res cache_error cache :=
  n ← positiveSafeInteger (default DEFAULT_DESCRIPTOR_CACHE_ENTRIES max_entries) "maxEntries";
  b ← positiveSafeInteger (default DEFAULT_DESCRIPTOR_CACHE_BYTES max_bytes) "maxBytes";
  mret (MkCache n b [] 0).

Section sha.
Context (sha256 : list N -> ustring).

(** The part of [verifyEntry] inside its [try]. *)
Definition check_entry (e : CacheEntry) : res exn CachedSemanticDescriptor :=
  descriptor ← decodeSemanticDescriptor (descriptor_js (ce_descriptor e));
  canonicalBytes ← canonicalSemanticDescriptorBytes (descriptor_js descriptor);
  digest ← semanticDescriptorDigest sha256 (descriptor_js descriptor);
  _ ← require (bool_decide (digest = ce_digest e) && equalBytes canonicalBytes (ce_bytes e))
        (Exn XError ($"cached descriptor identity mismatch"));
  mret (MkCached digest (Z.of_nat (length canonicalBytes)) descriptor canonicalBytes).

(** The entry under a digest is the object given: the cache holds one object per
    digest, so it is enough that there is one. *)
Definition quarantine (c : cache) (d : ustring) (e : CacheEntry) : cache :=
  match map_get (entries c) d with
  | Some _ => with_entries c (map_delete (entries c) d) (storedBytes c - size_of e)
  | None => c
  end.

Definition verifyEntry (c : cache) (e : CacheEntry) : res cache_error CachedSemanticDescriptor * cache :=
  match check_entry e with
  | Ok v => (Ok v, c)
  | Err x => (Err (DescriptorCacheError descriptor_cache_corrupt (exn_message x)), quarantine c (ce_digest e) e)
  end.

Definition touch (c : cache) (d : ustring) (e : CacheEntry) : cache :=
  with_entries c (map_append (map_delete (entries c) d) d e) (storedBytes c).

(** The loop of [evictToQuota]. *)
Fixpoint evict (max_entries max_bytes : Z) (l : list (ustring * CacheEntry)) (stored : Z)
    : list (ustring * CacheEntry) * Z :=
  if ((max_entries <? Z.of_nat (length l)) || (max_bytes <? stored))%Z then
    match l with
    | [] => ([], stored)
    | (_, e) :: l' => evict max_entries max_bytes l' (stored - size_of e)
    end
  else (l, stored).

Definition evictToQuota (c : cache) : cache :=
  let '(l, stored) := evict (maxEntries c) (maxBytes c) (entries c) (storedBytes c) in
  with_entries c l stored.

(** The refusal of [put] for a descriptor that can never fit. *)
Definition too_large (c : cache) (bytes : list N) : bool :=
  let n := Z.of_nat (length bytes) in (Z.of_N MAX_DESCRIPTOR_BYTES <? n)%Z || (maxBytes c <? n)%Z.

Definition put_verified (c : cache) (descriptor : SemanticDescriptor) (bytes : list N) (digest : ustring)
    : res cache_error CachedSemanticDescriptor * cache :=
  match map_get (entries c) digest with
  | Some existing =>
      match verifyEntry c existing with
      | (Ok verified, c) =>
          if equalBytes (cd_canonicalBytes verified) bytes
          then (Ok verified, touch c digest existing)
          else (Err (DescriptorCacheError descriptor_cache_corrupt
                       ($"one semantic digest mapped to different canonical descriptor bytes")),
                quarantine c digest existing)
      | (Err e, c) => (Err e, c)
      end
  | None =>
      let entry := MkEntry digest descriptor bytes in
      let c := with_entries c (map_append (entries c) digest entry) (storedBytes c + size_of entry) in
      verifyEntry (evictToQuota c) entry
  end.

Definition put (c : cache) (value : js) : res cache_error CachedSemanticDescriptor * cache :=
  match decodeSemanticDescriptor value with
  | Err e => (Err (DecodeError e), c)
  | Ok descriptor =>
      match canonicalSemanticDescriptorBytes (descriptor_js descriptor) with
      | Err e => (Err (DecodeError e), c)
      | Ok bytes =>
          if too_large c bytes
          then (Err (DescriptorCacheError descriptor_cache_entry_too_large
                       ($"descriptor requires " ++ dec_of_Z (Z.of_nat (length bytes)) ++
                        $" bytes; cache entry limit is " ++
                        dec_of_Z (Z.min (Z.of_N MAX_DESCRIPTOR_BYTES) (maxBytes c)))), c)
          else
            match semanticDescriptorDigest sha256 (descriptor_js descriptor) with
            | Err e => (Err (DecodeError e), c)
            | Ok digest => put_verified c descriptor bytes digest
            end
      end
  end.

Definition get_entry (c : cache) (d : ustring) : res cache_error (option CachedSemanticDescriptor) * cache :=
  match map_get (entries c) d with
  | None => (Ok None, c)
  | Some entry =>
      match verifyEntry c entry with
      | (Ok verified, c) => (Ok (Some verified), touch c d entry)
      | (Err e, c) => (Err e, c)
      end
  end.

Definition require_entry (c : cache) (d : ustring) : res cache_error CachedSemanticDescriptor * cache :=
  match get_entry c d with
  | (Ok (Some entry), c) => (Ok entry, c)
  | (Ok None, c) =>
      (Err (DescriptorCacheError descriptor_cache_miss
              ($"descriptor " ++ d ++ $" is not present in the cache")), c)
  | (Err e, c) => (Err e, c)
  end.

Definition mostRecentDigest (c : cache) : res cache_error (option ustring) * cache :=
  match last (entries c) with
  | None => (Ok None, c)
  | Some (digest, _) =>
      match get_entry c digest with
      | (Ok _, c) => (Ok (Some digest), c)
      | (Err e, c) => (Err e, c)
      end
  end.

(** ** The abstract cache: digests with their bytes, least recently used first *)

Definition lru := list (ustring * list N).

Definition lru_size (l : lru) : Z := foldr (fun kv n => Z.of_nat (length kv.2) + n)%Z 0%Z l.
Definition lru_fits (max_entries max_bytes : Z) (l : lru) : bool :=
  (Z.of_nat (length l) <=? max_entries)%Z && (lru_size l <=? max_bytes)%Z.

(** The longest run of most recently used entries that fits. *)
Fixpoint keep_recent (max_entries max_bytes : Z) (l : lru) : lru :=
  if lru_fits max_entries max_bytes l then l
  else match l with [] => [] | _ :: l' => keep_recent max_entries max_bytes l' end.

Definition lru_remove (d : ustring) (l : lru) : lru :=
  List.filter (fun kv => negb (bool_decide (d = kv.1))) l.
Definition lru_find (d : ustring) (l : lru) : option (list N) :=
  snd <$> find (fun kv => bool_decide (d = kv.1)) l.

Inductive lru_op := LruPut (d : ustring) (bytes : list N) | LruTouch (d : ustring).

Definition lru_step (max_entries max_bytes : Z) (l : lru) (o : lru_op) : lru :=
  match o with
  | LruPut d bytes =>
      match lru_find d l with
      | Some old => if bool_decide (old = bytes) then lru_remove d l ++ [(d, bytes)] else lru_remove d l
      | None => keep_recent max_entries max_bytes (l ++ [(d, bytes)])
      end
  | LruTouch d =>
      match lru_find d l with Some old => lru_remove d l ++ [(d, old)] | None => l end
  end.

(** ** Well-formed caches *)

Definition abstract_entries (l : list (ustring * CacheEntry)) : lru := map (fun kv => (kv.1, ce_bytes kv.2)) l.
Definition abstract (c : cache) : lru := abstract_entries (entries c).

(** What a hit on the entry returns. *)
Definition cached (e : CacheEntry) : CachedSemanticDescriptor :=
  MkCached (ce_digest e) (size_of e) (ce_descriptor e) (ce_bytes e).
Definition genuine (e : CacheEntry) : Prop := check_entry e = Ok (cached e).

Record cache_ok (c : cache) : Prop := CacheOk {
  ok_limits : (0 < maxEntries c)%Z /\ (0 < maxBytes c)%Z;
  ok_keys : NoDup (map fst (entries c));
  ok_entries : Forall (fun kv => kv.1 = ce_digest kv.2 /\ genuine kv.2) (entries c);
  ok_stored : storedBytes c = lru_size (abstract c);
  ok_fits : lru_fits (maxEntries c) (maxBytes c) (abstract c) = true }.

(** *** The Map and the abstraction *)

Lemma lru_size_app a b : lru_size (a ++ b) = (lru_size a + lru_size b)%Z.
Proof. unfold lru_size. induction a as [|x a IH]; simpl; [done|]. rewrite IH. lia. Qed.

Lemma lru_size_nonneg l : (0 <= lru_size l)%Z.
Proof. unfold lru_size. induction l as [|x l IH]; simpl; lia. Qed.

Lemma abstract_delete l d : abstract_entries (map_delete l d) = lru_remove d (abstract_entries l).
Proof.
  unfold abstract_entries, map_delete, lru_remove. induction l as [|[k e] l IH]; cbn; [done|].
  case_bool_decide; cbn; by rewrite IH.
Qed.

Lemma abstract_append l d e : abstract_entries (map_append l d e) = abstract_entries l ++ [(d, ce_bytes e)].
Proof. apply map_app. Qed.

Lemma abstract_find l d : lru_find d (abstract_entries l) = ce_bytes <$> map_get l d.
Proof.
  unfold lru_find, map_get, abstract_entries. induction l as [|[k e] l IH]; cbn; [done|].
  by case_bool_decide.
Qed.

Lemma map_get_elem l d e : map_get l d = Some e -> (d, e) ∈ l.
Proof.
  unfold map_get. induction l as [|[k e'] l IH]; cbn; [done|]. case_bool_decide; cbn.
  - intros [= ->]. subst. by left.
  - intros H'. right. by apply IH.
Qed.

Lemma map_get_none l d : map_get l d = None -> d ∉ map fst l.
Proof.
  unfold map_get. induction l as [|[k e'] l IH]; cbn; [intros _; apply not_elem_of_nil|].
  case_bool_decide; [done|]. intros H'. apply not_elem_of_cons. split; [done|by apply IH].
Qed.

Lemma map_delete_keys l d : d ∉ map fst (map_delete l d).
Proof.
  unfold map_delete. induction l as [|[k e] l IH]; cbn; [apply not_elem_of_nil|].
  case_bool_decide; cbn; [done|]. apply not_elem_of_cons. by split.
Qed.

Lemma map_delete_sub l d : map_delete l d `sublist_of` l.
Proof.
  unfold map_delete. induction l as [|[k e] l IH]; cbn; [done|]. case_bool_decide; cbn.
  - by apply sublist_cons.
  - by apply sublist_skip.
Qed.

Lemma map_delete_absent l d : d ∉ map fst l -> map_delete l d = l.
Proof.
  unfold map_delete. induction l as [|[k e] l IH]; cbn; [done|]. intros [Hne H]%not_elem_of_cons.
  rewrite bool_decide_eq_false_2 by done. cbn. by rewrite IH.
Qed.

Lemma map_delete_cons k e l d :
  map_delete ((k, e) :: l) d = if bool_decide (d = k) then map_delete l d else (k, e) :: map_delete l d.
Proof. unfold map_delete. cbn. by case_bool_decide. Qed.

Lemma map_get_cons k e l d :
  map_get ((k, e) :: l) d = if bool_decide (d = k) then Some e else map_get l d.
Proof. unfold map_get. cbn. by case_bool_decide. Qed.

Lemma lru_size_cons k e l :
  lru_size (abstract_entries ((k, e) :: l)) = (size_of e + lru_size (abstract_entries l))%Z.
Proof. done. Qed.

(** Deleting one entry takes its size off. *)
Lemma map_delete_size l d e : NoDup (map fst l) -> map_get l d = Some e ->
  lru_size (abstract_entries (map_delete l d)) = (lru_size (abstract_entries l) - size_of e)%Z.
Proof.
  induction l as [|[k e'] l IH]; [done|]. cbn [map fst]. intros [Hk Hnd]%NoDup_cons.
  rewrite map_get_cons, map_delete_cons. case_bool_decide.
  - intros [= ->]. subst. rewrite map_delete_absent, lru_size_cons by done. lia.
  - intros Hg. rewrite !lru_size_cons, IH by done. lia.
Qed.

Lemma map_get_delete_append l d e : map_get (map_append (map_delete l d) d e) d = Some e.
Proof.
  pose proof (map_delete_keys l d) as H. unfold map_get, map_append.
  induction (map_delete l d) as [|[k e'] l' IH]; cbn.
  - by rewrite bool_decide_eq_true_2.
  - cbn in H. apply not_elem_of_cons in H as [Hne H]. rewrite bool_decide_eq_false_2 by done. by apply IH.
Qed.

(** *** Eviction *)

Lemma evict_keep_recent m b l stored :
  stored = lru_size (abstract_entries l) ->
  exists s, evict m b l stored = (s, lru_size (abstract_entries s)) /\ s `suffix_of` l /\
    abstract_entries s = keep_recent m b (abstract_entries l) /\
    ((0 <= m)%Z -> (0 <= b)%Z -> lru_fits m b (abstract_entries s) = true).
Proof.
  intros ->. assert (forall l, ((m <? Z.of_nat (length l)) || (b <? lru_size (abstract_entries l)))%Z =
    negb (lru_fits m b (abstract_entries l))) as Hneg.
  { intros l'. unfold lru_fits, abstract_entries. rewrite length_map. lia. }
  induction l as [|[k e] l IH].
  - exists []. cbn [evict]. split_and!.
    + by case_match.
    + done.
    + cbn. by case_match.
    + intros Hm Hb. unfold lru_fits. cbn. lia.
  - cbn [evict]. rewrite Hneg.
    change (abstract_entries ((k, e) :: l)) with ((k, ce_bytes e) :: abstract_entries l). cbn [keep_recent].
    destruct (lru_fits m b ((k, ce_bytes e) :: abstract_entries l)) eqn:E; cbn [negb].
    + by exists ((k, e) :: l).
    + destruct IH as (s & Hs & Hsuf & Hk & Hf). exists s. split_and!; [|by apply suffix_cons_r|done|done].
      rewrite <- Hs. f_equal.
      rewrite (lru_size_cons k e l : lru_size ((k, ce_bytes e) :: abstract_entries l) = _). lia.
Qed.

(** *** Verification succeeds on well-formed caches *)

Lemma cache_entry c d e : cache_ok c -> map_get (entries c) d = Some e -> d = ce_digest e /\ genuine e.
Proof.
  intros [_ _ He _ _] Hg%map_get_elem. rewrite Forall_forall in He. by apply (He (d, e)).
Qed.

Lemma verify_genuine c e : genuine e -> verifyEntry c e = (Ok (cached e), c).
Proof. unfold genuine, verifyEntry. by intros ->. Qed.

Lemma genuine_new value d bytes digest :
  decodeSemanticDescriptor value = Ok d ->
  canonicalSemanticDescriptorBytes (descriptor_js d) = Ok bytes ->
  semanticDescriptorDigest sha256 (descriptor_js d) = Ok digest ->
  genuine (MkEntry digest d bytes).
Proof.
  intros Hd Hb Hs. unfold genuine, check_entry. cbn [ce_descriptor ce_digest ce_bytes].
  rewrite (decode_descriptor_js _ _ Hd : decodeSemanticDescriptor (descriptor_js d) = Ok d).
  cbn [mbind res_mbind]. rewrite Hb. cbn [mbind res_mbind]. rewrite Hs. cbn [mbind res_mbind].
  unfold equalBytes. by rewrite !bool_decide_eq_true_2 by done.
Qed.

(** *** The operations on well-formed caches *)

Lemma new_cache_ok n b c : new_cache n b = Ok c -> cache_ok c /\ abstract c = [].
Proof.
  unfold new_cache, positiveSafeInteger. intros H.
  apply res_bind_Ok in H as (x & Hx & H). apply res_bind_Ok in H as (y & Hy & [= <-]).
  destruct (num_safe_Z _) as [zx|]; [|done]. destruct (0 <? zx)%Z eqn:Ex; [|done]. injection Hx as ->.
  destruct (num_safe_Z _) as [zy|]; [|done]. destruct (0 <? zy)%Z eqn:Ey; [|done]. injection Hy as ->.
  split; [|done]. split; cbn; [lia|constructor|constructor|done|]. unfold lru_fits. cbn. lia.
Qed.

Lemma touch_ok c d e : cache_ok c -> map_get (entries c) d = Some e ->
  cache_ok (touch c d e) /\ abstract (touch c d e) = lru_remove d (abstract c) ++ [(d, ce_bytes e)].
Proof.
  intros Hc Hg. destruct (cache_entry _ _ _ Hc Hg) as [Hd He]. pose proof Hc as [Hl Hk Hes Hst Hf].
  assert (abstract (touch c d e) = lru_remove d (abstract c) ++ [(d, ce_bytes e)]) as Ha.
  { unfold abstract, touch, with_entries. cbn [entries]. by rewrite abstract_append, abstract_delete. }
  assert (lru_size (abstract (touch c d e)) = lru_size (abstract c)) as Hsize.
  { rewrite Ha, lru_size_app. unfold abstract. rewrite <- abstract_delete, (map_delete_size _ _ e) by done.
    unfold size_of. cbn. lia. }
  assert (length (abstract (touch c d e)) <= length (abstract c))%nat as Hlen.
  { rewrite Ha, length_app. unfold abstract. rewrite <- abstract_delete.
    apply map_get_elem in Hg. unfold abstract_entries. rewrite !length_map. cbn.
    destruct (list_elem_of_split _ _ Hg) as (l1 & l2 & E). rewrite E. unfold map_delete.
    rewrite List.filter_app, !length_app. cbn. rewrite bool_decide_eq_true_2 by done. cbn.
    pose proof (List.filter_length_le (fun kv => negb (bool_decide (d = kv.1))) l1).
    pose proof (List.filter_length_le (fun kv => negb (bool_decide (d = kv.1))) l2). lia. }
  split; [|done]. split; [done| | | |].
  - cbn. unfold map_append. rewrite map_app. apply NoDup_app. split_and!.
    + eapply sublist_NoDup; [exact Hk|]. apply sublist_map, map_delete_sub.
    + intros x Hx ->%list_elem_of_singleton. by apply map_delete_keys in Hx.
    + apply NoDup_singleton.
  - cbn. apply Forall_app. split; [|by repeat constructor].
    eapply Forall_sub; [apply map_delete_sub|exact Hes].
  - by rewrite Hsize.
  - unfold lru_fits in *. rewrite Hsize. cbn [touch with_entries maxEntries maxBytes]. lia.
Qed.

Lemma sub_fits m b l k : l `sublist_of` k -> lru_fits m b (abstract_entries k) = true ->
  lru_fits m b (abstract_entries l) = true.
Proof.
  intros H. assert (lru_size (abstract_entries l) <= lru_size (abstract_entries k))%Z.
  { induction H as [|[u e] l k _ IH|[u e] l k _ IH]; rewrite ?lru_size_cons; [done|lia|].
    unfold size_of. lia. }
  apply sublist_length in H. unfold lru_fits, abstract_entries in *. rewrite !length_map. lia.
Qed.

(** What a cache with fewer entries keeps. *)
Lemma shrink_ok c l : cache_ok c -> l `sublist_of` entries c ->
  cache_ok (with_entries c l (lru_size (abstract_entries l))).
Proof.
  intros [Hl Hk Hes Hst Hf] Hsub. split; [done| | |done|].
  - eapply sublist_NoDup; [exact Hk|]. by apply sublist_map.
  - by eapply Forall_sub.
  - by eapply sub_fits.
Qed.

Lemma quarantine_ok c d e : cache_ok c -> map_get (entries c) d = Some e ->
  cache_ok (quarantine c d e) /\ abstract (quarantine c d e) = lru_remove d (abstract c).
Proof.
  intros Hc Hg. unfold quarantine. rewrite Hg. split; [|apply abstract_delete].
  rewrite (ok_stored _ Hc). unfold abstract. rewrite <- (map_delete_size _ d e) by (done || by apply ok_keys).
  apply shrink_ok; [done|apply map_delete_sub].
Qed.

Lemma map_get_NoDup l d e : NoDup (map fst l) -> (d, e) ∈ l -> map_get l d = Some e.
Proof.
  induction l as [|[k e'] l IH]; cbn [map fst]; [by intros _ ?%elem_of_nil|].
  intros [Hk Hnd]%NoDup_cons Hin. rewrite map_get_cons.
  apply elem_of_cons in Hin as [[= <- <-]|Hin]; [by rewrite bool_decide_eq_true_2|].
  rewrite bool_decide_eq_false_2; [by apply IH|]. intros ->. apply Hk.
  apply list_elem_of_fmap. by exists (k, e).
Qed.

Lemma keep_recent_last m b l x : lru_fits m b [x] = true ->
  exists s, keep_recent m b (l ++ [x]) = s ++ [x].
Proof.
  intros Hx. induction l as [|y l [s IH]]; cbn [app keep_recent].
  - rewrite Hx. by exists [].
  - destruct (lru_fits m b (y :: l ++ [x])); [by exists (y :: l)|]. by exists s.
Qed.

(** Storing a descriptor the cache does not hold. *)
Lemma insert_ok c e : cache_ok c -> genuine e -> map_get (entries c) (ce_digest e) = None ->
  too_large c (ce_bytes e) = false ->
  let c' := evictToQuota (with_entries c (map_append (entries c) (ce_digest e) e) (storedBytes c + size_of e)) in
  cache_ok c' /\ map_get (entries c') (ce_digest e) = Some e /\
  abstract c' = keep_recent (maxEntries c) (maxBytes c) (abstract c ++ [(ce_digest e, ce_bytes e)]).
Proof.
  intros [[Hl1 Hl2] Hk Hes Hst Hf] He Hg Hlarge. cbv zeta. unfold evictToQuota.
  cbn [maxEntries maxBytes entries storedBytes with_entries].
  destruct (evict_keep_recent (maxEntries c) (maxBytes c) (map_append (entries c) (ce_digest e) e)
    (storedBytes c + size_of e)) as (s & Hs & Hsuf & Hkeep & Hfit).
  { rewrite Hst, abstract_append, lru_size_app. unfold abstract, size_of. cbn. lia. }
  rewrite Hs, abstract_append in *. unfold with_entries. cbn [maxEntries maxBytes].
  assert (NoDup (map fst (map_append (entries c) (ce_digest e) e))) as Hnd.
  { unfold map_append. rewrite map_app. apply NoDup_app. split_and!; [done| |apply NoDup_singleton].
    intros x Hx ->%list_elem_of_singleton. by apply (map_get_none _ _ Hg). }
  assert (s `sublist_of` map_append (entries c) (ce_digest e) e) as Hsub by (destruct Hsuf as [k ->]; by apply sublist_inserts_l).
  assert (NoDup (map fst s)) as Hnds by (eapply sublist_NoDup; [exact Hnd|]; by apply sublist_map).
  assert ((ce_digest e, e) ∈ s) as Hin.
  { destruct (keep_recent_last (maxEntries c) (maxBytes c) (abstract c) (ce_digest e, ce_bytes e)) as [s' Hs'].
    { unfold too_large in Hlarge. unfold lru_fits. cbn. lia. }
    unfold abstract in Hs'. rewrite Hs' in Hkeep. destruct Hsuf as [k Hsuf].
    destruct s as [|y s0 _] using rev_ind; [by destruct s'|].
    unfold map_append in Hsuf. rewrite app_assoc in Hsuf. apply app_inj_tail in Hsuf as [_ <-].
    apply elem_of_app. right. by left. }
  split_and!; [|by apply map_get_NoDup|done]. split; cbn; [done|done| |done|by apply Hfit; lia].
  eapply Forall_sub; [exact Hsub|]. apply Forall_app. split; [done|by repeat constructor].
Qed.

Lemma get_ok c d : cache_ok c ->
  get_entry c d = match map_get (entries c) d with
                  | None => (Ok None, c)
                  | Some e => (Ok (Some (cached e)), touch c d e)
                  end.
Proof.
  intros Hc. unfold get_entry. destruct (map_get (entries c) d) as [e|] eqn:Hg; [|done].
  destruct (cache_entry _ _ _ Hc Hg) as [_ He]. by rewrite verify_genuine.
Qed.

Lemma put_verified_ok c d bytes digest : cache_ok c -> genuine (MkEntry digest d bytes) ->
  too_large c bytes = false ->
  cache_ok (put_verified c d bytes digest).2 /\
  abstract (put_verified c d bytes digest).2 = lru_step (maxEntries c) (maxBytes c) (abstract c) (LruPut digest bytes) /\
  match (put_verified c d bytes digest).1 with
  | Ok v => exists e, v = cached e /\ ce_digest e = digest /\ ce_bytes e = bytes /\
              map_get (entries (put_verified c d bytes digest).2) digest = Some e
  | Err _ => exists old, lru_find digest (abstract c) = Some old /\ old <> bytes
  end.
Proof.
  intros Hc He Hlarge. unfold put_verified, lru_step, abstract. rewrite abstract_find.
  destruct (map_get (entries c) digest) as [e|] eqn:Hg; cbn [fmap option_fmap option_map].
  - destruct (cache_entry _ _ _ Hc Hg) as [Hd Hge]. rewrite verify_genuine by done.
    unfold equalBytes. cbn [cached cd_canonicalBytes]. case_bool_decide as Hb.
    + destruct (touch_ok c digest e Hc Hg) as [Hok Ha]. split_and!; [done|by rewrite <- Hb|].
      exists e. split_and!; [done|done|done|]. apply map_get_delete_append.
    + destruct (quarantine_ok c digest e Hc Hg) as [Hok Ha]. split_and!; [done|done|]. by exists (ce_bytes e).
  - destruct (insert_ok c _ Hc He Hg Hlarge) as (Hok & Hin & Ha). cbn [ce_digest ce_bytes] in *.
    rewrite verify_genuine by done. split_and!; [done|done|]. by exists (MkEntry digest d bytes).
Qed.

(** ** Any sequence of operations *)

Inductive cache_op := OpPut (value : js) | OpGet (d : ustring) | OpRequire (d : ustring) | OpMostRecent.

Definition run_op (c : cache) (o : cache_op) : cache :=
  match o with
  | OpPut value => (put c value).2
  | OpGet d => (get_entry c d).2
  | OpRequire d => (require_entry c d).2
  | OpMostRecent => (mostRecentDigest c).2
  end.

Definition reachable (c : cache) : Prop :=
  exists n b c0 ops, new_cache n b = Ok c0 /\ c = foldl run_op c0 ops.

(** The descriptor, bytes and digest [put] works with. *)
Definition storable (value : js) : res exn (SemanticDescriptor * list N * ustring) :=
  descriptor ← decodeSemanticDescriptor value;
  bytes ← canonicalSemanticDescriptorBytes (descriptor_js descriptor);
  digest ← semanticDescriptorDigest sha256 (descriptor_js descriptor);
  mret (descriptor, bytes, digest).

Definition abstract_op (c : cache) (o : cache_op) : option lru_op :=
  match o with
  | OpPut value =>
      match storable value with
      | Ok (_, bytes, digest) => if too_large c bytes then None else Some (LruPut digest bytes)
      | Err _ => None
      end
  | OpGet d | OpRequire d => Some (LruTouch d)
  | OpMostRecent => None
  end.

Definition same_limits (c c' : cache) : Prop := maxEntries c' = maxEntries c /\ maxBytes c' = maxBytes c.

Lemma put_cases c value :
  (exists e, put c value = (Err e, c) /\ (forall m, e <> DescriptorCacheError descriptor_cache_corrupt m) /\
     abstract_op c (OpPut value) = None) \/
  (exists d bytes digest, decodeSemanticDescriptor value = Ok d /\
     canonicalSemanticDescriptorBytes (descriptor_js d) = Ok bytes /\
     semanticDescriptorDigest sha256 (descriptor_js d) = Ok digest /\
     too_large c bytes = false /\ put c value = put_verified c d bytes digest /\
     abstract_op c (OpPut value) = Some (LruPut digest bytes)).
Proof.
  unfold put, abstract_op, storable.
  destruct (decodeSemanticDescriptor value) as [d|e] eqn:Hd; [|left; exists (DecodeError e); repeat split; intros ? [=]]. cbn [mbind res_mbind].
  destruct (canonicalSemanticDescriptorBytes (descriptor_js d)) as [bytes|e] eqn:Hb; [|left; exists (DecodeError e); repeat split; intros ? [=]]. cbn [mbind res_mbind].
  destruct (too_large c bytes) eqn:Hl.
  { left. eexists. split; [reflexivity|]. split; [intros ? [=]|].
    destruct (semanticDescriptorDigest _ _); cbn; [by rewrite Hl|done]. }
  destruct (semanticDescriptorDigest _ _) as [digest|e] eqn:Hs; [|left; exists (DecodeError e); repeat split; intros ? [=]].
  right. exists d, bytes, digest. cbn [mbind res_mbind mret res_mret]. by rewrite Hl, Hb, Hs.
Qed.

Lemma lru_remove_last d bytes l : NoDup (map fst l ++ [d]) -> lru_remove d (l ++ [(d, bytes)]) = l.
Proof.
  unfold lru_remove. induction l as [|[k x] l IH]; cbn.
  - intros _. by rewrite bool_decide_eq_true_2.
  - intros [Hk Hnd]%NoDup_cons. rewrite bool_decide_eq_false_2; cbn; [by rewrite IH|].
    intros ->. apply Hk. apply elem_of_app. right. by left.
Qed.

Lemma same_limits_verify c e : same_limits c (verifyEntry c e).2.
Proof. unfold verifyEntry, quarantine, same_limits. destruct (check_entry e); cbn; [done|]. by case_match. Qed.

Lemma same_limits_put_verified c d bytes digest : same_limits c (put_verified c d bytes digest).2.
Proof.
  unfold put_verified. destruct (map_get (entries c) digest) as [e|].
  - pose proof (same_limits_verify c e) as [H1 H2]. destruct (verifyEntry c e) as [[v|x] c']; cbn in *; [|done].
    case_match; cbn; [done|]. unfold quarantine, same_limits. by case_match.
  - set (c1 := with_entries c _ _). assert (same_limits c (evictToQuota c1)) as [Hm Hb].
    { unfold same_limits, evictToQuota. by destruct (evict _ _ _ _). }
    destruct (same_limits_verify (evictToQuota c1) (MkEntry digest d bytes)) as [Hm' Hb'].
    split; congruence.
Qed.

Lemma run_op_ok c o : cache_ok c ->
  cache_ok (run_op c o) /\ same_limits c (run_op c o) /\
  abstract (run_op c o) =
    match abstract_op c o with
    | Some lo => lru_step (maxEntries c) (maxBytes c) (abstract c) lo
    | None => abstract c
    end.
Proof.
  intros Hc. assert (forall d, cache_ok (get_entry c d).2 /\ same_limits c (get_entry c d).2 /\
    abstract (get_entry c d).2 = lru_step (maxEntries c) (maxBytes c) (abstract c) (LruTouch d)) as Hget.
  { intros d. rewrite get_ok by done. unfold lru_step, abstract. rewrite abstract_find.
    destruct (map_get (entries c) d) as [e|] eqn:Hg; cbn; [|done].
    destruct (touch_ok c d e Hc Hg). done. }
  destruct o as [value|d|d|]; cbn [run_op].
  - destruct (put_cases c value) as [(e & -> & _ & ->)|(d & bytes & digest & Hd & Hb & Hs & Hl & -> & ->)]; [done|].
    destruct (put_verified_ok c d bytes digest) as (H1 & H2 & _); [done| |done|].
    { by eapply genuine_new. }
    split_and!; [done|apply same_limits_put_verified|done].
  - apply Hget.
  - destruct (Hget d) as (H1 & H2 & H3). unfold require_entry.
    destruct (get_entry c d) as [[[v|]|e] c']; done.
  - unfold mostRecentDigest. destruct (last (entries c)) as [[d e]|] eqn:Hlast; [|done].
    apply last_Some in Hlast as [l Hl].
    assert (map_get (entries c) d = Some e) as Hg.
    { apply map_get_NoDup; [by apply ok_keys|]. rewrite Hl. apply elem_of_app. right. by left. }
    rewrite get_ok, Hg by done. cbn [snd]. destruct (touch_ok c d e Hc Hg) as [Hok Ha].
    split_and!; [done|done|]. cbn [abstract_op]. rewrite Ha.
    assert (abstract c = abstract_entries l ++ [(d, ce_bytes e)]) as ->
      by (unfold abstract; rewrite Hl; apply abstract_append).
    rewrite lru_remove_last; [done|].
    pose proof (ok_keys _ Hc) as Hk. rewrite Hl, map_app in Hk. unfold abstract_entries. by rewrite map_map.
Qed.

Lemma run_ops_ok c ops : cache_ok c ->
  cache_ok (foldl run_op c ops) /\ same_limits c (foldl run_op c ops) /\
  abstract (foldl run_op c ops) =
    foldl (lru_step (maxEntries c) (maxBytes c)) (abstract c) (omap (abstract_op c) ops).
Proof.
  revert c. induction ops as [|o ops IH]; intros c Hc; [done|].
  destruct (run_op_ok c o Hc) as (H1 & [Hm Hb] & H3). destruct (IH _ H1) as (H4 & [Hm' Hb'] & H6).
  cbn [foldl]. split_and!; [done|unfold same_limits; by rewrite Hm', Hb'|].
  rewrite H6, Hm, Hb, H3.
  assert (forall o, abstract_op (run_op c o) = abstract_op (run_op c o)) as _ by done.
  assert (omap (abstract_op (run_op c o)) ops = omap (abstract_op c) ops) as ->.
  { apply list_omap_ext, Forall_Forall2_diag, Forall_true. intros [v|d|d|]; try done.
    cbn. destruct (storable v) as [[[? ?] ?]|]; [|done]. unfold too_large. by rewrite Hb. }
  cbn [omap list_omap]. by destruct (abstract_op c o).
Qed.

Lemma reachable_ok c : reachable c -> cache_ok c.
Proof.
  intros (n & b & c0 & ops & H0 & ->). apply new_cache_ok in H0 as [H0 _]. by apply run_ops_ok.
Qed.

(** ** Theorems *)

(** C36: the cache implements a bounded LRU. After any sequence of operations on a
    new cache its entries, with their bytes, are those of the abstract cache that
    performs the corresponding insertions and touches: a stored descriptor is
    moved to the most recent end, a new one is added there and the least recently
    used entries are dropped just until the entry count and the byte sum are
    within the limits; the recorded byte count is the sum, digests are distinct
    and every entry passes its verification. *)
Theorem cache_refines_lru n b c0 ops :
  new_cache n b = Ok c0 ->
  let c := foldl run_op c0 ops in
  abstract c = foldl (lru_step (maxEntries c0) (maxBytes c0)) [] (omap (abstract_op c0) ops) /\
  cache_ok c /\ maxEntries c = maxEntries c0 /\ maxBytes c = maxBytes c0.
Proof.
  intros H. cbv zeta. destruct (new_cache_ok _ _ _ H) as [Hok Ha].
  destruct (run_ops_ok c0 ops Hok) as (H1 & [H2 H3] & H4). by rewrite H4, Ha.
Qed.

(** A hit is always verified: on any cache a program can reach, looking a
    digest up never throws; it finds nothing and changes nothing, or it returns a
    descriptor that decodes again unchanged, with its canonical bytes and with
    the digest asked for recomputed from them. *)
Theorem cache_hits_verified c d r c' :
  reachable c -> get_entry c d = (r, c') ->
  (r = Ok None /\ c' = c /\ d ∉ map fst (entries c)) \/
  exists v, r = Ok (Some v) /\ cd_digest v = d /\
    decodeSemanticDescriptor (descriptor_js (cd_descriptor v)) = Ok (cd_descriptor v) /\
    canonicalSemanticDescriptorBytes (descriptor_js (cd_descriptor v)) = Ok (cd_canonicalBytes v) /\
    semanticDescriptorDigest sha256 (descriptor_js (cd_descriptor v)) = Ok d /\
    cd_descriptorBytes v = Z.of_nat (length (cd_canonicalBytes v)).
Proof.
  intros Hc%reachable_ok. rewrite get_ok by done. destruct (map_get (entries c) d) as [e|] eqn:Hg.
  - intros [= <- <-]. right. exists (cached e). destruct (cache_entry _ _ _ Hc Hg) as [-> He].
    unfold genuine, check_entry in He. apply res_bind_Ok in He as (x & Hx & He).
    apply res_bind_Ok in He as (bytes & Hb & He). apply res_bind_Ok in He as (digest & Hs & He).
    apply res_bind_Ok in He as ([] & Hr & [= -> Hsize -> ->]). by split_and!.
  - intros [= <- <-]. left. split_and!; [done|done|by apply map_get_none].
Qed.

(** What [put] does on any cache a program can reach. When it returns, the
    value decodes, the result carries the canonical bytes and the digest of the
    decoded descriptor, and looking the digest up at once gives that result: the
    new entry is never the one evicted. When it reports corruption, the hash
    function gave the digest of other canonical bytes: two byte sequences collide.
    When it throws anything else, the cache is unchanged. *)
Theorem cache_put_outcome c value r c' :
  reachable c -> put c value = (r, c') ->
  match r with
  | Ok v => exists d, decodeSemanticDescriptor value = Ok d /\
      canonicalSemanticDescriptorBytes (descriptor_js d) = Ok (cd_canonicalBytes v) /\
      semanticDescriptorDigest sha256 (descriptor_js d) = Ok (cd_digest v) /\
      (get_entry c' (cd_digest v)).1 = Ok (Some v)
  | Err (DescriptorCacheError descriptor_cache_corrupt _) =>
      exists d e digest bytes old, (d, digest) ∈ map (fun kv => (ce_descriptor kv.2, kv.1)) (entries c) /\
        decodeSemanticDescriptor value = Ok e /\ old <> bytes /\
        canonicalSemanticDescriptorBytes (descriptor_js d) = Ok old /\
        canonicalSemanticDescriptorBytes (descriptor_js e) = Ok bytes /\
        semanticDescriptorDigest sha256 (descriptor_js d) = Ok digest /\
        semanticDescriptorDigest sha256 (descriptor_js e) = Ok digest
  | Err _ => c' = c
  end.
Proof.
  intros Hc%reachable_ok.
  destruct (put_cases c value) as [(e & -> & Hne & _)|(d & bytes & digest & Hd & Hb & Hs & Hl & -> & _)].
  { intros [= <- <-]. destruct e as [[]|]; try done. by destruct (Hne message). }
  intros Hput. destruct (put_verified_ok c d bytes digest Hc) as (Hok & _ & Hres); [by eapply genuine_new|done|].
  rewrite Hput in *. cbn [fst snd] in *. destruct r as [v|e].
  { destruct Hres as (en & -> & <- & <- & Hg). exists d. split_and!; [done|done|done|].
    cbn [cached cd_digest]. rewrite get_ok by done. by rewrite Hg. }
  destruct Hres as (old & Hfind & Hne). unfold abstract in Hfind. rewrite abstract_find in Hfind.
  destruct (map_get (entries c) digest) as [en|] eqn:Hg; [|done]. injection Hfind as <-.
  destruct (cache_entry _ _ _ Hc Hg) as [Hdg Hge].
  assert (exists m, e = DescriptorCacheError descriptor_cache_corrupt m) as [m ->].
  { unfold put_verified in Hput. rewrite Hg, verify_genuine in Hput by done.
    destruct (equalBytes _ _); [done|]. injection Hput as <- _. by eexists. }
  unfold genuine, check_entry in Hge. apply res_bind_Ok in Hge as (x & Hx & He).
  apply res_bind_Ok in He as (bytes' & Hb' & He). apply res_bind_Ok in He as (digest' & Hs' & He).
  apply res_bind_Ok in He as ([] & Hr & [= -> _ -> ->]).
  exists (ce_descriptor en), d, digest, bytes, (ce_bytes en). split_and!; try done; [|by rewrite Hdg].
  apply list_elem_of_fmap. exists (digest, en). split; [done|by apply map_get_elem].
Qed.
End sha.

(** ** Witnesses *)

Definition sample_cache : cache := MkCache 2 100000 [] 0.
Definition sample_ops : list cache_op :=
  [OpPut (descriptor_js (sample_descriptor false)); OpGet (zero_hash []); OpMostRecent].

Example cache_refines_lru_witness :
  let c := foldl (run_op zero_hash) sample_cache sample_ops in
  abstract c = foldl (lru_step (maxEntries sample_cache) (maxBytes sample_cache)) []
                 (omap (abstract_op zero_hash sample_cache) sample_ops) /\
  cache_ok zero_hash c /\ maxEntries c = maxEntries sample_cache /\ maxBytes c = maxBytes sample_cache.
Proof.
  apply (cache_refines_lru zero_hash (Some (num_of_Z 2)) (Some (num_of_Z 100000))). vm_compute. reflexivity.
Defined.

Definition filled_cache : cache := foldl (run_op zero_hash) sample_cache sample_ops.

Lemma filled_reachable : reachable zero_hash filled_cache.
Proof.
  exists (Some (num_of_Z 2)), (Some (num_of_Z 100000)), sample_cache, sample_ops.
  split; [vm_compute; reflexivity|reflexivity].
Qed.

Example cache_hits_verified_witness :
  let '(r, c') := get_entry zero_hash filled_cache (zero_hash []) in
  (r = Ok None /\ c' = filled_cache /\ zero_hash [] ∉ map fst (entries filled_cache)) \/
  exists v, r = Ok (Some v) /\ cd_digest v = zero_hash [] /\
    decodeSemanticDescriptor (descriptor_js (cd_descriptor v)) = Ok (cd_descriptor v) /\
    canonicalSemanticDescriptorBytes (descriptor_js (cd_descriptor v)) = Ok (cd_canonicalBytes v) /\
    semanticDescriptorDigest zero_hash (descriptor_js (cd_descriptor v)) = Ok (zero_hash []) /\
    cd_descriptorBytes v = Z.of_nat (length (cd_canonicalBytes v)).
Proof.
  destruct (get_entry zero_hash filled_cache (zero_hash [])) as [r c'] eqn:E.
  exact (cache_hits_verified zero_hash filled_cache (zero_hash []) r c' filled_reachable E).
Defined.

Example cache_put_outcome_witness :
  exists v c', put zero_hash sample_cache (descriptor_js (sample_descriptor true)) = (Ok v, c') /\
  exists d, decodeSemanticDescriptor (descriptor_js (sample_descriptor true)) = Ok d /\
      canonicalSemanticDescriptorBytes (descriptor_js d) = Ok (cd_canonicalBytes v) /\
      semanticDescriptorDigest zero_hash (descriptor_js d) = Ok (cd_digest v) /\
      (get_entry zero_hash c' (cd_digest v)).1 = Ok (Some v).
Proof.
  assert (reachable zero_hash sample_cache) as Hr.
  { exists (Some (num_of_Z 2)), (Some (num_of_Z 100000)), sample_cache, [].
    split; [vm_compute; reflexivity|reflexivity]. }
  assert (is_ok (put zero_hash sample_cache (descriptor_js (sample_descriptor true))).1 = true) as Hok
    by (vm_compute; reflexivity).
  destruct (put zero_hash sample_cache (descriptor_js (sample_descriptor true))) as [r c'] eqn:E.
  pose proof (cache_put_outcome zero_hash sample_cache _ r c' Hr E) as H.
  destruct r as [v|e]; [|discriminate Hok]. exists v, c'. split; [reflexivity|exact H].
Defined.
