(* ===== verification/MatchedEvidence.v ===== *)
(** * Matched evidence

    [MatchedEvidenceTracker] of [src/src/matched-evidence.ts]: it watches a replay
    and counts only what the mirror acknowledged. Its methods change the tracker
    also when they throw, so each is a [method] on the tracker's state. *)

From S2P Require Import Prelude JsNumber Utf16 JsData StrictJson Decode JsText ModelTypes Canonical Descriptor.

(** ** Data *)

Inductive EvidenceUncertainty := mapping | protocol | counter_overflow | missing_ack | missing_tracker.

#[export] Instance uncertainty_eq_dec : EqDecision EvidenceUncertainty.
Proof. solve_decision. Defined.

Definition uncertaintyOrder : list EvidenceUncertainty :=
  [mapping; protocol; counter_overflow; missing_ack; missing_tracker].

(** An action as the tracker knows it: its ID and whether it initializes. *)
Record label := Label { l_id : ustring; l_initial : bool }.

Record pair_count := PairCount { pc_from : ustring; pc_to : ustring; pc_count : Z }.

(** What the constructor fixes. *)
Record evidence_config := EvidenceConfig {
  labels : list (ustring * label);
  lengths : list Z;
  strictAcknowledgements : bool;
  expectedActions : option (list (list ustring)) }.

Record tracker := Tracker {
  actions : list (ustring * Z);
  pairs : list pair_count;
  uncertain : list EvidenceUncertainty;
  entered : bool;
  complete : bool;
  sealed : bool;
  started : Z;
  completed : Z;
  initialMatched : Z;
  transitionMatched : Z;
  reportedCount : Z;
  currentMatched : Z;
  previous : option ustring;
  active : option label;
  pending : option label }.

(** The assignments [this.field = value]. *)
Definition set_actions (v : list (ustring * Z)) (s : tracker) : tracker :=
  Tracker v (pairs s) (uncertain s) (entered s) (complete s) (sealed s) (started s) (completed s)
    (initialMatched s) (transitionMatched s) (reportedCount s) (currentMatched s) (previous s)
    (active s) (pending s).
Definition set_pairs (v : list pair_count) (s : tracker) : tracker :=
  Tracker (actions s) v (uncertain s) (entered s) (complete s) (sealed s) (started s) (completed s)
    (initialMatched s) (transitionMatched s) (reportedCount s) (currentMatched s) (previous s)
    (active s) (pending s).
Definition set_uncertain (v : list EvidenceUncertainty) (s : tracker) : tracker :=
  Tracker (actions s) (pairs s) v (entered s) (complete s) (sealed s) (started s) (completed s)
    (initialMatched s) (transitionMatched s) (reportedCount s) (currentMatched s) (previous s)
    (active s) (pending s).
Definition set_entered (v : bool) (s : tracker) : tracker :=
  Tracker (actions s) (pairs s) (uncertain s) v (complete s) (sealed s) (started s) (completed s)
    (initialMatched s) (transitionMatched s) (reportedCount s) (currentMatched s) (previous s)
    (active s) (pending s).
Definition set_complete (v : bool) (s : tracker) : tracker :=
  Tracker (actions s) (pairs s) (uncertain s) (entered s) v (sealed s) (started s) (completed s)
    (initialMatched s) (transitionMatched s) (reportedCount s) (currentMatched s) (previous s)
    (active s) (pending s).
Definition set_sealed (v : bool) (s : tracker) : tracker :=
  Tracker (actions s) (pairs s) (uncertain s) (entered s) (complete s) v (started s) (completed s)
    (initialMatched s) (transitionMatched s) (reportedCount s) (currentMatched s) (previous s)
    (active s) (pending s).
Definition set_started (v : Z) (s : tracker) : tracker :=
  Tracker (actions s) (pairs s) (uncertain s) (entered s) (complete s) (sealed s) v (completed s)
    (initialMatched s) (transitionMatched s) (reportedCount s) (currentMatched s) (previous s)
    (active s) (pending s).
Definition set_completed (v : Z) (s : tracker) : tracker :=
  Tracker (actions s) (pairs s) (uncertain s) (entered s) (complete s) (sealed s) (started s) v
    (initialMatched s) (transitionMatched s) (reportedCount s) (currentMatched s) (previous s)
    (active s) (pending s).
Definition set_initialMatched (v : Z) (s : tracker) : tracker :=
  Tracker (actions s) (pairs s) (uncertain s) (entered s) (complete s) (sealed s) (started s)
    (completed s) v (transitionMatched s) (reportedCount s) (currentMatched s) (previous s)
    (active s) (pending s).
Definition set_transitionMatched (v : Z) (s : tracker) : tracker :=
  Tracker (actions s) (pairs s) (uncertain s) (entered s) (complete s) (sealed s) (started s)
    (completed s) (initialMatched s) v (reportedCount s) (currentMatched s) (previous s) (active s)
    (pending s).
Definition set_reportedCount (v : Z) (s : tracker) : tracker :=
  Tracker (actions s) (pairs s) (uncertain s) (entered s) (complete s) (sealed s) (started s)
    (completed s) (initialMatched s) (transitionMatched s) v (currentMatched s) (previous s)
    (active s) (pending s).
Definition set_currentMatched (v : Z) (s : tracker) : tracker :=
  Tracker (actions s) (pairs s) (uncertain s) (entered s) (complete s) (sealed s) (started s)
    (completed s) (initialMatched s) (transitionMatched s) (reportedCount s) v (previous s)
    (active s) (pending s).
Definition set_previous (v : option ustring) (s : tracker) : tracker :=
  Tracker (actions s) (pairs s) (uncertain s) (entered s) (complete s) (sealed s) (started s)
    (completed s) (initialMatched s) (transitionMatched s) (reportedCount s) (currentMatched s) v
    (active s) (pending s).
Definition set_active (v : option label) (s : tracker) : tracker :=
  Tracker (actions s) (pairs s) (uncertain s) (entered s) (complete s) (sealed s) (started s)
    (completed s) (initialMatched s) (transitionMatched s) (reportedCount s) (currentMatched s)
    (previous s) v (pending s).
Definition set_pending (v : option label) (s : tracker) : tracker :=
  Tracker (actions s) (pairs s) (uncertain s) (entered s) (complete s) (sealed s) (started s)
    (completed s) (initialMatched s) (transitionMatched s) (reportedCount s) (currentMatched s)
    (previous s) (active s) v.

(** ** Construction *)

Definition fresh (acts : list (ustring * Z)) (prs : list pair_count) : tracker :=
  Tracker acts prs [] false false false 0 0 0 0 0 0 None None None.

(** [JSON.stringify(pair)] of two strings. *)
Definition pair_key (from to : ustring) : ustring :=
  $"[" ++ quote_string from ++ $"," ++ quote_string to ++ $"]".

Inductive evidence_error := MatchedEvidenceError (message : ustring) | DescriptorError (e : exn).

Definition invalid {A} (message : string) : res evidence_error A := Err (MatchedEvidenceError (lit message)).

Fixpoint required_actions (ids : list ustring) (required : list ustring) (acc : list (ustring * Z))
    : res evidence_error (list (ustring * Z)) :=
  match required with
  | [] => Ok acc
  | id :: required' =>
      if negb (bool_decide (id ∈ ids)) || bool_decide (id ∈ map fst acc) then invalid "invalid required action"
      else required_actions ids required' (acc ++ [(id, 0%Z)])
  end.

Fixpoint required_pairs (ids : list ustring) (required : list (list ustring)) (keys : list ustring)
    : res evidence_error (list pair_count) :=
  match required with
  | [] => Ok []
  | [from; to] :: required' =>
      if negb (bool_decide (from ∈ ids)) || negb (bool_decide (to ∈ ids)) then invalid "invalid required pair"
      else if bool_decide (pair_key from to ∈ keys) then invalid "duplicate required pair"
      else
        rest ← required_pairs ids required' (pair_key from to :: keys);
        mret (PairCount from to 0 :: rest)
  | _ :: _ => invalid "invalid required pair"
  end.

(** The labels of one action, added one by one. *)
Fixpoint add_labels (names : list ustring) (l : label) (acc : list (ustring * label))
    : res evidence_error (list (ustring * label)) :=
  match names with
  | [] => Ok acc
  | name :: names' =>
      if bool_decide (name ∈ map fst acc) then invalid "ambiguous action label"
      else add_labels names' l (acc ++ [(name, l)])
  end.

Fixpoint action_table (acts : list ResolvedAction) (acc : list (ustring * label))
    : res evidence_error (list (ustring * label)) :=
  match acts with
  | [] => Ok acc
  | a :: acts' =>
      acc' ← add_labels (ra_wireAction a :: ra_wireAliases a)
               (Label (ra_id a) (match ra_phase a with Initialize => true | Transition => false end)) acc;
      action_table acts' acc'
  end.

Definition valid_count (n : number) : option Z :=
  match num_safe_Z n with Some z => if (1 <=? z)%Z then Some z else None | None => None end.

Definition new_tracker (descriptor : js) (requiredActions : list ustring) (requiredPairs : list (list ustring))
    (traceStateCounts : list number) (strict : bool) (expected : option (list (list ustring)))
    : res evidence_error (evidence_config * tracker) :=
  match decodeSemanticDescriptor descriptor with
  | Err e => Err (DescriptorError e)
  | Ok parsed =>
      counts ← (if (length traceStateCounts <? 1)%nat || (4096 <? length traceStateCounts)%nat
                then invalid "invalid preflight trace state counts"
                else match mapM valid_count traceStateCounts with
                     | Some counts => Ok counts
                     | None => invalid "invalid preflight trace state counts"
                     end);
      let ids := map ra_id (sd_actions parsed) in
      _ ← require (negb ((1024 <? length requiredActions)%nat || (4096 <? length requiredPairs)%nat))
            (MatchedEvidenceError ($"requirements exceed evidence limits"));
      acts ← required_actions ids requiredActions [];
      prs ← required_pairs ids requiredPairs [];
      table ← action_table (sd_initializers parsed ++ sd_actions parsed) [];
      mret (EvidenceConfig table counts strict expected, fresh acts prs)
  end.

(** ** Methods *)

Section tracker.
Context (cfg : evidence_config).

Definition op := method tracker ustring.

Definition fail_with {A} (reason : EvidenceUncertainty) (message : string) : op A :=
  _ ← modify (fun s => set_uncertain
        (if bool_decide (reason ∈ uncertain s) then uncertain s else uncertain s ++ [reason]) s);
  _ ← modify (set_sealed true);
  throws (lit message).

Definition increment (value : Z) : op Z :=
  _ ← when (value =? MAX_SAFE_INTEGER)%Z (fail_with counter_overflow "matched counter overflow");
  mret (value + 1)%Z.

(** [this.field = this.increment(this.field)] *)
Definition bump (get : tracker -> Z) (set : Z -> tracker -> tracker) : op unit :=
  value ← this get; value' ← increment value; modify (set value').

Definition requireOpen : op unit :=
  s ← this sealed; when s (fail_with protocol "evidence tracker already sealed").

Definition lookup {A} (table : list (ustring * A)) (k : ustring) : option A :=
  snd <$> find (fun e => bool_decide (k = e.1)) table.

Definition set_count (table : list (ustring * Z)) (k : ustring) (v : Z) : list (ustring * Z) :=
  map (fun e => if bool_decide (k = e.1) then (e.1, v) else e) table.

Definition bump_action (id : ustring) : op unit :=
  acts ← this actions;
  match lookup acts id with
  | Some count => count' ← increment count; modify (fun s => set_actions (set_count (actions s) id count') s)
  | None => mret tt
  end.

(** The loop over the pairs: those before the cursor are done. *)
Fixpoint bump_pairs (from : option ustring) (to : ustring) (done todo : list pair_count) : op unit :=
  match todo with
  | [] => mret tt
  | p :: todo' =>
      if bool_decide (Some (pc_from p) = from) && bool_decide (pc_to p = to) then
        count' ← increment (pc_count p);
        let p' := PairCount (pc_from p) (pc_to p) count' in
        _ ← modify (set_pairs (done ++ p' :: todo'));
        bump_pairs from to (done ++ [p']) todo'
      else bump_pairs from to (done ++ [p]) todo'
  end.

Definition commit_pending (p : label) : op unit :=
  _ ← modify (set_pending None);
  _ ← bump currentMatched set_currentMatched;
  if l_initial p then
    _ ← bump initialMatched set_initialMatched;
    modify (set_previous None)
  else
    _ ← bump transitionMatched set_transitionMatched;
    _ ← bump_action (l_id p);
    from ← this previous;
    prs ← this pairs;
    _ ← bump_pairs from (l_id p) [] prs;
    modify (set_previous (Some (l_id p))).

Definition commit : op unit :=
  p ← this pending;
  match p with None => mret tt | Some p => commit_pending p end.

(** [this.lengths[this.started - 1]], for a positive [started]. *)
Definition current_length (s : tracker) : option Z := lengths cfg !! Z.to_nat (started s - 1).

Definition finishTrace : op unit :=
  bad ← this (fun s => (started s =? 0)%Z || negb (bool_decide (current_length s = Some (currentMatched s))));
  _ ← when bad (fail_with protocol "trace does not match preflight state count");
  bump completed set_completed.

Definition begin_initial : op unit :=
  n ← this started;
  _ ← when (0 <? n)%Z finishTrace;
  full ← this (fun s => (started s =? Z.of_nat (length (lengths cfg)))%Z);
  _ ← when full (fail_with protocol "extra trace");
  _ ← modify (fun s => set_started (started s + 1)%Z s);
  _ ← modify (set_currentMatched 0);
  modify (set_previous None).

Definition begin_transition : op unit :=
  outside ← this (fun s => (started s =? 0)%Z ||
             match current_length s with Some n => (n <=? currentMatched s)%Z | None => false end);
  when outside (fail_with protocol "transition outside preflight trace bounds").

(** [expectedActions?.[started - 1]?.[currentMatched]] *)
Definition expected_action (s : tracker) : option ustring :=
  expected ← expectedActions cfg;
  trace ← expected !! Z.to_nat (started s - 1);
  trace !! Z.to_nat (currentMatched s).

Definition begin (initial : bool) (wireAction : ustring) : op unit :=
  _ ← requireOpen;
  busy ← this active;
  _ ← when (bool_decide (busy <> None)) (fail_with protocol "new action before observation was reported");
  match lookup (labels cfg) wireAction with
  | Some action =>
      _ ← when (negb (eqb (l_initial action) initial)) (fail_with mapping "unknown or wrong-phase action label");
      p ← this pending;
      _ ← when (strictAcknowledgements cfg && bool_decide (p <> None))
            (fail_with missing_ack "new action before step_ok");
      _ ← commit;
      _ ← (if initial then begin_initial else begin_transition);
      expected ← this expected_action;
      _ ← when (match expected with Some id => negb (bool_decide (id = l_id action)) | None => false end)
            (fail_with protocol "action disagrees with selected corpus occurrence");
      _ ← modify (set_entered true);
      modify (set_active (Some action))
  | None => fail_with mapping "unknown or wrong-phase action label"
  end.

Definition reported : op unit :=
  _ ← requireOpen;
  bad ← this (fun s => bool_decide (active s = None) || bool_decide (pending s <> None));
  _ ← when bad (fail_with protocol "unexpected report");
  _ ← bump reportedCount set_reportedCount;
  a ← this active;
  _ ← modify (set_pending a);
  modify (set_active None).

Definition acknowledge : op unit :=
  _ ← requireOpen;
  p ← this pending;
  _ ← when (bool_decide (p = None)) (fail_with protocol "acknowledgement without pending observation");
  commit.

Definition done_ : op unit :=
  _ ← requireOpen;
  a ← this active;
  _ ← when (bool_decide (a <> None)) (fail_with protocol "terminal before observation report");
  p ← this pending;
  _ ← when (strictAcknowledgements cfg && bool_decide (p <> None))
        (fail_with missing_ack "terminal before final step_ok");
  _ ← commit;
  _ ← finishTrace;
  short ← this (fun s => negb (started s =? Z.of_nat (length (lengths cfg)))%Z);
  _ ← when short (fail_with protocol "terminal before all selected traces");
  _ ← modify (set_complete true);
  modify (set_sealed true).

Definition interrupt (rejected : bool) : op unit :=
  s ← this sealed;
  if s : bool then mret tt
  else
    p ← this pending;
    _ ← when (rejected && bool_decide (p = None)) (fail_with protocol "rejection without pending observation");
    _ ← when (bool_decide (p <> None) && negb rejected)
          (modify (fun s => set_uncertain
             (if bool_decide (missing_ack ∈ uncertain s) then uncertain s else uncertain s ++ [missing_ack]) s));
    _ ← modify (set_pending None);
    _ ← modify (set_active None);
    modify (set_sealed true).

(** ** Snapshot *)

Record MatchedEvidence := MkEvidence {
  replayEntered : bool;
  corpusCompleted : bool;
  exact : bool;
  tracesSelected : Z;
  tracesStarted : Z;
  tracesCompleted : Z;
  initialStatesMatched : Z;
  transitionsMatched : Z;
  statesReported : Z;
  requiredActionCounts : list (ustring * Z);
  requiredPairCounts : list pair_count;
  uncertainty : list EvidenceUncertainty }.

Definition snapshot (s : tracker) : MatchedEvidence :=
  MkEvidence (entered s) (complete s) (bool_decide (uncertain s = []))
    (Z.of_nat (length (lengths cfg))) (started s) (completed s) (initialMatched s) (transitionMatched s)
    (reportedCount s) (actions s) (pairs s)
    (List.filter (fun reason => bool_decide (reason ∈ uncertain s)) uncertaintyOrder).
End tracker.
