(* ===== verification/EvidenceFacts.v ===== *)
(** * Matched evidence counts what was matched

    The tracker of [MatchedEvidence] against its specification: a log of the
    started traces, each the IDs of its matched observations in order, from which
    every counter can be recomputed. *)

From S2P Require Import Prelude JsNumber Utf16 JsData Decode ModelTypes Canonical Descriptor Digest MatchedEvidence.

(** ** The specification *)

Inductive observation_event := EBegin (initial : bool) (wireAction : ustring) | EReported | EAcknowledge.

Record replay_log := ReplayLog {
  traces : list (list ustring);
  observing : option label;
  unacknowledged : option label }.

(** The observation counts in the trace started last. *)
Definition match_in (ts : list (list ustring)) (p : option label) : list (list ustring) :=
  match p, last ts with
  | Some l, Some t => removelast ts ++ [t ++ [l_id l]]
  | _, _ => ts
  end.

Definition log_commit (g : replay_log) : replay_log :=
  ReplayLog (match_in (traces g) (unacknowledged g)) (observing g) None.

Section spec.
Context (cfg : evidence_config).

Definition log_step (g : replay_log) (e : observation_event) : replay_log :=
  match e with
  | EBegin initial wireAction =>
      let g := log_commit g in
      ReplayLog (if initial then traces g ++ [[]] else traces g) (lookup (labels cfg) wireAction) None
  | EReported => ReplayLog (traces g) None (observing g)
  | EAcknowledge => log_commit g
  end.

Definition log_of (es : list observation_event) : replay_log := foldl log_step (ReplayLog [] None None) es.

(** The counters of a log. *)
Definition transitions (ts : list (list ustring)) : list ustring := concat (map tail ts).
Definition adjacent {A} (l : list A) : list (A * A) := zip l (tail l).
Definition consecutive (ts : list (list ustring)) : list (ustring * ustring) :=
  concat (map (fun t => adjacent (tail t)) ts).
Definition count {A} `{EqDecision A} (x : A) (l : list A) : Z :=
  Z.of_nat (length (List.filter (fun y => bool_decide (x = y)) l)).
Arguments count : simpl never.
Definition nonempty {A} (t : list A) : bool := match t with [] => false | _ => true end.
Definition current_trace (ts : list (list ustring)) : list ustring := default [] (last ts).

Record tallied (ts : list (list ustring)) (s : tracker) : Prop := Tallied {
  ta_started : started s = Z.of_nat (length ts);
  ta_current : currentMatched s = Z.of_nat (length (current_trace ts));
  ta_initial : initialMatched s = Z.of_nat (length (List.filter nonempty ts));
  ta_transitions : transitionMatched s = Z.of_nat (length (transitions ts));
  ta_actions : Forall (fun e => e.2 = count e.1 (transitions ts)) (actions s);
  ta_pairs : Forall (fun p => pc_count p = count (pc_from p, pc_to p) (consecutive ts)) (pairs s);
  ta_previous : previous s = last (tail (current_trace ts)) }.
End spec.

(** *** Lists *)

Lemma tail_snoc {A} (l : list A) x : tail (l ++ [x]) = if nonempty l then tail l ++ [x] else [].
Proof. by destruct l. Qed.

Lemma adjacent_snoc {A} (l : list A) x :
  adjacent (l ++ [x]) = adjacent l ++ match last l with Some y => [(y, x)] | None => [] end.
Proof.
  unfold adjacent. induction l as [|a l IH]; [done|]. destruct l as [|b l]; [done|].
  change (last (a :: b :: l)) with (last (b :: l)).
  change (zip ((a :: b :: l) ++ [x]) (tail ((a :: b :: l) ++ [x])))
    with ((a, b) :: zip ((b :: l) ++ [x]) (tail ((b :: l) ++ [x]))).
  by rewrite IH.
Qed.

Lemma count_app {A} `{EqDecision A} (x : A) l k : count x (l ++ k) = (count x l + count x k)%Z.
Proof. unfold count. rewrite List.filter_app, length_app. lia. Qed.

Lemma count_one {A} `{EqDecision A} (x y : A) : count x [y] = if bool_decide (x = y) then 1%Z else 0%Z.
Proof. unfold count. cbn. by case_bool_decide. Qed.

Lemma map_snoc {A B} (f : A -> B) l x : map f (l ++ [x]) = map f l ++ [f x].
Proof. apply map_app. Qed.

Lemma concat_snoc {A} (l : list (list A)) x : concat (l ++ [x]) = concat l ++ x.
Proof. rewrite concat_app. cbn. by rewrite app_nil_r. Qed.

Lemma removelast_snoc {A} (l : list A) x : removelast (l ++ [x]) = l.
Proof. by rewrite removelast_last. Qed.

(** ** Methods as functions *)

Section facts.
Context (cfg : evidence_config).

Definition overflowed (s0 s : tracker) : Prop :=
  sealed s = true /\ counter_overflow ∈ uncertain s /\ complete s = complete s0.

Definition failed (reason : EvidenceUncertainty) (s0 s : tracker) : Prop :=
  s = set_sealed true (set_uncertain
    (if bool_decide (reason ∈ uncertain s0) then uncertain s0 else uncertain s0 ++ [reason]) s0).

Lemma fail_failed {A} reason message (s0 : tracker) :
  triple (eq s0) (fail_with reason message : op A) (fun _ _ => False) (fun _ => failed reason s0).
Proof. intros s <-. done. Qed.

Lemma failed_reason reason s0 s : failed reason s0 s ->
  sealed s = true /\ reason ∈ uncertain s /\ complete s = complete s0.
Proof.
  intros ->. cbn. split_and!; [done| |done]. case_bool_decide; [done|]. apply elem_of_app. right. by left.
Qed.

Lemma increment_spec value s0 :
  triple (eq s0) (increment value) (fun v s => v = (value + 1)%Z /\ s = s0) (fun _ => overflowed s0).
Proof.
  intros s <-. unfold increment. destruct (value =? MAX_SAFE_INTEGER)%Z; [|done].
  cbn [when]. unfold mbind, method_mbind. pose proof (fail_failed (A := unit) counter_overflow
    "matched counter overflow" s0 s0 eq_refl) as H.
  destruct (fail_with _ _ s0) as [[[]|e] s]; [done|]. by eapply failed_reason.
Qed.

Lemma bump_spec get set s0 :
  triple (eq s0) (bump get set) (fun _ s => s = set (get s0 + 1)%Z s0) (fun _ => overflowed s0).
Proof.
  intros s <-. unfold bump, this, mbind, method_mbind.
  pose proof (increment_spec (get s0) s0 s0 eq_refl) as H.
  destruct (increment (get s0) s0) as [[v|e] s']; [|done]. by destruct H as [-> ->].
Qed.

Definition incremented (id : ustring) (table : list (ustring * Z)) : list (ustring * Z) :=
  match lookup table id with Some n => set_count table id (n + 1) | None => table end.

Lemma set_actions_same s : set_actions (actions s) s = s.
Proof. by destruct s. Qed.
Lemma eta_completed s : set_completed (completed s) s = s.
Proof. by destruct s. Qed.
Lemma set_pairs_same s : set_pairs (pairs s) s = s.
Proof. by destruct s. Qed.

Lemma bump_action_spec id s0 :
  triple (eq s0) (bump_action id) (fun _ s => s = set_actions (incremented id (actions s0)) s0)
    (fun _ => overflowed s0).
Proof.
  intros s <-. unfold bump_action, incremented, this, mbind, method_mbind.
  destruct (lookup (actions s0) id) as [n|]; [|by rewrite set_actions_same].
  pose proof (increment_spec n s0 s0 eq_refl) as H.
  destruct (increment n s0) as [[v|e] s']; [|done]. by destruct H as [-> ->].
Qed.

Definition bumped (from : option ustring) (to : ustring) (p : pair_count) : pair_count :=
  if bool_decide (Some (pc_from p) = from) && bool_decide (pc_to p = to)
  then PairCount (pc_from p) (pc_to p) (pc_count p + 1) else p.

Lemma bump_pairs_spec from to todo : forall done s0,
  triple (fun s => s = set_pairs (done ++ todo) s0) (bump_pairs from to done todo)
    (fun _ s => s = set_pairs (done ++ map (bumped from to) todo) s0) (fun _ => overflowed s0).
Proof.
  induction todo as [|p todo IH]; intros done s0; cbn [bump_pairs map]; [by intros s ->|].
  unfold bumped at 1. destruct (_ && _).
  - intros s ->. pose proof (increment_spec (pc_count p) _ (set_pairs (done ++ p :: todo) s0) eq_refl) as H.
    unfold mbind, method_mbind. destruct (increment _ _) as [[v|e] s']; [|done]. destruct H as [-> ->].
    set (p' := PairCount _ _ _). specialize (IH (done ++ [p']) s0). rewrite <- !app_assoc in IH. by apply IH.
  - specialize (IH (done ++ [p]) s0). rewrite <- !app_assoc in IH. exact IH.
Qed.

(** The state after a commit. *)
Definition committed (p : label) (s : tracker) : tracker :=
  let s1 := set_currentMatched (currentMatched s + 1) (set_pending None s) in
  if l_initial p then set_previous None (set_initialMatched (initialMatched s + 1) s1)
  else set_previous (Some (l_id p))
         (set_pairs (map (bumped (previous s) (l_id p)) (pairs s))
           (set_actions (incremented (l_id p) (actions s))
             (set_transitionMatched (transitionMatched s + 1) s1))).

Lemma commit_pending_spec p s0 :
  triple (eq s0) (commit_pending p) (fun _ s => s = committed p s0) (fun _ => overflowed s0).
Proof.
  intros s <-. unfold commit_pending, modify, this, mbind, method_mbind.
  pose proof (bump_spec currentMatched set_currentMatched (set_pending None s0) _ eq_refl) as H1.
  destruct (bump currentMatched set_currentMatched (set_pending None s0)) as [[[]|e] s1]; [|done]. subst s1.
  unfold committed. destruct (l_initial p).
  - match goal with |- context [bump initialMatched set_initialMatched ?s] =>
      pose proof (bump_spec initialMatched set_initialMatched s _ eq_refl) as H2;
      destruct (bump initialMatched set_initialMatched s) as [[[]|e] s2]; [|done] end.
    by subst s2.
  - match goal with |- context [bump transitionMatched set_transitionMatched ?s] =>
      pose proof (bump_spec transitionMatched set_transitionMatched s _ eq_refl) as H2;
      destruct (bump transitionMatched set_transitionMatched s) as [[[]|e] s2]; [|done] end.
    subst s2.
    match goal with |- context [bump_action (l_id p) ?s] =>
      pose proof (bump_action_spec (l_id p) s _ eq_refl) as H3;
      destruct (bump_action (l_id p) s) as [[[]|e] s3]; [|done] end.
    subst s3.
    match goal with |- context [bump_pairs ?from (l_id p) [] ?todo ?s] =>
      pose proof (bump_pairs_spec from (l_id p) todo [] s s (eq_sym (set_pairs_same s))) as H4;
      destruct (bump_pairs from (l_id p) [] todo s) as [[[]|e] s4]; [|done] end.
    by subst s4.
Qed.

(** *** A commit counts one observation *)

Lemma transitions_snoc ts t : transitions (ts ++ [t]) = transitions ts ++ tail t.
Proof. unfold transitions. by rewrite map_snoc, concat_snoc. Qed.

Lemma consecutive_snoc ts t : consecutive (ts ++ [t]) = consecutive ts ++ adjacent (tail t).
Proof. unfold consecutive. by rewrite map_snoc, concat_snoc. Qed.

Lemma current_trace_snoc ts t : current_trace (ts ++ [t]) = t.
Proof. unfold current_trace. by rewrite last_snoc. Qed.

Lemma incremented_counts id table l :
  Forall (fun e => e.2 = count e.1 l) table -> Forall (fun e => e.2 = count e.1 (l ++ [id])) (incremented id table).
Proof.
  intros H. assert (forall n, lookup table id = Some n -> n = count id l) as Hl.
  { unfold lookup. intros n Hn. destruct (find _ table) as [[k m]|] eqn:E; [|done]. injection Hn as ->.
    apply find_some in E as [Hin Hk]. apply bool_decide_eq_true in Hk. cbn in Hk. subst k.
    rewrite Forall_forall in H. apply list_elem_of_In in Hin. by apply (H (id, n)). }
  assert (lookup table id = None -> forall e, e ∈ table -> id <> e.1) as Hn.
  { unfold lookup. intros Hf e He Heq. destruct (find _ table) eqn:E; [done|].
    apply list_elem_of_In in He. pose proof (find_none _ _ E e He) as Hx.
    by apply bool_decide_eq_false in Hx. }
  unfold incremented. destruct (lookup table id) as [n|] eqn:E.
  - unfold set_count. apply Forall_map. eapply Forall_impl; [exact H|]. intros [k m] Hm. cbn in *.
    rewrite (Hl n eq_refl). case_bool_decide as Hk; cbn; rewrite count_app, count_one.
    + subst. rewrite bool_decide_eq_true_2 by done. done.
    + rewrite bool_decide_eq_false_2 by done. lia.
  - apply Forall_forall. intros e He. rewrite Forall_forall in H. rewrite count_app, count_one.
    rewrite bool_decide_eq_false_2 by (intros Hx; by apply (Hn eq_refl e He)). rewrite (H e He). lia.
Qed.

Lemma bumped_counts from id prs l :
  Forall (fun p => pc_count p = count (pc_from p, pc_to p) l) prs ->
  Forall (fun p => pc_count p = count (pc_from p, pc_to p) (l ++ match from with Some f => [(f, id)] | None => [] end))
    (map (bumped from id) prs).
Proof.
  intros H. apply Forall_map. eapply Forall_impl; [exact H|]. intros p Hp. cbn beta in Hp. unfold bumped.
  rewrite count_app. destruct from as [f|].
  - destruct (bool_decide (Some (pc_from p) = Some f)) eqn:E1, (bool_decide (pc_to p = id)) eqn:E2; cbn;
      rewrite count_one; try apply bool_decide_eq_true in E1; try apply bool_decide_eq_true in E2;
      try apply bool_decide_eq_false in E1; try apply bool_decide_eq_false in E2.
    + rewrite bool_decide_eq_true_2 by congruence. lia.
    + rewrite bool_decide_eq_false_2 by congruence. lia.
    + rewrite bool_decide_eq_false_2 by congruence. lia.
    + rewrite bool_decide_eq_false_2 by congruence. lia.
  - rewrite bool_decide_eq_false_2 by done. cbn. unfold count at 2. cbn. lia.
Qed.

Lemma tallied_commit ts t p s :
  tallied (ts ++ [t]) s -> l_initial p = negb (nonempty t) ->
  tallied (ts ++ [t ++ [l_id p]]) (committed p s).
Proof.
  intros [H1 H2 H3 H4 H5 H6 H7] Hp. rewrite current_trace_snoc in *.
  rewrite transitions_snoc, consecutive_snoc, List.filter_app in *.
  unfold committed. rewrite Hp. destruct t as [|a t]; cbn [nonempty negb].
  - split; cbn; rewrite ?current_trace_snoc, ?transitions_snoc, ?consecutive_snoc, ?List.filter_app; try done.
    + rewrite H1, !length_app. cbn. lia.
    + rewrite H2. cbn. lia.
    + rewrite H3, !length_app. cbn. lia.
  - assert (tail ((a :: t) ++ [l_id p]) = t ++ [l_id p]) as Ht by done.
    split; cbn [started currentMatched initialMatched transitionMatched actions pairs previous
      set_previous set_pairs set_actions set_transitionMatched set_currentMatched set_pending];
      rewrite ?current_trace_snoc, ?transitions_snoc, ?consecutive_snoc, ?List.filter_app, ?Ht.
    + rewrite H1, !length_app. cbn. lia.
    + rewrite H2, length_app. cbn. lia.
    + rewrite H3, !length_app. cbn. lia.
    + rewrite H4, !length_app. cbn. lia.
    + rewrite app_assoc. by apply incremented_counts.
    + rewrite adjacent_snoc, app_assoc, H7. by apply bumped_counts.
    + by rewrite last_snoc.
Qed.

(** ** The tracker tracks the log *)

Definition lens (ts : list (list ustring)) : list Z := map (fun t => Z.of_nat (length t)) ts.
Definition matched (ts : list (list ustring)) : Z := Z.of_nat (length (concat ts)).

Record tracks (g : replay_log) (s : tracker) : Prop := Tracks {
  tr_tally : tallied (traces g) s;
  tr_active : active s = observing g;
  tr_pending : pending s = unacknowledged g;
  tr_one : observing g = None \/ unacknowledged g = None;
  tr_phase : forall l, observing g = Some l \/ unacknowledged g = Some l ->
    exists ts t, traces g = ts ++ [t] /\ l_initial l = negb (nonempty t);
  tr_rest : observing g = None -> unacknowledged g = None ->
    forall ts t, traces g = ts ++ [t] -> t <> [];
  tr_bound : (length (traces g) <= length (lengths cfg))%nat;
  tr_done : forall ts t, traces g = ts ++ [t] -> lens ts = take (length ts) (lengths cfg);
  tr_completed : completed s = Z.of_nat (length (traces g) - 1);
  tr_reported : reportedCount s = (matched (traces g) + match unacknowledged g with Some _ => 1 | None => 0 end)%Z;
  tr_open : sealed s = false /\ complete s = false /\ uncertain s = [] }.

(** What is left after an error: no exact evidence any more. *)
Definition dead (s : tracker) : Prop := sealed s = true /\ complete s = false /\ uncertain s <> [].

Lemma failed_dead {A} reason message s : complete s = false ->
  triple (eq s) (fail_with reason message : op A) (fun _ _ => False) (fun _ => dead).
Proof.
  intros Hc s0 <-. pose proof (failed_reason _ _ _ (fail_failed (A := A) reason message s s eq_refl)) as H.
  destruct (fail_with reason message s) as [[a|e] s'] eqn:E; [by injection E|].
  injection E as _ <-. destruct H as (H1 & H2 & H3).
  split_and!; [done|by rewrite H3|]. intros Hu. rewrite Hu in H2. by apply elem_of_nil in H2.
Qed.

Lemma overflowed_dead s0 s : complete s0 = false -> overflowed s0 s -> dead s.
Proof.
  intros Hc (H1 & H2 & H3). split_and!; [done|by rewrite H3|]. intros Hu. rewrite Hu in H2.
  by apply elem_of_nil in H2.
Qed.

Lemma last_split {A} (l : list A) : l = [] \/ exists k x, l = k ++ [x].
Proof. destruct l as [|x k _] using rev_ind; [by left|right; by exists k, x]. Qed.

(** Reading the methods: a guard that fails ends in [dead]; the others go on with
    the same state. *)
Lemma guard {B} s (b : bool) reason message (k : op B) Q :
  complete s = false -> (b = false -> triple (eq s) k Q (fun _ => dead)) ->
  triple (eq s) (_ ← when b (fail_with reason message); k) Q (fun _ => dead).
Proof.
  intros Hc Hk s0 <-. unfold mbind, method_mbind. destruct b; cbn [when]; [|by apply Hk].
  pose proof (failed_dead (A := unit) reason message s Hc s eq_refl) as H.
  destruct (fail_with reason message s) as [[[]|e] s']; done.
Qed.

Lemma guard_dead {B} g s (b : bool) reason message (k : op B) Q :
  tracks g s -> (b = false -> triple (eq s) k Q (fun _ => dead)) ->
  triple (eq s) (_ ← when b (fail_with reason message); k) Q (fun _ => dead).
Proof. intros Hg. apply guard. apply Hg. Qed.

Lemma when_bind {B} s (b : bool) (m : op unit) (k : op B) Q (M : tracker -> Prop) :
  (b = true -> triple (eq s) m (fun _ => M) (fun _ => dead)) -> (b = false -> M s) ->
  (forall s', M s' -> triple (eq s') k Q (fun _ => dead)) ->
  triple (eq s) (_ ← when b m; k) Q (fun _ => dead).
Proof.
  intros Hm Hn Hk s0 <-. unfold mbind, method_mbind. destruct b; cbn [when].
  - specialize (Hm eq_refl s eq_refl). destruct (m s) as [[[]|e] s']; [|done].
    exact (Hk s' Hm s' eq_refl).
  - cbn. exact (Hk s (Hn eq_refl) s eq_refl).
Qed.

Lemma this_bind {A B} (f : tracker -> A) s (k : A -> op B) Q R :
  triple (eq s) (k (f s)) Q R -> triple (eq s) (x ← this f; k x) Q R.
Proof. intros Hk s0 <-. by apply Hk. Qed.

Lemma modify_bind {B} (f : tracker -> tracker) s (k : op B) Q R :
  triple (eq (f s)) k Q R -> triple (eq s) (_ ← modify f; k) Q R.
Proof. intros Hk s0 <-. by apply Hk. Qed.

Lemma open_bind {B} g s (k : op B) Q : tracks g s -> triple (eq s) k Q (fun _ => dead) ->
  triple (eq s) (_ ← requireOpen; k) Q (fun _ => dead).
Proof.
  intros Hg Hk s0 <-. unfold requireOpen, this, mbind, method_mbind.
  destruct (tr_open _ _ Hg) as (-> & _ & _). by apply Hk.
Qed.

Lemma bump_bind {B} get set s (k : op B) Q : complete s = false ->
  triple (eq (set (get s + 1)%Z s)) k Q (fun _ => dead) ->
  triple (eq s) (_ ← bump get set; k) Q (fun _ => dead).
Proof.
  intros Hc Hk s0 <-. unfold mbind, method_mbind. pose proof (bump_spec get set s s eq_refl) as H.
  destruct (bump get set s) as [[[]|e] s']; [subst s'; by apply Hk|by eapply overflowed_dead].
Qed.

(** *** commit *)

Lemma committed_fields p s :
  active (committed p s) = active s /\ pending (committed p s) = None /\
  completed (committed p s) = completed s /\ reportedCount (committed p s) = reportedCount s /\
  sealed (committed p s) = sealed s /\ complete (committed p s) = complete s /\
  uncertain (committed p s) = uncertain s.
Proof. unfold committed. by destruct (l_initial p). Qed.

Lemma concat_length_snoc ts t : matched (ts ++ [t]) = (matched ts + Z.of_nat (length t))%Z.
Proof. unfold matched. rewrite concat_snoc, length_app. lia. Qed.

Lemma commit_tracks g s : tracks g s -> observing g = None ->
  triple (eq s) commit (fun _ => tracks (log_commit g)) (fun _ => dead).
Proof.
  intros Hg Hobs s0 <-. unfold commit, this, mbind, method_mbind, log_commit.
  rewrite (tr_pending _ _ Hg). destruct (unacknowledged g) as [p|] eqn:Hp.
  2: { cbn. destruct g as [ts ob un]; cbn in *. by subst. }
  pose proof (commit_pending_spec p s s eq_refl) as H.
  destruct (commit_pending p s) as [[[]|e] s']; [subst s'|by eapply overflowed_dead; [apply Hg|]].
  destruct Hg as [Ht Ha Hpe Hone Hph Hre Hb Hd Hc Hr Ho].
  destruct (Hph p (or_intror Hp)) as (ts & t & Hts & Hini).
  destruct (committed_fields p s) as (E1 & E2 & E3 & E4 & E5 & E6 & E7).
  unfold match_in. rewrite Hts, last_snoc, removelast_snoc in *.
  assert (length (ts ++ [t ++ [l_id p]]) = length (ts ++ [t])) as Hlen by (by rewrite !length_app).
  split; cbn [traces observing unacknowledged].
  - by apply tallied_commit.
  - by rewrite E1.
  - done.
  - by right.
  - intros l [Hl|Hl]; [|done]. congruence.
  - intros _ _ ts' t' [_ <-]%app_inj_tail. by destruct t.
  - by rewrite Hlen.
  - intros ts' t' [<- _]%app_inj_tail. by apply (Hd ts t).
  - by rewrite E3, Hlen.
  - rewrite E4, Hr, Hp, !concat_length_snoc, length_app. cbn. lia.
  - by rewrite E5, E6, E7.
Qed.

Lemma commit_bind {B} g s (k : op B) Q : tracks g s -> observing g = None ->
  (forall s', tracks (log_commit g) s' -> triple (eq s') k Q (fun _ => dead)) ->
  triple (eq s) (_ ← commit; k) Q (fun _ => dead).
Proof.
  intros Hg Ho Hk s0 <-. unfold mbind, method_mbind. pose proof (commit_tracks g s Hg Ho s eq_refl) as H.
  destruct (commit s) as [[[]|e] s']; [exact (Hk s' H s' eq_refl)|done].
Qed.

(** *** The observations *)

Lemma acknowledge_tracks g s : tracks g s ->
  triple (eq s) acknowledge (fun _ s' => unacknowledged g <> None /\ tracks (log_step cfg g EAcknowledge) s')
    (fun _ => dead).
Proof.
  intros Hg. unfold acknowledge. apply (open_bind g); [done|]. apply this_bind.
  apply (guard_dead g); [done|]. rewrite (tr_pending _ _ Hg). intros Hp%bool_decide_eq_false.
  assert (observing g = None) as Ho by (destruct (tr_one _ _ Hg) as [?|?]; [done|congruence]).
  intros s0 Hs0. pose proof (commit_tracks g s Hg Ho s0 Hs0) as H.
  destruct (commit s0) as [[[]|e] s']; done.
Qed.

Lemma reported_tracks g s : tracks g s ->
  triple (eq s) reported (fun _ s' => tracks (log_step cfg g EReported) s') (fun _ => dead).
Proof.
  intros Hg. unfold reported. apply (open_bind g); [done|]. apply this_bind.
  apply (guard_dead g); [done|]. intros [Ha Hp]%orb_false_iff.
  rewrite (tr_active _ _ Hg) in Ha. rewrite (tr_pending _ _ Hg) in Hp.
  apply bool_decide_eq_false in Ha. assert (unacknowledged g = None) as Hun by (by destruct (unacknowledged g)).
  pose proof (tr_open _ _ Hg) as (Hs & Hc & Hu). apply bump_bind; [done|].
  apply this_bind, modify_bind. apply triple_modify. intros s' <-.
  destruct Hg as [Ht Hac Hpe Hone Hph Hre Hb Hd Hco Hr _]. destruct (observing g) as [l|] eqn:Hob; [|done].
  split; cbn; try done.
  - destruct Ht. by split.
  - congruence.
  - by left.
  - intros l' [?|Hl]; [done|]. apply Hph. left. congruence.
  - congruence.
  - rewrite Hr, Hun, Hob. lia.
Qed.

Lemma tallied_started g s : tallied (traces g) s -> started s = Z.of_nat (length (traces g)).
Proof. by destruct 1. Qed.

Lemma finishTrace_spec g s : tracks g s -> observing g = None -> unacknowledged g = None ->
  triple (eq s) (finishTrace cfg)
    (fun _ s' => s' = set_completed (Z.of_nat (length (traces g))) s /\
                 lens (traces g) = take (length (traces g)) (lengths cfg) /\ traces g <> [])
    (fun _ => dead).
Proof.
  intros Hg Ho Hu. unfold finishTrace. apply this_bind, (guard_dead g); [done|].
  intros [H0 Hlen]%orb_false_iff. apply negb_false_iff, bool_decide_eq_true in Hlen.
  destruct Hg as [Ht _ _ _ _ _ _ Hd Hco _ (_ & Hc & _)]. rewrite (ta_started _ _ Ht) in H0.
  destruct (last_split (traces g)) as [E|(ts & t & E)]; [rewrite E in H0; discriminate H0|].
  intros s0 <-. pose proof (bump_spec completed set_completed s s eq_refl) as H.
  destruct (bump completed set_completed s) as [[[]|e] s']; [subst s'|by eapply overflowed_dead].
  split_and!; [|rewrite E|rewrite E; by destruct ts].
  - f_equal. rewrite Hco, E, length_app. cbn. lia.
  - unfold lens. rewrite map_snoc. fold (lens ts). rewrite (Hd ts t E), length_app. cbn [length].
    rewrite Nat.add_1_r. unfold current_length in Hlen.
    rewrite (ta_started _ _ Ht), (ta_current _ _ Ht), E, current_trace_snoc in Hlen.
    rewrite length_app in Hlen. cbn [length] in Hlen.
    replace (Z.to_nat (Z.of_nat (length ts + 1) - 1)) with (length ts) in Hlen by lia.
    by rewrite (take_S_r _ _ (Z.of_nat (length t))).
Qed.

Lemma lens_length ts : length (lens ts) = length ts.
Proof. apply length_map. Qed.

Lemma concat_filter_nil (ts : list (list ustring)) : matched (ts ++ [[]]) = matched ts.
Proof. rewrite concat_length_snoc. cbn. lia. Qed.

Lemma tallied_new_trace ts s : tallied ts s ->
  tallied (ts ++ [[]]) (set_previous None (set_currentMatched 0 (set_started (started s + 1) s))).
Proof.
  intros [H1 H2 H3 H4 H5 H6 H7]. split; cbn; rewrite ?current_trace_snoc, ?transitions_snoc, ?consecutive_snoc,
    ?List.filter_app, ?length_app, ?app_nil_r; cbn; try done; try lia.
Qed.

(** A new trace, up to the action that opens it. *)
Definition set_observing (g : replay_log) (l : option label) : replay_log := ReplayLog (traces g) l (unacknowledged g).

Definition opens (initial : bool) (g : replay_log) (s' : tracker) : Prop :=
  forall a, l_initial a = initial ->
  tracks (ReplayLog (if initial then traces g ++ [[]] else traces g) (Some a) None)
    (set_active (Some a) (set_entered true s')) /\ complete s' = false.

Lemma begin_initial_tracks g s : tracks g s -> observing g = None -> unacknowledged g = None ->
  triple (eq s) (begin_initial cfg) (fun _ => opens true g) (fun _ => dead).
Proof.
  intros Hg Ho Hu. unfold begin_initial. apply this_bind.
  pose proof (tr_open _ _ Hg) as (Hsl & Hc & Hun).
  apply (when_bind _ _ _ _ _ (fun s' => s' = set_completed (Z.of_nat (length (traces g))) s /\
    lens (traces g) = take (length (traces g)) (lengths cfg))).
  - intros _. eapply triple_conseq; [by apply (finishTrace_spec g)|done| |done]. intros [] s' (? & ? & ?). done.
  - intros Hn. rewrite (ta_started _ _ (tr_tally _ _ Hg)) in Hn.
    destruct (traces g) eqn:E; [|cbn in Hn; lia]. split; [|done].
    rewrite <- (eta_completed s) at 1. f_equal. by rewrite (tr_completed _ _ Hg), E.
  - intros s' [-> Hl]. apply this_bind. apply guard; [done|]. intros Hfull.
    apply modify_bind, modify_bind. apply triple_modify. intros s' <- a Ha. split; [|done].
    destruct Hg as [Ht Hac Hpe Hone Hph Hre Hb Hd Hco Hr _].
    cbn in Hfull. rewrite (ta_started _ _ Ht) in Hfull.
    split; cbn [traces observing unacknowledged].
    + pose proof (tallied_new_trace _ _ Ht) as H. destruct H. by split.
    + done.
    + cbn. congruence.
    + by right.
    + intros l [[= <-]|?]; [|done]. exists (traces g), []. by rewrite Ha.
    + done.
    + rewrite length_app. cbn. lia.
    + intros ts t [<- <-]%app_inj_tail. done.
    + cbn. rewrite length_app. cbn. lia.
    + cbn. rewrite Hr, Hu, concat_filter_nil. done.
    + by split_and!.
Qed.

Lemma begin_transition_tracks g s : tracks g s -> observing g = None -> unacknowledged g = None ->
  triple (eq s) (begin_transition cfg) (fun _ => opens false g) (fun _ => dead).
Proof.
  intros Hg Ho Hu. unfold begin_transition. apply this_bind. intros s0 <-.
  pose proof (tr_open _ _ Hg) as (Hsl & Hc & Hun).
  destruct (_ || _) eqn:E; cbn [when].
  { pose proof (failed_dead (A := unit) protocol "transition outside preflight trace bounds" s Hc s eq_refl) as H.
    destruct (fail_with _ _ s) as [[[]|e] s']; done. }
  intros a Ha. split; [|done]. apply orb_false_iff in E as [E0 _].
  destruct Hg as [Ht Hac Hpe Hone Hph Hre Hb Hd Hco Hr _]. rewrite (ta_started _ _ Ht) in E0.
  destruct (last_split (traces g)) as [En|(ts & t & Et)]; [rewrite En in E0; discriminate E0|].
  split; cbn [traces observing unacknowledged].
  - destruct Ht. by split.
  - done.
  - cbn. congruence.
  - by right.
  - intros l [[= <-]|?]; [|done]. exists ts, t. split; [done|]. rewrite Ha. by destruct t; [destruct (Hre Ho Hu ts [] Et)|].
  - done.
  - done.
  - done.
  - done.
  - cbn. by rewrite Hr, Hu.
  - by split_and!.
Qed.

Lemma begin_tracks initial wire g s : tracks g s ->
  triple (eq s) (begin cfg initial wire)
    (fun _ s' => tracks (log_step cfg g (EBegin initial wire)) s' /\
                 (strictAcknowledgements cfg = true -> unacknowledged g = None))
    (fun _ => dead).
Proof.
  intros Hg. unfold begin. apply (open_bind g); [done|]. apply this_bind, (guard_dead g); [done|].
  rewrite (tr_active _ _ Hg). intros Ho%bool_decide_eq_false.
  assert (observing g = None) as Hob by (by destruct (observing g); [destruct Ho|]).
  destruct (lookup (labels cfg) wire) as [a|] eqn:Ea.
  2: { eapply triple_conseq; [apply failed_dead, Hg|done|done|done]. }
  apply (guard_dead g); [done|]. intros Hph%negb_false_iff%eqb_prop. apply this_bind, (guard_dead g); [done|].
  rewrite (tr_pending _ _ Hg). intros Hst.
  apply (commit_bind g); [done|done|]. intros s1 H1.
  assert (forall (m : op unit), triple (eq s1) m (fun _ => opens initial (log_commit g)) (fun _ => dead) ->
    triple (eq s1) (_ ← m; expected ← this (expected_action cfg);
      _ ← when (match expected with Some id => negb (bool_decide (id = l_id a)) | None => false end)
            (fail_with protocol "action disagrees with selected corpus occurrence");
      _ ← modify (set_entered true);
      modify (set_active (Some a)))
    (fun _ s' => tracks (log_step cfg g (EBegin initial wire)) s' /\
                 (strictAcknowledgements cfg = true -> unacknowledged g = None)) (fun _ => dead)) as Hrest.
  { intros m Hm s0 <-. specialize (Hm s1 eq_refl). unfold mbind at 1, method_mbind at 1.
    destruct (m s1) as [[[]|e] s2]; [|done]. destruct (Hm a Hph) as [Htr Hc].
    enough (triple (eq s2) (expected ← this (expected_action cfg);
      _ ← when (match expected with Some id => negb (bool_decide (id = l_id a)) | None => false end)
            (fail_with protocol "action disagrees with selected corpus occurrence");
      _ ← modify (set_entered true);
      modify (set_active (Some a)))
    (fun _ s' => tracks (log_step cfg g (EBegin initial wire)) s' /\
                 (strictAcknowledgements cfg = true -> unacknowledged g = None)) (fun _ => dead)) as HT
      by exact (HT s2 eq_refl).
    apply this_bind. apply guard; [done|]. intros _. apply modify_bind, triple_modify. intros s' <-. split.
    - cbn [log_step]. by rewrite Ea.
    - intros Hs. rewrite Hs in Hst. cbn in Hst. apply bool_decide_eq_false in Hst. by destruct (unacknowledged g); [destruct Hst|]. }
  destruct initial; apply Hrest; [by apply begin_initial_tracks|by apply begin_transition_tracks].
Qed.

(** *** The end of the replay *)

Record finished (g : replay_log) (s : tracker) : Prop := Finished {
  fi_tally : tallied (traces g) s;
  fi_lens : lens (traces g) = lengths cfg;
  fi_completed : completed s = Z.of_nat (length (traces g));
  fi_reported : reportedCount s = matched (traces g);
  fi_flags : sealed s = true /\ complete s = true /\ uncertain s = [] }.

Lemma done_tracks g s : tracks g s ->
  triple (eq s) (done_ cfg)
    (fun _ s' => finished (log_commit g) s' /\ (strictAcknowledgements cfg = true -> unacknowledged g = None))
    (fun _ => dead).
Proof.
  intros Hg. unfold done_. apply (open_bind g); [done|]. apply this_bind, (guard_dead g); [done|].
  rewrite (tr_active _ _ Hg). intros Ho%bool_decide_eq_false.
  assert (observing g = None) as Hob by (by destruct (observing g); [destruct Ho|]).
  apply this_bind, (guard_dead g); [done|]. rewrite (tr_pending _ _ Hg). intros Hst.
  apply (commit_bind g); [done|done|]. intros s1 H1. intros s0 <-. unfold mbind at 1, method_mbind at 1.
  pose proof (finishTrace_spec (log_commit g) s1 H1 Hob eq_refl s1 eq_refl) as H.
  destruct (finishTrace cfg s1) as [[[]|e] s2]; [|done]. destruct H as (-> & Hl & Hne).
  pose proof (tr_open _ _ H1) as (Hsl & Hc & Hun).
  set (s2 := set_completed _ s1).
  enough (triple (eq s2) (short ← this (fun s => negb (started s =? Z.of_nat (length (lengths cfg)))%Z);
      _ ← when short (fail_with protocol "terminal before all selected traces");
      _ ← modify (set_complete true);
      modify (set_sealed true)) (fun _ s' => finished (log_commit g) s' /\
        (strictAcknowledgements cfg = true -> unacknowledged g = None)) (fun _ => dead)) as HT
    by exact (HT s2 eq_refl).
  apply this_bind, guard; [done|]. intros Hst1%negb_false_iff%Z.eqb_eq. apply modify_bind, triple_modify.
  intros s' <-. destruct H1 as [Ht Hac Hpe Hone Hph Hre Hb Hd Hco Hr _].
  cbn in Hst1. rewrite (ta_started _ _ Ht) in Hst1. split.
  - split.
    + destruct Ht. by split.
    + rewrite Hl. apply take_ge. lia.
    + done.
    + cbn [reportedCount set_sealed set_complete set_completed s2]. rewrite Hr. cbn [unacknowledged log_commit]. lia.
    + done.
  - intros Hs. rewrite Hs in Hst. cbn in Hst. apply bool_decide_eq_false in Hst.
    by destruct (unacknowledged g); [destruct Hst|].
Qed.

(** An interrupted tracker keeps its counters and claims no completion. *)
Lemma interrupt_tracks rejected g s : tracks g s ->
  triple (eq s) (interrupt rejected)
    (fun _ s' => tallied (traces g) s' /\ sealed s' = true /\ complete s' = false) (fun _ => dead).
Proof.
  intros Hg. pose proof (tr_open _ _ Hg) as (Hsl & Hc & Hun). unfold interrupt. apply this_bind. rewrite Hsl.
  apply this_bind, (guard_dead g); [done|]. intros _. apply when_bind with
    (M := fun s' => tallied (traces g) s' /\ complete s' = false).
  - intros _. apply triple_modify. intros s' <-. split; [|done]. destruct (tr_tally _ _ Hg). by split.
  - intros _. split; [apply Hg|done].
  - intros s' [Ht Hc']. apply modify_bind, modify_bind, triple_modify. intros s2 <-.
    split_and!; [|done|done]. destruct Ht. by split.
Qed.

(** *** Any sequence of calls *)

Inductive tracker_op := Observe (e : observation_event) | Finish | Interrupt (rejected : bool).

Definition exec (o : tracker_op) : op unit :=
  match o with
  | Observe (EBegin initial wire) => begin cfg initial wire
  | Observe EReported => reported
  | Observe EAcknowledge => acknowledge
  | Finish => done_ cfg
  | Interrupt rejected => interrupt rejected
  end.

(** The caller may catch what a call throws and go on. *)
Fixpoint run_calls (s : tracker) (os : list tracker_op) : list bool * tracker :=
  match os with
  | [] => ([], s)
  | o :: os' =>
      let '(r, s1) := exec o s in
      let '(rs, s2) := run_calls s1 os' in
      (is_ok r :: rs, s2)
  end.

Definition is_interrupt (o : tracker_op) : bool := match o with Interrupt _ => true | _ => false end.

(** Nothing moves once the tracker is sealed; every call but [interrupt] throws
    and leaves the evidence inexact. *)
Lemma sealed_call o s : sealed s = true ->
  if is_interrupt o then exec o s = (Ok tt, s)
  else exists e, exec o s = (Err e, set_sealed true (set_uncertain
         (if bool_decide (protocol ∈ uncertain s) then uncertain s else uncertain s ++ [protocol]) s)).
Proof.
  intros Hs. assert (forall (k : op unit), exists e, (_ ← requireOpen; k) s = (Err e, set_sealed true (set_uncertain
         (if bool_decide (protocol ∈ uncertain s) then uncertain s else uncertain s ++ [protocol]) s))) as H.
  { intros k. unfold requireOpen, this, mbind, method_mbind. rewrite Hs. cbn. by eexists. }
  destruct o as [[initial wire| |]| |rejected]; cbn [is_interrupt exec]; try apply H.
  unfold interrupt, this, mbind, method_mbind. by rewrite Hs.
Qed.

Lemma sealed_run os : forall s, sealed s = true ->
  complete (run_calls s os).2 = complete s /\ (uncertain s <> [] -> uncertain (run_calls s os).2 <> []).
Proof.
  induction os as [|o os IH]; intros s Hs; [done|]. cbn [run_calls].
  pose proof (sealed_call o s Hs) as H. destruct (is_interrupt o).
  - rewrite H. specialize (IH s Hs). by destruct (run_calls s os).
  - destruct H as [e ->]. match goal with |- context [run_calls ?s' os] => specialize (IH s' eq_refl) end.
    destruct (run_calls _ os). destruct IH as [IH1 IH2]. split; [done|]. intros _. apply IH2. cbn.
    case_bool_decide as Hp; [|by intros [_ ?]%app_nil]. intros E. rewrite E in Hp. by apply elem_of_nil in Hp.
Qed.

Lemma finished_run os : forall s, sealed s = true -> uncertain (run_calls s os).2 = [] ->
  forallb is_interrupt os = true /\ Forall (fun r => r = true) (run_calls s os).1 /\ (run_calls s os).2 = s.
Proof.
  induction os as [|o os IH]; intros s Hs H; [done|]. cbn [run_calls forallb] in *.
  pose proof (sealed_call o s Hs) as Ho. destruct (is_interrupt o).
  - rewrite Ho in *. specialize (IH s Hs). destruct (run_calls s os) as [rs s2].
    destruct (IH H) as (H1 & H2 & H3). split_and!; [done|by constructor|done].
  - destruct Ho as [e Ho]. rewrite Ho in H. exfalso.
    match type of H with context [run_calls ?s' os] => pose proof (sealed_run os s' eq_refl) as [_ Hd];
      destruct (run_calls s' os) end. apply Hd; [|done]. cbn.
    case_bool_decide as Hp; [|by intros [_ ?]%app_nil]. intros E. rewrite E in Hp. by apply elem_of_nil in Hp.
Qed.

(** A successful observation follows the log; with strict acknowledgements it
    matches exactly when it is an acknowledgement. *)
Definition is_ack (e : observation_event) : bool := match e with EAcknowledge => true | _ => false end.

Lemma match_in_one ts l t k : ts = k ++ [t] -> matched (match_in ts (Some l)) = (matched ts + 1)%Z.
Proof.
  intros ->. unfold match_in. rewrite last_snoc, removelast_snoc, !concat_length_snoc, length_app. cbn. lia.
Qed.

Lemma observe_tracks e g s : tracks g s ->
  triple (eq s) (exec (Observe e))
    (fun _ s' => tracks (log_step cfg g e) s' /\
      (strictAcknowledgements cfg = true ->
       matched (traces (log_step cfg g e)) = matched (traces g) + if is_ack e then 1 else 0)%Z)
    (fun _ => dead).
Proof.
  intros Hg. destruct e as [initial wire| |]; cbn [exec is_ack].
  - eapply triple_conseq; [by apply begin_tracks|done| |done]. intros [] s' [Ht Hst]. split; [done|].
    intros Hs. cbn [log_step traces]. unfold log_commit. rewrite (Hst Hs). cbn [match_in traces].
    destruct initial; [|lia]. rewrite concat_filter_nil. lia.
  - eapply triple_conseq; [by apply reported_tracks|done| |done]. intros [] s' Ht. split; [done|].
    intros _. cbn [log_step traces]. lia.
  - eapply triple_conseq; [by apply acknowledge_tracks|done| |done]. intros [] s' [Hne Ht]. split; [done|].
    intros _. cbn [log_step]. unfold log_commit. cbn [traces]. destruct (unacknowledged g) as [l|] eqn:Hu; [|done].
    destruct (tr_phase _ _ Hg l (or_intror Hu)) as (k & t & Hk & _). by eapply match_in_one.
Qed.

Definition acks (es : list observation_event) : Z := Z.of_nat (length (List.filter is_ack es)).

(** What exact and complete evidence comes from. *)
Lemma exact_run os : forall g s, tracks g s ->
  complete (run_calls s os).2 = true -> uncertain (run_calls s os).2 = [] ->
  exists es k, os = map Observe es ++ Finish :: k /\ forallb is_interrupt k = true /\
    Forall (fun r => r = true) (run_calls s os).1 /\
    finished (log_commit (foldl (log_step cfg) g es)) (run_calls s os).2 /\
    (strictAcknowledgements cfg = true ->
     matched (traces (log_commit (foldl (log_step cfg) g es))) = (matched (traces g) + acks es)%Z).
Proof.
  induction os as [|o os IH]; intros g s Hg Hc Hu.
  { cbn in Hc. destruct (tr_open _ _ Hg) as (_ & Hc' & _). congruence. }
  cbn [run_calls] in *.
  assert (forall e s1, exec o s = (Err e, s1) -> dead s1 -> False) as Hdead.
  { intros e s1 He (Hs & Hc1 & _). rewrite He in Hc. pose proof (sealed_run os s1 Hs) as [H _].
    destruct (run_calls s1 os). cbn in *. congruence. }
  destruct o as [e| |rejected].
  - pose proof (observe_tracks e g s Hg s eq_refl) as He.
    destruct (exec (Observe e) s) as [[[]|x] s1]; [|by destruct (Hdead x s1)].
    destruct He as [Ht Hm]. specialize (IH _ s1 Ht). destruct (run_calls s1 os) as [rs s2]. cbn [fst snd] in *.
    destruct (IH Hc Hu) as (es & k & -> & Hk & Hrs & Hf & Hst). exists (e :: es), k.
    split_and!; [done|done|by constructor|done|]. intros Hs. cbn [foldl]. rewrite (Hst Hs), (Hm Hs).
    unfold acks. cbn [List.filter]. destruct (is_ack e); cbn [length]; lia.
  - pose proof (done_tracks g s Hg s eq_refl) as He. cbn [exec] in *.
    destruct (done_ cfg s) as [[[]|x] s1]; [|by destruct (Hdead x s1)].
    destruct He as [Hf Hst]. destruct (fi_flags _ _ Hf) as (Hs1 & _ & _).
    pose proof (finished_run os s1 Hs1) as Hr. destruct (run_calls s1 os) as [rs s2]. cbn [fst snd] in *.
    destruct (Hr Hu) as (Hk & Hrs & ->). exists [], os.
    split_and!; [done|done|by constructor|done|]. intros Hs. cbn [foldl]. unfold log_commit.
    rewrite (Hst Hs). unfold acks. cbn [match_in traces List.filter length]. lia.
  - pose proof (interrupt_tracks rejected g s Hg s eq_refl) as He. cbn [exec] in *.
    destruct (interrupt rejected s) as [[[]|x] s1]; [|by destruct (Hdead x s1)].
    destruct He as (_ & Hs & Hc1). pose proof (sealed_run os s1 Hs) as [H _].
    destruct (run_calls s1 os). cbn in *. congruence.
Qed.
End facts.

(** ** New trackers *)

Lemma required_actions_zero ids required acc acts :
  required_actions ids required acc = Ok acts -> Forall (fun e => e.2 = 0%Z) acc ->
  map fst acts = map fst acc ++ required /\ Forall (fun e => e.2 = 0%Z) acts.
Proof.
  revert acc. induction required as [|id required IH]; intros acc; cbn.
  - intros [= <-] H. by rewrite app_nil_r.
  - destruct (_ || _); [done|]. intros H Hacc. destruct (IH _ H) as [-> Hz].
    { apply Forall_app. split; [done|by repeat constructor]. }
    by rewrite map_app, <- app_assoc.
Qed.

Lemma required_pairs_zero ids required : forall keys prs,
  required_pairs ids required keys = Ok prs ->
  map (fun p => [pc_from p; pc_to p]) prs = required /\ Forall (fun p => pc_count p = 0%Z) prs.
Proof.
  induction required as [|pair required IH]; intros keys prs; cbn [required_pairs]; [by intros [= <-]|].
  destruct pair as [|from [|to [|? ?]]]; try done.
  destruct (_ || _); [done|]. case_bool_decide as Hk; [done|]. intros H.
  apply res_bind_Ok in H as (rest & Hr & [= <-]). destruct (IH _ _ Hr) as [<- Hz]. by split; [|constructor].
Qed.

Lemma valid_counts counts zs : mapM valid_count counts = Some zs -> Forall (fun z => (1 <= z)%Z) zs.
Proof.
  intros H. apply mapM_Some in H. induction H as [|n z counts zs Hn _ IH]; constructor; [|done].
  unfold valid_count in Hn. destruct (num_safe_Z n) as [z'|]; [|done].
  destruct (1 <=? z')%Z eqn:E; [|done]. injection Hn as <-. lia.
Qed.

Lemma fresh_tracks cfg acts prs :
  Forall (fun e => e.2 = 0%Z) acts -> Forall (fun p => pc_count p = 0%Z) prs ->
  tracks cfg (ReplayLog [] None None) (fresh acts prs).
Proof.
  intros Ha Hp. split; cbn; [by split|done..|by left|by intros l [?|?]| |lia| |done|done|done].
  - intros _ _ ts t H. by destruct ts.
  - intros ts t H. by destruct ts.
Qed.

Definition required_pair_list (prs : list pair_count) : list (list ustring) :=
  map (fun p => [pc_from p; pc_to p]) prs.

Lemma new_tracker_ok d ra rp counts strict exp cfg s :
  new_tracker d ra rp counts strict exp = Ok (cfg, s) ->
  tracks cfg (ReplayLog [] None None) s /\ Forall (fun z => (1 <= z)%Z) (lengths cfg) /\
  map fst (actions s) = ra /\ required_pair_list (pairs s) = rp /\ strictAcknowledgements cfg = strict /\
  exists parsed, decodeSemanticDescriptor d = Ok parsed /\
    action_table (sd_initializers parsed ++ sd_actions parsed) [] = Ok (labels cfg).
Proof.
  unfold new_tracker. destruct (decodeSemanticDescriptor d) as [parsed|e]; [|done]. intros H.
  apply res_bind_Ok in H as (zs & Hz & H). apply res_bind_Ok in H as (u & _ & H).
  apply res_bind_Ok in H as (acts & Ha & H). apply res_bind_Ok in H as (prs & Hp & H).
  apply res_bind_Ok in H as (table & Ht & [= <- <-]).
  destruct (_ || _); [done|]. destruct (mapM valid_count counts) as [zs'|] eqn:Ev; [|done]. injection Hz as ->.
  destruct (required_actions_zero _ _ _ _ Ha (ListDef.Forall_nil _)) as [Hk Haz].
  destruct (required_pairs_zero _ _ _ _ Hp) as [Hpk Hpz].
  split_and!; [by apply fresh_tracks|by eapply valid_counts|done|done|done|by exists parsed].
Qed.

Lemma lens_nonempty ts : Forall (fun z => (1 <= z)%Z) (lens ts) -> List.filter nonempty ts = ts.
Proof.
  induction ts as [|t ts IH]; cbn; [done|]. intros [Ht H]%Forall_cons.
  destruct t; cbn in *; [lia|]. by rewrite IH.
Qed.

(** ** Theorems *)

(** The counters a snapshot shows for the traces of a log. *)
Definition evidence_of (ts : list (list ustring)) (ev : MatchedEvidence) : Prop :=
  tracesStarted ev = Z.of_nat (length ts) /\
  initialStatesMatched ev = Z.of_nat (length (List.filter nonempty ts)) /\
  transitionsMatched ev = Z.of_nat (length (transitions ts)) /\
  Forall (fun e => e.2 = count e.1 (transitions ts)) (requiredActionCounts ev) /\
  Forall (fun p => pc_count p = count (pc_from p, pc_to p) (consecutive ts)) (requiredPairCounts ev).

Lemma tallied_evidence cfg ts s : tallied ts s -> evidence_of ts (snapshot cfg s).
Proof. by intros [H1 H2 H3 H4 H5 H6 H7]. Qed.

(** C35: exact and complete evidence is never produced by accident. If, after any
    calls on a new tracker (thrown errors being caught), the snapshot is exact and
    its corpus completed, then the calls were observations followed by one [done]
    and then only [interrupt]s, and none threw; the traces of the log those
    observations write have exactly the preflight state counts; the counters are
    those of the log: one initial state per trace, every transition and every
    consecutive pair as often as it was matched; and with strict acknowledgements
    there was one acknowledgement for each matched state. *)
Theorem exact_evidence_sound d ra rp counts strict exp cfg s0 os :
  new_tracker d ra rp counts strict exp = Ok (cfg, s0) ->
  let ev := snapshot cfg (run_calls cfg s0 os).2 in
  exact ev = true -> corpusCompleted ev = true ->
  exists es k, os = map Observe es ++ Finish :: k /\ forallb is_interrupt k = true /\
    Forall (fun r => r = true) (run_calls cfg s0 os).1 /\
    let ts := traces (log_commit (log_of cfg es)) in
    lens ts = lengths cfg /\ evidence_of ts ev /\
    tracesCompleted ev = tracesSelected ev /\ tracesStarted ev = tracesSelected ev /\
    initialStatesMatched ev = tracesSelected ev /\ statesReported ev = matched ts /\
    uncertainty ev = [] /\ (strict = true -> matched ts = acks es).
Proof.
  intros Hnew ev Hexact Hcomplete. subst ev.
  destruct (new_tracker_ok _ _ _ _ _ _ _ _ Hnew) as (Ht & Hpos & _ & _ & Hst & _).
  cbn [exact snapshot corpusCompleted] in Hexact, Hcomplete. apply bool_decide_eq_true in Hexact.
  destruct (exact_run cfg os _ _ Ht Hcomplete Hexact) as (es & k & Hos & Hk & Hrs & Hf & Hack).
  exists es, k. split_and!; [done|done|done|]. unfold log_of.
  set (ts := traces (log_commit _)) in *. destruct Hf as [Hta Hl Hc Hr (_ & _ & Hu)]. fold ts in Hta, Hl, Hc, Hr.
  assert (length ts = length (lengths cfg)) as Hlen by (rewrite <- Hl; unfold lens; by rewrite length_map).
  split_and!; [done|by apply tallied_evidence|..]; cbn.
  - by rewrite Hc, Hlen.
  - by rewrite (ta_started _ _ Hta), Hlen.
  - rewrite (ta_initial _ _ Hta), lens_nonempty, Hlen; [done|by rewrite Hl].
  - done.
  - by rewrite Hu.
  - intros Hs. rewrite <- Hst in Hs. by specialize (Hack Hs).
Qed.

Lemma observations_run cfg es : forall g s, tracks cfg g s ->
  Forall (fun r => r = true) (run_calls cfg s (map Observe es)).1 ->
  tracks cfg (foldl (log_step cfg) g es) (run_calls cfg s (map Observe es)).2.
Proof.
  induction es as [|e es IH]; intros g s Hg H; [done|]. cbn [map run_calls foldl] in *.
  pose proof (observe_tracks cfg e g s Hg s eq_refl) as He.
  destruct (exec cfg (Observe e) s) as [[[]|x] s1].
  - destruct He as [Ht _]. specialize (IH _ s1 Ht). destruct (run_calls cfg s1 (map Observe es)) as [rs s2].
    apply Forall_cons in H as [_ H]. by apply IH.
  - destruct (run_calls cfg s1 _). by apply Forall_cons in H as [H _].
Qed.

(** A replay that stops early leaves exact counts of what was matched so far:
    when the observations did not throw, the counters are those of the log they
    write (an observation reported but not acknowledged is not counted), and they
    stay so after an interruption, which never claims completion. *)
Theorem partial_evidence_counts d ra rp counts strict exp cfg s0 es rejected :
  new_tracker d ra rp counts strict exp = Ok (cfg, s0) ->
  Forall (fun r => r = true) (run_calls cfg s0 (map Observe es)).1 ->
  let s := (run_calls cfg s0 (map Observe es)).2 in
  evidence_of (traces (log_of cfg es)) (snapshot cfg s) /\
  (forall s', interrupt rejected s = (Ok tt, s') ->
     evidence_of (traces (log_of cfg es)) (snapshot cfg s') /\ corpusCompleted (snapshot cfg s') = false).
Proof.
  intros Hnew Hok. cbv zeta. destruct (new_tracker_ok _ _ _ _ _ _ _ _ Hnew) as (Ht & _).
  pose proof (observations_run cfg es _ _ Ht Hok) as Hg. split; [apply tallied_evidence, Hg|].
  intros s' Hi. pose proof (interrupt_tracks cfg rejected _ _ Hg _ eq_refl) as H. rewrite Hi in H.
  destruct H as (Hta & _ & Hc). split; [by apply tallied_evidence|done].
Qed.

(** Sealed evidence does not change: once a tracker is sealed, whatever is
    called, the snapshot keeps every counter and flag except exactness, which can
    only be lost, and every call but [interrupt] throws. *)
Theorem sealed_evidence_frozen cfg s os :
  sealed s = true ->
  let s' := (run_calls cfg s os).2 in
  (exists u, s' = set_uncertain u s /\ (uncertain s <> [] -> u <> [])) /\
  (run_calls cfg s os).1 = map is_interrupt os.
Proof.
  cbv zeta. revert s. induction os as [|o os IH]; intros s Hs.
  { split; [|done]. exists (uncertain s). split; [by destruct s|done]. }
  cbn [run_calls map]. pose proof (sealed_call cfg o s Hs) as H. destruct (is_interrupt o).
  - rewrite H. specialize (IH s Hs). destruct (run_calls cfg s os). cbn in *. destruct IH as [IH ->]. done.
  - destruct H as [e ->]. match goal with |- context [run_calls cfg ?s' os] => specialize (IH s' eq_refl) end.
    destruct (run_calls cfg _ os) as [rs s2]. cbn [fst snd is_ok] in *. destruct IH as [(u & -> & Hu) ->].
    split; [|done]. exists u. split; [by destruct s; cbn in *; subst|]. intros _. apply Hu. cbn.
    case_bool_decide as Hp; [|by intros [_ ?]%app_nil]. intros E. rewrite E in Hp. by apply elem_of_nil in Hp.
Qed.

(** ** Concrete replays *)

(** A replay of two traces over the actions of [sample_descriptor]: the first
    initializes, transfers and burns, the second only initializes. *)
Definition sample_trackers : res evidence_error (evidence_config * tracker) :=
  new_tracker (descriptor_js (sample_descriptor false)) [$"Transfer"; $"Burn"] [[$"Transfer"; $"Burn"]]
    [num_of_Z 3; num_of_Z 1] true None.

Definition sample_setup : evidence_config * tracker :=
  match sample_trackers with Ok p => p | Err _ => (EvidenceConfig [] [] false None, fresh [] []) end.

Definition observation (initial : bool) (wireAction : string) : list observation_event :=
  [EBegin initial (lit wireAction); EReported; EAcknowledge].

Definition sample_events : list observation_event :=
  observation true "init" ++ observation false "send" ++ observation false "burn" ++ observation true "init".

Definition sample_calls : list tracker_op := map Observe sample_events ++ [Finish; Interrupt false].

Lemma sample_setup_ok : sample_trackers = Ok (sample_setup.1, sample_setup.2).
Proof. vm_compute. reflexivity. Qed.

Example exact_evidence_sound_witness :
  let ev := snapshot sample_setup.1 (run_calls sample_setup.1 sample_setup.2 sample_calls).2 in
  exact ev = true /\ corpusCompleted ev = true /\
  exists es k, sample_calls = map Observe es ++ Finish :: k /\ forallb is_interrupt k = true /\
    Forall (fun r => r = true) (run_calls sample_setup.1 sample_setup.2 sample_calls).1 /\
    let ts := traces (log_commit (log_of sample_setup.1 es)) in
    lens ts = lengths sample_setup.1 /\ evidence_of ts ev /\
    tracesCompleted ev = tracesSelected ev /\ tracesStarted ev = tracesSelected ev /\
    initialStatesMatched ev = tracesSelected ev /\ statesReported ev = matched ts /\
    uncertainty ev = [] /\ (true = true -> matched ts = acks es).
Proof.
  cbv zeta. split; [vm_compute; reflexivity|]. split; [vm_compute; reflexivity|].
  apply (exact_evidence_sound _ _ _ _ _ _ _ _ sample_calls sample_setup_ok); vm_compute; reflexivity.
Defined.

Example partial_evidence_counts_witness :
  let es := take 7 sample_events in
  let s := (run_calls sample_setup.1 sample_setup.2 (map Observe es)).2 in
  evidence_of (traces (log_of sample_setup.1 es)) (snapshot sample_setup.1 s) /\
  (forall s', interrupt false s = (Ok tt, s') ->
     evidence_of (traces (log_of sample_setup.1 es)) (snapshot sample_setup.1 s') /\
     corpusCompleted (snapshot sample_setup.1 s') = false).
Proof.
  apply (partial_evidence_counts _ _ _ _ _ _ _ _ (take 7 sample_events) false sample_setup_ok).
  vm_compute. repeat constructor.
Defined.

Example sealed_evidence_frozen_witness :
  let s := (run_calls sample_setup.1 sample_setup.2 [Finish]).2 in
  let s' := (run_calls sample_setup.1 s sample_calls).2 in
  (exists u, s' = set_uncertain u s /\ (uncertain s <> [] -> u <> [])) /\
  (run_calls sample_setup.1 s sample_calls).1 = map is_interrupt sample_calls.
Proof.
  apply (sealed_evidence_frozen sample_setup.1 (run_calls sample_setup.1 sample_setup.2 [Finish]).2 sample_calls).
  vm_compute. reflexivity.
Defined.
