(* ===== verification/JsonText.v ===== *)
(** * JSON.stringify and JSON.parse

    The text [JSON.stringify] writes ([JsText.stringify]) is read back by
    [JSON.parse] ([StrictJson.JSON_parse]) to the value in its wire form:
    undefined properties dropped, undefined elements and non-finite numbers null.
    Two consequences: a client message arrives as the object that was encoded, and
    [JSON.stringify] of a pair of strings is an injective key. *)

From Stdlib Require Import SpecFloat.
From S2P Require Import Prelude JsNumber Utf16 JsData StrictJson JsText StrictJsonFacts StrictJsonRoundtrip ModelTypes Canonical Protocol ClientMessages Descriptor MatchedEvidence.

(** ** Strings *)

Lemma hex_value_digit d : (d < 16)%N -> hex_value (hex_digit d) = Some d.
Proof.
  intros H. unfold hex_value, hex_digit, is_digit.
  destruct (N.ltb_spec d 10) as [Hd|Hd].
  - assert ((48 <=? 48 + d)%N && (48 + d <=? 57)%N = true) as -> by lia. f_equal. lia.
  - assert ((48 <=? 87 + d)%N && (87 + d <=? 57)%N = false) as -> by lia.
    assert ((0x41 <=? 87 + d)%N && (87 + d <=? 0x46)%N = false) as -> by lia.
    assert ((0x61 <=? 87 + d)%N && (87 + d <=? 0x66)%N = true) as -> by lia.
    f_equal. lia.
Qed.

Lemma hex4_reads u off r :
  (u < 0x10000)%N -> exists off', hex4 (Pst off (hex4_of u ++ r)) = Ok (u, Pst off' r).
Proof.
  intros Hu. unfold hex4_of. cbn [map app]. unfold hex4. cbn [rest].
  rewrite !hex_value_digit; [|try (apply N.mod_lt; done)..].
  2:{ apply N.Div0.div_lt_upper_bound. lia. }
  eexists. unfold advance. cbn [rest drop]. do 3 f_equal.
  pose proof (N.div_mod u 16) as H0. pose proof (N.div_mod (u / 16) 16) as H1.
  pose proof (N.div_mod (u / 256) 16) as H2.
  rewrite N.Div0.div_div in H1. change (16 * 16)%N with 256%N in H1.
  rewrite N.Div0.div_div in H2. change (256 * 16)%N with 4096%N in H2. lia.
Qed.

Lemma loop_step_unicode u : (u < 0x10000)%N -> loop_step lenient ($"\u" ++ hex4_of u) [u].
Proof.
  intros Hu. apply loop_step_escape. intros off r. destruct (hex4_reads u (off + N.of_nat 1) r Hu) as [off' E].
  exists off'. unfold string_escape. cbn [peek rest head app]. cbn [N.eqb Pos.eqb].
  unfold unicodeEscape, advance. cbn [rest offset drop]. rewrite (run_bind _ _ _ _ _ E). done.
Qed.

Lemma loop_step_quote c :
  (exists u, c = [u] \/ exists l, c = [u; l] /\ is_high u /\ is_low l) -> js_string c ->
  loop_step lenient (quote_character c) c.
Proof.
  intros (u & [->|(l & -> & Hh & Hl)]) Hc.
  - apply Forall_inv in Hc. unfold quote_character.
    destruct (N.eqb_spec u 0x22) as [->|?]; [loop_step_escape|].
    destruct (N.eqb_spec u 0x5c) as [->|?]; [loop_step_escape|].
    destruct (N.eqb_spec u 0x08) as [->|?]; [loop_step_escape|].
    destruct (N.eqb_spec u 0x09) as [->|?]; [loop_step_escape|].
    destruct (N.eqb_spec u 0x0a) as [->|?]; [loop_step_escape|].
    destruct (N.eqb_spec u 0x0c) as [->|?]; [loop_step_escape|].
    destruct (N.eqb_spec u 0x0d) as [->|?]; [loop_step_escape|].
    destruct (N.ltb_spec u 0x20) as [?|?]; cbn [orb]; [by apply loop_step_unicode|].
    destruct (is_high u || is_low u); [by apply loop_step_unicode|]. by apply loop_step_raw.
  - apply Is_true_true in Hh, Hl. unfold is_high, is_low in *.
    apply (loop_step_app lenient [u] [u] [l] [l]); apply loop_step_raw; try done; lia.
Qed.

Lemma quote_quoted s : js_string s -> quoted lenient (quote_string s) s.
Proof.
  intros Hs. apply characters_quoted.
  eapply Forall_impl; [apply Forall_and; split; [apply characters_shape|by apply characters_js]|].
  intros c [Hc Hj]. by apply loop_step_quote.
Qed.

(** ** Values *)

Definition is_undef (v : js) : bool := match v with JUndef => true | _ => false end.

(** What is left of a value after [JSON.stringify]. *)
Fixpoint wire_form (v : js) : js :=
  match v with
  | JNum x => if num_is_finite x then JNum x else JNull
  | JArr l => JArr (map (fun x => if is_undef x then JNull else wire_form x) l)
  | JObj o => JObj (omap (fun kv => if is_undef kv.2 then None else Some (kv.1, wire_form kv.2)) o)
  | _ => v
  end.

(** The values whose text is determined: integers in the safe range and
    non-finite numbers, no bigint; names and strings are lists of units, and an
    object keeps the own-key order. *)
Inductive sendable : js -> Prop :=
| send_undef : sendable JUndef
| send_null : sendable JNull
| send_bool b : sendable (JBool b)
| send_num z : (Z.abs z <= MAX_SAFE_INTEGER)%Z -> sendable (JNum (num_of_Z z))
| send_nonfinite x : num_is_finite x = false -> sendable (JNum x)
| send_str s : js_string s -> sendable (JStr s)
| send_arr l : Forall sendable l -> sendable (JArr l)
| send_obj o : own_key_order o -> Forall (fun kv => js_string kv.1) o ->
    Forall (fun kv => sendable kv.2) o -> sendable (JObj o).

Lemma send_object o : own_key_orderb o = true -> Forall (fun kv => js_string kv.1) o -> Forall (fun kv => sendable kv.2) o ->
  sendable (JObj o).
Proof. intros H%own_key_orderb_ok. by apply send_obj. Qed.

Lemma own_key_order_omap (f : ustring * js -> option (ustring * js)) o :
  (forall kv kv', f kv = Some kv' -> kv'.1 = kv.1) -> own_key_order o -> own_key_order (omap f o).
Proof.
  intros Hf. induction o as [|[k v] o IH]; [done|]. cbn [own_key_order]. intros [Hk Ho].
  cbn. specialize (IH Ho). destruct (f (k, v)) as [[k' v']|] eqn:E; [|exact IH].
  apply Hf in E as E'. cbn in E'. subst k'. split; [|exact IH].
  apply Forall_forall. intros [k1 v1] (kv & Hin & Hkv)%list_elem_of_omap. rewrite Forall_forall in Hk.
  apply Hf in Hkv as ->. by apply (Hk kv).
Qed.

Section stringify.
Context (number_text : number -> ustring).

Lemma stringify_undef v : sendable v -> stringify number_text v = Ok None -> v = JUndef.
Proof.
  intros Hv H. destruct Hv; cbn [stringify] in H; try done; by apply res_bind_Ok in H as (? & _ & ?).
Qed.

(** A text does not start with white space or a closing bracket. *)
Definition value_start (t : ustring) : Prop :=
  exists c t', t = c :: t' /\ is_ws c = false /\ c <> 0x5d%N.

Lemma stringify_start v t : sendable v -> stringify number_text v = Ok (Some t) -> value_start t.
Proof.
  intros Hv H. destruct Hv as [| |b|z Hz|x Hx|s _|l _|o _ _ _]; cbn [stringify] in H; try discriminate H.
  - injection H as <-. by do 2 eexists.
  - injection H as <-. destruct b; by do 2 eexists.
  - rewrite num_of_Z_finite in H by done. unfold num_text in H. rewrite num_of_Z_exact in H by done.
    injection H as <-. destruct (dec_of_Z_head z) as (c & t & -> & Hc). exists c, t.
    unfold is_ws, is_digit in *. split_and!; [done|lia|lia].
  - rewrite Hx in H. injection H as <-. by do 2 eexists.
  - injection H as <-. by do 2 eexists.
  - apply res_bind_Ok in H as (items & _ & [= <-]). by do 2 eexists.
  - apply res_bind_Ok in H as (items & _ & [= <-]). by do 2 eexists.
Qed.

Lemma join_elem_length sep (ts : list ustring) t : t ∈ ts -> (length t <= length (join sep ts))%nat.
Proof.
  induction ts as [|x [|y ts] IH]; [by intros ?%not_elem_of_nil|by intros ->%list_elem_of_singleton|].
  change (join sep (x :: y :: ts)) with (x ++ sep ++ join sep (y :: ts)). rewrite !length_app.
  intros [->|H]%elem_of_cons; [lia|]. specialize (IH H). lia.
Qed.

Lemma bracketed_length (c : N) (t r : ustring) a : (length (c :: t ++ r) <= a)%nat -> (S (length t) <= a)%nat.
Proof. cbn [length]. rewrite length_app. lia. Qed.

Definition read_back (v : js) : Prop := forall t, stringify number_text v = Ok (Some t) ->
  forall a, (length t <= a)%nat -> reads (value_ lenient a) t (wire_form v).

Lemma items_read l items :
  Forall (fun x => sendable x) l -> Forall read_back l ->
  Forall2 (fun x t => default ($"null") <$> stringify number_text x = Ok t) l items ->
  forall a, Forall (fun t => length t <= a)%nat items ->
  Forall2 (reads (value_ lenient a)) items (map (fun x => if is_undef x then JNull else wire_form x) l) /\
  Forall value_start items.
Proof.
  intros Hs Hr Hi a. induction Hi as [|x t l items Hx _ IH]; intros Ha; [by split|].
  apply Forall_cons in Hs as [Hsx Hs]. apply Forall_cons in Hr as [Hrx Hr]. apply Forall_cons in Ha as [Hat Ha].
  destruct (IH Hs Hr Ha) as [H1 H2]. clear IH. apply fmap_Ok in Hx as ([t'|] & Ht & ->); cbn [default from_option id] in *.
  - assert (is_undef x = false) as Hu by (by destruct x). cbn [map]. rewrite Hu.
    split; constructor; [by apply Hrx|done|by eapply stringify_start|done].
  - apply stringify_undef in Ht as ->; [|done]. cbn [map is_undef].
    split; constructor; [apply value_null_reads|done|by do 2 eexists|done].
Qed.

Lemma members_of_read o items :
  Forall (fun kv => js_string kv.1) o -> Forall (fun kv => sendable kv.2) o -> Forall (fun kv => read_back kv.2) o ->
  Forall2 (fun kv t => option_map (fun t => quote_string kv.1 ++ $":" ++ t) <$> stringify number_text kv.2 = Ok t) o items ->
  forall a, Forall (fun t => length t <= a)%nat (omap id items) ->
  Forall2 (member_reads lenient (value_ lenient a)) (omap id items)
    (omap (fun kv => if is_undef kv.2 then None else Some (kv.1, wire_form kv.2)) o).
Proof.
  intros Hk Hs Hr Hi a. induction Hi as [|[k v] t o items Hx _ IH]; intros Ha; [constructor|].
  apply Forall_cons in Hs as [Hsx Hs]. apply Forall_cons in Hr as [Hrx Hr]. apply Forall_cons in Hk as [Hkx Hk].
  cbn [fst snd] in *. apply fmap_Ok in Hx as ([t'|] & Ht & ->); cbn [option_map] in *.
  - assert (is_undef v = false) as Hu by (by destruct v). cbn [omap list_omap id snd fst] in *. rewrite Hu.
    apply Forall_cons in Ha as [Hat Ha]. constructor; [|by apply IH].
    exists (quote_string k), t'. split; [done|]. split; [by apply quote_quoted|].
    apply Hrx; [done|]. rewrite !length_app in Hat. cbn [snd]. lia.
  - apply stringify_undef in Ht as ->; [|done]. cbn [omap list_omap id snd fst is_undef] in *. by apply IH.
Qed.

Lemma stringify_reads v : sendable v -> read_back v.
Proof.
  induction v as [| |b|x|z|s|l IH|o IH] using js_ind'; intros Hv t H a Ha; cbn [stringify] in H; try discriminate H;
    inversion Hv as [| | |z Hz|x' Hx|s' Hs|l' Hl|o' Hord Hk Ho]; subst; cbn [wire_form].
  - injection H as <-. apply value_null_reads.
  - injection H as <-. apply value_bool_reads.
  - rewrite num_of_Z_finite in * by done. unfold num_text in H. rewrite num_of_Z_exact in H by done.
    injection H as <-. by apply value_num_reads.
  - rewrite Hx in *. injection H as <-. apply value_null_reads.
  - injection H as <-. by apply value_str_reads, quote_quoted.
  - apply res_bind_Ok in H as (items & Hi & H). apply mapM_res_Ok in Hi.
    injection H as <-. assert (S (length (join ($",") items)) <= a)%nat as Hj by (apply bracketed_length in Ha; lia).
    clear Ha. destruct a as [|a]; [lia|].
    assert (Forall (fun t => length t <= a)%nat items) as Hit.
    { apply Forall_forall. intros t Ht. apply (join_elem_length ($",")) in Ht. lia. }
    destruct (items_read l items Hl) with (a := a) as [H1 H2]; [|done|done|].
    { rewrite Forall_forall in *. auto. }
    by apply value_arr_reads.
  - apply res_bind_Ok in H as (items & Hi & H). apply mapM_res_Ok in Hi.
    injection H as <-. assert (S (length (join ($",") (omap id items))) <= a)%nat as Hj by (apply bracketed_length in Ha; lia).
    clear Ha. destruct a as [|a]; [lia|].
    apply value_obj_reads.
    2:{ apply own_key_order_omap; [|done]. intros [k v] kv'. cbn. by destruct (is_undef v); [|intros [= <-]]. }
    apply members_of_read; try done.
    + rewrite Forall_forall in *. auto.
    + apply Forall_forall. intros t Ht. apply (join_elem_length ($",")) in Ht. lia.
Qed.

(** [JSON.parse(JSON.stringify(v))] *)
Lemma stringify_parse v t : sendable v -> stringify number_text v = Ok (Some t) -> JSON_parse t = Ok (wire_form v).
Proof.
  intros Hv Ht. unfold JSON_parse, parse_, parse_all.
  destruct (stringify_reads v Hv t Ht (MAX_MODEL_INTERFACE_JSON_DEPTH + length t)%nat ltac:(lia) 0%N [] I) as [off E].
  rewrite app_nil_r in E. rewrite (run_bind _ _ _ _ _ E), run_whitespace_nil, run_get. done.
Qed.

(** A client message arrives as it was encoded. For every message whose
    integers are safe, [encodeClientMessage] returns a text, and [JSON.parse] of
    that text is the message object itself, with each bigint as its marker object,
    the absent fields left out and non-finite numbers null: nothing is escaped
    wrongly, reordered or lost, for any strings, lone surrogates included. *)
Theorem client_message_roundtrip (msg : ClientMessage) :
  sendable (replace_bigints (message_object msg)) ->
  exists text, encodeClientMessage number_text msg = Ok text /\
    JSON_parse text = Ok (wire_form (replace_bigints (message_object msg))).
Proof.
  intros Hs. destruct (message_object_text number_text msg) as [text Ht]. exists text.
  unfold encodeClientMessage, encode_object. rewrite Ht. split; [done|]. by apply stringify_parse.
Qed.
End stringify.

(** ** Keys of pairs *)

Lemma pair_key_parse a b : js_string a -> js_string b -> JSON_parse (pair_key a b) = Ok (JArr [JStr a; JStr b]).
Proof.
  intros Ha Hb. apply (stringify_parse (fun _ => []) (JArr [JStr a; JStr b])).
  2:{ change (stringify _ _) with (Ok (E := exn) (Some ($"[" ++ (quote_string a ++ $"," ++ quote_string b) ++ $"]"))).
      unfold pair_key. by rewrite <- !app_assoc. }
  apply send_arr. constructor; [by constructor|]. constructor; [by constructor|constructor].
Qed.

Lemma pair_key_inj a b c d :
  js_string a -> js_string b -> js_string c -> js_string d -> pair_key a b = pair_key c d -> a = c /\ b = d.
Proof.
  intros Ha Hb Hc Hd E. pose proof (pair_key_parse a b Ha Hb) as H. rewrite E, pair_key_parse in H by done.
  by injection H as -> ->.
Qed.

(** ** A concrete message *)

Definition sample_message : ClientMessage :=
  ExploreAssumeState [($"x", VInt (-5)); ($"name", VStr [0x22; 0xd83d; 0x0a; 0xde00]%N)].

(** Decides [sendable] for values of strings and containers. *)
Fixpoint sendable_text (v : js) : bool :=
  let js_stringb (s : ustring) := forallb (fun c => c <? 0x10000)%N s in
  match v with
  | JUndef | JNull | JBool _ => true
  | JStr s => js_stringb s
  | JArr l => forallb sendable_text l
  | JObj o => own_key_orderb o && forallb (fun kv => js_stringb kv.1) o && forallb (fun kv => sendable_text kv.2) o
  | _ => false
  end.

Lemma js_stringb_ok s : forallb (fun c => c <? 0x10000)%N s = true -> js_string s.
Proof. intros H%Is_true_true%forallb_True. eapply Forall_impl; [exact H|]. cbn. intros c ?%Is_true_true. lia. Qed.

Lemma sendable_text_ok v : sendable_text v = true -> sendable v.
Proof.
  induction v as [| |b|x|z|s|l IH|o IH] using js_ind'; cbn [sendable_text]; intros H; try discriminate H.
  - constructor.
  - constructor.
  - constructor.
  - by apply send_str, js_stringb_ok.
  - apply send_arr. apply Is_true_true, forallb_True in H.
    eapply Forall_impl; [apply Forall_and; split; [exact IH|exact H]|]. cbn. intros x [Hx ?%Is_true_true]. auto.
  - apply andb_true_iff in H as [[H1 H2]%andb_true_iff H3]. apply Is_true_true, forallb_True in H2, H3.
    apply send_obj; [by apply own_key_orderb_ok| |].
    + eapply Forall_impl; [exact H2|]. cbn. intros kv ?%Is_true_true. by apply js_stringb_ok.
    + eapply Forall_impl; [apply Forall_and; split; [exact IH|exact H3]|]. cbn. intros x [Hx ?%Is_true_true]. auto.
Qed.

Example client_message_roundtrip_witness :
  exists text, encodeClientMessage (fun _ => $"0.5") sample_message = Ok text /\
    JSON_parse text = Ok (wire_form (replace_bigints (message_object sample_message))).
Proof. apply (client_message_roundtrip (fun _ => $"0.5")), sendable_text_ok. vm_compute. reflexivity. Defined.
