(* ===== verification/ReplayReport.v ===== *)
(** * Replay reports

    [src/src/replay-report.ts]: the aggregate counters of a replay
    ([ReplayRecorder]), the structured mismatch ([ReplayMismatchError]), the
    description of a failure, and the report of a completed replay.

    The values application code throws are opaque: what reading their [code], their
    [message] or their text gives are the parameters [foreign_code] and
    [foreign_message] ([None] when it throws). [structuredClone] and
    [Object.freeze] have no counterpart: nothing here is mutated afterwards. The
    clock is the argument [durationMs]. *)

From Stdlib Require Import SpecFloat.
From S2P Require Import Prelude JsNumber Utf16 JsData JsText Protocol ClientMessages.

(** ** Counters *)

(** [counter + 1] of a nonnegative integral number: 2^53 is its own successor. *)
Definition js_succ (z : Z) : Z := if (z =? 2 ^ 53)%Z then z else (z + 1)%Z.

Example js_succ_saturates :
  SFadd js_prec js_emax (num_of_Z (2 ^ 53)) (num_of_Z 1) = num_of_Z (js_succ (2 ^ 53)) /\
  SFadd js_prec js_emax (num_of_Z (2 ^ 53 - 1)) (num_of_Z 1) = num_of_Z (js_succ (2 ^ 53 - 1)).
Proof. split; vm_compute; reflexivity. Qed.

Definition ACTION_LIMIT : nat := 256.
Definition SEQUENCE_LIMIT : nat := 1024.

Record sequence_count := SequenceCount { sq_from : js; sq_to : js; sq_count : Z }.

Record recorder := Recorder {
  tracesStarted : Z;
  tracesCompleted : Z;
  statesReported : Z;
  statesMatched : Z;
  stepsCompleted : Z;
  stateIndex : Z;
  pending : bool;
  previousAction : js;
  droppedActionEvents : Z;
  droppedSequenceEvents : Z;
  actions : list (js * Z);
  sequences : list (ustring * sequence_count);
  interfaceDigest : option ustring }.

Definition new_recorder (digest : option ustring) : recorder :=
  Recorder 0 0 0 0 0 0 false JUndef 0 0 [] [] digest.

(** The equality of the keys of a [Map] (SameValueZero). Two objects are never the
    same: each is read from a message of its own. *)
Definition same_key (a b : js) : bool :=
  match a, b with
  | JUndef, JUndef | JNull, JNull => true
  | JBool x, JBool y => eqb x y
  | JNum x, JNum y => SFeqb x y || match x, y with S754_nan, S754_nan => true | _, _ => false end
  | JBig x, JBig y => (x =? y)%Z
  | JStr s, JStr t => bool_decide (s = t)
  | _, _ => false
  end.

(** [table.get(key)] and [table.set(key, value)]. *)
Section table.
Context {K V : Type} (same : K -> K -> bool).
Fixpoint table_get (t : list (K * V)) (k : K) : option V :=
  match t with [] => None | (k', v) :: t' => if same k k' then Some v else table_get t' k end.
Fixpoint table_set (t : list (K * V)) (k : K) (v : V) : list (K * V) :=
  match t with
  | [] => [(k, v)]
  | (k', v') :: t' => if same k k' then (k', v) :: t' else (k', v') :: table_set t' k v
  end.
End table.

Definition same_text (a b : ustring) : bool := bool_decide (a = b).

(** [get position()] *)
Definition position (r : recorder) : Z * Z := (tracesStarted r, stateIndex r).

Definition acknowledge (r : recorder) : recorder :=
  if pending r then
    Recorder (tracesStarted r) (tracesCompleted r) (statesReported r) (js_succ (statesMatched r))
      (if (0 <? stateIndex r)%Z then js_succ (stepsCompleted r) else stepsCompleted r)
      (stateIndex r) false (previousAction r) (droppedActionEvents r) (droppedSequenceEvents r)
      (actions r) (sequences r) (interfaceDigest r)
  else r.

Definition begin (initial : bool) (r : recorder) : recorder :=
  let r := acknowledge r in
  if initial then
    Recorder (js_succ (tracesStarted r))
      (if (0 <? tracesStarted r)%Z then js_succ (tracesCompleted r) else tracesCompleted r)
      (statesReported r) (statesMatched r) (stepsCompleted r) 0 (pending r) JUndef
      (droppedActionEvents r) (droppedSequenceEvents r) (actions r) (sequences r) (interfaceDigest r)
  else
    Recorder (tracesStarted r) (tracesCompleted r) (statesReported r) (statesMatched r) (stepsCompleted r)
      (js_succ (stateIndex r)) (pending r) (previousAction r)
      (droppedActionEvents r) (droppedSequenceEvents r) (actions r) (sequences r) (interfaceDigest r).

(** The table of a limited size, and the count of what it does not hold. *)
Definition bounded_set {K V} (same : K -> K -> bool) (limit : nat) (t : list (K * V)) (dropped : Z)
    (k : K) (v : option V -> V) : list (K * V) * Z :=
  let old := table_get same t k in
  if (match old with Some _ => true | None => false end) || (length t <? limit)%nat
  then (table_set same t k (v old), dropped)
  else (t, js_succ dropped).

Section text.
Context (number_text : number -> ustring).

(** [JSON.stringify([from, to])], the key of a sequence. *)
Definition sequence_key (from to : js) : res exn ustring :=
  default [] <$> stringify number_text (JArr [from; to]).

Definition count_sequence (r : recorder) (action : js) : res exn (list (ustring * sequence_count) * Z) :=
  match previousAction r with
  | JUndef => Ok (sequences r, droppedSequenceEvents r)
  | from =>
      key ← sequence_key from action;
      mret (bounded_set same_text SEQUENCE_LIMIT (sequences r) (droppedSequenceEvents r) key
        (fun old => SequenceCount from action (js_succ (from_option sq_count 0%Z old))))
  end.

Definition reported (action : js) (r : recorder) : res exn recorder :=
  let '(acts, dropped) := bounded_set same_key ACTION_LIMIT (actions r) (droppedActionEvents r) action
    (fun old => js_succ (default 0%Z old)) in
  seqs ← count_sequence r action;
  mret (Recorder (tracesStarted r) (tracesCompleted r) (js_succ (statesReported r)) (statesMatched r)
    (stepsCompleted r) (stateIndex r) true action dropped seqs.2 acts seqs.1 (interfaceDigest r)).

(** ** Mismatches *)

(** [Object.entries] of what a state field of a message holds; [None] for an entry
    that is no value. *)
Definition cell_entries (c : cell) : res exn (list (ustring * option Value)) :=
  let index {A B} (f : A -> option B) (l : list A) := imap (fun i x => (dec_of_N (N.of_nat i), f x)) l in
  match c with
  | CState fields => Ok (map (fun e => (e.1, Some e.2)) fields)
  | COther v =>
      match v with
      | VInt _ | VBool _ => Ok []
      | VStr s | VUnserializable s => Ok (index (fun _ => None) s)
      | VSet l | VSeq l | VTuple l => Ok (index Some l)
      | VMap l => Ok (index (fun _ => None) l)
      | VRecord fields => Ok (map (fun e => (e.1, Some e.2)) fields)
      | VVariant _ _ | VNull | VMessage _ => throw XType "Cannot convert undefined or null to object"
      end
  end.

(** [encodeState] and [prettifyState] of it. *)
Definition encode_cell (c : cell) : res exn object_t :=
  map (fun e => (e.1, from_option encodeValue JUndef e.2)) <$> cell_entries c.
Definition prettify_cell (c : cell) : res exn object_t :=
  (fun es => foldl (fun o e => assign o e.1 (from_option prettifyValue JUndef e.2)) [] es) <$> cell_entries c.

Definition quoted_text (t : ustring) : ustring := [0x22%N] ++ t ++ [0x22%N].

(** [JSON.stringify] of an object in a template. *)
Definition object_text (o : object_t) : res exn ustring := default [] <$> stringify number_text (JObj o).

Inductive mismatch_code := step_mismatch | replay_mismatch.

Record ReplayMismatchError := Mismatch {
  mm_code : mismatch_code;
  mm_message : ustring;
  mm_action : js;
  mm_params : cell;
  mm_expected : cell;
  mm_actual : cell;
  mm_hints : list DiffHint;
  mm_traceIndex : Z;
  mm_stateIndex : Z }.

(** [detail] of the constructor. *)
Definition mismatch_detail (expected actual : cell) (hints : list DiffHint) : res exn ustring :=
  match hints with
  | [] =>
      e ← encode_cell expected; et ← object_text e;
      a ← encode_cell actual; at_ ← object_text a;
      mret ($"expected " ++ et ++ $", got " ++ at_)
  | _ => renderDiffHints number_text hints
  end.

(** The constructor without a message of the caller ([compiled] is false). *)
Definition step_mismatch_error (action : js) (params expected actual : cell) (hints : option (list DiffHint))
    (traceIndex stateIndex : Z) : res exn ReplayMismatchError :=
  let hints := default [] hints in
  detail ← mismatch_detail expected actual hints;
  text ← template_text number_text action;
  p ← encode_cell params; pt ← object_text p;
  mret (Mismatch step_mismatch
    ($"step mismatch on action " ++ quoted_text text ++ $" with param " ++ pt ++ $": " ++ detail)
    action params expected actual hints traceIndex stateIndex).

(** The constructor with one, where the last argument is a string. *)
Definition replay_mismatch_error (message : ustring) (expected actual : cell) (hints : list DiffHint)
    (traceIndex stepIndex : Z) (action : ustring) : res exn ReplayMismatchError :=
  _ ← mismatch_detail expected actual hints;
  mret (Mismatch replay_mismatch message (JStr action) (CState []) expected actual hints traceIndex stepIndex).
End text.

(** ** Failures *)

Section failure.
Context (number_text : number -> ustring) {X : Type}.
Context (foreign_code foreign_message : X -> option ustring).

(** What a replay rejects with: a value of the application, the transport or the
    runtime, or an error of the program. *)
Inductive replay_error :=
| Foreign (x : X)
| EvidenceInvalid (message : ustring)
| MismatchFound (m : ReplayMismatchError)
| Thrown (e : exn).

Record mismatch_details := Details {
  d_action : js;
  d_traceIndex : Z;
  d_stateIndex : Z;
  d_params : object_t;
  d_expected : object_t;
  d_actual : object_t;
  d_hints : list js }.

Record ReplayFailure := Failure {
  f_code : ustring;
  f_message : ustring;
  f_details : option mismatch_details }.

Definition seg_object (s : PathSeg) : js :=
  match s with SegField f => JObj [($"field", JStr f)] | SegIndex i => JObj [($"index", i)] end.

Definition encodeHint (h : DiffHint) : js :=
  let hint (kind : string) (path : list PathSeg) (rest : object_t) :=
    JObj ([($"kind", JStr (lit kind)); ($"path", JArr (map seg_object path))] ++ rest) in
  let expected v := ($"expected", encodeValue v) in
  let actual v := ($"actual", encodeValue v) in
  match h with
  | HValueMismatch p e a => hint "value_mismatch"%string p [expected e; actual a]
  | HMissing p e => hint "missing"%string p [expected e]
  | HExtra p a => hint "extra"%string p [actual a]
  | HMissingElem p e => hint "missing_elem"%string p [expected e]
  | HExtraElem p a => hint "extra_elem"%string p [actual a]
  | HTypeMismatch p e a => hint "type_mismatch"%string p [expected e; actual a]
  | HTruncated p => hint "truncated"%string p []
  end.

Definition mismatch_code_text (c : mismatch_code) : ustring :=
  match c with step_mismatch => $"step_mismatch" | replay_mismatch => $"replay_mismatch" end.

Definition describe_mismatch (m : ReplayMismatchError) : res exn mismatch_details :=
  p ← encode_cell (mm_params m); e ← encode_cell (mm_expected m); a ← encode_cell (mm_actual m);
  mret (Details (mm_action m) (mm_traceIndex m) (mm_stateIndex m) p e a (map encodeHint (mm_hints m))).

(** Never throws: what cannot be read keeps its generic text. *)
Definition describeReplayFailure (error : replay_error) : ReplayFailure :=
  match error with
  | Foreign x =>
      Failure (default ($"replay_failed") (foreign_code x))
        (default ($"replay failed (unprintable rejection)") (foreign_message x)) None
  | EvidenceInvalid message => Failure ($"evidence_invalid") message None
  | MismatchFound m =>
      Failure (mismatch_code_text (mm_code m)) (mm_message m)
        (match describe_mismatch m with Ok d => Some d | Err _ => None end)
  | Thrown e => Failure ($"replay_failed") (exn_message e) None
  end.

(** ** Reports *)

Record ReplayReport := Report {
  rr_interfaceDigest : option ustring;
  rr_durationMs : number;
  rr_tracesStarted : Z;
  rr_tracesCompleted : Z;
  rr_statesReported : Z;
  rr_statesMatched : Z;
  rr_stepsCompleted : Z;
  rr_actionCounts : object_t;
  rr_sequenceCounts : list sequence_count;
  rr_droppedActionEvents : Z;
  rr_droppedSequenceEvents : Z;
  rr_truncated : bool;
  (** [Some] exactly for [status: "failed"] *)
  rr_failure : option ReplayFailure }.

(** [Object.fromEntries(this.actions)]: the keys become property names. *)
Definition action_counts (acts : list (js * Z)) : res exn object_t :=
  obj_of_entries <$> mapM (fun e => (fun k => (k, JNum (num_of_Z e.2))) <$> template_text number_text e.1) acts.

Definition report (durationMs : number) (error : option replay_error) (r : recorder) : res exn ReplayReport :=
  counts ← action_counts (actions r);
  mret (Report (interfaceDigest r) durationMs (tracesStarted r) (tracesCompleted r) (statesReported r)
    (statesMatched r) (stepsCompleted r) counts (map snd (sequences r)) (droppedActionEvents r)
    (droppedSequenceEvents r) ((0 <? droppedActionEvents r)%Z || (0 <? droppedSequenceEvents r)%Z)
    (describeReplayFailure <$> error)).

(** [tracesCompleted = tracesStarted] of a complete replay. *)
Definition finish (r : recorder) : recorder :=
  let r := acknowledge r in
  Recorder (tracesStarted r) (tracesStarted r) (statesReported r) (statesMatched r) (stepsCompleted r)
    (stateIndex r) (pending r) (previousAction r) (droppedActionEvents r) (droppedSequenceEvents r)
    (actions r) (sequences r) (interfaceDigest r).

Definition complete (durationMs : number) (r : recorder) : res exn ReplayReport :=
  report durationMs None (finish r).

Definition failedReplayReport (rep : ReplayReport) (error : replay_error) : ReplayReport :=
  Report (rr_interfaceDigest rep) (rr_durationMs rep) (rr_tracesStarted rep) (rr_tracesCompleted rep)
    (rr_statesReported rep) (rr_statesMatched rep) (rr_stepsCompleted rep) (rr_actionCounts rep)
    (rr_sequenceCounts rep) (rr_droppedActionEvents rep) (rr_droppedSequenceEvents rep) (rr_truncated rep)
    (Some (describeReplayFailure error)).
End failure.
Arguments replay_error : clear implicits.

(** ** The report of [replayCore] *)

Record CompiledReplayReport := Compiled {
  acceptedTraces : Z;
  acceptedSteps : Z;
  actionCoverage : object_t }.

(** The keys in the order of [Array.prototype.sort] on strings. *)
Definition stableCoverage (coverage : option object_t) : object_t :=
  let table := default [] coverage in
  obj_of_entries (map (fun k => (k, getf table k)) (sort_by compare_lists (keys table))).

Definition replayReport (traces steps : Z) (coverage : option object_t) : CompiledReplayReport :=
  Compiled traces steps (stableCoverage coverage).
