(* ===== verification/ReplayCore.v ===== *)
(** * The replay loop

    [src/src/replay-core.ts] and [src/src/replay.ts]: receiving and decoding a
    message, the loop [replayCore] that answers each observation request of the
    mirror with the state the application computes, and its owners [replayLoop],
    [runReplayExchange] and [runLegacyReplay].

    A run is given what its environment does, one [turn] for each pass of the
    loop: the line that arrives, whether the signal is aborted, what the callback
    answers, whether sending succeeds. A value thrown by the environment is an
    opaque [Foreign]. The callback is taken not to mutate its arguments. *)

From Stdlib Require Import SpecFloat.
From S2P Require Import Prelude JsNumber Utf16 JsData StrictJson JsText Protocol ClientMessages Connection AdapterRegistry Negotiation MatchedEvidence ReplayReport.

(** What a read of the next line ends with. *)
Inductive arrival (X : Type) := ALine (line : ustring) | AClosed | ARejected (x : X).
Arguments ALine {X} line.
Arguments AClosed {X}.
Arguments ARejected {X} x.

(** What [execution.start] does: it throws, returns a state, or returns a promise
    that settles. *)
Inductive computation (X : Type) :=
| StartThrows (x : X) | ReadyState (s : State) | ResolvedState (s : State) | RejectedState (x : X).
Arguments StartThrows {X} x.
Arguments ReadyState {X} s.
Arguments ResolvedState {X} s.
Arguments RejectedState {X} x.

(** [Some x] is a check or a send that throws. *)
Record turn (X : Type) := Turn {
  t_arrival : arrival X;
  t_cancelled : option X;
  t_computation : computation X;
  t_cancelled_after : option X;
  t_inactive : option X;
  t_send : option X }.
Arguments Turn {X}.
Arguments t_arrival {X} t.
Arguments t_cancelled {X} t.
Arguments t_computation {X} t.
Arguments t_cancelled_after {X} t.
Arguments t_inactive {X} t.
Arguments t_send {X} t.

(** What a run does that can be seen: it takes up a message, calls the callback,
    sends a line. *)
Inductive event :=
| Dispatched (m : MirrorMessage)
| Started (initial : bool) (action : js) (payload : cell) (previous : State)
| Sent (line : js).

Record core := Core {
  c_tracker : tracker;
  c_recorder : recorder;
  c_state : State;
  c_lastParam : cell;
  c_lastAction : js;
  c_traceIndex : Z;
  c_stepIndex : Z;
  c_acceptedTraces : Z;
  c_acceptedSteps : Z;
  c_log : list event }.

(** The variables of a run before its first message. *)
Definition new_core (t : tracker) (r : recorder) : core := Core t r [] (CState []) (JStr []) (-1) 0 0 0 [].

Definition set_tracker (v : tracker) (s : core) : core :=
  Core v (c_recorder s) (c_state s) (c_lastParam s) (c_lastAction s) (c_traceIndex s) (c_stepIndex s)
    (c_acceptedTraces s) (c_acceptedSteps s) (c_log s).
Definition set_recorder (v : recorder) (s : core) : core :=
  Core (c_tracker s) v (c_state s) (c_lastParam s) (c_lastAction s) (c_traceIndex s) (c_stepIndex s)
    (c_acceptedTraces s) (c_acceptedSteps s) (c_log s).
Definition set_state (v : State) (s : core) : core :=
  Core (c_tracker s) (c_recorder s) v (c_lastParam s) (c_lastAction s) (c_traceIndex s) (c_stepIndex s)
    (c_acceptedTraces s) (c_acceptedSteps s) (c_log s).
Definition log (e : event) (s : core) : core :=
  Core (c_tracker s) (c_recorder s) (c_state s) (c_lastParam s) (c_lastAction s) (c_traceIndex s) (c_stepIndex s)
    (c_acceptedTraces s) (c_acceptedSteps s) (c_log s ++ [e]).

Section core.
Context (number_text : number -> ustring) {X : Type}.
Abbreviation error := (replay_error X).
Abbreviation run A := (method core error A).

Definition lift {A} (r : res exn A) : res error A := match r with Ok a => Ok a | Err e => Err (Thrown e) end.
Definition lifted {A} (r : res error A) : run A := fun s => (r, s).
Definition check (o : option X) : run unit := match o with Some x => throws (Foreign x) | None => mret tt end.
Definition plain (message : ustring) : error := Thrown (Exn XError message).

(** ** Receiving *)

Definition receiveLine (a : arrival X) : res error ustring :=
  match a with
  | ALine line => Ok line
  | AClosed => Err (plain ($"transport closed unexpectedly"))
  | ARejected x => Err (Foreign x)
  end.

Definition decodeReplayMessage (line : ustring) : res error MirrorMessage :=
  match decodeMirrorMessage number_text line with
  | Ok m => Ok m
  | Err _ =>
      let snippet := if (200 <? length line)%nat then take 200 line ++ [0x2026%N] else line in
      Err (plain ($"failed to decode mirror message: " ++ snippet))
  end.

Definition receiveReplayMessage (a : arrival X) : res error MirrorMessage :=
  line ← receiveLine a; decodeReplayMessage line.

(** ** replayCore *)

Record core_options := CoreOptions {
  matchedEvidence : option evidence_config;
  structuredMismatch : bool;
  progress : bool }.

Section options.
Context (opts : core_options).

(** [options.matchedEvidence?.method()] *)
Definition tracked (f : evidence_config -> op unit) : run unit := fun s =>
  match matchedEvidence opts with
  | None => (Ok tt, s)
  | Some cfg =>
      let '(r, t) := f cfg (c_tracker s) in
      (match r with Ok u => Ok u | Err message => Err (EvidenceInvalid message) end, set_tracker t s)
  end.

(** A label that is no string is not in the table. *)
Definition evidence_begin (initial : bool) (action : js) (cfg : evidence_config) : op unit :=
  match action with
  | JStr a => MatchedEvidence.begin cfg initial a
  | _ =>
      _ ← requireOpen;
      busy ← this active;
      _ ← when (bool_decide (busy <> None)) (fail_with protocol "new action before observation was reported");
      fail_with mapping "unknown or wrong-phase action label"
  end.

(** [options.progress?.recorder.method()] *)
Definition recorded (f : recorder -> res exn recorder) : run unit := fun s =>
  if progress opts then
    match f (c_recorder s) with Ok r => (Ok tt, set_recorder r s) | Err e => (Err (Thrown e), s) end
  else (Ok tt, s).

Definition send_state (t : turn X) (state : State) : run unit :=
  _ ← modify (set_state state);
  _ ← (if progress opts then check (t_inactive t) else mret tt);
  line ← lifted (lift (encodeReportState number_text state));
  _ ← check (t_send t);
  modify (log (Sent line)).

Definition compute_state (t : turn X) : run unit :=
  match t_computation t with
  | StartThrows x | RejectedState x => throws (Foreign x)
  | ReadyState state => send_state t state
  | ResolvedState state => _ ← check (t_cancelled_after t); send_state t state
  end.

(** The variables of the loop at an observation. The parameters of an
    initialization are only kept for a report of progress. *)
Definition observing (initial : bool) (action : js) (payload : cell) (s : core) : core :=
  Core (c_tracker s) (c_recorder s) (c_state s)
    (if initial && negb (progress opts) then c_lastParam s else payload) action
    (if initial then js_succ (c_traceIndex s) else c_traceIndex s)
    (if initial then 0%Z else js_succ (c_stepIndex s)) (c_acceptedTraces s) (c_acceptedSteps s) (c_log s).

Definition accepted (initial : bool) (s : core) : core :=
  Core (c_tracker s) (c_recorder s) (c_state s) (c_lastParam s) (c_lastAction s) (c_traceIndex s) (c_stepIndex s)
    (if initial then js_succ (c_acceptedTraces s) else c_acceptedTraces s)
    (if initial then c_acceptedSteps s else js_succ (c_acceptedSteps s)) (c_log s).

Definition observe (initial : bool) (action : js) (payload : cell) (t : turn X) : run unit :=
  _ ← tracked (evidence_begin initial action);
  _ ← recorded (fun r => Ok (begin initial r));
  _ ← modify (observing initial action payload);
  previous ← this (fun s => if initial then [] else c_state s);
  _ ← modify (log (Started initial action payload previous));
  _ ← compute_state t;
  _ ← tracked (fun _ => MatchedEvidence.reported);
  _ ← recorded (reported number_text action);
  modify (accepted initial).

(** [`${lastParam}`]: a value object has no [toString] of its own. *)
Definition param_text (c : cell) : res exn ustring :=
  match c with
  | CState fields => template_text number_text (JObj (map (fun e => (e.1, JUndef)) fields))
  | COther v =>
      let objects {A} (l : list A) := Ok (join ($",") (map (fun _ => $"[object Object]") l)) in
      match v with
      | VInt z => Ok (dec_of_Z z)
      | VBool b => Ok (if b then $"true" else $"false")
      | VStr s | VUnserializable s => Ok s
      | VSet l | VSeq l | VTuple l => objects l
      | VMap l => objects (flat_map (fun e => [e.1; e.2]) l)
      | VRecord fields => template_text number_text (JObj (map (fun e => (e.1, JUndef)) fields))
      | VVariant _ _ | VNull | VMessage _ => Ok ($"undefined")
      end
  end.

Definition hint_text (expected actual : cell) (hints : list DiffHint) : res exn ustring :=
  match hints with
  | [] =>
      e ← prettify_cell expected; et ← object_text number_text e;
      a ← prettify_cell actual; at_ ← object_text number_text a;
      mret ($": expected " ++ et ++ $", got " ++ at_)
  | _ => (fun t => $": " ++ t) <$> renderDiffHints number_text hints
  end.

(** The error of [step_mismatch]. *)
Definition mismatch_error (action : js) (expected actual : cell) (hints : option (list DiffHint)) (s : core) : error :=
  let r :=
    if progress opts then
      let '(traceIndex, stateIndex) := position (c_recorder s) in
      MismatchFound <$> step_mismatch_error number_text action (c_lastParam s) expected actual hints traceIndex stateIndex
    else
      let hints := default [] hints in
      rest ← hint_text expected actual hints;
      name ← template_text number_text action;
      param ← param_text (c_lastParam s);
      let text := $"step mismatch on action " ++ quoted_text name ++ $" with param " ++ quoted_text param ++ rest in
      if structuredMismatch opts then
        match action with
        | JStr a =>
            MismatchFound <$> replay_mismatch_error number_text text expected actual hints
              (Z.max (c_traceIndex s) 0) (c_stepIndex s) a
        (* the constructor takes the other form, and spreads a number *)
        | _ => throw XType "Spread syntax requires ...iterable[Symbol.iterator] to be a function"
        end
      else mret (plain text) in
  match r with Ok e => e | Err e => Thrown e end.

(** One message: [Some] is the report of [all_steps_done]. *)
Definition handle (m : MirrorMessage) (t : turn X) : run (option CompiledReplayReport) :=
  match m with
  | InitialState action state => _ ← observe true action state t; mret None
  | NextStep action parameters => _ ← observe false action parameters t; mret None
  | StepOk =>
      _ ← tracked (fun _ => MatchedEvidence.acknowledge);
      _ ← recorded (fun r => Ok (acknowledge r));
      mret None
  | AllStepsDone =>
      _ ← tracked done_;
      r ← this (fun s => replayReport (c_acceptedTraces s) (c_acceptedSteps s) None);
      mret (Some r)
  | StepMismatch action expected actual hints =>
      _ ← tracked (fun _ => interrupt true);
      e ← this (fun s => mismatch_error (nullish action (c_lastAction s)) expected actual hints s);
      throws e
  | ProtocolError e => throws (bare_error number_text plain Thrown e)
  | RegisterError e => throws (prefixed_error number_text plain Thrown "register failed: " e)
  | _ => throws (plain ($"unexpected message: " ++ lit (proto_step m)))
  end.

(** One pass of the loop. *)
Definition pass (t : turn X) : run (option CompiledReplayReport) :=
  m ← lifted (receiveReplayMessage (t_arrival t));
  _ ← check (t_cancelled t);
  _ ← modify (log (Dispatched m));
  handle m t.

(** [None]: the loop is waiting for the next message. *)
Fixpoint loop (ts : list (turn X)) : run (option CompiledReplayReport) :=
  match ts with
  | [] => mret None
  | t :: ts' =>
      r ← pass t;
      match r with Some report => mret (Some report) | None => loop ts' end
  end.

Definition replayCore (ts : list (turn X)) : run (option CompiledReplayReport) := fun s =>
  match loop ts s with
  | (Ok r, s') => (Ok r, s')
  | (Err e, s') => (_ ← tracked (fun _ => interrupt false); throws e) s'
  end.
End options.

(** ** The owners of the loop *)

Section owners.
Context (foreign_code foreign_message : X -> option ustring) (foreign_object : X -> bool).

(** A rejected replay and the report attached to its error. *)
Inductive exchange :=
| Waiting
| Completed (report : ReplayReport)
| Failed (e : error) (attached : option ReplayReport).

(** [attachReplayReport]: only to an object. *)
Definition attach (e : error) (rep : ReplayReport) : option ReplayReport :=
  match e with
  | Foreign x => if foreign_object x then Some rep else None
  | _ => Some rep
  end.

Definition report_of (duration : number) (e : option error) (r : recorder) : res exn ReplayReport :=
  report number_text foreign_code foreign_message duration e r.

(** [catch (error) { attachReplayReport(error, recorder.report(error)); throw error; }] *)
Definition rejected (duration : number) (r : recorder) (e : error) : exchange :=
  match report_of duration (Some e) r with
  | Ok rep => Failed e (attach e rep)
  | Err e' => Failed (Thrown e') None
  end.

Definition progress_options : core_options := CoreOptions None false true.

Definition replayLoop (duration : number) (ts : list (turn X)) (s : core) : exchange * core :=
  match replayCore progress_options ts s with
  | (Ok None, s') => (Waiting, s')
  | (Ok (Some _), s') =>
      let s' := set_recorder (finish (c_recorder s')) s' in
      (match report_of duration None (c_recorder s') with
       | Ok rep => Completed rep
       | Err e => rejected duration (c_recorder s') (Thrown e)
       end, s')
  | (Err e, s') => (rejected duration (c_recorder s') e, s')
  end.

(** The outer [catch] attaches a report again. *)
Definition reattach (duration : number) (x : exchange) (s : core) : exchange :=
  match x with Failed e _ => rejected duration (c_recorder s) e | _ => x end.

(** What happens before the loop: the control may be aborted, and [register] may
    throw; then the registration barrier. *)
Definition registered (aborted : option X) (register : option error) (first : arrival X) : res error unit :=
  _ ← match aborted with Some x => Err (Foreign x) | None => Ok tt end;
  _ ← match register with Some e => Err e | None => Ok tt end;
  m ← receiveReplayMessage first;
  lift (requireValidRegistration number_text m).

Definition runReplayExchange (duration : number) (aborted : option X) (register : option error) (first : arrival X)
    (ts : list (turn X)) (s : core) : exchange * core :=
  match registered aborted register first with
  | Err e => (rejected duration (c_recorder s) e, s)
  | Ok _ => let '(x, s') := replayLoop duration ts s in (reattach duration x s', s')
  end.

(** The transport is closed once the exchange has ended; [close] may reject. The
    second component says whether it was closed. *)
Definition close_after (close : option X) (x : exchange) : exchange * bool :=
  match x with
  | Waiting => (Waiting, false)
  | Completed rep =>
      (match close with
       | None => Completed rep
       | Some c =>
           Failed (Foreign c)
             (attach (Foreign c) (failedReplayReport foreign_code foreign_message rep (Foreign c)))
       end, true)
  | Failed e attached => (Failed e attached, true)
  end.

Definition runLegacyReplay (duration : number) (aborted : option X) (register : option error) (first : arrival X)
    (ts : list (turn X)) (close : option X) (s : core) : (exchange * bool) * core :=
  let '(x, s') := runReplayExchange duration aborted register first ts s in
  (close_after close x, s').
End owners.
End core.
