(* ===== verification/ReplayFacts.v ===== *)
(** * The replay loop keeps its promises

    Three views of a run of [replayCore]: the conversation it holds with the mirror
    and the callback, the evidence the tracker holds afterwards, and the report of
    the recorder. *)

From S2P Require Import Prelude JsNumber Utf16 JsData StrictJson JsText Descriptor Digest Protocol ClientMessages Connection AdapterRegistry Negotiation MatchedEvidence EvidenceFacts ReplayReport ReplayCore.

Section facts.
Context (number_text : number -> ustring) {X : Type}.
Abbreviation error := (replay_error X).
Abbreviation run A := (method core error A).
Implicit Types (s : core) (ts : list (turn X)).

(** ** The conversation *)

(** The observation a message asks for. *)
Definition request (m : MirrorMessage) : option (bool * js * cell) :=
  match m with
  | InitialState action state => Some (true, action, state)
  | NextStep action parameters => Some (false, action, parameters)
  | _ => None
  end.

(** The message a turn brings, and the state its callback computes. *)
Definition brings (t : turn X) (m : MirrorMessage) : Prop := receiveReplayMessage number_text (t_arrival t) = Ok m.
Definition computed (t : turn X) : option State :=
  match t_computation t with ReadyState state | ResolvedState state => Some state | StartThrows _ | RejectedState _ => None end.

(** A conversation from a last reported state, over the turns in their order: each
    message is the one its turn brings; each observation request is answered by one
    call of the callback on the payload and the state reported last (none at an
    initialization), and one line, the encoding of the state the callback of this
    turn computed, which is then the state reported last. Only the last request may
    be left unanswered; nothing else is sent. *)
Inductive conversation : State -> list (turn X) -> list event -> Prop :=
| conv_end state ts : conversation state ts []
| conv_other state t ts m l :
    brings t m -> request m = None -> conversation state ts l -> conversation state (t :: ts) (Dispatched m :: l)
| conv_refused state t ts m : brings t m -> is_Some (request m) -> conversation state (t :: ts) [Dispatched m]
| conv_unanswered state t ts m initial action payload :
    brings t m -> request m = Some (initial, action, payload) ->
    conversation state (t :: ts) [Dispatched m; Started initial action payload (if initial then [] else state)]
| conv_answered state t ts m initial action payload state' line l :
    brings t m -> request m = Some (initial, action, payload) ->
    computed t = Some state' -> encodeReportState number_text state' = Ok line ->
    conversation state' ts l ->
    conversation state (t :: ts)
      (Dispatched m :: Started initial action payload (if initial then [] else state) :: Sent line :: l).

Definition is_dispatched (e : event) : bool := match e with Dispatched _ => true | _ => false end.
Definition is_request (e : event) : bool :=
  match e with Dispatched m => match request m with Some _ => true | None => false end | _ => false end.
Definition is_answer (e : event) : bool := match e with Sent _ => true | _ => false end.
Definition events (p : event -> bool) (l : list event) : nat := length (List.filter p l).
Abbreviation dispatched := (events is_dispatched).
Abbreviation requests := (events is_request).
Abbreviation answers := (events is_answer).

Lemma events_app p l1 l2 : events p (l1 ++ l2) = (events p l1 + events p l2)%nat.
Proof. unfold events. by rewrite List.filter_app, length_app. Qed.

Lemma run_this {A B} (f : core -> A) (k : A -> run B) s : (this f ≫= k) s = k (f s) s.
Proof. done. Qed.
Lemma run_modify {B} (f : core -> core) (k : unit -> run B) s : (modify f ≫= k) s = k tt (f s).
Proof. done. Qed.
Lemma run_step {A B} (m : run A) (k : A -> run B) s :
  (m ≫= k) s = match m s with (Ok a, s') => k a s' | (Err e, s') => (Err e, s') end.
Proof. done. Qed.

(** *** Methods that do not speak *)

Definition silent {A} (m : run A) : Prop := forall s, triple (eq s) m
  (fun _ s' => c_log s' = c_log s /\ c_state s' = c_state s) (fun _ s' => c_log s' = c_log s).

Lemma silent_bind {A B} (m : run A) (f : A -> run B) :
  silent m -> (forall a, silent (f a)) -> silent (m ≫= f).
Proof.
  intros Hm Hf s s0 <-. unfold mbind, method_mbind. specialize (Hm s s eq_refl).
  destruct (m s) as [[a|e] s']; [|done]. destruct Hm as [Hl Hs]. specialize (Hf a s' s' eq_refl).
  destruct (f a s') as [[b|e] s'']; [destruct Hf; split; congruence|congruence].
Qed.

Lemma silent_ret {A} (a : A) : silent (mret a).
Proof. by intros s s0 <-. Qed.
Lemma silent_this {A} (f : core -> A) : silent (this f).
Proof. by intros s s0 <-. Qed.
Lemma silent_throws {A} (e : error) : silent (throws e : run A).
Proof. by intros s s0 <-. Qed.
Lemma silent_check (o : option X) : silent (check o).
Proof. intros s s0 <-. by destruct o. Qed.
Lemma silent_lifted {A} (r : res error A) : silent (lifted r).
Proof. intros s s0 <-. by destruct r. Qed.
Lemma silent_tracked opts f : silent (tracked (X := X) opts f).
Proof. intros s s0 <-. unfold tracked. destruct (matchedEvidence opts) as [cfg|]; [|done]. by destruct (f cfg _) as [[]]. Qed.
Lemma silent_recorded opts f : silent (recorded (X := X) opts f).
Proof. intros s s0 <-. unfold recorded. destruct (progress opts); [|done]. by destruct (f _). Qed.
Lemma silent_modify (f : core -> core) :
  (forall s, c_log (f s) = c_log s /\ c_state (f s) = c_state s) -> silent (modify f).
Proof. intros H s s0 <-. apply H. Qed.

Lemma silent_when (b : bool) (m : run unit) : silent m -> silent (when b m).
Proof. destruct b; [done|]. intros _. apply silent_ret. Qed.

(** *** Methods that do *)

(** The method appends what [P] describes, from the state reported last; [Q] is
    what an error leaves. *)
Definition speaks {A} (m : run A) (P : State -> State -> A -> list event -> Prop) (Q : State -> list event -> Prop) : Prop :=
  forall s, match m s with
            | (Ok a, s') => exists l, c_log s' = c_log s ++ l /\ P (c_state s) (c_state s') a l
            | (Err _, s') => exists l, c_log s' = c_log s ++ l /\ Q (c_state s) l
            end.

Lemma speaks_silent {A} (m : run A) : silent m -> speaks m (fun st st' _ l => st' = st /\ l = []) (fun _ l => l = []).
Proof.
  intros H s. specialize (H s s eq_refl). destruct (m s) as [[a|e] s']; exists []; rewrite app_nil_r.
  - by destruct H as [-> ->].
  - by rewrite H.
Qed.

Lemma speaks_bind {A B} (m : run A) (f : A -> run B) P Q P' Q' R R' :
  speaks m P Q -> (forall a, speaks (f a) P' Q') ->
  (forall st st1 st2 a b l1 l2, P st st1 a l1 -> P' st1 st2 b l2 -> R st st2 b (l1 ++ l2)) ->
  (forall st l, Q st l -> R' st l) ->
  (forall st st1 a l1 l2, P st st1 a l1 -> Q' st1 l2 -> R' st (l1 ++ l2)) ->
  speaks (m ≫= f) R R'.
Proof.
  intros Hm Hf H1 H2 H3 s. unfold mbind, method_mbind. specialize (Hm s).
  destruct (m s) as [[a|e] s1].
  - destruct Hm as (l1 & Hl1 & HP). specialize (Hf a s1). destruct (f a s1) as [[b|e] s2];
      destruct Hf as (l2 & Hl2 & HP'); exists (l1 ++ l2); rewrite Hl2, Hl1, app_assoc; split; eauto.
  - destruct Hm as (l1 & Hl1 & HP). exists l1. eauto.
Qed.

Lemma silent_speaks {A B} (m : run A) (f : A -> run B) P Q :
  silent m -> (forall a, speaks (f a) P Q) -> (forall st, Q st []) -> speaks (m ≫= f) P Q.
Proof.
  intros Hm Hf HQ. eapply speaks_bind; [by apply speaks_silent|exact Hf| | |].
  - by intros st st1 st2 a b l1 l2 [-> ->] H.
  - by intros st l ->.
  - by intros st st1 a l1 l2 [-> ->] H.
Qed.

Section options.
Context (opts : core_options).

(** The answer to a request: a computed state and its line, or nothing. *)
Definition answered (st' : State) (l : list event) : Prop :=
  exists line, encodeReportState number_text st' = Ok line /\ l = [Sent line].

Lemma send_state_speaks t state :
  speaks (send_state number_text opts t state) (fun _ st' _ l => st' = state /\ answered st' l) (fun _ l => l = []).
Proof.
  intros s. unfold send_state, modify, mbind, method_mbind. cbn beta iota.
  assert (forall (o : option X) s, exists r, check o s = (r, s)) as Hc by (intros [x|] s0; by eexists).
  assert (exists r, (if progress opts then check (t_inactive t) else mret tt) (set_state state s) = (r, set_state state s)) as [r Hr].
  { destruct (progress opts); [apply Hc|by eexists]. }
  rewrite Hr. destruct r as [[]|e]; [|exists []; by rewrite app_nil_r].
  unfold lifted, lift. destruct (encodeReportState number_text state) as [line|e] eqn:E; [|exists []; by rewrite app_nil_r].
  destruct (Hc (t_send t) (set_state state s)) as [[[]|e] ->]; [|exists []; by rewrite app_nil_r].
  exists [Sent line]. split; [done|]. split; [done|]. by exists line.
Qed.

Lemma compute_state_speaks t :
  speaks (compute_state number_text opts t) (fun _ st' _ l => computed t = Some st' /\ answered st' l) (fun _ l => l = []).
Proof.
  assert (forall state, computed t = Some state ->
    speaks (send_state number_text opts t state) (fun _ st' _ l => computed t = Some st' /\ answered st' l) (fun _ l => l = [])) as Hs.
  { intros state Ht s. pose proof (send_state_speaks t state s) as H. destruct (send_state _ _ _ _ s) as [[]];
      destruct H as (l & Hl & H); exists l; [by destruct H as [-> ?]|done]. }
  unfold compute_state. destruct (t_computation t) as [x|state|state|x] eqn:E.
  - intros s. exists []. by rewrite app_nil_r.
  - apply Hs. unfold computed. by rewrite E.
  - apply silent_speaks; [apply silent_check|intros _; apply Hs; unfold computed; by rewrite E|done].
  - intros s. exists []. by rewrite app_nil_r.
Qed.

(** What an observation adds to the log after its message. *)
Definition observed (t : turn X) (initial : bool) (action : js) (payload : cell) (st st' : State) (l : list event) : Prop :=
  computed t = Some st' /\ exists line, encodeReportState number_text st' = Ok line /\
    l = [Started initial action payload (if initial then [] else st); Sent line].

Definition unanswered (t : turn X) (initial : bool) (action : js) (payload : cell) (st : State) (l : list event) : Prop :=
  l = [] \/ l = [Started initial action payload (if initial then [] else st)] \/
  exists st', observed t initial action payload st st' l.

Lemma observe_speaks initial action payload t :
  speaks (observe number_text opts initial action payload t)
    (fun st st' _ l => observed t initial action payload st st' l) (unanswered t initial action payload).
Proof.
  unfold observe.
  apply silent_speaks; [apply silent_tracked|intros _|by left].
  apply silent_speaks; [apply silent_recorded|intros _|by left].
  apply silent_speaks; [by apply silent_modify|intros _|by left].
  intros s. rewrite run_this, run_modify.
  set (s1 := log (Started initial action payload (if initial then [] else c_state s)) s).
  assert (c_log s1 = c_log s ++ [Started initial action payload (if initial then [] else c_state s)]) as Hl1 by done.
  pose proof (compute_state_speaks t s1) as Hc. rewrite run_step.
  destruct (compute_state number_text opts t s1) as [[[]|e] s2].
  - destruct Hc as (l & Hl & Ht & line & Hline & ->). rewrite Hl1, <- app_assoc in Hl. clearbody s1.
    match goal with |- match ?r with _ => _ end => assert (match r with
      (Ok _, s') => c_log s' = c_log s2 /\ c_state s' = c_state s2 | (Err _, s') => c_log s' = c_log s2 end) as Hrest end.
    { apply (silent_bind (tracked opts (fun _ => MatchedEvidence.reported))
        (fun _ => _ ← recorded opts (reported number_text action); modify (accepted initial))) with (s := s2); [..|done].
      - apply silent_tracked.
      - intros _. apply silent_bind; [apply silent_recorded|intros _]. by apply silent_modify. }
    match type of Hrest with match ?r with _ => _ end => destruct r as [[[]|e] s3] end.
    + destruct Hrest as [Hl3 Hs3]. eexists. rewrite Hl3, Hl. split; [done|]. split; [by rewrite Hs3|]. exists line. by rewrite Hs3.
    + eexists. rewrite Hrest, Hl. split; [done|]. right. right. exists (c_state s2). split; [done|]. by exists line.
  - destruct Hc as (l & Hl & ->). rewrite app_nil_r, Hl1 in Hl.
    eexists. split; [exact Hl|]. right. by left.
Qed.

(** After a message was dispatched. *)
Definition continues (t : turn X) (m : MirrorMessage) (st st' : State) (l : list event) : Prop :=
  dispatched l = 0%nat /\ requests [Dispatched m] = answers l /\
  forall ts l2, conversation st' ts l2 -> conversation st (t :: ts) (Dispatched m :: l ++ l2).
Definition ends (t : turn X) (m : MirrorMessage) (st : State) (l : list event) : Prop :=
  dispatched l = 0%nat /\ forall ts, conversation st (t :: ts) (Dispatched m :: l).

Lemma observe_handled m initial action payload t : brings t m -> request m = Some (initial, action, payload) ->
  speaks (_ ← observe number_text opts initial action payload t; mret (None : option CompiledReplayReport))
    (fun st st' _ l => continues t m st st' l) (ends t m).
Proof.
  intros Ht Hm. assert (requests [Dispatched m] = 1%nat) as Hone by (unfold events; cbn; by rewrite Hm).
  eapply speaks_bind; [apply observe_speaks|intros []; apply speaks_silent, silent_ret| | |].
  - intros st st1 st2 a b l1 l2 (Hc & line & Hline & ->) [-> ->]. split; [done|]. split; [exact Hone|]. intros ts l. by eapply conv_answered.
  - intros st l [-> |[-> |(st' & Hc & line & Hline & ->)]]; (split; [done|intros ts]).
    + by apply conv_refused; [|eexists].
    + by apply conv_unanswered.
    + eapply conv_answered; [done..|]. apply conv_end.
  - intros st st1 a l1 l2 (Hc & line & Hline & ->) ->. split; [done|intros ts].
    eapply conv_answered; [done..|]. apply conv_end.
Qed.

Lemma silent_handled {A} t m (r : run A) : brings t m -> request m = None -> silent r ->
  speaks r (fun st st' _ l => continues t m st st' l) (ends t m).
Proof.
  intros Ht Hm Hr s. pose proof (speaks_silent r Hr s) as H. destruct (r s) as [[a|e] s'];
    destruct H as (l & Hl & H); exists l; (split; [done|]).
  - destruct H as [-> ->]. split; [done|]. split; [unfold events; cbn; by rewrite Hm|]. intros ts l2. by apply conv_other.
  - subst. split; [done|]. intros ts. apply conv_other; [done|done|]. apply conv_end.
Qed.

Lemma handle_speaks m t : brings t m ->
  speaks (handle number_text opts m t) (fun st st' _ l => continues t m st st' l) (ends t m).
Proof.
  intros Ht. destruct m; try (by apply observe_handled); apply silent_handled; try done; cbn [handle];
    repeat first [apply silent_throws|apply silent_ret|apply silent_this|apply silent_tracked|apply silent_recorded
                 |apply silent_bind; [|intros ?]].
Qed.

Definition passes (t : turn X) (st st' : State) (l : list event) : Prop :=
  dispatched l = 1%nat /\ requests l = answers l /\ forall ts l2, conversation st' ts l2 -> conversation st (t :: ts) (l ++ l2).
Definition stops (t : turn X) (st : State) (l : list event) : Prop :=
  (dispatched l <= 1)%nat /\ forall ts, conversation st (t :: ts) l.

Lemma taken_speaks t m : brings t m ->
  speaks (_ ← check (t_cancelled t); _ ← modify (log (Dispatched m)); handle number_text opts m t)
    (fun st st' _ l => passes t st st' l) (stops t).
Proof.
  intros Ht. apply silent_speaks; [apply silent_check| |intros st; split; [cbn; lia|intros ts; apply conv_end]].
  intros _ s. rewrite run_modify. pose proof (handle_speaks m t Ht (log (Dispatched m) s)) as H.
  destruct (handle _ _ _ _ _) as [[r|e] s']; destruct H as (l & Hl & H); cbn [c_log log c_state] in *;
    rewrite <- app_assoc in Hl; exists ([Dispatched m] ++ l); (split; [exact Hl|]).
  - destruct H as (Hd & Hr & H). unfold passes. rewrite !events_app, Hd, Hr. split; [done|]. split; [|exact H].
    enough (requests l = 0%nat /\ answers [Dispatched m] = 0%nat) by lia. split; [|done].
    clear -Hd. unfold events in *. induction l as [|[] l IH]; cbn in *; [done|discriminate Hd|by apply IH..].
  - destruct H as (Hd & H). split; [rewrite events_app, Hd; cbn; lia|exact H].
Qed.

Lemma pass_speaks t : speaks (pass number_text opts t) (fun st st' _ l => passes t st st' l) (stops t).
Proof.
  intros s. unfold pass. rewrite run_step. unfold lifted.
  destruct (receiveReplayMessage number_text (t_arrival t)) as [m|e] eqn:Ht; [by apply taken_speaks|].
  exists []. rewrite app_nil_r. split; [done|]. split; [cbn; lia|intros ts; apply conv_end].
Qed.

Lemma loop_speaks ts :
  speaks (loop number_text opts ts)
    (fun st _ r l => conversation st ts l /\ (dispatched l <= length ts)%nat /\ requests l = answers l /\
       (r = None -> dispatched l = length ts))
    (fun st l => conversation st ts l /\ (dispatched l <= length ts)%nat).
Proof.
  induction ts as [|t ts IH]; cbn [loop].
  { intros s. exists []. rewrite app_nil_r. split_and!; try done. apply conv_end. }
  assert (forall r, speaks (match r with Some report => mret (Some report) | None => loop number_text opts ts end)
    (fun st _ r' l => conversation st ts l /\ (dispatched l <= length ts)%nat /\ requests l = answers l /\
       (r' = None -> dispatched l = length ts))
    (fun st l => conversation st ts l /\ (dispatched l <= length ts)%nat)) as Hrest.
  { intros [r|]; [|exact IH]. intros s. exists []. rewrite app_nil_r. split_and!; try done; [apply conv_end|cbn; lia]. }
  eapply speaks_bind; [apply pass_speaks|exact Hrest|..]; cbn [length].
  - intros st st1 st2 a b l1 l2 (H1 & Hr1 & Hc1) (Hc2 & H2 & Hr2 & Hb). rewrite !events_app.
    split_and!; [by apply Hc1|lia|lia|]. intros Hnone. specialize (Hb Hnone). lia.
  - intros st l [H1 Hc1]. split; [done|lia].
  - intros st st1 a l1 l2 (H1 & _ & Hc1) [Hc2 H2]. rewrite events_app. split; [by apply Hc1|lia].
Qed.

Lemma replayCore_loop ts s : exists s', loop number_text opts ts s = ((loop number_text opts ts s).1, s') /\
  c_log (replayCore number_text opts ts s).2 = c_log s' /\
  (forall r, (replayCore number_text opts ts s).1 = Ok r -> (loop number_text opts ts s).1 = Ok r).
Proof.
  unfold replayCore. destruct (loop number_text opts ts s) as [[r|e] s']; exists s'; split; try done.
  rewrite run_step. pose proof (silent_tracked opts (fun _ => interrupt false) s' s' eq_refl) as H.
  destruct (tracked _ _ _) as [[[]|e'] s'']; [by destruct H|done].
Qed.
End options.

(** A run from its start. *)
Lemma replayCore_speaks opts ts tr rec :
  let '(r, s) := replayCore number_text opts ts (new_core tr rec) in
  conversation [] ts (c_log s) /\ (dispatched (c_log s) <= length ts)%nat /\
  forall o, r = Ok o -> requests (c_log s) = answers (c_log s) /\ (o = None -> dispatched (c_log s) = length ts).
Proof.
  destruct (replayCore_loop opts ts (new_core tr rec)) as (s' & E & Hlog & Hres).
  destruct (replayCore number_text opts ts (new_core tr rec)) as [r s] eqn:Er. cbn [fst snd] in *. rewrite Hlog.
  pose proof (loop_speaks opts ts (new_core tr rec)) as H. rewrite E in H.
  destruct (loop _ _ _ _).1 as [r'|e]; destruct H as (l & -> & H).
  - destruct H as (Hc & Hd & Hr & Hn). split_and!; [done|done|]. intros o Ho. apply Hres in Ho as [= ->]. done.
  - destruct H as [Hc Hd]. split_and!; [done|done|]. intros o Ho. by apply Hres in Ho.
Qed.

(** C25: the replay holds a lock-step conversation. Whatever the environment does
    (lines, aborts, callbacks and sends that fail), what a run does from its start
    is a conversation over its turns: every message it takes up is the one the next
    turn brings; each observation request is answered by one call of the callback,
    on the payload of the message and the state reported last (none at an
    initialization), and then by one line, the encoding of the state that the
    callback computed in that turn, which is from then on the state reported last;
    no other message causes a call or a line; and only the last request can be left
    without an answer. A run that does not fail has answered every request, and one
    that still waits has taken up the message of every turn. *)
Theorem replay_lockstep opts ts tr rec :
  let '(r, s) := replayCore number_text opts ts (new_core tr rec) in
  conversation [] ts (c_log s) /\ (dispatched (c_log s) <= length ts)%nat /\
  forall o, r = Ok o -> requests (c_log s) = answers (c_log s) /\ (o = None -> dispatched (c_log s) = length ts).
Proof. apply replayCore_speaks. Qed.

(** ** The evidence of a run *)

(** What the log says the tracker was told. *)
Definition observation_of (e : event) : list observation_event :=
  match e with
  | Started initial (JStr action) _ _ => [EBegin initial action]
  | Sent _ => [EReported]
  | Dispatched StepOk => [EAcknowledge]
  | _ => []
  end.
Definition observations (l : list event) : list observation_event := concat (map observation_of l).

Lemma observations_snoc l e : observations (l ++ [e]) = observations l ++ observation_of e.
Proof. unfold observations. by rewrite map_snoc, concat_snoc. Qed.

Lemma log_of_snoc cfg es e : log_of cfg (es ++ [e]) = log_step cfg (log_of cfg es) e.
Proof. unfold log_of. by rewrite foldl_app. Qed.

(** The frame of a step: what it leaves as it was. *)
Lemma compute_state_frame opts (t : turn X) s :
  match compute_state number_text opts t s with
  | (Ok _, s') => exists state line, s' = log (Sent line) (set_state state s)
  | (Err _, s') => exists state, s' = set_state state s
  end.
Proof.
  assert (set_state (c_state s) s = s) as Hs by by destruct s.
  assert (forall state, match send_state number_text opts t state s with
    | (Ok _, s') => exists state line, s' = log (Sent line) (set_state state s)
    | (Err _, s') => exists state, s' = set_state state s end) as Hsend.
  { intros state. unfold send_state, modify, mbind, method_mbind, check, lifted, lift, throws.
    destruct (progress opts), (t_inactive t), (encodeReportState number_text state), (t_send t); cbn; eauto. }
  unfold compute_state. destruct (t_computation t) as [x|state|state|x]; [by exists (c_state s)|apply Hsend| |by exists (c_state s)].
  rewrite run_step. destruct (t_cancelled_after t); cbn; [by exists (c_state s)|apply Hsend].
Qed.

Lemma recorded_frame opts f s :
  match recorded (X := X) opts f s with
  | (Ok _, s') => exists r, s' = set_recorder r s
  | (Err _, s') => s' = s
  end.
Proof.
  unfold recorded. destruct (progress opts); [destruct (f (c_recorder s)) as [r|e]; [by exists r|done]|].
  exists (c_recorder s). by destruct s.
Qed.

Lemma reported_bound t t' : MatchedEvidence.reported t = (Ok tt, t') ->
  reportedCount t' = (reportedCount t + 1)%Z /\ reportedCount t <> MAX_SAFE_INTEGER.
Proof.
  unfold MatchedEvidence.reported, requireOpen, this, mbind, method_mbind.
  destruct (sealed t); [done|]. cbn [when]. unfold mret, method_mret.
  destruct (_ || _); [done|]. cbn [when]. unfold mret, method_mret, bump, increment, this, mbind, method_mbind.
  destruct (reportedCount t =? MAX_SAFE_INTEGER)%Z eqn:E; [done|]. cbn. intros [= <-]. cbn. split; [done|]. lia.
Qed.

Section evidence.
Context (opts : core_options) (cfg : evidence_config) (Hopts : matchedEvidence opts = Some cfg).

Definition log_now s : replay_log := log_of cfg (observations (c_log s)).

(** Between two messages: the tracker holds the log, and the counters of the loop
    are those of the tracker. *)
Record coupled s : Prop := Coupled {
  co_tracks : tracks cfg (log_now s) (c_tracker s);
  co_idle : EvidenceFacts.observing (log_now s) = None;
  co_traces : c_acceptedTraces s = Z.of_nat (length (traces (log_now s)));
  co_steps : (c_acceptedTraces s + c_acceptedSteps s = reportedCount (c_tracker s))%Z;
  co_bounds : (0 <= c_acceptedSteps s /\ reportedCount (c_tracker s) <= MAX_SAFE_INTEGER)%Z }.

(** A run that failed: a call of the tracker failed, or the tracker holds the log,
    sealed or not. *)
Definition broken s : Prop :=
  dead (c_tracker s) \/ tracks cfg (log_now s) (c_tracker s) \/
  (tallied (traces (log_now s)) (c_tracker s) /\ sealed (c_tracker s) = true /\ MatchedEvidence.complete (c_tracker s) = false).

Lemma coupled_broken s : coupled s -> broken s.
Proof. intros []. by right; left. Qed.

Lemma tracked_spec f s Q R : triple (eq (c_tracker s)) (f cfg) Q (fun _ => R) ->
  match tracked (X := X) opts f s with
  | (Ok u, s') => exists t, s' = set_tracker t s /\ Q u t /\ f cfg (c_tracker s) = (Ok u, t)
  | (Err _, s') => exists t, s' = set_tracker t s /\ R t
  end.
Proof.
  intros H. unfold tracked. rewrite Hopts. specialize (H _ eq_refl).
  destruct (f cfg (c_tracker s)) as [[u|e] t]; by exists t.
Qed.

Lemma begin_core initial action s : tracks cfg (log_now s) (c_tracker s) ->
  match tracked (X := X) opts (evidence_begin initial action) s with
  | (Ok _, s') => exists t a, s' = set_tracker t s /\ action = JStr a /\
      tracks cfg (log_step cfg (log_now s) (EBegin initial a)) t
  | (Err _, s') => dead (c_tracker s')
  end.
Proof.
  intros Hg. pose proof (tracked_spec (evidence_begin initial action) s
    (fun _ t => exists a, action = JStr a /\ tracks cfg (log_step cfg (log_now s) (EBegin initial a)) t) dead) as H.
  assert (triple (eq (c_tracker s)) (evidence_begin initial action cfg)
    (fun _ t => exists a, action = JStr a /\ tracks cfg (log_step cfg (log_now s) (EBegin initial a)) t) (fun _ => dead)) as Ht.
  { destruct action; cbn [evidence_begin];
      try (apply (open_bind cfg (log_now s)); [done|]; apply this_bind, (guard_dead cfg (log_now s)); [done|]; intros _;
           eapply triple_conseq; [apply failed_dead, Hg|done|done|done]).
    eapply triple_conseq; [by apply begin_tracks|done| |done]. intros u t [Ht _]. by eexists. }
  specialize (H Ht). destruct (tracked _ _ _) as [[u|e] s'].
  - destruct H as (t & -> & (a & -> & Ha) & _). by exists t, a.
  - by destruct H as (t & -> & Hd).
Qed.

Lemma match_in_length xs p : length (match_in xs p) = length xs.
Proof.
  unfold match_in. destruct p as [l|]; [|done]. destruct (last_split xs) as [->|(k & x & ->)]; [done|].
  rewrite last_snoc, removelast_snoc, !length_app. done.
Qed.

Lemma commit_matched g tr : tracks cfg g tr ->
  matched (traces (log_commit g)) = (matched (traces g) + match unacknowledged g with Some _ => 1 | None => 0 end)%Z.
Proof.
  intros Hg. unfold log_commit. cbn [traces]. destruct (unacknowledged g) as [l|] eqn:E; [|cbn; lia].
  destruct (tr_phase _ _ _ Hg l) as (k & x & Hk & _); [by right|]. by eapply match_in_one.
Qed.

(** Beginning an observation and reporting it. *)
Lemma begun_reported initial a g tr tr1 tr2 :
  tracks cfg g tr -> tracks cfg (log_step cfg g (EBegin initial a)) tr1 ->
  MatchedEvidence.reported tr1 = (Ok tt, tr2) -> (reportedCount tr <= MAX_SAFE_INTEGER)%Z ->
  (reportedCount tr2 = reportedCount tr + 1 /\ reportedCount tr < MAX_SAFE_INTEGER)%Z.
Proof.
  intros Hg H1 H2 Hb. destruct (reported_bound _ _ H2) as [-> Hn].
  enough (reportedCount tr1 = reportedCount tr) by lia.
  rewrite (tr_reported _ _ _ H1), (tr_reported _ _ _ Hg). cbn [log_step traces unacknowledged].
  rewrite <- (commit_matched g tr Hg). destruct initial; [rewrite concat_filter_nil|]; lia.
Qed.

Lemma recorded_ok f s : exists r, recorded (X := X) opts (fun r => Ok (f r)) s = (Ok tt, set_recorder r s).
Proof.
  unfold recorded. destruct (progress opts); [by eexists|]. exists (c_recorder s). by destruct s.
Qed.

Lemma js_succ_small z : (z < 2 ^ 53)%Z -> js_succ z = (z + 1)%Z.
Proof. intros H. unfold js_succ. destruct (Z.eqb_spec z (2 ^ 53)); [lia|done]. Qed.

Lemma observe_coupled initial action payload (t : turn X) s : coupled s ->
  match observe number_text opts initial action payload t s with
  | (Ok _, s') => coupled s'
  | (Err _, s') => broken s'
  end.
Proof.
  intros Hs. pose proof (co_tracks _ Hs) as Hg. unfold observe. rewrite run_step.
  pose proof (begin_core initial action s Hg) as H1.
  destruct (tracked opts _ s) as [[[]|e] s1]; [|by left].
  destruct H1 as (t1 & a & -> & -> & H1). rewrite run_step.
  destruct (recorded_ok (ReplayReport.begin initial) (set_tracker t1 s)) as [r1 ->]. rewrite run_modify, run_this, run_modify.
  match goal with |- context [log ?e ?s'] => set (s3 := log e s') end.
  assert (log_now s3 = log_step cfg (log_now s) (EBegin initial a)) as Hlog3.
  { unfold log_now. cbn [s3 log c_log]. rewrite observations_snoc. apply log_of_snoc. }
  assert (c_tracker s3 = t1 /\ c_acceptedTraces s3 = c_acceptedTraces s /\ c_acceptedSteps s3 = c_acceptedSteps s) as (E1 & E2 & E3)
    by done. clearbody s3.
  rewrite run_step. pose proof (compute_state_frame opts t s3) as H2.
  destruct (compute_state number_text opts t s3) as [[[]|e] s4].
  2:{ destruct H2 as [st ->]. right. left. change (log_now (set_state st s3)) with (log_now s3). change (c_tracker (set_state st s3)) with (c_tracker s3). by rewrite Hlog3, E1. }
  destruct H2 as (st & line & ->). rewrite run_step.
  set (s4 := log (Sent line) (set_state st s3)).
  assert (log_now s4 = log_step cfg (log_now s3) EReported) as Hlog4.
  { unfold log_now. cbn [s4 log c_log set_state]. rewrite observations_snoc. apply log_of_snoc. }
  assert (c_tracker s4 = t1 /\ c_acceptedTraces s4 = c_acceptedTraces s /\ c_acceptedSteps s4 = c_acceptedSteps s) as (E1' & E2' & E3')
    by done. clearbody s4.
  pose proof (tracked_spec (fun _ => MatchedEvidence.reported) s4 _ _ ltac:(rewrite E1'; by apply reported_tracks)) as H3.
  destruct (tracked opts _ s4) as [[[]|e] s5].
  2:{ destruct H3 as (t2 & -> & Hd). by left. }
  destruct H3 as (t2 & -> & H3 & Hr). rewrite <- Hlog3, <- Hlog4 in H3. rewrite run_step.
  pose proof (recorded_frame opts (reported number_text (JStr a)) (set_tracker t2 s4)) as H4.
  destruct (recorded opts _ _) as [[[]|e] s6].
  2:{ subst s6. right. left. exact H3. }
  destruct H4 as [r2 ->]. rewrite E1' in Hr. destruct (co_bounds _ Hs) as [Hb1 Hb2].
  destruct (begun_reported initial a _ _ _ _ Hg H1 Hr Hb2) as [Hc Hlt].
  pose proof (co_traces _ Hs) as Ht. pose proof (co_steps _ Hs) as Hst. unfold MAX_SAFE_INTEGER in *.
  split; unfold accepted, log_now, MAX_SAFE_INTEGER in *; cbn [c_log c_tracker set_recorder set_tracker modify mret c_acceptedTraces c_acceptedSteps].
  - exact H3.
  - by rewrite Hlog4.
  - rewrite Hlog4, Hlog3. cbn [log_step traces log_commit]. rewrite E2'.
    destruct initial; rewrite ?length_app, match_in_length; [|done]. rewrite js_succ_small by lia. cbn. lia.
  - rewrite E2', E3', Hc. destruct initial; rewrite js_succ_small by lia; lia.
  - rewrite E3', Hc. destruct initial; [lia|]. rewrite js_succ_small by lia. lia.
Qed.

Definition quiet (m : MirrorMessage) : bool := match m with StepOk => false | _ => true end.

Lemma log_now_dispatched m s : log_now (log (Dispatched m) s) =
  if quiet m then log_now s else log_step cfg (log_now s) EAcknowledge.
Proof.
  unfold log_now. cbn [log c_log]. rewrite observations_snoc. destruct m; cbn [quiet observation_of];
    rewrite ?app_nil_r; try done. apply log_of_snoc.
Qed.

Lemma coupled_dispatched m s : quiet m = true -> coupled s -> coupled (log (Dispatched m) s).
Proof.
  intros Hm [H1 H2 H3 H4 H5]. pose proof (log_now_dispatched m s) as E. rewrite Hm in E.
  split; rewrite ?E; done.
Qed.

(** The end of a run. *)
Definition done_with (rep : CompiledReplayReport) s : Prop :=
  finished cfg (log_commit (log_now s)) (c_tracker s) /\
  rep = replayReport (c_acceptedTraces s) (c_acceptedSteps s) None /\
  c_acceptedTraces s = Z.of_nat (length (traces (log_commit (log_now s)))) /\
  (c_acceptedTraces s + c_acceptedSteps s = matched (traces (log_commit (log_now s))))%Z.

Definition outcome (x : res error (option CompiledReplayReport) * core) : Prop :=
  match x with
  | (Ok None, s') => coupled s'
  | (Ok (Some rep), s') => done_with rep s'
  | (Err _, s') => broken s'
  end.

Lemma acknowledge_coupled s : coupled s ->
  outcome ((_ ← tracked opts (fun _ => MatchedEvidence.acknowledge);
            _ ← recorded opts (fun r => Ok (ReplayReport.acknowledge r)); mret None) (log (Dispatched StepOk) s)).
Proof.
  intros Hs. rewrite run_step. pose proof (log_now_dispatched StepOk s) as E. cbn [quiet] in E.
  pose proof (tracked_spec (fun _ => MatchedEvidence.acknowledge) (log (Dispatched StepOk) s) _ _
    (acknowledge_tracks cfg _ _ (co_tracks _ Hs))) as H.
  destruct (tracked _ _ _) as [[[]|e] s1].
  2:{ destruct H as (tr & -> & Hd). by left. }
  destruct H as (tr & -> & (_ & Htr) & _). rewrite run_step.
  destruct (recorded_ok ReplayReport.acknowledge (set_tracker tr (log (Dispatched StepOk) s))) as [r ->].
  pose proof (co_traces _ Hs) as Ht. pose proof (co_steps _ Hs) as Hst. pose proof (co_bounds _ Hs) as Hb.
  set (s' := set_recorder r _). assert (log_now s' = log_step cfg (log_now s) EAcknowledge) as E' by exact E.
  assert (reportedCount tr = reportedCount (c_tracker s)) as Hr.
  { rewrite (tr_reported _ _ _ Htr), (tr_reported _ _ _ (co_tracks _ Hs)), <- (commit_matched _ _ (co_tracks _ Hs)).
    cbn. lia. }
  cbn [outcome mret method_mret]. split; rewrite ?E'; unfold s'; cbn [c_tracker c_acceptedTraces c_acceptedSteps set_recorder set_tracker log].
  - exact Htr.
  - exact (co_idle _ Hs).
  - rewrite Ht. cbn [log_step traces log_commit]. by rewrite match_in_length.
  - by rewrite Hr.
  - by rewrite Hr.
Qed.

Lemma finish_done s : coupled s ->
  outcome ((_ ← tracked opts done_;
            r ← this (fun s => replayReport (c_acceptedTraces s) (c_acceptedSteps s) None);
            mret (Some r)) s).
Proof.
  intros Hs. rewrite run_step.
  pose proof (tracked_spec done_ s _ _ (done_tracks cfg _ _ (co_tracks _ Hs))) as H.
  destruct (tracked _ _ _) as [[[]|e] s1].
  2:{ destruct H as (tr & -> & Hd). by left. }
  destruct H as (tr & -> & (Hf & _) & _). 
  split_and!; [exact Hf|done|change (c_acceptedTraces s = Z.of_nat (length (traces (log_commit (log_now s)))))
    |change (c_acceptedTraces s + c_acceptedSteps s = matched (traces (log_commit (log_now s))))%Z].
  - rewrite (co_traces _ Hs). cbn [traces log_commit]. by rewrite match_in_length.
  - rewrite (co_steps _ Hs), (tr_reported _ _ _ (co_tracks _ Hs)). by rewrite <- (commit_matched _ _ (co_tracks _ Hs)).
Qed.

Lemma mismatch_broken action expected actual hints (t : turn X) s : coupled s ->
  outcome (handle number_text opts (StepMismatch action expected actual hints) t s).
Proof.
  intros Hs. cbn [handle]. rewrite run_step.
  pose proof (tracked_spec (fun _ => interrupt true) s _ _ (interrupt_tracks cfg true _ _ (co_tracks _ Hs))) as H.
  destruct (tracked _ _ _) as [[[]|e] s1].
  - destruct H as (tr & -> & Ht & _). right. right. exact Ht.
  - destruct H as (tr & -> & Hd). by left.
Qed.

Lemma observe_outcome initial action payload (t : turn X) s : coupled s ->
  outcome ((_ ← observe number_text opts initial action payload t; mret None) s).
Proof.
  intros Hs. rewrite run_step. pose proof (observe_coupled initial action payload t s Hs) as H.
  by destruct (observe _ _ _ _ _ _ _) as [[[]|e] s1].
Qed.

Lemma pass_outcome (t : turn X) s : coupled s -> outcome (pass number_text opts t s).
Proof.
  intros Hs. unfold pass. rewrite run_step. unfold lifted.
  destruct (receiveReplayMessage number_text (t_arrival t)) as [m|e]; [|by apply coupled_broken].
  rewrite run_step. unfold check. destruct (t_cancelled t); [by apply coupled_broken|].
  unfold mret, method_mret. rewrite run_modify.
  destruct (quiet m) eqn:Em; [|destruct m; try discriminate Em; by apply acknowledge_coupled].
  pose proof (coupled_dispatched m s Em Hs) as Hd.
  destruct m; try discriminate Em; try (by apply coupled_broken).
  - by apply observe_outcome.
  - by apply observe_outcome.
  - by apply mismatch_broken.
  - by apply finish_done.
Qed.

Lemma loop_outcome ts s : coupled s -> outcome (loop number_text opts ts s).
Proof.
  revert s. induction ts as [|t ts IH]; intros s Hs; [done|]. cbn [loop]. rewrite run_step.
  pose proof (pass_outcome t s Hs) as H. destruct (pass _ _ _ _) as [[[rep|]|e] s1]; [done|by apply IH|done].
Qed.

(** What an interruption makes of a broken run. *)
Definition interrupted s : Prop :=
  sealed (c_tracker s) = true /\ MatchedEvidence.complete (c_tracker s) = false /\
  (uncertain (c_tracker s) = [] -> tallied (traces (log_now s)) (c_tracker s)).

Lemma sealed_interrupt rejected tr : sealed tr = true -> interrupt rejected tr = (Ok tt, tr).
Proof. intros H. unfold interrupt, this, mbind, method_mbind. by rewrite H. Qed.

Lemma interrupt_broken s : broken s -> interrupted (tracked (X := X) opts (fun _ => interrupt false) s).2.
Proof.
  assert (dead (c_tracker s) -> interrupted s) as Hdead by (by intros (? & ? & ?)).
  unfold tracked. rewrite Hopts. assert (set_tracker (c_tracker s) s = s) as Hsame by by destruct s.
  intros [Hd|[Ht|(Ht & Hs & Hc)]].
  - rewrite sealed_interrupt by apply Hd. cbn. rewrite Hsame. auto.
  - pose proof (interrupt_tracks cfg false _ _ Ht _ eq_refl) as H.
    destruct (interrupt false (c_tracker s)) as [[[]|e] tr]; cbn.
    + destruct H as (H1 & H2 & H3). split_and!; done.
    + destruct H as (H1 & H2 & H3). by split_and!.
  - rewrite sealed_interrupt by done. cbn. rewrite Hsame. by split_and!.
Qed.

Lemma replayCore_outcome ts s : coupled s ->
  match replayCore number_text opts ts s with
  | (Err _, s') => interrupted s'
  | x => outcome x
  end.
Proof.
  intros Hs. unfold replayCore. pose proof (loop_outcome ts s Hs) as H.
  destruct (loop number_text opts ts s) as [[r|e] s1]; [done|].
  rewrite run_step. pose proof (interrupt_broken s1 H) as Hi. by destruct (tracked _ _ s1) as [[[]|e'] s2].
Qed.

Lemma new_core_coupled tr rec : tracks cfg (ReplayLog [] None None) tr -> coupled (new_core tr rec).
Proof.
  intros Hg. pose proof (tr_reported _ _ _ Hg) as Hr. cbn in Hr.
  split; cbn [c_tracker new_core c_acceptedTraces c_acceptedSteps]; try done; rewrite Hr; done.
Qed.
End evidence.

Lemma transitions_of_full xs : Forall (fun z => (1 <= z)%Z) (lens xs) ->
  Z.of_nat (length (EvidenceFacts.transitions xs)) = (matched xs - Z.of_nat (length xs))%Z.
Proof.
  unfold matched, EvidenceFacts.transitions. induction xs as [|x xs IH]; cbn [lens map concat length]; [done|].
  intros [Hx H]%Forall_cons. specialize (IH H). rewrite !length_app. destruct x; cbn in *; lia.
Qed.

(** C26: a completed replay has exact evidence, and report and evidence agree. When
    [replayCore] with a new tracker returns a report, the evidence is exact and
    complete; its counters are those of the observations the run made, whose traces
    have exactly the preflight state counts; the accepted traces of the report are
    the selected and completed traces of the evidence, its accepted steps the
    matched transitions, and together they are the reported states. *)
Theorem completed_replay_evidence d ra rp counts strict exp cfg tr opts rec ts rep s' :
  new_tracker d ra rp counts strict exp = Ok (cfg, tr) -> matchedEvidence opts = Some cfg ->
  replayCore number_text opts ts (new_core tr rec) = (Ok (Some rep), s') ->
  let ev := snapshot cfg (c_tracker s') in
  let xs := traces (log_commit (log_of cfg (observations (c_log s')))) in
  exact ev = true /\ corpusCompleted ev = true /\ lens xs = lengths cfg /\ evidence_of xs ev /\
  acceptedTraces rep = MatchedEvidence.tracesCompleted ev /\ MatchedEvidence.tracesCompleted ev = tracesSelected ev /\
  acceptedSteps rep = transitionsMatched ev /\
  MatchedEvidence.statesReported ev = (acceptedTraces rep + acceptedSteps rep)%Z.
Proof.
  intros Hnew Hopts Hrun ev xs. destruct (new_tracker_ok _ _ _ _ _ _ _ _ Hnew) as (Ht & Hpos & _).
  pose proof (replayCore_outcome opts cfg Hopts ts _ (new_core_coupled cfg tr rec Ht)) as H.
  rewrite Hrun in H. destruct H as ([Hta Hl Hc Hr (_ & Hco & Hu)] & -> & H1 & H2).
  unfold log_now in *. fold xs in Hta, Hl, Hc, Hr, H1, H2.
  assert (length xs = length (lengths cfg)) as Hlen by (rewrite <- Hl; unfold lens; by rewrite length_map).
  assert (Forall (fun z => (1 <= z)%Z) (lens xs)) as Hx by by rewrite Hl.
  pose proof (transitions_of_full xs Hx) as Htr. unfold ev, snapshot. cbn.
  split_and!; [by apply bool_decide_eq_true|done|done|by apply tallied_evidence|lia|by rewrite Hc, Hlen| |lia].
  rewrite (ta_transitions _ _ Hta), Htr. lia.
Qed.

(** A replay that fails never has complete evidence. Whatever made
    [replayCore] with a new tracker throw, the tracker is sealed afterwards and the
    evidence does not claim a completed corpus; and if it still claims to be exact,
    its counters are those of the observations that were acknowledged. *)
Theorem failed_replay_evidence d ra rp counts strict exp cfg tr opts rec ts e s' :
  new_tracker d ra rp counts strict exp = Ok (cfg, tr) -> matchedEvidence opts = Some cfg ->
  replayCore number_text opts ts (new_core tr rec) = (Err e, s') ->
  let ev := snapshot cfg (c_tracker s') in
  sealed (c_tracker s') = true /\ corpusCompleted ev = false /\
  (exact ev = true -> evidence_of (traces (log_of cfg (observations (c_log s')))) ev).
Proof.
  intros Hnew Hopts Hrun ev. destruct (new_tracker_ok _ _ _ _ _ _ _ _ Hnew) as (Ht & _).
  pose proof (replayCore_outcome opts cfg Hopts ts _ (new_core_coupled cfg tr rec Ht)) as H.
  rewrite Hrun in H. destruct H as (Hs & Hc & Hta). split_and!; [done|done|].
  intros Hu%bool_decide_eq_true. by apply tallied_evidence, Hta.
Qed.
End facts.

(** ** A concrete replay *)

(** The replay of the two traces of [sample_setup] by a client that answers every
    request with the same state. *)
Definition sample_line (step fields : string) : arrival unit :=
  ALine ($"{" ++ quoted_text ($"proto_step") ++ $":" ++ quoted_text (lit step) ++ lit fields ++ $"}").

Definition sample_request (step action payload : string) : arrival unit :=
  ALine ($"{" ++ quoted_text ($"proto_step") ++ $":" ++ quoted_text (lit step) ++ $"," ++
         quoted_text ($"action") ++ $":" ++ quoted_text (lit action) ++ $"," ++
         quoted_text (lit payload) ++ $":{}}").

Definition sample_turn (a : arrival unit) : turn unit := Turn a None (ReadyState [($"x", VInt 1)]) None None None.

Definition sample_step (step action payload : string) : list (turn unit) :=
  map sample_turn [sample_request step action payload; sample_line "step_ok" ""].

Definition sample_turns : list (turn unit) :=
  sample_step "initial_state" "init" "state" ++ sample_step "next_step" "send" "parameters" ++
  sample_step "next_step" "burn" "parameters" ++ sample_step "initial_state" "init" "state" ++
  [sample_turn (sample_line "all_steps_done" "")].

Definition sample_options : core_options := CoreOptions (Some sample_setup.1) true false.

Lemma sample_options_evidence : matchedEvidence sample_options = Some sample_setup.1.
Proof. reflexivity. Qed.

Abbreviation sample_run := (replayCore (fun _ => $"0.5") sample_options).

Definition sample_final : core := (sample_run sample_turns (new_core sample_setup.2 (new_recorder None))).2.
Definition sample_report : CompiledReplayReport := replayReport 2 2 None.

Lemma sample_completes : sample_run sample_turns (new_core sample_setup.2 (new_recorder None)) = (Ok (Some sample_report), sample_final).
Proof. vm_compute. reflexivity. Qed.

Example completed_replay_evidence_witness :
  let ev := snapshot sample_setup.1 (c_tracker sample_final) in
  let xs := traces (log_commit (log_of sample_setup.1 (observations (c_log sample_final)))) in
  exact ev = true /\ corpusCompleted ev = true /\ lens xs = lengths sample_setup.1 /\ evidence_of xs ev /\
  acceptedTraces sample_report = MatchedEvidence.tracesCompleted ev /\
  MatchedEvidence.tracesCompleted ev = tracesSelected ev /\
  acceptedSteps sample_report = transitionsMatched ev /\
  MatchedEvidence.statesReported ev = (acceptedTraces sample_report + acceptedSteps sample_report)%Z.
Proof.
  exact (completed_replay_evidence (fun _ => $"0.5") _ _ _ _ _ _ _ _ sample_options _ _ _ _ sample_setup_ok
    sample_options_evidence sample_completes).
Defined.

Example replay_lockstep_witness :
  conversation (fun _ => $"0.5") [] sample_turns (c_log sample_final) /\
  events is_request (c_log sample_final) = 4%nat /\ events is_answer (c_log sample_final) = 4%nat.
Proof.
  pose proof (replay_lockstep (fun _ => $"0.5") sample_options sample_turns sample_setup.2 (new_recorder None)) as H.
  rewrite sample_completes in H. destruct H as (H & _ & Hall). destruct (Hall _ eq_refl) as [Heq _].
  assert (events is_request (c_log sample_final) = 4%nat) as Hfour by (vm_compute; reflexivity).
  split; [exact H|]. split; [exact Hfour|]. rewrite <- Heq. exact Hfour.
Defined.

(** The transport closes after the first answer. *)
Definition sample_broken : list (turn unit) := take 1 sample_turns ++ [sample_turn AClosed].
Definition sample_broken_final : core := (sample_run sample_broken (new_core sample_setup.2 (new_recorder None))).2.
Definition sample_error : replay_error unit := Thrown (Exn XError ($"transport closed unexpectedly")).

Lemma sample_breaks : sample_run sample_broken (new_core sample_setup.2 (new_recorder None)) = (Err sample_error, sample_broken_final).
Proof. vm_compute. reflexivity. Qed.

Example failed_replay_evidence_witness :
  let ev := snapshot sample_setup.1 (c_tracker sample_broken_final) in
  sealed (c_tracker sample_broken_final) = true /\ corpusCompleted ev = false /\
  (exact ev = true -> evidence_of (traces (log_of sample_setup.1 (observations (c_log sample_broken_final)))) ev).
Proof.
  exact (failed_replay_evidence (fun _ => $"0.5") _ _ _ _ _ _ _ _ sample_options _ _ _ _ sample_setup_ok
    sample_options_evidence sample_breaks).
Defined.
