(* ===== verification/RecorderFacts.v ===== *)
(** * The recorder counts exactly what it can hold

    The tables of [ReplayRecorder] against their specification: the actions
    reported and the pairs of actions reported one after the other in a trace. The
    counters against what the calls alone say: traces, places, matches. *)

From S2P Require Import Prelude JsNumber Utf16 JsData JsText MatchedEvidence EvidenceFacts JsonText ReplayReport.

(** ** Tables of a limited size *)

Lemma js_succ_exact z : (z < 2 ^ 53)%Z -> js_succ z = (z + 1)%Z.
Proof. intros H. unfold js_succ. destruct (Z.eqb_spec z (2 ^ 53)); [lia|done]. Qed.

Lemma js_succ_pos z : (0 <= z)%Z -> (0 < js_succ z)%Z.
Proof. intros H. unfold js_succ. destruct (Z.eqb_spec z (2 ^ 53)); lia. Qed.

Section table.
Context {K V A : Type} `{EqDecision A}.
Context (same : K -> K -> bool) (key : A -> K) (valid : A -> Prop) (cnt : V -> Z) (limit : nat).
Context (same_iff : forall a k, valid a -> same (key a) k = true <-> k = key a).
Context (key_inj : forall a b, valid a -> valid b -> key a = key b -> a = b).

Implicit Types (t : list (K * V)) (a b : A) (l : list A).

Fixpoint total (t : list (K * V)) : Z :=
  match t with [] => 0 | e :: t' => cnt e.2 + total t' end%Z.

(** The table holds the count of each element of [l] it has room for. *)
Record counts (t : list (K * V)) (dropped : Z) (l : list A) : Prop := Counts {
  ct_limit : (length t <= limit)%nat;
  ct_total : (total t + dropped)%Z = Z.of_nat (length l);
  ct_nonneg : Forall (fun e => (0 <= cnt e.2)%Z) t /\ (0 <= dropped)%Z;
  ct_valid : Forall valid l;
  ct_some : forall a v, valid a -> table_get same t (key a) = Some v -> cnt v = count a l;
  ct_none : forall a, valid a -> table_get same t (key a) = None -> a ∉ l \/ ((length t >= limit)%nat /\ (0 < dropped)%Z) }.

Lemma total_set t k v : total (table_set same t k v) =
  (total t + cnt v - from_option cnt 0 (table_get same t k))%Z.
Proof.
  induction t as [|[k' v'] t IH]; cbn; [lia|]. destruct (same k k'); cbn; [lia|]. rewrite IH. lia.
Qed.

Lemma table_set_length t k v : length (table_set same t k v) =
  match table_get same t k with Some _ => length t | None => S (length t) end.
Proof.
  induction t as [|[k' v'] t IH]; cbn; [done|]. destruct (same k k'); cbn; [done|]. rewrite IH.
  by destruct (table_get same t k) as [?|].
Qed.

Lemma table_get_set t a b v : valid a -> valid b ->
  table_get same (table_set same t (key a) v) (key b) = if bool_decide (a = b) then Some v else table_get same t (key b).
Proof.
  intros Ha Hb. induction t as [|[k' v'] t IH]; cbn.
  - case_bool_decide as E; subst.
    + by rewrite (proj2 (same_iff b (key b) Hb) eq_refl).
    + destruct (same (key b) (key a)) eqn:Es; [|done]. apply same_iff in Es; [|done]. by apply key_inj in Es.
  - destruct (same (key a) k') eqn:Ea; cbn.
    + apply same_iff in Ea as ->; [|done]. case_bool_decide as E; subst.
      * by rewrite (proj2 (same_iff b (key b) Hb) eq_refl).
      * destruct (same (key b) (key a)) eqn:Es; [|done]. apply same_iff in Es; [|done]. by apply key_inj in Es.
    + destruct (same (key b) k') eqn:Eb; [|exact IH]. case_bool_decide as E; [|done]. subst. congruence.
Qed.

Lemma Forall_table_set (P : V -> Prop) t k v :
  Forall (fun e => P e.2) t -> P v -> Forall (fun e => P e.2) (table_set same t k v).
Proof.
  induction 1 as [|[k' v'] t Hx Ht IH]; intros Hv; cbn; [by constructor|].
  destruct (same k k'); constructor; try done. by apply IH.
Qed.

Lemma total_nonneg t : Forall (fun e => (0 <= cnt e.2)%Z) t -> (0 <= total t)%Z.
Proof. induction 1; cbn; lia. Qed.

Lemma total_get t k v : Forall (fun e => (0 <= cnt e.2)%Z) t -> table_get same t k = Some v -> (cnt v <= total t)%Z.
Proof.
  induction 1 as [|[k' v'] t Hx Ht IH]; cbn; [done|]. pose proof (total_nonneg t Ht). cbn in *.
  destruct (same k k'); [intros [= ->]; lia|]. intros H1. specialize (IH H1). lia.
Qed.

Lemma count_snoc_same (a : A) l : count a (l ++ [a]) = (count a l + 1)%Z.
Proof. by rewrite count_app, count_one, bool_decide_eq_true_2. Qed.
Lemma count_snoc_other (a b : A) l : a <> b -> count a (l ++ [b]) = count a l.
Proof. intros H. rewrite count_app, count_one, bool_decide_eq_false_2 by done. lia. Qed.
Lemma count_absent (a : A) l : a ∉ l -> count a l = 0%Z.
Proof.
  unfold count. induction l as [|b l IH]; [done|]. intros [H1 H2]%not_elem_of_cons. cbn.
  rewrite bool_decide_eq_false_2 by done. by apply IH.
Qed.

Lemma bounded_set_counts t dropped l a (v : option V -> V) t' dropped' :
  counts t dropped l -> valid a -> (Z.of_nat (length l) < 2 ^ 53)%Z ->
  (forall old, cnt (v old) = js_succ (from_option cnt 0 old)%Z) ->
  bounded_set same limit t dropped (key a) v = (t', dropped') -> counts t' dropped' (l ++ [a]).
Proof.
  intros [Hlim Htot [Hnn Hd] Hval Hsome Hnone] Ha Hb Hv.
  pose proof (total_nonneg t Hnn) as Hpos. unfold bounded_set.
  destruct (table_get same t (key a)) as [old|] eqn:E; cbn [orb].
  - intros [= <- <-]. pose proof (total_get t _ _ Hnn E) as Hle.
    assert (0 <= cnt old)%Z as Hold.
    { rewrite (Hsome a old Ha E). unfold count. lia. }
    assert (cnt (v (Some old)) = cnt old + 1)%Z as Hnew by (rewrite Hv; apply js_succ_exact; cbn; lia).
    split.
    + by rewrite table_set_length, E.
    + rewrite total_set, E, length_app. cbn [from_option length]. lia.
    + split; [|done]. apply (Forall_table_set (fun v => 0 <= cnt v)%Z); [done|lia].
    + apply Forall_app. split; [done|by constructor].
    + intros b w Hb' Hw. rewrite table_get_set in Hw by done. case_bool_decide as Eab.
      * subst. injection Hw as <-. rewrite count_snoc_same, Hnew. f_equal. by apply Hsome.
      * rewrite count_snoc_other by congruence. by apply Hsome.
    + intros b Hb' Hw. rewrite table_get_set in Hw by done. rewrite table_set_length, E.
      case_bool_decide as Eab; [done|]. destruct (Hnone b Hb' Hw) as [Hn|?]; [left|by right].
      rewrite elem_of_app, list_elem_of_singleton. intros [?|?]; [done|congruence].
  - destruct (Nat.ltb_spec (length t) limit) as [Hlt|Hge].
    + intros [= <- <-]. assert (cnt (v None) = 1)%Z as Hnew by (by rewrite Hv).
      assert (a ∉ l) as Hna by (destruct (Hnone a Ha E) as [?|[? _]]; [done|lia]).
      split.
      * rewrite table_set_length, E. lia.
      * rewrite total_set, E, length_app. cbn [from_option length]. lia.
      * split; [|done]. apply (Forall_table_set (fun v => 0 <= cnt v)%Z); [done|lia].
      * apply Forall_app. split; [done|by constructor].
      * intros b w Hb' Hw. rewrite table_get_set in Hw by done. case_bool_decide as Eab.
        -- subst. injection Hw as <-. by rewrite count_snoc_same, Hnew, count_absent.
        -- rewrite count_snoc_other by congruence. by apply Hsome.
      * intros b Hb' Hw. rewrite table_get_set in Hw by done. rewrite table_set_length, E.
        case_bool_decide as Eab; [done|]. destruct (Hnone b Hb' Hw) as [Hn|[? ?]]; [left|right; split; [lia|done]].
        rewrite elem_of_app, list_elem_of_singleton. intros [?|?]; [done|congruence].
    + intros [= <- <-]. rewrite js_succ_exact by lia. split; try done.
      * rewrite length_app. cbn [length]. lia.
      * split; [done|lia].
      * apply Forall_app. split; [done|by constructor].
      * intros b w Hb' Hw. assert (a <> b) as Hne by (intros ->; congruence).
        rewrite count_snoc_other by congruence. by apply Hsome.
      * intros b Hb' Hw. right. split; [lia|lia].
Qed.

Lemma empty_counts : counts [] 0 [].
Proof. split; cbn; try done; [lia|]. intros a _ _. left. apply not_elem_of_nil. Qed.
End table.

(** ** The specification *)

(** What was reported: every action, and every action with the one reported before
    it in the same trace. *)
Record history := History {
  h_actions : list ustring;
  h_pairs : list (ustring * ustring);
  h_last : option ustring }.

(** The calls of a recorder; [RFinish] is what [complete] does before its report. *)
Inductive recorder_op := RBegin (initial : bool) | RReport (action : ustring) | RAcknowledge | RFinish.

Definition history_step (h : history) (o : recorder_op) : history :=
  match o with
  | RBegin true => History (h_actions h) (h_pairs h) None
  | RReport a =>
      History (h_actions h ++ [a]) (h_pairs h ++ from_option (fun b => [(b, a)]) [] (h_last h)) (Some a)
  | _ => h
  end.

Definition history_of (ops : list recorder_op) : history := foldl history_step (History [] [] None) ops.

(** What the counters stand for, of the calls alone. *)
Definition is_report (o : recorder_op) : bool := match o with RReport _ => true | _ => false end.
Definition is_initial (o : recorder_op) : bool := match o with RBegin true => true | _ => false end.
Definition is_finish (o : recorder_op) : bool := match o with RFinish => true | _ => false end.

(** The traces that were begun. *)
Definition begun (ops : list recorder_op) : nat := length (List.filter is_initial ops).

(** The steps begun in the current trace, after [n] of them. *)
Fixpoint steps_begun (n : nat) (ops : list recorder_op) : nat :=
  match ops with
  | [] => n
  | RBegin initial :: ops' => steps_begun (if initial then O else S n) ops'
  | _ :: ops' => steps_begun n ops'
  end.

(** A report is matched by the call that follows it, unless that is another report.
    The matched reports, each by its place in its trace. *)
Definition matching (ops : list recorder_op) : bool := match ops with o :: _ => negb (is_report o) | [] => false end.
Fixpoint matched_places (n : nat) (ops : list recorder_op) : list nat :=
  match ops with
  | [] => []
  | RBegin initial :: ops' => matched_places (if initial then O else S n) ops'
  | RReport _ :: ops' => (if matching ops' then [n] else []) ++ matched_places n ops'
  | _ :: ops' => matched_places n ops'
  end.
Definition is_step (place : nat) : bool := match place with O => false | S _ => true end.

(** Whether the calls end in a report, which is then not yet matched. *)
Definition unmatched (ops : list recorder_op) : bool := match last ops with Some o => is_report o | None => false end.

(** Whether a trace was begun and the recorder was completed after it. *)
Fixpoint completed (ops : list recorder_op) : bool :=
  match ops with
  | [] => false
  | o :: ops' => if is_initial o then existsb is_finish ops' else completed ops'
  end.

(** The completed traces: all that were begun but the current one, and that one too
    when the recorder was completed. *)
Definition traces_completed (ops : list recorder_op) : nat := if completed ops then begun ops else pred (begun ops).

(** Every report follows a call that is none, as in the loop of a replay. *)
Fixpoint reports_apart (ops : list recorder_op) : bool :=
  match ops with
  | [] => true
  | o :: ops' => (negb (is_report o) || match ops' with o' :: _ => negb (is_report o') | [] => true end) && reports_apart ops'
  end.

Lemma steps_begun_app n ops ops' : steps_begun n (ops ++ ops') = steps_begun (steps_begun n ops) ops'.
Proof. revert n. induction ops as [|[] ops IH]; intros n; cbn; auto. Qed.

Lemma unmatched_snoc ops o : unmatched (ops ++ [o]) = is_report o.
Proof. unfold unmatched. by rewrite last_snoc. Qed.

Lemma unmatched_cons o o' ops : unmatched (o :: o' :: ops) = unmatched (o' :: ops).
Proof. done. Qed.

Lemma matched_cons n o ops : matched_places n (o :: ops) =
  (if is_report o && matching ops then [n] else []) ++ matched_places (steps_begun n [o]) ops.
Proof. by destruct o. Qed.

Lemma matched_places_snoc n ops o : matched_places n (ops ++ [o]) =
  matched_places n ops ++ (if unmatched ops && negb (is_report o) then [steps_begun n ops] else []).
Proof.
  revert n. induction ops as [|x ops IH]; intros n; [by destruct o|].
  destruct ops as [|y ops]; [by destruct x, o|].
  rewrite <- app_comm_cons, !(matched_cons _ x), IH, <- app_assoc, unmatched_cons.
  change (steps_begun n (x :: y :: ops)) with (steps_begun n ([x] ++ y :: ops)). by rewrite steps_begun_app.
Qed.

Lemma begun_snoc ops o : begun (ops ++ [o]) = (begun ops + if is_initial o then 1 else 0)%nat.
Proof. unfold begun. rewrite List.filter_app, length_app. cbn. by destruct (is_initial o). Qed.

Lemma completed_snoc ops o : completed (ops ++ [o]) = completed ops || (is_finish o && negb (begun ops =? 0)%nat).
Proof.
  induction ops as [|x ops IH]; cbn [app completed].
  - destruct (is_initial o); cbn; by rewrite andb_false_r.
  - unfold begun in *. cbn [List.filter]. destruct (is_initial x); [|exact IH].
    rewrite existsb_app. cbn. by rewrite orb_false_r, andb_true_r.
Qed.

Lemma apart_reports n ops : reports_apart ops = true ->
  length (List.filter is_report ops) = (length (matched_places n ops) + if unmatched ops then 1 else 0)%nat.
Proof.
  revert n. induction ops as [|x ops IH]; intros n; [done|]. cbn [reports_apart]. intros [Hx H]%andb_true_iff.
  destruct ops as [|y ops]; [by destruct x|].
  rewrite (matched_cons _ x), unmatched_cons, length_app, <- Nat.add_assoc, <- (IH (steps_begun n [x])) by done.
  change (List.filter is_report (x :: y :: ops)) with
    (if is_report x then x :: List.filter is_report (y :: ops) else List.filter is_report (y :: ops)).
  cbn [matching]. destruct (is_report x); [|done]. cbn [negb orb] in Hx. by rewrite Hx.
Qed.

Lemma reports_history ops : length (List.filter is_report ops) = length (h_actions (history_of ops)).
Proof.
  unfold history_of. enough (forall h, length (h_actions (foldl history_step h ops)) =
    (length (h_actions h) + length (List.filter is_report ops))%nat) as -> by done.
  induction ops as [|[[]|a| |] ops IH]; intros h; cbn [foldl List.filter is_report length]; [lia|rewrite IH; cbn; lia..| | |].
  - rewrite IH. cbn. rewrite length_app. cbn. lia.
  - rewrite IH. cbn. lia.
  - rewrite IH. cbn. lia.
Qed.

Section recorder.
Context (number_text : number -> ustring).

Definition recorder_step (r : recorder) (o : recorder_op) : res exn recorder :=
  match o with
  | RBegin initial => Ok (ReplayReport.begin initial r)
  | RReport a => ReplayReport.reported number_text (JStr a) r
  | RAcknowledge => Ok (ReplayReport.acknowledge r)
  | RFinish => Ok (ReplayReport.finish r)
  end.

Fixpoint recorder_run (r : recorder) (ops : list recorder_op) : res exn recorder :=
  match ops with
  | [] => Ok r
  | o :: ops' => r' ← recorder_step r o; recorder_run r' ops'
  end.

Definition op_ok (o : recorder_op) : Prop := match o with RReport a => js_string a | _ => True end.

Lemma sequence_key_pair a b : sequence_key number_text (JStr a) (JStr b) = Ok (pair_key a b).
Proof.
  change (sequence_key number_text (JStr a) (JStr b)) with
    (Ok (E := exn) ($"[" ++ (quote_string a ++ $"," ++ quote_string b) ++ $"]")).
  unfold pair_key. by rewrite <- !app_assoc.
Qed.

Definition key_of_pair (p : ustring * ustring) : ustring := pair_key p.1 p.2.
Definition pair_ok (p : ustring * ustring) : Prop := js_string p.1 /\ js_string p.2.

Lemma same_key_iff a k : js_string a -> same_key (JStr a) k = true <-> k = JStr a.
Proof.
  intros _. destruct k; cbn; split; intros H; try discriminate H; try done.
  - apply bool_decide_eq_true in H. by subst.
  - injection H as ->. by apply bool_decide_eq_true.
Qed.

Lemma same_pair_iff p k : pair_ok p -> same_text (key_of_pair p) k = true <-> k = key_of_pair p.
Proof. intros _. unfold same_text. rewrite bool_decide_eq_true. by split. Qed.

Lemma key_of_pair_inj p q : pair_ok p -> pair_ok q -> key_of_pair p = key_of_pair q -> p = q.
Proof.
  destruct p as [a b], q as [c d]. intros [Ha Hb] [Hc Hd] E.
  destruct (pair_key_inj a b c d Ha Hb Hc Hd E) as [-> ->]. done.
Qed.

Abbreviation action_counts_ok := (counts same_key JStr js_string id ACTION_LIMIT).
Abbreviation pair_counts_ok := (counts same_text key_of_pair pair_ok sq_count SEQUENCE_LIMIT).

Record recorder_ok (h : history) (r : recorder) : Prop := RecorderOk {
  ro_actions : action_counts_ok (actions r) (droppedActionEvents r) (h_actions h);
  ro_pairs : pair_counts_ok (sequences r) (droppedSequenceEvents r) (h_pairs h);
  ro_labels : forall p q, pair_ok p -> table_get same_text (sequences r) (key_of_pair p) = Some q ->
    sq_from q = JStr p.1 /\ sq_to q = JStr p.2;
  ro_last : previousAction r = from_option JStr JUndef (h_last h) /\ from_option js_string True (h_last h);
  ro_reported : ReplayReport.statesReported r = Z.of_nat (length (h_actions h)) }.

Lemma acknowledge_ok h r : recorder_ok h r -> recorder_ok h (ReplayReport.acknowledge r).
Proof. intros []. unfold ReplayReport.acknowledge. by destruct (ReplayReport.pending r). Qed.

Lemma finished_ok h r : recorder_ok h r -> recorder_ok h (ReplayReport.finish r).
Proof. by intros []%acknowledge_ok. Qed.

Lemma reported_ok h r a : recorder_ok h r -> js_string a -> (Z.of_nat (length (h_actions h)) < 2 ^ 53)%Z ->
  (Z.of_nat (length (h_pairs h)) < 2 ^ 53)%Z ->
  exists r', ReplayReport.reported number_text (JStr a) r = Ok r' /\ recorder_ok (history_step h (RReport a)) r'.
Proof.
  intros [Ha Hp Hl [Hla Hlj] Hr] Hja Hb Hb2. unfold ReplayReport.reported, count_sequence.
  destruct (bounded_set same_key ACTION_LIMIT (actions r) (droppedActionEvents r) (JStr a) _) as [acts dropped] eqn:E.
  eapply (bounded_set_counts same_key JStr js_string id ACTION_LIMIT same_key_iff) in E;
    [|by intros ? ? _ _ [= ->]|exact Ha|exact Hja|exact Hb|by intros []].
  rewrite Hla. destruct (h_last h) as [b|] eqn:Eh; cbn [from_option] in *.
  - rewrite sequence_key_pair. cbn [mbind res_mbind mret res_mret].
    destruct (bounded_set same_text SEQUENCE_LIMIT (sequences r) (droppedSequenceEvents r) (pair_key b a) _)
      as [seqs sdropped] eqn:Es.
    assert (Es' := Es). change (pair_key b a) with (key_of_pair (b, a)) in Es'.
    eapply (bounded_set_counts same_text key_of_pair pair_ok sq_count SEQUENCE_LIMIT same_pair_iff key_of_pair_inj) in Es';
      [|exact Hp|by split|exact Hb2|by intros []].
    eexists. split; [done|]. unfold history_step. rewrite Eh. split; cbn [fst snd actions sequences droppedActionEvents
      droppedSequenceEvents previousAction ReplayReport.statesReported ReplayReport.statesMatched ReplayReport.stepsCompleted
      ReplayReport.pending ReplayReport.tracesCompleted ReplayReport.tracesStarted h_actions h_pairs h_last from_option]; try done.
    + intros p q Hpq Hq. unfold bounded_set in Es.
      destruct (_ || _) in Es; injection Es as <- <-; [|by apply Hl].
      change (pair_key b a) with (key_of_pair (b, a)) in Hq.
      rewrite (table_get_set same_text key_of_pair pair_ok same_pair_iff key_of_pair_inj) in Hq; [|by split|done].
      case_bool_decide as Epq; [|by apply Hl]. subst p. by injection Hq as <-.
    + rewrite Hr, js_succ_exact, length_app by done. cbn. lia.
  - eexists. split; [done|]. unfold history_step. rewrite Eh. cbn [from_option]. rewrite app_nil_r. split; cbn [fst snd actions sequences droppedActionEvents
      droppedSequenceEvents previousAction ReplayReport.statesReported ReplayReport.statesMatched ReplayReport.stepsCompleted
      ReplayReport.pending ReplayReport.tracesCompleted ReplayReport.tracesStarted h_actions h_pairs h_last from_option]; try done.
    + rewrite Hr, js_succ_exact, length_app by done. cbn. lia.
Qed.

Lemma begin_ok h r initial : recorder_ok h r ->
  recorder_ok (history_step h (RBegin initial)) (ReplayReport.begin initial r).
Proof. intros [Ha Hp Hl Hla Hre]%acknowledge_ok. unfold ReplayReport.begin. by destruct initial. Qed.

Lemma history_grows h ops :
  (length (h_actions (foldl history_step h ops)) <= length (h_actions h) + length ops /\
   length (h_pairs (foldl history_step h ops)) <= length (h_pairs h) + length ops)%nat.
Proof.
  revert h. induction ops as [|o ops IH]; intros h; cbn [foldl length]; [lia|]. specialize (IH (history_step h o)).
  enough (length (h_actions (history_step h o)) <= length (h_actions h) + 1 /\
          length (h_pairs (history_step h o)) <= length (h_pairs h) + 1)%nat by lia.
  destruct o as [[]|a| |]; cbn; rewrite ?length_app; [lia..| |lia|lia]. destruct (h_last h); cbn; lia.
Qed.

Lemma recorder_run_ok ops : forall h r, recorder_ok h r -> Forall op_ok ops ->
  (Z.of_nat (length (h_actions h) + length ops) < 2 ^ 53)%Z ->
  (Z.of_nat (length (h_pairs h) + length ops) < 2 ^ 53)%Z ->
  exists r', recorder_run r ops = Ok r' /\ recorder_ok (foldl history_step h ops) r'.
Proof.
  induction ops as [|o ops IH]; intros h r Hr Hops H1 H2; [by exists r|].
  apply Forall_cons in Hops as [Ho Hops]. cbn [recorder_run foldl length] in *.
  assert (exists r1, recorder_step r o = Ok r1 /\ recorder_ok (history_step h o) r1) as (r1 & -> & Hr1).
  { destruct o as [initial|a| |]; cbn [recorder_step].
    - eexists. split; [done|]. by apply begin_ok.
    - apply reported_ok; [done|done|lia|lia].
    - eexists. split; [done|]. by apply acknowledge_ok.
    - eexists. split; [done|]. by apply finished_ok. }
  pose proof (history_grows h [o]) as Hg. cbn [foldl length] in Hg.
  apply IH; [done|done|lia|lia].
Qed.

Lemma new_recorder_ok digest : recorder_ok (History [] [] None) (new_recorder digest).
Proof. split; cbn; try done; apply empty_counts. Qed.

(** *** The counters *)

Record counters_ok (ops : list recorder_op) (r : recorder) : Prop := CountersOk {
  cc_started : ReplayReport.tracesStarted r = Z.of_nat (begun ops);
  cc_completed : ReplayReport.tracesCompleted r = Z.of_nat (traces_completed ops);
  cc_matched : ReplayReport.statesMatched r = Z.of_nat (length (matched_places 0 ops));
  cc_steps : ReplayReport.stepsCompleted r = Z.of_nat (length (List.filter is_step (matched_places 0 ops)));
  cc_index : ReplayReport.stateIndex r = Z.of_nat (steps_begun 0 ops);
  cc_pending : ReplayReport.pending r = unmatched ops }.

Lemma places_bound n ops : (length (matched_places n ops) <= length ops)%nat.
Proof.
  revert n. induction ops as [|o ops IH]; intros n; [done|]. rewrite matched_cons, length_app. specialize (IH (steps_begun n [o])).
  set (m := steps_begun n [o]) in *. clearbody m. cbn [length]. destruct (_ && _); cbn; lia.
Qed.

Lemma steps_bound n ops : (steps_begun n ops <= n + length ops)%nat.
Proof.
  revert n. induction ops as [|[[]|a| |] ops IH]; intros n; cbn [steps_begun length]; [lia|..].
  - specialize (IH 0%nat). lia.
  - specialize (IH (S n)). lia.
  - specialize (IH n). lia.
  - specialize (IH n). lia.
  - specialize (IH n). lia.
Qed.

Lemma begun_bound ops : (begun ops <= length ops)%nat.
Proof. apply List.filter_length_le. Qed.

(** The counters after the match that a call makes, if it is no report. *)
Lemma acknowledge_counters ops o r : counters_ok ops r -> (Z.of_nat (length ops) < 2 ^ 53)%Z -> is_report o = false ->
  let r' := ReplayReport.acknowledge r in
  ReplayReport.tracesStarted r' = Z.of_nat (begun ops) /\ ReplayReport.tracesCompleted r' = Z.of_nat (traces_completed ops) /\
  ReplayReport.statesMatched r' = Z.of_nat (length (matched_places 0 (ops ++ [o]))) /\
  ReplayReport.stepsCompleted r' = Z.of_nat (length (List.filter is_step (matched_places 0 (ops ++ [o])))) /\
  ReplayReport.stateIndex r' = Z.of_nat (steps_begun 0 ops) /\ ReplayReport.pending r' = unmatched (ops ++ [o]).
Proof.
  intros [H1 H2 H3 H4 H5 H6] Hb Ho. cbv zeta. rewrite matched_places_snoc, unmatched_snoc, Ho, andb_true_r, List.filter_app, !length_app.
  pose proof (places_bound 0 ops). pose proof (List.filter_length_le is_step (matched_places 0 ops)).
  unfold ReplayReport.acknowledge. rewrite <- H6. destruct (ReplayReport.pending r) eqn:E; cbn [app length List.filter]; [|rewrite !Nat.add_0_r; by split_and!].
  cbn. rewrite H3, H4, H5, js_succ_exact by lia. split_and!; try done; [lia|].
  destruct (steps_begun 0 ops) as [|k]; cbn; [by rewrite Nat.add_0_r|].
  rewrite (proj2 (Z.ltb_lt 0 _)), js_succ_exact by lia. lia.
Qed.

Lemma completed_begun ops : completed ops = true -> begun ops <> O.
Proof.
  unfold begun. induction ops as [|o ops IH]; [done|]. cbn [completed List.filter]. by destruct (is_initial o).
Qed.

Lemma completed_next (c : bool) n : (c = true -> n <> O) -> (Z.of_nat n < 2 ^ 53)%Z ->
  (let z := Z.of_nat (if c then n else pred n) in if (0 <? Z.of_nat n)%Z then js_succ z else z) =
  Z.of_nat (if c then (n + 1)%nat else pred (n + 1)).
Proof.
  intros Hc Hn. cbv zeta. destruct n as [|k]; [destruct c; [by destruct (Hc eq_refl)|done]|].
  rewrite (proj2 (Z.ltb_lt 0 _)) by lia. rewrite js_succ_exact by (destruct c; lia). destruct c; lia.
Qed.

Lemma counters_step ops o r r' : counters_ok ops r -> (Z.of_nat (length ops) < 2 ^ 53)%Z ->
  recorder_step r o = Ok r' -> counters_ok (ops ++ [o]) r'.
Proof.
  intros Hr Hb. pose proof (begun_bound ops) as Hbb. pose proof (steps_bound 0 ops) as Hsb. destruct o as [initial|a| |]; cbn [recorder_step].
  - destruct (acknowledge_counters ops (RBegin initial) r Hr Hb eq_refl) as (H1 & H2 & H3 & H4 & H5 & H6). intros [= <-].
    unfold ReplayReport.begin. pose proof (completed_begun ops) as Hcb. unfold traces_completed in H2.
    destruct initial; split; cbn; try done; unfold traces_completed; rewrite ?begun_snoc, ?completed_snoc, ?steps_begun_app;
      cbn [is_initial is_finish andb steps_begun]; rewrite ?orb_false_r, ?Nat.add_0_r, ?H1, ?H2, ?H5; try done.
    + rewrite js_succ_exact by lia. lia.
    + apply completed_next; [done|lia].
    + rewrite js_succ_exact by lia. lia.
  - destruct Hr as [H1 H2 H3 H4 H5 H6]. unfold ReplayReport.reported.
    destruct (bounded_set _ _ _ _ _ _) as [acts dropped]. destruct (count_sequence _ _ _) as [seqs|]; [|done]. intros [= <-].
    split; cbn; unfold traces_completed; rewrite ?begun_snoc, ?completed_snoc, ?matched_places_snoc, ?steps_begun_app, ?unmatched_snoc;
      cbn [is_initial is_finish is_report negb andb steps_begun]; rewrite ?orb_false_r, ?andb_false_r, ?Nat.add_0_r, ?app_nil_r; done.
  - destruct (acknowledge_counters ops RAcknowledge r Hr Hb eq_refl) as (H1 & H2 & H3 & H4 & H5 & H6). intros [= <-].
    split; try done; unfold traces_completed; rewrite ?begun_snoc, ?completed_snoc, ?steps_begun_app;
      cbn [is_initial is_finish andb steps_begun]; by rewrite ?orb_false_r, ?Nat.add_0_r.
  - destruct (acknowledge_counters ops RFinish r Hr Hb eq_refl) as (H1 & H2 & H3 & H4 & H5 & H6). intros [= <-].
    unfold ReplayReport.finish. split; cbn; try done; unfold traces_completed; rewrite ?begun_snoc, ?completed_snoc, ?steps_begun_app;
      cbn [is_initial is_finish andb steps_begun]; rewrite ?Nat.add_0_r; try done.
    rewrite H1. by destruct (completed ops), (begun ops).
Qed.

Lemma counters_run ops : forall pre r r', counters_ok pre r -> (Z.of_nat (length pre + length ops) < 2 ^ 53)%Z ->
  recorder_run r ops = Ok r' -> counters_ok (pre ++ ops) r'.
Proof.
  induction ops as [|o ops IH]; intros pre r r' Hr Hb H; [injection H as <-; by rewrite app_nil_r|].
  cbn [recorder_run] in H. apply res_bind_Ok in H as (r1 & H1 & H). cbn [length] in Hb.
  rewrite cons_middle, app_assoc. apply (IH _ r1); [|rewrite length_app; cbn; lia|done].
  eapply counters_step; [exact Hr|lia|done].
Qed.

(** The tables: what they hold and what they dropped are the reports. *)
Definition tables_exact (h : history) (r : recorder) : Prop :=
  (length (actions r) <= ACTION_LIMIT)%nat /\ (length (sequences r) <= SEQUENCE_LIMIT)%nat /\
  (total id (actions r) + droppedActionEvents r)%Z = Z.of_nat (length (h_actions h)) /\
  (total sq_count (sequences r) + droppedSequenceEvents r)%Z = Z.of_nat (length (h_pairs h)) /\
  (forall a, js_string a ->
     match table_get same_key (actions r) (JStr a) with
     | Some n => n = count a (h_actions h)
     | None => a ∉ h_actions h \/ (0 < droppedActionEvents r)%Z
     end) /\
  (forall a b, js_string a -> js_string b ->
     match table_get same_text (sequences r) (pair_key a b) with
     | Some q => q = SequenceCount (JStr a) (JStr b) (count (a, b) (h_pairs h))
     | None => (a, b) ∉ h_pairs h \/ (0 < droppedSequenceEvents r)%Z
     end).

Lemma recorder_ok_tables h r : recorder_ok h r -> tables_exact h r.
Proof.
  intros [[Ha1 Ha2 _ _ Ha3 Ha4] [Hp1 Hp2 _ _ Hp3 Hp4] Hl _ _]. split_and!; try done.
  - intros a Ha. destruct (table_get same_key (actions r) (JStr a)) as [n|] eqn:E; [by apply (Ha3 a n Ha E)|].
    destruct (Ha4 a Ha E) as [?|[_ ?]]; [by left|by right].
  - intros a b Ha Hb. change (pair_key a b) with (key_of_pair (a, b)).
    destruct (table_get same_text (sequences r) (key_of_pair (a, b))) as [q|] eqn:E.
    + destruct (Hl (a, b) q (conj Ha Hb) E) as [Hf Ht]. pose proof (Hp3 (a, b) q (conj Ha Hb) E) as Hc.
      destruct q. cbn in *. by subst.
    + destruct (Hp4 (a, b) (conj Ha Hb) E) as [?|[_ ?]]; [by left|by right].
Qed.

End recorder.

(** ** A concrete recorder *)

Definition sample_ops : list recorder_op :=
  [RBegin true; RReport ($"init"); RAcknowledge; RBegin false; RReport ($"add"); RBegin false; RReport ($"add"); RFinish].

