(* ===== verification/Acceptance.v ===== *)
(** * Acceptance requirements

    [src/src/acceptance.ts]: the validation of the required actions and pairs, and
    their evaluation against the evidence of a suite. The requirements are checked
    at run time and are [js] here; the evidence is what a suite wrote, its counters
    decimal strings in plain objects. *)

From Stdlib Require Import SpecFloat.
From S2P Require Import Prelude JsNumber Utf16 JsData JsText StrictJsonFacts Decode MatchedEvidence JsonText.

Definition MAX_REQUIRED_ACTIONS : nat := 256.
Definition MAX_REQUIRED_PAIRS : nat := 1024.

Record AcceptanceRequirements := Requirements {
  requiredActions : list ustring;
  requiredPairs : list (ustring * ustring) }.

Record SuiteEvidence := MkSuiteEvidence {
  enteredReplay : bool;
  se_complete : bool;
  se_exact : bool;
  tracesExpected : number;
  se_tracesCompleted : number;
  initializationsMatched : ustring;
  actionCounts : object_t;
  pairCounts : object_t }.

Inductive acceptance_status := Met | Unmet | Incomplete | NotEvaluated.

#[export] Instance acceptance_status_eq_dec : EqDecision acceptance_status.
Proof. solve_decision. Defined.

Record AcceptanceAssessment := Assessment {
  as_status : acceptance_status;
  missingActions : list ustring;
  missingPairs : list (ustring * ustring) }.

Definition acceptancePairKey (pair : ustring * ustring) : ustring := pair_key pair.1 pair.2.

(** ** Validation *)

Section validation.
Context (ids : option (list ustring)).

(** [valid(id)] *)
Definition valid_id (v : js) : option ustring :=
  match v with
  | JStr id =>
      if (0 <? length id)%nat && match ids with Some l => bool_decide (id ∈ l) | None => true end
      then Some id else None
  | _ => None
  end.

Definition valid_pair (v : js) : option (ustring * ustring) :=
  match v with
  | JArr [a; b] => from ← valid_id a; to ← valid_id b; Some (from, to)
  | _ => None
  end.

(** [input.field ?? []] *)
Definition field_list (o : object_t) (field : string) : js := nullish (getf o (lit field)) (JArr []).

Definition known_field (k : ustring) : bool := (k =s "requiredActions") || (k =s "requiredPairs").

(** The own properties of an object; [None] for what is not one. *)
Definition own_properties (v : js) : option object_t :=
  match v with
  | JObj o => Some o
  | JArr l => Some (imap (fun i x => (dec_of_N (N.of_nat i), x)) l)
  | _ => None
  end.

Definition validateAcceptanceRequirements (input : js) : res exn AcceptanceRequirements :=
  match own_properties input with
  | Some o =>
      if forallb known_field (keys o) then
        match field_list o "requiredActions", field_list o "requiredPairs" with
        | JArr actions, JArr pairs =>
            if (length actions <=? MAX_REQUIRED_ACTIONS)%nat && (length pairs <=? MAX_REQUIRED_PAIRS)%nat then
              match mapM valid_id actions, mapM valid_pair pairs with
              | Some acts, Some prs =>
                  if no_dups acts && no_dups (map acceptancePairKey prs) then Ok (Requirements acts prs)
                  else throw XType "duplicate acceptance requirement"
              | _, _ => throw XType "requirements must name known transition IDs"
              end
            else throw XRange "acceptance requirement limit exceeded"
        | _, _ => throw XRange "acceptance requirement limit exceeded"
        end
      else throw XType "invalid acceptance requirements"
  | None => throw XType "invalid acceptance requirements"
  end.
End validation.

(** ** Evaluation *)

(** A canonical decimal (no leading zero), and [BigInt(value)]. *)
Definition canonical_decimal (s : ustring) : option N :=
  match s with
  | [] => None
  | c :: s' =>
      if (c =? 48)%N then match s' with [] => Some 0%N | _ => None end
      else if forallb is_digit s then Some (N_of_dec s) else None
  end.

Definition count_in (table : object_t) (key : ustring) : option N :=
  match getf table key with JStr value => canonical_decimal value | _ => None end.

Definition evidence_conclusive (number_text : number -> ustring) (e : SuiteEvidence) : bool :=
  se_complete e && se_exact e &&
  match num_safe_Z (tracesExpected e) with Some z => (0 <? z)%Z | None => false end &&
  SFeqb (se_tracesCompleted e) (tracesExpected e) &&
  bool_decide (initializationsMatched e = num_text number_text (tracesExpected e)).

Definition is_defined {A} (o : option A) : bool := match o with Some _ => true | None => false end.
Definition is_zero (o : option N) : bool := match o with Some n => (n =? 0)%N | None => false end.

Definition evaluateAcceptance (number_text : number -> ustring) (requirements : js) (e : SuiteEvidence)
    : res exn AcceptanceAssessment :=
  checked ← validateAcceptanceRequirements None requirements;
  let acts := requiredActions checked in
  let prs := requiredPairs checked in
  let action_count id := count_in (actionCounts e) id in
  let pair_count p := count_in (pairCounts e) (acceptancePairKey p) in
  mret
    (if negb (enteredReplay e) then Assessment NotEvaluated [] []
     else if negb (evidence_conclusive number_text e) then Assessment Incomplete [] []
     else if existsb (fun id => negb (is_defined (action_count id))) acts ||
             existsb (fun p => negb (is_defined (pair_count p))) prs
     then Assessment Incomplete [] []
     else
       let missing_a := List.filter (fun id => is_zero (action_count id)) acts in
       let missing_p := List.filter (fun p => is_zero (pair_count p)) prs in
       Assessment (match missing_a, missing_p with [], [] => Met | _, _ => Unmet end) missing_a missing_p).

(** ** Facts *)

Definition requirements_js (r : AcceptanceRequirements) : js :=
  JObj [($"requiredActions", JArr (map JStr (requiredActions r)));
        ($"requiredPairs", JArr (map (fun p => JArr [JStr p.1; JStr p.2]) (requiredPairs r)))].

(** What validation promises. *)
Definition admissible (ids : option (list ustring)) (r : AcceptanceRequirements) : Prop :=
  let known id := id <> [] /\ from_option (fun l => id ∈ l) True ids in
  (length (requiredActions r) <= MAX_REQUIRED_ACTIONS)%nat /\
  (length (requiredPairs r) <= MAX_REQUIRED_PAIRS)%nat /\
  Forall known (requiredActions r) /\ Forall (fun p => known p.1 /\ known p.2) (requiredPairs r) /\
  NoDup (requiredActions r) /\ NoDup (map acceptancePairKey (requiredPairs r)).

Lemma valid_id_iff ids v id :
  valid_id ids v = Some id <-> v = JStr id /\ id <> [] /\ from_option (fun l => id ∈ l) True ids.
Proof.
  destruct v; try (split; [done|by intros (? & _)]). unfold valid_id.
  assert ((0 <? length s)%nat = true <-> s <> []) as Hl by (destruct s; cbn; split; done).
  assert ((match ids with Some l => bool_decide (s ∈ l) | None => true end) = true <->
    from_option (fun l => s ∈ l) True ids) as Hi by (destruct ids; cbn; [apply bool_decide_eq_true|done]).
  split.
  - destruct (_ && _) eqn:E; [|done]. intros [= <-]. apply andb_true_iff in E as [?%Hl ?%Hi]. done.
  - intros ([= ->] & H1%Hl & H2%Hi). by rewrite H1, H2.
Qed.

Lemma valid_pair_iff ids v a b :
  valid_pair ids v = Some (a, b) <-> v = JArr [JStr a; JStr b] /\
    valid_id ids (JStr a) = Some a /\ valid_id ids (JStr b) = Some b.
Proof.
  destruct v as [| | | | | |[|x [|y [|? ?]]]|]; try (split; [done|by intros (? & _)]). cbn [valid_pair]. split.
  - intros H. apply bind_Some in H as (a' & Ha & H). apply bind_Some in H as (b' & Hb & [= -> ->]).
    assert (Ha' := Ha). assert (Hb' := Hb). apply valid_id_iff in Ha' as (-> & _). by apply valid_id_iff in Hb' as (-> & _).
  - intros ([= -> ->] & -> & ->). done.
Qed.

Lemma mapM_Some_2 {A B} (f : A -> option B) (g : B -> A) l k :
  (forall x y, f x = Some y <-> x = g y /\ f (g y) = Some y) ->
  mapM f l = Some k <-> l = map g k /\ Forall (fun y => f (g y) = Some y) k.
Proof.
  intros Hf. rewrite mapM_Some. split.
  - induction 1 as [|x y l k Hx _ [-> IH]]; [done|]. apply Hf in Hx as [-> Hx]. split; [done|by constructor].
  - intros [-> H]. induction H; constructor; done.
Qed.

Lemma valid_ids ids l k :
  mapM (valid_id ids) l = Some k <-> l = map JStr k /\ Forall (fun id => valid_id ids (JStr id) = Some id) k.
Proof.
  apply (mapM_Some_2 (valid_id ids) JStr). intros x y. rewrite !valid_id_iff. split; [intros (-> & H)|intros (-> & _ & H)]; done.
Qed.

Lemma valid_pairs ids l k :
  mapM (valid_pair ids) l = Some k <->
  l = map (fun p => JArr [JStr p.1; JStr p.2]) k /\
  Forall (fun p => valid_pair ids (JArr [JStr p.1; JStr p.2]) = Some p) k.
Proof.
  apply (mapM_Some_2 (valid_pair ids) (fun p => JArr [JStr p.1; JStr p.2])). intros x [a b].
  rewrite !valid_pair_iff. cbn. split; [intros (-> & H)|intros (-> & _ & H)]; done.
Qed.

Lemma admissible_iff ids acts prs :
  (length acts <= MAX_REQUIRED_ACTIONS)%nat -> (length prs <= MAX_REQUIRED_PAIRS)%nat ->
  admissible ids (Requirements acts prs) <->
  Forall (fun id => valid_id ids (JStr id) = Some id) acts /\
  Forall (fun p => valid_pair ids (JArr [JStr p.1; JStr p.2]) = Some p) prs /\
  NoDup acts /\ NoDup (map acceptancePairKey prs).
Proof.
  intros H1 H2. unfold admissible. cbn [requiredActions requiredPairs].
  assert (forall id, valid_id ids (JStr id) = Some id <-> id <> [] /\ from_option (fun l => id ∈ l) True ids) as Hv.
  { intros id. rewrite valid_id_iff. tauto. }
  assert (forall p, valid_pair ids (JArr [JStr p.1; JStr p.2]) = Some p <->
    (p.1 <> [] /\ from_option (fun l => p.1 ∈ l) True ids) /\ (p.2 <> [] /\ from_option (fun l => p.2 ∈ l) True ids)) as Hp.
  { intros [a b]. rewrite valid_pair_iff, !Hv. cbn. tauto. }
  rewrite (Forall_iff _ _ _ (fun id => iff_sym (Hv id))), (Forall_iff _ _ _ (fun p => iff_sym (Hp p))). tauto.
Qed.

(** The lists of the input that were validated. *)
Lemma validate_Ok ids input r :
  validateAcceptanceRequirements ids input = Ok r <->
  admissible ids r /\
  exists o, own_properties input = Some o /\ forallb known_field (keys o) = true /\
    field_list o "requiredActions" = JArr (map JStr (requiredActions r)) /\
    field_list o "requiredPairs" = JArr (map (fun p => JArr [JStr p.1; JStr p.2]) (requiredPairs r)).
Proof.
  destruct r as [acts prs]. unfold validateAcceptanceRequirements. split.
  - destruct (own_properties input) as [o|]; [|done]. destruct (forallb known_field (keys o)) eqn:Ek; [|done].
    destruct (field_list o "requiredActions") as [| | | | | |actions|] eqn:Ea; try done.
    destruct (field_list o "requiredPairs") as [| | | | | |pairs|] eqn:Ep; try done.
    destruct (_ && _) eqn:El; [|done]. apply andb_true_iff in El as [E1%Nat.leb_le E2%Nat.leb_le].
    destruct (mapM (valid_id ids) actions) as [acts'|] eqn:Hacts; [|done].
    destruct (mapM (valid_pair ids) pairs) as [prs'|] eqn:Hprs; [|done].
    destruct (_ && _) eqn:En; [|done]. intros [= -> ->].
    apply andb_true_iff in En as [N1%no_dups_NoDup N2%no_dups_NoDup].
    apply valid_ids in Hacts as [-> F1]. apply valid_pairs in Hprs as [-> F2]. rewrite length_map in E1, E2.
    split; [by apply admissible_iff|]. by exists o.
  - intros (Ha & o & -> & -> & -> & ->). assert (Ha' := Ha). destruct Ha' as (H1 & H2 & _).
    apply admissible_iff in Ha as (F1 & F2 & N1 & N2); [|done..]. cbn [requiredActions requiredPairs] in *.
    rewrite !length_map, !(proj2 (Nat.leb_le _ _)) by done. cbn [andb].
    rewrite (proj2 (valid_ids ids _ acts)) by done. rewrite (proj2 (valid_pairs ids _ prs)) by done.
    by rewrite !(proj2 (no_dups_NoDup _)).
Qed.

Lemma requirements_fields r :
  exists o, own_properties (requirements_js r) = Some o /\ forallb known_field (keys o) = true /\
    field_list o "requiredActions" = JArr (map JStr (requiredActions r)) /\
    field_list o "requiredPairs" = JArr (map (fun p => JArr [JStr p.1; JStr p.2]) (requiredPairs r)).
Proof. eexists. split; [done|]. split; [done|]. by split. Qed.

(** Validation accepts exactly the admissible requirements, and what it accepts
    it accepts again. It returns a value exactly when the input is an object with
    no other fields whose lists, absent ones empty, are the returned ones, within
    both limits, naming nonempty known IDs, without a repeated action or pair; and
    validating the returned requirements (with the same IDs, or with none, as the
    evaluation does) returns them unchanged. *)
Theorem requirements_validated ids input r :
  (validateAcceptanceRequirements ids input = Ok r <->
   admissible ids r /\
   exists o, own_properties input = Some o /\ forallb known_field (keys o) = true /\
     field_list o "requiredActions" = JArr (map JStr (requiredActions r)) /\
     field_list o "requiredPairs" = JArr (map (fun p => JArr [JStr p.1; JStr p.2]) (requiredPairs r))) /\
  (validateAcceptanceRequirements ids input = Ok r ->
   validateAcceptanceRequirements ids (requirements_js r) = Ok r /\
   validateAcceptanceRequirements None (requirements_js r) = Ok r).
Proof.
  split; [apply validate_Ok|]. intros [Ha _]%validate_Ok. split; apply validate_Ok; (split; [|apply requirements_fields]).
  - done.
  - destruct Ha as (H1 & H2 & H3 & H4 & H5 & H6). split_and!; try done.
    + eapply Forall_impl; [exact H3|]. intros id [? _]. by split.
    + eapply Forall_impl; [exact H4|]. intros p [[? _] [? _]]. by split.
Qed.

(** An action or pair the evidence has a count of. *)
Definition counted (table : object_t) (key : ustring) (n : N) : Prop :=
  exists value, getf table key = JStr value /\ canonical_decimal value = Some n.

Lemma counted_iff table key n : count_in table key = Some n <-> counted table key n.
Proof.
  unfold count_in, counted. destruct (getf table key); (split; [intros H|intros (value & [= ->] & H)]); try done. by eexists.
Qed.

Lemma existsb_undefined {A} (f : A -> option N) l :
  existsb (fun x => negb (is_defined (f x))) l = false <-> Forall (fun x => exists n, f x = Some n) l.
Proof.
  induction l as [|x l IH]; cbn; [by split|]. rewrite orb_false_iff, IH, Forall_cons, negb_false_iff.
  destruct (f x); cbn; split; intros [H1 H2]; split; try done; [by eexists|by destruct H1].
Qed.

Lemma zero_iff {A} (f : A -> option N) l x : x ∈ List.filter (fun x => is_zero (f x)) l <-> x ∈ l /\ f x = Some 0%N.
Proof.
  rewrite !list_elem_of_In, List.filter_In. apply and_iff_compat_l. unfold is_zero.
  destruct (f x) as [n|]; [|done]. rewrite N.eqb_eq. split; [by intros ->|by intros [= ->]].
Qed.

(** Every requirement has a count. *)
Definition all_counted (r : AcceptanceRequirements) (e : SuiteEvidence) : Prop :=
  Forall (fun id => exists n, counted (actionCounts e) id n) (requiredActions r) /\
  Forall (fun p => exists n, counted (pairCounts e) (acceptancePairKey p) n) (requiredPairs r).

(** Conclusive evidence: complete and exact, of a positive number of traces that are
    all completed and all initialized. *)
Definition conclusive (e : SuiteEvidence) : Prop :=
  se_complete e = true /\ se_exact e = true /\
  exists n, num_safe_Z (tracesExpected e) = Some n /\ (0 < n)%Z /\
    SFeqb (se_tracesCompleted e) (tracesExpected e) = true /\ initializationsMatched e = dec_of_Z n.

Lemma conclusive_iff number_text e : evidence_conclusive number_text e = true <-> conclusive e.
Proof.
  unfold evidence_conclusive, conclusive, num_text. rewrite !andb_true_iff, bool_decide_eq_true.
  destruct (num_safe_Z (tracesExpected e)) as [n|]; [rewrite Z.ltb_lt|]; naive_solver.
Qed.

Lemma inconclusive_iff number_text e : evidence_conclusive number_text e = false <-> ~ conclusive e.
Proof. rewrite <- (conclusive_iff number_text). by destruct (evidence_conclusive number_text e). Qed.

(** The assessment says exactly what the evidence shows. For admissible
    requirements the evaluation never throws; it is "not_evaluated" exactly when
    the replay was not entered; otherwise "incomplete" exactly when the evidence is
    not conclusive (complete, exact, as many traces as expected) or lacks the count
    of some requirement; otherwise it lists exactly the requirements whose count is
    zero, and is "met" exactly when there are none, that is when every required
    action and pair was matched at least once. *)
Theorem acceptance_assessment number_text input r e :
  validateAcceptanceRequirements None input = Ok r ->
  exists a, evaluateAcceptance number_text input e = Ok a /\
  (as_status a = NotEvaluated <-> enteredReplay e = false) /\
  (as_status a = Incomplete <->
     enteredReplay e = true /\ (~ conclusive e \/ ~ all_counted r e)) /\
  (as_status a = Met <->
     enteredReplay e = true /\ conclusive e /\
     Forall (fun id => exists n, counted (actionCounts e) id n /\ n <> 0%N) (requiredActions r) /\
     Forall (fun p => exists n, counted (pairCounts e) (acceptancePairKey p) n /\ n <> 0%N) (requiredPairs r)) /\
  (as_status a = Unmet \/ as_status a = Met ->
     (forall id, id ∈ missingActions a <-> id ∈ requiredActions r /\ counted (actionCounts e) id 0) /\
     (forall p, p ∈ missingPairs a <-> p ∈ requiredPairs r /\ counted (pairCounts e) (acceptancePairKey p) 0)).
Proof.
  intros Hr. unfold evaluateAcceptance. rewrite Hr. cbn [mbind res_mbind mret res_mret]. eexists. split; [reflexivity|].
  rewrite <- (inconclusive_iff number_text), <- (conclusive_iff number_text).
  destruct (enteredReplay e); cbn [negb].
  2:{ split; [done|]. split; [split; [done|by intros [? _]]|]. split; [split; [done|by intros [? _]]|]. by intros [?|?]. }
  destruct (evidence_conclusive number_text e); cbn [negb].
  2:{ split; [done|]. split; [split; [intros _; split; [done|by left]|done]|].
      split; [split; [done|by intros (_ & ? & _)]|]. by intros [?|?]. }
  set (fa := fun id => count_in (actionCounts e) id). set (fp := fun p => count_in (pairCounts e) (acceptancePairKey p)).
  assert (all_counted r e <-> Forall (fun id => exists n, fa id = Some n) (requiredActions r) /\
    Forall (fun p => exists n, fp p = Some n) (requiredPairs r)) as Hall.
  { unfold all_counted, fa, fp. by setoid_rewrite counted_iff. }
  rewrite <- !existsb_undefined in Hall.
  match goal with |- context [if ?c then _ else _] =>
    change c with (existsb (fun x => negb (is_defined (fa x))) (requiredActions r) ||
                   existsb (fun x => negb (is_defined (fp x))) (requiredPairs r)) end.
  destruct (_ || _) eqn:Ex.
  { apply orb_true_iff in Ex. assert (~ all_counted r e) as Hno.
    { rewrite Hall. intros [E1 E2]. destruct Ex as [Ex|Ex]; congruence. }
    split; [done|]. split; [split; [intros _; split; [done|by right]|done]|]. split; [|by intros [?|?]].
    split; [done|]. intros (_ & _ & Ha & Hp). destruct Hno. split.
    - eapply Forall_impl; [exact Ha|]. intros id (n & Hn & _). by exists n.
    - eapply Forall_impl; [exact Hp|]. intros p (n & Hn & _). by exists n. }
  apply orb_false_iff in Ex. pose proof (proj2 Hall Ex) as Hc. destruct Ex as [Ca%existsb_undefined Cp%existsb_undefined].
  assert (forall {A} (f : A -> option N) l, Forall (fun x => exists n, f x = Some n) l ->
    List.filter (fun x => is_zero (f x)) l = [] <-> Forall (fun x => exists n, f x = Some n /\ n <> 0%N) l) as Hnil.
  { intros A f l Hl. rewrite Forall_forall in Hl. rewrite Forall_forall. split.
    - intros E x Hx. destruct (Hl x Hx) as [n Hn]. exists n. split; [done|]. intros ->.
      assert (x ∈ List.filter (fun x => is_zero (f x)) l) as Hin by (by apply zero_iff).
      rewrite E in Hin. by apply not_elem_of_nil in Hin.
    - intros H. destruct (List.filter _ l) as [|x k] eqn:E; [done|].
      assert (x ∈ List.filter (fun x => is_zero (f x)) l) as [Hx Hz]%zero_iff by (rewrite E; by left).
      destruct (H x Hx) as (n & Hn & ?). congruence. }
  set (ma := List.filter (fun x => is_zero (fa x)) (requiredActions r)).
  set (mp := List.filter (fun x => is_zero (fp x)) (requiredPairs r)).
  assert (Forall (fun id => exists n, counted (actionCounts e) id n /\ n <> 0%N) (requiredActions r) <-> ma = []) as Ha.
  { unfold ma. rewrite (Hnil _ fa _ Ca). apply Forall_iff. intros id. by setoid_rewrite <- counted_iff. }
  assert (Forall (fun p => exists n, counted (pairCounts e) (acceptancePairKey p) n /\ n <> 0%N) (requiredPairs r) <-> mp = []) as Hp.
  { unfold mp. rewrite (Hnil _ fp _ Cp). apply Forall_iff. intros p. by setoid_rewrite <- counted_iff. }
  rewrite Ha, Hp. change (List.filter _ (requiredActions r)) with ma. change (List.filter _ (requiredPairs r)) with mp.
  split; [by destruct ma, mp|]. split.
  { split; [by destruct ma, mp|]. by intros (_ & [?|?]). }
  split; [destruct ma, mp; cbn; (split; [done|]); by intros (_ & _ & ? & ?)|].
  intros _. cbn [missingActions missingPairs]. split; intros x.
  - rewrite <- counted_iff. apply (zero_iff fa).
  - rewrite <- counted_iff. apply (zero_iff fp).
Qed.

(** ** Concrete requirements *)

Definition sample_requirements : js :=
  JObj [($"requiredActions", JArr [JStr ($"add"); JStr ($"remove")])].

Definition sample_evidence : SuiteEvidence :=
  MkSuiteEvidence true true true (num_of_Z 2) (num_of_Z 2) ($"2")
    [($"add", JStr ($"3")); ($"remove", JStr ($"0"))] [].

Definition sample_checked : AcceptanceRequirements := Requirements [$"add"; $"remove"] [].

Lemma sample_requirements_ok : validateAcceptanceRequirements None sample_requirements = Ok sample_checked.
Proof. vm_compute. reflexivity. Qed.

Example acceptance_assessment_witness :
  exists a, evaluateAcceptance (fun _ => []) sample_requirements sample_evidence = Ok a /\
  (as_status a = NotEvaluated <-> enteredReplay sample_evidence = false) /\
  (as_status a = Incomplete <->
     enteredReplay sample_evidence = true /\
     (~ conclusive sample_evidence \/ ~ all_counted sample_checked sample_evidence)) /\
  (as_status a = Met <->
     enteredReplay sample_evidence = true /\ conclusive sample_evidence /\
     Forall (fun id => exists n, counted (actionCounts sample_evidence) id n /\ n <> 0%N)
       (requiredActions sample_checked) /\
     Forall (fun p => exists n, counted (pairCounts sample_evidence) (acceptancePairKey p) n /\ n <> 0%N)
       (requiredPairs sample_checked)) /\
  (as_status a = Unmet \/ as_status a = Met ->
     (forall id, id ∈ missingActions a <->
        id ∈ requiredActions sample_checked /\ counted (actionCounts sample_evidence) id 0) /\
     (forall p, p ∈ missingPairs a <->
        p ∈ requiredPairs sample_checked /\ counted (pairCounts sample_evidence) (acceptancePairKey p) 0)).
Proof. exact (acceptance_assessment (fun _ => []) _ _ sample_evidence sample_requirements_ok). Defined.
