(* ===== verification/Transport.v ===== *)
(** * The line transport

    The framing of [src/src/transport.ts]: [validateProtocolLine] and the bytes of
    a sent line, the iterator [lineIterator] whose reads wait for lines, and
    [attachProtocolFraming], which cuts a stream of byte chunks into lines. The
    sockets, processes and TLS contexts around it are platform I/O and not
    modelled. *)

From S2P Require Import Prelude JsNumber Utf16 JsData JsText.

(** ** UTF-8 *)

Definition continuation (b : N) : bool := (0x80 <=? b)%N && (b <=? 0xbf)%N.
Definition between (lo hi b : N) : bool := (lo <=? b)%N && (b <=? hi)%N.

(** The fatal UTF-8 decoder of the Encoding standard: the code points, unless the
    bytes are malformed. *)
Fixpoint utf8_decode (bs : list N) : option (list N) :=
  match bs with
  | [] => Some []
  | b :: bs1 =>
      if (b <? 0x80)%N then cons b <$> utf8_decode bs1
      else match bs1 with
      | [] => None
      | c :: bs2 =>
          if between 0xc2 0xdf b then
            if continuation c then cons ((b - 0xc0) * 64 + (c - 0x80))%N <$> utf8_decode bs2 else None
          else match bs2 with
          | [] => None
          | d :: bs3 =>
              if between 0xe0 0xef b then
                if between (if (b =? 0xe0)%N then 0xa0 else 0x80) (if (b =? 0xed)%N then 0x9f else 0xbf) c &&
                   continuation d
                then cons ((b - 0xe0) * 4096 + (c - 0x80) * 64 + (d - 0x80))%N <$> utf8_decode bs3 else None
              else match bs3 with
              | [] => None
              | e :: bs4 =>
                  if between 0xf0 0xf4 b then
                    if between (if (b =? 0xf0)%N then 0x90 else 0x80) (if (b =? 0xf4)%N then 0x8f else 0xbf) c &&
                       continuation d && continuation e
                    then cons ((b - 0xf0) * 262144 + (c - 0x80) * 4096 + (d - 0x80) * 64 + (e - 0x80))%N
                           <$> utf8_decode bs4
                    else None
                  else None
              end
          end
      end
  end.

Definition strip_bom (bs : list N) : list N :=
  match bs with 0xef%N :: 0xbb%N :: 0xbf%N :: bs' => bs' | _ => bs end.

(** [new TextDecoder("utf-8", { fatal: true }).decode(bytes)] *)
Definition text_decode (bs : list N) : option ustring :=
  (fun cps => concat (map fromCodePoint cps)) <$> utf8_decode (strip_bom bs).

(** ** Sending *)

Definition MAX_PROTOCOL_LINE_BYTES : N := 65535.

Definition LF : N := 0x0a.
Definition CR : N := 0x0d.

Definition validateProtocolLine (line : ustring) : res exn unit :=
  if (length line =? 0)%nat then throw XError "protocol line must not be empty"
  else if bool_decide (LF ∈ line) then throw XError "protocol line contains an embedded newline"
  else
    let bytes := byteLength line in
    if (MAX_PROTOCOL_LINE_BYTES <? bytes)%N then
      Err (Exn XError ($"protocol line is " ++ dec_of_N bytes ++ $" UTF-8 bytes; maximum is " ++
                       dec_of_N MAX_PROTOCOL_LINE_BYTES))
    else Ok tt.

(** What [send] writes to the stream. *)
Definition send_bytes (line : ustring) : res exn (list N) :=
  _ ← validateProtocolLine line; mret (utf8_bytes (line ++ [LF])).

(** ** lineIterator *)

Inductive pulled := PLine (line : ustring) | PDone | PRejected (e : exn).

(** [waiters] and the keys of [settled] are the numbers of the calls of [pull]; a
    promise settles at most once. *)
Record sink := Sink {
  buffer : list ustring;
  waiters : list nat;
  closed : bool;
  failure : option exn;
  pulls : nat;
  settled : list (nat * pulled) }.

Definition new_sink : sink := Sink [] [] false None 0 [].

Definition emit (line : ustring) (s : sink) : sink :=
  match waiters s with
  | w :: ws => Sink (buffer s) ws (closed s) (failure s) (pulls s) (settled s ++ [(w, PLine line)])
  | [] => Sink (buffer s ++ [line]) [] (closed s) (failure s) (pulls s) (settled s)
  end.

Definition finish (s : sink) : sink :=
  if closed s then s
  else Sink (buffer s) [] true (failure s) (pulls s) (settled s ++ map (fun w => (w, PDone)) (waiters s)).

Definition fail_sink (e : exn) (s : sink) : sink :=
  if closed s then s
  else Sink [] [] true (Some e) (pulls s) (settled s ++ map (fun w => (w, PRejected e)) (waiters s)).

Definition pull (s : sink) : sink :=
  let id := pulls s in
  let settle (r : pulled) (rest : list ustring) :=
    Sink rest (waiters s) (closed s) (failure s) (S id) (settled s ++ [(id, r)]) in
  match failure s with
  | Some e => settle (PRejected e) (buffer s)
  | None =>
      match buffer s with
      | line :: rest => settle (PLine line) rest
      | [] =>
          if closed s then settle PDone []
          else Sink [] (waiters s ++ [id]) (closed s) (failure s) (S id) (settled s)
      end
  end.

(** ** attachProtocolFraming *)

Definition framingError (message : ustring) : exn := Exn XError ($"protocol framing error: " ++ message).

Definition ends_in_cr (bs : list N) : bool := bool_decide (last bs = Some CR).

(** The payload of a raw record: without the CR of a CRLF. *)
Definition payload_of (raw : list N) : list N := if ends_in_cr raw then removelast raw else raw.

Definition too_long (n : N) : exn :=
  framingError ($"protocol line is " ++ dec_of_N n ++ $" UTF-8 bytes; maximum is " ++ dec_of_N MAX_PROTOCOL_LINE_BYTES).

Definition bytes_length (bs : list N) : N := N.of_nat (length bs).

Definition decodePayload (raw : list N) : res exn ustring :=
  let payload := payload_of raw in
  if (MAX_PROTOCOL_LINE_BYTES <? bytes_length payload)%N then Err (too_long (bytes_length payload))
  else match text_decode payload with
       | Some line => Ok line
       | None => Err (framingError ($"protocol line is not valid UTF-8"))
       end.

(** The methods work on [pending]. *)
Definition framing := method (list N) exn.

Definition appendPrefix (part : list N) : framing unit :=
  pending ← this id;
  let total := bytes_length (pending ++ part) in
  let last_cr := match part with [] => ends_in_cr pending | _ => ends_in_cr part end in
  _ ← when ((MAX_PROTOCOL_LINE_BYTES + 1 <? total)%N || (MAX_PROTOCOL_LINE_BYTES <? total)%N && negb last_cr)
        (throws (framingError ($"protocol line exceeds " ++ dec_of_N MAX_PROTOCOL_LINE_BYTES ++ $" UTF-8 bytes")));
  modify (fun pending => pending ++ part).

(** The bytes before the first LF and those after it. *)
Fixpoint cut (bs : list N) : option (list N * list N) :=
  match bs with
  | [] => None
  | b :: bs' =>
      if (b =? LF)%N then Some ([], bs')
      else (fun p => (b :: p.1, p.2)) <$> cut bs'
  end.

(** One record that a LF completes. *)
Definition complete_record (part : list N) : framing ustring :=
  pending ← this id;
  let endsInCr := match part with [] => ends_in_cr pending | _ => ends_in_cr part end in
  let payloadLength := (bytes_length (pending ++ part) - (if endsInCr then 1 else 0))%N in
  _ ← when (MAX_PROTOCOL_LINE_BYTES <? payloadLength)%N (throws (too_long payloadLength));
  _ ← modify (fun pending => pending ++ part);
  raw ← this id;
  line ← (fun s => (decodePayload raw, s));
  _ ← modify (fun _ => []);
  mret line.

(** The loop over a chunk; each pass but the last consumes a LF. *)
Fixpoint records (fuel : nat) (bs : list N) (completed : list ustring) : framing (list ustring) :=
  match fuel with
  | O => throws (Exn XFuel [])
  | S fuel' =>
      match cut bs with
      | None => _ ← appendPrefix bs; mret completed
      | Some (part, rest) =>
          line ← complete_record part;
          match rest with
          | [] => mret (completed ++ [line])
          | _ => records fuel' rest (completed ++ [line])
          end
      end
  end.

Record stream := Stream { pending : list N; terminal : bool; fatal : bool; lines : sink }.

Definition new_stream : stream := Stream [] false false new_sink.

(** [stop]: the reader is failed and [onFatal] is scheduled. *)
Definition stop (e : exn) (p : list N) (s : stream) : stream := Stream p true true (fail_sink e (lines s)).

Definition onData (bytes : list N) (s : stream) : stream :=
  if terminal s then s
  else match records (S (length bytes)) bytes [] (pending s) with
       | (Ok completed, p) => Stream p false (fatal s) (foldl (fun k line => emit line k) (lines s) completed)
       | (Err e, p) => stop e p s
       end.

Definition onEnd (s : stream) : stream :=
  if terminal s then s
  else match pending s with
       | [] => Stream [] true (fatal s) (finish (lines s))
       | p => stop (framingError ($"protocol line is not terminated by LF before EOF")) p s
       end.

(** Also [onStreamError]. *)
Definition onClose (s : stream) : stream :=
  if terminal s then s else Stream [] true (fatal s) (finish (lines s)).

(** The events of a stream, and the reads of its owner. A chunk that is a string
    stands for its UTF-8 bytes. *)
Inductive chunk := Bytes (l : list N) | Text (s : ustring).

Definition chunk_bytes (c : chunk) : list N := match c with Bytes l => l | Text s => utf8_bytes s end.

Inductive stream_event := OnData (c : chunk) | OnEnd | OnClose | Pull.

Definition stream_step (s : stream) (e : stream_event) : stream :=
  match e with
  | OnData c => onData (chunk_bytes c) s
  | OnEnd => onEnd s
  | OnClose => onClose s
  | Pull => Stream (pending s) (terminal s) (fatal s) (pull (lines s))
  end.

Definition stream_run (es : list stream_event) : stream := foldl stream_step new_stream es.
