(* ===== verification/TransportFacts.v ===== *)
(** * Lines survive the transport

    The stream of bytes is cut into lines whatever its chunks are; the lines are
    delivered in order, one to each read; and a line that was sent arrives. *)

From S2P Require Import Prelude JsNumber Utf16 JsData JsText StrictJsonFacts StrictJsonRoundtrip Canonical Protocol ClientMessages Transport.

(** ** The specification of the framing *)

(** The LF-terminated records of a text of bytes, and what follows the last. *)
Fixpoint segments (bs : list N) : list (list N) * list N :=
  match bs with
  | [] => ([], [])
  | b :: bs' =>
      let '(raws, rest) := segments bs' in
      if (b =? LF)%N then ([] :: raws, rest)
      else match raws with
           | [] => ([], b :: rest)
           | raw :: raws' => ((b :: raw) :: raws', rest)
           end
  end.

Definition decoded (raw : list N) : option ustring := match decodePayload raw with Ok line => Some line | Err _ => None end.

(** An unfinished record may have one byte more only if it is the CR of a CRLF. *)
Definition rest_ok (rest : list N) : bool :=
  (bytes_length rest <=? MAX_PROTOCOL_LINE_BYTES)%N ||
  (bytes_length rest =? MAX_PROTOCOL_LINE_BYTES + 1)%N && ends_in_cr rest.

(** The lines of a text of bytes and the unfinished rest, if every record is well
    formed. *)
Definition frame (bs : list N) : option (list ustring * list N) :=
  let '(raws, rest) := segments bs in
  ls ← mapM decoded raws;
  if rest_ok rest then Some (ls, rest) else None.

(** ** Segments *)

Definition prepend (p : list N) (x : list (list N) * list N) : list (list N) * list N :=
  match x.1 with [] => ([], p ++ x.2) | raw :: raws => ((p ++ raw) :: raws, x.2) end.

Lemma segments_cut bs :
  segments bs = match cut bs with
                | None => ([], bs)
                | Some (part, rest) => (part :: (segments rest).1, (segments rest).2)
                end.
Proof.
  induction bs as [|b bs IH]; [done|]. cbn [segments cut]. rewrite IH. destruct (b =? LF)%N.
  - destruct (cut bs) as [[part rest]|] eqn:E; cbn; rewrite IH; done.
  - by destruct (cut bs) as [[part rest]|].
Qed.

Lemma cut_length bs part rest : cut bs = Some (part, rest) -> (length bs = length part + S (length rest))%nat.
Proof.
  revert part rest. induction bs as [|b bs IH]; intros part rest; cbn; [done|].
  destruct (b =? LF)%N; [by intros [= <- <-]|]. destruct (cut bs) as [[p r]|] eqn:E; cbn; [|done].
  intros [= <- <-]. rewrite (IH p r) by done. cbn. lia.
Qed.

Lemma cut_app p bs : LF ∉ p -> cut (p ++ bs) = (fun x => (p ++ x.1, x.2)) <$> cut bs.
Proof.
  intros Hp. induction p as [|b p IH]; cbn; [by destruct (cut bs) as [[]|]|].
  apply not_elem_of_cons in Hp as [Hb Hp]. rewrite (proj2 (N.eqb_neq b LF)) by congruence.
  rewrite IH by done. by destruct (cut bs) as [[]|].
Qed.

Lemma cut_none bs : cut bs = None -> LF ∉ bs.
Proof.
  induction bs as [|b bs IH]; cbn; [intros _; apply not_elem_of_nil|].
  destruct (N.eqb_spec b LF); [done|]. destruct (cut bs); [done|]. intros _.
  apply not_elem_of_cons. split; [congruence|by apply IH].
Qed.

Lemma segments_app p bs : LF ∉ p -> segments (p ++ bs) = prepend p (segments bs).
Proof.
  intros Hp. rewrite (segments_cut (p ++ bs)), (segments_cut bs), cut_app by done.
  by destruct (cut bs) as [[part rest]|].
Qed.

Lemma segments_rest bs : LF ∉ (segments bs).2.
Proof.
  remember (length bs) as n eqn:Hn. revert bs Hn. induction (lt_wf n) as [n _ IH]. intros bs ->.
  rewrite segments_cut. destruct (cut bs) as [[part rest]|] eqn:E; cbn; [|by apply cut_none].
  apply cut_length in E as E'. apply (IH (length rest)); [lia|done].
Qed.

(** The records of a text that continues another. *)
Lemma segments_continue a b :
  segments (a ++ b) = ((segments a).1 ++ (segments ((segments a).2 ++ b)).1, (segments ((segments a).2 ++ b)).2).
Proof.
  remember (length a) as n eqn:Hn. revert a Hn. induction (lt_wf n) as [n _ IH]. intros a ->.
  rewrite (segments_cut a). destruct (cut a) as [[part rest]|] eqn:E; cbn [fst snd app].
  2:{ by destruct (segments (a ++ b)). }
  assert (cut (a ++ b) = Some (part, rest ++ b)) as Eab.
  { clear IH. revert part E. induction a as [|x a IHa]; intros part; cbn; [done|]. destruct (x =? LF)%N; [by intros [= <- ->]|].
    destruct (cut a) as [[p r]|]; cbn; [|done]. intros [= <- ->]. by rewrite (IHa p). }
  rewrite (segments_cut (a ++ b)), Eab. apply cut_length in E.
  by rewrite (IH (length rest)) by (done || lia).
Qed.

(** ** The loop follows the specification *)

Lemma ends_in_cr_app p part : ends_in_cr (p ++ part) = match part with [] => ends_in_cr p | _ => ends_in_cr part end.
Proof.
  unfold ends_in_cr. destruct part as [|b part]; [by rewrite app_nil_r|]. by rewrite last_app_cons.
Qed.

Lemma rest_ok_spec p part :
  (MAX_PROTOCOL_LINE_BYTES + 1 <? bytes_length (p ++ part))%N ||
  (MAX_PROTOCOL_LINE_BYTES <? bytes_length (p ++ part))%N &&
    negb (match part with [] => ends_in_cr p | _ => ends_in_cr part end) = negb (rest_ok (p ++ part)).
Proof. rewrite <- ends_in_cr_app. unfold rest_ok. destruct (ends_in_cr (p ++ part)); lia. Qed.

Lemma appendPrefix_spec part p :
  appendPrefix part p = if rest_ok (p ++ part) then (Ok tt, p ++ part)
    else (Err (framingError ($"protocol line exceeds " ++ dec_of_N MAX_PROTOCOL_LINE_BYTES ++ $" UTF-8 bytes")), p).
Proof.
  unfold appendPrefix, this, mbind, method_mbind. cbn beta iota. unfold id. rewrite rest_ok_spec.
  by destruct (rest_ok (p ++ part)).
Qed.

Lemma removelast_length {A} (l : list A) : l <> [] -> S (length (removelast l)) = length l.
Proof. destruct l as [|x l] using rev_ind; [done|]. intros _. rewrite removelast_last, length_app. cbn. lia. Qed.

Lemma payload_length raw : bytes_length (payload_of raw) = (bytes_length raw - (if ends_in_cr raw then 1 else 0))%N.
Proof.
  unfold payload_of, bytes_length. destruct (ends_in_cr raw) eqn:E; [|lia].
  assert (raw <> []) as Hr by (by intros ->). apply removelast_length in Hr. lia.
Qed.

Lemma complete_record_spec part p :
  match decoded (p ++ part) with
  | Some line => complete_record part p = (Ok line, [])
  | None => exists e p', complete_record part p = (Err e, p')
  end.
Proof.
  unfold complete_record, decoded. unfold this, mbind, method_mbind. cbn beta iota. unfold id.
  rewrite <- ends_in_cr_app, <- payload_length.
  assert (decodePayload (p ++ part) = if (MAX_PROTOCOL_LINE_BYTES <? bytes_length (payload_of (p ++ part)))%N
    then Err (too_long (bytes_length (payload_of (p ++ part)))) else decodePayload (p ++ part)) as ->.
  { unfold decodePayload. by destruct (_ <? _)%N. }
  destruct (_ <? _)%N; cbn; [by do 2 eexists|]. destruct (decodePayload (p ++ part)); cbn; [done|by do 2 eexists].
Qed.

(** The lines of the records a text completes and their rest. *)
Definition continues (p bs : list N) : option (list ustring * list N) := frame (p ++ bs).

Lemma frame_cut p bs : LF ∉ p ->
  frame (p ++ bs) = match cut bs with
                    | None => if rest_ok (p ++ bs) then Some ([], p ++ bs) else None
                    | Some (part, rest) => line ← decoded (p ++ part); (fun x => (line :: x.1, x.2)) <$> frame rest
                    end.
Proof.
  intros Hp. unfold frame. rewrite segments_app by done. rewrite (segments_cut bs).
  destruct (cut bs) as [[part rest]|]; cbn [prepend fst snd]; [|by destruct (rest_ok _)].
  destruct (segments rest) as [raws r]. cbn [fst snd mapM]. destruct (decoded (p ++ part)) as [line|]; [|done]. cbn.
  destruct (mapM decoded raws) as [ls|]; [|done]. cbn. by destruct (rest_ok r).
Qed.

Lemma framing_Ok {A B} (m : framing A) (f : A -> framing B) p a p' : m p = (Ok a, p') -> (m ≫= f) p = f a p'.
Proof. intros H. unfold mbind, method_mbind. by rewrite H. Qed.
Lemma framing_Err {A B} (m : framing A) (f : A -> framing B) p e p' : m p = (Err e, p') -> (m ≫= f) p = (Err e, p').
Proof. intros H. unfold mbind, method_mbind. by rewrite H. Qed.

Lemma records_spec fuel bs p completed : LF ∉ p -> rest_ok p = true -> (length bs < fuel)%nat ->
  match frame (p ++ bs) with
  | Some (ls, rest) => records fuel bs completed p = (Ok (completed ++ ls), rest)
  | None => exists e p', records fuel bs completed p = (Err e, p')
  end.
Proof.
  revert bs p completed. induction fuel as [|fuel IH]; intros bs p completed Hp Hok Hf; [lia|].
  rewrite frame_cut by done. cbn [records]. destruct (cut bs) as [[part rest]|] eqn:E.
  - pose proof (complete_record_spec part p) as Hc. destruct (decoded (p ++ part)) as [line|]; cbn [mbind option_bind].
    + rewrite (framing_Ok _ _ _ _ _ Hc). apply cut_length in E.
      destruct rest as [|b rest]; [done|].
      specialize (IH (b :: rest) [] (completed ++ [line]) (not_elem_of_nil _) eq_refl). cbn [app] in IH.
      destruct (frame (b :: rest)) as [[ls r]|]; cbn [fmap option_fmap option_map fst snd].
      * rewrite IH by (cbn in *; lia). by rewrite <- app_assoc.
      * apply IH. cbn in *. lia.
    + destruct Hc as (e & p' & Hc). rewrite (framing_Err _ _ _ _ _ Hc). by do 2 eexists.
  - unfold mbind, method_mbind. rewrite appendPrefix_spec. destruct (rest_ok (p ++ bs)); [|by do 2 eexists].
    cbn. by rewrite app_nil_r.
Qed.

(** ** Chunks *)

Lemma frame_rest bs ls rest : frame bs = Some (ls, rest) -> (LF ∉ rest) /\ rest_ok rest = true.
Proof.
  unfold frame. pose proof (segments_rest bs) as H. destruct (segments bs) as [raws r]. cbn in H.
  destruct (mapM decoded raws); [|done]. cbn. destruct (rest_ok r) eqn:E; [|done]. by intros [= <- <-].
Qed.

Lemma frame_app a b :
  frame (a ++ b) = match frame a with
                   | Some (ls, rest) => (fun x => (ls ++ x.1, x.2)) <$> frame (rest ++ b)
                   | None => None
                   end.
Proof.
  unfold frame. rewrite segments_continue. pose proof (segments_rest a) as Hr.
  destruct (segments a) as [raws rest]. cbn [fst snd] in *.
  assert (forall k, mapM decoded (raws ++ k) = (ls ← mapM decoded raws; ls' ← mapM decoded k; Some (ls ++ ls'))) as Happ.
  { clear. intros k. induction raws as [|raw raws IH]; cbn; [by destruct (mapM decoded k)|].
    destruct (decoded raw); [|done]. cbn. rewrite IH. destruct (mapM decoded raws); [|done]. cbn. by destruct (mapM decoded k). }
  rewrite Happ. destruct (mapM decoded raws) as [ls|]; [|done]. cbn [mbind option_bind].
  destruct (segments (rest ++ b)) as [raws' rest'] eqn:E. cbn [fst snd].
  destruct (rest_ok rest) eqn:Eok.
  - rewrite E. destruct (mapM decoded raws'); cbn; [|done]. by destruct (rest_ok rest').
  - (* a rest that is too long stays in a record that is too long *)
    rewrite segments_app in E by done. unfold rest_ok in Eok.
    destruct (segments b) as [[|raw raws2] r2]; cbn in E; injection E as <- <-; cbn.
    + assert (rest_ok (rest ++ r2) = false) as ->; [|done].
      unfold rest_ok. rewrite ends_in_cr_app. unfold bytes_length in *. rewrite length_app.
      destruct r2 as [|x r2]; cbn [length] in *; [destruct (ends_in_cr rest); lia|].
      destruct (ends_in_cr rest), (ends_in_cr (x :: r2)); lia.
    + assert (decoded (rest ++ raw) = None) as ->; [|done].
      unfold decoded, decodePayload. rewrite payload_length, ends_in_cr_app. unfold bytes_length in *. rewrite length_app.
      assert ((MAX_PROTOCOL_LINE_BYTES <? N.of_nat (length rest + length raw) -
        (if match raw with [] => ends_in_cr rest | _ => ends_in_cr raw end then 1 else 0))%N = true) as ->; [|done].
      destruct raw as [|x raw]; cbn [length]; [destruct (ends_in_cr rest); cbn in *; lia|].
      destruct (ends_in_cr rest), (ends_in_cr (x :: raw)); lia.
Qed.

(** ** Reads *)

Definition number_from {A} (i : nat) (l : list A) : list (nat * A) := imap (fun j x => ((i + j)%nat, x)) l.

(** What a read gets when there is no line left. *)
Definition last_result (k : sink) : pulled := match failure k with Some e => PRejected e | None => PDone end.

(** [ls] were emitted: the reads are answered in order, first with lines, then with
    the end; reads wait only while there is nothing to deliver. *)
Record sink_ok (ls : list ustring) (k : sink) : Prop := SinkOk {
  sk_settled : exists dl n, map snd (settled k) = map PLine dl ++ replicate n (last_result k) /\
    (n <> 0%nat -> closed k = true /\ buffer k = []) /\
    (failure k = None -> dl ++ buffer k = ls) /\ (failure k <> None -> dl `prefix_of` ls /\ buffer k = []);
  sk_order : map fst (settled k) ++ waiters k = seq 0 (pulls k);
  sk_waiting : waiters k <> [] -> buffer k = [] /\ closed k = false;
  sk_failure : failure k <> None -> closed k = true }.

Lemma new_sink_ok : sink_ok [] new_sink.
Proof. split; try done. by exists [], 0%nat. Qed.

Lemma replicate_none {A} (n : nat) (x : A) : (n <> 0%nat -> False) -> replicate n x = [].
Proof. destruct n; [done|]. intros H. destruct H. lia. Qed.

Lemma emit_ok ls line k : sink_ok ls k -> closed k = false -> sink_ok (ls ++ [line]) (emit line k).
Proof.
  intros [(dl & n & Hs & Hn & Hl & _) Ho Hw Hf] Hc.
  assert (failure k = None) as Hnf by (destruct (failure k); [by rewrite Hf in Hc|done]).
  rewrite replicate_none, app_nil_r in Hs by (intros H; destruct (Hn H); congruence).
  specialize (Hl Hnf). unfold emit. destruct (waiters k) as [|w ws] eqn:Ew.
  - split; cbn; try done; [|congruence..]. exists dl, 0%nat. cbn. rewrite app_nil_r.
    split; [done|]. split; [done|]. split; [intros _; by rewrite app_assoc, Hl|done].
  - destruct Hw as [Hb _]; [done|]. rewrite Hb, app_nil_r in Hl. subst dl.
    split; cbn; [|rewrite map_app, <- app_assoc; exact Ho|intros _; by split|done].
    exists (ls ++ [line]), 0%nat. cbn. rewrite !map_app, Hs, !app_nil_r. split; [done|]. split; [done|].
    split; [intros _; by rewrite Hb, app_nil_r|done].
Qed.

Lemma emits_ok new : forall ls k, sink_ok ls k -> closed k = false ->
  sink_ok (ls ++ new) (foldl (fun k line => emit line k) k new) /\
  closed (foldl (fun k line => emit line k) k new) = false /\
  failure (foldl (fun k line => emit line k) k new) = failure k.
Proof.
  assert (forall line k, closed (emit line k) = closed k /\ failure (emit line k) = failure k) as He.
  { intros line k. unfold emit. by destruct (waiters k). }
  induction new as [|line new IH]; intros ls k Hk Hc; cbn; [by rewrite app_nil_r|].
  destruct (He line k) as [Ec Ef].
  destruct (IH (ls ++ [line]) (emit line k)) as (H1 & H2 & H3); [by apply emit_ok|congruence|].
  rewrite <- app_assoc in H1. split_and!; [done|done|congruence].
Qed.

Lemma close_ok ls k k' r :
  sink_ok ls k -> closed k = false -> closed k' = true -> waiters k' = [] -> pulls k' = pulls k ->
  settled k' = settled k ++ map (fun w => (w, r)) (waiters k) -> last_result k' = r ->
  (failure k' = None -> buffer k' = buffer k) -> (failure k' <> None -> buffer k' = []) -> sink_ok ls k'.
Proof.
  intros [(dl & n & Hs & Hn & Hl & _) Ho Hw Hf] Hc Hc' Hw' Hp Hset Hr Hb Hb'.
  assert (failure k = None) as Hnf by (destruct (failure k); [by rewrite Hf in Hc|done]).
  rewrite replicate_none, app_nil_r in Hs by (intros H; destruct (Hn H); congruence). specialize (Hl Hnf).
  split; [|rewrite Hset, Hw', Hp, map_app, map_map, app_nil_r; cbn; by rewrite map_id|by rewrite Hw'|done].
  exists dl, (length (waiters k)). rewrite Hset, map_app, Hs, Hr, map_map. cbn. split_and!.
  - f_equal. clear. induction (waiters k); cbn; congruence.
  - intros Hlen. split; [done|]. destruct Hw as [Hbk _]; [by destruct (waiters k)|].
    destruct (failure k') eqn:E; [by apply Hb'|]. by rewrite Hb.
  - intros E. by rewrite Hb.
  - intros E. split; [|by apply Hb']. rewrite <- Hl. by apply prefix_app_r.
Qed.

Lemma finish_ok ls k : sink_ok ls k -> closed k = false -> sink_ok ls (finish k) /\ closed (finish k) = true /\
  failure (finish k) = None.
Proof.
  intros Hk Hc. assert (failure k = None) as Hnf by (destruct (failure k) eqn:E; [by rewrite (sk_failure _ _ Hk) in Hc; [|congruence]|done]).
  unfold finish. rewrite Hc. split; [|by cbn; rewrite ?Hnf]. apply (close_ok ls k _ PDone); cbn; try done; unfold last_result; cbn; by rewrite Hnf.
Qed.

Lemma fail_ok ls e k : sink_ok ls k -> closed k = false -> sink_ok ls (fail_sink e k) /\ closed (fail_sink e k) = true /\
  failure (fail_sink e k) = Some e.
Proof.
  intros Hk Hc. unfold fail_sink. rewrite Hc. split; [|done]. by apply (close_ok ls k _ (PRejected e)).
Qed.

Lemma pull_ok ls k : sink_ok ls k -> sink_ok ls (pull k) /\ closed (pull k) = closed k /\ failure (pull k) = failure k.
Proof.
  intros [(dl & n & Hs & Hn & Hl & Hlf) Ho Hw Hf]. unfold pull.
  assert (waiters k = [] -> map fst (settled k ++ [(pulls k, last_result k)]) ++ [] = seq 0 (S (pulls k))) as Hord.
  { intros E. rewrite E, app_nil_r in Ho. rewrite map_app, Ho, app_nil_r, seq_S. done. }
  destruct (failure k) as [e|] eqn:Ef.
  - assert (closed k = true) as Hc by (by apply Hf). assert (waiters k = []) as E.
    { destruct (waiters k); [done|]. destruct Hw; [done|congruence]. }
    destruct Hlf as [Hd Hb]; [done|]. split; [|done]. split; cbn; rewrite ?E; try done.
    + exists dl, (S n). rewrite map_app, Hs, <- app_assoc. unfold last_result. cbn. rewrite Ef.
      split; [f_equal; symmetry; apply (replicate_S_end n)|]. split; [by rewrite Hb|]. by split.
    + specialize (Hord E). rewrite map_app in *. exact Hord.
  - specialize (Hl eq_refl). destruct (buffer k) as [|line rest] eqn:Eb.
    + destruct (closed k) eqn:Ec; cbn.
      * assert (waiters k = []) as E by (destruct (waiters k); [done|]; by destruct Hw).
        split; [|done]. split; cbn; rewrite ?E; try done.
        -- exists dl, (S n). rewrite map_app, Hs, <- app_assoc. unfold last_result. cbn. rewrite Ef.
           split; [f_equal; symmetry; apply (replicate_S_end n)|]. split; [done|]. by split.
        -- specialize (Hord E). rewrite map_app in *. exact Hord.
      * split; [|done]. split; cbn; try done.
        -- exists dl, n. unfold last_result in *. cbn. rewrite Ef in *. split; [done|].
           split; [intros H; by destruct (Hn H)|]. by split.
        -- rewrite app_assoc, Ho. symmetry. apply (seq_S (pulls k) 0).
    + assert (waiters k = []) as E by (destruct (waiters k); [done|]; by destruct Hw).
      rewrite replicate_none, app_nil_r in Hs by (intros H; by destruct (Hn H)).
      split; [|done]. split; cbn; rewrite ?E; try done.
      * exists (dl ++ [line]), 0%nat. rewrite !map_app, Hs, app_nil_r. split; [done|]. split; [done|].
        split; [intros _; by rewrite <- app_assoc|done].
      * specialize (Hord E). rewrite map_app in *. exact Hord.
Qed.

(** ** The stream *)

(** The data before the stream ended. *)
Definition is_end (e : stream_event) : bool := match e with OnEnd | OnClose => true | _ => false end.
Definition data_of (e : stream_event) : list (list N) := match e with OnData c => [chunk_bytes c] | _ => [] end.

Fixpoint chunks (es : list stream_event) : list (list N) :=
  match es with
  | [] => []
  | e :: es' => if is_end e then [] else data_of e ++ chunks es'
  end.

Lemma chunks_snoc es e : chunks (es ++ [e]) = chunks es ++ (if existsb is_end es then [] else data_of e).
Proof.
  induction es as [|e' es IH]; cbn.
  - destruct (is_end e) eqn:E; [by destruct e|]. by rewrite app_nil_r.
  - destruct (is_end e'); [done|]. by rewrite IH, app_assoc.
Qed.

Definition failed_stream (es : list stream_event) (ls : list ustring) : Prop :=
  (frame (concat (chunks es)) = None \/
   existsb is_end es = true /\ exists rest, frame (concat (chunks es)) = Some (ls, rest) /\ rest <> []) /\
  exists c rest, c `prefix_of` chunks es /\ frame (concat c) = Some (ls, rest).

Record stream_ok (es : list stream_event) (ls : list ustring) (s : stream) : Prop := StreamOk {
  st_sink : sink_ok ls (lines s);
  st_closed : closed (lines s) = terminal s;
  st_fatal : fatal s = true <-> failure (lines s) <> None;
  st_open : terminal s = false -> existsb is_end es = false /\ frame (concat (chunks es)) = Some (ls, pending s);
  st_ended : terminal s = true -> failure (lines s) = None ->
    existsb is_end es = true /\ exists rest, frame (concat (chunks es)) = Some (ls, rest);
  st_failed : failure (lines s) <> None -> failed_stream es ls }.

Lemma new_stream_ok : stream_ok [] [] new_stream.
Proof. split; try done. apply new_sink_ok. Qed.

Lemma concat_chunks es e : concat (chunks (es ++ [e])) =
  concat (chunks es) ++ (if existsb is_end es then [] else concat (data_of e)).
Proof. rewrite chunks_snoc, concat_app. by destruct (existsb is_end es). Qed.

(** A stream that stopped stays as it is. *)
Lemma stopped_ok es e ls s s' : stream_ok es ls s -> terminal s = true ->
  terminal s' = true -> fatal s' = fatal s -> sink_ok ls (lines s') -> closed (lines s') = closed (lines s) ->
  failure (lines s') = failure (lines s) -> stream_ok (es ++ [e]) ls s'.
Proof.
  intros [Hk Hc Hfa Ho He Hfl] Ht Ht' Hf' Hk' Hc' Hff.
  split; rewrite ?Hff, ?Ht', ?Hf'; try done; [congruence|..].
  - intros _ Hnf. destruct (He Ht Hnf) as [Hx Hr]. rewrite existsb_app, concat_chunks, Hx, app_nil_r. by split.
  - intros Hf. destruct (Hfl Hf) as (H1 & c & rest & Hp & Hfr). split.
    + rewrite concat_chunks, existsb_app. destruct H1 as [H1|(Hx & H1)]; [left; by rewrite frame_app, H1|].
      right. rewrite Hx, app_nil_r. by split.
    + exists c, rest. split; [|done]. rewrite chunks_snoc. by apply prefix_app_r.
Qed.

Lemma data_ok es c ls s : stream_ok es ls s -> exists ls', stream_ok (es ++ [OnData c]) ls' (onData (chunk_bytes c) s).
Proof.
  intros Hs. unfold onData. destruct (terminal s) eqn:Ht; [exists ls; by eapply stopped_ok; [..|apply Hs| |]|].
  destruct (st_open _ _ _ Hs Ht) as [Hx Hfr]. pose proof (st_closed _ _ _ Hs) as Hc. rewrite Ht in Hc.
  destruct (frame_rest _ _ _ Hfr) as [Hlf Hok].
  pose proof (records_spec (S (length (chunk_bytes c))) (chunk_bytes c) (pending s) [] Hlf Hok ltac:(lia)) as Hrec.
  assert (concat (chunks (es ++ [OnData c])) = concat (chunks es) ++ chunk_bytes c) as Hch.
  { rewrite concat_chunks, Hx. cbn. by rewrite app_nil_r. }
  pose proof (frame_app (concat (chunks es)) (chunk_bytes c)) as Happ. rewrite Hfr, <- Hch in Happ.
  assert (failure (lines s) = None) as Hnf.
  { destruct (failure (lines s)) eqn:E; [|done]. by rewrite (sk_failure _ _ (st_sink _ _ _ Hs)) in Hc; [|congruence]. }
  destruct (frame (pending s ++ chunk_bytes c)) as [[new rest]|]; cbn [fmap option_fmap option_map fst snd] in Happ.
  - rewrite Hrec. cbn [app]. exists (ls ++ new).
    destruct (emits_ok new ls (lines s) (st_sink _ _ _ Hs) Hc) as (H1 & H2 & H3).
    split; cbn [terminal fatal lines pending]; rewrite ?H3; try done.
    + apply (st_fatal _ _ _ Hs).
    + intros _. rewrite existsb_app, Hx. by split.
  - destruct Hrec as (e & p' & Hrec). rewrite Hrec. exists ls. unfold stop.
    destruct (fail_ok ls e (lines s) (st_sink _ _ _ Hs) Hc) as (H1 & H2 & H3).
    split; cbn [terminal fatal lines pending]; rewrite ?H3; try done.
    intros _. split; [by left|]. exists (chunks es), (pending s). split; [|done]. rewrite chunks_snoc. by apply prefix_app_r.
Qed.

(** The end of an open stream. *)
Lemma end_ok es e ls s s' : stream_ok es ls s -> terminal s = false -> is_end e = true ->
  terminal s' = true ->
  (fatal s' = fatal s /\ lines s' = finish (lines s) \/
   pending s <> [] /\ fatal s' = true /\ exists x, lines s' = fail_sink x (lines s)) ->
  stream_ok (es ++ [e]) ls s'.
Proof.
  intros Hs Ht He Ht' Hcase. destruct (st_open _ _ _ Hs Ht) as [Hx Hfr].
  pose proof (st_closed _ _ _ Hs) as Hc. rewrite Ht in Hc.
  assert (concat (chunks (es ++ [e])) = concat (chunks es)) as Hch.
  { rewrite concat_chunks, Hx. destruct e; try discriminate He; cbn; by rewrite app_nil_r. }
  assert (existsb is_end (es ++ [e]) = true) as Hx' by (rewrite existsb_app; cbn; by rewrite He, orb_true_r).
  assert (fatal s = true -> False) as Hnf.
  { intros Hf. apply (st_fatal _ _ _ Hs), (sk_failure _ _ (st_sink _ _ _ Hs)) in Hf. congruence. }
  destruct Hcase as [[Hf Hl]|(Hp & Hf & x & Hl)].
  - destruct (finish_ok ls (lines s) (st_sink _ _ _ Hs) Hc) as (H1 & H2 & H3). rewrite <- Hl in H1, H2, H3.
    split; rewrite ?H3, ?Ht', ?Hf; try done.
    intros _ _. split; [done|]. rewrite Hch. by eexists.
  - destruct (fail_ok ls x (lines s) (st_sink _ _ _ Hs) Hc) as (H1 & H2 & H3). rewrite <- Hl in H1, H2, H3.
    split; rewrite ?H3, ?Ht', ?Hf; try done.
    intros _. split.
    + right. split; [done|]. exists (pending s). by rewrite Hch.
    + exists (chunks es), (pending s). split; [|done]. rewrite chunks_snoc. by apply prefix_app_r.
Qed.

Lemma stream_step_ok es e ls s : stream_ok es ls s -> exists ls', stream_ok (es ++ [e]) ls' (stream_step s e).
Proof.
  intros Hs. destruct e as [c| | |]; cbn [stream_step]; [by eapply data_ok|exists ls..].
  - unfold onEnd. destruct (terminal s) eqn:Ht; [by eapply stopped_ok; [..|apply Hs| |]|].
    eapply (end_ok es OnEnd); [done..| |]; destruct (pending s) eqn:Ep; try done; [by left|].
    right. split; [done|]. split; [done|]. by eexists.
  - unfold onClose. destruct (terminal s) eqn:Ht; [by eapply stopped_ok; [..|apply Hs| |]|].
    eapply (end_ok es OnClose); [done..|]. by left.
  - destruct (pull_ok ls (lines s) (st_sink _ _ _ Hs)) as (H1 & H2 & H3).
    destruct (terminal s) eqn:Ht; [by eapply stopped_ok; [exact Hs|..]|].
    destruct Hs as [Hk Hc Hfa Ho He Hfl].
    split; cbn [terminal fatal lines pending]; rewrite ?H2, ?H3; try done.
    + congruence.
    + intros _. rewrite existsb_app, concat_chunks. destruct (Ho Ht) as [Hx Hfr]. rewrite Hx. cbn [orb existsb is_end data_of concat]. by rewrite app_nil_r.
    + intros Hf. pose proof (sk_failure _ _ Hk Hf). congruence.
Qed.

Lemma stream_run_ok es : exists ls, stream_ok es ls (stream_run es).
Proof.
  induction es as [|e es [ls IH]] using rev_ind; [exists []; apply new_stream_ok|].
  unfold stream_run. rewrite foldl_app. cbn. by eapply stream_step_ok.
Qed.


(** ** UTF-8 *)

Definition scalar_value (cp : N) : Prop := (cp < 0xd800 \/ (0xdfff < cp /\ cp < 0x110000))%N.

Lemma utf8_decode_of cp r : scalar_value cp -> utf8_decode (utf8_of cp ++ r) = cons cp <$> utf8_decode r.
Proof.
  intros Hcp. unfold utf8_of, scalar_value in *.
  assert ((0xd800 <=? cp)%N && (cp <=? 0xdfff)%N = false) as -> by lia.
  destruct (N.ltb_spec cp 0x80) as [H1|H1].
  { cbn [app utf8_decode]. by rewrite (proj2 (N.ltb_lt cp 0x80)). }
  destruct (N.ltb_spec cp 0x800) as [H2|H2].
  { cbn [app utf8_decode]. unfold between, continuation.
    pose proof (N.div_mod cp 64). pose proof (N.mod_lt cp 64).
    assert ((0xc0 + cp / 64 <? 0x80)%N = false) as -> by lia.
    assert ((0xc2 <=? 0xc0 + cp / 64)%N && (0xc0 + cp / 64 <=? 0xdf)%N = true) as -> by lia.
    assert ((0x80 <=? 0x80 + cp mod 64)%N && (0x80 + cp mod 64 <=? 0xbf)%N = true) as -> by lia.
    do 2 f_equal. lia. }
  destruct (N.ltb_spec cp 0x10000) as [H3|H3].
  { cbn [app utf8_decode]. unfold between, continuation.
    pose proof (N.div_mod cp 64). pose proof (N.mod_lt cp 64). pose proof (N.mod_lt (cp / 64) 64).
    pose proof (N.div_mod (cp / 64) 64) as Hd. rewrite N.Div0.div_div in Hd. change (64 * 64)%N with 4096%N in Hd.
    assert ((0xe0 + cp / 4096 <? 0x80)%N = false) as -> by lia.
    assert ((0xc2 <=? 0xe0 + cp / 4096)%N && (0xe0 + cp / 4096 <=? 0xdf)%N = false) as -> by lia.
    assert ((0xe0 <=? 0xe0 + cp / 4096)%N && (0xe0 + cp / 4096 <=? 0xef)%N = true) as -> by lia.
    assert (((if (0xe0 + cp / 4096 =? 0xe0)%N then 0xa0 else 0x80) <=? 0x80 + (cp / 64) mod 64)%N &&
            (0x80 + (cp / 64) mod 64 <=? (if (0xe0 + cp / 4096 =? 0xed)%N then 0x9f else 0xbf))%N = true) as ->.
    { destruct (N.eqb_spec (0xe0 + cp / 4096) 0xe0), (N.eqb_spec (0xe0 + cp / 4096) 0xed); lia. }
    assert ((0x80 <=? 0x80 + cp mod 64)%N && (0x80 + cp mod 64 <=? 0xbf)%N = true) as -> by lia.
    cbn [andb]. do 2 f_equal. lia. }
  cbn [app utf8_decode]. unfold between, continuation.
  pose proof (N.div_mod cp 64). pose proof (N.mod_lt cp 64). pose proof (N.mod_lt (cp / 64) 64). pose proof (N.mod_lt (cp / 4096) 64).
  pose proof (N.div_mod (cp / 64) 64) as Hd. rewrite N.Div0.div_div in Hd. change (64 * 64)%N with 4096%N in Hd.
  pose proof (N.div_mod (cp / 4096) 64) as Hd2. rewrite N.Div0.div_div in Hd2. change (4096 * 64)%N with 262144%N in Hd2.
  assert ((0xf0 + cp / 262144 <? 0x80)%N = false) as -> by lia.
  assert ((0xc2 <=? 0xf0 + cp / 262144)%N && (0xf0 + cp / 262144 <=? 0xdf)%N = false) as -> by lia.
  assert ((0xe0 <=? 0xf0 + cp / 262144)%N && (0xf0 + cp / 262144 <=? 0xef)%N = false) as -> by lia.
  assert ((0xf0 <=? 0xf0 + cp / 262144)%N && (0xf0 + cp / 262144 <=? 0xf4)%N = true) as -> by lia.
  assert (((if (0xf0 + cp / 262144 =? 0xf0)%N then 0x90 else 0x80) <=? 0x80 + (cp / 4096) mod 64)%N &&
          (0x80 + (cp / 4096) mod 64 <=? (if (0xf0 + cp / 262144 =? 0xf4)%N then 0x8f else 0xbf))%N = true) as ->.
  { destruct (N.eqb_spec (0xf0 + cp / 262144) 0xf0), (N.eqb_spec (0xf0 + cp / 262144) 0xf4); lia. }
  assert ((0x80 <=? 0x80 + (cp / 64) mod 64)%N && (0x80 + (cp / 64) mod 64 <=? 0xbf)%N = true) as -> by lia.
  assert ((0x80 <=? 0x80 + cp mod 64)%N && (0x80 + cp mod 64 <=? 0xbf)%N = true) as -> by lia.
  cbn [andb]. do 2 f_equal. lia.
Qed.

Lemma utf8_decode_bytes cps : Forall scalar_value cps -> utf8_decode (concat (map utf8_of cps)) = Some cps.
Proof.
  induction 1 as [|cp cps Hcp _ IH]; [done|]. cbn [map concat]. rewrite utf8_decode_of by done. by rewrite IH.
Qed.

Lemma code_points_scalar s : well_formed s = true -> js_string s -> Forall scalar_value (code_points s).
Proof.
  intros Hw Hj. unfold code_points. apply Forall_map.
  eapply Forall_impl; [apply Forall_and; split; [by apply characters_ok|by apply characters_js]|].
  intros c [[(u & -> & Hh & Hl)|(h & l & -> & Hh & Hl)] Hc]; cbn.
  - apply Forall_inv in Hc. unfold scalar_value, is_high, is_low in *. lia.
  - rewrite Hh, Hl. cbn. unfold join_pair, scalar_value, is_high, is_low in *. lia.
Qed.

Lemma from_code_points s : js_string s -> concat (map fromCodePoint (code_points s)) = s.
Proof.
  intros Hj. unfold code_points. rewrite map_map. pose proof (characters_fromCodePoint s Hj) as H.
  rewrite <- (concat_characters s) at 2. f_equal. induction H as [|c cs Hc _ IH]; cbn; congruence.
Qed.

(** ** Lines that are sent

    What [send] writes is read back by the framing: the text of a line survives
    the UTF-8 encoding, the LF that ends it and any cut of the stream. *)

(** The lines that keep their text: no unpaired surrogate, no byte order mark in
    front, and no CR at the end. *)
Record plain_line (l : ustring) : Prop := PlainLine {
  pl_text : well_formed l = true /\ js_string l;
  pl_bom : head l <> Some 0xfeff%N;
  pl_cr : last l <> Some CR }.

(** ** Bytes of a text *)

Lemma characters_cons2 h x l :
  characters (h :: x :: l) =
  if is_high h && is_low x then [h; x] :: characters l else [h] :: characters (x :: l).
Proof. change (characters (h :: x :: l)) with (if is_high h then if is_low x then [h; x] :: characters l else [h] :: characters (x :: l) else [h] :: characters (x :: l)). by destruct (is_high h), (is_low x). Qed.

Lemma characters_snoc l c : is_low c = false -> characters (l ++ [c]) = characters l ++ [[c]].
Proof.
  intros Hc. remember (length l) as n eqn:Hn. revert l Hn. induction (lt_wf n) as [n _ IH]. intros l ->.
  destruct l as [|h [|x l]].
  - cbn. by destruct (is_high c).
  - cbn. destruct (is_high h); [by rewrite Hc; destruct (is_high c)|by destruct (is_high c)].
  - pose proof (IH (length l) ltac:(cbn; lia) l eq_refl) as E1.
    pose proof (IH (length (x :: l)) ltac:(cbn; lia) (x :: l) eq_refl) as E2.
    rewrite <- !app_comm_cons in *. rewrite !characters_cons2, E1, E2. by destruct (_ && _).
Qed.

Lemma utf8_bytes_snoc l c : is_low c = false -> utf8_bytes (l ++ [c]) = utf8_bytes l ++ utf8_of c.
Proof.
  intros Hc. unfold utf8_bytes, code_points. rewrite characters_snoc by done.
  rewrite !map_app, concat_app. cbn. by rewrite app_nil_r.
Qed.

(** An ASCII byte stands for itself. *)
Lemma utf8_of_ascii cp b : scalar_value cp -> (b < 0x80)%N -> b ∈ utf8_of cp -> cp = b.
Proof.
  intros Hcp Hb. unfold utf8_of, scalar_value in *.
  assert ((0xd800 <=? cp)%N && (cp <=? 0xdfff)%N = false) as -> by lia.
  destruct (N.ltb_spec cp 0x80); [by intros ->%list_elem_of_singleton|].
  destruct (N.ltb_spec cp 0x800); [|destruct (N.ltb_spec cp 0x10000)];
    rewrite !list_elem_of_In; cbn; intros H'; lia.
Qed.

Lemma chunk_ascii c b : chunk_ok c -> (b < 0x80)%N -> codePointAt0 c = b -> c = [b].
Proof.
  intros [(u & -> & _)|(h & l & -> & Hh & Hl)] Hb; cbn; [by intros ->|].
  rewrite Hh, Hl. cbn. unfold join_pair, is_high, is_low in *. lia.
Qed.

Lemma bytes_ascii l b : well_formed l = true -> js_string l -> (b < 0x80)%N -> b ∈ utf8_bytes l -> b ∈ l.
Proof.
  intros Hw Hj Hb H. unfold utf8_bytes in H. apply list_elem_of_In, in_concat in H as (bs & Hbs & Hin).
  apply list_elem_of_In in Hin, Hbs.
  apply list_elem_of_fmap in Hbs as (cp & -> & Hcp).
  pose proof (code_points_scalar l Hw Hj) as Hs. rewrite Forall_forall in Hs.
  apply utf8_of_ascii in Hin as ->; [|by apply Hs|done].
  unfold code_points in Hcp. apply list_elem_of_fmap in Hcp as (c & Hcb & Hc).
  pose proof (characters_ok l Hw) as Hk. rewrite Forall_forall in Hk.
  symmetry in Hcb. apply chunk_ascii in Hcb; [|by apply Hk|done]. subst c.
  rewrite <- (concat_characters l). apply list_elem_of_In, in_concat. exists [b]. split; [by apply list_elem_of_In|by left].
Qed.

(** The first and the last byte. *)
Lemma utf8_bytes_last l : well_formed l = true -> js_string l -> last (utf8_bytes l) = Some CR -> last l = Some CR.
Proof.
  intros Hw Hj H. pose proof (code_points_scalar l Hw Hj) as Hs. pose proof (characters_ok l Hw) as Hk.
  rewrite <- (concat_characters l). unfold utf8_bytes, code_points in *.
  destruct (characters l) as [|c cs _] using rev_ind; [done|].
  rewrite map_app in Hs. apply Forall_app in Hk as [_ Hk]. apply Forall_app in Hs as [_ Hs].
  apply Forall_inv in Hs. apply Forall_inv in Hk.
  rewrite !map_app, concat_app in H. cbn [map concat] in H. rewrite app_nil_r in H.
  assert (CR ∈ utf8_of (codePointAt0 c)) as Hin.
  { pose proof (utf8_of_length (codePointAt0 c)) as Hl. unfold utf8_size in Hl.
    destruct (utf8_of (codePointAt0 c)) as [|b bs _] using rev_ind; [cbn in Hl; repeat case_match; lia|].
    rewrite app_assoc, last_snoc in H. injection H as ->. apply elem_of_app. right. by left. }
  apply utf8_of_ascii in Hin; [|done|done]. apply chunk_ascii in Hin as ->; [|done|done].
  rewrite concat_app. cbn. apply last_snoc.
Qed.

Lemma strip_bom_spec bs : strip_bom bs = bs \/ exists r, bs = (0xef :: 0xbb :: 0xbf :: r)%N.
Proof. unfold strip_bom. repeat case_match; subst; eauto. Qed.

Lemma strip_bom_bytes l : well_formed l = true -> js_string l -> head l <> Some 0xfeff%N ->
  strip_bom (utf8_bytes l) = utf8_bytes l.
Proof.
  intros Hw Hj Hl. destruct (strip_bom_spec (utf8_bytes l)) as [?|(r & Hr)]; [done|].
  pose proof (utf8_decode_bytes (code_points l) (code_points_scalar l Hw Hj)) as H.
  fold (utf8_bytes l) in H. rewrite Hr in H.
  change (utf8_decode (0xef :: 0xbb :: 0xbf :: r)%N) with (cons 0xfeff%N <$> utf8_decode r) in H.
  destruct (utf8_decode r) as [cps|]; [|done]. cbn in H. injection H as H.
  pose proof (characters_ok l Hw) as Hk. rewrite <- (concat_characters l) in Hl. unfold code_points in H.
  destruct (characters l) as [|c cs]; [done|]. apply Forall_inv in Hk. injection H as Hc _.
  destruct Hk as [(u & -> & _)|(h & u & -> & Hh & Hu)]; cbn in Hc, Hl; [congruence|].
  rewrite Hh, Hu in Hc. cbn in Hc. unfold join_pair, is_high, is_low in *. lia.
Qed.

(** ** The line comes back *)

Lemma send_bytes_Ok l b : send_bytes l = Ok b ->
  b = utf8_bytes l ++ [LF] /\ (LF ∉ l) /\ (byteLength l <= MAX_PROTOCOL_LINE_BYTES)%N.
Proof.
  unfold send_bytes, validateProtocolLine. destruct (_ =? _)%nat; [done|].
  destruct (bool_decide_reflect (LF ∈ l)); [done|]. destruct (N.ltb_spec MAX_PROTOCOL_LINE_BYTES (byteLength l)); [done|].
  cbn [mbind res_mbind mret res_mret]. intros [= <-]. by rewrite utf8_bytes_snoc.
Qed.

Lemma decoded_bytes l : plain_line l -> (byteLength l <= MAX_PROTOCOL_LINE_BYTES)%N -> decoded (utf8_bytes l) = Some l.
Proof.
  intros [[Hw Hj] Hb Hc] Hl.
  assert (payload_of (utf8_bytes l) = utf8_bytes l) as Hp.
  { unfold payload_of, ends_in_cr. rewrite bool_decide_eq_false_2; [done|]. intros H. by apply Hc, utf8_bytes_last. }
  unfold decoded, decodePayload, bytes_length. rewrite Hp, utf8_bytes_length.
  rewrite (proj2 (N.ltb_ge _ _)) by done. unfold text_decode. rewrite strip_bom_bytes by done.
  unfold utf8_bytes. rewrite utf8_decode_bytes by (by apply code_points_scalar). cbn. by rewrite from_code_points.
Qed.

Lemma frame_sent ls bss : Forall plain_line ls -> Forall2 (fun l b => send_bytes l = Ok b) ls bss ->
  frame (concat bss) = Some (ls, []).
Proof.
  intros Hp H. induction H as [|l b ls bss Hb _ IH]; [done|]. apply Forall_cons_1 in Hp as [Hl Hp].
  apply send_bytes_Ok in Hb as (-> & Hlf & Hlen). cbn [concat].
  assert (LF ∉ utf8_bytes l) as Hn by (intros Hin; apply Hlf, bytes_ascii; by destruct Hl as [[] _ _]).
  rewrite <- app_assoc. rewrite <- (app_nil_l (utf8_bytes l ++ _)), frame_cut by apply not_elem_of_nil.
  rewrite cut_app by done. cbn. rewrite app_nil_r, decoded_bytes by done. cbn. by rewrite IH.
Qed.

(** C37: A line sent through the transport arrives. If [send] accepts every line of
    [ls] and the data received before the end of the stream is exactly what it
    wrote, cut into chunks in any way, the reader does not fail; its [n]-th read is
    answered by the [n]-th line, the later reads wait (or, once the stream ended,
    get the end), and the lines nobody read are buffered, in order. This holds for
    text without unpaired surrogates that has no byte order mark in front and no CR
    at its end. *)
Theorem sent_lines_arrive (ls : list ustring) (bss : list (list N)) (es : list stream_event)
  (Hls : Forall plain_line ls)
  (Hsent : Forall2 (fun l b => send_bytes l = Ok b) ls bss)
  (Hes : concat (chunks es) = concat bss) :
  let k := lines (stream_run es) in
  failure k = None /\
  buffer k = drop (pulls k) ls /\
  map fst (settled k) ++ waiters k = seq 0 (pulls k) /\
  exists n, map snd (settled k) = map PLine (take (pulls k) ls) ++ replicate n PDone /\
    (n <> 0%nat -> existsb is_end es = true).
Proof.
  cbv zeta. pose proof (frame_sent ls bss Hls Hsent) as Hfr. rewrite <- Hes in Hfr.
  destruct (stream_run_ok es) as [ls' [[(dl & n & Hs & Hn & Hl & _) Hord Hw _] Hc _ Ho He Hfl]].
  assert (failure (lines (stream_run es)) = None) as Hnf.
  { destruct (failure _); [|done]. destruct Hfl as [[?|(_ & r & Hr & Hne)] _]; congruence. }
  assert (ls' = ls) as ->.
  { destruct (terminal (stream_run es)) eqn:Ht; [destruct (He eq_refl Hnf) as (_ & r & Hr)|destruct (Ho eq_refl) as (_ & Hr)]; congruence. }
  unfold last_result in Hs. rewrite Hnf in Hs. specialize (Hl Hnf).
  pose proof (f_equal length Hord) as Hlen. rewrite length_app, length_map, length_seq in Hlen.
  pose proof (f_equal length Hs) as Hlen2. rewrite length_app, !length_map, length_replicate in Hlen2.
  assert (buffer (lines (stream_run es)) = [] \/ pulls (lines (stream_run es)) = length dl) as Hd.
  { destruct n; [|left; by apply Hn]. destruct (waiters (lines (stream_run es))); [right; cbn in *; lia|left; by apply Hw]. }
  split; [done|]. rewrite <- Hl. destruct Hd as [Hd|Hd].
  - rewrite Hd, app_nil_r, drop_ge, take_ge by lia. split_and!; [done..|]. exists n. split; [done|].
    intros H. destruct (Hn H) as [Hcl _]. apply He; congruence.
  - rewrite Hd, drop_app_length, take_app_length. rewrite <- Hd. split_and!; [done..|]. exists n. split; [done|].
    intros H. destruct (Hn H) as [Hcl _]. apply He; congruence.
Qed.

Example sent_lines_arrive_witness :
  let ls := [$"{\q}"; [0x41; 0xd83d; 0xde00]%N] in
  let bytes := [123; 92; 113; 125; 10; 65; 240; 159; 152; 128; 10]%N in
  let es := [Pull; OnData (Bytes (take 7 bytes)); OnData (Bytes (drop 7 bytes)); OnEnd; Pull; Pull] in
  let k := lines (stream_run es) in
  failure k = None /\ buffer k = drop (pulls k) ls /\ map fst (settled k) ++ waiters k = seq 0 (pulls k) /\
  exists n, map snd (settled k) = map PLine (take (pulls k) ls) ++ replicate n PDone /\ (n <> 0%nat -> existsb is_end es = true).
Proof.
  intros ls bytes es. apply (sent_lines_arrive ls [take 5 bytes; drop 5 bytes] es).
  - repeat constructor; try done; vm_compute; intros [=].
  - repeat constructor; vm_compute; reflexivity.
  - vm_compute. reflexivity.
Defined.
