(* ===== verification/ReportFacts.v ===== *)
(** * The report of a replay counts what happened

    The recorder of a run of [replayCore] against the log of the run: what a report
    of [replayLoop] says about traces, states and steps is what was sent to the
    mirror and answered by it. *)

From S2P Require Import Prelude JsNumber Utf16 JsData JsText Protocol ClientMessages Connection MatchedEvidence EvidenceFacts ReplayReport ReplayCore ReplayFacts.

(** What a log shows. *)
Definition is_started (initial : bool) (e : event) : bool :=
  match e with Started i _ _ _ => eqb i initial | _ => false end.
Definition is_sent (e : event) : bool := match e with Sent _ => true | _ => false end.
Definition count_events (f : event -> bool) (l : list event) : Z := Z.of_nat (length (List.filter f l)).

Abbreviation starts initial l := (count_events (is_started initial) l).
Abbreviation sents l := (count_events is_sent l).

Lemma count_events_snoc f l e : count_events f (l ++ [e]) = (count_events f l + if f e then 1 else 0)%Z.
Proof. unfold count_events. rewrite List.filter_app, length_app. cbn. destruct (f e); cbn; lia. Qed.

Lemma count_events_nonneg f l : (0 <= count_events f l)%Z.
Proof. unfold count_events. lia. Qed.

(** ** The recorder at rest *)

(** Every observation of the log was answered, and [n] is room for more. *)
Record recorded_log (n : Z) (l : list event) (r : recorder) : Prop := RecordedLog {
  rl_room : (sents l + n < 2 ^ 53)%Z;
  rl_sents : sents l = (starts true l + starts false l)%Z;
  rl_index : (0 <= stateIndex r)%Z;
  rl_traces : tracesStarted r = starts true l;
  rl_reported : ReplayReport.statesReported r = sents l;
  rl_matched : (ReplayReport.statesMatched r + if ReplayReport.pending r then 1 else 0)%Z = sents l;
  rl_steps : (ReplayReport.stepsCompleted r +
    if ReplayReport.pending r && (0 <? stateIndex r)%Z then 1 else 0)%Z = starts false l }.

Lemma new_recorder_log n digest : (n < 2 ^ 53)%Z -> recorded_log n [] (new_recorder digest).
Proof. intros H. by split; cbn. Qed.

Lemma recorded_log_weaken n n' l r : (n' <= n)%Z -> recorded_log n l r -> recorded_log n' l r.
Proof. intros H []. split; try done. lia. Qed.

(** The parts of a log that do not count. *)
Definition unseen (e : event) : bool := match e with Dispatched _ => true | _ => false end.

Lemma recorded_log_unseen n l e r : unseen e = true -> recorded_log n l r -> recorded_log n (l ++ [e]) r.
Proof.
  intros He []. destruct e; [|done..].
  split; rewrite ?count_events_snoc; cbn [is_started is_sent]; rewrite ?Z.add_0_r; done.
Qed.

Lemma acknowledge_log n l r : (0 <= n)%Z -> recorded_log n l r ->
  recorded_log n l (acknowledge r) /\ ReplayReport.pending (acknowledge r) = false /\
  stateIndex (acknowledge r) = stateIndex r.
Proof.
  intros Hn H. unfold acknowledge. destruct (ReplayReport.pending r) eqn:E; [|by split_and!].
  destruct H as [H1 H2 H3 H4 H5 H6 H7]. rewrite E in *.
  pose proof (count_events_nonneg (is_started true) l). pose proof (count_events_nonneg (is_started false) l).
  split; [|done]. split; cbn; try done.
  - rewrite js_succ_small by lia. lia.
  - cbn [andb] in H7. destruct (0 <? stateIndex r)%Z; [rewrite js_succ_small by lia|]; lia.
Qed.

(** An observation that was answered. *)
Lemma observed_log number_text n l r initial action payload previous line r2 :
  (0 <= n)%Z -> recorded_log (n + 1) l r ->
  ReplayReport.reported number_text action (ReplayReport.begin initial r) = Ok r2 ->
  recorded_log n (l ++ [Started initial action payload previous; Sent line]) r2.
Proof.
  intros Hn H Hr. destruct (acknowledge_log (n + 1) l r ltac:(lia) H) as ([H1 H2 H3 H4 H5 H6 H7] & Hp & _).
  unfold ReplayReport.reported in Hr. destruct (bounded_set _ _ _ _ _ _) as [acts dropped].
  destruct (count_sequence _ _ _) as [seqs|]; [|done]. cbn [mbind res_mbind mret res_mret] in Hr. injection Hr as <-.
  unfold ReplayReport.begin. rewrite Hp in *. cbn [andb] in *.
  change [Started initial action payload previous; Sent line] with ([Started initial action payload previous] ++ [Sent line]).
  rewrite app_assoc.
  pose proof (count_events_nonneg (is_started true) l). pose proof (count_events_nonneg (is_started false) l).
  assert (0 < js_succ (stateIndex (acknowledge r)))%Z as Hi.
  { unfold js_succ. destruct (Z.eqb_spec (stateIndex (acknowledge r)) (2 ^ 53)); lia. }
  assert ((0 <? js_succ (stateIndex (acknowledge r)))%Z = true) as Hi' by lia.
  split; rewrite ?count_events_snoc; destruct initial; cbn [is_started is_sent eqb stateIndex tracesStarted
    ReplayReport.statesReported ReplayReport.statesMatched ReplayReport.stepsCompleted ReplayReport.pending andb];
    rewrite ?Hi'; try (rewrite js_succ_small by lia); try (cbn; lia).
Qed.

(** ** The run *)

Section report.
Context (number_text : number -> ustring) {X : Type}.
Abbreviation run A := (method core (replay_error X) A).
Abbreviation opts := progress_options.

Definition rests (n : Z) (s : core) : Prop := recorded_log n (c_log s) (c_recorder s).

Lemma tracked_none f (s : core) : tracked (X := X) opts f s = (Ok tt, s).
Proof. done. Qed.

Lemma recorded_progress f s : recorded (X := X) opts f s =
  match f (c_recorder s) with Ok r => (Ok tt, set_recorder r s) | Err e => (Err (Thrown e), s) end.
Proof. done. Qed.

Lemma observe_rests n initial action payload (t : turn X) s u s' : (0 <= n)%Z -> rests (n + 1) s ->
  observe number_text opts initial action payload t s = (Ok u, s') -> rests n s'.
Proof.
  intros Hn Hs. unfold observe. rewrite run_step, tracked_none, run_step, recorded_progress, run_modify, run_this, run_modify, run_step.
  match goal with |- context [log ?e ?x] => set (s3 := log e x) end.
  pose proof (compute_state_frame number_text opts t s3) as H.
  destruct (compute_state number_text opts t s3) as [[[]|e] s4]; [|done]. destruct H as (st & line & ->).
  rewrite run_step, tracked_none, run_step, recorded_progress. cbn [log c_recorder set_state].
  change (c_recorder s3) with (ReplayReport.begin initial (c_recorder s)).
  destruct (ReplayReport.reported _ _ _) as [r2|] eqn:Hr; [|done]. intros [= _ <-].
  unfold rests, accepted. cbn [c_log c_recorder set_recorder log set_state].
  match goal with s3 := log ?e _ |- _ => change (c_log s3) with (c_log s ++ [e]) end. rewrite <- app_assoc.
  by eapply observed_log.
Qed.

Definition report_outcome (n : Z) (x : res (replay_error X) (option CompiledReplayReport) * core) : Prop :=
  match x with (Ok _, s') => rests n s' | (Err _, _) => True end.

Lemma rests_unseen n m s : rests n s -> rests n (log (Dispatched m) s).
Proof. by apply recorded_log_unseen. Qed.

Lemma handle_rests n m (t : turn X) s : (0 <= n)%Z -> rests (n + 1) s ->
  report_outcome n (handle number_text opts m t s).
Proof.
  intros Hn Hs. assert (rests n s) as Hs' by (by apply (recorded_log_weaken (n + 1)); [lia|]).
  destruct m; try exact I; cbn [handle]; rewrite run_step.
  1,2: match goal with |- context [observe _ _ ?i ?a ?p _ _] => pose proof (observe_rests n i a p t s) as H end;
    destruct (observe _ _ _ _ _ _ _) as [[u|e] s1]; [exact (H u s1 Hn Hs eq_refl)|exact I].
  - rewrite tracked_none, run_step, recorded_progress. destruct (acknowledge_log n _ _ Hn Hs') as [H _]. exact H.
  - rewrite tracked_none, run_this. exact Hs'.
Qed.

Lemma pass_rests n (t : turn X) s : (0 <= n)%Z -> rests (n + 1) s -> report_outcome n (pass number_text opts t s).
Proof.
  intros Hn Hs. unfold pass. rewrite run_step. unfold lifted. destruct (receiveReplayMessage _ _); [|exact I].
  rewrite run_step. unfold check. destruct (t_cancelled t); [exact I|]. unfold mret, method_mret. rewrite run_modify.
  by apply handle_rests, rests_unseen.
Qed.

Lemma loop_rests ts n s : (0 <= n)%Z -> rests (Z.of_nat (length ts) + n) s ->
  report_outcome n (loop number_text opts ts s).
Proof.
  intros Hn. revert s. induction ts as [|t ts IH]; intros s Hs; [exact Hs|]. cbn [loop]. rewrite run_step.
  pose proof (pass_rests (Z.of_nat (length ts) + n) t s ltac:(lia)) as H.
  destruct (pass _ _ _ _) as [[[rep|]|e] s1]; [| |exact I];
    (assert (rests (Z.of_nat (length ts) + n) s1) as Hs1;
      [apply H; apply (recorded_log_weaken (Z.of_nat (length (t :: ts)) + n)); [cbn [length]; lia|exact Hs]|]).
  - apply (recorded_log_weaken (Z.of_nat (length ts) + n)); [lia|exact Hs1].
  - by apply IH.
Qed.

Lemma rejected_not_completed fc fm fo duration r (e : replay_error X) rep :
  rejected number_text fc fm fo duration r e <> Completed rep.
Proof. unfold rejected. by destruct (report_of _ _ _ _ _ _). Qed.

(** The report of a completed replay is the truth about the conversation. When
    [replayLoop] with a new recorder returns a report (after fewer than 2^53
    messages), the report says "passed"; its started and its completed traces are
    the initializations the callback was called for, its completed steps the other
    calls, its reported and its matched states both the lines that were sent; and
    every call led to a line. *)
Lemma replayLoop_report foreign_code foreign_message foreign_object duration ts tr digest rep s' :
  (Z.of_nat (length ts) < 2 ^ 53)%Z ->
  replayLoop (X := X) number_text foreign_code foreign_message foreign_object duration ts
    (new_core tr (new_recorder digest)) = (Completed rep, s') ->
  let l := c_log s' in
  rr_failure rep = None /\
  rr_tracesStarted rep = starts true l /\ rr_tracesCompleted rep = starts true l /\
  rr_stepsCompleted rep = starts false l /\
  rr_statesReported rep = sents l /\ rr_statesMatched rep = sents l /\
  sents l = (starts true l + starts false l)%Z.
Proof.
  intros Hlen Hrun l. unfold replayLoop in Hrun.
  assert (rests (Z.of_nat (length ts) + 0) (new_core tr (new_recorder digest))) as H0 by (apply new_recorder_log; lia).
  pose proof (loop_rests ts 0 _ ltac:(lia) H0) as H. unfold replayCore in Hrun.
  destruct (loop number_text opts ts _) as [[[rep'|]|e] s1]; [|done|].
  2:{ by injection Hrun as []%rejected_not_completed. }
  unfold report_of, report in Hrun. destruct (action_counts _ _) as [counts|e]; cbn [mbind res_mbind mret res_mret] in Hrun.
  2:{ by injection Hrun as []%rejected_not_completed. }
  injection Hrun as <- <-. destruct (acknowledge_log 0 _ _ ltac:(lia) H) as ([H1 H2 H3 H4 H5 H6 H7] & Hp & _).
  rewrite Hp in H6, H7. cbn [andb] in H7. unfold ReplayReport.finish. cbn. unfold l. cbn [c_log set_recorder].
  split_and!; lia || done.
Qed.
End report.

(** ** A concrete report *)

Abbreviation sample_loop := (replayLoop (X := unit) (fun _ => $"0.5") (fun _ => None) (fun _ => None) (fun _ => false)
  (num_of_Z 7) sample_turns (new_core sample_setup.2 (new_recorder None))).

Definition sample_reported : ReplayReport :=
  match sample_loop with
  | (Completed rep, _) => rep
  | _ => Report None (num_of_Z 0) 0 0 0 0 0 [] [] 0 0 false None
  end.
Definition sample_reported_final : core := sample_loop.2.

Lemma sample_loop_ok : sample_loop = (Completed sample_reported, sample_reported_final).
Proof. vm_compute. reflexivity. Qed.

Example sample_report_counts : rr_statesMatched sample_reported = 4%Z /\ rr_tracesCompleted sample_reported = 2%Z.
Proof. split; vm_compute; reflexivity. Qed.
