(* ===== verification/Client.v ===== *)
(** * The runners of a client

    [src/src/client.ts] without the interactive session: resolving a transport,
    registering and replaying ([runClientWithReport],
    [runClientWithTracesWithReport]), owning one registration exchange
    ([runOwnedRegistration], with [runClientGenTraces] and [runClientExplore]), and
    [validateReplayOptions] of [src/src/replay-control.ts]. The variants without
    report only drop it.

    The environment of a run is given: whether the transport becomes ready, whether
    [send] throws, what arrives, whether [close] rejects. *)

From Stdlib Require Import SpecFloat.
From S2P Require Import Prelude JsNumber Utf16 JsData JsText Protocol ClientMessages Connection Negotiation MatchedEvidence EvidenceFacts ReplayReport ReplayCore ReplayFacts Transport ReportFacts.

(** ** Options *)

Record ReplayOptions := MkReplayOptions {
  actionTimeoutMs : option number;
  receiveTimeoutMs : option number }.

Definition valid_timeout (value : option number) : bool :=
  match value with
  | None => true
  | Some x => num_is_finite x && negb (SFleb x (num_of_Z 0)) && negb (SFltb (num_of_Z 2147483647) x)
  end.

Definition validateReplayOptions (options : ReplayOptions) : res exn unit :=
  let check (key : string) value :=
    if valid_timeout value then Ok tt
    else Err (Exn XRange (lit key ++ $" must be positive and at most 2147483647 milliseconds")) in
  _ ← check "actionTimeoutMs"%string (actionTimeoutMs options);
  check "receiveTimeoutMs"%string (receiveTimeoutMs options).

Section client.
Context (number_text : number -> ustring) {X : Type}.
Context (foreign_code foreign_message : X -> option ustring) (foreign_object : X -> bool).
Abbreviation error := (replay_error X).

(** What a runner does with its transport. *)
Inductive client_act := Acquired | Registered (line : ustring) | TransportClosed.

(** ** Register, then replay *)

(** The thunk [register]: encode and send. *)
Definition register_with (msg : ClientMessage) (send : option X) : res error ustring :=
  line ← lift (encodeClientMessage number_text msg);
  match send with Some x => Err (Foreign x) | None => Ok line end.

Definition register_error_of (r : res error ustring) : option error :=
  match r with Err e => Some e | Ok _ => None end.

(** [register] runs unless the control is aborted. *)
Definition register_act (aborted : option X) (r : res error ustring) : list client_act :=
  match aborted, r with None, Ok line => [Registered line] | _, _ => [] end.

Definition runRegistered (opts : ReplayOptions) (msg : ClientMessage) (duration : number)
    (ready aborted send : option X) (first : arrival X) (ts : list (turn X)) (close : option X) (s : core)
    : exchange * list client_act * core :=
  match validateReplayOptions opts with
  | Err e => (Failed (Thrown e) None, [], s)
  | Ok _ =>
      match ready with
      | Some x => (Failed (Foreign x) None, [Acquired; TransportClosed], s)
      | None =>
          let r := register_with msg send in
          let '((x, was_closed), s') :=
            runLegacyReplay number_text foreign_code foreign_message foreign_object duration aborted
              (register_error_of r) first ts close s in
          (x, [Acquired] ++ register_act aborted r ++ if was_closed then [TransportClosed] else [], s')
      end
  end.

Definition runClientWithTracesWithReport (apalacheConfig : ApalacheConfig) (tracePaths : list ustring)
    (opts : ReplayOptions) :=
  runRegistered opts (RegisterTraces apalacheConfig tracePaths).

Definition runClientWithReport (apalacheConfig : ApalacheConfig) (config : TraceGenerationConfig)
    (spec : option ApalacheSpec) (opts : ReplayOptions) :=
  runRegistered opts (Register apalacheConfig config spec).

(** ** runOwnedRegistration *)

(** [A] is what a failure carries along. *)
Inductive owned (T A : Type) := Pending | Value (v : T) | Error (e : error) (note : A).
Arguments Pending {T A}.
Arguments Value {T A} v.
Arguments Error {T A} e note.

Section owned.
Context {T A S : Type} (no_note : A) (onCleanupFailure : T -> error -> A).

Definition runOwnedRegistration (encodedRegistration : ustring) (ready send : option X)
    (exchange : S -> owned T A * S) (close : option X) (s : S) : owned T A * list client_act * S :=
  match validateProtocolLine encodedRegistration with
  | Err e => (Error (Thrown e) no_note, [], s)
  | Ok _ =>
      match ready with
      | Some x => (Error (Foreign x) no_note, [Acquired; TransportClosed], s)
      | None =>
          let '(r, sent, s) :=
            match send with
            | Some x => (Error (Foreign x) no_note, [], s)
            | None => let '(r, s) := exchange s in (r, [Registered encodedRegistration], s)
            end in
          match r with
          | Pending => (Pending, Acquired :: sent, s)
          | Value v =>
              (match close with
               | None => Value v
               | Some c => Error (Foreign c) (onCleanupFailure v (Foreign c))
               end, Acquired :: sent ++ [TransportClosed], s)
          | Error e note => (Error e note, Acquired :: sent ++ [TransportClosed], s)
          end
      end
  end.
End owned.

Record GenTracesResult := MkGenTraces { itfTracePaths : js; itfTraces : js }.

Definition receiveGenTraces (a : arrival X) : res error GenTracesResult :=
  m ← receiveReplayMessage number_text a;
  match m with
  | ProtocolError e => Err (bare_error number_text plain Thrown e)
  | RegisterError e => Err (prefixed_error number_text plain Thrown "register failed: " e)
  | GenTracesDone paths traces => Ok (MkGenTraces paths (nullish traces (JArr [])))
  | _ => Err (plain ($"expected gen_traces_done, got " ++ lit (proto_step m)))
  end.

(** [None]: nothing has arrived yet. *)
Definition runClientGenTraces (apalacheConfig : ApalacheConfig) (destPath : option ustring)
    (config : TraceGenerationConfig) (spec : option ApalacheSpec) (ready send : option X)
    (reply : option (arrival X)) (close : option X) : owned GenTracesResult unit * list client_act :=
  match encodeClientMessage number_text (RegisterTraceGen apalacheConfig config destPath spec) with
  | Err e => (Error (Thrown e) tt, [])
  | Ok registration =>
      let exchange (_ : unit) :=
        (match reply with
         | None => Pending
         | Some a => match receiveGenTraces a with Ok v => Value v | Err e => Error e tt end
         end, tt) in
      (runOwnedRegistration tt (fun _ _ => tt) registration ready send exchange close tt).1
  end.

(** The exchange of a replay as an owned exchange: the note is the attached report. *)
Definition owned_exchange (x : exchange) : owned ReplayReport (option ReplayReport) :=
  match x with
  | Waiting => Pending
  | Completed rep => Value rep
  | Failed e attached => Error e attached
  end.

Definition runClientExplore (spec : ApalacheSpec) (invariants exports : list ustring) (maxSteps : number)
    (duration : number) (ready send : option X) (first : arrival X) (ts : list (turn X)) (close : option X)
    (s : core) : owned ReplayReport (option ReplayReport) * list client_act * core :=
  match encodeClientMessage number_text (RegisterExplore spec invariants exports maxSteps) with
  | Err e => (Error (Thrown e) None, [], s)
  | Ok registration =>
      let exchange s :=
        let '(x, s) := runReplayExchange number_text foreign_code foreign_message foreign_object
          duration None None first ts s in (owned_exchange x, s) in
      runOwnedRegistration None
        (fun rep e => attach foreign_object e (failedReplayReport foreign_code foreign_message rep e))
        registration ready send exchange close s
  end.

(** ** presetClient *)

(** A call of the computer with [i] states used up. *)
Definition presetClient (states : list State) (i : nat) : res exn (State * nat) :=
  match states !! i with
  | Some state => Ok (state, S i)
  | None => throw XError "presetClient exhausted"
  end.

(** ** What a run guarantees *)

(** What runs before the loop. *)
Lemma registered_Ok aborted register (first : arrival X) u :
  registered number_text aborted register first = Ok u ->
  aborted = None /\ register = None /\
  exists line, first = ALine line /\ decodeMirrorMessage number_text line = Ok (SpecValidated Valid).
Proof.
  unfold registered. destruct aborted, register; try done. cbn [mbind res_mbind]. unfold receiveReplayMessage.
  destruct first as [line| |x]; try done. cbn [receiveLine mbind res_mbind]. unfold decodeReplayMessage.
  destruct (decodeMirrorMessage number_text line) as [m|] eqn:E; [|done]. cbn [mbind res_mbind]. intros H.
  split_and!; [done|done|]. exists line. split; [done|]. rewrite E. f_equal.
  destruct m; try done. by destruct result.
Qed.

Lemma replayLoop_log duration ts (s : core) :
  c_log (replayLoop number_text foreign_code foreign_message foreign_object duration ts s).2 =
  c_log (replayCore number_text (X := X) progress_options ts s).2.
Proof. unfold replayLoop. by destruct (replayCore _ _ _ _) as [[[|]|] s']. Qed.

Lemma runReplayExchange_run duration aborted register first ts s x s' :
  runReplayExchange number_text foreign_code foreign_message foreign_object duration aborted register first ts s = (x, s') ->
  match registered number_text aborted register first with
  | Err e => s' = s /\ exists a e', x = Failed e' a
  | Ok _ =>
      s' = (replayLoop number_text foreign_code foreign_message foreign_object duration ts s).2 /\
      forall rep, x = Completed rep ->
        (replayLoop number_text foreign_code foreign_message foreign_object duration ts s).1 = Completed rep
  end.
Proof.
  unfold runReplayExchange. destruct (registered _ _ _ _) as [u|e].
  - destruct (replayLoop _ _ _ _ _ _ _) as [y s1]. intros [= <- <-]. split; [done|]. intros rep H.
    destruct y; cbn in *; try done. by destruct (rejected_not_completed _ _ _ _ _ _ _ _ H).
  - intros [= <- <-]. split; [done|]. unfold rejected. destruct (report_of _ _ _ _ _ _); by do 2 eexists.
Qed.

Definition validated (first : arrival X) : Prop :=
  exists line, first = ALine line /\ decodeMirrorMessage number_text line = Ok (SpecValidated Valid).

(** What a report of a completed run says about its log. *)
Definition truthful (rep : ReplayReport) (l : list event) : Prop :=
  rr_failure rep = None /\
  rr_tracesStarted rep = starts true l /\ rr_tracesCompleted rep = starts true l /\
  rr_stepsCompleted rep = starts false l /\
  rr_statesReported rep = sents l /\ rr_statesMatched rep = sents l /\
  sents l = (starts true l + starts false l)%Z.

(** C1: a client run from the registration to the report. Whatever the environment
    does: invalid options fail before a transport is acquired; an acquired transport
    is closed exactly once, at the end, unless the run still waits; at most one
    registration is sent, the encoding of the message; the run holds a lock-step
    conversation over the messages that arrive and the states the application
    computes, and nothing of it happens (no call of the application, no line)
    before the registration was sent and the mirror found the specification valid;
    and when the run returns a report (after fewer than 2^53 messages), closing
    succeeded, the report says "passed", and its traces, states and steps are those
    of the conversation, each reported state matched. *)
Theorem client_run_sound opts msg duration ready aborted send first ts close tr x acts s' :
  (Z.of_nat (length ts) < 2 ^ 53)%Z ->
  runRegistered opts msg duration ready aborted send first ts close (new_core tr (new_recorder None)) = (x, acts, s') ->
  match validateReplayOptions opts with
  | Err e => x = Failed (Thrown e) None /\ acts = [] /\ c_log s' = []
  | Ok _ =>
      (exists sent, acts = Acquired :: sent ++ match x with Waiting => [] | _ => [TransportClosed] end /\
         (sent = [] \/ exists line, encodeClientMessage number_text msg = Ok line /\ sent = [Registered line])) /\
      conversation number_text [] ts (c_log s') /\
      (c_log s' <> [] -> validated first /\ exists line, Registered line ∈ acts) /\
      forall rep, x = Completed rep -> ready = None /\ aborted = None /\ send = None /\ close = None /\
        validated first /\ truthful rep (c_log s')
  end.
Proof.
  intros Hlen. unfold runRegistered. destruct (validateReplayOptions opts) as [[]|e]; [|by intros [= <- <- <-]].
  destruct ready as [y|].
  { intros [= <- <- <-]. split; [exists []; split; [done|by left]|]. split; [apply conv_end|]. by split. }
  unfold runLegacyReplay. destruct (runReplayExchange _ _ _ _ _ _ _ _ _ _) as [y s1] eqn:E.
  apply runReplayExchange_run in E. destruct (registered _ _ _ _) as [u|e] eqn:Er.
  - destruct (registered_Ok _ _ _ _ Er) as (-> & Hreg & Hv). destruct E as [-> Hrep].
    unfold register_error_of in Hreg. destruct (register_with msg send) as [line|] eqn:El; [|done]. clear Hreg.
    unfold register_with in El. destruct (encodeClientMessage number_text msg) as [l|] eqn:Em; [|done].
    destruct send; [done|]. injection El as ->. cbn [register_act].
    pose proof (replayCore_speaks number_text (X := X) progress_options ts tr (new_recorder None)) as Hc.
    destruct (replayCore _ _ _ _) as [o s2] eqn:Ec in Hc. destruct Hc as [Hc _]. replace s2 with (o, s2).2 in Hc by done. rewrite <- Ec in Hc. clear o s2 Ec.
    rewrite <- replayLoop_log with (duration := duration) in Hc.
    destruct (close_after _ _ _ close y) as [z b] eqn:Ez.
    intros [= <- <- <-]. split; [|split; [exact Hc|split]].
    + exists [Registered line]. split; [|right; by exists line]. cbn. do 2 f_equal.
      destruct y as [|rep|]; cbn in Ez; [|destruct close|]; by injection Ez as <- <-.
    + intros _. split; [done|]. exists line. cbn. right. by left.
    + intros rep ->. destruct y as [|rep'|]; cbn in Ez; try done. destruct close; [done|]. injection Ez as -> <-.
      split_and!; try done.
      eapply replayLoop_report; [exact Hlen|]. rewrite <- (Hrep rep eq_refl). by rewrite <- surjective_pairing.
  - destruct E as [-> (a & e' & ->)]. intros [= <- <- <-]. split; [|split; [apply conv_end|by split]].
    exists (register_act aborted (register_with msg send)). split; [done|].
    unfold register_act, register_with. destruct aborted; [by left|].
    destruct (encodeClientMessage number_text msg) as [l|]; [|by left].
    destruct send; [by left|]. right. by exists l.
Qed.
End client.

(** ** A concrete run *)

Definition sample_config : ApalacheConfig :=
  {| specPath := $"Counter.tla"; initPredicate := Missing; nextPredicate := Missing; constInit := Null;
     cfg_invariant := $"Inv"; lengthBound := num_of_Z 10; paramVars := None |}.

Definition sample_first : arrival unit :=
  ALine ($"{" ++ quoted_text ($"proto_step") ++ $":" ++ quoted_text ($"spec_validated") ++ $"," ++
         quoted_text ($"result") ++ $":" ++ quoted_text ($"valid") ++ $"}").

Definition sample_opts : ReplayOptions := MkReplayOptions (Some (num_of_Z 1000)) None.
Definition sample_registration : ClientMessage := RegisterTraces sample_config [$"a.itf.json"].

Abbreviation sample_client :=
  (runRegistered (X := unit) (fun _ => $"0.5") (fun _ => None) (fun _ => None) (fun _ => false)
    sample_opts sample_registration (num_of_Z 7) None None None sample_first sample_turns None
    (new_core sample_setup.2 (new_recorder None))).

Definition sample_end := sample_client.

Lemma sample_client_ok : sample_client = (sample_end.1.1, sample_end.1.2, sample_end.2).
Proof. vm_compute. reflexivity. Qed.

Example client_run_sound_witness :
  match validateReplayOptions sample_opts with
  | Err e => sample_end.1.1 = Failed (Thrown e) None /\ sample_end.1.2 = [] /\ c_log sample_end.2 = []
  | Ok _ =>
      (exists sent, sample_end.1.2 =
           Acquired :: sent ++ match sample_end.1.1 with Waiting => [] | _ => [TransportClosed] end /\
         (sent = [] \/ exists line, encodeClientMessage (fun _ => $"0.5") sample_registration = Ok line /\
            sent = [Registered line])) /\
      conversation (fun _ => $"0.5") [] sample_turns (c_log sample_end.2) /\
      (c_log sample_end.2 <> [] -> validated (fun _ => $"0.5") sample_first /\
         exists line, Registered line ∈ sample_end.1.2) /\
      forall rep, sample_end.1.1 = Completed rep -> @None unit = None /\ @None unit = None /\ @None unit = None /\
        @None unit = None /\ validated (fun _ => $"0.5") sample_first /\ truthful rep (c_log sample_end.2)
  end.
Proof.
  exact (client_run_sound _ _ _ _ _ _ _ _ _ _ _ sample_turns _ _ _ _ _ ltac:(vm_compute; reflexivity) sample_client_ok).
Defined.

Example sample_client_completes :
  match sample_end.1.1 with Completed rep => rr_statesMatched rep | _ => 0%Z end = 4%Z.
Proof. vm_compute. reflexivity. Qed.
