(* ===== verification/Explore.v ===== *)
(** * The interactive session

    [ExploreSession] of [src/src/client.ts] as a machine. Its methods may overlap:
    each sends its line at once and then waits for the next line of the iterator, so
    replies meet the waiting calls in the order they were sent. An event is what can
    happen between two suspension points: a call, the arrival of what the oldest
    waiting call is answered with, the end of a [close()] that a call awaits.

    [open] is the function [open_session]. The values the environment throws are
    opaque. *)

From S2P Require Import Prelude JsNumber Utf16 JsData JsText Protocol ClientMessages Connection Negotiation MatchedEvidence ReplayReport ReplayCore.

(** ** Operations *)

Inductive explore_op :=
| OpAssumeTransition (transitionId : number)
| OpNextStep
| OpQueryState
| OpCheckInvariant (invariantId : number)
| OpAssumeState (eqs : State)
| OpRollback (snapshotId : number)
| OpDone.

Inductive explore_result :=
| GotStatus (status : js)
| GotNumber (n : js)
| GotState (state : cell)
| GotVoid.

(** The reply an operation waits for, and what it returns of it. *)
Definition accept (op : explore_op) (m : MirrorMessage) : option explore_result :=
  match op, m with
  | OpAssumeTransition _, ExploreTransitionStatus status => Some (GotStatus status)
  | OpNextStep, ExploreStepDone stepNo => Some (GotNumber stepNo)
  | OpQueryState, ExploreState state => Some (GotState state)
  | OpCheckInvariant _, ExploreInvariantStatus status => Some (GotStatus status)
  | OpAssumeState _, ExploreAssumeStatus status => Some (GotStatus status)
  | OpRollback _, ExploreRollbackDone snapshotId => Some (GotNumber snapshotId)
  | OpDone, ExploreSessionDone => Some GotVoid
  | _, _ => None
  end.

Definition is_done (op : explore_op) : bool := match op with OpDone => true | _ => false end.

Record ready_info := Ready { initTransitions : js; nextTransitions : js; stateInvariants : js }.

Section explore.
Context (number_text : number -> ustring) {X : Type}.
Abbreviation error := (replay_error X).

(** The line of an operation; [assumeState] writes its message itself. *)
Definition op_line (op : explore_op) : res exn ustring :=
  let encode m := encodeClientMessage number_text m in
  match op with
  | OpAssumeTransition transitionId => encode (ExploreAssumeTransition transitionId)
  | OpNextStep => encode ExploreNextStep
  | OpQueryState => encode ExploreQueryState
  | OpCheckInvariant invariantId => encode (ExploreCheckInvariant invariantId)
  | OpAssumeState eqs =>
      object_text number_text
        [($"proto_step", JStr ($"explore_assume_state")); ($"state", JObj (encodeState eqs))]
  | OpRollback snapshotId => encode (ExploreRollback snapshotId)
  | OpDone => encode ExploreDone
  end.

(** ** The session *)

Definition settlement := res error explore_result.

(** [inflight]: the calls that wait for a line; [closing]: the calls that await
    [close()], with what follows. *)
Record session := Session {
  closed : bool;
  inflight : list (nat * explore_op);
  closing : list (nat * settlement) }.

Definition open_state : session := Session false [] [].

Inductive session_event :=
| Call (id : nat) (op : explore_op) (send_error : option X)
| Arrive (a : arrival X)
| CloseEnds (id : nat) (close_error : option X).

Inductive session_output :=
| Sent (id : nat) (op : explore_op) (line : ustring)
| TransportClosed
| Settled (id : nat) (r : settlement).

Definition assertOpen (s : session) : res error unit :=
  require (negb (closed s)) (plain ($"explore session is closed")).

(** A method up to its wait for a line. *)
Definition call (id : nat) (op : explore_op) (send_error : option X) (s : session)
    : session * list session_output :=
  if is_done op && closed s then (s, [Settled id (Ok GotVoid)])
  else
    match (_ ← assertOpen s; line ← lift (op_line op);
           match send_error with Some x => Err (Foreign x) | None => Ok line end) with
    | Err e => (s, [Settled id (Err e)])
    | Ok line => (Session (closed s) (inflight s ++ [(id, op)]) (closing s), [Sent id op line])
    end.

(** Await [this.t.close()], then settle. *)
Definition close_then (id : nat) (r : settlement) (s : session) : session * list session_output :=
  (Session true (inflight s) (closing s ++ [(id, r)]), [TransportClosed]).

(** [await this.abort(); throw e] *)
Definition abort (id : nat) (e : error) (s : session) : session * list session_output :=
  if closed s then (s, [Settled id (Err e)]) else close_then id (Err e) s.

(** What a method does with what it was answered. *)
Definition answer (id : nat) (op : explore_op) (a : arrival X) (s : session)
    : session * list session_output :=
  match receiveReplayMessage number_text a with
  | Err e => abort id e s
  | Ok (ProtocolError e) => abort id (bare_error number_text plain Thrown e) s
  | Ok m =>
      match accept op m with
      | None => abort id (plain ($"unexpected reply: " ++ lit (proto_step m))) s
      | Some r => if is_done op then close_then id (Ok r) s else (s, [Settled id (Ok r)])
      end
  end.

Fixpoint take_closing (id : nat) (l : list (nat * settlement)) : option (settlement * list (nat * settlement)) :=
  match l with
  | [] => None
  | (i, r) :: l' =>
      if (i =? id)%nat then Some (r, l')
      else (fun p => (p.1, (i, r) :: p.2)) <$> take_closing id l'
  end.

(** [None]: the event cannot happen. *)
Definition session_step (s : session) (e : session_event) : option (session * list session_output) :=
  match e with
  | Call id op send_error => Some (call id op send_error s)
  | Arrive a =>
      match inflight s with
      | [] => None
      | (id, op) :: rest => Some (answer id op a (Session (closed s) rest (closing s)))
      end
  | CloseEnds id close_error =>
      '(r, rest) ← take_closing id (closing s);
      Some (Session (closed s) (inflight s) rest,
            [Settled id (match close_error with Some x => Err (Foreign x) | None => r end)])
  end.

Fixpoint session_run (s : session) (es : list session_event) : option (session * list session_output) :=
  match es with
  | [] => Some (s, [])
  | e :: es' =>
      '(s1, out1) ← session_step s e;
      '(s2, out2) ← session_run s1 es';
      Some (s2, out1 ++ out2)
  end.

(** ** Opening *)

Definition handshake (msg : ClientMessage) (send_error : option X) (a : arrival X) : res error ready_info :=
  line ← lift (encodeClientMessage number_text msg);
  _ ← match send_error with Some x => Err (Foreign x) | None => Ok tt end;
  m ← receiveReplayMessage number_text a;
  match m with
  | RegisterError e => Err (prefixed_error number_text plain Thrown "register failed: " e)
  | ProtocolError e => Err (bare_error number_text plain Thrown e)
  | ExplorerReady i n v => Ok (Ready i n v)
  | _ => Err (plain ($"expected explorer_ready, got " ++ lit (proto_step m)))
  end.

(** The second component says whether the transport was closed: by
    [resolveTransport], or when the handshake fails. *)
Definition open_session (spec : ApalacheSpec) (invariants exports : list ustring)
    (ready send_error : option X) (a : arrival X) (close_error : option X)
    : res error (session * ready_info) * bool :=
  match ready with
  | Some x => (Err (Foreign x), true)
  | None =>
      match handshake (RegisterExploreSession spec invariants exports) send_error a with
      | Ok info => (Ok (open_state, info), false)
      | Err e => (Err (match close_error with Some x => Foreign x | None => e end), true)
      end
  end.
End explore.
Arguments Sent {X}.
Arguments TransportClosed {X}.
Arguments Settled {X}.
Arguments Call {X}.
Arguments Arrive {X}.
Arguments CloseEnds {X}.
