(* ===== verification/ExploreFacts.v ===== *)
(** * What an interactive session guarantees

    Invariants of the machine of [Explore] over its runs from [open_state]. *)

From S2P Require Import Prelude JsNumber Utf16 JsData JsText Protocol ClientMessages Connection Negotiation MatchedEvidence ReplayReport ReplayCore Explore.

Section facts.
Context (number_text : number -> ustring) {X : Type}.
Abbreviation error := (replay_error X).
Abbreviation output := (session_output (X := X)).
Abbreviation st := (session (X := X)).
Abbreviation event := (session_event (X := X)).
Abbreviation run es := (session_run number_text (X := X) open_state es).
Abbreviation step s e := (session_step number_text (X := X) s e).

(** ** Observations *)

Definition sent_of (x : output) : list (nat * explore_op) := match x with Sent id op _ => [(id, op)] | _ => [] end.
Definition settled_of (x : output) : list nat := match x with Settled id _ => [id] | _ => [] end.
Definition is_closed (x : output) : bool := match x with TransportClosed => true | _ => false end.
Definition call_of (e : event) : list nat := match e with Call id _ _ => [id] | _ => [] end.
Definition arrival_of (e : event) : list (arrival X) := match e with Arrive a => [a] | _ => [] end.

Definition sent (out : list output) := concat (map sent_of out).
Definition settled_ids (out : list output) := concat (map settled_of out).
Definition closes (out : list output) : nat := length (List.filter is_closed out).
Definition called (es : list event) := concat (map call_of es).
Definition arrivals (es : list event) := concat (map arrival_of es).

Lemma session_sent_app a b : sent (a ++ b) = sent a ++ sent b.
Proof. unfold sent. by rewrite map_app, concat_app. Qed.
Lemma session_settled_app a b : settled_ids (a ++ b) = settled_ids a ++ settled_ids b.
Proof. unfold settled_ids. by rewrite map_app, concat_app. Qed.
Lemma session_closes_app a b : closes (a ++ b) = (closes a + closes b)%nat.
Proof. unfold closes. by rewrite List.filter_app, length_app. Qed.
Lemma called_snoc es e : called (es ++ [e]) = called es ++ call_of e.
Proof. unfold called. rewrite map_app, concat_app. cbn. by rewrite app_nil_r. Qed.
Lemma arrivals_snoc es e : arrivals (es ++ [e]) = arrivals es ++ arrival_of e.
Proof. unfold arrivals. rewrite map_app, concat_app. cbn. by rewrite app_nil_r. Qed.

(** Nothing is sent once the transport was closed. *)
Fixpoint silent_after_close (out : list output) : Prop :=
  match out with
  | [] => True
  | TransportClosed :: rest => sent rest = []
  | _ :: rest => silent_after_close rest
  end.

Lemma silent_after_close_app a b : silent_after_close a ->
  (if (0 <? closes a)%nat then sent b = [] else silent_after_close b) -> silent_after_close (a ++ b).
Proof.
  unfold closes. induction a as [|x a IH]; [done|]. destruct x; cbn; try done.
  intros Ha Hb. rewrite session_sent_app, Ha. done.
Qed.

(** The reply leaves the session open. *)
Definition keeps_open (op : explore_op) (a : arrival X) : bool :=
  match receiveReplayMessage number_text a with
  | Ok m => match accept op m with Some _ => negb (is_done op) | None => false end
  | Err _ => false
  end.

(** An operation that returns [v] was answered by a reply with [v] in it. *)
Definition answers (op : explore_op) (a : arrival X) (v : explore_result) : Prop :=
  exists m, receiveReplayMessage number_text a = Ok m /\ accept op m = Some v.

(** ** One step *)

(** A call that got its line either settles at once, the session staying as it is,
    or closes the transport first. *)
Lemma answer_cases id op a (s s' : st) out : answer number_text id op a s = (s', out) ->
  exists r, (forall v, r = Ok v -> answers op a v) /\
    ((s' = s /\ out = [Settled id r] /\ (keeps_open op a = true \/ keeps_open op a = false /\ closed s = true)) \/
     ((s', out) = close_then id r s /\ keeps_open op a = false /\ (closed s = false \/ is_done op = true))).
Proof.
  assert (forall e, abort id e s = (s', out) -> keeps_open op a = false ->
    exists r, (forall v, r = Ok v -> answers op a v) /\
    ((s' = s /\ out = [Settled id r] /\ (keeps_open op a = true \/ keeps_open op a = false /\ closed s = true)) \/
     ((s', out) = close_then id r s /\ keeps_open op a = false /\ (closed s = false \/ is_done op = true)))) as Habort.
  { intros e H Hk. exists (Err e). split; [done|]. unfold abort in H. destruct (closed s) eqn:E.
    - injection H as <- <-. left. auto.
    - right. rewrite <- H. auto. }
  unfold answer, keeps_open, answers in *. destruct (receiveReplayMessage number_text a) as [m|e]; [|intros H; by eapply Habort].
  destruct (accept op m) as [v|] eqn:Ea.
  - intros H. exists (Ok v). split; [intros ? [= <-]; by exists m|].
    assert ((if is_done op then close_then id (Ok v) s else (s, [Settled id (Ok v)])) = (s', out)) as H'.
    { destruct m; try exact H; by destruct op. }
    destruct (is_done op); cbn [negb].
    + right. rewrite <- H'. auto.
    + left. injection H' as <- <-. auto.
  - destruct m; intros H; by eapply Habort.
Qed.

Lemma call_cases id op x (s s' : st) out : call number_text id op x s = (s', out) ->
  (exists line, closed s = false /\ s' = Session false (inflight s ++ [(id, op)]) (closing s) /\ out = [Sent id op line]) \/
  (exists r, s' = s /\ out = [Settled id r] /\ forall v, r = Ok v -> v = GotVoid /\ op = OpDone /\ closed s = true).
Proof.
  unfold call. destruct (is_done op && closed s) eqn:E.
  { intros [= <- <-]. right. exists (Ok GotVoid). apply andb_true_iff in E as [Ed ->].
    split_and!; [done|done|]. intros v [= <-]. by destruct op. }
  unfold assertOpen. destruct (closed s) eqn:Ec; cbn [negb require mbind res_mbind].
  { intros [= <- <-]. right. eexists. split_and!; [done|done|]. intros v [=]. }
  destruct (op_line number_text op) as [line|e]; cbn [lift mbind res_mbind].
  - destruct x as [x|]; intros [= <- <-]; [right|left].
    + eexists. split_and!; [done|done|]. intros v [=].
    + by exists line.
  - intros [= <- <-]. right. eexists. split_and!; [done|done|]. intros v [=].
Qed.

Lemma take_closing_spec id l r (rest : list (nat * settlement (X := X))) : take_closing (X := X) id l = Some (r, rest) ->
  l ≡ₚ (id, r) :: rest.
Proof.
  revert rest. induction l as [|[i q] l IH]; intros rest; cbn; [done|].
  destruct (Nat.eqb_spec i id) as [->|_]; [by intros [= <- <-]|].
  destruct (take_closing id l) as [[q' l']|]; cbn; [|done]. intros [= <- <-].
  rewrite (IH l') by done. apply perm_swap.
Qed.

(** ** The invariant *)

Definition returned (es : list event) (out : list output) (id : nat) (v : explore_result) : Prop :=
  (exists i op a, sent out !! i = Some (id, op) /\ arrivals es !! i = Some a /\ answers op a v) \/
  (v = GotVoid /\ exists x, Call id OpDone x ∈ es).

Definition all_open (answered : list (nat * explore_op)) (replies : list (arrival X)) : bool :=
  forallb (fun p => keeps_open p.1.2 p.2) (zip answered replies).

Record session_ok (es : list event) (s : st) (out : list output) (answered : list (nat * explore_op)) : Prop := SessionOk {
  so_queue : sent out = answered ++ inflight s;
  so_answered : length answered = length (arrivals es);
  so_calls : called es ≡ₚ settled_ids out ++ map fst (inflight s) ++ map fst (closing s);
  so_closed : closed s = (0 <? closes out)%nat;
  so_open : closed s = negb (all_open answered (arrivals es));
  so_silent : silent_after_close out;
  so_results : forall id v, Settled id (Ok v) ∈ out \/ (id, Ok v) ∈ closing s -> returned es out id v }.

Lemma returned_more es es' out out' id v : returned es out id v -> returned (es ++ es') (out ++ out') id v.
Proof.
  intros [(i & op & a & H1 & H2 & H3)|(-> & x & Hx)]; [left|right].
  - exists i, op, a. rewrite session_sent_app. unfold arrivals in *. rewrite map_app, concat_app.
    split_and!; [by apply lookup_app_l_Some|by apply lookup_app_l_Some|done].
  - split; [done|]. exists x. apply elem_of_app. by left.
Qed.

Lemma open_state_ok : session_ok [] open_state [] [].
Proof.
  split; try done. intros id v [H|H]; by apply not_elem_of_nil in H.
Qed.

Lemma zip_extend {A B} (l l' : list A) (k : list B) : length l = length k -> zip (l ++ l') k = zip l k.
Proof. revert k. induction l as [|x l IH]; intros [|y k]; cbn; try done; [by destruct l'|]. intros [=]. by rewrite IH. Qed.

Lemma all_open_snoc answered replies id op a : length answered = length replies ->
  all_open (answered ++ [(id, op)]) (replies ++ [a]) = all_open answered replies && keeps_open op a.
Proof. intros H. unfold all_open. rewrite zip_with_app by done. rewrite forallb_app. cbn. by rewrite andb_true_r. Qed.

(** A step that settles [id] with [r]. *)
Lemma closes_settled id r : closes [Settled (X := X) id r] = 0%nat.
Proof. done. Qed.

Lemma session_call es s out answered id op x s' out2 :
  session_ok es s out answered -> call number_text id op x s = (s', out2) ->
  session_ok (es ++ [Call id op x]) s' (out ++ out2) answered.
Proof.
  intros [H1 H2 H3 H4 H5 H6 H7] Hc.
  assert (arrivals (es ++ [Call id op x]) = arrivals es) as Ha by (rewrite arrivals_snoc; apply app_nil_r).
  destruct (call_cases _ _ _ _ _ _ Hc) as [(line & Hop & -> & ->)|(r & -> & -> & Hr)].
  - split; rewrite ?Ha; try done; cbn [inflight closing closed].
    + rewrite session_sent_app, H1, <- app_assoc. done.
    + rewrite called_snoc, session_settled_app, map_app, H3. cbn. rewrite app_nil_r. solve_Permutation.
    + by rewrite session_closes_app, Nat.add_0_r, <- H4.
    + by rewrite <- H5.
    + apply silent_after_close_app; [done|]. rewrite <- H4, Hop. done.
    + intros i v [Hs|Hs]; apply returned_more, H7; [left|by right].
      apply elem_of_app in Hs as [Hs|Hs]; [done|]. by apply list_elem_of_singleton in Hs.
  - split; rewrite ?Ha; try done.
    + rewrite session_sent_app, H1, app_nil_r. done.
    + rewrite called_snoc, session_settled_app, H3. cbn. solve_Permutation.
    + by rewrite session_closes_app, Nat.add_0_r.
    + apply silent_after_close_app; [done|]. by destruct (0 <? closes out)%nat.
    + intros i v [Hs|Hs]; [|by apply returned_more, H7; right].
      apply elem_of_app in Hs as [Hs|Hs]; [by apply returned_more, H7; left|].
      apply list_elem_of_singleton in Hs as [= -> <-]. destruct (Hr v eq_refl) as (-> & -> & _).
      right. split; [done|]. exists x. apply elem_of_app. right. by left.
Qed.

Lemma session_arrive es s out answered id op rest a s' out2 :
  session_ok es s out answered -> inflight s = (id, op) :: rest ->
  answer number_text id op a (Session (closed s) rest (closing s)) = (s', out2) ->
  session_ok (es ++ [Arrive a]) s' (out ++ out2) (answered ++ [(id, op)]).
Proof.
  intros [H1 H2 H3 H4 H5 H6 H7] Hin Hc. rewrite Hin in *.
  assert (arrivals (es ++ [Arrive a]) = arrivals es ++ [a]) as Ha by apply arrivals_snoc.
  assert (called (es ++ [Arrive a]) = called es) as Hca by (rewrite called_snoc; apply app_nil_r).
  destruct (answer_cases _ _ _ _ _ _ Hc) as (r & Hr & Hcase).
  assert (forall o2, sent o2 = [] -> forall v, answers op a v -> returned (es ++ [Arrive a]) (out ++ o2) id v) as Hret.
  { intros o2 Ho v Hv. left. exists (length answered), op, a. rewrite session_sent_app, H1, Ho, Ha, app_nil_r.
    split_and!; [by rewrite list_lookup_middle|by rewrite H2, list_lookup_middle|done]. }
  destruct Hcase as [(-> & -> & Hk)|([= -> ->] & Hk & Hcl)]; cbn [closed inflight closing] in *.
  - split; rewrite ?Ha, ?Hca; cbn [closed inflight closing].
    + rewrite session_sent_app, H1, app_nil_r, <- app_assoc. done.
    + rewrite !length_app, H2. done.
    + rewrite H3, session_settled_app. cbn. solve_Permutation.
    + by rewrite session_closes_app, Nat.add_0_r.
    + rewrite all_open_snoc by done. destruct Hk as [->|[-> Hcl]]; [by rewrite andb_true_r|by rewrite andb_false_r].
    + apply silent_after_close_app; [done|]. by destruct (0 <? closes out)%nat.
    + intros i v [Hs|Hs]; [|by apply returned_more, H7; right].
      apply elem_of_app in Hs as [Hs|Hs]; [by apply returned_more, H7; left|].
      apply list_elem_of_singleton in Hs as [= -> <-]. by apply Hret, Hr.
  - split; rewrite ?Ha, ?Hca; cbn [closed inflight closing].
    + rewrite session_sent_app, H1, app_nil_r, <- app_assoc. done.
    + rewrite !length_app, H2. done.
    + rewrite H3, session_settled_app, map_app. cbn. solve_Permutation.
    + by rewrite session_closes_app, Nat.add_comm.
    + rewrite all_open_snoc by done. by rewrite Hk, andb_false_r.
    + apply silent_after_close_app; [done|]. by destruct (0 <? closes out)%nat.
    + intros i v [Hs|Hs].
      * apply elem_of_app in Hs as [Hs|Hs]; [by apply returned_more, H7; left|]. by apply list_elem_of_singleton in Hs.
      * apply elem_of_app in Hs as [Hs|Hs]; [by apply returned_more, H7; right|].
        apply list_elem_of_singleton in Hs as [= -> <-]. by apply Hret, Hr.
Qed.

Lemma session_close_ends es s out answered id x r rest :
  session_ok es s out answered -> take_closing id (closing s) = Some (r, rest) ->
  session_ok (es ++ [CloseEnds id x]) (Session (closed s) (inflight s) rest)
    (out ++ [Settled id (match x with Some x => Err (Foreign x) | None => r end)]) answered.
Proof.
  intros [H1 H2 H3 H4 H5 H6 H7] Ht%take_closing_spec.
  assert (arrivals (es ++ [CloseEnds id x]) = arrivals es) as Ha by (rewrite arrivals_snoc; apply app_nil_r).
  assert (called (es ++ [CloseEnds id x]) = called es) as Hca by (rewrite called_snoc; apply app_nil_r).
  split; rewrite ?Ha, ?Hca; cbn [closed inflight closing]; try done.
  - rewrite session_sent_app, H1, app_nil_r. done.
  - rewrite H3, session_settled_app, Ht. cbn. solve_Permutation.
  - by rewrite session_closes_app, Nat.add_0_r.
  - apply silent_after_close_app; [done|]. by destruct (0 <? closes out)%nat.
  - intros i v [Hs|Hs]; apply returned_more, H7; [|right; rewrite Ht; by right].
    apply elem_of_app in Hs as [Hs|Hs]; [by left|]. apply list_elem_of_singleton in Hs as [= -> Hv].
    right. rewrite Ht. destruct x; [done|]. subst r. by left.
Qed.

(** ** Runs *)

Lemma session_run_app s es1 es2 : session_run number_text s (es1 ++ es2) =
  ('(s1, out1) ← session_run number_text s es1;
   '(s2, out2) ← session_run number_text s1 es2;
   Some (s2, out1 ++ out2) : option (st * list output)).
Proof.
  revert s. induction es1 as [|e es1 IH]; intros s; cbn.
  { by destruct (session_run number_text s es2) as [[]|]. }
  destruct (session_step number_text s e) as [[s1 out1]|]; [|done]. cbn. rewrite IH.
  destruct (session_run number_text s1 es1) as [[s2 out2]|]; [|done]. cbn.
  destruct (session_run number_text s2 es2) as [[s3 out3]|]; [|done]. cbn. by rewrite app_assoc.
Qed.

Lemma run_snoc es e s' out : run (es ++ [e]) = Some (s', out) ->
  exists s out1 out2, run es = Some (s, out1) /\ step s e = Some (s', out2) /\ out = out1 ++ out2.
Proof.
  rewrite session_run_app. destruct (run es) as [[s out1]|]; [|done]. cbn.
  destruct (session_step _ _ _) as [[s2 out2]|] eqn:E; [|done]. cbn. intros [= <- <-].
  exists s, out1, out2. rewrite app_nil_r. by split_and!.
Qed.

Lemma step_ok es s out answered e s' out2 : session_ok es s out answered -> step s e = Some (s', out2) ->
  exists answered', session_ok (es ++ [e]) s' (out ++ out2) answered'.
Proof.
  intros Hs He. destruct e as [id op x|a|id x]; cbn in He.
  - injection He as He. exists answered. by eapply session_call.
  - destruct (inflight s) as [|[id op] rest] eqn:Hin; [done|]. injection He as He.
    eexists. by eapply session_arrive.
  - destruct (take_closing id (closing s)) as [[r rest]|] eqn:Ht; [|done]. injection He as <- <-.
    exists answered. by apply session_close_ends.
Qed.

Lemma run_ok es s out : run es = Some (s, out) -> exists answered, session_ok es s out answered.
Proof.
  revert s out. induction es as [|e es IH] using rev_ind; intros s out H.
  { injection H as <- <-. exists []. apply open_state_ok. }
  apply run_snoc in H as (s1 & out1 & out2 & H & He & ->). destruct (IH _ _ H) as [answered Ha].
  by eapply step_ok.
Qed.

(** An interactive session, under every interleaving of its methods. The lines
    are answered in the order they were sent; every call is settled exactly once,
    waits for a line or awaits the closing of the transport; the session is open
    exactly while every reply was the one its call waits for and none ended a
    [done()]; it is closed exactly when the transport was, and after that nothing is
    sent; and a value is returned only by the call that sent the line which the
    reply with that value answered, or by [done()] on a closed session. *)
Theorem session_sound (es : list event) (s : st) (out : list output) :
  run es = Some (s, out) ->
  let n := length (arrivals es) in
  inflight s = drop n (sent out) /\ (n <= length (sent out))%nat /\
  called es ≡ₚ settled_ids out ++ map fst (inflight s) ++ map fst (closing s) /\
  closed s = negb (forallb (fun p => keeps_open p.1.2 p.2) (zip (sent out) (arrivals es))) /\
  (closed s = true <-> TransportClosed ∈ out) /\
  (forall out1 out2, out = out1 ++ TransportClosed :: out2 -> sent out2 = []) /\
  (forall id v, Settled id (Ok v) ∈ out -> returned es out id v).
Proof.
  intros H. destruct (run_ok _ _ _ H) as [answered [H1 H2 H3 H4 H5 H6 H7]]. cbv zeta. split_and!.
  - rewrite H1, <- H2. by rewrite drop_app_length.
  - rewrite H1, <- H2, length_app. lia.
  - done.
  - rewrite H1, zip_extend by done. exact H5.
  - rewrite H4. clear. unfold closes. induction out as [|x out IH]; [by split; [|intros ?%not_elem_of_nil]|].
    rewrite elem_of_cons. destruct x; cbn; rewrite ?IH; naive_solver.
  - clear -H6. intros out1 out2 ->. induction out1 as [|x out1 IH]; [done|]. destruct x; cbn in H6; auto.
    rewrite session_sent_app in H6. apply app_nil in H6 as [_ H6]. exact H6.
  - intros id v Hs. apply H7. by left.
Qed.

(** ** Calls one at a time *)

(** Every call happens when nothing is going on. *)
Definition one_at_a_time (es : list event) : Prop :=
  forall es1 id op x es2 s out, es = es1 ++ Call id op x :: es2 -> run es1 = Some (s, out) ->
    inflight s = [] /\ closing s = [].

Record sequential_ok (s : st) (out : list output) : Prop := SequentialOk {
  sq_one : (length (inflight s) + length (closing s) <= 1)%nat;
  sq_closed : closed s = true -> inflight s = [];
  sq_closes : closes out = if closed s then 1%nat else 0%nat }.

Lemma sequential_step s out e s' out2 : sequential_ok s out -> step s e = Some (s', out2) ->
  (forall id op x, e = Call id op x -> inflight s = [] /\ closing s = []) -> sequential_ok s' (out ++ out2).
Proof.
  intros [H1 H2 H3] He Hidle. destruct e as [id op x|a|id x]; cbn in He.
  - injection He as He. destruct (Hidle id op x eq_refl) as [Hi Hc].
    destruct (call_cases _ _ _ _ _ _ He) as [(line & Hop & -> & ->)|(r & -> & -> & _)].
    + split; [cbn; rewrite Hi, Hc; done|done|by rewrite session_closes_app, H3, Hop].
    + split; [done|done|]. by rewrite session_closes_app, Nat.add_0_r.
  - destruct (inflight s) as [|[id op] rest] eqn:Hin; [done|]. injection He as He. cbn in H1.
    destruct rest as [|? rest]; [|cbn in H1; lia]. destruct (closed s) eqn:Hc; [by specialize (H2 eq_refl)|].
    destruct (closing s) as [|? l] eqn:Hl; [|cbn in H1; lia].
    destruct (answer_cases _ _ _ _ _ _ He) as (r & _ & [(-> & -> & _)|([= -> ->] & _)]).
    + split; [cbn; lia|done|by rewrite session_closes_app, H3].
    + split; [cbn; lia|done|by rewrite session_closes_app, H3].
  - destruct (take_closing id (closing s)) as [[r rest]|] eqn:Ht; [|done]. injection He as <- <-.
    apply take_closing_spec in Ht. apply Permutation_length in Ht. cbn in Ht.
    split; [cbn; lia|done|]. by rewrite session_closes_app, Nat.add_0_r.
Qed.

(** Calls that do not overlap close the transport at most once, never answer a
    line of a closed session, and settle before the next call starts. *)
Theorem sequential_session_closes_once (es : list event) (s : st) (out : list output) :
  one_at_a_time es -> run es = Some (s, out) ->
  closes out = (if closed s then 1 else 0)%nat /\
  (length (inflight s) + length (closing s) <= 1)%nat /\ (closed s = true -> inflight s = []).
Proof.
  intros Hone H. enough (sequential_ok s out) as [] by done. revert s out Hone H.
  induction es as [|e es IH] using rev_ind; intros s out Hone H.
  { injection H as <- <-. split; cbn; [lia|done|done]. }
  apply run_snoc in H as (s1 & out1 & out2 & H & He & ->).
  eapply sequential_step; [apply IH; [|exact H]|exact He|].
  - intros es1 id op x es2 s0 out0 -> H0. eapply (Hone es1 id op x (es2 ++ [e])); [by rewrite <- app_assoc|exact H0].
  - intros id op x ->. by eapply (Hone es id op x []).
Qed.
End facts.

(** ** Concrete sessions *)

Definition sample_reply (step : string) : arrival unit :=
  ALine ($"{" ++ quoted_text ($"proto_step") ++ $":" ++ quoted_text (lit step) ++ $"}").

Definition sample_session : list (session_event (X := unit)) :=
  [Call 0 OpNextStep None; Arrive (sample_reply "explore_step_done"); Call 1 OpDone None;
   Arrive (sample_reply "explore_session_done"); CloseEnds 1 None; Call 2 OpNextStep None; Call 3 OpDone None].

Definition sample_session_end : option (session (X := unit) * list (session_output (X := unit))) :=
  session_run (fun _ => $"0.5") open_state sample_session.
Definition sample_session_state : session := from_option fst open_state sample_session_end.
Definition sample_session_out : list session_output := from_option snd [] sample_session_end.

Lemma sample_session_ok : session_run (fun _ => $"0.5") open_state sample_session = Some (sample_session_state, sample_session_out).
Proof. vm_compute. reflexivity. Qed.

Example sample_session_closed : sample_session_state = Session true [] [] /\
  settled_ids sample_session_out = [0; 1; 2; 3]%nat /\ closes sample_session_out = 1%nat.
Proof. vm_compute. repeat split. Qed.

Example session_sound_witness :
  let n := length (arrivals sample_session) in
  inflight sample_session_state = drop n (sent sample_session_out) /\ (n <= length (sent sample_session_out))%nat /\
  called sample_session ≡ₚ settled_ids sample_session_out ++ map fst (inflight sample_session_state) ++
    map fst (closing sample_session_state) /\
  closed sample_session_state =
    negb (forallb (fun p => keeps_open (fun _ => $"0.5") p.1.2 p.2) (zip (sent sample_session_out) (arrivals sample_session))) /\
  (closed sample_session_state = true <-> TransportClosed ∈ sample_session_out) /\
  (forall out1 out2, sample_session_out = out1 ++ TransportClosed :: out2 -> sent out2 = []) /\
  (forall id v, Settled id (Ok v) ∈ sample_session_out ->
     returned (fun _ => $"0.5") sample_session sample_session_out id v).
Proof. exact (session_sound (fun _ => $"0.5") _ _ _ sample_session_ok). Defined.

Lemma sample_one_at_a_time : one_at_a_time (fun _ => $"0.5") sample_session.
Proof.
  intros es1 id op x es2 s out Hes Hrun. unfold sample_session in Hes.
  do 7 (destruct es1 as [|? es1]; [injection Hes as <- <- <- _ || discriminate Hes; vm_compute in Hrun; injection Hrun as <- <-; by split
    |injection Hes as <- Hes]). by destruct es1.
Qed.

Example sequential_session_closes_once_witness :
  closes sample_session_out = (if closed sample_session_state then 1 else 0)%nat /\
  (length (inflight sample_session_state) + length (closing sample_session_state) <= 1)%nat /\
  (closed sample_session_state = true -> inflight sample_session_state = []).
Proof. exact (sequential_session_closes_once (fun _ => $"0.5") _ _ _ sample_one_at_a_time sample_session_ok). Defined.

(** Two overlapping calls of [done()] close the transport twice. *)
Definition sample_double_done : list (session_event (X := unit)) :=
  [Call 0 OpDone None; Call 1 OpDone None; Arrive (sample_reply "explore_session_done");
   Arrive (sample_reply "explore_session_done")].

Example double_done_closes_twice :
  closes (from_option snd [] (session_run (fun _ => $"0.5") open_state sample_double_done)) = 2%nat.
Proof. vm_compute. reflexivity. Qed.
