(* ===== verification/SpecFiles.v ===== *)
(** * The closure of a specification

    [src/src/spec.ts]: the tokens and references of a module ([dependencyTokens],
    [moduleRefs]) and the walk [specFromFiles] over the modules they reach. The file
    system is the environment, unchanged during the walk: [absolute] is
    [path.resolve] of one path, [candidatePath] of a directory and a file name. *)

From S2P Require Import Prelude JsNumber Utf16 JsData Decode JsText.

(** ** Tokens *)

Definition is_name_start (c : N) : bool :=
  (0x41 <=? c)%N && (c <=? 0x5a)%N || (0x61 <=? c)%N && (c <=? 0x7a)%N || (c =? 0x5f)%N.
Definition is_name_char (c : N) : bool := is_name_start c || is_digit c.

(** Where the scanner is. [Block depth] is inside [depth + 1] comments. *)
Inductive scan_mode := Code | Block (depth : nat) | LineComment | Quoted | Name (acc : ustring).

Definition comma : ustring := $",".

(** A name that ends here. *)
Definition ended (m : scan_mode) : list ustring := match m with Name acc => [acc] | _ => [] end.

Fixpoint scan (m : scan_mode) (s : ustring) : list ustring :=
  match s with
  | [] => ended m
  | c :: t =>
      match m with
      | Block depth =>
          match t with
          | d :: t' =>
              if (c =? 0x28)%N && (d =? 0x2a)%N then scan (Block (S depth)) t'
              else if (c =? 0x2a)%N && (d =? 0x29)%N
                   then scan (match depth with O => Code | S depth' => Block depth' end) t'
                   else scan (Block depth) t
          | [] => []
          end
      | LineComment => scan (if (c =? 0x0a)%N then Code else LineComment) t
      | Quoted =>
          if (c =? 0x5c)%N then match t with _ :: t' => scan Quoted t' | [] => [] end
          else scan (if (c =? 0x22)%N then Code else Quoted) t
      | Code | Name _ =>
          if match m with Name _ => is_name_char c | _ => false end
          then scan (match m with Name acc => Name (acc ++ [c]) | _ => Code end) t
          else ended m ++
            match t with
            | d :: t' =>
                if (c =? 0x5c)%N && (d =? 0x2a)%N then scan LineComment t'
                else if (c =? 0x28)%N && (d =? 0x2a)%N then scan (Block 0) t'
                else if (c =? 0x22)%N then scan Quoted t
                else if (c =? 0x2c)%N then comma :: scan Code t
                else if is_name_start c then scan (Name [c]) t
                else scan Code t
            | [] => if (c =? 0x2c)%N then [comma] else if is_name_start c then [[c]] else []
            end
      end
  end.

Definition dependencyTokens (source : ustring) : list ustring := scan Code source.

(** ** References *)

Definition BUILTINS : list ustring :=
  map lit ["Naturals"; "Integers"; "Reals"; "Sequences"; "FiniteSets"; "TLC"; "Bags"; "Apalache"]%string.

(** The loop over the tokens; [more]: in an EXTENDS clause, after a name. *)
Fixpoint references (more : bool) (tokens : list ustring) : list ustring :=
  match tokens with
  | [] => []
  | t :: rest =>
      match rest with
      | [] => []
      | n :: rest' =>
          if more && bool_decide (t = comma) then
            if bool_decide (n = comma) then references false rest else n :: references true rest'
          else if t =s "EXTENDS" then
            if bool_decide (n = comma) then references false rest else n :: references true rest'
          else if t =s "INSTANCE" then n :: references false rest'
          else references false rest
      end
  end.

Definition moduleRefs (source : ustring) : list ustring :=
  List.filter (fun name => negb (bool_decide (name ∈ BUILTINS))) (references false (dependencyTokens source)).

(** Nested comments, a line comment and a string are skipped. *)
Example tokens_example :
  let open_comment := [0x28; 0x2a]%N in let close_comment := [0x2a; 0x29]%N in
  moduleRefs ($"EXTENDS Naturals, " ++ open_comment ++ $" A, " ++ open_comment ++ $"b" ++ close_comment ++ close_comment ++
    $" Queue, \* Hidden" ++ [0x0a]%N ++ $" Sets LOCAL M == INSTANCE Store " ++ [0x22]%N ++ $"INSTANCE X" ++ [0x22]%N) =
  [$"Queue"; $"Sets"; $"Store"].
Proof. vm_compute. reflexivity. Qed.

(** ** The walk *)

Definition unique (l : list ustring) : list ustring :=
  foldl (fun acc x => if bool_decide (x ∈ acc) then acc else acc ++ [x]) [] l.

(** What the walk throws: a failure of the file system, or its own error. *)
Inductive spec_error := Unreadable (path : ustring) | SpecFailed (e : exn) | OutOfFuel.

Record closure := Closure { visited : list ustring; deps : list ustring }.

Section walk.
Context (absolute dirname : ustring -> ustring) (candidatePath : ustring -> ustring -> ustring).
Context (access : ustring -> bool) (realpath readSource : ustring -> option ustring).
Context (searchDirs : list ustring) (maxSources : option N).

Definition existingPaths (candidates : list ustring) : list ustring :=
  omap (fun p => if access p then realpath p else None) candidates.

(** The file a name refers to. *)
Definition resolve_ref (abs name : ustring) : res spec_error ustring :=
  let file := name ++ $".tla" in
  let candidates := candidatePath (dirname abs) file :: map (fun d => candidatePath d file) searchDirs in
  match unique (existingPaths candidates) with
  | [] => Err (SpecFailed (Exn XError ($"module " ++ name ++ $" required by " ++ abs ++ $" not found")))
  | [path] => Ok path
  | found => Err (SpecFailed (Exn XError ($"module " ++ name ++ $" required by " ++ abs ++
               $" is ambiguous: found at " ++ join ($", ") found)))
  end.

Definition over_limit (c : closure) : bool :=
  match maxSources with Some n => (n <=? N.of_nat (length (visited c)))%N | None => false end.

Definition limit_error : spec_error :=
  SpecFailed (Exn XError ($"source closure exceeds " ++ dec_of_N (default 0%N maxSources) ++ $" modules")).

(** The loop over the references of the module [abs]. *)
Fixpoint visit_refs (visit : ustring -> closure -> res spec_error closure) (abs : ustring)
    (refs : list ustring) (c : closure) : res spec_error closure :=
  match refs with
  | [] => Ok c
  | name :: refs' =>
      path ← resolve_ref abs name;
      c ← visit path c;
      visit_refs visit abs refs' c
  end.

(** [fuel] bounds the depth of the recursion. *)
Fixpoint visit (fuel : nat) (isRoot : bool) (path : ustring) (c : closure) : res spec_error closure :=
  match fuel with
  | O => Err OutOfFuel
  | S fuel' =>
      match realpath (absolute path) with
      | None => Err (Unreadable path)
      | Some abs =>
          if bool_decide (abs ∈ visited c) then Ok c
          else if over_limit c then Err limit_error
          else
            match readSource abs with
            | None => Err (Unreadable abs)
            | Some text =>
                c ← visit_refs (visit fuel' false) abs (moduleRefs text) (Closure (visited c ++ [abs]) (deps c));
                mret (Closure (visited c) (if isRoot then text :: deps c else deps c ++ [text]))
            end
      end
  end.

Definition specFromFiles (fuel : nat) (rootPath : ustring) : res spec_error (list ustring) :=
  deps <$> visit fuel true rootPath (Closure [] []).
End walk.

(** The check of [policy.maxSources]. *)
Definition max_sources (limit : option number) : res spec_error (option N) :=
  match limit with
  | None => Ok None
  | Some x =>
      match num_safe_Z x with
      | Some z => if (1 <=? z)%Z then Ok (Some (Z.to_N z))
                  else Err (SpecFailed (Exn XError ($"source count limit must be a positive safe integer")))
      | None => Err (SpecFailed (Exn XError ($"source count limit must be a positive safe integer")))
      end
  end.
