(* ===== verification/SpecFacts.v ===== *)
(** * The closure holds exactly the reachable modules

    The walk of [SpecFiles] against the graph of references: it ends, it finds every
    module that is reachable from the root exactly once, and it puts a module after
    the ones it refers to, cycles apart. *)

From stdpp Require Import relations.
From S2P Require Import Prelude JsNumber Utf16 JsData Decode JsText SpecFiles.

(** [x] stands somewhere before [y]. *)
Definition before {A} (x y : A) (l : list A) : Prop := exists l1 l2 l3, l = l1 ++ x :: l2 ++ y :: l3.

Lemma before_app {A} (x y : A) l l' : before x y l -> before x y (l ++ l').
Proof. intros (l1 & l2 & l3 & ->). exists l1, l2, (l3 ++ l'). by rewrite <- !app_assoc, <- !app_comm_cons, <- app_assoc. Qed.

Lemma before_last {A} (x y : A) l : x ∈ l -> before x y (l ++ [y]).
Proof. intros (l1 & l2 & ->)%list_elem_of_split. exists l1, l2, []. by rewrite <- app_assoc. Qed.

Section facts.
Context (absolute dirname : ustring -> ustring) (candidatePath : ustring -> ustring -> ustring).
Context (access : ustring -> bool) (realpath readSource : ustring -> option ustring).
Context (searchDirs : list ustring) (maxSources : option N).
Abbreviation resolves := (resolve_ref dirname candidatePath access realpath searchDirs).
Abbreviation visits := (visit absolute dirname candidatePath access realpath readSource searchDirs maxSources).
Abbreviation visits_refs := (visit_refs dirname candidatePath access realpath searchDirs).

(** ** The graph *)

Definition finds (path b : ustring) : Prop := realpath (absolute path) = Some b.

(** The module [a] refers to [b]. *)
Definition imports (a b : ustring) : Prop :=
  exists text name path, readSource a = Some text /\ name ∈ moduleRefs text /\ resolves a name = Ok path /\ finds path b.

(** A module that cannot be read, or with a reference that is missing, ambiguous or
    leads nowhere. *)
Definition broken (a : ustring) : Prop :=
  readSource a = None \/
  exists text name, readSource a = Some text /\ name ∈ moduleRefs text /\
    forall path b, resolves a name = Ok path -> ~ finds path b.

Context (r : ustring).

(** Why a walk from [r] fails. *)
Definition defect : Prop :=
  (exists a, rtc imports r a /\ broken a) \/
  (exists l n, maxSources = Some n /\ NoDup l /\ Forall (rtc imports r) l /\ (n < N.of_nat (length l))%N).

(** ** The invariant of the walk *)

(** The file system is finite. *)
Context (files : list ustring) (Hfiles : forall p a, realpath p = Some a -> a ∈ files).

Definition texts (order deps : list ustring) : Prop := Forall2 (fun p t => readSource p = Some t) order deps.

Definition within (n : nat) : Prop := forall limit, maxSources = Some limit -> (N.of_nat n <= limit)%N.

(** [order]: the modules that are finished; the others that were visited lead to
    [b]. *)
Record walking (b : ustring) (order : list ustring) (c : closure) : Prop := Walking {
  wk_nodup : NoDup (visited c);
  wk_files : visited c ⊆ files;
  wk_limit : within (length (visited c));
  wk_order : order ⊆ visited c /\ NoDup order;
  wk_texts : texts order (deps c);
  wk_root : Forall (rtc imports r) (visited c);
  wk_open : forall g, g ∈ visited c -> g ∈ order \/ rtc imports g b }.

(** What a visit adds: modules reachable from [b], each after the ones it refers
    to. *)
Record extends (b : ustring) (order new : list ustring) (c c' : closure) : Prop := Extends {
  ex_visited : visited c' ≡ₚ visited c ++ new;
  ex_once : NoDup (visited c') /\ visited c' ⊆ files /\ within (length (visited c'));
  ex_nodup : NoDup (order ++ new);
  ex_texts : texts (order ++ new) (deps c');
  ex_reach : Forall (fun a => rtc imports b a /\ ~ broken a) new;
  ex_imports : forall a x, a ∈ new -> imports a x ->
    x ∈ visited c' /\ (before x a (order ++ new) \/ rtc imports x a) }.

Definition enough (fuel : nat) (c : closure) : Prop := (length files < fuel + length (visited c))%nat.

Definition visit_result (path : ustring) (order : list ustring) (c : closure) (x : res spec_error closure) : Prop :=
  match x with
  | Ok c' => exists b new, finds path b /\ b ∈ visited c' /\ extends b order new c c'
  | Err OutOfFuel => False
  | Err _ => (forall b, ~ finds path b) \/ defect
  end.

Lemma extends_walking a order new c c' : walking a order c -> rtc imports r a ->
  extends a order new c c' -> walking a (order ++ new) c'.
Proof.
  intros [H1 Hf Hl [H2 H3] H4 H5 H6] Hra [E1 (En & Ef & El) E2 E3 E4 E5]. split; [done|done|done| |done| |].
  - split; [|done]. intros x Hx. rewrite E1. apply elem_of_app in Hx as [Hx|Hx]; apply elem_of_app; [left; by apply H2|by right].
  - rewrite E1. apply Forall_app. split; [done|]. eapply Forall_impl; [exact E4|]. intros x [Hx _]. by etrans.
  - intros g. rewrite E1, !elem_of_app. intros [Hg|Hg]; [|by left; right]. destruct (H6 g Hg); [by left; left|by right].
Qed.

Lemma extends_refl b order c : walking b order c -> extends b order [] c c.
Proof.
  intros [H1 Hf Hl [H2 H3] H4 H5 H6]. split; rewrite ?app_nil_r; try done.
  intros a x Ha. by apply not_elem_of_nil in Ha.
Qed.

Lemma extends_trans a order new1 new2 c c1 c2 :
  extends a order new1 c c1 -> extends a (order ++ new1) new2 c1 c2 -> extends a order (new1 ++ new2) c c2.
Proof.
  intros [A1 A2 A3 A4 A5 A6] [B1 B2 B3 B4 B5 B6]. rewrite <- app_assoc in *.
  split; try done; [by rewrite B1, A1, app_assoc|by apply Forall_app|].
  intros x y Hx Hi. apply elem_of_app in Hx as [Hx|Hx]; [|by apply B6].
  destruct (A6 x y Hx Hi) as [Hv Hb]. split; [rewrite B1; apply elem_of_app; by left|].
  rewrite app_assoc. destruct Hb; [left; by apply before_app|by right].
Qed.

Lemma walking_import a b order c : imports a b -> walking a order c -> walking b order c.
Proof.
  intros Hi [H1 Hf Hl H2 H3 H4 H5]. split; try done. intros g Hg. destruct (H5 g Hg); [by left|right].
  by eapply rtc_r.
Qed.

Lemma extends_import a b order new c c' : imports a b -> extends b order new c c' -> extends a order new c c'.
Proof.
  intros Hi [A1 A2 A3 A4 A5 A6]. split; try done. eapply Forall_impl; [exact A5|]. intros x [Hx Hw]. split; [by eapply rtc_l|done].
Qed.

(** ** The loop over the references *)

(** Every name of [refs] was found and visited. *)
Definition all_visited (a : ustring) (refs : list ustring) (c : closure) : Prop :=
  Forall (fun name => exists path b, resolves a name = Ok path /\ finds path b /\ b ∈ visited c) refs.

Definition loop_result (a : ustring) (refs order : list ustring) (c : closure) (x : res spec_error closure) : Prop :=
  match x with
  | Ok c' => exists new, extends a order new c c' /\ all_visited a refs c'
  | Err OutOfFuel => False
  | Err _ => defect
  end.

Lemma resolves_error a name e : resolves a name = Err e -> exists x, e = SpecFailed x.
Proof. unfold resolve_ref. destruct (unique _) as [|p [|q l]]; intros [= <-]; by eexists. Qed.

Lemma visit_refs_spec vis n a text refs order c :
  (forall path order c, (forall b, finds path b -> imports a b) -> walking a order c -> enough n c ->
     visit_result path order c (vis path c)) ->
  readSource a = Some text -> refs ⊆ moduleRefs text -> rtc imports r a -> walking a order c -> enough n c ->
  loop_result a refs order c (visits_refs vis a refs c).
Proof.
  intros Hvis Htext. revert order c. induction refs as [|name refs IH]; intros order c Hrefs Hra Hw Hn; cbn [visit_refs].
  { exists []. split; [by apply extends_refl|by constructor]. }
  assert (name ∈ moduleRefs text) as Hname by (apply Hrefs; by left).
  destruct (resolves a name) as [path|e] eqn:Er; cbn [mbind res_mbind].
  2:{ destruct (resolves_error _ _ _ Er) as [x ->]. left. exists a. split; [done|]. right. exists text, name.
      split_and!; [done|done|]. intros path b. by rewrite Er. }
  assert (forall b, finds path b -> imports a b) as Himp by (intros b Hb; by exists text, name, path).
  pose proof (Hvis path order c Himp Hw Hn) as Hres. destruct (vis path c) as [c1|e] eqn:Ev; cbn [mbind res_mbind].
  2:{ destruct e; [..|done]; (destruct Hres as [Hno|Hd]; [|exact Hd]); left; exists a; (split; [done|]); right;
        exists text, name; (split_and!; [done|done|]); intros path' b; rewrite Er; intros [= <-]; apply Hno. }
  destruct Hres as (b & new1 & Hb & Hbv & Hex). apply (extends_import a b) in Hex; [|by apply Himp].
  pose proof (extends_walking _ _ _ _ _ Hw Hra Hex) as Hw1.
  assert (enough n c1) as Hn1 by (unfold enough in *; rewrite (ex_visited _ _ _ _ _ Hex), length_app; lia).
  specialize (IH (order ++ new1) c1 ltac:(intros x Hx; apply Hrefs; by right) Hra Hw1 Hn1).
  destruct (visit_refs _ _ _ _ _ _ _ refs c1) as [c2|e]; [|exact IH].
  destruct IH as (new2 & Hex2 & Hall). exists (new1 ++ new2). split; [by eapply extends_trans|].
  constructor; [|done]. exists path, b. split_and!; [done|done|].
  rewrite (ex_visited _ _ _ _ _ Hex2). apply elem_of_app. by left.
Qed.

(** ** A visit *)

(** Entering the module [b]. *)
Lemma walking_enter b order c : b ∉ visited c -> over_limit maxSources c = false -> rtc imports r b -> b ∈ files -> walking b order c ->
  walking b order (Closure (visited c ++ [b]) (deps c)).
Proof.
  intros Hb Ho Hr Hf [H1 H2 Hl [H3 H4] H5 H6 H7]. split; cbn [visited deps]; try done.
  - apply NoDup_app. split_and!; [done| |apply NoDup_singleton]. by intros x Hx ->%list_elem_of_singleton.
  - intros x [Hx| ->%list_elem_of_singleton]%elem_of_app; [by apply H2|done].
  - intros n Hm. unfold over_limit in Ho. rewrite Hm in Ho. rewrite length_app. cbn. lia.
  - split; [|done]. intros x Hx. apply elem_of_app. left. by apply H3.
  - apply Forall_app. split; [done|by constructor].
  - intros g [Hg| ->%list_elem_of_singleton]%elem_of_app; [by apply H7|right; done].
Qed.

(** What [b] refers to was visited: before [b], or it leads to [b]. *)
Lemma imports_done b text order c c1 new x :
  readSource b = Some text -> walking b order c ->
  extends b order new (Closure (visited c ++ [b]) (deps c)) c1 -> all_visited b (moduleRefs text) c1 ->
  imports b x -> x ∈ visited c1 /\ (x ∈ order ++ new \/ rtc imports x b).
Proof.
  intros Ht Hw Hex Hall (text' & name & path & Ht' & Hname & Hres & Hx).
  rewrite Ht in Ht'. injection Ht' as <-. unfold all_visited in Hall. rewrite Forall_forall in Hall.
  destruct (Hall name Hname) as (path' & x' & Hres' & Hx' & Hin). rewrite Hres in Hres'. injection Hres' as <-.
  unfold finds in *. rewrite Hx in Hx'. injection Hx' as <-. split; [done|].
  rewrite (ex_visited _ _ _ _ _ Hex) in Hin. cbn [visited] in Hin. rewrite <- app_assoc in Hin.
  apply elem_of_app in Hin as [Hin|Hin]; [destruct (wk_open _ _ _ Hw x Hin); [left; apply elem_of_app; by left|by right]|].
  apply elem_of_cons in Hin as [->|Hin]; [by right|left; apply elem_of_app; by right].
Qed.

Lemma all_visited_whole b text c : readSource b = Some text -> all_visited b (moduleRefs text) c -> ~ broken b.
Proof.
  intros Ht Hall [Hn|(text' & name & Ht' & Hname & Hno)]; [congruence|].
  rewrite Ht in Ht'. injection Ht' as <-. unfold all_visited in Hall. rewrite Forall_forall in Hall.
  destruct (Hall name Hname) as (path & x & Hres & Hx & _). by apply (Hno path x).
Qed.

(** The module [b] is finished after its references. *)
Lemma extends_finish b text order c c1 new :
  readSource b = Some text -> b ∉ visited c -> walking b order c ->
  extends b order new (Closure (visited c ++ [b]) (deps c)) c1 -> all_visited b (moduleRefs text) c1 ->
  extends b order (new ++ [b]) c (Closure (visited c1) (deps c1 ++ [text])).
Proof.
  intros Ht Hb Hw Hex Hall. pose proof (fun x => imports_done b text order c c1 new x Ht Hw Hex Hall) as Hdone.
  pose proof (all_visited_whole _ _ _ Ht Hall) as Hwhole.
  destruct Hex as [E1 (E2 & E3) E4 E5 E6 E7]. cbn [visited deps] in *.
  assert (b ∉ order) as Hbo by (intros Hin; by apply Hb, (wk_order _ _ _ Hw)).
  assert (b ∉ new) as Hbn.
  { rewrite E1 in E2. apply NoDup_app in E2 as (_ & E2 & _). intros Hin. apply (E2 b); [apply elem_of_app; right; by left|done]. }
  split; cbn [visited deps]; rewrite ?app_assoc.
  - rewrite E1, <- app_assoc. solve_Permutation.
  - done.
  - apply NoDup_app. split_and!; [done| |apply NoDup_singleton].
    intros x Hx ->%list_elem_of_singleton. by apply elem_of_app in Hx as [?|?].
  - apply Forall2_app; [done|]. by constructor.
  - apply Forall_app. split; [done|]. by constructor.
  - intros a x [Ha| ->%list_elem_of_singleton]%elem_of_app Hi.
    + destruct (E7 a x Ha Hi) as [Hx Ho]. split; [done|]. destruct Ho; [left; by apply before_app|by right].
    + destruct (Hdone x Hi) as [Hx Ho]. split; [done|]. destruct Ho; [left; by apply before_last|by right].
Qed.

Lemma enough_zero b order c : walking b order c -> enough 0 c -> False.
Proof.
  intros Hw H. unfold enough in H. cbn in H.
  assert (visited c ⊆+ files) as Hs by (apply NoDup_submseteq; [apply Hw|intros x; apply (wk_files _ _ _ Hw)]).
  apply submseteq_length in Hs. lia.
Qed.

Lemma over_limit_defect b order c : over_limit maxSources c = true -> b ∉ visited c -> rtc imports r b ->
  walking b order c -> defect.
Proof.
  unfold over_limit. destruct maxSources as [n|] eqn:En; [|done]. intros Hn Hb Hr Hw. right.
  exists (visited c ++ [b]), n. split_and!; [done| |apply Forall_app; split; [apply Hw|by constructor]|rewrite length_app; cbn; lia].
  apply NoDup_app. split_and!; [apply Hw| |apply NoDup_singleton]. by intros x Hx ->%list_elem_of_singleton.
Qed.

(** A path that the module [a] leads to. *)
Lemma visit_spec fuel a path order c :
  rtc imports r a -> (forall b, finds path b -> imports a b) -> walking a order c -> enough fuel c ->
  visit_result path order c (visits fuel false path c).
Proof.
  revert a path order c. induction fuel as [|fuel IH]; intros a path order c Hra Himp Hwa Hn.
  { by destruct (enough_zero _ _ _ Hwa Hn). }
  cbn [visit]. destruct (realpath (absolute path)) as [b|] eqn:Eb.
  2:{ left. intros b Hb. unfold finds in Hb. congruence. }
  assert (imports a b) as Hab by by apply Himp. assert (rtc imports r b) as Hrb by by eapply rtc_r.
  pose proof (walking_import _ _ _ _ Hab Hwa) as Hw.
  destruct (bool_decide_reflect (b ∈ visited c)) as [Hb|Hb].
  { exists b, []. split_and!; [done|done|by apply extends_refl]. }
  destruct (over_limit maxSources c) eqn:Eo; [right; by eapply over_limit_defect|].
  destruct (readSource b) as [text|] eqn:Et; [|right; left; exists b; split; [done|by left]].
  pose proof (walking_enter b order c Hb Eo Hrb (Hfiles _ _ Eb) Hw) as Hw1.
  pose proof (visit_refs_spec (visits fuel false) fuel b text (moduleRefs text) order _
    (fun p o c' Hi Hw' Hn' => IH b p o c' Hrb Hi Hw' Hn') Et ltac:(done) Hrb Hw1) as H.
  destruct (visit_refs _ _ _ _ _ _ _ _ _) as [c1|e]; cbn [mbind res_mbind loop_result] in *.
  - destruct H as (new & Hex & Hall); [unfold enough in *; cbn [visited]; rewrite length_app; cbn; lia|].
    exists b, (new ++ [b]). pose proof (extends_finish _ _ _ _ _ _ Et Hb Hw Hex Hall) as Hfin.
    split_and!; [done| |exact Hfin]. rewrite (ex_visited _ _ _ _ _ Hfin), !elem_of_app. right. right. by left.
  - destruct e; [right|right|]; apply H; unfold enough in *; cbn [visited]; rewrite length_app; cbn; lia.
Qed.

(** ** The whole walk *)

(** What [specFromFiles] returns from the root [r]. *)
Definition closed_spec (sources : list ustring) : Prop :=
  exists order, NoDup (r :: order) /\ (forall p, p ∈ r :: order <-> rtc imports r p) /\
    texts (r :: order) sources /\ within (length sources) /\ Forall (fun p => ~ broken p) (r :: order) /\
    (forall a b, a ∈ order -> imports a b -> before b a order \/ rtc imports b a).

Lemma empty_walking : walking r [] (Closure [] []).
Proof.
  split; cbn [visited deps].
  - apply NoDup_nil_2.
  - apply list_subseteq_nil.
  - intros n _. cbn. lia.
  - split; [apply list_subseteq_nil|apply NoDup_nil_2].
  - constructor.
  - constructor.
  - intros g Hg. by apply not_elem_of_nil in Hg.
Qed.

Lemma imports_closed (l : list ustring) : r ∈ l -> (forall a b, a ∈ l -> imports a b -> b ∈ l) ->
  forall p, rtc imports r p -> p ∈ l.
Proof. intros Hr Hl p Hp. revert Hr. induction Hp as [x|x y z Hxy _ IH]; [done|]. intros Hx. apply IH. by eapply Hl. Qed.
(** The visit of the root. *)
Lemma root_spec fuel text : r ∈ files -> readSource r = Some text -> over_limit maxSources (Closure [] []) = false ->
  (length files < S fuel)%nat ->
  match visits_refs (visits fuel false) r (moduleRefs text) (Closure [r] []) with
  | Ok c => closed_spec (text :: deps c)
  | Err OutOfFuel => False
  | Err _ => defect
  end.
Proof.
  intros Hr Ht Ho Hn. assert (r ∉ visited (Closure [] [])) as Hnr by apply not_elem_of_nil.
  pose proof (walking_enter r [] _ Hnr Ho ltac:(done) Hr empty_walking) as Hw.
  pose proof (visit_refs_spec (visits fuel false) fuel r text (moduleRefs text) [] _
    (fun p o c' Hi Hw' Hn' => visit_spec fuel r p o c' ltac:(done) Hi Hw' Hn') Ht ltac:(done) ltac:(done) Hw) as H.
  cbn [visited deps app] in H. assert (enough fuel (Closure [r] [])) as He by (unfold enough; cbn [visited length]; lia).
  specialize (H He). destruct (visit_refs _ _ _ _ _ _ _ _ _) as [c|e]; [|by destruct e].
  destruct H as (new & Hex & Hall). pose proof (fun x => imports_done r text [] _ c new x Ht empty_walking Hex Hall) as Hdone.
  destruct Hex as [E1 (E2 & _ & E3) E4 E5 E6 E7]. cbn [visited deps app] in *. exists new.
  assert (forall p, p ∈ visited c <-> p ∈ r :: new) as Hmem by (intros p; by rewrite E1).
  split_and!.
  - by rewrite <- E1.
  - intros p. split.
    + intros [->|Hp]%elem_of_cons; [done|]. rewrite Forall_forall in E6. by apply E6.
    + apply (imports_closed (r :: new)); [by left|]. intros a b Ha Hi. apply Hmem.
      apply elem_of_cons in Ha as [->|Ha]; [by apply Hdone|by eapply E7].
  - by constructor.
  - rewrite E1 in E3. cbn in *. unfold texts in E5. apply Forall2_length in E5. by rewrite <- E5.
  - constructor; [by eapply all_visited_whole|]. eapply Forall_impl; [exact E6|]. by intros x [_ Hx].
  - intros a b Ha Hi. by destruct (E7 a b Ha Hi).
Qed.
End facts.

(** C33: [specFromFiles] on a finite file system. It always ends; it fails only if the
    root does not exist, some module reachable from the root is broken (unreadable,
    or with a reference that is missing, ambiguous or leads nowhere), or more modules
    are reachable than the policy allows. Otherwise the sources are the root and then
    every other reachable module, each once; none of them is broken, there are no
    more than the policy allows, and every module stands after the ones it refers to,
    except on a cycle. *)
Theorem spec_closure_correct absolute dirname candidatePath access realpath readSource searchDirs maxSources
  (files : list ustring) (rootPath : ustring) (fuel : nat)
  (Hfiles : forall p a, realpath p = Some a -> a ∈ files) (Hfuel : (length files < fuel)%nat) :
  match specFromFiles absolute dirname candidatePath access realpath readSource searchDirs maxSources fuel rootPath with
  | Ok sources => exists r, realpath (absolute rootPath) = Some r /\
      closed_spec absolute dirname candidatePath access realpath readSource searchDirs maxSources r sources
  | Err OutOfFuel => False
  | Err _ => realpath (absolute rootPath) = None \/ exists r, realpath (absolute rootPath) = Some r /\
      defect absolute dirname candidatePath access realpath readSource searchDirs maxSources r
  end.
Proof.
  unfold specFromFiles. destruct fuel as [|fuel]; [lia|]. cbn [visit].
  destruct (realpath (absolute rootPath)) as [r|] eqn:Er; [|by left]. cbn [visited].
  rewrite bool_decide_eq_false_2 by apply not_elem_of_nil.
  destruct (over_limit maxSources (Closure [] [])) eqn:Eo.
  { right. exists r. split; [done|]. eapply (over_limit_defect _ _ _ _ _ _ _ _ r files r);
      [exact Eo|apply not_elem_of_nil|done|apply empty_walking]. }
  destruct (readSource r) as [text|] eqn:Et; [|right; exists r; split; [done|]; left; exists r; split; [done|by left]].
  pose proof (root_spec absolute dirname candidatePath access realpath readSource searchDirs maxSources r files Hfiles
    fuel text (Hfiles _ _ Er) Et Eo Hfuel) as H. cbn [app deps].
  destruct (visit_refs _ _ _ _ _ _ _ _ _) as [c|e]; cbn [mbind res_mbind fmap res_fmap mret res_mret deps].
  - by exists r.
  - destruct e; [right; by exists r..|exact H].
Qed.

(** ** A concrete file system *)

Definition sample_files : list (ustring * ustring) :=
  [($"Root.tla", $"EXTENDS Naturals, A, B"); ($"A.tla", $"LOCAL INSTANCE B  X == INSTANCE Root"); ($"B.tla", $"EXTENDS Sequences")].

Definition sample_read (p : ustring) : option ustring := snd <$> find (fun e => bool_decide (p = e.1)) sample_files.
Definition sample_realpath (p : ustring) : option ustring :=
  if bool_decide (p ∈ map fst sample_files) then Some p else None.

Abbreviation sample_walk := (specFromFiles id (fun _ => []) (fun _ file => file)
  (fun p => bool_decide (p ∈ map fst sample_files)) sample_realpath sample_read [] (Some 3%N) 4).

(** The modules refer to each other in a cycle. *)
Example sample_walk_sources : sample_walk ($"Root.tla") =
  Ok [$"EXTENDS Naturals, A, B"; $"EXTENDS Sequences"; $"LOCAL INSTANCE B  X == INSTANCE Root"].
Proof. vm_compute. reflexivity. Qed.

Lemma sample_realpath_files p a : sample_realpath p = Some a -> a ∈ map fst sample_files.
Proof. unfold sample_realpath. case_bool_decide; [by intros [= <-]|done]. Qed.

Example spec_closure_correct_witness :
  match sample_walk ($"Root.tla") with
  | Ok sources => exists r, sample_realpath (id ($"Root.tla")) = Some r /\
      closed_spec id (fun _ => []) (fun _ file => file) (fun p => bool_decide (p ∈ map fst sample_files))
        sample_realpath sample_read [] (Some 3%N) r sources
  | Err OutOfFuel => False
  | Err _ => sample_realpath (id ($"Root.tla")) = None \/ exists r, sample_realpath (id ($"Root.tla")) = Some r /\
      defect id (fun _ => []) (fun _ file => file) (fun p => bool_decide (p ∈ map fst sample_files))
        sample_realpath sample_read [] (Some 3%N) r
  end.
Proof.
  exact (spec_closure_correct id (fun _ => []) (fun _ file => file) (fun p => bool_decide (p ∈ map fst sample_files))
    sample_realpath sample_read [] (Some 3%N) (map fst sample_files) ($"Root.tla") 4 sample_realpath_files
    ltac:(cbn; lia)).
Defined.
