(* ===== verification/Reproduction.v ===== *)
(** * Failure signatures

    [src/src/reproduction-bundle.ts]: the signature a reproduction is recognised by,
    its canonical text ([canonical]), the equality of signatures, the signature of a
    suite result ([signatureFromSuiteResult]) and the check that a replay reproduced
    a bundle. Of [src/src/suite-result.ts] the parts these functions read.

    The numbers of a signature are safe integers, as [validateSignature] demands. *)

From Stdlib Require Import SpecFloat.
From S2P Require Import Prelude JsNumber Utf16 JsData StrictJson JsText StrictJsonFacts StrictJsonRoundtrip ModelTypes Canonical Descriptor JsonText.

(** ** Data *)

Inductive run_stage := SRegistration | SFactory | SAction | SReceive | SCleanup.
Inductive error_origin := Observer | Implementation.
Inductive execution_stage := XFactory | XAction | XObservation.
Inductive codec_stage := CInput | CObservation | CProtocol.

#[export] Instance run_stage_eq_dec : EqDecision run_stage.
Proof. solve_decision. Defined.
#[export] Instance error_origin_eq_dec : EqDecision error_origin.
Proof. solve_decision. Defined.
#[export] Instance execution_stage_eq_dec : EqDecision execution_stage.
Proof. solve_decision. Defined.
#[export] Instance codec_stage_eq_dec : EqDecision codec_stage.
Proof. solve_decision. Defined.

Inductive ReproductionPrimarySignature :=
| BehavioralMismatch (traceIndex stateIndex : Z) (action : ustring)
| Timeout (stage : run_stage) (budgetMs : Z)
| ExecutionError (origin : error_origin) (stage : execution_stage) (code : ustring)
| CodecError (stage : codec_stage) (code : ustring)
| CoverageUnmet (requirements : list ustring)
| Cancellation (stage : run_stage) (code : ustring).

Inductive ReproductionCleanupSignature :=
| CleanupSucceeded
| CleanupFailed (code : ustring)
| CleanupUnconfirmed (code : ustring).

Record ReproductionSignature := Signature {
  primary : option ReproductionPrimarySignature;
  sig_cleanup : ReproductionCleanupSignature }.

#[export] Instance primary_eq_dec : EqDecision ReproductionPrimarySignature.
Proof. solve_decision. Defined.
#[export] Instance cleanup_signature_eq_dec : EqDecision ReproductionCleanupSignature.
Proof. solve_decision. Defined.
#[export] Instance signature_eq_dec : EqDecision ReproductionSignature.
Proof. solve_decision. Defined.

(** ** The object of a signature *)

Definition run_stage_name (s : run_stage) : ustring :=
  lit match s with
      | SRegistration => "registration" | SFactory => "factory" | SAction => "action"
      | SReceive => "receive" | SCleanup => "cleanup"
      end.
Definition origin_name (o : error_origin) : ustring :=
  lit match o with Observer => "observer" | Implementation => "implementation" end.
Definition execution_stage_name (s : execution_stage) : ustring :=
  lit match s with XFactory => "factory" | XAction => "action" | XObservation => "observation" end.
Definition codec_stage_name (s : codec_stage) : ustring :=
  lit match s with CInput => "input" | CObservation => "observation" | CProtocol => "protocol" end.

Definition primary_js (p : ReproductionPrimarySignature) : js :=
  let kind (k : string) := ($"kind", JStr (lit k)) in
  JObj match p with
  | BehavioralMismatch t s a =>
      [kind "behavioral_mismatch"%string; ($"code", JStr ($"replay_mismatch")); ($"traceIndex", JNum (num_of_Z t));
       ($"stateIndex", JNum (num_of_Z s)); ($"action", JStr a)]
  | Timeout s b => [kind "timeout"%string; ($"stage", JStr (run_stage_name s)); ($"budgetMs", JNum (num_of_Z b))]
  | ExecutionError o s c =>
      [kind "execution_error"%string; ($"origin", JStr (origin_name o)); ($"stage", JStr (execution_stage_name s));
       ($"code", JStr c)]
  | CodecError s c => [kind "codec_error"%string; ($"stage", JStr (codec_stage_name s)); ($"code", JStr c)]
  | CoverageUnmet r => [kind "coverage_unmet"%string; ($"requirements", JArr (map JStr r))]
  | Cancellation s c => [kind "cancellation"%string; ($"stage", JStr (run_stage_name s)); ($"code", JStr c)]
  end.

Definition cleanup_js (c : ReproductionCleanupSignature) : js :=
  JObj match c with
  | CleanupSucceeded => [($"status", JStr ($"succeeded"))]
  | CleanupFailed code => [($"status", JStr ($"failed")); ($"code", JStr code)]
  | CleanupUnconfirmed code => [($"status", JStr ($"unconfirmed")); ($"code", JStr code)]
  end.

Definition signature_js (s : ReproductionSignature) : js :=
  JObj [($"primary", from_option primary_js JNull (primary s)); ($"cleanup", cleanup_js (sig_cleanup s))].

(** ** canonical *)

Section text.
Context (number_text : number -> ustring).

Definition by_units (a b : ustring * ustring) : comparison := compare_lists a.1 b.1.

(** [None] stands for [undefined]: an array element is joined as the empty text, a
    property is written out. *)
Fixpoint canonical (v : js) : res exn (option ustring) :=
  match v with
  | JArr l =>
      items ← mapM (fun x => default [] <$> canonical x) l;
      mret (Some ($"[" ++ join ($",") items ++ $"]"))
  | JObj o =>
      items ← mapM (fun kv => (fun t => (kv.1, default ($"undefined") t)) <$> canonical kv.2) o;
      mret (Some ($"{" ++ join ($",") (map (fun e => quote_string e.1 ++ $":" ++ e.2) (sort_by by_units items)) ++ $"}"))
  | _ => stringify number_text v
  end.

Definition signature_text (s : ReproductionSignature) : res exn ustring := default [] <$> canonical (signature_js s).

Definition signaturesEqual (left right : ReproductionSignature) : res exn bool :=
  l ← signature_text left; r ← signature_text right; mret (bool_decide (l = r)).
End text.

(** ** Suite results *)

Inductive failure_stage := FConfiguration | FNegotiation | FFactory | FReplay | FAcceptance | FCleanup.
Inductive failure_kind :=
| KConfiguration | KNegotiation | KTransport | KImplementation | KCodec | KAcceptance | KEvidence | KCleanup
| KMismatch | KCancellation | KTimeout | KUnknown.
Inductive cleanup_status := CSucceeded | CFailed | CUnconfirmed.

#[export] Instance cleanup_status_eq_dec : EqDecision cleanup_status.
Proof. solve_decision. Defined.

Record SuiteFailure := MkSuiteFailure {
  sf_stage : failure_stage;
  sf_kind : failure_kind;
  sf_code : ustring;
  sf_traceIndex : option Z;
  sf_stateIndex : option Z }.

(** [sr_action]: what [safeAction(result.trustedError)] gives. *)
Record SuiteResult := MkSuiteResult {
  sr_passed : bool;
  sr_cleanup : cleanup_status;
  sr_failure : option SuiteFailure;
  sr_action : option ustring }.

Record SuiteNormalizationContext := Normalization {
  timeoutBudgetMs : option Z;
  executionErrorOrigin : option error_origin;
  executionErrorStage : option execution_stage;
  codecStage : option codec_stage;
  unmetRequirements : option (list ustring) }.

(** [ReproductionBundleError]: a code and a message. *)
Record bundle_error := BundleError { be_code : ustring; be_message : ustring }.

Definition cleanupOf (result : SuiteResult) : ReproductionCleanupSignature :=
  let code (default_code : string) :=
    match sr_failure result with
    | Some f => match sf_kind f with KCleanup => sf_code f | _ => lit default_code end
    | None => lit default_code
    end in
  match sr_cleanup result with
  | CSucceeded => CleanupSucceeded
  | CFailed => CleanupFailed (code "cleanup_failed"%string)
  | CUnconfirmed => CleanupUnconfirmed (code "cleanup_unconfirmed"%string)
  end.

Definition normalizedStage (stage : failure_stage) : run_stage :=
  match stage with
  | FFactory => SFactory
  | FCleanup => SCleanup
  | FConfiguration | FNegotiation => SRegistration
  | FReplay | FAcceptance => SAction
  end.

Definition primary_of (result : SuiteResult) (failure : SuiteFailure) (ctx : SuiteNormalizationContext)
    : res bundle_error (option ReproductionPrimarySignature) :=
  let missing (message : string) := Err (BundleError ($"normalization_context_missing") (lit message)) in
  let execution_error :=
    Ok (Some (ExecutionError (default Implementation (executionErrorOrigin ctx))
      (default (match sf_stage failure with FFactory => XFactory | _ => XAction end) (executionErrorStage ctx))
      (sf_code failure))) in
  match sf_kind failure with
  | KMismatch =>
      match sf_traceIndex failure, sf_stateIndex failure, sr_action result with
      | Some t, Some s, Some ((_ :: _) as a) => Ok (Some (BehavioralMismatch t s a))
      | _, _, _ => Err (BundleError ($"suite_result_incomplete") ($"mismatch coordinates/action unavailable"))
      end
  | KTimeout =>
      match timeoutBudgetMs ctx with
      | Some b => Ok (Some (Timeout (normalizedStage (sf_stage failure)) b))
      | None => missing "timeout budget required"%string
      end
  | KCancellation => Ok (Some (Cancellation (normalizedStage (sf_stage failure)) (sf_code failure)))
  | KCodec => Ok (Some (CodecError (default CObservation (codecStage ctx)) (sf_code failure)))
  | KAcceptance =>
      if bool_decide (sf_code failure = $"coverage_unmet") then
        match sort_by compare_lists (default [] (unmetRequirements ctx)) with
        | [] => missing "unmet requirements required"%string
        | requirements => Ok (Some (CoverageUnmet requirements))
        end
      else execution_error
  | KCleanup => Ok None
  | _ => execution_error
  end.

Definition signatureFromSuiteResult (result : SuiteResult) (ctx : SuiteNormalizationContext)
    : res bundle_error (option ReproductionSignature) :=
  match sr_failure result with
  | None =>
      if sr_passed result then Ok None
      else Err (BundleError ($"suite_result_unsupported") ($"suite result lacks normalized failure"))
  | Some failure => (fun p => Some (Signature p (cleanupOf result))) <$> primary_of result failure ctx
  end.

Definition prefixProbeSignatureFromSuiteResult (result : SuiteResult) (ctx : SuiteNormalizationContext)
    : res bundle_error (option ReproductionSignature) :=
  match sr_failure result with
  | Some failure =>
      match sf_kind failure with
      | KAcceptance =>
          if bool_decide (sf_code failure = $"coverage_unmet") then Ok None else signatureFromSuiteResult result ctx
      | _ => signatureFromSuiteResult result ctx
      end
  | None => signatureFromSuiteResult result ctx
  end.

(** ** Replays *)

Inductive replay_status := Reproduced | NotReproduced.

Record ReproductionReplayResult := Replay {
  rp_status : replay_status;
  rp_expected : ReproductionSignature;
  rp_observed : option ReproductionSignature;
  rp_suiteResult : option SuiteResult }.

Definition cleanup_signature_status (c : ReproductionCleanupSignature) : cleanup_status :=
  match c with CleanupSucceeded => CSucceeded | CleanupFailed _ => CFailed | CleanupUnconfirmed _ => CUnconfirmed end.

(** [replay.suiteResult?.cleanup.status ?? replay.observed?.cleanup.status] *)
Definition replay_cleanup (replay : ReproductionReplayResult) : option cleanup_status :=
  match rp_suiteResult replay with
  | Some result => Some (sr_cleanup result)
  | None => cleanup_signature_status ∘ sig_cleanup <$> rp_observed replay
  end.

Section replays.
Context (number_text : number -> ustring).

(** [a && b] of checks that may throw. *)
Definition and_then (a b : res exn bool) : res exn bool :=
  match a with Ok true => b | _ => a end.

Definition replayResultMatchesBundle (signature : ReproductionSignature) (replay : ReproductionReplayResult) : res exn bool :=
  and_then (signaturesEqual number_text signature (rp_expected replay))
    match rp_status replay, rp_observed replay with
    | Reproduced, Some observed => signaturesEqual number_text signature observed
    | _, _ => mret false
    end.

(** A result that cannot be believed: for another signature, or claiming a
    reproduction it does not show. *)
Definition stale_replay (signature : ReproductionSignature) (replay : ReproductionReplayResult) : res exn bool :=
  match signaturesEqual number_text signature (rp_expected replay) with
  | Ok true =>
      match rp_status replay with
      | Reproduced => negb <$> replayResultMatchesBundle signature replay
      | NotReproduced => Ok false
      end
  | Ok false => Ok true
  | Err e => Err e
  end.

(** The end of [replayReproduction]. *)
Definition replay_of (signature : ReproductionSignature) (result : SuiteResult) (observed : option ReproductionSignature)
    : res exn ReproductionReplayResult :=
  (fun same : bool => Replay (if same then Reproduced else NotReproduced) signature observed (Some result)) <$>
  match observed with Some o => signaturesEqual number_text signature o | None => mret false end.
End replays.

(** ** Budgets *)

(** The policies of the stability check and of the prefix reduction: how often, and
    how many milliseconds in all, for one run, and for its cleanup. *)
Record raw_policy := RawPolicy { raw_limit : number; raw_total : number; raw_each : number; raw_cleanup : number }.
Record budget_policy := Policy { limit : Z; totalBudgetMs : Z; eachBudgetMs : Z; cleanupBudgetMs : Z }.

Definition int_between (lo hi : Z) (x : number) : option Z :=
  match num_safe_Z x with Some z => if (lo <=? z)%Z && (z <=? hi)%Z then Some z else None | None => None end.

Definition check_policy (max_limit : Z) (message : string) (p : raw_policy) : res exn budget_policy :=
  let budget := int_between 1 0x7fffffff in
  match int_between 1 max_limit (raw_limit p), budget (raw_total p), budget (raw_each p), budget (raw_cleanup p) with
  | Some n, Some total, Some each, Some cleanup => Ok (Policy n total each cleanup)
  | _, _, _, _ => throw XType message
  end.

(** The clock is read in nanoseconds. *)
Definition NS : Z := 1000000.

Definition round_ms (ns : Z) : Z := ((ns + NS / 2) / NS)%Z.

(** The milliseconds left of the total, and the budget of the next run. *)
Definition exhausted (p : budget_policy) (elapsed : Z) : bool := (totalBudgetMs p * NS - elapsed <=? 0)%Z.
Definition next_budget (p : budget_policy) (elapsed : Z) : Z :=
  Z.max 1 (Z.min (eachBudgetMs p) ((totalBudgetMs p * NS - elapsed) / NS)).

(** ** Equality of signatures *)

(** The object of a signature with its keys in order. *)
Definition primary_sorted (p : ReproductionPrimarySignature) : js :=
  let kind (k : string) := ($"kind", JStr (lit k)) in
  JObj match p with
  | BehavioralMismatch t s a =>
      [($"action", JStr a); ($"code", JStr ($"replay_mismatch")); kind "behavioral_mismatch"%string;
       ($"stateIndex", JNum (num_of_Z s)); ($"traceIndex", JNum (num_of_Z t))]
  | Timeout s b => [($"budgetMs", JNum (num_of_Z b)); kind "timeout"%string; ($"stage", JStr (run_stage_name s))]
  | ExecutionError o s c =>
      [($"code", JStr c); kind "execution_error"%string; ($"origin", JStr (origin_name o));
       ($"stage", JStr (execution_stage_name s))]
  | CodecError s c => [($"code", JStr c); kind "codec_error"%string; ($"stage", JStr (codec_stage_name s))]
  | CoverageUnmet r => [kind "coverage_unmet"%string; ($"requirements", JArr (map JStr r))]
  | Cancellation s c => [($"code", JStr c); kind "cancellation"%string; ($"stage", JStr (run_stage_name s))]
  end.

Definition cleanup_sorted (c : ReproductionCleanupSignature) : js :=
  JObj match c with
  | CleanupSucceeded => [($"status", JStr ($"succeeded"))]
  | CleanupFailed code => [($"code", JStr code); ($"status", JStr ($"failed"))]
  | CleanupUnconfirmed code => [($"code", JStr code); ($"status", JStr ($"unconfirmed"))]
  end.

Definition signature_sorted (s : ReproductionSignature) : js :=
  JObj [($"cleanup", cleanup_sorted (sig_cleanup s)); ($"primary", from_option primary_sorted JNull (primary s))].

Definition safe (z : Z) : Prop := (Z.abs z <= MAX_SAFE_INTEGER)%Z.

(** What [validateSignature] demands of numbers, and strings of 16-bit units. *)
Definition primary_ok (p : ReproductionPrimarySignature) : Prop :=
  match p with
  | BehavioralMismatch t s a => safe t /\ safe s /\ js_string a
  | Timeout _ b => safe b
  | ExecutionError _ _ c | CodecError _ c | Cancellation _ c => js_string c
  | CoverageUnmet r => Forall js_string r
  end.

Definition cleanup_ok (c : ReproductionCleanupSignature) : Prop :=
  match c with CleanupSucceeded => True | CleanupFailed c | CleanupUnconfirmed c => js_string c end.

Definition signature_ok (s : ReproductionSignature) : Prop :=
  from_option primary_ok True (primary s) /\ cleanup_ok (sig_cleanup s).

Section equality.
Context (number_text : number -> ustring).

Lemma canonical_strings l : canonical number_text (JArr (map JStr l)) = stringify number_text (JArr (map JStr l)).
Proof.
  cbn [canonical stringify]. assert (forall d, mapM (fun x => default d <$> canonical number_text x) (map JStr l) =
    mapM (fun x => default ($"null") <$> stringify number_text x) (map JStr l)) as H.
  { intros d. induction l as [|s l IH]; [done|]. cbn [map mapM]. by rewrite IH. }
  by rewrite H.
Qed.

Lemma stringify_strings l : exists t, stringify number_text (JArr (map JStr l)) = Ok (Some t).
Proof.
  cbn [stringify]. assert (exists ts, mapM (fun x => default ($"null") <$> stringify number_text x) (map JStr l) = Ok ts) as [ts ->].
  { induction l as [|s l [ts IH]]; cbn [map mapM]; [by eexists|]. rewrite IH. by eexists. }
  by eexists.
Qed.

Lemma canonical_primary p : exists t,
  canonical number_text (primary_js p) = Ok (Some t) /\ stringify number_text (primary_sorted p) = Ok (Some t).
Proof.
  destruct p as [t s a|s b|o s c|s c|r|s c]; try (eexists; split; reflexivity).
  destruct (stringify_strings r) as [t H]. pose proof (canonical_strings r) as H'. rewrite H in H'.
  unfold primary_js, primary_sorted. remember (JArr (map JStr r)) as v eqn:Ev. clear Ev.
  cbn [canonical stringify mapM fst snd]. rewrite H, H'. by eexists.
Qed.

Lemma canonical_cleanup c : exists t,
  canonical number_text (cleanup_js c) = Ok (Some t) /\ stringify number_text (cleanup_sorted c) = Ok (Some t).
Proof. destruct c; eexists; split; reflexivity. Qed.

Lemma canonical_signature s : exists t,
  signature_text number_text s = Ok t /\ stringify number_text (signature_sorted s) = Ok (Some t).
Proof.
  destruct s as [p c]. unfold signature_text, signature_js, signature_sorted. cbn [primary sig_cleanup].
  destruct (canonical_cleanup c) as (t1 & H1 & H2).
  assert (exists t, canonical number_text (from_option primary_js JNull p) = Ok (Some t) /\
    stringify number_text (from_option primary_sorted JNull p) = Ok (Some t)) as (t2 & H3 & H4)
    by (destruct p; [apply canonical_primary|by eexists]).
  generalize dependent (from_option primary_js JNull p). generalize dependent (from_option primary_sorted JNull p).
  generalize dependent (cleanup_js c). generalize dependent (cleanup_sorted c). intros v1 H2 v2 H1 v3 H4 v4 H3.
  cbn [canonical stringify mapM fst snd]. rewrite H1, H2, H3, H4. eexists. split; reflexivity.
Qed.

(** ** The text determines the signature *)

Lemma sendable_strings l : Forall js_string l -> sendable (JArr (map JStr l)).
Proof. intros H. apply send_arr, Forall_map. eapply Forall_impl; [exact H|]. apply send_str. Qed.

#[local] Ltac leaf := cbn [snd];
  first [by apply sendable_strings|by apply send_num|by apply send_str|apply send_str, lit_units].
#[local] Ltac object := apply send_object;
  [vm_compute; reflexivity|repeat (constructor; [apply lit_units|]); constructor|repeat (constructor; [leaf|]); constructor].

Lemma primary_sendable p : primary_ok p -> sendable (primary_sorted p).
Proof. destruct p as [t i a|st b|o st c|st c|r|st c]; cbn [primary_ok]; intros H; try destruct H as (? & ? & ?); object. Qed.

Lemma cleanup_sendable c : cleanup_ok c -> sendable (cleanup_sorted c).
Proof. destruct c; cbn [cleanup_ok]; intros H; object. Qed.

Lemma sorted_sendable s : signature_ok s -> sendable (signature_sorted s).
Proof.
  intros [Hp Hc]. apply send_object; [vm_compute; reflexivity|repeat (constructor; [apply lit_units|]); constructor|].
  constructor; [by apply cleanup_sendable|]. constructor; [|constructor]. cbn [snd].
  destruct (primary s); [by apply primary_sendable|constructor].
Qed.

Lemma wire_strings l : wire_form (JArr (map JStr l)) = JArr (map JStr l).
Proof. cbn [wire_form]. f_equal. rewrite map_map. apply map_ext. done. Qed.

Lemma wire_num z : safe z -> wire_form (JNum (num_of_Z z)) = JNum (num_of_Z z).
Proof. intros H. cbn. by rewrite num_of_Z_finite. Qed.

Lemma wire_primary p : primary_ok p -> wire_form (primary_sorted p) = primary_sorted p.
Proof.
  destruct p as [t i a|st b|o st c|st c|r|st c]; cbn [primary_ok]; intros H; try done.
  - destruct H as (Ht & Hi & _). pose proof (wire_num t Ht) as E1. pose proof (wire_num i Hi) as E2.
    unfold primary_sorted. cbn [wire_form omap list_omap is_undef snd fst] in *. by rewrite E1, E2.
  - pose proof (wire_num b H) as E1. unfold primary_sorted. cbn [wire_form omap list_omap is_undef snd fst] in *. by rewrite E1.
  - pose proof (wire_strings r) as E1. unfold primary_sorted. cbn [wire_form omap list_omap is_undef snd fst] in *. by rewrite E1.
Qed.

Lemma wire_signature s : signature_ok s -> wire_form (signature_sorted s) = signature_sorted s.
Proof.
  intros [Hp Hc]. unfold signature_sorted. cbn [wire_form omap list_omap fst snd].
  assert (is_undef (cleanup_sorted (sig_cleanup s)) = false) as -> by done.
  assert (wire_form (cleanup_sorted (sig_cleanup s)) = cleanup_sorted (sig_cleanup s)) as -> by by destruct (sig_cleanup s).
  destruct (primary s) as [p|]; [|done]. cbn [from_option]. pose proof (wire_primary p Hp) as E.
  change (is_undef (primary_sorted p)) with false. by rewrite E.
Qed.

Lemma num_of_Z_inj a b : safe a -> safe b -> num_of_Z a = num_of_Z b -> a = b.
Proof. intros Ha Hb H%(f_equal num_safe_Z). rewrite !num_of_Z_exact in H by done. congruence. Qed.

Lemma strings_inj l l' : map JStr l = map JStr l' -> l = l'.
Proof. revert l'. induction l as [|s l IH]; intros [|s' l'] [=]; [done|]. f_equal; auto. Qed.

Lemma run_stage_inj a b : run_stage_name a = run_stage_name b -> a = b.
Proof. by destruct a, b. Qed.
Lemma origin_inj a b : origin_name a = origin_name b -> a = b.
Proof. by destruct a, b. Qed.
Lemma execution_stage_inj a b : execution_stage_name a = execution_stage_name b -> a = b.
Proof. by destruct a, b. Qed.
Lemma codec_stage_inj a b : codec_stage_name a = codec_stage_name b -> a = b.
Proof. by destruct a, b. Qed.

Lemma primary_sorted_inj p q : primary_ok p -> primary_ok q -> primary_sorted p = primary_sorted q -> p = q.
Proof.
  destruct p, q; cbn [primary_ok primary_sorted]; intros Hp Hq H; try discriminate H; injection H; intros; subst;
    repeat match goal with H : _ /\ _ |- _ => destruct H end;
    repeat match goal with
    | H : num_of_Z _ = num_of_Z _ |- _ => apply num_of_Z_inj in H; [|done|done]
    | H : run_stage_name _ = _ |- _ => apply run_stage_inj in H
    | H : origin_name _ = _ |- _ => apply origin_inj in H
    | H : execution_stage_name _ = _ |- _ => apply execution_stage_inj in H
    | H : codec_stage_name _ = _ |- _ => apply codec_stage_inj in H
    | H : map JStr _ = _ |- _ => apply strings_inj in H
    end; congruence.
Qed.

Lemma signature_sorted_inj s s' : signature_ok s -> signature_ok s' -> signature_sorted s = signature_sorted s' -> s = s'.
Proof.
  destruct s as [p c], s' as [p' c']. intros [Hp _] [Hp' _]. unfold signature_sorted. cbn [primary sig_cleanup] in *.
  intros H. injection H as Hc H. assert (c = c') as -> by (destruct c, c'; cbn in Hc; try done; try discriminate Hc; injection Hc; congruence). f_equal.
  destruct p as [p|], p' as [p'|]; cbn [from_option] in *; [|by destruct p|by destruct p'|done].
  f_equal. by apply primary_sorted_inj.
Qed.

(** Two signatures are equal for the program exactly when they are the same
    signature: comparing their canonical texts never throws, and tells apart any two
    kinds, coordinates, actions, stages, codes, requirements and cleanups. *)
Theorem signatures_equal_exact (a b : ReproductionSignature) (Ha : signature_ok a) (Hb : signature_ok b) :
  signaturesEqual number_text a b = Ok (bool_decide (a = b)).
Proof.
  destruct (canonical_signature a) as (ta & H1 & H2), (canonical_signature b) as (tb & H3 & H4).
  unfold signaturesEqual. rewrite H1, H3. cbn [mbind res_mbind mret res_mret]. f_equal.
  apply bool_decide_ext. split; [|intros ->; congruence]. intros <-.
  apply (stringify_parse _ _ _ (sorted_sendable a Ha)) in H2. apply (stringify_parse _ _ _ (sorted_sendable b Hb)) in H4.
  assert (wire_form (signature_sorted a) = wire_form (signature_sorted b)) as H by congruence.
  rewrite !wire_signature in H by done. by apply signature_sorted_inj.
Qed.
End equality.

Definition sample_signature (action : string) : ReproductionSignature :=
  Signature (Some (BehavioralMismatch 0 3 (lit action))) CleanupSucceeded.

Lemma sample_signature_ok action : signature_ok (sample_signature action).
Proof. split; [|done]. split_and!; [done|done|apply lit_units]. Qed.

Example signatures_equal_exact_witness :
  signaturesEqual (fun _ => $"0.5") (sample_signature "add") (sample_signature "remove") =
  Ok (bool_decide (sample_signature "add" = sample_signature "remove")).
Proof. exact (signatures_equal_exact _ _ _ (sample_signature_ok "add") (sample_signature_ok "remove")). Defined.
