(* ===== verification/Stability.v ===== *)
(** * Stability of a reproduction

    [classifyReproductionStability] of [src/src/reproduction-stability.ts]: repeat a
    replay up to a limit and classify what was seen. What the timers and the caller
    do is given, one [attempt_env] for each pass of the loop. The digest of the
    bundle, which the record only repeats, is the argument [bundleSha256]. *)

From Stdlib Require Import SpecFloat.
From S2P Require Import Prelude JsNumber Utf16 JsData JsText Reproduction.

(** ** Data *)

Inductive attempt_outcome := OReproduced | ONotReproduced | OTimedOut | OCancelled | ORefused | OFailed | OCleanupUnconfirmed.

#[export] Instance attempt_outcome_eq_dec : EqDecision attempt_outcome.
Proof. solve_decision. Defined.

(** [None] of [at_cleanup] is "unknown". *)
Record StabilityAttempt := Attempt {
  at_attempt : Z;
  at_outcome : attempt_outcome;
  at_cleanup : option cleanup_status;
  at_durationMs : Z;
  at_code : option ustring;
  at_replay : option ReproductionReplayResult }.

Inductive stability_class := Stable | NotStable | Unstable | Inconclusive | ClassCancelled.
Inductive independence_t := Confirmed | Lost | NotEstablished.

Record ReproductionStabilityRecord := StabilityRecord {
  st_runId : ustring;
  st_bundleSha256 : ustring;
  st_policy : budget_policy;
  st_resettable : bool;
  st_class : stability_class;
  st_attempts : list StabilityAttempt;
  st_independence : independence_t;
  st_reasonCode : option ustring }.

(** ** The environment *)

Inductive cut_off := TimedOut | CutCancelled.

(** How an attempt ends: with a replay; cut off, with the cleanup status the attempt
    still settles with in time; or throwing, with the [code] of what is thrown. *)
Inductive attempt_run :=
| Finishes (replay : ReproductionReplayResult)
| CutOff (why : cut_off) (settled : option cleanup_status)
| Throws (code : option ustring).

Record attempt_env := AttemptEnv {
  e_aborted : bool;
  e_elapsed : Z;
  e_run : attempt_run;
  e_duration : Z }.

(** ** The loop *)

Definition validatePolicy (p : raw_policy) : res exn budget_policy := check_policy 100 "invalid stability policy" p.

Definition cut_outcome (why : cut_off) : attempt_outcome := match why with TimedOut => OTimedOut | CutCancelled => OCancelled end.
Definition cut_reason (why : cut_off) : ustring := match why with TimedOut => $"timed_out" | CutCancelled => $"cancelled" end.

Definition status_outcome (s : replay_status) : attempt_outcome :=
  match s with Reproduced => OReproduced | NotReproduced => ONotReproduced end.

Definition confirmed (cleanup : option cleanup_status) : bool := bool_decide (cleanup = Some CSucceeded).

Section stability.
Context (number_text : number -> ustring).
Context (signature : ReproductionSignature).

(** One attempt: its row, whether it costs the independence, and the reason it stops
    the loop. *)
Definition attempted (k : Z) (e : attempt_env) : StabilityAttempt * bool * option ustring :=
  let row outcome cleanup code replay := Attempt k outcome cleanup (round_ms (e_duration e)) code replay in
  let thrown code :=
    (row (if contains ($"refus") (default [] code) then ORefused else OFailed) None
       (match code with Some [] => None | _ => code end) None, true, Some ($"attempt_failed")) in
  match e_run e with
  | CutOff why settled =>
      let cleanup := Some (default CUnconfirmed settled) in
      (row (cut_outcome why) cleanup None None, negb (confirmed cleanup), Some (cut_reason why))
  | Throws code => thrown code
  | Finishes replay =>
      let cleanup := replay_cleanup replay in
      match stale_replay number_text signature replay with
      | Err _ => thrown None
      | Ok true =>
          (row OFailed cleanup (Some ($"stale_replay_result")) (Some replay), negb (confirmed cleanup),
           Some ($"stale_replay_result"))
      | Ok false =>
          if confirmed cleanup then (row (status_outcome (rp_status replay)) cleanup None (Some replay), false, None)
          else (row OCleanupUnconfirmed cleanup None (Some replay), true, Some ($"cleanup_independence_lost"))
      end
  end.

(** How the loop ends: it still waits, was left because the caller cancelled, or is
    done, perhaps for a reason. *)
Inductive loop_end :=
| LoopWaits
| LoopCancelled (attempts : list StabilityAttempt) (independence : independence_t)
| LoopEnds (attempts : list StabilityAttempt) (independence : independence_t) (reason : option ustring).

Fixpoint attempt_loop (p : budget_policy) (k : Z) (es : list attempt_env) (attempts : list StabilityAttempt)
    (independence : independence_t) : loop_end :=
  if (limit p <? k)%Z then LoopEnds attempts independence None
  else
    match es with
    | [] => LoopWaits
    | e :: es' =>
        if e_aborted e then LoopCancelled attempts independence
        else if exhausted p (e_elapsed e) then LoopEnds attempts independence (Some ($"total_budget_exhausted"))
        else
          let '(row, lost, reason) := attempted k e in
          let independence := if lost then Lost else independence in
          match reason with
          | Some _ => LoopEnds (attempts ++ [row]) independence reason
          | None => attempt_loop p (k + 1) es' (attempts ++ [row]) independence
          end
    end.

Definition is_outcome (o : attempt_outcome) (a : StabilityAttempt) : bool := bool_decide (at_outcome a = o).

Definition classify (p : budget_policy) (aborted : bool) (attempts : list StabilityAttempt)
    (independence : independence_t) : stability_class :=
  if aborted then ClassCancelled
  else if match independence with Lost => true | _ => false end ||
          existsb (fun a => negb (is_outcome OReproduced a || is_outcome ONotReproduced a)) attempts ||
          (Z.of_nat (length attempts) <? limit p)%Z
       then Inconclusive
       else
         let reproduced := length (List.filter (is_outcome OReproduced) attempts) in
         if (reproduced =? length attempts)%nat then Stable
         else if (reproduced =? 0)%nat then NotStable
         else Unstable.

(** [aborted]: whether the caller's signal is aborted at the end. [None]: the run
    still waits. *)
Definition classifyReproductionStability (raw : raw_policy) (runId bundleSha256 : ustring) (resettable : bool)
    (es : list attempt_env) (aborted : bool) : res exn (option ReproductionStabilityRecord) :=
  p ← validatePolicy raw;
  let make := StabilityRecord runId bundleSha256 p resettable in
  mret
    (if negb resettable then Some (make Inconclusive [] NotEstablished (Some ($"not_resettable")))
     else
       match attempt_loop p 1 es [] Confirmed with
       | LoopWaits => None
       | LoopCancelled attempts independence =>
           Some (make ClassCancelled attempts independence (Some ($"caller_cancelled")))
       | LoopEnds attempts independence reason => Some (make (classify p aborted attempts independence) attempts independence reason)
       end).

(** ** What a classification means *)

(** A row of the record is what its attempt showed. *)
Definition faithful_row (a : StabilityAttempt) : Prop :=
  match at_outcome a with
  | OReproduced => at_cleanup a = Some CSucceeded /\ exists replay, at_replay a = Some replay /\
      replayResultMatchesBundle number_text signature replay = Ok true
  | ONotReproduced => at_cleanup a = Some CSucceeded /\ exists replay, at_replay a = Some replay /\
      signaturesEqual number_text signature (rp_expected replay) = Ok true /\ rp_status replay = NotReproduced
  | OCleanupUnconfirmed | ORefused => at_cleanup a <> Some CSucceeded
  | _ => True
  end.

(** The attempts of a loop that was not stopped by them. *)
Record good_rows (p : budget_policy) (attempts : list StabilityAttempt) : Prop := GoodRows {
  gr_numbers : map at_attempt attempts = map (fun n => Z.of_nat (S n)) (seq 0 (length attempts));
  gr_rows : Forall faithful_row attempts;
  gr_limit : (Z.of_nat (length attempts) <= limit p)%Z }.

Definition conclusive_row (a : StabilityAttempt) : Prop :=
  (at_outcome a = OReproduced \/ at_outcome a = ONotReproduced) /\ confirmed (at_cleanup a) = true.

Lemma stale_false replay : stale_replay number_text signature replay = Ok false ->
  match rp_status replay with
  | Reproduced => replayResultMatchesBundle number_text signature replay = Ok true
  | NotReproduced => signaturesEqual number_text signature (rp_expected replay) = Ok true
  end.
Proof.
  unfold stale_replay. destruct (signaturesEqual _ _ _) as [[]|] eqn:E; try done.
  destruct (rp_status replay); [|done]. by destruct (replayResultMatchesBundle _ _ _) as [[]|].
Qed.

Lemma attempted_row k e row lost reason : attempted k e = (row, lost, reason) ->
  at_attempt row = k /\ faithful_row row /\ lost = negb (confirmed (at_cleanup row)) /\
  (reason = None <-> conclusive_row row).
Proof.
  unfold attempted, conclusive_row.
  assert (forall code, faithful_row (Attempt k (if contains ($"refus") (default [] code) then ORefused else OFailed) None
    (round_ms (e_duration e)) (match code with Some [] => None | _ => code end) None)) as Hthrown.
  { intros code. unfold faithful_row. cbn. by destruct (contains _ _). }
  assert (forall code, (if contains ($"refus") (default [] code) then ORefused else OFailed) <> OReproduced /\
    (if contains ($"refus") (default [] code) then ORefused else OFailed) <> ONotReproduced) as Hno.
  { intros code. by destruct (contains _ _). }
  destruct (e_run e) as [replay|why settled|code].
  - destruct (stale_replay number_text signature replay) as [[]|] eqn:Es.
    + intros [= <- <- <-]. split_and!; try done. split; [done|]. by intros [[|] _].
    + apply stale_false in Es. unfold confirmed. case_bool_decide as Hc; intros [= <- <- <-]; cbn.
      * rewrite Hc. split_and!; [done| |done|]; [|split; [|done]; split; [destruct (rp_status replay); auto|done]].
        unfold faithful_row. cbn. destruct (rp_status replay) eqn:E; cbn; (split; [done|]); exists replay; by rewrite ?E.
      * split_and!; [done|done| |]; [by rewrite bool_decide_eq_false_2|]. split; [done|]. by intros [[|] _].
    + intros [= <- <- <-]. split_and!; [done|apply (Hthrown None)|done|]. split; [done|]. intros [[?|?] _]; by destruct (Hno None).
  - intros [= <- <- <-]. split_and!; [done|by destruct why|done|]. split; [done|]. intros [[?|?] _]; by destruct why.
  - intros [= <- <- <-]. split_and!; [done|apply (Hthrown code)|done|]. split; [done|]. intros [[?|?] _]; by destruct (Hno code).
Qed.

Definition conclusive (a : StabilityAttempt) : Prop := is_outcome OReproduced a = true \/ is_outcome ONotReproduced a = true.
Definition cleaned (a : StabilityAttempt) : bool := confirmed (at_cleanup a).

Lemma good_rows_app p attempts row : good_rows p attempts -> at_attempt row = Z.of_nat (S (length attempts)) ->
  (Z.of_nat (length attempts) < limit p)%Z -> faithful_row row -> good_rows p (attempts ++ [row]).
Proof.
  intros [Hn Hr Hl] Hk Hlt Hrow. constructor.
  - rewrite length_app, Nat.add_1_r, seq_S, !map_app. cbn [map]. by rewrite Hn, Hk.
  - apply Forall_app. auto.
  - rewrite length_app. cbn [length]. lia.
Qed.

(** What holds of the loop's state, and of how it ends. *)
Record loop_inv (p : budget_policy) (attempts : list StabilityAttempt) : Prop := LoopInv {
  li_rows : good_rows p attempts;
  li_conclusive : Forall conclusive_row attempts }.

Definition end_ok (p : budget_policy) (e : loop_end) : Prop :=
  match e with
  | LoopWaits => False
  | LoopCancelled attempts independence =>
      loop_inv p attempts /\ independence = Confirmed /\ (Z.of_nat (length attempts) < limit p)%Z
  | LoopEnds attempts independence reason =>
      good_rows p attempts /\ independence = (if forallb cleaned attempts then Confirmed else Lost) /\
      (reason = None <-> Forall conclusive_row attempts /\ Z.of_nat (length attempts) = limit p)
  end.

Lemma conclusive_cleaned attempts : Forall conclusive_row attempts -> forallb cleaned attempts = true.
Proof. intros H. apply forallb_forall. intros a Ha%list_elem_of_In. rewrite Forall_forall in H. exact (proj2 (H a Ha)). Qed.

Lemma attempt_loop_ok p es : forall attempts, loop_inv p attempts ->
  (limit p <= Z.of_nat (length attempts + length es))%Z ->
  end_ok p (attempt_loop p (Z.of_nat (S (length attempts))) es attempts Confirmed).
Proof.
  induction es as [|e es IH]; intros attempts [Hg Hc] Hle; cbn [attempt_loop]; destruct (_ <? _)%Z eqn:Hl;
    try (apply Z.ltb_lt in Hl); try (apply Z.ltb_ge in Hl).
  - pose proof (gr_limit p attempts Hg). cbn [end_ok]. rewrite conclusive_cleaned by done. split_and!; [done..|]. split; [|done]. intros _. split; [done|lia].
  - cbn [length] in Hle. lia.
  - pose proof (gr_limit p attempts Hg). cbn [end_ok]. rewrite conclusive_cleaned by done. split_and!; [done..|]. split; [|done]. intros _. split; [done|lia].
  - destruct (e_aborted e); [cbn [end_ok]; split_and!; [by constructor|done|lia]|].
    destruct (exhausted p (e_elapsed e)).
    { cbn [end_ok]. rewrite conclusive_cleaned by done. split_and!; [done..|]. split; [done|lia]. }
    destruct (attempted _ e) as [[row lost] reason] eqn:Ea. apply attempted_row in Ea as (Hk & Hf & Hlost & Hreason).
    assert (good_rows p (attempts ++ [row])) as Hg' by (apply good_rows_app; auto; lia).
    destruct reason as [r|].
    + cbn [end_ok]. rewrite forallb_app, (conclusive_cleaned _ Hc). cbn [forallb andb]. rewrite andb_true_r.
      split_and!; [done|unfold cleaned; rewrite Hlost; by destruct (confirmed _)|]. split; [done|].
      intros [Hall _]. apply Forall_app in Hall as [_ Hall]. inversion Hall. by apply Hreason.
    + destruct (proj1 Hreason eq_refl) as [Ho Hcl]. rewrite Hlost, Hcl. cbn [negb].
      replace (Z.of_nat (S (length attempts)) + 1)%Z with (Z.of_nat (S (length (attempts ++ [row])))) by (rewrite length_app; cbn; lia).
      apply IH; [constructor; [done|]|rewrite length_app; cbn [length] in *; lia].
      apply Forall_app. split; [done|]. apply Forall_singleton. by split.
Qed.

Definition all_outcome (o : attempt_outcome) (attempts : list StabilityAttempt) : Prop := Forall (fun a => at_outcome a = o) attempts.
Definition any_outcome (o : attempt_outcome) (attempts : list StabilityAttempt) : Prop := Exists (fun a => at_outcome a = o) attempts.

Lemma is_outcome_spec o a : is_outcome o a = true <-> at_outcome a = o.
Proof. apply bool_decide_eq_true. Qed.

Lemma filter_all o attempts :
  (length (List.filter (is_outcome o) attempts) = length attempts) <-> all_outcome o attempts.
Proof.
  unfold all_outcome. induction attempts as [|a l IH]; [done|]. cbn [List.filter length]. rewrite Forall_cons, <-IH, <-is_outcome_spec.
  pose proof (List.filter_length_le (is_outcome o) l). destruct (is_outcome o a); cbn [length]; intuition (try done; lia).
Qed.

Lemma filter_none o attempts :
  length (List.filter (is_outcome o) attempts) = 0%nat <-> Forall (fun a => at_outcome a <> o) attempts.
Proof.
  induction attempts as [|a l IH]; [done|]. cbn [List.filter length]. rewrite Forall_cons, <-IH, <-is_outcome_spec.
  destruct (is_outcome o a); cbn [length]; intuition (try done; lia).
Qed.

(** Both outcomes or one: nothing else makes a class. *)
Definition decisive (attempts : list StabilityAttempt) : Prop :=
  Forall (fun a => at_outcome a = OReproduced \/ at_outcome a = ONotReproduced) attempts.

Lemma decisive_existsb attempts :
  existsb (fun a => negb (is_outcome OReproduced a || is_outcome ONotReproduced a)) attempts = false <-> decisive attempts.
Proof.
  unfold decisive. induction attempts as [|a l IH]; [by split|]. cbn [existsb]. rewrite orb_false_iff, IH, Forall_cons.
  rewrite <-!is_outcome_spec. destruct (is_outcome OReproduced a), (is_outcome ONotReproduced a); cbn; intuition done.
Qed.

Lemma faithful_decisive attempts : Forall faithful_row attempts -> decisive attempts ->
  forallb cleaned attempts = true.
Proof.
  intros Hf Hd. apply forallb_forall. intros a Ha%list_elem_of_In. rewrite Forall_forall in Hf. unfold decisive in Hd. rewrite Forall_forall in Hd.
  specialize (Hf a Ha). unfold cleaned, confirmed. apply bool_decide_eq_true. unfold faithful_row in Hf.
  destruct (Hd a Ha) as [E|E]; rewrite E in Hf; tauto.
Qed.

Lemma all_decisive o attempts : o = OReproduced \/ o = ONotReproduced -> all_outcome o attempts -> decisive attempts.
Proof. intros Ho H. eapply Forall_impl; [exact H|]. intros a ->. destruct Ho as [->| ->]; auto. Qed.

Lemma all_excludes o o' attempts : o <> o' -> all_outcome o attempts -> ~ any_outcome o' attempts.
Proof.
  intros Ho Ha (a & Hin & E)%Exists_exists. apply Ho. rewrite <-E. symmetry. exact (proj1 (Forall_forall _ _) Ha a Hin).
Qed.

(** Of a decisive list, the count of the reproductions tells which outcomes occur. *)
Lemma decisive_cases attempts : decisive attempts -> attempts <> [] ->
  let n := length (List.filter (is_outcome OReproduced) attempts) in
  (n = length attempts /\ all_outcome OReproduced attempts /\ ~ all_outcome ONotReproduced attempts) \/
  (n <> length attempts /\ n = 0%nat /\ all_outcome ONotReproduced attempts /\ ~ all_outcome OReproduced attempts) \/
  (n <> length attempts /\ n <> 0%nat /\ any_outcome OReproduced attempts /\ any_outcome ONotReproduced attempts).
Proof.
  intros Hd Hne n. pose proof (filter_all OReproduced attempts) as Hall. pose proof (filter_none OReproduced attempts) as Hnone.
  fold n in Hall, Hnone. assert (~ (all_outcome OReproduced attempts /\ all_outcome ONotReproduced attempts)) as Hboth.
  { intros [Ha Hb]. destruct attempts as [|a l]; [done|]. inversion Ha. inversion Hb. congruence. }
  destruct (decide (n = length attempts)) as [Ha|Ha]; [left; tauto|]. destruct (decide (n = 0%nat)) as [Hz|Hz].
  - right. left. assert (all_outcome ONotReproduced attempts); [|tauto]. apply Forall_forall. intros a Hin.
    destruct (proj1 (Forall_forall _ _) Hd a Hin) as [E|E]; [|done].
    by destruct (proj1 (Forall_forall _ _) (proj1 Hnone Hz) a Hin).
  - right. right. split_and!; [done..| |].
    + destruct (decide (any_outcome OReproduced attempts)) as [|Hn]; [done|]. destruct Hz. apply Hnone.
      by apply Forall_Exists_neg.
    + destruct (decide (any_outcome ONotReproduced attempts)) as [|Hn]; [done|]. destruct Ha. apply Hall.
      apply Forall_Exists_neg in Hn. apply Forall_forall. intros a Hin.
      destruct (proj1 (Forall_forall _ _) Hd a Hin) as [E|E]; [done|]. by destruct (proj1 (Forall_forall _ _) Hn a Hin).
Qed.

Definition class_ok (full : Prop) (class : stability_class) (attempts : list StabilityAttempt) : Prop :=
  (class = Stable <-> full /\ all_outcome OReproduced attempts) /\
  (class = NotStable <-> full /\ all_outcome ONotReproduced attempts) /\
  (class = Unstable <-> full /\ decisive attempts /\ any_outcome OReproduced attempts /\ any_outcome ONotReproduced attempts).

Lemma class_ok_void full class attempts : ~ full -> class = Inconclusive \/ class = ClassCancelled ->
  class_ok full class attempts.
Proof. intros Hf Hc. unfold class_ok. split_and!; (split; [intros ->; by destruct Hc|tauto]). Qed.

Lemma classify_ok p aborted attempts independence :
  (1 <= limit p)%Z -> Forall faithful_row attempts -> (Z.of_nat (length attempts) <= limit p)%Z ->
  independence = (if forallb cleaned attempts then Confirmed else Lost) ->
  class_ok (aborted = false /\ Z.of_nat (length attempts) = limit p) (classify p aborted attempts independence) attempts.
Proof.
  intros H1 Hf Hl Hi. unfold classify. destruct aborted; [apply class_ok_void; [by intros []|auto]|].
  destruct (existsb _ attempts) eqn:Hex.
  { assert (~ decisive attempts) as Hn by (rewrite <-decisive_existsb; congruence).
    assert (forall o, o = OReproduced \/ o = ONotReproduced -> ~ all_outcome o attempts) as Ho
      by (intros o H Ha; apply Hn; by eapply all_decisive).
    rewrite orb_true_r. cbn [orb]. pose proof (Ho OReproduced). pose proof (Ho ONotReproduced).
    unfold class_ok. split_and!; split; try done; tauto. }
  apply decisive_existsb in Hex. rewrite (faithful_decisive attempts Hf Hex) in Hi. subst independence. cbn [orb].
  destruct (_ <? _)%Z eqn:Hlt; [apply Z.ltb_lt in Hlt; apply class_ok_void; [lia|auto]|apply Z.ltb_ge in Hlt].
  assert (attempts <> []) as Hne by (intros ->; cbn in Hlt; lia).
  assert (false = false /\ Z.of_nat (length attempts) = limit p) as Hfull by (split; [done|lia]).
  pose proof (all_excludes OReproduced ONotReproduced attempts ltac:(done)).
  pose proof (all_excludes ONotReproduced OReproduced attempts ltac:(done)).
  destruct (decisive_cases attempts Hex Hne) as [(E & ?)|[(E & E' & ?)|(E & E' & ?)]]; unfold class_ok.
  - rewrite (proj2 (Nat.eqb_eq _ _) E). split_and!; split; try done; tauto.
  - rewrite (proj2 (Nat.eqb_neq _ _) E), (proj2 (Nat.eqb_eq _ _) E'). split_and!; split; try done; tauto.
  - rewrite (proj2 (Nat.eqb_neq _ _) E), (proj2 (Nat.eqb_neq _ _) E'). split_and!; split; try done; tauto.
Qed.

Lemma policy_limit max message raw p : check_policy max message raw = Ok p -> (1 <= limit p)%Z.
Proof.
  unfold check_policy. destruct (int_between 1 max _) as [n|] eqn:E; [|done].
  destruct (int_between 1 _ (raw_total raw)); [|done]. destruct (int_between 1 _ (raw_each raw)); [|done].
  destruct (int_between 1 _ (raw_cleanup raw)); [|done]. intros H. assert (limit p = n) as -> by (injection H; intros; by subst p).
  unfold int_between in E. destruct (num_safe_Z _); [|done]. destruct (_ && _) eqn:Eb; [|done]. injection E as ->. lia.
Qed.

(** A stability check with a legal policy ends within its attempts, and its record
    says what they showed. The rows are numbered from one and are no more than the
    limit; a row reports a reproduction only of a replay that matches the bundle, and
    either outcome only with its cleanup confirmed. The runs count as independent
    exactly when the target is resettable and every cleanup was confirmed. The class
    is "stable" exactly when the caller did not cancel and all the attempts allowed
    were made and reproduced, "not_reproduced" when none did, and "unstable" when some
    did and some did not. *)
Theorem stability_classified (raw : raw_policy) (p : budget_policy) (runId bundleSha256 : ustring) (resettable aborted : bool)
    (es : list attempt_env) (Hraw : validatePolicy raw = Ok p) (Hes : (limit p <= Z.of_nat (length es))%Z) :
  exists record,
    classifyReproductionStability raw runId bundleSha256 resettable es aborted = Ok (Some record) /\
    good_rows p (st_attempts record) /\
    (st_independence record = Confirmed <->
       resettable = true /\ Forall (fun a => at_cleanup a = Some CSucceeded) (st_attempts record)) /\
    class_ok (resettable = true /\ aborted = false /\ Z.of_nat (length (st_attempts record)) = limit p)
      (st_class record) (st_attempts record).
Proof.
  unfold classifyReproductionStability. rewrite Hraw. cbn [mbind res_mbind]. pose proof (policy_limit _ _ _ _ Hraw) as H1.
  assert (good_rows p []) as H0 by (constructor; [done|done|cbn; lia]).
  destruct resettable; cbn [negb].
  2: { eexists. split; [done|]. cbn. split_and!; [done|split; [done|by intros []]|]. apply class_ok_void; [by intros []|auto]. }
  pose proof (attempt_loop_ok p es [] ltac:(by constructor) Hes) as H. cbn [length] in H.
  destruct (attempt_loop p _ es [] Confirmed) as [|attempts ind|attempts ind reason]; [done| |]; cbn [end_ok] in H;
    (eexists; split; [done|]; cbn [st_attempts st_independence st_class]).
  - destruct H as ([Hg Hc] & -> & Hlt). split_and!; [done| |apply class_ok_void; [lia|auto]].
    split; [|done]. intros _. split; [done|]. eapply Forall_impl; [exact Hc|]. intros a [_ Ha]. by apply bool_decide_eq_true in Ha.
  - destruct H as (Hg & Hi & _). pose proof (classify_ok p aborted attempts ind H1 (gr_rows _ _ Hg) (gr_limit _ _ Hg) Hi) as Hc.
    split_and!; [done| |unfold class_ok in *; tauto].
    assert (forallb cleaned attempts = true <-> Forall (fun a => at_cleanup a = Some CSucceeded) attempts) as <-.
    { rewrite forallb_forall, Forall_forall. unfold cleaned, confirmed. setoid_rewrite bool_decide_eq_true.
      by setoid_rewrite list_elem_of_In. }
    rewrite Hi. destruct (forallb cleaned attempts); intuition done.
Qed.
End stability.

Definition sample_policy : raw_policy :=
  RawPolicy (num_of_Z 2) (num_of_Z 1000) (num_of_Z 500) (num_of_Z 100).

Definition sample_replay (observed : string) : ReproductionReplayResult :=
  Replay (if bool_decide (observed = "add"%string) then Reproduced else NotReproduced) (sample_signature "add")
    (Some (sample_signature observed)) None.

Definition sample_attempts (second : string) : list attempt_env :=
  [AttemptEnv false 0 (Finishes (sample_replay "add")) 1000000; AttemptEnv false 2000000 (Finishes (sample_replay second)) 1000000].

Definition sample_class (second : string) : option stability_class :=
  match classifyReproductionStability (fun _ => $"0") (sample_signature "add") sample_policy ($"run") ($"0") true
    (sample_attempts second) false with
  | Ok (Some record) => Some (st_class record)
  | _ => None
  end.

Example sample_classes : sample_class "add" = Some Stable /\ sample_class "remove" = Some Unstable.
Proof. vm_compute. done. Qed.

Example stability_classified_witness : exists record,
  classifyReproductionStability (fun _ => $"0") (sample_signature "add") sample_policy ($"run") ($"0") true (sample_attempts "remove") false =
    Ok (Some record) /\
  good_rows (fun _ => $"0") (sample_signature "add") (Policy 2 1000 500 100) (st_attempts record) /\
  (st_independence record = Confirmed <->
     true = true /\ Forall (fun a => at_cleanup a = Some CSucceeded) (st_attempts record)) /\
  class_ok (true = true /\ false = false /\ Z.of_nat (length (st_attempts record)) = limit (Policy 2 1000 500 100))
    (st_class record) (st_attempts record).
Proof.
  apply (stability_classified (fun _ => $"0") (sample_signature "add") sample_policy (Policy 2 1000 500 100)).
  - vm_compute. reflexivity.
  - vm_compute. discriminate.
Defined.
