(* ===== verification/PrefixReduction.v ===== *)
(** * Reduction of a reproduction to a prefix

    [reduceReproductionPrefix] of [src/src/reproduction-prefix-reducer.ts]: for a
    mismatch that reproduces stably, replay ever shorter prefixes of its trace and
    report the shortest one that still reproduces it. What the timers, the validation
    and the replay of each candidate give is a [candidate_env]. *)

From Stdlib Require Import SpecFloat.
From S2P Require Import Prelude JsNumber Utf16 JsData JsText Reproduction Stability.

(** ** Data *)

Inductive candidate_validity := Valid | Invalid.
Inductive candidate_outcome :=
| CandReproduced | CandNotReproduced | CandTimedOut | CandCancelled | CandFailed | CandCleanupUnconfirmed | CandNotRun.

Record PrefixCandidateResult := Candidate {
  cand_order : nat;
  cand_prefixLength : nat;
  cand_validity : candidate_validity;
  cand_outcome : candidate_outcome;
  cand_code : option ustring;
  cand_durationMs : Z }.

Inductive reduction_claim := ShortestReproducingPrefix | SmallestObserved | NotReduced.
Inductive stop_reason :=
| StopComplete | StopCandidateLimit | StopTotalBudget | StopCancelled | StopIndependenceLost | StopCandidateFailure
| StopNotEligible.

Record PrefixReductionResult := Reduction {
  pr_originalRunId : ustring;
  pr_originalBundleSha256 : ustring;
  pr_traceIndex : Z;
  pr_originalLength : nat;
  pr_bestPrefixLength : option nat;
  pr_claim : reduction_claim;
  pr_minimalityComplete : bool;
  pr_stopReason : stop_reason;
  pr_candidates : list PrefixCandidateResult }.

(** ** The environment *)

Inductive validation_run :=
| Validated (valid : bool) (code : option ustring)
| ValidationCut (why : cut_off)
| ValidationThrows.

(** The state of the caller's signal and the time spent when the pass starts, the
    validation, the signal after it, the replay, and how long the pass took. *)
Record candidate_env := CandidateEnv {
  c_aborted : bool;
  c_elapsed : Z;
  c_validation : validation_run;
  c_aborted_after : bool;
  c_evaluation : attempt_run;
  c_duration : Z }.

(** ** The reduction *)

Definition reduction_policy (p : raw_policy) : res exn budget_policy := check_policy 4096 "invalid reduction policy" p.

Definition cut_candidate (why : cut_off) : candidate_outcome := match why with TimedOut => CandTimedOut | CutCancelled => CandCancelled end.
Definition cut_stop (why : cut_off) : stop_reason := match why with TimedOut => StopCandidateFailure | CutCancelled => StopCancelled end.
Definition status_candidate (s : replay_status) : candidate_outcome :=
  match s with Reproduced => CandReproduced | NotReproduced => CandNotReproduced end.

Section reduction.
Context (number_text : number -> ustring).
Context (signature : ReproductionSignature).

(** One pass past its budget checks: the row it records, and why it stops the loop. *)
Definition candidate_pass (order len : nat) (e : candidate_env) : option PrefixCandidateResult * option stop_reason :=
  let row validity outcome code := Some (Candidate order len validity outcome code (round_ms (c_duration e))) in
  let failed := (row Valid CandFailed None, Some StopCandidateFailure) in
  match c_validation e with
  | ValidationThrows => failed
  | ValidationCut why => (row Valid (cut_candidate why) None, Some (cut_stop why))
  | Validated false code => (row Invalid CandNotRun (match code with Some [] => None | _ => code end), None)
  | Validated true _ =>
      if c_aborted_after e then (None, Some StopCancelled)
      else
        match c_evaluation e with
        | Throws _ => failed
        | CutOff why settled =>
            if confirmed settled then (row Valid (cut_candidate why) None, Some (cut_stop why))
            else (row Valid CandCleanupUnconfirmed None, Some StopIndependenceLost)
        | Finishes replay =>
            match stale_replay number_text signature replay with
            | Err _ => failed
            | Ok true => (row Valid CandFailed (Some ($"stale_replay_result")), Some StopCandidateFailure)
            | Ok false =>
                if confirmed (replay_cleanup replay) then (row Valid (status_candidate (rp_status replay)) None, None)
                else (row Valid CandCleanupUnconfirmed None, Some StopIndependenceLost)
            end
        end
  end.

Definition reproduces (row : PrefixCandidateResult) : bool := match cand_outcome row with CandReproduced => true | _ => false end.
Definition invalid (row : PrefixCandidateResult) : bool := match cand_validity row with Invalid => true | Valid => false end.

Definition partial_claim (best : option nat) : reduction_claim := match best with None => NotReduced | Some _ => SmallestObserved end.

Section loop.
Context (p : budget_policy).
Context (finish : option nat -> reduction_claim -> bool -> stop_reason -> list PrefixCandidateResult -> PrefixReductionResult).

Definition stop_early (best : option nat) (reason : stop_reason) (candidates : list PrefixCandidateResult) : PrefixReductionResult :=
  finish best (partial_claim best) false reason candidates.

Definition finish_complete (best : option nat) (candidates : list PrefixCandidateResult) : PrefixReductionResult :=
  let invalidShorter :=
    match best with Some b => existsb (fun row => invalid row && (cand_prefixLength row <? b)%nat) candidates | None => false end in
  finish best
    (match best with None => NotReduced | Some _ => if invalidShorter then SmallestObserved else ShortestReproducingPrefix end)
    (negb invalidShorter) StopComplete candidates.

(** [None]: the run still waits. *)
Fixpoint reduction_loop (len : nat) (es : list candidate_env) (best : option nat) (candidates : list PrefixCandidateResult)
    : option PrefixReductionResult :=
  match len, es with
  | 0%nat, _ => Some (finish_complete best candidates)
  | S shorter, [] => None
  | S shorter, e :: es' =>
      if c_aborted e then Some (stop_early best StopCancelled candidates)
      else if (limit p <=? Z.of_nat (length candidates))%Z then Some (stop_early best StopCandidateLimit candidates)
      else if exhausted p (c_elapsed e) then Some (stop_early best StopTotalBudget candidates)
      else
        let '(row, stop) := candidate_pass (S (length candidates)) len e in
        let candidates := candidates ++ option_list row in
        match stop with
        | Some reason => Some (stop_early best reason candidates)
        | None => reduction_loop shorter es' (if existsb reproduces (option_list row) then Some len else best) candidates
        end
  end.
End loop.

Definition eligible (stability : ReproductionStabilityRecord) (resettable : bool) (runId sha : ustring) (traceIndex : Z)
    (originalLength : nat) : bool :=
  resettable &&
  match primary signature with
  | Some (BehavioralMismatch index _ _) => (index =? traceIndex)%Z
  | _ => false
  end &&
  match sig_cleanup signature with CleanupSucceeded => true | _ => false end &&
  match st_class stability with Stable => true | _ => false end &&
  match st_independence stability with Confirmed => true | _ => false end &&
  bool_decide (st_runId stability = runId) && bool_decide (st_bundleSha256 stability = sha) && (0 <? originalLength)%nat.

Definition reduceReproductionPrefix (raw : raw_policy) (runId sha : ustring) (traceIndex : Z) (originalLength : nat)
    (stability : ReproductionStabilityRecord) (resettable : bool) (es : list candidate_env)
    : res exn (option PrefixReductionResult) :=
  p ← reduction_policy raw;
  let finish := Reduction runId sha traceIndex originalLength in
  mret
    (if negb (eligible stability resettable runId sha traceIndex originalLength)
     then Some (finish None NotReduced false StopNotEligible [])
     else reduction_loop p finish originalLength es None []).

(** ** What a reduction shows *)

(** A row is what its pass showed. *)
Definition row_shows (e : candidate_env) (row : PrefixCandidateResult) : Prop :=
  match cand_validity row, cand_outcome row with
  | Invalid, outcome => (exists code, c_validation e = Validated false code) /\ outcome = CandNotRun
  | Valid, CandReproduced => exists code replay, c_validation e = Validated true code /\ c_evaluation e = Finishes replay /\
      replayResultMatchesBundle number_text signature replay = Ok true /\ replay_cleanup replay = Some CSucceeded
  | Valid, CandNotReproduced => exists code replay, c_validation e = Validated true code /\ c_evaluation e = Finishes replay /\
      signaturesEqual number_text signature (rp_expected replay) = Ok true /\ rp_status replay = NotReproduced /\
      replay_cleanup replay = Some CSucceeded
  | Valid, CandNotRun => False
  | Valid, _ => True
  end.

(** A row the loop goes on after. *)
Definition settled_row (row : PrefixCandidateResult) : Prop :=
  invalid row = true \/ cand_outcome row = CandReproduced \/ cand_outcome row = CandNotReproduced.

Lemma candidate_pass_shows order len e row stop : candidate_pass order len e = (row, stop) ->
  match row with
  | Some row => cand_order row = order /\ cand_prefixLength row = len /\ row_shows e row /\
      (stop = None -> settled_row row) /\ (stop <> None -> reproduces row = false)
  | None => stop <> None
  end.
Proof.
  unfold candidate_pass, settled_row, row_shows. destruct (c_validation e) as [[] code|why|].
  2: { intros [= <- <-]. cbn. split_and!; eauto; done. }
  2: { intros [= <- <-]. destruct why; cbn; by split_and!. }
  2: { intros [= <- <-]. cbn. by split_and!. }
  destruct (c_aborted_after e); [by intros [= <- <-]|].
  destruct (c_evaluation e) as [replay|why settled|?] eqn:Ee; [| |intros [= <- <-]; cbn; by split_and!].
  2: { destruct (confirmed settled), why; intros [= <- <-]; cbn; by split_and!. }
  destruct (stale_replay number_text signature replay) as [[]|] eqn:Es; [intros [= <- <-]; cbn; by split_and!| |
    intros [= <- <-]; cbn; by split_and!].
  apply stale_false in Es. unfold confirmed. case_bool_decide as Hc; intros [= <- <-]; [|cbn; by split_and!].
  cbn. split_and!; [done|done| |by destruct (rp_status replay); auto|done].
  destruct (rp_status replay) eqn:E; cbn; exists code, replay; by rewrite ?E.
Qed.

(** The rows follow the passes, from the whole trace downwards. *)
Definition rows_ok (originalLength : nat) (es : list candidate_env) (candidates : list PrefixCandidateResult) : Prop :=
  forall i row, candidates !! i = Some row ->
    cand_order row = S i /\ (cand_prefixLength row + i = originalLength)%nat /\
    exists e, es !! i = Some e /\ row_shows e row.

(** [best] is the shortest prefix recorded as reproducing. *)
Definition best_ok (best : option nat) (candidates : list PrefixCandidateResult) : Prop :=
  match best with
  | Some b => (exists row, row ∈ candidates /\ reproduces row = true /\ cand_prefixLength row = b) /\
      forall row, row ∈ candidates -> reproduces row = true -> (b <= cand_prefixLength row)%nat
  | None => forall row, row ∈ candidates -> reproduces row = false
  end.

(** Every prefix shorter than [b] was replayed and did not reproduce. *)
Definition shorter_refuted (b : nat) (candidates : list PrefixCandidateResult) : Prop :=
  forall l, (1 <= l < b)%nat -> exists row, row ∈ candidates /\ cand_prefixLength row = l /\
    cand_validity row = Valid /\ cand_outcome row = CandNotReproduced.

Record reduction_ok (p : budget_policy) (es : list candidate_env) (r : PrefixReductionResult) : Prop := ReductionOk {
  ro_rows : rows_ok (pr_originalLength r) es (pr_candidates r);
  ro_limit : (Z.of_nat (length (pr_candidates r)) <= limit p)%Z;
  ro_best : best_ok (pr_bestPrefixLength r) (pr_candidates r);
  ro_not_reduced : pr_claim r = NotReduced <-> pr_bestPrefixLength r = None;
  ro_shortest : pr_claim r = ShortestReproducingPrefix <->
    pr_stopReason r = StopComplete /\ exists b, pr_bestPrefixLength r = Some b /\ shorter_refuted b (pr_candidates r);
  ro_minimal : pr_minimalityComplete r = true <-> pr_stopReason r = StopComplete /\ pr_claim r <> SmallestObserved }.

(** The state of the loop with [len] prefixes left. *)
Record reduction_inv (p : budget_policy) (originalLength len : nat) (es : list candidate_env) (best : option nat)
    (candidates : list PrefixCandidateResult) : Prop := ReductionInv {
  ri_length : (length candidates + len = originalLength)%nat;
  ri_limit : (Z.of_nat (length candidates) <= limit p)%Z;
  ri_rows : rows_ok originalLength es candidates;
  ri_settled : Forall settled_row candidates;
  ri_best : best_ok best candidates }.

Lemma rows_ok_app originalLength es candidates e row : rows_ok originalLength es candidates ->
  es !! length candidates = Some e -> row_shows e row -> cand_order row = S (length candidates) ->
  (cand_prefixLength row + length candidates = originalLength)%nat -> rows_ok originalLength es (candidates ++ [row]).
Proof.
  intros Hr He Hrow Ho Hl i x [Hx|(Hge & Hx)]%lookup_app_Some; [by apply Hr|].
  apply list_lookup_singleton_Some in Hx as [Hi <-]. assert (i = length candidates) as -> by lia. eauto.
Qed.

Lemma rows_length originalLength es candidates row : rows_ok originalLength es candidates -> row ∈ candidates ->
  (length candidates <= originalLength)%nat ->
  (originalLength < cand_prefixLength row + length candidates <= originalLength + length candidates)%nat.
Proof.
  intros Hr [i Hi]%list_elem_of_lookup_1 Hle. pose proof (lookup_lt_Some _ _ _ Hi). destruct (Hr i row Hi) as (_ & Hrow & _). lia.
Qed.

Lemma rows_lookup originalLength es candidates l : rows_ok originalLength es candidates ->
  (originalLength < l + length candidates)%nat -> (l <= originalLength)%nat ->
  exists row, row ∈ candidates /\ cand_prefixLength row = l.
Proof.
  intros Hr Hlt Hle. destruct (lookup_lt_is_Some_2 candidates (originalLength - l)) as [row Hrow]; [lia|].
  exists row. split; [by eapply list_elem_of_lookup_2|]. destruct (Hr _ _ Hrow) as (_ & H & _). lia.
Qed.

Lemma rows_unique originalLength es candidates row row' : rows_ok originalLength es candidates ->
  row ∈ candidates -> row' ∈ candidates -> cand_prefixLength row = cand_prefixLength row' -> row = row'.
Proof.
  intros Hr [i Hi]%list_elem_of_lookup_1 [j Hj]%list_elem_of_lookup_1 E.
  destruct (Hr _ _ Hi) as (_ & H & _), (Hr _ _ Hj) as (_ & H' & _). assert (i = j) as -> by lia. congruence.
Qed.

Lemma best_ok_keep best candidates row : best_ok best candidates -> reproduces row = false -> best_ok best (candidates ++ [row]).
Proof.
  intros Hb Hrow. destruct best as [b|].
  - destruct Hb as [(x & Hx & H) Hmin]. split; [exists x; split; [apply elem_of_app; auto|done]|].
    intros y [Hy|Hy%list_elem_of_singleton]%elem_of_app Hr; [auto|]. subst y. congruence.
  - intros y [Hy|Hy%list_elem_of_singleton]%elem_of_app; [auto|by subst y].
Qed.

Lemma best_ok_new candidates row : reproduces row = true ->
  (forall x, x ∈ candidates -> (cand_prefixLength row <= cand_prefixLength x)%nat) ->
  best_ok (Some (cand_prefixLength row)) (candidates ++ [row]).
Proof.
  intros Hrow Hmin. split; [exists row; split_and!; [apply elem_of_app; right; by left|done..]|].
  intros y [Hy|Hy%list_elem_of_singleton]%elem_of_app _; [auto|by subst y].
Qed.

Section ends.
Context (p : budget_policy) (runId sha : ustring) (traceIndex : Z) (originalLength : nat) (es : list candidate_env).

Let finish := Reduction runId sha traceIndex originalLength.

Lemma stop_early_ok best reason candidates : reason <> StopComplete -> rows_ok originalLength es candidates ->
  (Z.of_nat (length candidates) <= limit p)%Z -> best_ok best candidates ->
  reduction_ok p es (stop_early finish best reason candidates).
Proof.
  intros Hreason Hr Hl Hb. constructor; cbn; [done|done|done|by destruct best| |by split; [|intros []]].
  split; [by destruct best|]. by intros [].
Qed.

Lemma not_invalid candidates b : rows_ok originalLength es candidates -> (length candidates <= originalLength)%nat ->
  (forall row, row ∈ candidates -> settled_row row) -> (length candidates = originalLength) -> (b <= originalLength)%nat ->
  (forall row, row ∈ candidates -> reproduces row = true -> (b <= cand_prefixLength row)%nat) ->
  existsb (fun row => invalid row && (cand_prefixLength row <? b)%nat) candidates = false <-> shorter_refuted b candidates.
Proof.
  intros Hr Hle Hs Hn Hb Hmin. rewrite <-not_true_iff_false, existsb_exists. split.
  - intros H l Hlb. destruct (rows_lookup _ _ _ l Hr) as (row & Hrow & El); [lia|lia|]. exists row. split_and!; [done..| |].
    + destruct (cand_validity row) eqn:Ev; [done|]. destruct H. exists row. split; [by apply list_elem_of_In|].
      unfold invalid. rewrite Ev. apply Nat.ltb_lt. lia.
    + destruct (Hs row Hrow) as [Hi|[Ho|Ho]]; [| |done].
      * destruct H. exists row. split; [by apply list_elem_of_In|]. rewrite Hi. apply Nat.ltb_lt. lia.
      * specialize (Hmin row Hrow). unfold reproduces in Hmin. rewrite Ho in Hmin. specialize (Hmin eq_refl). lia.
  - intros H (row & Hrow%list_elem_of_In & [Hi Hlt%Nat.ltb_lt]%andb_prop).
    pose proof (rows_length _ _ _ _ Hr Hrow Hle).
    destruct (H (cand_prefixLength row)) as (row' & Hrow' & El & Hv & _); [lia|].
    assert (row' = row) as -> by by eapply rows_unique. unfold invalid in Hi. by rewrite Hv in Hi.
Qed.

Lemma finish_complete_ok best candidates : reduction_inv p originalLength 0 es best candidates ->
  reduction_ok p es (finish_complete finish best candidates).
Proof.
  intros [Hn Hl Hr Hs Hb]. rewrite Nat.add_0_r in Hn.
  destruct best as [b|].
  - destruct Hb as [(x & Hx & Hrx & Ex) Hmin]. pose proof (rows_length _ _ _ _ Hr Hx ltac:(lia)).
    pose proof (not_invalid candidates b Hr ltac:(lia) (proj1 (Forall_forall _ _) Hs) Hn ltac:(lia) Hmin) as Hni.
    constructor; cbn; [done|done|split; [by exists x|done]|by destruct (existsb _ _)| |].
    + destruct (existsb _ _) eqn:E; split; [done| |intros _; split; [done|]; exists b; split; [done|by apply Hni]|done].
      intros (_ & b' & [= <-] & Hsh). by apply Hni in Hsh.
    + destruct (existsb _ _); cbn; split; try done. by intros [_ []].
  - constructor; cbn; [done|done|done|done| |done]. split; [done|]. by intros (_ & b & ? & _).
Qed.

(** A recorded row keeps the state of the loop, if the loop goes on. *)
Lemma pass_keeps len best candidates e row stop : reduction_inv p originalLength (S len) es best candidates ->
  (Z.of_nat (length candidates) < limit p)%Z -> es !! length candidates = Some e ->
  candidate_pass (S (length candidates)) (S len) e = (row, stop) ->
  let best' := if existsb reproduces (option_list row) then Some (S len) else best in
  let candidates' := candidates ++ option_list row in
  match stop with
  | Some reason => reason <> StopComplete -> reduction_ok p es (stop_early finish best reason candidates')
  | None => reduction_inv p originalLength len es best' candidates' /\ length candidates' = S (length candidates)
  end.
Proof.
  intros [Hn Hl Hr Hs Hb] Hlt He Hpass best' candidates'. pose proof (candidate_pass_shows _ _ _ _ _ Hpass) as H.
  subst best' candidates'. destruct row as [row|]; cbn [option_list existsb].
  - change (option_list (Some row)) with [row]. cbn [existsb]. destruct H as (Ho & El & Hrow & Hgo & Hstop).
    assert (rows_ok originalLength es (candidates ++ [row])) as Hr' by (eapply rows_ok_app; eauto; lia).
    assert (length (candidates ++ [row]) = S (length candidates)) as Hlen by (rewrite length_app; cbn; lia).
    destruct stop as [reason|].
    + intros Hreason. apply stop_early_ok; [done|done|rewrite ?Hlen; lia|]. apply best_ok_keep; auto.
    + split; [|done]. constructor; [rewrite Hlen; lia|rewrite Hlen; lia|done|apply Forall_app; split; [done|]; apply Forall_singleton; auto|].
      destruct (reproduces row) eqn:E; cbn [orb]; [|by apply best_ok_keep]. rewrite <-El. apply best_ok_new; [done|].
      intros x Hx. pose proof (rows_length _ _ _ _ Hr Hx ltac:(lia)). lia.
  - destruct stop as [reason|]; [|done]. intros Hreason. rewrite app_nil_r. by apply stop_early_ok.
Qed.

Lemma candidate_pass_stop order len e row reason : candidate_pass order len e = (row, Some reason) -> reason <> StopComplete.
Proof.
  unfold candidate_pass. destruct (c_validation e) as [[] ?|[]|]; try (destruct (c_aborted_after e)); cbn; try congruence.
  destruct (c_evaluation e) as [replay|why settled|?]; [|destruct (confirmed settled), why; cbn; congruence|congruence].
  destruct (stale_replay _ _ _) as [[]|]; [congruence| |congruence]. destruct (confirmed _); congruence.
Qed.

Lemma reduction_loop_ok : (originalLength <= length es)%nat -> forall len best candidates,
  reduction_inv p originalLength len es best candidates ->
  exists r, reduction_loop p finish len (drop (length candidates) es) best candidates = Some r /\ reduction_ok p es r.
Proof.
  intros Hes. induction len as [|len IH]; intros best candidates Hinv.
  { cbn [reduction_loop]. eexists. split; [done|]. by apply finish_complete_ok. }
  pose proof Hinv as [Hn Hl Hr _ Hb].
  destruct (lookup_lt_is_Some_2 es (length candidates)) as [e He]; [lia|]. rewrite (drop_S _ _ _ He). cbn [reduction_loop].
  destruct (c_aborted e); [eexists; split; [done|]; by apply stop_early_ok|].
  destruct (limit p <=? _)%Z eqn:Hlimit; [eexists; split; [done|]; by apply stop_early_ok|apply Z.leb_gt in Hlimit].
  destruct (exhausted p _); [eexists; split; [done|]; by apply stop_early_ok|].
  destruct (candidate_pass _ _ e) as [row stop] eqn:Hpass.
  pose proof (pass_keeps _ _ _ _ _ _ Hinv Hlimit He Hpass) as H. cbn zeta in H. destruct stop as [reason|].
  - eexists. split; [done|]. apply H. by eapply candidate_pass_stop.
  - destruct H as [Hinv' Elen]. rewrite <-Elen. by apply IH.
Qed.
End ends.

(** C30: with a legal policy a reduction ends after at most one pass for each prefix of
    the trace, and what it reports is what the passes showed: the candidates are the
    prefixes from the whole trace downwards, no more than the limit, and one is
    recorded as reproducing only when it was valid and its replay matches the bundle
    with its cleanup confirmed; the best prefix is the shortest recorded as
    reproducing; "shortest_reproducing_prefix" is claimed exactly when the search
    completed with a best prefix and every shorter prefix was valid, was replayed and
    did not reproduce. *)
Theorem reduction_sound (raw : raw_policy) (p : budget_policy) (runId sha : ustring) (traceIndex : Z) (originalLength : nat)
    (stability : ReproductionStabilityRecord) (resettable : bool) (es : list candidate_env)
    (Hraw : reduction_policy raw = Ok p) (Hes : (originalLength <= length es)%nat) :
  exists r,
    reduceReproductionPrefix raw runId sha traceIndex originalLength stability resettable es = Ok (Some r) /\
    reduction_ok p es r /\
    (pr_claim r <> NotReduced -> eligible stability resettable runId sha traceIndex originalLength = true).
Proof.
  pose proof (policy_limit _ _ _ _ Hraw) as H1. unfold reduceReproductionPrefix. rewrite Hraw. cbn [mbind res_mbind].
  destruct (eligible _ _ _ _ _ _); cbn [negb].
  - destruct (reduction_loop_ok p runId sha traceIndex originalLength es Hes originalLength None []) as (r & Hr & Hok).
    + constructor; [done|cbn; lia|done|done|]. intros row Hrow. by apply elem_of_nil in Hrow.
    + exists r. change (drop (length []) es) with es in Hr. by rewrite Hr.
  - eexists. split; [done|]. split; [|done]. apply (stop_early_ok p runId sha traceIndex originalLength es None StopNotEligible []);
      [done|done|cbn; lia|]. intros row Hrow. by apply elem_of_nil in Hrow.
Qed.
End reduction.

Definition sample_stability : ReproductionStabilityRecord :=
  StabilityRecord ($"run") ($"sha") (Policy 2 1000 500 100) true Stable [] Confirmed None.

Definition sample_budget : raw_policy :=
  RawPolicy (num_of_Z 10) (num_of_Z 1000) (num_of_Z 500) (num_of_Z 100).

Definition sample_candidate (observed : string) : candidate_env :=
  CandidateEnv false 0 (Validated true None) false (Finishes (sample_replay observed)) 1000000.

(** Of a trace of three states the prefixes of length three and two reproduce. *)
Definition sample_candidates : list candidate_env := map sample_candidate ["add"; "add"; "remove"]%string.

Definition sample_reduction : res exn (option PrefixReductionResult) :=
  reduceReproductionPrefix (fun _ => $"0") (sample_signature "add") sample_budget ($"run") ($"sha") 0 3 sample_stability true
    sample_candidates.

Example sample_reduction_shortest : match sample_reduction with
  | Ok (Some r) => pr_claim r = ShortestReproducingPrefix /\ pr_bestPrefixLength r = Some 2%nat
  | _ => False
  end.
Proof. vm_compute. done. Qed.

Example reduction_sound_witness : exists r,
  reduceReproductionPrefix (fun _ => $"0") (sample_signature "add") sample_budget ($"run") ($"sha") 0 3 sample_stability true
    sample_candidates = Ok (Some r) /\
  reduction_ok (fun _ => $"0") (sample_signature "add") (Policy 10 1000 500 100) sample_candidates r /\
  (pr_claim r <> NotReduced -> eligible (sample_signature "add") sample_stability true ($"run") ($"sha") 0 3 = true).
Proof.
  apply (reduction_sound (fun _ => $"0") (sample_signature "add") sample_budget (Policy 10 1000 500 100)).
  - vm_compute. reflexivity.
  - cbn. lia.
Defined.
