(* ===== verification/OpaqueItf.v ===== *)
(** * Checked values of the protocol

    [src/src/opaque-itf.ts]: the checked copy of a value of unknown type
    ([snapshotItfValue]), the text that identifies a value up to the order of sets,
    maps and records ([identity], [itfValueIdentity]), and the wrapper of opaque
    values, which is the value it holds.

    Data of unknown type is [js]: accessors, symbol keys, foreign prototypes, holes
    and cycles, which the source refuses, are not data. The depth that is left is the
    recursion argument; the count of nodes is the state of the monad. *)

From S2P Require Import Prelude JsNumber Utf16 JsData StrictJson Decode JsText Protocol.

Definition OPAQUE_ITF_MAX_DEPTH : nat := 64.
Definition OPAQUE_ITF_MAX_NODES : N := 10000.

Definition itf_error {A} (path : ustring) (msg : string) : res exn A := Err (Exn XError (path ++ $": " ++ lit msg)).

Definition dataRecord (value : js) (path : ustring) : res exn object_t :=
  match value with JObj o => Ok o | _ => itf_error path "expected a plain ITF object" end.

Definition check_keys (record : object_t) (expected : list ustring) (path : ustring) : res exn unit :=
  if (length (keys record) =? length expected)%nat && forallb (fun key => bool_decide (key ∈ expected)) (keys record)
  then Ok tt else itf_error path "unexpected ITF value fields".

Definition denseArray (value : js) (path : ustring) : res exn (list js) :=
  match value with JArr l => Ok l | _ => itf_error path "expected a dense plain array" end.

(** ** Identity *)

(** The text of a value without numbers. *)
Definition text_of (v : js) : ustring :=
  match stringify (fun _ => []) v with Ok (Some t) => t | _ => [] end.

Definition by_text (a b : js) : comparison := compare_lists (text_of a) (text_of b).
Definition sorted (values : list js) : list js := sort_by by_text values.

Definition by_name {A} (a b : ustring * A) : comparison := compare_lists a.1 b.1.

(** [VMessage] is no value of the source's type. *)
Fixpoint canonical (v : Value) : js :=
  let tagged (tag : string) (items : list js) := JArr (JStr (lit tag) :: items) in
  match v with
  | VNull => tagged "null"%string []
  | VInt val => tagged "int"%string [JStr (dec_of_Z val)]
  | VBool val => tagged "bool"%string [JBool val]
  | VStr val => tagged "str"%string [JStr val]
  | VUnserializable val => tagged "unserializable"%string [JStr val]
  | VSet val => tagged "set"%string [JArr (sorted (map canonical val))]
  | VSeq val => tagged "seq"%string [JArr (map canonical val)]
  | VTuple val => tagged "tuple"%string [JArr (map canonical val)]
  | VRecord val =>
      tagged "record"%string
        [JArr (map (fun e => JArr [JStr e.1; e.2]) (sort_by by_name (map (fun e => (e.1, canonical e.2)) val)))]
  | VMap val => tagged "map"%string [JArr (sorted (map (fun e => JArr [canonical e.1; canonical e.2]) val))]
  | VVariant variantTag value => tagged "variant"%string [JStr variantTag; canonical value]
  | VMessage _ => JUndef
  end.

Definition identity (v : Value) : ustring := text_of (canonical v).

Fixpoint unique_from (seen : list ustring) (values : list Value) (path : ustring) : res exn unit :=
  match values with
  | [] => Ok tt
  | value :: rest =>
      let key := identity value in
      if bool_decide (key ∈ seen) then itf_error path "duplicate set element or map key"
      else unique_from (key :: seen) rest path
  end.

Definition unique (values : list Value) (path : ustring) : res exn unit := unique_from [] values path.

(** ** The checked copy *)

Definition itf_keys (tag : js) : list ustring :=
  match tag with
  | JStr t => if t =s "null" then [$"tag"] else if t =s "variant" then [$"tag"; $"variantTag"; $"value"] else [$"tag"; $"val"]
  | _ => [$"tag"; $"val"]
  end.

Definition node (depth_left : nat) (path : ustring) : stres N exn unit :=
  fun nodes =>
    let nodes' := (nodes + 1)%N in
    if (depth_left =? 0)%nat || (OPAQUE_ITF_MAX_NODES <? nodes')%N
    then itf_error path "ITF value exceeds structural limits" else Ok (tt, nodes').

Fixpoint visit (depth_left : nat) (value : js) (path : ustring) : stres N exn Value :=
  _ ← node depth_left path;
  record ← liftR (dataRecord value path);
  let tag := getf record ($"tag") in
  let val := getf record ($"val") in
  _ ← liftR (check_keys record (itf_keys tag) path);
  match depth_left, tag with
  | S d, JStr t =>
      let items := liftR (denseArray val (dot path "val")) ≫= mapMi (fun i item => visit d item (idx path i)) in
      if t =s "null" then mret VNull
      else if t =s "int" then
        match val with JBig z => mret (VInt z) | _ => liftR (itf_error path "expected bigint") end
      else if t =s "bool" then
        match val with JBool b => mret (VBool b) | _ => liftR (itf_error path "expected boolean") end
      else if t =s "str" then
        match val with JStr s => mret (VStr s) | _ => liftR (itf_error path "expected string") end
      else if t =s "unserializable" then
        match val with JStr s => mret (VUnserializable s) | _ => liftR (itf_error path "expected string") end
      else if t =s "set" then
        vals ← items; _ ← liftR (unique vals path); mret (VSet vals)
      else if t =s "seq" then VSeq <$> items
      else if t =s "tuple" then VTuple <$> items
      else if t =s "record" then
        source ← liftR (dataRecord val (dot path "val"));
        fields ← mapMi (fun _ e => v ← visit d e.2 (path ++ $"." ++ e.1); mret (e.1, v)) source;
        mret (VRecord fields)
      else if t =s "map" then
        entries ← liftR (denseArray val (dot path "val"));
        vals ← mapMi (fun i item =>
          entry ← liftR (denseArray item (idx path i));
          match entry with
          | [k; v] =>
              key ← visit d k (dot (idx path i) "key");
              value ← visit d v (dot (idx path i) "value");
              mret (key, value)
          | _ => liftR (itf_error (idx path i) "expected map entry")
          end) entries;
        _ ← liftR (unique (map fst vals) path);
        mret (VMap vals)
      else if t =s "variant" then
        match getf record ($"variantTag") with
        | JStr variantTag => VVariant variantTag <$> visit d (getf record ($"value")) (dot path "value")
        | _ => liftR (itf_error path "expected variant tag")
        end
      else liftR (itf_error path "unknown ITF value tag")
  | _, _ => liftR (itf_error path "unknown ITF value tag")
  end.

Definition snapshotItfValue (input : js) : res exn Value :=
  fst <$> visit (S OPAQUE_ITF_MAX_DEPTH) input ($"value") 0%N.

(** The object of a value. Of a message only that it has no tag matters here. *)
Fixpoint value_object (v : Value) : js :=
  let tagged (tag : string) (val : js) := JObj [($"tag", JStr (lit tag)); ($"val", val)] in
  match v with
  | VNull => JObj [($"tag", JStr ($"null"))]
  | VInt val => tagged "int"%string (JBig val)
  | VBool val => tagged "bool"%string (JBool val)
  | VStr val => tagged "str"%string (JStr val)
  | VUnserializable val => tagged "unserializable"%string (JStr val)
  | VSet val => tagged "set"%string (JArr (map value_object val))
  | VSeq val => tagged "seq"%string (JArr (map value_object val))
  | VTuple val => tagged "tuple"%string (JArr (map value_object val))
  | VRecord val => tagged "record"%string (JObj (map (fun e => (e.1, value_object e.2)) val))
  | VMap val => tagged "map"%string (JArr (map (fun e => JArr [value_object e.1; value_object e.2]) val))
  | VVariant variantTag value =>
      JObj [($"tag", JStr ($"variant")); ($"variantTag", JStr variantTag); ($"value", value_object value)]
  | VMessage _ => JObj [($"proto_step", JUndef)]
  end.

(** [snapshotItfValue] of a value of the protocol. *)
Definition snapshot_value (v : Value) : res exn Value := snapshotItfValue (value_object v).

Definition itfValueIdentity (v : Value) : res exn ustring := identity <$> snapshot_value v.

(** The wrapper [OpaqueItfValue]: its constructor and [encode]. *)
Record OpaqueItfValue := Opaque { opaque_value : Value }.

Definition opaqueItfValue (v : Value) : res exn OpaqueItfValue := Opaque <$> snapshot_value v.
Definition OpaqueItfValue_encode (o : OpaqueItfValue) : res exn Value := snapshot_value (opaque_value o).

Example snapshot_examples :
  snapshot_value (VSet [VInt 1; VInt 2; VInt 1]) = Err (Exn XError ($"value: duplicate set element or map key")) /\
  snapshot_value (VMap [(VStr ($"k"), VSet [])]) = Ok (VMap [(VStr ($"k"), VSet [])]) /\
  itfValueIdentity (VSet [VInt 2; VInt 1]) = itfValueIdentity (VSet [VInt 1; VInt 2]).
Proof. vm_compute. done. Qed.
