(* ===== verification/OpaqueFacts.v ===== *)
(** * Identity and limits of checked values

    [identity] decides equality of values up to the order of sets, maps and records;
    [snapshotItfValue] accepts exactly the values within the limits whose sets and
    maps hold nothing twice, and copies them. *)

From S2P Require Import Prelude JsNumber Utf16 JsData StrictJson StrictJsonFacts StrictJsonRoundtrip Decode JsText JsonText Protocol ProtocolFacts OpaqueItf.

(** ** Texts without numbers *)

Inductive inert : js -> Prop :=
| inert_bool b : inert (JBool b)
| inert_str s : js_string s -> inert (JStr s)
| inert_arr l : Forall inert l -> inert (JArr l).

Lemma inert_facts v : inert v ->
  sendable v /\ wire_form v = v /\ is_undef v = false /\ exists t, stringify (fun _ => []) v = Ok (Some t).
Proof.
  induction v as [| |b|x|z|s|l IH|o IH] using js_ind'; intros H; inversion H; subst.
  - split_and!; [constructor|done|done|by eexists].
  - split_and!; [by constructor|done|done|by eexists].
  - assert (Forall (fun v => sendable v /\ wire_form v = v /\ is_undef v = false /\
      exists t, stringify (fun _ => []) v = Ok (Some t)) l) as Hl.
    { rewrite Forall_forall in *. auto. }
    clear IH H. split_and!; [|cbn; f_equal|done|].
    + constructor. eapply Forall_impl; [exact Hl|]. intros x Hx. apply Hx.
    + induction Hl as [|x l (_ & Hw & Hu & _) _ IH]; [done|]. cbn. rewrite Hu, Hw. f_equal. apply IH.
      by inversion H1.
    + cbn [stringify]. assert (exists ts, mapM (fun x => default ($"null") <$> stringify (fun _ => []) x) l = Ok ts) as [ts ->].
      { clear H1. induction Hl as [|x l (_ & _ & _ & t & Ht) _ [ts IH]]; [by exists []|]. cbn. rewrite Ht. cbn in IH |- *.
        rewrite IH. by eexists. }
      by eexists.
Qed.

Lemma text_of_inj a b : inert a -> inert b -> text_of a = text_of b -> a = b.
Proof.
  intros (Sa & Wa & _ & ta & Ha)%inert_facts (Sb & Wb & _ & tb & Hb)%inert_facts. unfold text_of. rewrite Ha, Hb. intros <-.
  pose proof (stringify_parse _ _ _ Sa Ha) as Pa. pose proof (stringify_parse _ _ _ Sb Hb) as Pb. congruence.
Qed.

Lemma sorted_perm l : sorted l ≡ₚ l.
Proof. apply sort_by_Permutation. Qed.

Lemma sorted_eq l l' : Forall inert l -> sorted l = sorted l' <-> l ≡ₚ l'.
Proof.
  intros Hl. split; [intros H; by rewrite <-(sorted_perm l), H, sorted_perm|]. intros Hp. apply sort_by_perm_eq; [| | |done].
  - intros x y. apply compare_lists_op.
  - intros x y z. apply compare_lists_lt_gt.
  - rewrite Forall_forall in Hl. intros x y Hx Hy E%compare_lists_Eq. apply text_of_inj; auto.
Qed.

(** Pairs sorted by distinct names. *)
Lemma by_name_eq {A} (l l' : list (ustring * A)) : NoDup (map fst l) ->
  sort_by by_name l = sort_by by_name l' <-> l ≡ₚ l'.
Proof.
  intros Hl. split; [intros H; by rewrite <-(sort_by_Permutation by_name l), H, sort_by_Permutation|]. intros Hp.
  apply sort_by_perm_eq; [| | |done].
  - intros x y. apply compare_lists_op.
  - intros x y z. apply compare_lists_lt_gt.
  - intros x y Hx Hy E%compare_lists_Eq. by eapply (NoDup_map_inj fst l).
Qed.

(** ** Values *)

Definition units_ok (s : ustring) : bool := forallb (fun c => c <? 0x10000)%N s.

(** The values of the source's type: strings of 16-bit units, the names of a record
    distinct, no message. *)
Fixpoint itf_value (v : Value) : bool :=
  match v with
  | VInt _ | VBool _ | VNull => true
  | VStr s | VUnserializable s => units_ok s
  | VSet l | VSeq l | VTuple l => forallb itf_value l
  | VMap l => forallb (fun e => itf_value e.1 && itf_value e.2) l
  | VRecord l => no_dups (map fst l) && forallb (fun e => units_ok e.1 && itf_value e.2) l
  | VVariant t v => units_ok t && itf_value v
  | VMessage _ => false
  end.

(** Equal up to the order of sets, maps and records. *)
Inductive same : Value -> Value -> Prop :=
| same_int z : same (VInt z) (VInt z)
| same_bool b : same (VBool b) (VBool b)
| same_str s : same (VStr s) (VStr s)
| same_unserializable s : same (VUnserializable s) (VUnserializable s)
| same_null : same VNull VNull
| same_seq l l' : Forall2 same l l' -> same (VSeq l) (VSeq l')
| same_tuple l l' : Forall2 same l l' -> same (VTuple l) (VTuple l')
| same_set l k l' : l ≡ₚ k -> Forall2 same k l' -> same (VSet l) (VSet l')
| same_map l k l' : l ≡ₚ k -> Forall2 (fun e f => same e.1 f.1 /\ same e.2 f.2) k l' -> same (VMap l) (VMap l')
| same_record l k l' : l ≡ₚ k -> Forall2 (fun e f => e.1 = f.1 /\ same e.2 f.2) k l' -> same (VRecord l) (VRecord l')
| same_variant t v v' : same v v' -> same (VVariant t v) (VVariant t v').

Lemma forallb_Forall {A} (p : A -> bool) l : forallb p l = true <-> Forall (fun x => p x = true) l.
Proof. rewrite forallb_forall, Forall_forall. by setoid_rewrite list_elem_of_In. Qed.

Lemma inert_list l : Forall inert l -> inert (JArr l).
Proof. apply inert_arr. Qed.

Lemma inert_lit s : inert (JStr (lit s)).
Proof. constructor. induction s as [|a s IH]; cbn; constructor; [|done]. pose proof (Ascii.N_ascii_bounded a). lia. Qed.

Lemma dec_of_Z_units z : js_string (dec_of_Z z).
Proof.
  assert (forall n, js_string (dec_of_N n)) as H.
  { intros n. eapply Forall_impl; [exact (dec_ok_digits _ _ (dec_of_N_ok n))|]. cbn. unfold is_digit. intros c Hc. lia. }
  destruct z; cbn [dec_of_Z]; [repeat constructor|apply H|constructor; [lia|apply H]].
Qed.

Lemma sorted_inert l : Forall inert l -> Forall inert (sorted l).
Proof. by rewrite sorted_perm. Qed.

Lemma inert_pair a b : inert a -> inert b -> inert (JArr [a; b]).
Proof. intros Ha Hb. by repeat constructor. Qed.

#[local] Hint Resolve inert_lit inert_pair sorted_inert inert_bool : core.

Lemma tagged_inert tag items : Forall inert items -> inert (JArr (JStr (lit tag) :: items)).
Proof. intros H. constructor. by constructor. Qed.

Lemma canonical_list_inert l : Forall (fun v => itf_value v = true -> inert (canonical v)) l -> forallb itf_value l = true ->
  Forall inert (map canonical l).
Proof. rewrite forallb_Forall, Forall_map. intros H1 H2. rewrite Forall_forall in *. auto. Qed.

Lemma canonical_inert v : itf_value v = true -> inert (canonical v).
Proof.
  induction v as [z|b|s|l IH|l IH|l IH|l IH|l IH|t v IH|s| |m] using Value_ind'; cbn [canonical itf_value]; intros H;
    try discriminate H; apply tagged_inert; repeat (apply Forall_cons; split); try apply Forall_nil_2; auto.
  - constructor. apply dec_of_Z_units.
  - constructor. by apply js_stringb_ok.
  - apply inert_list, sorted_inert. by apply canonical_list_inert.
  - apply inert_list. by apply canonical_list_inert.
  - apply inert_list. by apply canonical_list_inert.
  - apply inert_list, sorted_inert. apply Forall_map. rewrite forallb_Forall in H. rewrite Forall_forall in *.
    intros e He. specialize (H e He). apply andb_prop in H as [H1 H2]. destruct (IH e He). auto.
  - apply inert_list. apply andb_prop in H as [_ H]. rewrite Forall_map, (sort_by_Permutation by_name), Forall_map.
    rewrite forallb_Forall in H. rewrite Forall_forall in *. intros e He. specialize (H e He).
    apply andb_prop in H as [H1 H2]. apply inert_pair; [|by apply IH]. constructor. by apply js_stringb_ok.
  - constructor. apply andb_prop in H as [H _]. by apply js_stringb_ok.
  - apply andb_prop in H as [_ H]. auto.
  - constructor. by apply js_stringb_ok.
Qed.

(** ** Equality of canonical forms *)

Lemma perm_map_inv {A B} (f : A -> B) l l' : map f l ≡ₚ map f l' -> exists k, l ≡ₚ k /\ map f k = map f l'.
Proof. intros H. apply Permutation_sym, Permutation_map_inv in H as (k & E & Hp). exists k. by rewrite E. Qed.

Section map_eq.
Context {A B : Type} (f : A -> B) (R : A -> A -> Prop).

Lemma map_eq_Forall2 l l' : (forall x y, x ∈ l -> y ∈ l' -> f x = f y <-> R x y) -> map f l = map f l' <-> Forall2 R l l'.
Proof.
  revert l'. induction l as [|x l IH]; intros [|y l'] H; cbn [map]; try (split; [discriminate|by inversion 1]); [by split|].
  assert (f x = f y <-> R x y) as Hxy by (apply H; by left).
  assert (map f l = map f l' <-> Forall2 R l l') as Hl by (apply IH; intros; apply H; by right).
  rewrite Forall2_cons, <-Hxy, <-Hl. split; [by intros [= -> ->]|by intros [-> ->]].
Qed.

Lemma map_perm_Forall2 l l' : (forall x y, x ∈ l -> y ∈ l' -> f x = f y <-> R x y) ->
  map f l ≡ₚ map f l' <-> exists k, l ≡ₚ k /\ Forall2 R k l'.
Proof.
  intros H. assert (forall k, l ≡ₚ k -> map f k = map f l' <-> Forall2 R k l') as Hk.
  { intros k Hp. apply map_eq_Forall2. intros x y Hx. apply H. by rewrite Hp. }
  split; [intros (k & Hp & E)%perm_map_inv; exists k; split; [done|by apply Hk]|].
  intros (k & Hp & HF). rewrite Hp. by rewrite (proj2 (Hk k Hp) HF).
Qed.
End map_eq.

(** The name of a value's kind, and what its canonical form says besides. *)
Definition kind (v : Value) : string :=
  match v with
  | VNull => "null" | VInt _ => "int" | VBool _ => "bool" | VStr _ => "str" | VUnserializable _ => "unserializable"
  | VSet _ => "set" | VSeq _ => "seq" | VTuple _ => "tuple" | VRecord _ => "record" | VMap _ => "map"
  | VVariant _ _ => "variant" | VMessage _ => "message"
  end.

Lemma canonical_kind v : itf_value v = true -> exists items, canonical v = JArr (JStr (lit (kind v)) :: items).
Proof. destruct v; intros H; try discriminate H; by eexists. Qed.

Lemma canonical_kind_eq v w : itf_value v = true -> itf_value w = true -> canonical v = canonical w -> kind v = kind w.
Proof. intros [? ->]%canonical_kind [? ->]%canonical_kind [= H _]. by apply lit_inj. Qed.

Lemma dec_of_Z_inj a b : dec_of_Z a = dec_of_Z b -> a = b.
Proof. intros H%(f_equal BigInt_of_string). rewrite !BigInt_of_dec_of_Z in H. congruence. Qed.

Definition decided (v : Value) : Prop :=
  forall w, itf_value v = true -> itf_value w = true -> canonical v = canonical w <-> same v w.

Lemma decided_elements l l' : Forall decided l -> forallb itf_value l = true -> forallb itf_value l' = true ->
  forall x y, x ∈ l -> y ∈ l' -> canonical x = canonical y <-> same x y.
Proof. rewrite !forallb_Forall, !Forall_forall. intros IH H H' x y Hx Hy. apply IH; auto. Qed.

Definition entry_form (e : Value * Value) : js := JArr [canonical e.1; canonical e.2].
Definition field_form (e : ustring * Value) : ustring * js := (e.1, canonical e.2).

Lemma decided_entries l l' : Forall (fun e => decided e.1 /\ decided e.2) l -> itf_value (VMap l) = true -> itf_value (VMap l') = true ->
  forall x y, x ∈ l -> y ∈ l' -> entry_form x = entry_form y <-> same x.1 y.1 /\ same x.2 y.2.
Proof.
  cbn [itf_value]. rewrite !forallb_Forall, !Forall_forall. intros IH H H' x y Hx Hy.
  specialize (H x Hx). specialize (H' y Hy). apply andb_prop in H as [H1 H2], H' as [H3 H4]. destruct (IH x Hx) as [I1 I2].
  rewrite <-(I1 y.1), <-(I2 y.2) by done. unfold entry_form. split; [by intros [= -> ->]|by intros [-> ->]].
Qed.

Lemma decided_fields l l' : Forall (fun e => decided e.2) l -> itf_value (VRecord l) = true -> itf_value (VRecord l') = true ->
  forall x y, x ∈ l -> y ∈ l' -> field_form x = field_form y <-> x.1 = y.1 /\ same x.2 y.2.
Proof.
  cbn [itf_value]. intros IH [_ H]%andb_prop [_ H']%andb_prop. revert IH H H'. rewrite !forallb_Forall, !Forall_forall.
  intros IH H H' x y Hx Hy. specialize (H x Hx). specialize (H' y Hy). apply andb_prop in H as [_ H], H' as [_ H'].
  rewrite <-(IH x Hx y.2) by done. unfold field_form. split; [by intros [= -> ->]|by intros [-> ->]].
Qed.

Lemma JArr_singleton l l' (t : js) : JArr [t; JArr l] = JArr [t; JArr l'] <-> l = l'.
Proof. split; [by intros [= ->]|by intros ->]. Qed.

Lemma named_inj (l l' : list (ustring * js)) :
  map (fun e => JArr [JStr e.1; e.2]) l = map (fun e => JArr [JStr e.1; e.2]) l' -> l = l'.
Proof.
  revert l'. induction l as [|[k x] l IH]; intros [|[k' x'] l'] H; try discriminate H; [done|].
  injection H as -> -> H. f_equal. auto.
Qed.

Lemma field_names l : map fst (map field_form l) = map fst l.
Proof. rewrite map_map. by apply map_ext. Qed.

Lemma record_form l : canonical (VRecord l) =
  JArr [JStr ($"record"); JArr (map (fun e => JArr [JStr e.1; e.2]) (sort_by by_name (map field_form l)))].
Proof. done. Qed.

Lemma same_kind v w : same v w -> kind v = kind w.
Proof. by destruct 1. Qed.

Lemma decided_by_kind v : (forall w, kind v = kind w -> itf_value v = true -> itf_value w = true ->
  canonical v = canonical w <-> same v w) -> decided v.
Proof.
  intros H w Hv Hw. destruct (decide (kind v = kind w)) as [K|K]; [by apply H|].
  split; [by intros E%canonical_kind_eq|by intros E%same_kind].
Qed.

Lemma inert_entries l : itf_value (VMap l) = true -> Forall inert (map entry_form l).
Proof.
  cbn [itf_value]. rewrite forallb_Forall, Forall_map, !Forall_forall. intros H e He. specialize (H e He).
  apply andb_prop in H as [H1 H2]. apply inert_pair; by apply canonical_inert.
Qed.

Lemma decided_set l : Forall decided l -> decided (VSet l).
Proof.
  intros IH. apply decided_by_kind. intros w K Hv Hw. destruct w as [| | |l'| | | | | | | |]; try discriminate K.
  cbn [canonical itf_value] in *. rewrite JArr_singleton, sorted_eq.
  - rewrite (map_perm_Forall2 canonical same) by by apply decided_elements.
    split; [by intros (k & Hp & HF); econstructor|inversion 1; eauto].
  - apply canonical_list_inert; [|done]. apply Forall_forall. intros x _. apply canonical_inert.
Qed.

Lemma decided_map l : Forall (fun e => decided e.1 /\ decided e.2) l -> decided (VMap l).
Proof.
  intros IH. apply decided_by_kind. intros w K Hv Hw. destruct w as [| | | | | |l'| | | | |]; try discriminate K.
  cbn [canonical]. change (fun e : Value * Value => JArr [canonical e.1; canonical e.2]) with entry_form.
  rewrite JArr_singleton, sorted_eq by by apply inert_entries.
  rewrite (map_perm_Forall2 entry_form (fun e f => same e.1 f.1 /\ same e.2 f.2)) by by apply decided_entries.
  split; [by intros (k & Hp & HF); econstructor|inversion 1; eauto].
Qed.

Lemma decided_record l : Forall (fun e => decided e.2) l -> decided (VRecord l).
Proof.
  intros IH. apply decided_by_kind. intros w K Hv Hw. destruct w as [| | | | | | |l'| | | |]; try discriminate K.
  rewrite !record_form, JArr_singleton.
  assert (NoDup (map fst (map field_form l))) as Hnd.
  { rewrite field_names. cbn [itf_value] in Hv. apply andb_prop in Hv as [Hv _]. by apply no_dups_NoDup. }
  transitivity (map field_form l ≡ₚ map field_form l').
  { rewrite <-(by_name_eq _ _ Hnd). split; [|by intros ->]. apply named_inj. }
  rewrite (map_perm_Forall2 field_form (fun e f => e.1 = f.1 /\ same e.2 f.2)) by by apply decided_fields.
  split; [by intros (k & Hp & HF); econstructor|inversion 1; eauto].
Qed.

Lemma canonical_decides v : decided v.
Proof.
  induction v as [z|b|s|l IH|l IH|l IH|l IH|l IH|t v IH|s| |m] using Value_ind';
    [| | |by apply decided_set| | |by apply decided_map|by apply decided_record| | | |];
    apply decided_by_kind; intros w K Hv Hw; destruct w as [z'|b'|s'|l'|l'|l'|l'|l'|t' v'|s'| |m']; try discriminate K;
    cbn [canonical itf_value] in *; try discriminate Hv.
  - split; [intros [= ->%dec_of_Z_inj]; constructor|by inversion 1].
  - split; [intros [= ->]; constructor|by inversion 1].
  - split; [intros [= ->]; constructor|by inversion 1].
  - rewrite JArr_singleton, (map_eq_Forall2 canonical same) by by apply decided_elements. split; [by constructor|by inversion 1].
  - rewrite JArr_singleton, (map_eq_Forall2 canonical same) by by apply decided_elements. split; [by constructor|by inversion 1].
  - apply andb_prop in Hv as [_ Hv], Hw as [_ Hw]. specialize (IH v' Hv Hw).
    split; [intros [= -> E]; constructor; by apply IH|inversion 1; subst; by rewrite (proj2 IH)].
  - split; [intros [= ->]; constructor|by inversion 1].
  - split; [constructor|done].
Qed.

(** ** The limits of a copy *)

Definition nsum (l : list N) : N := foldr N.add 0%N l.

Fixpoint vnodes (v : Value) : N :=
  match v with
  | VSet l | VSeq l | VTuple l => 1 + nsum (map vnodes l)
  | VMap l => 1 + nsum (map (fun e => vnodes e.1 + vnodes e.2) l)
  | VRecord l => 1 + nsum (map (fun e => vnodes e.2) l)
  | VVariant _ v => 1 + vnodes v
  | _ => 1
  end%N.

Fixpoint vdepth (v : Value) : nat :=
  match v with
  | VSet l | VSeq l | VTuple l => list_max (map (fun v => S (vdepth v)) l)
  | VMap l => list_max (map (fun e => S (Nat.max (vdepth e.1) (vdepth e.2))) l)
  | VRecord l => list_max (map (fun e => S (vdepth e.2)) l)
  | VVariant _ v => S (vdepth v)
  | _ => 0
  end.

(** No set holds an element twice, no map a key. *)
Fixpoint no_repeats (v : Value) : bool :=
  match v with
  | VSet l => no_dups (map identity l) && forallb no_repeats l
  | VSeq l | VTuple l => forallb no_repeats l
  | VMap l => no_dups (map (fun e => identity e.1) l) && forallb (fun e => no_repeats e.1 && no_repeats e.2) l
  | VRecord l => forallb (fun e => no_repeats e.2) l
  | VVariant _ v => no_repeats v
  | VMessage _ => false
  | _ => true
  end.

Lemma unique_from_ok seen values path u :
  unique_from seen values path = Ok u <-> NoDup (map identity values) /\ Forall (fun v => identity v ∉ seen) values.
Proof.
  revert seen. induction values as [|v l IH]; intros seen; cbn [unique_from map].
  - destruct u. split; [|done]. intros _. by split; constructor.
  - rewrite NoDup_cons, Forall_cons. case_bool_decide as Hs; [split; [done|tauto]|]. rewrite IH.
    assert (Forall (fun w => identity w ∉ (identity v :: seen)) l <->
      (identity v ∉ map identity l) /\ Forall (fun w => identity w ∉ seen) l) as ->; [|tauto].
    rewrite !Forall_forall. split.
    + intros H. split; [|intros w Hw Hin; apply (H w Hw); by right].
      intros (w & E & Hw)%list_elem_of_fmap. apply (H w Hw). rewrite <-E. by left.
    + intros [Hv H] w Hw [E|Hin]%elem_of_cons; [|by apply (H w)]. apply Hv. rewrite <-E. by apply list_elem_of_fmap_2.
Qed.

Lemma unique_ok values path u : unique values path = Ok u <-> no_dups (map identity values) = true.
Proof.
  unfold unique. rewrite unique_from_ok, no_dups_NoDup. split; [tauto|]. intros H. split; [done|].
  apply Forall_forall. intros w _. apply not_elem_of_nil.
Qed.

Lemma node_ok d path n u n' : node d path n = Ok (u, n') <-> (0 < d)%nat /\ (n + 1 <= OPAQUE_ITF_MAX_NODES)%N /\ n' = (n + 1)%N.
Proof.
  unfold node. destruct (d =? 0)%nat eqn:Ed; [apply Nat.eqb_eq in Ed; cbn; split; [done|lia]|apply Nat.eqb_neq in Ed].
  cbn [orb]. destruct u, (OPAQUE_ITF_MAX_NODES <? n + 1)%N eqn:En; [apply N.ltb_lt in En|apply N.ltb_ge in En].
  - unfold itf_error. split; [done|lia].
  - split; [intros [= <-]; split_and!; [lia|done|done]|by intros (_ & _ & ->)].
Qed.

(** What a successful copy says of its result. *)
Definition copied (d : nat) (n n' : N) (v : Value) : Prop :=
  n' = (n + vnodes v)%N /\ (vdepth v < d)%nat /\ (n' <= OPAQUE_ITF_MAX_NODES)%N /\ no_repeats v = true.

Definition copied_list {A} (depth : A -> nat) (nodes : A -> N) (p : A -> bool) (d : nat) (n n' : N) (l : list A) : Prop :=
  n' = (n + nsum (map nodes l))%N /\ (list_max (map (fun x => S (depth x)) l) < S d)%nat /\ 
  ((n <= OPAQUE_ITF_MAX_NODES)%N -> (n' <= OPAQUE_ITF_MAX_NODES)%N) /\ forallb p l = true.

Lemma copied_list_nil {A} (depth : A -> nat) nodes p d n : copied_list depth nodes p d n n [].
Proof. split_and!; cbn; auto; lia. Qed.

Lemma copied_list_cons {A} (depth : A -> nat) nodes p d n n1 n2 (x : A) l :
  n1 = (n + nodes x)%N -> (depth x < d)%nat -> (n1 <= OPAQUE_ITF_MAX_NODES)%N -> p x = true ->
  copied_list depth nodes p d n1 n2 l -> copied_list depth nodes p d n n2 (x :: l).
Proof.
  intros -> Hd Hn Hp (-> & Hl & Hm & Hf). split_and!; [|change (Nat.max (S (depth x)) (list_max (map (fun x => S (depth x)) l)) < S d)%nat; lia|auto|cbn; by rewrite Hp].
  cbn [map nsum foldr]. change (foldr N.add 0%N (map nodes l)) with (nsum (map nodes l)). lia.
Qed.

Section mapMi_copied.
Context {X A : Type} (depth : A -> nat) (nodes : A -> N) (p : A -> bool) (d : nat) (f : N -> X -> stres N exn A).
Context (Hf : forall i x n a n', f i x n = Ok (a, n') ->
  n' = (n + nodes a)%N /\ (depth a < d)%nat /\ (n' <= OPAQUE_ITF_MAX_NODES)%N /\ p a = true).

Lemma mapMi_copied l i n l' n' : mapMi_from i f l n = Ok (l', n') -> copied_list depth nodes p d n n' l'.
Proof.
  revert i n l' n'. induction l as [|x l IH]; intros i n l' n' H; cbn [mapMi_from] in H.
  - injection H as <- <-. apply copied_list_nil.
  - apply stres_bind_Ok in H as (a & n1 & Ha & H). apply stres_bind_Ok in H as (as' & n2 & Has & H). injection H as <- <-.
    apply Hf in Ha as (Hn & Hd & Hm & Hp). eapply copied_list_cons; eauto.
Qed.
End mapMi_copied.

Lemma copied_leaf d n n1 u v path : node (S d) path n = Ok (u, n1) -> vnodes v = 1%N -> vdepth v = 0%nat -> no_repeats v = true ->
  copied (S d) n n1 v.
Proof. intros (_ & Hn & ->)%node_ok H1 H2 H3. split_and!; [by rewrite H1|lia|done|done]. Qed.

(** A container of elements that were copied one level down. *)
Lemma copied_container {A} (depth : A -> nat) nodes p (l : list A) d n n1 n2 u path v :
  node (S d) path n = Ok (u, n1) -> copied_list depth nodes p d n1 n2 l ->
  vnodes v = (1 + nsum (map nodes l))%N -> vdepth v = list_max (map (fun x => S (depth x)) l) ->
  no_repeats v = true -> copied (S d) n n2 v.
Proof.
  intros (_ & Hn & ->)%node_ok (-> & Hd & Hm & _) H1 H2 H3. split_and!; [rewrite H1; lia|by rewrite H2|apply Hm, Hn|done].
Qed.

Lemma fmap_stres_Ok {S E A B} (f : A -> B) (m : stres S E A) s b s' :
  (f <$> m) s = Ok (b, s') <-> exists a, m s = Ok (a, s') /\ b = f a.
Proof. unfold fmap, stres_fmap. destruct (m s) as [[a s1]|e]; naive_solver. Qed.

Section visit_copied.
Context (d : nat) (IH : forall x path n v n', visit d x path n = Ok (v, n') -> copied d n n' v).

Lemma visit_items_copied items path path' n l n' :
  (liftR (denseArray items path) ≫= mapMi (fun i item => visit d item (idx path' i))) n = Ok (l, n') ->
  copied_list vdepth vnodes no_repeats d n n' l.
Proof.
  intros (xs & n1 & [_ <-]%liftR_Ok & H)%stres_bind_Ok. eapply (mapMi_copied (X := js)); [|exact H].
  intros i x n0 a n2. cbn. apply IH.
Qed.

Definition entry_depth (e : Value * Value) : nat := Nat.max (vdepth e.1) (vdepth e.2).
Definition entry_nodes (e : Value * Value) : N := (vnodes e.1 + vnodes e.2)%N.
Definition entry_clean (e : Value * Value) : bool := no_repeats e.1 && no_repeats e.2.

Lemma visit_entries_copied xs path n l n' :
  mapMi (fun i item =>
    entry ← liftR (denseArray item (idx path i));
    match entry with
    | [k; v] =>
        key ← visit d k (dot (idx path i) "key");
        value ← visit d v (dot (idx path i) "value");
        mret (key, value)
    | _ => liftR (itf_error (idx path i) "expected map entry")
    end) xs n = Ok (l, n') ->
  copied_list entry_depth entry_nodes entry_clean d n n' l.
Proof.
  eapply mapMi_copied. clear xs n l n'. intros i x n a n' H. apply stres_bind_Ok in H as (xs & n1 & [_ <-]%liftR_Ok & H).
  destruct xs as [|k [|v [|]]]; try done. apply stres_bind_Ok in H as (key & n2 & (-> & Hk & _ & Rk)%IH & H).
  apply stres_bind_Ok in H as (value & n3 & (-> & Hv & Hm & Rv)%IH & H). injection H as <- <-.
  unfold entry_depth, entry_nodes, entry_clean. cbn [fst snd]. rewrite Rk, Rv. split_and!; [lia|lia|lia|done].
Qed.

Lemma visit_fields_copied xs path n l n' :
  mapMi (fun _ e => v ← visit d e.2 (path ++ $"." ++ e.1); mret (e.1, v)) xs n = Ok (l, n') ->
  copied_list (fun e : ustring * Value => vdepth e.2) (fun e => vnodes e.2) (fun e => no_repeats e.2) d n n' l.
Proof.
  eapply mapMi_copied. clear xs n l n'. intros i x n a n' H. apply stres_bind_Ok in H as (v & n1 & Hv & H). injection H as <- <-.
  by apply IH in Hv.
Qed.
End visit_copied.

Lemma copied_clean {A} (depth : A -> nat) nodes p d n n' l : copied_list depth nodes p d n n' l -> forallb p l = true.
Proof. by intros (_ & _ & _ & H). Qed.

Lemma visit_copied d x path n v n' : visit d x path n = Ok (v, n') -> copied d n n' v.
Proof.
  revert x path n v n'. induction d as [|d IH]; intros x path n v n' H; cbn [visit] in H.
  { apply stres_bind_Ok in H as (u & n1 & Hn%node_ok & _). lia. }
  apply stres_bind_Ok in H as (u & n1 & Hnode & H). apply stres_bind_Ok in H as (record & n2 & [_ <-]%liftR_Ok & H).
  apply stres_bind_Ok in H as (u' & n2 & [_ <-]%liftR_Ok & H). destruct (getf record ($"tag")) as [| | | | |t| |]; try done.
  destruct (t =s "null"); [injection H as <- <-; by eapply copied_leaf|].
  destruct (t =s "int"); [destruct (getf record ($"val")); try done; injection H as <- <-; by eapply copied_leaf|].
  destruct (t =s "bool"); [destruct (getf record ($"val")); try done; injection H as <- <-; by eapply copied_leaf|].
  destruct (t =s "str"); [destruct (getf record ($"val")); try done; injection H as <- <-; by eapply copied_leaf|].
  destruct (t =s "unserializable"); [destruct (getf record ($"val")); try done; injection H as <- <-; by eapply copied_leaf|].
  destruct (t =s "set").
  { apply stres_bind_Ok in H as (l & n2 & Hl%(visit_items_copied d IH) & H).
    apply stres_bind_Ok in H as (u'' & n3 & [Hu%unique_ok <-]%liftR_Ok & H). injection H as <- <-.
    eapply copied_container; [done..|]. cbn. by rewrite Hu, (copied_clean _ _ _ _ _ _ _ Hl). }
  destruct (t =s "seq").
  { apply fmap_stres_Ok in H as (l & Hl%(visit_items_copied d IH) & ->). eapply copied_container; [done..|].
    by apply (copied_clean _ _ _ _ _ _ _ Hl). }
  destruct (t =s "tuple").
  { apply fmap_stres_Ok in H as (l & Hl%(visit_items_copied d IH) & ->). eapply copied_container; [done..|].
    by apply (copied_clean _ _ _ _ _ _ _ Hl). }
  destruct (t =s "record").
  { apply stres_bind_Ok in H as (source & n2 & [_ <-]%liftR_Ok & H).
    apply stres_bind_Ok in H as (l & n3 & Hl%(visit_fields_copied d IH) & H). injection H as <- <-.
    eapply copied_container; [done..|]. by apply (copied_clean _ _ _ _ _ _ _ Hl). }
  destruct (t =s "map").
  { apply stres_bind_Ok in H as (entries & n2 & [_ <-]%liftR_Ok & H).
    apply stres_bind_Ok in H as (l & n3 & Hl%(visit_entries_copied d IH) & H).
    apply stres_bind_Ok in H as (u'' & n4 & [Hu%unique_ok <-]%liftR_Ok & H). injection H as <- <-.
    eapply copied_container; [done..|]. cbn [no_repeats]. rewrite map_map in Hu. rewrite Hu. by apply (copied_clean _ _ _ _ _ _ _ Hl). }
  destruct (t =s "variant"); [|done]. destruct (getf record ($"variantTag")) as [| | | | |tag| |]; try done.
  apply fmap_stres_Ok in H as (w & (-> & Hd & Hm & Hr)%IH & ->). apply node_ok in Hnode as (_ & _ & ->).
  split_and!; [cbn; lia|cbn; lia|done|done].
Qed.

(** ** Copies of values *)

Section mapMi_exact.
Context {X A : Type} (depth : A -> nat) (nodes : A -> N) (p : A -> bool) (d : nat) (f : N -> X -> stres N exn A) (g : A -> X).

Definition exact_at (x : A) : Prop := forall i n a n', f i (g x) n = Ok (a, n') <->
  a = x /\ n' = (n + nodes x)%N /\ (depth x < d)%nat /\ (n' <= OPAQUE_ITF_MAX_NODES)%N /\ p x = true.

Lemma mapMi_exact l : Forall exact_at l -> forall i n l' n', (n <= OPAQUE_ITF_MAX_NODES)%N ->
  mapMi_from i f (map g l) n = Ok (l', n') <-> l' = l /\ copied_list depth nodes p d n n' l.
Proof.
  induction 1 as [|x l Hx _ IH]; intros i n l' n' Hn; cbn [map mapMi_from].
  - split; [intros [= <- <-]; split; [done|apply copied_list_nil]|]. intros (-> & -> & _). by rewrite N.add_0_r.
  - rewrite stres_bind_Ok. split.
    + intros (a & n1 & Ha & H). apply Hx in Ha as (-> & -> & Hd & Hm & Hp).
      apply stres_bind_Ok in H as (as' & n2 & Has & H). injection H as <- <-. apply IH in Has as [-> Hl]; [|done].
      split; [done|]. eapply copied_list_cons; eauto.
    + intros (-> & Hn' & Hd & Hm & Hp). specialize (Hm Hn). cbn [forallb] in Hp. apply andb_prop in Hp as [Hp1 Hp2].
      change (Nat.max (S (depth x)) (list_max (map (fun x => S (depth x)) l)) < S d)%nat in Hd.
      change (n' = (n + (nodes x + nsum (map nodes l)))%N) in Hn'.
      exists x, (n + nodes x)%N. split; [apply Hx; split_and!; [done|done|lia|lia|done]|].
      apply stres_bind_Ok. exists l, n'. split; [|done]. apply IH; [lia|]. split; [done|]. split_and!; [lia|lia|lia|done].
Qed.
End mapMi_exact.

Definition exact (v : Value) : Prop := forall d path n w n', visit d (value_object v) path n = Ok (w, n') <->
  w = v /\ copied d n n' v.

Lemma exact_leaf v : (forall d path n, visit (S d) (value_object v) path n = (_ ← node (S d) path; mret v) n) ->
  vnodes v = 1%N -> vdepth v = 0%nat -> no_repeats v = true -> exact v.
Proof.
  intros H H1 H2 H3 [|d] path n w n'.
  { unfold copied. split; [intros (? & ? & ?%node_ok & _)%stres_bind_Ok; lia|lia]. }
  rewrite H, stres_bind_Ok. unfold copied. rewrite H1, H2. split.
  - intros (u & n1 & (_ & Hn & ->)%node_ok & E). injection E as <- <-. split_and!; [done|done|lia|done|done].
  - intros (-> & -> & _ & Hm & _). exists tt, (n + 1)%N. split; [|done]. apply node_ok. lia.
Qed.

(** Containers: the elements, one level down, and a check of the result. *)
Lemma exact_container {A} (depth : A -> nat) nodes (p : A -> bool) (l : list A) (c : list A -> Value) (ok : list A -> bool)
    (items : nat -> ustring -> stres N exn (list A)) :
  (forall d path n w n', visit (S d) (value_object (c l)) path n = Ok (w, n') <->
     exists u n1 l', node (S d) path n = Ok (u, n1) /\ items d path n1 = Ok (l', n') /\ ok l' = true /\ w = c l') ->
  (forall d path n l' n', (n <= OPAQUE_ITF_MAX_NODES)%N ->
     items d path n = Ok (l', n') <-> l' = l /\ copied_list depth nodes p d n n' l) ->
  vnodes (c l) = (1 + nsum (map nodes l))%N -> vdepth (c l) = list_max (map (fun x => S (depth x)) l) ->
  no_repeats (c l) = ok l && forallb p l -> exact (c l).
Proof.
  intros Hvisit Hitems H1 H2 H3 [|d] path n w n'.
  { unfold copied. split; [|lia]. cbn [visit]. intros (? & ? & ?%node_ok & _)%stres_bind_Ok. lia. }
  rewrite Hvisit. unfold copied. rewrite H1, H2, H3. split.
  - intros (u & n1 & l' & (_ & Hn & ->)%node_ok & Hl%Hitems & Hok & ->); [|done]. destruct Hl as (-> & -> & Hd & Hm & Hp).
    rewrite Hok, Hp. split_and!; [done|lia|done|by apply Hm|done].
  - intros (-> & -> & Hd & Hm & [Hok Hp]%andb_prop). exists tt, (n + 1)%N, l. split_and!; [apply node_ok; lia| |done|done].
    apply Hitems; [lia|]. split; [done|]. split_and!; [lia|done|lia|done].
Qed.

Lemma exact_elements l : Forall exact l -> forall d path path' n l' n', (n <= OPAQUE_ITF_MAX_NODES)%N ->
  (liftR (denseArray (JArr (map value_object l)) path) ≫= mapMi (fun i item => visit d item (idx path' i))) n = Ok (l', n') <->
  l' = l /\ copied_list vdepth vnodes no_repeats d n n' l.
Proof.
  intros Hl d path path' n l' n' Hn. transitivity (mapMi_from 0 (fun i item => visit d item (idx path' i)) (map value_object l) n = Ok (l', n')); [done|].
  apply mapMi_exact; [|done]. eapply Forall_impl; [exact Hl|]. intros x Hx i m a m'. apply Hx.
Qed.

Lemma exact_list (c : list Value -> Value) (ok : list Value -> bool) l : Forall exact l ->
  (forall d path n w n', visit (S d) (value_object (c l)) path n = Ok (w, n') <->
     exists u n1 l', node (S d) path n = Ok (u, n1) /\
       (liftR (denseArray (JArr (map value_object l)) (dot path "val")) ≫= mapMi (fun i item => visit d item (idx path i))) n1 = Ok (l', n') /\
       ok l' = true /\ w = c l') ->
  vnodes (c l) = (1 + nsum (map vnodes l))%N -> vdepth (c l) = list_max (map (fun x => S (vdepth x)) l) ->
  no_repeats (c l) = ok l && forallb no_repeats l -> exact (c l).
Proof.
  intros Hl Hv H1 H2 H3. eapply (exact_container vdepth vnodes no_repeats l c ok); [exact Hv| |done..].
  intros. by apply exact_elements.
Qed.

Lemma exact_set l : Forall exact l -> exact (VSet l).
Proof.
  intros Hl. apply (exact_list VSet (fun l => no_dups (map identity l)) l Hl); [|done..]. intros d path n w n'.
  transitivity ((_ ← node (S d) path;
    vals ← liftR (denseArray (JArr (map value_object l)) (dot path "val")) ≫= mapMi (fun i item => visit d item (idx path i));
    _ ← liftR (unique vals path); mret (VSet vals)) n = Ok (w, n')); [done|]. rewrite stres_bind_Ok. split.
  - intros (u & n1 & Hn & (l' & n2 & Hl' & (u' & n3 & [Hu%unique_ok <-]%liftR_Ok & E)%stres_bind_Ok)%stres_bind_Ok).
    injection E as <- <-. eauto 10.
  - intros (u & n1 & l' & Hn & Hl' & Hu & ->). exists u, n1. split; [done|]. apply stres_bind_Ok. exists l', n'. split; [done|].
    apply stres_bind_Ok. exists tt, n'. split; [|done]. apply liftR_Ok. split; [by apply unique_ok|done].
Qed.

Lemma exact_plain (c : list Value -> Value) l : Forall exact l ->
  (forall d path, visit (S d) (value_object (c l)) path = (_ ← node (S d) path;
    c <$> (liftR (denseArray (JArr (map value_object l)) (dot path "val")) ≫= mapMi (fun i item => visit d item (idx path i))))) ->
  vnodes (c l) = (1 + nsum (map vnodes l))%N -> vdepth (c l) = list_max (map (fun x => S (vdepth x)) l) ->
  no_repeats (c l) = forallb no_repeats l -> exact (c l).
Proof.
  intros Hl Hv. apply (exact_list c (fun _ => true) l Hl). intros d path n w n'. rewrite Hv, stres_bind_Ok.
  setoid_rewrite fmap_stres_Ok. naive_solver.
Qed.

Lemma exact_map l : Forall (fun e => exact e.1 /\ exact e.2) l -> exact (VMap l).
Proof.
  intros Hl. set (form := fun e : Value * Value => JArr [value_object e.1; value_object e.2]).
  set (step := fun d path => (fun (i : N) (item : js) =>
    entry ← liftR (denseArray item (idx path i));
    match entry with
    | [k; v] =>
        key ← visit d k (dot (idx path i) "key");
        value ← visit d v (dot (idx path i) "value");
        mret (key, value)
    | _ => liftR (itf_error (idx path i) "expected map entry")
    end) : N -> js -> stres N exn (Value * Value)).
  apply (exact_container entry_depth entry_nodes entry_clean l VMap (fun l => no_dups (map (fun e => identity e.1) l))
    (fun d path => mapMi (step d path) (map form l))); [| |done..].
  - intros d path n w n'. transitivity ((_ ← node (S d) path; vals ← mapMi (step d path) (map form l);
      _ ← liftR (unique (map fst vals) path); mret (VMap vals)) n = Ok (w, n')); [done|]. rewrite stres_bind_Ok. split.
    + intros (u & n1 & Hn & (l' & n2 & Hl' & (u' & n3 & [Hu%unique_ok <-]%liftR_Ok & E)%stres_bind_Ok)%stres_bind_Ok).
      injection E as <- <-. rewrite map_map in Hu. eauto 10.
    + intros (u & n1 & l' & Hn & Hl' & Hu & ->). exists u, n1. split; [done|]. apply stres_bind_Ok. exists l', n'. split; [done|].
      apply stres_bind_Ok. exists tt, n'. split; [|done]. apply liftR_Ok. split; [|done]. apply unique_ok. by rewrite map_map.
  - intros d path n l' n' Hn. apply mapMi_exact; [|done]. eapply Forall_impl; [exact Hl|]. intros [k v] [Hk Hv] i m a m'.
    transitivity ((key ← visit d (value_object k) (dot (idx path i) "key");
      value ← visit d (value_object v) (dot (idx path i) "value"); mret (key, value)) m = Ok (a, m')); [done|].
    rewrite stres_bind_Ok. unfold entry_nodes, entry_depth, entry_clean. cbn [fst snd] in *. split.
    + intros (k' & m1 & (-> & -> & Hdk & Hmk & Hpk)%Hk & (v' & m2 & (-> & -> & Hdv & Hmv & Hpv)%Hv & E)%stres_bind_Ok).
      injection E as <- <-. rewrite Hpk, Hpv. split_and!; [done|lia|lia|done|done].
    + intros (-> & -> & Hd & Hm & [Hpk Hpv]%andb_prop). exists k, (m + vnodes k)%N. split.
      { apply Hk. split; [done|]. unfold copied. split_and!; [done|lia|lia|done]. }
      apply stres_bind_Ok. exists v, (m + (vnodes k + vnodes v))%N. split; [|done].
      apply Hv. split; [done|]. unfold copied. split_and!; [lia|lia|done|done].
Qed.

Lemma exact_record l : Forall (fun e => exact e.2) l -> exact (VRecord l).
Proof.
  intros Hl. set (form := fun e : ustring * Value => (e.1, value_object e.2)).
  apply (exact_container (fun e => vdepth e.2) (fun e => vnodes e.2) (fun e => no_repeats e.2) l VRecord (fun _ => true)
    (fun d path => mapMi (fun _ e => v ← visit d e.2 (path ++ $"." ++ e.1); mret (e.1, v)) (map form l))); [| |done..].
  - intros d path n w n'. transitivity ((_ ← node (S d) path;
      fields ← mapMi (fun _ e => v ← visit d e.2 (path ++ $"." ++ e.1); mret (e.1, v)) (map form l);
      mret (VRecord fields)) n = Ok (w, n')); [done|]. rewrite stres_bind_Ok. split.
    + intros (u & n1 & Hn & (l' & n2 & Hl' & E)%stres_bind_Ok). injection E as <- <-. eauto 10.
    + intros (u & n1 & l' & Hn & Hl' & _ & ->). exists u, n1. split; [done|]. apply stres_bind_Ok. exists l', n'. by split.
  - intros d path n l' n' Hn. apply mapMi_exact; [|done]. eapply Forall_impl; [exact Hl|]. intros [k v] Hv i m a m'.
    cbn [form fst snd] in *. rewrite stres_bind_Ok. split.
    + intros (v' & m1 & (-> & -> & H)%Hv & E). injection E as <- <-. done.
    + intros (-> & -> & H). exists v, (m + vnodes v)%N. split; [|done]. apply Hv. split; [done|]. by split.
Qed.

Lemma exact_variant t v : exact v -> exact (VVariant t v).
Proof.
  intros Hv [|d] path n w n'.
  { unfold copied. split; [|lia]. cbn [visit]. intros (? & ? & ?%node_ok & _)%stres_bind_Ok. lia. }
  transitivity ((_ ← node (S d) path; VVariant t <$> visit d (value_object v) (dot path "value")) n = Ok (w, n')); [done|].
  rewrite stres_bind_Ok. unfold copied. cbn [vnodes vdepth no_repeats]. split.
  - intros (u & n1 & (_ & Hn & ->)%node_ok & (v' & (-> & -> & Hd & Hm & Hp)%Hv & ->)%fmap_stres_Ok). split_and!; [done|lia|lia|done|done].
  - intros (-> & -> & Hd & Hm & Hp). exists tt, (n + 1)%N. split; [apply node_ok; lia|]. apply fmap_stres_Ok. exists v.
    split; [|done]. apply Hv. unfold copied. split_and!; [done|lia|lia|done|done].
Qed.

Lemma visit_exact v : exact v.
Proof.
  induction v as [z|b|s|l IH|l IH|l IH|l IH|l IH|t v IH|s| |m] using Value_ind'; [by apply exact_leaf..| | | | | | | | |].
  - by apply exact_set.
  - by apply exact_plain.
  - by apply exact_plain.
  - by apply exact_map.
  - by apply exact_record.
  - by apply exact_variant.
  - by apply exact_leaf.
  - by apply exact_leaf.
  - intros d path n w n'. split; [|by intros (_ & _ & _ & _ & ?)]. destruct d as [|d]; cbn [visit].
    + intros (? & ? & ?%node_ok & _)%stres_bind_Ok. lia.
    + by intros (? & ? & _ & ?)%stres_bind_Ok.
Qed.

(** A value within the limits whose sets and maps hold nothing twice. *)
Definition itf_limits (v : Value) : Prop :=
  (vdepth v <= OPAQUE_ITF_MAX_DEPTH)%nat /\ (vnodes v <= OPAQUE_ITF_MAX_NODES)%N /\ no_repeats v = true.

Lemma copied_limits n' v : copied (S OPAQUE_ITF_MAX_DEPTH) 0 n' v <-> n' = vnodes v /\ itf_limits v.
Proof. unfold copied, itf_limits. rewrite N.add_0_l. split; [intros (-> & ? & ? & ?)|intros (-> & ? & ? & ?)]; split_and!; try done; lia. Qed.

Lemma snapshot_value_ok v w : snapshot_value v = Ok w <-> w = v /\ itf_limits v.
Proof.
  unfold snapshot_value, snapshotItfValue. rewrite fmap_Ok. split.
  - intros ([w' n'] & [-> [_ H]%copied_limits]%visit_exact & ->). done.
  - intros [-> H]. exists (v, vnodes v). split; [|done]. apply visit_exact. split; [done|]. by apply copied_limits.
Qed.

Lemma snapshot_limits x v : snapshotItfValue x = Ok v -> itf_limits v.
Proof. unfold snapshotItfValue. intros ([v' n'] & [_ H]%visit_copied%copied_limits & ->)%fmap_Ok. done. Qed.

(** The checked copy accepts a value of the protocol exactly when it is at most 64
    levels deep, has at most 10000 nodes and no set element or map key twice, and then
    it is the value itself; whatever data it is given, a value it returns is within
    these limits, so that it is accepted again, unchanged. *)
Theorem snapshot_exact :
  (forall v w, snapshot_value v = Ok w <-> w = v /\ itf_limits v) /\
  (forall x v, snapshotItfValue x = Ok v -> itf_limits v /\ snapshot_value v = Ok v).
Proof.
  split; [apply snapshot_value_ok|]. intros x v H%snapshot_limits. split; [done|]. by apply snapshot_value_ok.
Qed.

Lemma identity_eq v w : itf_value v = true -> itf_value w = true -> identity v = identity w <-> same v w.
Proof.
  intros Hv Hw. rewrite <-(canonical_decides v w Hv Hw). unfold identity. split; [|by intros ->].
  apply text_of_inj; by apply canonical_inert.
Qed.

(** C32: the identity of checked values decides their equality: two values get the same
    text exactly when they are equal up to the order of sets, of map entries and of
    record fields, at every depth. *)
Theorem identity_decides_equality (v w : Value) (i j : ustring) (Hv : itf_value v = true) (Hw : itf_value w = true)
    (Hi : itfValueIdentity v = Ok i) (Hj : itfValueIdentity w = Ok j) :
  i = j <-> same v w.
Proof.
  unfold itfValueIdentity in *. apply fmap_Ok in Hi as (v' & [-> _]%snapshot_value_ok & ->).
  apply fmap_Ok in Hj as (w' & [-> _]%snapshot_value_ok & ->). by apply identity_eq.
Qed.

Definition sample_itf (first second : Z) : Value :=
  VRecord [($"queue", VSet [VTuple [VInt first; VStr ($"a")]; VTuple [VInt second; VStr ($"a")]]);
           ($"owner", VVariant ($"Some") (VMap [(VBool true, VNull)]))].

Example identity_decides_equality_witness :
  identity (sample_itf 1 2) = identity (sample_itf 2 1) <-> same (sample_itf 1 2) (sample_itf 2 1).
Proof.
  apply (identity_decides_equality (sample_itf 1 2) (sample_itf 2 1)); vm_compute; reflexivity.
Defined.
