(* ===== verification/NativeCodec.v ===== *)
(** * Native values and protocol values

    The codec of [src/src/dynamic-binding.ts]: values of literals and paths
    ([literalValue], [readPath]), and the conversions between the values of the
    protocol and the native values of handlers ([decodeNative], [encodeNative]),
    directed by a structural type. *)

From S2P Require Import Prelude JsNumber Utf16 JsData StrictJson Decode JsText ModelTypes Protocol OpaqueItf.

(** What a handler receives and what an observation returns. The last three
    constructors are outside the type of the source, but a handler may return them:
    a promise, a function, and undefined, a number or a symbol. *)
Inductive native :=
| NBig (z : Z)
| NBool (b : bool)
| NStr (s : ustring)
| NNull
| NArr (l : list native)
| NObj (o : list (ustring * native))
| NOpaque (o : OpaqueItfValue)
| NPromise
| NFunction
| NUndefined
| NOtherPrimitive.

Definition plain_error {A} (path msg : ustring) : res exn A := Err (Exn XError (path ++ $": " ++ msg)).

(** ** Shared checks *)

Definition own {A} (o : list (ustring * A)) (k : ustring) : option A := snd <$> List.find (fun e => bool_decide (k = e.1)) o.

(** The own properties of an object that is neither an array nor opaque. *)
Definition ownRecord (value : native) : option (list (ustring * native)) :=
  match value with NObj o => Some o | NPromise => Some [] | _ => None end.

Definition sorted_names (l : list ustring) : list ustring := sort_by compare_lists l.

Definition exactKeys {A} (value : list (ustring * A)) (expected : list ustring) (path : ustring) : res exn unit :=
  let actual := sorted_names (map fst value) in
  let wanted := sorted_names expected in
  if bool_decide (actual = wanted) then Ok tt
  else plain_error path ($"expected keys [" ++ join ($", ") wanted ++ $"], got [" ++ join ($", ") actual ++ $"]").

Fixpoint assertUniqueFrom (seen : list ustring) (values : list Value) (path : ustring) : res exn unit :=
  match values with
  | [] => Ok tt
  | value :: rest =>
      identity ← itfValueIdentity value;
      if bool_decide (identity ∈ seen) then plain_error path ($"duplicate set element or map key")
      else assertUniqueFrom (identity :: seen) rest path
  end.

Definition assertUniqueValues (values : list Value) (path : ustring) : res exn unit := assertUniqueFrom [] values path.

(** ** Literals and paths *)

(** The fields of a record literal, one after the other. *)
Fixpoint literal_fields (fields : list (ustring * res exn Value)) (val : State) : res exn State :=
  match fields with
  | [] => Ok val
  | (name, value) :: rest =>
      if bool_decide (name ∈ map fst val) then plain_error ($"mapKey") ($"duplicate record field " ++ name)
      else v ← value; literal_fields rest (obj_set val name v)
  end.

Fixpoint literalValue (literal : CanonicalItfLiteral) : res exn Value :=
  match literal with
  | LInt value => VInt <$> BigInt_of_string value
  | LBool value => Ok (VBool value)
  | LStr value => Ok (VStr value)
  | LNull => Ok VNull
  | LSet values => val ← mapM literalValue values; _ ← assertUniqueValues val ($"mapKey"); mret (VSet val)
  | LSeq values => VSeq <$> mapM literalValue values
  | LTuple values => VTuple <$> mapM literalValue values
  | LRecord fields => VRecord <$> literal_fields (map (fun f => (f.1, literalValue f.2)) fields) []
  | LMap entries =>
      val ← mapM (fun e => k ← literalValue e.1; v ← literalValue e.2; mret (k, v)) entries;
      _ ← assertUniqueValues (map fst val) ($"mapKey");
      mret (VMap val)
  | LVariant tag payload => VVariant tag <$> literalValue payload
  end.

(** The first entry whose key has the identity. *)
Fixpoint find_key (expected : ustring) (entries : list (Value * Value)) : res exn (option Value) :=
  match entries with
  | [] => Ok None
  | (key, value) :: rest =>
      identity ← itfValueIdentity key;
      if bool_decide (identity = expected) then Ok (Some value) else find_key expected rest
  end.

Definition readSegment (value : Value) (segment : ContractPathSegment) (label : ustring) : res exn Value :=
  match segment with
  | PField field =>
      match value with
      | VRecord val =>
          match own val field with Some v => Ok v | None => plain_error label ($"missing record field " ++ field) end
      | _ => plain_error label ($"missing record field " ++ field)
      end
  | PIndex index =>
      match value with
      | VSeq val | VTuple val =>
          match val !! Z.to_nat index with Some v => Ok v | None => plain_error label ($"missing index " ++ dec_of_Z index) end
      | _ => plain_error label ($"missing index " ++ dec_of_Z index)
      end
  | PVariantValue tag =>
      match value with
      | VVariant variantTag v =>
          if bool_decide (variantTag = tag) then Ok v else plain_error label ($"expected variant " ++ tag)
      | _ => plain_error label ($"expected variant " ++ tag)
      end
  | PMapKey mapKey =>
      match value with
      | VMap val =>
          _ ← assertUniqueValues (map fst val) label;
          literal ← literalValue mapKey;
          expected ← itfValueIdentity literal;
          found ← find_key expected val;
          match found with Some v => Ok v | None => plain_error label ($"map key is absent") end
      | _ => plain_error label ($"mapKey requires a map")
      end
  end.

Fixpoint readFrom (value : Value) (path : list ContractPathSegment) (label : ustring) : res exn Value :=
  match path with
  | [] => Ok value
  | segment :: rest => v ← readSegment value segment label; readFrom v rest label
  end.

Definition readPath (root : State) (path : list ContractPathSegment) (label : ustring) : res exn Value :=
  readFrom (VRecord root) path label.

(** ** Decoding *)

Definition shape_name (shape : ModelType) : ustring :=
  match shape with
  | TInt => $"int" | TBool => $"bool" | TStr => $"str" | TNull => $"null" | TSet _ => $"set" | TSeq _ => $"seq"
  | TTuple _ => $"tuple" | TRecord _ => $"record" | TMap _ _ => $"map" | TVariant _ => $"variant"
  | TOpaqueItf _ => $"opaqueItf"
  end.

(** Each element with the conversion at its place; the lists have one length. *)
Fixpoint convert_each {A B} (conversions : list (A -> ustring -> res exn B)) (i : N) (values : list A) (path : ustring)
    : res exn (list B) :=
  match conversions, values with
  | f :: conversions', x :: values' =>
      y ← f x (idx path i); ys ← convert_each conversions' (N.succ i) values' path; mret (y :: ys)
  | _, _ => Ok []
  end.

(** Each field of the shape, read from the object and written in the shape's order. *)
Fixpoint convert_fields {A B} (missing : A) (fields : list (ustring * (A -> ustring -> res exn B))) (source : list (ustring * A))
    (path : ustring) (result : list (ustring * B)) : res exn (list (ustring * B)) :=
  match fields with
  | [] => Ok result
  | (wireName, f) :: rest =>
      y ← f (default missing (own source wireName)) (path ++ $"." ++ wireName);
      convert_fields missing rest source path (obj_set result wireName y)
  end.

Fixpoint decodeNative (shape : ModelType) (value : Value) (path : ustring) : res exn native :=
  let mismatch := plain_error path ($"value does not match " ++ shape_name shape) in
  match shape with
  | TInt => match value with VInt val => Ok (NBig val) | _ => mismatch end
  | TBool => match value with VBool val => Ok (NBool val) | _ => mismatch end
  | TStr => match value with VStr val => Ok (NStr val) | _ => mismatch end
  | TNull => match value with VNull => Ok NNull | _ => mismatch end
  | TSet element =>
      match value with
      | VSet val =>
          _ ← assertUniqueValues val path;
          NArr <$> mapMi (fun i item => decodeNative element item (idx path i)) val
      | _ => mismatch
      end
  | TSeq element =>
      match value with
      | VSeq val => NArr <$> mapMi (fun i item => decodeNative element item (idx path i)) val
      | _ => mismatch
      end
  | TTuple elements =>
      match value with
      | VTuple val =>
          if (length val =? length elements)%nat
          then NArr <$> convert_each (map (fun t => decodeNative t) elements) 0 val path
          else mismatch
      | _ => mismatch
      end
  | TRecord fields =>
      match value with
      | VRecord val =>
          _ ← exactKeys val (map fst fields) path;
          NObj <$> convert_fields VNull (map (fun f => (f.1, decodeNative f.2)) fields) val path []
      | _ => mismatch
      end
  | TMap keyType valueType =>
      match value with
      | VMap val =>
          _ ← assertUniqueValues (map fst val) path;
          NArr <$> mapMi (fun i e =>
            k ← decodeNative keyType e.1 (dot (idx path i) "key");
            v ← decodeNative valueType e.2 (dot (idx path i) "value");
            mret (NArr [k; v])) val
      | _ => mismatch
      end
  | TVariant cases =>
      match value with
      | VVariant variantTag v =>
          match own (map (fun c => (c.1, decodeNative c.2)) cases) variantTag with
          | Some decode => n ← decode v (dot path "value"); mret (NObj [($"tag", NStr variantTag); ($"value", n)])
          | None => mismatch
          end
      | _ => mismatch
      end
  | TOpaqueItf _ => NOpaque <$> opaqueItfValue value
  end.

(** ** Encoding *)

Fixpoint encodeNative (shape : ModelType) (value : native) (path : ustring) : res exn Value :=
  let mismatch := plain_error path ($"implementation value does not match " ++ shape_name shape) in
  match shape with
  | TInt => match value with NBig z => Ok (VInt z) | _ => mismatch end
  | TBool => match value with NBool b => Ok (VBool b) | _ => mismatch end
  | TStr => match value with NStr s => Ok (VStr s) | _ => mismatch end
  | TNull => match value with NNull => Ok VNull | _ => mismatch end
  | TSet element =>
      match value with
      | NArr items =>
          val ← mapMi (fun i item => encodeNative element item (idx path i)) items;
          _ ← assertUniqueValues val path;
          mret (VSet val)
      | _ => mismatch
      end
  | TSeq element =>
      match value with
      | NArr items => VSeq <$> mapMi (fun i item => encodeNative element item (idx path i)) items
      | _ => mismatch
      end
  | TTuple elements =>
      match value with
      | NArr items =>
          if (length items =? length elements)%nat
          then VTuple <$> convert_each (map (fun t => encodeNative t) elements) 0 items path
          else mismatch
      | _ => mismatch
      end
  | TRecord fields =>
      match ownRecord value with
      | Some record =>
          _ ← exactKeys record (map fst fields) path;
          VRecord <$> convert_fields NUndefined (map (fun f => (f.1, encodeNative f.2)) fields) record path []
      | None => mismatch
      end
  | TMap keyType valueType =>
      match value with
      | NArr items =>
          val ← mapMi (fun i item =>
            match item with
            | NArr [k; v] =>
                key ← encodeNative keyType k (dot (idx path i) "key");
                value ← encodeNative valueType v (dot (idx path i) "value");
                mret (key, value)
            | _ => plain_error (idx path i) ($"expected map entry")
            end) items;
          _ ← assertUniqueValues (map fst val) path;
          mret (VMap val)
      | _ => mismatch
      end
  | TVariant cases =>
      match ownRecord value with
      | Some variant =>
          match own variant ($"tag") with
          | Some (NStr tag) =>
              _ ← exactKeys variant [$"tag"; $"value"] path;
              match own (map (fun c => (c.1, encodeNative c.2)) cases) tag with
              | Some encode => VVariant tag <$> encode (default NUndefined (own variant ($"value"))) (dot path "value")
              | None => mismatch
              end
          | _ => mismatch
          end
      | None => mismatch
      end
  | TOpaqueItf _ =>
      match value with
      | NOpaque o => OpaqueItfValue_encode o
      | _ => Err (Exn XError ($"opaqueItf requires an OpaqueItfValue wrapper"))
      end
  end.

Example codec_examples :
  let shape := TRecord [($"owner", TVariant [($"Some", TStr); ($"None", TNull)]); ($"queue", TMap TInt (TSet TInt))] in
  let value := VRecord [($"queue", VMap [(VInt 3, VSet [VInt 1; VInt 2])]); ($"owner", VVariant ($"Some") (VStr ($"a")))] in
  (native ← decodeNative shape value ($"x"); encodeNative shape native ($"x")) =
    Ok (VRecord [($"owner", VVariant ($"Some") (VStr ($"a"))); ($"queue", VMap [(VInt 3, VSet [VInt 1; VInt 2])])]) /\
  encodeNative (TSet TInt) (NArr [NBig 1; NBig 1]) ($"x") = Err (Exn XError ($"x: duplicate set element or map key")).
Proof. vm_compute. done. Qed.
