(* ===== verification/CodecFacts.v ===== *)
(** * The codec keeps values

    Decoding a value of the protocol and encoding the native value gives the value
    back, up to the order of record fields; decoding succeeds exactly on the values of
    the type, and an encoded value is of the type. *)

From S2P Require Import Prelude JsNumber Utf16 JsData StrictJson StrictJsonFacts StrictJsonRoundtrip Decode JsText JsonText ModelTypes Protocol ProtocolFacts OpaqueItf OpaqueFacts NativeCodec.

(** ** Equal values have equal measures *)

#[export] Instance nsum_perm : Proper ((≡ₚ) ==> eq) nsum.
Proof.
  intros l l' H. induction H as [|x l l' _ IH|x y l|l1 l2 l3 _ IH1 _ IH2]; unfold nsum in *; cbn; [done|by rewrite IH|lia|congruence].
Qed.

#[export] Instance list_max_perm : Proper ((≡ₚ) ==> eq) list_max.
Proof.
  intros l l' H. induction H as [|x l l' _ IH|x y l|l1 l2 l3 _ IH1 _ IH2]; unfold list_max in *; cbn; [done|by rewrite IH|lia|congruence].
Qed.

Lemma no_dups_perm {A} `{EqDecision A} (l l' : list A) : l ≡ₚ l' -> no_dups l = no_dups l'.
Proof. intros H. apply eq_iff_eq_true. rewrite !no_dups_NoDup. by rewrite H. Qed.

Lemma forallb_map {A B} (f : A -> B) (p : B -> bool) l : forallb p (map f l) = forallb (fun x => p (f x)) l.
Proof. induction l as [|x l IH]; cbn; [done|by rewrite IH]. Qed.

(** What [same] keeps. *)
Definition alike (v w : Value) : Prop :=
  itf_value w = true /\ vnodes w = vnodes v /\ vdepth w = vdepth v /\ no_repeats w = no_repeats v.

Definition keeps (v : Value) : Prop := forall w, itf_value v = true -> same v w -> alike v w /\ identity w = identity v.

Lemma keeps_identity v : (forall w, itf_value v = true -> same v w -> alike v w) -> keeps v.
Proof. intros H w Hv S. pose proof (H w Hv S) as Ha. split; [done|]. symmetry. apply identity_eq; [done|apply Ha|done]. Qed.

Lemma Forall2_zip_eq {A B C} (R : A -> B -> Prop) (f : A -> C) (g : B -> C) l l' :
  Forall2 R l l' -> (forall x y, x ∈ l -> R x y -> g y = f x) -> map g l' = map f l.
Proof.
  induction 1 as [|x y l l' Hxy _ IH]; intros H; cbn; [done|]. rewrite (H x y) by (done || by left). f_equal. apply IH.
  intros a b Ha. apply H. by right.
Qed.

Lemma keeps_elements l k l' : Forall keeps l -> l ≡ₚ k -> forallb itf_value l = true -> Forall2 same k l' ->
  forallb itf_value l' = true /\ map vnodes l' = map vnodes k /\ map vdepth l' = map vdepth k /\
  map no_repeats l' = map no_repeats k /\ map identity l' = map identity k.
Proof.
  intros Hl Hp Hi HF. rewrite forallb_Forall in Hi. rewrite Hp in Hl, Hi.
  assert (forall x y, x ∈ k -> same x y -> alike x y /\ identity y = identity x) as H.
  { rewrite Forall_forall in Hl, Hi. intros x y Hx S. apply Hl; auto. }
  split_and!; try (eapply Forall2_zip_eq; [exact HF|]; intros x y Hx S; by apply (H x y)).
  apply forallb_Forall. clear Hl Hp Hi. induction HF as [|x y k l' Hxy _ IH]; constructor.
  - apply (H x y); [by left|done].
  - apply IH. intros a b Ha. apply H. by right.
Qed.

Lemma map_S_eq {A} (f : A -> nat) l l' : map f l' = map f l -> map (fun x => S (f x)) l' = map (fun x => S (f x)) l.
Proof. intros H%(f_equal (map S)). by rewrite !map_map in H. Qed.

Lemma forallb_map_eq {A B} (p : A -> bool) (q : B -> bool) l l' : map q l' = map p l -> forallb q l' = forallb p l.
Proof.
  revert l'. induction l as [|x l IH]; intros [|y l'] H; try discriminate H; [done|]. injection H as E H. cbn. by rewrite E, (IH _ H).
Qed.

Lemma keeps_list l l' : Forall keeps l -> forallb itf_value l = true -> Forall2 same l l' ->
  forallb itf_value l' = true /\ nsum (map vnodes l') = nsum (map vnodes l) /\
  list_max (map (fun x => S (vdepth x)) l') = list_max (map (fun x => S (vdepth x)) l) /\
  forallb no_repeats l' = forallb no_repeats l.
Proof.
  intros Hl Hv HF. destruct (keeps_elements l l l' Hl (Permutation_refl l) Hv HF) as (H1 & H2 & H3 & H4 & _).
  rewrite H2, (map_S_eq _ _ _ H3). split_and!; [done..|by apply forallb_map_eq].
Qed.

Lemma keeps_set l : Forall keeps l -> keeps (VSet l).
Proof.
  intros Hl. apply keeps_identity. intros w Hv Hs. inversion Hs as [| | | | | | |? k l' Hp HF| | |]; subst. unfold alike.
  cbn [itf_value vnodes vdepth no_repeats] in *.
  destruct (keeps_elements l k l' Hl Hp Hv HF) as (H1 & H2 & H3 & H4 & H5).
  rewrite H2, (map_S_eq _ _ _ H3), H5, (forallb_map_eq _ _ _ _ H4). split_and!; [done|by rewrite <-Hp..|].
  by rewrite (forallb_perm _ _ _ Hp), (no_dups_perm (map identity l) (map identity k)) by by rewrite Hp.
Qed.

(** Pairs of values, and named values. *)
Lemma keeps_entries l k l' : Forall (fun e => keeps e.1 /\ keeps e.2) l -> l ≡ₚ k -> itf_value (VMap l) = true ->
  Forall2 (fun e f => same e.1 f.1 /\ same e.2 f.2) k l' ->
  itf_value (VMap l') = true /\
  map (fun e => vnodes e.1 + vnodes e.2)%N l' = map (fun e => vnodes e.1 + vnodes e.2)%N k /\
  map (fun e => S (Nat.max (vdepth e.1) (vdepth e.2))) l' = map (fun e => S (Nat.max (vdepth e.1) (vdepth e.2))) k /\
  map (fun e => no_repeats e.1 && no_repeats e.2) l' = map (fun e => no_repeats e.1 && no_repeats e.2) k /\
  map (fun e => identity e.1) l' = map (fun e => identity e.1) k.
Proof.
  cbn [itf_value]. intros Hl Hp Hi HF. rewrite forallb_Forall in Hi. rewrite Hp in Hl, Hi.
  assert (forall x y, x ∈ k -> same x.1 y.1 /\ same x.2 y.2 -> alike x.1 y.1 /\ alike x.2 y.2 /\ identity y.1 = identity x.1) as H.
  { rewrite Forall_forall in Hl, Hi. intros x y Hx [S1 S2]. specialize (Hi x Hx). apply andb_prop in Hi as [I1 I2].
    destruct (Hl x Hx) as [K1 K2]. destruct (K1 _ I1 S1), (K2 _ I2 S2). done. }
  split_and!; try (eapply Forall2_zip_eq; [exact HF|]; intros x y Hx S; destruct (H x y Hx S) as ((_ & N1 & D1 & R1) & (_ & N2 & D2 & R2) & E); congruence).
  apply forallb_Forall. clear Hl Hp Hi. induction HF as [|x y k l' Hxy _ IH]; constructor.
  - destruct (H x y ltac:(by left) Hxy) as ((-> & _) & (-> & _) & _). done.
  - apply IH. intros a b Ha. apply H. by right.
Qed.

Lemma keeps_map l : Forall (fun e => keeps e.1 /\ keeps e.2) l -> keeps (VMap l).
Proof.
  intros Hl. apply keeps_identity. intros w Hv Hs. inversion Hs as [| | | | | | | |? k l' Hp HF| |]; subst. unfold alike.
  destruct (keeps_entries l k l' Hl Hp Hv HF) as (H1 & H2 & H3 & H4 & H5).
  split; [exact H1|]. cbn [vnodes vdepth no_repeats] in *. rewrite H2, H3, H5, (forallb_map_eq _ _ _ _ H4).
  split_and!; [by rewrite <-Hp..|]. rewrite (forallb_perm _ _ _ Hp).
  by rewrite (no_dups_perm (map (fun e => identity e.1) l) (map (fun e => identity e.1) k)) by by rewrite Hp.
Qed.

Lemma keeps_record l : Forall (fun e => keeps e.2) l -> keeps (VRecord l).
Proof.
  intros Hl. apply keeps_identity. intros w Hv Hs. inversion Hs as [| | | | | | | | |? k l' Hp HF|]; subst. unfold alike.
  cbn [itf_value vnodes vdepth no_repeats] in *. apply andb_prop in Hv as [Hnd Hi]. rewrite forallb_Forall in Hi. rewrite Hp in Hl, Hi.
  assert (forall x y, x ∈ k -> x.1 = y.1 /\ same x.2 y.2 -> alike x.2 y.2 /\ units_ok y.1 = true) as H.
  { rewrite Forall_forall in Hl, Hi. intros x y Hx [<- S2]. specialize (Hi x Hx). apply andb_prop in Hi as [I1 I2].
    split; [by apply (Hl x Hx)|done]. }
  assert (map fst l' = map fst k) as E1 by (eapply Forall2_zip_eq; [exact HF|]; by intros x y _ [-> _]).
  assert (map (fun e => vnodes e.2) l' = map (fun e => vnodes e.2) k) as ->
    by (eapply Forall2_zip_eq; [exact HF|]; intros x y Hx Sxy; apply (H x y Hx Sxy)).
  assert (map (fun e => S (vdepth e.2)) l' = map (fun e => S (vdepth e.2)) k) as ->
    by (eapply Forall2_zip_eq; [exact HF|]; intros x y Hx Sxy; f_equal; apply (H x y Hx Sxy)).
  assert (forallb (fun e => no_repeats e.2) l' = forallb (fun e => no_repeats e.2) k) as ->
    by (apply forallb_map_eq; eapply Forall2_zip_eq; [exact HF|]; intros x y Hx Sxy; apply (H x y Hx Sxy)).
  split_and!; [|by rewrite <-Hp..|by rewrite (forallb_perm _ _ _ Hp)].
  rewrite E1, <-(no_dups_perm (map fst l) (map fst k)), Hnd by by rewrite Hp. cbn [andb]. apply forallb_Forall. clear E1 Hl Hi Hp Hs.
  induction HF as [|x y k l' Hxy _ IH]; constructor.
  - destruct (H x y ltac:(by left) Hxy) as ((-> & _) & ->). done.
  - apply IH. intros a b Ha. apply H. by right.
Qed.

Lemma same_keeps v : keeps v.
Proof.
  induction v as [z|b|s|l IH|l IH|l IH|l IH|l IH|t v IH|s| |m] using Value_ind';
    [| | |by apply keeps_set| | |by apply keeps_map|by apply keeps_record| | | |];
    apply keeps_identity; intros w Hv Hs; inversion Hs; subst; unfold alike; cbn [itf_value vnodes vdepth no_repeats] in *;
    try (by split_and!).
  - destruct (keeps_list l l' IH Hv H0) as (-> & -> & -> & ->). done.
  - destruct (keeps_list l l' IH Hv H0) as (-> & -> & -> & ->). done.
  - apply andb_prop in Hv as [Ht Hv']. destruct (IH v' Hv') as [(-> & -> & -> & ->) _]; [done|]. by rewrite Ht.
Qed.

Lemma same_within v w : itf_value v = true -> same v w -> itf_limits v -> itf_limits w /\ itf_value w = true.
Proof. intros Hv S (H1 & H2 & H3). destruct (same_keeps v w Hv S) as [(E1 & E2 & E3 & E4) _]. unfold itf_limits. by rewrite E2, E3, E4. Qed.

(** ** Parts of values within the limits *)

Lemma list_max_elem (l : list nat) x : x ∈ l -> (x <= list_max l)%nat.
Proof. induction 1 as [x l|x y l _ IH]; unfold list_max in *; cbn; lia. Qed.

Lemma nsum_elem l x : x ∈ l -> (x <= nsum l)%N.
Proof. induction 1 as [x l|x y l _ IH]; unfold nsum in *; cbn; lia. Qed.

(** A part that is less deep, smaller and clean. *)
Lemma within_part v w : itf_limits v -> (vdepth w <= vdepth v)%nat -> (vnodes w <= vnodes v)%N -> no_repeats w = true -> itf_limits w.
Proof. intros (H1 & H2 & _) Hd Hn Hr. split_and!; [lia|lia|done]. Qed.

Lemma within_elements v l : itf_limits v -> vdepth v = list_max (map (fun x => S (vdepth x)) l) ->
  vnodes v = (1 + nsum (map vnodes l))%N -> forallb no_repeats l = true -> Forall itf_limits l.
Proof.
  intros Hv Hd Hn Hr. apply Forall_forall. intros w Hw. rewrite forallb_Forall, Forall_forall in Hr. apply (within_part v w Hv).
  - rewrite Hd. pose proof (list_max_elem (map (fun x => S (vdepth x)) l) (S (vdepth w)) ltac:(by apply (list_elem_of_fmap_2 (fun x => S (vdepth x))))). lia.
  - rewrite Hn. pose proof (nsum_elem (map vnodes l) (vnodes w) ltac:(by apply (list_elem_of_fmap_2 vnodes))). lia.
  - by apply Hr.
Qed.

Lemma within_set l : itf_limits (VSet l) -> Forall itf_limits l /\ no_dups (map identity l) = true.
Proof.
  intros Hv. pose proof Hv as (_ & _ & [Hd Hr]%andb_prop). split; [|done]. by eapply within_elements.
Qed.

Lemma within_seq l : itf_limits (VSeq l) -> Forall itf_limits l.
Proof. intros Hv. pose proof Hv as (_ & _ & Hr). by eapply within_elements. Qed.

Lemma within_tuple l : itf_limits (VTuple l) -> Forall itf_limits l.
Proof. intros Hv. pose proof Hv as (_ & _ & Hr). by eapply within_elements. Qed.

Lemma within_record l : itf_limits (VRecord l) -> Forall (fun e => itf_limits e.2) l.
Proof.
  intros Hv. pose proof Hv as (_ & _ & Hr). cbn [no_repeats] in Hr. rewrite forallb_Forall, Forall_forall in Hr.
  apply Forall_forall. intros e He. apply (within_part _ _ Hv); [| |by apply Hr].
  - cbn [vdepth]. pose proof (list_max_elem (map (fun e => S (vdepth e.2)) l) (S (vdepth e.2)) ltac:(by apply (list_elem_of_fmap_2 (fun e => S (vdepth e.2))))). lia.
  - cbn [vnodes]. pose proof (nsum_elem (map (fun e => vnodes e.2) l) (vnodes e.2) ltac:(by apply (list_elem_of_fmap_2 (fun e => vnodes e.2)))). lia.
Qed.

Lemma within_map l : itf_limits (VMap l) ->
  Forall (fun e => itf_limits e.1 /\ itf_limits e.2) l /\ no_dups (map identity (map fst l)) = true.
Proof.
  intros Hv. pose proof Hv as (_ & _ & [Hd Hr]%andb_prop). rewrite forallb_Forall, Forall_forall in Hr. split; [|by rewrite map_map].
  apply Forall_forall. intros e He. specialize (Hr e He). apply andb_prop in Hr as [R1 R2].
  pose proof (list_max_elem (map (fun e => S (Nat.max (vdepth e.1) (vdepth e.2))) l) (S (Nat.max (vdepth e.1) (vdepth e.2)))
    ltac:(by apply (list_elem_of_fmap_2 (fun e => S (Nat.max (vdepth e.1) (vdepth e.2)))))) as Hdep.
  pose proof (nsum_elem (map (fun e => vnodes e.1 + vnodes e.2)%N l) (vnodes e.1 + vnodes e.2)
    ltac:(by apply (list_elem_of_fmap_2 (fun e => vnodes e.1 + vnodes e.2)%N))) as Hnod.
  split; (apply (within_part _ _ Hv); [cbn [vdepth]; lia|cbn [vnodes]; lia|done]).
Qed.

Lemma within_variant t v : itf_limits (VVariant t v) -> itf_limits v.
Proof. intros Hv. pose proof Hv as (_ & _ & Hr). apply (within_part _ _ Hv); [cbn; lia|cbn; lia|done]. Qed.

Lemma identity_within v : itf_limits v -> itfValueIdentity v = Ok (identity v).
Proof. intros H. unfold itfValueIdentity. by rewrite (proj2 (snapshot_value_ok v v) (conj eq_refl H)). Qed.

Lemma assertUniqueFrom_ok seen values path u : Forall itf_limits values ->
  assertUniqueFrom seen values path = Ok u <-> unique_from seen values path = Ok u.
Proof.
  intros H. revert seen. induction H as [|v l Hv _ IH]; intros seen; cbn [assertUniqueFrom unique_from]; [done|].
  rewrite identity_within by done. cbn [mbind res_mbind]. case_bool_decide; [done|apply IH].
Qed.

Lemma assertUnique_ok values path u : Forall itf_limits values ->
  assertUniqueValues values path = Ok u <-> no_dups (map identity values) = true.
Proof. intros H. unfold assertUniqueValues. rewrite assertUniqueFrom_ok by done. apply (unique_ok values path u). Qed.

(** ** The values of a type *)

Fixpoint all_fit (ps : list (Value -> bool)) (l : list Value) : bool :=
  match ps, l with
  | [], [] => true
  | p :: ps', v :: l' => p v && all_fit ps' l'
  | _, _ => false
  end.

(** [v] has the structure [shape] describes. *)
Fixpoint fits (shape : ModelType) (v : Value) : bool :=
  match shape, v with
  | TInt, VInt _ | TBool, VBool _ | TStr, VStr _ | TNull, VNull => true
  | TSet element, VSet l | TSeq element, VSeq l => forallb (fits element) l
  | TTuple elements, VTuple l => all_fit (map (fun t => fits t) elements) l
  | TRecord fields, VRecord l =>
      bool_decide (sorted_names (map fst l) = sorted_names (map fst fields)) &&
      forallb (fun f => from_option f.2 false (own l f.1)) (map (fun f => (f.1, fits f.2)) fields)
  | TMap keyType valueType, VMap l => forallb (fun e => fits keyType e.1 && fits valueType e.2) l
  | TVariant cases, VVariant tag v => from_option (fun p => p v) false (own (map (fun c => (c.1, fits c.2)) cases) tag)
  | TOpaqueItf _, _ => true
  | _, _ => false
  end.

(** ** Codecs *)

(** At [a] the conversion [dec] fails exactly when [a] does not fit, and what it gives
    is converted back by [enc] to something related to [a]. *)
Definition codec {A B} (fit : A -> bool) (dec : A -> ustring -> res exn B) (enc : B -> ustring -> res exn A)
    (R : A -> A -> Prop) (a : A) : Prop :=
  forall path, (fit a = false /\ exists e, dec a path = Err e) \/
    (fit a = true /\ exists b, dec a path = Ok b /\ forall path', exists a', enc b path' = Ok a' /\ R a a').

Section codecs.
Context {A B : Type}.

Lemma codec_each (fit : A -> bool) (dec : A -> ustring -> res exn B) enc (R : A -> A -> Prop) l : Forall (codec fit dec enc R) l ->
  codec (forallb fit) (fun l path => mapMi (fun i x => dec x (idx path i)) l)
    (fun l path => mapMi (fun i x => enc x (idx path i)) l) (Forall2 R) l.
Proof.
  intros Hl. assert (forall i path, (forallb fit l = false /\ exists e, mapMi_from i (fun i x => dec x (idx path i)) l = Err e) \/
    (forallb fit l = true /\ exists bs, mapMi_from i (fun i x => dec x (idx path i)) l = Ok bs /\ forall j path', exists as',
      mapMi_from j (fun i x => enc x (idx path' i)) bs = Ok as' /\ Forall2 R l as')) as H.
  { induction Hl as [|x l Hx _ IH]; intros i path; cbn [forallb mapMi_from].
    { right. split; [done|]. exists []. split; [done|]. intros j path'. by exists []. }
    destruct (Hx (idx path i)) as [[-> [e ->]]|[-> (b & -> & Hb)]]; [by left; eauto|]. cbn [andb mbind res_mbind].
    destruct (IH (N.succ i) path) as [[-> [e ->]]|[-> (bs & -> & Hbs)]]; [by left; eauto|].
    right. split; [done|]. exists (b :: bs). split; [done|]. intros j path'. cbn [mapMi_from].
    destruct (Hb (idx path' j)) as (a' & -> & Ha'). cbn [mbind res_mbind]. destruct (Hbs (N.succ j) path') as (as' & -> & Has').
    exists (a' :: as'). split; [done|]. by constructor. }
  intros path. destruct (H 0%N path) as [Hf|(Hf & bs & Hd & He)]; [by left|right]. split; [done|]. exists bs. by split; [|apply He].
Qed.
End codecs.

Definition codec_of (shape : ModelType) : Value -> Prop :=
  codec (fits shape) (decodeNative shape) (encodeNative shape) same.

Lemma codec_tuple shapes l : Forall2 codec_of shapes l ->
  codec (all_fit (map (fun t => fits t) shapes)) (convert_each (map (fun t => decodeNative t) shapes) 0)
    (convert_each (map (fun t => encodeNative t) shapes) 0) (Forall2 same) l.
Proof.
  intros Hl. assert (forall i path, (all_fit (map (fun t => fits t) shapes) l = false /\ exists e, convert_each (map (fun t => decodeNative t) shapes) i l path = Err e) \/
    (all_fit (map (fun t => fits t) shapes) l = true /\ exists bs, convert_each (map (fun t => decodeNative t) shapes) i l path = Ok bs /\ forall j path', exists as',
      convert_each (map (fun t => encodeNative t) shapes) j bs path' = Ok as' /\ Forall2 same l as')) as H.
  { induction Hl as [|t x shapes l Hx _ IH]; intros i path; cbn [map all_fit convert_each].
    { right. split; [done|]. exists []. split; [done|]. intros j path'. by exists []. }
    destruct (Hx (idx path i)) as [[-> [e ->]]|[-> (b & -> & Hb)]]; [by left; eauto|]. cbn [andb mbind res_mbind].
    destruct (IH (N.succ i) path) as [[-> [e ->]]|[-> (bs & -> & Hbs)]]; [by left; eauto|].
    right. split; [done|]. exists (b :: bs). split; [done|]. intros j path'. cbn [convert_each].
    destruct (Hb (idx path' j)) as (a' & -> & Ha'). cbn [mbind res_mbind]. destruct (Hbs (N.succ j) path') as (as' & -> & Has').
    exists (a' :: as'). split; [done|]. by constructor. }
  intros path. destruct (H 0%N path) as [Hf|(Hf & bs & Hd & He)]; [by left|right]. split; [done|]. exists bs. by split; [|apply He].
Qed.

Definition codec_shape (shape : ModelType) : Prop :=
  forall v, itf_limits v -> itf_value v = true -> codec_of shape v.

(** A value that is not of the constructor of the shape. *)
Ltac no_fit := left; split; [reflexivity|eexists; reflexivity].

Lemma codec_leaf shape v n : fits shape v = true -> (forall path, decodeNative shape v path = Ok n) ->
  (forall path, encodeNative shape n path = Ok v) -> same v v -> codec_of shape v.
Proof. intros Hf Hd He Hs path. right. split; [done|]. exists n. split; [done|]. intros path'. by exists v. Qed.

Lemma same_elements_within l l' : Forall2 same l l' -> Forall itf_limits l -> forallb itf_value l = true ->
  Forall itf_limits l' /\ map identity l' = map identity l.
Proof.
  rewrite forallb_Forall. induction 1 as [|x y l l' Hxy _ IH]; intros Hw Hi; [done|].
  inversion Hw; inversion Hi; subst. destruct IH as [IH1 IH2]; [done..|]. destruct (same_within x y) as [Hy _]; [done..|].
  destruct (same_keeps x y) as [_ E]; [done..|]. split; [by constructor|]. cbn. by rewrite E, IH2.
Qed.

Lemma itf_elements l : forallb itf_value l = true -> Forall (fun v => itf_value v = true) l.
Proof. apply forallb_Forall. Qed.

Lemma codec_elements shape l : codec_shape shape -> Forall itf_limits l -> forallb itf_value l = true -> Forall (codec_of shape) l.
Proof. rewrite forallb_Forall, !Forall_forall. intros H Hw Hi v Hv. apply H; auto. Qed.

Lemma codec_set t : codec_shape t -> codec_shape (TSet t).
Proof.
  intros IH v Hw Hv path. destruct v as [| | |l| | | | | | | |]; try no_fit. cbn [itf_value] in Hv.
  destruct (within_set l Hw) as [Hl Hd]. cbn [decodeNative fits].
  destruct (assertUniqueValues l path) as [u|] eqn:E; [|by rewrite (proj2 (assertUnique_ok l path tt Hl) Hd) in E].
  cbn [mbind res_mbind]. clear E u.
  destruct (codec_each _ _ _ _ _ (codec_elements _ _ IH Hl Hv) path) as [[-> [e He]]|[-> (ns & Hns & Hback)]].
  - left. split; [done|]. exists e. by rewrite He.
  - right. split; [done|]. exists (NArr ns). split; [by rewrite Hns|]. intros path'. cbn [encodeNative].
    destruct (Hback path') as (ws & -> & HF). cbn [mbind res_mbind].
    destruct (same_elements_within _ _ HF Hl Hv) as [Hws E].
    rewrite (proj2 (assertUnique_ok ws path' tt Hws)) by by rewrite E. exists (VSet ws). split; [done|]. by econstructor.
Qed.

Lemma codec_seq t : codec_shape t -> codec_shape (TSeq t).
Proof.
  intros IH v Hw Hv path. destruct v as [| | | |l| | | | | | |]; try no_fit. cbn [itf_value] in Hv.
  pose proof (within_seq l Hw) as Hl. cbn [decodeNative fits].
  destruct (codec_each _ _ _ _ _ (codec_elements _ _ IH Hl Hv) path) as [[-> [e He]]|[-> (ns & Hns & Hback)]].
  - left. split; [done|]. exists e. by rewrite He.
  - right. split; [done|]. exists (NArr ns). split; [by rewrite Hns|]. intros path'. cbn [encodeNative].
    destruct (Hback path') as (ws & -> & HF). exists (VSeq ws). split; [done|]. by constructor.
Qed.

Lemma all_fit_length ps l : all_fit ps l = true -> length l = length ps.
Proof.
  revert l. induction ps as [|p ps IH]; intros [|v l] H; try done. cbn in H. apply andb_prop in H as [_ H]. cbn. by rewrite (IH l H).
Qed.

Lemma convert_each_length {A B} (fs : list (A -> ustring -> res exn B)) i l path l' :
  length l = length fs -> convert_each fs i l path = Ok l' -> length l' = length fs.
Proof.
  revert i l l'. induction fs as [|f fs IH]; intros i [|x l] l' Hl H; try discriminate Hl; cbn [convert_each] in H; [by injection H as <-|].
  apply res_bind_Ok in H as (y & _ & (ys & Hys & E)%res_bind_Ok). injection E as <-. cbn. f_equal. eapply IH; [|exact Hys]. by injection Hl.
Qed.

Lemma codec_tuple_shape ts : Forall codec_shape ts -> codec_shape (TTuple ts).
Proof.
  intros IH v Hw Hv path. destruct v as [| | | | |l| | | | | |]; try no_fit. cbn [itf_value] in Hv.
  pose proof (within_tuple l Hw) as Hl. cbn [decodeNative fits].
  destruct (length l =? length ts)%nat eqn:El; [apply Nat.eqb_eq in El|].
  - assert (Forall2 codec_of ts l) as Hc.
    { apply Forall2_same_length_lookup_2; [done|]. intros i t v Ht Hv'. apply itf_elements in Hv. rewrite Forall_forall in IH. rewrite Forall_forall in Hl. rewrite Forall_forall in Hv.
      apply list_elem_of_lookup_2 in Ht, Hv'. apply IH; auto. }
    destruct (codec_tuple _ _ Hc path) as [[-> [e He]]|[-> (ns & Hns & Hback)]].
    + left. split; [done|]. exists e. by rewrite He.
    + right. split; [done|]. exists (NArr ns). split; [by rewrite Hns|]. intros path'. cbn [encodeNative].
      apply convert_each_length in Hns; [|by rewrite length_map]. rewrite length_map in Hns. rewrite Hns, Nat.eqb_refl.
      destruct (Hback path') as (ws & -> & HF). exists (VTuple ws). split; [done|]. by constructor.
  - left. split; [|by eexists]. apply not_true_iff_false. intros H%all_fit_length. rewrite length_map in H. by rewrite H, Nat.eqb_refl in El.
Qed.

Lemma codec_map k t : codec_shape k -> codec_shape t -> codec_shape (TMap k t).
Proof.
  intros IHk IHt v Hw Hv path. destruct v as [| | | | | |l| | | | |]; try no_fit. cbn [itf_value] in Hv.
  destruct (within_map l Hw) as [Hl Hd]. assert (Forall itf_limits (map fst l)) as Hlk.
  { apply Forall_map. eapply Forall_impl; [exact Hl|]. by intros e [? _]. }
  cbn [decodeNative fits].
  destruct (assertUniqueValues (map fst l) path) as [u|] eqn:E; [|by rewrite (proj2 (assertUnique_ok _ path tt Hlk) Hd) in E].
  cbn [mbind res_mbind]. clear E u.
  set (dec := fun e path => k' ← decodeNative k e.1 (dot path "key"); v ← decodeNative t e.2 (dot path "value"); mret (NArr [k'; v])).
  set (enc := fun item path => match item with
    | NArr [k'; v] => key ← encodeNative k k' (dot path "key"); value ← encodeNative t v (dot path "value"); mret (key, value)
    | _ => plain_error path ($"expected map entry") end).
  assert (Forall (codec (fun e => fits k e.1 && fits t e.2) dec enc (fun e f => same e.1 f.1 /\ same e.2 f.2)) l) as Hc.
  { rewrite forallb_Forall in Hv. rewrite Forall_forall in *. intros [x y] He path0. destruct (Hl _ He) as [Wx Wy].
    specialize (Hv _ He). apply andb_prop in Hv as [Ix Iy]. cbn [fst snd] in *. unfold dec. cbn [fst snd].
    destruct (IHk x Wx Ix (dot path0 "key")) as [[-> [e ->]]|[-> (n1 & -> & B1)]]; [by left; eauto|]. cbn [andb mbind res_mbind].
    destruct (IHt y Wy Iy (dot path0 "value")) as [[-> [e ->]]|[-> (n2 & -> & B2)]]; [by left; eauto|].
    right. split; [done|]. exists (NArr [n1; n2]). split; [done|]. intros path'. unfold enc.
    destruct (B1 (dot path' "key")) as (x' & -> & Sx), (B2 (dot path' "value")) as (y' & -> & Sy). by exists (x', y'). }
  destruct (codec_each _ _ _ _ _ Hc path) as [[-> [e He]]|[-> (ns & Hns & Hback)]].
  - left. split; [done|]. exists e. unfold dec in He. cbn beta in He. by rewrite He.
  - right. split; [done|]. exists (NArr ns). unfold dec in Hns. cbn beta in Hns. split; [by rewrite Hns|]. intros path'. cbn [encodeNative].
    destruct (Hback path') as (ws & Hws & HF). unfold enc in Hws. cbn beta in Hws. rewrite Hws. cbn [mbind res_mbind].
    destruct (same_elements_within (map fst l) (map fst ws)) as [Hk' E].
    + apply Forall2_fmap_2. eapply Forall2_impl; [exact HF|]. by intros ?? [? _].
    + done.
    + rewrite forallb_map. apply forallb_forall. intros e He. rewrite forallb_forall in Hv. specialize (Hv e He). by apply andb_prop in Hv as [? _].
    + rewrite (proj2 (assertUnique_ok _ path' tt Hk')) by by rewrite E. exists (VMap ws). split; [done|]. by econstructor.
Qed.

Lemma own_map {A B} (f : A -> B) (l : list (ustring * A)) k : own (map (fun c => (c.1, f c.2)) l) k = f <$> own l k.
Proof. unfold own. induction l as [|[k' x] l IH]; [done|]. cbn. case_bool_decide; [done|exact IH]. Qed.

Lemma own_elem {A} (l : list (ustring * A)) k x : own l k = Some x -> (k, x) ∈ l.
Proof.
  unfold own. induction l as [|[k' y] l IH]; [done|]. cbn. case_bool_decide as E; [intros [= <-]; subst; by left|].
  intros H. right. by apply IH.
Qed.

Lemma codec_variant cs : Forall (fun c => codec_shape c.2) cs -> codec_shape (TVariant cs).
Proof.
  intros IH v Hw Hv path. destruct v as [| | | | | | | |tag v| | |]; try no_fit. cbn [itf_value] in Hv. apply andb_prop in Hv as [_ Hv].
  pose proof (within_variant _ _ Hw) as Hwv. cbn [decodeNative fits]. rewrite !own_map.
  destruct (own cs tag) as [t|] eqn:E; [|left; split; [done|by eexists]]. cbn [fmap option_fmap option_map from_option].
  assert (codec_shape t) as Ht. { apply own_elem in E. rewrite Forall_forall in IH. apply (IH _ E). }
  destruct (Ht v Hwv Hv (dot path "value")) as [[-> [e ->]]|[-> (n & -> & B)]]; [by left; eauto|].
  right. split; [done|]. eexists. split; [done|]. intros path'. cbn [encodeNative ownRecord].
  change (own [($"tag", NStr tag); ($"value", n)] ($"tag")) with (Some (NStr tag)).
  change (own [($"tag", NStr tag); ($"value", n)] ($"value")) with (Some n). cbn beta iota.
  change (exactKeys [($"tag", NStr tag); ($"value", n)] [$"tag"; $"value"] path') with (Ok (E := exn) tt). cbn [mbind res_mbind].
  rewrite own_map, E. cbn [fmap option_fmap option_map]. change (default NUndefined (Some n)) with n. destruct (B (dot path' "value")) as (w & -> & S). exists (VVariant tag w).
  split; [done|]. by constructor.
Qed.

(** ** Records *)

Lemma obj_set_fresh {A} (o : list (ustring * A)) k v : k ∉ map fst o -> obj_set o k v ≡ₚ (k, v) :: o.
Proof.
  induction o as [|[k' v'] o IH]; cbn [map obj_set fst]; [done|]. rewrite not_elem_of_cons. intros [Hne Ho].
  rewrite bool_decide_eq_false_2 by done. destruct (key_before k k'); [done|]. rewrite IH by done. apply Permutation_swap.
Qed.

Lemma own_perm {A} (l l' : list (ustring * A)) k : NoDup (map fst l) -> l ≡ₚ l' -> own l k = own l' k.
Proof.
  assert (forall (l : list (ustring * A)) x, NoDup (map fst l) -> (k, x) ∈ l -> own l k = Some x) as H.
  { clear. induction l as [|[k' y] l IH]; intros x Hnd Hin; [by apply elem_of_nil in Hin|]. unfold own. cbn.
    cbn in Hnd. apply NoDup_cons in Hnd as [Hk Hnd]. case_bool_decide as E.
    - apply elem_of_cons in Hin as [[= _ <-]|Hin]; [done|]. subst k'. destruct Hk. by apply (list_elem_of_fmap_2 fst) in Hin.
    - apply elem_of_cons in Hin as [[= ? ?]|Hin]; [done|]. by apply IH. }
  intros Hnd Hp. assert (NoDup (map fst l')) as Hnd' by by rewrite <-Hp.
  destruct (own l k) as [x|] eqn:E.
  - symmetry. apply H; [done|]. rewrite <-Hp. by apply own_elem.
  - destruct (own l' k) as [x|] eqn:E'; [|done]. apply own_elem in E'. rewrite <-Hp in E'. by rewrite (H l x Hnd E') in E.
Qed.

Lemma own_is_some {A} (l : list (ustring * A)) k : k ∈ map fst l -> exists x, own l k = Some x.
Proof.
  unfold own. induction l as [|[k' y] l IH]; cbn; [by intros ?%elem_of_nil|]. intros [E|H]%elem_of_cons; [subst; by rewrite bool_decide_eq_true_2; eauto|].
  case_bool_decide; [by eauto|by apply IH].
Qed.

(** A list of pairs, read by name in another order. *)
Lemma pick_perm {A} (d : A) (l : list (ustring * A)) names : NoDup (map fst l) -> map fst l ≡ₚ names ->
  l ≡ₚ map (fun k => (k, default d (own l k))) names.
Proof.
  intros Hnd Hp. rewrite <-Hp. clear Hp names. rewrite map_map. assert (map (fun x => (x.1, default d (own l x.1))) l = l) as ->; [|done].
  rewrite <-(map_id l) at 2. apply map_ext_in. intros [k x] Hin. cbn. f_equal. apply list_elem_of_In in Hin.
  destruct (own_is_some l k) as [y Hy]; [by apply (list_elem_of_fmap_2 fst) in Hin|]. rewrite Hy. cbn. apply own_elem in Hy.
  pose proof (NoDup_map_inj fst l _ _ Hnd Hin Hy eq_refl) as E. congruence.
Qed.

Lemma sorted_names_eq l l' : sorted_names l = sorted_names l' <-> l ≡ₚ l'.
Proof.
  unfold sorted_names. split; [intros H; by rewrite <-(sort_by_Permutation compare_lists l), H, sort_by_Permutation|]. intros Hp.
  apply sort_by_perm_eq; [apply compare_lists_op|apply compare_lists_lt_gt| |done]. intros x y _ _. apply compare_lists_Eq.
Qed.

Lemma exactKeys_ok {A} (o : list (ustring * A)) names path u : exactKeys o names path = Ok u <-> map fst o ≡ₚ names.
Proof. unfold exactKeys. rewrite <-sorted_names_eq. destruct u. case_bool_decide; split; try done; congruence. Qed.

Section convert_fields.
Context {A B : Type} (missing : A) (source : list (ustring * A)).

Lemma convert_fields_ok (P : ustring -> B -> Prop) fs : NoDup (map fst fs) ->
  Forall (fun f => forall path, exists y, f.2 (default missing (own source f.1)) path = Ok y /\ P f.1 y) fs ->
  forall path result, Forall (fun f => f.1 ∉ map fst result) fs ->
  exists out ys, convert_fields missing fs source path result = Ok out /\ Forall2 (fun f y => P f.1 y) fs ys /\
    out ≡ₚ result ++ zip (map fst fs) ys.
Proof.
  induction fs as [|[k f] fs IH]; intros Hnd Hf path result Hr; cbn [convert_fields map fst].
  { exists result, []. split_and!; [done|constructor|by rewrite app_nil_r]. }
  apply NoDup_cons in Hnd as [Hk Hnd]. apply Forall_cons in Hf as [Hf0 Hf]. apply Forall_cons in Hr as [Hr0 Hr].
  destruct (Hf0 (path ++ $"." ++ k)) as (y & E & Hy). cbn [fst snd] in *. rewrite E. cbn [mbind res_mbind].
  pose proof (obj_set_fresh result k y Hr0) as Hset.
  destruct (IH Hnd Hf path (obj_set result k y)) as (out & ys & -> & HF & Hp).
  - rewrite Forall_forall in *. intros f' Hf'. rewrite Hset. cbn [map fst]. rewrite not_elem_of_cons. split; [|by apply Hr].
    intros <-. by apply Hk, list_elem_of_fmap_2.
  - exists out, (y :: ys). split_and!; [done|by constructor|]. rewrite Hp, Hset. apply (Permutation_middle result _ (k, y)).
Qed.

Lemma convert_fields_err (fs : list (ustring * (A -> ustring -> res exn B))) f : f ∈ fs ->
  (forall path, exists e, f.2 (default missing (own source f.1)) path = Err e) ->
  forall path result, exists e, convert_fields missing fs source path result = Err e.
Proof.
  induction 1 as [f fs|f [k g] fs _ IH]; intros Hf path result; cbn [convert_fields].
  - destruct f as [k f]. destruct (Hf (path ++ $"." ++ k)) as [e He]. cbn [fst snd] in He. rewrite He. by eexists.
  - destruct (g _ _); [|by eexists]. cbn [mbind res_mbind]. by apply IH.
Qed.
End convert_fields.

Lemma zip_names {B} (names : list ustring) (ys : list B) : length ys = length names -> map fst (zip names ys) = names.
Proof. intros H. apply fst_zip. lia. Qed.

(** The conversions of the fields of a record type, both ways. *)
Definition field_decoders (fs : list (ustring * ModelType)) := map (fun f => (f.1, decodeNative f.2)) fs.
Definition field_encoders (fs : list (ustring * ModelType)) := map (fun f => (f.1, encodeNative f.2)) fs.

Lemma map_fst_pairs {A B} (f : A -> B) (fs : list (ustring * A)) : map fst (map (fun c => (c.1, f c.2)) fs) = map fst fs.
Proof. rewrite map_map. by apply map_ext. Qed.

(** The native value of a field comes back as the field. *)
Definition comes_back (fs : list (ustring * ModelType)) (l : State) (k : ustring) (n : native) : Prop :=
  forall t, (k, t) ∈ fs -> forall path, exists w, encodeNative t n path = Ok w /\ same (default VNull (own l k)) w.

Lemma decode_fields fs (l : State) path : NoDup (map fst fs) ->
  Forall (fun f => exists x, own l f.1 = Some x /\ codec_of f.2 x) fs ->
  (forallb (fun f => from_option f.2 false (own l f.1)) (map (fun f => (f.1, fits f.2)) fs) = false /\
    exists e, convert_fields VNull (field_decoders fs) l path [] = Err e) \/
  (forallb (fun f => from_option f.2 false (own l f.1)) (map (fun f => (f.1, fits f.2)) fs) = true /\
    exists out ns, convert_fields VNull (field_decoders fs) l path [] = Ok out /\
      Forall2 (fun f n => comes_back fs l f.1 n) (field_decoders fs) ns /\ out ≡ₚ zip (map fst fs) ns).
Proof.
  intros Hfs Hc. destruct (forallb _ _) eqn:Hfit; [right|left]; (split; [done|]).
  - assert (NoDup (map fst (field_decoders fs))) as Hnd by (unfold field_decoders; by rewrite map_fst_pairs).
    destruct (convert_fields_ok VNull l (comes_back fs l) (field_decoders fs) Hnd) with (path := path) (result := [] : list (ustring * native))
      as (out & ns & H1 & H2 & H3).
    + apply Forall_map. rewrite Forall_forall in *. intros f Hf path'. destruct (Hc f Hf) as (x & Hx & Hcx). cbn [fst snd]. rewrite Hx. cbn.
      destruct (Hcx path') as [[Hbad _]|[_ (n & Hn & B)]].
      * rewrite forallb_map, forallb_forall in Hfit. specialize (Hfit f (proj1 (list_elem_of_In _ _) Hf)). cbn [fst snd] in Hfit. rewrite Hx in Hfit. cbn in Hfit. congruence.
      * exists n. split; [done|]. intros t Ht path''. assert (t = f.2) as ->.
        { destruct f as [k t']. pose proof (NoDup_map_inj fst fs _ _ Hfs Ht Hf eq_refl) as E. by injection E. }
        destruct (B path'') as (w & Hw & S). exists w. rewrite Hx. done.
    + apply Forall_forall. intros f _. apply not_elem_of_nil.
    + exists out, ns. split_and!; [done|done|]. unfold field_decoders in H3. by rewrite map_fst_pairs in H3.
  - assert (exists f, f ∈ fs /\ from_option (fits f.2) false (own l f.1) = false) as (f & Hf & Hbad).
    { rewrite forallb_map in Hfit. clear Hfs Hc. induction fs as [|f fs IH]; [done|]. cbn [forallb fst snd] in Hfit.
      destruct (from_option (fits f.2) false (own l f.1)) eqn:E; [|exists f; split; [by left|done]].
      destruct (IH Hfit) as (f' & ? & ?). exists f'. split; [by right|done]. }
    rewrite Forall_forall in Hc. destruct (Hc f Hf) as (x & Hx & Hcx). rewrite Hx in Hbad. cbn in Hbad.
    apply (convert_fields_err VNull l _ (f.1, decodeNative f.2)).
    + unfold field_decoders. by apply (list_elem_of_fmap_2 (fun f => (f.1, decodeNative f.2))).
    + intros path'. cbn [fst snd]. rewrite Hx. cbn. destruct (Hcx path') as [[_ H]|[? _]]; [done|congruence].
Qed.

(** Pairs with the same names, related one by one. *)
Lemma zip_related (fs : list (ustring * ModelType)) (l : State) ws :
  Forall2 (fun f w => same (default VNull (own l f.1)) w) fs ws ->
  Forall2 (fun e f => e.1 = f.1 /\ same e.2 f.2) (map (fun k => (k, default VNull (own l k))) (map fst fs)) (zip (map fst fs) ws).
Proof. induction 1 as [|f w fs ws Hw _ IH]; [constructor|]. cbn. by constructor. Qed.

Lemma same_record_by names (l : State) out l2 : NoDup (map fst l) -> map fst l ≡ₚ names ->
  Forall2 (fun e f => e.1 = f.1 /\ same e.2 f.2) (map (fun k => (k, default VNull (own l k))) names) l2 -> out ≡ₚ l2 ->
  same (VRecord l) (VRecord out).
Proof.
  intros Hnd Hp HF Ho. assert (Forall2 (fun f e => e.1 = f.1 /\ same e.2 f.2) l2 (map (fun k => (k, default VNull (own l k))) names)) as HF' by by apply Forall2_flip.
  symmetry in Ho. destruct (Forall2_perm _ _ _ _ Ho HF') as (k' & Hk & HF2).
  apply (same_record l k' out); [rewrite (pick_perm VNull l names Hnd Hp); exact Hk|by apply Forall2_flip].
Qed.

Lemma encode_fields fs (l : State) out ns path : NoDup (map fst fs) -> NoDup (map fst l) -> map fst l ≡ₚ map fst fs ->
  Forall2 (fun f n => comes_back fs l f.1 n) (field_decoders fs) ns -> out ≡ₚ zip (map fst fs) ns ->
  exists w, encodeNative (TRecord fs) (NObj out) path = Ok w /\ same (VRecord l) w.
Proof.
  intros Hfs Hl Hp HF Ho. assert (length ns = length fs) as Hlen by (apply Forall2_length in HF; unfold field_decoders in HF; by rewrite length_map in HF).
  assert (map fst out ≡ₚ map fst fs) as Hnames by (rewrite Ho, zip_names; [done|by rewrite length_map]).
  cbn [encodeNative ownRecord]. rewrite (proj2 (exactKeys_ok out (map fst fs) path tt) Hnames). cbn [mbind res_mbind].
  assert (NoDup (map fst out)) as Hout by by rewrite Hnames.
  assert (NoDup (map fst (field_encoders fs))) as Henc by (unfold field_encoders; by rewrite map_fst_pairs).
  assert (forall f, f ∈ fs -> exists n, own out f.1 = Some n /\ comes_back fs l f.1 n) as Hn.
  { intros f Hf. destruct (own_is_some out f.1) as [n Hn]; [rewrite Hnames; by apply list_elem_of_fmap_2|]. exists n. split; [done|].
    apply own_elem in Hn. rewrite Ho in Hn. clear -HF Hn. unfold field_decoders in HF.
    assert (forall fs' ns', Forall2 (fun f n => comes_back fs l f.1 n) (map (fun f => (f.1, decodeNative f.2)) fs') ns' ->
      forall k n, (k, n) ∈ zip (map fst fs') ns' -> comes_back fs l k n) as H; [|by eapply H].
    clear. intros fs' ns'. revert ns'. induction fs' as [|f fs' IH]; intros ns' HF k n Hin; [by apply elem_of_nil in Hin|].
    inversion HF as [|? n0 ? ns0 Hn0 HF0]; subst. cbn in Hin. apply elem_of_cons in Hin as [[= -> ->]|Hin]; [done|by eapply IH]. }
  destruct (convert_fields_ok NUndefined out (fun k w => same (default VNull (own l k)) w) (field_encoders fs) Henc) with (path := path)
    (result := [] : State) as (ws & ys & E & HF2 & Hw).
  - apply Forall_map, Forall_forall. intros f Hf path'. cbn [fst snd]. destruct (Hn f Hf) as (n & -> & Hback). cbn.
    apply Hback. by destruct f.
  - apply Forall_forall. intros f _. apply not_elem_of_nil.
  - unfold field_encoders in E. rewrite E. exists (VRecord ws). split; [done|]. cbn [app] in Hw.
    apply (same_record_by (map fst fs) l ws (zip (map fst fs) ys) Hl Hp); [|unfold field_encoders in Hw; by rewrite map_fst_pairs in Hw].
    apply zip_related. unfold field_encoders in HF2. by rewrite Forall2_fmap_l in HF2.
Qed.

Lemma codec_record fs : Forall (fun f => codec_shape f.2) fs -> codec_shape (TRecord fs).
Proof.
  intros IH v Hw Hv path. destruct v as [| | | | | | |l| | | |]; try no_fit. cbn [itf_value] in Hv. apply andb_prop in Hv as [Hnd Hi].
  apply no_dups_NoDup in Hnd. pose proof (within_record _ Hw) as Hl. cbn [decodeNative fits].
  destruct (exactKeys l (map fst fs) path) as [u|e] eqn:Ek.
  2: { left. split; [|by exists e]. apply andb_false_intro1. apply bool_decide_eq_false. rewrite sorted_names_eq.
       intros H%(exactKeys_ok _ _ path tt). congruence. }
  apply exactKeys_ok in Ek. cbn [mbind res_mbind]. clear u. rewrite (bool_decide_eq_true_2 _ (proj2 (sorted_names_eq _ _) Ek)). cbn [andb].
  assert (NoDup (map fst fs)) as Hfs by by rewrite <-Ek.
  assert (Forall (fun f => exists x, own l f.1 = Some x /\ codec_of f.2 x) fs) as Hc.
  { apply Forall_forall. intros f Hf. destruct (own_is_some l f.1) as [x Hx]; [rewrite Ek; by apply list_elem_of_fmap_2|].
    exists x. split; [done|]. apply own_elem in Hx. rewrite forallb_Forall, Forall_forall in Hi. specialize (Hi _ Hx).
    apply andb_prop in Hi as [_ Hi]. apply (proj1 (Forall_forall _ _) IH f Hf); [apply (proj1 (Forall_forall _ _) Hl _ Hx)|done]. }
  destruct (decode_fields fs l path Hfs Hc) as [[-> [e He]]|[-> (out & ns & Hout & HF & Hp)]].
  - left. split; [done|]. exists e. unfold field_decoders in He. by rewrite He.
  - right. split; [done|]. exists (NObj out). unfold field_decoders in Hout. split; [by rewrite Hout|]. intros path'.
    by eapply encode_fields.
Qed.

(** ** Opaque values *)

Lemma same_refl v : itf_value v = true -> same v v.
Proof. intros H. by apply canonical_decides. Qed.

Lemma codec_opaque s : codec_shape (TOpaqueItf s).
Proof.
  intros v Hw Hv path. right. split; [by destruct v|]. pose proof (proj2 (snapshot_value_ok v v) (conj eq_refl Hw)) as Hs.
  exists (NOpaque (Opaque v)). cbn [decodeNative]. unfold opaqueItfValue. rewrite Hs. split; [reflexivity|]. intros path'. exists v.
  cbn [encodeNative]. unfold OpaqueItfValue_encode. cbn [opaque_value]. rewrite Hs. split; [done|by apply same_refl].
Qed.

Lemma codec_all shape : codec_shape shape.
Proof.
  induction shape as [| | | |t IH|t IH|ts IH|fs IH|k t IHk IHt|cs IH|s] using ModelType_ind';
    [| | | |by apply codec_set|by apply codec_seq|by apply codec_tuple_shape|by apply codec_record|by apply codec_map|by apply codec_variant|by apply codec_opaque].
  - intros v _ _. destruct v; try (intros path; no_fit). by eapply codec_leaf; try constructor.
  - intros v _ _. destruct v; try (intros path; no_fit). by eapply codec_leaf; try constructor.
  - intros v _ _. destruct v; try (intros path; no_fit). by eapply codec_leaf; try constructor.
  - intros v _ _. destruct v; try (intros path; no_fit). by eapply codec_leaf; try constructor.
Qed.

(** ** What encoding gives *)

Definition encodes (shape : ModelType) : Prop := forall n path w, encodeNative shape n path = Ok w -> fits shape w = true.

Lemma encodes_each (f : native -> ustring -> res exn Value) (p : Value -> bool) : (forall n path w, f n path = Ok w -> p w = true) ->
  forall l path ws, mapMi (fun i x => f x (idx path i)) l = Ok ws -> forallb p ws = true.
Proof.
  intros H l path ws Hws. apply mapMi_from_Forall2 in Hws. apply forallb_Forall.
  induction Hws as [|x y l ws [j Hj] _ IH]; constructor; [by eapply H|exact IH].
Qed.

Lemma encodes_tuple ts : Forall encodes ts -> forall i l path ws, length l = length ts ->
  convert_each (map (fun t => encodeNative t) ts) i l path = Ok ws -> all_fit (map (fun t => fits t) ts) ws = true.
Proof.
  induction 1 as [|t ts Ht _ IH]; intros i [|x l] path ws Hl H; try discriminate Hl; cbn [map convert_each] in H; [by injection H as <-|].
  apply res_bind_Ok in H as (y & Hy & (ys & Hys & E)%res_bind_Ok). injection E as <-. cbn. rewrite (Ht _ _ _ Hy). cbn.
  eapply IH; [|exact Hys]. by injection Hl.
Qed.

(** The converse of [convert_fields_ok]. *)
Lemma convert_fields_inv {A B} (missing : A) (source : list (ustring * A)) (fs : list (ustring * (A -> ustring -> res exn B))) path :
  NoDup (map fst fs) -> forall result out, Forall (fun f => f.1 ∉ map fst result) fs ->
  convert_fields missing fs source path result = Ok out ->
  exists ys, Forall2 (fun f y => exists x path, f.2 x path = Ok y) fs ys /\ out ≡ₚ result ++ zip (map fst fs) ys.
Proof.
  induction fs as [|[k f] fs IH]; intros Hnd result out Hr H; cbn [convert_fields] in H.
  { injection H as <-. exists []. split; [constructor|by rewrite app_nil_r]. }
  apply NoDup_cons in Hnd as [Hk Hnd]. apply Forall_cons in Hr as [Hr0 Hr]. apply res_bind_Ok in H as (y & Hy & H).
  pose proof (obj_set_fresh result k y Hr0) as Hset. apply IH in H as (ys & HF & Hp); [|done|].
  - exists (y :: ys). split; [constructor; [by eauto|done]|]. rewrite Hp, Hset. apply (Permutation_middle result _ (k, y)).
  - rewrite Forall_forall in *. intros f' Hf'. rewrite Hset. cbn [map fst]. rewrite not_elem_of_cons. split; [|by apply Hr].
    cbn [fst] in *. intros <-. by apply Hk, list_elem_of_fmap_2.
Qed.

Lemma own_zip {B} (fs : list (ustring * ModelType)) (P : ModelType -> B -> Prop) ys : NoDup (map fst fs) ->
  Forall2 (fun f y => P f.2 y) fs ys -> Forall (fun f => exists y, own (zip (map fst fs) ys) f.1 = Some y /\ P f.2 y) fs.
Proof.
  intros Hnd HF. induction HF as [|[k t] y fs ys Hy HF IH]; [constructor|]. cbn [map fst] in Hnd. apply NoDup_cons in Hnd as [Hk Hnd].
  constructor; [exists y; split; [|done]; unfold own; cbn; by rewrite bool_decide_eq_true_2|].
  specialize (IH Hnd). rewrite Forall_forall in *. intros f Hf. destruct (IH f Hf) as (z & Hz & HP). exists z. split; [|done].
  unfold own in *. cbn. rewrite bool_decide_eq_false_2; [done|]. intros E. apply Hk. rewrite <-E. by apply list_elem_of_fmap_2.
Qed.

Lemma encodes_record fs : NoDup (map fst fs) -> Forall (fun f => encodes f.2) fs -> encodes (TRecord fs).
Proof.
  intros Hnd Hf n path w H. cbn [encodeNative] in H. destruct (ownRecord n) as [record|]; [|done].
  apply res_bind_Ok in H as (u & _ & (out & H & ->)%fmap_Ok).
  apply convert_fields_inv in H as (ys & HF & Hp); [|by rewrite map_fst_pairs|by apply Forall_forall; intros ? _; apply not_elem_of_nil].
  rewrite Forall2_fmap_l, map_fst_pairs in *. cbn [app] in Hp.
  assert (length ys = length fs) as Hlen by by apply Forall2_length in HF.
  assert (Forall2 (fun f y => fits f.2 y = true) fs ys) as HF'.
  { clear Hp Hnd Hlen. induction HF as [|f y fs ys (x & path' & Hy) _ IH]; [constructor|]. inversion Hf; subst. constructor; [|by apply IH].
    cbn in Hy. eauto. }
  cbn [fits]. assert (map fst out ≡ₚ map fst fs) as Hnames by (rewrite Hp, zip_names; [done|by rewrite length_map]).
  rewrite (bool_decide_eq_true_2 _ (proj2 (sorted_names_eq _ _) Hnames)). cbn [andb]. rewrite forallb_map. apply forallb_forall.
  intros f Hin%list_elem_of_In. cbn [fst snd]. assert (NoDup (map fst out)) as Ho by by rewrite Hnames.
  rewrite (own_perm out _ _ Ho Hp). pose proof (own_zip fs (fun t y => fits t y = true) ys Hnd HF') as Hz.
  rewrite Forall_forall in Hz. by destruct (Hz f Hin) as (y & -> & Hy).
Qed.

Lemma encode_fits shape : type_valid shape -> encodes shape.
Proof.
  induction shape as [| | | |t IH|t IH|ts IH|fs IH|k t IHk IHt|cs IH|s] using ModelType_ind'; intros Hv n path w H; inversion Hv; subst;
    [by destruct n; try discriminate H; injection H as <-..| | | | | | |].
  - cbn [encodeNative] in H. destruct n; try discriminate H. apply res_bind_Ok in H as (ws & Hws & (u & _ & E)%res_bind_Ok).
    injection E as <-. eapply encodes_each; [by apply IH|exact Hws].
  - cbn [encodeNative] in H. destruct n; try discriminate H. apply fmap_Ok in H as (ws & Hws & ->). eapply encodes_each; [by apply IH|exact Hws].
  - cbn [encodeNative] in H. destruct n as [| | | |l| | | | | |]; try discriminate H. destruct (length l =? length ts)%nat eqn:E; [|done].
    apply Nat.eqb_eq in E. apply fmap_Ok in H as (ws & Hws & ->). eapply encodes_tuple; [|exact E|exact Hws].
    rewrite Forall_forall in *. auto.
  - eapply encodes_record; [done| |exact H]. rewrite Forall_forall in *. auto.
  - cbn [encodeNative] in H. destruct n; try discriminate H. apply res_bind_Ok in H as (ws & Hws & (u & _ & E)%res_bind_Ok).
    injection E as <-. apply mapMi_from_Forall2 in Hws. cbn [fits]. apply forallb_Forall.
    induction Hws as [|x [a b] l' ws [j Hj] _ IH]; constructor; [|exact IH].
    destruct x as [| | | |[|x1 [|x2 [|]]]| | | | | |]; try discriminate Hj. apply res_bind_Ok in Hj as (a' & Ha & (b' & Hb & E)%res_bind_Ok).
    injection E as -> ->. cbn. by rewrite (IHk ltac:(done) _ _ _ Ha), (IHt ltac:(done) _ _ _ Hb).
  - cbn [encodeNative] in H. destruct (ownRecord n) as [variant|]; [|done]. destruct (own variant ($"tag")) as [[| |tag| | | | | | | |]|]; try done.
    apply res_bind_Ok in H as (u & _ & H). rewrite own_map in H. destruct (own cs tag) as [t|] eqn:E; [|done].
    cbn [fmap option_fmap option_map] in H. apply fmap_Ok in H as (x & Hx & ->). cbn [fits]. rewrite own_map, E. cbn.
    apply own_elem in E. rewrite Forall_forall in *. eapply (IH _ E); eauto.
  - by destruct w.
Qed.

(** C31: for every structural type and every checked value, decoding succeeds exactly
    when the value has the structure the type describes, and what it gives encodes,
    with the same type, to the value it came from, up to the order of record fields. *)
Theorem native_codec_roundtrip (shape : ModelType) (v : Value) (path : ustring)
    (Hv : itf_value v = true) (Hw : itf_limits v) :
  is_ok (decodeNative shape v path) = fits shape v /\
  forall n, decodeNative shape v path = Ok n ->
    forall path', exists w, encodeNative shape n path' = Ok w /\ same v w.
Proof.
  destruct (codec_all shape v Hw Hv path) as [[-> [e ->]]|[-> (n & -> & H)]]; [done|]. split; [done|]. by intros n' [= <-].
Qed.

Definition sample_shape : ModelType :=
  TRecord [($"owner", TVariant [($"Some", TMap TBool TNull)]); ($"queue", TSet (TTuple [TInt; TStr]))].

Example native_codec_roundtrip_witness :
  is_ok (decodeNative sample_shape (sample_itf 1 2) ($"x")) = fits sample_shape (sample_itf 1 2) /\
  forall n, decodeNative sample_shape (sample_itf 1 2) ($"x") = Ok n ->
    forall path', exists w, encodeNative sample_shape n path' = Ok w /\ same (sample_itf 1 2) w.
Proof.
  apply native_codec_roundtrip; [vm_compute; reflexivity|]. split; [vm_compute; lia|split; [vm_compute; discriminate|vm_compute; reflexivity]].
Defined.

Example sample_shape_fits : fits sample_shape (sample_itf 1 2) = true.
Proof. vm_compute. reflexivity. Qed.
