(* ===== verification/DynamicBinding.v ===== *)
(** * Dynamic bindings

    [src/src/dynamic-binding.ts]: the check of a handler registry against a
    descriptor, the projection of inputs, and the two bindings, synchronous and
    asynchronous, as methods over the state of a binding. What a callback does is a
    [callback]: the calls it makes to the binding itself and how it ends. The causes
    errors carry are not kept. *)

From S2P Require Import Prelude JsNumber Utf16 JsData StrictJson Decode JsText ModelTypes Canonical Descriptor Protocol OpaqueItf NativeCodec.

Inductive DynamicBindingErrorCode :=
| binding_digest_mismatch | handler_missing | handler_extra | observer_missing | observer_extra | descriptor_type_unsupported
| configuration_mismatch | unknown_action | transition_before_initialization | input_shape_mismatch | adapter_failure
| observation_shape_mismatch | binding_poisoned | binding_disposed | binding_aborted.

#[export] Instance binding_code_eq_dec : EqDecision DynamicBindingErrorCode.
Proof. solve_decision. Defined.

Record DynamicBindingError := bindingError { db_code : DynamicBindingErrorCode; db_message : ustring }.

(** ** Registries *)

Inductive own_key := KName (k : ustring) | KSymbol (text : ustring).

(** The own keys of a handler object, each with whether it is a data property that
    holds a function. *)
Abbreviation handlers := (list (own_key * bool)).

Record DynamicHandlerRegistry := Registry { hr_semanticDigest : ustring; hr_actions : handlers; hr_observations : handlers }.

Definition callable (actual : handlers) (key : ustring) : bool :=
  existsb (fun e => match e.1 with KName k => bool_decide (k = key) && e.2 | KSymbol _ => false end) actual.

Definition key_text (k : own_key) : ustring := match k with KName s | KSymbol s => s end.

Definition extra_key (expected : list ustring) (k : own_key) : bool :=
  match k with KName s => negb (bool_decide (s ∈ expected)) | KSymbol _ => true end.

Definition assertExactRegistry (actual : handlers) (expected : list ustring) (missingCode extraCode : DynamicBindingErrorCode)
    : res DynamicBindingError unit :=
  match List.filter (fun key => negb (callable actual key)) expected with
  | [] =>
      match List.filter (extra_key expected) (map fst actual) with
      | [] => Ok tt
      | extras => Err (bindingError extraCode ($"extra IDs: " ++ join ($", ") (map key_text extras)))
      end
  | missing => Err (bindingError missingCode ($"missing callable IDs: " ++ join ($", ") missing))
  end.

(** ** Inputs *)

Definition ACTION_VARIABLE : ustring := $"action_taken".

Definition is_meta (name : ustring) : bool := match name with c :: _ => (c =? 0x23)%N | [] => false end.

Definition comparableInitialState (root : State) (descriptor : SemanticDescriptor) : State :=
  List.filter (fun e => negb (is_meta e.1) && negb (bool_decide (e.1 = ACTION_VARIABLE)) &&
    negb (bool_decide (e.1 ∈ rp_effectiveParamVars (sd_runProfile descriptor)))) root.

Definition is_initialize (action : ResolvedAction) : bool := match ra_phase action with Initialize => true | Transition => false end.

Fixpoint project (action : ResolvedAction) (root : State) (inputs : list ResolvedInput) (result : list (ustring * native))
    : res exn (list (ustring * native)) :=
  match inputs with
  | [] => Ok result
  | input :: rest =>
      let label := ra_id action ++ $"." ++ ri_id input in
      value ← readPath root (ri_path input) label;
      copy ← snapshot_value value;
      n ← decodeNative (ri_type input) copy label;
      project action root rest (obj_set result (ri_id input) n)
  end.

Definition projectInputs (action : ResolvedAction) (payload : State) (descriptor : SemanticDescriptor)
    : res exn (list (ustring * native)) :=
  let root := if is_initialize action then comparableInitialState payload descriptor else payload in
  project action root (ra_inputs action) [].

(** The check of suite preflight: the inputs and the observations of a state. *)
Fixpoint check_observations (observations : list ResolvedObservation) (state : State) : res exn unit :=
  match observations with
  | [] => Ok tt
  | observation :: rest =>
      match own state (ro_wireName observation) with
      | None => Err (Exn XError ($"trace observation is missing"))
      | Some value =>
          copy ← snapshot_value value;
          _ ← decodeNative (ro_type observation) copy (ro_id observation);
          check_observations rest state
      end
  end.

Definition validateDescriptorTraceState (descriptor : SemanticDescriptor) (action : ResolvedAction) (state : State) : res exn unit :=
  let payload := if is_initialize action then state
    else List.filter (fun e => bool_decide (e.1 ∈ rp_effectiveParamVars (sd_runProfile descriptor))) state in
  _ ← projectInputs action payload descriptor;
  check_observations (sd_observations descriptor) state.

(** ** Preparation *)

Definition all_actions (descriptor : SemanticDescriptor) : list ResolvedAction := sd_initializers descriptor ++ sd_actions descriptor.

(** Errors of the preparation: its own, or those of the descriptor. *)
Inductive prepare_error := Refused (e : DynamicBindingError) | BadDescriptor (e : exn).

Definition refuse {A} (r : res DynamicBindingError A) : res prepare_error A :=
  match r with Ok a => Ok a | Err e => Err (Refused e) end.
Definition with_descriptor {A} (r : res exn A) : res prepare_error A :=
  match r with Ok a => Ok a | Err e => Err (BadDescriptor e) end.

Definition prepareBinding (sha256 : list N -> ustring) (value : js) (registry : DynamicHandlerRegistry)
    : res prepare_error (SemanticDescriptor * ustring) :=
  descriptor ← with_descriptor (decodeSemanticDescriptor value);
  digest ← with_descriptor (semanticDescriptorDigest sha256 (descriptor_js descriptor));
  _ ← refuse (require (bool_decide (hr_semanticDigest registry = digest))
        (bindingError binding_digest_mismatch ($"dynamic registry digest does not match descriptor")));
  _ ← refuse (assertExactRegistry (hr_actions registry) (map ra_id (all_actions descriptor)) handler_missing handler_extra);
  _ ← refuse (assertExactRegistry (hr_observations registry) (map ro_id (sd_observations descriptor)) observer_missing observer_extra);
  mret (descriptor, digest).

(** [actionByWire.get(name)]: the last action written under a label. *)
Definition action_by_wire (descriptor : SemanticDescriptor) (name : ustring) : option ResolvedAction :=
  last (List.filter (fun action => bool_decide (name ∈ wire_labels action)) (all_actions descriptor)).

Definition assertCompatibleConfig (descriptor : SemanticDescriptor) (paramVars : option ustring) : res DynamicBindingError unit :=
  let expected := default [] (rp_configuredParamVar (sd_runProfile descriptor)) in
  let actual := default [] paramVars in
  require (bool_decide (actual = expected))
    (bindingError configuration_mismatch ($"expected paramVars=" ++ expected ++ $", got " ++ actual)).

(** ** The state of a binding *)

Inductive lifecycle_t := Fresh | Initialized | Poisoned.

#[export] Instance lifecycle_eq_dec : EqDecision lifecycle_t.
Proof. solve_decision. Defined.

(** A callback that was invoked. *)
Inductive invocation := ActionCalled (id : ustring) (inputs : list (ustring * native)) | ObserverCalled (id : ustring).

(** [b_aborted] is the reason of the running call's controller; [b_disposals] counts the
    times the caller's [dispose] was scheduled; [b_log], which the source does not keep,
    is what was invoked. *)
Record binding := Binding {
  b_lifecycle : lifecycle_t;
  b_running : bool;
  b_disposed : bool;
  b_aborted : option DynamicBindingError;
  b_disposals : nat;
  b_counts : list (ustring * Z);
  b_log : list invocation }.

Definition set_lifecycle (l : lifecycle_t) (b : binding) : binding :=
  Binding l (b_running b) (b_disposed b) (b_aborted b) (b_disposals b) (b_counts b) (b_log b).
Definition set_running (r : bool) (b : binding) : binding :=
  Binding (b_lifecycle b) r (b_disposed b) (b_aborted b) (b_disposals b) (b_counts b) (b_log b).
Definition set_aborted (e : option DynamicBindingError) (b : binding) : binding :=
  Binding (b_lifecycle b) (b_running b) (b_disposed b) e (b_disposals b) (b_counts b) (b_log b).
Definition abort (e : DynamicBindingError) (b : binding) : binding :=
  set_aborted (Some (default e (b_aborted b))) b.
Definition set_disposed (b : binding) : binding :=
  Binding (b_lifecycle b) (b_running b) true (b_aborted b) (S (b_disposals b)) (b_counts b) (b_log b).
Definition count_action (id : ustring) (b : binding) : binding :=
  Binding (b_lifecycle b) (b_running b) (b_disposed b) (b_aborted b) (b_disposals b)
    (map (fun e => if bool_decide (e.1 = id) then (e.1, (e.2 + 1)%Z) else e) (b_counts b)) (b_log b).
Definition log (i : invocation) (b : binding) : binding :=
  Binding (b_lifecycle b) (b_running b) (b_disposed b) (b_aborted b) (b_disposals b) (b_counts b) (b_log b ++ [i]).

Definition fresh_binding (descriptor : SemanticDescriptor) : binding :=
  Binding Fresh false false None 0 (map (fun action => (ra_id action, 0%Z)) (all_actions descriptor)) [].

Definition coverage (b : binding) : list (ustring * Z) := b_counts b.

Definition assertAllActionsCovered (b : binding) : res exn unit :=
  match List.filter (fun e => (e.2 =? 0)%Z) (b_counts b) with
  | [] => Ok tt
  | unseen => Err (Exn XError ($"uncovered actions: " ++ join ($", ") (map fst unseen)))
  end.

(** ** Errors and callbacks *)

Definition disposed_error : DynamicBindingError := bindingError binding_disposed ($"binding is disposed").
Definition poisoned_error : DynamicBindingError := bindingError binding_poisoned ($"binding is poisoned").
Definition reentrant_error : DynamicBindingError :=
  bindingError adapter_failure ($"dynamic binding callbacks must not be reentrant").
Definition aborted_error : DynamicBindingError :=
  bindingError binding_aborted ($"dynamic binding invocation aborted").

(** What a callback does to the binding while it runs: call the computer, dispose the
    binding, or, through the caller's signal, abort; an abort with a
    [DynamicBindingError] as its reason keeps it. *)
Inductive inner_call := InnerCompute | InnerDispose | InnerAbort (reason : option DynamicBindingError).

Inductive callback_outcome := CallbackThrew | CallbackReturned (value : native).

(** [during]: until the callback ends; [after]: between that and the moment the binding
    goes on, which for a synchronous call is nothing. *)
Record callback := Callback { during : list inner_call; outcome : callback_outcome; after : list inner_call }.

Inductive stage_t := Dispatch | Input | Adapter | Observation.

(** What is thrown inside the [try]: a binding error, or something else. *)
Definition failure : Type := stage_t * option DynamicBindingError.

Definition wrap_error (stage : stage_t) (wireAction : ustring) : DynamicBindingError :=
  bindingError match stage with Input => input_shape_mismatch | Observation => observation_shape_mismatch | _ => adapter_failure end
    ($"dynamic binding failed for action " ++ wireAction).

(** [rejectDeferredResult] *)
Definition is_deferred (value : native) : bool :=
  match value with
  | NPromise => true
  | NObj o => match own o ($"then") with Some NFunction => true | _ => false end
  | _ => false
  end.

Definition lift_at {A} (stage : stage_t) (r : res exn A) : method binding failure A :=
  fun b => match r with Ok a => (Ok a, b) | Err _ => (Err (stage, None), b) end.

Fixpoint encode_observations (observations : list ResolvedObservation) (observed : list native) (state : State) : res exn State :=
  match observations, observed with
  | observation :: rest, value :: observed' =>
      v ← encodeNative (ro_type observation) value ($"observation." ++ ro_id observation);
      encode_observations rest observed' (obj_set state (ro_wireName observation) v)
  | _, _ => Ok state
  end.

(** The dispatch of both computers. *)
Definition find_action (descriptor : SemanticDescriptor) (wireAction : ustring) : method binding failure ResolvedAction :=
  match action_by_wire descriptor wireAction with
  | None => throws (Dispatch, Some (bindingError unknown_action ($"unknown action " ++ wireAction)))
  | Some action =>
      l ← this b_lifecycle;
      _ ← when (negb (is_initialize action) && bool_decide (l = Fresh))
            (throws (Dispatch, Some (bindingError transition_before_initialization ($"transition before initialization"))));
      mret action
  end.

Definition when_disposed (stage : stage_t) : method binding failure unit :=
  d ← this b_disposed; when d (throws (stage, Some disposed_error)).

Definition when_poisoned (stage : stage_t) (e : option DynamicBindingError) : method binding failure unit :=
  l ← this b_lifecycle; when (bool_decide (l = Poisoned)) (throws (stage, e)).

(** ** The synchronous binding *)

(** Calls to the binding while it is running. *)
Definition inner_sync (b : binding) (i : inner_call) : binding :=
  match i with
  | InnerCompute => if b_disposed b then b else set_lifecycle Poisoned b
  | InnerDispose => if b_disposed b then b else set_disposed b
  | InnerAbort _ => b
  end.

Definition invoke_sync (stage : stage_t) (i : invocation) (c : callback) : method binding failure native :=
  fun b =>
    let b' := foldl inner_sync (log i b) (during c) in
    match outcome c with CallbackThrew => (Err (stage, None), b') | CallbackReturned value => (Ok value, b') end.

Fixpoint observe_sync (observations : list ResolvedObservation) (observers : list callback) : method binding failure (list native) :=
  match observations with
  | [] => mret []
  | observation :: rest =>
      _ ← when_disposed Observation;
      match observers with
      | [] => throws (Observation, None)
      | c :: observers' =>
          value ← invoke_sync Observation (ObserverCalled (ro_id observation)) c;
          _ ← when (is_deferred value) (throws (Observation, None));
          values ← observe_sync rest observers';
          mret (value :: values)
      end
  end.

Definition is_undefined (value : native) : bool := match value with NUndefined => true | _ => false end.

Definition sync_body (descriptor : SemanticDescriptor) (wireAction : ustring) (payload : State) (handler : callback)
    (observers : list callback) : method binding failure State :=
  action ← find_action descriptor wireAction;
  inputs ← lift_at Input (projectInputs action payload descriptor);
  result ← invoke_sync Adapter (ActionCalled (ra_id action) inputs) handler;
  _ ← when (is_deferred result) (throws (Adapter, None));
  _ ← when_disposed Adapter;
  _ ← when (negb (is_undefined result)) (throws (Adapter, None));
  _ ← when_poisoned Adapter (Some reentrant_error);
  _ ← modify (set_lifecycle Initialized);
  observed ← observe_sync (sd_observations descriptor) observers;
  _ ← when_poisoned Observation None;
  _ ← when_disposed Observation;
  state ← lift_at Observation (encode_observations (sd_observations descriptor) observed []);
  _ ← modify (count_action (ra_id action));
  mret state.

(** The catch and the finally of a call: [keep] are the errors thrown as they are. *)
Definition settle_call {A} (keep : stage_t -> DynamicBindingError -> bool) (wireAction : ustring)
    (r : res failure A * binding) : res DynamicBindingError A * binding :=
  match r with
  | (Ok a, b) => (Ok a, set_running false b)
  | (Err (stage, e), b) =>
      (Err match e with
           | Some e => if keep stage e then e else wrap_error stage wireAction
           | None => wrap_error stage wireAction
           end, set_running false (set_lifecycle Poisoned b))
  end.

Definition keep_sync (stage : stage_t) (e : DynamicBindingError) : bool := match stage with Dispatch => true | _ => false end.

Definition compute (descriptor : SemanticDescriptor) (wireAction : ustring) (payload : State) (handler : callback)
    (observers : list callback) (b : binding) : res DynamicBindingError State * binding :=
  if b_disposed b then (Err disposed_error, b)
  else if bool_decide (b_lifecycle b = Poisoned) then (Err poisoned_error, b)
  else if b_running b then (Err reentrant_error, set_lifecycle Poisoned b)
  else settle_call keep_sync wireAction (sync_body descriptor wireAction payload handler observers (set_running true b)).

Definition dispose (b : binding) : binding := if b_disposed b then b else set_disposed b.

(** ** The asynchronous binding *)

Definition inner_async (b : binding) (i : inner_call) : binding :=
  match i with
  | InnerCompute =>
      if b_disposed b then b
      else if bool_decide (b_lifecycle b = Poisoned) then b
      else abort reentrant_error (set_lifecycle Poisoned b)
  | InnerDispose => if b_disposed b then b else abort disposed_error (set_disposed b)
  | InnerAbort reason => abort (default aborted_error reason) b
  end.

Definition assertActive (stage : stage_t) : method binding failure unit :=
  _ ← when_disposed stage;
  a ← this b_aborted;
  _ ← match a with Some reason => throws (stage, Some reason) | None => mret tt end;
  when_poisoned stage (Some poisoned_error).

(** [invokeUntilAborted]: an abort while the callback runs is what the caller sees. *)
Definition invoke_async (stage : stage_t) (i : invocation) (c : callback) : method binding failure native :=
  fun b =>
    match b_aborted b with
    | Some reason => (Err (stage, Some reason), b)
    | None =>
        let b1 := foldl inner_async (log i b) (during c) in
        let b2 := foldl inner_async b1 (after c) in
        match b_aborted b1, outcome c with
        | Some reason, _ => (Err (stage, Some reason), b2)
        | None, CallbackThrew => (Err (stage, None), b2)
        | None, CallbackReturned value => (Ok value, b2)
        end
    end.

Fixpoint observe_async (observations : list ResolvedObservation) (observers : list callback) : method binding failure (list native) :=
  match observations with
  | [] => mret []
  | observation :: rest =>
      _ ← assertActive Observation;
      match observers with
      | [] => throws (Observation, None)
      | c :: observers' =>
          value ← invoke_async Observation (ObserverCalled (ro_id observation)) c;
          _ ← assertActive Observation;
          values ← observe_async rest observers';
          mret (value :: values)
      end
  end.

Definition async_body (descriptor : SemanticDescriptor) (wireAction : ustring) (payload : State) (handler : callback)
    (observers : list callback) : method binding failure State :=
  _ ← assertActive Dispatch;
  action ← find_action descriptor wireAction;
  inputs ← lift_at Input (projectInputs action payload descriptor);
  _ ← assertActive Input;
  result ← invoke_async Adapter (ActionCalled (ra_id action) inputs) handler;
  _ ← assertActive Adapter;
  _ ← when (negb (is_undefined result)) (throws (Adapter, None));
  _ ← modify (set_lifecycle Initialized);
  observed ← observe_async (sd_observations descriptor) observers;
  _ ← assertActive Observation;
  state ← lift_at Observation (encode_observations (sd_observations descriptor) observed []);
  _ ← modify (count_action (ra_id action));
  mret state.

Definition keep_async (stage : stage_t) (e : DynamicBindingError) : bool :=
  match stage with Dispatch => true | _ => false end ||
  bool_decide (db_code e = binding_aborted) || bool_decide (db_code e = binding_disposed).

(** [context]: whether the caller's signal is already aborted, and its reason. *)
Definition compute_async (descriptor : SemanticDescriptor) (wireAction : ustring) (payload : State)
    (context : option (option DynamicBindingError)) (handler : callback) (observers : list callback) (b : binding)
    : res DynamicBindingError State * binding :=
  if b_disposed b then (Err disposed_error, b)
  else if bool_decide (b_lifecycle b = Poisoned) then (Err poisoned_error, b)
  else if b_running b then (Err reentrant_error, abort reentrant_error (set_lifecycle Poisoned b))
  else
    let b1 := set_aborted (default aborted_error <$> context) (set_running true b) in
    let '(r, b2) := settle_call keep_async wireAction (async_body descriptor wireAction payload handler observers b1) in
    (r, set_aborted None b2).

(** ** Runs *)

(** A call of the computer with what the callbacks do, or a disposal, when no call is
    running; a call from inside a callback is an [inner_call]. *)
Inductive binding_event :=
| Compute (wireAction : ustring) (payload : State) (context : option (option DynamicBindingError)) (handler : callback)
    (observers : list callback)
| Dispose.

(** [async]: which of the two bindings. *)
Definition binding_step (async : bool) (descriptor : SemanticDescriptor) (b : binding) (e : binding_event)
    : option (res DynamicBindingError State) * binding :=
  match e with
  | Dispose => (None, dispose b)
  | Compute wireAction payload context handler observers =>
      let '(r, b') :=
        if async then compute_async descriptor wireAction payload context handler observers b
        else compute descriptor wireAction payload handler observers b in
      (Some r, b')
  end.

Fixpoint binding_run (async : bool) (descriptor : SemanticDescriptor) (b : binding) (es : list binding_event)
    : list (option (res DynamicBindingError State)) * binding :=
  match es with
  | [] => ([], b)
  | e :: es' =>
      let '(r, b1) := binding_step async descriptor b e in
      let '(rs, b2) := binding_run async descriptor b1 es' in
      (r :: rs, b2)
  end.
