(* ===== verification/BindingFacts.v ===== *)
(** * What a run of a dynamic binding guarantees

    Both bindings of [src/src/dynamic-binding.ts], over any sequence of calls and
    disposals, whatever the callbacks do: what was invoked, in which order, what was
    answered, what was counted. One body of lemmas serves both, through the triples of
    [Prelude]. *)

From S2P Require Import Prelude JsNumber Utf16 JsData StrictJson Decode JsText ModelTypes Canonical Descriptor DescriptorFacts Protocol OpaqueItf NativeCodec CodecFacts Digest DynamicBinding.

(** ** One call *)

(** A call that reached its handler, with the inputs the handler was given. *)
Record reached := Reached { re_wire : ustring; re_payload : State; re_action : ResolvedAction; re_inputs : list (ustring * native) }.

Section calls.
Variable descriptor : SemanticDescriptor.

(** The callbacks of a call that runs to its end. *)
Definition callbacks (d : reached) : list invocation :=
  ActionCalled (ra_id (re_action d)) (re_inputs d) :: map (fun o => ObserverCalled (ro_id o)) (sd_observations descriptor).

Definition reached_ok (d : reached) : Prop :=
  action_by_wire descriptor (re_wire d) = Some (re_action d) /\
  projectInputs (re_action d) (re_payload d) descriptor = Ok (re_inputs d).

(** A state as the descriptor declares it. *)
Definition declared_state (state : State) : Prop :=
  map fst state ≡ₚ map ro_wireName (sd_observations descriptor) /\
  Forall (fun o => exists v, own state (ro_wireName o) = Some v /\ fits (ro_type o) v = true) (sd_observations descriptor).

Definition disposed_once (b : binding) : Prop := b_disposals b = if b_disposed b then 1%nat else 0%nat.

(** Since [b0], the callbacks [l] were invoked and nothing was counted. *)
Definition since (b0 : binding) (l : list invocation) (b : binding) : Prop :=
  b_log b = b_log b0 ++ l /\ b_counts b = b_counts b0 /\ disposed_once b.

(** The lifecycle is [L] unless a callback poisoned the binding. *)
Definition steady (b0 : binding) (l : list invocation) (L : lifecycle_t) (b : binding) : Prop :=
  since b0 l b /\ (b_lifecycle b = Poisoned \/ b_lifecycle b = L).

Lemma inner_sync_steady b0 l L ins : forall b, steady b0 l L b -> steady b0 l L (foldl inner_sync b ins).
Proof.
  induction ins as [|i ins IH]; intros b H; [done|]. cbn [foldl]. apply IH. destruct b as [lc r d a n c g]. destruct H as [(? & ? & ?) ?].
  unfold steady, since, disposed_once in *. destruct i; cbn in *; destruct d; cbn; subst; split_and!; auto.
Qed.

Lemma inner_async_steady b0 l L ins : forall b, steady b0 l L b -> steady b0 l L (foldl inner_async b ins).
Proof.
  induction ins as [|i ins IH]; intros b H; [done|]. cbn [foldl]. apply IH. destruct b as [lc r d a n c g]. destruct H as [(? & ? & ?) ?].
  unfold steady, since, disposed_once in *. destruct i; cbn in *; destruct d; try case_bool_decide; cbn; subst; split_and!; auto.
Qed.

Lemma steady_log b0 l L i b : steady b0 l L b -> steady b0 (l ++ [i]) L (log i b).
Proof. intros [(Hl & Hc & Hd) HL]. unfold steady, since, disposed_once. cbn. rewrite Hl. by rewrite <-app_assoc. Qed.

(** A failed call: nothing, or a beginning of the callbacks of a call that reached its
    handler, was invoked. *)
Definition may_reach (L : lifecycle_t) (wireAction : ustring) (payload : State) (d : reached) : Prop :=
  reached_ok d /\ re_wire d = wireAction /\ re_payload d = payload /\ (L = Initialized \/ is_initialize (re_action d) = true).

Definition failed (b0 : binding) (wireAction : ustring) (payload : State) (b : binding) : Prop :=
  since b0 [] b \/ exists d l, may_reach (b_lifecycle b0) wireAction payload d /\ l `prefix_of` callbacks d /\ since b0 l b.

Definition succeeded (b0 : binding) (wireAction : ustring) (payload : State) (state : State) (b : binding) : Prop :=
  b_disposed b = false /\ b_lifecycle b = Initialized /\ disposed_once b /\
  exists d, may_reach (b_lifecycle b0) wireAction payload d /\ b_log b = b_log b0 ++ callbacks d /\
    b_counts b = b_counts (count_action (ra_id (re_action d)) b0) /\
    exists observed, encode_observations (sd_observations descriptor) observed [] = Ok state /\
      length observed = length (sd_observations descriptor).

(** ** The pieces of a body *)

Lemma when_disposed_triple stage (P : binding -> Prop) (R : failure -> binding -> Prop) :
  (forall e b, P b -> R e b) -> triple P (when_disposed stage) (fun _ b => P b /\ b_disposed b = false) R.
Proof. intros HR b Hb. unfold when_disposed, this, when, throws, mbind, method_mbind. destruct (b_disposed b) eqn:E; cbn; [by apply HR|done]. Qed.

Lemma when_poisoned_triple stage e (P : binding -> Prop) (R : failure -> binding -> Prop) :
  (forall e b, P b -> R e b) -> triple P (when_poisoned stage e) (fun _ b => P b /\ b_lifecycle b <> Poisoned) R.
Proof. intros HR b Hb. unfold when_poisoned, this, when, throws, mbind, method_mbind. case_bool_decide; cbn; [by apply HR|done]. Qed.

Lemma when_throws_triple {A : Type} (c : bool) e (P : binding -> Prop) (R : failure -> binding -> Prop) :
  (forall e b, P b -> R e b) -> triple P (when c (throws e)) (fun _ b => P b /\ c = false) R.
Proof. intros HR b Hb. destruct c; cbn; [by apply HR|done]. Qed.

Lemma assertActive_triple stage (P : binding -> Prop) (R : failure -> binding -> Prop) :
  (forall e b, P b -> R e b) ->
  triple P (assertActive stage) (fun _ b => P b /\ b_disposed b = false /\ b_lifecycle b <> Poisoned) R.
Proof.
  intros HR b Hb. unfold assertActive, when_disposed, when_poisoned, this, when, throws, mbind, method_mbind.
  destruct (b_disposed b) eqn:E; cbn; [by apply HR|]. destruct (b_aborted b); cbn; [by apply HR|]. case_bool_decide; cbn; [by apply HR|done].
Qed.

Lemma lift_at_triple {A} stage (r : res exn A) (P : binding -> Prop) (R : failure -> binding -> Prop) :
  (forall e b, P b -> R e b) -> triple P (lift_at stage r) (fun a b => P b /\ r = Ok a) R.
Proof. intros HR b Hb. unfold lift_at. destruct r; cbn; [done|by apply HR]. Qed.

Lemma invoke_sync_triple b0 l L stage i c :
  triple (steady b0 l L) (invoke_sync stage i c) (fun _ b => steady b0 (l ++ [i]) L b) (fun _ b => steady b0 (l ++ [i]) L b).
Proof.
  intros b Hb. unfold invoke_sync. pose proof (inner_sync_steady b0 _ L (during c) _ (steady_log _ _ _ i _ Hb)). by destruct (outcome c).
Qed.

Lemma invoke_async_triple b0 l L stage i c :
  triple (steady b0 l L) (invoke_async stage i c) (fun _ b => steady b0 (l ++ [i]) L b)
    (fun _ b => steady b0 l L b \/ steady b0 (l ++ [i]) L b).
Proof.
  intros b Hb. unfold invoke_async. destruct (b_aborted b); [by left|].
  pose proof (inner_async_steady b0 _ L (during c) _ (steady_log _ _ _ i _ Hb)) as H1.
  pose proof (inner_async_steady b0 _ L (after c) _ H1) as H2. destruct (b_aborted _); [by right|]. destruct (outcome c); [by right|done].
Qed.

(** ** The observations *)

Abbreviation observers_of := (map (fun o => ObserverCalled (ro_id o))).

(** What the observation loop of either binding promises. *)
Definition observes (b0 : binding) (l : list invocation) (L : lifecycle_t) (os : list ResolvedObservation)
    (m : method binding failure (list native)) : Prop :=
  triple (steady b0 l L) m
    (fun vs b => steady b0 (l ++ observers_of os) L b /\ length vs = length os)
    (fun _ b => exists l', l' `prefix_of` observers_of os /\ steady b0 (l ++ l') L b).

Lemma observed_none b0 l L (os : list ResolvedObservation) b : steady b0 l L b ->
  exists l', l' `prefix_of` observers_of os /\ steady b0 (l ++ l') L b.
Proof. exists []. rewrite app_nil_r. split; [by apply prefix_nil|done]. Qed.

Lemma observed_one b0 l L o (os : list ResolvedObservation) b : steady b0 (l ++ [ObserverCalled (ro_id o)]) L b ->
  exists l', l' `prefix_of` observers_of (o :: os) /\ steady b0 (l ++ l') L b.
Proof. exists [ObserverCalled (ro_id o)]. split; [|done]. by exists (observers_of os). Qed.

(** One more observation before the loop over the rest. *)
Lemma observes_cons b0 l L o os (m : method binding failure (list native)) v :
  observes b0 (l ++ [ObserverCalled (ro_id o)]) L os m ->
  triple (steady b0 (l ++ [ObserverCalled (ro_id o)]) L) (m ≫= fun vs => mret (v :: vs))
    (fun vs b => steady b0 (l ++ observers_of (o :: os)) L b /\ length vs = length (o :: os))
    (fun _ b => exists l', l' `prefix_of` observers_of (o :: os) /\ steady b0 (l ++ l') L b).
Proof.
  intros H b Hb. specialize (H b Hb). unfold mbind, method_mbind. destruct (m b) as [[vs|e] b'].
  - destruct H as [H Hl]. cbn. rewrite <-app_assoc in H. split; [exact H|by rewrite Hl].
  - destruct H as (l' & Hp & H). rewrite <-app_assoc in H. exists (ObserverCalled (ro_id o) :: l'). split; [by apply prefix_cons|exact H].
Qed.

Lemma observe_sync_ok b0 L os : forall l cs, observes b0 l L os (observe_sync os cs).
Proof.
  induction os as [|o os IH]; intros l cs; cbn [observe_sync].
  { apply triple_ret. intros b Hb. by rewrite app_nil_r. }
  eapply triple_bind; [apply when_disposed_triple; intros; by apply observed_none|intros []].
  destruct cs as [|c cs]; [apply triple_throws; intros b [Hb _]; by apply observed_none|].
  eapply triple_bind; [eapply triple_conseq; [apply (invoke_sync_triple b0 l L)|by intros b [Hb _]|intros v b Hb; exact Hb|]|].
  { intros e b Hb. by apply observed_one. }
  intros v. eapply triple_bind; [apply (when_throws_triple (A := unit)); intros; by apply observed_one|intros []].
  eapply triple_conseq; [apply observes_cons, IH|by intros b [Hb _]|done|done].
Qed.

Lemma observe_async_ok b0 L os : forall l cs, observes b0 l L os (observe_async os cs).
Proof.
  induction os as [|o os IH]; intros l cs; cbn [observe_async].
  { apply triple_ret. intros b Hb. by rewrite app_nil_r. }
  eapply triple_bind; [apply assertActive_triple; intros; by apply observed_none|intros []].
  destruct cs as [|c cs]; [apply triple_throws; intros b [Hb _]; by apply observed_none|].
  eapply triple_bind; [eapply triple_conseq; [apply (invoke_async_triple b0 l L)|by intros b [Hb _]|intros v b Hb; exact Hb|]|].
  { intros e b [Hb|Hb]; [by apply observed_none|by apply observed_one]. }
  intros v. eapply triple_bind; [apply assertActive_triple; intros; by apply observed_one|intros []].
  eapply triple_conseq; [apply observes_cons, IH|by intros b [Hb _]|done|done].
Qed.

(** ** The bodies *)

Section body.
Variables (b0 : binding) (wireAction : ustring) (payload : State).
Hypothesis not_poisoned : b_lifecycle b0 <> Poisoned.

Abbreviation fails := (fun (_ : failure) b => failed b0 wireAction payload b).

Lemma fails_early e b : since b0 [] b -> fails e b.
Proof. by left. Qed.

Lemma fails_late (d : reached) l L b : may_reach (b_lifecycle b0) wireAction payload d -> l `prefix_of` callbacks d -> steady b0 l L b ->
  failed b0 wireAction payload b.
Proof. intros Hd Hl [Hb _]. right. eauto. Qed.

(** Until the handler runs. *)
Definition waiting (b : binding) : Prop := since b0 [] b /\ b_lifecycle b = b_lifecycle b0.

Lemma find_action_triple :
  triple waiting (find_action descriptor wireAction)
    (fun action b => waiting b /\ action_by_wire descriptor wireAction = Some action /\
       (b_lifecycle b0 = Initialized \/ is_initialize action = true)) fails.
Proof.
  intros b [Hb Hl]. unfold find_action, this, when, throws, mbind, method_mbind. destruct (action_by_wire _ _) as [action|] eqn:E; [|by left].
  destruct (is_initialize action) eqn:Ei; cbn; [by split_and!; auto|]. rewrite Hl. case_bool_decide; cbn; [by left|].
  split; [done|]. split; [done|]. left. destruct (b_lifecycle b0); congruence.
Qed.

(** What comes after the handler. *)
Lemma conclude_triple d : may_reach (b_lifecycle b0) wireAction payload d -> forall observed,
  triple (fun b => (steady b0 (callbacks d) Initialized b /\ length observed = length (sd_observations descriptor)) /\
            b_lifecycle b <> Poisoned /\ b_disposed b = false)
    (state ← lift_at Observation (encode_observations (sd_observations descriptor) observed []);
     _ ← modify (count_action (ra_id (re_action d)));
     mret state)
    (succeeded b0 wireAction payload) fails.
Proof.
  intros Hd observed b [[[Hb HL] Hlen] [Hp Hdis]]. unfold lift_at, modify, mbind, method_mbind.
  destruct (encode_observations _ _ _) as [state|] eqn:E; [|right; exists d, (callbacks d); split_and!; [done..|done]].
  destruct Hb as (Hlog & Hc & Hd1). unfold succeeded. cbn.
  split; [done|]. split; [by destruct HL|]. split; [exact Hd1|]. exists d. split; [done|]. split; [done|]. rewrite Hc. split; [done|].
  by exists observed.
Qed.

Lemma waiting_steady b : waiting b -> steady b0 [] (b_lifecycle b0) b.
Proof. intros [? ?]. by split; [|right]. Qed.

(** From the handler on: [invoked] has called it, and [m] is the rest. *)
Lemma initialize_triple L l : triple (fun b : binding => steady b0 l L b /\ b_lifecycle b <> Poisoned) (modify (set_lifecycle Initialized))
  (fun _ => steady b0 l Initialized) fails.
Proof. apply triple_modify. intros b [[Hb _] _]. by split; [|right]. Qed.

Lemma sync_body_triple handler observers : triple waiting (sync_body descriptor wireAction payload handler observers) (succeeded b0 wireAction payload) fails.
Proof.
  unfold sync_body. eapply triple_bind; [apply find_action_triple|intros action].
  eapply triple_bind; [apply lift_at_triple; intros e b [[Hb _] _]; by left|intros inputs].
  set (d := Reached wireAction payload action inputs).
  apply (triple_pure (may_reach (b_lifecycle b0) wireAction payload d) waiting); [by intros b ((Hb & Ha & Hp) & Hi)|intros Hd].
  assert (forall L b, steady b0 [ActionCalled (ra_id action) inputs] L b -> failed b0 wireAction payload b) as Hone.
  { intros L b' Hb'. eapply fails_late; [exact Hd| |exact Hb']. by exists (observers_of (sd_observations descriptor)). }
  eapply triple_bind; [eapply triple_conseq; [apply (invoke_sync_triple b0 [])|by apply waiting_steady|intros v b Hb; exact Hb|by intros e b; apply Hone]|intros result].
  eapply triple_bind; [apply (when_throws_triple (A := unit)); by intros e b; apply Hone|intros []].
  eapply triple_bind; [apply when_disposed_triple; by intros e b [Hb _]; eapply Hone|intros []].
  eapply triple_bind; [apply (when_throws_triple (A := unit)); by intros e b [[Hb _] _]; eapply Hone|intros []].
  eapply triple_bind; [apply when_poisoned_triple; by intros e b [[[Hb _] _] _]; eapply Hone|intros []].
  eapply triple_bind; [eapply triple_conseq; [apply (initialize_triple (b_lifecycle b0) [ActionCalled (ra_id action) inputs])|by intros b [[[[? ?] ?] ?] ?]|done|done]|intros []].
  eapply triple_bind; [eapply triple_conseq; [apply (observe_sync_ok b0 Initialized _ [ActionCalled (ra_id action) inputs])|done|intros v b Hb; exact Hb|]|intros observed].
  { intros e b (l' & Hp & Hb). eapply fails_late; [exact Hd| |exact Hb]. by apply prefix_cons. }
  assert (forall b, steady b0 (callbacks d) Initialized b -> failed b0 wireAction payload b) as Hall by by intros b; apply (fails_late d).
  eapply triple_bind; [apply when_poisoned_triple; by intros e b [Hb _]; apply Hall|intros []].
  eapply triple_bind; [apply when_disposed_triple; by intros e b [[Hb _] _]; apply Hall|intros []].
  eapply triple_conseq; [apply (conclude_triple d Hd observed)|by intros b [[? ?] ?]|done|done].
Qed.

Lemma async_body_triple handler observers : triple waiting (async_body descriptor wireAction payload handler observers) (succeeded b0 wireAction payload) fails.
Proof.
  unfold async_body. eapply triple_bind; [apply assertActive_triple; intros e b [Hb _]; by left|intros []].
  eapply triple_bind; [eapply triple_conseq; [apply find_action_triple|by intros b [? ?]|intros a b Hb; exact Hb|done]|intros action].
  eapply triple_bind; [apply lift_at_triple; intros e b [[Hb _] _]; by left|intros inputs].
  eapply triple_bind; [apply assertActive_triple; intros e b [[[Hb _] _] _]; by left|intros []].
  set (d := Reached wireAction payload action inputs).
  apply (triple_pure (may_reach (b_lifecycle b0) wireAction payload d) waiting); [by intros b (((Hb & Ha & Hp) & Hi) & _)|intros Hd].
  assert (forall L b, steady b0 [ActionCalled (ra_id action) inputs] L b -> failed b0 wireAction payload b) as Hone.
  { intros L b' Hb'. eapply fails_late; [exact Hd| |exact Hb']. by exists (observers_of (sd_observations descriptor)). }
  eapply triple_bind; [eapply triple_conseq; [apply (invoke_async_triple b0 [])|by apply waiting_steady|intros v b Hb; exact Hb|]|intros result].
  { intros e b [[Hb _]|Hb]; [by left|by eapply Hone]. }
  eapply triple_bind; [apply assertActive_triple; by intros e b; apply Hone|intros []].
  eapply triple_bind; [apply (when_throws_triple (A := unit)); by intros e b [Hb _]; eapply Hone|intros []].
  eapply triple_bind; [eapply triple_conseq; [apply (initialize_triple (b_lifecycle b0) [ActionCalled (ra_id action) inputs])|by intros b [[? [? ?]] ?]|done|done]|intros []].
  eapply triple_bind; [eapply triple_conseq; [apply (observe_async_ok b0 Initialized _ [ActionCalled (ra_id action) inputs])|done|intros v b Hb; exact Hb|]|intros observed].
  { intros e b (l' & Hp & Hb). eapply fails_late; [exact Hd| |exact Hb]. by apply prefix_cons. }
  eapply triple_bind; [apply assertActive_triple; by intros e b [Hb _]; eapply fails_late|intros []].
  eapply triple_conseq; [apply (conclude_triple d Hd observed)|by intros b [[? ?] [? ?]]|done|done].
Qed.
End body.

(** ** The states a call answers *)

Hypothesis wire_names : NoDup (map ro_wireName (sd_observations descriptor)).
Hypothesis types : Forall (fun o => type_valid (ro_type o)) (sd_observations descriptor).

Lemma encode_observations_spec os : NoDup (map ro_wireName os) -> Forall (fun o => type_valid (ro_type o)) os ->
  forall observed acc state, length observed = length os -> Forall (fun o => ro_wireName o ∉ map fst acc) os ->
  encode_observations os observed acc = Ok state ->
  exists vs, Forall2 (fun o v => fits (ro_type o) v = true) os vs /\ state ≡ₚ acc ++ zip (map ro_wireName os) vs.
Proof.
  induction os as [|o os IH]; intros Hnd Ht [|x observed] acc state Hlen Hacc H; try discriminate Hlen; cbn [encode_observations] in H.
  { injection H as <-. exists []. split; [constructor|by rewrite app_nil_r]. }
  apply NoDup_cons in Hnd as [Ho Hnd]. apply Forall_cons in Ht as [Ht0 Ht]. apply Forall_cons in Hacc as [Hacc0 Hacc].
  apply res_bind_Ok in H as (v & Hv & H). pose proof (obj_set_fresh acc _ v Hacc0) as Hset.
  apply IH in H as (vs & HF & Hp); [|done|done|by injection Hlen|].
  - exists (v :: vs). split; [constructor; [by eapply encode_fits|done]|]. rewrite Hp, Hset. apply (Permutation_middle acc _ (ro_wireName o, v)).
  - rewrite Forall_forall in *. intros o' Ho'. rewrite Hset. cbn [map fst]. rewrite not_elem_of_cons. split; [|by apply Hacc].
    intros E. apply Ho. rewrite <-E. by apply (list_elem_of_fmap_2 ro_wireName).
Qed.

Lemma encode_observations_declared observed state : length observed = length (sd_observations descriptor) ->
  encode_observations (sd_observations descriptor) observed [] = Ok state -> declared_state state.
Proof.
  intros Hlen H. apply encode_observations_spec in H as (vs & HF & Hp); [|done..|apply Forall_forall; intros ? _; apply not_elem_of_nil].
  cbn [app] in Hp. assert (length vs = length (map ro_wireName (sd_observations descriptor))) as Hl.
  { apply Forall2_length in HF. by rewrite length_map. }
  assert (map fst state ≡ₚ map ro_wireName (sd_observations descriptor)) as Hn by by rewrite Hp, zip_names.
  split; [done|].
  pose proof (own_zip (map (fun o => (ro_wireName o, ro_type o)) (sd_observations descriptor)) (fun t v => fits t v = true) vs) as Hz.
  rewrite map_map in Hz. cbn [fst] in Hz. specialize (Hz wire_names ltac:(by rewrite Forall2_fmap_l)).
  rewrite Forall_fmap in Hz. eapply Forall_impl; [exact Hz|]. intros o (v & Hv & Hf). exists v. cbn in Hv. split; [|done].
  rewrite <-Hv. apply own_perm; [by rewrite Hn|done].
Qed.

(** ** Calls and disposals *)

Definition alive (b : binding) : Prop :=
  b_running b = false /\ b_disposed b = false /\ b_lifecycle b <> Poisoned /\ disposed_once b.
Definition dead (b : binding) : Prop :=
  b_running b = false /\ (b_disposed b = true \/ b_lifecycle b = Poisoned) /\ disposed_once b.

(** A body between the entry and the exit of its call. *)
Lemma settled {keep wireAction payload} (b b1 : binding) (m : method binding failure State) :
  alive b -> since b [] b1 -> b_lifecycle b1 = b_lifecycle b -> b_counts b1 = b_counts b -> b_log b1 = b_log b ->
  triple (waiting b1) m (succeeded b1 wireAction payload) (fun _ b => failed b1 wireAction payload b) ->
  forall r b2, settle_call keep wireAction (m b1) = (r, b2) ->
  match r with Ok state => alive b2 /\ succeeded b wireAction payload state b2 | Err _ => dead b2 /\ failed b wireAction payload b2 end.
Proof.
  intros (Hr & Hd & Hp & Ho) Hs Hl Hc Hg Hm r b2 H. assert (waiting b1 b1) as Hw.
  { split; [|done]. split_and!; [by rewrite app_nil_r|done|apply Hs]. }
  specialize (Hm b1 Hw). unfold succeeded, failed, since in *. cbn in Hm. rewrite Hl, Hc, Hg in Hm. destruct (m b1) as [[state|[stage e]] b3]; injection H as <- <-.
  - destruct Hm as (? & Hi & ? & ?). split; [|done]. unfold alive. cbn. rewrite Hi. done.
  - split; [|exact Hm]. unfold dead. cbn. split_and!; [done|by right|]. by destruct Hm as [(_ & _ & ?)|(? & ? & ? & ? & _ & _ & ?)].
Qed.

Lemma compute_spec async b wireAction payload context handler observers r b' : alive b ->
  binding_step async descriptor b (Compute wireAction payload context handler observers) = (Some r, b') ->
  match r with Ok state => alive b' /\ succeeded b wireAction payload state b' | Err _ => dead b' /\ failed b wireAction payload b' end.
Proof.
  intros Ha. pose proof Ha as (Hr & Hd & Hp & Ho). cbn [binding_step]. unfold compute, compute_async. rewrite Hr, Hd, (bool_decide_eq_false_2 _ Hp).
  destruct async.
  - set (b1 := set_aborted _ _). destruct (settle_call _ _ _) as [r' b2] eqn:E. intros [= <- <-].
    apply (settled (wireAction := wireAction) (payload := payload) b b1) in E; [|done|split_and!; [by rewrite app_nil_r|done|done]|done..|by apply async_body_triple]. by destruct r'.
  - set (b1 := set_running _ _). destruct (settle_call _ _ _) as [r' b2] eqn:E. intros [= <- <-].
    apply (settled (wireAction := wireAction) (payload := payload) b b1) in E; [done|done|split_and!; [by rewrite app_nil_r|done|done]|done..|by apply sync_body_triple].
Qed.

Lemma dispose_spec b : alive b -> dead (dispose b) /\ since b [] (dispose b).
Proof.
  intros (? & Hd & ? & Ho). unfold dispose, dead, since, disposed_once in *. rewrite Hd in *. cbn. rewrite Ho, app_nil_r. by split_and!; auto.
Qed.

(** A binding that was disposed or poisoned refuses every call. *)
Lemma dead_run async es : forall b rs b', dead b -> binding_run async descriptor b es = (rs, b') ->
  (exists errors, omap id rs = map Err errors) /\ dead b' /\ b_log b' = b_log b /\ b_counts b' = b_counts b.
Proof.
  induction es as [|e es IH]; intros b rs b' Hb H; cbn [binding_run] in H; [injection H as <- <-; split; [by exists []|done]|].
  destruct (binding_step async descriptor b e) as [r b1] eqn:Es. destruct (binding_run async descriptor b1 es) as [rs' b2] eqn:Er.
  injection H as <- <-. destruct Hb as (Hrun & Hb & Hd).
  assert (b1 = b /\ (r = None \/ exists e, r = Some (Err e)) \/ b1 = dispose b /\ r = None) as Hs.
  { destruct e; cbn [binding_step] in Es; [left|right; by injection Es as <- <-]. unfold compute, compute_async in Es.
    destruct Hb as [E|E]; rewrite ?E, ?(bool_decide_eq_true_2 _ E) in Es; destruct async; try destruct (b_disposed b); injection Es as <- <-; by eauto. }
  assert (dead b1 /\ b_log b1 = b_log b /\ b_counts b1 = b_counts b) as (Hb1 & Hl & Hc).
  { destruct Hs as [[-> _]|[-> _]]; [done|]. unfold dispose, dead, disposed_once in *. destruct (b_disposed b) eqn:E; [by rewrite E|].
    cbn. rewrite Hd. by split_and!; auto. }
  apply IH in Er as ((errors & E) & ? & ? & ?); [|done]. rewrite <-Hl, <-Hc. split; [|done].
  destruct Hs as [[_ [->|[e' ->]]]|[_ ->]]; cbn; rewrite E; [by exists errors|by exists (e' :: errors)|by exists errors].
Qed.

(** ** Runs *)

(** The calls of a run, in order. *)
Definition calls (es : list binding_event) : list (ustring * State) :=
  omap (fun e => match e with Compute wireAction payload _ _ _ => Some (wireAction, payload) | Dispose => None end) es.

(** A run from a binding that is [start]ed or not: the first calls, [ds], were answered
    with [states], and the next one, where there is one in [tried], began and failed. *)
Record behaves (start : lifecycle_t) (es : list binding_event) (outcomes : list (res DynamicBindingError State))
    (invoked : list invocation) (ds tried : list reached) : Prop := {
  answers : exists states errors, outcomes = map Ok states ++ map Err errors /\ length states = length ds /\
    (length tried <= 1)%nat /\ (errors = [] -> tried = []) /\ Forall declared_state states;
  requests : map (fun d => (re_wire d, re_payload d)) (ds ++ tried) `prefix_of` calls es;
  dispatched : Forall reached_ok (ds ++ tried);
  initialized : start = Initialized \/ match ds ++ tried with [] => True | d :: _ => is_initialize (re_action d) = true end;
  invocations : exists begun, invoked = concat (map callbacks ds) ++ begun /\ begun `prefix_of` concat (map callbacks tried) }.

Definition bump (counts : list (ustring * Z)) (d : reached) : list (ustring * Z) :=
  map (fun e => if bool_decide (e.1 = ra_id (re_action d)) then (e.1, (e.2 + 1)%Z) else e) counts.

Lemma run_spec async es : forall b rs b', alive b -> binding_run async descriptor b es = (rs, b') ->
  disposed_once b' /\ exists ds tried invoked, behaves (b_lifecycle b) es (omap id rs) invoked ds tried /\
    b_log b' = b_log b ++ invoked /\ b_counts b' = foldl bump (b_counts b) ds.
Proof.
  induction es as [|e es IH]; intros b rs b' Hb H; cbn [binding_run] in H.
  { injection H as <- <-. split; [apply Hb|]. exists [], [], []. split; [|by rewrite app_nil_r].
    split; [exists [], []; split_and!; [done|done|cbn; lia|done|constructor]|by apply prefix_nil|constructor|by right|by exists []]. }
  destruct (binding_step async descriptor b e) as [r b1] eqn:Es. destruct (binding_run async descriptor b1 es) as [rs' b2] eqn:Er.
  injection H as <- <-. destruct e as [wireAction payload context handler observers|].
  2:{ injection Es as <- <-. destruct (dispose_spec b Hb) as [Hdead (Hl & Hc & _)].
      apply dead_run in Er as ((errors & E) & (_ & _ & Ho) & Hl' & Hc'); [|done]. split; [done|]. exists [], [], [].
      change (omap id (None :: rs')) with (omap id rs'). rewrite Hl', Hl, Hc', Hc, E, !app_nil_r. split; [|done].
      split; [exists [], errors; split_and!; [done|done|cbn; lia|done|constructor]|by apply prefix_nil|constructor|by right|by exists []]. }
  assert (exists r', r = Some r') as [r' ->] by (cbn [binding_step] in Es; destruct (if async then _ else _); injection Es as <- <-; by eexists).
  apply compute_spec in Es; [|done]. destruct r' as [state|error].
  - destruct Es as [Hb1 (_ & Hlc & Ho1 & d & (Hd & Hw & Hpl & Hini) & Hlog & Hc & observed & Henc & Hlen)].
    change (omap id (Some (Ok state) :: rs')) with (Ok state :: omap id rs').
    apply IH in Er as (Ho & ds & tried & invoked & [[states (errors & E & Hlen' & Ht1 & Ht2 & Hst)] Hreq Hdis _ [begun [-> Hbeg]]] & Hl2 & Hc2); [|done].
    split; [done|]. exists (d :: ds), tried, (callbacks d ++ concat (map callbacks ds) ++ begun).
    rewrite E, Hl2, Hlog, Hc2, Hc, <-app_assoc. split; [|done]. split.
    + exists (state :: states), errors. cbn. split_and!; [done|by rewrite Hlen'|done|done|]. constructor; [by eapply encode_observations_declared|done].
    + cbn. rewrite Hw, Hpl. by apply prefix_cons.
    + by constructor.
    + by cbn; destruct Hini; auto.
    + exists begun. cbn. by rewrite <-app_assoc.
  - destruct Es as [Hb1 Hf]. apply dead_run in Er as ((errors & E) & (_ & _ & Ho) & Hl' & Hc'); [|done]. split; [done|].
    change (omap id (Some (Err error) :: rs')) with (Err error :: omap id rs'). rewrite Hl', Hc', E.
    destruct Hf as [(Hl & Hc & _)|(d & l & (Hd & Hw & Hpl & Hini) & Hpre & (Hl & Hc & _))].
    + exists [], [], []. rewrite Hl, Hc, !app_nil_r. split; [|done].
      split; [exists [], (error :: errors); split_and!; [done|done|cbn; lia|done|constructor]|by apply prefix_nil|constructor|by right|by exists []].
    + exists [], [d], l. rewrite Hl, Hc. split; [|done].
      split; [exists [], (error :: errors); split_and!; [done|done|cbn; lia|done|constructor]| |by constructor|by cbn; destruct Hini; auto|exists l; cbn; by rewrite app_nil_r].
      cbn. rewrite Hw, Hpl. by apply prefix_cons, prefix_nil.
Qed.
End calls.

(** ** Bindings of a decoded descriptor *)

Definition counted (descriptor : SemanticDescriptor) (ds : list reached) : list (ustring * Z) :=
  map (fun action => (ra_id action, Z.of_nat (length (List.filter (fun d => bool_decide (ra_id action = ra_id (re_action d))) ds))))
    (all_actions descriptor).

Lemma foldl_bump (actions : list ResolvedAction) ds : forall f,
  foldl bump (map (fun action => (ra_id action, f action)) actions) ds =
  map (fun action => (ra_id action, (f action + Z.of_nat (length (List.filter (fun d => bool_decide (ra_id action = ra_id (re_action d))) ds)))%Z)) actions.
Proof.
  induction ds as [|d ds IH]; intros f; cbn [foldl List.filter]; [apply map_ext; intros a; f_equal; cbn; lia|].
  unfold bump at 2. rewrite map_map. cbn [fst snd].
  rewrite (map_ext _ (fun action => (ra_id action, if bool_decide (ra_id action = ra_id (re_action d)) then (f action + 1)%Z else f action))).
  2:{ intros a. by case_bool_decide. }
  rewrite IH. apply map_ext. intros a. f_equal. case_bool_decide; cbn [length]; lia.
Qed.

Lemma decoded_observations v descriptor : decodeSemanticDescriptor v = Ok descriptor ->
  NoDup (map ro_wireName (sd_observations descriptor)) /\ Forall (fun o => type_valid (ro_type o)) (sd_observations descriptor).
Proof.
  intros H. apply decodeSemanticDescriptorValue_spec in H as [(o & m & _ & _ & _ & _ & _ & _ & _ & _ & Hp) _].
  destruct Hp as (li & la & lo & _ & _ & _ & (_ & _ & HF & _ & Hnd)). split; [exact Hnd|]. cbn in HF.
  clear Hnd. induction HF as [|x y l l' Hxy _ IH]; constructor; [|done]. unfold rep_observation in Hxy. naive_solver.
Qed.

(** C24: a run of either binding, for a descriptor that was decoded and callbacks that may
    do anything (throw, answer anything, call the computer again, dispose of the
    binding, abort): the calls that are answered come first and every later call fails;
    the answered calls, and at most one that failed after reaching its handler, are the
    first calls of the run, each dispatched by its label to an action whose inputs are
    the projection of its payload, the first of them to an initializer; what was
    invoked is, for each answered call, its handler once and then every observer once,
    in the descriptor's order, and for the call that failed a beginning of that; an
    answered state has exactly the names the descriptor declares, each with a value of
    its type; the coverage counts are the numbers of answered calls; and the caller's
    [dispose] is scheduled at most once. *)
Theorem binding_sound async v descriptor es rs b :
  decodeSemanticDescriptor v = Ok descriptor ->
  binding_run async descriptor (fresh_binding descriptor) es = (rs, b) ->
  (exists ds tried, behaves descriptor Fresh es (omap id rs) (b_log b) ds tried /\ coverage b = counted descriptor ds) /\
  (b_disposals b <= 1)%nat.
Proof.
  intros Hv Hrun. apply decoded_observations in Hv as [Hn Ht].
  apply (run_spec descriptor Hn Ht) in Hrun as (Ho & ds & tried & invoked & Hb & Hl & Hc); [|by split_and!].
  split; [|unfold disposed_once in Ho; rewrite Ho; destruct (b_disposed b); lia].
  exists ds, tried. cbn in Hl. rewrite Hl. split; [exact Hb|]. unfold coverage, counted. rewrite Hc. cbn [fresh_binding b_counts].
  rewrite (foldl_bump _ ds (fun _ => 0%Z)). by apply map_ext; intros a; rewrite Z.add_0_l.
Qed.

(** Two answered calls, one whose handler calls the computer again, and one more. *)
Definition sample_run : list binding_event :=
  let ends v := Callback [] (CallbackReturned v) [] in
  let balance := NArr [NArr [NStr ($"alice"); NBig 3]] in
  let none : State := [] in
  [Compute ($"init") none None (ends NUndefined) [ends balance]; Compute ($"burn") none None (ends NUndefined) [ends balance];
   Compute ($"burn") none None (Callback [InnerCompute] (CallbackReturned NUndefined) []) [ends balance];
   Compute ($"init") none None (ends NUndefined) [ends balance]; Dispose; Dispose].

Lemma binding_sound_witness :
  let d := sample_descriptor false in
  decodeSemanticDescriptor (descriptor_js d) = Ok d /\
  map (option_map is_ok) (binding_run false d (fresh_binding d) sample_run).1 = [Some true; Some true; Some false; Some false; None; None] /\
  (exists ds tried, behaves d Fresh sample_run (omap id (binding_run true d (fresh_binding d) sample_run).1)
     (b_log (binding_run true d (fresh_binding d) sample_run).2) ds tried /\
   coverage (binding_run true d (fresh_binding d) sample_run).2 = counted d ds) /\
  (b_disposals (binding_run true d (fresh_binding d) sample_run).2 <= 1)%nat.
Proof.
  intros d. split; [exact (sample_decodes false)|]. split; [vm_compute; reflexivity|].
  exact (binding_sound true (descriptor_js d) d sample_run _ _ (sample_decodes false) (surjective_pairing _)).
Defined.
