(* ===== verification/ScheduleData.v ===== *)
(** * Schedules as data

    [src/src/schedule-data.ts]: identifiers and digests of scheduling, the checked copy
    of inert data, and the parser of a schedule, which looks for duplicate names with a
    scanner of its own before it calls [JSON.parse].

    Data of unknown type is [js], which has no accessors, symbols, holes or foreign
    prototypes. The nesting that is left is the recursion argument; the count of nodes
    is part of the state. *)

From S2P Require Import Prelude JsNumber Utf16 JsData StrictJson Decode JsText Requests.

Definition SCHEDULE_SCHEMA : ustring := $"mirrors.checkpoint-schedule/v1".
Definition WORKER_SCHEDULE_PROFILE : ustring := $"mirrorecma.worker-checkpoints/v1".
Definition SCHEDULE_COMPLETION : ustring := $"$done".

Definition identifier_unit (c : N) : bool :=
  ((0x41 <=? c) && (c <=? 0x5a) || (0x61 <=? c) && (c <=? 0x7a) || is_digit c || (c =? 0x5f) || (c =? 0x2e) || (c =? 0x2f) || (c =? 0x2d))%N.

Definition scheduleIdentifier (s : ustring) : bool :=
  (1 <=? length s)%nat && (length s <=? 128)%nat && forallb identifier_unit s.

Definition scheduleDigest (s : ustring) : bool := (length s =? 64)%nat && forallb is_lower_hex s.

(** The same of a value of unknown type. *)
Definition identifier_js (v : js) : bool := match v with JStr s => scheduleIdentifier s | _ => false end.
Definition digest_js (v : js) : bool := match v with JStr s => scheduleDigest s | _ => false end.

Definition scheduleExact (v : js) (names : list ustring) : res exn object_t :=
  match v with
  | JObj o => if (length (keys o) =? length names)%nat && forallb (has_own o) names then Ok o else throw XError "unknown or missing schedule fields"
  | _ => throw XError "unknown or missing schedule fields"
  end.

Record ScheduleIdentity := MkIdentity { si_modelSemanticDigest : ustring; si_mappingSha256 : ustring; si_implementationSha256 : ustring }.
Record ScheduleStep := MkStep { ss_actor : ustring; ss_checkpoint : ustring }.
Record CheckpointSchedule := MkSchedule { cs_identity : ScheduleIdentity; cs_inputs : js; cs_steps : list ScheduleStep }.

#[export] Instance schedule_step_eq_dec : EqDecision ScheduleStep.
Proof. solve_decision. Defined.

Definition identity_js (i : ScheduleIdentity) : object_t :=
  [($"modelSemanticDigest", JStr (si_modelSemanticDigest i)); ($"mappingSha256", JStr (si_mappingSha256 i));
   ($"implementationSha256", JStr (si_implementationSha256 i))].
Definition step_js (s : ScheduleStep) : js := JObj [($"actor", JStr (ss_actor s)); ($"checkpoint", JStr (ss_checkpoint s))].
Definition schedule_js (s : CheckpointSchedule) : js :=
  JObj [($"schema", JStr SCHEDULE_SCHEMA); ($"profile", JStr WORKER_SCHEDULE_PROFILE); ($"identity", JObj (identity_js (cs_identity s)));
        ($"inputs", cs_inputs s); ($"steps", JArr (map step_js (cs_steps s)))].

(** ** The checked copy *)

Definition data_depth : nat := 28.
Definition data_nodes : N := 100000.

(** [depth_left]: one more than the nesting that is left. *)
Fixpoint inert (depth_left : nat) (v : js) : stres N exn unit := fun nodes =>
  let nodes' := (nodes + 1)%N in
  match depth_left with
  | O => throw XError "schedule data structure exceeds bound"
  | S d =>
      if (data_nodes <? nodes')%N then throw XError "schedule data structure exceeds bound"
      else match v with
           | JNull | JStr _ | JBool _ => Ok (tt, nodes')
           | JNum x => if num_is_finite x then Ok (tt, nodes') else throw XError "schedule data must be plain JSON"
           | JUndef | JBig _ => throw XError "schedule data must be plain JSON"
           | JArr l => (_ ← mapMi (fun _ => inert d) l; mret tt) nodes'
           | JObj o => (_ ← mapMi (fun _ e => inert d e.2) o; mret tt) nodes'
           end
  end.

Section text.
Context (number_text : number -> ustring).

Definition json_text (v : js) : res exn ustring :=
  t ← stringify number_text v;
  match t with Some t => Ok t | None => throw XType "undefined has no text" end.

Definition scheduleData (value : js) (maxBytes : N) : res exn js :=
  _ ← inert (S data_depth) value 0%N;
  text ← json_text value;
  _ ← require (negb (maxBytes <? byteLength text)%N) (Exn XError ($"schedule data exceeds byte bound"));
  JSON_parse text.

Definition default_data_bytes : N := 65535.
Definition MiB : N := 1048576.

(** ** The scanner *)

(** [text.slice(i)] and [nodes]. *)
Record scan_state := Scan { sc_rest : ustring; sc_nodes : N }.
Abbreviation scanner A := (stres scan_state exn A).

Definition scan_error {A} (msg : string) : scanner A := fun _ => throw XError msg.
Definition look : scanner (option N) := fun s => Ok (head (sc_rest s), s).
Definition take_units (n : nat) : scanner unit := fun s => Ok (tt, Scan (drop n (sc_rest s)) (sc_nodes s)).
Definition scan_ws : scanner unit := fun s => take_units (ws_length (sc_rest s)) s.

(** The units of a string token up to its closing quote, the quote included. *)
Fixpoint token_length (t : ustring) : option nat :=
  match t with
  | [] => None
  | c :: t' =>
      if (c =? 0x5c)%N then match t' with [] => None | _ :: t'' => (fun n => S (S n)) <$> token_length t'' end
      else if (c =? 0x22)%N then Some 1%nat
      else S <$> token_length t'
  end.

Definition token : scanner ustring := fun s =>
  match token_length (drop 1 (sc_rest s)) with
  | None => throw XError "unterminated JSON string"
  | Some n =>
      v ← JSON_parse (take (S n) (sc_rest s));
      match v with
      | JStr key => Ok (key, Scan (drop (S n) (sc_rest s)) (sc_nodes s))
      | _ => throw XSyntax "invalid JSON"
      end
  end.

Definition scalar_length (t : ustring) : option nat :=
  if bool_decide (take 4 t = $"true") then Some 4%nat
  else if bool_decide (take 5 t = $"false") then Some 5%nat
  else if bool_decide (take 4 t = $"null") then Some 4%nat
  else fst <$> number_match t.

Definition scan_scalar : scanner unit := fun s =>
  match scalar_length (sc_rest s) with
  | None => throw XError "invalid JSON value"
  | Some n => take_units n s
  end.

Definition expect_unit (c : N) (msg : string) : scanner unit :=
  u ← look; _ ← take_units 1; if bool_decide (u = Some c) then mret tt else scan_error msg.

(** The loop over the members of an object or the elements of an array; [fuel] is more
    than the units that are left. *)
Fixpoint scan_items (fuel : nat) (is_object : bool) (close : N) (child : scanner unit) (names : list ustring) : scanner unit :=
  match fuel with
  | O => fun _ => Err (Exn XFuel [])
  | S fuel' =>
      u ← look;
      match u with
      | None => scan_error "unterminated JSON structure"
      | Some _ =>
          names' ← (if is_object then
              if bool_decide (u = Some 0x22%N) then
                key ← token;
                if bool_decide (key ∈ names) then scan_error "duplicate schedule JSON key"
                else _ ← scan_ws; _ ← expect_unit 0x3a "missing JSON colon"; mret (key :: names)
              else scan_error "invalid JSON object"
            else mret names);
          _ ← child;
          _ ← scan_ws;
          u2 ← look;
          if bool_decide (u2 = Some close) then take_units 1
          else _ ← expect_unit 0x2c "invalid JSON separator"; _ ← scan_ws; scan_items fuel' is_object close child names'
      end
  end.

Definition scan_nodes : N := 600000.
Definition scan_depth : nat := 32.

Fixpoint scan (depth_left : nat) : scanner unit :=
  match depth_left with
  | O => scan_error "schedule JSON structure limit"
  | S d => fun s0 =>
      let nodes' := (sc_nodes s0 + 1)%N in
      if (scan_nodes <? nodes')%N then throw XError "schedule JSON structure limit"
      else
        (_ ← scan_ws;
         u ← look;
         if bool_decide (u = Some 0x22%N) then _ ← token; mret tt
         else if bool_decide (u = Some 0x7b%N) || bool_decide (u = Some 0x5b%N) then
           let is_object := bool_decide (u = Some 0x7b%N) in
           let close := (if is_object then 0x7d else 0x5d)%N in
           _ ← take_units 1; _ ← scan_ws; u2 ← look;
           if bool_decide (u2 = Some close) then take_units 1
           else fun s => scan_items (S (length (sc_rest s))) is_object close (scan d) [] s
         else scan_scalar) (Scan (sc_rest s0) nodes')
  end.

(** ** The parser *)

Definition decode_step (v : js) : res exn ScheduleStep :=
  o ← scheduleExact v [$"actor"; $"checkpoint"];
  match getf o ($"actor"), getf o ($"checkpoint") with
  | JStr actor, JStr checkpoint =>
      if scheduleIdentifier actor && (scheduleIdentifier checkpoint || bool_decide (checkpoint = SCHEDULE_COMPLETION))
      then Ok (MkStep actor checkpoint) else throw XError "invalid schedule identifier"
  | _, _ => throw XError "invalid schedule identifier"
  end.

Definition schedule_header {A} : res exn A := throw XError "invalid schedule schema/profile/identity/steps".

Definition parseCheckpointSchedule (text : ustring) : res exn CheckpointSchedule :=
  _ ← require (negb (8 * MiB <? byteLength text)%N) (Exn XError ($"schedule artifact exceeds byte bound"));
  end_state ← snd <$> (_ ← scan (S scan_depth); scan_ws) (Scan text 0);
  _ ← require (match sc_rest end_state with [] => true | _ => false end) (Exn XError ($"trailing JSON data"));
  v ← JSON_parse text;
  o ← scheduleExact v [$"schema"; $"profile"; $"identity"; $"inputs"; $"steps"];
  i ← scheduleExact (getf o ($"identity")) [$"modelSemanticDigest"; $"mappingSha256"; $"implementationSha256"];
  _ ← (if is_str (getf o ($"schema")) "mirrors.checkpoint-schedule/v1" && is_str (getf o ($"profile")) "mirrorecma.worker-checkpoints/v1" &&
          forallb (fun e => digest_js e.2) i then Ok tt else schedule_header);
  l ← match getf o ($"steps") with JArr l => if (length l <=? 65536)%nat then Ok l else schedule_header | _ => schedule_header end;
  steps ← mapM decode_step l;
  _ ← scheduleData (getf o ($"inputs")) default_data_bytes;
  match getf i ($"modelSemanticDigest"), getf i ($"mappingSha256"), getf i ($"implementationSha256") with
  | JStr a, JStr b, JStr c => Ok (MkSchedule (MkIdentity a b c) (getf o ($"inputs")) steps)
  | _, _, _ => schedule_header
  end.
End text.
