(* ===== verification/Schedule.v ===== *)
(** * The execution of a schedule

    [src/src/schedule.ts], [ScheduleExecution]: the controller of the workers of one
    schedule, as a machine. Its events are the points at which it gets control: a call
    of one of its methods, the end of the factory, of a request or of the teardown, a
    message or the exit of a worker, the caller's signal, and one pass of the loop of
    [waitUntil] ([Resume]; also the first pass of a loop is one). The clock is read
    where the source reads it and only compared, so a reading is a [Z]. Two fields are
    the model's: [ex_posted], what was posted to the workers, and [ex_teardowns]. *)

From S2P Require Import Prelude JsNumber Utf16 JsData StrictJson Decode JsText Requests ScheduleData.

Inductive ScheduleOutcome :=
| so_completed | so_invalid_schedule | so_incompatible_identity | so_cancelled | so_timed_out | so_unexpected_checkpoint
| so_uncontrolled_actor | so_application_failed | so_observation_failed | so_resource_failed.

Inductive ScheduleCleanup := sc_not_started | sc_confirmed | sc_incomplete | sc_teardown_failed.

#[export] Instance schedule_outcome_eq_dec : EqDecision ScheduleOutcome.
Proof. solve_decision. Defined.
#[export] Instance schedule_cleanup_eq_dec : EqDecision ScheduleCleanup.
Proof. solve_decision. Defined.

Record ScheduleActor := MkScheduleActor { sa_actor : ustring; sa_operation : ustring }.

Record SchedulePolicy := MkPolicy { sp_maxActors : number; sp_maxSteps : number; sp_executionTimeoutMs : number; sp_cleanupTimeoutMs : number }.

Definition default_policy : SchedulePolicy := MkPolicy (num_of_Z 64) (num_of_Z 65536) (num_of_Z 2000) (num_of_Z 1000).

Inductive Phase := p_starting | p_parked | p_running | p_finishing | p_finished.

#[export] Instance phase_eq_dec : EqDecision Phase.
Proof. solve_decision. Defined.

(** [ac_worker] is the thread of the worker, where there is one. *)
Record Actor := MkActor {
  ac_declaration : ScheduleActor;
  ac_phase : Phase;
  ac_checkpoint : ustring;
  ac_worker : option Z;
  ac_port : bool;
  ac_threadId : option Z;
  ac_exited : bool;
  ac_reportedFinish : bool;
  ac_requestPending : bool;
  ac_requestId : Z }.

Definition fresh_actor (a : ScheduleActor) : Actor := MkActor a p_starting ($"$start") None false None false false false 0.

Definition set_phase (p : Phase) (c : ustring) (a : Actor) : Actor :=
  MkActor (ac_declaration a) p c (ac_worker a) (ac_port a) (ac_threadId a) (ac_exited a) (ac_reportedFinish a) (ac_requestPending a) (ac_requestId a).
Definition set_worker (w : option Z) (port : bool) (a : Actor) : Actor :=
  MkActor (ac_declaration a) (ac_phase a) (ac_checkpoint a) w port (ac_threadId a) (ac_exited a) (ac_reportedFinish a) (ac_requestPending a) (ac_requestId a).
Definition set_threadId (t : Z) (a : Actor) : Actor :=
  MkActor (ac_declaration a) (ac_phase a) (ac_checkpoint a) (ac_worker a) (ac_port a) (Some t) (ac_exited a) (ac_reportedFinish a) (ac_requestPending a) (ac_requestId a).
Definition set_reported (a : Actor) : Actor :=
  MkActor (ac_declaration a) (ac_phase a) (ac_checkpoint a) (ac_worker a) (ac_port a) (ac_threadId a) (ac_exited a) true (ac_requestPending a) (ac_requestId a).
Definition set_exited (a : Actor) : Actor :=
  MkActor (ac_declaration a) (ac_phase a) (ac_checkpoint a) (ac_worker a) false (ac_threadId a) true (ac_reportedFinish a) (ac_requestPending a) (ac_requestId a).
Definition set_request (pending : bool) (id : Z) (a : Actor) : Actor :=
  MkActor (ac_declaration a) (ac_phase a) (ac_checkpoint a) (ac_worker a) (ac_port a) (ac_threadId a) (ac_exited a) (ac_reportedFinish a) pending id.

(** ** Reports *)

Inductive event_kind := ek_permit | ek_arrival.

Record schedule_event := MkEvent { ev_kind : event_kind; ev_step : nat; ev_actor : ustring; ev_operation : ustring; ev_checkpoint : ustring }.

Inductive attempt := AttemptEnded (cleanup : ScheduleCleanup) (remainingActors : list ustring) | AttemptFailed (error : ustring).

Record ScheduleReport := MkReport {
  rep_outcome : ScheduleOutcome;
  rep_detail : ustring;
  rep_scheduleCompleted : bool;
  rep_cleanup : ScheduleCleanup;
  rep_remainingActors : list ustring;
  rep_events : list schedule_event;
  rep_observations : list (nat * js);
  rep_cleanupAttempts : list attempt }.

Definition fresh_report : ScheduleReport := MkReport so_completed [] false sc_not_started [] [] [] [].

Definition set_outcome (o : ScheduleOutcome) (d : ustring) (r : ScheduleReport) : ScheduleReport :=
  MkReport o d (rep_scheduleCompleted r) (rep_cleanup r) (rep_remainingActors r) (rep_events r) (rep_observations r) (rep_cleanupAttempts r).
Definition set_completed (r : ScheduleReport) : ScheduleReport :=
  MkReport (rep_outcome r) (rep_detail r) true (rep_cleanup r) (rep_remainingActors r) (rep_events r) (rep_observations r) (rep_cleanupAttempts r).
Definition set_cleanup (c : ScheduleCleanup) (remaining : list ustring) (a : list attempt) (r : ScheduleReport) : ScheduleReport :=
  MkReport (rep_outcome r) (rep_detail r) (rep_scheduleCompleted r) c remaining (rep_events r) (rep_observations r) (rep_cleanupAttempts r ++ a).
Definition add_event (e : schedule_event) (r : ScheduleReport) : ScheduleReport :=
  MkReport (rep_outcome r) (rep_detail r) (rep_scheduleCompleted r) (rep_cleanup r) (rep_remainingActors r) (rep_events r ++ [e]) (rep_observations r) (rep_cleanupAttempts r).
Definition add_observation (n : nat) (v : js) (r : ScheduleReport) : ScheduleReport :=
  MkReport (rep_outcome r) (rep_detail r) (rep_scheduleCompleted r) (rep_cleanup r) (rep_remainingActors r) (rep_events r) (rep_observations r ++ [(n, v)]) (rep_cleanupAttempts r).

(** ** The state *)

Inductive control := CPermit | CCancel | CCompletionAck | CReply (id : Z) (value : js) | CReplyError (id : Z) (error : ustring).

(** Where the controller is suspended. [Idle] is the source's not [busy]. *)
Inductive point := Idle | InFactory | InStart | InInterval (actor : nat) | InCleanup (deadline : Z) | InTeardown.

#[export] Instance point_eq_dec : EqDecision point.
Proof. solve_decision. Defined.

(** [ex_program]: whether the factory's program serves requests. *)
Record execution := MkExecution {
  ex_actors : list Actor;
  ex_report : ScheduleReport;
  ex_program : option bool;
  ex_pendingRequests : Z;
  ex_observing : bool;
  ex_next : nat;
  ex_stopped : bool;
  ex_closed : bool;
  ex_evidenceBytes : N;
  ex_point : point;
  ex_posted : list (ustring * control);
  ex_teardowns : nat }.

Definition on_actors (f : list Actor -> list Actor) (e : execution) : execution :=
  MkExecution (f (ex_actors e)) (ex_report e) (ex_program e) (ex_pendingRequests e) (ex_observing e) (ex_next e) (ex_stopped e) (ex_closed e) (ex_evidenceBytes e) (ex_point e) (ex_posted e) (ex_teardowns e).
Definition on_report (f : ScheduleReport -> ScheduleReport) (e : execution) : execution :=
  MkExecution (ex_actors e) (f (ex_report e)) (ex_program e) (ex_pendingRequests e) (ex_observing e) (ex_next e) (ex_stopped e) (ex_closed e) (ex_evidenceBytes e) (ex_point e) (ex_posted e) (ex_teardowns e).
Definition set_program (p : option bool) (e : execution) : execution :=
  MkExecution (ex_actors e) (ex_report e) p (ex_pendingRequests e) (ex_observing e) (ex_next e) (ex_stopped e) (ex_closed e) (ex_evidenceBytes e) (ex_point e) (ex_posted e) (ex_teardowns e).
Definition add_pending (n : Z) (e : execution) : execution :=
  MkExecution (ex_actors e) (ex_report e) (ex_program e) (ex_pendingRequests e + n) (ex_observing e) (ex_next e) (ex_stopped e) (ex_closed e) (ex_evidenceBytes e) (ex_point e) (ex_posted e) (ex_teardowns e).
Definition set_observing (b : bool) (e : execution) : execution :=
  MkExecution (ex_actors e) (ex_report e) (ex_program e) (ex_pendingRequests e) b (ex_next e) (ex_stopped e) (ex_closed e) (ex_evidenceBytes e) (ex_point e) (ex_posted e) (ex_teardowns e).
Definition count_next (e : execution) : execution :=
  MkExecution (ex_actors e) (ex_report e) (ex_program e) (ex_pendingRequests e) (ex_observing e) (S (ex_next e)) (ex_stopped e) (ex_closed e) (ex_evidenceBytes e) (ex_point e) (ex_posted e) (ex_teardowns e).
Definition set_stopped (e : execution) : execution :=
  MkExecution (ex_actors e) (ex_report e) (ex_program e) (ex_pendingRequests e) (ex_observing e) (ex_next e) true (ex_closed e) (ex_evidenceBytes e) (ex_point e) (ex_posted e) (ex_teardowns e).
Definition set_closed (e : execution) : execution :=
  MkExecution (ex_actors e) (ex_report e) (ex_program e) (ex_pendingRequests e) (ex_observing e) (ex_next e) (ex_stopped e) true (ex_evidenceBytes e) (ex_point e) (ex_posted e) (ex_teardowns e).
Definition add_bytes (n : N) (e : execution) : execution :=
  MkExecution (ex_actors e) (ex_report e) (ex_program e) (ex_pendingRequests e) (ex_observing e) (ex_next e) (ex_stopped e) (ex_closed e) (ex_evidenceBytes e + n) (ex_point e) (ex_posted e) (ex_teardowns e).
Definition set_point (p : point) (e : execution) : execution :=
  MkExecution (ex_actors e) (ex_report e) (ex_program e) (ex_pendingRequests e) (ex_observing e) (ex_next e) (ex_stopped e) (ex_closed e) (ex_evidenceBytes e) p (ex_posted e) (ex_teardowns e).
Definition post (l : list (ustring * control)) (e : execution) : execution :=
  MkExecution (ex_actors e) (ex_report e) (ex_program e) (ex_pendingRequests e) (ex_observing e) (ex_next e) (ex_stopped e) (ex_closed e) (ex_evidenceBytes e) (ex_point e) (ex_posted e ++ l) (ex_teardowns e).
Definition count_teardown (e : execution) : execution :=
  MkExecution (ex_actors e) (ex_report e) (ex_program e) (ex_pendingRequests e) (ex_observing e) (ex_next e) (ex_stopped e) (ex_closed e) (ex_evidenceBytes e) (ex_point e) (ex_posted e) (S (ex_teardowns e)).

Definition actor_name (a : Actor) : ustring := sa_actor (ac_declaration a).

Definition post_to (a : Actor) (c : control) : list (ustring * control) := if ac_port a then [(actor_name a, c)] else [].
Definition cancel_all (e : execution) : execution := post (concat (map (fun a => post_to a CCancel) (ex_actors e))) e.

Definition fail (outcome : ScheduleOutcome) (detail : ustring) (e : execution) : execution :=
  let e1 := if bool_decide (rep_outcome (ex_report e) = so_completed) then on_report (set_outcome outcome (take 4096 detail)) e else e in
  let e2 := set_stopped e1 in
  if ex_observing e2 then e2 else cancel_all e2.

(** ** Admission *)

Section execution.
Context (number_text : number -> ustring).

(** The adapter, without its factory. *)
Record adapter_t := MkAdapter { ad_identity : object_t; ad_actors : list ScheduleActor; ad_checkpoints : list ustring }.

Context (schedule : CheckpointSchedule) (adapter : adapter_t) (policy : SchedulePolicy) (deadline : Z).

Definition budget (n : number) : bool :=
  match num_safe_Z n with Some z => (0 <? z)%Z && (z <=? 86400000)%Z | None => false end.

Definition integer_between (lo hi : Z) (n : number) : bool :=
  match num_to_Z n with Some z => (lo <=? z)%Z && (z <=? hi)%Z | None => false end.

Definition above (count : nat) (n : number) : bool :=
  match num_to_Z n with Some z => (z <? Z.of_nat count)%Z | None => false end.

Fixpoint admit_actors (actors operations : list ustring) (l : list ScheduleActor) : res ustring unit :=
  match l with
  | [] => Ok tt
  | a :: l' =>
      if negb (scheduleIdentifier (sa_actor a)) || negb (scheduleIdentifier (sa_operation a)) ||
         bool_decide (sa_actor a ∈ actors) || bool_decide (sa_operation a ∈ operations)
      then Err ($"invalid or duplicate actor/operation")
      else admit_actors (sa_actor a :: actors) (sa_operation a :: operations) l'
  end.

Fixpoint admit_steps (done : list ustring) (l : list ScheduleStep) : res ustring (list ustring) :=
  match l with
  | [] => Ok done
  | step :: l' =>
      if negb (bool_decide (ss_actor step ∈ map sa_actor (ad_actors adapter))) || bool_decide (ss_actor step ∈ done)
      then Err ($"unknown actor or interval after completion")
      else if bool_decide (ss_checkpoint step = SCHEDULE_COMPLETION) then admit_steps (ss_actor step :: done) l'
      else if bool_decide (ss_checkpoint step ∈ ad_checkpoints adapter) then admit_steps done l'
      else Err ($"undeclared schedule checkpoint")
  end.

(** [scoped]: called from inside a callback, or not on the main thread. *)
Definition admitted_by (scoped : bool) : res ustring unit :=
  _ ← require (negb scoped) ($"scheduler controller reentry or non-main controller");
  _ ← require (budget (sp_executionTimeoutMs policy) && budget (sp_cleanupTimeoutMs policy) &&
               integer_between 1 64 (sp_maxActors policy) && integer_between 1 65536 (sp_maxSteps policy)) ($"invalid scheduler policy");
  _ ← require (negb ((length (ad_actors adapter) =? 0)%nat || above (length (ad_actors adapter)) (sp_maxActors policy) ||
               above (length (cs_steps schedule)) (sp_maxSteps policy))) ($"actor/step bound exceeded");
  _ ← require (forallb (fun e => digest_js e.2) (ad_identity adapter) && (length (ad_identity adapter) =? 3)%nat) ($"invalid adapter identity");
  _ ← admit_actors [] [] (ad_actors adapter);
  _ ← require (no_dups (ad_checkpoints adapter) && forallb scheduleIdentifier (ad_checkpoints adapter)) ($"invalid checkpoint vocabulary");
  done ← admit_steps [] (cs_steps schedule);
  require (length done =? length (ad_actors adapter))%nat ($"every actor requires terminal completion").

(** [same] of the identity of the schedule and the adapter's. *)
Definition same_identity : bool :=
  (length (identity_js (cs_identity schedule)) =? length (ad_identity adapter))%nat &&
  forallb (fun e => has_own (ad_identity adapter) e.1 &&
             match e.2, getf (ad_identity adapter) e.1 with JStr a, JStr b => bool_decide (a = b) | _, _ => false end)
    (identity_js (cs_identity schedule)).

Definition fresh_execution : execution :=
  MkExecution (map fresh_actor (ad_actors adapter)) fresh_report None 0 false 0 false false 0 Idle [] 0.

(** [start] up to the factory; [aborted] is the state of the caller's signal. *)
Definition start (scoped aborted : bool) : execution :=
  match admitted_by scoped with
  | Err t => set_closed (fail so_invalid_schedule t fresh_execution)
  | Ok _ =>
      if negb same_identity then set_closed (fail so_incompatible_identity ($"adapter identity differs") fresh_execution)
      else if aborted then set_closed (fail so_cancelled ($"cancelled before acquisition") fresh_execution)
      else set_point InFactory fresh_execution
  end.

(** ** Waiting *)

Inductive verdict := Yes | No | Again.

(** One pass of the loop of [waitUntil]; [execution]: not the loop of the cleanup. *)
Definition wait_once (predicate : execution -> bool) (until : Z) (running : bool) (now : Z) (aborted : bool) (e : execution)
    : verdict * execution :=
  if running && ex_stopped e then (No, e)
  else if running && aborted then (No, fail so_cancelled ($"caller cancellation") e)
  else if (until <=? now)%Z then (No, if running then fail so_timed_out ($"execution deadline exceeded") e else e)
  else if predicate e then (Yes, e) else (Again, e).

(** ** Evidence *)

Definition event_js (ordinal : nat) (v : schedule_event) : js :=
  JObj [($"ordinal", JNum (num_of_Z (Z.of_nat ordinal)));
        ($"kind", JStr (match ev_kind v with ek_permit => $"permit" | ek_arrival => $"arrival" end));
        ($"step", JNum (num_of_Z (Z.of_nat (ev_step v)))); ($"actor", JStr (ev_actor v));
        ($"operation", JStr (ev_operation v)); ($"checkpoint", JStr (ev_checkpoint v))].

(** [Buffer.byteLength(JSON.stringify(v))] of data that has a text. *)
Definition text_bytes (v : js) : N := match json_text number_text v with Ok t => byteLength t | Err _ => 0 end.

Definition evidence_limit : N := 8 * MiB.

Definition event (kind : event_kind) (a : Actor) (e : execution) : execution :=
  let row := MkEvent kind (ex_next e) (actor_name a) (sa_operation (ac_declaration a)) (ac_checkpoint a) in
  let e1 := add_bytes (text_bytes (event_js (length (rep_events (ex_report e))) row)) e in
  if (evidence_limit <? ex_evidenceBytes e1)%N then fail so_resource_failed ($"execution evidence exceeds bound") e1
  else on_report (add_event row) e1.

(** What the program's [observe] does: its result, whether the caller's signal aborts
    while it runs, and the clock after it. *)
Record observation_env := Observes { oe_value : res ustring js; oe_aborted : bool; oe_now : Z }.

Definition quiescent (a : Actor) : bool := match ac_phase a with p_parked | p_finished => true | _ => false end.

Definition observe (o : observation_env) (e : execution) : execution :=
  if ex_stopped e then e
  else if negb (ex_pendingRequests e =? 0)%Z || negb (forallb quiescent (ex_actors e))
  then fail so_observation_failed ($"actors not quiescent") e
  else
    let e1 := set_observing true e in
    let e2 := if oe_aborted o then fail so_cancelled ($"caller cancellation") e1 else e1 in
    let e3 :=
      match (v ← oe_value o; match scheduleData number_text v default_data_bytes with Ok x => Ok x | Err x => Err (exn_message x) end) with
      | Err t => fail so_observation_failed t e2
      | Ok value =>
          if ex_stopped e2 then e2
          else if (deadline <=? oe_now o)%Z then fail so_timed_out ($"execution deadline exceeded during observation") e2
          else if (evidence_limit <? ex_evidenceBytes e2 + text_bytes value)%N
          then fail so_observation_failed ($"observation evidence exceeds bound") e2
          else on_report (add_observation (ex_next e2) value) (add_bytes (text_bytes value) e2)
      end in
    let e4 := set_observing false e3 in
    if ex_stopped e4 then cancel_all e4 else e4.

(** ** Cleanup *)

(** What a method answers, when it does. *)
Abbreviation answered := (option (res ustring ScheduleReport)).

Definition reply (e : execution) : execution * answered := (set_point Idle e, Some (Ok (ex_report e))).

(** [cleanupInternal] up to its first wait; [now] is read for its deadline. *)
Definition begin_cleanup (timeoutMs : number) (now : Z) (e : execution) : execution * answered :=
  match num_safe_Z timeoutMs with
  | Some ms =>
      if budget timeoutMs then
        if ex_closed e then reply e
        else
          let e1 := if bool_decide (rep_outcome (ex_report e) = so_completed) && negb (rep_scheduleCompleted (ex_report e))
                    then fail so_cancelled ($"cleanup requested before completion") e else e in
          (set_point (InCleanup (now + ms)) (cancel_all (set_stopped e1)), None)
      else (set_point Idle e, Some (Err ($"invalid cleanup budget")))
  | None => (set_point Idle e, Some (Err ($"invalid cleanup budget")))
  end.

Definition has_worker (a : Actor) : bool := bool_decide (is_Some (ac_worker a)).
Definition gone (e : execution) : bool :=
  forallb (fun a => negb (has_worker a) || ac_exited a) (ex_actors e) && (ex_pendingRequests e =? 0)%Z.

Definition remains (a : Actor) : bool := has_worker a && negb (ac_exited a) || ac_requestPending a.

(** [cleanupInternal] after its wait. *)
Definition end_wait (e : execution) : execution * answered :=
  let remaining := map actor_name (List.filter remains (ex_actors e)) in
  if negb (length remaining =? 0)%nat || negb (ex_pendingRequests e =? 0)%Z
  then reply (on_report (set_cleanup sc_incomplete remaining [AttemptEnded sc_incomplete remaining]) e)
  else
    match ex_program e with
    | None => reply (on_report (set_cleanup sc_not_started [] [AttemptEnded sc_not_started []]) (set_closed e))
    | Some _ =>
        (set_point InTeardown (count_teardown (on_report (set_cleanup (rep_cleanup (ex_report e)) [] []) (set_closed e))), None)
    end.

Definition end_teardown (r : res ustring unit) (e : execution) : execution * answered :=
  match r with
  | Ok _ => reply (on_report (set_cleanup sc_confirmed [] [AttemptEnded sc_confirmed []]) e)
  | Err t => reply (on_report (set_cleanup sc_teardown_failed [] [AttemptFailed t]) e)
  end.

(** ** Starting *)

(** The program of the factory, where it has the methods and an array of workers: the
    actor of each worker, whether its module is a file, and whether the program serves
    requests. [threads]: what [new Worker] gives for each actor. *)
Record program_t := MkProgram { pr_valid : bool; pr_workers : list (ustring * bool); pr_request : bool }.

Fixpoint distinct_workers (seen : list ustring) (l : list (ustring * bool)) : bool :=
  match l with
  | [] => true
  | (actor, file) :: l' => negb (bool_decide (actor ∈ seen)) && file && distinct_workers (actor :: seen) l'
  end.

Fixpoint create_workers (threads : list (res ustring Z)) (l : list Actor) : list Actor * option ustring :=
  match l, threads with
  | a :: l', Ok thread :: threads' =>
      let '(l1, r) := create_workers threads' l' in (set_worker (Some thread) true a :: l1, r)
  | a :: l', Err t :: _ => (l, Some t)
  | _, _ => (l, None)
  end.

Definition end_factory (r : res ustring (option program_t)) (threads : list (res ustring Z)) (e : execution) : execution * answered :=
  match r with
  | Err t => reply (set_closed (fail so_application_failed t e))
  | Ok None => (set_point InStart (fail so_application_failed ($"factory returned invalid program") e), None)
  | Ok (Some p) =>
      let e1 := set_program (Some (pr_request p)) e in
      let names := map fst (pr_workers p) in
      if negb (pr_valid p) then (set_point InStart (fail so_application_failed ($"factory returned invalid program") e1), None)
      else if negb (distinct_workers [] (pr_workers p))
      then (set_point InStart (fail so_application_failed ($"invalid worker module or duplicate worker") e1), None)
      else if negb (length names =? length (ex_actors e1))%nat || existsb (fun a => negb (bool_decide (actor_name a ∈ names))) (ex_actors e1)
      then (set_point InStart (fail so_application_failed ($"factory worker set differs") e1), None)
      else
        let '(actors, failed) := create_workers threads (ex_actors e1) in
        let e2 := on_actors (fun _ => actors) e1 in
        (set_point InStart match failed with Some t => fail so_resource_failed t e2 | None => e2 end, None)
  end.

(** The end of [start] and of [advance]. *)
Definition cleanup_if_stopped (now : Z) (e : execution) : execution * answered :=
  if ex_stopped e then begin_cleanup (sp_cleanupTimeoutMs policy) now e else reply e.

(** ** Intervals *)

Definition end_interval (now : Z) (e : execution) : execution * answered :=
  let e1 := if negb (ex_stopped e) && (ex_next e =? length (cs_steps schedule))%nat then on_report set_completed e else e in
  if ex_stopped e1 || rep_scheduleCompleted (ex_report e1) then begin_cleanup (sp_cleanupTimeoutMs policy) now e1 else reply e1.

Definition find_actor (name : ustring) (l : list Actor) : option (nat * Actor) := list_find (fun a => actor_name a = name) l.

Definition permit (step : ScheduleStep) (now : Z) (e : execution) : execution * answered :=
  match find_actor (ss_actor step) (ex_actors e) with
  | None => (set_point Idle e, Some (Err ($"Cannot read properties of undefined")))
  | Some (i, a) =>
      if negb (bool_decide (ac_phase a = p_parked))
      then end_interval now (fail so_unexpected_checkpoint ($"selected actor not parked") e)
      else
        let e1 := event ek_permit a e in
        if ex_stopped e1 then end_interval now e1
        else (set_point (InInterval i) (post (post_to a CPermit) (on_actors (alter (set_phase p_running (ac_checkpoint a)) i) e1)), None)
  end.

(** [advance]; [now] is the first reading of the clock, [later] the one of a cleanup. *)
Definition advance (step : ScheduleStep) (scoped aborted : bool) (now later : Z) (e : execution) : execution * answered :=
  if scoped || negb (match ex_point e with Idle => true | _ => false end) then (e, Some (Err ($"scheduler controller reentry")))
  else if ex_closed e then (e, Some (Err ($"execution already closed")))
  else if ex_stopped e then reply e
  else if aborted then end_interval later (fail so_cancelled ($"caller cancellation") e)
  else if (deadline <=? now)%Z then end_interval later (fail so_timed_out ($"execution deadline exceeded") e)
  else if negb (bool_decide (cs_steps schedule !! ex_next e = Some step))
  then end_interval later (fail so_invalid_schedule ($"callback differs from admitted interval") e)
  else permit step later e.

Definition arrive (step : ScheduleStep) (a : Actor) (o : observation_env) (e : execution) : execution :=
  let e1 := event ek_arrival a e in
  let e2 := if bool_decide (ac_checkpoint a = ss_checkpoint step) then e1
            else fail so_unexpected_checkpoint ($"expected " ++ ss_checkpoint step ++ $", arrived at " ++ ac_checkpoint a) e1 in
  if ex_stopped e2 then e2 else observe o (count_next e2).

Definition arrived (i : nat) (e : execution) : bool :=
  match ex_actors e !! i with Some a => quiescent a | None => false end.

Definition parked (e : execution) : bool := forallb (fun a => bool_decide (ac_phase a = p_parked)) (ex_actors e).

(** One pass of the loop the controller is suspended in. *)
Definition resume (now : Z) (aborted : bool) (o : observation_env) (later : Z) (e : execution) : execution * answered :=
  match ex_point e with
  | InStart =>
      match wait_once parked deadline true now aborted e with
      | (Yes, e1) => cleanup_if_stopped later (observe o e1)
      | (No, e1) => cleanup_if_stopped later e1
      | (Again, e1) => (e1, None)
      end
  | InInterval i =>
      match wait_once (arrived i) deadline true now aborted e, ex_actors e !! i, cs_steps schedule !! ex_next e with
      | (Yes, e1), Some a, Some step => end_interval later (arrive step a o e1)
      | (Again, e1), _, _ => (e1, None)
      | (_, e1), _, _ => end_interval later e1
      end
  | InCleanup until =>
      match wait_once gone until false now aborted e with
      | (Again, e1) => (e1, None)
      | (_, e1) => end_wait e1
      end
  | _ => (e, None)
  end.

Definition finish (scoped : bool) (later : Z) (e : execution) : execution * answered :=
  if scoped || negb (match ex_point e with Idle => true | _ => false end) then (e, Some (Err ($"scheduler controller reentry")))
  else if ex_closed e then reply e
  else
    let e1 := if negb (ex_next e =? length (cs_steps schedule))%nat
              then fail so_invalid_schedule ($"execution ended before all intervals") e else e in
    begin_cleanup (sp_cleanupTimeoutMs policy) later e1.

Definition cleanup (timeoutMs : number) (scoped : bool) (later : Z) (e : execution) : execution * answered :=
  if scoped || negb (match ex_point e with Idle => true | _ => false end) then (e, Some (Err ($"scheduler controller reentry")))
  else begin_cleanup timeoutMs later e.

(** ** Workers *)

Definition num_is (v : js) (z : Z) : bool := match v with JNum x => bool_decide (num_to_Z x = Some z) | _ => false end.
Definition is_integer (v : js) : bool := match v with JNum x => bool_decide (is_Some (num_to_Z x)) | _ => false end.

Definition throw_text (t : string) : method execution ustring unit := throws (lit t).
Definition modify_actor (i : nat) (f : Actor -> Actor) : method execution ustring unit := modify (on_actors (alter f i)).

(** [message], without its handler of errors. *)
Definition receive (i : nat) (value : js) : method execution ustring unit := fun e =>
  match ex_actors e !! i with
  | None => (Ok tt, e)
  | Some actor =>
      match value with
      | JObj m =>
          let kind := getf m ($"kind") in
          let running := bool_decide (ac_phase actor = p_running) in
          let handle : method execution ustring unit :=
           if is_str kind "ready" then
             if negb (bool_decide (ac_phase actor = p_starting)) || negb (is_integer (getf m ($"threadId"))) ||
                negb (match ac_worker actor with Some t => num_is (getf m ($"threadId")) t | None => false end)
             then throw_text "invalid worker identity/barrier"
             else
               _ ← modify_actor i (set_threadId (default 0%Z (ac_worker actor)));
               modify_actor i (set_phase p_parked (ac_checkpoint actor))
           else if is_str kind "arrival" then
             this ex_stopped ≫= fun s : bool =>
             if s then mret tt
             else if negb running || ac_requestPending actor
             then modify (fail so_uncontrolled_actor ($"arrival outside owned interval"))
             else match getf m ($"checkpoint") with
                  | JStr c =>
                      if scheduleIdentifier c && bool_decide (c ∈ ad_checkpoints adapter)
                      then modify_actor i (set_phase p_parked c)
                      else modify (fail so_unexpected_checkpoint ($"undeclared actual checkpoint"))
                  | _ => modify (fail so_unexpected_checkpoint ($"undeclared actual checkpoint"))
                  end
           else if is_str kind "finished" then
             this ex_stopped ≫= fun s : bool =>
             if negb s && (negb running || ac_requestPending actor) then throw_text "worker completed outside owned interval"
             else
               _ ← modify_actor i set_reported;
               _ ← modify (post (post_to actor CCompletionAck));
               modify_actor i (set_phase p_finishing SCHEDULE_COMPLETION)
           else if is_str kind "failure" then
             this ex_stopped ≫= fun s : bool =>
             when (negb s) (modify (fail so_application_failed
               (match getf m ($"error") with JStr t => t | _ => $"worker failure" end)))
           else if is_str kind "request" then
             this ex_stopped ≫= fun s : bool =>
             if s then mret tt
             else if negb running || ac_requestPending actor then throw_text "uncontrolled worker request"
             else
               _ ← modify_actor i (set_request false (ac_requestId actor + 1));
               this ex_program ≫= fun p : option bool =>
               if negb (num_is (getf m ($"id")) (ac_requestId actor)) || negb (default false p) then throw_text "uncontrolled worker request"
               else match scheduleData number_text (getf m ($"input")) default_data_bytes with
                    | Err x => throws (exn_message x)
                    | Ok _ =>
                        _ ← modify_actor i (set_request true (ac_requestId actor + 1));
                        modify (add_pending 1)
                    end
           else throw_text "unknown worker control message" in
          handle e
      | _ => throw_text "invalid worker control message" e
      end
  end.

Definition message (i : nat) (value : js) (e : execution) : execution :=
  match receive i value e with (Ok _, e1) => e1 | (Err t, e1) => fail so_application_failed t e1 end.

(** The end of a request, with what the program answered. *)
Definition end_request (i : nat) (r : res ustring js) (e : execution) : execution :=
  match ex_actors e !! i with
  | None => e
  | Some actor =>
      if negb (ac_requestPending actor) then e
      else
        let id := (ac_requestId actor - 1)%Z in
        let e1 :=
          match (v ← r; match scheduleData number_text v default_data_bytes with Ok x => Ok x | Err x => Err (exn_message x) end) with
          | Ok v => if ex_stopped e then e else post (post_to actor (CReply id v)) e
          | Err t => if ex_stopped e then e else fail so_application_failed t (post (post_to actor (CReplyError id t)) e)
          end in
        add_pending (-1) (on_actors (alter (set_request false (ac_requestId actor)) i) e1)
  end.

Definition exited (i : nat) (code : Z) (e : execution) : execution :=
  match ex_actors e !! i with
  | None => e
  | Some actor =>
      let e1 := on_actors (alter set_exited i) e in
      let e2 := if negb (ex_stopped e1) && (negb (code =? 0)%Z || negb (ac_reportedFinish actor))
                then fail so_application_failed ($"worker exited without successful completion") e1 else e1 in
      on_actors (alter (set_phase p_finished SCHEDULE_COMPLETION) i) e2
  end.

(** ** Runs *)

Inductive schedule_input :=
| FactoryDone (r : res ustring (option program_t)) (threads : list (res ustring Z))
| Resume (now : Z) (aborted : bool) (o : observation_env) (later : Z)
| Message (i : nat) (value : js) | MessageError | WorkerError (text : ustring) | Exited (i : nat) (code : Z)
| SignalAborted | RequestDone (i : nat) (r : res ustring js)
| Advance (step : ScheduleStep) (scoped aborted : bool) (now later : Z)
| Finish (scoped : bool) (later : Z)
| Cleanup (timeoutMs : number) (scoped : bool) (later : Z)
| TeardownDone (r : res ustring unit).

(** A worker sends and exits only where there is one; the factory and the teardown end
    once. *)
Definition possible (e : execution) (x : schedule_input) : bool :=
  match x with
  | FactoryDone _ _ => match ex_point e with InFactory => true | _ => false end
  | TeardownDone _ => match ex_point e with InTeardown => true | _ => false end
  | Message i _ | Exited i _ => match ex_actors e !! i with Some a => has_worker a && negb (ac_exited a) | None => false end
  | SignalAborted => negb (ex_closed e)
  | _ => true
  end.

Definition schedule_step (e : execution) (x : schedule_input) : execution * answered :=
  if negb (possible e x) then (e, None) else
  match x with
  | FactoryDone r threads => end_factory r threads e
  | Resume now aborted o later => resume now aborted o later e
  | Message i value => (message i value e, None)
  | MessageError => (fail so_application_failed ($"worker message decode failure") e, None)
  | WorkerError text => (fail so_application_failed text e, None)
  | Exited i code => (exited i code e, None)
  | SignalAborted => (fail so_cancelled ($"caller cancellation") e, None)
  | RequestDone i r => (end_request i r e, None)
  | Advance step scoped aborted now later => advance step scoped aborted now later e
  | Finish scoped later => finish scoped later e
  | Cleanup timeoutMs scoped later => cleanup timeoutMs scoped later e
  | TeardownDone r => end_teardown r e
  end.

Fixpoint schedule_run (e : execution) (xs : list schedule_input) : execution * list answered :=
  match xs with
  | [] => (e, [])
  | x :: xs' =>
      let '(e1, a) := schedule_step e x in
      let '(e2, l) := schedule_run e1 xs' in
      (e2, a :: l)
  end.

(** [passed] of the receipt. *)
Definition passed (r : ScheduleReport) : bool :=
  bool_decide (rep_outcome r = so_completed) && rep_scheduleCompleted r && bool_decide (rep_cleanup r = sc_confirmed).

(** ** Receipts *)

Definition outcome_name (o : ScheduleOutcome) : ustring :=
  match o with
  | so_completed => $"completed" | so_invalid_schedule => $"invalid_schedule" | so_incompatible_identity => $"incompatible_identity"
  | so_cancelled => $"cancelled" | so_timed_out => $"timed_out" | so_unexpected_checkpoint => $"unexpected_checkpoint"
  | so_uncontrolled_actor => $"uncontrolled_actor" | so_application_failed => $"application_failed"
  | so_observation_failed => $"observation_failed" | so_resource_failed => $"resource_failed"
  end.

Definition cleanup_name (c : ScheduleCleanup) : ustring :=
  match c with
  | sc_not_started => $"not_started" | sc_confirmed => $"confirmed" | sc_incomplete => $"incomplete" | sc_teardown_failed => $"teardown_failed"
  end.

Definition attempt_js (a : attempt) : js :=
  match a with
  | AttemptEnded c l => JObj [($"cleanup", JStr (cleanup_name c)); ($"remainingActors", JArr (map JStr l))]
  | AttemptFailed t => JObj [($"cleanup", JStr ($"teardown_failed")); ($"error", JStr t)]
  end.

Definition actor_js (a : ScheduleActor) : js := JObj [($"actor", JStr (sa_actor a)); ($"operation", JStr (sa_operation a))].

Definition observation_js (o : nat * js) : js := JObj [($"afterSteps", JNum (num_of_Z (Z.of_nat o.1))); ($"state", o.2)].

(** The members the report of a run begins with; [generation] and [executionId] are the
    process's. *)
Definition receipt (generation : Z) (executionId : ustring) (e : execution) : object_t :=
  let r := ex_report e in
  [($"outcome", JStr (outcome_name (rep_outcome r))); ($"detail", JStr (rep_detail r)); ($"scheduleCompleted", JBool (rep_scheduleCompleted r));
   ($"cleanup", JStr (cleanup_name (rep_cleanup r))); ($"remainingActors", JArr (map JStr (rep_remainingActors r)));
   ($"generation", JNum (num_of_Z generation)); ($"executionId", JStr executionId); ($"events", JArr (imap event_js (rep_events r)));
   ($"observations", JArr (map observation_js (rep_observations r))); ($"cleanupAttempts", JArr (map attempt_js (rep_cleanupAttempts r)));
   ($"schema", JStr ($"mirrors.checkpoint-execution/v1")); ($"schedule", schedule_js schedule); ($"actors", JArr (map actor_js (ad_actors adapter)));
   ($"checkpoints", JArr (map JStr (ad_checkpoints adapter)));
   ($"policy", JObj [($"maxActors", JNum (sp_maxActors policy)); ($"maxSteps", JNum (sp_maxSteps policy));
                     ($"executionTimeoutMs", JNum (sp_executionTimeoutMs policy)); ($"cleanupTimeoutMs", JNum (sp_cleanupTimeoutMs policy))]);
   ($"coverage", JStr ($"recorded-schedule-only"));
   ($"actorThreads", JObj (obj_of_entries (map (fun a => (actor_name a, match ac_threadId a with Some t => JNum (num_of_Z t) | None => JNull end)) (ex_actors e))));
   ($"passed", JBool (passed r))].
End execution.

(** Two workers, each with one interval before its last. *)
Definition sample_digest : ustring := repeat 0x61%N 64.
Definition sample_schedule : CheckpointSchedule :=
  MkSchedule (MkIdentity sample_digest sample_digest sample_digest) JNull
    [MkStep ($"a") ($"mid"); MkStep ($"b") SCHEDULE_COMPLETION; MkStep ($"a") SCHEDULE_COMPLETION].
Definition sample_adapter : adapter_t :=
  MkAdapter (identity_js (cs_identity sample_schedule)) [MkScheduleActor ($"a") ($"op1"); MkScheduleActor ($"b") ($"op2")] [$"mid"].

Definition worker_ready (thread : Z) : js := JObj [($"kind", JStr ($"ready")); ($"threadId", JNum (num_of_Z thread))].
Definition worker_arrives (c : string) : js := JObj [($"kind", JStr ($"arrival")); ($"checkpoint", JStr (lit c))].
Definition worker_finished : js := JObj [($"kind", JStr ($"finished"))].

Definition sample_inputs : list schedule_input :=
  let sees n := Observes (Ok (JNum (num_of_Z n))) false 0 in
  [FactoryDone (Ok (Some (MkProgram true [($"b", true); ($"a", true)] false))) [Ok 1%Z; Ok 2%Z];
   Message 0 (worker_ready 1); Message 1 (worker_ready 2); Resume 0 false (sees 0%Z) 0;
   Advance (MkStep ($"a") ($"mid")) false false 0 0; Message 0 (worker_arrives "mid"); Resume 0 false (sees 1%Z) 0;
   Advance (MkStep ($"b") SCHEDULE_COMPLETION) false false 0 0; Message 1 worker_finished; Exited 1 0; Resume 0 false (sees 2%Z) 0;
   Advance (MkStep ($"a") SCHEDULE_COMPLETION) false false 0 0; Message 0 worker_finished; Exited 0 0; Resume 0 false (sees 3%Z) 0;
   Resume 0 false (sees 3%Z) 0; TeardownDone (Ok tt)].

Definition sample_end : execution :=
  (schedule_run (fun _ => []) sample_schedule sample_adapter default_policy 2000 (start sample_schedule sample_adapter default_policy false false) sample_inputs).1.

Example sample_passes :
  passed (ex_report sample_end) = true /\ length (rep_observations (ex_report sample_end)) = 4%nat /\ ex_teardowns sample_end = 1%nat /\
  List.filter (fun p => match p.2 with CPermit => true | _ => false end) (ex_posted sample_end) = [($"a", CPermit); ($"b", CPermit); ($"a", CPermit)].
Proof. vm_compute. done. Qed.
