(* ===== verification/ScheduleFacts.v ===== *)
(** * What a run of a schedule guarantees

    Three invariants of the machine of [Schedule], for every sequence of inputs:
    [progress] (the record of the intervals and of the observations, one running worker
    at a time), [wiring] (permits are posted exactly as recorded) and [resources]
    (workers, requests and the teardown). Most operations leave the record alone: they
    are [after] steps, one relation that preserves the first two. *)

From S2P Require Import Prelude JsNumber Utf16 JsData StrictJson Decode JsText Requests ScheduleData Schedule.

Section facts.
Context (number_text : number -> ustring) (schedule : CheckpointSchedule) (adapter : adapter_t) (policy : SchedulePolicy) (deadline : Z).

Abbreviation steps := (cs_steps schedule).

(** ** The record of intervals *)

(** A permit and an arrival at the admitted checkpoint for each step, from step [i]. *)
Inductive intervals : nat -> list ScheduleStep -> list schedule_event -> Prop :=
| intervals_nil i : intervals i [] []
| intervals_cons i s l op c evs :
    intervals (S i) l evs ->
    intervals i (s :: l) (MkEvent ek_permit i (ss_actor s) op c :: MkEvent ek_arrival i (ss_actor s) op (ss_checkpoint s) :: evs).

Lemma intervals_snoc i l evs s op c : intervals i l evs ->
  intervals i (l ++ [s]) (evs ++ [MkEvent ek_permit (i + length l) (ss_actor s) op c; MkEvent ek_arrival (i + length l) (ss_actor s) op (ss_checkpoint s)]).
Proof.
  induction 1 as [i|i s' l op' c' evs _ IH]; cbn; [rewrite Nat.add_0_r; repeat constructor|].
  constructor. by rewrite <-Nat.add_succ_comm.
Qed.

(** An interval that was begun. *)
Definition begun (i : nat) (s : ScheduleStep) (tail : list schedule_event) : Prop :=
  exists op c, tail = [MkEvent ek_permit i (ss_actor s) op c].

(** An interval that the execution stopped in. *)
Definition broken (i : nat) (tail : list schedule_event) : Prop :=
  tail = [] \/ exists s op c, steps !! i = Some s /\
    (tail = [MkEvent ek_permit i (ss_actor s) op c] \/
     exists c', tail = [MkEvent ek_permit i (ss_actor s) op c; MkEvent ek_arrival i (ss_actor s) op c']).

Definition is_running (a : Actor) : bool := bool_decide (ac_phase a = p_running).

Definition in_interval (e : execution) (i : nat) (tail : list schedule_event) : Prop :=
  exists a s c, ex_actors e !! i = Some a /\ steps !! ex_next e = Some s /\ actor_name a = ss_actor s /\
    tail = [MkEvent ek_permit (ex_next e) (ss_actor s) (sa_operation (ac_declaration a)) c].

Definition tail_ok (p : point) (e : execution) (tail : list schedule_event) : Prop :=
  if ex_stopped e then broken (ex_next e) tail
  else match p with InInterval i => in_interval e i tail | _ => tail = [] end.

Definition early (p : point) : bool := match p with InFactory | InStart => true | _ => false end.

Definition ending (p : point) : bool := match p with InCleanup _ | InTeardown => true | _ => false end.

(** [k]: how many observations there are for the interval that is next. *)
Record progress (k : nat) (p : point) (e : execution) : Prop := {
  pr_actors : map ac_declaration (ex_actors e) = ad_actors adapter;
  pr_history : exists evs tail, rep_events (ex_report e) = evs ++ tail /\ intervals 0 (take (ex_next e) steps) evs /\ tail_ok p e tail;
  pr_next : (ex_next e <= length steps)%nat;
  pr_running : forall i a, ex_actors e !! i = Some a -> is_running a = true ->
    (ex_stopped e = false -> p = InInterval i) /\
    forall j b, ex_actors e !! j = Some b -> is_running b = true -> i = j;
  pr_observed : map fst (rep_observations (ex_report e)) = seq 0 (length (rep_observations (ex_report e))) /\
    (length (rep_observations (ex_report e)) <= S (ex_next e))%nat /\
    (ex_stopped e = false -> early p = false -> length (rep_observations (ex_report e)) = (ex_next e + k)%nat);
  pr_early : early p = true -> ex_next e = 0%nat /\ rep_observations (ex_report e) = [] /\ rep_events (ex_report e) = [] /\
    Forall (fun a => is_running a = false) (ex_actors e);
  pr_completed : rep_scheduleCompleted (ex_report e) = true ->
    length (rep_observations (ex_report e)) = S (length steps) /\ intervals 0 steps (rep_events (ex_report e));
  pr_ending : ending p = true -> ex_stopped e = true }.

(** ** Steps that leave the record alone *)

Definition live (a : Actor) : bool := has_worker a && negb (ac_exited a).

(** A parked or running worker is there, and one that is there has its port. *)
Definition wired (a : Actor) : Prop :=
  (ac_phase a = p_parked \/ ac_phase a = p_running -> live a = true) /\ (live a = true -> ac_port a = true).

Definition calmer (a a' : Actor) : Prop :=
  ac_declaration a' = ac_declaration a /\ (is_running a' = true -> is_running a = true) /\ (wired a -> wired a') /\
  ac_worker a' = ac_worker a /\ (ac_exited a = true -> ac_exited a' = true).

Definition permits (l : list (ustring * control)) : list ustring :=
  omap (fun p => match p.2 with CPermit => Some p.1 | _ => None end) l.

Record after (e e' : execution) : Prop := {
  af_actors : Forall2 calmer (ex_actors e) (ex_actors e');
  af_events : rep_events (ex_report e') = rep_events (ex_report e);
  af_observations : rep_observations (ex_report e') = rep_observations (ex_report e);
  af_completed : rep_scheduleCompleted (ex_report e') = rep_scheduleCompleted (ex_report e);
  af_next : ex_next e' = ex_next e;
  af_stopped : ex_stopped e = true -> ex_stopped e' = true;
  af_permits : permits (ex_posted e') = permits (ex_posted e) }.

Lemma calmer_refl a : calmer a a.
Proof. by split_and!. Qed.

Lemma calmers_refl l : Forall2 calmer l l.
Proof. induction l; constructor; [apply calmer_refl|done]. Qed.

#[local] Hint Resolve calmers_refl : core.

Lemma after_refl e : after e e.
Proof. by split. Qed.

Lemma calmer_trans a b c : calmer a b -> calmer b c -> calmer a c.
Proof. intros (? & ? & ? & ? & ?) (? & ? & ? & ? & ?). split_and!; [congruence|auto..|congruence|auto]. Qed.

Lemma after_trans e1 e2 e3 : after e1 e2 -> after e2 e3 -> after e1 e3.
Proof.
  intros [A1 B1 C1 D1 E1 F1 G1] [A2 B2 C2 D2 E2 F2 G2]. split; try congruence; [|auto].
  apply Forall2_same_length_lookup. pose proof (Forall2_length _ _ _ A1). pose proof (Forall2_length _ _ _ A2). split; [lia|].
  intros i a c Ha Hc. destruct (Forall2_lookup_l _ _ _ _ _ A1 Ha) as (b & Hb & Hab).
  eapply calmer_trans; [exact Hab|]. by eapply Forall2_lookup_lr.
Qed.

Lemma calmer_declarations l l' : Forall2 calmer l l' -> map ac_declaration l' = map ac_declaration l.
Proof. induction 1 as [|a a' l l' (E & _) _ IH]; [done|]. cbn. by rewrite E, IH. Qed.

Lemma calmer_running l l' i a' : Forall2 calmer l l' -> l' !! i = Some a' -> is_running a' = true ->
  exists a, l !! i = Some a /\ is_running a = true.
Proof. intros H Hi Hr. destruct (Forall2_lookup_r _ _ _ _ _ H Hi) as (a & Ha & _ & Hc & _). eauto. Qed.

Lemma after_progress k p e e' : after e e' -> progress k p e -> progress k p e'.
Proof.
  intros [A B C D E F G] [P1 (evs & tail & P2 & P2' & P2'') P3 P4 P5 P6 P7 P8].
  assert (forall i a', ex_actors e' !! i = Some a' -> is_running a' = true -> exists a, ex_actors e !! i = Some a /\ is_running a = true) as Hrun.
  { intros i a'. by apply calmer_running. }
  split; rewrite ?B, ?C, ?D, ?E; try done.
  - by rewrite (calmer_declarations _ _ A).
  - exists evs, tail. split; [done|]. split; [done|]. unfold tail_ok in *. rewrite E.
    destruct (ex_stopped e) eqn:Es; [by rewrite F|]. destruct (ex_stopped e') eqn:Es'.
    + unfold broken. destruct p; try by left. destruct P2'' as (a & s & c & Ha & Hs & Hn & ->). right. by eauto 10.
    + destruct p; try done. destruct P2'' as (a & s & c & Ha & Hs & Hn & ->).
      destruct (Forall2_lookup_l _ _ _ _ _ A Ha) as (a' & Ha' & Hd & _).
      exists a', s, c. unfold actor_name in *. rewrite E, Hd. done.
  - intros i a' Hi Hr. destruct (Hrun i a' Hi Hr) as (a & Ha & Hra). destruct (P4 i a Ha Hra) as [H1 H2]. split.
    + intros Es. apply H1. destruct (ex_stopped e); [|done]. by rewrite F in Es.
    + intros j b' Hj Hb. destruct (Hrun j b' Hj Hb) as (b & Hb' & Hrb). by eapply H2.
  - destruct P5 as (Q1 & Q2 & Q3). split_and!; [done..|]. intros Es Ep. apply Q3; [|done]. destruct (ex_stopped e); [by rewrite F in Es|done].
  - intros Ep. destruct (P6 Ep) as (Q1 & Q2 & Q3 & Q4). split_and!; try done. apply Forall_lookup. intros i a' Ha'.
    destruct (is_running a') eqn:Er; [|done]. destruct (Hrun i a' Ha' Er) as (a & Ha & Hra). rewrite Forall_lookup in Q4. by rewrite (Q4 i a Ha) in Hra.
  - auto.
Qed.

(** Once stopped, only the early points say more. *)
Lemma stopped_progress k k' p p' e : ex_stopped e = true -> early p' = false -> progress k p e -> progress k' p' e.
Proof.
  intros Es Ep [P1 (evs & tail & P2 & P2' & P2'') P3 P4 P5 P6 P7 P8]. split; try done.
  - exists evs, tail. unfold tail_ok in *. by rewrite Es in *.
  - intros i a Ha Hr. split; [by rewrite Es|]. by eapply P4.
  - destruct P5 as (? & ? & _). split_and!; [done..|]. by rewrite Es.
  - by rewrite Ep.
Qed.

(** ** The operations that do so *)

Lemma permits_app l l' : permits (l ++ l') = permits l ++ permits l'.
Proof. apply omap_app. Qed.

Lemma permits_other l : Forall (fun p => p.2 <> CPermit) l -> permits l = [].
Proof. induction 1 as [|[n []] l H _ IH]; try done. Qed.

Lemma after_post l e : Forall (fun p => p.2 <> CPermit) l -> after e (post l e).
Proof. intros Hl. split; try done. cbn. by rewrite permits_app, (permits_other l), app_nil_r. Qed.

Lemma post_to_other a c : c <> CPermit -> Forall (fun p => p.2 <> CPermit) (post_to a c).
Proof. intros H. unfold post_to. destruct (ac_port a); repeat constructor. done. Qed.

Lemma after_cancel e : after e (cancel_all e).
Proof. apply after_post, Forall_concat, Forall_fmap, Forall_true. intros a. by apply post_to_other. Qed.

Lemma after_stopped e : after e (set_stopped e).
Proof. by split. Qed.

Lemma after_outcome o d e : after e (on_report (set_outcome o d) e).
Proof. by split. Qed.

#[local] Hint Resolve after_refl after_cancel after_stopped after_outcome : core.

Lemma after_fail o d e : after e (fail o d e).
Proof.
  unfold fail. cbn zeta. destruct (bool_decide _).
  - eapply after_trans; [apply after_outcome|]. eapply after_trans; [apply after_stopped|]. destruct (ex_observing _); [apply after_refl|apply after_cancel].
  - eapply after_trans; [apply after_stopped|]. destruct (ex_observing _); [apply after_refl|apply after_cancel].
Qed.

Lemma fail_stopped o d e : ex_stopped (fail o d e) = true.
Proof. unfold fail. case_bool_decide; cbn; by destruct (ex_observing e). Qed.

Lemma after_actors f e : Forall2 calmer (ex_actors e) (f (ex_actors e)) -> after e (on_actors f e).
Proof. intros H. by split. Qed.

Lemma fail_actors o d e : ex_actors (fail o d e) = ex_actors e.
Proof. unfold fail. case_bool_decide; cbn; by destruct (ex_observing e). Qed.

Lemma fail_after_stop o d e : after (set_stopped e) (fail o d e).
Proof.
  destruct (after_fail o d e) as [A B C D E F G]. split; try done. intros _. apply fail_stopped.
Qed.

Lemma after_alter i f e : (forall a, ex_actors e !! i = Some a -> calmer a (f a)) -> after e (on_actors (alter f i) e).
Proof.
  intros H. apply after_actors. apply Forall2_same_length_lookup. split; [by rewrite length_alter|]. intros j a b Ha Hb.
  destruct (decide (i = j)) as [<-|Hne].
  - rewrite list_lookup_alter_eq, Ha in Hb. injection Hb as <-. by apply H.
  - rewrite list_lookup_alter_ne, Ha in Hb by done. injection Hb as <-. apply calmer_refl.
Qed.

Lemma calmer_request b n a : calmer a (set_request b n a).
Proof. by split_and!. Qed.

Lemma calmer_parked c a : is_running a = true -> calmer a (set_phase p_parked c a).
Proof.
  intros H. apply bool_decide_eq_true in H. split_and!; try done. intros [W1 W2]. split; [|exact W2]. intros _. apply W1. by right.
Qed.

Lemma calmer_ready c t a : live a = true -> calmer a (set_phase p_parked c (set_threadId t a)).
Proof. intros H. split_and!; try done. intros [W1 W2]. by split. Qed.

Lemma calmer_done p c a : p = p_finishing \/ p = p_finished -> calmer a (set_phase p c a).
Proof.
  intros Hp. split_and!; try done; [by destruct Hp as [-> | ->]|]. intros [W1 W2]. split; [|exact W2].
  intros [H|H]; cbn in H; destruct Hp; congruence.
Qed.

Lemma calmer_reported a : calmer a (set_reported a).
Proof. by split_and!. Qed.

Lemma after_between (f g : list Actor -> list Actor) h e :
  (forall e, after e (h e)) -> (forall e, ex_actors (h e) = ex_actors e) -> Forall2 calmer (ex_actors e) (g (f (ex_actors e))) ->
  after e (on_actors g (h (on_actors f e))).
Proof.
  intros Hh Ha Hc. destruct (Hh (on_actors f e)) as [A B C D E F G]. split; try done. cbn. by rewrite Ha.
Qed.

Lemma alter_calmer i f l a : l !! i = Some a -> calmer a (f a) -> Forall2 calmer l (alter f i l).
Proof.
  intros Hi Hc. apply Forall2_same_length_lookup. split; [by rewrite length_alter|]. intros j x y Hx Hy.
  destruct (decide (i = j)) as [<-|Hne]; [rewrite list_lookup_alter_eq in Hy|rewrite list_lookup_alter_ne in Hy by done].
  - rewrite Hi in Hy, Hx. injection Hx as <-. by injection Hy as <-.
  - rewrite Hx in Hy. injection Hy as <-. apply calmer_refl.
Qed.

Lemma after_pending n e e' : after e e' -> after e (add_pending n e').
Proof. by intros [A B C D E F G]; split. Qed.

Lemma receive_after i value e : possible e (Message i value) = true ->
  match receive number_text adapter i value e with (_, e') => after e e' end.
Proof.
  cbn [possible]. unfold receive. destruct (ex_actors e !! i) as [a|] eqn:Hi; [|done]. change (has_worker a && negb (ac_exited a)) with (live a). intros Hlive.
  destruct value as [| | | | | | |m]; try apply after_refl. cbn zeta.
  unfold throw_text, modify_actor, throws, modify, this, when, mret, method_mret.
  destruct (is_str (getf m ($"kind")) "ready").
  { destruct (negb _ || _ || _); [apply after_refl|]. unfold mbind, method_mbind.
    apply (after_between _ _ (fun e => e)); [apply after_refl|done|]. rewrite list_alter_alter_eq.
    eapply alter_calmer; [exact Hi|]. by apply calmer_ready. }
  destruct (is_str (getf m ($"kind")) "arrival").
  { unfold mbind, method_mbind. destruct (ex_stopped e); [apply after_refl|]. case_bool_decide as Hr; cbn [negb orb]; [|apply after_fail].
    destruct (ac_requestPending a); [apply after_fail|]. destruct (getf m ($"checkpoint")) as [| | | | |c| |]; try apply after_fail.
    destruct (scheduleIdentifier c && _); [|apply after_fail]. apply after_alter. intros a' Ha'. rewrite Hi in Ha'. injection Ha' as <-. apply calmer_parked.
    by apply bool_decide_eq_true. }
  destruct (is_str (getf m ($"kind")) "finished").
  { unfold mbind, method_mbind. destruct (_ && _); [apply after_refl|].
    apply (after_between _ _ (post (post_to a CCompletionAck))); [intros; apply after_post; by apply post_to_other|done|]. rewrite list_alter_alter_eq.
    eapply alter_calmer; [exact Hi|]. eapply calmer_trans; [apply calmer_reported|]. apply calmer_done. by left. }
  destruct (is_str (getf m ($"kind")) "failure").
  { unfold mbind, method_mbind. destruct (ex_stopped e); [apply after_refl|]. apply after_fail. }
  destruct (is_str (getf m ($"kind")) "request"); [|apply after_refl].
  unfold mbind, method_mbind. destruct (ex_stopped e); [apply after_refl|]. destruct (negb _ || _); [apply after_refl|].
  assert (forall n b, after e (on_actors (alter (set_request b n) i) e)) as Hq by (intros; apply after_alter; intros; apply calmer_request).
  destruct (negb _ || _); [apply Hq|]. destruct (scheduleData _ _ _); [|apply Hq].
  apply after_pending. eapply after_trans; [apply Hq|]. apply after_alter. intros. apply calmer_request.
Qed.

Lemma message_after i value e : possible e (Message i value) = true -> after e (message number_text adapter i value e).
Proof.
  intros H. apply receive_after in H. unfold message. destruct (receive _ _ _ _ _) as [[u|t] e1]; [done|].
  eapply after_trans; [exact H|apply after_fail].
Qed.

Lemma exited_after i code e : after e (exited i code e).
Proof.
  unfold exited. destruct (ex_actors e !! i) as [a|] eqn:Hi; [|apply after_refl].
  assert (Forall2 calmer (ex_actors e) (alter (set_phase p_finished SCHEDULE_COMPLETION) i (alter set_exited i (ex_actors e)))) as Hc.
  { rewrite list_alter_alter_eq. eapply alter_calmer; [exact Hi|]. split_and!; try done. intros _. cbn. split; [by intros [?|?]|].
    unfold live. cbn. by rewrite andb_false_r. }
  destruct (negb _ && _).
  - apply (after_between (alter set_exited i) _ (fail _ _)); [intros; apply after_fail|intros; apply fail_actors|exact Hc].
  - by apply (after_between (alter set_exited i) _ (fun e => e)); [intros; apply after_refl| |exact Hc].
Qed.

Lemma end_request_after i r e : after e (end_request number_text i r e).
Proof.
  unfold end_request. destruct (ex_actors e !! i) as [a|]; [|apply after_refl]. destruct (negb _); [apply after_refl|].
  assert (forall e1, after e e1 -> after e (add_pending (-1) (on_actors (alter (set_request false (ac_requestId a)) i) e1))) as Hend.
  { intros e1 H1. apply after_pending. eapply after_trans; [exact H1|]. apply after_alter. intros. apply calmer_request. }
  apply Hend. assert (forall c, c <> CPermit -> after e (post (post_to a c) e)) as Hp by (intros; apply after_post; by apply post_to_other).
  destruct (_ ≫= _); destruct (ex_stopped e); try apply after_refl; [by apply Hp|].
  eapply after_trans; [|apply after_fail]. by apply Hp.
Qed.

Lemma begin_cleanup_after timeoutMs now e : after e (begin_cleanup timeoutMs now e).1.
Proof.
  unfold begin_cleanup. destruct (num_safe_Z _); [|by split]. destruct (budget _); [|by split]. destruct (ex_closed e); [by split|].
  cbn [fst]. assert (forall e1, after e e1 -> after e (set_point (InCleanup (now + z)) (cancel_all (set_stopped e1)))) as H.
  { intros e1 H1. eapply after_trans; [exact H1|]. eapply after_trans; [apply after_stopped|]. eapply after_trans; [apply after_cancel|by split]. }
  apply H. destruct (_ && _); [apply after_fail|apply after_refl].
Qed.

Lemma end_wait_after e : after e (end_wait e).1.
Proof. unfold end_wait. destruct (_ || _); [by split|]. destruct (ex_program e); by split. Qed.

Lemma end_teardown_after r e : after e (end_teardown r e).1.
Proof. destruct r; by split. Qed.

(** ** The operations that write the record *)

Lemma event_after kind a e : let e1 := event number_text kind a e in
  (after e e1 /\ ex_stopped e1 = true) \/
  (ex_actors e1 = ex_actors e /\ ex_next e1 = ex_next e /\ ex_stopped e1 = ex_stopped e /\ ex_point e1 = ex_point e /\ ex_posted e1 = ex_posted e /\
   rep_observations (ex_report e1) = rep_observations (ex_report e) /\ rep_scheduleCompleted (ex_report e1) = rep_scheduleCompleted (ex_report e) /\
   rep_events (ex_report e1) = rep_events (ex_report e) ++ [MkEvent kind (ex_next e) (actor_name a) (sa_operation (ac_declaration a)) (ac_checkpoint a)]).
Proof.
  cbn zeta. unfold event. cbn zeta. destruct (_ <? _)%N; [left|by right].
  split; [|apply fail_stopped]. eapply after_trans; [|apply after_fail]. by split.
Qed.

(** An observation completes the interval that is next. *)
Lemma observe_progress o e : progress 0 Idle e -> progress 1 Idle (observe number_text deadline o e).
Proof.
  intros Hp. unfold observe. destruct (ex_stopped e) eqn:Es; [by apply (stopped_progress 0 _ Idle)|].
  assert (forall e1, after e e1 -> ex_stopped e1 = true -> progress 1 Idle e1) as Hstop.
  { intros e1 H1 H2. apply (stopped_progress 0 _ Idle); [done..|]. by eapply after_progress. }
  destruct (negb _ || _); [apply Hstop; [apply after_fail|apply fail_stopped]|].
  set (e1 := set_observing true e). assert (after e e1) as H1 by by split.
  set (e2 := if oe_aborted o then _ else e1). assert (after e e2) as H2.
  { unfold e2. destruct (oe_aborted o); [|done]. eapply after_trans; [exact H1|apply after_fail]. }
  cbn zeta. set (e3 := match _ ≫= _ with Ok _ => _ | Err _ => _ end).
  assert ((after e e3 /\ ex_stopped e3 = true) \/ (e2 = e1 /\ exists value, e3 = on_report (add_observation (ex_next e2) value) (add_bytes (text_bytes number_text value) e2))) as H3.
  { unfold e3. assert (forall o t, after e (fail o t e2) /\ ex_stopped (fail o t e2) = true) as Hf.
    { intros o' t. split; [eapply after_trans; [exact H2|apply after_fail]|apply fail_stopped]. }
    destruct (_ ≫= _) as [value|t]; [|left; apply Hf]. destruct (ex_stopped e2) eqn:Es2; [by left|].
    destruct (_ <=? _)%Z; [left; apply Hf|]. destruct (_ <? _)%N; [left; apply Hf|]. right. split; [|by eexists].
    unfold e2 in Es2. destruct (oe_aborted o) eqn:Eo; unfold e2; rewrite ?Eo; [|done]. by rewrite fail_stopped in Es2. }
  destruct H3 as [[H3 H3']|[E2 [value ->]]].
  - cbn. rewrite H3'. apply Hstop; [|by cbn]. eapply after_trans; [|apply after_cancel]. destruct H3. by split.
  - rewrite E2. cbn. rewrite Es. destruct Hp as [P1 (evs & tail & P2 & P2' & P2'') P3 P4 (Q1 & Q2 & Q3) P6 P7 P8].
    specialize (Q3 Es eq_refl). split; cbn; try done.
    + by exists evs, tail.
    + rewrite map_app, length_app, Q1, seq_app, Q3. cbn. rewrite Nat.add_0_r. split_and!; [done|lia|intros; lia].
    + intros Hc. destruct (P7 Hc) as [L1 L2]. lia.
Qed.

(** The arrival ends the interval of the running worker. *)
Lemma arrive_progress i a step o e : progress 1 (InInterval i) e -> ex_stopped e = false -> ex_actors e !! i = Some a -> quiescent a = true ->
  steps !! ex_next e = Some step -> progress 1 Idle (arrive number_text deadline step a o e).
Proof.
  intros Hp Es Ha Hq Hs. unfold arrive. pose proof (event_after ek_arrival a e) as He. cbn zeta in He.
  assert (forall e1, after e e1 -> ex_stopped e1 = true -> progress 1 Idle e1) as Hstop.
  { intros e1 H1 H2. apply (stopped_progress 1 _ (InInterval i)); [done..|]. by eapply after_progress. }
  destruct He as [[He He']|(E1 & E2 & E3 & _ & _ & E4 & E5 & E6)].
  - assert (forall e1, after (event number_text ek_arrival a e) e1 -> progress 1 Idle e1) as Hst.
    { intros e1 H1. apply Hstop; [by eapply after_trans|]. by apply (af_stopped _ _ H1). }
    case_bool_decide; [rewrite He'; apply Hst, after_refl|]. rewrite fail_stopped. apply Hst, after_fail.
  - set (e1 := event number_text ek_arrival a e) in *. destruct Hp as [P1 (evs & tail & P2 & P2' & P2'') P3 P4 (Q1 & Q2 & Q3) P6 P7 P8].
    unfold tail_ok in P2''. rewrite Es in P2''. destruct P2'' as (a' & s & c & Ha' & Hs' & Hn & ->).
    rewrite Ha in Ha'. injection Ha' as <-. rewrite Hs in Hs'. injection Hs' as <-.
    assert (ex_next e < length steps)%nat as Hlt by (by eapply lookup_lt_Some).
    assert (rep_scheduleCompleted (ex_report e) = false) as Hnc.
    { destruct (rep_scheduleCompleted (ex_report e)) eqn:Ec; [|done]. destruct (P7 eq_refl) as [L1 _]. specialize (Q3 Es eq_refl). lia. }
    assert (forall j b, ex_actors e !! j = Some b -> is_running b = true -> False) as Hnone.
    { intros j b Hj Hb. destruct (P4 j b Hj Hb) as [Hpt _]. injection (Hpt Es) as <-. rewrite Ha in Hj. injection Hj as ->.
      unfold quiescent in Hq. apply bool_decide_eq_true in Hb. by rewrite Hb in Hq. }
    specialize (Q3 Es eq_refl). rewrite P2 in E6. unfold actor_name in *. rewrite Hn, <-app_assoc in E6. cbn [app] in E6. case_bool_decide as Hc.
    + rewrite E3, Es. apply observe_progress. split; cbn; rewrite ?E1, ?E2, ?E3, ?E4, ?E5, ?E6; try done.
      * exists (evs ++ [MkEvent ek_permit (ex_next e) (ss_actor step) (sa_operation (ac_declaration a)) c;
                        MkEvent ek_arrival (ex_next e) (ss_actor step) (sa_operation (ac_declaration a)) (ac_checkpoint a)]), [].
        rewrite app_nil_r. split; [done|]. split; [|unfold tail_ok; cbn; by rewrite E3, Es].
        rewrite (take_S_r _ _ _ Hs), Hc. pose proof (intervals_snoc 0 _ evs step (sa_operation (ac_declaration a)) c P2') as H.
        rewrite length_take_le in H by lia. exact H.
      * intros j b Hj Hb. destruct (Hnone j b Hj Hb).
      * split_and!; [done|lia|lia].
      * by rewrite Hnc.
    + rewrite fail_stopped. eapply after_progress; [apply fail_after_stop|]. split; cbn; rewrite ?E1, ?E2, ?E4, ?E5, ?E6; try done.
      * exists evs, [MkEvent ek_permit (ex_next e) (ss_actor step) (sa_operation (ac_declaration a)) c;
                     MkEvent ek_arrival (ex_next e) (ss_actor step) (sa_operation (ac_declaration a)) (ac_checkpoint a)].
        split; [done|]. split; [done|]. unfold tail_ok, broken. cbn. rewrite ?E2. right. eexists step, _, _. split; [done|]. right. by eexists.
      * intros j b Hj Hb. destruct (Hnone j b Hj Hb).
      * by rewrite Hnc.
Qed.

(** A method that ends leaves the controller idle; one that waits for the cleanup has
    stopped. *)
Definition idle_or_stopped (e : execution) : Prop := ex_point e = Idle \/ early (ex_point e) = false /\ ex_stopped e = true.

Lemma begin_cleanup_point timeoutMs now e : idle_or_stopped (begin_cleanup timeoutMs now e).1.
Proof.
  unfold begin_cleanup, idle_or_stopped. destruct (num_safe_Z _); [|by left]. destruct (budget _); [|by left]. destruct (ex_closed e); [by left|]. by right.
Qed.

Lemma settle_progress k p e e' : after e e' -> idle_or_stopped e' -> progress 1 Idle e \/ (progress k p e /\ ex_stopped e' = true) -> progress 1 (ex_point e') e'.
Proof.
  intros Ha [Hi|[He Hs]] [Hp|[Hp Hs']].
  - rewrite Hi. by eapply after_progress.
  - rewrite Hi. apply (stopped_progress k _ p); [done..|]. by eapply after_progress.
  - apply (stopped_progress 1 _ Idle); [done..|]. by eapply after_progress.
  - apply (stopped_progress k _ p); [done..|]. by eapply after_progress.
Qed.

Lemma begin_cleanup_progress timeoutMs now e : progress 1 Idle e -> let e' := (begin_cleanup timeoutMs now e).1 in progress 1 (ex_point e') e'.
Proof. intros Hp. eapply (settle_progress 1 Idle); [apply begin_cleanup_after|apply begin_cleanup_point|by left]. Qed.

Lemma end_interval_progress now e : progress 1 Idle e -> let e' := (end_interval schedule policy now e).1 in
  progress 1 (ex_point e') e'.
Proof.
  intros Hp. cbn zeta. unfold end_interval.
  set (e1 := if negb (ex_stopped e) && _ then _ else e). assert (progress 1 Idle e1) as H1.
  { unfold e1. destruct (ex_stopped e) eqn:Es; [done|]. cbn [negb andb]. destruct (Nat.eqb_spec (ex_next e) (length steps)) as [En|]; [|done].
    destruct Hp as [P1 (evs & tail & P2 & P2' & P2'') P3 P4 (Q1 & Q2 & Q3) P6 P7 P8]. split; cbn; try done.
    - by exists evs, tail.
    - intros _. rewrite Q3 by done. split; [lia|]. unfold tail_ok in P2''. rewrite Es in P2''. subst tail. rewrite P2, app_nil_r.
      by rewrite En, take_ge in P2' by lia. }
  destruct (_ || _); [by apply begin_cleanup_progress|]. by eapply after_progress; [|exact H1].
Qed.

(** From a point that is not early, stopping is enough. *)
Lemma stop_then_end now p o d e : progress 1 p e -> let e' := (end_interval schedule policy now (fail o d e)).1 in progress 1 (ex_point e') e'.
Proof.
  intros Hp. apply end_interval_progress. apply (stopped_progress 1 _ p); [apply fail_stopped|done|]. eapply after_progress; [apply after_fail|exact Hp].
Qed.

Lemma alter_declarations i c ph l : map ac_declaration (alter (set_phase ph c) i l) = map ac_declaration l.
Proof. revert i. induction l as [|a l IH]; intros [|i]; cbn; try done. f_equal. apply IH. Qed.

Lemma permit_progress step now e : progress 1 Idle e -> ex_stopped e = false -> steps !! ex_next e = Some step ->
  let e' := (permit number_text schedule policy step now e).1 in progress 1 (ex_point e') e'.
Proof.
  intros Hp Es Hs. cbn zeta. unfold permit. destruct (find_actor _ _) as [[i a]|] eqn:Hf; [|by eapply after_progress; [|exact Hp]].
  apply list_find_Some in Hf as (Ha & Hn & _). destruct (negb _); [by eapply stop_then_end|].
  pose proof (event_after ek_permit a e) as He. cbn zeta in He. set (e1 := event number_text ek_permit a e) in *.
  destruct He as [[He He']|(E1 & E2 & E3 & _ & _ & E4 & E5 & E6)].
  - rewrite He'. apply end_interval_progress, (stopped_progress 1 _ Idle); [done..|]. by eapply after_progress.
  - rewrite E3, Es. cbn [fst ex_point set_point].
    destruct Hp as [P1 (evs & tail & P2 & P2' & P2'') P3 P4 (Q1 & Q2 & Q3) P6 P7 P8]. unfold tail_ok in P2''. rewrite Es in P2''. subst tail.
    rewrite app_nil_r in P2. assert (ex_next e < length steps)%nat as Hlt by (by eapply lookup_lt_Some).
    assert (forall j b, ex_actors e !! j = Some b -> is_running b = true -> False) as Hnone.
    { intros j b Hj Hb. by destruct (P4 j b Hj Hb) as [Hpt _]; specialize (Hpt Es). }
    assert (forall j b, alter (set_phase p_running (ac_checkpoint a)) i (ex_actors e) !! j = Some b -> is_running b = true -> j = i) as Hone.
    { intros j b Hj Hb. destruct (decide (i = j)) as [|Hne]; [done|]. rewrite list_lookup_alter_ne in Hj by done. destruct (Hnone j b Hj Hb). }
    split; cbn; rewrite ?E1, ?E2, ?E3, ?E4, ?E5, ?E6; try done.
    + by rewrite alter_declarations.
    + exists evs, [MkEvent ek_permit (ex_next e) (ss_actor step) (sa_operation (ac_declaration a)) (ac_checkpoint a)].
      rewrite P2, <-Hn. split; [done|]. split; [done|]. unfold tail_ok. cbn. rewrite E3, Es. exists (set_phase p_running (ac_checkpoint a) a), step, (ac_checkpoint a).
      cbn. rewrite E1, E2, list_lookup_alter_eq, Ha. by rewrite <-Hn.
    + intros j b Hj Hb. pose proof (Hone j b Hj Hb) as ->. split; [done|]. intros j' b' Hj' Hb'. by rewrite (Hone j' b' Hj' Hb').
    + intros Hc. destruct (P7 Hc) as [L1 _]. rewrite Q3 in L1 by done. lia.
Qed.

(** ** Every step *)

Lemma end_wait_point e : early (ex_point (end_wait e).1) = false.
Proof. unfold end_wait. destruct (_ || _); [done|]. by destruct (ex_program e). Qed.

Lemma wait_once_after pred until running now aborted e : match wait_once pred until running now aborted e with
  | (Yes, e1) => e1 = e /\ pred e = true /\ (running = true -> ex_stopped e = false)
  | (No, e1) => after e e1 /\ (running = true -> ex_stopped e1 = true)
  | (Again, e1) => e1 = e
  end.
Proof.
  unfold wait_once. destruct running, (ex_stopped e) eqn:Es; cbn [andb].
  all: try (split; [apply after_refl|done]).
  all: repeat case_match; simplify_eq; try done.
  all: split; try done; try apply after_fail; try apply after_refl; intros; try apply fail_stopped; done.
Qed.

(** From the start loop on. *)
Lemma started e : progress 1 InStart e -> ex_stopped e = false -> progress 0 Idle e.
Proof.
  intros [P1 (evs & tail & P2 & P2' & P2'') P3 P4 (Q1 & Q2 & Q3) P6 P7 P8] Es. destruct (P6 eq_refl) as (N1 & N2 & N3 & N4). split; try done.
  - exists evs, tail. split; [done|]. split; [done|]. unfold tail_ok in *. by rewrite Es in *.
  - intros i a Ha Hr. rewrite Forall_lookup in N4. by rewrite (N4 i a Ha) in Hr.
  - rewrite N2, N1. cbn. split_and!; [done|lia|done].
Qed.

Lemma cleanup_if_stopped_progress now e : progress 1 Idle e -> let e' := (cleanup_if_stopped policy now e).1 in progress 1 (ex_point e') e'.
Proof.
  intros Hp. cbn zeta. unfold cleanup_if_stopped. destruct (ex_stopped e); [by apply begin_cleanup_progress|]. by eapply after_progress; [|exact Hp].
Qed.

Lemma resume_progress now aborted o later e : progress 1 (ex_point e) e ->
  let e' := (resume number_text schedule policy deadline now aborted o later e).1 in progress 1 (ex_point e') e'.
Proof.
  intros Hp. cbn zeta. unfold resume. destruct (ex_point e) as [| | |i|until|] eqn:Ep; try (cbn [fst]; by rewrite Ep).
  - pose proof (wait_once_after parked deadline true now aborted e) as Hw. destruct (wait_once _ _ _ _ _ _) as [[] e1].
    + destruct Hw as (-> & _ & Hs). apply cleanup_if_stopped_progress, observe_progress, started; auto.
    + destruct Hw as [Ha Hs]. apply cleanup_if_stopped_progress. apply (stopped_progress 1 _ InStart); auto. by eapply after_progress.
    + subst e1. cbn [fst]. by rewrite Ep.
  - pose proof (wait_once_after (arrived i) deadline true now aborted e) as Hw. destruct (wait_once _ _ _ _ _ _) as [[] e1].
    + destruct Hw as (-> & Hq & Hs). unfold arrived in Hq. destruct (ex_actors e !! i) as [a|] eqn:Ha; [|done].
      specialize (Hs eq_refl). pose proof (pr_history _ _ _ Hp) as (evs & tail & _ & _ & Ht). unfold tail_ok in Ht. rewrite Hs in Ht.
      destruct Ht as (a' & s & c & _ & Hst & _). rewrite Hst. apply end_interval_progress. by apply (arrive_progress i).
    + destruct Hw as [Ha Hs]. apply end_interval_progress. apply (stopped_progress 1 _ (InInterval i)); auto. by eapply after_progress.
    + subst e1. cbn [fst]. by rewrite Ep.
  - pose proof (wait_once_after gone until false now aborted e) as Hw. pose proof (pr_ending _ _ _ Hp eq_refl) as Hs.
    assert (forall e1, after e e1 -> progress 1 (ex_point (end_wait e1).1) (end_wait e1).1) as Hend.
    { intros e1 H1. pose proof (af_stopped _ _ (end_wait_after e1) (af_stopped _ _ H1 Hs)) as Hs2.
      apply (stopped_progress 1 _ (InCleanup until)); [done|apply end_wait_point|].
      eapply after_progress; [eapply after_trans; [exact H1|apply end_wait_after]|done]. }
    destruct (wait_once _ _ _ _ _ _) as [[] e1]; [apply Hend; destruct Hw as (-> & _); apply after_refl|apply Hend, Hw|subst e1; cbn [fst]; by rewrite Ep].
Qed.

Lemma message_like_progress e e' : after e e' -> ex_point e' = ex_point e -> progress 1 (ex_point e) e -> progress 1 (ex_point e') e'.
Proof. intros Ha -> Hp. by eapply after_progress. Qed.

Lemma fail_point o d e : ex_point (fail o d e) = ex_point e.
Proof. unfold fail. case_bool_decide; cbn; by destruct (ex_observing e). Qed.

Lemma receive_point i value e : ex_point (receive number_text adapter i value e).2 = ex_point e.
Proof.
  unfold receive. destruct (ex_actors e !! i) as [a|]; [|done]. destruct value as [| | | | | | |m]; try done. cbn zeta.
  unfold throw_text, modify_actor, throws, modify, this, when, mret, method_mret, mbind, method_mbind.
  repeat case_match; simplify_eq; cbn [snd ex_point on_actors post add_pending]; try done; by rewrite ?fail_point.
Qed.

Lemma message_point i value e : ex_point (message number_text adapter i value e) = ex_point e.
Proof.
  unfold message. pose proof (receive_point i value e) as H. destruct (receive _ _ _ _ _) as [[u|t] e1]; [done|]. by rewrite fail_point.
Qed.

Lemma exited_point i code e : ex_point (exited i code e) = ex_point e.
Proof. unfold exited. destruct (ex_actors e !! i); [|done]. cbn. destruct (_ && _); [by rewrite fail_point|done]. Qed.

Lemma end_request_point i r e : ex_point (end_request number_text i r e) = ex_point e.
Proof.
  unfold end_request. destruct (ex_actors e !! i) as [a|]; [|done]. destruct (ac_requestPending a); cbn [negb]; [|reflexivity].
  cbn [ex_point add_pending on_actors]. destruct (_ ≫= _); destruct (ex_stopped e); try reflexivity. by rewrite fail_point.
Qed.

(** *** The factory *)

Lemma create_workers_spec threads l : let l' := (create_workers threads l).1 in
  map ac_declaration l' = map ac_declaration l /\ map ac_phase l' = map ac_phase l.
Proof.
  cbn zeta. revert threads. induction l as [|a l IH]; intros [|[t|t] ts]; cbn; try done.
  specialize (IH ts). destruct (create_workers ts l) as [l1 r]. cbn in *. destruct IH as [-> ->]. done.
Qed.

Lemma running_phases l l' : map ac_phase l' = map ac_phase l -> Forall (fun a => is_running a = false) l -> Forall (fun a => is_running a = false) l'.
Proof.
  revert l'. induction l as [|a l IH]; intros [|a' l'] H Hl; try done. cbn in H. injection H as Hp H. apply Forall_cons in Hl as [Ha Hl].
  constructor; [unfold is_running in *; by rewrite Hp|by apply IH].
Qed.

(** The factory ends and the start loop begins. *)
Lemma factory_progress e e' : progress 1 InFactory e -> ex_point e' = InStart -> map ac_declaration (ex_actors e') = map ac_declaration (ex_actors e) ->
  map ac_phase (ex_actors e') = map ac_phase (ex_actors e) -> rep_events (ex_report e') = rep_events (ex_report e) ->
  rep_observations (ex_report e') = rep_observations (ex_report e) -> rep_scheduleCompleted (ex_report e') = rep_scheduleCompleted (ex_report e) ->
  ex_next e' = ex_next e -> progress 1 (ex_point e') e'.
Proof.
  intros [P1 P2 P3 P4 (Q1 & Q2 & Q3) P6 P7 P8] -> A B C D E F. destruct (P6 eq_refl) as (N1 & N2 & N3 & N4). pose proof (running_phases _ _ B N4) as Hr.
  split; rewrite ?A, ?C, ?D, ?E, ?F; try done.
  - rewrite N3, N1. exists [], []. split_and!; [done|constructor|]. unfold tail_ok, broken. by destruct (ex_stopped e'); [left|].
  - intros i a Ha Hra. rewrite Forall_lookup in Hr. by rewrite (Hr i a Ha) in Hra.
Qed.

Lemma fail_report o d e : rep_events (ex_report (fail o d e)) = rep_events (ex_report e) /\
  rep_observations (ex_report (fail o d e)) = rep_observations (ex_report e) /\
  rep_scheduleCompleted (ex_report (fail o d e)) = rep_scheduleCompleted (ex_report e) /\ ex_next (fail o d e) = ex_next e.
Proof. destruct (after_fail o d e). done. Qed.

Lemma end_factory_progress r threads e : progress 1 InFactory e -> let e' := (end_factory r threads e).1 in progress 1 (ex_point e') e'.
Proof.
  intros Hp. cbn zeta.
  assert (forall o d e1, ex_actors e1 = ex_actors e -> ex_report e1 = ex_report e -> ex_next e1 = ex_next e -> let e2 := set_point InStart (fail o d e1) in progress 1 (ex_point e2) e2) as Hf.
  { intros o d e1 A B C. pose proof (fail_report o d e1) as (F1 & F2 & F3 & F4). apply (factory_progress e); cbn; rewrite ?fail_actors, ?F1, ?F2, ?F3, ?F4, ?A, ?B, ?C; done. }
  unfold end_factory. destruct r as [[p|]|t]; cbn [fst].
  - destruct (negb (pr_valid p)); [by apply Hf|]. destruct (negb (distinct_workers _ _)); [by apply Hf|]. destruct (_ || _); [by apply Hf|].
    pose proof (create_workers_spec threads (ex_actors (set_program (Some (pr_request p)) e))) as [C1 C2].
    destruct (create_workers _ _) as [l1 [t|]]; cbn [fst] in *; [|by apply (factory_progress e)].
    match goal with |- context [fail ?o t ?x] => pose proof (fail_report o t x) as (F1 & F2 & F3 & F4) end.
    apply (factory_progress e); cbn; rewrite ?fail_actors, ?F1, ?F2, ?F3, ?F4; done.
  - by apply Hf.
  - apply (stopped_progress 1 _ InFactory); [apply fail_stopped|done|]. eapply after_progress; [|exact Hp].
    eapply after_trans; [apply (after_fail so_application_failed t)|by split].
Qed.

Lemma schedule_step_progress e x : progress 1 (ex_point e) e ->
  let e' := (schedule_step number_text schedule adapter policy deadline e x).1 in progress 1 (ex_point e') e'.
Proof.
  intros Hp. cbn zeta. unfold schedule_step. destruct (possible e x) eqn:Hx; [|done]. cbn [negb].
  destruct x as [r threads|now aborted o later|i value| |text|i code| |i r|step scoped aborted now later|scoped later|timeoutMs scoped later|r]; cbn [fst].
  - cbn in Hx. destruct (ex_point e) eqn:Ep; try done. by apply end_factory_progress.
  - by apply resume_progress.
  - apply (message_like_progress e); [by apply message_after|apply message_point|done].
  - apply (message_like_progress e); [apply after_fail|apply fail_point|done].
  - apply (message_like_progress e); [apply after_fail|apply fail_point|done].
  - apply (message_like_progress e); [apply exited_after|apply exited_point|done].
  - apply (message_like_progress e); [apply after_fail|apply fail_point|done].
  - apply (message_like_progress e); [apply end_request_after|apply end_request_point|done].
  - unfold advance. destruct (ex_point e) eqn:Ep; rewrite ?orb_true_r; cbn [negb fst]; try by rewrite Ep.
    rewrite orb_false_r. destruct scoped; [cbn [fst]; by rewrite Ep|]. destruct (ex_closed e); [cbn [fst]; by rewrite Ep|].
    destruct (ex_stopped e) eqn:Es; [by eapply after_progress; [|exact Hp]|]. destruct aborted; [by eapply stop_then_end|].
    destruct (_ <=? _)%Z; [by eapply stop_then_end|]. case_bool_decide; cbn [negb]; [by apply permit_progress|by eapply stop_then_end].
  - unfold finish. destruct (ex_point e) eqn:Ep; rewrite ?orb_true_r; cbn [negb fst]; try by rewrite Ep.
    rewrite orb_false_r. destruct scoped; [cbn [fst]; by rewrite Ep|]. destruct (ex_closed e); [by eapply after_progress; [|exact Hp]|].
    destruct (negb _); [|by apply begin_cleanup_progress]. apply begin_cleanup_progress. eapply after_progress; [apply after_fail|exact Hp].
  - unfold cleanup. destruct (ex_point e) eqn:Ep; rewrite ?orb_true_r; cbn [negb fst]; try by rewrite Ep.
    rewrite orb_false_r. destruct scoped; [cbn [fst]; by rewrite Ep|]. by apply begin_cleanup_progress.
  - cbn in Hx. destruct (ex_point e) eqn:Ep; try done. pose proof (pr_ending _ _ _ Hp eq_refl) as Hs.
    apply (stopped_progress 1 _ InTeardown); [by apply (af_stopped _ _ (end_teardown_after r e))|by destruct r|].
    eapply after_progress; [apply end_teardown_after|done].
Qed.
End facts.
