(* ===== verification/ScheduleRuns.v ===== *)
(** * Permits, workers and the teardown of a schedule

    The rest of the invariant of [Schedule]: permits are posted exactly as recorded,
    requests are counted, an execution closes only when no worker is left, and the
    teardown runs at most once. Then the theorem on whole runs. *)

From S2P Require Import Prelude JsNumber Utf16 JsData StrictJson Decode JsText Requests ScheduleData Schedule ScheduleFacts.

Section runs.
Context (number_text : number -> ustring) (schedule : CheckpointSchedule) (adapter : adapter_t) (policy : SchedulePolicy) (deadline : Z).

Abbreviation steps := (cs_steps schedule).

(** ** Permits *)

Definition is_permit (v : schedule_event) : bool := match ev_kind v with ek_permit => true | ek_arrival => false end.

Definition wiring (e : execution) : Prop :=
  Forall wired (ex_actors e) /\ permits (ex_posted e) = map ev_actor (List.filter is_permit (rep_events (ex_report e))).

(** [after], but for observations. *)
Definition unwritten (e e' : execution) : Prop :=
  Forall2 calmer (ex_actors e) (ex_actors e') /\ rep_events (ex_report e') = rep_events (ex_report e) /\
  permits (ex_posted e') = permits (ex_posted e).

Lemma after_unwritten e e' : after e e' -> unwritten e e'.
Proof. by intros [A B _ _ _ _ G]. Qed.

Lemma unwritten_trans e1 e2 e3 : unwritten e1 e2 -> unwritten e2 e3 -> unwritten e1 e3.
Proof.
  intros (A1 & B1 & C1) (A2 & B2 & C2). split; [|split; congruence].
  apply Forall2_same_length_lookup. pose proof (Forall2_length _ _ _ A1). pose proof (Forall2_length _ _ _ A2). split; [lia|].
  intros i a c Ha Hc. destruct (Forall2_lookup_l _ _ _ _ _ A1 Ha) as (b & Hb & Hab).
  eapply calmer_trans; [exact Hab|]. by eapply Forall2_lookup_lr.
Qed.

Lemma unwritten_wiring e e' : unwritten e e' -> wiring e -> wiring e'.
Proof.
  intros (A & B & C) [W1 W2]. split; [|by rewrite B, C].
  clear -A W1. induction A as [|a a' l l' (_ & _ & Hw & _) _ IH]; [done|]. apply Forall_cons in W1 as [Wa Wl]. constructor; auto.
Qed.

Lemma after_wiring e e' : after e e' -> wiring e -> wiring e'.
Proof. intros H. by apply unwritten_wiring, after_unwritten. Qed.

Lemma observe_unwritten o e : unwritten e (observe number_text deadline o e).
Proof.
  assert (forall e1 o d, unwritten e e1 -> unwritten e (fail o d e1)) as Hf.
  { intros e1 o' d H. eapply unwritten_trans; [exact H|apply after_unwritten, after_fail]. }
  unfold observe. assert (unwritten e e) as H0 by apply after_unwritten, after_refl. destruct (ex_stopped e); [done|].
  destruct (negb _ || _); [by apply Hf|]. cbn zeta.
  set (e2 := if oe_aborted o then _ else _). assert (unwritten e e2) as H2 by (unfold e2; destruct (oe_aborted o); [by apply Hf|done]).
  set (e3 := match _ ≫= _ with Ok _ => _ | Err _ => _ end). assert (unwritten e e3) as H3.
  { unfold e3. destruct (_ ≫= _); [|by apply Hf]. destruct (ex_stopped e2); [done|]. destruct (_ <=? _)%Z; [by apply Hf|].
    destruct (_ <? _)%N; [by apply Hf|]. exact H2. }
  destruct (ex_stopped (set_observing false e3)); [|exact H3]. eapply unwritten_trans; [exact H3|]. exact (after_unwritten _ _ (after_cancel (set_observing false e3))).
Qed.

Lemma event_wiring a e : wiring e -> wiring (event number_text ek_arrival a e).
Proof.
  intros [W1 W2]. destruct (event_after number_text ek_arrival a e) as [[He _]|(E1 & _ & _ & _ & E5 & _ & _ & E6)]; [by eapply after_wiring|].
  split; [by rewrite E1|]. rewrite E5, E6, List.filter_app. cbn. by rewrite app_nil_r.
Qed.

Lemma end_interval_after now e : wiring e -> wiring (end_interval schedule policy now e).1.
Proof.
  intros H. unfold end_interval. set (e1 := if _ && _ then _ else e). assert (wiring e1) as H1 by (unfold e1; destruct (_ && _); exact H).
  destruct (_ || _); [|exact H1]. eapply after_wiring; [apply begin_cleanup_after|exact H1].
Qed.

Lemma permit_wiring step now e : ex_stopped e = false -> wiring e -> wiring (permit number_text schedule policy step now e).1.
Proof.
  intros Hs0 H. unfold permit. destruct (find_actor _ _) as [[i a]|] eqn:Hf; [|exact H]. apply list_find_Some in Hf as (Ha & Hn & _).
  case_bool_decide as Hp; cbn [negb]; [|apply end_interval_after; eapply after_wiring; [apply after_fail|exact H]].
  destruct (event_after number_text ek_permit a e) as [[He Hs]|(E1 & _ & E3 & _ & E5 & _ & _ & E6)]; set (e1 := event _ _ _ _) in *.
  { rewrite Hs. apply end_interval_after. by eapply after_wiring. }
  rewrite E3, Hs0. destruct H as [W1 W2]. pose proof (proj1 (Forall_lookup _ _) W1 i a Ha) as [Wa1 Wa2].
  specialize (Wa1 (or_introl Hp)). specialize (Wa2 Wa1). split; cbn.
  - rewrite E1. apply Forall_alter; [done|]. intros b Hb [Wb1 Wb2]. rewrite Ha in Hb. injection Hb as <-. split; [by intros _|done].
  - rewrite E5, E6, List.filter_app, permits_app, map_app, W2. unfold post_to. by rewrite Wa2.
Qed.

(** States that differ in nothing [after] speaks of. *)
Ltac same_after := split; [apply calmers_refl|done..].

(** ** Resources *)

Definition pending_count (l : list Actor) : Z := Z.of_nat (length (List.filter ac_requestPending l)).

Definition idle_resources (p : point) : bool := match p with Idle | InTeardown => true | _ => false end.

Record resources (p : point) (e : execution) : Prop := {
  rs_pending : ex_pendingRequests e = pending_count (ex_actors e);
  rs_closed : ex_closed e = true -> ex_stopped e = true /\ Forall (fun a => live a = false) (ex_actors e) /\ ex_pendingRequests e = 0%Z;
  rs_open : idle_resources p = false -> ex_closed e = false;
  rs_unused : ex_closed e = false -> ex_teardowns e = 0%nat /\ rep_cleanup (ex_report e) <> sc_confirmed;
  rs_teardown : (ex_teardowns e <= 1)%nat /\ (p = InTeardown -> ex_closed e = true /\ ex_teardowns e = 1%nat);
  rs_confirmed : rep_cleanup (ex_report e) = sc_confirmed -> ex_closed e = true /\ ex_teardowns e = 1%nat;
  rs_outcome : ex_stopped e = false -> rep_outcome (ex_report e) = so_completed;
  rs_factory : p = InFactory -> ex_actors e = map fresh_actor (ad_actors adapter) }.

Definition kept_actor (a a' : Actor) : Prop :=
  ac_requestPending a' = ac_requestPending a /\ (live a' = true -> live a = true).

Record kept (e e' : execution) : Prop := {
  kp_actors : Forall2 kept_actor (ex_actors e) (ex_actors e');
  kp_pending : ex_pendingRequests e' = ex_pendingRequests e;
  kp_closed : ex_closed e' = ex_closed e;
  kp_teardowns : ex_teardowns e' = ex_teardowns e;
  kp_cleanup : rep_cleanup (ex_report e') = rep_cleanup (ex_report e);
  kp_stopped : ex_stopped e = true -> ex_stopped e' = true;
  kp_outcome : ex_stopped e' = false -> rep_outcome (ex_report e') = rep_outcome (ex_report e) }.

Lemma kept_refl e : kept e e.
Proof. split; try done. induction (ex_actors e); by constructor. Qed.

Lemma kept_trans e1 e2 e3 : kept e1 e2 -> kept e2 e3 -> kept e1 e3.
Proof.
  intros [A1 B1 C1 D1 E1 F1 G1] [A2 B2 C2 D2 E2 F2 G2]. split; try congruence; [|auto|].
  - apply Forall2_same_length_lookup. pose proof (Forall2_length _ _ _ A1). pose proof (Forall2_length _ _ _ A2). split; [lia|].
    intros i a c Ha Hc. destruct (Forall2_lookup_l _ _ _ _ _ A1 Ha) as (b & Hb & Hp1 & Hl1).
    destruct (Forall2_lookup_lr _ _ _ _ _ _ A2 Hb Hc) as [Hp2 Hl2]. split; [congruence|auto].
  - intros Hs. rewrite G2 by done. apply G1. destruct (ex_stopped e2); [|done]. by rewrite F2 in Hs.
Qed.

Lemma kept_pending l l' : Forall2 kept_actor l l' -> pending_count l' = pending_count l.
Proof.
  unfold pending_count. induction 1 as [|a a' l l' [H _] _ IH]; [done|]. cbn. rewrite H. destruct (ac_requestPending a); cbn [length]; lia.
Qed.

Lemma kept_resources p p' e e' : kept e e' -> resources p e ->
  (idle_resources p' = false -> idle_resources p = false \/ ex_closed e = false) -> (p' = InTeardown -> p = InTeardown) -> p' <> InFactory -> resources p' e'.
Proof.
  intros [A B C D E F G] [R1 R2 R3 R4 R5 R6 R7 R8] Ho Ht Hf. split; rewrite ?B, ?C, ?D, ?E; try done.
  - by rewrite (kept_pending _ _ A).
  - intros Hc. destruct (R2 Hc) as (S1 & S2 & S3). split_and!; [auto| |done]. clear -A S2.
    induction A as [|a a' l l' [_ H] _ IH]; [done|]. apply Forall_cons in S2 as [Ha Hl]. constructor; [|auto].
    destruct (live a'); [|done]. by rewrite H in Ha.
  - intros Hp. destruct (Ho Hp); auto.
  - destruct R5 as [R5 R5']. split; [done|]. auto.
  - intros Hs. rewrite G by done. apply R7. destruct (ex_stopped e); [by rewrite F in Hs|done].
Qed.

Lemma resources_point p q e : resources p e -> resources p (set_point q e).
Proof. by intros []; split. Qed.

(** At the same point, except in the factory. *)
Lemma kept_at p e e' : kept e e' -> p <> InFactory -> resources p e -> resources p e'.
Proof. intros H Hp Hr. eapply kept_resources; [exact H|exact Hr|by left|done|done]. Qed.

Lemma kept_fail o d e : kept e (fail o d e).
Proof.
  destruct (kept_refl e) as [K]. unfold fail. case_bool_decide; cbn; destruct (ex_observing e); by split.
Qed.

Lemma kept_event k a e : kept e (event number_text k a e).
Proof.
  destruct (kept_refl e) as [K]. unfold event. cbn zeta. destruct (_ <? _)%N; [|by split].
  eapply kept_trans; [|apply kept_fail]. by split.
Qed.

Lemma kept_same e e' : ex_actors e' = ex_actors e -> ex_pendingRequests e' = ex_pendingRequests e -> ex_closed e' = ex_closed e ->
  ex_teardowns e' = ex_teardowns e -> rep_cleanup (ex_report e') = rep_cleanup (ex_report e) -> ex_stopped e' = ex_stopped e ->
  rep_outcome (ex_report e') = rep_outcome (ex_report e) -> kept e e'.
Proof. intros A B C D E F G. destruct (kept_refl e) as [K]. split; try done; [by rewrite A|by rewrite F]. Qed.

Lemma kept_cancel e : kept e (cancel_all e).
Proof. by apply kept_same. Qed.

Lemma kept_alter i f e : (forall a, ex_actors e !! i = Some a -> kept_actor a (f a)) -> kept e (on_actors (alter f i) e).
Proof.
  intros H. split; try done. cbn. apply Forall2_same_length_lookup. split; [by rewrite length_alter|]. intros j a b Ha Hb.
  destruct (decide (i = j)) as [<-|Hne].
  - rewrite list_lookup_alter_eq, Ha in Hb. injection Hb as <-. by apply H.
  - rewrite list_lookup_alter_ne, Ha in Hb by done. by injection Hb as <-.
Qed.

Lemma kept_observe o e : kept e (observe number_text deadline o e).
Proof.
  assert (forall e1 o d, kept e e1 -> kept e (fail o d e1)) as Hf.
  { intros e1 o' d H. eapply kept_trans; [exact H|apply kept_fail]. }
  unfold observe. pose proof (kept_refl e) as H0. destruct (ex_stopped e); [done|].
  destruct (negb _ || _); [by apply Hf|]. cbn zeta.
  assert (kept e (set_observing true e)) as H1 by by apply kept_same.
  set (e2 := if oe_aborted o then _ else _). assert (kept e e2) as H2 by (unfold e2; destruct (oe_aborted o); [by apply Hf|done]).
  set (e3 := match _ ≫= _ with Ok _ => _ | Err _ => _ end). assert (kept e e3) as H3.
  { unfold e3. destruct (_ ≫= _); [|by apply Hf]. destruct (ex_stopped e2); [done|]. destruct (_ <=? _)%Z; [by apply Hf|].
    destruct (_ <? _)%N; [by apply Hf|]. eapply kept_trans; [exact H2|by apply kept_same]. }
  assert (kept e (set_observing false e3)) as H4 by (eapply kept_trans; [exact H3|by apply kept_same]).
  destruct (ex_stopped (set_observing false e3)); [|exact H4]. eapply kept_trans; [exact H4|apply kept_cancel].
Qed.

Lemma kept_arrive step a o e : kept e (arrive number_text deadline step a o e).
Proof.
  unfold arrive. pose proof (kept_event ek_arrival a e) as H. set (e1 := event _ _ _ _) in *. set (e2 := if bool_decide _ then e1 else _).
  assert (kept e e2) as H2 by (unfold e2; case_bool_decide; [done|eapply kept_trans; [exact H|apply kept_fail]]).
  destruct (ex_stopped e2); [exact H2|]. eapply kept_trans; [exact H2|]. eapply kept_trans; [|apply kept_observe]. by apply kept_same.
Qed.

Lemma kept_wait pred until running now aborted e : kept e (wait_once pred until running now aborted e).2.
Proof. unfold wait_once. repeat case_match; cbn; try apply kept_refl; apply kept_fail. Qed.

(** From a point other than the factory, and not closed. *)
Lemma begin_cleanup_resources timeoutMs now p e : p <> InFactory -> p <> InTeardown -> resources p e ->
  let e' := (begin_cleanup timeoutMs now e).1 in resources (ex_point e') e'.
Proof.
  intros Hp1 Hp2 Hr. cbn zeta. unfold begin_cleanup.
  assert (forall q e', kept e e' -> idle_resources q = true -> q <> InTeardown -> q <> InFactory -> resources q e') as Hi.
  { intros q e' H Hq1 Hq2 Hq3. eapply kept_resources; [exact H|exact Hr| |done|done]. by rewrite Hq1. }
  destruct (num_safe_Z _) as [z|]; [|by apply (Hi Idle); [apply kept_same|..]]. destruct (budget _); [|by apply (Hi Idle); [apply kept_same|..]].
  destruct (ex_closed e) eqn:Hc; [by apply (Hi Idle); [apply kept_same|..]|]. cbn [fst ex_point set_point].
  eapply (kept_resources p _ e); [|exact Hr|by right|done|done].
  set (e1 := if _ && _ then _ else e). assert (kept e e1) as H1 by (unfold e1; destruct (_ && _); [apply kept_fail|apply kept_refl]).
  eapply kept_trans; [exact H1|]. destruct (kept_refl e1) as [K]. by split.
Qed.

Lemma end_interval_resources now p e : p <> InFactory -> p <> InTeardown -> resources p e ->
  let e' := (end_interval schedule policy now e).1 in resources (ex_point e') e'.
Proof.
  intros Hp1 Hp2 Hr. cbn zeta. unfold end_interval. set (e1 := if _ && _ then _ else e).
  assert (kept e e1) as H1 by (unfold e1; destruct (_ && _); [by apply kept_same|apply kept_refl]).
  assert (resources p e1) as Hr1 by by apply (kept_at p e). destruct (_ || _); [by apply (begin_cleanup_resources _ _ p)|].
  eapply (kept_resources p Idle e1); [by apply kept_same|done..].
Qed.

Lemma end_wait_resources until e : resources (InCleanup until) e -> let e' := (end_wait e).1 in ex_stopped e = true -> resources (ex_point e') e'.
Proof.
  intros Hr. cbn zeta. intros Hs. pose proof Hr as [R1 R2 R3 R4 R5 R6 R7 R8]. specialize (R3 eq_refl). destruct (R4 R3) as [T1 T2]. unfold end_wait.
  destruct (negb _ || negb _) eqn:Hrem; [split; cbn; try done; split; [lia|done]|].
  apply orb_false_iff in Hrem as [Hl Hpn]. apply negb_false_iff in Hl, Hpn. apply Z.eqb_eq in Hpn. apply Nat.eqb_eq in Hl. rewrite length_map in Hl.
  assert (Forall (fun a => live a = false) (ex_actors e)) as Hlive.
  { apply Forall_forall. intros a Ha. destruct (live a) eqn:Hla; [|done]. apply length_zero_iff_nil in Hl.
    assert (a ∈ List.filter remains (ex_actors e)) as Hin.
    { apply list_elem_of_In, filter_In. split; [by apply list_elem_of_In|]. unfold remains, live in *. by rewrite Hla. }
    rewrite Hl in Hin. by apply elem_of_nil in Hin. }
  destruct (ex_program e); (split; cbn; try done; rewrite ?T1; try done; try lia). all: split; [lia|done].
Qed.

(** ** Requests *)

Lemma pending_alter i a b n l : l !! i = Some a ->
  pending_count (alter (set_request b n) i l) = (pending_count l - (if ac_requestPending a then 1 else 0) + (if b then 1 else 0))%Z.
Proof.
  unfold pending_count. revert i. induction l as [|x l IH]; intros [|i] H; try done.
  - injection H as ->. cbn. destruct (ac_requestPending a), b; cbn [length]; lia.
  - cbn [alter list_alter List.filter]. specialize (IH i H). change (list_alter (set_request b n) i l) with (alter (set_request b n) i l).
    destruct (ac_requestPending x); cbn [length]; lia.
Qed.

Lemma live_alter i b n l : Forall (fun a => live a = false) l -> Forall (fun a => live a = false) (alter (set_request b n) i l).
Proof. intros H. apply Forall_alter; [done|]. by intros a Ha Hl. Qed.

(** A request that starts or ends. *)
Lemma request_resources p e i a (b : bool) n d : ex_actors e !! i = Some a -> p <> InFactory ->
  (d = (if b then 1 else 0) - (if ac_requestPending a then 1 else 0))%Z -> (b = true -> ex_stopped e = false) ->
  resources p e -> resources p (add_pending d (on_actors (alter (set_request b n) i) e)).
Proof.
  intros Ha Hp Hd Hb [R1 R2 R3 R4 R5 R6 R7 R8]. split; cbn; try done.
  - rewrite (pending_alter i a b n _ Ha). lia.
  - intros Hc. destruct (R2 Hc) as (S1 & S2 & S3). split_and!; [done|by apply live_alter|]. destruct b; [by rewrite Hb in S1|].
    destruct (ac_requestPending a) eqn:Hr; [|lia]. exfalso. rewrite R1 in S3. unfold pending_count in S3.
    assert (a ∈ List.filter ac_requestPending (ex_actors e)) as Hin.
    { apply list_elem_of_In, filter_In. split; [|done]. apply list_elem_of_In. by eapply list_elem_of_lookup_2. }
    destruct (List.filter _ _); [by apply elem_of_nil in Hin|]. cbn in S3. lia.
Qed.

Lemma receive_resources p i value e : possible e (Message i value) = true -> p <> InFactory -> resources p e ->
  resources p (receive number_text adapter i value e).2.
Proof.
  cbn [possible]. unfold receive. destruct (ex_actors e !! i) as [a|] eqn:Hi; [|done]. change (has_worker a && negb (ac_exited a)) with (live a).
  intros Hlive Hp Hr. assert (forall e', kept e e' -> resources p e') as Hk by (intros; by eapply kept_at).
  destruct value as [| | | | | | |m]; try exact Hr. cbn zeta.
  unfold throw_text, modify_actor, throws, modify, this, when, mret, method_mret.
  destruct (is_str (getf m ($"kind")) "ready").
  { destruct (negb _ || _ || _); [exact Hr|]. unfold mbind, method_mbind. apply Hk.
    eapply kept_trans; [|apply kept_alter; by intros]. apply kept_alter. by intros. }
  destruct (is_str (getf m ($"kind")) "arrival").
  { unfold mbind, method_mbind. destruct (ex_stopped e); [exact Hr|]. case_bool_decide as Hrun; cbn [negb orb]; [|apply Hk, kept_fail].
    destruct (ac_requestPending a); [apply Hk, kept_fail|]. destruct (getf m ($"checkpoint")) as [| | | | |c| |]; try apply Hk, kept_fail.
    destruct (scheduleIdentifier c && _); [|apply Hk, kept_fail]. apply Hk, kept_alter. by intros. }
  destruct (is_str (getf m ($"kind")) "finished").
  { unfold mbind, method_mbind. destruct (_ && _); [exact Hr|]. apply Hk.
    eapply kept_trans; [apply (kept_alter i set_reported); by intros|]. eapply kept_trans; [|apply kept_alter; by intros]. by apply kept_same. }
  destruct (is_str (getf m ($"kind")) "failure").
  { unfold mbind, method_mbind. destruct (ex_stopped e); [exact Hr|]. apply Hk, kept_fail. }
  destruct (is_str (getf m ($"kind")) "request"); [|exact Hr].
  unfold mbind, method_mbind. destruct (ex_stopped e) eqn:Es; [exact Hr|].
  destruct (negb _ || ac_requestPending a) eqn:Hq; [exact Hr|]. apply orb_false_iff in Hq as [_ Hq].
  set (e1 := on_actors (alter (set_request false (ac_requestId a + 1)) i) e).
  assert (kept e e1) as H1. { apply kept_alter. intros a' Ha'. rewrite Hi in Ha'. injection Ha' as <-. by split. }
  destruct (negb _ || _); [by apply Hk|]. destruct (scheduleData _ _ _); [|by apply Hk]. cbn [snd].
  apply (request_resources p e1 i (set_request false (ac_requestId a + 1) a)); [|done|done|done|by apply Hk].
  unfold e1. cbn. by rewrite list_lookup_alter_eq, Hi.
Qed.

Lemma message_resources p i value e : possible e (Message i value) = true -> p <> InFactory -> resources p e ->
  resources p (message number_text adapter i value e).
Proof.
  intros H Hp Hr. pose proof (receive_resources p i value e H Hp Hr) as H1. unfold message.
  destruct (receive _ _ _ _ _) as [[u|t] e1]; [done|]. by eapply kept_at; [apply kept_fail|..].
Qed.

Lemma end_request_resources p i r e : p <> InFactory -> resources p e -> resources p (end_request number_text i r e).
Proof.
  intros Hp Hr. unfold end_request. destruct (ex_actors e !! i) as [a|] eqn:Hi; [|done]. destruct (ac_requestPending a) eqn:Hq; cbn [negb]; [|done].
  set (e1 := match _ ≫= _ with Ok _ => _ | Err _ => _ end).
  assert (kept e e1 /\ ex_actors e1 = ex_actors e) as [H1 H2].
  { unfold e1. destruct (_ ≫= _); destruct (ex_stopped e); try (split; [apply kept_refl|done]); [split; [by apply kept_same|done]|].
    rewrite fail_actors. split; [|done]. eapply kept_trans; [|apply kept_fail]. by apply kept_same. }
  apply (request_resources p e1 i a); [by rewrite H2|done|by rewrite Hq|done|by eapply kept_at].
Qed.

Lemma exited_kept i code e : kept e (exited i code e).
Proof.
  unfold exited. destruct (ex_actors e !! i) as [a|] eqn:Hi; [|apply kept_refl]. cbn zeta.
  assert (kept e (on_actors (alter set_exited i) e)) as H1.
  { apply kept_alter. intros a' _. split; [done|]. unfold live. cbn. by rewrite andb_false_r. }
  destruct (_ && _).
  - eapply kept_trans; [exact H1|]. eapply kept_trans; [apply kept_fail|]. apply kept_alter. by intros.
  - eapply kept_trans; [exact H1|]. apply kept_alter. by intros.
Qed.

(** ** The factory *)

Lemma create_workers_fresh threads l : let l' := (create_workers threads (map fresh_actor l)).1 in Forall wired l' /\ pending_count l' = 0%Z.
Proof.
  cbn zeta. revert threads. induction l as [|a l IH]; intros ts; [by destruct ts|]. cbn [map create_workers].
  assert (forall l, Forall wired (map fresh_actor l) /\ pending_count (map fresh_actor l) = 0%Z) as Hf.
  { clear. intros l. split; [apply Forall_fmap, Forall_true; intros a; by split; [intros [?|?]|]|]. induction l; done. }
  destruct ts as [|[t|t] ts]; [apply (Hf (a :: l))| |apply (Hf (a :: l))].
  specialize (IH ts). unfold create_workers in IH |- *. fold create_workers in IH |- *. destruct (create_workers ts _) as [l1 r]. destruct IH as [H1 H2].
  split; [constructor; [|exact H1]; by split; [intros [?|?]|]|]. exact H2.
Qed.

Lemma end_factory_facts r threads e : resources InFactory e -> wiring e ->
  let e' := (end_factory r threads e).1 in resources (ex_point e') e' /\ wiring e'.
Proof.
  intros Hr Hw. cbn zeta. pose proof Hr as [R1 R2 R3 R4 R5 R6 R7 R8]. specialize (R3 eq_refl). destruct (R4 R3) as [T1 T2]. specialize (R8 eq_refl).
  assert (forall o d e1, kept e e1 -> after e e1 -> let e2 := set_point InStart (fail o d e1) in resources (ex_point e2) e2 /\ wiring e2) as Hf.
  { intros o d e1 K1 A1. split.
    - eapply (kept_resources InFactory InStart e); [|done|by right|done|done]. eapply kept_trans; [exact K1|]. eapply kept_trans; [apply kept_fail|by apply kept_same].
    - eapply after_wiring; [|exact Hw]. eapply after_trans; [exact A1|]. eapply after_trans; [apply after_fail|same_after]. }
  assert (kept e e /\ after e e) as [K0 A0] by (split; [apply kept_refl|apply after_refl]).
  unfold end_factory. destruct r as [[p|]|t]; cbn [fst]; [|by apply Hf|].
  - assert (kept e (set_program (Some (pr_request p)) e)) as K1 by by apply kept_same.
    assert (after e (set_program (Some (pr_request p)) e)) as A1 by same_after.
    destruct (negb (pr_valid p)); [by apply Hf|]. destruct (negb (distinct_workers _ _)); [by apply Hf|]. destruct (_ || _); [by apply Hf|].
    cbn [ex_actors set_program]. rewrite R8. destruct (create_workers_fresh threads (ad_actors adapter)) as [C1 C2].
    destruct (create_workers _ _) as [l1 failed]. cbn [fst] in *.
    set (e2 := on_actors _ _). assert (resources InStart e2 /\ wiring e2) as [H2 W2].
    { split; [split; cbn; try done|split; [done|apply Hw]].
      - rewrite C2. rewrite R8 in R1. rewrite R1. clear. induction (ad_actors adapter); done.
      - by rewrite R3.
      - split; [lia|done]. }
    destruct failed as [t|]; [|split; [by apply resources_point|exact W2]]. split.
    + eapply (kept_resources InStart InStart e2); [|exact H2|by left|done|done]. eapply kept_trans; [apply kept_fail|by apply kept_same].
    + eapply after_wiring; [|exact W2]. eapply after_trans; [apply (after_fail so_resource_failed t)|same_after].
  - split; [|eapply after_wiring; [|exact Hw]; eapply after_trans; [apply (after_fail so_application_failed t)|same_after]].
    assert (resources Idle (fail so_application_failed t e)) as [Q1 Q2 Q3 Q4 Q5 Q6 Q7 Q8].
    { eapply (kept_resources InFactory Idle e); [apply kept_fail|done|by right|done|done]. }
    pose proof (fail_actors so_application_failed t e) as E1. pose proof (fail_stopped so_application_failed t e) as E2.
    destruct (kept_fail so_application_failed t e) as [_ _ K3 K4 K5 _ _]. cbn [reply fst]. generalize dependent (fail so_application_failed t e).
    intros f Q1 Q2 Q3 Q4 Q5 Q6 Q7 Q8 E1 E2 K3 K4 K5. rewrite E1, R8 in Q1. split; cbn; try done.
    + by rewrite E1, R8.
    + intros _. split; [done|]. split; [rewrite E1, R8; by apply Forall_fmap, Forall_true|]. rewrite Q1. clear. induction (ad_actors adapter); done.
    + rewrite K4, T1. split; [lia|done].
    + intros Hc. by rewrite K5 in Hc.
Qed.

(** ** Every step *)

Definition sound (e : execution) : Prop := progress schedule adapter 1 (ex_point e) e /\ resources (ex_point e) e /\ wiring e.

Lemma resume_facts now aborted o later e : sound e ->
  let e' := (resume number_text schedule policy deadline now aborted o later e).1 in resources (ex_point e') e' /\ wiring e'.
Proof.
  intros (Hpr & Hr & Hw). cbn zeta. unfold resume. destruct (ex_point e) as [| | |i|until|] eqn:Ep; try (cbn [fst]; by rewrite Ep).
  - pose proof (kept_wait parked deadline true now aborted e) as Hk. pose proof (wait_once_after parked deadline true now aborted e) as Ha.
    assert (forall e1, kept e e1 -> wiring e1 -> let e2 := (cleanup_if_stopped policy later e1).1 in resources (ex_point e2) e2 /\ wiring e2) as Hend.
    { intros e1 K1 W1. cbn zeta. unfold cleanup_if_stopped. destruct (ex_stopped e1).
      - split; [|by eapply after_wiring; [apply begin_cleanup_after|]]. apply (begin_cleanup_resources _ _ InStart); [done..|]. by eapply kept_at.
      - split; [|exact W1]. apply resources_point. by eapply (kept_resources InStart Idle e). }
    destruct (wait_once _ _ _ _ _ _) as [[] e1]; cbn [snd] in Hk.
    + destruct Ha as (-> & _). apply Hend; [apply kept_observe|]. by eapply unwritten_wiring; [apply observe_unwritten|].
    + destruct Ha as [Ha _]. apply Hend; [done|]. by eapply after_wiring.
    + subst e1. cbn [fst]. by rewrite Ep.
  - pose proof (kept_wait (arrived i) deadline true now aborted e) as Hk. pose proof (wait_once_after (arrived i) deadline true now aborted e) as Ha.
    assert (forall e1, kept e e1 -> wiring e1 -> let e2 := (end_interval schedule policy later e1).1 in resources (ex_point e2) e2 /\ wiring e2) as Hend.
    { intros e1 K1 W1. cbn zeta. split; [|by apply end_interval_after]. apply (end_interval_resources _ (InInterval i)); [done..|]. by eapply kept_at. }
    destruct (wait_once _ _ _ _ _ _) as [[] e1]; cbn [snd] in Hk.
    + destruct Ha as (-> & _). destruct (ex_actors e !! i) as [a|]; [|by apply Hend]. destruct (steps !! ex_next e) as [step|]; [|by apply Hend].
      apply Hend; [apply kept_arrive|]. unfold arrive.
      assert (forall e1, wiring e1 -> wiring (if ex_stopped e1 then e1 else observe number_text deadline o (count_next e1))) as Hobs.
      { intros e1 W1. destruct (ex_stopped e1); [done|]. eapply unwritten_wiring; [apply observe_unwritten|exact W1]. }
      apply Hobs. pose proof (event_wiring a e Hw) as He. case_bool_decide; [done|]. by eapply after_wiring; [apply after_fail|].
    + destruct Ha as [Ha _]. assert (wiring e1) by by eapply after_wiring. by destruct (ex_actors e !! i), (steps !! ex_next e); apply Hend.
    + subst e1. by destruct (ex_actors e !! i), (steps !! ex_next e); cbn [fst]; rewrite Ep.
  - pose proof (wait_once_after gone until false now aborted e) as Ha. pose proof (pr_ending _ _ _ _ _ Hpr eq_refl) as Hs.
    pose proof (kept_wait gone until false now aborted e) as Hk.
    assert (forall e1, kept e e1 -> wiring e1 -> let e2 := (end_wait e1).1 in resources (ex_point e2) e2 /\ wiring e2) as Hend.
    { intros e1 K1 W1. cbn zeta. split; [|by eapply after_wiring; [apply end_wait_after|]]. apply (end_wait_resources until); [by eapply kept_at|].
      by apply (kp_stopped _ _ K1). }
    destruct (wait_once _ _ _ _ _ _) as [[] e1]; cbn [snd] in Hk.
    + destruct Ha as (-> & _). by apply Hend.
    + apply Hend; [done|]. by eapply after_wiring; [apply Ha|].
    + subst e1. cbn [fst]. by rewrite Ep.
Qed.

(** Ways to use [kept] and [after] at the point where the controller is. *)
Lemma quiet_facts e e' : kept e e' -> after e e' -> ex_point e' = ex_point e -> ex_point e <> InFactory -> resources (ex_point e) e -> wiring e ->
  resources (ex_point e') e' /\ wiring e'.
Proof. intros K A -> Hp Hr Hw. split; [by eapply kept_at|by eapply after_wiring]. Qed.

(** While the factory runs nothing but the signal reaches the actors. *)
Lemma factory_fail_facts o d e : ex_point e = InFactory -> resources (ex_point e) e -> wiring e ->
  resources (ex_point (fail o d e)) (fail o d e) /\ wiring (fail o d e).
Proof.
  intros Ep Hr Hw. rewrite fail_point. split; [|by eapply after_wiring; [apply after_fail|]]. rewrite Ep in *.
  destruct (kept_resources InFactory InStart e _ (kept_fail o d e) Hr ltac:(by right; apply Hr) ltac:(done) ltac:(done)) as [R1 R2 R3 R4 R5 R6 R7 R8].
  split; try done; [by split; [apply R5|]|]. intros _. rewrite fail_actors. by apply Hr.
Qed.

Lemma fail_facts o d e : resources (ex_point e) e -> wiring e -> resources (ex_point (fail o d e)) (fail o d e) /\ wiring (fail o d e).
Proof.
  intros Hr Hw. destruct (decide (ex_point e = InFactory)) as [Ep|Ep] eqn:E; [by apply factory_fail_facts|].
  apply (quiet_facts e); [apply kept_fail|apply after_fail|apply fail_point|done..].
Qed.

Lemma begin_cleanup_facts timeoutMs now p e : p <> InFactory -> p <> InTeardown -> resources p e -> wiring e ->
  let e' := (begin_cleanup timeoutMs now e).1 in resources (ex_point e') e' /\ wiring e'.
Proof. intros H1 H2 Hr Hw. split; [by apply (begin_cleanup_resources _ _ p)|by eapply after_wiring; [apply begin_cleanup_after|]]. Qed.

Lemma end_interval_facts now p e : p <> InFactory -> p <> InTeardown -> resources p e -> wiring e ->
  let e' := (end_interval schedule policy now e).1 in resources (ex_point e') e' /\ wiring e'.
Proof. intros H1 H2 Hr Hw. split; [by apply (end_interval_resources _ p)|by apply end_interval_after]. Qed.

Lemma permit_facts step now e : ex_stopped e = false -> resources Idle e -> wiring e ->
  let e' := (permit number_text schedule policy step now e).1 in resources (ex_point e') e' /\ wiring e'.
Proof.
  intros Hs Hr Hw. cbn zeta. split; [|by apply permit_wiring]. unfold permit.
  destruct (find_actor _ _) as [[i a]|]; [|by apply resources_point].
  assert (forall e1, kept e e1 -> let e2 := (end_interval schedule policy now e1).1 in resources (ex_point e2) e2) as Hend.
  { intros e1 K1. apply (end_interval_resources _ Idle); [done..|]. by eapply kept_at. }
  destruct (negb _); [apply Hend, kept_fail|]. pose proof (kept_event ek_permit a e) as K. set (e1 := event _ _ _ _) in *.
  destruct (ex_stopped e1) eqn:Es; [by apply Hend|]. cbn [fst ex_point set_point].
  eapply (kept_resources Idle (InInterval i) e); [|done| |done|done].
  - eapply kept_trans; [exact K|]. eapply kept_trans; [apply (kept_alter i (set_phase p_running (ac_checkpoint a))); by intros|by apply kept_same].
  - intros _. right. destruct Hr as [_ R2 _ _ _ _ _ _]. destruct (ex_closed e); [|done]. destruct R2 as [R2 _]; [done|congruence].
Qed.

Lemma stop_and_end_facts o d now e : resources Idle e -> wiring e ->
  let e' := (end_interval schedule policy now (fail o d e)).1 in resources (ex_point e') e' /\ wiring e'.
Proof.
  intros Hr Hw. apply (end_interval_facts _ Idle); [done..| |by eapply after_wiring; [apply after_fail|]]. by eapply kept_at; [apply kept_fail|..].
Qed.

Lemma schedule_step_sound e x : sound e -> sound (schedule_step number_text schedule adapter policy deadline e x).1.
Proof.
  intros Hs. pose proof Hs as (Hpr & Hr & Hw). split; [by apply schedule_step_progress|]. unfold schedule_step.
  destruct (possible e x) eqn:Hx; [|done]. cbn [negb].
  assert (forall i a, ex_actors e !! i = Some a -> live a = true -> ex_point e <> InFactory) as Hlive.
  { intros i a Ha Hl Hp. rewrite (rs_factory _ _ Hr Hp), list_lookup_fmap in Ha. by destruct (ad_actors adapter !! i); [injection Ha as <-|]. }
  destruct x as [r threads|now aborted o later|i value| |text|i code| |i r|step scoped aborted now later|scoped later|timeoutMs scoped later|r]; cbn [fst].
  - cbn in Hx. destruct (ex_point e) eqn:Ep; try done. by apply end_factory_facts.
  - by apply resume_facts.
  - assert (ex_point e <> InFactory) as Hp.
    { cbn in Hx. destruct (ex_actors e !! i) as [a|] eqn:Ha; [|done]. by eapply Hlive. }
    rewrite message_point. split; [by apply message_resources|by eapply after_wiring; [apply message_after|]].
  - by apply fail_facts.
  - by apply fail_facts.
  - assert (ex_point e <> InFactory) as Hp.
    { cbn in Hx. destruct (ex_actors e !! i) as [a|] eqn:Ha; [|done]. by eapply Hlive. }
    by apply (quiet_facts e); [apply exited_kept|apply exited_after|apply exited_point|..].
  - by apply fail_facts.
  - rewrite end_request_point. destruct (decide (ex_point e = InFactory)) as [Ep|Ep].
    + unfold end_request. rewrite (rs_factory _ _ Hr Ep), list_lookup_fmap. by destruct (ad_actors adapter !! i).
    + split; [by apply end_request_resources|by eapply after_wiring; [apply end_request_after|]].
  - unfold advance. destruct (ex_point e) eqn:Ep; rewrite ?orb_true_r; cbn [negb fst]; try by rewrite Ep.
    rewrite orb_false_r. destruct scoped; [cbn [fst]; by rewrite Ep|]. destruct (ex_closed e); [cbn [fst]; by rewrite Ep|].
    destruct (ex_stopped e) eqn:Es; [split; [by apply resources_point|exact Hw]|]. destruct aborted; [by apply stop_and_end_facts|].
    destruct (_ <=? _)%Z; [by apply stop_and_end_facts|]. case_bool_decide; cbn [negb]; [by apply permit_facts|by apply stop_and_end_facts].
  - unfold finish. destruct (ex_point e) eqn:Ep; rewrite ?orb_true_r; cbn [negb fst]; try by rewrite Ep.
    rewrite orb_false_r. destruct scoped; [cbn [fst]; by rewrite Ep|]. destruct (ex_closed e); [split; [by apply resources_point|exact Hw]|].
    destruct (negb _); [|by apply (begin_cleanup_facts _ _ Idle)].
    apply (begin_cleanup_facts _ _ Idle); [done..| |by eapply after_wiring; [apply after_fail|]]. by eapply kept_at; [apply kept_fail|..].
  - unfold cleanup. destruct (ex_point e) eqn:Ep; rewrite ?orb_true_r; cbn [negb fst]; try by rewrite Ep.
    rewrite orb_false_r. destruct scoped; [cbn [fst]; by rewrite Ep|]. by apply (begin_cleanup_facts _ _ Idle).
  - cbn in Hx. destruct (ex_point e) eqn:Ep; try done. destruct Hr as [R1 R2 R3 R4 R5 R6 R7 R8]. destruct R5 as [R5 R5'].
    destruct (R5' eq_refl) as [T1 T2]. split; [|by eapply after_wiring; [apply end_teardown_after|]].
    destruct r; split; cbn; try done; intros; rewrite ?T2, ?T1 in *; done.
Qed.

Lemma fresh_sound : sound (set_point InFactory (fresh_execution adapter)).
Proof.
  assert (Forall (fun a => is_running a = false) (map fresh_actor (ad_actors adapter))) as Hn by by apply Forall_fmap, Forall_true.
  split_and!.
  - split; cbn; try done; try lia.
    + rewrite map_map. by apply map_id.
    + exists [], []. rewrite take_0. by split_and!; [|constructor|].
    + intros i a Ha Hr. rewrite Forall_lookup in Hn. by rewrite (Hn i a Ha) in Hr.
    + split_and!; [done|lia|done].
  - split; cbn; try done.
    + clear. induction (ad_actors adapter); done.
    + split; [lia|done].
  - split; [|done]. apply Forall_fmap, Forall_true. intros a. by split; [intros [?|?]|].
Qed.

Lemma after_closed e : after e (set_closed e).
Proof. same_after. Qed.

(** An execution that stops before it has workers closes. *)
Lemma closed_early e : sound e -> ex_point e = Idle -> ex_stopped e = true -> ex_actors e = map fresh_actor (ad_actors adapter) ->
  ex_closed e = false -> sound (set_closed e).
Proof.
  intros (Hp & Hr & Hw) Ep Es Ha Hc. split_and!; cbn [ex_point set_closed]; rewrite ?Ep in *.
  - eapply after_progress; [apply after_closed|done].
  - destruct Hr as [R1 R2 R3 R4 R5 R6 R7 R8]. destruct (R4 Hc) as [T1 T2].
    assert (ex_pendingRequests e = 0%Z) as Hz by (rewrite R1, Ha; clear; induction (ad_actors adapter); done).
    split; cbn; try done.
    + intros _. split; [done|]. split; [|done]. rewrite Ha. by apply Forall_fmap, Forall_true.
    + rewrite T1. split; [lia|done].
  - by eapply after_wiring; [apply after_closed|].
Qed.

Lemma refused_sound o d : sound (set_closed (fail o d (fresh_execution adapter))).
Proof.
  destruct fresh_sound as (Hpr & Hr & Hw). set (e1 := fresh_execution adapter) in *. assert (ex_actors e1 = map fresh_actor (ad_actors adapter) /\ ex_closed e1 = false /\ ex_point e1 = Idle) as (Ha & Hc & Hp) by done.
  assert (after (set_point InFactory e1) e1) as H1 by same_after.
  assert (kept (set_point InFactory e1) e1) as H2 by by apply kept_same. clearbody e1.
  apply closed_early; rewrite ?fail_point, ?fail_actors, ?(kp_closed _ _ (kept_fail o d e1)); try done; [|apply fail_stopped].
  split_and!; rewrite ?fail_point, ?Hp.
  - apply (stopped_progress _ _ 1 _ InFactory); [apply fail_stopped|done|]. eapply after_progress; [|exact Hpr].
    eapply after_trans; [exact H1|apply after_fail].
  - eapply (kept_resources InFactory Idle); [|exact Hr|by right; apply Hr|done|done]. eapply kept_trans; [exact H2|apply kept_fail].
  - eapply after_wiring; [|exact Hw]. eapply after_trans; [exact H1|apply after_fail].
Qed.

Lemma start_sound scoped aborted : sound (start schedule adapter policy scoped aborted).
Proof.
  unfold start. destruct (admitted_by _ _ _ _); [|apply refused_sound]. destruct (negb _); [apply refused_sound|].
  destruct aborted; [apply refused_sound|apply fresh_sound].
Qed.

Lemma schedule_run_sound xs : forall e, sound e -> sound (schedule_run number_text schedule adapter policy deadline e xs).1.
Proof.
  induction xs as [|x xs IH]; intros e He; [done|]. cbn [schedule_run]. pose proof (schedule_step_sound e x He) as H1.
  destruct (schedule_step _ _ _ _ _ _ _) as [e1 a]. specialize (IH e1 H1). by destruct (schedule_run _ _ _ _ _ e1 xs).
Qed.

(** C7: an execution of a schedule, under every sequence of calls, messages and exits of
    workers, requests, signals and readings of the clock. The record is a permit and an
    arrival at the admitted checkpoint for each step, in the schedule's order, then at
    most a beginning of the next; permits are posted to workers exactly as recorded; at
    most one worker runs at a time; the observations are numbered and there is at most
    one more than intervals; the program is torn down at most once. And an execution
    that passed recorded every interval, observed before and after each, and closed
    with its program torn down once, no worker left and no request pending. *)
Theorem schedule_sound scoped aborted xs :
  let e := (schedule_run number_text schedule adapter policy deadline (start schedule adapter policy scoped aborted) xs).1 in
  let r := ex_report e in
  (exists evs tail, rep_events r = evs ++ tail /\ intervals 0 (take (ex_next e) steps) evs /\ broken schedule (ex_next e) tail) /\
  permits (ex_posted e) = map ev_actor (List.filter is_permit (rep_events r)) /\
  (forall i j a b, ex_actors e !! i = Some a -> ex_actors e !! j = Some b -> is_running a = true -> is_running b = true -> i = j) /\
  map fst (rep_observations r) = seq 0 (length (rep_observations r)) /\ (length (rep_observations r) <= S (ex_next e))%nat /\
  (ex_teardowns e <= 1)%nat /\
  (passed r = true ->
     intervals 0 steps (rep_events r) /\ length (rep_observations r) = S (length steps) /\
     ex_closed e = true /\ ex_teardowns e = 1%nat /\ Forall (fun a => live a = false) (ex_actors e) /\ ex_pendingRequests e = 0%Z).
Proof.
  cbn zeta. destruct (schedule_run_sound xs _ (start_sound scoped aborted)) as (Hp & Hr & [_ Hw]).
  set (e := (schedule_run _ _ _ _ _ _ xs).1) in *. destruct Hp as [_ (evs & tail & P2 & P2' & P2'') _ P4 (Q1 & Q2 & _) _ P7 _].
  destruct Hr as [_ R2 _ _ [R5 _] R6 _ _]. split_and!; try done.
  - exists evs, tail. split_and!; [done..|]. unfold tail_ok in P2''. destruct (ex_stopped e); [done|]. unfold broken.
    destruct (ex_point e); try by left. destruct P2'' as (a & s & c & _ & Hs & _ & ->). right. by eauto 10.
  - intros i j a b Ha Hb Hra Hrb. by eapply (P4 i a Ha Hra).
  - unfold passed. rewrite !andb_true_iff, !bool_decide_eq_true. intros [[_ Hc] Hcl]. destruct (P7 Hc). destruct (R6 Hcl) as [Hclosed Ht].
    by destruct (R2 Hclosed) as (_ & ? & ?).
Qed.
End runs.
