(* ===== verification/Exploration.v ===== *)
(** * Finite exploration of schedules

    [src/src/schedule-exploration.ts]: the canonical text of a state, the enumeration of
    the interleavings of the actors' chains with a bound on preemptions, and the loop
    that runs each of them with each input and keeps the evidence.

    What the platform decides is an argument: [stops], whether the signal or the clock
    stops the enumeration at its n-th call of [visit], and for each run a [run_env].
    Of the result the echoes of the declaration and the elapsed time are left out. *)

From S2P Require Import Prelude JsNumber Utf16 JsData StrictJson Decode JsText Requests Protocol OpaqueItf ScheduleData Schedule.

Definition requireValue (condition : bool) (message : string) : res exn unit := require condition (Exn XError (lit message)).

Definition evidence_object (v : js) : res exn object_t := match v with JObj o => Ok o | _ => throw XError "expected evidence object" end.
Definition evidence_array (v : js) : res exn (list js) := match v with JArr l => Ok l | _ => throw XError "expected evidence array" end.

Definition utf8 (a b : ustring) : comparison := compare_lists (utf8_bytes a) (utf8_bytes b).

(** ** The canonical text of a state *)

Definition canonical_depth : nat := 32.
Definition canonical_nodes : N := 65536.

Definition tagged_js (tag : string) (items : list js) : js := JArr (JStr (lit tag) :: items).

(** [Map.set] keeps the place of a key it has; the entry replaces the old one. *)
Fixpoint keep_last (entries : list (ustring * js)) (key : ustring) (item : js) : list (ustring * js) :=
  match entries with
  | [] => [(key, item)]
  | (k, x) :: rest => if bool_decide (k = key) then (k, item) :: rest else (k, x) :: keep_last rest key item
  end.

Definition by_utf8 {A} (a b : ustring * A) : comparison := utf8 a.1 b.1.

Definition key_kind (v : Value) : option bool := match v with VStr _ => Some true | VInt _ => Some false | _ => None end.

Fixpoint canonicalValue (depth_left : nat) (value : Value) : stres N exn js := fun nodes =>
  let nodes' := (nodes + 1)%N in
  match depth_left with
  | O => throw XError "canonical value exceeds structure bound"
  | S d =>
      if (canonical_nodes <? nodes')%N then throw XError "canonical value exceeds structure bound"
      else match value with
           | VNull => Ok (tagged_js "null" [], nodes')
           | VInt val => Ok (tagged_js "integer" [JStr (dec_of_Z val)], nodes')
           | VBool val => Ok (tagged_js "boolean" [JBool val], nodes')
           | VStr val => Ok (tagged_js "string" [JStr val], nodes')
           | VUnserializable val => Ok (tagged_js "unserializable" [JStr val], nodes')
           | VVariant variantTag value => (v ← canonicalValue d value; mret (tagged_js "variant" [JStr variantTag; v])) nodes'
           | VRecord val =>
               (fields ← mapMi (fun _ e => v ← canonicalValue d e.2; mret (JArr [JStr e.1; v])) (sort_by by_utf8 val);
                mret (tagged_js "record" [JArr fields])) nodes'
           | VSeq val => (items ← mapMi (fun _ => canonicalValue d) val; mret (tagged_js "sequence" [JArr items])) nodes'
           | VTuple val => (items ← mapMi (fun _ => canonicalValue d) val; mret (tagged_js "tuple" [JArr items])) nodes'
           | VSet val =>
               (items ← mapMi (fun _ => canonicalValue d) val;
                mret (tagged_js "set" [JArr (map snd (sort_by by_utf8 (foldl (fun m item => keep_last m (text_of item) item) [] items)))])) nodes'
           | VMap val =>
               (entries ← (fix entries_of (l : list (Value * Value)) (kind : option bool) (m : list (ustring * js)) : stres N exn (list (ustring * js)) :=
                  match l with
                  | [] => mret m
                  | (k, v) :: l' =>
                      _ ← liftR (requireValue (bool_decide (is_Some (key_kind k))) "unsupported canonical map key");
                      _ ← liftR (requireValue (match kind with None => true | Some _ => bool_decide (kind = key_kind k) end) "mixed canonical map keys");
                      key ← canonicalValue d k;
                      _ ← liftR (requireValue (negb (bool_decide (text_of key ∈ map fst m))) "duplicate canonical map key");
                      item ← canonicalValue d v;
                      entries_of l' (key_kind k) (m ++ [(text_of key, JArr [key; item])])
                  end) val None [];
                mret (tagged_js "map" [JArr (map snd (sort_by by_utf8 entries))])) nodes'
           | VMessage _ => Ok (JUndef, nodes')
           end
  end.

Definition canonicalScheduleState (state : State) : res exn ustring :=
  fields ← fst <$> mapMi (fun _ e => v ← canonicalValue (S canonical_depth) e.2; mret (JArr [JStr e.1; v])) (sort_by by_utf8 state) 0%N;
  let text := text_of (tagged_js "mirrors.canonical-state/v1" [JArr fields]) in
  _ ← requireValue (byteLength text <=? MiB)%N "canonical state exceeds byte bound";
  mret text.

(** ** Declarations *)

Record ScheduleActorChain := MkChain { ch_actor : ScheduleActor; ch_checkpoints : list ustring }.

Record FiniteScheduleSpace := MkSpace {
  fs_identity : ScheduleIdentity;
  fs_actors : list ScheduleActorChain;
  fs_inputs : list js;
  fs_maxPreemptions : number;
  fs_requireModelComparison : bool;
  fs_baseVariables : list ustring;
  fs_instrumentationVariables : list ustring }.

Record ScheduleExplorationLimits := MkLimits { xl_maxEnumeratedSchedules : number; xl_maxRuns : number; xl_timeBudgetMs : number; xl_maxEvidenceBytes : number }.

Definition default_limits : ScheduleExplorationLimits := MkLimits (num_of_Z 4096) (num_of_Z 4096) (num_of_Z 30000) (num_of_Z (16 * 1048576)).

Definition chain_actor (a : ScheduleActorChain) : ustring := sa_actor (ch_actor a).
Definition by_actor (a b : ScheduleActorChain) : comparison := utf8 (chain_actor a) (chain_actor b).

(** [stable]: arrays and objects tagged, names sorted by their bytes. *)
Fixpoint stable_tag (v : js) : js :=
  match v with
  | JNull => tagged_js "null" []
  | JArr l => tagged_js "array" [JArr (map stable_tag l)]
  | JObj o => tagged_js "object" [JArr (map (fun e => JArr [JStr e.1; e.2]) (sort_by by_utf8 (map (fun e => (e.1, stable_tag e.2)) o)))]
  | JUndef => tagged_js "undefined" [JUndef]
  | JBool b => tagged_js "boolean" [v]
  | JNum _ => tagged_js "number" [v]
  | JBig _ => tagged_js "bigint" [v]
  | JStr _ => tagged_js "string" [v]
  end.

Section exploration.
Context (number_text : number -> ustring).

Definition stable (v : js) : res exn ustring := json_text number_text (stable_tag v).

Definition within (lo hi : Z) (n : number) : bool :=
  match num_safe_Z n with Some z => (lo <=? z)%Z && (z <=? hi)%Z | None => false end.

Fixpoint check_checkpoints (l : list ustring) : res exn unit :=
  match l with
  | [] => Ok tt
  | c :: l' =>
      _ ← requireValue (match l' with [] => bool_decide (c = SCHEDULE_COMPLETION) | _ => scheduleIdentifier c end) "invalid actor chain";
      check_checkpoints l'
  end.

Fixpoint check_chains (declarations operations : list ustring) (l : list ScheduleActorChain) : res exn unit :=
  match l with
  | [] => Ok tt
  | a :: l' =>
      let actor := chain_actor a in
      let operation := sa_operation (ch_actor a) in
      _ ← requireValue (scheduleIdentifier actor && scheduleIdentifier operation && negb (bool_decide (actor ∈ declarations)) &&
            negb (bool_decide (operation ∈ operations))) "duplicate/invalid exploration actor";
      _ ← requireValue (bool_decide (last (ch_checkpoints a) = Some SCHEDULE_COMPLETION)) "chain requires terminal completion";
      _ ← check_checkpoints (ch_checkpoints a);
      check_chains (actor :: declarations) (operation :: operations) l'
  end.

Definition chain_steps (a : ScheduleActorChain) : list ScheduleStep := map (MkStep (chain_actor a)) (ch_checkpoints a).

Definition candidate_text (identity : ScheduleIdentity) (input : js) (steps : list ScheduleStep) : res exn ustring :=
  json_text number_text (schedule_js (MkSchedule identity input steps)).

Definition candidate_of (identity : ScheduleIdentity) (input : js) (steps : list ScheduleStep) : res exn CheckpointSchedule :=
  text ← candidate_text identity input steps; parseCheckpointSchedule number_text text.

Fixpoint check_inputs (identity : ScheduleIdentity) (checkSteps : list ScheduleStep) (seen : list ustring) (l : list js) : res exn unit :=
  match l with
  | [] => Ok tt
  | input :: l' =>
      _ ← scheduleData number_text input default_data_bytes;
      _ ← candidate_of identity input checkSteps;
      key ← stable input;
      _ ← requireValue (negb (bool_decide (key ∈ seen))) "duplicate finite input";
      check_inputs identity checkSteps (key :: seen) l'
  end.

Fixpoint check_variables (message : string) (taken : list ustring) (l : list ustring) : res exn unit :=
  match l with
  | [] => Ok tt
  | v :: l' =>
      _ ← requireValue (scheduleIdentifier v && negb (bool_decide (v ∈ taken))) message;
      check_variables message (v :: taken) l'
  end.

(** The checks before the enumeration; the chains in the order they are enumerated in. *)
Definition check_space (space : FiniteScheduleSpace) (limits : ScheduleExplorationLimits) : res exn (list ScheduleActorChain) :=
  _ ← requireValue ((1 <=? length (fs_actors space))%nat && (length (fs_actors space) <=? 8)%nat && (1 <=? length (fs_inputs space))%nat &&
        (length (fs_inputs space) <=? 64)%nat) "finite actor/input bound exceeded";
  _ ← requireValue (within 1 4096 (xl_maxEnumeratedSchedules limits) && within 0 65536 (xl_maxRuns limits) && within 1 86400000 (xl_timeBudgetMs limits) &&
        within 1 (64 * 1048576) (xl_maxEvidenceBytes limits) && within 0 64 (fs_maxPreemptions space)) "invalid exploration limits";
  let actors := sort_by by_actor (fs_actors space) in
  _ ← check_chains [] [] actors;
  let checkSteps := concat (map chain_steps actors) in
  _ ← requireValue (length checkSteps <=? 64)%nat "exploration step bound exceeded";
  _ ← check_inputs (fs_identity space) checkSteps [] (fs_inputs space);
  _ ← requireValue ((1 <=? length (fs_baseVariables space))%nat && (length (fs_baseVariables space) <=? 1024)%nat &&
        (length (fs_instrumentationVariables space) <=? 1024)%nat) "bounded base variables required";
  _ ← check_variables "invalid base variable" [] (fs_baseVariables space);
  _ ← check_variables "invalid instrumentation projection" (fs_baseVariables space) (fs_instrumentationVariables space);
  mret actors.

(** ** Enumeration *)

Inductive stop_reason := stop_cancelled | stop_time_budget | stop_enumeration_limit | stop_run_limit | stop_coverage_limit
| stop_evidence_limit | stop_unconfirmed_cleanup | stop_complete | stop_non_pass_runs.

#[export] Instance stop_reason_eq_dec : EqDecision stop_reason.
Proof. solve_decision. Defined.

Record enumeration := MkEnumeration { en_shapes : list (list ScheduleStep); en_stop : option stop_reason; en_calls : nat }.

Section enumerate.
Context (actors : list ScheduleActorChain) (maxPreemptions maxEnumerated : nat) (stops : nat -> option stop_reason).

Definition total_steps : nat := length (concat (map chain_steps actors)).
Definition chain_length (i : nat) : nat := match actors !! i with Some a => length (ch_checkpoints a) | None => 0 end.

(** [extra]: whether going on with actor [i] preempts the one that ran before. *)
Definition extra (positions : list nat) (prior : option nat) (i : nat) : nat :=
  match prior with
  | None => 0
  | Some p => if negb (p =? i)%nat && (default 0%nat (positions !! p) <? chain_length p)%nat then 1 else 0
  end.

Definition step_at (i at_ : nat) : list ScheduleStep :=
  match actors !! i with
  | Some a => match ch_checkpoints a !! at_ with Some c => [MkStep (chain_actor a) c] | None => [] end
  | None => []
  end.

Fixpoint visit (fuel : nat) (positions : list nat) (current : list ScheduleStep) (prior : option nat) (preemptions : nat) (st : enumeration) : enumeration :=
  match en_stop st with
  | Some _ => st
  | None =>
      let st1 := MkEnumeration (en_shapes st) (stops (en_calls st)) (S (en_calls st)) in
      match en_stop st1 with
      | Some _ => st1
      | None =>
          if (length current =? total_steps)%nat then
            if (length (en_shapes st1) =? maxEnumerated)%nat then MkEnumeration (en_shapes st1) (Some stop_enumeration_limit) (en_calls st1)
            else MkEnumeration (en_shapes st1 ++ [current]) None (en_calls st1)
          else
            match fuel with
            | O => st1
            | S fuel' =>
                (fix each (l : list nat) (st : enumeration) : enumeration :=
                   match l with
                   | [] => st
                   | i :: l' =>
                       let at_ := default 0%nat (positions !! i) in
                       if (at_ =? chain_length i)%nat then each l' st
                       else
                         let more := (preemptions + extra positions prior i)%nat in
                         if (maxPreemptions <? more)%nat then each l' st
                         else
                           let st2 := visit fuel' (<[i := S at_]> positions) (current ++ step_at i at_) (Some i) more st in
                           match en_stop st2 with Some _ => st2 | None => each l' st2 end
                   end) (seq 0 (length actors)) st1
            end
      end
  end.

Definition enumerate : enumeration :=
  visit total_steps (replicate (length actors) 0%nat) [] None 0 (MkEnumeration [] None 0).
End enumerate.

(** ** The evidence of a run *)

Definition js_true (v : js) : bool := match v with JBool b => b | _ => false end.
Definition js_false (v : js) : bool := match v with JBool b => negb b | _ => false end.
Definition is_text (v : js) (s : ustring) : bool := match v with JStr t => bool_decide (t = s) | _ => false end.

Definition same_event (o : object_t) (ordinal i : nat) (actor kind : ustring) : bool :=
  num_is (getf o ($"ordinal")) (Z.of_nat ordinal) && num_is (getf o ($"step")) (Z.of_nat i) && is_text (getf o ($"actor")) actor &&
  is_text (getf o ($"kind")) kind.

Fixpoint check_events (i : nat) (steps : list ScheduleStep) (events : list js) : res exn unit :=
  match steps, events with
  | step :: steps', p :: a :: events' =>
      po ← evidence_object p;
      _ ← requireValue (same_event po (i * 2) i (ss_actor step) ($"permit")) "event identity/order differs";
      ao ← evidence_object a;
      _ ← requireValue (same_event ao (i * 2 + 1) i (ss_actor step) ($"arrival")) "event identity/order differs";
      _ ← requireValue (is_text (getf ao ($"checkpoint")) (ss_checkpoint step)) "arrival differs";
      check_events (S i) steps' events'
  | _, _ => Ok tt
  end.

Definition validateSuccess (e : object_t) (schedule : CheckpointSchedule) : res exn unit :=
  _ ← requireValue (js_true (getf e ($"scheduleCompleted")) && is_str (getf e ($"outcome")) "completed") "false completed schedule";
  events ← evidence_array (getf e ($"events"));
  _ ← requireValue (length events =? length (cs_steps schedule) * 2)%nat "wrong event denominator";
  _ ← check_events 0 (cs_steps schedule) events;
  observations ← evidence_array (getf e ($"observations"));
  requireValue (length observations =? length (cs_steps schedule) + 1)%nat "wrong observation denominator".

Inductive category_t := cat_passed | cat_cleanup_failed | cat_model_mismatch | cat_comparison_failed | cat_timed_out | cat_cancelled
| cat_schedule_failed | cat_execution_failed | cat_comparison_missing | cat_runner_or_evidence_failed.

#[export] Instance category_eq_dec : EqDecision category_t.
Proof. solve_decision. Defined.

Definition confirmed_cleanup (e : object_t) : res exn bool :=
  if is_str (getf e ($"cleanup")) "confirmed"
  then remaining ← evidence_array (getf e ($"remainingActors")); mret (length remaining =? 0)%nat
  else Ok false.

(** Whether the comparison is a mismatch, and whether it failed. *)
Definition compared (e : object_t) (comparison : option object_t) : res exn (bool * bool) :=
  match comparison with
  | None => Ok (false, false)
  | Some c =>
      bound ← (if is_str (getf c ($"schema")) "mirrors.scheduled-comparison/v1" then
                 binding ← evidence_object (getf c ($"binding"));
                 a ← stable (getf binding ($"executions")); b ← stable (JArr [JObj e]); Ok (bool_decide (a = b))
               else Ok false);
      _ ← requireValue bound "comparison not bound to exact execution";
      if is_str (getf c ($"comparison")) "step_mismatch" then
        valid ← (if is_str (getf c ($"peerTerminal")) "step_mismatch" && js_false (getf c ($"passed")) then
                   client ← evidence_object (getf c ($"client")); Ok (is_str (getf client ($"kind")) "step_mismatch")
                 else Ok false);
        _ ← requireValue valid "invalid mismatch evidence";
        mret (true, false)
      else mret (false, negb (is_str (getf c ($"comparison")) "matched") || negb (js_true (getf c ($"passed"))))
  end.

Definition category (e : object_t) (comparison : option object_t) : res exn category_t :=
  compared e comparison ≫= fun r : bool * bool =>
  confirmed_cleanup e ≫= fun cleaned : bool =>
  if negb cleaned then mret cat_cleanup_failed
  else if r.1 then mret cat_model_mismatch
  else if r.2 then mret cat_comparison_failed
  else if js_true (getf e ($"passed")) then mret cat_passed
  else if is_str (getf e ($"outcome")) "timed_out" then mret cat_timed_out
  else if is_str (getf e ($"outcome")) "cancelled" then mret cat_cancelled
  else
    text ← template_text number_text (getf e ($"outcome"));
    mret (if bool_decide (text ∈ [$"unexpected_checkpoint"; $"invalid_schedule"; $"incompatible_identity"]) then cat_schedule_failed else cat_execution_failed).

(** ** The state of the exploration *)

Record row := MkRow {
  rw_ordinal : nat;
  rw_inputIndex : nat;
  rw_schedule : CheckpointSchedule;
  rw_execution : option js;
  rw_comparison : option object_t;
  rw_error : option ustring;
  rw_category : category_t;
  rw_omitted : bool }.

(** [cv_states] are the canonical texts by their number. *)
Record coverage_t := MkCoverage { cv_bytes : N; cv_states : list ustring; cv_edges : list (nat * nat * nat) }.

Record exploration_state := MkState {
  xs_attempted : nat;
  xs_completed : nat;
  xs_evidenceBytes : N;
  xs_comparisonRuns : nat;
  xs_ids : list ustring;
  xs_coverage : coverage_t;
  xs_rows : list row;
  xs_firstCounterexample : option (nat * CheckpointSchedule);
  xs_firstFailure : option (nat * category_t * CheckpointSchedule);
  xs_stop : option stop_reason;
  xs_halt : bool }.

Definition fresh_state (stop : option stop_reason) : exploration_state := MkState 0 0 0 0 [] (MkCoverage 0 [] []) [] None None stop false.

Definition set_id (id : ustring) (s : exploration_state) : exploration_state :=
  MkState (xs_attempted s) (xs_completed s) (xs_evidenceBytes s) (xs_comparisonRuns s) (xs_ids s ++ [id]) (xs_coverage s) (xs_rows s)
    (xs_firstCounterexample s) (xs_firstFailure s) (xs_stop s) (xs_halt s).
Definition set_counterexample (c : CheckpointSchedule) (s : exploration_state) : exploration_state :=
  MkState (xs_attempted s) (xs_completed s) (xs_evidenceBytes s) (xs_comparisonRuns s) (xs_ids s) (xs_coverage s) (xs_rows s)
    (match xs_firstCounterexample s with None => Some (xs_attempted s - 1, c)%nat | old => old end) (xs_firstFailure s) (xs_stop s) (xs_halt s).
Definition count_comparison (s : exploration_state) : exploration_state :=
  MkState (xs_attempted s) (xs_completed s) (xs_evidenceBytes s) (S (xs_comparisonRuns s)) (xs_ids s) (xs_coverage s) (xs_rows s)
    (xs_firstCounterexample s) (xs_firstFailure s) (xs_stop s) (xs_halt s).
Definition count_completed (s : exploration_state) : exploration_state :=
  MkState (xs_attempted s) (S (xs_completed s)) (xs_evidenceBytes s) (xs_comparisonRuns s) (xs_ids s) (xs_coverage s) (xs_rows s)
    (xs_firstCounterexample s) (xs_firstFailure s) (xs_stop s) (xs_halt s).
Definition set_coverage (c : coverage_t) (s : exploration_state) : exploration_state :=
  MkState (xs_attempted s) (xs_completed s) (xs_evidenceBytes s) (xs_comparisonRuns s) (xs_ids s) c (xs_rows s)
    (xs_firstCounterexample s) (xs_firstFailure s) (xs_stop s) (xs_halt s).
Definition count_attempt (s : exploration_state) : exploration_state :=
  MkState (S (xs_attempted s)) (xs_completed s) (xs_evidenceBytes s) (xs_comparisonRuns s) (xs_ids s) (xs_coverage s) (xs_rows s)
    (xs_firstCounterexample s) (xs_firstFailure s) (xs_stop s) (xs_halt s).
Definition halt (r : stop_reason) (s : exploration_state) : exploration_state :=
  MkState (xs_attempted s) (xs_completed s) (xs_evidenceBytes s) (xs_comparisonRuns s) (xs_ids s) (xs_coverage s) (xs_rows s)
    (xs_firstCounterexample s) (xs_firstFailure s) (Some r) true.
Definition add_row (bytes : N) (r : row) (s : exploration_state) : exploration_state :=
  MkState (xs_attempted s) (xs_completed s) (xs_evidenceBytes s + bytes) (xs_comparisonRuns s) (xs_ids s) (xs_coverage s) (xs_rows s ++ [r])
    (xs_firstCounterexample s) (xs_firstFailure s) (xs_stop s) (xs_halt s).
Definition set_failure (c : category_t) (schedule : CheckpointSchedule) (s : exploration_state) : exploration_state :=
  MkState (xs_attempted s) (xs_completed s) (xs_evidenceBytes s) (xs_comparisonRuns s) (xs_ids s) (xs_coverage s) (xs_rows s)
    (xs_firstCounterexample s) (match xs_firstFailure s with None => Some (xs_attempted s - 1, c, schedule)%nat | old => old end) (xs_stop s) (xs_halt s).

(** What the row of the run in progress holds, and whether its workers are gone. *)
Record running := MkRunning { ru_execution : option js; ru_comparison : option object_t; ru_cleanupKnown : bool }.

(** ** Coverage *)

Definition checked {S A} (r : res exn A) : method S exn A := fun s => (r, s).

Definition coverage_limit : N := 8 * MiB.
Definition coverage_bound (bytes : N) (c : coverage_t) : res exn unit := requireValue (cv_bytes c + bytes <=? coverage_limit)%N "coverage byte bound exceeded".

Fixpoint index_of (key : ustring) (l : list ustring) : option nat :=
  match l with
  | [] => None
  | k :: l' => if bool_decide (k = key) then Some 0%nat else S <$> index_of key l'
  end.

Definition intern (key : ustring) : method coverage_t exn nat := fun c =>
  match index_of key (cv_states c) with
  | Some id => (Ok id, c)
  | None =>
      let bytes := (byteLength key + 128)%N in
      match coverage_bound bytes c with
      | Err x => (Err x, MkCoverage (cv_bytes c + bytes) (cv_states c) (cv_edges c))
      | Ok _ => (Ok (length (cv_states c)), MkCoverage (cv_bytes c + bytes) (cv_states c ++ [key]) (cv_edges c))
      end
  end.

Definition has_edge (from to : nat) (l : list (nat * nat * nat)) : bool := existsb (fun x => bool_decide (x.1 = (from, to))) l.

Definition count_edge (from to : nat) : method coverage_t exn unit := fun c =>
  if has_edge from to (cv_edges c)
  then (Ok tt, MkCoverage (cv_bytes c) (cv_states c) (map (fun x => if bool_decide (x.1 = (from, to)) then (x.1, S x.2) else x) (cv_edges c)))
  else
    match coverage_bound 128 c with
    | Err x => (Err x, MkCoverage (cv_bytes c + 128) (cv_states c) (cv_edges c))
    | Ok _ => (Ok tt, MkCoverage (cv_bytes c + 128) (cv_states c) (cv_edges c ++ [(from, to, 1%nat)]))
    end.

Section space.
Context (space : FiniteScheduleSpace).

(** The variables of a decoded state. Of a state that is not a record, only a sequence, a
    tuple or a set has keys that can be names: its places. *)
Definition state_of (c : cell) : res exn State :=
  let places l := imap (fun i v => (dec_of_N (N.of_nat i), v)) l in
  match c with
  | CState fields => Ok fields
  | COther (VSeq l) | COther (VTuple l) | COther (VSet l) => Ok (places l)
  | COther _ => throw XError "projection omits/adds variables"
  end.

Definition owns (state : State) (key : ustring) : bool := bool_decide (key ∈ map fst state).

Definition observation_key (index : nat) (item : js) : res exn ustring :=
  o ← evidence_object item;
  _ ← requireValue (num_is (getf o ($"afterSteps")) (Z.of_nat index)) "observation position differs";
  _ ← evidence_object (getf o ($"state"));
  text ← json_text number_text (JObj [($"proto_step", JStr ($"initial_state")); ($"action", JStr ($"init")); ($"state", getf o ($"state"))]);
  message ← decodeMirrorMessage number_text text;
  match message with
  | InitialState _ c =>
      state ← state_of c;
      _ ← requireValue (length state =? length (fs_baseVariables space) + length (fs_instrumentationVariables space))%nat "projection omits/adds variables";
      _ ← requireValue (forallb (owns state) (fs_instrumentationVariables space)) "instrumentation variable absent";
      let kept := List.filter (fun e => negb (bool_decide (e.1 ∈ fs_instrumentationVariables space))) state in
      _ ← requireValue (forallb (owns kept) (fs_baseVariables space)) "base variable absent";
      canonicalScheduleState kept
  | _ => throw XError "observation state decode failed"
  end.

Fixpoint cover (observations : list js) (index : nat) (prior : option nat) : method coverage_t exn unit :=
  match observations with
  | [] => mret tt
  | item :: rest =>
      key ← checked (observation_key index item);
      id ← intern key;
      _ ← match prior with Some p => count_edge p id | None => mret tt end;
      cover rest (S index) (Some id)
  end.

(** ** One run *)

(** What the runner returns. *)
Record ScheduleExplorationSample := MkSample { sm_execution : js; sm_comparison : option js }.

Fixpoint execution_actors (seen : list (ustring * ustring)) (l : list js) : res exn (list (ustring * ustring)) :=
  match l with
  | [] => Ok seen
  | item :: l' =>
      a ← evidence_object item;
      match getf a ($"actor"), getf a ($"operation") with
      | JStr actor, JStr operation =>
          _ ← requireValue ((length (keys a) =? 2)%nat && negb (bool_decide (actor ∈ map fst seen))) "invalid execution actor";
          execution_actors (seen ++ [(actor, operation)]) l'
      | _, _ => throw XError "invalid execution actor"
      end
  end.

Definition is_execution_id (v : js) : option ustring :=
  match v with JStr s => if (length s =? 32)%nat && forallb is_lower_hex s then Some s else None | _ => None end.

(** The exploration, and the run in progress. *)
Abbreviation exploring := (method (exploration_state * running) exn).

Definition on_state (f : exploration_state -> exploration_state) : exploring unit := modify (fun s => (f s.1, s.2)).

Definition covering (m : method coverage_t exn unit) : exploring unit := fun s =>
  let '(r, c) := m (xs_coverage s.1) in (r, (set_coverage c s.1, s.2)).

Definition check_execution (candidate : CheckpointSchedule) (actors : list ScheduleActorChain) (ids : list ustring) (e : object_t) : res exn ustring :=
  bound ← (if is_str (getf e ($"schema")) "mirrors.checkpoint-execution/v1" then
             a ← stable (getf e ($"schedule")); b ← stable (schedule_js candidate); Ok (bool_decide (a = b))
           else Ok false);
  _ ← requireValue bound "execution not bound to exact candidate";
  l ← evidence_array (getf e ($"actors"));
  actual ← execution_actors [] l;
  _ ← requireValue ((length actual =? length actors)%nat &&
        forallb (fun a => bool_decide ((chain_actor a, sa_operation (ch_actor a)) ∈ actual)) actors) "execution actor declarations differ";
  match is_execution_id (getf e ($"executionId")) with
  | Some id => _ ← requireValue (negb (bool_decide (id ∈ ids))) "stale/invalid execution id"; mret id
  | None => throw XError "stale/invalid execution id"
  end.

Definition evidence_bytes : N := 64 * MiB.

Definition run_body (candidate : CheckpointSchedule) (actors : list ScheduleActorChain) (returned : res ustring ScheduleExplorationSample)
    : exploring category_t :=
  match returned with
  | Err t => throws (Exn XError t)
  | Ok sample =>
      execution ← checked (scheduleData number_text (sm_execution sample) evidence_bytes);
      comparison ← checked (match sm_comparison sample with
        | None => Ok None
        | Some c => data ← scheduleData number_text c evidence_bytes; Some <$> evidence_object data
        end);
      e ← checked (evidence_object execution);
      _ ← modify (fun s => (s.1, MkRunning (Some execution) comparison (ru_cleanupKnown s.2)));
      ids ← this (fun s => xs_ids s.1);
      id ← checked (check_execution candidate actors ids e);
      _ ← on_state (set_id id);
      known ← checked (confirmed_cleanup e);
      _ ← modify (fun s => (s.1, MkRunning (ru_execution s.2) (ru_comparison s.2) known));
      disposition ← checked (category e comparison);
      let mismatch := match comparison with Some c => is_str (getf c ($"comparison")) "step_mismatch" | None => false end in
      _ ← when mismatch (on_state (set_counterexample candidate));
      let disposition := if fs_requireModelComparison space && negb (bool_decide (is_Some comparison)) then cat_comparison_missing else disposition in
      _ ← when (bool_decide (is_Some comparison)) (on_state count_comparison);
      _ ← (if bool_decide (disposition = cat_passed) then
             _ ← checked (validateSuccess e candidate);
             observations ← checked (evidence_array (getf e ($"observations")));
             _ ← covering (cover observations 0 None);
             on_state count_completed
           else when (bool_decide (disposition = cat_model_mismatch)) (on_state (set_counterexample candidate)));
      mret disposition
  end.

(** ** All runs *)

Definition category_name (c : category_t) : ustring :=
  match c with
  | cat_passed => $"passed" | cat_cleanup_failed => $"cleanup_failed" | cat_model_mismatch => $"model_mismatch"
  | cat_comparison_failed => $"comparison_failed" | cat_timed_out => $"timed_out" | cat_cancelled => $"cancelled"
  | cat_schedule_failed => $"schedule_failed" | cat_execution_failed => $"execution_failed"
  | cat_comparison_missing => $"comparison_missing" | cat_runner_or_evidence_failed => $"runner_or_evidence_failed"
  end.

Definition row_js (r : row) : js :=
  let nat_js n := JNum (num_of_Z (Z.of_nat n)) in
  let given {A} (name : string) (f : A -> js) (v : option A) := match v with Some x => [($name, f x)] | None => [] end in
  if rw_omitted r
  then JObj [($"ordinal", nat_js (rw_ordinal r)); ($"category", JStr (category_name (rw_category r))); ($"evidenceOmitted", JStr ($"byte_budget"))]
  else JObj ([($"ordinal", nat_js (rw_ordinal r)); ($"inputIndex", nat_js (rw_inputIndex r)); ($"schedule", schedule_js (rw_schedule r))] ++
             given "execution"%string (fun v => v) (rw_execution r) ++ given "comparison"%string JObj (rw_comparison r) ++
             given "error"%string JStr (rw_error r) ++ [($"category", JStr (category_name (rw_category r)))]).

(** The signal and the clock before the run, what the runner returns or throws, and the
    clock after it. *)
Record run_env := MkRunEnv { re_aborted : bool; re_late : bool; re_late_again : bool; re_returned : res ustring ScheduleExplorationSample; re_late_after : bool }.

Definition bound_of (n : number) : nat := match num_safe_Z n with Some z => Z.to_nat z | None => 0 end.

Context (limits : ScheduleExplorationLimits) (actors : list ScheduleActorChain) (env : nat -> run_env).

Definition is_coverage_bound (x : exn) : bool := bool_decide (exn_message x = $"coverage byte bound exceeded").

(** The state after the body of a run and its handler of errors, and the row. *)
Definition settle_run (candidate : CheckpointSchedule) (inputIndex : nat) (s : exploration_state)
    (r : res exn category_t * (exploration_state * running)) : exploration_state * row :=
  let '(outcome, (s2, ru)) := r in
  let disposition := match outcome with Ok c => c | Err _ => cat_runner_or_evidence_failed end in
  let error := match outcome with Ok _ => None | Err x => Some (take 1024 (exn_message x)) end in
  let s3 := match outcome with Err x => if is_coverage_bound x then halt stop_coverage_limit s2 else s2 | Ok _ => s2 end in
  (if bool_decide (disposition = cat_passed) then s3 else set_failure disposition candidate s3,
   MkRow (xs_attempted s) inputIndex candidate (ru_execution ru) (ru_comparison ru) error disposition false).

Definition omit (r : row) : row :=
  MkRow (rw_ordinal r) (rw_inputIndex r) (rw_schedule r) None None None (rw_category r) true.

Fixpoint run_all (candidates : list (list ScheduleStep * nat * js)) (s : exploration_state) : res exn exploration_state :=
  match candidates with
  | [] => Ok s
  | (steps, inputIndex, input) :: rest =>
      let v := env (xs_attempted s) in
      if re_aborted v || re_late v || (bound_of (xl_maxRuns limits) <=? xs_attempted s)%nat
      then Ok (halt (if re_aborted v then stop_cancelled else if re_late v || re_late_again v then stop_time_budget else stop_run_limit) s)
      else
        candidate ← candidate_of (fs_identity space) input steps;
        let body := run_body candidate actors (re_returned v) (count_attempt s, MkRunning None None false) in
        let '(s4, row) := settle_run candidate inputIndex s body in
        let bytes := text_bytes number_text (row_js row) in
        if (Z.to_N (default 0%Z (num_safe_Z (xl_maxEvidenceBytes limits))) <? xs_evidenceBytes s4 + bytes)%N
        then Ok (halt stop_evidence_limit (add_row 0 (omit row) s4))
        else
          let s5 := add_row bytes row s4 in
          if xs_halt s5 then Ok s5
          else if negb (ru_cleanupKnown body.2.2) then Ok (halt stop_unconfirmed_cleanup s5)
          else if re_late_after v then Ok (halt stop_time_budget s5)
          else run_all rest s5
  end.

Definition candidates_of (shapes : list (list ScheduleStep)) : list (list ScheduleStep * nat * js) :=
  flat_map (fun steps => imap (fun i input => (steps, i, input)) (fs_inputs space)) shapes.

Record exploration_result := MkResult {
  er_enumeration : enumeration;
  er_eligible : nat;
  er_state : exploration_state;
  er_transitions : list (nat * nat * nat);
  er_enumerationExhausted : bool;
  er_complete : bool;
  er_stopReason : stop_reason }.

Definition by_edge (a b : nat * nat * nat) : comparison :=
  match Nat.compare a.1.1 b.1.1 with Eq => Nat.compare a.1.2 b.1.2 | c => c end.

Definition finish_exploration (en : enumeration) (s : exploration_state) : exploration_result :=
  let eligible := (length (en_shapes en) * length (fs_inputs space))%nat in
  let exhausted := bool_decide (en_stop en = None) && (xs_attempted s =? eligible)%nat in
  let complete := exhausted && (xs_completed s =? eligible)%nat && negb (xs_halt s) in
  MkResult en eligible s (sort_by by_edge (cv_edges (xs_coverage s))) exhausted complete
    (default (if complete then stop_complete else stop_non_pass_runs) (xs_stop s)).
End space.

(** An error stands for the status [invalid_declaration]. *)
Definition exploreFiniteSchedules (space : FiniteScheduleSpace) (limits : ScheduleExplorationLimits) (stops : nat -> option stop_reason)
    (env : nat -> run_env) : res exn exploration_result :=
  actors ← check_space space limits;
  let en := enumerate actors (bound_of (fs_maxPreemptions space)) (bound_of (xl_maxEnumeratedSchedules limits)) stops in
  s ← run_all space limits actors env (candidates_of space (en_shapes en)) (fresh_state (en_stop en));
  mret (finish_exploration space en s).
End exploration.
