(* ===== verification/ExplorationFacts.v ===== *)
(** * The enumeration is exact

    [visit] of [Exploration] against a specification that does not know about it: the
    interleavings of the chains, and the preemptions of a sequence. *)

From S2P Require Import Prelude JsNumber Utf16 JsData StrictJson Decode JsText Requests Protocol OpaqueItf ScheduleData Schedule Exploration.

(** ** Specification *)

(** The places where another actor goes on although the one before has steps left. *)
Fixpoint preemptions {A} `{EqDecision A} (l : list A) : nat :=
  match l with
  | p :: ((i :: l'') as l') => (if negb (bool_decide (p = i)) && bool_decide (p ∈ l'') then 1 else 0) + preemptions l'
  | _ => 0
  end.

(** The steps of a sequence that belong to an actor. *)
Definition steps_of (a : ScheduleActorChain) (l : list ScheduleStep) : list ScheduleStep :=
  List.filter (fun s => bool_decide (ss_actor s = chain_actor a)) l.

(** An interleaving of the chains. *)
Definition interleaving (actors : list ScheduleActorChain) (l : list ScheduleStep) : Prop :=
  Forall (fun s => ss_actor s ∈ map chain_actor actors) l /\ Forall (fun a => steps_of a l = chain_steps a) actors.

Section facts.
Context (actors : list ScheduleActorChain) (maxPreemptions maxEnumerated : nat) (stops : nat -> option stop_reason).

Abbreviation count := (length actors).
Abbreviation len := (chain_length actors).
Abbreviation extra := (extra actors).

(** ** Words of actor numbers *)

Definition occurrences (i : nat) (w : list nat) : nat := length (List.filter (fun j => bool_decide (j = i)) w).

Definition fits_from (positions : list nat) (w : list nat) : Prop :=
  length positions = count /\ Forall (fun i => i < count)%nat w /\
  forall i, (i < count)%nat -> (default 0 (positions !! i) + occurrences i w = len i)%nat.

(** The words [visit] goes through. *)
Fixpoint words (fuel : nat) (positions : list nat) (prior : option nat) (pre : nat) : list (list nat) :=
  if (sum_list positions =? total_steps actors)%nat then [[]]
  else
    match fuel with
    | O => []
    | S fuel' =>
        flat_map (fun i =>
          let at_ := default 0%nat (positions !! i) in
          if (at_ =? len i)%nat then []
          else if (maxPreemptions <? pre + extra positions prior i)%nat then []
          else map (cons i) (words fuel' (<[i := S at_]> positions) (Some i) (pre + extra positions prior i))) (seq 0 count)
    end.

Fixpoint render (positions : list nat) (w : list nat) : list ScheduleStep :=
  match w with
  | [] => []
  | i :: w' => let at_ := default 0%nat (positions !! i) in step_at actors i at_ ++ render (<[i := S at_]> positions) w'
  end.

Definition bounded (positions : list nat) : Prop := length positions = count /\ forall i, (i < count)%nat -> (default 0 (positions !! i) <= len i)%nat.

Lemma bounded_insert positions i : bounded positions -> (i < count)%nat -> default 0%nat (positions !! i) <> len i ->
  bounded (<[i := S (default 0%nat (positions !! i))]> positions).
Proof.
  intros [Hl Hb] Hi Hne. split; [by rewrite length_insert|]. intros j Hj. destruct (decide (i = j)) as [<-|Hij].
  - rewrite list_lookup_insert_eq by lia. cbn. specialize (Hb i Hi). lia.
  - rewrite list_lookup_insert_ne by done. by apply Hb.
Qed.

Lemma sum_insert positions i : (i < length positions)%nat ->
  sum_list (<[i := S (default 0%nat (positions !! i))]> positions) = S (sum_list positions).
Proof.
  revert i. induction positions as [|p l IH]; intros [|i] Hi; cbn in *; try lia.
  change (list_insert i (S (default 0%nat (l !! i))) l) with (<[i := S (default 0%nat (l !! i))]> l). rewrite IH by lia. lia.
Qed.

Lemma step_at_one i at_ : (i < count)%nat -> (at_ < len i)%nat -> length (step_at actors i at_) = 1%nat.
Proof.
  intros Hi Ha. unfold step_at, chain_length in *. destruct (actors !! i) as [a|] eqn:E; [|apply lookup_ge_None in E; lia].
  destruct (ch_checkpoints a !! at_) eqn:Ec; [done|]. apply lookup_ge_None in Ec. lia.
Qed.

(** ** What [visit] does *)

(** The shapes grow by a beginning of [W], and by all of it unless the enumeration stops. *)
Definition grows (st st' : enumeration) (W : list (list ScheduleStep)) : Prop :=
  (exists n, en_shapes st' = en_shapes st ++ take n W) /\
  (en_stop st' = None -> en_shapes st' = en_shapes st ++ W) /\
  ((length (en_shapes st) <= maxEnumerated)%nat -> (length (en_shapes st') <= maxEnumerated)%nat).

Lemma grows_nil st st' : en_shapes st' = en_shapes st -> grows st st' [].
Proof. intros E. split_and!; rewrite E; [by exists 0%nat; rewrite app_nil_r|by rewrite app_nil_r|done]. Qed.

Lemma grows_stopped st st' W : en_shapes st' = en_shapes st -> en_stop st' <> None -> grows st st' W.
Proof. intros E Hs. split_and!; rewrite ?E; [exists 0%nat; by rewrite take_0, app_nil_r|done|done]. Qed.

Lemma grows_app st st1 st' W1 W2 : grows st st1 W1 ->
  (match en_stop st1 with Some _ => st' = st1 | None => grows st1 st' W2 end) -> grows st st' (W1 ++ W2).
Proof.
  intros ([n1 E1] & F1 & B1) H. destruct (en_stop st1) eqn:Es.
  - subst st'. split_and!; [|by rewrite Es|done]. exists (Nat.min n1 (length W1)). by rewrite E1, take_app_le, <-firstn_firstn, firstn_all by lia.
  - destruct H as ([n2 E2] & F2 & B2). specialize (F1 eq_refl). split_and!; [|intros Hs; by rewrite F2, F1, <-app_assoc|auto].
    exists (length W1 + n2)%nat. rewrite E2, F1, <-app_assoc. f_equal. by rewrite take_app_add.
Qed.

Lemma visit_grows fuel : forall positions current prior pre st, bounded positions -> length current = sum_list positions ->
  (total_steps actors <= fuel + sum_list positions)%nat -> en_stop st = None ->
  grows st (visit actors maxPreemptions maxEnumerated stops fuel positions current prior pre st)
    (map (fun w => current ++ render positions w) (words fuel positions prior pre)).
Proof.
  induction fuel as [|fuel IH]; intros positions current prior pre st Hb Hl Hf Hs; cbn [visit words]; rewrite Hs, Hl.
  all: destruct (stops (en_calls st)) eqn:Estop; cbn [en_stop en_shapes]; [by apply grows_stopped|].
  all: destruct (sum_list positions =? total_steps actors)%nat eqn:Et.
  1,3: destruct (Nat.eqb_spec (length (en_shapes st)) maxEnumerated) as [En|En]; [by apply grows_stopped|];
    cbn [map render]; rewrite app_nil_r; split_and!; cbn; [by exists 1%nat|done|intros; rewrite length_app; cbn; lia].
  { apply Nat.eqb_neq in Et. apply grows_nil. done. }
  set (st1 := MkEnumeration _ _ _). assert (grows st st1 []) as H1 by by apply grows_nil.
  assert (en_stop st1 = None) as Hs1 by done. clearbody st1. clear Hs Estop.
  rewrite <-(app_nil_l (map _ _)). eapply grows_app; [exact H1|]. rewrite Hs1. clear H1 st.
  assert (Forall (fun i => i < count)%nat (seq 0 count)) as Hseq by (apply Forall_seq; lia).
  revert st1 Hs1. induction (seq 0 count) as [|i l IHl]; intros st Hs; [by apply grows_nil|].
  apply Forall_cons in Hseq as [Hi Hseq]. specialize (IHl Hseq). cbn [flat_map].
  destruct (Nat.eqb_spec (default 0%nat (positions !! i)) (len i)) as [Ei|Ei]; [by apply IHl|].
  destruct (maxPreemptions <? _)%nat; [by apply IHl|]. rewrite map_app.
  eapply grows_app.
  - pose proof (proj2 Hb i Hi) as Hle. pose proof (step_at_one i (default 0%nat (positions !! i)) Hi ltac:(lia)) as Hone.
    rewrite map_map. specialize (IH (<[i := S (default 0%nat (positions !! i))]> positions) (current ++ step_at actors i (default 0%nat (positions !! i))) (Some i)
      (pre + extra positions prior i)%nat st). rewrite sum_insert in IH by (destruct Hb; lia).
    erewrite map_ext; [apply IH|]; [by apply bounded_insert|rewrite length_app; lia|lia|done|]. intros w. cbn [render]. by rewrite <-app_assoc.
  - destruct (en_stop (visit _ _ _ _ _ _ _ _ _ st)) eqn:E; [done|]. by apply IHl.
Qed.

(** ** Which words there are *)

Definition after_prior (prior : option nat) (w : list nat) : nat :=
  match prior with None => preemptions w | Some p => preemptions (p :: w) end.

Lemma occurrences_cons i j w : occurrences i (j :: w) = ((if bool_decide (j = i) then 1 else 0) + occurrences i w)%nat.
Proof. unfold occurrences. cbn. by case_bool_decide. Qed.

Lemma occurrences_pos i w : (0 < occurrences i w)%nat <-> i ∈ w.
Proof.
  induction w as [|j w IH]; [split; [by cbn; lia|by intros ?%elem_of_nil]|]. rewrite occurrences_cons, elem_of_cons, <-IH.
  case_bool_decide as E; split; [intros _; left; congruence|lia|intros; right; lia|intros [H|H]; [congruence|lia]].
Qed.

Lemma fits_cons positions i w : (i < count)%nat -> fits_from positions (i :: w) ->
  default 0%nat (positions !! i) <> len i /\ fits_from (<[i := S (default 0%nat (positions !! i))]> positions) w.
Proof.
  intros Hi (Hl & Hw & Hf). apply Forall_cons in Hw as [_ Hw]. split.
  - specialize (Hf i Hi). rewrite occurrences_cons, bool_decide_eq_true_2 in Hf by done. lia.
  - split; [by rewrite length_insert|]. split; [done|]. intros j Hj. specialize (Hf j Hj). rewrite occurrences_cons in Hf.
    destruct (decide (i = j)) as [<-|Hij]; [rewrite list_lookup_insert_eq by lia; rewrite bool_decide_eq_true_2 in Hf by done; cbn; lia|].
    rewrite list_lookup_insert_ne by done. rewrite bool_decide_eq_false_2 in Hf by done. lia.
Qed.

Lemma fits_cons_inv positions i w : (i < count)%nat -> length positions = count ->
  fits_from (<[i := S (default 0%nat (positions !! i))]> positions) w -> fits_from positions (i :: w).
Proof.
  intros Hi Hl (_ & Hw & Hf). split; [done|]. split; [by constructor|]. intros j Hj. specialize (Hf j Hj). rewrite occurrences_cons.
  destruct (decide (i = j)) as [<-|Hij]; [rewrite list_lookup_insert_eq in Hf by lia; rewrite bool_decide_eq_true_2 by done; cbn in Hf; lia|].
  rewrite list_lookup_insert_ne in Hf by done. rewrite bool_decide_eq_false_2 by done. lia.
Qed.

(** The test of [visit] counts the preemptions of the whole word. *)
Lemma extra_spec positions prior i w : (forall p, prior = Some p -> (p < count)%nat) -> fits_from positions (i :: w) ->
  (extra positions prior i + after_prior (Some i) w)%nat = after_prior prior (i :: w).
Proof.
  intros Hp (_ & _ & Hf). destruct prior as [p|]; [|done]. specialize (Hp p eq_refl). specialize (Hf p Hp). cbn [after_prior extra].
  change (preemptions (p :: i :: w)) with ((if negb (bool_decide (p = i)) && bool_decide (p ∈ w) then 1 else 0) + preemptions (i :: w))%nat. f_equal.
  unfold Exploration.extra. rewrite occurrences_cons in Hf. destruct (Nat.eqb_spec p i) as [->|Hne]; [by rewrite bool_decide_eq_true_2|].
  rewrite (bool_decide_eq_false_2 (p = i)) by done. rewrite (bool_decide_eq_false_2 (i = p)) in Hf by done. cbn [negb andb].
  pose proof (occurrences_pos p w). destruct (Nat.ltb_spec (default 0%nat (positions !! p)) (len p)) as [Hlt|Hge].
  - rewrite bool_decide_eq_true_2; [done|]. apply H. lia.
  - rewrite bool_decide_eq_false_2; [done|]. rewrite <-H. lia.
Qed.

Lemma sum_total positions : length positions = count -> (forall i, (i < count)%nat -> default 0%nat (positions !! i) = len i) ->
  sum_list positions = total_steps actors.
Proof.
  unfold total_steps, chain_length. clear. revert positions. induction actors as [|a l IH]; intros [|p ps] Hl H; try done.
  cbn [map concat sum_list length]. rewrite length_app. unfold chain_steps at 1. rewrite length_map.
  pose proof (H 0%nat ltac:(cbn; lia)) as H0. cbn in H0. subst p. rewrite (IH ps); [done|by injection Hl|].
  intros i Hi. by apply (H (S i) ltac:(cbn; lia)).
Qed.

Lemma sum_bounded positions : bounded positions -> (sum_list positions <= total_steps actors)%nat.
Proof.
  intros [Hl Hb]. revert Hl Hb. unfold total_steps, chain_length. clear.
  revert positions. induction actors as [|a l IH]; intros [|p ps] Hl Hb; try done. cbn [map concat sum_list].
  rewrite length_app. unfold chain_steps at 1. rewrite length_map. pose proof (Hb 0%nat ltac:(cbn; lia)) as H0. cbn in H0. change (id p) with p.
  cut (sum_list ps <= length (concat (map chain_steps l)))%nat; [cbn; lia|].
  apply IH; [by injection Hl|]. intros j Hj. apply (Hb (S j)). cbn. lia.
Qed.

Lemma sum_full positions : bounded positions -> (sum_list positions = total_steps actors)%nat <-> (forall i, (i < count)%nat -> default 0%nat (positions !! i) = len i).
Proof.
  intros Hb. split; [|by apply sum_total; apply Hb]. intros Hs i Hi. destruct (decide (default 0%nat (positions !! i) = len i)) as [|Hne]; [done|].
  pose proof (sum_bounded _ (bounded_insert _ _ Hb Hi Hne)) as Hle. rewrite sum_insert in Hle by (destruct Hb; lia). lia.
Qed.

Lemma words_spec fuel : forall positions prior pre w, bounded positions -> (forall p, prior = Some p -> (p < count)%nat) ->
  (total_steps actors <= fuel + sum_list positions)%nat -> (pre <= maxPreemptions)%nat ->
  w ∈ words fuel positions prior pre <-> fits_from positions w /\ (pre + after_prior prior w <= maxPreemptions)%nat.
Proof.
  induction fuel as [|fuel IH]; intros positions prior pre w Hb Hp Hf Hm; cbn [words].
  all: destruct (Nat.eqb_spec (sum_list positions) (total_steps actors)) as [Et|Et].
  1,3: rewrite list_elem_of_singleton; split; [intros ->; split; [|destruct prior; cbn; lia]; split; [apply Hb|]; split; [constructor|];
      intros i Hi; rewrite (proj1 (sum_full _ Hb) Et i Hi); cbn; lia|];
    intros [(_ & Hw & Hocc) _]; destruct w as [|i w]; [done|]; apply Forall_cons in Hw as [Hi _]; specialize (Hocc i Hi);
    rewrite (proj1 (sum_full _ Hb) Et i Hi), occurrences_cons, bool_decide_eq_true_2 in Hocc by done; lia.
  { pose proof (sum_bounded _ Hb). lia. }
  rewrite list_elem_of_In, in_flat_map. split.
  - intros (i & Hi & Hw). apply in_seq in Hi. destruct (Nat.eqb_spec (default 0%nat (positions !! i)) (len i)) as [|Hne]; [done|].
    destruct (Nat.ltb_spec maxPreemptions (pre + extra positions prior i)) as [|Hle]; [done|].
    apply in_map_iff in Hw as (w' & <- & Hw'). apply list_elem_of_In in Hw'.
    apply IH in Hw' as [H1 H2]; [|by apply bounded_insert; [done|lia|]|intros p [= <-]; lia|rewrite sum_insert by (destruct Hb; lia); lia|done].
    apply fits_cons_inv in H1; [|lia|by apply Hb]. split; [done|]. rewrite <-(extra_spec positions prior i w') by done. lia.
  - intros [H1 H2]. destruct w as [|i w].
    { exfalso. apply Et, sum_full; [done|]. intros i Hi. destruct H1 as (_ & _ & H1). specialize (H1 i Hi). cbn in H1. lia. }
    assert (i < count)%nat as Hi by (destruct H1 as (_ & H1 & _); by apply Forall_cons in H1 as [H1 _]).
    rewrite <-(extra_spec positions prior i w) in H2 by done. destruct (fits_cons _ _ _ Hi H1) as [Hne H1'].
    exists i. split; [apply in_seq; lia|]. destruct (Nat.eqb_spec (default 0%nat (positions !! i)) (len i)); [done|].
    destruct (Nat.ltb_spec maxPreemptions (pre + extra positions prior i)); [lia|].
    apply in_map, list_elem_of_In, IH; [by apply bounded_insert|intros p [= <-]; lia|rewrite sum_insert by (destruct Hb; lia); lia|done|].
    split; [done|]. lia.
Qed.

Lemma flat_map_heads (f : nat -> list (list nat)) l : (forall i w, w ∈ f i -> head w = Some i) -> (forall i, NoDup (f i)) ->
  NoDup l -> NoDup (flat_map f l).
Proof.
  intros Hh Hf Hl. induction Hl as [|i l Hi _ IH]; cbn; [constructor|]. apply NoDup_app. split; [done|]. split; [|done].
  intros w Hw Hw'. apply list_elem_of_In, in_flat_map in Hw' as (j & Hj & Hw'). apply list_elem_of_In in Hj, Hw'.
  apply Hh in Hw, Hw'. assert (i = j) as <- by congruence. done.
Qed.

Lemma words_NoDup fuel : forall positions prior pre, NoDup (words fuel positions prior pre).
Proof.
  induction fuel as [|fuel IH]; intros positions prior pre; cbn [words]; (destruct (_ =? _)%nat; [apply NoDup_singleton|]); [constructor|].
  apply flat_map_heads; [| |apply NoDup_ListNoDup, seq_NoDup].
  - intros i w. destruct (_ =? _)%nat; [by intros ?%elem_of_nil|]. destruct (_ <? _)%nat; [by intros ?%elem_of_nil|].
    by intros (w' & -> & _)%list_elem_of_fmap.
  - intros i. destruct (_ =? _)%nat; [constructor|]. destruct (_ <? _)%nat; [constructor|]. apply NoDup_fmap_2; [|apply IH].
    by intros w w' [= ->].
Qed.

(** ** Words and interleavings *)

Hypothesis names : NoDup (map chain_actor actors).

Definition name (i : nat) : ustring := default [] (chain_actor <$> actors !! i).

Lemma name_inj i j : (i < count)%nat -> (j < count)%nat -> name i = name j -> i = j.
Proof.
  intros Hi Hj. unfold name. destruct (lookup_lt_is_Some_2 _ _ Hi) as [a Ha]. destruct (lookup_lt_is_Some_2 _ _ Hj) as [b Hb].
  rewrite Ha, Hb. cbn. intros E. eapply NoDup_lookup; [exact names| |]; rewrite list_lookup_fmap; [by rewrite Ha|by rewrite Hb, E].
Qed.

Lemma step_at_chain i a at_ : actors !! i = Some a -> (at_ < len i)%nat ->
  exists c, ch_checkpoints a !! at_ = Some c /\ step_at actors i at_ = [MkStep (chain_actor a) c] /\ name i = chain_actor a.
Proof.
  intros Ha Hlt. unfold chain_length in Hlt. rewrite Ha in Hlt. destruct (lookup_lt_is_Some_2 _ _ Hlt) as [c Hc].
  exists c. unfold step_at, name. by rewrite Ha, Hc.
Qed.

Lemma fits_bounded positions w : fits_from positions w -> bounded positions.
Proof. intros (Hl & _ & Hf). split; [done|]. intros i Hi. specialize (Hf i Hi). lia. Qed.

Lemma fits_head positions i w : fits_from positions (i :: w) -> (i < count)%nat /\ (default 0 (positions !! i) < len i)%nat /\
  fits_from (<[i := S (default 0%nat (positions !! i))]> positions) w.
Proof.
  intros H. assert (i < count)%nat as Hi by (destruct H as (_ & H & _); by apply Forall_cons in H as [H _]).
  destruct (fits_cons _ _ _ Hi H) as [Hne H']. pose proof (proj2 (fits_bounded _ _ H) i Hi). split_and!; [done|lia|done].
Qed.

Lemma render_actors w : forall positions, fits_from positions w -> map ss_actor (render positions w) = map name w.
Proof.
  induction w as [|i w IH]; intros positions Hf; [done|]. destruct (fits_head _ _ _ Hf) as (Hi & Hlt & Hf').
  destruct (lookup_lt_is_Some_2 _ _ Hi) as [a Ha]. destruct (step_at_chain i a _ Ha Hlt) as (c & _ & E & Hn).
  cbn [render map]. rewrite E. cbn. by rewrite IH, Hn.
Qed.

Lemma drop_chain a n c : ch_checkpoints a !! n = Some c -> drop n (chain_steps a) = MkStep (chain_actor a) c :: drop (S n) (chain_steps a).
Proof. intros H. apply drop_S. unfold chain_steps. by rewrite list_lookup_fmap, H. Qed.

Lemma render_steps w : forall positions i a, fits_from positions w -> actors !! i = Some a ->
  steps_of a (render positions w) = drop (default 0%nat (positions !! i)) (chain_steps a).
Proof.
  induction w as [|j w IH]; intros positions i a Hf Ha.
  - destruct Hf as (_ & _ & Hf). assert (i < count)%nat as Hi by by eapply lookup_lt_Some. specialize (Hf i Hi). cbn.
    rewrite drop_ge; [done|]. unfold chain_steps, chain_length in *. rewrite length_map. rewrite Ha in Hf. cbn in Hf. lia.
  - destruct (fits_head _ _ _ Hf) as (Hj & Hlt & Hf'). destruct (lookup_lt_is_Some_2 _ _ Hj) as [b Hb].
    destruct (step_at_chain j b _ Hb Hlt) as (c & Hc & E & Hn). cbn [render]. rewrite E. cbn.
    pose proof (IH _ i a Hf' Ha) as H. destruct (decide (j = i)) as [->|Hne].
    + rewrite Ha in Hb. injection Hb as <-. rewrite bool_decide_eq_true_2 by done. rewrite (drop_chain _ _ _ Hc). f_equal.
      rewrite list_lookup_insert_eq in H by (destruct Hf; lia). exact H.
    + rewrite bool_decide_eq_false_2; [by rewrite list_lookup_insert_ne in H|]. intros En. apply Hne, name_inj; [done|by eapply lookup_lt_Some|].
      rewrite Hn, En. unfold name. by rewrite Ha.
Qed.

Lemma interleaving_word l : forall positions, bounded positions -> Forall (fun s => ss_actor s ∈ map chain_actor actors) l ->
  (forall i a, actors !! i = Some a -> steps_of a l = drop (default 0%nat (positions !! i)) (chain_steps a)) ->
  exists w, fits_from positions w /\ render positions w = l.
Proof.
  induction l as [|s l IH]; intros positions Hb Hl Hs.
  - exists []. split; [|done]. split; [apply Hb|]. split; [constructor|]. intros i Hi. destruct (lookup_lt_is_Some_2 _ _ Hi) as [a Ha].
    specialize (Hs i a Ha). pose proof (proj2 Hb i Hi) as Hle. cbn in Hs. symmetry in Hs. apply (f_equal length) in Hs.
    rewrite length_drop in Hs. unfold chain_steps, chain_length, occurrences in *. rewrite Ha in *. rewrite length_map in Hs. cbn in *. lia.
  - apply Forall_cons in Hl as [Hin Hl]. apply list_elem_of_fmap in Hin as (a & En & Hin). apply list_elem_of_lookup_1 in Hin as [i Ha].
    assert (i < count)%nat as Hi by by eapply lookup_lt_Some. pose proof (Hs i a Ha) as Hsi. cbn in Hsi. rewrite bool_decide_eq_true_2 in Hsi by done.
    assert (default 0 (positions !! i) < len i)%nat as Hlt.
    { destruct (Nat.lt_ge_cases (default 0%nat (positions !! i)) (len i)) as [|Hge]; [done|]. rewrite drop_ge in Hsi; [done|].
      unfold chain_steps, chain_length in *. rewrite Ha in Hge. by rewrite length_map. }
    destruct (step_at_chain i a _ Ha Hlt) as (c & Hc & E & Hn). rewrite (drop_chain _ _ _ Hc) in Hsi. injection Hsi as -> Hsi.
    destruct (IH (<[i := S (default 0%nat (positions !! i))]> positions)) as (w & Hw & Hr); [by apply bounded_insert; [..|lia]|done| |].
    + intros j b Hbj. destruct (decide (i = j)) as [<-|Hne]; [rewrite list_lookup_insert_eq by (destruct Hb; lia); rewrite Ha in Hbj; by injection Hbj as <-|].
      rewrite list_lookup_insert_ne by done. rewrite <-(Hs j b Hbj). cbn. rewrite bool_decide_eq_false_2; [done|]. intros E'. apply Hne, name_inj; [done|by eapply lookup_lt_Some|].
      rewrite Hn, E'. unfold name. by rewrite Hbj.
    + exists (i :: w). split; [apply fits_cons_inv; [done|apply Hb|done]|]. cbn [render]. by rewrite E, Hr.
Qed.

Lemma preemptions_map {A B} `{EqDecision A} `{EqDecision B} (f : A -> B) (l : list A) :
  (forall x y, x ∈ l -> y ∈ l -> f x = f y -> x = y) -> preemptions (map f l) = preemptions l.
Proof.
  induction l as [|x [|y l] IH]; intros Hinj; [done|done|]. cbn [map]. cbn [map] in IH.
  change (preemptions (f x :: f y :: map f l)) with ((if negb (bool_decide (f x = f y)) && bool_decide (f x ∈ map f l) then 1 else 0) + preemptions (f y :: map f l))%nat.
  change (preemptions (x :: y :: l)) with ((if negb (bool_decide (x = y)) && bool_decide (x ∈ l) then 1 else 0) + preemptions (y :: l))%nat.
  rewrite IH by (intros; apply Hinj; [by right|by right|done]). f_equal.
  assert (bool_decide (f x = f y) = bool_decide (x = y)) as ->.
  { apply bool_decide_ext. split; [apply Hinj; [by left|by right; left]|by intros ->]. }
  assert (bool_decide (f x ∈ map f l) = bool_decide (x ∈ l)) as ->; [|done].
  apply bool_decide_ext. split; [|by apply list_elem_of_fmap_2]. intros (z & E & Hz)%list_elem_of_fmap.
  assert (x = z) as ->; [|done]. apply Hinj; [by left|by right; right|done].
Qed.

Abbreviation start_positions := (replicate count 0%nat).

Lemma start_bounded : bounded start_positions.
Proof. split; [apply length_replicate|]. intros i Hi. rewrite lookup_replicate_2 by done. cbn. lia. Qed.

Lemma start_at i : default 0%nat (start_positions !! i) = 0%nat.
Proof. destruct (start_positions !! i) eqn:E; [|done]. by apply lookup_replicate in E as [-> _]. Qed.

Lemma shapes_spec l :
  l ∈ map (render start_positions) (words (total_steps actors) start_positions None 0) <->
  interleaving actors l /\ (preemptions (map ss_actor l) <= maxPreemptions)%nat.
Proof.
  assert (forall w, fits_from start_positions w -> preemptions (map ss_actor (render start_positions w)) = preemptions w) as Hpre.
  { intros w Hw. rewrite (render_actors w _ Hw). apply preemptions_map. intros i j Hi Hj. destruct Hw as (_ & Hw & _).
    rewrite Forall_forall in Hw. apply name_inj; by apply Hw. }
  rewrite list_elem_of_fmap. split.
  - intros (w & -> & Hw). apply words_spec in Hw as [Hw Hp]; [|apply start_bounded|done|lia|lia]. rewrite Hpre by done. split; [|exact Hp]. split.
    + apply Forall_forall. intros s Hs. assert (ss_actor s ∈ map name w) as Hin by (rewrite <-(render_actors w _ Hw); by apply list_elem_of_fmap_2). clear Hs. rename Hin into Hs.
      apply list_elem_of_fmap in Hs as (i & -> & Hi). destruct Hw as (_ & Hw & _). rewrite Forall_forall in Hw. specialize (Hw i Hi).
      destruct (lookup_lt_is_Some_2 _ _ Hw) as [a Ha]. unfold name. rewrite Ha. cbn. apply list_elem_of_fmap_2. by eapply list_elem_of_lookup_2.
    + apply Forall_lookup. intros i a Ha. by rewrite (render_steps w _ i a Hw Ha), start_at.
  - intros [[H1 H2] Hp]. rewrite Forall_lookup in H2. destruct (interleaving_word l _ start_bounded H1) as (w & Hw & <-).
    { intros i a Ha. by rewrite (H2 i a Ha), start_at. }
    exists w. split; [done|]. apply words_spec; [apply start_bounded|done|lia|lia|]. split; [done|]. change (0 + after_prior None w)%nat with (preemptions w). by rewrite <-Hpre.
Qed.

Lemma shapes_NoDup : NoDup (map (render start_positions) (words (total_steps actors) start_positions None 0)).
Proof.
  apply NoDup_fmap_2_strong; [|apply words_NoDup]. intros w w' Hw Hw' E.
  apply words_spec in Hw as [Hw _]; [|apply start_bounded|done|lia|lia]. apply words_spec in Hw' as [Hw' _]; [|apply start_bounded|done|lia|lia].
  apply (f_equal (map ss_actor)) in E. rewrite (render_actors w), (render_actors w') in E by done.
  destruct Hw as (_ & Hw & _), Hw' as (_ & Hw' & _). clear -Hw Hw' E names. revert w' Hw' E.
  induction Hw as [|i w Hi _ IH]; intros [|j w'] Hw' E; try done. cbn in E. injection E as E1 E2. apply Forall_cons in Hw' as [Hj Hw'].
  f_equal; [by apply name_inj|by apply IH].
Qed.

(** All the shapes there are, in the order of [visit]. *)
Definition all_shapes : list (list ScheduleStep) := map (render start_positions) (words (total_steps actors) start_positions None 0).

Lemma enumerate_grows : let e := enumerate actors maxPreemptions maxEnumerated stops in
  (exists n, en_shapes e = take n all_shapes) /\ (length (en_shapes e) <= maxEnumerated)%nat /\ (en_stop e = None -> en_shapes e = all_shapes).
Proof.
  cbn zeta. unfold enumerate. destruct (visit_grows (total_steps actors) start_positions [] None 0 (MkEnumeration [] None 0)) as ([n E] & F & B);
    [by apply start_bounded| |lia|done|].
  { cbn. clear. by induction count. }
  cbn [app en_shapes] in *. split; [by exists n|]. split; [apply B; cbn; lia|exact F].
Qed.
End facts.

(** C21: the enumeration of schedules. There is a list without repetition of exactly the
    interleavings of the actors' chains that preempt at most [maxPreemptions] times (an
    actor preempts the one that ran before it when that one has steps left), and
    whatever stops the enumeration, the shapes found are a beginning of that list, at
    most [maxEnumerated] long; an enumeration that nothing stopped found all of it. *)
Theorem enumeration_exact (actors : list ScheduleActorChain) (maxPreemptions maxEnumerated : nat) (stops : nat -> option stop_reason) :
  NoDup (map chain_actor actors) ->
  exists shapes, NoDup shapes /\
    (forall l, l ∈ shapes <-> interleaving actors l /\ (preemptions (map ss_actor l) <= maxPreemptions)%nat) /\
    let e := enumerate actors maxPreemptions maxEnumerated stops in
    (exists n, en_shapes e = take n shapes) /\ (length (en_shapes e) <= maxEnumerated)%nat /\
    (en_stop e = None -> en_shapes e = shapes).
Proof.
  intros Hn. exists (all_shapes actors maxPreemptions). split; [by apply shapes_NoDup|]. split; [by apply shapes_spec|].
  apply enumerate_grows.
Qed.

Definition two_chains : list ScheduleActorChain :=
  [MkChain (MkScheduleActor ($"a") ($"one")) [$"ready"; SCHEDULE_COMPLETION]; MkChain (MkScheduleActor ($"b") ($"two")) [SCHEDULE_COMPLETION]].

Lemma enumeration_exact_witness : en_shapes (enumerate two_chains 0 4096 (fun _ => None)) =
    [concat (map chain_steps two_chains); concat (map chain_steps (reverse two_chains))] /\
  exists shapes, NoDup shapes /\
    (forall l, l ∈ shapes <-> interleaving two_chains l /\ (preemptions (map ss_actor l) <= 0)%nat) /\
    let e := enumerate two_chains 0 4096 (fun _ => None) in
    (exists n, en_shapes e = take n shapes) /\ (length (en_shapes e) <= 4096)%nat /\ (en_stop e = None -> en_shapes e = shapes).
Proof.
  split; [vm_compute; reflexivity|]. apply (enumeration_exact two_chains 0 4096 (fun _ => None)).
  apply (bool_decide_unpack _). vm_compute. exact I.
Defined.
