(* ===== verification/ExplorationRuns.v ===== *)
(** * Complete explorations

    The loop of [exploreFiniteSchedules]: every row stands for the candidate in its
    place, and an exploration that reports itself complete ran and validated every
    interleaving with every input. *)

From S2P Require Import Prelude JsNumber Utf16 JsData StrictJson Decode JsText Requests Protocol OpaqueItf ScheduleData Schedule ScheduleFacts ScheduleRuns JsonText Exploration ExplorationFacts.

Section runs.
Context (number_text : number -> ustring) (space : FiniteScheduleSpace) (limits : ScheduleExplorationLimits)
  (actors : list ScheduleActorChain) (env : nat -> run_env).

(** What a run does not touch. *)
Definition framed (s0 s : exploration_state) : Prop :=
  xs_attempted s = xs_attempted s0 /\ xs_rows s = xs_rows s0 /\ xs_evidenceBytes s = xs_evidenceBytes s0 /\
  xs_halt s = xs_halt s0 /\ xs_stop s = xs_stop s0.

(** The evidence of a run that passed. *)
Definition proves (candidate : CheckpointSchedule) (execution : option js) (comparison : option object_t) : Prop :=
  exists e ids id, execution = Some (JObj e) /\ check_execution number_text candidate actors ids e = Ok id /\
    category number_text e comparison = Ok cat_passed /\ (fs_requireModelComparison space = true -> is_Some comparison) /\
    validateSuccess e candidate = Ok tt.

Abbreviation Running s0 := (fun s : exploration_state * running => framed s0 s.1 /\ xs_completed s.1 = xs_completed s0).

Lemma checked_triple {S A} (r : res exn A) (P : S -> Prop) (Q : A -> S -> Prop) (R : exn -> S -> Prop) :
  (forall a s, r = Ok a -> P s -> Q a s) -> (forall x s, P s -> R x s) -> triple P (checked r) Q R.
Proof. intros HQ HR s Hs. unfold checked. destruct r; [by apply HQ|by apply HR]. Qed.

Lemma running_modify s0 (f : exploration_state -> exploration_state) R :
  (forall s, framed s (f s) /\ xs_completed (f s) = xs_completed s) ->
  triple (Running s0) (modify (fun s => (f s.1, s.2)) : method _ exn unit) (fun _ s => Running s0 s) R.
Proof.
  intros Hf. apply triple_modify. intros s [(A & B & C & D & E) F]. destruct (Hf s.1) as [(A' & B' & C' & D' & E') F'].
  cbn. unfold framed. split; [split_and!; congruence|congruence].
Qed.

Lemma covering_triple s0 m : triple (Running s0) (covering m) (fun _ s => Running s0 s) (fun _ s => Running s0 s).
Proof. intros s [H F]. unfold covering. destruct (m _) as [[u|x] c]; by split. Qed.

Lemma run_body_triple candidate returned s0 :
  triple (Running s0) (run_body number_text space candidate actors returned)
    (fun c s => framed s0 s.1 /\ xs_completed s.1 = (xs_completed s0 + if bool_decide (c = cat_passed) then 1 else 0)%nat /\
       (c = cat_passed -> proves candidate (ru_execution s.2) (ru_comparison s.2)))
    (fun _ s => Running s0 s).
Proof.
  destruct returned as [sample|t]; [|apply triple_throws; done]. unfold run_body.
  eapply triple_bind; [apply (checked_triple _ _ (fun _ => Running s0)); auto|intros execution].
  eapply triple_bind; [apply (checked_triple _ _ (fun _ => Running s0)); auto|intros comparison].
  eapply triple_bind; [apply (checked_triple _ _ (fun e s => execution = JObj e /\ Running s0 s)); [|auto]|intros e].
  { intros e s He Hs. split; [|done]. destruct execution; try discriminate He. by injection He as <-. }
  apply (triple_pure (execution = JObj e) (Running s0)); [auto|intros ->].
  set (Held := fun s : exploration_state * running => Running s0 s /\ ru_execution s.2 = Some (JObj e) /\ ru_comparison s.2 = comparison).
  assert (forall s, Held s -> Running s0 s) as Hheld by by intros s [? _].
  assert (forall f, (forall s, framed s (f s) /\ xs_completed (f s) = xs_completed s) ->
    triple Held (on_state f) (fun _ => Held) (fun _ => Running s0)) as Hon.
  { intros f Hf s [Hs Hx]. destruct (running_modify s0 f (fun _ _ => True) Hf s Hs). by split. }
  eapply triple_bind; [apply (triple_modify _ _ (fun _ => Held)); by intros s [? ?]|intros []].
  eapply triple_bind; [apply (triple_this _ _ (fun _ => Held)); auto|intros ids].
  eapply triple_bind; [apply (checked_triple _ _ (fun id s => check_execution number_text candidate actors ids e = Ok id /\ Held s)); auto|intros id].
  apply (triple_pure (check_execution number_text candidate actors ids e = Ok id) Held); [auto|intros Hid].
  eapply triple_bind; [apply Hon; by intros|intros []].
  eapply triple_bind; [apply (checked_triple _ _ (fun _ => Held)); auto|intros known].
  eapply triple_bind; [apply (triple_modify _ _ (fun _ => Held)); by intros s (? & ? & ?)|intros []].
  eapply triple_bind; [apply (checked_triple _ _ (fun c s => category number_text e comparison = Ok c /\ Held s)); auto|intros disposition0].
  apply (triple_pure (category number_text e comparison = Ok disposition0) Held); [auto|intros Hcat].
  set (mismatch := match comparison with Some c => _ | None => false end). cbn zeta.
  eapply triple_bind; [apply (triple_when _ _ _ (fun _ => Held)); [intros _; apply Hon; by intros|auto]|intros []].
  set (disposition := if fs_requireModelComparison space && _ then _ else _).
  eapply triple_bind; [apply (triple_when _ _ _ (fun _ => Held)); [intros _; apply Hon; by intros|auto]|intros []].
  destruct (decide (disposition = cat_passed)) as [Ep|Ep].
  - rewrite !bool_decide_eq_true_2 by done.
    apply (triple_bind _ _ _ (fun _ s => framed s0 s.1 /\ xs_completed s.1 = (xs_completed s0 + 1)%nat /\ proves candidate (ru_execution s.2) (ru_comparison s.2)));
      [|intros []; apply triple_ret; intros s Hs; rewrite (bool_decide_eq_true_2 _ Ep); destruct Hs as (? & ? & ?); by split_and!].
    eapply triple_bind; [apply (checked_triple _ _ (fun u s => validateSuccess e candidate = Ok u /\ Held s)); auto|intros []].
    apply (triple_pure (validateSuccess e candidate = Ok tt) Held); [auto|intros Hval].
    eapply triple_bind; [apply (checked_triple _ _ (fun _ => Held)); auto|intros observations].
    apply (triple_bind _ _ _ (fun _ => Held)).
    { intros s [Hs Hx]. pose proof (covering_triple s0 (cover number_text space observations 0 None) s Hs) as Hc. unfold covering in *.
      destruct (cover _ _ _ _ _ _) as [[u|x] c]; [|exact Hc]. by split. }
    intros []. apply triple_modify. intros s [[(A & B & C & D & E) F] [Hx Hy]]. cbn in *.
    split; [by split_and!|]. split; [lia|]. rewrite Hx, Hy. exists e, ids, id. subst disposition.
    destruct (fs_requireModelComparison space) eqn:Er; cbn [andb] in *; [|subst disposition0; by split_and!].
    case_bool_decide as Hc; cbn [negb] in *; [subst disposition0; by split_and!|done].
  - rewrite !bool_decide_eq_false_2 by done.
    eapply triple_bind; [apply (triple_when _ _ _ (fun _ => Held)); [intros _; apply Hon; by intros|auto]|intros []].
    apply triple_ret. intros s [[Hs Hc] _]. rewrite (bool_decide_eq_false_2 _ Ep). split; [done|]. split; [lia|done].
Qed.
End runs.

Section all.
Context (number_text : number -> ustring) (space : FiniteScheduleSpace) (limits : ScheduleExplorationLimits)
  (actors : list ScheduleActorChain) (env : nat -> run_env).

Abbreviation proved := (proves number_text space actors).
Abbreviation passed_row r := (bool_decide (rw_category r = cat_passed)).

(** The row of a candidate. *)
Definition ran (c : list ScheduleStep * nat * js) (r : row) : Prop :=
  candidate_of number_text (fs_identity space) c.2 c.1.1 = Ok (rw_schedule r) /\ rw_inputIndex r = c.1.2 /\
  (rw_category r = cat_passed -> rw_omitted r = false -> proved (rw_schedule r) (rw_execution r) (rw_comparison r)).

(** What the loop adds to the rows and to its counts. *)
Definition ran_all (candidates : list (list ScheduleStep * nat * js)) (s s' : exploration_state) (rows : list row) : Prop :=
  xs_rows s' = xs_rows s ++ rows /\ xs_attempted s' = (xs_attempted s + length rows)%nat /\
  xs_completed s' = (xs_completed s + length (List.filter (fun r => passed_row r) rows))%nat /\
  Forall2 ran (take (length rows) candidates) rows /\
  (xs_halt s' = false -> length rows = length candidates /\ Forall (fun r => rw_omitted r = false) rows).

Lemma settled_run candidate inputIndex s outcome s2 ru s4 r :
  settle_run candidate inputIndex s (outcome, (s2, ru)) = (s4, r) ->
  rw_schedule r = candidate /\ rw_inputIndex r = inputIndex /\ rw_execution r = ru_execution ru /\ rw_comparison r = ru_comparison ru /\
  rw_omitted r = false /\ rw_category r = match outcome with Ok c => c | Err _ => cat_runner_or_evidence_failed end /\
  xs_rows s4 = xs_rows s2 /\ xs_attempted s4 = xs_attempted s2 /\ xs_completed s4 = xs_completed s2.
Proof.
  unfold settle_run. intros [= <- <-]. cbn. split_and!; try done.
  all: destruct outcome; case_bool_decide; cbn; try done; by destruct (is_coverage_bound _).
Qed.

Lemma run_all_spec candidates : forall s s', run_all number_text space limits actors env candidates s = Ok s' -> exists rows, ran_all candidates s s' rows.
Proof.
  induction candidates as [|[[steps i] input] rest IH]; intros s s' H; cbn [run_all] in H.
  { injection H as <-. exists []. unfold ran_all. rewrite app_nil_r. split_and!; cbn; try lia; try done; constructor. }
  case (re_aborted _ || _ || _) in H.
  { injection H as <-. exists []. unfold ran_all. rewrite app_nil_r. split_and!; cbn; try lia; try done; constructor. }
  destruct (candidate_of _ _ _ _) as [candidate|] eqn:Ec; [|discriminate H]. cbn [mbind res_mbind] in H.
  pose proof (run_body_triple number_text space actors candidate (re_returned (env (xs_attempted s))) (count_attempt s)
    (count_attempt s, MkRunning None None false)) as Hbody.
  destruct (run_body _ _ _ _ _ _) as [outcome [s2 ru]] eqn:Eb. destruct (settle_run _ _ _ _) as [s4 r] eqn:Es.
  apply settled_run in Es as (E1 & E2 & E3 & E4 & E5 & E6 & E7 & E8 & E9).
  assert (xs_rows s2 = xs_rows s /\ xs_attempted s2 = S (xs_attempted s) /\
    xs_completed s2 = (xs_completed s + if passed_row r then 1 else 0)%nat /\ (rw_category r = cat_passed -> proved candidate (ru_execution ru) (ru_comparison ru))) as (F1 & F2 & F3 & F4).
  { rewrite E6. destruct outcome as [c|x]; (destruct Hbody as [(A & B & _) Hc]; [done|cbn in *]).
    - destruct Hc as [Hc Hp]. by split_and!.
    - rewrite bool_decide_eq_false_2 by done. split_and!; try done; lia. }
  clear Hbody Eb.
  assert (forall r', rw_category r' = rw_category r -> rw_schedule r' = candidate -> rw_inputIndex r' = i ->
    (rw_omitted r' = false -> r' = r) -> forall bytes s', xs_rows s' = xs_rows (add_row bytes r' s4) -> xs_attempted s' = xs_attempted s4 -> xs_completed s' = xs_completed s4 ->
    (xs_halt s' = true \/ rest = [] /\ rw_omitted r' = false) -> exists rows, ran_all ((steps, i, input) :: rest) s s' rows) as Hone.
  { intros r' Hr1 Hr2 Hr3 Hr4 bytes s5 G1 G2 G3 G4. exists [r']. split_and!; cbn.
    - rewrite G1. cbn. by rewrite E7, F1.
    - rewrite G2, E8, F2. lia.
    - rewrite G3, E9, F3, Hr1. by case_bool_decide.
    - repeat constructor; [by rewrite Hr2|done|]. intros Hc Ho. rewrite (Hr4 Ho), E1, E3, E4. apply F4. by rewrite <-Hr1.
    - destruct G4 as [->|[-> Ho]]; [done|]. intros _. split; [done|]. by repeat constructor. }
  cbn zeta in H. case (_ <? _)%N in H.
  { injection H as <-. apply (Hone (omit r) eq_refl E1 E2 ltac:(done) 0%N); [done..|by left]. }
  assert (forall bytes rsn, exists rows, ran_all ((steps, i, input) :: rest) s (halt rsn (add_row bytes r s4)) rows) as Hhalt.
  { intros bytes rsn. apply (Hone r eq_refl E1 E2 ltac:(done) bytes); [done..|by left]. }
  destruct (xs_halt (add_row _ r s4)) eqn:Eh.
  { injection H as <-. eapply (Hone r eq_refl E1 E2 ltac:(done)); [done..|by left]. }
  case (negb _) in H; [injection H as <-; apply Hhalt|]. case (re_late_after _) in H; [injection H as <-; apply Hhalt|].
  apply IH in H as (rows & A & B & C & D & E). exists (r :: rows). cbn in A, B, C. split_and!; cbn [length List.filter take].
  - by rewrite A, E7, F1, <-app_assoc.
  - rewrite B, E8, F2. lia.
  - rewrite C, E9, F3. case_bool_decide; cbn; lia.
  - constructor; [|done]. split_and!; [by rewrite E1|done|]. intros Hc _. rewrite E1, E3, E4. by apply F4.
  - intros Hh. destruct (E Hh) as [El Ho]. split; [by rewrite El|]. by constructor.
Qed.

End all.

Lemma check_chains_names declarations operations l u : check_chains declarations operations l = Ok u ->
  NoDup (map chain_actor l) /\ Forall (fun a => chain_actor a ∉ declarations) l.
Proof.
  revert declarations operations. induction l as [|a l IH]; intros declarations operations H; [split; constructor|]. cbn [check_chains] in H.
  unfold requireValue in H. res_inv. match goal with H : check_chains _ _ _ = _ |- _ => apply IH in H as [Hn Hf] end. split.
  - constructor; [|done]. intros (b & E & Hb)%list_elem_of_fmap. rewrite Forall_forall in Hf. apply (Hf b Hb). rewrite <-E. by left.
  - constructor; [done|]. eapply Forall_impl; [exact Hf|]. cbn. intros b Hb Hin. apply Hb. by right.
Qed.

(** ** The text of a candidate *)

Lemma decode_steps_read steps l : mapM decode_step (map wire_form (map step_js steps)) = Ok l -> l = steps.
Proof.
  revert l. induction steps as [|[actor checkpoint] steps IH]; intros l H; [by injection H as <-|]. cbn [map] in H.
  apply mapM_res_Ok in H. apply Forall2_cons_inv_l in H as (s & l' & Hs & H & ->). apply mapM_res_Ok, IH in H as ->. f_equal.
  change (decode_step _) with (if scheduleIdentifier actor && (scheduleIdentifier checkpoint || bool_decide (checkpoint = SCHEDULE_COMPLETION))
    then Ok (MkStep actor checkpoint) else throw XError "invalid schedule identifier") in Hs.
  destruct (scheduleIdentifier actor && _); [by injection Hs as <-|discriminate Hs].
Qed.

Section text.
Context (number_text : number -> ustring).

Lemma candidate_of_exact identity input steps c : sendable (schedule_js (MkSchedule identity input steps)) -> input <> JUndef ->
  candidate_of number_text identity input steps = Ok c -> c = MkSchedule identity (wire_form input) steps.
Proof.
  intros Hs Hi H. unfold candidate_of, candidate_text, json_text in H. apply res_bind_Ok in H as (text & Ht & H).
  apply res_bind_Ok in Ht as ([t|] & Ht & E); [injection E as ->|discriminate E]. apply (stringify_parse _ _ _ Hs) in Ht.
  unfold parseCheckpointSchedule in H. apply res_bind_Ok in H as (_ & _ & H). apply res_bind_Ok in H as (end_state & _ & H).
  apply res_bind_Ok in H as (_ & _ & H). rewrite Ht in H. cbn [mbind res_mbind] in H. clear Ht Hs.
  apply res_bind_Ok in H as (o & Ho & H). assert (o = [($"schema", JStr SCHEDULE_SCHEMA); ($"profile", JStr WORKER_SCHEDULE_PROFILE);
    ($"identity", wire_form (JObj (identity_js identity))); ($"inputs", wire_form input); ($"steps", JArr (map wire_form (map step_js steps)))]) as ->.
  { unfold scheduleExact in Ho. cbn [wire_form schedule_js] in Ho. unfold omap in Ho. cbn [list_omap snd fst is_undef cs_inputs cs_identity cs_steps] in Ho.
    assert (is_undef input = false) as Hu by by destruct input. rewrite Hu in Ho. cbn [andb] in Ho. case (_ && _) in Ho; [|discriminate Ho].
    injection Ho as <-. f_equal. f_equal. f_equal. f_equal. f_equal. f_equal. by rewrite !map_map. }
  clear Ho. apply res_bind_Ok in H as (i & Hi' & H). cbn in Hi'. injection Hi' as <-.
  apply res_bind_Ok in H as (_ & _ & H). apply res_bind_Ok in H as (l & Hl & H).
  change (getf _ ($"steps")) with (JArr (map wire_form (map step_js steps))) in Hl. cbv beta iota in Hl.
  destruct (_ <=? _)%nat; [apply (f_equal (fun r => match r with Ok l => l | Err _ => [] end)) in Hl; subst l|discriminate Hl].
  apply res_bind_Ok in H as (steps' & Hst & H). apply decode_steps_read in Hst as ->. apply res_bind_Ok in H as (_ & _ & H).
  injection H as <-. by destruct identity.
Qed.
End text.

(** ** What the checks of a declaration establish *)

Lemma identifier_js_string s : scheduleIdentifier s = true -> js_string s.
Proof.
  unfold scheduleIdentifier. intros [_ H]%andb_true_iff. apply Is_true_true, forallb_True in H. eapply Forall_impl; [exact H|].
  cbn. intros c ?%Is_true_true. unfold identifier_unit, is_digit in *. lia.
Qed.

Lemma check_checkpoints_strings l u : check_checkpoints l = Ok u -> Forall js_string l.
Proof.
  induction l as [|c l IH]; intros H; [constructor|]. cbn [check_checkpoints] in H. unfold requireValue in H. apply res_bind_Ok in H as (? & Hc & H).
  apply require_Ok in Hc. constructor; [|by apply IH]. destruct l; [|by apply identifier_js_string].
  apply bool_decide_eq_true in Hc as ->. apply lit_units.
Qed.

Lemma check_chains_strings declarations operations l u : check_chains declarations operations l = Ok u ->
  Forall (fun a => js_string (chain_actor a) /\ Forall js_string (ch_checkpoints a)) l.
Proof.
  revert declarations operations. induction l as [|a l IH]; intros declarations operations H; [constructor|]. cbn [check_chains] in H.
  unfold requireValue in H. apply res_bind_Ok in H as (? & Hr & H). apply res_bind_Ok in H as (? & _ & H). apply res_bind_Ok in H as (? & Hc & H).
  apply IH in H. constructor; [|done]. apply require_Ok in Hr. rewrite !andb_true_iff in Hr. destruct Hr as [[[Hr _] _] _].
  split; [by apply identifier_js_string|]. by eapply check_checkpoints_strings.
Qed.

Lemma check_inputs_defined number_text identity checkSteps seen l u : check_inputs number_text identity checkSteps seen l = Ok u -> Forall (fun v => v <> JUndef) l.
Proof.
  revert seen. induction l as [|v l IH]; intros seen H; [constructor|]. cbn [check_inputs] in H. apply res_bind_Ok in H as (? & Hv & H).
  constructor; [by intros ->|]. apply res_bind_Ok in H as (? & _ & H). apply res_bind_Ok in H as (? & _ & H). apply res_bind_Ok in H as (? & _ & H). by eapply IH.
Qed.

Lemma interleaving_strings actors l : Forall (fun a => js_string (chain_actor a) /\ Forall js_string (ch_checkpoints a)) actors ->
  interleaving actors l -> Forall (fun s => js_string (ss_actor s) /\ js_string (ss_checkpoint s)) l.
Proof.
  intros Ha [H1 H2]. rewrite Forall_forall in Ha. rewrite Forall_forall in H1. rewrite Forall_forall in H2. apply Forall_forall. intros s Hs.
  pose proof (H1 s Hs) as (a & E & Hin)%list_elem_of_fmap.
  destruct (Ha a Hin) as [Hn Hc]. assert (s ∈ steps_of a l) as Hsa.
  { unfold steps_of. apply list_elem_of_In, filter_In. split; [by apply list_elem_of_In|by apply bool_decide_eq_true_2]. }
  rewrite (H2 a Hin) in Hsa. apply list_elem_of_fmap in Hsa as (c & -> & Hcin). cbn. split; [done|]. rewrite Forall_forall in Hc. by apply Hc.
Qed.

Lemma schedule_sendable identity input steps : sendable (JObj (identity_js identity)) -> sendable input ->
  Forall (fun s => js_string (ss_actor s) /\ js_string (ss_checkpoint s)) steps -> sendable (schedule_js (MkSchedule identity input steps)).
Proof.
  intros Hi Hv Hs. apply send_object; [vm_compute; reflexivity|repeat (constructor; [apply lit_units|]); constructor|].
  do 2 (constructor; [apply send_str, lit_units|]). constructor; [exact Hi|]. constructor; [exact Hv|]. constructor; [|constructor].
  apply send_arr, Forall_fmap. eapply Forall_impl; [exact Hs|]. intros [a c] [Ha Hc].
  apply send_object; [vm_compute; reflexivity|repeat (constructor; [apply lit_units|]); constructor|].
  constructor; [by apply send_str|]. constructor; [by apply send_str|]. constructor.
Qed.

Lemma check_space_facts number_text space limits actors : check_space number_text space limits = Ok actors ->
  NoDup (map chain_actor actors) /\ Forall (fun a => js_string (chain_actor a) /\ Forall js_string (ch_checkpoints a)) actors /\
  Forall (fun v => v <> JUndef) (fs_inputs space).
Proof.
  unfold check_space. intros H. apply res_bind_Ok in H as (? & _ & H). apply res_bind_Ok in H as (? & _ & H). apply res_bind_Ok in H as (? & Hc & H).
  apply res_bind_Ok in H as (? & _ & H). apply res_bind_Ok in H as (? & Hi & H). apply res_bind_Ok in H as (? & _ & H).
  apply res_bind_Ok in H as (? & _ & H). apply res_bind_Ok in H as (? & _ & H). injection H as <-.
  split; [by eapply check_chains_names|]. split; [by eapply check_chains_strings|by eapply check_inputs_defined].
Qed.

Lemma filter_full {A} (p : A -> bool) l : length (List.filter p l) = length l -> Forall (fun x => p x = true) l.
Proof.
  induction l as [|x l IH]; [constructor|]. cbn. destruct (p x) eqn:E; cbn; intros H.
  - constructor; [done|]. apply IH. lia.
  - pose proof (filter_length_le p l). lia.
Qed.

Lemma candidates_member space shapes k c : candidates_of space shapes !! k = Some c -> c.1.1 ∈ shapes /\ c.2 ∈ fs_inputs space.
Proof.
  intros H%list_elem_of_lookup_2. unfold candidates_of in H. apply list_elem_of_In, in_flat_map in H as (steps & Hs & H).
  apply list_elem_of_In, list_elem_of_lookup_1 in H as [n H]. rewrite list_lookup_imap in H. destruct (fs_inputs space !! n) eqn:E; [|discriminate H].
  injection H as <-. cbn. split; [by apply list_elem_of_In|by eapply list_elem_of_lookup_2].
Qed.

Lemma candidates_length space shapes : length (candidates_of space shapes) = (length shapes * length (fs_inputs space))%nat.
Proof. induction shapes as [|l shapes IH]; [done|]. cbn. rewrite length_app, length_imap. unfold candidates_of in IH. lia. Qed.

(** C8: a complete exploration is one. When the strings and numbers of the declaration
    are ones of JavaScript and the loop reports completion, the actors passed the checks,
    the shapes are, each once, exactly the interleavings of their chains within the bound
    on preemptions, and for every shape and every input, in that order, there is one row:
    its schedule is the shape with that input, its category is passed, and the evidence
    it keeps is bound to exactly that schedule and those actors, has the category passed
    (with the comparison if one is required) and holds a permit and an arrival for each
    step in order and an observation before and after each. *)
Theorem exploration_complete (number_text : number -> ustring) (space : FiniteScheduleSpace) (limits : ScheduleExplorationLimits)
    (stops : nat -> option stop_reason) (env : nat -> run_env) (result : exploration_result) :
  sendable (JObj (identity_js (fs_identity space))) -> Forall sendable (fs_inputs space) ->
  exploreFiniteSchedules number_text space limits stops env = Ok result -> er_complete result = true ->
  exists actors shapes, check_space number_text space limits = Ok actors /\ NoDup shapes /\
    (forall l, l ∈ shapes <-> interleaving actors l /\ (preemptions (map ss_actor l) <= bound_of (fs_maxPreemptions space))%nat) /\
    Forall2 (fun c r => rw_schedule r = MkSchedule (fs_identity space) (wire_form c.2) c.1.1 /\ rw_inputIndex r = c.1.2 /\
        rw_category r = cat_passed /\ proves number_text space actors (rw_schedule r) (rw_execution r) (rw_comparison r))
      (flat_map (fun steps => imap (fun i input => (steps, i, input)) (fs_inputs space)) shapes) (xs_rows (er_state result)).
Proof.
  intros Hid Hin H Hc. unfold exploreFiniteSchedules in H. apply res_bind_Ok in H as (actors & Ha & H). apply res_bind_Ok in H as (s & Hr & H).
  injection H as <-. destruct (check_space_facts _ _ _ _ Ha) as (Hn & Hst & Hdef).
  set (en := enumerate _ _ _ _) in *. cbn [finish_exploration er_complete er_state] in *. rewrite !andb_true_iff in Hc.
  destruct Hc as [[[He Hatt%Nat.eqb_eq] Hcomp%Nat.eqb_eq] Hh%negb_true_iff]. apply bool_decide_eq_true in He.
  destruct (enumerate_grows actors (bound_of (fs_maxPreemptions space)) (bound_of (xl_maxEnumeratedSchedules limits)) stops) as (_ & _ & Hall).
  specialize (Hall He). fold en in Hall. exists actors, (en_shapes en). split; [done|]. rewrite Hall.
  split; [by apply (shapes_NoDup _ _ 0 stops)|]. split; [by apply (shapes_spec _ _ 0 stops)|]. rewrite <-Hall.
  apply run_all_spec in Hr as (rows & Er & Eatt & Ecomp & Hran & Hend). destruct (Hend Hh) as [Hlen Homit]. cbn in Er. rewrite Er.
  rewrite Hlen, firstn_all in Hran.
  assert (Forall (fun r => bool_decide (rw_category r = cat_passed) = true) rows) as Hpass.
  { apply filter_full. cbn in Eatt, Ecomp. lia. }
  change (flat_map _ _) with (candidates_of space (en_shapes en)).
  apply Forall2_same_length_lookup. split; [by eapply Forall2_length|]. intros k c r Hk Hrk.
  destruct (Forall2_lookup_lr _ _ _ _ _ _ Hran Hk Hrk) as (Hcand & Hidx & Hproof).
  pose proof (Forall_lookup_1 _ _ _ _ Hpass Hrk) as Hp%bool_decide_eq_true. pose proof (Forall_lookup_1 _ _ _ _ Homit Hrk) as Ho.
  destruct (candidates_member _ _ _ _ Hk) as [Hshape Hinput]. rewrite Hall in Hshape. apply (shapes_spec _ _ 0 stops) in Hshape as [Hshape _]; [|done].
  rewrite Forall_forall in Hin. rewrite Forall_forall in Hdef. split_and!; [|done|done|by apply Hproof].
  eapply candidate_of_exact; [|by apply Hdef|exact Hcand]. apply schedule_sendable; [done|by apply Hin|]. by eapply interleaving_strings.
Qed.

(** ** From an execution to the evidence of a run *)

Lemma num_is_of_nat n : (Z.of_nat n <= 131072)%Z -> num_is (JNum (num_of_Z (Z.of_nat n))) (Z.of_nat n) = true.
Proof.
  intros Hn. assert (num_safe_Z (num_of_Z (Z.of_nat n)) = Some (Z.of_nat n)) as H by (apply num_of_Z_exact; unfold MAX_SAFE_INTEGER; lia).
  unfold num_is. apply bool_decide_eq_true_2. unfold num_safe_Z in H. by destruct (num_to_Z _); [case (_ <=? _)%Z in H|].
Qed.

Lemma same_event_js v k kind : (Z.of_nat k <= 131072)%Z -> (Z.of_nat (ev_step v) <= 131072)%Z ->
  kind = match ev_kind v with ek_permit => $"permit" | ek_arrival => $"arrival" end ->
  exists o, event_js k v = JObj o /\ same_event o k (ev_step v) (ev_actor v) kind = true /\ getf o ($"checkpoint") = JStr (ev_checkpoint v).
Proof.
  intros Hk Hi ->. eexists. split; [reflexivity|]. split; [|done]. unfold same_event.
  change (num_is (JNum (num_of_Z (Z.of_nat k))) (Z.of_nat k) && num_is (JNum (num_of_Z (Z.of_nat (ev_step v)))) (Z.of_nat (ev_step v)) &&
    is_text (JStr (ev_actor v)) (ev_actor v) && is_text (JStr (match ev_kind v with ek_permit => $"permit" | ek_arrival => $"arrival" end))
      (match ev_kind v with ek_permit => $"permit" | ek_arrival => $"arrival" end) = true).
  rewrite !num_is_of_nat by done. cbn [is_text andb]. by rewrite !bool_decide_eq_true_2.
Qed.

Lemma intervals_length i steps evs : intervals i steps evs -> length evs = (length steps * 2)%nat.
Proof. induction 1; cbn; lia. Qed.

Lemma events_check i steps evs : intervals i steps evs -> (Z.of_nat (i + length steps) <= 65536)%Z ->
  check_events i steps (imap (fun k v => event_js (i * 2 + k) v) evs) = Ok tt.
Proof.
  induction 1 as [i|i s steps op c evs _ IH]; intros Hb; [done|]. cbn [length] in Hb. cbn [imap check_events].
  change (compose _ S 0) with (event_js (i * 2 + 1)).
  destruct (same_event_js (MkEvent ek_permit i (ss_actor s) op c) (i * 2 + 0) ($"permit")) as (o1 & -> & H1 & _); cbn [ev_step]; [lia|lia|done|].
  destruct (same_event_js (MkEvent ek_arrival i (ss_actor s) op (ss_checkpoint s)) (i * 2 + 1) ($"arrival")) as (o2 & -> & H2 & H3); cbn [ev_step]; [lia|lia|done|].
  unfold requireValue. cbn [evidence_object mbind res_mbind ev_step ev_actor ev_checkpoint] in *. rewrite Nat.add_0_r in H1. rewrite H1, H2, H3.
  cbn [require mbind res_mbind is_text]. rewrite bool_decide_eq_true_2 by done. cbn [require mbind res_mbind].
  rewrite <-IH by lia. f_equal. apply imap_ext. intros k v _. unfold compose. f_equal. lia.
Qed.

Section receipt.
Context (number_text : number -> ustring) (schedule : CheckpointSchedule) (adapter : adapter_t) (policy : SchedulePolicy) (deadline : Z).

(** What an execution records is what an exploration asks for: the receipt of an
    execution that passed, for a schedule the parser admits the length of, is accepted
    as evidence for that schedule. *)
Theorem passed_receipt_validates scoped aborted xs generation executionId :
  let e := (schedule_run number_text schedule adapter policy deadline (start schedule adapter policy scoped aborted) xs).1 in
  (Z.of_nat (length (cs_steps schedule)) <= 65536)%Z -> passed (ex_report e) = true ->
  validateSuccess (receipt schedule adapter policy generation executionId e) schedule = Ok tt.
Proof.
  cbn zeta. intros Hlen Hpass. destruct (schedule_run_sound number_text schedule adapter policy deadline xs _ (start_sound schedule adapter policy scoped aborted)) as (Hp & _ & _).
  set (e := (schedule_run _ _ _ _ _ _ xs).1) in *. unfold passed in Hpass. rewrite !andb_true_iff, !bool_decide_eq_true in Hpass. destruct Hpass as [[Ho Hc] _].
  destruct Hp as [_ _ _ _ _ _ P7 _]. destruct (P7 Hc) as [Hobs Hint]. clear P7. unfold validateSuccess.
  set (r := receipt _ _ _ _ _ e). change (getf r ($"scheduleCompleted")) with (JBool (rep_scheduleCompleted (ex_report e))).
  change (getf r ($"outcome")) with (JStr (outcome_name (rep_outcome (ex_report e)))). rewrite Ho, Hc.
  change (getf r ($"events")) with (JArr (imap event_js (rep_events (ex_report e)))).
  change (getf r ($"observations")) with (JArr (map observation_js (rep_observations (ex_report e)))).
  clearbody e r. unfold requireValue. pose proof (intervals_length _ _ _ Hint) as Hl. pose proof (events_check _ _ _ Hint Hlen) as Hevents.
  change (imap (fun k v => event_js (0 * 2 + k) v) (rep_events (ex_report e))) with (imap event_js (rep_events (ex_report e))) in Hevents.
  cbn [js_true is_str outcome_name evidence_array mbind res_mbind]. rewrite bool_decide_eq_true_2 by done. cbn [andb require mbind res_mbind].
  rewrite length_imap, length_map, Hl, Hobs, Nat.eqb_refl. cbn [require mbind res_mbind]. rewrite Hevents. cbn [mbind res_mbind].
  by rewrite Nat.add_1_r, Nat.eqb_refl.
Qed.
End receipt.

Lemma passed_receipt_validates_witness :
  passed (ex_report sample_end) = true /\
  validateSuccess (receipt sample_schedule sample_adapter default_policy 1 (repeat 0x61%N 32) sample_end) sample_schedule = Ok tt.
Proof.
  split; [vm_compute; reflexivity|].
  apply (passed_receipt_validates (fun _ => []) sample_schedule sample_adapter default_policy 2000 false false sample_inputs); [vm_compute; discriminate|vm_compute; reflexivity].
Defined.

(** One actor with one interval, explored with the receipt its execution leaves. *)
Definition small_space : FiniteScheduleSpace :=
  MkSpace (cs_identity sample_schedule) [MkChain (MkScheduleActor ($"a") ($"op1")) [SCHEDULE_COMPLETION]] [JNull] (num_of_Z 0) false [$"x"] [].

Definition small_schedule : CheckpointSchedule := MkSchedule (cs_identity sample_schedule) JNull [MkStep ($"a") SCHEDULE_COMPLETION].

Definition small_adapter : adapter_t := MkAdapter (identity_js (cs_identity sample_schedule)) [MkScheduleActor ($"a") ($"op1")] [].

Definition small_inputs : list schedule_input :=
  let sees b := Observes (Ok (JObj [($"x", JBool b)])) false 0 in
  [FactoryDone (Ok (Some (MkProgram true [($"a", true)] false))) [Ok 1%Z]; Message 0 (worker_ready 1); Resume 0 false (sees false) 0;
   Advance (MkStep ($"a") SCHEDULE_COMPLETION) false false 0 0; Message 0 worker_finished; Exited 0 0; Resume 0 false (sees true) 0;
   Resume 0 false (sees true) 0; TeardownDone (Ok tt)].

Definition small_execution : execution :=
  (schedule_run (fun _ => []) small_schedule small_adapter default_policy 2000 (start small_schedule small_adapter default_policy false false) small_inputs).1.

Definition small_env (n : nat) : run_env :=
  MkRunEnv false false false (Ok (MkSample (JObj (receipt small_schedule small_adapter default_policy 1 (repeat 0x61%N 32) small_execution)) None)) false.

Lemma small_result : exists result,
  exploreFiniteSchedules (fun _ => []) small_space default_limits (fun _ => None) small_env = Ok result /\ er_complete result = true.
Proof.
  assert (match exploreFiniteSchedules (fun _ => []) small_space default_limits (fun _ => None) small_env with Ok r => er_complete r | Err _ => false end = true) as H
    by (vm_compute; reflexivity).
  destruct (exploreFiniteSchedules _ _ _ _ _) as [result|]; [by exists result|discriminate H].
Qed.

Lemma exploration_complete_witness : exists result actors shapes, er_complete result = true /\
  check_space (fun _ => []) small_space default_limits = Ok actors /\ NoDup shapes /\
  (forall l, l ∈ shapes <-> interleaving actors l /\ (preemptions (map ss_actor l) <= bound_of (fs_maxPreemptions small_space))%nat).
Proof.
  destruct small_result as (result & E & Hc).
  destruct (exploration_complete (fun _ => []) small_space default_limits (fun _ => None) small_env result) as (actors & shapes & H1 & H2 & H3 & _);
    [apply sendable_text_ok; vm_compute; reflexivity|repeat constructor|exact E|exact Hc|].
  exists result, actors, shapes. exact (conj Hc (conj H1 (conj H2 H3))).
Defined.
