(* ===== verification/BundleText.v ===== *)
(** * The text of a reproduction bundle

    [src/src/reproduction-bundle.ts]: the errors it throws, the patterns it tests with
    the standard library they need (base64, the lenient UTF-8 of [Buffer.toString], a
    matcher for the regular expression of credentials), the scanner that runs before
    [JSON.parse] ([preflightJson]) and the bound on a graph of values ([boundedGraph]).

    A value of unknown type is [js]: a tree, with data properties only and no foreign
    prototypes, so the tests for cycles, accessors and prototypes have no counterpart. *)

From S2P Require Import Prelude JsNumber Utf16 JsData StrictJson Decode JsText Descriptor Transport Reproduction.

(** ** Errors *)

(** [ReproductionBundleError], [ReproductionRefusalError], and any other error. *)
Inductive thrown := TBundle (e : bundle_error) | TRefusal (e : bundle_error) | TOther (x : exn).

Definition bundle_fail {A} (code message : string) : res thrown A := Err (TBundle (BundleError (lit code) (lit message))).
Definition bundle_fail_text {A} (code : string) (message : ustring) : res thrown A := Err (TBundle (BundleError (lit code) message)).

Definition bundle_require (b : bool) (code message : string) : res thrown unit := if b then Ok tt else bundle_fail code message.

Definition other {A} (r : res exn A) : res thrown A := match r with Ok a => Ok a | Err x => Err (TOther x) end.

(** ** Patterns *)

Definition is_sha256 (s : ustring) : bool := (length s =? 64)%nat && forallb is_lower_hex s.
Definition is_git_revision (s : ustring) : bool := (length s =? 40)%nat && forallb is_lower_hex s.

(** A letter or digit, then characters of the class. *)
Definition headed (class : N -> bool) (s : ustring) : bool := match s with c :: rest => is_alnum c && forallb class rest | [] => false end.

Definition unit_in (units : string) (c : N) : bool := existsb (N.eqb c) (lit units).

Definition stable_id (s : ustring) : bool := headed (fun c => is_alnum c || unit_in "._/-" c) s.
Definition opaque_id (s : ustring) : bool := headed (fun c => is_alnum c || unit_in "._:-" c) s.

(** A regular expression without groups: its atoms in order. *)
Inductive atom := One (f : N -> bool) | Opt (f : N -> bool) | Star (f : N -> bool).

Fixpoint match_at (atoms : list atom) (s : ustring) : bool :=
  match atoms with
  | [] => true
  | One f :: rest => match s with c :: s' => f c && match_at rest s' | [] => false end
  | Opt f :: rest => match_at rest s || match s with c :: s' => f c && match_at rest s' | [] => false end
  | Star f :: rest =>
      (fix star (s : ustring) : bool := match_at rest s || match s with c :: s' => f c && star s' | [] => false end) s
  end.

Fixpoint match_any (atoms : list atom) (s : ustring) : bool :=
  match_at atoms s || match s with [] => false | _ :: s' => match_any atoms s' end.

Definition lower (c : N) : N := if is_upper c then (c + 32)%N else c.
(** The units of a text, whatever their case. *)
Definition folded (s : string) : list atom := map (fun c => One (fun d => (lower d =? c)%N)) (lit s).

Definition credential_patterns : list (list atom) :=
  [folded "authorization" ++ [Star is_space] ++ folded ":" ++ [Star is_space] ++ folded "bearer";
   folded "cookie" ++ [Star is_space] ++ folded ":";
   folded "password" ++ [Star is_space; One (unit_in "=:")];
   folded "-----begin " ++ [Star (fun c => is_alnum c && negb (is_digit c) || (c =? 0x20)%N)] ++ folded "private key-----";
   folded "access" ++ [Opt (unit_in "_-")] ++ folded "key";
   folded "secret" ++ [Opt (unit_in "_-")] ++ folded "key";
   folded "connection" ++ [Opt (unit_in "_-")] ++ folded "string"].

Definition credential_text (s : ustring) : bool := existsb (fun p => match_any p s) credential_patterns.

(** ** [Buffer] *)

Definition base64_digit (n : N) : N :=
  (if n <? 26 then 65 + n else if n <? 52 then 71 + n else if n <? 62 then n - 4 else if n =? 62 then 43 else 47)%N.

Definition base64_value (c : N) : option N :=
  if is_upper c then Some (c - 65)%N else if is_lower c then Some (c - 71)%N else if is_digit c then Some (c + 4)%N
  else if (c =? 43)%N then Some 62%N else if (c =? 47)%N then Some 63%N else None.

Fixpoint base64_encode (bytes : list N) : ustring :=
  match bytes with
  | [] => []
  | [a] => [base64_digit (a / 4); base64_digit ((a mod 4) * 16); 61; 61]
  | [a; b] => [base64_digit (a / 4); base64_digit ((a mod 4) * 16 + b / 16); base64_digit ((b mod 16) * 4); 61]
  | a :: b :: c :: rest =>
      [base64_digit (a / 4); base64_digit ((a mod 4) * 16 + b / 16); base64_digit ((b mod 16) * 4 + c / 64); base64_digit (c mod 64)] ++ base64_encode rest
  end%N.

(** The bytes of a text of digits. What is not the text [base64_encode] writes is refused
    by its user, whatever it stands for. *)
Fixpoint base64_bytes (digits : list N) : list N :=
  match digits with
  | a :: b :: c :: d :: rest => [a * 4 + b / 16; (b mod 16) * 16 + c / 4; (c mod 4) * 64 + d] ++ base64_bytes rest
  | [a; b; c] => [a * 4 + b / 16; (b mod 16) * 16 + c / 4]
  | [a; b] => [a * 4 + b / 16]
  | _ => []
  end%N.

Definition base64_decode (s : ustring) : list N := base64_bytes (omap base64_value s).

(** [/^[A-Za-z0-9+/]*={0,2}$/] *)
Fixpoint base64_shape (s : ustring) : bool :=
  match s with
  | [] => true
  | c :: s' => if (c =? 61)%N then match s' with [] => true | [d] => (d =? 61)%N | _ => false end
               else bool_decide (is_Some (base64_value c)) && base64_shape s'
  end.

(** [buffer.toString('utf8')]: a maximal beginning of a sequence that is not one is
    replaced by U+FFFD. *)
Definition replacement : N := 0xfffd.

(** How many continuation bytes follow a first byte, and the range of the first. *)
Definition utf8_lead (b : N) : option (nat * (N * N)) :=
  if between 0xc2 0xdf b then Some (1%nat, (0x80, 0xbf)%N)
  else if between 0xe0 0xef b then Some (2%nat, (if b =? 0xe0 then 0xa0 else 0x80, if b =? 0xed then 0x9f else 0xbf)%N)
  else if between 0xf0 0xf4 b then Some (3%nat, (if b =? 0xf0 then 0x90 else 0x80, if b =? 0xf4 then 0x8f else 0xbf)%N)
  else None.

(** [pending]: the bytes still due, the range of the next, and the value so far. *)
Fixpoint utf8_lenient (pending : option (nat * (N * N) * N)) (bs : list N) : list N :=
  match bs with
  | [] => match pending with Some _ => [replacement] | None => [] end
  | b :: bs' =>
      let first :=
        if (b <? 0x80)%N then b :: utf8_lenient None bs'
        else match utf8_lead b with
             | Some (n, range) => utf8_lenient (Some (n, range, b mod (if (n =? 1)%nat then 32 else if (n =? 2)%nat then 16 else 8))%N) bs'
             | None => replacement :: utf8_lenient None bs'
             end in
      match pending with
      | None => first
      | Some (n, range, acc) =>
          if between range.1 range.2 b then
            let acc' := (acc * 64 + b mod 64)%N in
            match n with
            | S (S _ as n') => utf8_lenient (Some (n', (0x80, 0xbf)%N, acc')) bs'
            | _ => acc' :: utf8_lenient None bs'
            end
          else replacement :: first
      end
  end.

Definition buffer_text (bs : list N) : ustring := concat (map fromCodePoint (utf8_lenient None bs)).

(** ** Bounds *)

Definition REPRODUCTION_MAX_BYTES : N := 8388608.
Definition REPRODUCTION_MAX_DEPTH : nat := 32.
Definition REPRODUCTION_MAX_NODES : N := 100000.
Definition string_bytes : N := 65536.
Definition base64_text_bytes : N := 349528.
Definition member_limit : N := 256.
Definition element_limit : N := 4096.

Definition bytes_of_key (key : ustring) : N := if bool_decide (key = $"base64") then base64_text_bytes else string_bytes.

(** ** The scanner *)

(** [raw.slice(i)] and [nodes]. *)
Record raw_state := RawState { rw_rest : ustring; rw_nodes : N }.
Abbreviation raw_scanner A := (stres raw_state thrown A).

Definition raw_fail {A} (code message : string) : raw_scanner A := fun _ => bundle_fail code message.
Definition raw_fail_text {A} (code : string) (message : ustring) : raw_scanner A := fun _ => bundle_fail_text code message.
Definition raw_look : raw_scanner (option N) := fun s => Ok (head (rw_rest s), s).
Definition raw_take (n : nat) : raw_scanner unit := fun s => Ok (tt, RawState (drop n (rw_rest s)) (rw_nodes s)).
Definition raw_ws : raw_scanner unit := fun s => raw_take (ws_length (rw_rest s)) s.

(** The units of a string token up to and with its closing quote. *)
Fixpoint raw_token_length (escaped : bool) (t : ustring) : res thrown nat :=
  match t with
  | [] => bundle_fail "bundle_json_invalid" "unterminated string"
  | c :: t' =>
      if escaped then S <$> raw_token_length false t'
      else if (c =? 0x5c)%N then S <$> raw_token_length true t'
      else if (c =? 0x22)%N then Ok 1%nat
      else if (c <? 0x20)%N then bundle_fail "bundle_json_invalid" "control character in string"
      else S <$> raw_token_length false t'
  end.

Definition stringToken (maxBytes : N) : raw_scanner ustring := fun s =>
  match rw_rest s with
  | 0x22%N :: t =>
      n ← raw_token_length false t;
      v ← other (JSON_parse (take (S n) (rw_rest s)));
      match v with
      | JStr key =>
          _ ← bundle_require (negb (maxBytes <? byteLength key)%N) "bundle_string_too_large" "string exceeds limit";
          Ok (key, RawState (drop (S n) (rw_rest s)) (rw_nodes s))
      | _ => Err (TOther (Exn XSyntax []))
      end
  | _ => bundle_fail "bundle_json_invalid" "expected JSON string"
  end.

Definition raw_scalar_length (t : ustring) : option nat :=
  if bool_decide (take 4 t = $"true") then Some 4%nat
  else if bool_decide (take 5 t = $"false") then Some 5%nat
  else if bool_decide (take 4 t = $"null") then Some 4%nat
  else fst <$> number_match t.

Definition raw_scalar : raw_scanner unit := fun s =>
  match raw_scalar_length (rw_rest s) with
  | None => bundle_fail "bundle_json_invalid" "invalid JSON value"
  | Some n => raw_take n s
  end.

Definition raw_expect (c : N) (message : string) : raw_scanner unit :=
  u ← raw_look; _ ← raw_take 1; if bool_decide (u = Some c) then mret tt else raw_fail "bundle_json_invalid" message.

(** The loop over the members; [fuel] is more than the units that are left. *)
Fixpoint raw_members (fuel : nat) (child : N -> raw_scanner unit) (names : list ustring) : raw_scanner unit :=
  match fuel with
  | O => fun _ => Err (TOther (Exn XFuel []))
  | S fuel' =>
      key ← stringToken string_bytes;
      if bool_decide (key ∈ names) then raw_fail_text "bundle_duplicate_key" ($"duplicate key " ++ key)
      else
        let names' := key :: names in
        if (member_limit <? N.of_nat (length names'))%N then raw_fail "bundle_structure_limit" "object exceeds member limit"
        else
          _ ← raw_ws; _ ← raw_expect 0x3a "missing colon";
          _ ← child (bytes_of_key key);
          _ ← raw_ws;
          u ← raw_look;
          if bool_decide (u = Some 0x7d%N) then raw_take 1
          else _ ← raw_expect 0x2c "missing comma"; _ ← raw_ws; raw_members fuel' child names'
  end.

Fixpoint raw_elements (fuel : nat) (child : raw_scanner unit) (count : N) : raw_scanner unit :=
  match fuel with
  | O => fun _ => Err (TOther (Exn XFuel []))
  | S fuel' =>
      if (element_limit <? count + 1)%N then raw_fail "bundle_structure_limit" "array exceeds element limit"
      else
        _ ← child;
        _ ← raw_ws;
        u ← raw_look;
        if bool_decide (u = Some 0x5d%N) then raw_take 1
        else _ ← raw_expect 0x2c "missing comma"; _ ← raw_ws; raw_elements fuel' child (count + 1)
  end.

(** [depth_left]: one more than the nesting that is left. *)
Fixpoint raw_value (depth_left : nat) (maxStringBytes : N) : raw_scanner unit :=
  match depth_left with
  | O => raw_fail "bundle_structure_limit" "bundle structure exceeds limit"
  | S d => fun s0 =>
      let nodes' := (rw_nodes s0 + 1)%N in
      if (REPRODUCTION_MAX_NODES <? nodes')%N then bundle_fail "bundle_structure_limit" "bundle structure exceeds limit"
      else
        (_ ← raw_ws;
         u ← raw_look;
         if bool_decide (u = Some 0x7b%N) then
           _ ← raw_take 1; _ ← raw_ws; u2 ← raw_look;
           if bool_decide (u2 = Some 0x7d%N) then raw_take 1
           else fun s => raw_members (S (length (rw_rest s))) (raw_value d) [] s
         else if bool_decide (u = Some 0x5b%N) then
           _ ← raw_take 1; _ ← raw_ws; u2 ← raw_look;
           if bool_decide (u2 = Some 0x5d%N) then raw_take 1
           else fun s => raw_elements (S (length (rw_rest s))) (raw_value d string_bytes) 0 s
         else if bool_decide (u = Some 0x22%N) then _ ← stringToken maxStringBytes; mret tt
         else raw_scalar) (RawState (rw_rest s0) nodes')
  end.

Definition preflightJson (raw : ustring) : res thrown unit :=
  _ ← bundle_require (negb (REPRODUCTION_MAX_BYTES <? byteLength raw)%N) "bundle_too_large" "bundle exceeds byte limit";
  end_state ← snd <$> (_ ← raw_value (S REPRODUCTION_MAX_DEPTH) string_bytes; raw_ws) (RawState raw 0);
  bundle_require (match rw_rest end_state with [] => true | _ => false end) "bundle_json_invalid" "trailing JSON content".

Inductive raw_input := RawText (text : ustring) | RawBytes (bytes : list N).

Definition parseBoundedJsonValue (raw : raw_input) : res thrown js :=
  text ← match raw with
         | RawText t => Ok t
         | RawBytes bs => match text_decode bs with Some t => Ok t | None => bundle_fail "bundle_utf8_invalid" "bundle is not valid UTF-8" end
         end;
  _ ← preflightJson text;
  match JSON_parse text with Ok v => Ok v | Err _ => bundle_fail "bundle_json_invalid" "invalid JSON" end.

(** ** The bound on a value *)

Definition FORBIDDEN_KEYS : list ustring :=
  map lit ["script"; "command"; "module"; "entryPoint"; "dependency"; "url"; "authorization"; "cookie"; "password"; "secret"; "token";
           "privateKey"; "accessKey"; "secretKey"; "connectionString"]%string.

(** [text]: a string within its bytes and of its pattern. *)
Definition text_value (where_ : string) (pattern : ustring -> bool) (maxBytes : N) (v : js) : res thrown ustring :=
  match v with
  | JStr s => if negb (maxBytes <? byteLength s)%N && pattern s then Ok s else bundle_fail_text "bundle_schema_invalid" (lit where_ ++ $" is invalid")
  | _ => bundle_fail_text "bundle_schema_invalid" (lit where_ ++ $" is invalid")
  end.

Definition any_text (s : ustring) : bool := true.

Fixpoint graph_visit (depth_left : nat) (maxStringBytes : N) (item : js) : stres N thrown unit := fun nodes =>
  let nodes' := (nodes + 1)%N in
  match depth_left with
  | O => bundle_fail "bundle_structure_limit" "structure exceeds limit"
  | S d =>
      if (REPRODUCTION_MAX_NODES <? nodes')%N then bundle_fail "bundle_structure_limit" "structure exceeds limit"
      else match item with
           | JStr _ => _ ← text_value "string" any_text maxStringBytes item; Ok (tt, nodes')
           | JNull | JNum _ | JBool _ => Ok (tt, nodes')
           | JUndef | JBig _ => bundle_fail "bundle_non_json" "non-JSON value"
           | JArr l =>
               if (element_limit <? N.of_nat (length l))%N then bundle_fail "bundle_structure_limit" "array exceeds limit"
               else (_ ← mapMi (fun _ => graph_visit d string_bytes) l; mret tt) nodes'
           | JObj o =>
               if (member_limit <? N.of_nat (length o))%N then bundle_fail "bundle_structure_limit" "object exceeds limit"
               else (_ ← mapMi (fun _ e =>
                       if bool_decide (e.1 ∈ FORBIDDEN_KEYS) then liftR (bundle_fail_text "bundle_ambient_authority" ($"forbidden field " ++ e.1))
                       else graph_visit d (bytes_of_key e.1) e.2) o; mret tt) nodes'
           end
  end.

Definition boundedGraph (value : js) : res thrown unit := fst <$> graph_visit (S REPRODUCTION_MAX_DEPTH) string_bytes value 0%N.
