(* ===== verification/Bundle.v ===== *)
(** * Reproduction bundles

    [src/src/reproduction-bundle.ts]: the validators of a bundle, its text and digest,
    the capture of a failure, the preflight of a bundle, its replay and the public
    summary.

    A bundle is the [js] value that was validated; the source's frozen clone of it has
    the same properties in the same order. [Date.parse] is the parameter [date_parses],
    the hash the parameter [sha256]. What the evaluator's callbacks do, the signal and
    the timers are inputs ([race], [reading]); the calls it receives are logged. *)

From S2P Require Import Prelude JsNumber Utf16 JsData StrictJson Decode JsText Descriptor Transport Reproduction BundleText.

(** ** Helpers of the validators *)

Definition record_value (where_ : string) (v : js) : res thrown object_t :=
  match v with JObj o => Ok o | _ => bundle_fail_text "bundle_schema_invalid" (lit where_ ++ $" must be an object") end.

Definition own_data (o : object_t) (key : string) : res thrown js :=
  if has_own o (lit key) then Ok (getf o (lit key)) else bundle_fail_text "bundle_non_data_property" (lit key ++ $" must be a data property").

Definition exact_fields (o : object_t) (names : list string) (where_ : string) : res thrown unit :=
  if bool_decide (sort_by compare_lists (keys o) = sort_by compare_lists (map lit names)) then Ok tt
  else bundle_fail_text "bundle_schema_invalid" (lit where_ ++ $" has unknown or missing fields").

Definition text_field (o : object_t) (key where_ : string) (pattern : ustring -> bool) : res thrown ustring :=
  v ← own_data o key; text_value where_ pattern string_bytes v.

Definition integer_value (where_ : string) (min max : Z) (v : js) : res thrown Z :=
  match v with
  | JNum x =>
      match num_safe_Z x with
      | Some z => if ((min <=? z) && (z <=? max))%Z then Ok z else bundle_fail_text "bundle_schema_invalid" (lit where_ ++ $" is invalid")
      | None => bundle_fail_text "bundle_schema_invalid" (lit where_ ++ $" is invalid")
      end
  | _ => bundle_fail_text "bundle_schema_invalid" (lit where_ ++ $" is invalid")
  end.

Definition integer_field (o : object_t) (key where_ : string) (min max : Z) : res thrown Z :=
  v ← own_data o key; integer_value where_ min max v.

Definition record_field (o : object_t) (key where_ : string) : res thrown object_t :=
  v ← own_data o key; record_value where_ v.

Definition no_repeats (l : list ustring) : bool := bool_decide (NoDup l).

(** [path.split("/")] *)
Fixpoint split_slash (s : ustring) : list ustring :=
  match s with
  | [] => [[]]
  | c :: s' =>
      match split_slash s' with
      | part :: rest => if (c =? 0x2f)%N then [] :: part :: rest else (c :: part) :: rest
      | [] => []
      end
  end.

Definition logical_path (path : ustring) : bool :=
  negb (prefixed ($"/") path) && negb (contains [0x5c%N] path) &&
  forallb (fun p => negb (bool_decide (p ∈ [$"."; $".."; []]))) (split_slash path).

(** [/^(?:https:\/\/|urn:)[^\s]+$/] *)
Definition immutable_uri (u : ustring) : bool :=
  let rest n := match drop n u with [] => false | l => forallb (fun c => negb (is_space c)) l end in
  prefixed ($"https://") u && rest 8%nat || prefixed ($"urn:") u && rest 4%nat.

Definition stage_names : list string := ["registration"; "factory"; "action"; "receive"; "cleanup"]%string.

(** The calls the evaluator receives. *)
Inductive evaluator_call := CallLinks (links : js) | CallCompatibility | CallResolve (reference : object_t) | CallEvaluate.

Abbreviation evaluating := (method (list evaluator_call) thrown).

(** A callback raced against its timer and the signal: the signal came before it was
    called; it returned; it threw; the timer fired; the signal came while it ran. *)
Inductive race (A : Type) := RaceRefused | RaceValue (a : A) | RaceThrow (e : thrown) | RaceTimeout | RaceCancelled.
Arguments RaceRefused {A}.
Arguments RaceValue {A} a.
Arguments RaceThrow {A} e.
Arguments RaceTimeout {A}.
Arguments RaceCancelled {A}.

Section bundle.
Context (number_text : number -> ustring) (sha256 : list N -> ustring) (date_parses : ustring -> bool).

(** [names.includes(String(v))] *)
Definition string_in (names : list string) (v : js) : res thrown bool :=
  t ← other (template_text number_text v); mret (bool_decide (t ∈ map lit names)).

(** [String(item.key)] of a validated item. *)
Definition string_of_field (key : string) (item : js) : res thrown ustring :=
  match item with JObj o => other (template_text number_text (getf o (lit key))) | _ => Ok ($"undefined") end.

(** ** Evidence links *)

Definition validateRunRef (value : js) : res thrown unit :=
  r ← record_value "runRef" value;
  _ ← exact_fields r ["schemaVersion"; "runId"; "envelopeSha256"; "projectionKind"]%string "runRef";
  version ← own_data r "schemaVersion";
  projection ← own_data r "projectionKind";
  _ ← bundle_require (is_str version "mirrors.evidence-envelope/v1.0" && is_str projection "private" ||
                      is_str version "mirrors.evidence-public-summary/v1.0" && is_str projection "public")
        "evidence_ref_invalid" "runRef projection mismatch";
  _ ← text_field r "runId" "runId" opaque_id;
  _ ← text_field r "envelopeSha256" "envelopeSha256" is_sha256;
  mret tt.

Definition validateComponentRef (value : js) : res thrown unit :=
  r ← record_value "componentRef" value;
  dirty ← own_data r "dirty";
  _ ← exact_fields r (match dirty with
                      | JBool true => ["componentId"; "repository"; "revision"; "dirty"; "dirtyContent"]
                      | _ => ["componentId"; "repository"; "revision"; "dirty"]
                      end)%string "componentRef";
  _ ← text_field r "componentId" "componentId" opaque_id;
  _ ← text_field r "repository" "repository" any_text;
  _ ← text_field r "revision" "revision" is_git_revision;
  bundle_require (match dirty with JBool _ => true | _ => false end) "evidence_ref_invalid" "component dirty flag invalid".

Definition validate_location (value : js) : res thrown unit :=
  location ← record_value "artifact location" value;
  kind ← own_data location "kind";
  if is_str kind "bundle" then
    _ ← exact_fields location ["kind"; "path"]%string "bundle location";
    path ← text_field location "path" "logical path" any_text;
    bundle_require (logical_path path) "evidence_ref_invalid" "logical path invalid"
  else if is_str kind "external" then
    _ ← exact_fields location ["kind"; "immutableUri"]%string "external location";
    uri ← text_field location "immutableUri" "immutableUri" any_text;
    bundle_require (immutable_uri uri) "evidence_ref_invalid" "immutable URI invalid"
  else bundle_fail "evidence_ref_invalid" "artifact location invalid".

Definition validateArtifactRef (value : js) : res thrown unit :=
  r ← record_value "artifactRef" value;
  _ ← exact_fields r ["artifactId"; "mediaType"; "role"; "bytes"; "sha256"; "visibility"; "requirement"; "location"]%string "artifactRef";
  _ ← text_field r "artifactId" "artifactId" opaque_id;
  _ ← text_field r "mediaType" "mediaType" any_text;
  role ← own_data r "role";
  known ← string_in ["command-log"; "cleanup-receipt"; "producer-result"; "diagnostic"; "reproduction-input"; "recovery-receipt"]%string role;
  _ ← bundle_require known "evidence_ref_invalid" "artifact role invalid";
  _ ← integer_field r "bytes" "artifact bytes" 0 67108864;
  _ ← text_field r "sha256" "artifact sha256" is_sha256;
  visibility ← own_data r "visibility";
  visible ← string_in ["public"; "private"]%string visibility;
  policy ← (if visible : bool then requirement ← own_data r "requirement"; string_in ["required"; "optional"]%string requirement else Ok false);
  _ ← bundle_require policy "evidence_ref_invalid" "artifact policy invalid";
  location ← own_data r "location";
  validate_location location.

Definition validateCatalogRef (value : js) : res thrown unit :=
  r ← record_value "catalogSelectionRef" value;
  _ ← exact_fields r ["schemaVersion"; "selectionKind"; "selectionValue"]%string "catalogSelectionRef";
  version ← own_data r "schemaVersion";
  _ ← bundle_require (is_str version "mirrors.framework-catalog/v1") "catalog_ref_invalid" "catalog schema mismatch";
  kind ← own_data r "selectionKind";
  selected ← text_field r "selectionValue" "selectionValue" any_text;
  bundle_require (is_str kind "sha256" && is_sha256 selected || is_str kind "git-revision" && is_git_revision selected)
    "catalog_ref_invalid" "catalog selection invalid".

Definition validateEvidenceRunReference (value : js) : res thrown js := _ ← validateRunRef value; mret value.

Definition validateEvidenceArtifactReferences (value : js) : res thrown js :=
  match value with
  | JArr l =>
      if (128 <? length l)%nat then bundle_fail "evidence_ref_invalid" "artifact references invalid"
      else
        _ ← mapM validateArtifactRef l;
        ids ← mapM (string_of_field "artifactId") l;
        _ ← bundle_require (no_repeats ids) "evidence_ref_invalid" "duplicate artifact identity";
        mret value
  | _ => bundle_fail "evidence_ref_invalid" "artifact references invalid"
  end.

Definition validateCatalogSelectionReference (value : js) : res thrown js := _ ← validateCatalogRef value; mret value.

(** ** Identities, signature, captures, handling *)

Definition validateIdentities (value : js) : res thrown unit :=
  ids ← record_value "identities" value;
  _ ← exact_fields ids ["suite"; "model"; "corpus"; "generatedInterface"; "implementation"; "executionProfile"]%string "identities";
  suite ← record_field ids "suite" "suite";
  _ ← exact_fields suite ["id"; "definitionSha256"]%string "suite";
  _ ← text_field suite "id" "suite id" stable_id;
  _ ← text_field suite "definitionSha256" "suite digest" is_sha256;
  model ← record_field ids "model" "model";
  _ ← exact_fields model ["sourceClosureSha256"]%string "model";
  _ ← text_field model "sourceClosureSha256" "model digest" is_sha256;
  corpus ← record_field ids "corpus" "corpus";
  _ ← exact_fields corpus ["orderedOccurrencesSha256"; "traceCount"]%string "corpus";
  _ ← text_field corpus "orderedOccurrencesSha256" "corpus digest" is_sha256;
  _ ← integer_field corpus "traceCount" "trace count" 1 4096;
  generated ← record_field ids "generatedInterface" "generatedInterface";
  _ ← exact_fields generated ["semanticDigest"; "moduleSha256"; "targetProfile"; "stateComputerContractVersion"]%string "generatedInterface";
  _ ← text_field generated "semanticDigest" "semanticDigest" is_sha256;
  _ ← text_field generated "moduleSha256" "moduleSha256" is_sha256;
  _ ← text_field generated "targetProfile" "targetProfile" stable_id;
  _ ← text_field generated "stateComputerContractVersion" "computer contract" stable_id;
  implementation ← record_field ids "implementation" "implementation";
  _ ← exact_fields implementation ["admissionId"; "closureSha256"]%string "implementation";
  _ ← text_field implementation "admissionId" "admissionId" stable_id;
  _ ← text_field implementation "closureSha256" "implementation digest" is_sha256;
  profile ← record_field ids "executionProfile" "executionProfile";
  _ ← exact_fields profile ["id"; "sha256"]%string "executionProfile";
  _ ← text_field profile "id" "profile id" stable_id;
  _ ← text_field profile "sha256" "profile digest" is_sha256;
  mret tt.

Fixpoint requirement_texts (i : N) (l : list js) : res thrown (list ustring) :=
  match l with
  | [] => Ok []
  | v :: l' =>
      t ← match v with
          | JStr s => if negb (string_bytes <? byteLength s)%N && stable_id s then Ok s
                      else bundle_fail_text "bundle_schema_invalid" ($"requirement " ++ dec_of_N i ++ $" is invalid")
          | _ => bundle_fail_text "bundle_schema_invalid" ($"requirement " ++ dec_of_N i ++ $" is invalid")
          end;
      rest ← requirement_texts (i + 1) l'; mret (t :: rest)
  end.

Definition validate_cleanup (value : js) : res thrown bool :=
  cleanup ← record_value "cleanup" value;
  status ← own_data cleanup "status";
  if is_str status "succeeded" then _ ← exact_fields cleanup ["status"]%string "cleanup"; mret true
  else if is_str status "failed" || is_str status "unconfirmed" then
    _ ← exact_fields cleanup ["status"; "code"]%string "cleanup";
    _ ← text_field cleanup "code" "cleanup code" stable_id; mret false
  else bundle_fail "signature_invalid" "cleanup status invalid".

Definition validate_primary (value : js) : res thrown unit :=
  primary ← record_value "primary" value;
  kind ← own_data primary "kind";
  if is_str kind "behavioral_mismatch" then
    _ ← exact_fields primary ["kind"; "code"; "traceIndex"; "stateIndex"; "action"]%string "mismatch";
    code ← own_data primary "code";
    _ ← bundle_require (is_str code "replay_mismatch") "signature_invalid" "mismatch code invalid";
    _ ← integer_field primary "traceIndex" "traceIndex" 0 MAX_SAFE_INTEGER;
    _ ← integer_field primary "stateIndex" "stateIndex" 0 MAX_SAFE_INTEGER;
    _ ← text_field primary "action" "action" stable_id; mret tt
  else if is_str kind "timeout" then
    _ ← exact_fields primary ["kind"; "stage"; "budgetMs"]%string "timeout";
    stage ← own_data primary "stage"; known ← string_in stage_names stage;
    _ ← bundle_require known "signature_invalid" "timeout stage invalid";
    _ ← integer_field primary "budgetMs" "budgetMs" 1 0x7fffffff; mret tt
  else if is_str kind "execution_error" then
    _ ← exact_fields primary ["kind"; "origin"; "stage"; "code"]%string "execution error";
    origin ← own_data primary "origin"; known_origin ← string_in ["observer"; "implementation"]%string origin;
    known ← (if known_origin : bool then stage ← own_data primary "stage"; string_in ["factory"; "action"; "observation"]%string stage else Ok false);
    _ ← bundle_require known "signature_invalid" "execution error invalid";
    _ ← text_field primary "code" "code" stable_id; mret tt
  else if is_str kind "codec_error" then
    _ ← exact_fields primary ["kind"; "stage"; "code"]%string "codec error";
    stage ← own_data primary "stage"; known ← string_in ["input"; "observation"; "protocol"]%string stage;
    _ ← bundle_require known "signature_invalid" "codec stage invalid";
    _ ← text_field primary "code" "code" stable_id; mret tt
  else if is_str kind "coverage_unmet" then
    _ ← exact_fields primary ["kind"; "requirements"]%string "coverage";
    requirements ← own_data primary "requirements";
    l ← match requirements with
        | JArr l => if ((1 <=? length l) && (length l <=? 128))%nat then Ok l else bundle_fail "signature_invalid" "requirements invalid"
        | _ => bundle_fail "signature_invalid" "requirements invalid"
        end;
    values ← requirement_texts 0 l;
    bundle_require (no_repeats values && bool_decide (values = sort_by compare_lists values)) "signature_invalid" "requirements not sorted and unique"
  else if is_str kind "cancellation" then
    _ ← exact_fields primary ["kind"; "stage"; "code"]%string "cancellation";
    stage ← own_data primary "stage"; known ← string_in stage_names stage;
    _ ← bundle_require known "signature_invalid" "cancellation stage invalid";
    _ ← text_field primary "code" "code" stable_id; mret tt
  else bundle_fail "signature_invalid" "unknown primary signature".

Definition validateSignature (value : js) : res thrown unit :=
  s ← record_value "signature" value;
  _ ← exact_fields s ["primary"; "cleanup"]%string "signature";
  cleanup ← own_data s "cleanup";
  validate_cleanup cleanup ≫= fun succeeded : bool =>
  p ← own_data s "primary";
  match p with
  | JNull => bundle_require (negb succeeded) "signature_invalid" "cleanup-only signature cannot succeed"
  | _ => validate_primary p
  end.

Definition REPRODUCTION_MAX_INLINE_BYTES : Z := 262144.
Definition REPRODUCTION_MAX_TOTAL_INLINE_BYTES : Z := 1048576.

(** The bytes of an inline capture; [None]: it is external. *)
Definition validateCapture (value : js) : res thrown (option Z) :=
  c ← record_value "capture" value;
  _ ← text_field c "role" "capture role" stable_id;
  kind ← own_data c "kind";
  if is_str kind "inline" then
    _ ← exact_fields c ["role"; "kind"; "mediaType"; "bytes"; "sha256"; "base64"]%string "inline capture";
    media ← text_field c "mediaType" "mediaType" any_text;
    bytes ← integer_field c "bytes" "bytes" 0 REPRODUCTION_MAX_INLINE_BYTES;
    expected ← text_field c "sha256" "sha256" is_sha256;
    encoded_value ← own_data c "base64";
    encoded ← text_value "base64" any_text base64_text_bytes encoded_value;
    _ ← bundle_require (base64_shape encoded) "capture_invalid" "base64 invalid";
    let decoded := base64_decode encoded in
    _ ← bundle_require (bool_decide (Z.of_nat (length decoded) = bytes) && bool_decide (base64_encode decoded = encoded) &&
          bool_decide (sha256 decoded = expected)) "capture_digest_mismatch" "inline capture identity mismatch";
    _ ← bundle_require (negb (bool_decide (media = $"text/plain") && credential_text (buffer_text decoded)))
          "capture_credentials_forbidden" "credential content rejected";
    mret (Some bytes)
  else if is_str kind "external" then
    _ ← exact_fields c ["role"; "kind"; "type"; "sha256"; "resolver"]%string "external capture";
    type ← text_field c "type" "external type" stable_id;
    _ ← bundle_require (bool_decide (type = $"evidence-blob/v1")) "external_type_unsupported" "external type unsupported";
    _ ← text_field c "sha256" "external digest" is_sha256;
    _ ← text_field c "resolver" "resolver" stable_id;
    mret None
  else bundle_fail "capture_invalid" "unknown capture kind".

Definition validateHandling (value : js) : res thrown unit :=
  h ← record_value "handling" value;
  _ ← exact_fields h ["consentPolicyId"; "redactionProfileId"; "accessPolicyId"; "retentionUntil"; "deletionPolicyId"]%string "handling";
  _ ← mapM (fun key => text_field h key key stable_id) ["consentPolicyId"; "redactionProfileId"; "accessPolicyId"; "deletionPolicyId"]%string;
  until ← text_field h "retentionUntil" "retentionUntil" any_text;
  bundle_require (date_parses until) "bundle_schema_invalid" "retentionUntil invalid".

Definition REPRODUCTION_BUNDLE_SCHEMA : string := "mirrorecma.reproduction-bundle/v1".

Definition validate_links (value : js) : res thrown unit :=
  links ← record_value "evidenceLinks" value;
  _ ← exact_fields links ["runRef"; "componentRefs"; "artifactRefs"; "catalogSelectionRef"]%string "evidenceLinks";
  runRef ← own_data links "runRef";
  _ ← validateRunRef runRef;
  components ← own_data links "componentRefs";
  l ← match components with
      | JArr l => if ((1 <=? length l) && (length l <=? 64))%nat then Ok l else bundle_fail "evidence_ref_invalid" "component references invalid"
      | _ => bundle_fail "evidence_ref_invalid" "component references invalid"
      end;
  _ ← mapM validateComponentRef l;
  componentIds ← mapM (string_of_field "componentId") l;
  _ ← bundle_require (no_repeats componentIds) "evidence_ref_invalid" "duplicate component identity";
  artifacts ← own_data links "artifactRefs";
  _ ← validateEvidenceArtifactReferences artifacts;
  catalog ← own_data links "catalogSelectionRef";
  validateCatalogRef catalog.

Definition inline_total (kinds : list (option Z)) : Z := foldr (fun k n => default 0%Z k + n)%Z 0%Z kinds.
Definition external_count (kinds : list (option Z)) : nat := length (List.filter (fun k => bool_decide (k = None)) kinds).

Definition validate_captures (value : js) : res thrown unit :=
  match value with
  | JArr l =>
      if ((1 <=? length l) && (length l <=? 128))%nat then
        kinds ← mapM validateCapture l;
        bundle_require ((inline_total kinds <=? REPRODUCTION_MAX_TOTAL_INLINE_BYTES)%Z && (external_count kinds <=? 64)%nat)
          "capture_limit" "capture aggregate limit exceeded"
      else bundle_fail "capture_invalid" "capture count invalid"
  | _ => bundle_fail "capture_invalid" "capture count invalid"
  end.

Definition validateReproductionBundle (value : js) : res thrown js :=
  _ ← boundedGraph value;
  b ← record_value "bundle" value;
  _ ← exact_fields b ["schema"; "evidenceLinks"; "identities"; "signature"; "captures"; "handling"]%string "bundle";
  schema ← own_data b "schema";
  _ ← bundle_require (is_str schema REPRODUCTION_BUNDLE_SCHEMA) "bundle_schema_unsupported" "unsupported reproduction schema";
  links ← own_data b "evidenceLinks";
  _ ← validate_links links;
  identities ← own_data b "identities";
  _ ← validateIdentities identities;
  signature ← own_data b "signature";
  _ ← validateSignature signature;
  captures ← own_data b "captures";
  _ ← validate_captures captures;
  handling ← own_data b "handling";
  _ ← validateHandling handling;
  mret value.

(** ** Text and digest *)

Definition decodeReproductionBundle (raw : raw_input) : res thrown js := v ← parseBoundedJsonValue raw; validateReproductionBundle v.

Definition canonical_text (v : js) : res thrown ustring := default ($"undefined") <$> other (canonical number_text v).

Definition encodeReproductionBundle (bundle : js) : res thrown ustring :=
  b ← validateReproductionBundle bundle; text ← canonical_text b; mret (text ++ [0x0a%N]).

Definition reproductionBundleSha256 (bundle : js) : res thrown ustring :=
  text ← encodeReproductionBundle bundle; mret (sha256 (utf8_bytes text)).

(** ** Capturing a failure *)

Record CaptureReproductionOptions := MkCaptureOptions {
  co_evidenceLinks : js;
  co_identities : js;
  co_captures : js;
  co_handling : js;
  co_normalization : SuiteNormalizationContext;
  co_persist : option (list N -> bool) }.

Inductive persistence := NotRequested | Written | PersistFailed.

Record ReproductionCapture := MkCapture { cp_bundle : js; cp_persistence : persistence; cp_suiteResult : SuiteResult }.

Definition bundle_js (evidenceLinks identities signature captures handling : js) : js :=
  JObj [($"schema", JStr (lit REPRODUCTION_BUNDLE_SCHEMA)); ($"evidenceLinks", evidenceLinks); ($"identities", identities);
        ($"signature", signature); ($"captures", captures); ($"handling", handling)].

Definition as_bundle_error {A} (r : res bundle_error A) : res thrown A := match r with Ok a => Ok a | Err e => Err (TBundle e) end.

(** [co_persist]: whether [persist] takes the bytes. *)
Definition captureReproduction (result : SuiteResult) (options : CaptureReproductionOptions) : res thrown ReproductionCapture :=
  signature ← as_bundle_error (signatureFromSuiteResult result (co_normalization options));
  match signature with
  | None => bundle_fail "capture_requires_failure" "passing result cannot form failure bundle"
  | Some signature =>
      bundle ← validateReproductionBundle (bundle_js (co_evidenceLinks options) (co_identities options) (signature_js signature)
                 (co_captures options) (co_handling options));
      let persistence :=
        match co_persist options with
        | None => NotRequested
        | Some persist =>
            match encodeReproductionBundle bundle with
            | Ok text => if persist (utf8_bytes text) then Written else PersistFailed
            | Err _ => PersistFailed
            end
        end in
      mret (MkCapture bundle persistence result)
  end.

(** ** Preflight *)

(** Where the signal is read. *)
Inductive reading := AfterDecode | AfterLinks | BeforeCapture (index : nat) | BeforeEvaluate.

Record ExternalResolutionLimits := MkResolutionLimits { el_perReferenceBytes : number; el_aggregateBytes : number; el_resolutionMs : number }.

Definition DEFAULT_EXTERNAL_LIMITS : ExternalResolutionLimits :=
  MkResolutionLimits (num_of_Z 8388608) (num_of_Z 67108864) (num_of_Z 10000).

Record ReproductionPreflightOptions := MkPreflightOptions {
  po_expectedIdentities : js;
  po_expectedCatalogSelection : js;
  po_validateEvidenceLinks : race unit;
  po_admittedResolvers : list ustring;
  po_resolveExternal : nat -> object_t -> race (list N);
  po_externalLimits : ExternalResolutionLimits;
  po_validationMs : number;
  po_validateCompatibility : option (race unit);
  po_aborted : reading -> bool }.



Definition refusal (code message : string) : thrown := TRefusal (BundleError (lit code) (lit message)).
Definition refuse {A} (code message : string) : evaluating A := throws (refusal code message).
Definition refuse_unless (b : bool) (code message : string) : evaluating unit := if b then mret tt else refuse code message.
Definition cancelled : thrown := refusal "preflight_cancelled" "reproduction preflight cancelled".
Definition unless_aborted (aborted : bool) : evaluating unit := when aborted (throws cancelled).
Definition evaluated {A} (r : res thrown A) : evaluating A := fun log => (r, log).
Definition note (c : evaluator_call) : evaluating unit := modify (fun log => log ++ [c]).

(** [boundedValidation] and [resolveBounded]: they differ in the error of the timer. *)
Definition bounded_call {A} (c : evaluator_call) (timeout : thrown) (r : race A) : evaluating A :=
  match r with
  | RaceRefused => throws cancelled
  | RaceValue a => _ ← note c; mret a
  | RaceThrow e => _ ← note c; throws e
  | RaceTimeout => _ ← note c; throws timeout
  | RaceCancelled => _ ← note c; throws cancelled
  end.

(** [catch]: a refusal is thrown again, anything else becomes one. *)
Definition as_refusal {A} (code message : string) (m : evaluating A) : evaluating A := fun log =>
  match m log with
  | (Err (TRefusal e), log') => (Err (TRefusal e), log')
  | (Err _, log') => (Err (refusal code message), log')
  | ok => ok
  end.

Definition positive_within (max : Z) (x : number) : bool :=
  match num_safe_Z x with Some z => ((1 <=? z) && (z <=? max))%Z | None => false end.

Definition limit_value (x : number) : Z := default 0%Z (num_safe_Z x).

Section preflight.
Context (options : ReproductionPreflightOptions).

Definition validation_timeout : thrown := refusal "preflight_validation_timeout" "reproduction validation callback timed out".
Definition resolution_timeout : thrown := refusal "external_reference_timeout" "external reference resolution timed out".

Fixpoint resolve_captures (index : nat) (total : Z) (captures : list js) : evaluating unit :=
  match captures with
  | [] => mret tt
  | JObj capture :: rest =>
      if is_str (getf capture ($"kind")) "external" then
        _ ← unless_aborted (po_aborted options (BeforeCapture index));
        _ ← refuse_unless (match getf capture ($"resolver") with JStr r => bool_decide (r ∈ po_admittedResolvers options) | _ => false end)
              "resolver_not_admitted" "external resolver is not admitted";
        bytes ← as_refusal "external_reference_unavailable" "external reference could not be resolved"
                  (bounded_call (CallResolve capture) resolution_timeout (po_resolveExternal options index capture));
        let size := Z.of_nat (length bytes) in
        let total' := (total + size)%Z in
        _ ← refuse_unless ((size <=? limit_value (el_perReferenceBytes (po_externalLimits options))) &&
                           (total' <=? limit_value (el_aggregateBytes (po_externalLimits options))))%Z
              "external_reference_too_large" "external reference exceeds byte limits";
        _ ← refuse_unless (match getf capture ($"sha256") with JStr d => bool_decide (sha256 bytes = d) | _ => false end)
              "external_digest_mismatch" "external reference digest mismatch";
        resolve_captures (S index) total' rest
      else resolve_captures (S index) total rest
  | _ :: rest => resolve_captures (S index) total rest
  end.

Definition field_of (v : js) (k : string) : js := match v with JObj o => getf o (lit k) | _ => JUndef end.
Definition elements_of (v : js) : list js := match v with JArr l => l | _ => [] end.

(** A bundle, or its text. *)
Inductive bundle_input := FromValue (bundle : js) | Raw (raw : raw_input).

Definition admit_bundle (input : bundle_input) : res thrown js :=
  match match input with Raw raw => decodeReproductionBundle raw | FromValue bundle => validateReproductionBundle bundle end with
  | Err (TBundle e) => Err (TRefusal e)
  | r => r
  end.

Definition preflightReproduction (input : bundle_input) : evaluating js :=
  bundle ← evaluated (admit_bundle input);
  _ ← unless_aborted (po_aborted options AfterDecode);
  identities ← evaluated (canonical_text (field_of bundle "identities"));
  expected ← evaluated (canonical_text (po_expectedIdentities options));
  _ ← refuse_unless (bool_decide (identities = expected)) "identity_mismatch" "reproduction identities do not match evaluator authority";
  let links := field_of bundle "evidenceLinks" in
  catalog ← evaluated (canonical_text (field_of links "catalogSelectionRef"));
  expectedCatalog ← evaluated (canonical_text (po_expectedCatalogSelection options));
  _ ← refuse_unless (bool_decide (catalog = expectedCatalog)) "catalog_mismatch" "catalog selection does not match evaluator authority";
  _ ← refuse_unless (positive_within 0x7fffffff (po_validationMs options)) "preflight_limits_invalid" "preflight validation deadline invalid";
  _ ← as_refusal "compatibility_refused" "evidence or compatibility authority refused bundle"
        (_ ← bounded_call (CallLinks links) validation_timeout (po_validateEvidenceLinks options);
         _ ← unless_aborted (po_aborted options AfterLinks);
         match po_validateCompatibility options with
         | None => mret tt
         | Some r => bounded_call CallCompatibility validation_timeout r
         end);
  let limits := po_externalLimits options in
  _ ← refuse_unless (positive_within 67108864 (el_perReferenceBytes limits) && positive_within 67108864 (el_aggregateBytes limits) &&
                     positive_within 0x7fffffff (el_resolutionMs limits)) "external_limits_invalid" "external resolution limits invalid";
  _ ← resolve_captures 0 0 (elements_of (field_of bundle "captures"));
  mret bundle.

(** ** Replay *)

Record bundle_replay := MkBundleReplay {
  br_status : replay_status;
  br_expected : js;
  br_observed : option ReproductionSignature;
  br_suiteResult : SuiteResult }.

(** [evaluate]: what the evaluator's run gives. *)
Definition replayReproduction (input : bundle_input) (normalization : SuiteNormalizationContext) (evaluate : res thrown SuiteResult)
    : evaluating bundle_replay :=
  bundle ← preflightReproduction input;
  _ ← when (po_aborted options BeforeEvaluate) (refuse "replay_cancelled" "replay cancelled before acquisition");
  _ ← note CallEvaluate;
  result ← evaluated evaluate;
  observed ← evaluated (as_bundle_error (signatureFromSuiteResult result normalization));
  let expected := field_of bundle "signature" in
  same ← evaluated (match observed with
                    | None => Ok false
                    | Some s => l ← canonical_text expected; r ← canonical_text (signature_js s); Ok (bool_decide (l = r))
                    end);
  mret (MkBundleReplay (if same : bool then Reproduced else NotReproduced) expected observed result).
End preflight.

(** ** Public summary *)

Record approved_data := MkApproved { ap_counts : option (list (ustring * ustring)); ap_hashes : option (list ustring) }.

(** A decimal without leading zeros. *)
Definition count_text (s : ustring) : bool :=
  match s with [c] => is_digit c | c :: rest => is_digit c && negb (c =? 0x30)%N && forallb is_digit rest | [] => false end.

Definition public_status (primary : js) : ustring :=
  match primary with
  | JNull => $"cleanup_failed"
  | _ =>
      let kind := field_of primary "kind" in
      if is_str kind "behavioral_mismatch" then $"mismatch" else if is_str kind "timeout" then $"timed_out"
      else if is_str kind "cancellation" then $"cancelled" else $"failed"
  end.

Definition private_canary : ustring := $"MIRRORS_PRIVATE_CANARY_".

Definition projectReproductionPublicSummary (bundle : js) (approved : approved_data) : res thrown js :=
  counts ← match ap_counts approved with
           | None => Ok []
           | Some entries =>
               if (length entries <=? 256)%nat && forallb (fun e => stable_id e.1 && count_text e.2) entries
               then Ok [($"approvedCounts", JObj (map (fun e => (e.1, JStr e.2)) entries))]
               else bundle_fail "public_projection_invalid" "approved counts invalid"
           end;
  hashes ← match ap_hashes approved with
           | None => Ok []
           | Some l =>
               if (length l <=? 64)%nat && no_repeats l && forallb is_sha256 l
               then Ok [($"approvedImplementationHashes", JArr (map JStr l))]
               else bundle_fail "public_projection_invalid" "approved hashes invalid"
           end;
  let signature := field_of bundle "signature" in
  let summary := JObj ([($"schema", JStr ($"mirrorecma.reproduction-public-summary/v1")); ($"runRef", field_of (field_of bundle "evidenceLinks") "runRef");
                        ($"status", JStr (public_status (field_of signature "primary"))); ($"cleanup", field_of (field_of signature "cleanup") "status")] ++
                       counts ++ hashes) in
  text ← other (stringify number_text summary);
  _ ← bundle_require (negb (contains private_canary (default [] text))) "public_projection_private_data" "private canary reached public summary";
  mret summary.
End bundle.

(** ** A concrete bundle *)

Definition sample_digest64 : ustring := repeat 0x61%N 64.
Definition sample_hash (bytes : list N) : ustring := sample_digest64.

(** A mismatch with an inline and an external capture. *)
Definition sample_bundle_signature : ReproductionSignature := Signature (Some (BehavioralMismatch 0 3 ($"Write"))) CleanupSucceeded.

Definition sample_identities : js :=
  let part l := JObj (map (fun e => (lit e.1, e.2)) l) in
  let id := JStr ($"lease-service") in
  let digest := JStr sample_digest64 in
  part [("suite", part [("id", id); ("definitionSha256", digest)]); ("model", part [("sourceClosureSha256", digest)]);
        ("corpus", part [("orderedOccurrencesSha256", digest); ("traceCount", JNum (num_of_Z 2))]);
        ("generatedInterface", part [("semanticDigest", digest); ("moduleSha256", digest); ("targetProfile", id); ("stateComputerContractVersion", id)]);
        ("implementation", part [("admissionId", id); ("closureSha256", digest)]); ("executionProfile", part [("id", id); ("sha256", digest)])]%string.

Definition sample_catalog : js :=
  JObj [($"schemaVersion", JStr ($"mirrors.framework-catalog/v1")); ($"selectionKind", JStr ($"sha256")); ($"selectionValue", JStr sample_digest64)].

Definition sample_links : js :=
  JObj [($"runRef", JObj [($"schemaVersion", JStr ($"mirrors.evidence-envelope/v1.0")); ($"runId", JStr ($"run:1"));
                          ($"envelopeSha256", JStr sample_digest64); ($"projectionKind", JStr ($"private"))]);
        ($"componentRefs", JArr [JObj [($"componentId", JStr ($"client")); ($"repository", JStr ($"mirrors")); ($"revision", JStr (repeat 0x61%N 40));
                                       ($"dirty", JBool false)]]);
        ($"artifactRefs", JArr []); ($"catalogSelectionRef", sample_catalog)].

Definition sample_captures : js :=
  JArr [JObj [($"role", JStr ($"stdout")); ($"kind", JStr ($"inline")); ($"mediaType", JStr ($"text/plain")); ($"bytes", JNum (num_of_Z 5));
              ($"sha256", JStr sample_digest64); ($"base64", JStr ($"aGVsbG8="))];
        JObj [($"role", JStr ($"trace")); ($"kind", JStr ($"external")); ($"type", JStr ($"evidence-blob/v1")); ($"sha256", JStr sample_digest64);
              ($"resolver", JStr ($"store"))]].

Definition sample_handling : js :=
  JObj (map (fun k => (lit k, JStr ($"policy"))) ["consentPolicyId"; "redactionProfileId"; "accessPolicyId"; "retentionUntil"; "deletionPolicyId"]%string).

Definition sample_bundle : js := bundle_js sample_links sample_identities (signature_js sample_bundle_signature) sample_captures sample_handling.

Definition no_number_text (x : number) : ustring := [].

Example sample_bundle_decodes :
  validateReproductionBundle no_number_text sample_hash (fun _ => true) sample_bundle = Ok sample_bundle /\
  base64_decode ($"aGVsbG8=") = $"hello" /\ credential_text ($"PassWords : x") = false /\ credential_text ($"a PassWord =x") = true /\
  match encodeReproductionBundle no_number_text sample_hash (fun _ => true) sample_bundle with
  | Ok text => match decodeReproductionBundle no_number_text sample_hash (fun _ => true) (RawText text) with
               | Ok b => encodeReproductionBundle no_number_text sample_hash (fun _ => true) b = Ok text
               | Err _ => False
               end
  | Err _ => False
  end.
Proof. vm_compute. repeat split. Qed.
