(* ===== verification/BundlePreflight.v ===== *)
(** * What a preflight has checked

    The log of the calls the evaluator receives ties the checks of
    [preflightReproduction] and [replayReproduction] to the calls they precede. *)

From S2P Require Import Prelude JsNumber Utf16 JsData StrictJson Decode JsText Descriptor Transport Reproduction BundleText Bundle.

Lemma evaluated_Ok {A} (r : res thrown A) log a log' : evaluated r log = (Ok a, log') <-> r = Ok a /\ log' = log.
Proof. unfold evaluated. naive_solver. Qed.

Lemma evaluated_bind {A B} (r : res thrown A) (f : A -> evaluating B) log :
  (evaluated r ≫= f) log = match r with Ok a => f a log | Err e => (Err e, log) end.
Proof. by destruct r. Qed.

Lemma unless_aborted_Ok b log u log' : unless_aborted b log = (Ok u, log') -> b = false /\ log' = log.
Proof. destruct b; [done|]. by intros [= _ <-]. Qed.

Lemma refuse_unless_Ok b c m log u log' : refuse_unless b c m log = (Ok u, log') -> b = true /\ log' = log.
Proof. destruct b; [|done]. by intros [= _ <-]. Qed.

Lemma as_refusal_Ok {A} c m (x : evaluating A) log a log' : as_refusal c m x log = (Ok a, log') <-> x log = (Ok a, log').
Proof. unfold as_refusal. destruct (x log) as [[v|[e|e|e]] l]; naive_solver. Qed.

Lemma bounded_call_Ok {A} c t (r : race A) log a log' : bounded_call c t r log = (Ok a, log') -> r = RaceValue a /\ log' = log ++ [c].
Proof. destruct r; try done. by intros [= -> <-]. Qed.

(** What a call that returned has established. *)
Ltac call_inv1 :=
  match goal with
  | H : (_ ≫= _) _ = (Ok _, _) |- _ => apply method_bind_Ok in H as (? & ? & ? & H)
  | H : evaluated _ _ = (Ok _, _) |- _ => apply evaluated_Ok in H as [? ->]
  | H : unless_aborted _ _ = (Ok _, _) |- _ => apply unless_aborted_Ok in H as [? ->]
  | H : refuse_unless _ _ _ _ = (Ok _, _) |- _ => apply refuse_unless_Ok in H as [? ->]
  | H : as_refusal _ _ _ _ = (Ok _, _) |- _ => apply as_refusal_Ok in H
  | H : bounded_call _ _ _ _ = (Ok _, _) |- _ => apply bounded_call_Ok in H as [? ->]
  end.
Ltac call_inv := repeat call_inv1.

Section preflight.
Context (number_text : number -> ustring) (sha256 : list N -> ustring) (date_parses : ustring -> bool).
Context (options : ReproductionPreflightOptions).

(** ** External captures *)

Definition external_of (capture : js) : option object_t :=
  match capture with JObj o => if is_str (getf o ($"kind")) "external" then Some o else None | _ => None end.

Definition externals (bundle : js) : list object_t := omap external_of (elements_of (field_of bundle "captures")).

(** The content an external reference stands for. *)
Definition resolves (reference : object_t) (bytes : list N) : Prop :=
  (exists index, po_resolveExternal options index reference = RaceValue bytes) /\
  (exists resolver, getf reference ($"resolver") = JStr resolver /\ resolver ∈ po_admittedResolvers options) /\
  getf reference ($"sha256") = JStr (sha256 bytes) /\
  (Z.of_nat (length bytes) <= limit_value (el_perReferenceBytes (po_externalLimits options)))%Z.

Definition content_size (contents : list (list N)) : Z := foldr (fun bytes n => Z.of_nat (length bytes) + n)%Z 0%Z contents.

Lemma resolve_captures_spec captures : forall index total log u log', resolve_captures sha256 options index total captures log = (Ok u, log') ->
  exists contents, Forall2 resolves (omap external_of captures) contents /\ log' = log ++ map CallResolve (omap external_of captures) /\
    (contents <> [] -> total + content_size contents <= limit_value (el_aggregateBytes (po_externalLimits options)))%Z.
Proof.
  induction captures as [|c rest IH]; intros index total log u log' H.
  { injection H as _ <-. exists []. cbn. rewrite app_nil_r. by split_and!; [constructor|..]. }
  assert (external_of c = None -> resolve_captures sha256 options (S index) total rest log = (Ok u, log') ->
    exists contents, Forall2 resolves (omap external_of (c :: rest)) contents /\ log' = log ++ map CallResolve (omap external_of (c :: rest)) /\
    (contents <> [] -> total + content_size contents <= limit_value (el_aggregateBytes (po_externalLimits options)))%Z) as Hskip.
  { intros Hc Hr. cbn. rewrite Hc. by apply IH in Hr. }
  cbn [resolve_captures] in H. destruct c as [| | | | | | |o]; try by apply Hskip.
  destruct (is_str (getf o ($"kind")) "external") eqn:Ek; [|by apply Hskip; [cbn; rewrite Ek|]].
  call_inv. cbn zeta in H. call_inv. apply IH in H as (contents & Hall & -> & Hsize). clear Hskip IH.
  match goal with H : po_resolveExternal _ _ _ = RaceValue ?b |- _ => exists (b :: contents) end. cbn. rewrite Ek. cbn. split_and!.
  - constructor; [|done]. destruct (getf o ($"resolver")) eqn:Er; try done. destruct (getf o ($"sha256")) eqn:Ed; try done.
    repeat match goal with H : bool_decide _ = true |- _ => apply bool_decide_eq_true in H | H : _ && _ = true |- _ => apply andb_true_iff in H as [? ?] end.
    split_and!; [by eexists|by eexists|by subst|lia].
  - by rewrite <-app_assoc.
  - intros _. rewrite andb_true_iff in *. destruct contents; [cbn in *; lia|]. specialize (Hsize ltac:(done)). cbn in *. lia.
Qed.

(** ** The preflight *)

Definition same_text (a b : js) : Prop := exists t, canonical_text number_text a = Ok t /\ canonical_text number_text b = Ok t.

(** The calls of a preflight that admits a bundle. *)
Definition preflight_calls (bundle : js) : list evaluator_call :=
  [CallLinks (field_of bundle "evidenceLinks")] ++ (match po_validateCompatibility options with Some _ => [CallCompatibility] | None => [] end) ++
  map CallResolve (externals bundle).

Record admitted_bundle (input : bundle_input) (bundle : js) : Prop := {
  ad_valid : admit_bundle number_text sha256 date_parses input = Ok bundle;
  ad_identities : same_text (field_of bundle "identities") (po_expectedIdentities options);
  ad_catalog : same_text (field_of (field_of bundle "evidenceLinks") "catalogSelectionRef") (po_expectedCatalogSelection options);
  ad_links : po_validateEvidenceLinks options = RaceValue tt;
  ad_compatible : po_validateCompatibility options = None \/ po_validateCompatibility options = Some (RaceValue tt);
  ad_captures : exists contents, Forall2 resolves (externals bundle) contents /\
    (content_size contents <= limit_value (el_aggregateBytes (po_externalLimits options)))%Z }.

Lemma preflight_admits input log bundle log' :
  preflightReproduction number_text sha256 date_parses options input log = (Ok bundle, log') ->
  admitted_bundle input bundle /\ log' = log ++ preflight_calls bundle.
Proof.
  unfold preflightReproduction. intros H. call_inv. injection H as -> <-.
  repeat match goal with H : bool_decide _ = true |- _ => apply bool_decide_eq_true in H; subst end.
  match goal with H : resolve_captures _ _ _ _ _ _ = _ |- _ => apply resolve_captures_spec in H as (contents & Hall & -> & Hsize) end.
  assert ((po_validateCompatibility options = None \/ po_validateCompatibility options = Some (RaceValue tt)) /\
    x18 = (log ++ [CallLinks (field_of bundle "evidenceLinks")]) ++ match po_validateCompatibility options with Some _ => [CallCompatibility] | None => [] end) as [Hc ->].
  { destruct (po_validateCompatibility options) as [r|]; [|injection H9 as _ <-; rewrite app_nil_r; by split; [left|]].
    apply bounded_call_Ok in H9 as [-> ->]. destruct x17. by split; [right|]. }
  split; [|unfold preflight_calls; by rewrite <-!app_assoc].
  split; [done|by eexists|by eexists|by destruct x0|done|]. exists contents. split; [done|].
  destruct contents as [|bytes contents]; [|by apply Hsize]. cbn. apply andb_true_iff in H10 as [[_ H10]%andb_true_iff _].
  unfold positive_within, limit_value in *. destruct (num_safe_Z (el_aggregateBytes _)); cbn in *; [lia|discriminate H10].
Qed.

(** ** The replay *)

Definition no_evaluation (log : list evaluator_call) : Prop := CallEvaluate ∉ log.

Lemma no_evaluation_app log c : no_evaluation log -> c <> CallEvaluate -> no_evaluation (log ++ [c]).
Proof. intros Hl Hc. unfold no_evaluation. rewrite elem_of_app, list_elem_of_singleton. naive_solver. Qed.

(** A step that never calls the evaluator's run. *)
Definition silent {A} (m : evaluating A) : Prop := triple no_evaluation m (fun _ => no_evaluation) (fun _ => no_evaluation).

Lemma unevaluated_bind {A B} (m : evaluating A) (f : A -> evaluating B) : silent m -> (forall a, silent (f a)) -> silent (m ≫= f).
Proof. intros. by eapply triple_bind. Qed.

Lemma silent_evaluated {A} (r : res thrown A) : silent (evaluated r).
Proof. intros log H. by destruct r. Qed.

Lemma silent_unless b : silent (unless_aborted b).
Proof. intros log H. by destruct b. Qed.

Lemma silent_refuse b c m : silent (refuse_unless b c m).
Proof. intros log H. by destruct b. Qed.

Lemma silent_call {A} c t (r : race A) : c <> CallEvaluate -> silent (bounded_call c t r).
Proof. intros Hc log H. pose proof (no_evaluation_app log c H Hc). by destruct r. Qed.

Lemma unevaluated_ret {A} (a : A) : silent (mret a).
Proof. by intros log H. Qed.

Lemma silent_as_refusal {A} c m (x : evaluating A) : silent x -> silent (as_refusal c m x).
Proof. intros Hx log H. specialize (Hx log H). unfold as_refusal. by destruct (x log) as [[v|[e|e|e]] l]. Qed.

#[local] Hint Resolve unevaluated_bind silent_evaluated silent_unless silent_refuse silent_call unevaluated_ret silent_as_refusal : mirror.

Lemma silent_resolve captures : forall index total, silent (resolve_captures sha256 options index total captures).
Proof.
  induction captures as [|c rest IH]; intros index total; [by apply unevaluated_ret|]. cbn [resolve_captures].
  destruct c; try apply IH. destruct (is_str _ _); [|apply IH]. repeat (apply unevaluated_bind; [auto with mirror|intros ?]); apply IH.
Qed.

Lemma silent_preflight input : silent (preflightReproduction number_text sha256 date_parses options input).
Proof.
  unfold preflightReproduction. repeat (apply unevaluated_bind; [auto with mirror|intros ?]); auto with mirror.
  - apply silent_as_refusal. repeat (apply unevaluated_bind; [auto with mirror|intros ?]).
    destruct (po_validateCompatibility options); [by apply silent_call|apply unevaluated_ret].
  - apply silent_resolve.
Qed.

(** C11: a replay of a bundle. Whatever the callbacks, the signal and the timers do, the
    evaluator's run is called at most once and last, and only for a bundle that was
    admitted: it is valid, its identities and its catalog selection have the text of the
    evaluator's, its links and its compatibility were accepted, and every external
    capture was resolved, in order and once, by an admitted resolver to content of its
    digest within the limits. A replay that returns has called it, and says reproduced
    exactly when the signature of the result has the text of the bundle's. *)
Theorem replay_admitted input normalization evaluate :
  let '(r, log) := replayReproduction number_text sha256 date_parses options input normalization evaluate [] in
  (CallEvaluate ∈ log -> exists bundle, admitted_bundle input bundle /\ log = preflight_calls bundle ++ [CallEvaluate]) /\
  (forall replay, r = Ok replay -> CallEvaluate ∈ log /\
     exists bundle, admitted_bundle input bundle /\ br_expected replay = field_of bundle "signature" /\
       evaluate = Ok (br_suiteResult replay) /\ signatureFromSuiteResult (br_suiteResult replay) normalization = Ok (br_observed replay) /\
       (br_status replay = Reproduced <-> exists s, br_observed replay = Some s /\ same_text (br_expected replay) (signature_js s))).
Proof.
  destruct (replayReproduction _ _ _ _ _ _ _ _) as [r log] eqn:H. unfold replayReproduction in H.
  pose proof (silent_preflight input [] ltac:(apply not_elem_of_nil)) as Hsilent.
  unfold mbind at 1, method_mbind in H. destruct (preflightReproduction _ _ _ _ _ _) as [[bundle|e] log1] eqn:Ep.
  2:{ injection H as <- <-. by split. }
  apply preflight_admits in Ep as [Had ->]. cbn [app] in H. destruct (po_aborted options BeforeEvaluate).
  { injection H as <- <-. by split. }
  change (when false _) with (mret tt : evaluating unit) in H. unfold mbind at 1, method_mbind, mret, method_mret in H.
  unfold note, modify, mbind at 1, method_mbind in H.
  assert (CallEvaluate ∈ preflight_calls bundle ++ [CallEvaluate]) as Hin by (apply elem_of_app; right; by left).
  assert (exists b, admitted_bundle input b /\ preflight_calls bundle ++ [CallEvaluate] = preflight_calls b ++ [CallEvaluate]) as Hlog by by exists bundle.
  change ([] ++ preflight_calls bundle) with (preflight_calls bundle) in H. revert H Hlog Hin. generalize (preflight_calls bundle ++ [CallEvaluate]). intros log1 H Hlog Hin.
  rewrite evaluated_bind in H. destruct evaluate as [result|e]; [|by injection H as <- <-].
  rewrite evaluated_bind in H. destruct (signatureFromSuiteResult result normalization) as [observed|e] eqn:Es; [|by injection H as <- <-].
  cbn [as_bundle_error] in H. rewrite evaluated_bind in H.
  destruct (match observed with Some _ => _ | None => _ end) as [same|e] eqn:Esame; injection H as <- <-; [|done].
  split; [done|]. intros replay [= <-]. split; [done|]. exists bundle. cbn. split_and!; try done.
  destruct observed as [s|]; [|injection Esame as <-; split; [done|by intros (? & ? & _)]].
  apply res_bind_Ok in Esame as (l & Hl & Esame). apply res_bind_Ok in Esame as (r & Hr & Esame). injection Esame as <-. unfold same_text.
  case_bool_decide as E; [subst; split; [by eauto|done]|]. split; [done|]. intros (? & [= <-] & t & H1 & H2). congruence.
Qed.
End preflight.
