(* ===== verification/BundleValues.v ===== *)
(** * Canonical texts of values

    [canonical] writes the properties of every object in the order of their names, so
    its text is the one [JSON.stringify] gives for the value with its properties sorted
    ([sort_keys]), and [JSON.parse] reads that value back. And the bound on a graph
    ([graph_visit]) as a predicate and a size, neither of which depends on the order of
    properties. *)

From Stdlib Require Import SpecFloat.
From S2P Require Import Prelude JsNumber Utf16 JsData StrictJson JsText StrictJsonFacts StrictJsonRoundtrip Decode ModelTypes Canonical Descriptor ClientMessages JsonText Reproduction BundleText.

(** ** Values with a text of their own *)

(** Safe integers, strings of units, no repeated names, none that is an index (an object
    has those first, whatever the order they are written in), none longer than a string
    may be. *)
Inductive textual : js -> Prop :=
| textual_null : textual JNull
| textual_bool b : textual (JBool b)
| textual_num z : (Z.abs z <= MAX_SAFE_INTEGER)%Z -> textual (JNum (num_of_Z z))
| textual_str s : js_string s -> textual (JStr s)
| textual_arr l : Forall textual l -> textual (JArr l)
| textual_obj o : NoDup (keys o) -> Forall (fun kv => js_string kv.1 /\ array_index kv.1 = None /\ (byteLength kv.1 <= string_bytes)%N) o ->
    Forall (fun kv => textual kv.2) o ->
    textual (JObj o).

Definition by_name {A} (a b : ustring * A) : comparison := compare_lists a.1 b.1.

Fixpoint sort_keys (v : js) : js :=
  match v with
  | JArr l => JArr (map sort_keys l)
  | JObj o => JObj (sort_by by_name (map (fun kv => (kv.1, sort_keys kv.2)) o))
  | _ => v
  end.

Definition sort_entries (o : object_t) : object_t := sort_by by_name (map (fun kv => (kv.1, sort_keys kv.2)) o).

Lemma by_name_perm {A} (o : list (ustring * A)) : sort_by by_name o ≡ₚ o.
Proof. apply sort_by_Permutation. Qed.

Lemma by_name_map {A B} (f : A -> B) (o : list (ustring * A)) :
  sort_by by_name (map (fun kv => (kv.1, f kv.2)) o) = map (fun kv => (kv.1, f kv.2)) (sort_by by_name o).
Proof. symmetry. by apply map_sort_by. Qed.

Lemma sort_entries_keys o : keys (sort_entries o) ≡ₚ keys o.
Proof.
  unfold sort_entries, keys. rewrite by_name_perm. rewrite map_map. done.
Qed.

Lemma textual_array_index_order {A} (o : list (ustring * A)) : NoDup (map fst o) -> Forall (fun kv => array_index kv.1 = None) o -> own_key_order o.
Proof.
  induction o as [|[k v] o IH]; intros Hn Hf; [done|]. cbn in Hn. apply NoDup_cons in Hn as [Hk Hn]. apply Forall_cons in Hf as [Hi Hf].
  split; [|by apply IH]. apply Forall_forall. intros [k' v'] Hin. cbn. split; [intros ->; apply Hk; by apply (list_elem_of_fmap_2 fst _ (k', v'))|].
  unfold key_before. rewrite Forall_forall in Hf. pose proof (Hf _ Hin) as E. cbn in E. by rewrite E.
Qed.

Lemma textual_sorted v : textual v -> textual (sort_keys v).
Proof.
  induction v as [| |b|x|z|s|l IH|o IH] using js_ind'; intros H; try done; inversion H as [| | | |l' Hl|o' Hn Hk Ho]; subst; cbn [sort_keys].
  - constructor. apply Forall_fmap. rewrite Forall_forall in *. intros x Hx. by apply IH, Hl.
  - change (sort_by by_name (map (fun kv => (kv.1, sort_keys kv.2)) o)) with (sort_entries o). constructor.
    + by rewrite sort_entries_keys.
    + unfold sort_entries. rewrite by_name_perm. apply Forall_fmap. exact Hk.
    + unfold sort_entries. rewrite by_name_perm. apply Forall_fmap. rewrite Forall_forall in *. intros kv Hkv. cbn. by apply IH, Ho.
Qed.

Lemma textual_sendable v : textual v -> sendable v.
Proof.
  induction v as [| |b|x|z|s|l IH|o IH] using js_ind'; intros H; inversion H as [| | | |l' Hl|o' Hn Hk Ho]; subst; try by constructor.
  - constructor. rewrite Forall_forall in *. auto.
  - constructor.
    + apply textual_array_index_order; [done|]. eapply Forall_impl; [exact Hk|]. by intros kv (_ & ? & _).
    + eapply Forall_impl; [exact Hk|]. by intros kv (? & _ & _).
    + rewrite Forall_forall in *. auto.
Qed.

Lemma textual_defined v : textual v -> is_undef v = false.
Proof. by destruct 1. Qed.

Lemma textual_wire v : textual v -> wire_form v = v.
Proof.
  induction v as [| |b|x|z|s|l IH|o IH] using js_ind'; intros H; inversion H as [| |z' Hz| |l' Hl|o' Hn Hk Ho]; subst; try done; cbn [wire_form].
  - by rewrite num_of_Z_finite.
  - f_equal. clear H. induction IH as [|x l Hx _ IHl]; [done|]. apply Forall_cons in Hl as [Hxt Hl]. cbn.
    rewrite textual_defined, Hx, IHl by done. done.
  - f_equal. clear H Hn Hk. induction IH as [|[k x] o Hx _ IHo]; [done|]. apply Forall_cons in Ho as [Hxt Ho]. unfold omap in *. cbn in *.
    rewrite textual_defined, Hx, IHo by done. done.
Qed.

(** ** The canonical text *)

Fixpoint sorted_text (v : js) : ustring :=
  match v with
  | JUndef => $"undefined"
  | JNull => $"null"
  | JBool b => if b then $"true" else $"false"
  | JNum x => match num_safe_Z x with Some z => dec_of_Z z | None => [] end
  | JBig _ => []
  | JStr s => quote_string s
  | JArr l => $"[" ++ join ($",") (map sorted_text l) ++ $"]"
  | JObj o => $"{" ++ join ($",") (map (fun e => quote_string e.1 ++ $":" ++ e.2) (sort_by by_name (map (fun kv => (kv.1, sorted_text kv.2)) o))) ++ $"}"
  end.

Section text.
Context (number_text : number -> ustring).

Lemma mapM_pure {A B} (f : A -> res exn B) (g : A -> B) l : Forall (fun x => f x = Ok (g x)) l -> mapM f l = Ok (map g l).
Proof. intros H. apply mapM_res_Ok. induction H; by constructor. Qed.

Lemma num_text_safe z : (Z.abs z <= MAX_SAFE_INTEGER)%Z -> num_text number_text (num_of_Z z) = sorted_text (JNum (num_of_Z z)).
Proof. intros Hz. unfold num_text. cbn. by rewrite num_of_Z_exact. Qed.

Lemma canonical_sorted_text v : textual v -> canonical number_text v = Ok (Some (sorted_text v)).
Proof.
  induction v as [| |b|x|z|s|l IH|o IH] using js_ind'; intros H; inversion H as [| |z' Hz| |l' Hl|o' Hn Hk Ho]; subst; try done.
  - cbn [canonical stringify]. by rewrite num_of_Z_finite, num_text_safe.
  - cbn [canonical]. rewrite (mapM_pure _ sorted_text); [done|]. rewrite Forall_forall in *. intros x Hx. by rewrite IH by auto.
  - cbn [canonical]. rewrite (mapM_pure _ (fun kv => (kv.1, sorted_text kv.2))); [done|]. rewrite Forall_forall in *.
    intros kv Hkv. by rewrite IH by auto.
Qed.

Lemma stringify_sorted v : textual v -> stringify number_text (sort_keys v) = Ok (Some (sorted_text v)).
Proof.
  induction v as [| |b|x|z|s|l IH|o IH] using js_ind'; intros H; inversion H as [| |z' Hz| |l' Hl|o' Hn Hk Ho]; subst; try done; cbn [sort_keys stringify].
  - by rewrite num_of_Z_finite, num_text_safe.
  - rewrite (mapM_pure _ (fun x => default ($"null") (match stringify number_text x with Ok t => t | Err _ => None end))).
    + cbn [mbind res_mbind sorted_text]. rewrite map_map. do 4 f_equal. f_equal. apply map_ext_Forall. rewrite Forall_forall in *. intros x Hx. by rewrite IH by auto.
    + apply Forall_fmap. rewrite Forall_forall in *. intros x Hx. unfold compose. by rewrite IH by auto.
  - rewrite by_name_map. set (text kv := option_map (fun t => quote_string kv.1 ++ $":" ++ t) (match stringify number_text kv.2 with Ok t => t | Err _ => None end)).
    assert (Forall (fun kv => stringify number_text (sort_keys kv.2) = Ok (Some (sorted_text kv.2))) (sort_by by_name o)) as Hall.
    { rewrite by_name_perm. rewrite Forall_forall in *. intros kv Hkv. by apply IH, Ho. }
    rewrite (mapM_pure _ text).
    + cbn [mbind res_mbind sorted_text]. rewrite by_name_map, !map_map. do 4 f_equal. f_equal. clear -Hall.
      induction Hall as [|kv l Hkv _ IHl]; [done|]. cbn. unfold text at 1. cbn. rewrite Hkv. cbn. by f_equal.
    + apply Forall_fmap. eapply Forall_impl; [exact Hall|]. intros kv Hkv. unfold compose, text. cbn. by rewrite Hkv.
Qed.

End text.

Lemma sorted_text_parse v : textual v -> JSON_parse (sorted_text v) = Ok (sort_keys v).
Proof.
  intros H. pose proof (textual_sorted v H) as Hs. rewrite <-(textual_wire _ Hs). apply (stringify_parse (fun _ => [])); [by apply textual_sendable|].
  by apply stringify_sorted.
Qed.

(** ** The bound on a graph *)

Definition sumN (l : list N) : N := foldr N.add 0%N l.

Fixpoint graph_size (v : js) : N :=
  match v with
  | JArr l => (1 + sumN (map graph_size l))%N
  | JObj o => (1 + sumN (map (fun kv => graph_size kv.2) o))%N
  | _ => 1%N
  end.

(** What holds of an admitted value at every depth: no [undefined] or bigint, no
    forbidden name, strings, arrays and objects within their bounds. *)
Fixpoint graph_ok (depth_left : nat) (maxStringBytes : N) (v : js) : bool :=
  match depth_left with
  | O => false
  | S d =>
      match v with
      | JStr s => (byteLength s <=? maxStringBytes)%N
      | JNull | JNum _ | JBool _ => true
      | JUndef | JBig _ => false
      | JArr l => (N.of_nat (length l) <=? element_limit)%N && forallb (graph_ok d string_bytes) l
      | JObj o => (N.of_nat (length o) <=? member_limit)%N &&
                  forallb (fun kv => negb (bool_decide (kv.1 ∈ FORBIDDEN_KEYS)) && graph_ok d (bytes_of_key kv.1) kv.2) o
      end
  end.

Definition nodes_within (n : N) : Prop := (n <= REPRODUCTION_MAX_NODES)%N.

(** A visit of all elements, when that of each is counted as [size] and judged by [ok]. *)
Lemma visits_spec {A} (f : A -> stres N thrown unit) (ok : A -> bool) (size : A -> N) l :
  Forall (fun x => forall n n', nodes_within n -> f x n = Ok (tt, n') <-> ok x = true /\ n' = (n + size x)%N /\ nodes_within n') l ->
  forall i n n', nodes_within n -> (exists us, mapMi_from i (fun _ => f) l n = Ok (us, n')) <->
    forallb ok l = true /\ n' = (n + sumN (map size l))%N /\ nodes_within n'.
Proof.
  induction 1 as [|x l Hx _ IH]; intros i n n' Hn; cbn [mapMi_from forallb map sumN foldr].
  - split; [intros (us & H); injection H as _ <-; split_and!; [done|lia|done]|]. intros (_ & -> & _). exists []. rewrite N.add_0_r. done.
  - fold (sumN (map size l)). rewrite andb_true_iff. split.
    + intros (us & H). apply stres_bind_Ok in H as ([] & n1 & H1 & H). apply Hx in H1 as (H1 & -> & Hn1); [|done].
      apply stres_bind_Ok in H as (us' & n2 & H2 & H). injection H as _ <-. destruct (proj1 (IH _ _ _ Hn1) (ex_intro _ _ H2)) as (? & -> & ?).
      split_and!; [done|done|lia|done].
    + intros ((H1 & H2) & -> & Hw). assert (nodes_within (n + size x)) as Hn1 by (unfold nodes_within in *; lia).
      assert (f x n = Ok (tt, (n + size x)%N)) as E by by apply Hx.
      destruct (proj2 (IH (N.succ i) (n + size x)%N (n + size x + sumN (map size l))%N Hn1)) as (us & E2).
      { split_and!; [done|done|]. unfold nodes_within in *. lia. }
      exists (tt :: us). apply stres_bind_Ok. exists tt, (n + size x)%N. split; [done|]. apply stres_bind_Ok. do 2 eexists. split; [exact E2|].
      unfold mret, stres_mret. do 2 f_equal. lia.
Qed.

Lemma graph_visit_spec d : forall m v n n', nodes_within n ->
  graph_visit d m v n = Ok (tt, n') <-> graph_ok d m v = true /\ n' = (n + graph_size v)%N /\ nodes_within n'.
Proof.
  induction d as [|d IH]; intros m v n n' Hn; [by split; [|intros [? _]]|]. cbn [graph_visit graph_ok].
  destruct (N.ltb_spec REPRODUCTION_MAX_NODES (n + 1)) as [Hmax|Hmax].
  { split; [done|]. intros (_ & -> & Hw). unfold nodes_within in Hw. destruct v; cbn [graph_size] in *; lia. }
  assert (nodes_within (n + 1)) as Hn1 by done.
  destruct v as [| |b|x|z|s|l|o]; try (split; [by intros [= <-]|by intros (_ & -> & _)]); try (by split; [|intros [? _]]).
  - unfold text_value, any_text. rewrite andb_true_r. destruct (N.ltb_spec m (byteLength s)); cbn [negb mbind res_mbind].
    + split; [done|]. intros [H0 _]. lia.
    + split; [intros [= <-]; split_and!; [lia|done|done]|]. by intros (_ & -> & _).
  - destruct (N.ltb_spec element_limit (N.of_nat (length l))); [split; [done|]; intros [[H0 _]%andb_true_iff _]; lia|].
    pose proof (visits_spec (graph_visit d string_bytes) (graph_ok d string_bytes) graph_size l ltac:(apply Forall_true; intros; by apply IH) 0 (n + 1)%N n' Hn1) as Hs.
    rewrite andb_true_iff, N.leb_le. cbn [graph_size]. rewrite N.add_assoc. split.
    + intros E. apply stres_bind_Ok in E as (us & n2 & E & E2). injection E2 as <-. destruct (proj1 Hs (ex_intro _ _ E)) as (? & ? & ?). by split_and!.
    + intros ((_ & H1) & H2 & H3). destruct (proj2 Hs) as (us & E); [done|]. apply stres_bind_Ok. do 2 eexists. by split; [exact E|].
  - destruct (N.ltb_spec member_limit (N.of_nat (length o))); [split; [done|]; intros [[H0 _]%andb_true_iff _]; lia|].
    pose proof (visits_spec (fun e => if bool_decide (e.1 ∈ FORBIDDEN_KEYS) then liftR (bundle_fail_text "bundle_ambient_authority" ($"forbidden field " ++ e.1))
        else graph_visit d (bytes_of_key e.1) e.2) (fun kv => negb (bool_decide (kv.1 ∈ FORBIDDEN_KEYS)) && graph_ok d (bytes_of_key kv.1) kv.2)
        (fun kv => graph_size kv.2) o) as Hs.
    specialize (Hs ltac:(apply Forall_true; intros [k v] n1 n1' Hw; cbn [fst snd]; case_bool_decide; [by split; [|intros [? _]]|by apply IH]) 0%N (n + 1)%N n' Hn1).
    rewrite andb_true_iff, N.leb_le. cbn [graph_size]. rewrite N.add_assoc. split.
    + intros E. apply stres_bind_Ok in E as (us & n2 & E & E2). injection E2 as <-. destruct (proj1 Hs (ex_intro _ _ E)) as (? & ? & ?). by split_and!.
    + intros ((_ & H1) & H2 & H3). destruct (proj2 Hs) as (us & E); [done|]. apply stres_bind_Ok. do 2 eexists. by split; [exact E|].
Qed.

Lemma boundedGraph_spec v u : boundedGraph v = Ok u <-> graph_ok (S REPRODUCTION_MAX_DEPTH) string_bytes v = true /\ nodes_within (graph_size v).
Proof.
  unfold boundedGraph. rewrite fmap_Ok. split.
  - intros ([[] n] & H & _). apply graph_visit_spec in H as (H1 & -> & H2); [by split|]. unfold nodes_within, REPRODUCTION_MAX_NODES. lia.
  - intros [H1 H2]. exists (tt, graph_size v). split; [|by destruct u]. apply graph_visit_spec; [unfold nodes_within, REPRODUCTION_MAX_NODES; lia|done].
Qed.

Lemma sumN_perm l k : l ≡ₚ k -> sumN l = sumN k.
Proof. unfold sumN. induction 1; cbn in *; lia. Qed.

Lemma graph_size_sorted v : graph_size (sort_keys v) = graph_size v.
Proof.
  induction v as [| |b|x|z|s|l IH|o IH] using js_ind'; cbn [sort_keys graph_size]; try done.
  - f_equal. rewrite map_map. f_equal. by apply map_ext_Forall.
  - f_equal. rewrite (sumN_perm _ (map (fun kv => graph_size kv.2) (map (fun kv => (kv.1, sort_keys kv.2)) o))) by (by rewrite by_name_perm).
    rewrite map_map. f_equal. by apply map_ext_Forall.
Qed.

Lemma graph_ok_sorted v : forall d m, graph_ok d m (sort_keys v) = graph_ok d m v.
Proof.
  induction v as [| |b|x|z|s|l IH|o IH] using js_ind'; intros [|d] m; cbn [sort_keys graph_ok]; try done.
  - rewrite length_map. f_equal. induction IH as [|x l Hx _ IHl]; [done|]. cbn. by rewrite Hx, IHl.
  - pose proof (by_name_perm (map (fun kv => (kv.1, sort_keys kv.2)) o)) as Hp. rewrite (forallb_perm _ _ _ Hp), (Permutation_length Hp), length_map.
    f_equal. clear Hp. induction IH as [|x o Hx _ IHo]; [done|]. cbn [map forallb fst snd]. by rewrite Hx, IHo.
Qed.

(** ** The scanner accepts what is written

    [preflightJson] of [BundleText] goes through the canonical text of a value within
    the bounds, and counts one node for each value. *)

(** ** Strings *)

(** A piece of a string token that neither ends it nor is refused. *)
Definition piece (p : ustring) : Prop := forall t n, raw_token_length false t = Ok n -> raw_token_length false (p ++ t) = Ok (length p + n)%nat.

Lemma piece_app p q : piece p -> piece q -> piece (p ++ q).
Proof. intros Hp Hq t n H. rewrite <-app_assoc, length_app, <-Nat.add_assoc. by apply Hp, Hq. Qed.

Lemma piece_concat l : Forall piece l -> piece (concat l).
Proof. induction 1; [by intros t n H|]. by apply piece_app. Qed.

Lemma piece_unit u : (0x20 <= u)%N -> u <> 0x22%N -> u <> 0x5c%N -> piece [u].
Proof.
  intros H1 H2 H3 t n H. cbn [app raw_token_length]. rewrite (proj2 (N.eqb_neq u 0x5c)), (proj2 (N.eqb_neq u 0x22)), (proj2 (N.ltb_ge u 0x20)) by done.
  by rewrite H.
Qed.

Lemma piece_escape c : piece [0x5c; c]%N.
Proof. intros t n H. cbn [app raw_token_length N.eqb Pos.eqb]. by rewrite H. Qed.

Lemma piece_hex d : (d < 16)%N -> piece [hex_digit d].
Proof. intros Hd. apply piece_unit; unfold hex_digit; destruct (N.ltb_spec d 10); lia. Qed.

Lemma piece_unicode u : (u < 0x10000)%N -> piece ($"\u" ++ hex4_of u).
Proof.
  intros Hu. apply piece_app; [apply piece_escape|]. unfold hex4_of. cbn [map].
  apply (piece_app [_]); [apply piece_hex, N.Div0.div_lt_upper_bound; lia|].
  do 2 (apply (piece_app [_]); [by apply piece_hex, N.mod_lt|]). by apply piece_hex, N.mod_lt.
Qed.

Lemma piece_quote c : (exists u, c = [u] \/ exists l, c = [u; l] /\ is_high u /\ is_low l) -> js_string c -> piece (quote_character c).
Proof.
  intros (u & [->|(l & -> & Hh & Hl)]) Hc.
  - apply Forall_inv in Hc. unfold quote_character. destruct (N.eqb_spec u 0x22) as [->|?]; [apply piece_escape|]. destruct (N.eqb_spec u 0x5c) as [->|?]; [apply piece_escape|].
    destruct (u =? 0x08)%N; [apply (piece_escape 0x62)|]. destruct (u =? 0x09)%N; [apply (piece_escape 0x74)|].
    destruct (u =? 0x0a)%N; [apply (piece_escape 0x6e)|]. destruct (u =? 0x0c)%N; [apply (piece_escape 0x66)|].
    destruct (u =? 0x0d)%N; [apply (piece_escape 0x72)|].
    destruct (N.ltb_spec u 0x20); cbn [orb]; [by apply piece_unicode|]. destruct (is_high u || is_low u); [by apply piece_unicode|].
    by apply piece_unit.
  - apply Is_true_true in Hh, Hl. unfold is_high, is_low in *. apply (piece_app [u] [l]); apply piece_unit; lia.
Qed.

Lemma stringToken_reads m s rest n : js_string s -> (byteLength s <= m)%N ->
  stringToken m (RawState (quote_string s ++ rest) n) = Ok (s, RawState rest n).
Proof.
  intros Hs Hm. unfold stringToken. cbn [rw_rest rw_nodes]. set (body := concat (map quote_character (characters s))).
  assert (piece body) as Hb.
  { apply piece_concat, Forall_fmap. eapply Forall_impl; [apply Forall_and; split; [apply characters_shape|by apply characters_js]|].
    intros c [H1 H2]. by apply piece_quote. }
  assert (quote_string s ++ rest = 0x22%N :: body ++ 0x22%N :: rest) as E by (unfold quote_string; rewrite <-!app_assoc; done).
  assert (S (length body + 1) = length (quote_string s)) as El by (unfold quote_string; rewrite !length_app; cbn; fold body; lia).
  pose proof (sorted_text_parse (JStr s) ltac:(by constructor)) as Hp. cbn [sorted_text sort_keys] in Hp.
  rewrite E. rewrite (Hb (0x22%N :: rest) 1%nat) by done. cbn [mbind res_mbind]. rewrite <-E, El, take_app_length, drop_app_length, Hp. cbn.
  destruct (N.ltb_spec m (byteLength s)); [lia|done].
Qed.

(** ** Steps *)

Lemma raw_ws_stays rest n : (match rest with c :: _ => is_ws c = false | [] => True end) -> raw_ws (RawState rest n) = Ok (tt, RawState rest n).
Proof. intros H. unfold raw_ws, raw_take. cbn. destruct rest as [|c rest]; [done|]. cbn. by rewrite H. Qed.

Lemma raw_bind {A B} (m : raw_scanner A) (f : A -> raw_scanner B) s a s' : m s = Ok (a, s') -> (m ≫= f) s = f a s'.
Proof. intros H. unfold mbind, stres_mbind. by rewrite H. Qed.

(** A text starts a value: not white space, a bracket that closes, or the end. *)
Definition starts (t : ustring) : Prop := exists c t', t = c :: t' /\ is_ws c = false /\ c <> 0x5d%N /\ c <> 0x7d%N /\ (c <? 0x80)%N = true.

Lemma sorted_text_starts v : textual v -> starts (sorted_text v).
Proof.
  destruct 1 as [|b|z Hz|s _|l _|o _ _ _]; cbn [sorted_text].
  - by do 2 eexists.
  - destruct b; by do 2 eexists.
  - rewrite num_of_Z_exact by done. destruct (dec_of_Z_head z) as (c & t & -> & Hc). do 2 eexists. split; [done|]. unfold is_digit, is_ws in *. split_and!; lia.
  - by do 2 eexists.
  - by do 2 eexists.
  - by do 2 eexists.
Qed.

(** [scans d m v]: the scanner goes through the text of [v]. *)
Definition scans (d : nat) (m : N) (v : js) : Prop := forall n rest, stop rest -> nodes_within (n + graph_size v) ->
  raw_value d m (RawState (sorted_text v ++ rest) n) = Ok (tt, RawState rest (n + graph_size v)%N).

Lemma ws_text v rest n : textual v -> raw_ws (RawState (sorted_text v ++ rest) n) = Ok (tt, RawState (sorted_text v ++ rest) n).
Proof. intros H. apply raw_ws_stays. by destruct (sorted_text_starts v H) as (c & t & -> & Hc & _). Qed.

(** ** Elements and members *)

Lemma elements_scan d l fuel n rest : l <> [] -> Forall textual l -> Forall (scans d string_bytes) l ->
  (length l < fuel)%nat -> stop rest -> forall count,
  (count + N.of_nat (length l) <= element_limit)%N -> nodes_within (n + sumN (map graph_size l)) ->
  raw_elements fuel (raw_value d string_bytes) count (RawState (join ($",") (map sorted_text l) ++ $"]" ++ rest) n) =
  Ok (tt, RawState rest (n + sumN (map graph_size l))%N).
Proof.
  intros Hne Ht Hs. revert fuel n Hne. induction Hs as [|v l Hv Hl IH]; intros fuel n Hne Hfuel Hrest count Hcount Hn; [done|].
  apply Forall_cons in Ht as [Htv Ht]. destruct fuel as [|fuel]; [lia|]. cbn [raw_elements]. cbn [length map sumN foldr] in *. fold (sumN (map graph_size l)) in *.
  destruct (N.ltb_spec element_limit (count + 1)); [lia|]. unfold nodes_within in *.
  destruct l as [|w l].
  - cbn [map join]. rewrite (raw_bind _ _ _ tt (RawState ($"]" ++ rest) (n + graph_size v))) by (apply Hv; [by cbn|unfold nodes_within; lia]).
    rewrite (raw_bind _ _ _ _ _ (raw_ws_stays ($"]" ++ rest) _ ltac:(done))). cbn. by rewrite N.add_0_r.
  - change (join ($",") (sorted_text v :: map sorted_text (w :: l))) with (sorted_text v ++ $"," ++ join ($",") (map sorted_text (w :: l))).
    rewrite <-!app_assoc. rewrite (raw_bind _ _ _ tt (RawState ($"," ++ join ($",") (map sorted_text (w :: l)) ++ $"]" ++ rest) (n + graph_size v)))
      by (apply Hv; [by cbn|unfold nodes_within; lia]).
    rewrite (raw_bind _ _ _ _ _ (raw_ws_stays ($"," ++ _) _ ltac:(done))). change (raw_look ≫= _) with (raw_look ≫= fun u => if bool_decide (u = Some 0x5d%N) then raw_take 1
        else _ ← raw_expect 0x2c "missing comma"; _ ← raw_ws; raw_elements fuel (raw_value d string_bytes) (count + 1)).
    rewrite (raw_bind raw_look _ _ (Some 0x2c%N) (RawState ($"," ++ join ($",") (map sorted_text (w :: l)) ++ $"]" ++ rest) (n + graph_size v))) by done.
    rewrite bool_decide_eq_false_2 by done.
    rewrite (raw_bind _ _ _ tt (RawState (join ($",") (map sorted_text (w :: l)) ++ $"]" ++ rest) (n + graph_size v))) by done.
    rewrite (raw_bind _ _ _ tt (RawState (join ($",") (map sorted_text (w :: l)) ++ $"]" ++ rest) (n + graph_size v))).
    2:{ apply raw_ws_stays. pose proof (sorted_text_starts w ltac:(by apply Forall_cons in Ht as [? _])) as (c & t & E & Hc & _). cbn [map]. destruct l; cbn [map join]; by rewrite E. }
    rewrite IH; [|done|done|cbn [length] in *; lia|done|cbn [length] in *; lia|unfold nodes_within; lia]. do 3 f_equal. lia.
Qed.

Definition written_member (kv : ustring * js) : ustring := quote_string kv.1 ++ $":" ++ sorted_text kv.2.

(** What the scanner asks of a member. *)
Definition member_scans (d : nat) (kv : ustring * js) : Prop :=
  js_string kv.1 /\ (byteLength kv.1 <= string_bytes)%N /\ textual kv.2 /\ scans d (bytes_of_key kv.1) kv.2.

Lemma raw_expect_reads c msg rest n : raw_expect c msg (RawState (c :: rest) n) = Ok (tt, RawState rest n).
Proof. unfold raw_expect. rewrite (raw_bind raw_look _ _ (Some c) (RawState (c :: rest) n)) by done. rewrite (raw_bind _ _ _ tt (RawState rest n)) by done. by rewrite bool_decide_eq_true_2. Qed.

Lemma quote_starts s rest n : raw_ws (RawState (quote_string s ++ rest) n) = Ok (tt, RawState (quote_string s ++ rest) n).
Proof. by apply raw_ws_stays. Qed.

(** A member, up to what follows its value. *)
Lemma member_scan d k v names fuel n rest : member_scans d (k, v) -> k ∉ names -> (N.of_nat (S (length names)) <= member_limit)%N -> stop rest ->
  nodes_within (n + graph_size v) ->
  raw_members (S fuel) (raw_value d) names (RawState (written_member (k, v) ++ rest) n) =
  (_ ← raw_ws; u ← raw_look;
   if bool_decide (u = Some 0x7d%N) then raw_take 1
   else _ ← raw_expect 0x2c "missing comma"; _ ← raw_ws; raw_members fuel (raw_value d) (k :: names)) (RawState rest (n + graph_size v)%N).
Proof.
  intros (Hk & Hb & Ht & Hs) Hnew Hlimit Hrest Hn. cbn [raw_members fst snd] in *. unfold written_member. cbn [fst snd]. rewrite <-!app_assoc.
  rewrite (raw_bind _ _ _ k (RawState ($":" ++ sorted_text v ++ rest) n)) by by apply stringToken_reads.
  rewrite bool_decide_eq_false_2 by done. cbn [length] in *. destruct (N.ltb_spec member_limit (N.of_nat (S (length names)))); [lia|].
  rewrite (raw_bind _ _ _ _ _ (raw_ws_stays ($":" ++ _) _ ltac:(done))).
  rewrite (raw_bind _ _ _ tt (RawState (sorted_text v ++ rest) n)) by apply raw_expect_reads.
  by rewrite (raw_bind _ _ _ tt (RawState rest (n + graph_size v))) by by apply Hs.
Qed.

Lemma members_scan d es : es <> [] -> NoDup (map fst es) -> Forall (member_scans d) es -> forall names fuel n rest,
  (length es < fuel)%nat -> stop rest -> Forall (fun kv => kv.1 ∉ names) es -> (N.of_nat (length names + length es) <= member_limit)%N ->
  nodes_within (n + sumN (map (fun kv => graph_size kv.2) es)) ->
  raw_members fuel (raw_value d) names (RawState (join ($",") (map written_member es) ++ $"}" ++ rest) n) =
  Ok (tt, RawState rest (n + sumN (map (fun kv => graph_size kv.2) es))%N).
Proof.
  intros Hne Hnd Hs. revert Hne Hnd. induction Hs as [|[k v] es Hv Hes IH]; intros Hne Hnd names fuel n rest Hfuel Hrest Hnew Hlimit Hn; [done|].
  destruct fuel as [|fuel]; [lia|]. apply Forall_cons in Hnew as [Hk Hnew]. cbn [map fst] in Hnd. apply NoDup_cons in Hnd as [Hknew Hnd].
  cbn [map sumN foldr snd fst length] in *. fold (sumN (map (fun kv => graph_size kv.2) es)) in *. unfold nodes_within in *.
  destruct es as [|[k2 v2] es].
  - cbn [map join]. rewrite (member_scan d k v names fuel n ($"}" ++ rest)); [|done|done|cbn [length] in *; lia|by cbn|unfold nodes_within; lia].
    rewrite (raw_bind _ _ _ _ _ (raw_ws_stays ($"}" ++ rest) _ ltac:(done))). cbn. by rewrite N.add_0_r.
  - change (join ($",") (written_member (k, v) :: map written_member ((k2, v2) :: es))) with
      (written_member (k, v) ++ $"," ++ join ($",") (map written_member ((k2, v2) :: es))). rewrite <-!app_assoc.
    set (more := join ($",") (map written_member ((k2, v2) :: es)) ++ $"}" ++ rest).
    rewrite (member_scan d k v names fuel n ($"," ++ more)); [|done|done|cbn [length] in *; lia|by cbn|unfold nodes_within; lia].
    rewrite (raw_bind _ _ _ _ _ (raw_ws_stays ($"," ++ _) _ ltac:(done))).
    rewrite (raw_bind raw_look _ _ (Some 0x2c%N) (RawState ($"," ++ more) (n + graph_size v))) by done. rewrite bool_decide_eq_false_2 by done.
    rewrite (raw_bind _ _ _ tt (RawState more (n + graph_size v))) by apply raw_expect_reads.
    rewrite (raw_bind _ _ _ tt (RawState more (n + graph_size v))).
    2:{ unfold more. apply raw_ws_stays. cbn [map]. destruct es; cbn [map join]; by unfold written_member, quote_string. }
    unfold more. rewrite IH; [do 3 f_equal; lia|done|done|cbn [length] in *; lia|done| |cbn [length] in *; lia|unfold nodes_within; lia].
    rewrite Forall_forall in *. intros kv Hkv. rewrite elem_of_cons. intros [E|Hin]; [|by apply (Hnew kv)]. apply Hknew. rewrite <-E. exact (list_elem_of_fmap_2 fst _ kv Hkv).
Qed.

(** ** Values *)

Lemma number_length rest z : (Z.abs z <= MAX_SAFE_INTEGER)%Z -> stop rest -> raw_scalar_length (dec_of_Z z ++ rest) = Some (length (dec_of_Z z)).
Proof.
  intros Hz Hr. assert (exists x, number_match (dec_of_Z z ++ rest) = Some (length (dec_of_Z z), x)) as (x & Hm).
  { rewrite dec_of_Z_split, <-app_assoc, number_match_dec by done. by eexists. }
  unfold raw_scalar_length. rewrite Hm. destruct (dec_of_Z_head z) as (c & u & -> & Hc). cbn [app take fst fmap option_fmap option_map].
  unfold is_digit in Hc. rewrite !bool_decide_eq_false_2; [done|..]; intros H; apply (f_equal head) in H; injection H as ->; lia.
Qed.

Lemma join_length l : Forall (fun t => t <> []) l -> (length l <= length (join ($",") l))%nat.
Proof.
  induction 1 as [|t l Ht _ IH]; [done|]. destruct l as [|u l]; [destruct t; cbn; [done|lia]|].
  change (join ($",") (t :: u :: l)) with (t ++ $"," ++ join ($",") (u :: l)). rewrite !length_app. cbn [length] in *. destruct t; [done|]. cbn [length lit]. lia.
Qed.

(** What comes before a value: the count, white space, a look at its first unit. *)
Lemma raw_value_enter d m t n : starts t -> nodes_within (n + 1) ->
  raw_value (S d) m (RawState t n) =
  (if bool_decide (head t = Some 0x7b%N) then
     _ ← raw_take 1; _ ← raw_ws; u2 ← raw_look;
     if bool_decide (u2 = Some 0x7d%N) then raw_take 1 else fun s => raw_members (S (length (rw_rest s))) (raw_value d) [] s
   else if bool_decide (head t = Some 0x5b%N) then
     _ ← raw_take 1; _ ← raw_ws; u2 ← raw_look;
     if bool_decide (u2 = Some 0x5d%N) then raw_take 1 else fun s => raw_elements (S (length (rw_rest s))) (raw_value d string_bytes) 0 s
   else if bool_decide (head t = Some 0x22%N) then _ ← stringToken m; mret tt
   else raw_scalar) (RawState t (n + 1)%N).
Proof.
  intros (c & t' & -> & Hc & _) Hn. cbn [raw_value rw_nodes rw_rest]. unfold nodes_within in Hn. destruct (N.ltb_spec REPRODUCTION_MAX_NODES (n + 1)); [lia|].
  by rewrite (raw_bind _ _ _ _ _ (raw_ws_stays (c :: t') (n + 1)%N Hc)).
Qed.

Lemma scalar_scans d m t n rest : starts t -> (forall c t', t = c :: t' -> c <> 0x7b%N /\ c <> 0x5b%N /\ c <> 0x22%N) ->
  raw_scalar_length (t ++ rest) = Some (length t) -> nodes_within (n + 1) ->
  raw_value (S d) m (RawState (t ++ rest) n) = Ok (tt, RawState rest (n + 1)%N).
Proof.
  intros (c & t' & -> & Hc & Hc2) Hne Hl Hn. destruct (Hne c t' eq_refl) as (H1 & H2 & H3). rewrite raw_value_enter; [|by exists c, (t' ++ rest)|done].
  cbn [head app] in *. rewrite !bool_decide_eq_false_2 by congruence. unfold raw_scalar, raw_take. cbn [rw_rest rw_nodes]. rewrite Hl.
  by rewrite app_comm_cons, drop_app_length.
Qed.

Lemma scans_arr d l m : (forall m' v, In v l -> textual v -> graph_ok d m' v = true -> scans d m' v) -> textual (JArr l) -> graph_ok (S d) m (JArr l) = true -> scans (S d) m (JArr l).
Proof.
  intros IH Ht Hok n rest Hrest Hn. inversion Ht as [| | | |l' Hl|]; subst. cbn [graph_ok] in Hok. apply andb_true_iff in Hok as [Hlen Hok]. apply N.leb_le in Hlen.
  cbn [graph_size] in *. unfold nodes_within in *. rewrite raw_value_enter; [|by do 2 eexists|unfold nodes_within; lia].
  cbn [sorted_text app head lit]. rewrite bool_decide_eq_false_2, bool_decide_eq_true_2 by done. rewrite <-!app_assoc.
  destruct l as [|v l].
  - by cbn.
  - set (more := join ($",") (map sorted_text (v :: l)) ++ $"]" ++ rest).
    assert (starts more) as (c & t & E & Hc & Hc1 & _).
    { unfold more. destruct (sorted_text_starts v ltac:(by apply Forall_cons in Hl as [? _])) as (c & t & E & Hc). cbn [map]. destruct l; cbn [map join]; rewrite E; by do 2 eexists. }
    rewrite (raw_bind _ _ _ tt (RawState more (n + 1))) by done. rewrite E, (raw_bind _ _ _ _ _ (raw_ws_stays (c :: t) (n + 1)%N Hc)).
    rewrite (raw_bind raw_look _ _ (Some c) (RawState (c :: t) (n + 1))) by done. rewrite bool_decide_eq_false_2 by congruence. cbn [rw_rest]. rewrite <-E. unfold more.
    rewrite elements_scan; [do 3 f_equal; lia|done|done| | |done|lia|unfold nodes_within; lia].
    + rewrite forallb_forall in Hok. rewrite Forall_forall in Hl |- *. intros x Hx. apply list_elem_of_In in Hx as Hi. by apply IH; [|apply Hl|apply Hok].
    + apply Nat.lt_succ_r. rewrite length_app. pose proof (join_length (map sorted_text (v :: l))) as Hj. rewrite length_map in Hj.
      etransitivity; [apply Hj|lia]. apply Forall_fmap. eapply Forall_impl; [exact Hl|]. intros x Hx. cbn. by destruct (sorted_text_starts x Hx) as (? & ? & -> & _).
Qed.

Lemma scans_obj d o m : (forall m' kv, In kv o -> textual kv.2 -> graph_ok d m' kv.2 = true -> scans d m' kv.2) -> textual (JObj o) -> graph_ok (S d) m (JObj o) = true -> scans (S d) m (JObj o).
Proof.
  intros IH Ht Hok n rest Hrest Hn. inversion Ht as [| | | | |o' Hnd Hk Ho]; subst. cbn [graph_ok] in Hok. apply andb_true_iff in Hok as [Hlen Hok]. apply N.leb_le in Hlen.
  cbn [graph_size] in *. unfold nodes_within in *. rewrite raw_value_enter; [|by do 2 eexists|unfold nodes_within; lia].
  cbn [sorted_text app head lit]. rewrite bool_decide_eq_true_2 by done. rewrite <-!app_assoc.
  rewrite by_name_map, map_map. change (fun x => quote_string _ ++ _ ++ _) with written_member.
  pose proof (by_name_perm o) as Hp. set (es := sort_by by_name o) in *.
  rewrite <-(sumN_perm (map (fun kv => graph_size kv.2) es)) in Hn |- * by (by rewrite Hp).
  assert (NoDup (map fst es)) as Hnd' by (change (NoDup (fst <$> es)); by rewrite Hp).
  assert (Forall (member_scans d) es) as Hs.
  { rewrite Hp. rewrite forallb_forall in Hok. rewrite Forall_forall in Hk, Ho |- *. intros kv Hkv. destruct (Hk kv Hkv) as (? & _ & ?). apply list_elem_of_In in Hkv as Hi.
    pose proof (Hok kv Hi) as [_ Hg]%andb_true_iff. split_and!; [done|done|by apply Ho|by apply IH; [|apply Ho|]]. }
  apply Permutation_length in Hp. rewrite <-Hp in Hlen. clearbody es. destruct es as [|kv es]; [by cbn|].
  set (more := join ($",") (map written_member (kv :: es)) ++ $"}" ++ rest).
  assert (exists t, more = 0x22%N :: t) as (t & E) by (unfold more; cbn [map]; destruct es; cbn [map join]; by eexists).
  rewrite (raw_bind _ _ _ tt (RawState more (n + 1))) by done. rewrite E, (raw_bind _ _ _ _ _ (raw_ws_stays (0x22%N :: t) (n + 1)%N eq_refl)).
  rewrite (raw_bind raw_look _ _ (Some 0x22%N) (RawState (0x22%N :: t) (n + 1))) by done. rewrite bool_decide_eq_false_2 by done. cbn [rw_rest]. rewrite <-E. unfold more.
  rewrite members_scan; [do 3 f_equal; lia|done|done|done| |done| |cbn [length] in *; lia|unfold nodes_within; lia].
  - apply Nat.lt_succ_r. rewrite length_app. pose proof (join_length (map written_member (kv :: es))) as Hj. rewrite length_map in Hj.
    etransitivity; [apply Hj|lia]. apply Forall_fmap, Forall_true. done.
  - apply Forall_true. intros x. apply not_elem_of_nil.
Qed.

Lemma scans_textual d : forall m v, textual v -> graph_ok d m v = true -> scans d m v.
Proof.
  induction d as [|d IH]; intros m v Ht Hok; [done|]. destruct Ht as [|b|z Hz|s Hs|l Hl|o Hn Hk Ho].
  - intros n rest Hrest Hnodes. apply (scalar_scans d m ($"null") n rest); [by do 2 eexists|by intros c t [= <- _]|done|done].
  - intros n rest Hrest Hnodes. cbn [sorted_text]. destruct b; (apply scalar_scans; [by do 2 eexists|by intros c t [= <- _]|done|done]).
  - intros n rest Hrest Hnodes. pose proof (sorted_text_starts (JNum (num_of_Z z)) ltac:(by constructor)) as Hst. cbn [sorted_text] in *. rewrite num_of_Z_exact in * by done.
    apply scalar_scans; [done| |by apply number_length|done]. intros c t E. destruct (dec_of_Z_head z) as (c' & t' & E' & Hc). rewrite E in E'. injection E' as <- _. unfold is_digit in Hc. lia.
  - intros n rest Hrest Hnodes. cbn [graph_ok graph_size] in *. apply N.leb_le in Hok. rewrite raw_value_enter; [|by do 2 eexists|done].
    cbn [sorted_text quote_string app head lit]. rewrite !bool_decide_eq_false_2, bool_decide_eq_true_2 by done.
    by rewrite (raw_bind _ _ _ s (RawState rest (n + 1))) by by apply stringToken_reads.
  - apply scans_arr; [|by constructor|done]. intros m' v _. apply IH.
  - apply scans_obj; [|by constructor|done]. intros m' kv _. apply IH.
Qed.

(** The scanner goes through the text of a value within the bounds, and what follows it
    when that is white space. *)
Lemma preflight_textual v : textual v -> graph_ok (S REPRODUCTION_MAX_DEPTH) string_bytes v = true -> nodes_within (graph_size v) ->
  (byteLength (sorted_text v ++ [0x0a%N]) <= REPRODUCTION_MAX_BYTES)%N -> preflightJson (sorted_text v ++ [0x0a%N]) = Ok tt.
Proof.
  intros Ht Hok Hn Hb. unfold preflightJson. destruct (N.ltb_spec REPRODUCTION_MAX_BYTES (byteLength (sorted_text v ++ [0x0a%N]))); [lia|].
  unfold bundle_require at 1. cbn [negb mbind res_mbind].
  rewrite (raw_bind _ _ _ tt (RawState [0x0a%N] (0 + graph_size v))) by (apply scans_textual; by try done). done.
Qed.
