(* ===== verification/BundleFacts.v ===== *)
(** * The round trip of a bundle

    Every validator of [Bundle] sees the same in a value and in the value with its
    properties sorted, so the text [encodeReproductionBundle] gives is one that
    [decodeReproductionBundle] accepts, for the sorted value. *)

From S2P Require Import Prelude JsNumber Utf16 JsData StrictJson Decode JsText StrictJsonFacts StrictJsonRoundtrip ModelTypes Canonical Descriptor ClientMessages Transport JsonText TransportFacts Reproduction BundleText Bundle BundleValues.

Create HintDb sorted.
Create Rewrite HintDb sorted.

(** ** What reads a property *)

Lemma getf_insert x o k : getf (insert_by by_name x o) k = getf (x :: o) k.
Proof.
  induction o as [|[k2 v2] o IH]; [done|]. destruct x as [k1 v1]. cbn [insert_by]. unfold by_name at 1. cbn [fst].
  destruct (compare_lists k1 k2) eqn:E; [done..|]. cbn [getf] in *. rewrite IH. case_bool_decide; case_bool_decide; try done. subst.
  by rewrite (proj2 (compare_lists_Eq k2 k2)) in E.
Qed.

Lemma getf_sorted o k : getf (sort_entries o) k = sort_keys (getf o k).
Proof.
  unfold sort_entries, sort_by. induction o as [|[k1 v1] o IH]; [done|]. cbn [map foldr]. rewrite getf_insert. cbn [getf fst snd]. rewrite IH. by case_bool_decide.
Qed.

Lemma getf_member o k v : NoDup (keys o) -> (k, v) ∈ o -> getf o k = v.
Proof.
  induction o as [|[k1 v1] o IH]; intros Hn Hin; [by apply not_elem_of_nil in Hin|]. cbn in Hn. apply NoDup_cons in Hn as [Hk Hn]. cbn [getf].
  apply elem_of_cons in Hin as [[= -> ->]|Hin]; [by rewrite bool_decide_eq_true_2|].
  rewrite bool_decide_eq_false_2; [by apply IH|]. intros ->. apply Hk. exact (list_elem_of_fmap_2 fst _ _ Hin).
Qed.

Lemma has_own_sorted o k : has_own (sort_entries o) k = has_own o k.
Proof. unfold has_own. apply bool_decide_ext. by rewrite sort_entries_keys. Qed.

Lemma is_str_sorted v s : is_str (sort_keys v) s = is_str v s.
Proof. by destruct v. Qed.

Lemma record_sorted w v : record_value w (sort_keys v) = sort_entries <$> record_value w v.
Proof. by destruct v. Qed.

Lemma own_data_sorted o k : own_data (sort_entries o) k = sort_keys <$> own_data o k.
Proof. unfold own_data. rewrite has_own_sorted, getf_sorted. by destruct (has_own o (lit k)). Qed.

Lemma sorted_names o : sort_by compare_lists (keys (sort_entries o)) = sort_by compare_lists (keys o).
Proof. apply (sort_by_perm_eq _ (fun a b => compare_lists_op a b) compare_lists_lt_gt); [|apply sort_entries_keys]. intros a b _ _. apply compare_lists_Eq. Qed.

Lemma exact_fields_sorted o names w : exact_fields (sort_entries o) names w = exact_fields o names w.
Proof. unfold exact_fields. by rewrite sorted_names. Qed.

Lemma text_value_sorted w p m v : text_value w p m (sort_keys v) = text_value w p m v.
Proof. by destruct v. Qed.

Lemma integer_value_sorted w a b v : integer_value w a b (sort_keys v) = integer_value w a b v.
Proof. by destruct v. Qed.

Lemma fmap_bind_res {E A B C} (r : res E A) (g : A -> B) (f : B -> res E C) : (g <$> r) ≫= f = r ≫= fun a => f (g a).
Proof. by destruct r. Qed.

Lemma bind_ext_res {E A B} (r : res E A) (f g : A -> res E B) : (forall a, f a = g a) -> r ≫= f = r ≫= g.
Proof. intros H. destruct r; [apply H|done]. Qed.

Lemma bind_cong_res {E A B} (r r' : res E A) (f g : A -> res E B) : r = r' -> (forall a, f a = g a) -> r ≫= f = r' ≫= g.
Proof. intros ->. apply bind_ext_res. Qed.

Lemma bind_fmap_cong_res {E A B C} (r' : res E B) (r : res E A) (g : A -> B) (f' : B -> res E C) (f : A -> res E C) :
  r' = g <$> r -> (forall a, f' (g a) = f a) -> r' ≫= f' = r ≫= f.
Proof. intros -> H. rewrite fmap_bind_res. by apply bind_ext_res. Qed.

#[export] Hint Resolve record_sorted own_data_sorted exact_fields_sorted text_value_sorted integer_value_sorted : sorted.
#[export] Hint Rewrite getf_sorted has_own_sorted is_str_sorted : sorted.

(** Goes through a validator on both sides. *)
Ltac sorted_step :=
  first
    [ done
    | solve [auto 1 with sorted nocore]
    | eapply bind_fmap_cong_res; [solve [auto 1 with sorted nocore]|intros ?]
    | match goal with |- (match sort_keys ?v with _ => _ end ≫= _) = _ =>
        apply (bind_fmap_cong_res _ _ (map sort_keys)); [solve [destruct v; try done; cbn [sort_keys]; rewrite length_map; by destruct (_ && _)]|intros ?] end
    | apply bind_cong_res; [|intros ?]
    | progress autorewrite with sorted
    | match goal with |- context [match sort_keys ?v with _ => _ end] => destruct v; cbn [sort_keys] end
    | match goal with |- (if ?b then _ else _) = (if ?b then _ else _) => destruct b end ].
Ltac sorted_same := repeat sorted_step.

Lemma text_field_sorted o k w p : text_field (sort_entries o) k w p = text_field o k w p.
Proof. unfold text_field. sorted_same. Qed.

Lemma integer_field_sorted o k w a b : integer_field (sort_entries o) k w a b = integer_field o k w a b.
Proof. unfold integer_field. sorted_same. Qed.

Lemma record_field_sorted o k w : record_field (sort_entries o) k w = sort_entries <$> record_field o k w.
Proof. unfold record_field. rewrite own_data_sorted, fmap_bind_res. destruct (own_data o k); [|done]. apply record_sorted. Qed.

#[export] Hint Resolve text_field_sorted integer_field_sorted record_field_sorted : sorted.

Lemma mapM_sorted {A} (f : js -> res thrown A) l : (forall v, f (sort_keys v) = f v) -> mapM f (map sort_keys l) = mapM f l.
Proof. intros H. induction l as [|v l IH]; [done|]. cbn. by rewrite H, IH. Qed.

Section bundle.
Context (number_text : number -> ustring) (sha256 : list N -> ustring) (date_parses : ustring -> bool).

Lemma template_text_sorted v : template_text number_text (sort_keys v) = template_text number_text v.
Proof.
  induction v as [| |b|x|z|s|l IH|o _] using js_ind'; try done; cbn [sort_keys template_text].
  - f_equal. induction IH as [|x l Hx _ IHl]; [done|]. cbn. rewrite IHl. by destruct x; cbn [sort_keys] in *; rewrite ?Hx.
  - change (sort_by by_name _) with (sort_entries o). by rewrite has_own_sorted.
Qed.

Lemma string_in_sorted names v : string_in number_text names (sort_keys v) = string_in number_text names v.
Proof. unfold string_in. by rewrite template_text_sorted. Qed.

Lemma string_of_field_sorted key v : string_of_field number_text key (sort_keys v) = string_of_field number_text key v.
Proof. destruct v; try done. cbn [sort_keys string_of_field]. change (sort_by by_name _) with (sort_entries o). by rewrite getf_sorted, template_text_sorted. Qed.

Hint Resolve string_in_sorted string_of_field_sorted : sorted.

(** ** The validators *)

Lemma validateRunRef_sorted v : validateRunRef (sort_keys v) = validateRunRef v.
Proof. unfold validateRunRef. sorted_same. Qed.

Lemma validateComponentRef_sorted v : validateComponentRef (sort_keys v) = validateComponentRef v.
Proof. unfold validateComponentRef. sorted_same. Qed.

Lemma validate_location_sorted v : validate_location (sort_keys v) = validate_location v.
Proof. unfold validate_location. sorted_same. Qed.
Hint Resolve validateRunRef_sorted validateComponentRef_sorted validate_location_sorted : sorted.

Lemma validateArtifactRef_sorted v : validateArtifactRef number_text (sort_keys v) = validateArtifactRef number_text v.
Proof. unfold validateArtifactRef. sorted_same. Qed.

Lemma validateCatalogRef_sorted v : validateCatalogRef (sort_keys v) = validateCatalogRef v.
Proof. unfold validateCatalogRef. sorted_same. Qed.
Hint Resolve validateCatalogRef_sorted : sorted.

Lemma validateArtifacts_sorted v : validateEvidenceArtifactReferences number_text (sort_keys v) = sort_keys <$> validateEvidenceArtifactReferences number_text v.
Proof.
  destruct v; try done. cbn [sort_keys validateEvidenceArtifactReferences]. rewrite length_map. destruct (128 <? length l)%nat; [done|].
  rewrite !mapM_sorted by (apply validateArtifactRef_sorted || apply string_of_field_sorted).
  destruct (mapM (validateArtifactRef number_text) l); [|done]. cbn. destruct (mapM (string_of_field number_text _) l); [|done]. cbn.
  by destruct (bundle_require _ _ _).
Qed.

Lemma validate_links_sorted v : validate_links number_text (sort_keys v) = validate_links number_text v.
Proof.
  unfold validate_links. do 6 (sorted_step; [sorted_same..|]).
  rewrite !mapM_sorted by (apply validateComponentRef_sorted || apply string_of_field_sorted). do 4 sorted_step. rewrite validateArtifacts_sorted, fmap_bind_res. sorted_same.
Qed.

Lemma validateIdentities_sorted v : validateIdentities (sort_keys v) = validateIdentities v.
Proof. unfold validateIdentities. sorted_same. Qed.

Lemma requirement_texts_sorted l : forall i, requirement_texts i (map sort_keys l) = requirement_texts i l.
Proof. induction l as [|v l IH]; intros i; [done|]. cbn [map requirement_texts]. apply bind_cong_res; [by destruct v|]. intros t. by rewrite IH. Qed.

Hint Resolve requirement_texts_sorted : sorted.

Lemma validate_cleanup_sorted v : validate_cleanup (sort_keys v) = validate_cleanup v.
Proof. unfold validate_cleanup. sorted_same. Qed.

Lemma validate_primary_sorted v : validate_primary number_text (sort_keys v) = validate_primary number_text v.
Proof.
  unfold validate_primary. sorted_same.
Qed.
Hint Resolve validateIdentities_sorted validate_cleanup_sorted validate_primary_sorted : sorted.

Lemma validateSignature_sorted v : validateSignature number_text (sort_keys v) = validateSignature number_text v.
Proof.
  unfold validateSignature. do 4 (sorted_step; [sorted_same..|]). sorted_step. 
  match goal with |- context [sort_keys ?p] => pose proof (validate_primary_sorted p); by destruct p end.
Qed.

Lemma validateCapture_sorted v : validateCapture sha256 (sort_keys v) = validateCapture sha256 v.
Proof. unfold validateCapture. sorted_same. Qed.

Lemma validate_captures_sorted v : validate_captures sha256 (sort_keys v) = validate_captures sha256 v.
Proof. destruct v; try done. cbn [sort_keys validate_captures]. by rewrite length_map, mapM_sorted by apply validateCapture_sorted. Qed.

Lemma validateHandling_sorted v : validateHandling date_parses (sort_keys v) = validateHandling date_parses v.
Proof. unfold validateHandling. sorted_same. Qed.
Hint Rewrite record_sorted own_data_sorted exact_fields_sorted validate_links_sorted validateIdentities_sorted validateSignature_sorted validate_captures_sorted validateHandling_sorted : sorted.

(** The next check of a validator, which passed, passes on the sorted value. *)
Ltac next_check H := let x := fresh in let E := fresh in apply res_bind_Ok in H as (x & E & H); autorewrite with sorted; rewrite E; cbn [mbind res_mbind fmap res_fmap].

(** A bundle that is valid is so with its properties in any order. *)
Lemma validateReproductionBundle_sorted v w : validateReproductionBundle number_text sha256 date_parses v = Ok w ->
  w = v /\ validateReproductionBundle number_text sha256 date_parses (sort_keys v) = Ok (sort_keys v).
Proof.
  unfold validateReproductionBundle. intros H.
  assert (w = v) as -> by (pose proof H as H1; repeat (apply res_bind_Ok in H1 as (? & _ & H1)); by injection H1). split; [done|].
  apply res_bind_Ok in H as ([] & Hg & H). apply boundedGraph_spec in Hg as [Hg1 Hg2].
  rewrite (proj2 (boundedGraph_spec (sort_keys v) tt)) by (by rewrite graph_ok_sorted, graph_size_sorted). cbn [mbind res_mbind].
  next_check H. next_check H. next_check H. next_check H. next_check H. next_check H. next_check H. next_check H. next_check H. next_check H. next_check H. next_check H. next_check H. next_check H. done.
Qed.

Abbreviation validate := (validateReproductionBundle number_text sha256 date_parses).
Abbreviation encode := (encodeReproductionBundle number_text sha256 date_parses).
Abbreviation decode := (decodeReproductionBundle number_text sha256 date_parses).

Lemma encode_textual b : textual b -> validate b = Ok b -> encode b = Ok (sorted_text b ++ [0x0a%N]).
Proof. intros Ht Hv. unfold encodeReproductionBundle, canonical_text. rewrite Hv. cbn [mbind res_mbind]. by rewrite canonical_sorted_text. Qed.

Lemma sorted_line_parse v : textual v -> JSON_parse (sorted_text v ++ [0x0a%N]) = Ok (sort_keys v).
Proof.
  intros Ht. pose proof (textual_sorted v Ht) as Hs. unfold JSON_parse, parse_, parse_all.
  destruct (stringify_reads number_text _ (textual_sendable _ Hs) _ (stringify_sorted number_text v Ht)
    (MAX_MODEL_INTERFACE_JSON_DEPTH + length (sorted_text v ++ [0x0a%N]))%nat ltac:(rewrite length_app; lia) 0%N [0x0a%N] ltac:(done)) as [off E].
  rewrite (run_bind _ _ _ _ _ E), textual_wire by done. done.
Qed.

(** ** The text is well formed *)

Lemma text_ok_app a b : text_ok a -> text_ok b -> text_ok (a ++ b).
Proof. intros [? ?] [? ?]. split; [by apply well_formed_app|by apply Forall_app]. Qed.

Lemma text_ok_ascii s : Forall (fun c => (c < 0x80)%N) s -> text_ok s.
Proof.
  induction 1 as [|c s Hc _ IH]; [by apply (text_ok_lit EmptyString)|]. apply (text_ok_app [c]); [|done]. split; [apply well_formed_single; unfold is_high, is_low; lia|].
  constructor; [lia|constructor].
Qed.

Lemma text_ok_join l : Forall text_ok l -> text_ok (join ($",") l).
Proof.
  induction 1 as [|t l Ht _ IH]; [by apply (text_ok_lit EmptyString)|]. destruct l as [|u l]; [done|]. change (join ($",") (t :: u :: l)) with (t ++ $"," ++ join ($",") (u :: l)).
  apply text_ok_app; [done|]. apply text_ok_app; [by apply text_ok_lit|done].
Qed.

Lemma text_ok_unicode u : (u < 0x10000)%N -> text_ok ($"\u" ++ hex4_of u).
Proof.
  intros Hu. apply text_ok_ascii. assert (forall d, (d < 16)%N -> (hex_digit d < 0x80)%N) as Hd by (intros d ?; unfold hex_digit; destruct (d <? 10)%N; lia).
  repeat (constructor; [first [done|apply Hd]|]); [..|constructor]; try (by apply N.mod_lt). apply N.Div0.div_lt_upper_bound. lia.
Qed.

Lemma text_ok_quote s : js_string s -> text_ok (quote_string s).
Proof.
  intros Hs. unfold quote_string. apply text_ok_app; [by apply text_ok_ascii; repeat constructor|]. apply text_ok_app; [|by apply text_ok_ascii; repeat constructor].
  assert (Forall text_ok (map quote_character (characters s))) as H; [|induction H; [by apply (text_ok_lit EmptyString)|by apply text_ok_app]].
  apply Forall_fmap. eapply Forall_impl; [apply Forall_and; split; [apply characters_shape|by apply characters_js]|].
  intros c [(u & [->|(l & -> & Hh & Hl)]) Hc]; cbn.
  2:{ split; [apply well_formed_pair; by apply Is_true_true|done]. }
  apply Forall_inv in Hc. unfold quote_character. repeat (destruct (_ =? _)%N; [by apply text_ok_ascii; repeat constructor|]).
  destruct (N.ltb_spec u 0x20); cbn [orb]; [by apply text_ok_unicode|]. destruct (is_high u) eqn:Eh; cbn [orb]; [by apply text_ok_unicode|].
  destruct (is_low u) eqn:El; [by apply text_ok_unicode|]. split; [by apply well_formed_single|by constructor].
Qed.

Lemma text_ok_sorted v : textual v -> text_ok (sorted_text v).
Proof.
  induction v as [| |b|x|z|s|l IH|o IH] using js_ind'; intros H; inversion H as [| |z' Hz| |l' Hl|o' Hn Hk Ho]; subst; cbn [sorted_text].
  - by apply text_ok_lit.
  - destruct b; by apply text_ok_lit.
  - rewrite num_of_Z_exact by done. apply text_ok_ascii.
    assert (forall n, Forall (fun c => (c < 0x80)%N) (dec_of_N n)) as Hd.
    { intros n. destruct (dec_of_N_ok n) as [_ Hd _ _ _]. eapply Forall_impl; [exact Hd|]. unfold is_digit. intros c Hc. lia. }
    destruct z'; cbn; [by repeat constructor|apply Hd|]. by constructor.
  - by apply text_ok_quote.
  - do 2 (apply text_ok_app; [first [by apply text_ok_lit|idtac]|]); [|by apply text_ok_lit]. apply text_ok_join, Forall_fmap. rewrite Forall_forall in *. intros x Hx. by apply IH, Hl.
  - do 2 (apply text_ok_app; [first [by apply text_ok_lit|idtac]|]); [|by apply text_ok_lit]. rewrite by_name_map, map_map. apply text_ok_join, Forall_fmap. rewrite by_name_perm.
    rewrite Forall_forall in *. intros kv Hkv. change (text_ok (quote_string kv.1 ++ $":" ++ sorted_text kv.2)).
    apply text_ok_app; [by apply text_ok_quote, Hk|]. apply text_ok_app; [by apply text_ok_lit|]. by apply IH, Ho.
Qed.

Lemma text_ok_bytes s : text_ok s -> head s <> Some 0xfeff%N -> text_decode (utf8_bytes s) = Some s.
Proof.
  intros [Hw Hj] Hb. unfold text_decode. rewrite strip_bom_bytes by done. unfold utf8_bytes. rewrite utf8_decode_bytes by (by apply code_points_scalar).
  cbn. by rewrite from_code_points.
Qed.

Lemma sorted_text_sorted v : textual v -> sorted_text (sort_keys v) = sorted_text v.
Proof.
  induction v as [| |b|x|z|s|l IH|o IH] using js_ind'; intros H; inversion H as [| |z' Hz| |l' Hl|o' Hn Hk Ho]; subst; cbn [sorted_text sort_keys]; try done.
  - do 3 f_equal. rewrite map_map. apply map_ext_Forall. rewrite Forall_forall in *. auto.
  - do 4 f_equal. change (sort_by by_name (map (fun kv => (kv.1, sort_keys kv.2)) o)) with (sort_entries o).
    transitivity (sort_by by_name (map (fun kv => (kv.1, sorted_text kv.2)) (map (fun kv => (kv.1, sort_keys kv.2)) o))).
    + apply sort_by_perm_eq.
      * intros a b. apply compare_lists_op.
      * intros a b c. apply compare_lists_lt_gt.
      * intros [k t] [k' t'] H1 H2 E. apply compare_lists_Eq in E. cbn in E. subst k'. unfold sort_entries in *. rewrite by_name_perm in H1, H2. rewrite map_map in *.
        apply list_elem_of_fmap in H1 as ([k1 v1] & E1 & H1), H2 as ([k2 v2] & E2 & H2). injection E1 as -> ->. injection E2 as -> ->. do 3 f_equal.
        pose proof (getf_member _ _ _ Hn H1) as <-. by pose proof (getf_member _ _ _ Hn H2) as <-.
      * unfold sort_entries. by rewrite by_name_perm.
    + rewrite map_map. f_equal. apply map_ext_Forall. rewrite Forall_forall in *. intros kv Hkv. cbn. f_equal. auto.
Qed.

(** C10: bundles keep their text. For every valid bundle of the values [JSON] can carry,
    [encodeReproductionBundle] gives a text. When it is within the bytes of a bundle,
    [decodeReproductionBundle] accepts that text, and its UTF-8 bytes, and gives the
    same bundle with its properties sorted, which is valid and has the same text; so two
    bundles have one text exactly when they differ only in the order of their
    properties. *)
Theorem bundle_round_trip b : textual b -> validate b = Ok b ->
  exists text, encode b = Ok text /\
    ((byteLength text <= REPRODUCTION_MAX_BYTES)%N ->
       decode (RawText text) = Ok (sort_keys b) /\ decode (RawBytes (utf8_bytes text)) = Ok (sort_keys b)) /\
    encode (sort_keys b) = Ok text /\
    forall b', textual b' -> (encode b' = Ok text <-> validate b' = Ok b' /\ sort_keys b' = sort_keys b).
Proof.
  intros Ht Hv. exists (sorted_text b ++ [0x0a%N]). split; [by apply encode_textual|].
  destruct (validateReproductionBundle_sorted _ _ Hv) as [_ Hs].
  assert (forall b', sort_keys b' = sort_keys b -> textual b' -> sorted_text b' = sorted_text b) as Hsame.
  { intros b' E Ht'. pose proof (stringify_sorted number_text b' Ht') as E1. rewrite E, stringify_sorted in E1 by done. by injection E1. }
  split.
  { intros Hb. assert (decode (RawText (sorted_text b ++ [0x0a%N])) = Ok (sort_keys b)) as Hd.
    - unfold decodeReproductionBundle, parseBoundedJsonValue. cbn [mbind res_mbind]. pose proof Hv as Hg. apply res_bind_Ok in Hg as ([] & Hg & _).
      apply boundedGraph_spec in Hg as [Hg1 Hg2]. rewrite preflight_textual by done. cbn [mbind res_mbind]. by rewrite sorted_line_parse.
    - split; [done|]. unfold decodeReproductionBundle, parseBoundedJsonValue in *. rewrite text_ok_bytes; [done| |].
      + apply text_ok_app; [by apply text_ok_sorted|by apply text_ok_ascii; repeat constructor].
      + destruct (sorted_text_starts b Ht) as (c & t & -> & _ & _ & _ & Hc). intros [= ->]. done. }
  split.
  - rewrite encode_textual; [|by apply textual_sorted|done]. by rewrite sorted_text_sorted.
  - intros b' Ht'. split.
    + intros E. unfold encodeReproductionBundle in E. apply res_bind_Ok in E as (w & Hw & E). destruct (validateReproductionBundle_sorted _ _ Hw) as [-> _]. split; [done|].
      unfold canonical_text in E. rewrite canonical_sorted_text in E by done. cbn in E. injection E as E. apply app_inv_tail in E.
      pose proof (sorted_text_parse b' Ht') as P. rewrite E, sorted_text_parse in P by done. by injection P.
    + intros [Hv' E]. rewrite encode_textual by done. by rewrite (Hsame b').
Qed.

End bundle.

(** ** A concrete bundle *)

(** Decides [textual]. *)
Fixpoint textualb (v : js) : bool :=
  let unitsb (s : ustring) := forallb (fun c => c <? 0x10000)%N s in
  match v with
  | JNull | JBool _ => true
  | JNum x => match num_safe_Z x with Some z => (Z.abs z <=? MAX_SAFE_INTEGER)%Z && bool_decide (x = num_of_Z z) | None => false end
  | JStr s => unitsb s
  | JArr l => forallb textualb l
  | JObj o => bool_decide (NoDup (keys o)) &&
              forallb (fun kv => unitsb kv.1 && bool_decide (array_index kv.1 = None) && (byteLength kv.1 <=? string_bytes)%N && textualb kv.2) o
  | JUndef | JBig _ => false
  end.

Lemma textualb_ok v : textualb v = true -> textual v.
Proof.
  induction v as [| |b|x|z|s|l IH|o IH] using js_ind'; cbn [textualb]; intros H; try discriminate H.
  - constructor.
  - constructor.
  - destruct (num_safe_Z x) as [z|]; [|done]. apply andb_true_iff in H as [H1 H2%bool_decide_eq_true]. subst x. constructor. lia.
  - by apply textual_str, js_stringb_ok.
  - apply textual_arr. rewrite forallb_forall in H. rewrite Forall_forall in *. intros x Hx. apply IH; [done|]. by apply H, list_elem_of_In.
  - apply andb_true_iff in H as [Hn%bool_decide_eq_true H]. rewrite forallb_forall in H. rewrite Forall_forall in IH.
    apply textual_obj; [done|..]; apply Forall_forall; intros kv Hkv; pose proof (proj1 (list_elem_of_In _ _) Hkv) as Hi; apply H in Hi;
      apply andb_true_iff in Hi as [[[H1 H2%bool_decide_eq_true]%andb_true_iff H3%N.leb_le]%andb_true_iff H4].
    + split_and!; [by apply js_stringb_ok|done|done].
    + by apply IH.
Qed.

Example bundle_round_trip_witness :
  exists text, encodeReproductionBundle no_number_text sample_hash (fun _ => true) sample_bundle = Ok text /\
    ((byteLength text <= REPRODUCTION_MAX_BYTES)%N ->
       decodeReproductionBundle no_number_text sample_hash (fun _ => true) (RawText text) = Ok (sort_keys sample_bundle) /\
       decodeReproductionBundle no_number_text sample_hash (fun _ => true) (RawBytes (utf8_bytes text)) = Ok (sort_keys sample_bundle)) /\
    encodeReproductionBundle no_number_text sample_hash (fun _ => true) (sort_keys sample_bundle) = Ok text /\
    forall b', textual b' ->
      (encodeReproductionBundle no_number_text sample_hash (fun _ => true) b' = Ok text <->
       validateReproductionBundle no_number_text sample_hash (fun _ => true) b' = Ok b' /\ sort_keys b' = sort_keys sample_bundle).
Proof. apply bundle_round_trip; [apply textualb_ok; vm_compute; reflexivity|exact (proj1 sample_bundle_decodes)]. Defined.
