(* ===== verification/Suite.v ===== *)
(** * Suites

    [src/src/suite-definition.ts]: [defineSuite], the checks that a suite passes before
    anything is read or started. Its argument is checked at run time and is [js] here;
    functions are not data, so whether the two generated bindings are functions is an
    argument of its own. [String.prototype.localeCompare] is the parameter
    [localeCompare]; freezing has no counterpart. *)

From Stdlib Require Import SpecFloat.
From S2P Require Import Prelude JsNumber Utf16 JsData StrictJson Decode JsText ModelTypes Canonical Descriptor Contract Acceptance BundleText.

(** ** Errors *)

(** [SuiteConfigurationError], and any other error. *)
Inductive suite_error := SuiteConfigurationError (message : ustring) | SuiteThrew (e : exn).

Definition misconfigured {A} (message : string) : res suite_error A := Err (SuiteConfigurationError (lit message)).

(** [if (!b) fail(message)] *)
Definition demand (b : bool) (message : string) : res suite_error unit := if b then Ok tt else misconfigured message.

Definition threw {A} (r : res exn A) : res suite_error A := match r with Ok a => Ok a | Err e => Err (SuiteThrew e) end.

(** ** Values of unknown type *)

(** [!!v] *)
Definition truthy (v : js) : bool :=
  match v with
  | JUndef | JNull => false
  | JBool b => b
  | JNum x => match x with S754_zero _ | S754_nan => false | _ => true end
  | JBig z => negb (z =? 0)%Z
  | JStr s => negb (bool_decide (s = []))
  | JArr _ | JObj _ => true
  end.

Definition is_undefined (v : js) : bool := match v with JUndef => true | _ => false end.
Definition is_string (v : js) : bool := match v with JStr _ => true | _ => false end.

(** A nonempty string. *)
Definition is_nonempty (v : js) : bool := match v with JStr s => negb (bool_decide (s = [])) | _ => false end.

(** [a === b], for values of which one is read from a text: two objects are never one. *)
Definition same_value (a b : js) : bool :=
  match a, b with
  | JUndef, JUndef | JNull, JNull => true
  | JBool x, JBool y => eqb x y
  | JNum x, JNum y => SFeqb x y
  | JBig x, JBig y => (x =? y)%Z
  | JStr x, JStr y => bool_decide (x = y)
  | _, _ => false
  end.

(** [Object.keys(v)] *)
Definition object_keys (v : js) : res suite_error (list ustring) :=
  match v with
  | JUndef | JNull => threw (throw XType "Cannot convert undefined or null to object")
  | JObj o => Ok (keys o)
  | JArr l => Ok (imap (fun i _ => dec_of_N (N.of_nat i)) l)
  | JStr s => Ok (imap (fun i _ => dec_of_N (N.of_nat i)) s)
  | _ => Ok []
  end.

Definition prop_of (v : js) (name : string) : res suite_error js := threw (get_prop v name).

(** [new Set(values).size === values.length] *)
Fixpoint all_distinct (l : list js) : bool :=
  match l with [] => true | v :: l' => negb (existsb (same_value v) l') && all_distinct l' end.

(** ** The suite *)

(** What [defineSuite] returns: the model with its decoded descriptor and contract, and
    the checked parts of its argument. *)
Record SuiteDefinition := MkSuite {
  su_id : ustring;
  su_adapterId : ustring;
  su_model : js;
  su_semanticDigest : ustring;
  su_descriptor : SemanticDescriptor;
  su_contract : ContractV1;
  su_replay : js;
  su_acceptance : AcceptanceRequirements }.

(** [replay.traces] *)
Definition trace_references (replay : js) : list js :=
  match replay with JObj o => match getf o ($"traces") with JArr l => l | _ => [] end | _ => [] end.

(** ** Checks *)

(** A type without opaque values, whose maps have strings for keys. *)
Fixpoint portable (type : ModelType) : bool :=
  match type with
  | TOpaqueItf _ => false
  | TMap key value => match key with TStr => portable value | _ => false end
  | TSet element | TSeq element => portable element
  | TTuple elements => forallb portable elements
  | TRecord fields => forallb (fun f => portable f.2) fields
  | TVariant cases => forallb (fun c => portable c.2) cases
  | TInt | TBool | TStr | TNull => true
  end.

(** [[a.id, a.wireAction, a.wireAliases]] *)
Definition label_row (id wireAction : ustring) (wireAliases : list ustring) : js :=
  JArr [JStr id; JStr wireAction; strings_js wireAliases].
Definition contract_rows (l : list ContractAction) : js := JArr (map (fun a => label_row (ca_id a) (ca_wireAction a) (ca_wireAliases a)) l).
Definition descriptor_rows (l : list ResolvedAction) : js := JArr (map (fun a => label_row (ra_id a) (ra_wireAction a) (ra_wireAliases a)) l).

Definition from_js (root : root_t) (path : list ContractPathSegment) : js :=
  JObj [($"root", JStr (root_name root)); ($"path", JArr (map path_js path))].

Definition public_shape (l : list ResolvedAction) : js :=
  JArr (map (fun a => JObj [($"id", JStr (ra_id a));
                            ($"inputs", JArr (map (fun i => JObj [($"id", JStr (ri_id i)); ($"type", type_js (ri_type i))]) (ra_inputs a)))]) l).

Definition expected_manifest (digest : ustring) (d : SemanticDescriptor) : js :=
  JObj [($"schema", JStr ($"mirrorgate.port/v1")); ($"interfaceDigest", JStr digest);
        ($"initializers", public_shape (sd_initializers d)); ($"actions", public_shape (sd_actions d));
        ($"observations", JArr (map (fun b => JObj [($"id", JStr (ro_id b)); ($"type", type_js (ro_type b))]) (sd_observations d)))].

Section suite.
Context (number_text : number -> ustring) (sha256 : list N -> ustring) (localeCompare : ustring -> ustring -> comparison).

(** [/^[a-f0-9]{64}$/.test(v)] *)
Definition hex64 (v : js) : res suite_error bool := t ← threw (template_text number_text v); mret (is_sha256 t).

(** The properties of every object in the order of the locale. *)
Fixpoint sort_locale (v : js) : js :=
  match v with
  | JArr l => JArr (map sort_locale l)
  | JObj o => JObj (obj_of_entries (sort_by (fun a b => localeCompare a.1 b.1) (map (fun kv => (kv.1, sort_locale kv.2)) o)))
  | _ => v
  end.

Definition canonical_json (v : js) : res suite_error (option ustring) := threw (stringify number_text (sort_locale v)).

Definition same_json (a b : js) : res suite_error bool :=
  l ← canonical_json a; r ← canonical_json b; mret (bool_decide (l = r)).

Definition same_rows (contract descriptor : js) : res suite_error bool :=
  l ← threw (stringify number_text contract); r ← threw (stringify number_text descriptor); mret (bool_decide (l = r)).

(** [l.some(test)], the test throwing. *)
Fixpoint someM {A} (test : A -> res suite_error bool) (l : list A) : res suite_error bool :=
  match l with [] => Ok false | x :: l' => b ← test x; if b : bool then Ok true else someM test l' end.

(** [expectedType !== undefined && canonical(expectedType) !== canonical(type)] *)
Definition type_differs (expected : option ModelType) (actual : ModelType) : res suite_error bool :=
  match expected with None => Ok false | Some t => negb <$> same_json (type_js t) (type_js actual) end.

Definition input_differs (p : ContractInput * ResolvedInput) : res suite_error bool :=
  let '(input, expected) := p in
  if negb (bool_decide (ci_id input = ri_id expected)) then Ok true
  else
    same ← same_json (from_js (ci_root input) (ci_path input)) (from_js (ri_root expected) (ri_path expected));
    if negb same then Ok true else type_differs (ci_expectedType input) (ri_type expected).

(** The projections of the inputs of the actions, in order. *)
Fixpoint check_inputs (metadata : list ContractAction) (resolved : list ResolvedAction) : res suite_error unit :=
  match metadata, resolved with
  | [], _ => Ok tt
  | _ :: _, [] => threw (throw XType "Cannot read properties of undefined")
  | action :: metadata', a :: resolved' =>
      differs ← (if negb (length (ca_inputs action) =? length (ra_inputs a))%nat then Ok true
                 else someM input_differs (combine (ca_inputs action) (ra_inputs a)));
      _ ← demand (negb differs) "metadata input projection disagrees with descriptor";
      check_inputs metadata' resolved'
  end.

Definition observation_differs (p : ContractObservation * ResolvedObservation) : res suite_error bool :=
  let '(observation, resolved) := p in
  if negb (bool_decide (co_id observation = ro_id resolved)) || negb (bool_decide (co_wireName observation = ro_wireName resolved)) ||
     match co_provenance observation with Implementation => false | _ => true end
  then Ok true else type_differs (co_expectedType observation) (ro_type resolved).

(** The descriptor, its digest and the contract of a model, which agree. *)
Definition check_model (model : js) : res suite_error (SemanticDescriptor * ustring * ContractV1) :=
  provenanceDigest ← prop_of model "provenanceDigest";
  valid ← (if is_undefined provenanceDigest then Ok true else hex64 provenanceDigest);
  _ ← demand valid "invalid workflow provenance digest";
  value ← prop_of model "descriptor";
  descriptor ← threw (decodeSemanticDescriptor value);
  digest ← threw (semanticDescriptorDigest sha256 (descriptor_js descriptor));
  metadata ← prop_of model "metadata";
  semanticDigest ← prop_of model "semanticDigest";
  manifest ← prop_of model "publicManifest";
  _ ← demand (same_value (JStr digest) semanticDigest) "suite model identity mismatch";
  metadataDigest ← prop_of metadata "semanticDigest";
  _ ← demand (same_value (JStr digest) metadataDigest) "suite model identity mismatch";
  interfaceDigest ← prop_of manifest "interfaceDigest";
  _ ← demand (same_value (JStr digest) interfaceDigest) "suite model identity mismatch";
  contract_value ← prop_of metadata "contract";
  contract ← threw (decodeContractV1 contract_value);
  _ ← demand (bool_decide (cv_module contract = sd_module descriptor) && bool_decide (cv_interfaceVersion contract = sd_interfaceVersion descriptor))
        "metadata disagrees with descriptor";
  initializers ← same_rows (contract_rows (cv_initializers contract)) (descriptor_rows (sd_initializers descriptor));
  _ ← demand initializers "metadata disagrees with descriptor";
  actions ← same_rows (contract_rows (cv_actions contract)) (descriptor_rows (sd_actions descriptor));
  _ ← demand actions "metadata disagrees with descriptor";
  public ← same_json (expected_manifest digest descriptor) manifest;
  _ ← demand public "public manifest disagrees with descriptor";
  _ ← check_inputs (cv_initializers contract ++ cv_actions contract) (sd_initializers descriptor ++ sd_actions descriptor);
  differs ← (if negb (length (cv_observations contract) =? length (sd_observations descriptor))%nat then Ok true
             else someM observation_differs (combine (cv_observations contract) (sd_observations descriptor)));
  _ ← demand (negb differs) "metadata observation projection disagrees with descriptor";
  _ ← demand (bool_decide (cv_actionVariable contract = $"action_taken") &&
              bool_decide (cv_parameterVariable contract = rp_configuredParamVar (sd_runProfile descriptor)))
        "metadata wire profile disagrees with descriptor";
  _ ← demand (forallb (fun a => forallb (fun i => portable (ri_type i)) (ra_inputs a)) (sd_initializers descriptor ++ sd_actions descriptor) &&
              forallb (fun b => portable (ro_type b)) (sd_observations descriptor)) "unsupported native representation";
  mret (descriptor, digest, contract).

(** [!source.module || !hex64(source.sha256)] *)
Definition source_invalid (source : js) : res suite_error bool :=
  module ← prop_of source "module";
  if negb (truthy module) then Ok true
  else digest ← prop_of source "sha256"; negb <$> hex64 digest.

(** [sources.find((source) => source.module === module)?.sha256] *)
Fixpoint source_digest (module : ustring) (sources : list js) : res suite_error js :=
  match sources with
  | [] => Ok JUndef
  | source :: rest =>
      m ← prop_of source "module";
      if same_value m (JStr module) then prop_of source "sha256" else source_digest module rest
  end.

Definition check_provenance (model : js) (descriptor : SemanticDescriptor) : res suite_error unit :=
  provenance ← prop_of model "provenance";
  if is_undefined provenance then Ok tt
  else
    modelSha256 ← prop_of provenance "modelSha256";
    valid ← hex64 modelSha256;
    _ ← demand valid "invalid bundle source provenance";
    sources ← prop_of provenance "sources";
    match sources with
    | JUndef => Ok tt
    | JArr l =>
        _ ← demand (negb (length l =? 0)%nat) "invalid bundle source closure provenance";
        bad ← someM source_invalid l;
        _ ← demand (negb bad) "invalid bundle source closure provenance";
        modules ← mapM (fun source => prop_of source "module") l;
        _ ← demand (all_distinct modules) "invalid bundle source closure provenance";
        root ← source_digest (sd_module descriptor) l;
        demand (same_value root modelSha256) "bundle root source provenance mismatch"
    | _ => misconfigured "invalid bundle source closure provenance"
    end.

Definition trace_invalid (trace : js) : res suite_error bool :=
  if is_string trace then Ok (negb (is_nonempty trace))
  else if negb (truthy trace) then Ok true
  else
    path ← prop_of trace "path";
    if negb (is_nonempty path) then Ok true
    else
      digest ← prop_of trace "sha256"; valid ← hex64 digest;
      if negb valid then Ok true
      else serverPath ← prop_of trace "serverPath"; mret (negb (is_undefined serverPath) && negb (truthy serverPath)).

Definition replay_names : list ustring := map lit ["kind"; "config"; "traces"; "modelSource"; "provenance"]%string.
Definition config_names : list ustring :=
  map lit ["specPath"; "initPredicate"; "nextPredicate"; "constInit"; "invariant"; "lengthBound"; "paramVars"]%string.

Definition absent_or_string (v : js) : bool := match v with JUndef | JNull | JStr _ => true | _ => false end.
Definition undefined_or_string (v : js) : bool := match v with JUndef | JStr _ => true | _ => false end.

(** A safe integer from zero on. *)
Definition is_count (v : js) : bool := match v with JNum x => match num_safe_Z x with Some z => (0 <=? z)%Z | None => false end | _ => false end.

Definition check_config (config : js) (descriptor : SemanticDescriptor) : res suite_error unit :=
  _ ← demand (truthy config) "invalid replay configuration";
  specPath ← prop_of config "specPath"; lengthBound ← prop_of config "lengthBound";
  _ ← demand (is_nonempty specPath && is_count lengthBound) "invalid replay configuration";
  names ← object_keys config;
  invariant ← prop_of config "invariant"; init ← prop_of config "initPredicate"; next ← prop_of config "nextPredicate";
  const ← prop_of config "constInit"; paramVars ← prop_of config "paramVars";
  _ ← demand (forallb (fun k => bool_decide (k ∈ config_names)) names && is_nonempty invariant &&
              absent_or_string init && absent_or_string next && absent_or_string const && undefined_or_string paramVars)
        "invalid replay configuration fields";
  demand (same_value (nullish paramVars JNull) (opt_js (rp_configuredParamVar (sd_runProfile descriptor))))
    "replay parameter configuration disagrees with model".

Definition optional_hex64 (v : js) : res suite_error bool := if is_undefined v then Ok true else hex64 v.

Definition check_replay (replay : js) (descriptor : SemanticDescriptor) (digest : ustring) : res suite_error unit :=
  names ← object_keys replay;
  _ ← demand (forallb (fun k => bool_decide (k ∈ replay_names)) names) "unknown replay field";
  modelSource ← prop_of replay "modelSource";
  _ ← demand (is_undefined modelSource || is_nonempty modelSource) "invalid local model source";
  kind ← prop_of replay "kind"; traces ← prop_of replay "traces";
  _ ← demand (is_str kind "corpus" && match traces with JArr (_ :: _) => true | _ => false end) "a nonempty ordered corpus is required";
  bad ← someM trace_invalid (trace_references replay);
  _ ← demand (negb bad) "invalid corpus trace reference";
  config ← prop_of replay "config";
  _ ← check_config config descriptor;
  provenance ← prop_of replay "provenance";
  if is_undefined provenance then Ok tt
  else
    interfaceDigest ← prop_of provenance "interfaceDigest";
    _ ← demand (same_value interfaceDigest (JStr digest)) "corpus interface provenance mismatch";
    modelSha256 ← prop_of provenance "modelSha256"; model_valid ← optional_hex64 modelSha256;
    _ ← demand model_valid "invalid provenance digest";
    corpusDigest ← prop_of provenance "corpusDigest"; corpus_valid ← optional_hex64 corpusDigest;
    demand corpus_valid "invalid provenance digest".

(** [typeof v === "string" && v.trim()] *)
Definition is_identifier (v : js) : option ustring :=
  match v with JStr s => if bool_decide (trim s = []) then None else Some s | _ => None end.

(** [bindings]: whether [bindLocal] and [bindPublicPort] are functions. *)
Definition defineSuite (input : js) (bindings : bool) : res suite_error SuiteDefinition :=
  id_value ← prop_of input "id";
  match is_identifier id_value with
  | None => misconfigured "suite id must be nonempty"
  | Some id =>
      model ← prop_of input "model";
      schema ← prop_of model "schema"; representation ← prop_of model "nativeRepresentation";
      profile ← prop_of model "targetProfile"; version ← prop_of model "stateComputerContractVersion";
      _ ← demand (is_str schema "mirrors.suite-model/v1" && is_str representation "mirrors.node-native/v1" &&
                  is_str profile "mirrorecma-async-v1" && is_str version "mirrors.async-state-computer/v1") "unsupported suite model capability";
      parts ← check_model model;
      let '(descriptor, digest, contract) := parts in
      _ ← demand bindings "missing generated binding";
      _ ← check_provenance model descriptor;
      replay ← prop_of input "replay";
      _ ← check_replay replay descriptor digest;
      acceptance_value ← prop_of input "acceptance";
      acceptance ← threw (validateAcceptanceRequirements (Some (map ra_id (sd_actions descriptor))) (nullish acceptance_value (JObj [])));
      adapter_value ← prop_of input "adapterId";
      match is_identifier (nullish adapter_value (JStr ($"suite.local"))) with
      | None => misconfigured "adapter id must be nonempty"
      | Some adapterId => mret (MkSuite id adapterId model digest descriptor contract replay acceptance)
      end
  end.
End suite.
