(* ===== verification/SuitePreflight.v ===== *)
(** * Preflight of a suite

    [src/src/suite-preflight.ts]: the model source and the corpus are read, their hashes
    compared with what the suite declares, and every state of every trace checked
    against the descriptor, before a transport is opened.

    What the file system gives is the environment of a preflight: the bytes of a file
    ([readFile]), what a bounded read sees ([probe]) and the outcome of the walk over the
    modules of the specification ([closure], see [SpecFiles]), whose bounded reads leave
    so many bytes of the budget. *)

From Stdlib Require Import SpecFloat.
From S2P Require Import Prelude JsNumber Utf16 JsData StrictJson Decode JsText ModelTypes Canonical Descriptor Contract Protocol Transport Acceptance BundleText NativeCodec DynamicBinding Suite.

(** ** Bounded reads *)

Definition fileBytes : Z := 16 * 1024 * 1024.
Definition aggregateBytes : Z := 64 * 1024 * 1024.
Definition workflow_traces : nat := 32.
Definition ordinary_traces : nat := 4096.

(** What [lstat], [open], [stat], [read] and the second [stat] see of a file;
    [pr_content]: the bytes from its beginning to its end. *)
Record probe := MkProbe {
  pr_ordinary : bool;
  pr_size : Z;
  pr_opened_same : bool;
  pr_content : list N;
  pr_size_after : Z;
  pr_unmodified : bool }.

(** [readWorkflowFile]; the state is what remains of the budget. *)
Definition readWorkflowFile (file : option probe) : stres Z suite_error (list N) := fun remaining =>
  match file with
  | None => threw (throw XError "the file cannot be read")
  | Some p =>
      _ ← demand (pr_ordinary p) "workflow preflight requires an ordinary file";
      _ ← demand (negb (fileBytes <? pr_size p)%Z) "workflow preflight file exceeds 16 MiB limit";
      _ ← demand (negb (remaining <? pr_size p)%Z) "workflow preflight aggregate byte limit exceeded";
      _ ← demand (pr_opened_same p) "workflow preflight file changed before admission";
      let bytes := take (Z.to_nat (pr_size p + 1)) (pr_content p) in
      let length := Z.of_nat (length bytes) in
      _ ← demand ((length =? pr_size p)%Z && (pr_size_after p =? pr_size p)%Z && pr_unmodified p)
            "workflow preflight file changed during admission";
      Ok (bytes, (remaining - length)%Z)
  end.

(** [new TextDecoder("utf-8", { fatal: true, ignoreBOM: true }).decode(bytes)] *)
Definition workflowUtf8 (bytes : list N) : res suite_error ustring :=
  match utf8_decode bytes with
  | Some cps => Ok (concat (map fromCodePoint cps))
  | None => misconfigured "workflow preflight requires valid UTF-8"
  end.

(** ** Values of a trace *)

(** The reviver of [JSON.parse]: whether every number is a safe integer. *)
Fixpoint safe_numbers (v : js) : bool :=
  match v with
  | JNum x => num_isSafeInteger x
  | JArr l => forallb safe_numbers l
  | JObj o => forallb (fun kv => safe_numbers kv.2) o
  | _ => true
  end.

Definition itf_tags : list ustring := map lit ["#bigint"; "#set"; "#tup"; "#map"; "#unserializable"]%string.

(** The decimal text of an integer: a sign or none, no leading zeros. *)
Definition itf_integer (s : ustring) : bool :=
  let digits := match s with c :: rest => if (c =? 0x2d)%N then rest else s | [] => [] end in
  match Acceptance.canonical_decimal digits with Some _ => true | None => false end.

Definition is_pair (v : js) : bool := match v with JArr [_; _] => true | _ => false end.

(** [depth_left]: one more than the nesting that is left. *)
Fixpoint validateRawItf (depth_left : nat) (v : js) : res suite_error unit :=
  match depth_left with
  | O => misconfigured "ITF nesting exceeds preflight limit"
  | S d =>
      let all l := _ ← mapM (validateRawItf d) l; Ok tt in
      match v with
      | JArr l => all l
      | JObj [(tag, inner)] =>
          if bool_decide (tag = $"#bigint") then
            demand (match inner with JStr s => itf_integer s | _ => false end) "invalid ITF integer"
          else if bool_decide (tag = $"#unserializable") then misconfigured "nonportable ITF value"
          else if bool_decide (tag ∈ itf_tags) then
            match inner with
            | JArr l =>
                _ ← demand (negb (bool_decide (tag = $"#map")) || forallb is_pair l) "invalid ITF map entry";
                all l
            | _ => misconfigured "ITF collection must contain an array"
            end
          else all [inner]
      | JObj o => all (map snd o)
      | _ => Ok tt
      end
  end.

Definition ITF_DEPTH : nat := 128.

(** ** The preflight *)

Record SuitePreflight := MkPreflight {
  pf_modelDigest : ustring;
  pf_corpusDigest : ustring;
  pf_traceDigests : list ustring;
  pf_stateCounts : list nat;
  pf_actions : list (list ustring);
  pf_serverPaths : list js }.

(** One trace: its digest, the path for the server, the actions of its states. *)
Record trace_facts := MkFacts { tf_digest : ustring; tf_serverPath : js; tf_actions : list ustring }.

(** The file system of a preflight. *)
Record suite_files := MkFiles {
  readFile : js -> option (list N);
  probe_of : js -> option probe;
  closure_of : js -> res exn (list ustring);
  workflow_closure_of : js -> Z -> res suite_error (list ustring * Z) }.

Section preflight.
Context (number_text : number -> ustring) (sha256 : list N -> ustring) (fs : suite_files) (suite : SuiteDefinition).

Definition suiteSha256 (text : ustring) : ustring := sha256 (utf8_bytes text).

Definition field (v : js) (name : string) : js := match v with JObj o => getf o (lit name) | _ => JUndef end.

Definition descriptor : SemanticDescriptor := su_descriptor suite.
Definition is_workflow : bool := negb (is_undefined (field (su_model suite) "provenanceDigest")).

(** [labels.get(label)]: of two actions with a label the later one. *)
Definition action_of (label : ustring) : option ResolvedAction :=
  List.find (fun a => bool_decide (label ∈ wire_labels a)) (rev (sd_initializers descriptor ++ sd_actions descriptor)).

Definition read_ordinary (path : js) : res suite_error (list N) :=
  match readFile fs path with Some bytes => Ok bytes | None => threw (throw XError "the file cannot be read") end.

Definition modelPath : js := nullish (field (su_replay suite) "modelSource") (field (field (su_replay suite) "config") "specPath").

(** The captured closure of a workflow with the budget left, and the digest of the model. *)
Definition model_digest : res suite_error (option (list ustring) * Z * ustring) :=
  if is_workflow then
    r ← workflow_closure_of fs modelPath aggregateBytes;
    match r.1 with
    | root :: _ => mret (Some r.1, r.2, suiteSha256 root)
    | [] => threw (throw XType "Cannot read properties of undefined")
    end
  else bytes ← read_ordinary modelPath; mret (None, 0%Z, sha256 bytes).

Definition sort_text : list ustring -> list ustring := sort_by compare_lists.

(** The texts of an array of strings, sorted; [None] when one is not a string. *)
Definition sorted_strings (l : list js) : option (list ustring) :=
  sort_text <$> mapM (fun v => match v with JStr s => Some s | _ => None end) l.

Definition check_closure (workflow : option (list ustring)) (modelDigest : ustring) : res suite_error unit :=
  let provenance := field (su_model suite) "provenance" in
  let declared := field provenance "modelSha256" in
  _ ← demand (is_undefined declared || same_value declared (JStr modelDigest)) "bundle model source hash mismatch";
  _ ← (match field provenance "sources" with
       | JArr l =>
           sources ← (match workflow with Some s => Ok s | None => threw (closure_of fs modelPath) end);
           demand (bool_decide (sorted_strings (map (fun s => field s "sha256") l) = Some (sort_text (map suiteSha256 sources))))
             "bundle source closure hash mismatch"
       | _ => Ok tt
       end);
  let replayed := field (field (su_replay suite) "provenance") "modelSha256" in
  demand (is_undefined replayed || same_value replayed (JStr modelDigest)) "model provenance hash mismatch".

(** ** Traces *)

(** One state, at [index]: the ID of its action. *)
Definition check_state (index : N) (value : js) : res suite_error ustring :=
  match value with
  | JObj state =>
      let wireAction := getf state ($"action_taken") in
      match (match wireAction with JStr label => action_of label | _ => None end) with
      | Some action =>
          _ ← demand (eqb (is_initialize action) (index =? 0)%N) "ITF action is unknown or has wrong phase";
          let plain := List.filter (fun e => negb (prefixed ($"#") e.1)) state in
          _ ← validateRawItf (S ITF_DEPTH) (JObj plain);
          line ← threw (stringify number_text (JObj [($"proto_step", JStr ($"initial_state")); ($"action", wireAction); ($"state", JObj plain)]));
          decoded ← threw (decodeMirrorMessage number_text (default ($"undefined") line));
          match decoded with
          | InitialState _ (CState fields) =>
              _ ← threw (validateDescriptorTraceState descriptor action fields); mret (ra_id action)
          | InitialState _ (COther _) => threw (throw XType "the state is not a record")
          | _ => misconfigured "invalid preflight state"
          end
      | None => misconfigured "ITF action is unknown or has wrong phase"
      end
  | _ => misconfigured "ITF state must be a record"
  end.

Definition check_states (states : list js) : res suite_error (list ustring) :=
  _ ← demand (negb (length states =? 0)%nat) "ITF trace must have an initialization";
  mapMi check_state states.

Definition parse_trace (bytes : list N) : res suite_error js :=
  text ← (if is_workflow then workflowUtf8 bytes else Ok (buffer_text bytes));
  trace ← threw (JSON_parse text);
  _ ← demand (safe_numbers trace) "ITF numbers must be safe integers or #bigint values";
  mret trace.

Definition check_trace (bytes : list N) : res suite_error (list ustring) :=
  trace ← parse_trace bytes;
  match field trace "states" with
  | JArr states =>
      _ ← demand (match nullish (field trace "param_vars") (JArr []) with
                  | JArr names => bool_decide (sorted_strings names = Some (sort_text (rp_itfParamVars (sd_runProfile descriptor))))
                  | _ => false
                  end) "ITF parameter metadata disagrees with descriptor";
      check_states states
  | _ => misconfigured "ITF corpus must contain a states array"
  end.

(** [typeof reference === "string" ? reference : reference.path] *)
Definition reference_path (reference : js) : js := match reference with JStr _ => reference | _ => field reference "path" end.

Definition server_path (reference : js) : js :=
  match reference with JStr _ => reference | _ => nullish (field reference "serverPath") (field reference "path") end.

(** One occurrence of the corpus; the state is the budget of a workflow. *)
Definition check_reference (reference : js) : stres Z suite_error trace_facts :=
  bytes ← (if is_workflow then readWorkflowFile (probe_of fs (reference_path reference)) else liftR (read_ordinary (reference_path reference)));
  let digest := sha256 bytes in
  _ ← liftR (demand (is_string reference || same_value (field reference "sha256") (JStr digest)) "trace provenance hash mismatch");
  ids ← liftR (check_trace bytes);
  mret (MkFacts digest (server_path reference) ids).

Definition corpus_digest (digests : list ustring) : ustring :=
  suiteSha256 ($"{" ++ quote_string ($"schema") ++ $":" ++ quote_string ($"mirrorecma.corpus/v1") ++ $"," ++ quote_string ($"traces") ++ $":[" ++
               join ($",") (map quote_string digests) ++ $"]}").

Definition preflightSuite : res suite_error SuitePreflight :=
  root ← model_digest;
  let '(workflow, budget, modelDigest) := root in
  _ ← check_closure workflow modelDigest;
  let references := trace_references (su_replay suite) in
  _ ← demand (length references <=? (if is_workflow then workflow_traces else ordinary_traces))%nat "corpus exceeds trace occurrences";
  facts ← fst <$> mapMi (fun _ => check_reference) references budget;
  let digests := map tf_digest facts in
  let corpusDigest := corpus_digest digests in
  let declared := field (field (su_replay suite) "provenance") "corpusDigest" in
  _ ← demand (is_undefined declared || same_value declared (JStr corpusDigest)) "ordered corpus provenance mismatch";
  mret (MkPreflight modelDigest corpusDigest digests (map (fun f => length (tf_actions f)) facts) (map tf_actions facts) (map tf_serverPath facts)).
End preflight.
