(* ===== verification/SuiteRun.v ===== *)
(** * Running a suite

    [src/src/suite-runner.ts], with [SuiteLifetime] of [src/src/suite-lifetime.ts]: how a
    run classifies what it met ([failureFor], [safeOperation]) and what it reports
    ([executeSuite]).

    The signal, the mirror, the replay with its callbacks, the closing of the transport
    and the operations that are still pending are the environment of a run ([suite_env]).
    What a replay did to the evidence is the list of calls it made on the tracker. The
    constant messages of failures are left out. *)

From Stdlib Require Import SpecFloat.
From S2P Require Import Prelude JsNumber Utf16 JsData JsText ModelTypes Canonical Descriptor MatchedEvidence EvidenceFacts Acceptance Reproduction BundleText DynamicBinding Suite SuitePreflight.

(** ** Errors *)

(** What [failureFor] sees of an error: its class, and its own [code]. *)
Inductive error_class :=
| EMismatch (traceIndex stateIndex : Z) (action : ustring)
| ECancelled
| EDeadline
| EEvidence
| EConfiguration
| ETransport
| EOperation (sourceCode : option ustring)
| EOther.

Record error_level := Level { el_class : error_class; el_code : option ustring }.

(** An error followed by its causes, as far as they are objects; [[]]: not an object. *)
Abbreviation error := (list error_level).

(** [safeOwnString(error, "code")] *)
Definition own_code (e : error) : option ustring := match e with l :: _ => take 128 <$> el_code l | [] => None end.

Definition CAUSE_DEPTH : nat := 8.

(** The first operation error among the causes that are looked at. *)
Fixpoint operation_error (depth : nat) (e : error) : option error :=
  match depth, e with
  | S d, l :: causes => match el_class l with EOperation _ => Some e | _ => operation_error d causes end
  | _, _ => None
  end.

(** [safeOperation]: what a failed operation is rejected with. *)
Definition safeOperation (cause : error) : error :=
  match operation_error CAUSE_DEPTH cause with
  | Some e => e
  | None => Level (EOperation (own_code cause)) (Some ($"suite_implementation_failed")) :: cause
  end.

(** A cause that is a failure of the implementation, not of a codec. *)
Definition implementation_failure (causes : error) : bool :=
  existsb (fun l => match take 128 <$> el_code l with
                    | Some c => bool_decide (c = $"observer_control_failure") || bool_decide (c = $"APPLICATION")
                    | None => false
                    end) (take CAUSE_DEPTH causes).

Definition negotiation_codes : list ustring :=
  map lit ["negotiation_missing"; "descriptor_schema_unsupported"; "descriptor_digest_invalid"; "negotiation_status_unexpected";
           "interface_digest_mismatch"; "binding_digest_mismatch"; "binding_config_mismatch"; "model_interface_registration_failed"]%string.

Definition codec_code (sourceCode : option ustring) : option ustring :=
  match sourceCode with
  | Some c => if bool_decide (c = $"input_shape_mismatch") || bool_decide (c = $"observation_shape_mismatch") then Some c else None
  | None => None
  end.

Definition class_of (e : error) : error_class := match e with l :: _ => el_class l | [] => EOther end.
Definition is_configuration (stage : failure_stage) : bool := match stage with FConfiguration => true | _ => false end.

Definition failureFor (e : error) (stage : failure_stage) : SuiteFailure :=
  let failure stage kind code := MkSuiteFailure stage kind code None None in
  let code_field := default [] (own_code e) in
  let configuration := failure FConfiguration KConfiguration ($"suite_configuration_invalid") in
  let code := default ($"unknown_failure") (own_code e) in
  let cleanup_code := bool_decide (code = $"adapter_dispose_failed") || bool_decide (code = $"replay_cleanup_failed") in
  let late := match stage with FCleanup => true | _ => cleanup_code end in
  let unknown :=
    if late then failure FCleanup KCleanup ($"cleanup_failed")
    else if bool_decide (code ∈ negotiation_codes) then failure FNegotiation KNegotiation code
    else failure stage (if match stage with FFactory => true | _ => bool_decide (code = $"adapter_factory_failed") end then KImplementation else KUnknown) code in
  match class_of e with
  | EMismatch t s _ => MkSuiteFailure FReplay KMismatch ($"model_mismatch") (Some t) (Some s)
  | ECancelled => failure stage KCancellation code_field
  | EDeadline => failure stage KTimeout code_field
  | EEvidence => failure FReplay KEvidence code_field
  | EConfiguration => configuration
  | ETransport => if is_configuration stage then configuration else failure stage KTransport code_field
  | EOperation sourceCode =>
      if is_configuration stage then configuration
      else if late then failure FCleanup KCleanup ($"cleanup_failed")
      else match (if implementation_failure (tail e) then None else codec_code sourceCode) with
           | Some c => failure stage KCodec c
           | None => failure stage KImplementation code_field
           end
  | EOther => if is_configuration stage then configuration else unknown
  end.

(** ** The environment *)

Inductive mirror_target := MirrorPath | MirrorTransport | MirrorConnector.

(** The closing of a transport raced against the cleanup budget. *)
Inductive close_outcome := Closed | CloseFailed | CloseTimedOut.

(** How far the factory of the adapter came. *)
Inductive factory_progress := NotInvoked | Invoked | Returned.

(** What the replay over the negotiated connection did. *)
Record suite_replay := MkSuiteReplay {
  sp_calls : list tracker_op;
  sp_factory : factory_progress;
  sp_transportClosed : bool;
  sp_error : option error }.

Record suite_env := MkSuiteEnv {
  sx_timeouts : object_t;
  sx_mirror : mirror_target;
  sx_aborted : bool;
  sx_aborted_late : bool;
  sx_connect : option error;
  sx_replay : suite_replay;
  sx_close : close_outcome;
  sx_lifetime_failed : bool;
  sx_unsettled : bool;
  sx_cleanup_error : bool }.

Definition DEFAULT_SUITE_TIMEOUTS : object_t :=
  [($"registrationMs", JNum (num_of_Z 60000)); ($"actionMs", JNum (num_of_Z 10000)); ($"receiveMs", JNum (num_of_Z 60000)); ($"cleanupMs", JNum (num_of_Z 10000))].

Definition timeout_ok (v : js) : bool :=
  match v with JNum x => match num_safe_Z x with Some z => (0 <? z)%Z && (z <=? 0x7fffffff)%Z | None => false end | _ => false end.

Definition normalizeTimeouts (input : object_t) : res suite_error object_t :=
  let result := foldl (fun o kv => obj_set o kv.1 kv.2) DEFAULT_SUITE_TIMEOUTS input in
  _ ← demand (forallb (fun kv => timeout_ok kv.2) result) "invalid suite timeout"; mret result.

(** ** Evidence *)

Definition emptyEvidence (traces : nat) : SuiteEvidence :=
  MkSuiteEvidence false false true (num_of_Z (Z.of_nat traces)) (num_of_Z 0) ($"0") [] [].

Definition evidenceFromTracker (t : option (evidence_config * tracker)) (traces : nat) : SuiteEvidence :=
  match t with
  | None => emptyEvidence traces
  | Some (cfg, s) =>
      let snapshot := snapshot cfg s in
      MkSuiteEvidence (replayEntered snapshot) (corpusCompleted snapshot) (exact snapshot)
        (num_of_Z (tracesSelected snapshot)) (num_of_Z (tracesCompleted snapshot)) (dec_of_Z (initialStatesMatched snapshot))
        (obj_of_entries (map (fun e => (e.1, JStr (dec_of_Z e.2))) (requiredActionCounts snapshot)))
        (obj_of_entries (map (fun p => (acceptancePairKey (pc_from p, pc_to p), JStr (dec_of_Z (pc_count p)))) (requiredPairCounts snapshot)))
  end.

(** ** The run *)

Inductive suite_outcome := Passed | Mismatched | Failed | Cancelled | TimedOut.
Inductive suite_conformance := ConformanceMatched | ConformanceMismatch | ConformanceIncomplete | NotEvaluatedConformance.

Record suite_result := MkResult {
  rs_outcome : suite_outcome;
  rs_conformance : suite_conformance;
  rs_acceptance : AcceptanceAssessment;
  rs_status : cleanup_status;
  rs_quiescent : bool;
  rs_bindingStatus : option cleanup_status;
  rs_digests : option (ustring * ustring);
  rs_evidence : SuiteEvidence;
  rs_failure : option SuiteFailure;
  rs_trustedError : option error;
  rs_closes : bool }.

#[export] Instance failure_kind_eq_dec : EqDecision failure_kind.
Proof. solve_decision. Defined.
#[export] Instance failure_stage_eq_dec : EqDecision failure_stage.
Proof. solve_decision. Defined.
#[export] Instance suite_outcome_eq_dec : EqDecision suite_outcome.
Proof. solve_decision. Defined.

(** The [try] of [executeSuite]: the stage it ended in, what it had obtained, and the
    error it was left with. *)
Record attempt := MkAttempt {
  at_stage : failure_stage;
  at_preflight : option SuitePreflight;
  at_tracker : option (evidence_config * tracker);
  at_owned : bool;
  at_closed : bool;
  at_factory : bool;
  at_error : option error }.

Definition configuration_error : error := [Level EConfiguration (Some ($"suite_configuration_invalid"))].
Definition thrown_error (e : suite_error) : error := match e with SuiteConfigurationError _ => configuration_error | SuiteThrew _ => [Level EOther None] end.
Definition cancelled_error : error := [Level ECancelled (Some ($"replay_cancelled"))].

Definition stage_of (p : factory_progress) : failure_stage := match p with NotInvoked => FNegotiation | Invoked => FFactory | Returned => FReplay end.

Section run.
Context (number_text : number -> ustring) (sha256 : list N -> ustring) (fs : suite_files).

(** [new MatchedEvidenceTracker(...)] for the corpus of a preflight. *)
Definition corpus_tracker (suite : SuiteDefinition) (pf : SuitePreflight) : res evidence_error (evidence_config * tracker) :=
  new_tracker (descriptor_js (su_descriptor suite)) (requiredActions (su_acceptance suite))
    (map (fun p => [p.1; p.2]) (requiredPairs (su_acceptance suite)))
    (map (fun n => num_of_Z (Z.of_nat n)) (pf_stateCounts pf)) true (Some (pf_actions pf)).

Definition attempt_suite (suite : SuiteDefinition) (env : suite_env) : attempt :=
  let owned := match sx_mirror env with MirrorTransport => true | _ => false end in
  let early pf e := MkAttempt FConfiguration pf None owned false false (Some e) in
  match normalizeTimeouts (sx_timeouts env) with
  | Err e => early None (thrown_error e)
  | Ok _ =>
      if sx_aborted env then early None cancelled_error
      else match preflightSuite number_text sha256 fs suite with
      | Err e => early None (thrown_error e)
      | Ok pf =>
          match corpus_tracker suite pf with
          | Err (MatchedEvidenceError _) => early (Some pf) [Level EEvidence (Some ($"evidence_invalid"))]
          | Err (DescriptorError _) => early (Some pf) [Level EOther None]
          | Ok (cfg, s0) =>
              let late stage s owned closed factory e := MkAttempt stage (Some pf) (Some (cfg, s)) owned closed factory e in
              if sx_aborted_late env then late FNegotiation s0 owned false false (Some cancelled_error)
              else match (match sx_mirror env with MirrorTransport => None | _ => sx_connect env end) with
              | Some e => late FNegotiation s0 owned false false (Some e)
              | None =>
                  let p := sx_replay env in
                  late (stage_of (sp_factory p)) (run_calls cfg s0 (sp_calls p)).2 true (sp_transportClosed p)
                    (match sp_factory p with NotInvoked => false | _ => true end) (sp_error p)
              end
          end
      end
  end.

(** [local]: the implementation is acquired in this process. *)
Definition executeSuite (suite : SuiteDefinition) (env : suite_env) (local : bool) : res suite_error suite_result :=
  let a := attempt_suite suite env in
  let closes := at_owned a && negb (at_closed a) in
  let close_failed := closes && match sx_close env with Closed => false | _ => true end in
  let unconfirmed := closes && match sx_close env with CloseTimedOut => true | _ => false end || sx_unsettled env in
  let cleanupFailed := close_failed || sx_lifetime_failed env in
  let evidence := evidenceFromTracker (at_tracker a) (length (trace_references (su_replay suite))) in
  acceptance ← threw (evaluateAcceptance number_text (requirements_js (su_acceptance suite)) evidence);
  let cleanupFailure := cleanupFailed || match at_error a with Some _ => sx_cleanup_error env | None => false end in
  let status := if unconfirmed then CUnconfirmed else if cleanupFailure then CFailed else CSucceeded in
  let thrown := (fun e => failureFor e (at_stage a)) <$> at_error a in
  let cooperative := negb local && bool_decide (at_stage a = FReplay) &&
    match thrown with Some f => bool_decide (sf_kind f = KTimeout) || bool_decide (sf_kind f = KCancellation) | None => false end in
  let status' := if cooperative then match status with CSucceeded => CUnconfirmed | _ => status end else status in
  let quiescent := negb (cooperative || unconfirmed) in
  let conformance :=
    if match thrown with Some f => bool_decide (sf_kind f = KMismatch) | None => false end then ConformanceMismatch
    else if se_complete evidence then ConformanceMatched else if enteredReplay evidence then ConformanceIncomplete else NotEvaluatedConformance in
  let failure :=
    match thrown with
    | Some f => Some f
    | None =>
        match as_status acceptance with
        | Unmet => Some (MkSuiteFailure FAcceptance KAcceptance ($"coverage_unmet") None None)
        | Met => match status' with CSucceeded => None | _ => Some (MkSuiteFailure FCleanup KCleanup ($"cleanup_unconfirmed") None None) end
        | _ => Some (MkSuiteFailure FAcceptance KEvidence ($"evidence_incomplete") None None)
        end
    end in
  let outcome :=
    match failure with
    | None => Passed
    | Some f => match sf_kind f with KMismatch => Mismatched | KCancellation => Cancelled | KTimeout => TimedOut | _ => Failed end
    end in
  mret (MkResult outcome conformance acceptance status' quiescent (if at_factory a then Some status' else None)
          ((fun pf => (pf_modelDigest pf, pf_corpusDigest pf)) <$> at_preflight a) evidence failure (at_error a) closes).
End run.

(** The parts of a result that a reproduction reads. *)
Definition reproduction_view (r : suite_result) : SuiteResult :=
  MkSuiteResult (bool_decide (rs_outcome r = Passed)) (rs_status r) (rs_failure r)
    (match rs_trustedError r with Some (Level (EMismatch _ _ action) _ :: _) => Some action | _ => None end).
