(* ===== verification/SuiteFacts.v ===== *)
(** * What a passed suite means

    The theorems about suites: the corpus that the preflight accepted is what the
    tracker acknowledged, action by action; a suite passes only when that corpus was
    matched to its end, covers every requirement, and everything was cleaned up. *)

From Stdlib Require Import SpecFloat.
From S2P Require Import Prelude JsNumber Utf16 JsData StrictJson Decode JsText ModelTypes Canonical Descriptor Digest Requests MatchedEvidence EvidenceFacts Acceptance Reproduction BundleText NativeCodec DynamicBinding Suite SuitePreflight SuiteRun.

(** ** The log follows the expected actions *)

(** Where both have an action, it is the same. *)
Definition agrees (ts expected : list (list ustring)) : Prop :=
  forall i j a b, ts !! i ≫= (.!! j) = Some a -> expected !! i ≫= (.!! j) = Some b -> a = b.

(** The log with the action that is being matched. *)
Definition upcoming (g : replay_log) : list (list ustring) :=
  match_in (traces g) (match unacknowledged g with Some l => Some l | None => observing g end).

Lemma match_in_snoc ts t l : match_in (ts ++ [t]) (Some l) = ts ++ [t ++ [l_id l]].
Proof. unfold match_in. by rewrite last_snoc, removelast_snoc. Qed.

Lemma match_in_keeps ts p i j a : ts !! i ≫= (.!! j) = Some a -> match_in ts p !! i ≫= (.!! j) = Some a.
Proof.
  destruct p as [l|]; [|done]. destruct (last_split ts) as [->|(k & t & ->)]; [done|]. rewrite match_in_snoc.
  destruct (decide (i < length k)%nat) as [Hi|Hi]; [by rewrite !lookup_app_l by done|].
  rewrite !lookup_app_r by lia. destruct (i - length k)%nat; cbn; [|done]. intros H. by apply lookup_app_l_Some.
Qed.

Lemma agrees_less ts p expected : agrees (match_in ts p) expected -> agrees ts expected.
Proof. intros H i j a b Ha. by apply H, match_in_keeps. Qed.

Lemma agrees_snoc ts t l expected :
  agrees (ts ++ [t]) expected -> (forall b, expected !! length ts ≫= (.!! length t) = Some b -> l_id l = b) ->
  agrees (ts ++ [t ++ [l_id l]]) expected.
Proof.
  intros H Hl i j a b. destruct (decide (i = length ts)) as [->|Hi].
  - rewrite list_lookup_middle by done. cbn. destruct (decide (j = length t)) as [->|Hj].
    + rewrite list_lookup_middle by done. intros [= <-]. apply Hl.
    + intros Ha. apply H. rewrite list_lookup_middle by done. cbn. apply lookup_app_Some in Ha as [?|[? Ha]]; [done|].
      destruct (j - length t)%nat eqn:E; [lia|done].
  - intros Ha. apply H. destruct (decide (i < length ts)%nat) as [Hlt|Hge]; [by rewrite lookup_app_l in Ha |- *|].
    rewrite lookup_app_r in Ha by lia. destruct (i - length ts)%nat eqn:E; [lia|done].
Qed.

Lemma agrees_nil_snoc ts expected : agrees ts expected -> agrees (ts ++ [[]]) expected.
Proof.
  intros H i j a b Ha. apply H. destruct (decide (i < length ts)%nat) as [Hlt|Hge]; [by rewrite lookup_app_l in Ha|].
  rewrite lookup_app_r in Ha by lia. by destruct (i - length ts)%nat.
Qed.

Lemma agrees_whole ts expected : agrees ts expected -> lens ts = lens expected -> ts = expected.
Proof.
  intros H. assert (forall i t u, ts !! i = Some t -> expected !! i = Some u -> length t = length u -> t = u) as Hi.
  { intros i t u Ht Hu Hl. apply list_eq_same_length with (length u); [done|done|]. intros j a b Hj Ha Hb.
    apply (H i j); by rewrite ?Ht, ?Hu. }
  clear H. revert expected Hi. induction ts as [|t ts IH]; intros [|u expected] Hi; cbn; try done.
  intros [= Hl Hr]. f_equal; [apply (Hi 0%nat); [done|done|lia]|]. apply IH; [|done]. intros i. apply (Hi (S i)).
Qed.

Section follows.
Context (cfg : evidence_config) (expected : list (list ustring)).

(** An action that begins is the expected one, if there is one. *)
Lemma begin_expected initial wire s s' : begin cfg initial wire s = (Ok tt, s') ->
  exists a, lookup (labels cfg) wire = Some a /\ active s' = Some a /\
    forall id, expected_action cfg s' = Some id -> id = l_id a.
Proof.
  unfold begin. intros H. apply method_bind_Ok in H as (? & ? & _ & H). apply method_bind_Ok in H as (? & ? & _ & H).
  apply method_bind_Ok in H as (? & ? & _ & H). destruct (lookup (labels cfg) wire) as [a|]; [|by injection H].
  do 4 (apply method_bind_Ok in H as (? & ? & _ & H)).
  apply method_bind_Ok in H as (? & ? & _ & H).
  apply method_bind_Ok in H as (e & s1 & He & H). injection He as <- <-.
  apply method_bind_Ok in H as ([] & s2 & Hg & H). apply method_bind_Ok in H as ([] & s3 & Hm & H).
  injection Hm as <-. injection H as <-. exists a. split_and!; [done|done|]. intros id Hid.
  match type of Hg with when ?b _ ?s = _ => destruct b eqn:Eb; cbn [when] in Hg; [by destruct s; injection Hg|injection Hg as <-];
    change (expected_action cfg s = Some id) in Hid end.
  rewrite Hid in Eb. by apply negb_false_iff, bool_decide_eq_true in Eb.
Qed.

Lemma follow_step e g s s' : tracks cfg g s -> expectedActions cfg = Some expected -> agrees (upcoming g) expected ->
  exec cfg (Observe e) s = (Ok tt, s') -> tracks cfg (log_step cfg g e) s' -> agrees (upcoming (log_step cfg g e)) expected.
Proof.
  intros Hg He Ha Hs Hg'. destruct e as [initial wire| |]; cbn [exec] in Hs.
  - destruct (begin_expected _ _ _ _ Hs) as (a & Hl & Hact & Hid).
    cbn [log_step] in *. rewrite Hl in *. set (g1 := log_commit g) in *.
    assert (agrees (traces g1) expected) as H1.
    { unfold upcoming in Ha. cbn. destruct (unacknowledged g); [done|]. by apply agrees_less in Ha. }
    unfold upcoming. cbn [traces unacknowledged observing].
    assert (agrees (if initial then traces g1 ++ [[]] else traces g1) expected) as H2
      by (destruct initial; [by apply agrees_nil_snoc|done]).
    set (ts := if initial then _ else _) in *. destruct (last_split ts) as [->|(k & t & E)]; [done|].
    rewrite E in H2 |- *. rewrite match_in_snoc. apply agrees_snoc; [done|]. intros b Hb. symmetry. apply Hid.
    unfold expected_action. rewrite He. cbn. destruct (tr_tally _ _ _ Hg') as [T1 T2 _ _ _ _ _]. cbn [traces] in T1, T2.
    rewrite E in T1, T2. rewrite T1, T2, current_trace_snoc, length_app. cbn [length].
    replace (Z.to_nat (Z.of_nat (length k + 1) - 1)) with (length k) by lia. by rewrite Nat2Z.id.
  - unfold upcoming in *. cbn. destruct (unacknowledged g) eqn:Hu; [|by destruct (observing g)].
    destruct (tr_one _ _ _ Hg) as [->|?]; [by apply agrees_less in Ha|congruence].
  - unfold upcoming in *. cbn. unfold log_commit. cbn. destruct (unacknowledged g) eqn:Hu; [|done].
    destruct (tr_one _ _ _ Hg) as [->|?]; [done|congruence].
Qed.

Lemma follow_run es : forall g s rest, tracks cfg g s -> expectedActions cfg = Some expected -> agrees (upcoming g) expected ->
  Forall (fun r => r = true) (run_calls cfg s (map Observe es ++ rest)).1 ->
  agrees (upcoming (foldl (log_step cfg) g es)) expected.
Proof.
  induction es as [|e es IH]; intros g s rest Hg He Ha H; [done|]. cbn [map run_calls foldl app] in *.
  pose proof (observe_tracks cfg e g s Hg s eq_refl) as Ht.
  destruct (exec cfg (Observe e) s) as [[[]|x] s1] eqn:Es; [|by destruct (run_calls cfg s1 _); apply Forall_cons in H as [? _]].
  destruct Ht as [Ht _]. apply (IH _ s1 rest Ht He); [by eapply follow_step|].
  destruct (run_calls cfg s1 _). by apply Forall_cons in H as [_ H].
Qed.

(** Exact and complete evidence acknowledges the expected actions. *)
Lemma corpus_run s os : tracks cfg (ReplayLog [] None None) s -> expectedActions cfg = Some expected -> lengths cfg = lens expected ->
  complete (run_calls cfg s os).2 = true -> uncertain (run_calls cfg s os).2 = [] ->
  exists es k, os = map Observe es ++ Finish :: k /\ forallb is_interrupt k = true /\
    traces (log_commit (log_of cfg es)) = expected /\ tallied expected (run_calls cfg s os).2.
Proof.
  intros Ht He Hl Hc Hu. destruct (exact_run cfg os _ _ Ht Hc Hu) as (es & k & Hos & Hk & Hrs & Hf & _).
  exists es, k. fold (log_of cfg es) in Hf. enough (traces (log_commit (log_of cfg es)) = expected) as E.
  { split_and!; [done|done|done|]. rewrite <- E. apply Hf. }
  apply agrees_whole; [|by rewrite (fi_lens _ _ _ Hf)]. rewrite Hos in Hrs.
  assert (agrees (upcoming (log_of cfg es)) expected) as Ha.
  { eapply follow_run; [exact Ht|done|by intros i j a b|exact Hrs]. }
  unfold upcoming in Ha. cbn. destruct (unacknowledged _); [done|]. by apply agrees_less in Ha.
Qed.
End follows.

(** ** The pairs of a tracker stay the required ones *)

Definition pair_of (p : pair_count) : ustring * ustring := (pc_from p, pc_to p).

Section pairs.
Context (cfg : evidence_config) (required : list (ustring * ustring)).

Definition counts_for (s : tracker) : Prop := map pair_of (pairs s) = required.
Definition keeps {A} (m : op A) : Prop := triple counts_for m (fun _ => counts_for) (fun _ => counts_for).

Lemma keeps_bind {A B} (m : op A) (f : A -> op B) : keeps m -> (forall a, keeps (f a)) -> keeps (m ≫= f).
Proof. intros Hm Hf. unfold keeps. by eapply triple_bind; [exact Hm|]. Qed.
Lemma keeps_ret {A} (a : A) : keeps (mret a).
Proof. by intros s H. Qed.
Lemma keeps_this {A} (f : tracker -> A) : keeps (this f).
Proof. by intros s H. Qed.
Lemma keeps_modify f : (forall s, pairs (f s) = pairs s) -> keeps (modify f).
Proof. intros Hf s H. cbn. unfold counts_for. by rewrite Hf. Qed.
Lemma keeps_fail {A} reason message : keeps (fail_with reason message : op A).
Proof. by intros s H. Qed.
Lemma keeps_when b (m : op unit) : keeps m -> keeps (when b m).
Proof. intros H. destruct b; [done|apply keeps_ret]. Qed.
End pairs.

Create HintDb keeps.
#[export] Hint Resolve keeps_ret keeps_this keeps_fail : keeps.

Ltac keeps := repeat first
  [ solve [auto with keeps] | apply keeps_when | (apply keeps_bind; [|intros ?])
  | (apply keeps_modify; by intros ?) | case_match ].

Lemma keeps_increment required value : keeps required (increment value).
Proof. unfold increment. keeps. Qed.
#[export] Hint Resolve keeps_increment : keeps.

Lemma keeps_bump_pairs required from to todo : forall done,
  triple (fun s => counts_for required s /\ pairs s = done ++ todo) (bump_pairs from to done todo)
    (fun _ => counts_for required) (fun _ => counts_for required).
Proof.
  induction todo as [|p todo IH]; intros done; cbn [bump_pairs]; [by intros s [H _]|].
  destruct (_ && _).
  - intros s [Hs Hp]. unfold mbind, method_mbind. pose proof (keeps_increment required (pc_count p) s Hs) as Hi.
    pose proof (increment_spec (pc_count p) s s eq_refl) as Hv.
    destruct (increment (pc_count p) s) as [[v|e] s1]; [|done]. destruct Hv as [-> ->]. cbn [modify].
    apply IH. split; [|by rewrite <- app_assoc]. unfold counts_for in *. rewrite <- Hs, Hp. cbn. by rewrite !map_app.
  - specialize (IH (done ++ [p])). rewrite <- app_assoc in IH. exact IH.
Qed.

Lemma keeps_all_pairs {A} required from to (k : op A) : keeps required k ->
  keeps required (prs ← this pairs; _ ← bump_pairs from to [] prs; k).
Proof.
  intros Hk s Hs. pose proof (keeps_bump_pairs required from to (pairs s) [] s (conj Hs eq_refl)) as H.
  unfold mbind, method_mbind. cbn [this].
  destruct (bump_pairs from to [] (pairs s) s) as [[[]|e] s']; [by apply Hk|done].
Qed.

Lemma keeps_commit required : keeps required commit.
Proof.
  unfold commit, commit_pending, bump, bump_action. apply keeps_bind; [keeps|]. intros [p|]; [|keeps].
  do 2 (apply keeps_bind; [keeps|intros ?]). destruct (l_initial p); [keeps|].
  do 2 (apply keeps_bind; [keeps|intros ?]). apply keeps_bind; [keeps|]. intros from. apply keeps_all_pairs. keeps.
Qed.
#[export] Hint Resolve keeps_commit : keeps.

Lemma keeps_exec cfg required o : keeps required (exec cfg o).
Proof.
  destruct o as [[initial wire| |]| |rejected]; cbn [exec];
    unfold begin, begin_initial, begin_transition, reported, acknowledge, done_, interrupt, finishTrace, requireOpen, bump; keeps.
Qed.

Lemma keeps_run cfg required os : forall s, counts_for required s -> counts_for required (run_calls cfg s os).2.
Proof.
  induction os as [|o os IH]; intros s Hs; [done|]. cbn [run_calls].
  pose proof (keeps_exec cfg required o s Hs) as H. destruct (exec cfg o s) as [r s1].
  assert (counts_for required s1) as H1 by (by destruct r). specialize (IH s1 H1). by destruct (run_calls cfg s1 os).
Qed.

(** ** Requirements that are met were matched *)

Lemma getf_of_entries (l : object_t) k v : getf (obj_of_entries l) k = v -> v <> JUndef -> (k, v) ∈ l.
Proof.
  unfold obj_of_entries. intros H Hv.
  assert (forall o, getf (foldl (fun o kv => obj_set o kv.1 kv.2) o l) k = v -> (k, v) ∈ l \/ getf o k = v) as Hl.
  2:{ destruct (Hl [] H) as [?|E]; [done|by rewrite <- E in Hv]. }
  clear H Hv. induction l as [|[k' v'] l IH]; intros o H; [by right|]. cbn in H.
  destruct (IH _ H) as [?|Ho]; [left; by right|]. rewrite getf_obj_set in Ho. cbn in Ho.
  case_bool_decide as E; [|by right]. rewrite <- Ho, E. left. by left.
Qed.

Lemma count_positive {A} `{EqDecision A} (x : A) l : count x l <> 0%Z -> x ∈ l.
Proof.
  unfold count. intros H. destruct (List.filter _ l) as [|y k] eqn:E; [done|].
  assert (In y (List.filter (fun y => bool_decide (x = y)) l)) as [Hin Hy]%List.filter_In by (rewrite E; by left).
  apply bool_decide_eq_true in Hy as ->. by apply list_elem_of_In.
Qed.

Lemma entry_counted {A} (f : A -> ustring) (n : A -> Z) l k c :
  count_in (obj_of_entries (map (fun e => (f e, JStr (dec_of_Z (n e)))) l)) k = Some c -> c <> 0%N ->
  exists e, e ∈ l /\ f e = k /\ n e <> 0%Z.
Proof.
  unfold count_in. destruct (getf _ k) as [| | | | |s| |] eqn:E; try done. intros Hs Hc.
  apply getf_of_entries in E; [|done]. apply list_elem_of_fmap in E as (e & [= -> ->] & He).
  exists e. split_and!; [done|done|]. intros Hn. rewrite Hn in Hs. by injection Hs as <-.
Qed.

Lemma requirements_js_inv ids r r' : validateAcceptanceRequirements ids (requirements_js r) = Ok r' -> r' = r /\ admissible ids r.
Proof.
  intros [Ha (o & Ho & _ & H1 & H2)]%validate_Ok. destruct (requirements_fields r) as (o' & Ho' & _ & H1' & H2').
  rewrite Ho in Ho'. injection Ho' as <-. rewrite H1 in H1'. rewrite H2 in H2'. injection H1' as E1. injection H2' as E2.
  enough (r' = r) as -> by done. destruct r as [acts prs], r' as [acts' prs']. cbn in *. f_equal.
  - apply (list_fmap_eq_inj JStr); [by intros ? ? [= ->]|done].
  - apply (list_fmap_eq_inj (fun p => JArr [JStr p.1; JStr p.2])); [intros [] [] [= -> ->]; done|done].
Qed.

Lemma met_counts number_text r e a : evaluateAcceptance number_text (requirements_js r) e = Ok a -> as_status a = Met ->
  admissible None r /\ enteredReplay e = true /\ evidence_conclusive number_text e = true /\
  Forall (fun id => exists n, count_in (actionCounts e) id = Some n /\ n <> 0%N) (requiredActions r) /\
  Forall (fun p => exists n, count_in (pairCounts e) (acceptancePairKey p) = Some n /\ n <> 0%N) (requiredPairs r).
Proof.
  unfold evaluateAcceptance. intros H Hm. apply res_bind_Ok in H as (r' & Hr & [= <-]).
  apply requirements_js_inv in Hr as [-> Hr]. destruct (enteredReplay e); [|done]. destruct (evidence_conclusive _ e); [|done].
  cbn [negb] in Hm. destruct (_ || _) eqn:Ex; [done|]. apply orb_false_iff in Ex as [Ca Cp].
  apply (existsb_undefined (fun id => count_in (actionCounts e) id)) in Ca.
  apply (existsb_undefined (fun p => count_in (pairCounts e) (acceptancePairKey p))) in Cp.
  assert (forall {A} (f : A -> option N) l, Forall (fun x => exists n, f x = Some n) l ->
    List.filter (fun x => is_zero (f x)) l = [] -> Forall (fun x => exists n, f x = Some n /\ n <> 0%N) l) as Hnil.
  { intros A f l Hl E. rewrite Forall_forall in Hl. apply Forall_forall. intros x Hx. destruct (Hl x Hx) as [n Hn].
    exists n. split; [done|]. intros ->. assert (x ∈ List.filter (fun x => is_zero (f x)) l) as Hin by (by apply zero_iff).
    rewrite E in Hin. by apply not_elem_of_nil in Hin. }
  cbn [as_status] in Hm. destruct (List.filter _ (requiredActions r)) eqn:Ea; [|done].
  destruct (List.filter _ (requiredPairs r)) eqn:Ep; [|done]. split_and!; [done..| |].
  - by apply (Hnil _ (fun id => count_in (actionCounts e) id)).
  - by apply (Hnil _ (fun p => count_in (pairCounts e) (acceptancePairKey p))).
Qed.

Lemma coverage ts s (actions : list ustring) (required : list (ustring * ustring)) cfg n :
  tallied ts s -> counts_for required s -> NoDup (map acceptancePairKey required) ->
  let e := evidenceFromTracker (Some (cfg, s)) n in
  Forall (fun id => exists n, count_in (actionCounts e) id = Some n /\ n <> 0%N) actions ->
  Forall (fun p => exists n, count_in (pairCounts e) (acceptancePairKey p) = Some n /\ n <> 0%N) required ->
  Forall (fun id => id ∈ transitions ts) actions /\ Forall (fun p => p ∈ consecutive ts) required.
Proof.
  intros Ht Hk Hn e Ha Hp. split; apply Forall_forall.
  - intros id Hid. rewrite Forall_forall in Ha. destruct (Ha id Hid) as (c & Hc & Hc0).
    apply (entry_counted fst snd) in Hc as (x & Hx & <- & Hx0); [|done]. apply count_positive.
    pose proof (ta_actions _ _ Ht) as Hta. rewrite Forall_forall in Hta. by rewrite <- (Hta x Hx).
  - intros p Hin. rewrite Forall_forall in Hp. destruct (Hp p Hin) as (c & Hc & Hc0).
    apply (entry_counted (fun q => acceptancePairKey (pc_from q, pc_to q)) pc_count) in Hc as (x & Hx & Hxk & Hx0); [|done].
    assert (pair_of x = p) as <-.
    { assert (pair_of x ∈ required) as Hxr by (rewrite <- Hk; by apply list_elem_of_fmap_2).
      apply list_elem_of_lookup_1 in Hxr as [i Hi]. apply list_elem_of_lookup_1 in Hin as [j Hj].
      assert (i = j) as ->; [|congruence]. eapply NoDup_lookup; [exact Hn| |]; rewrite list_lookup_fmap.
      - by rewrite Hi.
      - rewrite Hj. cbn. by f_equal. }
    apply count_positive. pose proof (ta_pairs _ _ Ht) as Htp. rewrite Forall_forall in Htp.
    unfold pair_of. by rewrite <- (Htp x Hx).
Qed.

(** ** The preflight *)

Lemma demand_Ok b message u : demand b message = Ok u <-> b = true.
Proof. unfold demand, misconfigured. destruct b, u; naive_solver. Qed.

Lemma threw_Ok {A} (m : res exn A) a : threw m = Ok a <-> m = Ok a.
Proof. destruct m; cbn; naive_solver. Qed.

Lemma mapMi_from_lookup {E A B} (f : N -> A -> res E B) l : forall i ys, mapMi_from i f l = Ok ys ->
  forall j y, ys !! j = Some y -> exists x, l !! j = Some x /\ f (i + N.of_nat j)%N x = Ok y.
Proof.
  induction l as [|x l IH]; intros i ys H; cbn in H.
  - injection H as <-. by intros [].
  - apply res_bind_Ok in H as (y & Hy & H). apply res_bind_Ok in H as (ys' & Hys & [= <-]). intros [|j] z; cbn.
    + intros [= <-]. exists x. by rewrite N.add_0_r.
    + intros Hz. destruct (IH _ _ Hys j z Hz) as (w & Hw & Hf). exists w. split; [done|].
      rewrite <- Hf. f_equal. lia.
Qed.

Lemma mapMi_from_state {S E A B} (f : A -> stres S E B) l : forall i s ys s',
  mapMi_from i (fun _ => f) l s = Ok (ys, s') -> Forall2 (fun x y => exists s1 s2, f x s1 = Ok (y, s2)) l ys.
Proof.
  induction l as [|x l IH]; intros i s ys s' H; cbn [mapMi_from] in H.
  - apply stres_ret_Ok in H as [<- _]. constructor.
  - apply stres_bind_Ok in H as (y & s1 & Hy & H). apply stres_bind_Ok in H as (ys' & s2 & Hys & H).
    apply stres_ret_Ok in H as [<- _]. constructor; [by exists s, s1|by eapply IH].
Qed.

(** An initialization followed by transitions, by the IDs of the descriptor. *)
Definition phased (d : SemanticDescriptor) (ids : list ustring) : Prop :=
  ids <> [] /\ forall j id, ids !! j = Some id -> exists action,
    action ∈ sd_initializers d ++ sd_actions d /\ ra_id action = id /\ is_initialize action = (j =? 0)%nat.

Section preflight.
Context (number_text : number -> ustring) (sha256 : list N -> ustring) (fs : suite_files) (suite : SuiteDefinition).

Lemma check_state_action i v id : check_state number_text suite i v = Ok id -> exists action,
  action ∈ sd_initializers (su_descriptor suite) ++ sd_actions (su_descriptor suite) /\ ra_id action = id /\
  is_initialize action = (i =? 0)%N.
Proof.
  unfold check_state. destruct v; try done. destruct (match getf _ _ with JStr label => _ | _ => None end) as [action|] eqn:Ea; [|done].
  intros H. apply res_bind_Ok in H as (? & Hp%demand_Ok%eqb_prop & H). apply res_bind_Ok in H as (? & _ & H).
  apply res_bind_Ok in H as (line & _ & H). apply res_bind_Ok in H as (m & _ & H).
  exists action. split_and!; [| |done].
  - destruct (getf _ _); try done. unfold action_of in Ea. apply find_some in Ea as [Hin _].
    apply list_elem_of_In. by apply in_rev.
  - repeat case_match; try done; apply res_bind_Ok in H as (? & _ & H); by injection H.
Qed.

Lemma check_trace_phased bytes ids : check_trace number_text suite bytes = Ok ids -> phased (su_descriptor suite) ids.
Proof.
  unfold check_trace. intros H. apply res_bind_Ok in H as (trace & _ & H). destruct (field _ _); try done.
  apply res_bind_Ok in H as (? & _ & H). unfold check_states in H. apply res_bind_Ok in H as (? & Hl%demand_Ok & H).
  split.
  - intros ->. apply mapMi_from_length in H. by rewrite <- H in Hl.
  - intros j id Hj. destruct (mapMi_from_lookup _ _ _ _ H j id Hj) as (v & _ & Hv).
    destruct (check_state_action _ _ _ Hv) as (action & Hin & Hid & Hp). exists action. split_and!; [done..|].
    rewrite Hp. by destruct j.
Qed.

(** What a reference of the corpus was admitted for. *)
Definition trace_admitted (reference : js) (f : trace_facts) : Prop :=
  phased (su_descriptor suite) (tf_actions f) /\
  (is_string reference = false -> same_value (field reference "sha256") (JStr (tf_digest f)) = true) /\
  exists bytes, tf_digest f = sha256 bytes /\ check_trace number_text suite bytes = Ok (tf_actions f) /\
    (is_workflow suite = false -> readFile fs (reference_path reference) = Some bytes).

Lemma check_reference_admitted reference s f s' :
  check_reference number_text sha256 fs suite reference s = Ok (f, s') -> trace_admitted reference f.
Proof.
  unfold check_reference. intros H. apply stres_bind_Ok in H as (bytes & s1 & Hb & H).
  apply stres_bind_Ok in H as (? & s2 & Hd & H). apply liftR_Ok in Hd as [Hd%demand_Ok _].
  apply stres_bind_Ok in H as (ids & s3 & Hi & H). apply liftR_Ok in Hi as [Hi _]. apply stres_ret_Ok in H as [<- _].
  split; [by eapply check_trace_phased|]. cbn. split.
  - intros Hs. by rewrite Hs in Hd.
  - exists bytes. split_and!; [done..|]. intros Hw. rewrite Hw in Hb. apply liftR_Ok in Hb as [Hb _].
    unfold read_ordinary in Hb. destruct (readFile _ _); [by injection Hb as ->|done].
Qed.

Lemma preflight_facts pf : preflightSuite number_text sha256 fs suite = Ok pf -> exists facts,
  Forall2 trace_admitted (trace_references (su_replay suite)) facts /\
  pf_traceDigests pf = map tf_digest facts /\ pf_corpusDigest pf = corpus_digest sha256 (map tf_digest facts) /\
  pf_actions pf = map tf_actions facts /\ pf_stateCounts pf = map length (pf_actions pf) /\
  pf_serverPaths pf = map tf_serverPath facts /\
  (let declared := field (field (su_replay suite) "provenance") "corpusDigest" in
   declared = JUndef \/ same_value declared (JStr (pf_corpusDigest pf)) = true) /\
  (length facts <= if is_workflow suite then workflow_traces else ordinary_traces)%nat.
Proof.
  unfold preflightSuite. intros H. apply res_bind_Ok in H as ([[workflow budget] modelDigest] & _ & H).
  apply res_bind_Ok in H as (? & _ & H). apply res_bind_Ok in H as (? & Hl%demand_Ok%Nat.leb_le & H).
  apply res_bind_Ok in H as (facts & Hf & H). apply res_bind_Ok in H as (? & Hd%demand_Ok & [= <-]).
  apply fmap_Ok in Hf as ([facts' rest] & Hf & ->). apply mapMi_from_state in Hf. exists facts'. cbn.
  assert (Forall2 trace_admitted (trace_references (su_replay suite)) facts') as HF.
  { eapply Forall2_impl; [exact Hf|]. intros reference f (s1 & s2 & Hx). by eapply check_reference_admitted. }
  split_and!; try done.
  - by rewrite map_map.
  - apply orb_true_iff in Hd as [Hu|?]; [left; by destruct (field _ _)|by right].
  - by rewrite <- (Forall2_length _ _ _ HF).
Qed.
End preflight.

(** ** The run *)

Lemma valid_counts_of l zs : Forall (fun n => (Z.of_nat n <= MAX_SAFE_INTEGER)%Z) l ->
  mapM valid_count (map (fun n => num_of_Z (Z.of_nat n)) l) = Some zs -> zs = map Z.of_nat l.
Proof.
  revert zs. induction l as [|n l IH]; intros zs Hb H; cbn in H; [by injection H as <-|].
  apply Forall_cons in Hb as [Hn Hb]. apply bind_Some in H as (z & Hz & H). apply bind_Some in H as (zs' & Hzs & [= <-]).
  unfold valid_count in Hz. rewrite num_of_Z_exact in Hz by lia. destruct (1 <=? _)%Z; [|done]. injection Hz as <-.
  cbn. f_equal. by apply IH.
Qed.

Section run.
Context (number_text : number -> ustring) (sha256 : list N -> ustring) (fs : suite_files) (suite : SuiteDefinition).

Lemma corpus_tracker_ok pf cfg s0 : corpus_tracker suite pf = Ok (cfg, s0) ->
  pf_stateCounts pf = map length (pf_actions pf) ->
  Forall (fun t => (Z.of_nat (length t) <= MAX_SAFE_INTEGER)%Z) (pf_actions pf) ->
  tracks cfg (ReplayLog [] None None) s0 /\ expectedActions cfg = Some (pf_actions pf) /\
  lengths cfg = lens (pf_actions pf) /\ counts_for (requiredPairs (su_acceptance suite)) s0.
Proof.
  intros H Hc Hb. assert (H' := H). unfold corpus_tracker in H. apply new_tracker_ok in H as (Ht & _ & _ & Hp & _).
  split; [done|]. unfold corpus_tracker, new_tracker in H'. destruct (decodeSemanticDescriptor _); [|done].
  apply res_bind_Ok in H' as (zs & Hz & H'). do 4 (apply res_bind_Ok in H' as (? & _ & H')). injection H' as <- <-.
  split; [done|]. cbn [lengths]. split.
  - destruct (_ || _); [done|]. destruct (mapM _ _) as [zs'|] eqn:Ez; [|done]. injection Hz as ->.
    apply valid_counts_of in Ez as ->; rewrite Hc; [by rewrite map_map|]. by apply Forall_map.
  - unfold counts_for. apply (list_fmap_eq_inj (fun p => [p.1; p.2])); [intros [] [] [= -> ->]; done|].
    etransitivity; [|exact Hp]. apply map_map.
Qed.

(** An attempt without an error replayed the corpus of an accepted preflight. *)
Lemma attempt_completed env : at_error (attempt_suite number_text sha256 fs suite env) = None ->
  exists pf cfg s0 factory, preflightSuite number_text sha256 fs suite = Ok pf /\ corpus_tracker suite pf = Ok (cfg, s0) /\
    sp_error (sx_replay env) = None /\ sx_aborted env = false /\
    attempt_suite number_text sha256 fs suite env =
      MkAttempt (stage_of (sp_factory (sx_replay env))) (Some pf) (Some (cfg, (run_calls cfg s0 (sp_calls (sx_replay env))).2))
        true (sp_transportClosed (sx_replay env)) factory None.
Proof.
  unfold attempt_suite. destruct (normalizeTimeouts _); [|done]. destruct (sx_aborted env); [done|].
  destruct (preflightSuite _ _ _ _) as [pf|e]; [|done]. destruct (corpus_tracker suite pf) as [[cfg s0]|[]] eqn:Ec; try done.
  destruct (sx_aborted_late env); [done|]. destruct (match sx_mirror env with MirrorTransport => None | _ => _ end); [done|].
  cbn [at_error]. intros He. rewrite He. exists pf, cfg, s0. eexists. by split_and!.
Qed.

(** What a run that passed left. *)
Lemma passed_facts env local r : executeSuite number_text sha256 fs suite env local = Ok r -> rs_outcome r = Passed ->
  let a := attempt_suite number_text sha256 fs suite env in
  at_error a = None /\ rs_status r = CSucceeded /\ rs_quiescent r = true /\
  rs_evidence r = evidenceFromTracker (at_tracker a) (length (trace_references (su_replay suite))) /\
  (exists acceptance, evaluateAcceptance number_text (requirements_js (su_acceptance suite)) (rs_evidence r) = Ok acceptance /\
     as_status acceptance = Met) /\
  rs_conformance r = (if se_complete (rs_evidence r) then ConformanceMatched else if enteredReplay (rs_evidence r) then ConformanceIncomplete else NotEvaluatedConformance) /\
  rs_digests r = (fun pf => (pf_modelDigest pf, pf_corpusDigest pf)) <$> at_preflight a /\
  (at_owned a = true -> at_closed a = false -> sx_close env = Closed) /\ sx_lifetime_failed env = false.
Proof.
  unfold executeSuite. set (a := attempt_suite _ _ _ _ _). set (e := evidenceFromTracker _ _). clearbody a e. intros H Hp. apply res_bind_Ok in H as (acc & Ha%threw_Ok & [= <-]).
  cbn [rs_outcome rs_status rs_quiescent rs_evidence rs_conformance rs_digests] in *.
  destruct (at_error a) as [err|] eqn:Ee; cbn [option_fmap option_map fmap] in *.
  { destruct (sf_kind _); done. }
  destruct (as_status acc) eqn:Es; try discriminate Hp. rewrite andb_false_r in *. rewrite orb_false_r in *. cbn [orb] in *.
  destruct (at_owned a), (at_closed a), (sx_close env), (sx_lifetime_failed env), (sx_unsettled env); cbn in Hp; try discriminate Hp;
    cbn; (split_and!; [done..|by exists acc|done|done|done|done]).
Qed.
End run.

(** C2: a suite passes only when its corpus conformed. If a run ends "passed" then the
    preflight accepted the files; the replay threw nothing; what it told the tracker
    were observations, one end and then only interrupts, and the trace log of those
    observations is the corpus itself, the same actions in the same order in every
    trace; every required action is a transition of that corpus, every required pair
    two consecutive ones of it; the cleanup succeeded and left nothing pending, a
    transport the run owned being closed; and the digests reported are those of the
    files. (A trace has at most 2^53-1 states, as every JavaScript array has.) *)
Theorem suite_passed number_text sha256 fs suite env local r :
  executeSuite number_text sha256 fs suite env local = Ok r -> rs_outcome r = Passed ->
  (forall pf, preflightSuite number_text sha256 fs suite = Ok pf ->
     Forall (fun t => (Z.of_nat (length t) <= MAX_SAFE_INTEGER)%Z) (pf_actions pf)) ->
  exists pf cfg s0 es k,
    preflightSuite number_text sha256 fs suite = Ok pf /\ corpus_tracker suite pf = Ok (cfg, s0) /\
    sp_error (sx_replay env) = None /\ sx_aborted env = false /\
    sp_calls (sx_replay env) = map Observe es ++ Finish :: k /\ forallb is_interrupt k = true /\
    traces (log_commit (log_of cfg es)) = pf_actions pf /\
    Forall (fun id => id ∈ transitions (pf_actions pf)) (requiredActions (su_acceptance suite)) /\
    Forall (fun p => p ∈ consecutive (pf_actions pf)) (requiredPairs (su_acceptance suite)) /\
    rs_conformance r = ConformanceMatched /\ rs_status r = CSucceeded /\ rs_quiescent r = true /\
    (sp_transportClosed (sx_replay env) = true \/ sx_close env = Closed) /\
    rs_digests r = Some (pf_modelDigest pf, pf_corpusDigest pf).
Proof.
  intros H Hp Hb. destruct (passed_facts _ _ _ _ _ _ _ H Hp) as (He & Hst & Hq & Hev & (acc & Hacc & Hmet) & Hconf & Hdig & Hcl & _).
  destruct (attempt_completed _ _ _ _ _ He) as (pf & cfg & s0 & factory & Hpf & Htr & Hsp & Hab & Hat). rewrite Hat in *.
  cbn [at_tracker at_preflight at_owned at_closed] in *. specialize (Hb pf Hpf).
  destruct (preflight_facts _ _ _ _ _ Hpf) as (facts & _ & _ & _ & _ & Hcounts & _).
  destruct (corpus_tracker_ok _ _ _ _ Htr Hcounts Hb) as (Ht & Hexp & Hlens & Hpairs).
  destruct (met_counts _ _ _ _ Hacc Hmet) as (Hadm & _ & Hcon & Hacts & Hprs). rewrite Hev in *.
  unfold evidence_conclusive in Hcon. rewrite !andb_true_iff in Hcon. destruct Hcon as ((((Hc & Hx) & _) & _) & _).
  cbn in Hc, Hx. apply bool_decide_eq_true in Hx.
  destruct (corpus_run cfg _ s0 _ Ht Hexp Hlens Hc Hx) as (es & k & Hes & Hk & Htraces & Htal).
  destruct (coverage _ _ _ _ cfg _ Htal (keeps_run cfg _ _ _ Hpairs) (proj2 (proj2 (proj2 (proj2 (proj2 Hadm))))) Hacts Hprs) as [Hca Hcp].
  exists pf, cfg, s0, es, k. split_and!; try done.
  - rewrite Hconf. cbn. by rewrite Hc.
  - destruct (sp_transportClosed _); [by left|right; by apply Hcl].
Qed.

(** The environment with another mirror and another replay behind it. *)
Definition with_mirror (env : suite_env) (connect : option error) (replay : suite_replay) : suite_env :=
  MkSuiteEnv (sx_timeouts env) (sx_mirror env) (sx_aborted env) (sx_aborted_late env) connect replay
    (sx_close env) (sx_lifetime_failed env) (sx_unsettled env) (sx_cleanup_error env).

Lemma requirements_js_ok r : admissible None r -> validateAcceptanceRequirements None (requirements_js r) = Ok r.
Proof. intros H. apply validate_Ok. split; [done|apply requirements_fields]. Qed.

(** A rejected preflight ends the attempt before the mirror is asked. *)
Lemma rejected_attempt number_text sha256 fs suite env e : preflightSuite number_text sha256 fs suite = Err e ->
  exists err, let cancelled := sx_aborted env && is_ok (normalizeTimeouts (sx_timeouts env)) in
    (err = cancelled_error /\ cancelled = true \/ (exists x, err = thrown_error x) /\ cancelled = false) /\
    forall connect replay, attempt_suite number_text sha256 fs suite (with_mirror env connect replay) =
      MkAttempt FConfiguration None None (match sx_mirror env with MirrorTransport => true | _ => false end) false false (Some err).
Proof.
  intros He. unfold attempt_suite. cbn [with_mirror sx_timeouts sx_mirror sx_aborted]. rewrite He.
  destruct (normalizeTimeouts _) as [t|x]; cbn [is_ok].
  - destruct (sx_aborted env); eexists; (split; [|reflexivity]); [by left|right; split; [by eexists|done]].
  - eexists. split; [|reflexivity]. right. split; [by eexists|apply andb_false_r].
Qed.

(** An attempt that got nowhere leaves the evidence of a replay never entered. *)
Lemma rejected_run number_text sha256 fs suite env local owned err : admissible None (su_acceptance suite) ->
  (forall connect replay, attempt_suite number_text sha256 fs suite (with_mirror env connect replay) =
     MkAttempt FConfiguration None None owned false false (Some err)) ->
  exists r, let f := failureFor err FConfiguration in
    (forall connect replay, executeSuite number_text sha256 fs suite (with_mirror env connect replay) local = Ok r) /\
    rs_failure r = Some f /\
    rs_outcome r = match sf_kind f with KMismatch => Mismatched | KCancellation => Cancelled | KTimeout => TimedOut | _ => Failed end /\
    rs_digests r = None /\ rs_bindingStatus r = None /\
    rs_conformance r = (if bool_decide (sf_kind f = KMismatch) then ConformanceMismatch else NotEvaluatedConformance) /\
    rs_acceptance r = Assessment NotEvaluated [] [] /\
    rs_evidence r = emptyEvidence (length (trace_references (su_replay suite))).
Proof.
  intros Ha H. eexists. split.
  - intros connect replay. unfold executeSuite. rewrite H. cbn [at_tracker evidenceFromTracker].
    unfold evaluateAcceptance. rewrite (requirements_js_ok _ Ha).
    cbn [threw mbind res_mbind mret res_mret emptyEvidence enteredReplay negb at_owned at_closed at_error at_stage at_factory at_preflight
         with_mirror sx_close sx_lifetime_failed sx_unsettled sx_cleanup_error]. reflexivity.
  - by split_and!.
Qed.

(** C18: nothing is opened for a corpus that does not pass the preflight. If the
    preflight rejects the files of a suite, the run still returns a result (its
    requirements being admissible): a configuration failure, or a cancellation when the
    signal had aborted, without digests, with the evidence of a replay that was never
    entered and conformance "not_evaluated"; and the result is the same whatever the
    connection to the mirror and the replay would have done. *)
Theorem preflight_guards number_text sha256 fs suite env local e :
  preflightSuite number_text sha256 fs suite = Err e -> admissible None (su_acceptance suite) ->
  exists r f, executeSuite number_text sha256 fs suite env local = Ok r /\
    rs_failure r = Some f /\ sf_stage f = FConfiguration /\
    rs_outcome r = (if sx_aborted env && is_ok (normalizeTimeouts (sx_timeouts env)) then Cancelled else Failed) /\
    rs_digests r = None /\ rs_bindingStatus r = None /\ rs_conformance r = NotEvaluatedConformance /\
    rs_acceptance r = Assessment NotEvaluated [] [] /\
    rs_evidence r = emptyEvidence (length (trace_references (su_replay suite))) /\
    forall connect replay, executeSuite number_text sha256 fs suite (with_mirror env connect replay) local = Ok r.
Proof.
  intros He Ha. destruct (rejected_attempt _ _ _ _ env _ He) as (err & Herr & Hat).
  destruct (rejected_run _ _ _ _ env local _ err Ha Hat) as (r & H1 & H2 & H3 & H4 & H5 & H6 & H7 & H8).
  assert (with_mirror env (sx_connect env) (sx_replay env) = env) as Henv by (by destruct env).
  assert (executeSuite number_text sha256 fs suite env local = Ok r) as Hr by (rewrite <- Henv; apply H1).
  exists r, (failureFor err FConfiguration). rewrite H3, H6.
  destruct Herr as [[-> ->]|[[x ->] ->]]; [|destruct x]; by split_and!.
Qed.

(** What a preflight admits. Every reference of the corpus, in order, was read and
    its states form one initialization followed by transitions, all named by labels of
    the descriptor; the hash a reference declares is the hash of the bytes read, and
    those bytes are what the file system holds; the state counts and the corpus digest
    are those of exactly these traces, the digest agreeing with the declared one; and
    there are at most 32 occurrences for a workflow, 4096 otherwise. *)
Theorem preflight_corpus number_text sha256 fs suite pf : preflightSuite number_text sha256 fs suite = Ok pf ->
  exists facts,
    Forall2 (trace_admitted number_text sha256 fs suite) (trace_references (su_replay suite)) facts /\
    pf_traceDigests pf = map tf_digest facts /\ pf_corpusDigest pf = corpus_digest sha256 (map tf_digest facts) /\
    pf_actions pf = map tf_actions facts /\ pf_stateCounts pf = map length (pf_actions pf) /\
    pf_serverPaths pf = map tf_serverPath facts /\
    (let declared := field (field (su_replay suite) "provenance") "corpusDigest" in
     declared = JUndef \/ same_value declared (JStr (pf_corpusDigest pf)) = true) /\
    (length facts <= if is_workflow suite then workflow_traces else ordinary_traces)%nat.
Proof. apply preflight_facts. Qed.

(** ** A concrete suite *)

Definition sample_state (action : string) : js :=
  JObj [($"action_taken", JStr (lit action)); ($"balance", JObj [($"#map", JArr [])]); ($"nondet", JObj [])].

Definition sample_trace : js :=
  JObj [($"param_vars", JArr [JStr ($"nondet")]); ($"states", JArr (map sample_state ["init"; "burn"; "burn"]%string))].

Definition sample_bytes : list N :=
  match stringify (fun _ => []) sample_trace with Ok (Some text) => utf8_bytes text | _ => [] end.

Definition sample_files : suite_files :=
  MkFiles (fun path => match path with JStr _ => Some sample_bytes | _ => None end) (fun _ => None)
    (fun _ => throw XError "no closure") (fun _ _ => misconfigured "no closure").

Definition length_hash (bytes : list N) : ustring := dec_of_N (N.of_nat (length bytes)).

Definition sample_suite : SuiteDefinition :=
  MkSuite ($"token") ($"adapter") (JObj []) ($"digest") (sample_descriptor false) sample_contract
    (JObj [($"traces", JArr [JStr ($"a.itf.json"); JStr ($"b.itf.json")]); ($"modelSource", JStr ($"Token.tla"))])
    (Requirements [$"Burn"] [($"Burn", $"Burn")]).

Definition sample_trace_events : list observation_event :=
  observation true "init" ++ observation false "burn" ++ observation false "burn".

Definition sample_env : suite_env :=
  MkSuiteEnv [] MirrorPath false false None
    (MkSuiteReplay (map Observe (sample_trace_events ++ sample_trace_events) ++ [Finish; Interrupt false]) Returned true None)
    Closed false false false.

Definition sample_preflight : SuitePreflight :=
  match preflightSuite (fun _ => []) length_hash sample_files sample_suite with
  | Ok pf => pf
  | Err _ => MkPreflight [] [] [] [] [] []
  end.

Definition sample_result : suite_result :=
  match executeSuite (fun _ => $"2") length_hash sample_files sample_suite sample_env true with
  | Ok r => r
  | Err _ => MkResult Failed NotEvaluatedConformance (Assessment NotEvaluated [] []) CFailed false None None (emptyEvidence 0) None None false
  end.

Lemma sample_preflight_ok number_text : preflightSuite number_text length_hash sample_files sample_suite = Ok sample_preflight.
Proof. vm_compute. reflexivity. Qed.

Lemma sample_result_ok : executeSuite (fun _ => $"2") length_hash sample_files sample_suite sample_env true = Ok sample_result.
Proof. vm_compute. reflexivity. Qed.

Lemma sample_result_passed : rs_outcome sample_result = Passed.
Proof. vm_compute. reflexivity. Qed.

Lemma Ok_inj {E A} (a b : A) : Ok (E := E) a = Ok b -> a = b.
Proof. by intros [= ->]. Qed.

Lemma sample_traces_bounded pf : preflightSuite (fun _ => $"2") length_hash sample_files sample_suite = Ok pf ->
  Forall (fun t => (Z.of_nat (length t) <= MAX_SAFE_INTEGER)%Z) (pf_actions pf).
Proof.
  intros E. rewrite <- (Ok_inj _ _ (eq_trans (eq_sym (sample_preflight_ok _)) E)). assert (map length (pf_actions sample_preflight) = [3; 3]%nat) as H by (vm_compute; reflexivity).
  apply (Forall_map length (fun n => (Z.of_nat n <= MAX_SAFE_INTEGER)%Z)). unfold MAX_SAFE_INTEGER. rewrite H. by repeat constructor.
Qed.

Lemma sample_admissible : admissible None (su_acceptance sample_suite).
Proof.
  apply (requirements_js_inv None _ (su_acceptance sample_suite)). vm_compute. reflexivity.
Qed.

Example suite_passed_witness :
  exists pf cfg s0 es k,
    preflightSuite (fun _ => $"2") length_hash sample_files sample_suite = Ok pf /\ corpus_tracker sample_suite pf = Ok (cfg, s0) /\
    sp_error (sx_replay sample_env) = None /\ sx_aborted sample_env = false /\
    sp_calls (sx_replay sample_env) = map Observe es ++ Finish :: k /\ forallb is_interrupt k = true /\
    traces (log_commit (log_of cfg es)) = pf_actions pf /\
    Forall (fun id => id ∈ transitions (pf_actions pf)) (requiredActions (su_acceptance sample_suite)) /\
    Forall (fun p => p ∈ consecutive (pf_actions pf)) (requiredPairs (su_acceptance sample_suite)) /\
    rs_conformance sample_result = ConformanceMatched /\ rs_status sample_result = CSucceeded /\ rs_quiescent sample_result = true /\
    (sp_transportClosed (sx_replay sample_env) = true \/ sx_close sample_env = Closed) /\
    rs_digests sample_result = Some (pf_modelDigest pf, pf_corpusDigest pf).
Proof.
  exact (suite_passed _ _ _ _ _ _ _ sample_result_ok sample_result_passed sample_traces_bounded).
Defined.

Example preflight_corpus_witness :
  exists facts,
    Forall2 (trace_admitted (fun _ => []) length_hash sample_files sample_suite) (trace_references (su_replay sample_suite)) facts /\
    pf_traceDigests sample_preflight = map tf_digest facts /\ pf_corpusDigest sample_preflight = corpus_digest length_hash (map tf_digest facts) /\
    pf_actions sample_preflight = map tf_actions facts /\ pf_stateCounts sample_preflight = map length (pf_actions sample_preflight) /\
    pf_serverPaths sample_preflight = map tf_serverPath facts /\
    (let declared := field (field (su_replay sample_suite) "provenance") "corpusDigest" in
     declared = JUndef \/ same_value declared (JStr (pf_corpusDigest sample_preflight)) = true) /\
    (length facts <= if is_workflow sample_suite then workflow_traces else ordinary_traces)%nat.
Proof. exact (preflight_corpus _ _ _ _ _ (sample_preflight_ok _)). Defined.

Definition no_files : suite_files :=
  MkFiles (fun _ => None) (fun _ => None) (fun _ => throw XError "no closure") (fun _ _ => misconfigured "no closure").

Lemma no_files_rejected number_text :
  preflightSuite number_text length_hash no_files sample_suite = Err (SuiteThrew (Exn XError ($"the file cannot be read"))).
Proof. vm_compute. reflexivity. Qed.

Example preflight_guards_witness :
  exists r f, executeSuite (fun _ => []) length_hash no_files sample_suite sample_env true = Ok r /\
    rs_failure r = Some f /\ sf_stage f = FConfiguration /\
    rs_outcome r = (if sx_aborted sample_env && is_ok (normalizeTimeouts (sx_timeouts sample_env)) then Cancelled else Failed) /\
    rs_digests r = None /\ rs_bindingStatus r = None /\ rs_conformance r = NotEvaluatedConformance /\
    rs_acceptance r = Assessment NotEvaluated [] [] /\
    rs_evidence r = emptyEvidence (length (trace_references (su_replay sample_suite))) /\
    forall connect replay, executeSuite (fun _ => []) length_hash no_files sample_suite (with_mirror sample_env connect replay) true = Ok r.
Proof. exact (preflight_guards _ _ _ _ sample_env true _ (no_files_rejected _) sample_admissible). Defined.
