(* ===== verification/SuiteScope.v ===== *)
(** * The construction scope of a local implementation

    The factory that [runSuite] of [src/src/suite-runner.ts] hands to [executeSuite]: an
    application registers cleanups while it is constructed, transfers a disposer, and
    the scope runs each of them at most once, whoever asks for it. A cleanup is known
    by its identity, a number; which ones throw is the parameter [fails]. *)

From S2P Require Import Prelude.

(** What [dispose] has still to await. *)
Inductive task := RunRegistered (id : nat) | RunDisposer (id : nat).

Record scope := MkScope {
  partial : list nat;
  started : list nat;
  transferred : bool;
  disposed : bool;
  implementation : option nat;
  remaining : list task;
  errors : list nat }.

Definition new_scope : scope := MkScope [] [] false false None [] [].

Definition set_started (l : list nat) (s : scope) : scope :=
  MkScope (partial s) l (transferred s) (disposed s) (implementation s) (remaining s) (errors s).

(** The calls on a scope; [Settle]: the application returned a disposer or not, and the
    generated binding was made or threw; [Resume]: [dispose] goes on after an [await]. *)
Inductive scope_op :=
| DeferCleanup (id : nat)
| CallCleanup (id : nat)
| Settle (constructed : option nat) (bound : bool)
| Dispose
| Resume.

Section scope.
Context (fails : nat -> bool).

(** [deferCleanup], with whether it threw. *)
Definition deferCleanup (id : nat) (s : scope) : scope * bool :=
  if transferred s || disposed s then (s, true)
  else if bool_decide (id ∈ partial s) then (s, false)
  else (MkScope (partial s ++ [id]) (started s) (transferred s) (disposed s) (implementation s) (remaining s) (errors s), false).

(** The wrapper of a registered cleanup: [pending ??= ...]. *)
Definition once (id : nat) (s : scope) : scope :=
  if bool_decide (id ∈ started s) then s else set_started (started s ++ [id]) s.

Definition dispose (s : scope) : scope :=
  if disposed s then s
  else MkScope (partial s) (started s) (transferred s) true (implementation s)
         (match implementation s with
          | Some d => [if bool_decide (d ∈ partial s) then RunRegistered d else RunDisposer d]
          | None => []
          end ++ map RunRegistered (rev (partial s))) (errors s).

Definition caught (id : nat) (rest : list task) (s : scope) : scope :=
  MkScope (partial s) (started s) (transferred s) (disposed s) (implementation s) rest (errors s ++ if fails id then [id] else []).

Definition resume (s : scope) : scope :=
  match remaining s with
  | [] => s
  | RunRegistered id :: rest => caught id rest (once id s)
  | RunDisposer id :: rest => caught id rest (set_started (started s ++ [id]) s)
  end.

Definition settle (constructed : option nat) (bound : bool) (s : scope) : scope :=
  match constructed with
  | None => dispose s
  | Some d =>
      let s := MkScope (partial s) (started s) (transferred s) (disposed s) (Some d) (remaining s) (errors s) in
      if bound then MkScope (partial s) (started s) true (disposed s) (implementation s) (remaining s) (errors s) else dispose s
  end.

Definition scope_step (s : scope) (o : scope_op) : scope :=
  match o with
  | DeferCleanup id => (deferCleanup id s).1
  | CallCleanup id => if bool_decide (id ∈ partial s) then once id s else s
  | Settle constructed bound => settle constructed bound s
  | Dispose => dispose s
  | Resume => resume s
  end.

Definition run_scope (s : scope) (ops : list scope_op) : scope := foldl scope_step s ops.

(** What an application can do while it is constructed. *)
Definition constructing (o : scope_op) : bool := match o with DeferCleanup _ | CallCleanup _ => true | _ => false end.
(** What happens after the factory has settled. *)
Definition settled (o : scope_op) : bool := match o with Settle _ _ => false | _ => true end.

(** ** The invariant *)

(** A disposer that was not registered as a cleanup. *)
Definition direct (s : scope) (d : nat) : Prop := implementation s = Some d /\ d ∉ partial s.

Definition task_id (t : task) : nat := match t with RunRegistered id | RunDisposer id => id end.

Record scope_ok (s : scope) : Prop := ScopeOk {
  so_partial : NoDup (partial s);
  so_started : NoDup (started s);
  so_known : forall id, id ∈ started s -> id ∈ partial s \/ direct s id;
  so_fresh : disposed s = false -> remaining s = [] /\ errors s = [] /\ forall d, direct s d -> d ∉ started s;
  so_direct : forall d rest, remaining s = RunDisposer d :: rest -> direct s d /\ d ∉ started s;
  so_rest : Forall (fun t => exists id, t = RunRegistered id /\ id ∈ partial s) (tail (remaining s));
  so_head : forall id rest, remaining s = RunRegistered id :: rest -> id ∈ partial s;
  so_left : disposed s = true -> forall id, id ∈ partial s \/ direct s id -> id ∈ started s \/ id ∈ map task_id (remaining s);
  so_errors : disposed s = true -> forall id, id ∈ partial s \/ direct s id -> fails id = true ->
    id ∈ errors s \/ id ∈ map task_id (remaining s);
  so_failed : Forall (fun id => fails id = true /\ id ∈ started s) (errors s) }.

Lemma once_started id s x : x ∈ started (once id s) <-> x ∈ started s \/ x = id.
Proof. unfold once. case_bool_decide; cbn; [naive_solver|]. rewrite elem_of_app, list_elem_of_singleton. done. Qed.

Lemma once_NoDup id s : NoDup (started s) -> NoDup (started (once id s)).
Proof.
  unfold once. case_bool_decide; [done|]. intros Hs. cbn. apply NoDup_app. split_and!; [done| |apply NoDup_singleton].
  intros x Hx ->%list_elem_of_singleton. done.
Qed.

Lemma once_rest id s : once id s = set_started (started (once id s)) s.
Proof. unfold once. case_bool_decide; [by destruct s|done]. Qed.

(** A registered cleanup that is started changes nothing else. *)
Lemma once_ok id s : scope_ok s -> id ∈ partial s -> scope_ok (once id s).
Proof.
  intros [] Hid. pose proof (once_NoDup id s so_started0) as Hn. pose proof (once_started id s) as Hx.
  rewrite once_rest in Hn, Hx |- *. set (l := started (once id s)) in *. clearbody l. cbn in Hn, Hx.
  split; cbn; try done; unfold direct in *; cbn.
  - intros x [Hs| ->]%Hx; [by apply so_known0|by left].
  - intros Hd. destruct (so_fresh0 Hd) as (? & ? & Hf). split_and!; [done..|]. intros d Hdir [?| ->]%Hx; [by apply (Hf d)|by destruct Hdir].
  - intros d rest Hr. destruct (so_direct0 d rest Hr) as [Hdir Hds]. split; [done|]. intros [?| ->]%Hx; [done|by destruct Hdir].
  - intros Hd x Hin. destruct (so_left0 Hd x Hin); [left; apply Hx; by left|by right].
  - eapply Forall_impl; [exact so_failed0|]. intros x [? ?]. split; [done|apply Hx; by left].
Qed.

Lemma dispose_ok s : scope_ok s -> scope_ok (dispose s).
Proof.
  intros H. unfold dispose. destruct (disposed s) eqn:Ed; [done|]. destruct H. destruct (so_fresh0 Ed) as (Hr & He & Hf).
  assert (forall id, id ∈ partial s -> id ∈ map task_id (map RunRegistered (rev (partial s)))) as Hin.
  { intros id Hid. rewrite map_map. cbn. rewrite map_id. by apply list_elem_of_In, in_rev; rewrite rev_involutive; apply list_elem_of_In. }
  assert (Forall (fun t => exists id, t = RunRegistered id /\ id ∈ partial s) (map RunRegistered (rev (partial s)))) as Hall.
  { apply Forall_map, Forall_forall. intros id Hid. exists id. split; [done|]. apply list_elem_of_In, in_rev. by apply list_elem_of_In. }
  assert (forall id, id ∈ partial s \/ direct s id -> id ∈ map task_id
    (match implementation s with Some d => [if bool_decide (d ∈ partial s) then RunRegistered d else RunDisposer d] | None => [] end
       ++ map RunRegistered (rev (partial s)))) as Hleft.
  { intros id [Hid|[Hi Hn]]; rewrite map_app, elem_of_app; [right; by apply Hin|left].
    rewrite Hi, bool_decide_eq_false_2 by done. by left. }
  split; cbn; try done; unfold direct in *; cbn.
  - intros d rest. destruct (implementation s) as [d'|] eqn:Ei; cbn.
    + case_bool_decide; [done|]. intros [= -> _]. split; [done|by apply Hf].
    + destruct (rev (partial s)); done.
  - destruct (implementation s); [exact Hall|]. destruct Hall; [constructor|done].
  - intros id rest. destruct (implementation s) as [d'|]; cbn.
    + case_bool_decide; [|done]. by intros [= -> _].
    + intros E. rewrite E in Hall. apply Forall_cons in Hall as [(x & [= ->] & ?) _]. done.
  - intros _ id Hid. right. by apply Hleft.
  - intros _ id Hid _. right. by apply Hleft.
Qed.

Lemma resume_ok s : scope_ok s -> scope_ok (resume s).
Proof.
  intros H. unfold resume. destruct (remaining s) as [|t rest] eqn:Er; [done|].
  assert (disposed s = true) as Hd.
  { destruct (disposed s) eqn:Ed; [done|]. destruct (so_fresh _ H Ed) as [E _]. by rewrite E in Er. }
  assert (forall s', s' = set_started (started s') s -> (forall x, x ∈ started s' <-> x ∈ started s \/ x = task_id t) -> NoDup (started s') ->
    scope_ok (caught (task_id t) rest s')) as Hgen.
  { intros s' E Hx Hn. rewrite E. set (l := started s') in *. clearbody l. clear E. destruct H.
    assert (Forall (fun t => exists id, t = RunRegistered id /\ id ∈ partial s) rest) as Hrest by (by rewrite Er in so_rest0).
    assert (task_id t ∈ partial s \/ direct s (task_id t)) as Ht.
    { destruct t as [id|d]; [left; by eapply so_head0|right; by eapply so_direct0]. }
    split; cbn; try done; unfold direct in *; cbn.
    - intros x [Hs| ->]%Hx; [by apply so_known0|done].
    - congruence.
    - intros d r ->. apply Forall_cons in Hrest as [(? & ? & _) _]. done.
    - destruct rest; [constructor|]. by apply Forall_cons in Hrest as [_ ?].
    - intros id r ->. apply Forall_cons in Hrest as [(? & [= ->] & ?) _]. done.
    - intros _ id Hid. rewrite Er in so_left0. cbn in so_left0. rewrite Hx.
      destruct (so_left0 Hd id Hid) as [?|[->|?]%elem_of_cons]; tauto.
    - intros _ id Hid Hf. rewrite Er in so_errors0. cbn in so_errors0. rewrite elem_of_app.
      destruct (so_errors0 Hd id Hid Hf) as [?|[->|?]%elem_of_cons]; [tauto| |tauto].
      left. right. rewrite Hf. by left.
    - apply Forall_app. split.
      + eapply Forall_impl; [exact so_failed0|]. intros x [? ?]. split; [done|apply Hx; by left].
      + destruct (fails (task_id t)) eqn:Ef; [|constructor]. apply Forall_singleton. split; [done|apply Hx; by right]. }
  destruct t as [id|d].
  - apply (Hgen (once id s)); [apply once_rest|apply once_started|apply once_NoDup, H].
  - destruct (so_direct _ H d rest Er) as [_ Hns]. apply (Hgen (set_started (started s ++ [d]) s)); cbn.
    + by destruct s.
    + intros x. rewrite elem_of_app, list_elem_of_singleton. done.
    + apply NoDup_app. split_and!; [apply H| |apply NoDup_singleton]. intros x Hx ->%list_elem_of_singleton. done.
Qed.

Lemma defer_ok id s : scope_ok s -> scope_ok (deferCleanup id s).1.
Proof.
  intros H. unfold deferCleanup. destruct (transferred s || disposed s) eqn:Ed; [done|]. apply orb_false_iff in Ed as [_ Ed].
  case_bool_decide as Hid; [done|]. destruct H. destruct (so_fresh0 Ed) as (Hr & He & Hf).
  assert (forall x, x ∈ partial s ++ [id] <-> x ∈ partial s \/ x = id) as Hx by (intros x; by rewrite elem_of_app, list_elem_of_singleton).
  split; cbn; rewrite ?Hr, ?He; cbn; try done; unfold direct in *; cbn.
  - apply NoDup_app. split_and!; [done| |apply NoDup_singleton]. intros x Hin ->%list_elem_of_singleton. done.
  - intros x Hs. rewrite Hx. destruct (so_known0 x Hs) as [?|[Hi Hn]]; [tauto|]. by destruct (Hf x).
  - intros _. split_and!; [done..|]. intros d [Hi Hn]. rewrite Hx in Hn. apply Hf. split; [done|tauto].
  - congruence.
  - congruence.
Qed.

Lemma settle_ok constructed bound s : scope_ok s -> disposed s = false -> implementation s = None -> scope_ok (settle constructed bound s).
Proof.
  intros H Ed Ei. destruct constructed as [d|]; cbn; [|by apply dispose_ok].
  assert (scope_ok (MkScope (partial s) (started s) (transferred s) (disposed s) (Some d) (remaining s) (errors s))) as Hs.
  { destruct H. destruct (so_fresh0 Ed) as (Hr & He & Hf).
    assert (forall x, x ∈ started s -> x ∈ partial s) as Hk by (intros x Hx; destruct (so_known0 x Hx) as [?|[? _]]; [done|congruence]).
    split; cbn; rewrite ?Hr, ?He; cbn; try done; try congruence; unfold direct in *; cbn.
    - intros x Hx. left. by apply Hk.
    - intros _. split_and!; [done..|]. intros d' [[= <-] Hn] Hs. by apply Hn, Hk. }
  destruct bound; [|by apply dispose_ok]. destruct Hs. by split.
Qed.

Lemma scope_step_ok s o : scope_ok s -> settled o = true -> scope_ok (scope_step s o).
Proof.
  intros H. destruct o as [id|id|? ?| |]; cbn; intros Ho; [by apply defer_ok| |done|by apply dispose_ok|by apply resume_ok].
  case_bool_decide; [by apply once_ok|done].
Qed.

(** A scope while the application is constructed. *)
Definition open_scope (s : scope) : Prop := scope_ok s /\ disposed s = false /\ implementation s = None /\ transferred s = false.

Lemma constructing_open ops : forall s, open_scope s -> Forall (fun o => constructing o = true) ops -> open_scope (run_scope s ops).
Proof.
  induction ops as [|o ops IH]; intros s Hs H; [done|]. apply Forall_cons in H as [Ho H]. cbn. apply IH; [|done].
  destruct Hs as (H1 & H2 & H3 & H4). destruct o as [id|id| | |]; try done; (split; [by apply scope_step_ok|]); cbn.
  - unfold deferCleanup. destruct (_ || _); [done|]. by case_bool_decide.
  - case_bool_decide; [|done]. by rewrite once_rest.
Qed.

(** A scope that takes no more registrations. *)
Definition shut (s : scope) : Prop := transferred s || disposed s = true.

Lemma shut_step s o : shut s -> settled o = true -> shut (scope_step s o) /\ partial (scope_step s o) = partial s /\ implementation (scope_step s o) = implementation s.
Proof.
  unfold shut. intros Hs. destruct o as [id|id| | |]; cbn; intros Ho; try done.
  - unfold deferCleanup. by rewrite Hs.
  - case_bool_decide; [|done]. by rewrite once_rest.
  - unfold dispose. destruct (disposed s) eqn:E; cbn; by rewrite ?E, orb_true_r.
  - unfold resume, caught. destruct (remaining s) as [|[id|d] rest]; [done| |done]. by rewrite once_rest.
Qed.

Lemma shut_run ops : forall s, shut s -> scope_ok s -> Forall (fun o => settled o = true) ops ->
  scope_ok (run_scope s ops) /\ partial (run_scope s ops) = partial s /\ implementation (run_scope s ops) = implementation s.
Proof.
  induction ops as [|o ops IH]; intros s Hs Hok H; [done|]. apply Forall_cons in H as [Ho H].
  change (run_scope s (o :: ops)) with (run_scope (scope_step s o) ops).
  destruct (shut_step s o Hs Ho) as (H1 & H2 & H3). destruct (IH _ H1 (scope_step_ok s o Hok Ho) H) as (H4 & H5 & H6).
  by rewrite H5, H6, H2, H3.
Qed.

(** *** The order of the cleanups *)

Definition add_started (l : list nat) (id : nat) : list nat := if bool_decide (id ∈ l) then l else l ++ [id].

Lemma resume_all n : forall s, scope_ok s -> length (remaining s) = n ->
  started (run_scope s (replicate n Resume)) = foldl add_started (started s) (map task_id (remaining s)) /\
  remaining (run_scope s (replicate n Resume)) = [].
Proof.
  induction n as [|n IH]; intros s H Hn.
  - destruct (remaining s) eqn:E; [|done]. cbn. by rewrite E.
  - change (run_scope s (replicate (S n) Resume)) with (run_scope (resume s) (replicate n Resume)).
    destruct (remaining s) as [|t rest] eqn:E; [done|]. injection Hn as Hn.
    assert (started (resume s) = add_started (started s) (task_id t) /\ remaining (resume s) = rest) as [H1 H2].
    { unfold resume, add_started. rewrite E. destruct t as [id|d]; cbn.
      - unfold once. by case_bool_decide.
      - destruct (so_direct _ H d rest E) as [_ Hd]. by rewrite bool_decide_eq_false_2. }
    destruct (IH (resume s) (resume_ok s H)) as [H3 H4]; [by rewrite H2|]. by rewrite H3, H1, H2.
Qed.
End scope.

(** C19: a construction scope cleans up exactly once. Whatever an application registers
    and calls while it is constructed, however it settles, and whatever is called in any
    order afterwards: no cleanup and no disposer is started twice; nothing but
    registered cleanups and the transferred disposer is started; nothing can be
    registered any more; and once [dispose] has been called and has nothing left to
    await, every registered cleanup and the disposer have been started and the errors
    are those of the ones that threw. A [dispose] left alone ends after one step for each
    of them, and starts the disposer first, then the cleanups last registered first, as
    far as the application had not called them itself. *)
Theorem scope_exact fails calls constructed bound later :
  Forall (fun o => constructing o = true) calls -> Forall (fun o => settled o = true) later ->
  let built := run_scope fails new_scope calls in
  let s := run_scope fails (scope_step fails built (Settle constructed bound)) later in
  NoDup (started s) /\ partial s = partial built /\ implementation s = constructed /\
  (forall id, id ∈ started s -> id ∈ partial s \/ constructed = Some id) /\
  (disposed s = true -> remaining s = [] -> forall id, id ∈ partial s \/ constructed = Some id ->
     id ∈ started s /\ (fails id = true <-> id ∈ errors s)) /\
  (disposed s = false ->
   let d := dispose s in let e := run_scope fails d (replicate (length (remaining d)) Resume) in
   remaining e = [] /\ (length (remaining d) <= S (length (partial s)))%nat /\
   started e = foldl add_started (started s) (option_list constructed ++ rev (partial s))).
Proof.
  intros Hc Hl built s. assert (open_scope fails new_scope) as Hnew.
  { split; [|done]. split; unfold direct; cbn; try done; try apply NoDup_nil_2; try apply Forall_nil_2; try done.
    - by intros id ?%not_elem_of_nil.
    - intros _. split_and!; [done..|]. by intros d [? _]. }
  destruct (constructing_open fails calls _ Hnew Hc) as (Hb & Hbd & Hbi & Hbt). fold built in Hb, Hbd, Hbi, Hbt.
  pose proof (settle_ok fails constructed bound built Hb Hbd Hbi) as Hs.
  assert (shut (settle constructed bound built) /\ partial (settle constructed bound built) = partial built /\
    implementation (settle constructed bound built) = constructed) as (Hsh & Hp & Hi).
  { destruct constructed as [d|]; cbn; [destruct bound|]; unfold dispose, shut; cbn; rewrite ?Hbd; cbn; by rewrite ?orb_true_r. }
  destruct (shut_run fails later _ Hsh Hs Hl) as (H1 & H2 & H3). fold s in H1, H2, H3.
  change (scope_step fails built (Settle constructed bound)) with (settle constructed bound built) in s. fold s in H1, H2, H3.
  rewrite Hp in H2. rewrite Hi in H3. split_and!; [apply H1|done|done|..].
  - intros id Hid. destruct (so_known _ _ H1 id Hid) as [?|[? _]]; [by left|right; congruence].
  - intros Hd Hr id Hid. assert (id ∈ partial s \/ direct s id) as Hid'.
    { destruct (decide (id ∈ partial s)); [by left|]. destruct Hid as [?|Hid]; [done|right]. by split; [congruence|]. }
    pose proof (so_left _ _ H1 Hd id Hid') as Hst. rewrite Hr in Hst. split; [by destruct Hst as [?|?%not_elem_of_nil]|]. split.
    + intros Hf. pose proof (so_errors _ _ H1 Hd id Hid' Hf) as He. rewrite Hr in He. by destruct He as [?|?%not_elem_of_nil].
    + intros He. pose proof (so_failed _ _ H1) as Hf. rewrite Forall_forall in Hf. by apply Hf.
  - intros Hd. cbv zeta. pose proof (dispose_ok fails s H1) as Hok. destruct (resume_all fails _ (dispose s) Hok eq_refl) as [E1 E2].
    split; [done|]. rewrite E1. unfold dispose. rewrite Hd, H3. cbn. destruct constructed as [d|]; cbn.
    + split; [by rewrite length_map, length_rev|]. f_equal; [by case_bool_decide|]. rewrite map_map. by apply map_id.
    + split; [rewrite length_map, length_rev; lia|]. f_equal. rewrite map_map. by apply map_id.
Qed.

(** Two cleanups, the first called early, a disposer whose cleanup throws. *)
Definition sample_scope_calls : list scope_op := [DeferCleanup 1; DeferCleanup 2; DeferCleanup 1; CallCleanup 1].
Definition sample_scope_later : list scope_op := [DeferCleanup 4; CallCleanup 2].

Example sample_scope_order :
  started (run_scope (Nat.eqb 3) new_scope (sample_scope_calls ++ [Settle (Some 3%nat) true; Dispose; Resume; Resume; Resume; Dispose; Resume])) = [1; 3; 2]%nat.
Proof. reflexivity. Qed.

Example scope_exact_witness :
  let built := run_scope (Nat.eqb 3) new_scope sample_scope_calls in
  let s := run_scope (Nat.eqb 3) (scope_step (Nat.eqb 3) built (Settle (Some 3%nat) true)) sample_scope_later in
  NoDup (started s) /\ partial s = partial built /\ implementation s = Some 3%nat /\
  (forall id, id ∈ started s -> id ∈ partial s \/ Some 3%nat = Some id) /\
  (disposed s = true -> remaining s = [] -> forall id, id ∈ partial s \/ Some 3%nat = Some id ->
     id ∈ started s /\ (Nat.eqb 3 id = true <-> id ∈ errors s)) /\
  (disposed s = false ->
   let d := dispose s in let e := run_scope (Nat.eqb 3) d (replicate (length (remaining d)) Resume) in
   remaining e = [] /\ (length (remaining d) <= S (length (partial s)))%nat /\
   started e = foldl add_started (started s) (option_list (Some 3%nat) ++ rev (partial s))).
Proof. apply (scope_exact (Nat.eqb 3) sample_scope_calls (Some 3%nat) true sample_scope_later); repeat constructor. Defined.
