(* ===== verification/LeaseTrace.v ===== *)
(** * Materializing a reduced lease trace

    [validateLeaseReductionCandidate] and [materializeLeaseReductionTrace] of
    [src/src/lease-reduction.ts]: a candidate names inputs of a trace that shrink from 2
    to 1; the trace is copied, the inputs are replaced, and the copy is compared with the
    original to show that nothing else changed.

    Values are trees, as [JSON.parse] makes them: no object occurs in two places. The
    texts of error messages are left out, an error is its code. *)

From Stdlib Require Import SpecFloat.
From S2P Require Import Prelude JsNumber Utf16 JsData StrictJson Decode JsText StrictJsonFacts Canonical Acceptance BundleText Suite.

(** ** Candidates *)

Record LeaseReductionEdit := MkEdit {
  le_stateIndex : number;
  le_actionId : ustring;
  le_inputId : ustring;
  le_before : number;
  le_after : number }.

Record LeaseReductionCandidate := MkCandidate {
  lc_schema : ustring;
  lc_modelSha256 : ustring;
  lc_interfaceDigest : ustring;
  lc_orderedCorpusSha256 : ustring;
  lc_originalBundleSha256 : ustring;
  lc_selectedTraceSha256 : ustring;
  lc_traceIndex : number;
  lc_traceOccurrences : list number;
  lc_edits : list LeaseReductionEdit }.

Definition LEASE_REDUCTION_SCHEMA : ustring := $"mirrors.reduction-candidate/lease-service-input-shrink/v1".

(** [LeaseReductionError] with its code, or another error. *)
Inductive lease_error := LeaseReductionError (code : ustring) | LeaseThrew.

Definition lease_fail {A} (code : string) : res lease_error A := Err (LeaseReductionError (lit code)).
Definition lease_require (b : bool) (code : string) : res lease_error unit := if b then Ok tt else lease_fail code.

(** [x === z] for a small integer. *)
Definition num_eq (x : number) (z : Z) : bool := SFeqb x (num_of_Z z).

Definition supportedEdit (edit : LeaseReductionEdit) : bool :=
  match num_safe_Z (le_stateIndex edit) with Some z => (1 <=? z)%Z | None => false end &&
  num_eq (le_before edit) 2 && num_eq (le_after edit) 1 &&
  (if le_actionId edit =s "Acquire" then le_inputId edit =s "Client"
   else bool_decide (le_actionId edit ∈ map lit ["Renew"; "Release"; "Write"]%string) &&
        bool_decide (le_inputId edit ∈ map lit ["Client"; "Token"]%string)).

Section materialize.
Context (number_text : number -> ustring).

(** [`${edit.stateIndex}:${edit.actionId}:${edit.inputId}`] *)
Definition edit_key (edit : LeaseReductionEdit) : ustring :=
  num_text number_text (le_stateIndex edit) ++ $":" ++ le_actionId edit ++ $":" ++ le_inputId edit.

Definition validateLeaseReductionCandidate (candidate : LeaseReductionCandidate) : res lease_error LeaseReductionCandidate :=
  _ ← lease_require (bool_decide (lc_schema candidate = LEASE_REDUCTION_SCHEMA)) "reduction_schema_unsupported";
  _ ← lease_require (forallb is_sha256 [lc_modelSha256 candidate; lc_interfaceDigest candidate; lc_orderedCorpusSha256 candidate;
        lc_originalBundleSha256 candidate; lc_selectedTraceSha256 candidate]) "reduction_identity_invalid";
  _ ← lease_require (num_eq (lc_traceIndex candidate) 0) "reduction_trace_unsupported";
  _ ← lease_require (match lc_traceOccurrences candidate with [a; b] => num_eq a 0 && num_eq b 1 | _ => false end) "reduction_trace_unsupported";
  _ ← lease_require ((1 <=? length (lc_edits candidate))%nat && (length (lc_edits candidate) <=? 16)%nat && forallb supportedEdit (lc_edits candidate))
        "reduction_transform_unsupported";
  _ ← lease_require (no_dups (map edit_key (lc_edits candidate))) "reduction_edit_duplicate";
  mret candidate.

(** ** Values of a trace *)

(** [v.name] of an object, undefined for any other value that has properties. *)
Definition prop (v : js) (name : string) : js := match v with JObj o => getf o (lit name) | _ => JUndef end.

(** [states[index]] *)
Definition element (l : list js) (index : number) : js :=
  match num_safe_Z index with Some z => if (z <? 0)%Z then JUndef else default JUndef (l !! Z.to_nat z) | None => JUndef end.

Definition rawBigint (v : js) : option ustring :=
  match v with JObj [(k, JStr s)] => if k =s "#bigint" then Some s else None | _ => None end.

Definition bigint (s : string) : js := JObj [($"#bigint", JStr (lit s))].

(** [v.name = x] and [v[i] = x], for values that are objects or arrays. *)
Definition assign (v : js) (name : string) (x : js) : js := match v with JObj o => JObj (obj_set o (lit name) x) | _ => v end.
Definition assign_at (v : js) (i : nat) (x : js) : js := match v with JArr l => JArr (<[i := x]> l) | _ => v end.

(** [Object.is], for values of two trees. *)
Definition object_is (a b : js) : bool :=
  match a, b with
  | JUndef, JUndef | JNull, JNull => true
  | JBool x, JBool y => eqb x y
  | JNum x, JNum y => bool_decide (x = y)
  | JBig x, JBig y => (x =? y)%Z
  | JStr x, JStr y => bool_decide (x = y)
  | _, _ => false
  end.

Definition below (path segment : ustring) : ustring := path ++ $"/" ++ segment.

Definition assoc {A} (l : list (ustring * A)) (k : ustring) : option A := snd <$> List.find (fun e => bool_decide (k = e.1)) l.

(** What is undefined on the left. *)
Definition absent_difference (right : js) (path : ustring) : list ustring := match right with JUndef => [] | _ => [path] end.

(** Where two values differ. A name that one object lacks is looked up in its prototype,
    which the names of these traces do not occur in. *)
Fixpoint differences (left right : js) (path : ustring) {struct left} : list ustring :=
  if object_is left right then []
  else
    match left, right with
    | JArr l, JArr r =>
        if (length l =? length r)%nat then
          (fix go (i : N) (l r : list js) : list ustring :=
             match l, r with
             | x :: l', y :: r' => differences x y (below path (dec_of_N i)) ++ go (N.succ i) l' r'
             | _, _ => []
             end) 0%N l r
        else [path]
    | JObj lo, JObj ro =>
        let subs := map (fun kv => (kv.1, differences kv.2)) lo in
        concat (map (fun k => default absent_difference (assoc subs k) (getf ro k) (below path k))
                  (sort_by compare_lists (remove_dups (keys lo ++ keys ro))))
    | _, _ => [path]
    end.

(** ** Materializing *)

Definition wireAction (actionId : ustring) : option ustring :=
  assoc (map (fun p => (lit p.1, lit p.2)) [("Acquire", "acquire"); ("Renew", "renew"); ("Release", "release"); ("Write", "write")]%string) actionId.

Definition input_name (edit : LeaseReductionEdit) : string := if le_inputId edit =s "Client" then "client" else "token".

(** Whether an object, an array included. *)
Definition is_object (v : js) : bool := match v with JArr _ | JObj _ => true | _ => false end.
Definition edit_path (edit : LeaseReductionEdit) : ustring :=
  $"/states/" ++ num_text number_text (le_stateIndex edit) ++ $"/parameters/" ++ lit (input_name edit) ++ $"/#bigint".

(** [trace.states[index].parameters[input] = x] *)
Definition put (trace : js) (i : nat) (input : string) (x : js) : js :=
  let states := prop trace "states" in
  let state := match states with JArr l => default JUndef (l !! i) | _ => JUndef end in
  assign trace "states" (assign_at states i (assign state "parameters" (assign (prop state "parameters") input x))).

(** One edit of the copy; the set of allowed paths grows. *)
Definition apply_edit (source : list js) (edit : LeaseReductionEdit) (acc : js * list ustring) : res lease_error (js * list ustring) :=
  let '(trace, allowed) := acc in
  let before := element source (le_stateIndex edit) in
  let after := match prop trace "states" with JArr l => element l (le_stateIndex edit) | _ => JUndef end in
  _ ← lease_require (truthy before && truthy after &&
        match prop before "action_taken", wireAction (le_actionId edit) with
        | JStr a, Some w => bool_decide (a = w)
        | JUndef, None => true
        | _, _ => false
        end) "reduction_candidate_invalid";
  let input := input_name edit in
  _ ← lease_require (is_object (prop before "parameters") && is_object (prop after "parameters") &&
        bool_decide (rawBigint (prop (prop before "parameters") input) = Some (num_text number_text (le_before edit)))) "reduction_candidate_invalid";
  let path := edit_path edit in
  mret (match num_safe_Z (le_stateIndex edit) with
        | Some z => put trace (Z.to_nat z) input (JObj [($"#bigint", JStr (num_text number_text (le_after edit)))])
        | None => trace
        end, if bool_decide (path ∈ allowed) then allowed else allowed ++ [path]).

Fixpoint apply_edits (source : list js) (edits : list LeaseReductionEdit) (acc : js * list ustring) : res lease_error (js * list ustring) :=
  match edits with
  | [] => Ok acc
  | edit :: edits' => acc' ← apply_edit source edit acc; apply_edits source edits' acc'
  end.

Definition materializeLeaseReductionTrace (original : js) (candidateInput : LeaseReductionCandidate) : res lease_error (js * list ustring) :=
  candidate ← validateLeaseReductionCandidate candidateInput;
  match prop original "states" with
  | JArr source =>
      r ← apply_edits source (lc_edits candidate) (original, []);
      let '(trace, allowed) := r in
      let changedPaths := sort_by compare_lists (differences original trace []) in
      _ ← lease_require ((length changedPaths =? length allowed)%nat && forallb (fun path => bool_decide (path ∈ allowed)) changedPaths)
            "reduction_candidate_invalid";
      mret (trace, changedPaths)
  | _ => lease_fail "reduction_candidate_invalid"
  end.

(** ** Objects that are written to *)

Lemma obj_set_keys {A} (o : list (ustring * A)) k v : own_key_order o -> k ∈ map fst o -> map fst (obj_set o k v) = map fst o.
Proof.
  induction o as [|[k1 v1] o IH]; intros Ho Hk; [by apply not_elem_of_nil in Hk|]. cbn in *. destruct Ho as [H1 H2].
  case_bool_decide as E; [by subst|]. apply elem_of_cons in Hk as [?|Hk]; [done|].
  assert (key_before k k1 = false) as ->.
  { apply list_elem_of_fmap in Hk as ([k2 v2] & -> & Hin). rewrite Forall_forall in H1. by destruct (H1 _ Hin). }
  cbn. f_equal. by apply IH.
Qed.

Lemma obj_set_getf (o : object_t) k : own_key_order o -> k ∈ keys o -> obj_set o k (getf o k) = o.
Proof.
  induction o as [|[k1 v1] o IH]; intros Ho Hk; [by apply not_elem_of_nil in Hk|]. cbn in *. destruct Ho as [H1 H2].
  case_bool_decide as E; [by subst|]. apply elem_of_cons in Hk as [?|Hk]; [done|].
  assert (key_before k k1 = false) as ->.
  { apply list_elem_of_fmap in Hk as ([k2 v2] & -> & Hin). rewrite Forall_forall in H1. by destruct (H1 _ Hin). }
  f_equal. by apply IH.
Qed.

Lemma getf_key (o : object_t) k v : getf o k = v -> v <> JUndef -> k ∈ keys o.
Proof.
  intros H Hv. destruct (has_own o k) eqn:E; [by apply bool_decide_eq_true in E|]. apply getf_has_own in E. congruence.
Qed.

(** ** Differences *)

Lemma diff_obj lo ro p :
  differences (JObj lo) (JObj ro) p =
  concat (map (fun k => differences (getf lo k) (getf ro k) (below p k)) (sort_by compare_lists (remove_dups (keys lo ++ keys ro)))).
Proof.
  cbn [differences object_is]. f_equal. apply map_ext. intros k. generalize (getf ro k), (below p k). intros r q.
  unfold assoc. induction lo as [|[k1 v1] lo IH]; cbn; [by destruct r|]. case_bool_decide as E; cbn; [done|apply IH].
Qed.

Definition diff_list (p : ustring) : N -> list js -> list js -> list ustring :=
  fix go (i : N) (l r : list js) : list ustring :=
    match l, r with
    | x :: l', y :: r' => differences x y (below p (dec_of_N i)) ++ go (N.succ i) l' r'
    | _, _ => []
    end.

Lemma diff_arr l r p : differences (JArr l) (JArr r) p = if (length l =? length r)%nat then diff_list p 0 l r else [p].
Proof. done. Qed.

Lemma differences_same v : forall p, differences v v p = [].
Proof.
  induction v as [| | | | | |l IH|o IH] using js_ind'; intros p; cbn [differences object_is].
  1,2: done.
  1: by destruct b.
  1,2,3: rewrite ?bool_decide_eq_true_2, ?Z.eqb_refl by done; done.
  - rewrite Nat.eqb_refl. fold (diff_list p). generalize 0%N. induction IH as [|x l Hx _ IHl]; intros i; [done|].
    cbn. by rewrite Hx, IHl.
  - change (differences (JObj o) (JObj o) p = []). rewrite diff_obj. induction (sort_by _ _) as [|k ks IHk]; [done|].
    cbn. rewrite IHk, app_nil_r. clear IHk. generalize (below p k). intros q.
    enough (forall q, differences (getf o k) (getf o k) q = []) as H by apply H. clear q. induction IH as [|[k1 v1] o H1 _ IHo]; [done|].
    cbn. by case_bool_decide.
Qed.

Lemma concat_at {A B} `{EqDecision A} (f : A -> list B) l k : NoDup l -> k ∈ l ->
  concat (map f l) ≡ₚ f k ++ concat (map f (List.filter (fun x => negb (bool_decide (x = k))) l)).
Proof.
  induction 1 as [|x l Hx Hl IH]; intros Hk; [by apply not_elem_of_nil in Hk|]. cbn. case_bool_decide as E; cbn.
  - subst x. assert (List.filter (fun x => negb (bool_decide (x = k))) l = l) as ->; [|done]. clear -Hx.
    induction l as [|y l IH]; [done|]. apply not_elem_of_cons in Hx as [Hne Hx]. cbn. rewrite bool_decide_eq_false_2 by congruence.
    cbn. by rewrite IH.
  - apply elem_of_cons in Hk as [?|Hk]; [congruence|]. rewrite (IH Hk). rewrite !app_assoc. by rewrite (Permutation_app_comm (f x)).
Qed.

Lemma filter_map_ext {A B} `{EqDecision A} (f g : A -> B) l k : (forall x, x <> k -> f x = g x) ->
  map f (List.filter (fun x => negb (bool_decide (x = k))) l) = map g (List.filter (fun x => negb (bool_decide (x = k))) l).
Proof. intros H. induction l as [|x l IH]; [done|]. cbn. case_bool_decide; cbn; [done|]. by rewrite IH, H. Qed.

(** What is written below one name of an object only matters there. *)
Lemma diff_obj_at lo ro k p : own_key_order ro -> k ∈ keys ro -> exists rest, forall v,
  differences (JObj lo) (JObj (obj_set ro k v)) p ≡ₚ differences (getf lo k) v (below p k) ++ rest.
Proof.
  intros Ho Hk. set (names := sort_by compare_lists (remove_dups (keys lo ++ keys ro))).
  eexists. intros v. rewrite diff_obj. unfold keys at 2. rewrite (obj_set_keys _ _ _ Ho Hk). fold (keys ro). fold names.
  rewrite (concat_at _ names k).
  - rewrite getf_obj_set, bool_decide_eq_true_2 by done. apply Permutation_app_head.
    rewrite (filter_map_ext _ (fun k => differences (getf lo k) (getf ro k) (below p k)) names k); [reflexivity|].
    intros x Hx. by rewrite getf_obj_set, bool_decide_eq_false_2.
  - unfold names. rewrite sort_by_Permutation. apply NoDup_remove_dups.
  - unfold names. rewrite sort_by_Permutation. apply elem_of_remove_dups, elem_of_app. by right.
Qed.

Lemma diff_list_at p l : forall n r i x, length l = length r -> l !! i = Some x -> exists rest, forall v,
  diff_list p n l (<[i := v]> r) ≡ₚ differences x v (below p (dec_of_N (n + N.of_nat i))) ++ rest.
Proof.
  induction l as [|y l IH]; intros n r i x Hl Hi; [done|]. destruct r as [|z r]; [done|]. injection Hl as Hl. destruct i as [|i]; cbn in *.
  - injection Hi as ->. exists (diff_list p (N.succ n) l r). intros v. by rewrite N.add_0_r.
  - destruct (IH (N.succ n) r i x Hl Hi) as [rest Hr]. exists (differences y z (below p (dec_of_N n)) ++ rest). intros v. rewrite Hr.
    replace (n + N.of_nat (S i))%N with (N.succ n + N.of_nat i)%N by lia.
    rewrite !app_assoc. by rewrite (Permutation_app_comm (differences y z _)).
Qed.

Lemma diff_arr_at l r i x p : length l = length r -> l !! i = Some x -> exists rest, forall v,
  differences (JArr l) (JArr (<[i := v]> r)) p ≡ₚ differences x v (below p (dec_of_N (N.of_nat i))) ++ rest.
Proof.
  intros Hl Hi. destruct (diff_list_at p l 0 r i x Hl Hi) as [rest H]. exists rest. intros v.
  rewrite diff_arr, length_insert, Hl, Nat.eqb_refl. apply H.
Qed.

(** ** Inputs of a trace *)

(** A trace whose state [i] has the input: the objects on the way to it. *)
Definition input_at (v : js) (i : nat) (input : string) (names : object_t) (states : list js) (state inputs : object_t) : Prop :=
  v = JObj names /\ own_key_order names /\ getf names ($"states") = JArr states /\
  states !! i = Some (JObj state) /\ own_key_order state /\ getf state ($"parameters") = JObj inputs /\
  own_key_order inputs /\ lit input ∈ keys inputs.

Definition has_input (v : js) (i : nat) (input : string) : Prop := exists names states state inputs, input_at v i input names states state inputs.

Definition input_of (v : js) (i : nat) (input : string) : js :=
  match prop v "states" with JArr l => prop (prop (default JUndef (l !! i)) "parameters") input | _ => JUndef end.

Definition states_of (v : js) : list js := match prop v "states" with JArr l => l | _ => [] end.

Lemma put_at v i input x names states state inputs : input_at v i input names states state inputs ->
  put v i input x = JObj (obj_set names ($"states") (JArr (<[i := JObj (obj_set state ($"parameters") (JObj (obj_set inputs (lit input) x)))]> states))).
Proof. intros (-> & _ & Hs & Hi & _ & Hp & _ & _). unfold put, prop, assign, assign_at. rewrite Hs, Hi. cbn [default from_option id]. by rewrite Hp. Qed.

Lemma input_of_at v i input names states state inputs : input_at v i input names states state inputs ->
  input_of v i input = getf inputs (lit input).
Proof. intros (-> & _ & Hs & Hi & _ & Hp & _ & _). unfold input_of, prop. rewrite Hs, Hi. cbn [default from_option id]. by rewrite Hp. Qed.

Lemma put_same v i input : has_input v i input -> put v i input (input_of v i input) = v.
Proof.
  intros (names & states & state & inputs & H). rewrite (put_at _ _ _ _ _ _ _ _ H), (input_of_at _ _ _ _ _ _ _ H).
  destruct H as (-> & Ho & Hs & Hi & Hso & Hp & Hio & Hk). rewrite (obj_set_getf inputs) by done. rewrite <- Hp, (obj_set_getf state).
  - rewrite list_insert_id by done. rewrite <- Hs, obj_set_getf; [done|done|by eapply getf_key].
  - done.
  - by eapply getf_key; [exact Hp|].
Qed.

Lemma put_states v i input x : has_input v i input -> length (states_of (put v i input x)) = length (states_of v).
Proof.
  intros (names & states & state & inputs & H). rewrite (put_at _ _ _ _ _ _ _ _ H). destruct H as (-> & _ & Hs & _).
  unfold states_of, prop. rewrite getf_obj_set, bool_decide_eq_true_2, Hs by done. apply length_insert.
Qed.

Lemma input_of_put v i input x j other : has_input v i input ->
  input_of (put v i input x) j other = if bool_decide (j = i) && bool_decide (lit other = lit input) then x else input_of v j other.
Proof.
  intros (names & states & state & inputs & H). rewrite (put_at _ _ _ _ _ _ _ _ H). destruct H as (-> & _ & Hs & Hi & _ & Hp & _).
  unfold input_of, prop. rewrite getf_obj_set, bool_decide_eq_true_2, Hs by done. case_bool_decide as Ej; cbn [andb].
  - subst j. rewrite list_lookup_insert_eq by by eapply lookup_lt_Some. cbn [default from_option id].
    rewrite getf_obj_set, bool_decide_eq_true_2 by done. rewrite getf_obj_set. case_bool_decide; [done|]. rewrite Hi. cbn. by rewrite Hp.
  - by rewrite list_lookup_insert_ne by done.
Qed.

Lemma put_has_input v i input x j other : has_input v i input -> has_input v j other -> has_input (put v i input x) j other.
Proof.
  intros (names & states & state & inputs & H) (names' & states' & state' & inputs' & H'). rewrite (put_at _ _ _ _ _ _ _ _ H).
  destruct H as (-> & Ho & Hs & Hi & Hso & Hp & Hio & Hk), H' as ([= <-] & _ & Hs' & Hi' & Hso' & Hp' & Hio' & Hk').
  rewrite Hs in Hs'. injection Hs' as <-. set (state1 := obj_set state _ _). set (states1 := <[i:=_]> states).
  assert (getf (obj_set names ($"states") (JArr states1)) ($"states") = JArr states1) as G by (by rewrite getf_obj_set, bool_decide_eq_true_2).
  destruct (decide (j = i)) as [->|Hj].
  - rewrite Hi in Hi'. injection Hi' as <-. rewrite Hp in Hp'. injection Hp' as <-.
    eexists _, states1, state1, (obj_set inputs (lit input) x). split; [reflexivity|]. split_and!.
    + by apply obj_set_own_key_order.
    + done.
    + unfold states1. rewrite list_lookup_insert_eq by by eapply lookup_lt_Some. done.
    + by apply obj_set_own_key_order.
    + unfold state1. by rewrite getf_obj_set, bool_decide_eq_true_2.
    + by apply obj_set_own_key_order.
    + unfold keys. by rewrite obj_set_keys.
  - eexists _, states1, state', inputs'. split; [reflexivity|]. split_and!; try done.
    + by apply obj_set_own_key_order.
    + unfold states1. by rewrite list_lookup_insert_ne.
Qed.

Definition location_path (i : nat) (input : string) : ustring :=
  $"/states/" ++ dec_of_N (N.of_nat i) ++ $"/parameters/" ++ lit input.

(** What a trace has at one input matters only there. *)
Lemma diff_put source trace i input : has_input source i input -> has_input trace i input ->
  length (states_of source) = length (states_of trace) ->
  exists rest, forall x, differences source (put trace i input x) [] ≡ₚ differences (input_of source i input) x (location_path i input) ++ rest.
Proof.
  intros (lo & ls & ss & si & HL) (ro & rs & rs' & ri & HR). rewrite (input_of_at _ _ _ _ _ _ _ HL).
  assert (forall x, put trace i input x = JObj (obj_set ro ($"states") (JArr (<[i := JObj (obj_set rs' ($"parameters") (JObj (obj_set ri (lit input) x)))]> rs)))) as Hput
    by (intros x; by apply put_at).
  destruct HL as (-> & _ & Ls & Li & _ & Lp & _ & _), HR as (-> & Ho & Hs & Hi & Hso & Hp & Hio & Hk).
  unfold states_of, prop. rewrite Ls, Hs. intros Hlen.
  destruct (diff_obj_at lo ro ($"states") [] Ho) as [r1 H1]; [by eapply getf_key|].
  destruct (diff_arr_at ls rs i (JObj ss) (below [] ($"states")) Hlen Li) as [r2 H2].
  destruct (diff_obj_at ss rs' ($"parameters") (below (below [] ($"states")) (dec_of_N (N.of_nat i))) Hso) as [r3 H3]; [by eapply getf_key|].
  destruct (diff_obj_at si ri (lit input) (below (below (below [] ($"states")) (dec_of_N (N.of_nat i))) ($"parameters")) Hio Hk) as [r4 H4].
  exists (r4 ++ r3 ++ r2 ++ r1). intros x. rewrite Hput, H1, Ls, H2, H3, Lp, H4, <- !app_assoc.
  unfold location_path, below. cbn. by rewrite <- ?app_assoc.
Qed.

(** ** What an edit asks for *)

Fixpoint well_keyed (v : js) : bool :=
  match v with
  | JArr l => forallb well_keyed l
  | JObj o => own_key_orderb o && forallb (fun kv => well_keyed kv.2) o
  | _ => true
  end.

(** The state and the input an edit is about. *)
Definition location (e : LeaseReductionEdit) : nat * string :=
  (match num_safe_Z (le_stateIndex e) with Some z => Z.to_nat z | None => 0%nat end, input_name e).

(** The trace has the action of the edit in its state, and the input is 2. *)
Definition requested (source : js) (e : LeaseReductionEdit) : Prop :=
  exists state w, states_of source !! (location e).1 = Some state /\ wireAction (le_actionId e) = Some w /\
    prop state "action_taken" = JStr w /\ input_of source (location e).1 (location e).2 = bigint "2".

Lemma well_keyed_obj o : well_keyed (JObj o) = true -> own_key_order o /\ forall k, well_keyed (getf o k) = true.
Proof.
  cbn. intros [H1%own_key_orderb_ok H2]%andb_true_iff. split; [done|]. intros k. clear H1.
  induction o as [|[k1 v1] o IH]; [done|]. cbn in *. apply andb_true_iff in H2 as [? H2]. case_bool_decide; [done|by apply IH].
Qed.

Lemma requested_has_input source e : well_keyed source = true -> requested source e -> has_input source (location e).1 (location e).2.
Proof.
  destruct (location e) as [i input] eqn:El. unfold requested. rewrite El. cbn [fst snd].
  intros Hw (state & w & Hs & _ & _ & Hin). unfold states_of, input_of in *.
  destruct source as [| | | | | | |names]; try done. cbn [prop] in *. destruct (well_keyed_obj _ Hw) as [Ho Hg].
  destruct (getf names (lit "states")) as [| | | | | |states|] eqn:Es; try done. rewrite Hs in Hin. cbn [default from_option id] in Hin.
  destruct state as [| | | | | | |state]; try done. cbn [prop] in Hin.
  assert (well_keyed (JObj state) = true) as Hws.
  { specialize (Hg (lit "states")). rewrite Es in Hg. cbn in Hg. rewrite forallb_forall in Hg. apply Hg. apply list_elem_of_In.
    by eapply list_elem_of_lookup_2. }
  destruct (well_keyed_obj _ Hws) as [Hso Hsg]. destruct (getf state (lit "parameters")) as [| | | | | | |inputs] eqn:Ep; try done. cbn [prop] in Hin.
  specialize (Hsg (lit "parameters")). rewrite Ep in Hsg. destruct (well_keyed_obj _ Hsg) as [Hio _].
  exists names, states, state, inputs. split_and!; try done. by eapply getf_key.
Qed.

Lemma rawBigint_Some v s : rawBigint v = Some (lit s) <-> v = bigint s.
Proof.
  unfold rawBigint, bigint. split; [|intros ->; by rewrite bool_decide_eq_true_2].
  destruct v as [| | | | | | |[|[k []] []]]; try done. case_bool_decide as E; [|done]. intros [= ->]. by rewrite E.
Qed.

Lemma SFeqb_finite x s m e : SFeqb x (S754_finite s m e) = true -> x = S754_finite s m e.
Proof.
  unfold SFeqb, SFcompare. destruct x as [[]|[]| |[] m' e'], s; try done; destruct (Z.compare_spec e' e) as [->| |]; try done;
    change (PosDef.Pos.compare_cont Eq m' m) with (m' ?= m)%positive; destruct (Pos.compare_spec m' m) as [->| |]; done.
Qed.

Lemma supportedEdit_facts e : supportedEdit e = true ->
  (exists z, num_safe_Z (le_stateIndex e) = Some z /\ (1 <= z)%Z) /\ le_before e = num_of_Z 2 /\ le_after e = num_of_Z 1 /\
  (le_inputId e = $"Client" \/ le_inputId e = $"Token") /\ exists w, wireAction (le_actionId e) = Some w.
Proof.
  unfold supportedEdit. rewrite !andb_true_iff. intros (((Hz & Hb) & Ha) & Hi). split_and!.
  - destruct (num_safe_Z _) as [z|]; [|done]. exists z. split; [done|lia].
  - by apply SFeqb_finite in Hb.
  - by apply SFeqb_finite in Ha.
  - case_bool_decide; [left; by apply bool_decide_eq_true in Hi|]. apply andb_true_iff in Hi as [_ Hi%bool_decide_eq_true].
    set_solver.
  - case_bool_decide as E; [rewrite E; by eexists|]. apply andb_true_iff in Hi as [Hi%bool_decide_eq_true _].
    cbn [map] in Hi. rewrite !elem_of_cons in Hi.
    destruct Hi as [->|[->|[->|?%not_elem_of_nil]]]; [eexists; reflexivity..|done].
Qed.

Lemma wireAction_inj a b w : wireAction a = Some w -> wireAction b = Some w -> a = b.
Proof.
  unfold wireAction, assoc. cbn. intros Ha Hb. repeat case_bool_decide; simplify_eq; try congruence;
    try (by rewrite <- Hb in Ha; vm_compute in Ha).
Qed.

(** ** The copy after some edits *)

Section copy.
Context (source : js) (Hsource : well_keyed source = true).

Definition done_at (edits : list LeaseReductionEdit) (i : nat) (input : string) : bool := existsb (fun e => bool_decide (location e = (i, input))) edits.

(** The trace with the input of an edit replaced. *)
Definition write_edit (trace : js) (e : LeaseReductionEdit) : js := put trace (location e).1 (location e).2 (bigint "1").

Record edited (trace : js) (edits : list LeaseReductionEdit) : Prop := Edited {
  ed_has : forall i input, has_input source i input -> has_input trace i input;
  ed_states : length (states_of trace) = length (states_of source);
  ed_input : forall i input, input_of trace i input = if done_at edits i input then bigint "1" else input_of source i input;
  ed_differs : differences source trace [] ≡ₚ map edit_path edits;
  ed_value : trace = foldl write_edit source edits }.

Lemma edited_none : edited source [].
Proof. split; [done|done|done| |done]. by rewrite differences_same. Qed.

Lemma edit_path_location e : supportedEdit e = true -> edit_path e = location_path (location e).1 (location e).2 ++ $"/#bigint".
Proof.
  intros ((z & Hz & Hle) & _)%supportedEdit_facts. unfold edit_path, location_path, location, num_text. rewrite Hz. cbn [fst snd].
  assert (dec_of_N (N.of_nat (Z.to_nat z)) = dec_of_Z z) as ->; [|by rewrite <- !app_assoc].
  rewrite Z_nat_N. destruct z; [done|done|lia].
Qed.

Lemma split_at_separator {A} (c : A) a b r t : c ∉ a -> c ∉ b -> a ++ c :: r = b ++ c :: t -> a = b /\ r = t.
Proof.
  revert b. induction a as [|x a IH]; intros [|y b] Ha Hb E; cbn in *.
  - by injection E.
  - injection E as -> _. destruct Hb. by left.
  - injection E as <- _. destruct Ha. by left.
  - injection E as <- E. apply not_elem_of_cons in Ha as [_ Ha], Hb as [_ Hb]. by destruct (IH _ Ha Hb E) as [-> ->].
Qed.

Lemma slash_not_digit n : 47%N ∉ dec_of_N n.
Proof. intros H. pose proof (dec_ok_digits _ _ (dec_of_N_ok n)) as Hd. rewrite Forall_forall in Hd. by specialize (Hd _ H). Qed.

Lemma input_name_slash e : 47%N ∉ lit (input_name e).
Proof. unfold input_name. case_bool_decide; refine (bool_decide_eq_true_1 _ _); vm_compute; reflexivity. Qed.

Lemma edit_path_inj e e' : supportedEdit e = true -> supportedEdit e' = true -> edit_path e = edit_path e' -> location e = location e'.
Proof.
  intros Hs Hs'. rewrite !edit_path_location by done. unfold location_path. rewrite <- !app_assoc. intros H%app_inv_head.
  apply (split_at_separator 47%N) in H as [H1 H2]; [|apply slash_not_digit..].
  change (skipn 1 (lit "/parameters/") ++ lit (location e).2 ++ lit "/#bigint" = skipn 1 (lit "/parameters/") ++ lit (location e').2 ++ lit "/#bigint") in H2.
  apply app_inv_head in H2. apply (split_at_separator 47%N) in H2 as [H2 _]; [|apply input_name_slash..].
  apply lit_inj in H2. apply injective_projections; [|done].
  apply (f_equal (digits_value 10)) in H1. rewrite !digits_value_dec in H1. injection H1 as H1. apply Nat2N.inj in H1. exact H1.
Qed.

Lemma edited_step trace edits e : edited trace edits -> supportedEdit e = true -> requested source e -> location e ∉ map location edits ->
  edited (put trace (location e).1 (location e).2 (bigint "1")) (edits ++ [e]).
Proof.
  intros [] Hs Hr Hn. pose proof (requested_has_input _ _ Hsource Hr) as Hh. pose proof (ed_has0 _ _ Hh) as Ht.
  assert (done_at edits (location e).1 (location e).2 = false) as Hnot.
  { apply not_true_is_false. intros (e' & Hin & He)%existsb_exists. apply bool_decide_eq_true in He. apply Hn.
    apply list_elem_of_fmap. exists e'. split; [by rewrite He, <- surjective_pairing|by apply list_elem_of_In]. }
  split.
  - intros i input H. apply put_has_input; auto.
  - by rewrite put_states.
  - intros i input. rewrite input_of_put, ed_input0 by done. unfold done_at. rewrite existsb_app. cbn [existsb]. rewrite orb_false_r.
    destruct (location e) as [j other] eqn:El. cbn [fst snd] in *.
    assert (bool_decide ((j, other) = (i, input)) = bool_decide (i = j) && bool_decide (lit input = lit other)) as ->.
    { destruct (decide (i = j)) as [->|]; [|by rewrite !bool_decide_eq_false_2 by congruence].
      rewrite (bool_decide_eq_true_2 (j = j)) by done. destruct (decide (input = other)) as [->|Hne]; [by rewrite !bool_decide_eq_true_2|].
      rewrite !bool_decide_eq_false_2; [done| |congruence]. by intros ?%lit_inj. }
    destruct (existsb _ edits); [rewrite orb_true_l; by destruct (_ && _)|done].
  - destruct (diff_put source trace _ _ Hh Ht (eq_sym ed_states0)) as [rest Hd].
    rewrite Hd. rewrite map_app. cbn [map]. destruct Hr as (_ & _ & _ & _ & _ & Hin). rewrite Hin.
    pose proof (Hd (input_of trace (location e).1 (location e).2)) as Hold. rewrite put_same in Hold by done.
    rewrite ed_input0, Hnot, Hin, differences_same in Hold. cbn [app] in Hold. rewrite <- Hold, ed_differs0.
    rewrite (edit_path_location e Hs). change (differences (bigint "2") (bigint "1") ?p) with [below p ($"#bigint")].
    apply (Permutation_app_comm [_]).
  - by rewrite foldl_app, <- ed_value0.
Qed.

(** One edit is applied exactly when it is requested. *)
Lemma apply_edit_iff trace edits allowed e : edited trace edits -> supportedEdit e = true -> prop source "states" = JArr (states_of source) ->
  match apply_edit (states_of source) e (trace, allowed) with
  | Ok (trace', allowed') => requested source e /\ trace' = put trace (location e).1 (location e).2 (bigint "1") /\
      allowed' = if bool_decide (edit_path e ∈ allowed) then allowed else allowed ++ [edit_path e]
  | Err x => x = LeaseReductionError ($"reduction_candidate_invalid") /\ ~ requested source e
  end.
Proof.
  intros Hed Hs Hst. destruct (supportedEdit_facts e Hs) as ((z & Hz & Hle) & Hb & Ha & _ & w & Hw). unfold apply_edit.
  unfold element. rewrite Hz, Hb, Ha, Hw. destruct (Z.ltb_spec z 0); [lia|].
  change (num_text number_text (num_of_Z 2)) with (lit "2"). change (JObj [($"#bigint", JStr (num_text number_text (num_of_Z 1)))]) with (bigint "1").
  set (before := default JUndef (states_of source !! Z.to_nat z)).
  set (after := match prop trace "states" with JArr l => _ | _ => JUndef end).
  assert (requested source e <-> truthy before = true /\ prop before "action_taken" = JStr w /\ prop (prop before "parameters") (input_name e) = bigint "2") as Hreq.
  { unfold requested, location. rewrite Hz. cbn [fst snd]. unfold input_of. rewrite Hst. fold before. split.
    - intros (state & w' & Hl & Hw' & Hact & Hin). assert (before = state) as -> by (unfold before; by rewrite Hl).
      split_and!; [by destruct state|congruence|done].
    - intros (_ & Hact & Hin). exists before, w. split_and!; try done. unfold before in *. by destruct (states_of source !! _). }
  assert (requested source e -> truthy after = true /\ is_object (prop after "parameters") = true) as Haft.
  { intros Hr. destruct (ed_has _ _ Hed _ _ (requested_has_input _ _ Hsource Hr)) as (names & states & state & inputs & -> & _ & Hs' & Hi & _ & Hp & _).
    unfold location in Hi. rewrite Hz in Hi. cbn [fst] in Hi. unfold after, prop. rewrite Hs', Hi. cbn [default from_option id]. by rewrite Hp. }
  assert (requested source e -> is_object (prop before "parameters") = true) as Hobj.
  { intros (_ & _ & Hin)%Hreq. by destruct (prop before "parameters"). }
  set (b1 := truthy before && truthy after && _). set (b2 := is_object (prop before "parameters") && _ && _).
  assert (b1 = true /\ b2 = true <-> requested source e) as Hb12.
  { rewrite Hreq. unfold b1, b2. rewrite !andb_true_iff. split.
    - intros (((H1 & _) & H2) & _ & H3). split_and!; [done| |by apply rawBigint_Some; apply bool_decide_eq_true in H3].
      destruct (prop before "action_taken"); try done. by apply bool_decide_eq_true in H2 as ->.
    - intros Hr. assert (requested source e) as Hr' by (by apply Hreq). destruct (Haft Hr') as [H1 H2]. pose proof (Hobj Hr') as H3.
      destruct Hr as (H4 & H5 & H6). rewrite H5, H6. split_and!; try done; by apply bool_decide_eq_true. }
  unfold lease_require, location. rewrite Hz. cbn [fst snd].
  destruct b1; cbn [mbind res_mbind]; [|split; [done|intros [? _]%Hb12; done]].
  destruct b2; cbn [mbind res_mbind mret res_mret]; [|split; [done|intros [_ ?]%Hb12; done]]. split_and!; [by apply Hb12|done|done].
Qed.

Lemma edited_distinct edits e : Forall (fun e => supportedEdit e = true) (edits ++ [e]) -> Forall (requested source) (edits ++ [e]) ->
  NoDup (map edit_key (edits ++ [e])) -> location e ∉ map location edits.
Proof.
  intros Hs Hr Hn (e' & Hl & Hin)%list_elem_of_fmap. assert (e' ∈ edits ++ [e]) as Hin' by (apply elem_of_app; by left).
  assert (e ∈ edits ++ [e]) as He by (apply elem_of_app; right; by left). rewrite Forall_forall in Hs. rewrite Forall_forall in Hr.
  assert (edit_key e = edit_key e') as Hk.
  { destruct (supportedEdit_facts e (Hs _ He)) as ((z & Hz & Hz1) & _ & _ & Hi & _).
    destruct (supportedEdit_facts e' (Hs _ Hin')) as ((z' & Hz' & Hz1') & _ & _ & Hi' & _).
    destruct (Hr _ He) as (state & w & H1 & H2 & H3 & _). destruct (Hr _ Hin') as (state' & w' & H1' & H2' & H3' & _).
    rewrite Hl in H1. rewrite H1 in H1'. injection H1' as <-. rewrite H3 in H3'. injection H3' as <-.
    unfold edit_key, num_text. rewrite Hz, Hz', (wireAction_inj _ _ _ H2 H2'). unfold location, input_name in Hl. rewrite Hz, Hz' in Hl.
    injection Hl as Hzz Hn'. assert (z = z') as -> by lia. do 4 f_equal.
    destruct Hi as [Hi|Hi], Hi' as [Hi'|Hi']; rewrite Hi, Hi' in *; done. }
  rewrite map_app in Hn. cbn in Hn. apply NoDup_app in Hn as (_ & Hn & _). apply (Hn (edit_key e)); [|by left].
  apply list_elem_of_fmap. by exists e'.
Qed.

(** The edits are all applied exactly when all are requested. *)
Lemma apply_edits_iff edits : forall trace done allowed, edited trace done -> Forall (requested source) done ->
  Forall (fun e => supportedEdit e = true) (done ++ edits) -> NoDup (map edit_key (done ++ edits)) ->
  prop source "states" = JArr (states_of source) -> allowed = map edit_path done ->
  match apply_edits (states_of source) edits (trace, allowed) with
  | Ok (trace', allowed') => Forall (requested source) (done ++ edits) /\ edited trace' (done ++ edits) /\ allowed' = map edit_path (done ++ edits)
  | Err x => x = LeaseReductionError ($"reduction_candidate_invalid") /\ ~ Forall (requested source) (done ++ edits)
  end.
Proof.
  induction edits as [|e edits IH]; intros trace done allowed Hed Hr Hs Hk Hst ->; cbn [apply_edits]; [by rewrite !app_nil_r|].
  assert (supportedEdit e = true) as Hse by (apply Forall_app in Hs as [_ Hs]; by apply Forall_cons in Hs as [? _]).
  pose proof (apply_edit_iff trace done (map edit_path done) e Hed Hse Hst) as H.
  destruct (apply_edit (states_of source) e (trace, map edit_path done)) as [[trace' allowed']|x]; cbn [mbind res_mbind].
  2:{ destruct H as [-> Hn]. split; [done|]. intros Hall. apply Hn. apply Forall_app in Hall as [_ Hall]. by apply Forall_cons in Hall as [? _]. }
  destruct H as (Hre & -> & ->). assert (done ++ e :: edits = (done ++ [e]) ++ edits) as E by (by rewrite <- app_assoc). rewrite E in *.
  assert (Forall (requested source) (done ++ [e])) as Hr' by (apply Forall_app; split; [done|by constructor]).
  assert (location e ∉ map location done) as Hn.
  { apply edited_distinct; [by apply Forall_app in Hs as [? _]|done|]. rewrite map_app in Hk. by apply NoDup_app in Hk as [? _]. }
  apply IH; [by apply edited_step|done..|]. rewrite map_app. rewrite bool_decide_eq_false_2; [done|].
  intros (e' & He & Hin)%list_elem_of_fmap. apply Hn, list_elem_of_fmap. exists e'. split; [|done]. apply edit_path_inj; [done| |done].
  rewrite Forall_forall in Hs. apply Hs, elem_of_app. left. apply elem_of_app. by left.
Qed.
End copy.

Lemma candidate_facts c c' : validateLeaseReductionCandidate c = Ok c' ->
  c' = c /\ Forall (fun e => supportedEdit e = true) (lc_edits c) /\ NoDup (map edit_key (lc_edits c)) /\
  (1 <= length (lc_edits c) <= 16)%nat /\ num_eq (lc_traceIndex c) 0 = true.
Proof.
  unfold validateLeaseReductionCandidate, lease_require. intros H.
  do 2 (apply res_bind_Ok in H as (? & _ & H)). apply res_bind_Ok in H as (? & Ht & H). apply res_bind_Ok in H as (? & _ & H).
  apply res_bind_Ok in H as (? & He & H). apply res_bind_Ok in H as (? & Hk & [= <-]).
  destruct (num_eq _ 0); [|done]. destruct (_ && _) eqn:E; [|done]. destruct (no_dups _) eqn:Ek; [|done].
  rewrite !andb_true_iff in E. destruct E as ((E1 & E2) & E3). apply no_dups_NoDup in Ek. split_and!; try done.
  - by apply Forall_forall; intros e Hin; rewrite forallb_forall in E3; apply E3, list_elem_of_In.
  - by apply Nat.leb_le in E1.
  - by apply Nat.leb_le in E2.
Qed.
End materialize.

(** C16: a materialized trace differs from the original exactly in the declared inputs.
    It is made exactly when the candidate is valid, the trace has states, and every edit
    names a state with its action whose input is 2; the last comparison, of the
    differences with the declared edits, never rejects a trace made from such edits.
    The result is the original with just those inputs replaced by 1: every other input
    and the number of states are kept, and the changed paths are those of the edits, in
    order. *)
Theorem materialize_exact number_text original c : well_keyed original = true ->
  match materializeLeaseReductionTrace number_text original c with
  | Ok (trace, paths) =>
      validateLeaseReductionCandidate number_text c = Ok c /\ Forall (requested original) (lc_edits c) /\
      trace = foldl write_edit original (lc_edits c) /\ length (states_of trace) = length (states_of original) /\
      (forall i input, input_of trace i input = if done_at (lc_edits c) i input then bigint "1" else input_of original i input) /\
      differences original trace [] ≡ₚ map (edit_path number_text) (lc_edits c) /\
      paths = sort_by compare_lists (map (edit_path number_text) (lc_edits c))
  | Err e => validateLeaseReductionCandidate number_text c = Err e \/
      e = LeaseReductionError ($"reduction_candidate_invalid") /\
      ~ ((exists states, prop original "states" = JArr states) /\ Forall (requested original) (lc_edits c))
  end.
Proof.
  intros Hw. unfold materializeLeaseReductionTrace. destruct (validateLeaseReductionCandidate number_text c) as [c'|e] eqn:Ev; [|by left].
  destruct (candidate_facts _ _ _ Ev) as (-> & Hs & Hk & _). cbn [mbind res_mbind].
  destruct (prop original "states") as [| | | | | |source|] eqn:Es; try (right; split; [done|]; intros [[? ?] _]; done).
  assert (states_of original = source) as Hst by (unfold states_of; by rewrite Es). rewrite <- Hst in *.
  pose proof (apply_edits_iff number_text original Hw (lc_edits c) original [] [] (edited_none _ _) (Forall_nil_2 _) Hs Hk Es eq_refl) as H.
  destruct (apply_edits number_text (states_of original) (lc_edits c) (original, [])) as [[trace allowed]|x]; cbn [mbind res_mbind].
  2:{ destruct H as [-> Hn]. right. split; [done|]. by intros [_ ?]. }
  destruct H as (Hr & [] & ->). cbn [app] in *.
  assert (sort_by compare_lists (differences original trace []) = sort_by compare_lists (map (edit_path number_text) (lc_edits c))) as Hsort.
  { apply (sort_by_perm_eq _ (fun a b => compare_lists_op a b) compare_lists_lt_gt); [|done]. intros a b _ _. apply compare_lists_Eq. }
  rewrite Hsort, sort_by_length, Nat.eqb_refl. cbn [andb].
  assert (forallb (fun path => bool_decide (path ∈ map (edit_path number_text) (lc_edits c))) (sort_by compare_lists (map (edit_path number_text) (lc_edits c))) = true) as ->.
  { apply forallb_forall. intros p Hp. apply bool_decide_eq_true. apply list_elem_of_In in Hp. by rewrite sort_by_Permutation in Hp. }
  by split_and!.
Qed.

(** ** A concrete trace *)

Definition lease_state (action : string) (client token : string) : js :=
  JObj [($"action_taken", JStr (lit action)); ($"parameters", JObj [($"client", bigint client); ($"token", bigint token)]); ($"owner", bigint "0")].

Definition lease_trace : js :=
  JObj [($"states", JArr [lease_state "init" "0" "0"; lease_state "acquire" "2" "0"; lease_state "write" "2" "2"; lease_state "renew" "1" "2"])].

Definition lease_edit (index : Z) (action input : string) : LeaseReductionEdit := MkEdit (num_of_Z index) (lit action) (lit input) (num_of_Z 2) (num_of_Z 1).

Definition lease_digest : ustring := repeat 0x61%N 64.

Definition lease_candidate : LeaseReductionCandidate :=
  MkCandidate LEASE_REDUCTION_SCHEMA lease_digest lease_digest lease_digest lease_digest lease_digest (num_of_Z 0) [num_of_Z 0; num_of_Z 1]
    [lease_edit 2 "Write" "Token"; lease_edit 1 "Acquire" "Client"].

Example lease_candidate_applies :
  materializeLeaseReductionTrace (fun _ => []) lease_trace lease_candidate =
  Ok (JObj [($"states", JArr [lease_state "init" "0" "0"; lease_state "acquire" "1" "0"; lease_state "write" "2" "1"; lease_state "renew" "1" "2"])],
      [$"/states/1/parameters/client/#bigint"; $"/states/2/parameters/token/#bigint"]).
Proof. vm_compute. reflexivity. Qed.

Lemma lease_trace_keyed : well_keyed lease_trace = true.
Proof. vm_compute. reflexivity. Qed.

Example materialize_exact_witness :
  match materializeLeaseReductionTrace (fun _ => []) lease_trace lease_candidate with
  | Ok (trace, paths) =>
      validateLeaseReductionCandidate (fun _ => []) lease_candidate = Ok lease_candidate /\ Forall (requested lease_trace) (lc_edits lease_candidate) /\
      trace = foldl write_edit lease_trace (lc_edits lease_candidate) /\ length (states_of trace) = length (states_of lease_trace) /\
      (forall i input, input_of trace i input = if done_at (lc_edits lease_candidate) i input then bigint "1" else input_of lease_trace i input) /\
      differences lease_trace trace [] ≡ₚ map (edit_path (fun _ => [])) (lc_edits lease_candidate) /\
      paths = sort_by compare_lists (map (edit_path (fun _ => [])) (lc_edits lease_candidate))
  | Err e => validateLeaseReductionCandidate (fun _ => []) lease_candidate = Err e \/
      e = LeaseReductionError ($"reduction_candidate_invalid") /\
      ~ ((exists states, prop lease_trace "states" = JArr states) /\ Forall (requested lease_trace) (lc_edits lease_candidate))
  end.
Proof. exact (materialize_exact (fun _ => []) lease_trace lease_candidate lease_trace_keyed). Defined.
