(* ===== verification/LeaseReduction.v ===== *)
(** * Reducing the inputs of the lease service

    [src/src/lease-reduction.ts]: the records an evaluator hands over
    ([validateLeaseReductionServiceIdentity], [validateLeaseReductionRemoteTools],
    [validateAuthority], [validatePolicy]), the reduction of one candidate
    ([reduceLeaseServiceInput]) and the oracle it is checked with
    ([openReductionOracleTransport], [settleOracleCleanup],
    [applyOracleModeEnvironment]).

    What the oracle and the evaluation give, how the races against the budgets end and
    how long the parts took are the environment ([lease_env]), times in microseconds;
    of a bundle the parts that are read are given, with the digest of its text. The
    texts of error messages are left out. *)

From Stdlib Require Import SpecFloat.
From S2P Require Import Prelude JsNumber Utf16 JsData StrictJson Decode JsText ModelTypes Canonical Descriptor Acceptance Reproduction Stability BundleText Suite SuitePreflight LeaseTrace.

(** ** Records *)

Definition LEASE_REDUCTION_PROFILE : ustring := $"lease-service-input-shrink/v1".
Definition LEASE_REDUCTION_DOMAIN_VERSION : ustring := $"LeaseService.Next/v1".
Definition LEASE_REDUCTION_APALACHE_VERSION : ustring := $"0.62.2".
Definition LEASE_REDUCTION_JAVA_OBSERVED_VERSION : ustring := $"25.0.4+7-LTS".

(** [/^[0-9]{4}-[0-9]{2}-...$/]: a 0 of the template stands for any digit. *)
Fixpoint like (template s : ustring) : bool :=
  match template, s with
  | [], [] => true
  | t :: template', c :: s' => (if (t =? 48)%N then is_digit c else (c =? t)%N) && like template' s'
  | _, _ => false
  end.
Definition iso8601_templates : list string :=
  ["0000-00-00T00:00:00Z"; "0000-00-00T00:00:00.0Z"; "0000-00-00T00:00:00.00Z"; "0000-00-00T00:00:00.000Z"]%string.
Definition iso8601_utc (s : ustring) : bool := existsb (fun t => like (lit t) s) iso8601_templates.
Definition printable_ascii (s : ustring) : bool := negb (bool_decide (s = [])) && forallb (fun c => (0x20 <=? c)%N && (c <=? 0x7e)%N) s.
Definition host_name (s : ustring) : bool := headed (fun c => is_alnum c || unit_in ".:_-" c) s.

Record LeaseReductionServiceIdentity := MkService {
  ls_host : ustring;
  ls_port : Z;
  ls_peerLeafSha256 : ustring;
  ls_observedAt : ustring;
  ls_qualificationRef : ustring }.

(** An object with exactly these keys. *)
Definition serviceRecord (value : js) (names : list string) : res lease_error object_t :=
  match value with
  | JObj o =>
      _ ← lease_require (bool_decide (sort_text (keys o) = sort_text (map lit names))) "reduction_service_identity_invalid"; mret o
  | _ => lease_fail "reduction_service_identity_invalid"
  end.

Definition bounded_text (v : js) (most : nat) (pattern : ustring -> bool) : option ustring :=
  match v with JStr s => if (1 <=? length s)%nat && (length s <=? most)%nat && pattern s then Some s else None | _ => None end.

Definition safe_between (v : js) (low high : Z) : option Z :=
  match v with
  | JNum x => match num_safe_Z x with Some z => if (low <=? z)%Z && (z <=? high)%Z then Some z else None | None => None end
  | _ => None
  end.

Definition digest_text (v : js) : option ustring := match v with JStr s => if is_sha256 s then Some s else None | _ => None end.

Definition lease_some {A} (o : option A) (code : string) : res lease_error A := match o with Some a => Ok a | None => lease_fail code end.

Definition validateLeaseReductionServiceIdentity (date_parses : ustring -> bool) (value : js) : res lease_error LeaseReductionServiceIdentity :=
  let check {A} (o : option A) := lease_some o "reduction_service_identity_invalid" in
  record ← serviceRecord value ["endpoint"; "peerLeafSha256"; "apalacheVersion"; "javaVersion"; "observedAt"; "qualificationRef"]%string;
  endpoint ← serviceRecord (getf record ($"endpoint")) ["host"; "port"]%string;
  host ← check (bounded_text (getf endpoint ($"host")) 253 host_name);
  port ← check (safe_between (getf endpoint ($"port")) 1 65535);
  leaf ← check (digest_text (getf record ($"peerLeafSha256")));
  _ ← lease_require (same_value (getf record ($"apalacheVersion")) (JStr LEASE_REDUCTION_APALACHE_VERSION)) "reduction_service_identity_invalid";
  _ ← lease_require (same_value (getf record ($"javaVersion")) (JStr LEASE_REDUCTION_JAVA_OBSERVED_VERSION)) "reduction_service_identity_invalid";
  observedAt ← check (match getf record ($"observedAt") with JStr s => if iso8601_utc s && date_parses s then Some s else None | _ => None end);
  qualificationRef ← check (bounded_text (getf record ($"qualificationRef")) 512 printable_ascii);
  mret (MkService host port leaf observedAt qualificationRef).

Record LeaseReductionRemoteTools := MkRemoteTools {
  lt_totalBudgetMs : Z;
  lt_cleanupBudgetMs : Z;
  lt_validatorPath : ustring;
  lt_validatorSha256 : ustring }.

Definition LEASE_REDUCTION_TOOLS_SCHEMA_REMOTE : ustring := $"mirrorecma.lease-reduction-tools/v2".
Definition LEASE_REDUCTION_VALIDATOR_ID : ustring := $"mirrors.model-interface-reduction/v1".

Definition validateLeaseReductionRemoteTools (value : js) : res lease_error LeaseReductionRemoteTools :=
  let check {A} (o : option A) := lease_some o "reduction_tool_manifest_invalid" in
  record ← serviceRecord value ["schema"; "mode"; "totalBudgetMs"; "cleanupBudgetMs"; "validator"]%string;
  _ ← lease_require (same_value (getf record ($"schema")) (JStr LEASE_REDUCTION_TOOLS_SCHEMA_REMOTE)) "reduction_tool_manifest_invalid";
  _ ← lease_require (same_value (getf record ($"mode")) (JStr ($"remote"))) "reduction_tool_manifest_invalid";
  total ← check (safe_between (getf record ($"totalBudgetMs")) 1 0x7fffffff);
  cleanup ← check (safe_between (getf record ($"cleanupBudgetMs")) 1 0x7fffffff);
  validator ← serviceRecord (getf record ($"validator")) ["id"; "path"; "sha256"]%string;
  _ ← lease_require (same_value (getf validator ($"id")) (JStr LEASE_REDUCTION_VALIDATOR_ID)) "reduction_tool_manifest_invalid";
  path ← check (match getf validator ($"path") with JStr s => if bool_decide (s = []) then None else Some s | _ => None end);
  sha ← check (digest_text (getf validator ($"sha256")));
  mret (MkRemoteTools total cleanup path sha).

(** The objects of an authority are compared by their texts and are [js] here. *)
Record LeaseReductionAuthority := MkAuthority {
  la_profile : ustring;
  la_domainVersion : ustring;
  la_validator : js;
  la_apalache : js;
  la_java : js }.

Definition text_of (v : js) : ustring := match v with JStr s => s | _ => [] end.

Definition validateAuthority (authority : LeaseReductionAuthority) : res lease_error unit :=
  let java name := prop (la_java authority) name in
  lease_require (bool_decide (la_profile authority = LEASE_REDUCTION_PROFILE) && bool_decide (la_domainVersion authority = LEASE_REDUCTION_DOMAIN_VERSION) &&
    truthy (prop (la_validator authority) "id") && is_sha256 (text_of (prop (la_validator authority) "sha256")) &&
    same_value (prop (la_apalache authority) "version") (JStr ($"0.61.0")) && is_sha256 (text_of (prop (la_apalache authority) "sha256")) &&
    truthy (java "observedVersion"%string) && same_value (java "selectedVersion"%string) (JStr ($"25.0.4+7")) &&
    is_sha256 (text_of (java "executableSha256"%string)) && is_sha256 (text_of (java "archiveSha256"%string)) && truthy (java "qualificationRef"%string) &&
    (negb (truthy (java "distributionQualified"%string)) || contains (text_of (java "archiveSha256"%string)) (text_of (java "qualificationRef"%string))))
    "reduction_authority_invalid".

(** Budgets in milliseconds, given as numbers. *)
Record raw_lease_policy := MkRawPolicy { rl_total : number; rl_oracle : number; rl_evaluation : number; rl_cleanup : number }.
Record lease_policy := MkPolicy { lp_total : Z; lp_oracle : Z; lp_evaluation : Z; lp_cleanup : Z }.

Definition lease_budget (x : number) : res lease_error Z := lease_some (safe_between (JNum x) 1 0x7fffffff) "reduction_policy_invalid".

Definition validate_lease_policy (p : raw_lease_policy) : res lease_error lease_policy :=
  total ← lease_budget (rl_total p); oracle ← lease_budget (rl_oracle p);
  evaluation ← lease_budget (rl_evaluation p); cleanup ← lease_budget (rl_cleanup p);
  mret (MkPolicy total oracle evaluation cleanup).

Record LeaseOracleReceipt := MkReceipt {
  lo_schema : ustring;
  lo_status : ustring;
  lo_profile : ustring;
  lo_domainVersion : ustring;
  lo_modelSha256 : ustring;
  lo_interfaceDigest : ustring;
  lo_originalCorpusSha256 : ustring;
  lo_candidateCorpusSha256 : ustring;
  lo_selectedTraceSha256 : ustring;
  lo_traceOccurrences : list number;
  lo_validator : js;
  lo_apalache : js;
  lo_java : js }.

Record MaterializedLeaseCandidate := MkMaterialized { mc_suite : SuiteDefinition; mc_receipt : LeaseOracleReceipt }.

(** What is read of a bundle. *)
Record lease_bundle := MkLeaseBundle {
  lb_sha256 : ustring;
  lb_signature : ReproductionSignature;
  lb_modelSha256 : ustring;
  lb_interfaceDigest : ustring;
  lb_orderedOccurrencesSha256 : ustring }.

Record lease_options := MkLeaseOptions {
  lq_applicationId : ustring;
  lq_candidate : LeaseReductionCandidate;
  lq_authority : LeaseReductionAuthority;
  lq_stability : ReproductionStabilityRecord;
  lq_resettable : bool;
  lq_policy : raw_lease_policy }.

Inductive lease_status := LeaseReduced | LeaseNotReproduced | LeaseInconclusive | LeaseCancelled | LeaseUnsupported.

Record LeaseReductionResult := MkLeaseResult {
  lr_status : lease_status;
  lr_originalBundleSha256 : ustring;
  lr_candidate : option LeaseReductionCandidate;
  lr_oracle : option LeaseOracleReceipt;
  lr_preflight : option (ustring * ustring);
  lr_replay : option ReproductionReplayResult;
  lr_reasonCode : option ustring }.

(** ** The environment *)

(** How [bounded] ends: with the value, cut off, or with what the operation throws. *)
Inductive bounded_run (A : Type) := Completes (value : A) | Cut (why : cut_off) | Rejects.
Arguments Completes {A} value.
Arguments Cut {A} why.
Arguments Rejects {A}.

(** The signal after the materialization, the time then and before the evaluation;
    [lx_inspect]: whether the inspection was cut off. *)
Record lease_env := MkLeaseEnv {
  lx_materialize : bounded_run MaterializedLeaseCandidate;
  lx_aborted : bool;
  lx_oracle_elapsed : Z;
  lx_inspect : option cut_off;
  lx_elapsed : Z;
  lx_evaluate : attempt_run }.

(** ** The reduction *)

Section reduction.
Context (number_text : number -> ustring) (sha256 : list N -> ustring) (fs : suite_files).

(** [JSON.stringify(a) === JSON.stringify(b)] of data without big integers. *)
Definition same_text (a b : js) : bool :=
  match stringify number_text a, stringify number_text b with Ok s, Ok t => bool_decide (s = t) | _, _ => false end.

Definition numbers_js (l : list number) : js := JArr (map JNum l).

(** The state of a trace shows the edit of the candidate. *)
Definition edit_written (suite : SuiteDefinition) (states : list js) (edit : LeaseReductionEdit) : bool :=
  let state := element states (le_stateIndex edit) in
  let parameterVariable := default ($"parameters") (rp_configuredParamVar (sd_runProfile (su_descriptor suite))) in
  match List.find (fun a => bool_decide (ra_id a = le_actionId edit)) (sd_actions (su_descriptor suite)), state with
  | Some action, JObj o =>
      same_value (getf o ($"action_taken")) (JStr (ra_wireAction action)) &&
      match getf o parameterVariable with
      | JObj parameters =>
          bool_decide (rawBigint (getf parameters (lit (input_name edit))) = Some (num_text number_text (le_after edit)))
      | _ => false
      end
  | _, _ => false
  end.

Definition verifyMaterializedEdits (candidate : LeaseReductionCandidate) (suite : SuiteDefinition) : res lease_error unit :=
  let traces := trace_references (su_replay suite) in
  match element traces (lc_traceIndex candidate) with
  | JUndef => lease_fail "reduction_candidate_invalid"
  | reference =>
      bytes ← (match readFile fs (reference_path reference) with Some bytes => Ok bytes | None => Err LeaseThrew end);
      trace ← (match JSON_parse (buffer_text bytes) with Ok trace => Ok trace | Err _ => Err LeaseThrew end);
      match trace with
      | JUndef | JNull => Err LeaseThrew
      | _ =>
          match prop trace "states" with
          | JArr states =>
              _ ← lease_require ((length traces =? length (lc_traceOccurrences candidate))%nat &&
                    forallb (fun e => num_eq e.2 (Z.of_nat e.1)) (imap pair (lc_traceOccurrences candidate))) "reduction_candidate_invalid";
              lease_require (forallb (edit_written suite states) (lc_edits candidate)) "reduction_candidate_invalid"
          | _ => lease_fail "reduction_candidate_invalid"
          end
      end
  end.

Definition receiptMatches (receipt : LeaseOracleReceipt) (candidate : LeaseReductionCandidate) (authority : LeaseReductionAuthority)
    (preflight : SuitePreflight) : bool :=
  bool_decide (lo_schema receipt = $"mirrorecma.lease-reduction-oracle/v1") && bool_decide (lo_status receipt = $"model_valid") &&
  bool_decide (lo_profile receipt = la_profile authority) && bool_decide (lo_domainVersion receipt = la_domainVersion authority) &&
  bool_decide (lo_modelSha256 receipt = lc_modelSha256 candidate) && bool_decide (lo_interfaceDigest receipt = lc_interfaceDigest candidate) &&
  bool_decide (lo_originalCorpusSha256 receipt = lc_orderedCorpusSha256 candidate) &&
  bool_decide (lo_candidateCorpusSha256 receipt = pf_corpusDigest preflight) &&
  bool_decide (lo_selectedTraceSha256 receipt = lc_selectedTraceSha256 candidate) &&
  same_text (numbers_js (lo_traceOccurrences receipt)) (numbers_js (lc_traceOccurrences candidate)) &&
  (length (pf_traceDigests preflight) =? length (lc_traceOccurrences candidate))%nat &&
  (length (remove_dups (pf_traceDigests preflight)) =? 1)%nat &&
  same_text (lo_validator receipt) (la_validator authority) && same_text (lo_apalache receipt) (la_apalache authority) &&
  same_text (lo_java receipt) (la_java authority).

Definition lease_eligible (bundle : lease_bundle) (options : lease_options) (candidate : LeaseReductionCandidate) : bool :=
  lq_resettable options &&
  match primary (lb_signature bundle) with Some (BehavioralMismatch t _ _) => num_eq (lc_traceIndex candidate) t | _ => false end &&
  match sig_cleanup (lb_signature bundle) with CleanupSucceeded => true | _ => false end &&
  match st_class (lq_stability options) with Stable => true | _ => false end &&
  match st_independence (lq_stability options) with Confirmed => true | _ => false end &&
  bool_decide (st_bundleSha256 (lq_stability options) = lb_sha256 bundle) && bool_decide (lc_originalBundleSha256 candidate = lb_sha256 bundle) &&
  bool_decide (lc_modelSha256 candidate = lb_modelSha256 bundle) && bool_decide (lc_interfaceDigest candidate = lb_interfaceDigest bundle) &&
  bool_decide (lc_orderedCorpusSha256 candidate = lb_orderedOccurrencesSha256 bundle).

(** The inspection of a materialized candidate. *)
Definition inspect (candidate : LeaseReductionCandidate) (suite : SuiteDefinition) : res lease_error SuitePreflight :=
  match preflightSuite number_text sha256 fs suite with
  | Ok pf => _ ← verifyMaterializedEdits candidate suite; mret pf
  | Err _ => Err LeaseThrew
  end.

Definition microseconds (ms : Z) : Z := ms * 1000.
(** [Math.floor(budget - elapsed) <= 0] and [budget - elapsed <= 0] *)
Definition spent_whole (budgetMs elapsed : Z) : bool := ((microseconds budgetMs - elapsed) / 1000 <=? 0)%Z.
Definition spent (budgetMs elapsed : Z) : bool := (microseconds budgetMs - elapsed <=? 0)%Z.

Definition cut_status (why : cut_off) : lease_status := match why with CutCancelled => LeaseCancelled | TimedOut => LeaseInconclusive end.
Definition oracle_reason (why : cut_off) : ustring := match why with CutCancelled => $"reduction_cancelled" | TimedOut => $"model_oracle_timeout" end.
Definition evaluation_reason (why : cut_off) : ustring := match why with CutCancelled => $"reduction_cancelled" | TimedOut => $"candidate_evaluation_timeout" end.

(** From the evaluation on. *)
Definition evaluate_candidate (bundle : lease_bundle) (options : lease_options) (candidate : LeaseReductionCandidate)
    (receipt : LeaseOracleReceipt) (pf : SuitePreflight) (run : attempt_run) : res lease_error LeaseReductionResult :=
  let finish status preflight replay reason := Ok (MkLeaseResult status (lb_sha256 bundle) (Some candidate) (Some receipt) preflight replay reason) in
  let digests := Some (pf_modelDigest pf, pf_corpusDigest pf) in
  match run with
  | Throws _ => Err LeaseThrew
  | CutOff why settled =>
      finish (cut_status why) digests None (Some (if confirmed settled then evaluation_reason why else $"cleanup_independence_lost"))
  | Finishes replay =>
      if negb (confirmed (replay_cleanup replay)) then finish LeaseInconclusive None (Some replay) (Some ($"cleanup_independence_lost"))
      else
        match replayResultMatchesBundle number_text (lb_signature bundle) replay with
        | Err _ => Err LeaseThrew
        | Ok same =>
            finish (if same : bool then LeaseReduced else LeaseNotReproduced) digests (Some replay)
              (if truthy (prop (la_java (lq_authority options)) "distributionQualified") then None else Some ($"fresh_trace_profile_unqualified_java"))
        end
  end.

Definition reduceLeaseServiceInput (bundle : lease_bundle) (options : lease_options) (env : lease_env) : res lease_error LeaseReductionResult :=
  let finish status candidate oracle reason := Ok (MkLeaseResult status (lb_sha256 bundle) candidate oracle None None (Some (lit reason))) in
  if negb (lq_applicationId options =s "lease-service") then finish LeaseUnsupported None None "reduction_profile_unsupported"%string
  else
    policy ← validate_lease_policy (lq_policy options);
    _ ← validateAuthority (lq_authority options);
    candidate ← validateLeaseReductionCandidate number_text (lq_candidate options);
    if negb (lease_eligible bundle options candidate) then finish LeaseInconclusive (Some candidate) None "reduction_not_eligible"%string
    else
      match lx_materialize env with
      | Rejects => finish LeaseInconclusive (Some candidate) None "model_oracle_error"%string
      | Cut why => Ok (MkLeaseResult (cut_status why) (lb_sha256 bundle) (Some candidate) None None None (Some (oracle_reason why)))
      | Completes materialized =>
          let receipt := mc_receipt materialized in
          if lx_aborted env then finish LeaseCancelled (Some candidate) None "reduction_cancelled"%string
          else if spent_whole (lp_oracle policy) (lx_oracle_elapsed env) || spent_whole (lp_total policy) (lx_oracle_elapsed env) then
            finish LeaseInconclusive (Some candidate) (Some receipt) "model_oracle_timeout"%string
          else
            match lx_inspect env with
            | Some why => Ok (MkLeaseResult (cut_status why) (lb_sha256 bundle) (Some candidate) (Some receipt) None None (Some (oracle_reason why)))
            | None =>
                match inspect candidate (mc_suite materialized) with
                | Err _ => finish LeaseInconclusive (Some candidate) (Some receipt) "model_oracle_error"%string
                | Ok pf =>
                    if negb (bool_decide (pf_modelDigest pf = lc_modelSha256 candidate)) ||
                       negb (bool_decide (su_semanticDigest (mc_suite materialized) = lc_interfaceDigest candidate)) then
                      finish LeaseInconclusive (Some candidate) None "model_or_interface_identity_mismatch"%string
                    else if negb (receiptMatches receipt candidate (lq_authority options) pf) then
                      finish LeaseInconclusive (Some candidate) None "model_oracle_receipt_mismatch"%string
                    else if spent (lp_total policy) (lx_elapsed env) then
                      finish LeaseInconclusive (Some candidate) (Some receipt) "reduction_total_budget"%string
                    else evaluate_candidate bundle options candidate receipt pf (lx_evaluate env)
                end
            end
      end.
End reduction.

(** ** The oracle *)

Record LeaseReductionTlsPaths := MkTlsPaths { tls_ca : ustring; tls_cert : ustring; tls_key : ustring }.

Inductive LeaseReductionOracleRequest :=
| LocalOracle (mirrorPath : ustring)
| RemoteOracle (service : LeaseReductionServiceIdentity) (tls : LeaseReductionTlsPaths).

(** What is done to the outside. *)
Inductive oracle_call := SpawnMirror (path : ustring) | ConnectTls (host : ustring) (port : Z) (tls : LeaseReductionTlsPaths) (pin : ustring) | CloseTransport.

(** [fingerprint]: what the connection shows of its peer, unless it fails. *)
Definition openReductionOracleTransport (request : LeaseReductionOracleRequest) (fingerprint : option ustring) : res lease_error unit * list oracle_call :=
  match request with
  | LocalOracle path =>
      if bool_decide (path = []) then (lease_fail "reduction_oracle_configuration_invalid", []) else (Ok tt, [SpawnMirror path])
  | RemoteOracle service tls =>
      if existsb (fun p => bool_decide (p = [])) [tls_ca tls; tls_cert tls; tls_key tls] then (lease_fail "reduction_oracle_configuration_invalid", [])
      else
        let connect := ConnectTls (ls_host service) (ls_port service) tls (ls_peerLeafSha256 service) in
        match fingerprint with
        | None => (lease_fail "reduction_service_unreachable", [connect])
        | Some peer =>
            if bool_decide (peer = ls_peerLeafSha256 service) then (Ok tt, [connect])
            else (lease_fail "reduction_service_identity_mismatch", [connect; CloseTransport])
        end
  end.

(** How the close of the transport ends within its budget. *)
Inductive close_end := CloseCompleted | CloseRejected | CloseHangs.
Inductive settlement := SettledConfirmed | SettledUnconfirmed.

Definition settleOracleCleanup (close : close_end) : settlement := match close with CloseCompleted => SettledConfirmed | _ => SettledUnconfirmed end.

(** [local]: the launcher and the Java home. *)
Definition applyOracleModeEnvironment (remote : bool) (env : object_t) (local : option (ustring * ustring)) : res lease_error object_t :=
  if remote then Ok (List.filter (fun e => negb (bool_decide (e.1 = $"APALACHE_MC"))) env)
  else
    match local with
    | None => lease_fail "reduction_oracle_configuration_invalid"
    | Some (launcher, javaHome) =>
        let env := obj_set env ($"APALACHE_MC") (JStr launcher) in
        Ok (obj_set env ($"PATH") (JStr (javaHome ++ $"/bin:" ++ text_of (getf env ($"PATH")))))
    end.

(** ** What a reduction shows *)

Lemma lease_require_Ok b code u : lease_require b code = Ok u <-> b = true.
Proof. unfold lease_require, lease_fail. destruct b, u; naive_solver. Qed.

Section facts.
Context (number_text : number -> ustring) (sha256 : list N -> ustring) (fs : suite_files).

Abbreviation reduce := (reduceLeaseServiceInput number_text sha256 fs).

(** What an evaluated reduction rests on. *)
Record lease_evidence (bundle : lease_bundle) (options : lease_options) (env : lease_env) (r : LeaseReductionResult)
    (suite : SuiteDefinition) (receipt : LeaseOracleReceipt) (pf : SuitePreflight) (replay : ReproductionReplayResult) : Prop := LeaseEvidence {
  lv_candidate : validateLeaseReductionCandidate number_text (lq_candidate options) = Ok (lq_candidate options);
  lv_authority : validateAuthority (lq_authority options) = Ok tt;
  lv_eligible : lease_eligible bundle options (lq_candidate options) = true;
  lv_materialized : lx_materialize env = Completes (MkMaterialized suite receipt);
  lv_preflight : preflightSuite number_text sha256 fs suite = Ok pf;
  lv_model : pf_modelDigest pf = lc_modelSha256 (lq_candidate options);
  lv_interface : su_semanticDigest suite = lc_interfaceDigest (lq_candidate options);
  lv_corpus : lo_candidateCorpusSha256 receipt = pf_corpusDigest pf;
  lv_receipt : receiptMatches number_text receipt (lq_candidate options) (lq_authority options) pf = true;
  lv_edits : exists reference bytes trace states, element (trace_references (su_replay suite)) (lc_traceIndex (lq_candidate options)) = reference /\
    readFile fs (reference_path reference) = Some bytes /\ JSON_parse (buffer_text bytes) = Ok trace /\ prop trace "states" = JArr states /\
    Forall (fun e => edit_written number_text suite states e = true) (lc_edits (lq_candidate options));
  lv_replay : lx_evaluate env = Finishes replay;
  lv_cleanup : replay_cleanup replay = Some CSucceeded;
  lv_result : r = MkLeaseResult (lr_status r) (lb_sha256 bundle) (Some (lq_candidate options)) (Some receipt)
    (Some (pf_modelDigest pf, pf_corpusDigest pf)) (Some replay) (lr_reasonCode r) }.

Lemma verify_edits candidate suite u : verifyMaterializedEdits number_text fs candidate suite = Ok u ->
  exists reference bytes trace states, element (trace_references (su_replay suite)) (lc_traceIndex candidate) = reference /\
    readFile fs (reference_path reference) = Some bytes /\ JSON_parse (buffer_text bytes) = Ok trace /\ prop trace "states" = JArr states /\
    Forall (fun e => edit_written number_text suite states e = true) (lc_edits candidate).
Proof.
  unfold verifyMaterializedEdits. intros H. exists (element (trace_references (su_replay suite)) (lc_traceIndex candidate)).
  destruct (element _ _) eqn:Er; [done|..]; rewrite <- Er in *; clear Er.
  all: apply res_bind_Ok in H as (bytes & Hb & H); apply res_bind_Ok in H as (trace & Ht & H);
    destruct (readFile _ _) as [bs|]; [injection Hb as ->|done]; destruct (JSON_parse _) as [t|] eqn:Ej; [injection Ht as ->|done];
    exists bytes, trace; destruct trace; try done; destruct (prop _ "states") as [| | | | | |states|] eqn:Es; try done;
    apply res_bind_Ok in H as (? & _ & He%lease_require_Ok); exists states; split_and!; try done;
    apply Forall_forall; intros e Hin; rewrite forallb_forall in He; apply He; by apply list_elem_of_In.
Qed.

Lemma receipt_corpus receipt candidate authority pf : receiptMatches number_text receipt candidate authority pf = true ->
  lo_candidateCorpusSha256 receipt = pf_corpusDigest pf.
Proof. unfold receiptMatches. rewrite !andb_true_iff, !bool_decide_eq_true. tauto. Qed.

Definition evaluated_status (s : lease_status) : bool := match s with LeaseReduced | LeaseNotReproduced => true | _ => false end.

Lemma evaluate_facts bundle options candidate receipt pf run r : evaluate_candidate number_text bundle options candidate receipt pf run = Ok r ->
  evaluated_status (lr_status r) = true -> exists replay, run = Finishes replay /\ replay_cleanup replay = Some CSucceeded /\
    r = MkLeaseResult (lr_status r) (lb_sha256 bundle) (Some candidate) (Some receipt) (Some (pf_modelDigest pf, pf_corpusDigest pf)) (Some replay) (lr_reasonCode r) /\
    (lr_status r = LeaseReduced <-> replayResultMatchesBundle number_text (lb_signature bundle) replay = Ok true).
Proof.
  unfold evaluate_candidate. destruct run as [replay|why settled|code]; [| |done].
  - destruct (confirmed (replay_cleanup replay)) eqn:Ec; cbn [negb]; [|by intros [= <-]]. unfold confirmed in Ec. apply bool_decide_eq_true in Ec.
    destruct (replayResultMatchesBundle _ _ _) as [same|] eqn:Em; [|done]. intros [= <-] _. exists replay. cbn. split_and!; try done.
    destruct same; split; congruence.
  - intros [= <-]. by destruct why.
Qed.

Lemma reduce_evidence bundle options env r : reduce bundle options env = Ok r -> evaluated_status (lr_status r) = true ->
  exists suite receipt pf replay, lease_evidence bundle options env r suite receipt pf replay /\
    (lr_status r = LeaseReduced <-> replayResultMatchesBundle number_text (lb_signature bundle) replay = Ok true).
Proof.
  unfold reduceLeaseServiceInput. destruct (negb _); [by intros [= <-]|]. intros H Hs.
  apply res_bind_Ok in H as (policy & Hp & H). apply res_bind_Ok in H as ([] & Hauth & H). apply res_bind_Ok in H as (candidate & Hc & H).
  destruct (candidate_facts _ _ _ Hc) as (-> & _). destruct (lease_eligible _ _ _) eqn:El; cbn [negb] in H; [|by injection H as <-].
  destruct (lx_materialize env) as [[suite receipt]|why|] eqn:Em; [|by injection H as <-; destruct why|by injection H as <-].
  cbn [mc_suite mc_receipt] in H. destruct (lx_aborted env); [by injection H as <-|]. destruct (_ || _); [by injection H as <-|].
  destruct (lx_inspect env) as [why|]; [by injection H as <-; destruct why|].
  unfold inspect in H. destruct (preflightSuite _ _ _ _) as [pf|] eqn:Epf; [|by injection H as <-].
  destruct (verifyMaterializedEdits _ _ _ _) as [[]|] eqn:Ev; cbn [mbind res_mbind mret res_mret] in H; [|by injection H as <-].
  destruct (negb _ || negb _) eqn:Ei; [by injection H as <-|]. apply orb_false_iff in Ei as [E1 E2].
  apply negb_false_iff, bool_decide_eq_true in E1, E2. destruct (receiptMatches _ _ _ _ _) eqn:Er; cbn [negb] in H; [|by injection H as <-].
  destruct (spent _ _); [by injection H as <-|].
  destruct (evaluate_facts _ _ _ _ _ _ _ H Hs) as (replay & Hrun & Hclean & Hres & Hiff).
  exists suite, receipt, pf, replay. split; [|done]. split; try done; [by eapply receipt_corpus|by eapply verify_edits].
Qed.
End facts.

(** C17: a reduction is only reported for what was proved and tried. If a candidate ends
    "reduced" or "not_reproduced" then it is valid and eligible for the bundle (a stable,
    independent, resettable mismatch with the digests of the bundle); the oracle gave a
    suite and a receipt; the preflight accepted the files of that suite, whose model,
    interface and corpus are those of the candidate and of the receipt; the trace of the
    selected occurrence shows every edit; and the evaluation ended with a confirmed
    cleanup. It is "reduced" exactly when the replay shows the failure of the bundle. *)
Theorem lease_reduced number_text sha256 fs bundle options env r :
  reduceLeaseServiceInput number_text sha256 fs bundle options env = Ok r -> evaluated_status (lr_status r) = true ->
  exists suite receipt pf replay, lease_evidence number_text sha256 fs bundle options env r suite receipt pf replay /\
    (lr_status r = LeaseReduced <-> replayResultMatchesBundle number_text (lb_signature bundle) replay = Ok true).
Proof. apply reduce_evidence. Qed.

(** A transport that is handed out for a service showed the fingerprint of its record,
    and one that did not is closed. *)
Lemma oracle_pinned service tls fingerprint r calls :
  openReductionOracleTransport (RemoteOracle service tls) fingerprint = (r, calls) ->
  (r = Ok tt -> fingerprint = Some (ls_peerLeafSha256 service) /\
     calls = [ConnectTls (ls_host service) (ls_port service) tls (ls_peerLeafSha256 service)]) /\
  (r <> Ok tt -> forall peer, fingerprint = Some peer -> calls <> [] -> last calls = Some CloseTransport).
Proof.
  unfold openReductionOracleTransport. destruct (existsb _ _); [by intros [= <- <-]|]. destruct fingerprint as [peer|]; [|by intros [= <- <-]].
  case_bool_decide as E; intros [= <- <-]; (split; [|done]); [|done]. intros _. by rewrite E.
Qed.

(** ** A concrete reduction *)

Definition lease_descriptor : SemanticDescriptor :=
  let client := MkInput ($"Client") StepParameters [PField ($"parameters"); PField ($"client")] TInt in
  let token := MkInput ($"Token") StepParameters [PField ($"parameters"); PField ($"token")] TInt in
  MkDescriptor ($"1.0.0") ($"LeaseService") (MkRunProfile (Some ($"parameters")) [] [$"parameters"])
    [MkAction ($"Init") Initialize ($"init") [] []]
    [MkAction ($"Acquire") Transition ($"acquire") [] [client]; MkAction ($"Write") Transition ($"write") [] [client; token];
     MkAction ($"Renew") Transition ($"renew") [] [client; token]]
    [MkObservation ($"Owner") ($"owner") TInt].

Definition lease_materialized : js :=
  match materializeLeaseReductionTrace (fun _ => []) lease_trace lease_candidate with Ok (trace, _) => trace | Err _ => JNull end.

Definition lease_bytes : list N := match stringify (fun _ => []) lease_materialized with Ok (Some text) => utf8_bytes text | _ => [] end.

Definition lease_files : suite_files :=
  MkFiles (fun _ => Some lease_bytes) (fun _ => None) (fun _ => throw XError "no closure") (fun _ _ => misconfigured "no closure").

Definition lease_hash (bytes : list N) : ustring := lease_digest.

Definition lease_suite : SuiteDefinition :=
  MkSuite ($"lease") ($"adapter") (JObj []) lease_digest lease_descriptor
    (Contract.MkContract ($"1.0.0") ($"LeaseService") ($"LeaseService.tla") ($"action_taken") (Some ($"parameters")) [] [] [])
    (JObj [($"traces", JArr [JStr ($"a.itf.json"); JStr ($"b.itf.json")]); ($"modelSource", JStr ($"LeaseService.tla"))])
    (Requirements [] []).

Definition lease_validator : js := JObj [($"id", JStr LEASE_REDUCTION_VALIDATOR_ID); ($"sha256", JStr lease_digest)].
Definition lease_apalache : js := JObj [($"version", JStr ($"0.61.0")); ($"sha256", JStr lease_digest)].
Definition lease_java : js :=
  JObj [($"observedVersion", JStr ($"25")); ($"selectedVersion", JStr ($"25.0.4+7")); ($"executableSha256", JStr lease_digest);
        ($"archiveSha256", JStr lease_digest); ($"distributionQualified", JBool false); ($"qualificationRef", JStr ($"none"))].

Definition lease_authority : LeaseReductionAuthority :=
  MkAuthority LEASE_REDUCTION_PROFILE LEASE_REDUCTION_DOMAIN_VERSION lease_validator lease_apalache lease_java.

Definition lease_signature : ReproductionSignature := Signature (Some (BehavioralMismatch 0 1 ($"acquire"))) CleanupSucceeded.

Definition lease_sample_bundle : lease_bundle := MkLeaseBundle lease_digest lease_signature lease_digest lease_digest lease_digest.

Definition lease_sample_options : lease_options :=
  MkLeaseOptions ($"lease-service") lease_candidate lease_authority
    (StabilityRecord ($"run") lease_digest (Policy 3 1000 1000 1000) true Stable [] Confirmed None) true
    (MkRawPolicy (num_of_Z 1000) (num_of_Z 1000) (num_of_Z 1000) (num_of_Z 1000)).

Definition lease_receipt : LeaseOracleReceipt :=
  MkReceipt ($"mirrorecma.lease-reduction-oracle/v1") ($"model_valid") LEASE_REDUCTION_PROFILE LEASE_REDUCTION_DOMAIN_VERSION lease_digest lease_digest
    lease_digest lease_digest lease_digest [num_of_Z 0; num_of_Z 1] lease_validator lease_apalache lease_java.

Definition lease_sample_env : lease_env :=
  MkLeaseEnv (Completes (MkMaterialized lease_suite lease_receipt)) false 1500 None 2500
    (Finishes (Replay Reproduced lease_signature (Some lease_signature) None)).

Definition lease_sample_result : LeaseReductionResult :=
  match reduceLeaseServiceInput (fun _ => []) lease_hash lease_files lease_sample_bundle lease_sample_options lease_sample_env with
  | Ok r => r
  | Err _ => MkLeaseResult LeaseUnsupported [] None None None None None
  end.

Lemma lease_sample_ok :
  reduceLeaseServiceInput (fun _ => []) lease_hash lease_files lease_sample_bundle lease_sample_options lease_sample_env = Ok lease_sample_result.
Proof. vm_compute. reflexivity. Qed.

Lemma lease_sample_status : lr_status lease_sample_result = LeaseReduced.
Proof. vm_compute. reflexivity. Qed.

Lemma lease_sample_evaluated : evaluated_status (lr_status lease_sample_result) = true.
Proof. by rewrite lease_sample_status. Qed.

Example lease_reduced_witness :
  exists suite receipt pf replay,
    lease_evidence (fun _ => []) lease_hash lease_files lease_sample_bundle lease_sample_options lease_sample_env lease_sample_result suite receipt pf replay /\
    (lr_status lease_sample_result = LeaseReduced <-> replayResultMatchesBundle (fun _ => []) (lb_signature lease_sample_bundle) replay = Ok true).
Proof. exact (lease_reduced _ _ _ _ _ _ _ lease_sample_ok lease_sample_evaluated). Defined.
