(* ===== verification/Registry.v ===== *)
(** * The registry of mirrors

    [src/src/registry.ts]: the candidates of a health response
    ([parseServiceEntry], [discoverMirrors]) and the connection to the first that can be
    used ([connectMirrorFromRegistry]). What the fetch gives and what becomes of a
    connection are given; addresses of the registry itself ([registryEndpoint]) are
    resolved by the platform, only the text they are resolved from is modelled. *)

From Stdlib Require Import SpecFloat.
From S2P Require Import Prelude JsNumber Utf16 JsData StrictJson Decode JsText ModelTypes BundleText.

Record MirrorServiceInfo := MkMirror {
  mi_id : ustring;
  mi_host : ustring;
  mi_port : Z;
  mi_certSha256 : option ustring }.

(** The base and the relative path handed to [new URL]. *)
Definition registryEndpoint (base path : ustring) : ustring * ustring :=
  (match path with c :: rest => if (c =? 0x2f)%N then rest else path | [] => path end,
   match last base with Some c => if (c =? 0x2f)%N then base else base ++ $"/" | None => base ++ $"/" end).

(** A property of what is an object; [None]: not an object. *)
Definition object_property (v : js) (name : string) : option js :=
  match v with JObj o => Some (getf o (lit name)) | JArr _ => Some JUndef | _ => None end.

Definition is_hex_digit (c : N) : bool := is_lower_hex (lower c).

(** [/^[0-9a-fA-F]{64}$/] *)
Definition is_fingerprint (s : ustring) : bool := (length s =? 64)%nat && forallb is_hex_digit s.

(** The advertised pin: [None] rejects the entry. *)
Definition service_pin (meta : js) : option (option ustring) :=
  match object_property meta "cert-sha256" with
  | None | Some JUndef => Some None
  | Some (JStr pin) => if is_fingerprint pin then Some (Some (map lower pin)) else None
  | Some _ => None
  end.

Definition port_number (v : js) : option Z :=
  match v with
  | JNum x => match num_safe_Z x with Some z => if (1 <=? z)%Z && (z <=? 65535)%Z then Some z else None | None => None end
  | _ => None
  end.

Definition parseServiceEntry (raw : js) : option MirrorServiceInfo :=
  svc ← object_property raw "Service";
  address_value ← object_property svc "Address";
  let address := match address_value with JStr s => trim s | _ => [] end in
  if bool_decide (address = []) then None
  else
    port_value ← object_property svc "Port"; port ← port_number port_value;
    meta ← object_property svc "Meta"; pin ← service_pin meta;
    id ← object_property svc "ID";
    Some (MkMirror (match id with JStr s => s | _ => [] end) address port pin).

(** [None]: the request failed, was refused or was not JSON. *)
Definition discoverMirrors (response : option js) : list MirrorServiceInfo :=
  match response with Some (JArr l) => omap parseServiceEntry l | _ => [] end.

(** ** Connecting *)

Inductive connect_error := NoCandidates (url : ustring) | NoUsable (url : ustring) (failures : list ustring).

Section connect.
Context {T : Type} (number_text : number -> ustring).

(** What a connection becomes, with the message of its failure. *)
Context (connectTlsMirror : ustring -> Z -> option ustring -> T + ustring).

Definition pin_of (pin : option ustring) (service : MirrorServiceInfo) : option ustring :=
  match pin with Some _ => pin | None => mi_certSha256 service end.

Fixpoint try_candidates (pin : option ustring) (services : list MirrorServiceInfo) (failures : list ustring) : T + list ustring :=
  match services with
  | [] => inr failures
  | service :: rest =>
      match connectTlsMirror (mi_host service) (mi_port service) (pin_of pin service) with
      | inl transport => inl transport
      | inr message => try_candidates pin rest (failures ++ [mi_host service ++ $":" ++ dec_of_Z (mi_port service) ++ $": " ++ message])
      end
  end.

Definition connectMirrorFromRegistry (url : ustring) (response : option js) (pin : option ustring) : T + connect_error :=
  match discoverMirrors response with
  | [] => inr (NoCandidates url)
  | services =>
      match try_candidates pin services [] with
      | inl transport => inl transport
      | inr failures => inr (NoUsable url failures)
      end
  end.
End connect.

(** ** What the connection rests on *)

Lemma service_pin_spec meta pin : service_pin meta = Some pin ->
  match object_property meta "cert-sha256" with
  | Some (JStr raw) => pin = Some (map lower raw) /\ is_fingerprint raw = true
  | None | Some JUndef => pin = None
  | Some _ => False
  end.
Proof. unfold service_pin. destruct (object_property _ _) as [[]|]; try done; [by intros [= <-]| |by intros [= <-]]. destruct (is_fingerprint s); [by intros [= <-]|done]. Qed.

(** The entry of a candidate: a host, a port in range, and the pin it advertises. *)
Definition entry_of (raw : js) (m : MirrorServiceInfo) : Prop :=
  exists svc meta, object_property raw "Service" = Some svc /\ object_property svc "Meta" = Some meta /\
    mi_host m <> [] /\ (exists a, object_property svc "Address" = Some (JStr a) /\ mi_host m = trim a) /\
    (1 <= mi_port m <= 65535)%Z /\
    match object_property meta "cert-sha256" with
    | Some (JStr pin) => is_fingerprint pin = true /\ mi_certSha256 m = Some (map lower pin)
    | None | Some JUndef => mi_certSha256 m = None
    | Some _ => False
    end.

Lemma parseServiceEntry_spec raw m : parseServiceEntry raw = Some m -> entry_of raw m.
Proof.
  unfold parseServiceEntry. intros H. apply bind_Some in H as (svc & Hs & H). apply bind_Some in H as (av & Ha & H).
  set (address := match av with JStr s => trim s | _ => [] end) in *. case_bool_decide as Hne; [done|].
  apply bind_Some in H as (pv & _ & H). apply bind_Some in H as (port & Hport & H). apply bind_Some in H as (meta & Hm & H).
  apply bind_Some in H as (pin & Hpin%service_pin_spec & H). apply bind_Some in H as (id & _ & [= <-]).
  exists svc, meta. cbn. split_and!; try done.
  - unfold address in *. destruct av; try done. by eexists.
  - unfold port_number in Hport. destruct pv as [| | |x| | | |]; try done. destruct (num_safe_Z x) as [z|]; [|done].
    destruct (_ && _) eqn:E; [|done]. injection Hport as <-. lia.
  - unfold port_number in Hport. destruct pv as [| | |x| | | |]; try done. destruct (num_safe_Z x) as [z|]; [|done].
    destruct (_ && _) eqn:E; [|done]. injection Hport as <-. lia.
  - destruct (object_property meta _) as [[]|]; try done. by destruct Hpin.
Qed.

Lemma try_candidates_spec {T} (connect : ustring -> Z -> option ustring -> T + ustring) pin services : forall failures,
  match try_candidates connect pin services failures with
  | inl t => exists before m after, services = before ++ m :: after /\ connect (mi_host m) (mi_port m) (pin_of pin m) = inl t /\
      Forall (fun m => exists message, connect (mi_host m) (mi_port m) (pin_of pin m) = inr message) before
  | inr l => length l = (length failures + length services)%nat /\
      Forall (fun m => exists message, connect (mi_host m) (mi_port m) (pin_of pin m) = inr message) services
  end.
Proof.
  induction services as [|m services IH]; intros failures; cbn; [by rewrite Nat.add_0_r|].
  destruct (connect _ _ _) as [t|message] eqn:E; [by exists [], m, services|]. specialize (IH (failures ++ [mi_host m ++ $":" ++ dec_of_Z (mi_port m) ++ $": " ++ message])).
  destruct (try_candidates connect pin services _) as [t|l].
  - destruct IH as (before & m' & after & -> & Hc & Hb). exists (m :: before), m', after. split_and!; [done|done|]. constructor; [by eexists|done].
  - destruct IH as [Hl Hf]. split; [rewrite Hl, length_app; cbn; lia|]. constructor; [by eexists|done].
Qed.

(** The registry never loosens a pin. A connection is made to the first candidate of
    the response, in its order, that accepts one, all earlier ones having failed; the
    candidate is an entry with a host and a port in range, and the connection is pinned
    to the explicit pin if there is one, else to the fingerprint the entry advertises:
    only an entry that advertises none is connected to without a pin. If no candidate
    accepts, the error has one message for each of them. *)
Theorem registry_pinned {T} (connect : ustring -> Z -> option ustring -> T + ustring) url response pin :
  match connectMirrorFromRegistry connect url response pin with
  | inl t => exists entries before m after raw, response = Some (JArr entries) /\ omap parseServiceEntry entries = before ++ m :: after /\
      raw ∈ entries /\ parseServiceEntry raw = Some m /\ entry_of raw m /\
      connect (mi_host m) (mi_port m) (match pin with Some _ => pin | None => mi_certSha256 m end) = inl t /\
      Forall (fun m => exists message, connect (mi_host m) (mi_port m) (pin_of pin m) = inr message) before
  | inr (NoCandidates u) => u = url /\ discoverMirrors response = []
  | inr (NoUsable u failures) => u = url /\ length failures = length (discoverMirrors response) /\
      Forall (fun m => exists message, connect (mi_host m) (mi_port m) (pin_of pin m) = inr message) (discoverMirrors response)
  end.
Proof.
  unfold connectMirrorFromRegistry. destruct (discoverMirrors response) as [|m0 services] eqn:Ed; [done|].
  pose proof (try_candidates_spec connect pin (m0 :: services) []) as H. destruct (try_candidates connect pin (m0 :: services) []) as [t|l].
  2:{ destruct H as [Hl Hf]. by split_and!. }
  destruct H as (before & m & after & Hs & Hc & Hb). unfold discoverMirrors in Ed.
  destruct response as [[| | | | | |entries|]|]; try done. rewrite Hs in Ed. exists entries, before, m, after.
  assert (m ∈ omap parseServiceEntry entries) as Hin by (rewrite Ed; apply elem_of_app; right; by left).
  apply list_elem_of_omap in Hin as (raw & Hraw & Hm). exists raw. split_and!; try done. by apply parseServiceEntry_spec.
Qed.

(** Two entries: the first one malformed, the second pinned. *)
Definition sample_registry : option js :=
  Some (JArr [JObj [($"Service", JObj [($"Address", JStr ($"a")); ($"Port", JNum (num_of_Z 0))])];
              JObj [($"Service", JObj [($"ID", JStr ($"m1")); ($"Address", JStr ($" mirror ")); ($"Port", JNum (num_of_Z 8443));
                                       ($"Meta", JObj [($"cert-sha256", JStr (repeat 0x41%N 64))])])]]).

Example sample_registry_connects :
  connectMirrorFromRegistry (fun host port pin => inl (host, port, pin)) ($"consul") sample_registry None =
  inl ($"mirror", 8443%Z, Some (repeat 0x61%N 64)).
Proof. vm_compute. reflexivity. Qed.
