(* ===== verification/Waits.v ===== *)
(** * Bounded waits

    [src/src/async-replay.ts], [src/src/replay-control.ts] and
    [src/src/suite-lifetime.ts]: a wait for one operation that a signal and a timer
    can end, the call of an asynchronous computer under a deadline of its own, the
    control shared by the callbacks of a run, and the lifetime that joins what a suite
    leaves pending.

    Each is a machine whose events are what the event loop of the platform runs: a
    timer, the abort of a signal, the callback of a settled promise. A reading of the
    clock is an integer of any unit, given with the callback that reads it. [X] is what
    is thrown or given as the reason of an abort. *)

From S2P Require Import Prelude JsNumber Utf16 JsData.

(** ** Deadlines *)

Inductive deadline_stage := StageRegistration | StageStep | StageReceive | StageClose.

Record ReplayDeadlines := MkDeadlines { registrationMs : number; stepMs : number; receiveMs : number }.

Definition DEFAULT_REPLAY_DEADLINES : ReplayDeadlines :=
  MkDeadlines (num_of_Z 60000) (num_of_Z 10000) (num_of_Z 60000).

Definition deadline_ok (value : number) : bool :=
  match num_safe_Z value with Some z => (0 <? z)%Z && (z <=? 2147483647)%Z | None => false end.

(** The options given override the defaults; the names are checked in this order. *)
Definition normalizeReplayDeadlines (registration step receive : option number) : res exn ReplayDeadlines :=
  let d := MkDeadlines (default (registrationMs DEFAULT_REPLAY_DEADLINES) registration)
             (default (stepMs DEFAULT_REPLAY_DEADLINES) step) (default (receiveMs DEFAULT_REPLAY_DEADLINES) receive) in
  let check (name : string) value :=
    if deadline_ok value then Ok tt
    else Err (Exn XRange (lit name ++ $" must be a positive integer no greater than 2147483647")) in
  _ ← check "registrationMs"%string (registrationMs d);
  _ ← check "stepMs"%string (stepMs d);
  _ ← check "receiveMs"%string (receiveMs d);
  mret d.

(** ** One wait *)

Section wait.
Context {V X : Type}.

(** Why a signal is aborted: one of the program's own deadlines, or anything else. *)
Inductive reason := AtDeadline (stage : deadline_stage) (ms : Z) | Because (x : X).

Inductive wait_error :=
| ReplayCancelledError (r : reason)
| ReplayDeadlineError (stage : deadline_stage) (ms : Z)
| OperationError (x : X).

Definition abort_error (r : reason) : wait_error :=
  match r with AtDeadline stage ms => ReplayDeadlineError stage ms | Because _ => ReplayCancelledError r end.

Definition throwIfReplayCancelled (aborted : option reason) : res wait_error unit :=
  match aborted with Some r => Err (ReplayCancelledError r) | None => Ok tt end.

(** [w_signal]: there is a signal; [w_listener], [w_timer]: what is still installed;
    [w_outcome]: how the promise of the caller is settled. *)
Record wait := Wait {
  w_signal : bool;
  w_aborted : option reason;
  w_listener : bool;
  w_timer : bool;
  w_outcome : option (res wait_error V) }.

Inductive wait_event := Aborts (r : reason) | TimerFires | Resolves (v : V) (now : Z) | Rejects (x : X) (now : Z).

(** [signal] is the reason of the signal, when there is one. *)
Definition await_start (signal : option (option reason)) : res wait_error wait :=
  _ ← throwIfReplayCancelled (default None signal);
  mret (Wait (bool_decide (signal <> None)) None (bool_decide (signal <> None)) true None).

Definition finish (o : res wait_error V) (w : wait) : wait :=
  match w_outcome w with
  | Some _ => w
  | None => Wait (w_signal w) (w_aborted w) false false (Some o)
  end.

(** The outcome of a settled operation, decided in its callback. *)
Definition settled_operation (deadline : Z) (stage : deadline_stage) (ms : Z) (o : res wait_error V) (now : Z) (w : wait)
    : res wait_error V :=
  match w_aborted w with
  | Some r => Err (abort_error r)
  | None => if (deadline <=? now)%Z then Err (ReplayDeadlineError stage ms) else o
  end.

Definition await_step (deadline : Z) (stage : deadline_stage) (ms : Z) (w : wait) (e : wait_event) : wait :=
  match e with
  | Aborts r =>
      if w_signal w && bool_decide (w_aborted w = None) then
        let w := Wait (w_signal w) (Some r) (w_listener w) (w_timer w) (w_outcome w) in
        if w_listener w then finish (Err (abort_error r)) w else w
      else w
  | TimerFires => if w_timer w then finish (Err (ReplayDeadlineError stage ms)) w else w
  | Resolves v now => finish (settled_operation deadline stage ms (Ok v) now w) w
  | Rejects x now => finish (settled_operation deadline stage ms (Err (OperationError x)) now w) w
  end.

Definition awaitReplayOperationUntil (deadline : Z) (stage : deadline_stage) (ms : Z) (w : wait) (es : list wait_event) : wait :=
  foldl (await_step deadline stage ms) w es.

(** [awaitReplayOperation], called at [now]. *)
Definition awaitReplayOperation (now : Z) (stage : deadline_stage) (ms : Z) (signal : option (option reason))
    (es : list wait_event) : res wait_error wait :=
  w ← await_start signal;
  mret (awaitReplayOperationUntil (now + ms) stage ms w es).

(** ** Calling an asynchronous computer *)

(** [i_linked]: the listener on the signal of the caller; [i_timer]: the timer of the
    call; its controller is the signal of the wait inside. *)
Record invocation := Invocation {
  i_signal : bool;
  i_outer : option reason;
  i_linked : bool;
  i_timer : bool;
  i_wait : wait }.

Inductive invocation_event :=
| CallerAborts (r : reason)
| StepTimerFires
| WaitTimerFires
| ComputerResolves (v : V) (now : Z)
| ComputerRejects (x : X) (now : Z)
| FinallyRuns.

(** The reason of the controller. *)
Definition i_controller (i : invocation) : option reason := w_aborted (i_wait i).

(** The call itself may throw: then the controller is aborted with what it threw. *)
Definition invoke_start (signal : option (option reason)) (thrown : option X) : res wait_error invocation :=
  _ ← throwIfReplayCancelled (default None signal);
  match thrown with
  | Some x => Err (OperationError x)
  | None => mret (Invocation (bool_decide (signal <> None)) None (bool_decide (signal <> None)) true
                    (Wait true None true true None))
  end.

Definition in_wait (deadline ms : Z) (e : wait_event) (i : invocation) : invocation :=
  Invocation (i_signal i) (i_outer i) (i_linked i) (i_timer i) (await_step deadline StageStep ms (i_wait i) e).

Definition invoke_step (deadline ms : Z) (i : invocation) (e : invocation_event) : invocation :=
  match e with
  | CallerAborts r =>
      if i_signal i && bool_decide (i_outer i = None) then
        let linked := i_linked i in
        let i := Invocation (i_signal i) (Some r) false (i_timer i) (i_wait i) in
        if linked then in_wait deadline ms (Aborts r) i else i
      else i
  | StepTimerFires =>
      if i_timer i then
        in_wait deadline ms (Aborts (AtDeadline StageStep ms))
          (Invocation (i_signal i) (i_outer i) (i_linked i) false (i_wait i))
      else i
  | WaitTimerFires => in_wait deadline ms TimerFires i
  | ComputerResolves v now => in_wait deadline ms (Resolves v now) i
  | ComputerRejects x now => in_wait deadline ms (Rejects x now) i
  | FinallyRuns =>
      match w_outcome (i_wait i) with
      | Some _ => Invocation (i_signal i) (i_outer i) false false (i_wait i)
      | None => i
      end
  end.

Definition invokeAsyncComputer (deadline ms : Z) (i : invocation) (es : list invocation_event) : invocation :=
  foldl (invoke_step deadline ms) i es.
End wait.
Arguments reason : clear implicits.
Arguments wait_error : clear implicits.
Arguments wait : clear implicits.
Arguments wait_event : clear implicits.
Arguments invocation : clear implicits.
Arguments invocation_event : clear implicits.

(** ** The control of a run *)

Section control.
Context {V X : Type}.

Inductive control_code := ReplayAborted (cause : X) | ActionTimeout (ms : Z) | ReceiveTimeout (ms : Z).
Inductive control_error := Controlled (c : control_code) | Operation (x : X).
Inductive run_kind := RunAction | RunReceive.

Definition timeout_code (kind : run_kind) (ms : Z) : control_code :=
  match kind with RunAction => ActionTimeout ms | RunReceive => ReceiveTimeout ms end.

(** [assertActive], of the reason the controller is aborted with. *)
Definition assertActive (aborted : option control_code) : res control_error unit :=
  match aborted with Some r => Err (Controlled r) | None => Ok tt end.

(** [controller.abort(reason)] *)
Definition abort_with (r : control_code) (aborted : option control_code) : option control_code :=
  Some (default r aborted).

(** [timeout !== undefined && performance.now() - started >= timeout && !aborted] *)
Definition expire_late (kind : run_kind) (timeout : option Z) (elapsed : Z) (aborted : option control_code) : option control_code :=
  match timeout with
  | Some ms => if (ms <=? elapsed)%Z then abort_with (timeout_code kind ms) aborted else aborted
  | None => aborted
  end.

(** What the operation of [startAction] does; while it runs it may abort the signal. *)
Inductive operation := Throws (x : X) | Returns (v : V) | Promises.

Inductive started_action := Ready (v : V) | PendingRun.

Definition startAction (timeout : option Z) (aborted : option control_code) (o : operation) (during : option control_code)
    (elapsed : Z) : res control_error started_action * option control_code :=
  match assertActive aborted with
  | Err e => (Err e, aborted)
  | Ok _ =>
      let aborted := during in
      match o with
      | Throws x => (Err (Operation x), aborted)
      | Promises => (Ok PendingRun, aborted)
      | Returns v =>
          let aborted := expire_late RunAction timeout elapsed aborted in
          (_ ← assertActive aborted; mret (Ready v), aborted)
      end
  end.

(** One [run]: [r_race] is what [Promise.race] is settled with, [r_called] whether
    the operation was called, [r_result] how the promise of the caller is settled. *)
Record running := Running {
  r_aborted : option control_code;
  r_listener : bool;
  r_timer : bool;
  r_called : bool;
  r_race : option (res control_error V);
  r_result : option (res control_error V) }.

Inductive run_event :=
| ControlAborts (r : control_code)
| ControlTimer
| OperationCalled (thrown : option X)
| OperationSettles (o : res X V)
| RunContinues (now : Z).

Definition run_begin (aborted : option control_code) (timeout : option Z) : running :=
  match assertActive aborted with
  | Err e => Running aborted false false false None (Some (Err e))
  | Ok _ => Running aborted true (bool_decide (timeout <> None)) false None None
  end.

Definition race_settles (o : res control_error V) (s : running) : running :=
  Running (r_aborted s) (r_listener s) (r_timer s) (r_called s) (Some (default o (r_race s))) (r_result s).

(** An abort rejects the race through the listener. *)
Definition control_abort (r : control_code) (s : running) : running :=
  match r_aborted s with
  | Some _ => s
  | None =>
      let s := Running (Some r) (r_listener s) (r_timer s) (r_called s) (r_race s) (r_result s) in
      if r_listener s then race_settles (Err (Controlled r)) s else s
  end.

(** The [finally] of [run]. *)
Definition run_end (o : res control_error V) (s : running) : running :=
  Running (r_aborted s) false false (r_called s) (r_race s) (Some o).

Definition operation_error (o : res X V) : res control_error V :=
  match o with Ok v => Ok v | Err x => Err (Operation x) end.

Definition run_step (kind : run_kind) (timeout : option Z) (started : Z) (s : running) (e : run_event) : running :=
  match e with
  | ControlAborts r => control_abort r s
  | ControlTimer =>
      match timeout with
      | Some ms => if r_timer s then control_abort (timeout_code kind ms) s else s
      | None => s
      end
  | OperationCalled thrown =>
      if r_listener s && negb (r_called s) then
        match assertActive (r_aborted s) with
        | Err e => race_settles (Err e) s
        | Ok _ =>
            let s := Running (r_aborted s) (r_listener s) (r_timer s) true (r_race s) (r_result s) in
            match thrown with Some x => race_settles (Err (Operation x)) s | None => s end
        end
      else s
  | OperationSettles o => if r_called s then race_settles (operation_error o) s else s
  | RunContinues now =>
      match r_race s, r_result s with
      | Some (Err e), None => run_end (Err e) s
      | Some (Ok v), None =>
          let aborted := expire_late kind timeout (now - started) (r_aborted s) in
          run_end (_ ← assertActive aborted; mret v)
            (Running aborted (r_listener s) (r_timer s) (r_called s) (r_race s) (r_result s))
      | _, _ => s
      end
  end.

Definition run (kind : run_kind) (timeout : option Z) (started : Z) (aborted : option control_code) (es : list run_event) : running :=
  foldl (run_step kind timeout started) (run_begin aborted timeout) es.
End control.
Arguments control_code : clear implicits.
Arguments control_error : clear implicits.
Arguments running : clear implicits.
Arguments run_event : clear implicits.

(** ** The lifetime of a suite *)

(** The promises that are tracked, by number; [l_batch] is what a [join] waits for. *)
Record SuiteLifetime := Lifetime {
  l_pending : list nat;
  l_cleanupDeadline : option Z;
  l_unconfirmed : bool;
  l_sealed : bool;
  l_batch : option (list nat);
  l_joined : bool }.

Definition new_lifetime : SuiteLifetime := Lifetime [] None false false None false.

Inductive lifetime_event := Tracks (p : nat) | PromiseSettles (p : nat) | StartCleanup (now : Z) | Joins (now : Z) | BatchSettles | BatchTimesOut.

Definition startCleanup (cleanupMs now : Z) (l : SuiteLifetime) : SuiteLifetime :=
  Lifetime (l_pending l) (Some (default (now + cleanupMs)%Z (l_cleanupDeadline l))) (l_unconfirmed l) true (l_batch l) (l_joined l).

(** [Math.max(1, Math.ceil(cleanupDeadline - now))], the time [wait] allows. *)
Definition wait_allowance (cleanupMs now : Z) (l : SuiteLifetime) : Z :=
  Z.max 1 (default (now + cleanupMs)%Z (l_cleanupDeadline l) - now).

(** The head of the loop of [join]. *)
Definition join_round (l : SuiteLifetime) : SuiteLifetime :=
  match l_pending l with
  | [] => Lifetime [] (l_cleanupDeadline l) (l_unconfirmed l) (l_sealed l) None true
  | batch => Lifetime batch (l_cleanupDeadline l) (l_unconfirmed l) (l_sealed l) (Some batch) false
  end.

Definition lifetime_step (cleanupMs : Z) (l : SuiteLifetime) (e : lifetime_event) : SuiteLifetime :=
  match e with
  | Tracks p =>
      Lifetime (if bool_decide (p ∈ l_pending l) then l_pending l else l_pending l ++ [p])
        (l_cleanupDeadline l) (l_unconfirmed l) (l_sealed l) (l_batch l) (l_joined l)
  | PromiseSettles p =>
      Lifetime (List.filter (fun q => negb (bool_decide (q = p))) (l_pending l))
        (l_cleanupDeadline l) (l_unconfirmed l) (l_sealed l) (l_batch l) (l_joined l)
  | StartCleanup now => startCleanup cleanupMs now l
  | Joins now => match l_batch l with None => join_round (startCleanup cleanupMs now l) | Some _ => l end
  | BatchSettles =>
      match l_batch l with
      | Some batch => if forallb (fun p => negb (bool_decide (p ∈ l_pending l))) batch then join_round l else l
      | None => l
      end
  | BatchTimesOut =>
      match l_batch l with
      | Some _ => Lifetime (l_pending l) (l_cleanupDeadline l) true (l_sealed l) None true
      | None => l
      end
  end.

(** ** What bounded waits guarantee

    Over the machines of [Waits]: the first event that matters decides a wait, a
    control that is aborted stays so, and a confirmed join leaves nothing pending. *)

(** ** One wait *)

Section wait.
Context {V X : Type}.
Implicit Types (w : wait V X) (es : list (wait_event V X)) (o : res (wait_error X) V).

Section one.
Context (deadline : Z) (stage : deadline_stage) (ms : Z).
Abbreviation step := (await_step deadline stage ms).
Abbreviation late t := (deadline <=? t)%Z.

(** An abort means nothing to a wait without a signal. *)
Definition decisive (signal : bool) (e : wait_event V X) : bool :=
  match e with Aborts _ => signal | _ => true end.

(** What the first event that means something decides. *)
Definition decided (e : wait_event V X) : res (wait_error X) V :=
  match e with
  | Aborts r => Err (abort_error r)
  | TimerFires => Err (ReplayDeadlineError stage ms)
  | Resolves v t => if late t then Err (ReplayDeadlineError stage ms) else Ok v
  | Rejects x t => if late t then Err (ReplayDeadlineError stage ms) else Err (OperationError x)
  end.

Definition decision (signal : bool) es : option (res (wait_error X) V) :=
  decided <$> find (decisive signal) es.

Definition fresh_wait (signal : bool) : wait V X := Wait signal None signal true None.

(** A settled wait has removed its listener and its timer. *)
Definition settled_with o w : Prop := w_outcome w = Some o /\ w_listener w = false /\ w_timer w = false.

Lemma settled_stays w e o : settled_with o w -> settled_with o (step w e).
Proof.
  destruct w as [s a l t out]. intros (Ho & Hl & Ht). cbn in Ho, Hl, Ht. subst.
  destruct e; cbn; try done. by destruct (s && _).
Qed.

Lemma settled_forever es : forall w o, settled_with o w -> settled_with o (awaitReplayOperationUntil deadline stage ms w es).
Proof. induction es as [|e es IH]; intros w o H; [done|]. by apply IH, settled_stays. Qed.

Lemma fresh_step signal e :
  if decisive signal e then settled_with (decided e) (step (fresh_wait signal) e)
  else step (fresh_wait signal) e = fresh_wait signal.
Proof. by destruct e, signal. Qed.

Lemma await_decides signal es :
  match decision signal es with
  | Some o => settled_with o (awaitReplayOperationUntil deadline stage ms (fresh_wait signal) es)
  | None => awaitReplayOperationUntil deadline stage ms (fresh_wait signal) es = fresh_wait signal
  end.
Proof.
  unfold decision. induction es as [|e es IH]; [done|]. cbn [find awaitReplayOperationUntil foldl].
  pose proof (fresh_step signal e) as H. destruct (decisive signal e); cbn [fmap option_fmap option_map].
  - by apply settled_forever.
  - by rewrite H.
Qed.
End one.

Lemma find_split {A} (p : A -> bool) l x :
  find p l = Some x <-> exists before after, l = before ++ x :: after /\ p x = true /\ Forall (fun y => p y = false) before.
Proof.
  induction l as [|y l IH]; cbn.
  - split; [done|]. intros (b & c & H & _). by destruct b.
  - destruct (p y) eqn:Hy; split.
    + intros [= ->]. by exists [], l.
    + intros ([|z b] & c & H & Hx & Hb); cbn in H; injection H as -> ->; [done|].
      apply Forall_cons in Hb as [? _]. congruence.
    + intros (b & c & -> & Hx & Hb)%IH. exists (y :: b), c. split; [done|]. split; [done|by constructor].
    + intros ([|z b] & c & H & Hx & Hb); cbn in H; injection H as -> ->; [congruence|].
      apply Forall_cons in Hb as [_ Hb]. apply IH. by exists b, c.
Qed.

(** C15: a wait is decided by the first event that means something to it, whatever
    comes later: the abort of its signal, its timer, or the operation, whose value
    and whose error count only before the deadline. Until then its timer and its
    listener are installed, from then on neither is; it delivers a value exactly when
    the operation resolved before the deadline and before the timer and the abort. *)
Theorem await_exact (now : Z) stage ms (signal : option (option (reason X))) es w :
  awaitReplayOperation now stage ms signal es = Ok w ->
  (signal = None \/ signal = Some None) /\
  let has_signal := bool_decide (signal <> None) in
  w_outcome w = decision (now + ms) stage ms has_signal es /\
  (w_timer w = true <-> w_outcome w = None) /\
  (w_listener w = true <-> w_outcome w = None /\ signal <> None) /\
  (forall v, w_outcome w = Some (Ok v) <->
     exists before t after, es = before ++ Resolves v t :: after /\ (t < now + ms)%Z /\
       Forall (fun e => decisive has_signal e = false) before).
Proof.
  unfold awaitReplayOperation, await_start. intros H.
  assert (signal = None \/ signal = Some None) as Hs by (destruct signal as [[r|]|]; [done|by right|by left]).
  split; [done|]. cbv zeta. set (b := bool_decide (signal <> None)) in *.
  assert (w = awaitReplayOperationUntil (now + ms) stage ms (fresh_wait b) es) as ->
    by (destruct Hs as [-> | ->]; by injection H as <-).
  assert (b = true <-> signal <> None) as Hb by apply bool_decide_eq_true.
  pose proof (await_decides (now + ms) stage ms b es) as Hd. clear H.
  assert (w_outcome (awaitReplayOperationUntil (now + ms) stage ms (fresh_wait b) es) = decision (now + ms) stage ms b es) as Ho.
  { destruct (decision _ _ _ _ _) as [o|]; [by destruct Hd|by rewrite Hd]. }
  split; [exact Ho|]. rewrite !Ho. split_and!.
  - destruct (decision _ _ _ _ _) as [o|]; [destruct Hd as (_ & _ & ->)|rewrite Hd]; by split.
  - destruct (decision _ _ _ _ _) as [o|]; [destruct Hd as (_ & -> & _)|rewrite Hd; cbn [fresh_wait w_listener]].
    + by split; [|intros [? _]].
    + rewrite Hb. by split; [|intros [_ ?]].
  - intros v. unfold decision. split.
    + destruct (find _ es) as [e|] eqn:E; [|done]. apply find_split in E as (before & after & -> & _ & Hbefore).
      intros [= He]. destruct e as [r| |v' t|x t]; cbn [decided] in He; try done; [|by destruct (_ <=? _)%Z].
      destruct (now + ms <=? t)%Z eqn:El; [done|]. injection He as ->. exists before, t, after.
      split; [done|]. split; [lia|done].
    + intros (before & t & after & -> & Ht & Hbefore).
      assert (find (decisive b) (before ++ Resolves v t :: after) = Some (Resolves v t)) as ->
        by (apply find_split; by exists before, after).
      cbn. rewrite (proj2 (Z.leb_gt _ _)) by done. done.
Qed.

(** ** Calling an asynchronous computer *)

Section invoke.
Context (deadline ms : Z).
Abbreviation istep := (invoke_step deadline ms).

Definition i_decisive (signal : bool) (e : invocation_event V X) : bool :=
  match e with CallerAborts _ => signal | FinallyRuns => false | _ => true end.

(** The outcome, and what the signal of the computer is aborted with. *)
Definition i_decided (e : invocation_event V X) : res (wait_error X) V * option (reason X) :=
  let deadline_error := Err (ReplayDeadlineError StageStep ms) in
  match e with
  | CallerAborts r => (Err (abort_error r), Some r)
  | StepTimerFires => (deadline_error, Some (AtDeadline StageStep ms))
  | WaitTimerFires | FinallyRuns => (deadline_error, None)
  | ComputerResolves v t => (if (deadline <=? t)%Z then deadline_error else Ok v, None)
  | ComputerRejects x t => (if (deadline <=? t)%Z then deadline_error else Err (OperationError x), None)
  end.

Definition fresh_invocation (signal : bool) : invocation V X :=
  Invocation signal None signal true (Wait true None true true None).

Definition i_settled (o : res (wait_error X) V * option (reason X)) (i : invocation V X) : Prop :=
  settled_with o.1 (i_wait i) /\ (forall r, o.2 = Some r -> i_controller i = Some r).

Lemma invocation_first signal e :
  if i_decisive signal e then i_settled (i_decided e) (istep (fresh_invocation signal) e) /\
       i_controller (istep (fresh_invocation signal) e) = (i_decided e).2
  else istep (fresh_invocation signal) e = fresh_invocation signal.
Proof. destruct e, signal; try done; (split; [split; [done|by intros r' [= ->]]|done]). Qed.

Lemma await_keeps_abort (e : wait_event V X) w r : w_aborted w = Some r -> w_aborted (await_step deadline StageStep ms w e) = Some r.
Proof.
  destruct w as [s a l t o]. cbn. intros ->. destruct e; cbn [await_step w_signal w_aborted w_timer].
  - rewrite bool_decide_eq_false_2 by done. by rewrite andb_false_r.
  - destruct t; [|done]. by destruct o.
  - by destruct o.
  - by destruct o.
Qed.

Lemma invocation_stays i (e : invocation_event V X) d : i_settled d i -> i_settled d (istep i e).
Proof.
  intros [Hw Hr]. destruct e; cbn [invoke_step].
  - destruct (i_signal i && _); [|by split]. destruct (i_linked i); [|by split].
    split; [by apply settled_stays|]. intros r' Hr'. by apply await_keeps_abort, Hr.
  - destruct (i_timer i); [|by split]. split; [by apply settled_stays|]. intros r' Hr'. by apply await_keeps_abort, Hr.
  - split; [by apply settled_stays|]. intros r' Hr'. by apply await_keeps_abort, Hr.
  - split; [by apply settled_stays|]. intros r' Hr'. by apply await_keeps_abort, Hr.
  - split; [by apply settled_stays|]. intros r' Hr'. by apply await_keeps_abort, Hr.
  - by destruct (w_outcome (i_wait i)).
Qed.

Lemma invocation_forever (es : list (invocation_event V X)) : forall i d, i_settled d i -> i_settled d (invokeAsyncComputer deadline ms i es).
Proof. induction es as [|e es IH]; intros i d H; [done|]. by apply IH, invocation_stays. Qed.

(** Nothing reaches the controller any more. *)
Definition detached (i : invocation V X) : Prop := i_linked i = false /\ i_timer i = false /\ exists o, settled_with o (i_wait i).

Lemma detached_stays (es : list (invocation_event V X)) : forall i, detached i ->
  i_controller (invokeAsyncComputer deadline ms i es) = i_controller i.
Proof.
  induction es as [|e es IH]; intros i H; [done|]. unfold invokeAsyncComputer. cbn [foldl].
  assert (detached (istep i e) /\ i_controller (istep i e) = i_controller i) as [Hd Hc].
  2: { rewrite <- Hc. by apply IH. }
  destruct i as [s o l t w]. destruct H as (Hl & Ht & out & Hw). cbn in Hl, Ht, Hw. subst.
  assert (forall e, (forall r, e <> Aborts r) -> w_aborted (await_step deadline StageStep ms w e) = w_aborted w) as Hk.
  { destruct w as [ws wa wl wt wo]. destruct Hw as (Ho & Hl & Ht). cbn in Ho, Hl, Ht. subst.
    by intros [r| |v t|x t] Hn; [destruct (Hn r)|..]. }
  destruct e; cbn [invoke_step i_signal i_outer i_linked i_timer i_wait].
  - destruct (s && _); (split; [|done]); (split; [done|]); (split; [done|]); by exists out.
  - split; [|done]. split; [done|]. split; [done|]. by exists out.
  - split; [|by apply Hk]. split; [done|]. split; [done|]. exists out. by apply settled_stays.
  - split; [|by apply Hk]. split; [done|]. split; [done|]. exists out. by apply settled_stays.
  - split; [|by apply Hk]. split; [done|]. split; [done|]. exists out. by apply settled_stays.
  - destruct Hw as (Ho & Hl & Ht). rewrite Ho. split; [|done]. split; [done|]. split; [done|]. by exists out.
Qed.

Lemma invocation_quiet signal before : Forall (fun e => i_decisive signal e = false) before ->
  invokeAsyncComputer deadline ms (fresh_invocation signal) before = fresh_invocation signal.
Proof.
  induction 1 as [|e es He _ IH]; [done|]. unfold invokeAsyncComputer. cbn [foldl].
  pose proof (invocation_first signal e) as H. rewrite He in H. by rewrite H.
Qed.
End invoke.

(** A call of an asynchronous computer is decided by the first of: the abort of
    the caller, the timer of the call, the timer of the wait inside, and the computer.
    If the caller aborts first or the timer of the call fires first, the signal the
    computer was given is aborted with that reason. If it is the timer of the wait, or
    a computer that comes late, the call ends with the deadline and, once its cleanup
    has run, that signal is never aborted. *)
Theorem invoke_exact deadline ms signal (i : invocation V X) :
  invoke_start signal None = Ok i ->
  let has_signal := bool_decide (signal <> None) in
  forall before e after, Forall (fun e => i_decisive has_signal e = false) before -> i_decisive has_signal e = true ->
  let final := invokeAsyncComputer deadline ms i (before ++ e :: after) in
  w_outcome (i_wait final) = Some (i_decided deadline ms e).1 /\
  (forall r, (i_decided deadline ms e).2 = Some r -> i_controller final = Some r) /\
  ((i_decided deadline ms e).2 = None -> head after = Some FinallyRuns -> i_controller final = None).
Proof.
  unfold invoke_start. intros H. cbv zeta. intros before e after Hb He. set (b := bool_decide (signal <> None)) in *.
  assert (i = fresh_invocation b) as -> by (destruct signal as [[r|]|]; [done| |]; by injection H as <-). clear H.
  pose proof (invocation_first deadline ms b e) as Hf. rewrite He in Hf. destruct Hf as [Hs Hc].
  assert (forall es : list (invocation_event V X), invokeAsyncComputer deadline ms (fresh_invocation b) (before ++ e :: es) =
    invokeAsyncComputer deadline ms (invoke_step deadline ms (fresh_invocation b) e) es) as Heq.
  { intros es. unfold invokeAsyncComputer. rewrite foldl_app. cbn [foldl].
    by rewrite (invocation_quiet deadline ms b before Hb : foldl _ _ _ = _). }
  rewrite Heq. destruct (invocation_forever deadline ms after _ _ Hs) as [(Ho & _) Hr].
  split; [exact Ho|]. split; [exact Hr|]. intros Hn Hh. destruct after as [|e' after]; [done|]. injection Hh as ->.
  set (j := invoke_step deadline ms (fresh_invocation b) e) in *. destruct Hs as [Hw _].
  assert (invoke_step deadline ms j FinallyRuns = Invocation (i_signal j) (i_outer j) false false (i_wait j)) as Hj.
  { destruct Hw as (Ho' & _). cbn [invoke_step]. by rewrite Ho'. }
  change (i_controller (invokeAsyncComputer deadline ms (invoke_step deadline ms j FinallyRuns) after) = None).
  rewrite detached_stays, Hj; [by rewrite <- Hn, <- Hc|].
  split; [by rewrite Hj|]. split; [by rewrite Hj|]. rewrite Hj. by eexists.
Qed.
End wait.

(** ** The control of a run *)

Section control.
Context {V X : Type} (kind : run_kind) (timeout : option Z) (started : Z).
Implicit Types (s : running V X) (e : run_event V X) (es : list (run_event V X)).
Abbreviation rstep := (run_step kind timeout started).

(** An event that aborts the control: the timer only when there is a timeout. *)
Definition interrupts e : bool :=
  match e with ControlAborts _ => true | ControlTimer => bool_decide (timeout <> None) | _ => false end.

Definition in_time (now : Z) : Prop := forall ms, timeout = Some ms -> (now - started < ms)%Z.

(** The race of a run that goes on. *)
Definition race_ok es s : Prop :=
  match r_race s with
  | None => r_aborted s = None
  | Some (Ok v) => OperationSettles (Ok v) ∈ es
  | Some (Err (Operation x)) => OperationSettles (Err x) ∈ es \/ OperationCalled (Some x) ∈ es
  | Some (Err (Controlled r)) => r_aborted s = Some r
  end.

Definition result_ok es s (o : res (control_error X) V) : Prop :=
  match o with
  | Ok v => exists before now after, es = before ++ RunContinues now :: after /\
      Forall (fun e => interrupts e = false) before /\ OperationSettles (Ok v) ∈ before /\ in_time now
  | Err (Operation x) => OperationSettles (Err x) ∈ es \/ OperationCalled (Some x) ∈ es
  | Err (Controlled r) => r_aborted s = Some r
  end.

Definition run_ok es s : Prop :=
  match r_result s with
  | None => r_listener s = true /\ r_timer s = bool_decide (timeout <> None) /\ race_ok es s /\
      (r_aborted s = None -> Forall (fun e => interrupts e = false) es)
  | Some o => r_listener s = false /\ r_timer s = false /\ result_ok es s o
  end.

Lemma result_later es s e o : result_ok es s o -> result_ok (es ++ [e]) s o.
Proof.
  destruct o as [v|[r|x]]; cbn; [|done|].
  - intros (b & now & a & -> & H). exists b, now, (a ++ [e]). by rewrite <- app_assoc.
  - intros [?|?]; [left|right]; by apply elem_of_app; left.
Qed.

Lemma race_later es s e : race_ok es s -> race_ok (es ++ [e]) s.
Proof.
  unfold race_ok. destruct (r_race s) as [[v|[r|x]]|]; try done.
  - intros ?. by apply elem_of_app; left.
  - intros [?|?]; [left|right]; by apply elem_of_app; left.
Qed.

Lemma aborted_stays s e r : r_aborted s = Some r -> r_aborted (rstep s e) = Some r.
Proof.
  destruct s as [a l t c ra re]. cbn. intros ->. destruct e; cbn; try done.
  - destruct timeout; [|done]. by destruct t.
  - by destruct (l && negb c).
  - by destruct c.
  - destruct ra as [[v|x]|]; try done; destruct re; try done. unfold expire_late.
    destruct timeout; [|done]. by destruct (_ <=? _)%Z.
Qed.

(** Aborting keeps a run sound. *)
Lemma abort_ok es s r e : run_ok es s -> run_ok (es ++ [e]) (control_abort r s).
Proof.
  destruct s as [a l t c ra re]. unfold run_ok, control_abort. cbn [r_result r_aborted r_listener r_timer].
  destruct a as [r'|].
  { cbn [r_result r_aborted r_listener r_timer]. destruct re as [o|].
    - intros (? & ? & H). split_and!; [done|done|by apply result_later].
    - intros (? & ? & H & _). split_and!; [done|done|by apply race_later|done]. }
  destruct re as [o|]; cbn [r_result].
  - intros (-> & -> & H). cbn. split; [done|]. split; [done|].
    destruct o as [v|[r'|x]]; [exact (result_later _ _ e _ H)|done|exact (result_later _ _ e _ H)].
  - intros (-> & Ht & Hr & _). cbn. split; [done|]. split; [done|]. split; [|done].
    unfold race_ok in *. cbn in *. destruct ra as [[v|[r'|x]]|]; cbn; try done; [by apply elem_of_app; left|].
    destruct Hr as [?|?]; [left|right]; by apply elem_of_app; left.
Qed.

(** An event that changes nothing but the race, whose new end is accounted for. *)
Lemma quiet_ok es s e : interrupts e = false -> run_ok es s -> run_ok (es ++ [e]) s.
Proof.
  unfold run_ok. intros He. destruct (r_result s) as [o|].
  - intros (? & ? & H). split_and!; [done|done|by apply result_later].
  - intros (? & ? & H & Hi). split_and!; [done|done|by apply race_later|].
    intros Ha. apply Forall_app. split; [by apply Hi|by constructor].
Qed.

Lemma race_step_ok es s e (o : res (control_error X) V) c : interrupts e = false -> run_ok es s ->
  (r_result s = None -> r_race s = None -> race_ok (es ++ [e]) (Running (r_aborted s) true (r_timer s) c (Some o) None)) ->
  run_ok (es ++ [e]) (race_settles o (Running (r_aborted s) (r_listener s) (r_timer s) c (r_race s) (r_result s))).
Proof.
  intros He Hs Ho. pose proof (quiet_ok _ _ _ He Hs) as Hq. clear Hs.
  destruct s as [a l t c' ra re]. unfold race_settles. cbn [r_aborted r_listener r_timer r_race r_result] in *.
  destruct re as [out|].
  - unfold run_ok in *. cbn [r_result r_listener r_timer] in *. destruct Hq as (? & ? & H). split_and!; [done|done|].
    by destruct out as [v|[r|x]].
  - unfold run_ok in *. cbn [r_result r_listener r_timer r_aborted] in *. destruct Hq as (-> & Ht & Hr & Hi).
    split_and!; [done|done| |done]. destruct ra as [o'|]; [|by apply Ho]. exact Hr.
Qed.

Lemma run_step_ok es s e : run_ok es s -> run_ok (es ++ [e]) (rstep s e).
Proof.
  intros Hs. destruct e as [r| |thrown|o|now]; cbn [run_step].
  - by apply abort_ok.
  - destruct timeout as [ms|] eqn:Et; [|apply quiet_ok; [cbn; by rewrite Et|done]].
    destruct (r_timer s) eqn:Ht; [by apply abort_ok|].
    unfold run_ok in *. destruct (r_result s) as [o|]; [|by destruct Hs as (_ & H & _); rewrite Ht, Et in H].
    destruct Hs as (? & ? & H). split_and!; [done|done|by apply result_later].
  - destruct (r_listener s && negb (r_called s)) eqn:El; [|by apply quiet_ok].
    unfold assertActive. destruct (r_aborted s) as [r|] eqn:Ea.
    + replace s with (Running (r_aborted s) (r_listener s) (r_timer s) (r_called s) (r_race s) (r_result s)) by (by destruct s).
      apply race_step_ok; [done|done|]. intros _ _. by rewrite Ea.
    + destruct thrown as [x|].
      * rewrite <- Ea. apply race_step_ok; [done|done|]. intros _ _. cbn. right. apply elem_of_app. right. by left.
      * rewrite <- Ea. apply (quiet_ok es s (OperationCalled None)) in Hs; [|done].
        unfold run_ok, race_ok, result_ok in *. by destruct s.
  - destruct (r_called s); [|by apply quiet_ok].
    replace s with (Running (r_aborted s) (r_listener s) (r_timer s) (r_called s) (r_race s) (r_result s)) by (by destruct s).
    apply race_step_ok; [done|done|]. intros _ _. unfold race_ok. cbn.
    destruct o as [v|x]; cbn; [|left]; apply elem_of_app; right; by left.
  - destruct (r_race s) as [[v|x]|] eqn:Er; destruct (r_result s) as [out|] eqn:Eo; try (by apply quiet_ok).
    + unfold run_ok in Hs. rewrite Eo in Hs. destruct Hs as (Hl & Ht & Hr & Hi). unfold race_ok in Hr. rewrite Er in Hr.
      unfold run_ok, run_end. cbn [r_result r_listener r_timer]. split; [done|]. split; [done|].
      unfold expire_late, assertActive. destruct (r_aborted s) as [r|] eqn:Ea.
      { destruct timeout as [ms|]; [destruct (ms <=? now - started)%Z|]; done. }
      assert (in_time now -> result_ok (es ++ [RunContinues now]) s (Ok v)) as Hok.
      { intros Hn. exists es, now, []. split_and!; [done|by apply Hi|done|done]. }
      destruct timeout as [ms|] eqn:Et; [destruct (ms <=? now - started)%Z eqn:El; [done|]|]; apply Hok; intros ms'; rewrite ?Et; [|done].
      intros [= <-]. lia.
    + unfold run_ok in Hs. rewrite Eo in Hs. destruct Hs as (Hl & Ht & Hr & Hi). unfold race_ok in Hr. rewrite Er in Hr.
      unfold run_ok, run_end. cbn [r_result r_listener r_timer]. split; [done|]. split; [done|].
      destruct x as [r|x]; [exact Hr|]. destruct Hr as [?|?]; [left|right]; by apply elem_of_app; left.
Qed.

(** C22: one operation under the control of a run. On a control that is aborted it
    ends at once with that reason, and the operation is not called. Otherwise it
    gives a value only if the operation gave it and when the caller goes on nothing
    has aborted the control and the time is not up; it throws what the operation threw,
    or the reason the control is aborted with, which is the first one for good; and
    its timer and its listener are installed exactly while it runs. *)
Theorem control_run_exact (aborted : option (control_code X)) es :
  let s := run kind timeout started aborted es in
  (forall r, aborted = Some r -> s = Running (Some r) false false false None (Some (Err (Controlled r)))) /\
  (aborted = None -> run_ok es s) /\
  (forall r later, r_aborted s = Some r -> r_aborted (run kind timeout started aborted (es ++ later)) = Some r).
Proof.
  cbv zeta. unfold run. split_and!.
  - intros r ->. cbn [run_begin assertActive]. induction es as [|e es IH]; [done|]. cbn [foldl].
    assert (rstep (Running (Some r) false false false None (Some (Err (Controlled r)))) e =
      Running (Some r) false false false None (Some (Err (Controlled r)))) as ->; [|done].
    destruct e; try done. cbn. by destruct timeout.
  - intros ->. induction es as [|e es IH] using rev_ind.
    + unfold run_ok. cbn. split_and!; done.
    + rewrite foldl_snoc. by apply run_step_ok.
  - intros r later H. rewrite foldl_app. revert H. generalize (foldl rstep (run_begin aborted timeout) es).
    induction later as [|e later IH]; intros s H; [done|]. cbn [foldl]. by apply IH, aborted_stays.
Qed.
End control.

(** ** The lifetime of a suite *)

(** A join that ends with nothing unconfirmed has seen nothing pending, and the
    deadline of the cleanup is fixed by the first call that needs it. *)
Theorem join_confirmed cleanupMs es :
  let l := foldl (lifetime_step cleanupMs) new_lifetime es in
  (forall e, l_joined l = false -> l_joined (lifetime_step cleanupMs l e) = true ->
     l_unconfirmed (lifetime_step cleanupMs l e) = false -> l_pending (lifetime_step cleanupMs l e) = []) /\
  (forall d later, l_cleanupDeadline l = Some d ->
     l_cleanupDeadline (foldl (lifetime_step cleanupMs) l later) = Some d) /\
  (l_batch l <> None -> l_sealed l = true).
Proof.
  cbv zeta. set (l := foldl (lifetime_step cleanupMs) new_lifetime es). split_and!.
  - intros e Hj. destruct l as [p d u s b j]. cbn in Hj. subst j. destruct e; cbn; try done.
    + destruct b; [done|]. unfold join_round. cbn. by destruct p.
    + destruct b as [b|]; [|done]. destruct (forallb _ b); [|done]. unfold join_round. cbn. by destruct p.
    + by destruct b.
  - intros d later. generalize l. clear l. induction later as [|e later IH]; intros l H; [done|]. cbn [foldl]. apply IH.
    destruct l as [p d' u s b j]. cbn in H. subst d'. destruct e; cbn; try done.
    + destruct b; [done|]. unfold join_round. cbn. by destruct p.
    + destruct b as [b|]; [|done]. destruct (forallb _ b); [|done]. unfold join_round. cbn. by destruct p.
    + by destruct b.
  - subst l. induction es as [|e es IH] using rev_ind; [done|]. rewrite foldl_snoc.
    destruct (foldl _ _ es) as [p d u s b j]. cbn in IH. destruct e; cbn; try done.
    + destruct b; [done|]. unfold join_round. cbn. by destruct p.
    + destruct b as [b|]; [|done]. destruct (forallb _ b); [|done]. unfold join_round. cbn. destruct p; [done|]. by intros; apply IH.
    + by destruct b.
Qed.

(** ** Witnesses *)

(** The operation resolves in time; the timer that fires later is no longer armed. *)
Definition sample_wait_events : list (wait_event nat unit) := [Resolves 5%nat 3; TimerFires; Aborts (Because tt)].

Example await_exact_witness :
  exists w, awaitReplayOperation 0 StageStep 10 (Some None) sample_wait_events = Ok w /\
    w_outcome w = Some (Ok 5%nat) /\ (w_timer w = true <-> w_outcome w = None).
Proof.
  eexists. split; [vm_compute; reflexivity|].
  destruct (await_exact 0 StageStep 10 (Some None) sample_wait_events _ eq_refl) as (_ & Ho & Ht & _).
  split; [exact Ho|exact Ht].
Defined.

(** The timer of the wait fires before the timer of the call: the computer is not told. *)
Definition untold_events : list (invocation_event nat unit) := [WaitTimerFires; FinallyRuns; StepTimerFires; CallerAborts (Because tt)].

Example invoke_exact_witness :
  exists i, invoke_start (V := nat) (X := unit) (Some None) None = Ok i /\
    i_controller (invokeAsyncComputer 10 10 i untold_events) = None.
Proof.
  eexists. split; [reflexivity|].
  destruct (invoke_exact (V := nat) (X := unit) 10 10 (Some None) _ eq_refl [] WaitTimerFires [FinallyRuns; StepTimerFires; CallerAborts (Because tt)]
    (Forall_nil_2 _) eq_refl) as (_ & _ & H).
  exact (H eq_refl eq_refl).
Defined.
