(* ===== verification/Negotiated.v ===== *)
(** * Negotiated runs

    The callback runner of [src/src/negotiated.ts]: what is prepared before a
    transport is opened, the authorization of a replay by the first reply
    ([authorizeReply]) and [runNegotiatedReplay], which owns the binding and the
    transport of one run, with the entry points [runCallbackNegotiatedWithReport]
    and [runCallbackTracesWithReport].

    The factories of the application are values of the type [F] that the environment
    of a run calls; the environment also says when the control is aborted, what
    arrives and what throws. Reading a clock, timers and promises are not modelled:
    a wait ends with what the environment gives. *)

From S2P Require Import Prelude JsNumber Utf16 JsData StrictJson Decode ModelTypes Canonical Descriptor DescriptorFacts Contract Requests Digest Replies Protocol ClientMessages DynamicBinding DescriptorCache AdapterRegistry Negotiation MatchedEvidence ReplayReport ReplayCore Client.

Definition MIRRORECMA_TARGET_PROFILE : ustring := $"mirrorecma-v1".
Definition STATE_COMPUTER_CONTRACT_VERSION : ustring := $"mirrors.state-computer/v1".
Definition ASYNC_STATE_COMPUTER_CONTRACT_VERSION : ustring := $"mirrors.async-state-computer/v1".
Definition MIRRORECMA_ASYNC_TARGET_PROFILE : ustring := $"mirrorecma-async-v1".
Definition MIRRORECMA_ASYNC_TYPED_MAPS_TARGET_PROFILE : ustring := $"mirrorecma-async-v2".

(** ** Errors *)

Inductive run_error (X : Type) :=
| RunnerFailed (e : NegotiatedRunnerError)
| RegistrationFailed (code status message : ustring)
| CacheFailed (e : cache_error)
| BindingFailed (e : prepare_error)
| ReplayFailed (e : replay_error X).
Arguments RunnerFailed {X} e.
Arguments RegistrationFailed {X} code status message.
Arguments CacheFailed {X} e.
Arguments BindingFailed {X} e.
Arguments ReplayFailed {X} e.

Definition runner_code_name (c : NegotiatedRunnerErrorCode) : ustring :=
  lit match c with
  | negotiation_missing => "negotiation_missing"
  | descriptor_schema_unsupported => "descriptor_schema_unsupported"
  | descriptor_digest_invalid => "descriptor_digest_invalid"
  | descriptor_missing => "descriptor_missing"
  | not_modified_without_cache => "not_modified_without_cache"
  | negotiation_status_unexpected => "negotiation_status_unexpected"
  | adapter_not_registered => "adapter_not_registered"
  | adapter_ambiguous => "adapter_ambiguous"
  | target_profile_mismatch => "target_profile_mismatch"
  | state_computer_contract_mismatch => "state_computer_contract_mismatch"
  | interface_digest_mismatch => "interface_digest_mismatch"
  | AdapterRegistry.binding_digest_mismatch => "binding_digest_mismatch"
  | binding_config_mismatch => "binding_config_mismatch"
  | adapter_factory_failed => "adapter_factory_failed"
  | adapter_dispose_failed => "adapter_dispose_failed"
  | legacy_fallback_unavailable => "legacy_fallback_unavailable"
  end.

Definition binding_code_name (c : DynamicBindingErrorCode) : ustring :=
  lit match c with
  | DynamicBinding.binding_digest_mismatch => "binding_digest_mismatch"
  | handler_missing => "handler_missing"
  | handler_extra => "handler_extra"
  | observer_missing => "observer_missing"
  | observer_extra => "observer_extra"
  | descriptor_type_unsupported => "descriptor_type_unsupported"
  | configuration_mismatch => "configuration_mismatch"
  | unknown_action => "unknown_action"
  | transition_before_initialization => "transition_before_initialization"
  | input_shape_mismatch => "input_shape_mismatch"
  | adapter_failure => "adapter_failure"
  | observation_shape_mismatch => "observation_shape_mismatch"
  | binding_poisoned => "binding_poisoned"
  | binding_disposed => "binding_disposed"
  | binding_aborted => "binding_aborted"
  end.

Definition cache_code_name (c : DescriptorCacheErrorCode) : ustring :=
  lit match c with
  | descriptor_cache_invalid_options => "descriptor_cache_invalid_options"
  | descriptor_cache_entry_too_large => "descriptor_cache_entry_too_large"
  | descriptor_cache_corrupt => "descriptor_cache_corrupt"
  | descriptor_cache_miss => "descriptor_cache_miss"
  end.

(** ** Selections *)

Inductive execution := ExecSync | ExecAsync.

(** [cs_semanticDigest] and [cs_contract] are those of the generated [metadata]. *)
Record CompiledAdapterSelection (F : Type) := CompiledSelection {
  cs_request : option ustring;
  cs_semanticDigest : ustring;
  cs_contract : js;
  cs_adapterId : ustring;
  cs_targetProfile : ustring;
  cs_stateComputerContractVersion : ustring;
  cs_registry : list (CompiledAdapterKey * F);
  cs_policy : option ustring;
  cs_fallbackFactory : option F }.
Arguments CompiledSelection {F}.
Arguments cs_request {F} c.
Arguments cs_semanticDigest {F} c.
Arguments cs_contract {F} c.
Arguments cs_adapterId {F} c.
Arguments cs_targetProfile {F} c.
Arguments cs_stateComputerContractVersion {F} c.
Arguments cs_registry {F} c.
Arguments cs_policy {F} c.
Arguments cs_fallbackFactory {F} c.

(** A registry at hand, or [createRegistry] with the digest it announces. *)
Inductive registry_source := OwnRegistry (registry : DynamicHandlerRegistry) | CreatedRegistry (semanticDigest : ustring).

Definition source_digest (source : registry_source) : ustring :=
  match source with OwnRegistry registry => hr_semanticDigest registry | CreatedRegistry d => d end.

Record DynamicHandlerSelection (F : Type) := DynamicSelection {
  ds_request : option ustring;
  ds_contract : js;
  ds_source : registry_source;
  ds_policy : option ustring;
  ds_fallbackFactory : option F }.
Arguments DynamicSelection {F}.
Arguments ds_request {F} d.
Arguments ds_contract {F} d.
Arguments ds_source {F} d.
Arguments ds_policy {F} d.
Arguments ds_fallbackFactory {F} d.

Inductive NegotiatedAdapterSelection (F : Type) :=
| SelectCompiled (s : CompiledAdapterSelection F)
| SelectDynamic (s : DynamicHandlerSelection F).
Arguments SelectCompiled {F} s.
Arguments SelectDynamic {F} s.

Inductive PreparedSelection (F : Type) :=
| PreparedAdapter (key : CompiledAdapterKey) (factory : F) (policy : ustring) (fallbackFactory : option F)
| PreparedDynamic (semanticDigest : ustring) (source : registry_source) (ifNoneMatch : option ustring)
    (policy : ustring) (fallbackFactory : option F).
Arguments PreparedAdapter {F} key factory policy fallbackFactory.
Arguments PreparedDynamic {F} semanticDigest source ifNoneMatch policy fallbackFactory.

Section runner.
Context (number_text : number -> ustring) (sha256 : list N -> ustring) {F X : Type}.
Context (foreign_code foreign_message : X -> option ustring) (foreign_object : X -> bool).
Implicit Types (c : cache) (prepared : PreparedSelection F).
Abbreviation error := (run_error X).

Definition runner {A} (code : NegotiatedRunnerErrorCode) (message : ustring) : res error A :=
  Err (RunnerFailed (runnerError code message)).
Definition ordinary {A} (r : res exn A) : res error A :=
  match r with Ok a => Ok a | Err e => Err (ReplayFailed (Thrown e)) end.

Definition policy_of_prepared prepared : ustring :=
  match prepared with PreparedAdapter _ _ policy _ | PreparedDynamic _ _ _ policy _ => policy end.
Definition fallback_of prepared : option F :=
  match prepared with PreparedAdapter _ _ _ fb | PreparedDynamic _ _ _ _ fb => fb end.
Definition is_compiled prepared : bool :=
  match prepared with PreparedAdapter _ _ _ _ => true | PreparedDynamic _ _ _ _ _ => false end.

(** ** Preparation *)

Definition is_async_target (targetProfile : ustring) : bool :=
  bool_decide (targetProfile = MIRRORECMA_ASYNC_TARGET_PROFILE) ||
  bool_decide (targetProfile = MIRRORECMA_ASYNC_TYPED_MAPS_TARGET_PROFILE).

Definition execution_name (e : option execution) : ustring :=
  match e with None => $"callback" | Some ExecSync => $"sync" | Some ExecAsync => $"async" end.

Definition selectedKey (selection : CompiledAdapterSelection F) (e : option execution) : res error CompiledAdapterKey :=
  let target := cs_targetProfile selection in
  let syncTarget := bool_decide (target = MIRRORECMA_TARGET_PROFILE) in
  let asyncTarget := is_async_target target in
  if (negb syncTarget && negb asyncTarget) ||
     match e with Some ExecSync => negb syncTarget | Some ExecAsync => negb asyncTarget | None => false end
  then runner target_profile_mismatch
         ($"unsupported target profile " ++ target ++ $" for " ++ execution_name e ++ $" execution")
  else
    let expectedContract :=
      if syncTarget then STATE_COMPUTER_CONTRACT_VERSION else ASYNC_STATE_COMPUTER_CONTRACT_VERSION in
    if bool_decide (cs_stateComputerContractVersion selection = expectedContract) then
      digest ← ordinary (semanticDigestFromHex (cs_semanticDigest selection));
      mret (AdapterKey digest (cs_adapterId selection) target (cs_stateComputerContractVersion selection))
    else runner state_computer_contract_mismatch
           ($"target profile " ++ target ++ $" requires StateComputer contract " ++ expectedContract).

(** [request !== undefined && request !== mode] *)
Definition other_mode (request : option ustring) (mode : string) : bool :=
  match request with None => false | Some r => negb (bool_decide (r = lit mode)) end.

Definition prepareAdapter (selection : CompiledAdapterSelection F) (policy : ustring) (e : option execution)
    : res error (PreparedSelection F) :=
  if other_mode (cs_request selection) "verify"
  then runner negotiation_status_unexpected ($"compiled selection requires verify mode")
  else
    key ← selectedKey selection e;
    factory ← match resolve (cs_registry selection) key with Ok f => Ok f | Err e => Err (RunnerFailed e) end;
    mret (PreparedAdapter key factory policy (cs_fallbackFactory selection)).

Definition prepareDynamic (selection : DynamicHandlerSelection F) : res error (PreparedSelection F) :=
  if other_mode (ds_request selection) "descriptor"
  then runner negotiation_status_unexpected ($"dynamic selection requires descriptor mode")
  else
    digest ← ordinary (semanticDigestFromHex (source_digest (ds_source selection)));
    mret (PreparedDynamic digest (ds_source selection) None (default ($"require") (ds_policy selection))
            (ds_fallbackFactory selection)).

Definition expectedDigest prepared : ustring :=
  match prepared with
  | PreparedAdapter key _ _ _ => AdapterRegistry.semanticDigest key
  | PreparedDynamic digest _ _ _ _ => digest
  end.

(** [ifNoneMatch] as the [try] leaves it. *)
Definition validator (c : cache) (digest : ustring) : res error (option ustring) * cache :=
  match get_entry sha256 c digest with
  | (Ok (Some _), c) => (Ok (Some digest), c)
  | (Ok None, c) | (Err (DescriptorCacheError _ _), c) => (Ok None, c)
  | (Err (DecodeError e), c) => (Err (CacheFailed (DecodeError e)), c)
  end.

Definition correlated prepared (ifNoneMatch : option ustring) : PreparedSelection F :=
  match prepared with
  | PreparedAdapter _ _ _ _ => prepared
  | PreparedDynamic digest source _ policy fb => PreparedDynamic digest source ifNoneMatch policy fb
  end.

Definition prepareNegotiation (selection : NegotiatedAdapterSelection F) (c : cache)
    : res error (ModelInterfaceRequest * PreparedSelection F) * cache :=
  match selection with
  | SelectCompiled s =>
      (request ← ordinary (createVerifyRequest (cs_semanticDigest s) (cs_contract s) (default ($"require") (cs_policy s)));
       prepared ← prepareAdapter s (policy_name (rq_policy request)) None;
       mret (request, prepared), c)
  | SelectDynamic s =>
      match prepareDynamic s with
      | Err e => (Err e, c)
      | Ok prepared =>
          match validator c (expectedDigest prepared) with
          | (Err e, c) => (Err e, c)
          | (Ok ifNoneMatch, c) =>
              let prepared := correlated prepared ifNoneMatch in
              (request ← ordinary (createDescriptorRequest (ds_contract s)
                 (MkOptions (Some (policy_of_prepared prepared)) (Some (expectedDigest prepared)) ifNoneMatch None));
               mret (request, prepared), c)
          end
      end
  end.

(** ** Authorization *)

Inductive ReplayAuthorization := AuthCompiled | AuthDynamic (descriptor : SemanticDescriptor) | AuthFallback.

Definition prefers prepared : bool := bool_decide (policy_of_prepared prepared = $"prefer").

Definition reply_status (reply : ModelInterfaceReply) : ustring :=
  lit match reply with
  | Matched _ => "matched" | Resolved _ _ _ => "resolved" | NotModified _ => "not_modified"
  | TooLarge _ _ => "too_large" | Replies.Mismatch _ _ _ => "mismatch" | Unsupported => "unsupported"
  | Unavailable => "unavailable"
  end.

(** The statuses that give no model: [unsupported], [unavailable], [too_large]. *)
Definition without_model prepared (reply : ModelInterfaceReply) (code : NegotiatedRunnerErrorCode)
    : res error ReplayAuthorization :=
  if negb (prefers prepared) then runner code ($"model-interface negotiation " ++ reply_status reply)
  else match fallback_of prepared with
       | None => runner legacy_fallback_unavailable
           ($"model-interface negotiation " ++ reply_status reply ++ $" requires an explicit fallback factory")
       | Some _ => Ok AuthFallback
       end.

Definition invalid_status {A} (reply : ModelInterfaceReply) (request : string) : res error A :=
  runner negotiation_status_unexpected
    ($"model-interface status " ++ reply_status reply ++ $" is invalid for a " ++ lit request ++ $" request").

Definition authorize_resolved (digest : ustring) (i : identity) (descriptor : SemanticDescriptor) (c : cache)
    : res error ReplayAuthorization * cache :=
  if negb (bool_decide (id_semanticDigest i = digest))
  then (runner interface_digest_mismatch ($"resolved descriptor digest does not match the dynamic registry"), c)
  else
    match put sha256 c (descriptor_js descriptor) with
    | (Err e, c) => (Err (CacheFailed e), c)
    | (Ok cached, c) =>
        (if negb (bool_decide (cd_digest cached = digest))
         then runner descriptor_digest_invalid ($"cached resolved descriptor digest changed")
         else Ok (AuthDynamic (cd_descriptor cached)), c)
    end.

Definition authorize_not_modified (digest : ustring) (ifNoneMatch : option ustring) (i : identity) (c : cache)
    : res error ReplayAuthorization * cache :=
  if negb (bool_decide (id_semanticDigest i = digest))
  then (runner interface_digest_mismatch ($"cached descriptor digest does not match the dynamic registry"), c)
  else if negb (bool_decide (ifNoneMatch = Some (id_semanticDigest i)))
  then (runner negotiation_status_unexpected
          ($"not_modified does not correlate to the descriptor validator sent in this request"), c)
  else
    match require_entry sha256 c (id_semanticDigest i) with
    | (Ok cached, c) => (Ok (AuthDynamic (cd_descriptor cached)), c)
    | (Err (DescriptorCacheError _ _), c) =>
        (runner not_modified_without_cache
           ($"not_modified requires a present digest-valid descriptor cache entry"), c)
    | (Err (DecodeError e), c) => (Err (CacheFailed (DecodeError e)), c)
    end.

Definition authorizeReply prepared (reply : option ModelInterfaceReply) (c : cache)
    : res error ReplayAuthorization * cache :=
  match reply with
  | None =>
      (if negb (prefers prepared)
       then runner negotiation_missing ($"model-interface negotiation reply is missing")
       else match fallback_of prepared with
            | None => runner legacy_fallback_unavailable
                ($"old server requires an explicit fallback factory under prefer")
            | Some _ => Ok AuthFallback
            end, c)
  | Some reply =>
      match reply, prepared with
      | TooLarge _ _, PreparedAdapter _ _ _ _ => (invalid_status reply "compiled verify", c)
      | Unsupported, _ => (without_model prepared reply descriptor_schema_unsupported, c)
      | Unavailable, _ | TooLarge _ _, _ => (without_model prepared reply negotiation_status_unexpected, c)
      | Matched _, PreparedDynamic _ _ _ _ _ => (invalid_status reply "dynamic descriptor", c)
      | Matched i, PreparedAdapter key _ _ _ =>
          (if negb (bool_decide (id_semanticDigest i = AdapterRegistry.semanticDigest key))
           then runner interface_digest_mismatch ($"server semantic digest does not match the compiled interface")
           else Ok AuthCompiled, c)
      | (Resolved _ _ _ | NotModified _), PreparedAdapter _ _ _ _ => (invalid_status reply "compiled verify", c)
      | Resolved i _ descriptor, PreparedDynamic digest _ _ _ _ => authorize_resolved digest i descriptor c
      | NotModified i, PreparedDynamic digest _ ifNoneMatch _ _ => authorize_not_modified digest ifNoneMatch i c
      | Replies.Mismatch _ _ _, _ =>
          (runner interface_digest_mismatch
             ($"model-interface resolution did not match the requested semantic digest"), c)
      end
  end.

(** ** One run *)

(** A binding as the runner sees it: its digest, and whether
    [assertCompatibleConfig] returns for the configuration of the run. *)
Record CallbackLocalBinding := LocalBinding { lb_semanticDigest : ustring; lb_compatible : bool }.

(** What a factory does; what it throws is only kept as a cause. *)
Inductive produced := FactoryThrew | Produced (binding : CallbackLocalBinding).

(** What [createRegistry] returns. *)
Record DynamicRegistryScope := RegistryScope { sc_execution : execution; sc_registry : DynamicHandlerRegistry }.

(** What happens around a run. [e_interrupt] is the error of a wait for the first
    line that the control ends. *)
Record environment := Environment {
  e_ready : option X;
  e_aborted : option X;
  e_send : option X;
  e_first : received;
  e_interrupt : X;
  e_authorized : option X;
  e_call : F -> produced;
  e_createRegistry : SemanticDescriptor -> option DynamicRegistryScope;
  e_scoped : option X;
  e_bound : option X;
  e_turns : list (turn X);
  e_duration : number;
  e_dispose : option X;
  e_close : option X }.

(** What a run does to its transport, its factories and its binding. *)
Inductive run_act :=
| Connected
| RegistrationSent (line : ustring)
| FactoryCalled (factory : F)
| RegistryCreated (descriptor : SemanticDescriptor)
| ConfigAsserted
| BindingDisposed
| ScopeDisposed
| Closed.

Record run_state := RunState {
  rs_cache : cache;
  rs_binding : option CallbackLocalBinding;
  rs_scope : bool;
  rs_acts : list run_act;
  rs_core : core }.

Abbreviation run A := (method run_state error A).

Definition act (a : run_act) (s : run_state) : run_state :=
  RunState (rs_cache s) (rs_binding s) (rs_scope s) (rs_acts s ++ [a]) (rs_core s).
Definition set_binding (b : CallbackLocalBinding) (s : run_state) : run_state :=
  RunState (rs_cache s) (Some b) (rs_scope s) (rs_acts s) (rs_core s).
Definition set_scope (s : run_state) : run_state :=
  RunState (rs_cache s) (rs_binding s) true (rs_acts s) (rs_core s).

Definition returned {A} (r : res error A) : run A := fun s => (r, s).
Definition on_cache {A} (f : cache -> res error A * cache) : run A := fun s =>
  let '(r, c) := f (rs_cache s) in (r, RunState c (rs_binding s) (rs_scope s) (rs_acts s) (rs_core s)).

(** [control.assertActive()], or a send that throws. *)
Definition guarded (o : option X) : run unit :=
  match o with Some x => throws (ReplayFailed (Foreign x)) | None => mret tt end.

Definition first_error (interrupt : X) (e : neg_error) : error :=
  match e with
  | RunnerError e => RunnerFailed e
  | ModelInterfaceRegistrationError code status message => RegistrationFailed code status message
  | Interrupted _ => ReplayFailed (Foreign interrupt)
  | OtherError e => ReplayFailed (Thrown e)
  end.

Section environment.
Context (env : environment) (config : ApalacheConfig).

Definition first_reply (digest : ustring) : res error (MirrorMessage * option extension) :=
  match receiveNegotiatedFirstReply number_text sha256 (e_first env) false digest with
  | Ok decoded => Ok decoded
  | Err e => Err (first_error (e_interrupt env) e)
  end.

Definition reply_of (ext : option extension) : res error (option ModelInterfaceReply) :=
  match ext with
  | Some (ExtFailure _) =>
      runner negotiation_status_unexpected ($"spec_validated carried a registration failure")
  | Some (ExtReply r) => Ok (Some r)
  | None => Ok None
  end.

(** [createBinding], with the assignment of its result. *)
Definition createBinding (factory : F) (adapterId : ustring) : run unit :=
  _ ← modify (act (FactoryCalled factory));
  match e_call env factory with
  | FactoryThrew =>
      returned (runner adapter_factory_failed ($"adapter factory failed for " ++ adapterId))
  | Produced binding => modify (set_binding binding)
  end.

(** The binding of a descriptor to a registry, synchronous or not. *)
Definition bind_dynamic (descriptor : SemanticDescriptor) (registry : DynamicHandlerRegistry) : run unit :=
  match prepareBinding sha256 (descriptor_js descriptor) registry with
  | Err e => throws (BindingFailed e)
  | Ok (d, digest) =>
      modify (set_binding (LocalBinding digest
        match assertCompatibleConfig d (paramVars config) with Ok _ => true | Err _ => false end))
  end.

(** The branches over [authorization.kind]; the label is the result. *)
Definition bind prepared (authorization : ReplayAuthorization) : run ustring :=
  match authorization, prepared with
  | AuthCompiled, PreparedAdapter key factory _ _ =>
      _ ← createBinding factory (adapterId key);
      mret ($"adapter key for " ++ adapterId key)
  | AuthCompiled, _ => throws (ReplayFailed (plain ($"internal compiled authorization mismatch")))
  | AuthDynamic descriptor, PreparedDynamic _ source _ _ _ =>
      _ ← match source with
          | OwnRegistry registry => bind_dynamic descriptor registry
          | CreatedRegistry _ =>
              _ ← modify (act (RegistryCreated descriptor));
              match e_createRegistry env descriptor with
              | None => returned (runner adapter_factory_failed ($"dynamic registry factory failed"))
              | Some scope =>
                  _ ← modify set_scope;
                  _ ← guarded (e_scoped env);
                  bind_dynamic descriptor (sc_registry scope)
              end
          end;
      mret ($"dynamic registry")
  | AuthDynamic _, _ => throws (ReplayFailed (plain ($"internal dynamic authorization mismatch")))
  | AuthFallback, _ =>
      match fallback_of prepared with
      | None => throws (ReplayFailed (Thrown (Exn XType ($"factory is not a function"))))
      | Some factory =>
          _ ← createBinding factory
                match prepared with
                | PreparedAdapter key _ _ _ => adapterId key ++ $" legacy fallback"
                | PreparedDynamic _ _ _ _ _ => $"dynamic legacy fallback"
                end;
          mret match prepared with
               | PreparedAdapter key _ _ _ => $"legacy fallback for " ++ adapterId key
               | PreparedDynamic _ _ _ _ _ => $"dynamic legacy fallback"
               end
      end
  end.

Definition validateBinding (digest label : ustring) : run unit :=
  binding ← this rs_binding;
  match binding with
  | None => mret tt
  | Some b =>
      if negb (bool_decide (lb_semanticDigest b = digest))
      then returned (runner AdapterRegistry.binding_digest_mismatch ($"binding digest does not match " ++ label))
      else
        _ ← modify (act ConfigAsserted);
        if lb_compatible b then mret tt
        else returned (runner binding_config_mismatch
               ($"binding rejected the effective Apalache configuration for " ++ label))
  end.

(** [None]: the loop is waiting for a message. *)
Definition replay_bound : run (option ReplayReport) := fun s =>
  let '(x, s') := replayLoop number_text foreign_code foreign_message foreign_object (e_duration env) (e_turns env) (rs_core s) in
  (match x with
   | Waiting => Ok None
   | Completed rep => Ok (Some rep)
   | Failed e _ => Err (ReplayFailed e)
   end, RunState (rs_cache s) (rs_binding s) (rs_scope s) (rs_acts s) s').

(** The [try] of [runNegotiatedReplay]. *)
Definition negotiated_try prepared (registration : ustring) : run (option ReplayReport) :=
  _ ← guarded (e_aborted env);
  _ ← guarded (e_send env);
  _ ← modify (act (RegistrationSent registration));
  decoded ← returned (first_reply (expectedDigest prepared));
  reply ← returned (reply_of decoded.2);
  authorization ← on_cache (authorizeReply prepared reply);
  _ ← guarded (e_authorized env);
  label ← bind prepared authorization;
  _ ← guarded (e_bound env);
  _ ← validateBinding (expectedDigest prepared) label;
  replay_bound.

(** [describeReplayFailure] of an error of the runner. *)
Definition describe_run (e : error) : ReplayFailure :=
  match e with
  | RunnerFailed e => Failure (runner_code_name (code e)) (re_message e) None
  | RegistrationFailed code _ message => Failure code message None
  | CacheFailed (DescriptorCacheError code message) => Failure (cache_code_name code) message None
  | CacheFailed (DecodeError e) | BindingFailed (BadDescriptor e) => Failure ($"replay_failed") (exn_message e) None
  | BindingFailed (Refused e) => Failure (binding_code_name (db_code e)) (db_message e) None
  | ReplayFailed e => describeReplayFailure foreign_code foreign_message e
  end.

Definition failed_report (rep : ReplayReport) (e : error) : ReplayReport :=
  Report (rr_interfaceDigest rep) (rr_durationMs rep) (rr_tracesStarted rep) (rr_tracesCompleted rep)
    (rr_statesReported rep) (rr_statesMatched rep) (rr_stepsCompleted rep) (rr_actionCounts rep)
    (rr_sequenceCounts rep) (rr_droppedActionEvents rep) (rr_droppedSequenceEvents rep) (rr_truncated rep)
    (Some (describe_run e)).

(** [recorder.report(error)] *)
Definition run_report (r : recorder) (e : error) : res exn ReplayReport :=
  rep ← report number_text foreign_code foreign_message (e_duration env) None r;
  mret (failed_report rep e).

Definition attach_run (e : error) (rep : ReplayReport) : option ReplayReport :=
  match e with ReplayFailed (Foreign x) => if foreign_object x then Some rep else None | _ => Some rep end.

Inductive run_outcome :=
| RunWaiting
| RunCompleted (rep : ReplayReport)
| RunFailed (e : error) (attached : option ReplayReport).

(** The cleanup: the first of its errors, after the disposal and the close. *)
Definition cleanup (s : run_state) : option error * run_state :=
  let '(disposal, s) :=
    if bool_decide (rs_binding s <> None) || rs_scope s then
      (match e_dispose env with
       | Some _ => Some (RunnerFailed (runnerError adapter_dispose_failed ($"adapter binding disposal failed")))
       | None => None
       end, act (if bool_decide (rs_binding s <> None) then BindingDisposed else ScopeDisposed) s)
    else (None, s) in
  (match disposal with
   | Some e => Some e
   | None => (fun x => ReplayFailed (Foreign x)) <$> e_close env
   end, act Closed s).

(** An error of [recorder.report] in the [catch] leaves the function at once. *)
Definition settle_run (r : res error (option ReplayReport)) (s : run_state) : run_outcome * run_state :=
  match r with
  | Ok None => (RunWaiting, s)
  | Ok (Some rep) =>
      let '(e, s) := cleanup s in
      (match e with
       | None => RunCompleted rep
       | Some e => RunFailed e (attach_run e (failed_report rep e))
       end, s)
  | Err e =>
      match run_report (c_recorder (rs_core s)) e with
      | Err e' => (RunFailed (ReplayFailed (Thrown e')) None, s)
      | Ok rep => (RunFailed e (attach_run e rep), (cleanup s).2)
      end
  end.

Definition runNegotiatedReplay prepared (registration : ustring) (s : run_state) : run_outcome * run_state :=
  let '(r, s) := negotiated_try prepared registration s in settle_run r s.

(** The variables of a run over an open transport. *)
Definition run_start prepared (t : tracker) (c : cache) : run_state :=
  RunState c None false [Connected] (new_core t (new_recorder (Some (expectedDigest prepared)))).

(** [prepareNegotiation], the registration line, [resolveTransport] and the run. The
    result also says which transport acts there were and what the cache holds. *)
Definition run_registration (base : object_t) (selection : NegotiatedAdapterSelection F) (opts : ReplayOptions)
    (t : tracker) (c : cache) : run_outcome * list run_act * cache :=
  let prepared :=
    match ordinary (validateReplayOptions opts) with
    | Err e => (Err e, c)
    | Ok _ => prepareNegotiation selection c
    end in
  match prepared with
  | (Err e, c) => (RunFailed e None, [], c)
  | (Ok (request, prepared), c) =>
      match encodeModelInterfaceRegistration number_text base request with
      | Err e => (RunFailed (ReplayFailed (Thrown e)) None, [], c)
      | Ok registration =>
          match e_ready env with
          | Some x => (RunFailed (ReplayFailed (Foreign x)) None, [Connected; Closed], c)
          | None =>
              let '(outcome, s) := runNegotiatedReplay prepared registration (run_start prepared t c) in
              (outcome, rs_acts s, rs_cache s)
          end
      end
  end.

Definition base_object (m : ClientMessage) : object_t :=
  match message_object m with JObj o => o | _ => [] end.

Definition runCallbackNegotiatedWithReport (traces : TraceGenerationConfig) (spec : option ApalacheSpec) :=
  run_registration (base_object (Register config traces spec)).

Definition runCallbackTracesWithReport (tracePaths : list ustring) :=
  run_registration (base_object (RegisterTraces config tracePaths)).
End environment.
End runner.
