(* ===== verification/NegotiatedFacts.v ===== *)
(** * What a negotiated run guarantees

    Over the runner of [Negotiated]: on whose word a factory is called, that what a
    request offers as validator can be redeemed, and the cleanup of a run. *)

From S2P Require Import Prelude JsNumber Utf16 JsData StrictJson Decode JsText ModelTypes Canonical Descriptor DescriptorFacts Contract Requests Digest Replies Protocol ClientMessages DynamicBinding DescriptorCache AdapterRegistry Negotiation MatchedEvidence EvidenceFacts ReplayReport ReplayCore ReplayFacts Client Negotiated.

Section facts.
Context (number_text : number -> ustring) (sha256 : list N -> ustring) {F X : Type}.
Context (foreign_code foreign_message : X -> option ustring) (foreign_object : X -> bool).
Implicit Types (c : cache) (prepared : PreparedSelection F).

(** ** The cache *)

(** The descriptor decodes to itself and has the digest. *)
Definition verified (descriptor : SemanticDescriptor) (digest : ustring) : Prop :=
  decodeSemanticDescriptor (descriptor_js descriptor) = Ok descriptor /\
  semanticDescriptorDigest sha256 (descriptor_js descriptor) = Ok digest.

Lemma genuine_verified e : genuine sha256 e -> verified (ce_descriptor e) (ce_digest e).
Proof.
  unfold genuine, check_entry, cached. intros H.
  apply res_bind_Ok in H as (d & Hd & H). apply res_bind_Ok in H as (b & Hb & H).
  apply res_bind_Ok in H as (digest & Hs & H). apply res_bind_Ok in H as (u & _ & H).
  injection H as -> _ -> _. by split.
Qed.

Lemma put_gives c value r c' : cache_ok sha256 c -> put sha256 c value = (r, c') ->
  cache_ok sha256 c' /\ forall v, r = Ok v -> verified (cd_descriptor v) (cd_digest v).
Proof.
  intros Hc H. destruct (put_cases sha256 c value) as [(e & He & _)|(d & b & g & Hd & Hb & Hg & Hl & Hput & _)].
  - rewrite He in H. injection H as <- <-. by split.
  - pose proof (genuine_new sha256 _ _ _ _ Hd Hb Hg) as Hgen.
    pose proof (put_verified_ok sha256 c d b g Hc Hgen Hl) as (Hok & _ & Hv). rewrite Hput in H. rewrite H in Hok, Hv.
    cbn in Hok, Hv. split; [done|]. intros v ->. destruct Hv as (e & -> & Hdig & _ & Hmap).
    destruct (cache_entry sha256 _ _ _ Hok Hmap) as [_ He]. by apply genuine_verified.
Qed.

Lemma require_gives c d r c' : cache_ok sha256 c -> require_entry sha256 c d = (r, c') ->
  cache_ok sha256 c' /\ (forall v, r = Ok v -> verified (cd_descriptor v) d) /\
  (map_get (entries c) d <> None <-> exists v, r = Ok v).
Proof.
  intros Hc. unfold require_entry. rewrite (get_ok sha256 c d Hc). destruct (map_get (entries c) d) as [e|] eqn:Hg.
  - intros [= <- <-]. destruct (touch_ok sha256 c d e Hc Hg) as [Hok _]. split; [done|].
    destruct (cache_entry sha256 _ _ _ Hc Hg) as [-> He]. split; [|by split; [eexists|]].
    intros v [= <-]. by apply genuine_verified.
  - intros [= <- <-]. split; [done|]. split; [done|]. split; [done|by intros [v [=]]].
Qed.

Lemma validator_gives c d : cache_ok sha256 c ->
  exists o c', validator sha256 (X := X) c d = (Ok o, c') /\ cache_ok sha256 c' /\
    (o = Some d /\ map_get (entries c) d <> None /\ map_get (entries c') d <> None \/
     o = None /\ map_get (entries c) d = None /\ c' = c).
Proof.
  intros Hc. unfold validator. rewrite (get_ok sha256 c d Hc). destruct (map_get (entries c) d) as [e|] eqn:Hg.
  - destruct (touch_ok sha256 c d e Hc Hg) as [Hok _]. eexists _, _. split; [done|]. split; [done|]. left.
    split; [done|]. split; [done|]. unfold touch, with_entries. cbn [entries]. by rewrite map_get_delete_append.
  - eexists _, _. split; [done|]. split; [done|]. by right.
Qed.

(** ** The request *)

Lemma descriptor_request_mode contract policy d n r :
  is_digest d = true -> opt_digest n ->
  createDescriptorRequest contract (MkOptions (Some policy) (Some d) n None) = Ok r ->
  rq_mode r = RDescriptor (Some d) n /\ policy_name (rq_policy r) = policy.
Proof.
  intros Hd Hn. unfold createDescriptorRequest. cbn [op_expectedSemanticDigest op_ifNoneMatch op_policy op_acceptDescriptorSchemas default].
  rewrite !rendered_Ok by done. cbn [mbind res_mbind]. intros H. apply res_bind_Ok in H as (q & Hq & H).
  assert (r = q) as -> by (destruct (rq_mode q); [done|by injection H]). clear H.
  unfold decodeRequestValue in Hq. apply res_bind_Ok in Hq as (fields & Hf & Hq).
  apply exactObject_Ok in Hf as [[= <-] _]. apply res_bind_Ok in Hq as (u & _ & Hq).
  apply res_bind_Ok in Hq as (request & Hr & Hq). apply string_val_Ok in Hr as [Hr _].
  apply res_bind_Ok in Hq as (u' & _ & Hq). apply res_bind_Ok in Hq as (name & Hp & Hq).
  apply string_val_Ok in Hp as [Hp _]. apply res_bind_Ok in Hq as (pol & Hpol & Hq).
  apply one_of_Ok in Hpol. apply policy_of_Ok in Hpol. apply res_bind_Ok in Hq as (schemas & _ & Hq).
  match type of Hp with getf ?o _ = _ => set (fields := o) in * end.
  assert (getf fields ($"expectedSemanticDigest") = digest_field_of (Some d) /\
          getf fields ($"ifNoneMatch") = digest_field_of n /\ name = policy /\ request = $"descriptor")
    as (He & Hi & <- & ->).
  { subst fields. destruct n as [n|]; (split; [reflexivity|]; split; [reflexivity|]);
      (split; [|change (JStr ($"descriptor") = JStr request) in Hr; by injection Hr]);
      change (JStr policy = JStr name) in Hp; by injection Hp. }
  rewrite (digestField_run _ _ _ (Some d) Hd He), (digestField_run _ _ _ n Hn Hi) in Hq.
  cbn [mbind res_mbind] in Hq. apply res_bind_Ok in Hq as (m & Hm & Hq).
  apply res_bind_Ok in Hq as (inline & _ & Hq). apply res_bind_Ok in Hq as (c & _ & Hq). injection Hq as <-.
  cbn [rq_mode rq_policy]. split; [|done]. unfold decodeMode in Hm. by injection Hm as <-.
Qed.

(** ** Authorization *)

(** The answers that leave a run under [prefer] to its fallback. *)
Definition model_less prepared (reply : option ModelInterfaceReply) : Prop :=
  match reply with
  | None | Some Unsupported | Some Unavailable => True
  | Some (TooLarge _ _) => is_compiled prepared = false
  | _ => False
  end.

(** The answers that give a descriptor to a dynamic run. *)
Definition descriptor_reply prepared (reply : option ModelInterfaceReply) : Prop :=
  match prepared, reply with
  | PreparedDynamic digest _ _ _ _, Some (Resolved i _ _) => id_semanticDigest i = digest
  | PreparedDynamic digest _ ifNoneMatch _ _, Some (NotModified i) =>
      id_semanticDigest i = digest /\ ifNoneMatch = Some digest
  | _, _ => False
  end.

Definition authorized prepared (reply : option ModelInterfaceReply) (a : ReplayAuthorization) : Prop :=
  match a with
  | AuthCompiled => exists key f policy fb i, prepared = PreparedAdapter key f policy fb /\
      reply = Some (Matched i) /\ id_semanticDigest i = AdapterRegistry.semanticDigest key
  | AuthDynamic d => descriptor_reply prepared reply /\ verified d (expectedDigest prepared)
  | AuthFallback => policy_of_prepared prepared = $"prefer" /\ fallback_of prepared <> None /\ model_less prepared reply
  end.

Lemma without_model_Ok prepared reply code a :
  without_model (X := X) prepared reply code = Ok a ->
  a = AuthFallback /\ policy_of_prepared prepared = $"prefer" /\ fallback_of prepared <> None.
Proof.
  unfold without_model, prefers. case_bool_decide as Hp; cbn [negb]; [|done].
  destruct (fallback_of prepared); [|done]. by intros [= <-].
Qed.

Lemma authorize_gives prepared reply c r c' :
  cache_ok sha256 c -> authorizeReply sha256 (X := X) prepared reply c = (r, c') ->
  cache_ok sha256 c' /\ forall a, r = Ok a -> authorized prepared reply a.
Proof.
  intros Hc. destruct reply as [reply|]; cbn [authorizeReply].
  2: { intros [= <- <-]. split; [done|]. intros a. unfold prefers. case_bool_decide as Hp; cbn [negb]; [|done].
       destruct (fallback_of prepared) eqn:Hf; [|done]. intros [= <-]. cbn. by rewrite Hf. }
  destruct reply, prepared; intros H; try (injection H as <- <-; split; [done|]; intros a Ha);
    try done; try (apply without_model_Ok in Ha as (-> & ? & ?); done).
  - case_bool_decide as Hi; [|done]. injection Ha as <-. by do 5 eexists.
  - unfold authorize_resolved in H. case_bool_decide as Hi; cbn [negb] in H; [|by injection H as <- <-].
    destruct (put sha256 c _) as [[v|e] c1] eqn:Hp; destruct (put_gives _ _ _ _ Hc Hp) as [Hok Hv];
      injection H as <- <-; (split; [done|]); intros a Ha; [|done].
    revert Ha. case_bool_decide as Hd; [|done]. intros [= <-]. split; [done|]. cbn. rewrite <- Hd. by apply Hv.
  - unfold authorize_not_modified in H. case_bool_decide as Hi; cbn [negb] in H; [|by injection H as <- <-].
    case_bool_decide as Hm; cbn [negb] in H; [|by injection H as <- <-].
    destruct (require_entry sha256 c _) as [[v|[]] c1] eqn:Hp; destruct (require_gives _ _ _ _ Hc Hp) as (Hok & Hv & _);
      injection H as <- <-; (split; [done|]); intros a Ha; try done.
    injection Ha as <-. cbn. rewrite <- Hi. split; [by subst|]. by apply Hv.
Qed.

(** ** The exchange *)

Section run.
Context (env : environment (F := F) (X := X)) (config : ApalacheConfig).

(** The first line is a validated specification that carries this extension. *)
Definition first_accepted (ext : option extension) : Prop :=
  exists line, e_first env = ReceivedLine line /\
    decodeModelInterfaceMirrorMessage number_text sha256 line = Ok (SpecValidated Valid, ext).

Definition replied (reply : option ModelInterfaceReply) : Prop := first_accepted (ExtReply <$> reply).

(** On whose word a factory runs. *)
Definition factory_allowed prepared (f : F) : Prop :=
  (exists key policy fb i, prepared = PreparedAdapter key f policy fb /\
     id_semanticDigest i = AdapterRegistry.semanticDigest key /\ replied (Some (Matched i))) \/
  (fallback_of prepared = Some f /\ policy_of_prepared prepared = $"prefer" /\
     exists reply, model_less prepared reply /\ replied reply).

Definition registry_allowed prepared (d : SemanticDescriptor) : Prop :=
  (exists digest, exists source, exists m policy fb, prepared = PreparedDynamic digest (CreatedRegistry source) m policy fb) /\
  verified d (expectedDigest prepared) /\
  exists reply, descriptor_reply prepared reply /\ replied reply.

Definition cleaning (a : run_act (F := F)) : Prop := a = BindingDisposed \/ a = ScopeDisposed \/ a = Closed.

Definition act_allowed prepared (a : run_act (F := F)) : Prop :=
  ~ cleaning a /\
  match a with
  | FactoryCalled f => factory_allowed prepared f
  | RegistryCreated d => registry_allowed prepared d
  | _ => True
  end.

(** A binding that may compute. *)
Definition bound_right prepared (s : run_state (F := F)) : Prop :=
  exists b, rs_binding s = Some b /\ lb_semanticDigest b = expectedDigest prepared /\ lb_compatible b = true.

Record run_ok prepared (s : run_state (F := F)) : Prop := RunOk {
  ro_cache : cache_ok sha256 (rs_cache s);
  ro_acts : Forall (act_allowed prepared) (rs_acts s) }.

Definition quiet prepared (s : run_state (F := F)) : Prop := run_ok prepared s /\ c_log (rs_core s) = [].
Definition quiet_bound prepared (s : run_state (F := F)) : Prop := quiet prepared s /\ rs_binding s <> None.
Definition ended prepared (s : run_state (F := F)) : Prop :=
  run_ok prepared s /\ (c_log (rs_core s) <> [] -> bound_right prepared s).

Lemma quiet_ended prepared s : quiet prepared s -> ended prepared s.
Proof. intros [H Hl]. split; [done|]. by rewrite Hl. Qed.

Lemma act_quiet prepared a s : act_allowed prepared a -> quiet prepared s -> quiet prepared (act a s).
Proof. intros Ha [[Hc Hs] Hl]. split; [|done]. split; [done|]. cbn. apply Forall_app. split; [done|by constructor]. Qed.

Abbreviation keeps m := (triple (quiet _) m (fun _ => quiet _) (fun _ => quiet _)).

Lemma guarded_quiet prepared (o : option X) :
  triple (quiet prepared) (guarded (F := F) o) (fun _ => quiet prepared) (fun _ => quiet prepared).
Proof. intros s Hs. by destruct o. Qed.

Lemma returned_quiet {A} prepared (r : res (run_error X) A) (Q : A -> Prop) :
  (forall a, r = Ok a -> Q a) ->
  triple (quiet prepared) (returned (F := F) r) (fun a s => Q a /\ quiet prepared s) (fun _ => quiet prepared).
Proof. intros HQ s Hs. unfold returned. destruct r as [a|e]; [|done]. split; [by apply HQ|done]. Qed.

Lemma first_reply_replied prepared decoded reply :
  first_reply number_text sha256 env (expectedDigest prepared) = Ok decoded ->
  reply_of (X := X) decoded.2 = Ok reply -> replied reply.
Proof.
  unfold first_reply, replied, first_accepted. destruct (receiveNegotiatedFirstReply _ _ _ _ _) as [[m ext]|e] eqn:E; [|done].
  intros [= <-]. apply first_reply_barrier in E as (-> & line & Hl & Hd).
  cbn [snd]. intros Hr. exists line. split; [done|]. rewrite Hd. f_equal. f_equal.
  destruct ext as [[r|f]|]; [by injection Hr as <-|done|by injection Hr as <-].
Qed.

Lemma createBinding_quiet prepared f label : factory_allowed prepared f ->
  triple (quiet prepared) (createBinding env f label) (fun _ => quiet_bound prepared) (fun _ => quiet prepared).
Proof.
  intros Hf. eapply (triple_bind _ _ _ (fun _ => quiet prepared)).
  - apply triple_modify. intros s. apply act_quiet. split; [|done]. by intros [?|[?|?]].
  - intros []. destruct (e_call env f); [intros s Hs; exact Hs|]. apply triple_modify.
    intros s [[? ?] ?]. split; [split; [split|]|]; done.
Qed.

Lemma bind_dynamic_quiet prepared d registry :
  triple (quiet prepared) (bind_dynamic (F := F) (X := X) sha256 config d registry)
    (fun _ => quiet_bound prepared) (fun _ => quiet prepared).
Proof.
  intros s [[? ?] ?]. unfold bind_dynamic. destruct (prepareBinding _ _ _) as [[? ?]|]; [|done]. split; [split; [split|]|]; done.
Qed.

Lemma bind_quiet prepared reply a : authorized prepared reply a -> replied reply ->
  triple (quiet prepared) (bind sha256 env config prepared a) (fun _ => quiet_bound prepared) (fun _ => quiet prepared).
Proof.
  intros Ha Hr. destruct a as [|d|]; cbn in Ha.
  - destruct Ha as (key & f & policy & fb & i & -> & -> & Hi). cbn [bind].
    eapply (triple_bind _ _ _ (fun _ => quiet_bound _)); [|by intros []; apply triple_ret].
    apply createBinding_quiet. left. by do 4 eexists.
  - destruct Ha as [Hd Hv]. destruct prepared as [|digest source m policy fb]; [done|]. cbn [bind].
    eapply (triple_bind _ _ _ (fun _ => quiet_bound _)); [|by intros []; apply triple_ret].
    destruct source as [registry|digest']; [apply bind_dynamic_quiet|].
    set (prep := PreparedDynamic digest (CreatedRegistry digest') m policy fb) in *.
    eapply (triple_bind _ _ _ (fun _ => quiet prep)).
    { apply triple_modify. intros s. apply act_quiet. split; [by intros [?|[?|?]]|].
      split; [by exists digest, digest', m, policy, fb|]. split; [done|]. by eexists. }
    intros []. destruct (e_createRegistry env d) as [scope|]; [|by intros s Hs].
    eapply (triple_bind _ _ _ (fun _ => quiet prep)); [apply triple_modify; by intros s [[? ?] ?]|intros []].
    eapply (triple_bind _ _ _ (fun _ => quiet prep)); [apply guarded_quiet|intros []].
    apply bind_dynamic_quiet.
  - destruct Ha as (Hp & Hf & Hm). unfold bind. destruct (fallback_of prepared) as [f|] eqn:Ef; [|done].
    eapply (triple_bind _ _ _ (fun _ => quiet_bound _)); [|by intros []; apply triple_ret].
    apply createBinding_quiet. right. split; [done|]. split; [done|]. by exists reply.
Qed.

(** The replay starts on a binding of the expected digest that takes the configuration. *)
Lemma validateBinding_quiet prepared label :
  triple (quiet_bound prepared) (validateBinding (X := X) (expectedDigest prepared) label)
    (fun _ s => quiet prepared s /\ bound_right prepared s) (fun _ => quiet prepared).
Proof.
  intros s [Hs Hb]. unfold validateBinding, this, mbind, method_mbind. destruct (rs_binding s) as [b|] eqn:Eb; [|done].
  case_bool_decide as Hd; cbn [negb]; [|done].
  assert (quiet prepared (act ConfigAsserted s)) as Hq by (apply act_quiet; [split; [by intros [?|[?|?]]|done]|done]).
  cbn [modify]. destruct (lb_compatible b) eqn:El; [|done]. split; [done|]. by exists b.
Qed.

(** ** The whole try *)

Abbreviation attempt prepared registration :=
  (negotiated_try number_text sha256 foreign_code foreign_message foreign_object env config prepared registration).

Lemma negotiated_try_ended prepared registration :
  triple (quiet prepared) (attempt prepared registration) (fun r s => ended prepared s /\ rs_binding s <> None)
    (fun _ => ended prepared).
Proof.
  assert (forall P A (m : method run_state (run_error X) A) Q, triple P m Q (fun _ => quiet prepared) ->
    triple P m Q (fun _ => ended prepared)) as Hw.
  { intros P A m Q H. eapply triple_conseq; [exact H|done|done|]. intros ? s. apply quiet_ended. }
  unfold negotiated_try.
  eapply (triple_bind _ _ _ (fun _ => quiet prepared)); [apply Hw, guarded_quiet|intros []].
  eapply (triple_bind _ _ _ (fun _ => quiet prepared)); [apply Hw, guarded_quiet|intros []].
  eapply (triple_bind _ _ _ (fun _ => quiet prepared)).
  { apply triple_modify. intros s. apply act_quiet. split; [by intros [?|[?|?]]|done]. }
  intros [].
  set (sound := fun decoded : MirrorMessage * option extension =>
    forall reply, reply_of (X := X) decoded.2 = Ok reply -> replied reply).
  eapply (triple_bind _ _ _ (fun decoded s => sound decoded /\ quiet prepared s)).
  { apply Hw, returned_quiet. intros a Ha reply. by apply first_reply_replied with prepared. }
  intros decoded. eapply triple_pure; [intros s Hs; exact Hs|]. intros Hdecoded.
  eapply (triple_bind _ _ _ (fun reply s => replied reply /\ quiet prepared s)).
  { apply Hw, returned_quiet. intros a. apply Hdecoded. }
  intros reply. eapply triple_pure; [intros s Hs; exact Hs|]. intros Hreply.
  eapply (triple_bind _ _ _ (fun a s => authorized prepared reply a /\ quiet prepared s)).
  { apply Hw. intros s [[Hc Ha] Hl]. unfold on_cache.
    destruct (authorizeReply sha256 prepared reply (rs_cache s)) as [r c] eqn:E.
    destruct (authorize_gives _ _ _ _ _ Hc E) as [Hok Hr]. destruct r as [a|e]; [|done].
    split; [by apply Hr|done]. }
  intros a. eapply triple_pure; [intros s Hs; exact Hs|]. intros Hauth.
  eapply (triple_bind _ _ _ (fun _ => quiet prepared)); [apply Hw, guarded_quiet|intros []].
  eapply (triple_bind _ _ _ (fun _ => quiet_bound prepared)); [apply Hw; by eapply bind_quiet|intros label].
  eapply (triple_bind _ _ _ (fun _ => quiet_bound prepared)).
  { intros s [Hs Hb]. unfold guarded. destruct (e_bound env); [by apply quiet_ended|done]. }
  intros []. eapply (triple_bind _ _ _ (fun _ s => quiet prepared s /\ bound_right prepared s)); [apply Hw, validateBinding_quiet|].
  intros [] s [[Hs Hl] Hb]. unfold replay_bound. destruct (replayLoop _ _ _ _ _ _ _) as [x s'].
  destruct Hb as (b & Hb & Hd & Hc).
  assert (ended prepared (RunState (rs_cache s) (rs_binding s) (rs_scope s) (rs_acts s) s')) as He.
  { destruct Hs as [Hcache Hacts]. split; [by split|]. intros _. by exists b. }
  destruct x; [|..|exact He]; (split; [exact He|]); cbn [rs_binding]; by rewrite Hb.
Qed.

(** ** The cleanup *)

Definition disposal (s : run_state (F := F)) : list (run_act (F := F)) :=
  match rs_binding s with
  | Some _ => [BindingDisposed]
  | None => if rs_scope s then [ScopeDisposed] else []
  end.

Lemma cleanup_spec s :
  let s' := RunState (rs_cache s) (rs_binding s) (rs_scope s) (rs_acts s ++ disposal s ++ [Closed]) (rs_core s) in
  cleanup env s =
    (match disposal s, e_dispose env with
     | _ :: _, Some _ => Some (RunnerFailed (runnerError adapter_dispose_failed ($"adapter binding disposal failed")))
     | _, _ => (fun x => ReplayFailed (Foreign x)) <$> e_close env
     end, s').
Proof.
  destruct s as [c [b|] scope acts k]; unfold cleanup, disposal, act; cbn [rs_binding rs_scope rs_cache rs_acts rs_core].
  - rewrite bool_decide_eq_true_2 by done. cbn [orb rs_binding rs_scope rs_cache rs_acts rs_core]. rewrite <- app_assoc.
    by destruct (e_dispose env).
  - rewrite bool_decide_eq_false_2 by tauto. cbn [orb]. destruct scope; cbn [rs_binding rs_scope rs_cache rs_acts rs_core app].
    + rewrite <- app_assoc. by destruct (e_dispose env).
    + done.
Qed.

(** Every label of the recorder has a text: the report can be made. *)
Definition printable (s : run_state (F := F)) : Prop :=
  Forall (fun e => exists text, template_text number_text e.1 = Ok text) (actions (c_recorder (rs_core s))).

Lemma report_printable duration (e : option (replay_error X)) (s : run_state (F := F)) :
  (exists rep, report number_text foreign_code foreign_message duration e (c_recorder (rs_core s)) = Ok rep) <-> printable s.
Proof.
  unfold printable, report, action_counts. generalize (actions (c_recorder (rs_core s))). intros acts.
  assert ((exists l, mapM (fun e => (fun k => (k, JNum (num_of_Z e.2))) <$> template_text number_text e.1) acts = Ok l) <->
    Forall (fun e => exists text, template_text number_text e.1 = Ok text) acts) as Hm.
  { split.
    - intros [l H%mapM_res_Ok]. induction H as [|x y l k Hx _ IH]; constructor; [|done].
      destruct (template_text _ _); [by eexists|done].
    - induction 1 as [|x l [text Hx] _ [k IH]]; [by exists []|]. exists ((text, JNum (num_of_Z x.2)) :: k).
      cbn [mapM]. rewrite Hx. cbn [fmap res_fmap mbind res_mbind]. by rewrite IH. }
  rewrite <- Hm. clear Hm. destruct (mapM _ acts) as [l|x]; cbn [fmap res_fmap mbind res_mbind].
  - split; intros _; by eexists.
  - split; by intros [? [=]].
Qed.

(** *** Ending a run *)

Lemma replay_completed duration ts k rep k' :
  replayLoop number_text foreign_code foreign_message foreign_object duration ts k = (Completed rep, k') ->
  report number_text (X := X) foreign_code foreign_message duration None (c_recorder k') = Ok rep.
Proof.
  unfold replayLoop. destruct (replayCore _ _ _ _) as [[[r|]|e] k1].
  - unfold report_of, rejected, report_of. intros H.
    destruct (report _ _ _ _ None _) as [rep1|x] eqn:E; [by injection H as <- <-|].
    by destruct (report _ _ _ _ (Some _) _).
  - by intros [= ? ?].
  - unfold rejected. by destruct (report_of _ _ _ _ _ _).
Qed.

Lemma try_completed prepared registration s rep s' :
  attempt prepared registration s = (Ok (Some rep), s') -> printable s'.
Proof.
  unfold negotiated_try. intros H.
  repeat match goal with H : mbind _ _ _ = (Ok _, _) |- _ => apply method_bind_Ok in H as (? & ? & _ & H) end.
  unfold replay_bound in H. destruct (replayLoop _ _ _ _ _ _ _) as [end_ k] eqn:E.
  destruct end_; try done. injection H as <- <-. apply (report_printable (e_duration env) None).
  eexists. by eapply replay_completed.
Qed.

(** What [settle_run] makes of the end of the try. *)
Lemma settle_spec r s out s' :
  settle_run number_text foreign_code foreign_message foreign_object env r s = (out, s') ->
  (forall rep, r = Ok (Some rep) -> printable s) ->
  (r = Ok None /\ out = RunWaiting /\ s' = s) \/
  (printable s /\ s' = (cleanup env s).2 /\ r <> Ok None /\ out <> RunWaiting) \/
  (~ printable s /\ s' = s /\ exists e e', r = Err e /\ out = RunFailed (ReplayFailed (Thrown e')) None).
Proof.
  unfold settle_run. intros H Hp. destruct r as [[rep|]|e].
  - right; left. destruct (cleanup env s) as [e s1]. split; [by eapply Hp|].
    destruct e; injection H as <- <-; by split_and!.
  - left. by injection H as <- <-.
  - right. unfold run_report in H. pose proof (report_printable (e_duration env) None s) as Hr.
    destruct (report _ _ _ _ None _) as [rep|x]; cbn [mbind res_mbind] in H; injection H as <- <-.
    + left. split; [apply Hr; by eexists|]. by split_and!.
    + right. split; [intros Hx; apply Hr in Hx as [? [=]]|]. split; [done|]. by do 2 eexists.
Qed.
End run.

(** ** Theorems *)

Section theorems.
Context (env : environment (F := F) (X := X)) (config : ApalacheConfig) (prepared : PreparedSelection F).
Context (registration : ustring) (t : tracker) (c : cache).
Abbreviation run := (runNegotiatedReplay number_text sha256 foreign_code foreign_message foreign_object).

Lemma start_quiet : cache_ok sha256 c -> quiet env prepared (run_start prepared t c).
Proof. intros Hc. split; [|done]. split; [done|]. repeat constructor; by intros [?|[?|?]]. Qed.

Lemma cleanup_factories s a : ~ cleaning a -> a ∈ rs_acts (cleanup env s).2 -> a ∈ rs_acts s.
Proof.
  intros Ha. rewrite cleanup_spec. cbn [snd rs_acts]. rewrite !elem_of_app. intros [?|[H|H]]; [done|exfalso|exfalso].
  - apply Ha. unfold disposal in H. destruct (rs_binding s); [|destruct (rs_scope s)].
    + apply list_elem_of_singleton in H as ->. by left.
    + apply list_elem_of_singleton in H as ->. by right; left.
    + by apply elem_of_nil in H.
  - apply Ha. apply list_elem_of_singleton in H as ->. by right; right.
Qed.

(** C4: nothing of the application runs on the client's word alone. In a run over a
    consistent cache, a compiled factory is called only after a first line that
    validates the specification and matches the digest of its key; a fallback
    factory only if it was given explicitly, under the policy prefer, and after an
    answer without a model; a registry is created only for a descriptor that decodes,
    has the expected digest and was answered, or named as still current after this
    client had offered it; and messages are dispatched to a binding only if it has the
    expected digest and took the configuration. *)
Theorem negotiated_calls_authorized out s :
  cache_ok sha256 c ->
  run env config prepared registration (run_start prepared t c) = (out, s) ->
  (forall f, FactoryCalled f ∈ rs_acts s -> factory_allowed env prepared f) /\
  (forall d, RegistryCreated d ∈ rs_acts s -> registry_allowed env prepared d) /\
  (c_log (rs_core s) <> [] -> bound_right prepared s) /\
  cache_ok sha256 (rs_cache s).
Proof.
  intros Hc. unfold runNegotiatedReplay. pose proof (start_quiet Hc) as Hs.
  pose proof (negotiated_try_ended env config prepared registration _ Hs) as H.
  destruct (negotiated_try _ _ _ _ _ _ _ _ _ _) as [r s1] eqn:E. intros Hrun.
  assert (ended env prepared s1) as [[Hok Hacts] Hlog] by (destruct r; [by destruct H|done]). clear H.
  apply settle_spec in Hrun; [|intros rep ->; by eapply try_completed].
  assert ((forall a, ~ cleaning a -> a ∈ rs_acts s -> a ∈ rs_acts s1) /\ rs_core s = rs_core s1 /\
    rs_binding s = rs_binding s1 /\ rs_cache s = rs_cache s1) as (Ha & Hcore & Hb & Hcache).
  { destruct Hrun as [(_ & _ & ->)|[(_ & -> & _)|(_ & -> & _)]]; [done| |done].
    split; [intros a; apply cleanup_factories|]. by rewrite cleanup_spec. }
  rewrite Forall_forall in Hacts. unfold bound_right. rewrite Hcore, Hb, Hcache.
  split; [intros f Hf; by eapply (Hacts (FactoryCalled f)), Ha; [intros [?|[?|?]]|]|].
  split; [intros d Hd; by eapply (Hacts (RegistryCreated d)), Ha; [intros [?|[?|?]]|]|]. done.
Qed.

(** The same run with other ends of the disposal and the close. *)
Definition with_cleanup (d x : option X) : environment :=
  Environment (e_ready env) (e_aborted env) (e_send env) (e_first env) (e_interrupt env) (e_authorized env)
    (e_call env) (e_createRegistry env) (e_scoped env) (e_bound env) (e_turns env) (e_duration env) d x.

Lemma try_with_cleanup d x s :
  negotiated_try number_text sha256 foreign_code foreign_message foreign_object (with_cleanup d x) config prepared registration s =
  negotiated_try number_text sha256 foreign_code foreign_message foreign_object env config prepared registration s.
Proof. reflexivity. Qed.

Definition dispose_failed : run_error X :=
  RunnerFailed (runnerError adapter_dispose_failed ($"adapter binding disposal failed")).
Abbreviation attached e rep :=
  (attach_run foreign_object e (failed_report foreign_code foreign_message rep e)).

(** C14: the cleanup of a run that ends. If the labels the recorder holds can be
    printed, the binding, or the scope when no binding came of it, is disposed once
    and then the transport is closed once, last; an error of the run stays the error
    of the run, whatever disposal and close do, and of a completed run the first
    error of the cleanup is the error, with the report marked as failed. If a label
    cannot be printed, the run ends with that error and cleans nothing up. *)
Theorem negotiated_cleanup out s :
  cache_ok sha256 c ->
  run (with_cleanup None None) config prepared registration (run_start prepared t c) = (out, s) ->
  match out with
  | RunWaiting => Forall (fun a => ~ cleaning a) (rs_acts s)
  | RunCompleted rep => printable s /\ rs_binding s <> None /\
      forall d x, run (with_cleanup d x) config prepared registration (run_start prepared t c) =
        (match d, x with
         | Some _, _ => RunFailed dispose_failed (attached dispose_failed rep)
         | None, Some x => RunFailed (ReplayFailed (Foreign x)) (attached (ReplayFailed (Foreign x)) rep)
         | None, None => RunCompleted rep
         end, s)
  | RunFailed e a =>
      forall d x, run (with_cleanup d x) config prepared registration (run_start prepared t c) = (RunFailed e a, s)
  end /\
  (out <> RunWaiting ->
   (printable s /\ exists before, rs_acts s = before ++ disposal s ++ [Closed] /\ Forall (fun a => ~ cleaning a) before) \/
   (~ printable s /\ (exists e, out = RunFailed (ReplayFailed (Thrown e)) None) /\ Forall (fun a => ~ cleaning a) (rs_acts s))).
Proof.
  intros Hc. pose proof (negotiated_try_ended env config prepared registration _ (start_quiet Hc)) as H.
  destruct (negotiated_try _ _ _ _ _ _ _ _ _ _) as [r s1] eqn:E.
  assert (forall d x, run (with_cleanup d x) config prepared registration (run_start prepared t c) =
    settle_run number_text foreign_code foreign_message foreign_object (with_cleanup d x) r s1) as Hruns.
  { intros d x. unfold runNegotiatedReplay. by rewrite try_with_cleanup, E. }
  rewrite Hruns. intros Hrun.
  assert (Forall (fun a => ~ cleaning a) (rs_acts s1)) as Hacts.
  { assert (run_ok env prepared s1) as [_ Ha] by (destruct r; [by destruct H as [[? _] _]|by destruct H]).
    eapply Forall_impl; [exact Ha|]. by intros a [? _]. }
  assert (forall rep, r = Ok (Some rep) -> printable s1 /\ rs_binding s1 <> None) as Hrep.
  { intros rep ->. split; [by eapply try_completed|]. by destruct H. }
  split.
  - unfold settle_run in Hrun. rewrite cleanup_spec in Hrun.
    change (e_dispose (with_cleanup None None)) with (@None X) in Hrun.
    change (e_close (with_cleanup None None)) with (@None X) in Hrun.
    destruct r as [[rep|]|e].
    + destruct (Hrep rep eq_refl) as [Hp Hb].
      assert (disposal s1 = [BindingDisposed]) as Hd by (unfold disposal; by destruct (rs_binding s1)).
      rewrite Hd in *. cbn [fmap option_fmap option_map] in Hrun. injection Hrun as <- <-.
      split; [exact Hp|]. split; [exact Hb|]. intros d x. rewrite Hruns. unfold settle_run. rewrite cleanup_spec, Hd.
      by destruct d, x.
    + by injection Hrun as <- <-.
    + assert (forall d x, run_report number_text foreign_code foreign_message (with_cleanup d x) =
        run_report number_text foreign_code foreign_message env) as Hsame by done.
      rewrite Hsame in Hrun. destruct (run_report _ _ _ _ _ _) eqn:Er; injection Hrun as <- <-; intros d x;
        rewrite Hruns; unfold settle_run; by rewrite Hsame, Er, ?cleanup_spec.
  - intros Hout. apply settle_spec in Hrun; [|intros rep Hr; by destruct (Hrep rep Hr)].
    destruct Hrun as [(_ & -> & _)|[(Hp & -> & _)|(Hp & -> & e & e' & _ & ->)]]; [done| |].
    + left. rewrite cleanup_spec. split; [exact Hp|]. by exists (rs_acts s1).
    + right. split; [exact Hp|]. split; [by eexists|done].
Qed.

(** What a dynamic run offers as validator it can redeem. When the preparation
    succeeds over a consistent cache, the request asks for the digest of the registry
    and offers it as validator exactly when the cache holds it; then an answer
    not_modified is believed exactly if the validator was offered and is named, and
    always gives a verified descriptor. *)
Theorem validator_redeemed (selection : DynamicHandlerSelection F) request p c' :
  cache_ok sha256 c ->
  prepareNegotiation sha256 (X := X) (SelectDynamic selection) c = (Ok (request, p), c') ->
  let digest := source_digest (ds_source selection) in
  cache_ok sha256 c' /\ expectedDigest p = digest /\ policy_name (rq_policy request) = policy_of_prepared p /\
  rq_expected request = Some digest /\
  (rq_ifNoneMatch request = Some digest \/ rq_ifNoneMatch request = None) /\
  (rq_ifNoneMatch request = Some digest <-> map_get (entries c) digest <> None) /\
  forall i, match authorizeReply sha256 (X := X) p (Some (NotModified i)) c' with
            | (Ok a, _) => rq_ifNoneMatch request = Some (id_semanticDigest i) /\
                exists d, a = AuthDynamic d /\ verified d digest
            | (Err _, _) => rq_ifNoneMatch request <> Some (id_semanticDigest i)
            end.
Proof.
  intros Hc. cbv zeta. unfold prepareNegotiation, prepareDynamic.
  destruct (other_mode _ _); [done|]. destruct (semanticDigestFromHex _) as [digest|e] eqn:Ed; [|done].
  apply semanticDigestFromHex_Ok in Ed as [-> Hd]. set (digest := source_digest (ds_source selection)) in *.
  cbn [ordinary mbind res_mbind mret res_mret expectedDigest].
  destruct (validator_gives c digest Hc) as (o & c1 & -> & Hc1 & Ho).
  cbn [correlated policy_of_prepared expectedDigest].
  destruct (createDescriptorRequest _ _) as [q|e] eqn:Eq; [|done]. intros [= <- <- <-].
  assert (opt_digest o) as Hod by (by destruct Ho as [[-> _]|[-> _]]).
  destruct (descriptor_request_mode _ _ _ _ _ Hd Hod Eq) as [Hm Hp].
  unfold rq_expected, rq_ifNoneMatch. rewrite Hm.
  split; [done|]. split; [done|]. split; [done|]. split; [done|].
  split; [by destruct Ho as [[-> _]|[-> _]]; [left|right]|].
  split; [by destruct Ho as [(-> & ? & _)|(-> & -> & _)]|].
  intros i. cbn [authorizeReply]. unfold authorize_not_modified.
  case_bool_decide as Hi; cbn [negb].
  2: { destruct Ho as [(-> & _)|(-> & _)]; [congruence|done]. }
  case_bool_decide as Hv; cbn [negb]; [|done]. rewrite Hi in *.
  destruct (require_entry sha256 c1 digest) as [[v|[]] c2] eqn:Er; destruct (require_gives _ _ _ _ Hc1 Er) as (_ & Hver & Hin).
  { split; [done|]. eexists. split; [done|]. by apply Hver. }
  all: exfalso; destruct Ho as [(_ & _ & Hn)|(-> & _)]; [|done]; apply Hin in Hn as [? [=]].
Qed.
End theorems.
End facts.

(** ** Witnesses *)

Definition sample_key : CompiledAdapterKey :=
  AdapterKey (zero_hash []) ($"adapter") MIRRORECMA_TARGET_PROFILE STATE_COMPUTER_CONTRACT_VERSION.
Definition sample_compiled : PreparedSelection nat := PreparedAdapter sample_key 7%nat ($"require") None.

Definition sample_environment (ts : list (turn unit)) : environment (F := nat) :=
  Environment None None None (ReceivedLine sample_first_reply) tt None
    (fun _ => Produced (LocalBinding (zero_hash []) true)) (fun _ => None) None None ts (num_of_Z 7) None None.

Abbreviation sample_run ts :=
  (runNegotiatedReplay (fun _ => $"0.5") zero_hash (fun _ => None) (fun _ => None) (fun _ => false)
     (sample_environment ts) sample_config sample_compiled ($"{}")
     (run_start sample_compiled sample_setup.2 sample_cache)).

Lemma sample_cache_ok : cache_ok zero_hash sample_cache.
Proof. by apply (new_cache_ok zero_hash (Some (num_of_Z 2)) (Some (num_of_Z 100000))). Qed.

Definition is_completed {X} (o : run_outcome (X := X)) : bool := match o with RunCompleted _ => true | _ => false end.

Lemma sample_run_ok :
  is_completed (sample_run sample_turns).1 = true /\
  rs_acts (sample_run sample_turns).2 =
    [Connected; RegistrationSent ($"{}"); FactoryCalled 7%nat; ConfigAsserted; BindingDisposed; Closed].
Proof. split; vm_compute; reflexivity. Qed.

(** A run that completes, and one where the mirror labels an action with an object
    that has a [toString] of its own: it is not closed. *)
Definition unprintable_turns : list (turn unit) :=
  let line (fields : object_t) := ALine (compressed (JObj fields)) in
  let turn_of a := Turn a None (ReadyState []) None None None in
  [turn_of (line [($"proto_step", JStr ($"initial_state"));
                  ($"action", JObj [($"toString", JBool true)]); ($"state", JObj [])]);
   turn_of (line [($"proto_step", JStr ($"all_steps_done"))])].

Example unprintable_label_leaks :
  is_completed (sample_run unprintable_turns).1 = false /\
  rs_acts (sample_run unprintable_turns).2 =
    [Connected; RegistrationSent ($"{}"); FactoryCalled 7%nat; ConfigAsserted].
Proof. split; vm_compute; reflexivity. Qed.

Example negotiated_calls_authorized_witness :
  FactoryCalled 7%nat ∈ rs_acts (sample_run sample_turns).2 /\
  factory_allowed (fun _ => $"0.5") zero_hash (sample_environment sample_turns) sample_compiled 7%nat.
Proof.
  assert (FactoryCalled 7%nat ∈ rs_acts (sample_run sample_turns).2) as Hin.
  { rewrite (proj2 sample_run_ok). do 2 right. left. }
  split; [exact Hin|].
  destruct (negotiated_calls_authorized (fun _ => $"0.5") zero_hash (fun _ => None) (fun _ => None) (fun _ => false)
    (sample_environment sample_turns) sample_config sample_compiled ($"{}") sample_setup.2 sample_cache
    _ _ sample_cache_ok (surjective_pairing _)) as [H _].
  exact (H _ Hin).
Defined.

Example negotiated_cleanup_witness :
  printable (fun _ => $"0.5") (sample_run sample_turns).2 /\
  exists before, rs_acts (sample_run sample_turns).2 = before ++ disposal (sample_run sample_turns).2 ++ [Closed] /\
    Forall (fun a => ~ cleaning a) before.
Proof.
  destruct (negotiated_cleanup (fun _ => $"0.5") zero_hash (fun _ => None) (fun _ => None) (fun _ => false)
    (sample_environment sample_turns) sample_config sample_compiled ($"{}") sample_setup.2 sample_cache
    _ _ sample_cache_ok (surjective_pairing _)) as [_ H].
  destruct H as [H|(_ & (e & He) & _)].
  - intros H. pose proof (proj1 sample_run_ok) as Hc. change (is_completed (sample_run sample_turns).1 = true) in Hc.
    unfold is_completed in Hc. change (with_cleanup (sample_environment sample_turns) None None) with (sample_environment sample_turns) in H.
    rewrite H in Hc. discriminate Hc.
  - exact H.
  - exfalso. pose proof (proj1 sample_run_ok) as Hc. unfold is_completed in Hc.
    change (with_cleanup (sample_environment sample_turns) None None) with (sample_environment sample_turns) in He.
    rewrite He in Hc. discriminate Hc.
Defined.

Definition sample_dynamic : DynamicHandlerSelection nat :=
  DynamicSelection (Some ($"descriptor")) (contract_js sample_contract) (CreatedRegistry (zero_hash [])) None None.

Definition prepared_parts {X} (r : res (run_error X) (ModelInterfaceRequest * PreparedSelection nat) * cache)
    : ModelInterfaceRequest * PreparedSelection nat * cache :=
  match r with
  | (Ok (request, p), c) => (request, p, c)
  | (Err _, c) => (MkRequest PolicyRequire [] (RVerify []) sample_contract, sample_compiled, c)
  end.

Definition sample_prepared : ModelInterfaceRequest * PreparedSelection nat * cache :=
  prepared_parts (prepareNegotiation zero_hash (X := unit) (SelectDynamic sample_dynamic) filled_cache).

Lemma sample_prepared_ok :
  prepareNegotiation zero_hash (X := unit) (SelectDynamic sample_dynamic) filled_cache =
    (Ok (sample_prepared.1.1, sample_prepared.1.2), sample_prepared.2).
Proof. vm_compute. reflexivity. Qed.

Example validator_redeemed_witness :
  rq_ifNoneMatch sample_prepared.1.1 = Some (zero_hash []) /\
  expectedDigest sample_prepared.1.2 = zero_hash [] /\
  match authorizeReply zero_hash (X := unit) sample_prepared.1.2 (Some (NotModified (MkIdentity (zero_hash []) None))) sample_prepared.2 with
  | (Ok a, _) => exists d, a = AuthDynamic d /\ verified zero_hash d (zero_hash [])
  | (Err _, _) => False
  end.
Proof.
  assert (rq_ifNoneMatch sample_prepared.1.1 = Some (zero_hash [])) as Hm by (vm_compute; reflexivity).
  split; [exact Hm|].
  destruct (validator_redeemed zero_hash (X := unit) filled_cache sample_dynamic _ _ _
    (reachable_ok zero_hash _ filled_reachable) sample_prepared_ok) as (_ & Hd & _ & _ & _ & _ & Ha).
  split; [exact Hd|]. specialize (Ha (MkIdentity (zero_hash []) None)).
  destruct (authorizeReply _ _ _ _) as [[a|e] c']; [exact (proj2 Ha)|exact (Ha Hm)].
Defined.
