(* ===== verification/NegotiatedReport.v ===== *)
(** * Negotiated runs with a report

    [runCompiledReportReplay] of [src/src/negotiated.ts] and what is only used by it:
    the preparation of an asynchronous adapter, the reply it requires, its binding,
    and the cleanup that collects what fails. The waits are those of [Waits]: the
    environment gives how each of them ends. *)

From S2P Require Import Prelude JsNumber Utf16 JsData StrictJson JsText Decode ModelTypes Canonical Descriptor DescriptorFacts Digest Contract Requests Replies Protocol ClientMessages AdapterRegistry Negotiation DescriptorCache MatchedEvidence EvidenceFacts ReplayReport ReplayCore ReplayFacts Client DynamicBinding Waits Negotiated NegotiatedFacts.

(** ** Errors *)

Inductive report_error (X : Type) :=
| ReportRun (e : run_error X)
| ReportWait (e : wait_error X)
| ReplayThrownValueError (x : X)
| DisposeFailed (cause : wait_error X)
| ReplayCleanupError (cause : wait_error X)
| CleanupErrors (errors : list (report_error X)).
Arguments ReportRun {X} e.
Arguments ReportWait {X} e.
Arguments ReplayThrownValueError {X} x.
Arguments DisposeFailed {X} cause.
Arguments ReplayCleanupError {X} cause.
Arguments CleanupErrors {X} errors.

(** [AsyncCompiledExecutionSelection] has no [fallbackFactory]: the field is not read. *)
Inductive CompiledExecutionSelection (F : Type) :=
| ExecuteSync (s : CompiledAdapterSelection F)
| ExecuteAsync (s : CompiledAdapterSelection F).
Arguments ExecuteSync {F} s.
Arguments ExecuteAsync {F} s.

Section report.
Context (number_text : number -> ustring) (sha256 : list N -> ustring) {F X : Type}.
(** [is_error]: the value is an [Error]; [deadline_cause]: its [cause] is a deadline. *)
Context (is_error deadline_cause : X -> bool).
Abbreviation error := (report_error X).
Abbreviation waited A := (res (wait_error X) A).

Definition wait_failed (e : wait_error X) : error :=
  match e with OperationError x => ReportRun (ReplayFailed (Foreign x)) | _ => ReportWait e end.

Definition normalizeReplayFailure (e : error) : error :=
  match e with
  | ReportRun (ReplayFailed (Foreign x)) => if is_error x then e else ReplayThrownValueError x
  | _ => e
  end.

Definition in_run {A} (r : res (run_error X) A) : res error A :=
  match r with Ok a => Ok a | Err e => Err (ReportRun e) end.
Definition failing {A} (code : NegotiatedRunnerErrorCode) (message : ustring) : res error A :=
  Err (ReportRun (RunnerFailed (runnerError code message))).

(** ** Preparation *)

Definition prepareAsyncAdapter (s : CompiledAdapterSelection F) : res error (CompiledAdapterKey * F) :=
  if other_mode (cs_request s) "verify"
  then failing negotiation_status_unexpected ($"compiled selection requires verify mode")
  else if other_mode (cs_policy s) "require"
  then failing negotiation_status_unexpected ($"async execution requires negotiation policy require")
  else
    key ← in_run (selectedKey s (Some ExecAsync));
    match resolve (cs_registry s) key with
    | Ok f => Ok (key, f)
    | Err e => Err (ReportRun (RunnerFailed e))
    end.

Inductive prepared_execution := PreparedSync (p : PreparedSelection F) | PreparedAsync (key : CompiledAdapterKey) (factory : F).

Definition prepare_execution (selection : CompiledExecutionSelection F) : res error prepared_execution :=
  match selection with
  | ExecuteSync s =>
      PreparedSync <$> in_run (prepareAdapter s (default ($"require") (cs_policy s)) (Some ExecSync))
  | ExecuteAsync s => (fun p => PreparedAsync p.1 p.2) <$> prepareAsyncAdapter s
  end.

Definition expected (p : prepared_execution) : ustring :=
  match p with PreparedSync p => expectedDigest p | PreparedAsync key _ => AdapterRegistry.semanticDigest key end.

(** ** The reply of an asynchronous run *)

Definition requireAsyncMatchedReply (reply : option ModelInterfaceReply) (key : CompiledAdapterKey) : res error unit :=
  match reply with
  | None => failing negotiation_missing ($"model-interface negotiation reply is missing")
  | Some (Matched i) =>
      if negb (bool_decide (id_semanticDigest i = AdapterRegistry.semanticDigest key))
      then failing interface_digest_mismatch ($"server semantic digest does not match the compiled interface")
      else Ok tt
  | Some (Replies.Mismatch _ _ _) =>
      failing interface_digest_mismatch ($"model-interface resolution did not match the requested semantic digest")
  | Some Unsupported => failing descriptor_schema_unsupported ($"model-interface negotiation unsupported")
  | Some r =>
      failing negotiation_status_unexpected
        ($"model-interface status " ++ reply_status r ++ $" is invalid for an async compiled verify request")
  end.

(** ** One run *)

(** A factory under its wait: whether it was called at all, how the wait ended, and,
    when the wait failed, whether it gives a binding later. *)
Record factory_run := FactoryRun { fr_called : bool; fr_end : waited CallbackLocalBinding; fr_late : bool }.

(** The signal at the points it is looked at, what is thrown, how the waits end.
    [v_compatible] is the wait for [assertCompatibleConfig] of an asynchronous
    binding; [v_lifetime]: the run belongs to a suite. *)
Record report_environment := ReportEnvironment {
  v_registrationMs : option number;
  v_stepMs : option number;
  v_receiveMs : option number;
  v_cancelled : option (reason X);
  v_resolving : option (reason X);
  v_ready : option (waited unit);
  v_iterator : option X;
  v_sending : option (reason X);
  v_send : option X;
  v_first : received;
  v_interrupt : wait_error X;
  v_factory : F -> factory_run;
  v_compatible : waited unit;
  v_turns : list (turn X);
  v_coverage : option (waited object_t);
  v_dispose : waited unit;
  v_late : waited unit;
  v_close : waited unit;
  v_lifetime : bool }.

Inductive report_act :=
| TransportResolved
| ReportRegistered (line : ustring)
| ReportFactoryCalled (factory : F)
| CloseStarted
| ReportDisposed
| LateDisposed.

(** [p_late]: a factory is left behind; [p_late_binding]: it gives a binding later. *)
Record report_state := ReportState {
  p_binding : option CallbackLocalBinding;
  p_late : bool;
  p_late_binding : bool;
  p_acts : list report_act;
  p_core : core }.

Abbreviation run A := (method report_state error A).

Definition report_act_done (a : report_act) (s : report_state) : report_state :=
  ReportState (p_binding s) (p_late s) (p_late_binding s) (p_acts s ++ [a]) (p_core s).
Definition bound_to (b : CallbackLocalBinding) (s : report_state) : report_state :=
  ReportState (Some b) (p_late s) (p_late_binding s) (p_acts s) (p_core s).
Definition left_behind (late : bool) (s : report_state) : report_state :=
  ReportState (p_binding s) true late (p_acts s) (p_core s).

Definition given {A} (r : res error A) : run A := fun s => (r, s).
Definition not_cancelled (o : option (reason X)) : res error unit :=
  match throwIfReplayCancelled o with Ok u => Ok u | Err e => Err (ReportWait e) end.
Definition awaited {A} (r : waited A) : res error A :=
  match r with Ok a => Ok a | Err e => Err (wait_failed e) end.

Section environment.
Context (env : report_environment) (evidence : option evidence_config).

Definition report_options : core_options := CoreOptions evidence true false.

(** An interruption is passed on as it is. *)
Definition first_report_reply (digest : ustring) : res error (MirrorMessage * option extension) :=
  match receiveNegotiatedFirstReply number_text sha256 (v_first env) true digest with
  | Ok decoded => Ok decoded
  | Err (RunnerError e) => Err (ReportRun (RunnerFailed e))
  | Err (ModelInterfaceRegistrationError code status message) => Err (ReportRun (RegistrationFailed code status message))
  | Err (Interrupted _) => Err (wait_failed (v_interrupt env))
  | Err (OtherError e) => Err (ReportRun (ReplayFailed (Thrown e)))
  end.

(** [pendingFactory] and the wait for it. *)
Definition create (factory : F) (label : ustring) : run unit :=
  let r := v_factory env factory in
  _ ← (if fr_called r then modify (report_act_done (ReportFactoryCalled factory)) else mret tt);
  match fr_end r with
  | Ok binding => modify (bound_to binding)
  | Err e =>
      _ ← modify (left_behind (fr_late r));
      given match e with
            | OperationError _ => failing adapter_factory_failed ($"adapter factory failed for " ++ label)
            | _ => Err (ReportWait e)
            end
  end.

Definition validate_sync (digest label : ustring) : run unit :=
  binding ← this p_binding;
  match binding with
  | None => mret tt
  | Some b =>
      if negb (bool_decide (lb_semanticDigest b = digest))
      then given (failing AdapterRegistry.binding_digest_mismatch ($"binding digest does not match " ++ label))
      else if lb_compatible b then mret tt
      else given (failing binding_config_mismatch
             ($"binding rejected the effective Apalache configuration for " ++ label))
  end.

Definition validateAsyncBinding (key : CompiledAdapterKey) : run unit :=
  binding ← this p_binding;
  match binding with
  | None => mret tt
  | Some b =>
      if negb (bool_decide (lb_semanticDigest b = AdapterRegistry.semanticDigest key))
      then given (failing AdapterRegistry.binding_digest_mismatch ($"binding digest does not match async adapter key"))
      else
        given match v_compatible env with
              | Ok _ => Ok tt
              | Err (OperationError _) => failing binding_config_mismatch
                  ($"binding rejected the effective Apalache configuration for adapter key " ++ adapterId key)
              | Err e => Err (ReportWait e)
              end
  end.

Definition replay_report_core : run (option CompiledReplayReport) := fun s =>
  let '(r, k) := replayCore number_text report_options (v_turns env) (p_core s) in
  (match r with Ok o => Ok o | Err e => Err (ReportRun (ReplayFailed e)) end,
   ReportState (p_binding s) (p_late s) (p_late_binding s) (p_acts s) k).

(** The factory and its label a synchronous run goes on with. A compiled selection
    leaves the descriptor cache alone. *)
Definition sync_factory (p : PreparedSelection F) (reply : option ModelInterfaceReply) : res error (F * ustring) :=
  authorization ← in_run (authorizeReply sha256 p reply (MkCache 1 1 [] 0)).1;
  match authorization, p with
  | AuthCompiled, PreparedAdapter key factory _ _ => Ok (factory, $"adapter key for " ++ adapterId key)
  | AuthFallback, PreparedAdapter key _ _ (Some factory) => Ok (factory, $"legacy fallback for " ++ adapterId key)
  | _, _ => Err (ReportRun (ReplayFailed (plain ($"internal synchronous authorization mismatch"))))
  end.

Definition execute (p : prepared_execution) (reply : option ModelInterfaceReply) : run (option CompiledReplayReport) :=
  match p with
  | PreparedSync prepared =>
      chosen ← given (sync_factory prepared reply);
      _ ← create chosen.1 chosen.2;
      _ ← validate_sync (expected p) chosen.2;
      replay_report_core
  | PreparedAsync key factory =>
      _ ← given (requireAsyncMatchedReply reply key);
      _ ← create factory (adapterId key);
      _ ← validateAsyncBinding key;
      replay_report_core
  end.

(** The [try] of [runCompiledReportReplay]. *)
Definition report_try (p : prepared_execution) (registration : ustring) : run (option CompiledReplayReport) :=
  _ ← given (not_cancelled (v_sending env));
  _ ← given (match v_send env with Some x => Err (ReportRun (ReplayFailed (Foreign x))) | None => Ok tt end);
  _ ← modify (report_act_done (ReportRegistered registration));
  decoded ← given (first_report_reply (expected p));
  reply ← given (in_run (reply_of decoded.2));
  done ← execute p reply;
  match done with
  | None => mret None
  | Some r =>
      coverage ← given (match v_coverage env with
                        | None => Ok None
                        | Some w => Some <$> awaited w
                        end);
      mret (Some (replayReport (acceptedTraces r) (acceptedSteps r) coverage))
  end.

(** ** Cleanup *)

Definition closing (e : wait_error X) : error :=
  match e with ReplayDeadlineError _ _ => ReportWait e | _ => ReplayCleanupError e end.

(** [cleanupErrors], in their order. *)
Definition cleanup_errors (s : report_state) : list error :=
  let failed {A} (r : waited A) (f : wait_error X -> error) := match r with Ok _ => [] | Err e => [f e] end in
  (match p_binding s with Some _ => failed (v_dispose env) DisposeFailed | None => [] end) ++
  (if v_lifetime env && p_late s then failed (v_late env) wait_failed else []) ++
  failed (v_close env) closing.

(** The close is started first; a binding that comes late is disposed when it comes. *)
Definition cleanup_acts (s : report_state) : list report_act :=
  CloseStarted ::
  (match p_binding s with Some _ => [ReportDisposed] | None => [] end) ++
  (if p_late_binding s then [LateDisposed] else []).

Definition is_deadline (e : wait_error X) : bool := match e with ReplayDeadlineError _ _ => true | _ => false end.

(** What leaves [lifetime.unconfirmed] set. *)
Definition unconfirmed_error (e : error) : bool :=
  match e with
  | ReportWait w | DisposeFailed w | ReplayCleanupError w => is_deadline w
  | ReportRun (ReplayFailed (Foreign x)) => is_error x && deadline_cause x
  | _ => false
  end.

Definition collected (errors : list error) : option error :=
  match errors with [] => None | [e] => Some e | _ => Some (CleanupErrors errors) end.

(** [retained]: the cleanup failure kept with the primary error. *)
Inductive report_outcome :=
| ReportWaiting
| ReportDone (rep : CompiledReplayReport)
| ReportFailed (e : error) (retained : option error).

(** What a suite learns of the cleanup: failed, unconfirmed. *)
Definition lifetime_flags (errors : list error) : bool * bool :=
  if v_lifetime env then (negb (length errors =? 0)%nat, existsb unconfirmed_error errors) else (false, false).

Definition settle_report (r : res error (option CompiledReplayReport)) (s : report_state)
    : report_outcome * (bool * bool) * report_state :=
  match r with
  | Ok None => (ReportWaiting, (false, false), s)
  | _ =>
      let errors := cleanup_errors s in
      let s' := ReportState (p_binding s) (p_late s) (p_late_binding s) (p_acts s ++ cleanup_acts s) (p_core s) in
      (match r, collected errors with
       | Err e, kept => ReportFailed (normalizeReplayFailure e) kept
       | Ok _, Some e => ReportFailed e None
       | Ok (Some rep), None => ReportDone rep
       | Ok None, None => ReportWaiting
       end, lifetime_flags errors, s')
  end.

(** A failure before the [try], with [closeReportTransport]. *)
Definition abandoned (e : error) (s : report_state) : report_outcome * (bool * bool) * report_state :=
  let s := report_act_done CloseStarted s in
  (ReportFailed (normalizeReplayFailure e) match v_close env with Ok _ => None | Err c => Some (closing c) end,
   match v_close env with
   | Err c => if v_lifetime env then (true, is_deadline c) else (false, false)
   | Ok _ => (false, false)
   end, s).

Definition report_start (k : core) : report_state := ReportState None false false [] k.

Definition runCompiledReportReplay (registration : ustring) (selection : CompiledExecutionSelection F) (k : core)
    : report_outcome * (bool * bool) * report_state :=
  let refused e := (ReportFailed e None, (false, false), report_start k) in
  match normalizeReplayDeadlines (v_registrationMs env) (v_stepMs env) (v_receiveMs env) with
  | Err e => refused (ReportRun (ReplayFailed (Thrown e)))
  | Ok _ =>
      match (_ ← not_cancelled (v_cancelled env); p ← prepare_execution selection; _ ← not_cancelled (v_resolving env); mret p) with
      | Err e => refused e
      | Ok p =>
          let s := report_act_done TransportResolved (report_start k) in
          match v_ready env, v_iterator env with
          | Some (Err e), _ => abandoned (wait_failed e) s
          | _, Some x => abandoned (ReportRun (ReplayFailed (Foreign x))) s
          | _, None => let '(r, s) := report_try p registration s in settle_report r s
          end
      end
  end.

(** The entry points: the request and the registration come first. *)
Definition run_compiled (base : object_t) (selection : CompiledExecutionSelection F) (k : core)
    : report_outcome * (bool * bool) * report_state :=
  let s := match selection with ExecuteSync s | ExecuteAsync s => s end in
  match (request ← createVerifyRequest (cs_semanticDigest s) (cs_contract s) (default ($"require") (cs_policy s));
         encodeModelInterfaceRegistration number_text base request) with
  | Err e => (ReportFailed (ReportRun (ReplayFailed (Thrown e))) None, (false, false), report_start k)
  | Ok registration => runCompiledReportReplay registration selection k
  end.

Definition runCompiledNegotiatedWithReport (config : ApalacheConfig) (traces : TraceGenerationConfig) (spec : option ApalacheSpec) :=
  run_compiled (base_object (Register config traces spec)).

Definition runCompiledTracesWithReport (config : ApalacheConfig) (tracePaths : list ustring) :=
  run_compiled (base_object (RegisterTraces config tracePaths)).
End environment.
End report.

(** ** What a run with a report guarantees

    Over the runner of [NegotiatedReport]: on whose word a factory is called, and the
    cleanup, which always happens and never replaces the error of the run. *)

Section facts.
Context (number_text : number -> ustring) (sha256 : list N -> ustring) {F X : Type}.
Context (is_error deadline_cause : X -> bool).

Section run.
Context (env : report_environment (F := F) (X := X)) (evidence : option evidence_config).

(** The first line is a validated specification with this answer. *)
Definition answered (reply : option ModelInterfaceReply) : Prop :=
  exists line, v_first env = ReceivedLine line /\
    decodeModelInterfaceMirrorMessage number_text sha256 line = Ok (SpecValidated Valid, ExtReply <$> reply).

(** On whose word a factory runs: the registered one on a match of the digest, a
    fallback only of a synchronous run under prefer. *)
Definition call_allowed (p : prepared_execution (F := F)) (f : F) : Prop :=
  match p with
  | PreparedAsync key factory =>
      f = factory /\ exists i, id_semanticDigest i = AdapterRegistry.semanticDigest key /\ answered (Some (Matched i))
  | PreparedSync (PreparedAdapter key factory policy fb) =>
      (f = factory /\ exists i, id_semanticDigest i = AdapterRegistry.semanticDigest key /\ answered (Some (Matched i))) \/
      (fb = Some f /\ policy = $"prefer" /\ exists reply, (reply = None \/ reply = Some Unsupported \/ reply = Some Unavailable) /\ answered reply)
  | PreparedSync (PreparedDynamic _ _ _ _ _) => False
  end.

Definition p_cleaning (a : report_act (F := F)) : Prop := a = CloseStarted \/ a = ReportDisposed \/ a = LateDisposed.

Definition report_act_allowed p (a : report_act (F := F)) : Prop :=
  ~ p_cleaning a /\ match a with ReportFactoryCalled f => call_allowed p f | _ => True end.

Record report_ok p (s : report_state (F := F)) : Prop := ReportOk {
  po_acts : Forall (report_act_allowed p) (p_acts s);
  po_log : c_log (p_core s) <> [] -> exists b, p_binding s = Some b /\ lb_semanticDigest b = expected p;
  po_late : p_late_binding s = true -> p_late s = true;
  po_head : head (p_acts s) = Some TransportResolved }.

Definition still p (s : report_state (F := F)) : Prop := report_ok p s /\ c_log (p_core s) = [].

Lemma given_keeps {A} P (r : res (report_error X) A) (Q : A -> Prop) :
  (forall a, r = Ok a -> Q a) -> triple P (given (F := F) r) (fun a s => Q a /\ P s) (fun _ => P).
Proof. intros HQ s Hs. unfold given. destruct r as [a|e]; [|done]. split; [by apply HQ|done]. Qed.

Lemma act_still p a s : report_act_allowed p a -> still p s -> still p (report_act_done a s).
Proof. 
  intros Ha [[Hacts Hlog Hl Hh] Hq]. split; [|done]. split; [|done|done|].
  - cbn. apply Forall_app. split; [done|by constructor].
  - cbn. by destruct (p_acts s).
Qed.

Lemma first_report_answered (p : prepared_execution (F := F)) decoded reply :
  first_report_reply number_text sha256 env (expected p) = Ok decoded ->
  in_run (reply_of (X := X) decoded.2) = Ok reply -> answered reply.
Proof.
  unfold first_report_reply, answered. destruct (receiveNegotiatedFirstReply _ _ _ _ _) as [[m ext]|[]] eqn:E; try done.
  intros [= <-]. apply first_reply_barrier in E as (-> & line & Hl & Hd).
  cbn [snd]. intros Hr. exists line. split; [done|]. rewrite Hd. f_equal. f_equal.
  destruct ext as [[r|f]|]; [by injection Hr as <-|done|by injection Hr as <-].
Qed.

Lemma sync_factory_allowed p reply f label :
  sync_factory sha256 (X := X) p reply = Ok (f, label) -> answered reply -> call_allowed (PreparedSync p) f.
Proof.
  unfold sync_factory. set (c := MkCache 1 1 [] 0). assert (cache_ok sha256 c) as Hc.
  { split; cbn; [done|constructor|constructor|done|done]. }
  destruct (authorizeReply sha256 p reply c) as [r c'] eqn:E. intros H Hans.
  destruct (authorize_gives sha256 p reply c r c' Hc E) as [_ Ha]. destruct r as [a|e]; [|done].
  specialize (Ha a eq_refl). cbn [fst in_run mbind res_mbind] in H. destruct a as [|d|], p as [key factory policy fb|]; try done.
  - injection H as <- <-. left. split; [done|]. destruct Ha as (? & ? & ? & ? & i & [= <- <- <- <-] & -> & Hi). by exists i.
  - destruct fb as [g|]; [|done]. injection H as <- <-. right. destruct Ha as (Hp & _ & Hm). split; [done|]. split; [exact Hp|].
    exists reply. split; [|done]. destruct reply as [[]|]; try done; [by right; left|by right; right|by left].
Qed.

Lemma create_still p f label : call_allowed p f ->
  triple (still p) (create env f label) (fun _ s => still p s /\ p_binding s <> None) (fun _ => still p).
Proof.
  intros Hf. unfold create. eapply (triple_bind _ _ _ (fun _ => still p)).
  - destruct (fr_called _); [|by apply triple_ret]. apply triple_modify. intros s. apply act_still. split; [|done].
    by intros [?|[?|?]].
  - intros []. destruct (fr_end _) as [b|e].
    + apply triple_modify. intros s [[Ha Hlog Hl Hh] Hq]. split; [|done]. split; [|done]. split; [done| |done|done]. cbn. by rewrite Hq.
    + eapply (triple_bind _ _ _ (fun _ => still p)).
      * apply triple_modify. intros s [[Ha Hlog Hl Hh] Hq]. split; [|done]. split; [done| |done|done]. cbn. by rewrite Hq.
      * intros [] s Hs. unfold given, failing. by destruct e.
Qed.

(** The rest of a run, after the binding. *)
Lemma validated_replay p (m : method (report_state (F := F)) (report_error X) unit) :
  triple (fun s => still p s /\ p_binding s <> None) m
    (fun _ s => still p s /\ exists b, p_binding s = Some b /\ lb_semanticDigest b = expected p) (fun _ => still p) ->
  triple (fun s => still p s /\ p_binding s <> None) (_ ← m; replay_report_core number_text env evidence)
    (fun _ => report_ok p) (fun _ => report_ok p).
Proof.
  intros Hm. eapply (triple_bind _ _ _ (fun _ s => still p s /\ exists b, p_binding s = Some b /\ lb_semanticDigest b = expected p)).
  - eapply triple_conseq; [exact Hm|done|done|by intros e s [? _]].
  - intros [] s [[[Ha _ Hl Hh] _] Hb]. unfold replay_report_core. destruct (replayCore _ _ _ _) as [[o|e] k]; (split; [exact Ha|by intros _|exact Hl|exact Hh]).
Qed.

Lemma validate_sync_right p label :
  triple (fun s => still p s /\ p_binding s <> None) (validate_sync (X := X) (expected p) label)
    (fun _ s => still p s /\ exists b, p_binding s = Some b /\ lb_semanticDigest b = expected p) (fun _ => still p).
Proof.
  intros s [Hs Hb]. unfold validate_sync, this, mbind, method_mbind. destruct (p_binding s) as [b|] eqn:Eb; [|done].
  case_bool_decide as Hd; cbn [negb]; [|done]. destruct (lb_compatible b); [|done]. split; [done|]. by exists b.
Qed.

Lemma validate_async_right key f :
  triple (fun s => still (PreparedAsync key f) s /\ p_binding s <> None) (validateAsyncBinding env key)
    (fun _ s => still (PreparedAsync key f) s /\ exists b, p_binding s = Some b /\ lb_semanticDigest b = expected (PreparedAsync key f))
    (fun _ => still (PreparedAsync key f)).
Proof.
  intros s [Hs Hb]. unfold validateAsyncBinding, this, mbind, method_mbind. destruct (p_binding s) as [b|] eqn:Eb; [|done].
  case_bool_decide as Hd; cbn [negb]; [|done]. unfold given, failing. destruct (v_compatible env) as [u|[]]; try done.
  split; [done|]. by exists b.
Qed.

Lemma execute_ok p reply : answered reply ->
  triple (still p) (execute number_text sha256 env evidence p reply) (fun _ => report_ok p) (fun _ => report_ok p).
Proof.
  intros Hr. unfold execute. destruct p as [prepared|key factory].
  - eapply (triple_bind _ _ _ (fun chosen s => call_allowed (PreparedSync prepared) chosen.1 /\ still (PreparedSync prepared) s)).
    { eapply triple_conseq; [apply (given_keeps (still (PreparedSync prepared)) _ (fun chosen => call_allowed (PreparedSync prepared) chosen.1))|done|done|by intros ? s []].
      intros [f label] Hf. by eapply sync_factory_allowed. }
    intros [f label]. eapply triple_pure; [intros s Hs; exact Hs|]. intros Hf. cbn [fst snd] in *.
    eapply (triple_bind _ _ _ (fun _ s => still (PreparedSync prepared) s /\ p_binding s <> None)).
    { eapply triple_conseq; [by apply create_still|done|done|by intros ? s []]. }
    intros []. by apply validated_replay, validate_sync_right.
  - set (p := PreparedAsync key factory).
    eapply (triple_bind _ _ _ (fun _ s => call_allowed p factory /\ still p s)).
    { eapply triple_conseq; [apply (given_keeps (still p) _ (fun _ => call_allowed p factory))|done|done|by intros ? s []].
      intros [] H. split; [done|]. destruct reply as [[i| | | | | |]|]; try done. cbn in H.
      case_bool_decide as Hi; [|done]. by exists i. }
    intros []. eapply triple_pure; [intros s Hs; exact Hs|]. intros Hf.
    eapply (triple_bind _ _ _ (fun _ s => still p s /\ p_binding s <> None)).
    { eapply triple_conseq; [by apply create_still|done|done|by intros ? s []]. }
    intros []. by apply validated_replay, validate_async_right.
Qed.

Lemma report_try_ok p registration :
  triple (still p) (report_try number_text sha256 env evidence p registration) (fun _ => report_ok p) (fun _ => report_ok p).
Proof.
  assert (forall P A (m : method (report_state (F := F)) (report_error X) A) Q, triple P m Q (fun _ => still p) ->
    triple P m Q (fun _ => report_ok p)) as Hw.
  { intros P A m Q H. eapply triple_conseq; [exact H|done|done|by intros ? s []]. }
  unfold report_try.
  eapply (triple_bind _ _ _ (fun _ s => True /\ still p s)); [by apply Hw, given_keeps|intros []].
  eapply (triple_bind _ _ _ (fun _ s => True /\ still p s)).
  { apply Hw. eapply triple_conseq; [apply (given_keeps (still p) _ (fun _ => True)); done|by intros s []|done|done]. }
  intros []. eapply (triple_bind _ _ _ (fun _ => still p)).
  { apply triple_modify. intros s [_ Hs]. apply act_still; [|done]. split; [by intros [?|[?|?]]|done]. }
  intros []. set (sound := fun decoded : MirrorMessage * option extension =>
    forall reply, in_run (reply_of (X := X) decoded.2) = Ok reply -> answered reply).
  eapply (triple_bind _ _ _ (fun decoded s => sound decoded /\ still p s)).
  { apply Hw, given_keeps. intros a Ha reply. by apply first_report_answered with p. }
  intros decoded. eapply triple_pure; [intros s Hs; exact Hs|]. intros Hdecoded.
  eapply (triple_bind _ _ _ (fun reply s => answered reply /\ still p s)).
  { apply Hw, given_keeps. intros a. apply Hdecoded. }
  intros reply. eapply triple_pure; [intros s Hs; exact Hs|]. intros Hreply.
  eapply (triple_bind _ _ _ (fun _ => report_ok p)); [by apply execute_ok|].
  intros [r|]; [|by apply triple_ret]. eapply (triple_bind _ _ _ (fun _ s => True /\ report_ok p s)); [by apply given_keeps|].
  intros o. apply triple_ret. by intros s [].
Qed.
End run.

(** ** Theorems *)

Section theorems.
Context (env : report_environment (F := F) (X := X)) (evidence : option evidence_config).
Context (registration : ustring) (selection : CompiledExecutionSelection F) (t : tracker) (r : recorder).
Abbreviation run env :=
  (runCompiledReportReplay number_text sha256 is_error deadline_cause env evidence registration selection (new_core t r)).

(** The same run with other ends of the waits of its cleanup. *)
Definition with_waits (d l c : res (wait_error X) unit) : report_environment (F := F) (X := X) :=
  ReportEnvironment (v_registrationMs env) (v_stepMs env) (v_receiveMs env) (v_cancelled env) (v_resolving env) (v_ready env)
    (v_iterator env) (v_sending env) (v_send env) (v_first env) (v_interrupt env) (v_factory env) (v_compatible env)
    (v_turns env) (v_coverage env) d l c (v_lifetime env).

(** How a run gets to its [try]. *)
Inductive entry := Refused_ (e : report_error X) | Abandoned (e : report_error X) | Entered (p : prepared_execution (F := F)).

Definition entry_of : entry :=
  match normalizeReplayDeadlines (v_registrationMs env) (v_stepMs env) (v_receiveMs env) with
  | Err e => Refused_ (ReportRun (ReplayFailed (Thrown e)))
  | Ok _ =>
      match (_ ← not_cancelled (v_cancelled env); p ← prepare_execution selection; _ ← not_cancelled (v_resolving env); mret p) with
      | Err e => Refused_ e
      | Ok p =>
          match v_ready env, v_iterator env with
          | Some (Err e), _ => Abandoned (wait_failed e)
          | _, Some x => Abandoned (ReportRun (ReplayFailed (Foreign x)))
          | _, None => Entered p
          end
      end
  end.

Abbreviation opened := (report_act_done (F := F) TransportResolved (report_start (new_core t r))).
Abbreviation tried p := (report_try number_text sha256 env evidence p registration opened).

Lemma run_entry d l c :
  run (with_waits d l c) =
  match entry_of with
  | Refused_ e => (ReportFailed e None, (false, false), report_start (new_core t r))
  | Abandoned e => abandoned is_error (with_waits d l c) e opened
  | Entered p => settle_report is_error deadline_cause (with_waits d l c) (tried p).1 (tried p).2
  end.
Proof.
  unfold runCompiledReportReplay, entry_of. change (v_registrationMs (with_waits d l c)) with (v_registrationMs env).
  change (v_stepMs (with_waits d l c)) with (v_stepMs env). change (v_receiveMs (with_waits d l c)) with (v_receiveMs env).
  destruct (normalizeReplayDeadlines _ _ _) as [x|e]; [|done].
  change (v_cancelled (with_waits d l c)) with (v_cancelled env). change (v_resolving (with_waits d l c)) with (v_resolving env).
  destruct (_ ← not_cancelled (v_cancelled env); _) as [p|e]; [|done].
  change (v_ready (with_waits d l c)) with (v_ready env). change (v_iterator (with_waits d l c)) with (v_iterator env).
  change (report_try number_text sha256 (with_waits d l c) evidence p registration opened) with (tried p).
  destruct (v_ready env) as [[u|e]|]; [|done|]; (destruct (v_iterator env) as [x'|]; [done|]); by destruct (tried p).
Qed.

Lemma opened_still p : still env p opened.
Proof. split; [|done]. split; [|done|done|done]. constructor; [|constructor]. split; [by intros [?|[?|?]]|done]. Qed.

Lemma tried_ok p : report_ok env p (tried p).2.
Proof.
  pose proof (report_try_ok env evidence p registration _ (opened_still p)) as H. by destruct (tried p) as [[o|e] s].
Qed.

Lemma with_waits_same : with_waits (v_dispose env) (v_late env) (v_close env) = env.
Proof. unfold with_waits. by destruct env. Qed.

Lemma prepared_entry p : entry_of = Entered p -> prepare_execution (X := X) selection = Ok p.
Proof.
  unfold entry_of. destruct (normalizeReplayDeadlines _ _ _); [|done].
  destruct (not_cancelled (v_cancelled env)); [|done]. cbn [mbind res_mbind].
  destruct (prepare_execution selection) as [q|e]; [|done]. cbn [mbind res_mbind].
  destruct (not_cancelled (v_resolving env)); [|done]. cbn [mbind res_mbind mret res_mret].
  destruct (v_ready env) as [[u|e]|]; [|done|]; destruct (v_iterator env); by intros [= ->].
Qed.

(** C23: nothing of the application runs on the client's word alone here either: the
    factory of a run with a report, synchronous or asynchronous, is the one its
    selection resolves to, called only after a first line that validates the
    specification and matches the digest; a fallback is called only for a synchronous
    selection with an explicit one, under prefer, after an answer without a model; and
    messages are dispatched only to a binding of the expected digest. *)
Theorem report_calls_authorized out flags s :
  run env = (out, flags, s) ->
  (forall f, ReportFactoryCalled f ∈ p_acts s ->
     exists p, prepare_execution (X := X) selection = Ok p /\ call_allowed env p f) /\
  (c_log (p_core s) <> [] ->
     exists p b, prepare_execution (X := X) selection = Ok p /\ p_binding s = Some b /\ lb_semanticDigest b = expected p).
Proof.
  intros H. pose proof (run_entry (v_dispose env) (v_late env) (v_close env)) as Hrun. rewrite with_waits_same, H in Hrun. clear H.
  destruct entry_of as [e|e|p] eqn:E.
  - injection Hrun as -> -> ->. split; [by intros f ?%elem_of_nil|done].
  - unfold abandoned in Hrun. injection Hrun as -> -> ->. split; [|done]. intros f Hf. cbn in Hf.
    by repeat (apply elem_of_cons in Hf as [[=]|Hf]); apply elem_of_nil in Hf.
  - apply prepared_entry in E. destruct (tried_ok p) as [Ha Hlog Hl Hh]. rewrite Forall_forall in Ha.
    assert (p_core s = p_core (tried p).2 /\ p_binding s = p_binding (tried p).2 /\
      forall f, ReportFactoryCalled f ∈ p_acts s -> ReportFactoryCalled f ∈ p_acts (tried p).2) as (Hc & Hb & Hf).
    { unfold settle_report in Hrun. destruct (tried p) as [o s1]. cbn [fst snd] in Hrun |- *.
      assert (forall f, ReportFactoryCalled f ∈ p_acts s1 ++ cleanup_acts s1 -> ReportFactoryCalled f ∈ p_acts s1) as Hx.
      { intros f Hx. apply elem_of_app in Hx as [?|Hx]; [done|exfalso]. unfold cleanup_acts in Hx.
        destruct (p_binding s1), (p_late_binding s1); cbn in Hx;
          by repeat (apply elem_of_cons in Hx as [[=]|Hx]); apply elem_of_nil in Hx. }
      destruct o as [[rep|]|e]; injection Hrun as _ _ ->; [split; [done|split; [done|exact Hx]]|done|split; [done|split; [done|exact Hx]]]. }
    split.
    + intros f H%Hf. exists p. split; [done|]. by apply (Ha (ReportFactoryCalled f)).
    + rewrite Hc, Hb. intros H. destruct (Hlog H) as (b & H1 & H2). by exists p, b.
Qed.

End theorems.
End facts.

(** ** Witnesses *)

Definition async_key : CompiledAdapterKey :=
  AdapterKey (zero_hash []) ($"adapter") MIRRORECMA_ASYNC_TARGET_PROFILE ASYNC_STATE_COMPUTER_CONTRACT_VERSION.
Definition sample_async : CompiledExecutionSelection nat :=
  ExecuteAsync (CompiledSelection None (zero_hash []) JNull ($"adapter") MIRRORECMA_ASYNC_TARGET_PROFILE
    ASYNC_STATE_COMPUTER_CONTRACT_VERSION [(async_key, 7%nat)] None None).

Definition sample_report_env (dispose close : res (wait_error unit) unit) : report_environment (F := nat) (X := unit) :=
  ReportEnvironment None None None None None (Some (Ok tt)) None None None (ReceivedLine sample_first_reply)
    (ReplayDeadlineError StageRegistration 60000) (fun _ => FactoryRun true (Ok (LocalBinding (zero_hash []) true)) false)
    (Ok tt) sample_turns (Some (Ok [])) dispose (Ok tt) close true.

Abbreviation sample_report_run dispose close :=
  (runCompiledReportReplay (fun _ => $"0.5") zero_hash (fun _ => true) (fun _ => false) (sample_report_env dispose close) None
     ($"{}") sample_async (new_core sample_setup.2 (new_recorder None))).

Definition failed_late (o : report_outcome (X := unit)) : bool :=
  match o with ReportFailed (CleanupErrors [DisposeFailed _; ReportWait _]) None => true | _ => false end.

Lemma sample_report_ok :
  p_acts (sample_report_run (Ok tt) (Ok tt)).2 =
    [TransportResolved; ReportRegistered ($"{}"); ReportFactoryCalled 7%nat; CloseStarted; ReportDisposed] /\
  failed_late (sample_report_run (Err (OperationError tt)) (Err (ReplayDeadlineError StageClose 60000))).1.1 = true /\
  (sample_report_run (Err (OperationError tt)) (Err (ReplayDeadlineError StageClose 60000))).1.2 = (true, true).
Proof. split_and!; vm_compute; reflexivity. Qed.

Example report_calls_authorized_witness :
  ReportFactoryCalled 7%nat ∈ p_acts (sample_report_run (Ok tt) (Ok tt)).2 /\
  exists p, prepare_execution (X := unit) sample_async = Ok p /\
    call_allowed (fun _ => $"0.5") zero_hash (sample_report_env (Ok tt) (Ok tt)) p 7%nat.
Proof.
  assert (ReportFactoryCalled 7%nat ∈ p_acts (sample_report_run (Ok tt) (Ok tt)).2) as Hin.
  { rewrite (proj1 sample_report_ok). do 2 right. left. }
  split; [exact Hin|].
  destruct (sample_report_run (Ok tt) (Ok tt)) as [[out flags] s] eqn:E.
  exact (proj1 (report_calls_authorized (fun _ => $"0.5") zero_hash (fun _ => true) (fun _ => false)
    (sample_report_env (Ok tt) (Ok tt)) None ($"{}") sample_async sample_setup.2 (new_recorder None) out flags s E) _ Hin).
Defined.

