(* ===== verification/Campaign.v ===== *)
(** * Mutation campaigns

    [src/src/mutation-campaign.ts]: the validation of a campaign
    ([validateMutationCampaign]), the classification of what a mutant did ([classify])
    and the run of a campaign ([runMutationCampaign]).

    A campaign is checked at run time and is [js]; the frozen clone the validator
    returns is the record of what the run reads of it. The texts of error messages are
    left out, an error is its code. How the evaluation of a case ends, how the protected
    identities are observed, the signal and the clock are the environment of a run
    ([campaign_env]), times in nanoseconds; the calls are logged with the budgets of
    their timers. *)

From S2P Require Import Prelude JsNumber Utf16 JsData StrictJson JsText ModelTypes Canonical Descriptor Reproduction BundleText Bundle.

Inductive campaign_thrown := TCampaign (code : ustring) | TForeign (e : thrown).

Definition campaign_fail {A} (code : string) : res campaign_thrown A := Err (TCampaign (lit code)).
Definition campaign_require (b : bool) (code : string) : res campaign_thrown unit := if b then Ok tt else campaign_fail code.
Definition foreign {A} (r : res thrown A) : res campaign_thrown A := match r with Ok a => Ok a | Err e => Err (TForeign e) end.

(** ** The declaration *)

Inductive tested_path := Local | Gate.

(** [Supported]: the value of [support], which passed the test that its text is
    "required" or "optional". *)
Inductive MutationPathSupport := Supported (support : js) | Unsupported (reason : ustring).

Record MutationExpectedMismatch := MkExpected { ex_traceIndex : Z; ex_stateIndex : Z; ex_action : ustring }.

Record MutationDefinition := MkMutant {
  md_id : ustring;
  md_implementation : js;
  md_expected : MutationExpectedMismatch;
  md_resetPlanId : ustring;
  md_probeIds : list ustring;
  md_local : MutationPathSupport;
  md_gate : MutationPathSupport }.

Record MutationCampaign := MkCampaign {
  mc_id : ustring;
  mc_revision : Z;
  mc_evidenceLinks : js;
  mc_denominator : Z;
  mc_protected : object_t;
  mc_mutants : list MutationDefinition }.

Definition record (v : js) : res campaign_thrown object_t :=
  match v with JObj o => Ok o | _ => campaign_fail "campaign_schema_invalid" end.

Definition own (o : object_t) (key : string) : res campaign_thrown js :=
  if has_own o (lit key) then Ok (getf o (lit key)) else campaign_fail "campaign_non_data_property".

Definition exact (o : object_t) (names : list string) : res campaign_thrown unit :=
  campaign_require (bool_decide (sort_by compare_lists (keys o) = sort_by compare_lists (map lit names))) "campaign_schema_invalid".

Definition text (pattern : ustring -> bool) (v : js) : res campaign_thrown ustring :=
  match v with
  | JStr s => if pattern s then Ok s else campaign_fail "campaign_schema_invalid"
  | _ => campaign_fail "campaign_schema_invalid"
  end.

Definition integer (v : js) : res campaign_thrown Z :=
  match v with
  | JNum x =>
      match num_safe_Z x with
      | Some z => if (z <? 0)%Z then campaign_fail "campaign_schema_invalid" else Ok z
      | None => campaign_fail "campaign_schema_invalid"
      end
  | _ => campaign_fail "campaign_schema_invalid"
  end.

Definition identity (v : js) : res campaign_thrown unit :=
  item ← record v;
  _ ← exact item ["id"; "sha256"]%string;
  id ← own item "id";
  _ ← text stable_id id;
  digest ← own item "sha256";
  _ ← text is_sha256 digest;
  mret tt.

Definition catalog (v : js) : res campaign_thrown unit :=
  item ← record v;
  _ ← exact item ["schemaVersion"; "selectionKind"; "selectionValue"]%string;
  version ← own item "schemaVersion";
  _ ← campaign_require (is_str version "mirrors.framework-catalog/v1") "campaign_catalog_invalid";
  kind ← own item "selectionKind";
  selected ← own item "selectionValue";
  campaign_require
    match selected with
    | JStr s => if is_str kind "sha256" then is_sha256 s else is_str kind "git-revision" && is_git_revision s
    | _ => false
    end "campaign_catalog_invalid".

(** Equality of the elements of a [Set]; two objects of a tree are never one. *)
Definition set_same (a b : js) : bool :=
  match a, b with
  | JUndef, JUndef | JNull, JNull => true
  | JBool x, JBool y => eqb x y
  | JNum x, JNum y => SpecFloat.SFeqb x y || bool_decide (x = y)
  | JBig x, JBig y => (x =? y)%Z
  | JStr x, JStr y => bool_decide (x = y)
  | _, _ => false
  end.

(** [new Set(values).size === values.length] *)
Fixpoint set_distinct (l : list js) : bool :=
  match l with [] => true | v :: l' => negb (existsb (set_same v) l') && set_distinct l' end.

Section campaign.
Context (number_text : number -> ustring).

Definition path (v : js) : res campaign_thrown MutationPathSupport :=
  item ← record v;
  support ← own item "support";
  if is_str support "unsupported" then
    _ ← exact item ["support"; "reason"]%string;
    reason ← own item "reason";
    match reason with
    | JStr (_ :: _ as r) => Ok (Unsupported r)
    | _ => campaign_fail "campaign_schema_invalid"
    end
  else
    _ ← exact item ["support"]%string;
    known ← foreign (string_in number_text ["required"; "optional"]%string support);
    _ ← campaign_require known "campaign_schema_invalid";
    mret (Supported support).

Definition validate_links (v : js) : res campaign_thrown unit :=
  links ← record v;
  _ ← campaign_require (has_own links ($"catalogSelectionRef") &&
        forallb (fun k => bool_decide (k ∈ map lit ["catalogSelectionRef"; "runRef"; "artifactRefs"]%string)) (keys links))
      "campaign_schema_invalid";
  reference ← own links "catalogSelectionRef";
  _ ← catalog reference;
  _ ← (if has_own links ($"runRef") then r ← own links "runRef"; foreign (validateEvidenceRunReference r) else mret JUndef);
  _ ← (if has_own links ($"artifactRefs") then r ← own links "artifactRefs"; foreign (validateEvidenceArtifactReferences number_text r) else mret JUndef);
  mret tt.

(** [probes] and [executionProfiles]: the identities, with their ids. *)
Definition validate_identities (v : js) : res campaign_thrown (list ustring) :=
  match v with
  | JArr l =>
      if (bool_decide (l = []) || (64 <? length l))%nat then campaign_fail "campaign_schema_invalid"
      else
        _ ← mapM identity l;
        ids ← foreign (mapM (string_of_field number_text "id") l);
        _ ← campaign_require (no_repeats ids) "campaign_identity_duplicate";
        mret ids
  | _ => campaign_fail "campaign_schema_invalid"
  end.

(** The ids of the protected probes. *)
Definition validate_protected (o : object_t) : res campaign_thrown (list ustring) :=
  let single := ["suite"; "model"; "generatedInterface"; "corpus"; "acceptance"; "observer"; "correctImplementation"]%string in
  _ ← exact o (single ++ ["probes"; "executionProfiles"]%string);
  _ ← mapM (fun key => v ← own o key; identity v) single;
  probes ← own o "probes";
  probe_ids ← validate_identities probes;
  profiles ← own o "executionProfiles";
  _ ← validate_identities profiles;
  mret probe_ids.

Definition validate_expected (knownActions : option (list ustring)) (v : js) : res campaign_thrown MutationExpectedMismatch :=
  expected ← record v;
  _ ← exact expected ["kind"; "code"; "traceIndex"; "stateIndex"; "action"]%string;
  action ← own expected "action";
  action ← text stable_id action;
  kind ← own expected "kind";
  _ ← campaign_require (is_str kind "behavioral_mismatch") "campaign_expected_invalid";
  code ← own expected "code";
  _ ← campaign_require (is_str code "replay_mismatch") "campaign_expected_invalid";
  t ← own expected "traceIndex"; t ← integer t;
  s ← own expected "stateIndex"; s ← integer s;
  _ ← campaign_require (match knownActions with Some known => bool_decide (action ∈ known) | None => true end) "campaign_expected_invalid";
  mret (MkExpected t s action).

Definition validate_probe_ids (protected : list ustring) (v : js) : res campaign_thrown (list ustring) :=
  match v with
  | JArr l =>
      if bool_decide (l = []) || negb (set_distinct l) then campaign_fail "campaign_probe_invalid"
      else
        ids ← mapM (text stable_id) l;
        _ ← campaign_require (forallb (fun id => bool_decide (id ∈ protected)) ids) "campaign_probe_invalid";
        mret ids
  | _ => campaign_fail "campaign_probe_invalid"
  end.

Definition validate_mutant (knownActions : option (list ustring)) (protected seen : list ustring) (v : js)
    : res campaign_thrown MutationDefinition :=
  mutant ← record v;
  _ ← exact mutant ["id"; "implementation"; "expected"; "resetPlanId"; "probeIds"; "paths"]%string;
  id ← own mutant "id";
  id ← text stable_id id;
  _ ← campaign_require (negb (bool_decide (id ∈ seen))) "campaign_mutant_duplicate";
  implementation ← own mutant "implementation";
  _ ← identity implementation;
  expected ← own mutant "expected";
  expected ← validate_expected knownActions expected;
  reset ← own mutant "resetPlanId";
  reset ← text stable_id reset;
  probes ← own mutant "probeIds";
  probes ← validate_probe_ids protected probes;
  paths ← own mutant "paths";
  paths ← record paths;
  _ ← exact paths ["local"; "gate"]%string;
  l ← own paths "local"; l ← path l;
  g ← own paths "gate"; g ← path g;
  mret (MkMutant id implementation expected reset probes l g).

Fixpoint validate_mutants (knownActions : option (list ustring)) (protected seen : list ustring) (l : list js)
    : res campaign_thrown (list MutationDefinition) :=
  match l with
  | [] => Ok []
  | v :: l' =>
      m ← validate_mutant knownActions protected seen v;
      rest ← validate_mutants knownActions protected (md_id m :: seen) l';
      mret (m :: rest)
  end.

Definition validateMutationCampaign (knownActions : option (list ustring)) (value : js) : res campaign_thrown MutationCampaign :=
  campaign ← record value;
  _ ← exact campaign ["schema"; "id"; "revision"; "evidenceLinks"; "denominator"; "protected"; "mutants"]%string;
  schema ← own campaign "schema";
  _ ← campaign_require (is_str schema "mirrorecma.mutation-campaign/v1") "campaign_schema_unsupported";
  id ← own campaign "id";
  id ← text stable_id id;
  revision ← own campaign "revision";
  revision ← integer revision;
  _ ← campaign_require (1 <=? revision)%Z "campaign_schema_invalid";
  links ← own campaign "evidenceLinks";
  _ ← validate_links links;
  protected ← own campaign "protected";
  protected ← record protected;
  probe_ids ← validate_protected protected;
  mutants ← own campaign "mutants";
  denominator ← own campaign "denominator";
  denominator ← integer denominator;
  match mutants with
  | JArr l =>
      if bool_decide (l = []) || (256 <? length l)%nat || negb (denominator =? Z.of_nat (length l))%Z
      then campaign_fail "campaign_denominator_invalid"
      else
        ms ← validate_mutants knownActions probe_ids [] l;
        mret (MkCampaign id revision links denominator protected ms)
  | _ => campaign_fail "campaign_denominator_invalid"
  end.

Definition decodeMutationCampaign (knownActions : option (list ustring)) (raw : raw_input) : res campaign_thrown MutationCampaign :=
  v ← foreign (parseBoundedJsonValue raw); validateMutationCampaign knownActions v.

Definition assertMutationProtectedInputs (campaign : MutationCampaign) (observed : js) : res campaign_thrown unit :=
  a ← foreign (other (canonical number_text (JObj (mc_protected campaign))));
  b ← foreign (other (canonical number_text observed));
  campaign_require (bool_decide (a = b)) "campaign_protected_drift".

(** ** What an evaluation says *)

End campaign.

Inductive cleanup_scope := LocalCooperative | GatePhysical.
Inductive cleanup_requirement := RequiredCleanup | OptionalCleanup | NoCleanup.
Inductive cleanup_result := Confirmed | Failed | Unconfirmed | NotApplicable.
Inductive probe_status := ProbePassed | ProbeFailed | ProbeError | ProbeTimedOut | ProbeNotRun.

#[export] Instance cleanup_scope_eq_dec : EqDecision cleanup_scope.
Proof. solve_decision. Defined.
#[export] Instance cleanup_requirement_eq_dec : EqDecision cleanup_requirement.
Proof. solve_decision. Defined.
#[export] Instance cleanup_result_eq_dec : EqDecision cleanup_result.
Proof. solve_decision. Defined.
#[export] Instance probe_status_eq_dec : EqDecision probe_status.
Proof. solve_decision. Defined.

Record MutationCleanupOutcome := MkCleanup {
  mo_scope : cleanup_scope;
  mo_requirement : cleanup_requirement;
  mo_status : cleanup_result;
  mo_code : option ustring }.

Record MutationProbeResult := MkProbe { pr_status : probe_status; pr_code : option ustring }.

Record MutationEvaluation := MkEvaluation {
  ev_suiteResult : SuiteResult;
  ev_cleanup : option (list MutationCleanupOutcome);
  ev_probe : MutationProbeResult }.

Inductive MutationClassification := Killed | Survived | InvalidMutant | InfrastructureFailure | Inconclusive.
Inductive disposition := Attempted | UnsupportedPath | NotRun.

#[export] Instance classification_eq_dec : EqDecision MutationClassification.
Proof. solve_decision. Defined.
#[export] Instance disposition_eq_dec : EqDecision disposition.
Proof. solve_decision. Defined.

(** [cr_observed]: the outer [None] is the absent property, the inner one [null]. *)
Record MutationCaseResult := MkCase {
  cr_id : ustring;
  cr_testedPath : tested_path;
  cr_disposition : disposition;
  cr_classification : option MutationClassification;
  cr_expected : option MutationExpectedMismatch;
  cr_observed : option (option ReproductionPrimarySignature);
  cr_cleanup : option (list MutationCleanupOutcome);
  cr_probe : option MutationProbeResult;
  cr_reasonCode : option ustring;
  cr_duration : Z;
  cr_rawEvaluation : option MutationEvaluation }.

Definition cleanupOf (evaluation : MutationEvaluation) : list MutationCleanupOutcome :=
  match ev_cleanup evaluation with
  | Some cleanup => cleanup
  | None =>
      let outcome status code := [MkCleanup LocalCooperative RequiredCleanup status code] in
      match sr_cleanup (ev_suiteResult evaluation) with
      | CSucceeded => outcome Confirmed None
      | CFailed => outcome Failed (Some ($"local_cleanup_failed"))
      | CUnconfirmed => outcome Unconfirmed (Some ($"local_cleanup_unconfirmed"))
      end
  end.

Definition required_scope (p : tested_path) : cleanup_scope := match p with Local => LocalCooperative | Gate => GatePhysical end.

Definition cleanup_item_ok (item : MutationCleanupOutcome) : bool :=
  eqb (bool_decide (mo_requirement item = NoCleanup)) (bool_decide (mo_status item = NotApplicable)) &&
  negb (bool_decide (mo_requirement item = RequiredCleanup) && negb (bool_decide (mo_status item = Confirmed))).

Definition cleanupConfirmed (cleanup : list MutationCleanupOutcome) (p : tested_path) : bool :=
  negb (bool_decide (cleanup = [])) &&
  bool_decide (NoDup (map mo_scope cleanup)) &&
  forallb cleanup_item_ok cleanup &&
  existsb (fun item => bool_decide (mo_scope item = required_scope p) && bool_decide (mo_requirement item = RequiredCleanup) &&
                       bool_decide (mo_status item = Confirmed)) cleanup.

Definition path_support (p : tested_path) (m : MutationDefinition) : MutationPathSupport :=
  match p with Local => md_local m | Gate => md_gate m end.

Definition supported_on (p : tested_path) (m : MutationDefinition) : bool :=
  match path_support p m with Supported _ => true | Unsupported _ => false end.

(** [mutant.paths[path].support === "required"] *)
Definition required_on (p : tested_path) (m : MutationDefinition) : bool :=
  match path_support p m with Supported v => is_str v "required" | Unsupported _ => false end.

Definition no_context : SuiteNormalizationContext := Normalization None None None None None.

Definition is_mismatch (result : SuiteResult) : bool :=
  match sr_failure result with Some f => match sf_kind f with KMismatch => true | _ => false end | None => false end.

(** The signature of a mismatch, [null] for any other result. *)
Definition mismatch_signature (result : SuiteResult) : res campaign_thrown (option ReproductionSignature) :=
  if is_mismatch result then foreign (as_bundle_error (signatureFromSuiteResult result no_context)) else Ok None.

Definition expected_primary (e : MutationExpectedMismatch) : ReproductionPrimarySignature :=
  BehavioralMismatch (ex_traceIndex e) (ex_stateIndex e) (ex_action e).

Definition probe_passed (evaluation : MutationEvaluation) : bool := bool_decide (pr_status (ev_probe evaluation) = ProbePassed).

Definition failure_class (result : SuiteResult) : MutationClassification :=
  match sr_failure result with
  | None => Inconclusive
  | Some f =>
      match sf_kind f, sf_stage f with
      | KConfiguration, _ | KNegotiation, _ | _, FFactory => InvalidMutant
      | KTransport, _ | KUnknown, _ => InfrastructureFailure
      | _, _ => Inconclusive
      end
  end.

Definition attempted_case (id : ustring) (p : tested_path) (class : MutationClassification) (expected : option MutationExpectedMismatch)
    (observed : option (option ReproductionPrimarySignature)) (evaluation : option MutationEvaluation) (reason : option ustring) (duration : Z)
    : MutationCaseResult :=
  MkCase id p Attempted (Some class) expected observed (cleanupOf <$> evaluation) (ev_probe <$> evaluation) reason duration evaluation.

Definition skipped_case (m : MutationDefinition) (p : tested_path) (d : disposition) (reason : ustring) : MutationCaseResult :=
  MkCase (md_id m) p d None (Some (md_expected m)) None None None (Some reason) 0 None.

Section run.
Context (number_text : number -> ustring).

Definition matches_expected (m : MutationDefinition) (signature : option ReproductionSignature) : res campaign_thrown bool :=
  match signature with
  | Some s => foreign (other (signaturesEqual number_text s (Signature (Some (expected_primary (md_expected m))) CleanupSucceeded)))
  | None => Ok false
  end.

Definition classify (m : MutationDefinition) (evaluation : MutationEvaluation) (p : tested_path) (duration : Z)
    : res campaign_thrown MutationCaseResult :=
  let result := ev_suiteResult evaluation in
  let clean := cleanupConfirmed (cleanupOf evaluation) p && probe_passed evaluation in
  signature ← mismatch_signature result;
  same ← matches_expected m signature;
  let class :=
    if (same : bool) && clean then Killed
    else if sr_passed result && clean then Survived
    else failure_class result in
  mret (attempted_case (md_id m) p class (Some (md_expected m)) (Some (signature ≫= primary)) (Some evaluation) None duration).

(** ** One evaluation under its budgets *)

Inductive campaign_case := CorrectCase | MutantCase (m : MutationDefinition).

(** The observation of the protected identities, and the evaluation of a case, each
    with what its timers are set to, in milliseconds. *)
Inductive campaign_call := CallObserve (budgetMs : Z) | CallEvaluation (scenario : campaign_case) (runMs cleanupMs : Z).

Abbreviation campaigning := (method (list campaign_call) campaign_thrown).

Definition log_call (c : campaign_call) : campaigning unit := modify (fun calls => calls ++ [c]).

(** How an evaluation ends: the signal was aborted before; it was aborted before the
    evaluator was called; the evaluator returned or threw; the timer fired, or the
    signal came, and the evaluator returned within the cleanup budget or not. *)
Inductive run_outcome :=
| OutcomeRefused
| OutcomeNotStarted
| OutcomeReturned (evaluation : MutationEvaluation)
| OutcomeThrew (e : campaign_thrown)
| OutcomeTimeout (late : option MutationEvaluation)
| OutcomeCancelled (late : option MutationEvaluation).

Record bounded := MkBounded {
  bo_evaluation : option MutationEvaluation;
  bo_timedOut : bool;
  bo_cancelled : bool;
  bo_cleanupConfirmed : bool }.

Definition settled_clean (p : tested_path) (late : option MutationEvaluation) : bool :=
  match late with Some evaluation => cleanupConfirmed (cleanupOf evaluation) p | None => false end.

Definition boundedEvaluation (scenario : campaign_case) (runMs cleanupMs : Z) (p : tested_path) (o : run_outcome) : campaigning bounded :=
  let call := log_call (CallEvaluation scenario runMs cleanupMs) in
  match o with
  | OutcomeRefused => mret (MkBounded None false true true)
  | OutcomeNotStarted => mret (MkBounded None false true false)
  | OutcomeReturned evaluation => _ ← call; mret (MkBounded (Some evaluation) false false (cleanupConfirmed (cleanupOf evaluation) p))
  | OutcomeThrew e => _ ← call; throws e
  | OutcomeTimeout late => _ ← call; mret (MkBounded late true false (settled_clean p late))
  | OutcomeCancelled late => _ ← call; mret (MkBounded late false true (settled_clean p late))
  end.

(** [try]: the calls that were made stay made. *)
Definition attempt_ {A} (m : campaigning A) : campaigning (res campaign_thrown A) := fun calls => let '(r, calls') := m calls in (Ok r, calls').

Definition lift_res {A} (r : res campaign_thrown A) : campaigning A := fun calls => (r, calls).

(** ** The observation of the protected identities *)

Inductive observation :=
| ObservationCancelled (called : bool)
| Observed (v : js)
| ObservationThrew (e : campaign_thrown)
| ObservationTimeout.

Definition observed_inputs (budgetMs : Z) (o : observation) : campaigning js :=
  let call := log_call (CallObserve budgetMs) in
  match o with
  | ObservationCancelled called => _ ← when called call; throws (TCampaign ($"campaign_cancelled"))
  | Observed v => _ ← call; mret v
  | ObservationThrew e => _ ← call; throws e
  | ObservationTimeout => _ ← call; throws (TCampaign ($"campaign_protected_timeout"))
  end.

(** [elapsed]: since the run began. *)
Definition checkProtected (campaign : MutationCampaign) (policy : budget_policy) (elapsed : Z) (o : observation) : campaigning unit :=
  if exhausted policy elapsed then throws (TCampaign ($"campaign_total_budget"))
  else
    v ← observed_inputs (next_budget policy elapsed) o;
    lift_res (assertMutationProtectedInputs number_text campaign v).

(** ** The run *)

Inductive campaign_status := Complete | Incomplete | CampaignCancelled | BaselineFailed.
Inductive acceptance_status := Met | Unmet | AcceptanceIncomplete.

#[export] Instance campaign_status_eq_dec : EqDecision campaign_status.
Proof. solve_decision. Defined.

Record MutationCampaignResult := MkCampaignResult {
  cp_campaignId : ustring;
  cp_revision : Z;
  cp_testedPath : tested_path;
  cp_denominator : Z;
  cp_requiredOnPath : Z;
  cp_status : campaign_status;
  cp_acceptance : acceptance_status;
  cp_reasonCodes : list ustring;
  cp_baseline : MutationCaseResult;
  cp_mutants : list MutationCaseResult }.

(** What happens around one mutant: the signal and the clock before it, the clock at
    the check of the identities, the observation, the end and the duration of the
    evaluation. *)
Record case_env := MkCaseEnv {
  ce_aborted : bool;
  ce_elapsed : Z;
  ce_checked : Z;
  ce_observation : observation;
  ce_outcome : run_outcome;
  ce_duration : Z }.

(** [ca_aborted]: the signal is aborted when a baseline has failed. *)
Record campaign_env := MkCampaignEnv {
  ca_checked : Z;
  ca_observation : observation;
  ca_baseline : run_outcome;
  ca_duration : Z;
  ca_aborted : bool;
  ca_cases : nat -> case_env }.

Record loop_state := MkLoop { ls_results : list MutationCaseResult; ls_status : campaign_status; ls_reason : ustring }.

Definition stop (status : campaign_status) (reason : ustring) (s : loop_state) : loop_state := MkLoop (ls_results s) status reason.
Definition push (row : MutationCaseResult) (s : loop_state) : loop_state := MkLoop (ls_results s ++ [row]) (ls_status s) (ls_reason s).

(** The [try] around one evaluation; with whether the loop goes on. *)
Definition run_case (policy : budget_policy) (p : tested_path) (m : MutationDefinition) (env : case_env) (s : loop_state)
    : campaigning (loop_state * bool) :=
  let row class observed evaluation reason := attempted_case (md_id m) p class (Some (md_expected m)) observed evaluation reason (ce_duration env) in
  b ← boundedEvaluation (MutantCase m) (next_budget policy (ce_elapsed env)) (cleanupBudgetMs policy) p (ce_outcome env);
  if bo_timedOut b || bo_cancelled b then
    let reason := if bo_cancelled b then $"campaign_cancelled" else $"run_timeout" in
    observed ← match bo_evaluation b with
               | Some evaluation => signature ← lift_res (mismatch_signature (ev_suiteResult evaluation)); mret (Some (signature ≫= primary))
               | None => mret None
               end;
    mret (stop (if bo_cancelled b then CampaignCancelled else Incomplete) reason
            (push (row Inconclusive observed (bo_evaluation b) (Some reason)) s), false)
  else
    match bo_evaluation b with
    | None =>
        mret (stop Incomplete ($"evaluation_failed") (push (row InfrastructureFailure None None (Some ($"evaluation_failed"))) s),
              bo_cleanupConfirmed b)
    | Some evaluation =>
        result ← lift_res (classify m evaluation p (ce_duration env));
        if bo_cleanupConfirmed b then mret (push result s, true)
        else mret (stop Incomplete ($"cleanup_independence_lost") (push result s), false)
    end.

Definition thrown_case (p : tested_path) (m : MutationDefinition) (duration : Z) (s : loop_state) : loop_state :=
  stop Incomplete ($"evaluator_threw")
    (push (attempted_case (md_id m) p InfrastructureFailure (Some (md_expected m)) None None (Some ($"evaluator_threw")) duration) s).

Fixpoint run_cases (campaign : MutationCampaign) (policy : budget_policy) (p : tested_path) (envs : nat -> case_env) (i : nat)
    (selected : list MutationDefinition) (s : loop_state) : campaigning loop_state :=
  match selected with
  | [] => mret s
  | m :: rest =>
      let env := envs i in
      if ce_aborted env then mret (stop CampaignCancelled ($"campaign_cancelled") s)
      else if exhausted policy (ce_elapsed env) then mret (stop Incomplete ($"total_budget_exhausted") s)
      else
        checked ← attempt_ (checkProtected campaign policy (ce_checked env) (ce_observation env));
        match checked with
        | Err e => mret (stop Incomplete (match e with TCampaign code => code | TForeign _ => $"campaign_protected_drift" end) s)
        | Ok _ =>
            done ← attempt_ (run_case policy p m env s);
            match done with
            | Err _ => mret (thrown_case p m (ce_duration env) s)
            | Ok (s', true) => run_cases campaign policy p envs (S i) rest s'
            | Ok (s', false) => mret s'
            end
        end
  end.

Definition baseline_row (p : tested_path) (duration : Z) (b : option bounded) : MutationCaseResult :=
  let row class evaluation reason := attempted_case ($"correct") p class None None evaluation reason duration in
  match b ≫= bo_evaluation with
  | None =>
      if match b with Some b => bo_timedOut b | None => false end
      then row Inconclusive None (Some ($"baseline_timeout"))
      else row InfrastructureFailure None (Some ($"baseline_failed"))
  | Some evaluation =>
      let accepted :=
        sr_passed (ev_suiteResult evaluation) && cleanupConfirmed (cleanupOf evaluation) p && probe_passed evaluation &&
        match b with Some b => bo_cleanupConfirmed b && negb (bo_timedOut b) && negb (bo_cancelled b) | None => false end in
      if accepted then row Survived (Some evaluation) None else row Inconclusive (Some evaluation) (Some ($"baseline_not_accepted"))
  end.

(** The mutants the path supports, the rows of the others, and the required ones. *)
Definition selected_on (p : tested_path) (campaign : MutationCampaign) : list MutationDefinition :=
  filter (fun m => supported_on p m = true) (mc_mutants campaign).
Definition unsupported_rows (p : tested_path) (campaign : MutationCampaign) : list MutationCaseResult :=
  omap (fun m => match path_support p m with
                 | Unsupported reason => Some (skipped_case m p UnsupportedPath reason)
                 | Supported _ => None
                 end) (mc_mutants campaign).
Definition required_on_path (p : tested_path) (campaign : MutationCampaign) : list MutationDefinition :=
  filter (fun m => required_on p m = true) (selected_on p campaign).

Definition rows_missing (p : tested_path) (selected : list MutationDefinition) (reason : ustring) (rows : list MutationCaseResult)
    : list MutationCaseResult :=
  map (fun m => skipped_case m p NotRun reason) (filter (fun m => md_id m ∉ map cr_id rows) selected).

(** The acceptance of the rows of the required mutants. *)
Definition acceptance_of (status : campaign_status) (stopReason : ustring) (requiredIds : list ustring) (rows : list MutationCaseResult)
    : acceptance_status * list ustring :=
  let required := filter (fun r => cr_id r ∈ requiredIds) rows in
  if negb (bool_decide (status = Complete)) || negb (length required =? length (remove_dups requiredIds))%nat ||
     existsb (fun r => negb (bool_decide (cr_disposition r = Attempted))) required
  then (AcceptanceIncomplete, [stopReason])
  else if existsb (fun r => bool_decide (cr_classification r = Some Survived)) required then (Unmet, [$"required_mutant_survived"])
  else if existsb (fun r => negb (bool_decide (cr_classification r = Some Killed))) required
  then (AcceptanceIncomplete, [$"required_mutant_inconclusive"])
  else (Met, []).

Definition runMutationCampaign (campaignInput : js) (raw : raw_policy) (p : tested_path) (env : campaign_env)
    : campaigning MutationCampaignResult :=
  campaign ← lift_res (validateMutationCampaign number_text None campaignInput);
  policy ← lift_res (foreign (other (check_policy 256 "invalid mutation campaign policy" raw)));
  _ ← checkProtected campaign policy (ca_checked env) (ca_observation env);
  if (limit policy <? mc_denominator campaign)%Z then throws (TCampaign ($"campaign_mutant_limit"))
  else
    b ← attempt_ (boundedEvaluation CorrectCase (Z.min (eachBudgetMs policy) (totalBudgetMs policy)) (cleanupBudgetMs policy) p (ca_baseline env));
    let baseline := baseline_row p (ca_duration env) (match b with Ok b => Some b | Err _ => None end) in
    let selected := selected_on p campaign in
    let required := required_on_path p campaign in
    let result status acceptance codes rows :=
      MkCampaignResult (mc_id campaign) (mc_revision campaign) p (mc_denominator campaign) (Z.of_nat (length required))
        status acceptance codes baseline rows in
    if negb (bool_decide (cr_classification baseline = Some Survived)) then
      mret (result (if ca_aborted env then CampaignCancelled else BaselineFailed) AcceptanceIncomplete [$"baseline_not_accepted"]
              (unsupported_rows p campaign ++ map (fun m => skipped_case m p NotRun ($"baseline_not_accepted")) selected))
    else
      s ← run_cases campaign policy p (ca_cases env) 0 selected (MkLoop (unsupported_rows p campaign) Complete ($"campaign_stopped"));
      let reason := if bool_decide (ls_status s = CampaignCancelled) then $"campaign_cancelled" else ls_reason s in
      let rows := ls_results s ++ rows_missing p selected reason (ls_results s) in
      let '(acceptance, codes) := acceptance_of (ls_status s) (ls_reason s) (map md_id required) rows in
      mret (result (ls_status s) acceptance codes rows).
End run.

(** ** What a campaign shows

    Over the run of [Campaign]: a campaign is accepted only for exact kills, every
    mutant has one row, and a mutant is evaluated only under the protected identities
    and after cleanups that were confirmed. *)

Section loop.
Context (number_text : number -> ustring) (campaign : MutationCampaign) (policy : budget_policy) (p : tested_path) (envs : nat -> case_env).
Implicit Types (m : MutationDefinition) (s : loop_state) (c : list campaign_call) (row : MutationCaseResult).

(** What lets mutant number [i] be evaluated. *)
Definition admitted (env : case_env) : Prop :=
  ce_aborted env = false /\ exhausted policy (ce_elapsed env) = false /\ exhausted policy (ce_checked env) = false /\
  exists v, ce_observation env = Observed v /\ assertMutationProtectedInputs number_text campaign v = Ok tt.

Definition evaluation_of (m : MutationDefinition) (env : case_env) : campaign_call :=
  CallEvaluation (MutantCase m) (next_budget policy (ce_elapsed env)) (cleanupBudgetMs policy).
Definition observation_of (env : case_env) : campaign_call := CallObserve (next_budget policy (ce_checked env)).

Definition row_of (m : MutationDefinition) (row : MutationCaseResult) : Prop :=
  cr_id row = md_id m /\ cr_disposition row = Attempted /\ cr_testedPath row = p.

(** After this evaluation the next mutant may be run. *)
Definition left_clean (m : MutationDefinition) (env : case_env) (row : MutationCaseResult) : Prop :=
  exists e, ce_outcome env = OutcomeReturned e /\ cleanupConfirmed (cleanupOf e) p = true /\
    classify number_text m e p (ce_duration env) = Ok row.

(** The loop over the mutants: it ends, stops before a mutant or after one, or goes on. *)
Inductive ran : nat -> list MutationDefinition -> loop_state -> list campaign_call -> loop_state -> list campaign_call -> Prop :=
| ran_end i s c : ran i [] s c s c
| ran_stop i m rest s c observed status reason :
    status <> Complete -> observed = [] \/ observed = [observation_of (envs i)] ->
    ran i (m :: rest) s c (stop status reason s) (c ++ observed)
| ran_last i m rest s c row status reason called :
    admitted (envs i) -> status <> Complete -> row_of m row -> cr_classification row <> Some Killed ->
    called = [] \/ called = [evaluation_of m (envs i)] ->
    ran i (m :: rest) s c (stop status reason (push row s)) (c ++ observation_of (envs i) :: called)
| ran_next i m rest s c row s' c' :
    admitted (envs i) -> left_clean m (envs i) row ->
    ran (S i) rest (push row s) (c ++ [observation_of (envs i); evaluation_of m (envs i)]) s' c' ->
    ran i (m :: rest) s c s' c'.

Lemma checkProtected_cases env c r c' :
  checkProtected number_text campaign policy (ce_checked env) (ce_observation env) c = (r, c') ->
  match r with
  | Ok _ => exhausted policy (ce_checked env) = false /\
      (exists v, ce_observation env = Observed v /\ assertMutationProtectedInputs number_text campaign v = Ok tt) /\
      c' = c ++ [observation_of env]
  | Err _ => c' = c \/ c' = c ++ [observation_of env]
  end.
Proof.
  unfold checkProtected. destruct (exhausted _ _); [cbn; intros [= <- <-]; auto|].
  unfold mbind, method_mbind, observed_inputs. destruct (ce_observation env) as [[]|v|e|]; cbn; try (intros [= <- <-]; auto).
  destruct (assertMutationProtectedInputs _ _ v) as [[]|e] eqn:E; cbn; rewrite ?E; eauto.
Qed.

Lemma boundedEvaluation_cases m env c r c' :
  boundedEvaluation (MutantCase m) (next_budget policy (ce_elapsed env)) (cleanupBudgetMs policy) p (ce_outcome env) c = (r, c') ->
  c' = c \/ c' = c ++ [evaluation_of m env].
Proof. destruct (ce_outcome env); cbn; intros [= <- <-]; auto. Qed.

Lemma classify_row m e d row :
  classify number_text m e p d = Ok row -> row_of m row /\ (cleanupConfirmed (cleanupOf e) p = false -> cr_classification row <> Some Killed).
Proof.
  unfold classify. intros H. res_inv. split; [done|]. intros ->. rewrite !andb_false_r. cbn.
  unfold failure_class. destruct (sr_failure _) as [[[] [] ? ? ?]|]; done.
Qed.
Ltac stopped := intros [= <- <-]; split; [by auto|]; first [done | eexists _, _, _; split_and!; [reflexivity|done|done|done]].

Lemma run_case_cases m env s c r c' :
  run_case number_text policy p m env s c = (r, c') ->
  (c' = c \/ c' = c ++ [evaluation_of m env]) /\
  match r with
  | Ok (s', true) => exists row, s' = push row s /\ left_clean m env row /\ c' = c ++ [evaluation_of m env]
  | Ok (s', false) => exists row status reason, s' = stop status reason (push row s) /\ status <> Complete /\ row_of m row /\ cr_classification row <> Some Killed
  | Err _ => True
  end.
Proof.
  unfold run_case, boundedEvaluation, mbind, method_mbind.
  destruct (ce_outcome env) as [| |e|e|late|late] eqn:Ho; cbn -[classify mismatch_signature next_budget stop push].
  - stopped.
  - stopped.
  - destruct (classify number_text m e p (ce_duration env)) as [row|x] eqn:E; cbn -[stop push]; [|intros [= <- <-]; auto].
    destruct (cleanupConfirmed _ p) eqn:Ec; cbn; intros [= <- <-]; (split; [auto|]).
    + exists row. split_and!; [done| |done]. by exists e.
    + apply classify_row in E as [H1 H2]. exists row. eexists _, _. split_and!; [done|done|done|by apply H2].
  - intros [= <- <-]. auto.
  - destruct late as [e|]; cbn -[mismatch_signature next_budget stop push]; [destruct (mismatch_signature _); cbn -[stop push]|]; stopped.
  - destruct late as [e|]; cbn -[mismatch_signature next_budget stop push]; [destruct (mismatch_signature _); cbn -[stop push]|]; stopped.
Qed.

(** The loop always ends in a state that the relation gives. *)
Lemma run_cases_ran i selected s c :
  exists s' c', run_cases number_text campaign policy p envs i selected s c = (Ok s', c') /\ ran i selected s c s' c'.
Proof.
  revert i s c. induction selected as [|m rest IH]; intros i s c; cbn [run_cases]; [eexists _, _; split; [done|constructor]|].
  assert (Hstop : forall status reason, status <> Complete -> ran i (m :: rest) s c (stop status reason s) c).
  { intros status reason H. rewrite <- (app_nil_r c) at 2. apply ran_stop; auto. }
  destruct (ce_aborted (envs i)) eqn:Ea; [eexists _, _; split; [done|by apply Hstop]|].
  destruct (exhausted policy (ce_elapsed (envs i))) eqn:Ee; [eexists _, _; split; [done|by apply Hstop]|].
  unfold attempt_, mbind, method_mbind.
  destruct (checkProtected _ _ _ _ _ c) as [[[]|e] c1] eqn:Ep; apply checkProtected_cases in Ep; cycle 1.
  { destruct Ep as [->| ->]; (eexists _, _; split; [done|]); [by apply Hstop|apply ran_stop; auto]. }
  destruct Ep as (Hx & Hv & ->).
  assert (Hadm : admitted (envs i)) by done.
  destruct (run_case _ _ _ _ _ _ _) as [[[s' []]|e] c2] eqn:Er; apply run_case_cases in Er as [Hc Er].
  - destruct Er as (row & -> & Hclean & ->). rewrite <- app_assoc.
    destruct (IH (S i) (push row s) (c ++ [observation_of (envs i)] ++ [evaluation_of m (envs i)])) as (s' & c' & -> & Hran).
    eexists _, _. split; [done|]. by eapply ran_next.
  - destruct Er as (row & status & reason & -> & ? & ? & ?).
    destruct Hc as [->| ->]; rewrite <- ?app_assoc; (eexists _, _; split; [done|]); apply ran_last; try done; auto.
  - destruct Hc as [->| ->]; rewrite <- ?app_assoc; (eexists _, _; split; [done|]); apply ran_last; try done; auto.
Qed.

Definition evaluated (calls : list campaign_call) : list MutationDefinition :=
  omap (fun call => match call with CallEvaluation (MutantCase m) _ _ => Some m | _ => None end) calls.

Lemma evaluated_app c1 c2 : evaluated (c1 ++ c2) = evaluated c1 ++ evaluated c2.
Proof. apply omap_app. Qed.

(** The rows that were added are those of a first part of the mutants; the loop is
    complete only when every mutant left clean. *)
Lemma ran_rows i selected s c s' c' :
  ran i selected s c s' c' ->
  exists rows done rest tail, ls_results s' = ls_results s ++ rows /\ selected = done ++ rest /\ Forall2 row_of done rows /\
    c' = c ++ tail /\ evaluated tail `prefix_of` done /\
    (ls_status s' = Complete -> rest = []) /\
    (forall k row, rows !! k = Some row -> ls_status s' = Complete \/ cr_classification row = Some Killed ->
       exists m, done !! k = Some m /\ left_clean m (envs (i + k)) row).
Proof.
  induction 1 as [i s c|i m rest s c observed status reason ? Ho|i m rest s c row status reason called ???? Hc|i m rest s c row s' c' Hadm Hclean _ IH].
  - exists [], [], [], []. rewrite !app_nil_r. by split_and!.
  - exists [], [], (m :: rest), observed. rewrite app_nil_r. split_and!; try done. by destruct Ho as [->| ->].
  - exists [row], [m], rest, (observation_of (envs i) :: called). split_and!; [done|done|by apply Forall2_cons|done| |done|].
    + destruct Hc as [->| ->]; [apply prefix_nil|done].
    + intros [|k] row'; [|done]. by intros [= <-] [?|?].
  - destruct IH as (rows & done & rest' & tail & Hrows & -> & Hdone & -> & Hev & Hcomplete & Hkilled).
    exists (row :: rows), (m :: done), rest', (observation_of (envs i) :: evaluation_of m (envs i) :: tail). split_and!; [|done| | | |done|].
    + rewrite Hrows. cbn. by rewrite <- app_assoc.
    + constructor; [|done]. destruct Hclean as (e & _ & _ & H). by eapply classify_row.
    + by rewrite <- app_assoc.
    + by apply prefix_cons.
    + intros [|k] row' H HK; [injection H as <-|].
      * exists m. rewrite Nat.add_0_r. done.
      * replace (i + S k)%nat with (S i + k)%nat by lia. by apply Hkilled.
Qed.

(** A call of the evaluator: the mutants before it were evaluated and left clean. *)
Lemma ran_calls i selected s c s' c' :
  ran i selected s c s' c' ->
  exists tail, c' = c ++ tail /\
    forall pre scenario r b post, tail = pre ++ CallEvaluation scenario r b :: post ->
      exists done m rest, scenario = MutantCase m /\ selected = done ++ m :: rest /\ evaluated pre = done /\
        r = next_budget policy (ce_elapsed (envs (i + length done))) /\ b = cleanupBudgetMs policy /\
        admitted (envs (i + length done)) /\
        forall j m', done !! j = Some m' -> exists row, left_clean m' (envs (i + j)) row.
Proof.
  induction 1 as [i s c|i m rest s c observed status reason _ Ho|i m rest s c row status reason called Hadm ??? Hc|i m rest s c row s' c' Hadm Hclean _ IH].
  - exists []. rewrite app_nil_r. split; [done|]. by intros [].
  - exists observed. split; [done|]. intros pre sc r b post ->. destruct Ho as [Ho|Ho]; [by destruct pre|]. by destruct pre as [|? []].
  - exists (observation_of (envs i) :: called). split; [done|]. intros [|x pre] sc r b post; [done|]. intros [= <- Ht].
    destruct Hc as [->| ->]; [by destruct pre|]. destruct pre as [|? []]; [|done..]. injection Ht as <- <- <- <-.
    exists [], m, rest. cbn [length]. rewrite Nat.add_0_r. by split_and!.
  - destruct IH as (tail & -> & IH). exists (observation_of (envs i) :: evaluation_of m (envs i) :: tail).
    split; [by rewrite <- app_assoc|]. intros [|x [|y pre]] sc r b post; [done| |]; cbn; intros Ht.
    + injection Ht as <- <- <- <- <-. exists [], m, rest. cbn [length]. rewrite Nat.add_0_r. by split_and!.
    + injection Ht as <- <- Ht. destruct (IH _ _ _ _ _ Ht) as (done & m' & rest' & -> & -> & Hev & -> & -> & Hadm' & Hbefore).
      exists (m :: done), m', rest'. cbn [length]. rewrite <- plus_n_Sm. split_and!; try done; [by apply (f_equal (cons m))|].
      intros [|j] m'' Hj; [injection Hj as <-; rewrite Nat.add_0_r; by eexists|]. rewrite <- plus_n_Sm. by apply Hbefore.
Qed.
End loop.

(** ** What the validation has checked *)

(** A declared mutant: an expected mismatch at a place a replay can reach, of an action
    that is known, and probes that are protected. *)
Record mutant_ok (known : option (list ustring)) (protected : list ustring) (m : MutationDefinition) : Prop := {
  mk_id : stable_id (md_id m) = true;
  mk_trace : (0 <= ex_traceIndex (md_expected m) <= MAX_SAFE_INTEGER)%Z;
  mk_state : (0 <= ex_stateIndex (md_expected m) <= MAX_SAFE_INTEGER)%Z;
  mk_action : stable_id (ex_action (md_expected m)) = true;
  mk_known : from_option (fun l => ex_action (md_expected m) ∈ l) True known;
  mk_reset : stable_id (md_resetPlanId m) = true;
  mk_probes : md_probeIds m <> [] /\ NoDup (md_probeIds m) /\ Forall (fun id => id ∈ protected) (md_probeIds m) }.

Lemma campaign_require_Ok b code u : campaign_require b code = Ok u <-> b = true.
Proof. destruct b, u; by split. Qed.

Lemma text_Ok pattern v s : text pattern v = Ok s <-> v = JStr s /\ pattern s = true.
Proof.
  destruct v as [| | | | |s'| |]; cbn; try (by split; [|intros [[=] _]]).
  destruct (pattern s') eqn:E; (split; [|intros [[= <-] ?]; congruence]); [by intros [= <-]|done].
Qed.

Lemma integer_Ok v z : integer v = Ok z -> (0 <= z <= MAX_SAFE_INTEGER)%Z.
Proof.
  destruct v as [| | |x| | | |]; try done. cbn. unfold num_safe_Z. destruct (num_to_Z x) as [y|]; [|done].
  destruct (Z.abs y <=? _)%Z eqn:E; [|done]. destruct (y <? 0)%Z eqn:E'; [done|]. intros [= <-]. lia.
Qed.

(** [campaign_inv] turns the success of checks into what they have established. *)
Ltac campaign_inv1 :=
  match goal with
  | H : (_ ≫= _) = Ok _ |- _ => apply res_bind_Ok in H as (? & ? & H)
  | H : campaign_require _ _ = Ok _ |- _ => apply campaign_require_Ok in H
  | H : text _ _ = Ok _ |- _ => apply text_Ok in H as [? ?]
  | H : integer _ = Ok _ |- _ => apply integer_Ok in H
  | H : Ok _ = Ok _ |- _ => injection H as H
  | H : mret _ = Ok _ |- _ => injection H as H
  end.
Ltac campaign_inv := repeat campaign_inv1.

Section validation.
Context (number_text : number -> ustring).

Lemma texts_read pattern l ids : mapM (text pattern) l = Ok ids -> l = map JStr ids.
Proof. revert ids. induction l as [|v l IH]; intros ids H; cbn in H; campaign_inv; subst; [done|]. cbn. f_equal. by apply IH. Qed.

Lemma set_distinct_texts ids : set_distinct (map JStr ids) = true -> NoDup ids.
Proof.
  induction ids as [|s ids IH]; cbn; [constructor|]. intros [H1 H2]%andb_true_iff. apply negb_true_iff in H1. constructor; [|by apply IH].
  intros Hin. assert (existsb (set_same (JStr s)) (map JStr ids) = true) as E; [|congruence].
  apply existsb_exists. exists (JStr s). split; [apply in_map; by apply list_elem_of_In|]. cbn. by apply bool_decide_eq_true.
Qed.

Lemma validate_probe_ids_Ok protected v ids :
  validate_probe_ids protected v = Ok ids -> ids <> [] /\ NoDup ids /\ Forall (fun id => id ∈ protected) ids.
Proof.
  destruct v as [| | | | | |l|]; try done. cbn. destruct (_ || _) eqn:E; [done|]. apply orb_false_iff in E as [E1 E2].
  apply bool_decide_eq_false in E1. apply negb_false_iff in E2. intros H. campaign_inv. subst.
  match goal with H : mapM _ _ = Ok _ |- _ => apply texts_read in H; subst l end.
  split_and!; [by intros ->|by apply set_distinct_texts|]. apply Forall_forall. intros id Hin.
  match goal with H : forallb _ _ = true |- _ => rewrite forallb_forall in H; specialize (H id); apply bool_decide_eq_true in H; [done|by apply list_elem_of_In] end.
Qed.

Lemma validate_expected_Ok known v x :
  validate_expected known v = Ok x ->
  (0 <= ex_traceIndex x <= MAX_SAFE_INTEGER)%Z /\ (0 <= ex_stateIndex x <= MAX_SAFE_INTEGER)%Z /\
  stable_id (ex_action x) = true /\ from_option (fun l => ex_action x ∈ l) True known.
Proof.
  unfold validate_expected. intros H. campaign_inv. subst. cbn. split_and!; try done; try lia.
  destruct known; [|done]. by eapply bool_decide_eq_true.
Qed.

Lemma validate_mutant_Ok known protected seen v m :
  validate_mutant number_text known protected seen v = Ok m -> mutant_ok known protected m /\ md_id m ∉ seen.
Proof.
  unfold validate_mutant. intros H. campaign_inv. subst.
  repeat match goal with
  | H : validate_expected _ _ = Ok _ |- _ => apply validate_expected_Ok in H as (? & ? & ? & ?)
  | H : validate_probe_ids _ _ = Ok _ |- _ => apply validate_probe_ids_Ok in H
  | H : negb (bool_decide _) = true |- _ => apply negb_true_iff, bool_decide_eq_false in H
  end. by split; [constructor|].
Qed.

Lemma validate_mutants_Ok known protected seen l ms :
  validate_mutants number_text known protected seen l = Ok ms ->
  length ms = length l /\ Forall (mutant_ok known protected) ms /\ NoDup (map md_id ms) /\ Forall (fun m => md_id m ∉ seen) ms.
Proof.
  revert seen ms. induction l as [|v l IH]; intros seen ms H; cbn in H; campaign_inv; subst; [by split_and!; constructor|].
  match goal with H : validate_mutant _ _ _ _ _ = Ok _ |- _ => apply validate_mutant_Ok in H as [Hm Hnew] end.
  match goal with H : validate_mutants _ _ _ _ _ = Ok _ |- _ => apply IH in H as (Hlen & Hok & Hdup & Hseen) end.
  rewrite Forall_forall in Hseen. cbn. split_and!; [by rewrite Hlen|by constructor| |].
  - constructor; [|done]. intros (m' & Hid & Hin)%list_elem_of_fmap. apply (Hseen _ Hin). rewrite <- Hid. left.
  - constructor; [done|]. apply Forall_forall. intros m' Hin Hs. apply (Hseen _ Hin). by right.
Qed.
(** The object of an identity. *)
Definition identifies (v : js) (id digest : ustring) : Prop :=
  exists o, v = JObj o /\ getf o ($"id") = JStr id /\ getf o ($"sha256") = JStr digest /\ stable_id id = true /\ is_sha256 digest = true.

Lemma own_Ok o key v : own o key = Ok v -> v = getf o (lit key).
Proof. unfold own. destruct (has_own _ _); [|done]. by intros [= <-]. Qed.

Lemma identity_Ok v u : identity v = Ok u -> exists id digest, identifies v id digest.
Proof.
  destruct v as [| | | | | | |o]; try done. unfold identity. intros H. campaign_inv. subst.
  repeat match goal with H : own _ _ = Ok _ |- _ => apply own_Ok in H end.
  match goal with H : record _ = Ok _ |- _ => injection H as <- end. eexists _, _, o. by split_and!.
Qed.

Lemma identities_read l us ids :
  mapM identity l = Ok us -> mapM (string_of_field number_text "id") l = Ok ids ->
  Forall2 (fun v id => exists digest, identifies v id digest) l ids.
Proof.
  revert us ids. induction l as [|v l IH]; intros us ids H1 H2; cbn in H1, H2; campaign_inv; subst; [constructor|].
  match goal with H : identity _ = Ok _ |- _ => apply identity_Ok in H as (id & digest & o & -> & Hid & Hrest) end.
  constructor; [|by eapply IH].
  match goal with H : string_of_field _ _ _ = Ok _ |- _ => unfold string_of_field in H; rewrite Hid in H; injection H as <- end.
  exists digest, o. destruct Hrest as (? & ? & ?). by repeat split.
Qed.

Lemma foreign_Ok {A} (r : res thrown A) a : foreign r = Ok a -> r = Ok a.
Proof. destruct r; [by intros [= <-]|done]. Qed.

Lemma validate_identities_Ok v ids :
  validate_identities number_text v = Ok ids ->
  exists l, v = JArr l /\ (1 <= length l <= 64)%nat /\ NoDup ids /\ Forall2 (fun v id => exists digest, identifies v id digest) l ids.
Proof.
  destruct v as [| | | | | |l|]; try done. unfold validate_identities. destruct (bool_decide (l = []) || _) eqn:E; [done|]. apply orb_false_iff in E as [E1 E2].
  apply bool_decide_eq_false in E1. apply Nat.ltb_ge in E2. intros H. campaign_inv. subst.
  match goal with H : foreign _ = Ok _ |- _ => apply foreign_Ok in H end.
  exists l. split_and!; [done| |done|by eapply bool_decide_eq_true|by eapply identities_read]. destruct l; [done|cbn; lia].
Qed.

Definition single_identities : list string :=
  ["suite"; "model"; "generatedInterface"; "corpus"; "acceptance"; "observer"; "correctImplementation"]%string.

(** The protected inputs, with the ids of the probes. *)
Definition protected_ok (o : object_t) (probes : list ustring) : Prop :=
  Forall (fun key => exists id digest, identifies (getf o (lit key)) id digest) single_identities /\
  NoDup probes /\
  exists l, getf o ($"probes") = JArr l /\ Forall2 (fun v id => exists digest, identifies v id digest) l probes.

Lemma validate_protected_Ok o ids : validate_protected number_text o = Ok ids -> protected_ok o ids.
Proof.
  unfold validate_protected. intros H. campaign_inv. subst.
  repeat match goal with
  | H : own _ _ = Ok _ |- _ => apply own_Ok in H
  | H : validate_identities _ _ = Ok _ |- _ => apply validate_identities_Ok in H as (? & ? & ? & ? & ?)
  end. split_and!; [|done|]; cycle 1.
  { match goal with H1 : ?v = getf o ($"probes"), H2 : ?v = JArr ?l |- _ => exists l; rewrite <- H1; by split end. }
  match goal with H : mapM _ _ = Ok _ |- _ => cbn in H end. campaign_inv.
  repeat match goal with H : own _ _ = Ok _ |- _ => apply own_Ok in H; subst end.
  repeat match goal with H : identity _ = Ok _ |- _ => apply identity_Ok in H end. by repeat constructor.
Qed.

(** The parts of an accepted declaration. *)
Lemma campaign_parts known v c :
  validateMutationCampaign number_text known v = Ok c ->
  stable_id (mc_id c) = true /\ (1 <= mc_revision c <= MAX_SAFE_INTEGER)%Z /\
  exists l probes, (1 <= length l <= 256)%nat /\ mc_denominator c = Z.of_nat (length l) /\
    validate_protected number_text (mc_protected c) = Ok probes /\
    validate_mutants number_text known probes [] l = Ok (mc_mutants c).
Proof.
  unfold validateMutationCampaign. intros H. campaign_inv.
  match goal with H : match ?v with _ => _ end = Ok _ |- _ => destruct v as [| | | | | |l|]; try done; rename H into Hl end.
  destruct (bool_decide (l = []) || _ || _) eqn:E; [done|]. apply orb_false_iff in E as [[E1 E2]%orb_false_iff E3].
  apply bool_decide_eq_false in E1. apply Nat.ltb_ge in E2. apply negb_false_iff, Z.eqb_eq in E3. campaign_inv. subst c. cbn.
  split_and!; try done; try lia. eexists l, _. split_and!; try done. destruct l; [done|cbn; lia].
Qed.

Lemma stable_id_units s : stable_id s = true -> js_string s /\ s <> [].
Proof.
  destruct s as [|c s]; [done|]. cbn. intros [Hc H]%andb_true_iff. split; [|done].
  constructor; [unfold is_alnum, is_upper, is_lower, is_digit in Hc; lia|].
  apply Forall_forall. intros x Hx. rewrite forallb_forall in H. apply list_elem_of_In, H in Hx.
  apply orb_true_iff in Hx as [Hx|(y & Hy & ->%N.eqb_eq)%existsb_exists]; [unfold is_alnum, is_upper, is_lower, is_digit in Hx; lia|].
  eapply (proj1 (Forall_forall _ _) (js_string_lit _)), list_elem_of_In, Hy.
Qed.

Definition expected_ok (x : MutationExpectedMismatch) : Prop := primary_ok (expected_primary x) /\ ex_action x <> [].

Lemma campaign_mutants known v c :
  validateMutationCampaign number_text known v = Ok c ->
  NoDup (map md_id (mc_mutants c)) /\ Forall (fun m => expected_ok (md_expected m)) (mc_mutants c).
Proof.
  intros (_ & _ & l & probes & _ & _ & _ & (_ & Hok & Hdup & _)%validate_mutants_Ok)%campaign_parts.
  split; [done|]. eapply Forall_impl; [exact Hok|]. intros m [_ Ht Hs Ha _ _ _].
  apply stable_id_units in Ha as [Ha Hne]. split; [|done]. split_and!; [unfold safe; lia|unfold safe; lia|done].
Qed.

(** C20: what the declaration of a campaign has to be to be accepted. There are one to
    256 mutants, as many as the denominator says, no two with one id; each expects a
    mismatch at a trace and state with safe indices, of an action that is known, and
    names probes, none twice, that the protected inputs identify; those inputs name
    each fixed input by an id and a digest, and no two probes have one id. *)
Theorem campaign_validated (known : option (list ustring)) (v : js) (c : MutationCampaign)
    (H : validateMutationCampaign number_text known v = Ok c) :
  stable_id (mc_id c) = true /\ (1 <= mc_revision c <= MAX_SAFE_INTEGER)%Z /\
  (1 <= length (mc_mutants c) <= 256)%nat /\ mc_denominator c = Z.of_nat (length (mc_mutants c)) /\
  NoDup (map md_id (mc_mutants c)) /\
  exists probes, protected_ok (mc_protected c) probes /\ Forall (mutant_ok known probes) (mc_mutants c).
Proof.
  apply campaign_parts in H as (Hid & Hrev & l & probes & Hlen & Hden & Hp & Hms).
  apply validate_mutants_Ok in Hms as (Hl & Hok & Hdup & _). apply validate_protected_Ok in Hp.
  rewrite Hl. split_and!; try done; try lia. by exists probes.
Qed.
End validation.

(** ** The run *)

Section run.
Context (number_text : number -> ustring).
Implicit Types (m : MutationDefinition) (row : MutationCaseResult) (e : MutationEvaluation).

(** Strings are texts of 16-bit units, coordinates are safe integers. *)
Definition result_ok (r : SuiteResult) : Prop :=
  from_option js_string True (sr_action r) /\
  match sr_failure r with
  | Some f => from_option safe True (sf_traceIndex f) /\ from_option safe True (sf_stateIndex f)
  | None => True
  end.

(** The evidence of a kill: the very mismatch that was expected, everything cleaned up
    as the path requires, and the probe passed. *)
Definition kill (p : tested_path) (m : MutationDefinition) (e : MutationEvaluation) : Prop :=
  (exists f, sr_failure (ev_suiteResult e) = Some f /\ sf_kind f = KMismatch /\
    sf_traceIndex f = Some (ex_traceIndex (md_expected m)) /\ sf_stateIndex f = Some (ex_stateIndex (md_expected m))) /\
  sr_action (ev_suiteResult e) = Some (ex_action (md_expected m)) /\
  sr_cleanup (ev_suiteResult e) = CSucceeded /\
  cleanupConfirmed (cleanupOf e) p = true /\ probe_passed e = true.

Lemma mismatch_signature_Ok result s :
  mismatch_signature result = Ok (Some s) <->
  exists f t i a, sr_failure result = Some f /\ sf_kind f = KMismatch /\ sf_traceIndex f = Some t /\ sf_stateIndex f = Some i /\
    sr_action result = Some a /\ a <> [] /\ s = Signature (Some (BehavioralMismatch t i a)) (Reproduction.cleanupOf result).
Proof.
  unfold mismatch_signature, is_mismatch, signatureFromSuiteResult, primary_of. split.
  - destruct (sr_failure result) as [[? [] ? t i]|]; try done.
    cbn. destruct t as [t|], i as [i|], (sr_action result) as [[|u a]|] eqn:Ea; try done. cbn. intros [= <-].
    eexists _, t, i, (u :: a). by split_and!.
  - intros (f & t & i & a & -> & Hk & Ht & Hi & -> & Ha & ->). rewrite Hk, Ht, Hi. by destruct a.
Qed.

Lemma failure_class_not_killed result : failure_class result <> Killed.
Proof. unfold failure_class. by destruct (sr_failure result) as [[[] [] ? ? ?]|]. Qed.

Lemma classify_kill m e p d row :
  result_ok (ev_suiteResult e) -> expected_ok (md_expected m) ->
  classify number_text m e p d = Ok row -> (cr_classification row = Some Killed <-> kill p m e).
Proof.
  intros Hok [Hx Hx'] H. unfold classify in H. apply res_bind_Ok in H as (sig & Hs & H). apply res_bind_Ok in H as (same & Hm & H).
  injection H as <-. cbn [attempted_case cr_classification].
  assert (same = true <-> exists s, sig = Some s /\ s = Signature (Some (expected_primary (md_expected m))) CleanupSucceeded) as Hsame.
  { destruct sig as [s|]; unfold matches_expected in Hm; [|injection Hm as <-; by split; [|intros (? & ? & _)]].
    apply mismatch_signature_Ok in Hs as (f & t & i & a & Hf & Hk & Ht & Hi & Ha & Hne & ->).
    destruct Hok as [Hact Hfail]. rewrite Ha in Hact. rewrite Hf, Ht, Hi in Hfail. destruct Hfail as [??].
    rewrite signatures_equal_exact in Hm; [| |done].
    - injection Hm as <-. rewrite bool_decide_eq_true. split; [by eexists|]. by intros (? & [= <-] & ?).
    - split; [by cbn|]. unfold cleanup_ok, Reproduction.cleanupOf. rewrite Hf, Hk. destruct (sr_cleanup _); cbn; [done| |]; apply js_string_lit. }
  assert ((if same && (cleanupConfirmed (cleanupOf e) p && probe_passed e) then Killed
           else if sr_passed (ev_suiteResult e) && (cleanupConfirmed (cleanupOf e) p && probe_passed e) then Survived
           else failure_class (ev_suiteResult e)) = Killed <-> same = true /\ cleanupConfirmed (cleanupOf e) p = true /\ probe_passed e = true) as Hclass.
  { destruct same, (cleanupConfirmed _ _), (probe_passed _), (sr_passed _); cbn; try tauto; split; try (intros (? & ? & ?); done);
      intros HF; first [discriminate HF|by apply failure_class_not_killed in HF]. }
  transitivity (same = true /\ cleanupConfirmed (cleanupOf e) p = true /\ probe_passed e = true); [rewrite <- Hclass; split; congruence|].
  rewrite Hsame. unfold kill. split.
  - intros [(s & -> & ->) Hclean]. apply mismatch_signature_Ok in Hs as (f & t & i & a & Hf & Hk & Ht & Hi & Ha & Hne & Heq).
    injection Heq as E1 E2 E3 Hc. rewrite E1, E2, E3. destruct Hclean as [Hclean Hprobe].
    assert (sr_cleanup (ev_suiteResult e) = CSucceeded) as Hs by (unfold Reproduction.cleanupOf in Hc; by destruct (sr_cleanup _)).
    split_and!; try done. by exists f.
  - intros ((f & Hf & Hk & Ht & Hi) & Ha & Hs' & Hclean). split; [|done].
    eexists. split; [|reflexivity]. 
    assert (mismatch_signature (ev_suiteResult e) = Ok (Some (Signature (Some (expected_primary (md_expected m))) CleanupSucceeded))) as E; [|congruence].
    apply mismatch_signature_Ok. exists f. eexists _, _, _. split_and!; try done.
    unfold Reproduction.cleanupOf. by rewrite Hs'.
Qed.
(** ** The parts of a run *)

(** The baseline was accepted. *)
Definition accepted_baseline (p : tested_path) (env : campaign_env) : Prop :=
  exists e, ca_baseline env = OutcomeReturned e /\ sr_passed (ev_suiteResult e) = true /\
    cleanupConfirmed (cleanupOf e) p = true /\ probe_passed e = true.

Definition settled_baseline (p : tested_path) (o : run_outcome) : option bounded :=
  match o with
  | OutcomeRefused => Some (MkBounded None false true true)
  | OutcomeNotStarted => Some (MkBounded None false true false)
  | OutcomeReturned e => Some (MkBounded (Some e) false false (cleanupConfirmed (cleanupOf e) p))
  | OutcomeThrew _ => None
  | OutcomeTimeout late => Some (MkBounded late true false (settled_clean p late))
  | OutcomeCancelled late => Some (MkBounded late false true (settled_clean p late))
  end.

Lemma baseline_accepted p d env :
  cr_classification (baseline_row p d (settled_baseline p (ca_baseline env))) = Some Survived <-> accepted_baseline p env.
Proof.
  unfold accepted_baseline. destruct (ca_baseline env) as [| |e|x|[e|]|[e|]]; cbn; split; try (by intros (? & [=] & _)); try done.
  - destruct (sr_passed _) eqn:E1, (cleanupConfirmed _ _) eqn:E2, (probe_passed e) eqn:E3; try done. intros _. by exists e.
  - intros (e' & [= <-] & -> & -> & ->). done.
  - by rewrite !andb_false_r.
  - by rewrite !andb_false_r.
Qed.

(** The calls before the mutants. *)
Definition first_calls (policy : budget_policy) (env : campaign_env) (called : bool) : list campaign_call :=
  CallObserve (next_budget policy (ca_checked env)) ::
  if called then [CallEvaluation CorrectCase (Z.min (eachBudgetMs policy) (totalBudgetMs policy)) (cleanupBudgetMs policy)] else [].

Record started (input : js) (raw : raw_policy) (p : tested_path) (env : campaign_env) (campaign : MutationCampaign) (policy : budget_policy) : Prop := {
  st_campaign : validateMutationCampaign number_text None input = Ok campaign;
  st_policy : check_policy 256 "invalid mutation campaign policy" raw = Ok policy;
  st_limit : (mc_denominator campaign <= limit policy)%Z;
  st_observed : exists v, ca_observation env = Observed v /\ assertMutationProtectedInputs number_text campaign v = Ok tt }.

(** How a run that has a result went. *)
Inductive ran_campaign (p : tested_path) (env : campaign_env) (campaign : MutationCampaign) (policy : budget_policy)
    : MutationCampaignResult -> list campaign_call -> Prop :=
| ran_refused r called :
    ~ accepted_baseline p env -> cp_status r <> Complete -> cp_acceptance r = AcceptanceIncomplete ->
    cp_mutants r = unsupported_rows p campaign ++ map (fun m => skipped_case m p NotRun ($"baseline_not_accepted")) (selected_on p campaign) ->
    ran_campaign p env campaign policy r (first_calls policy env called)
| ran_mutants r s reason calls :
    accepted_baseline p env ->
    ran number_text campaign policy p (ca_cases env) 0 (selected_on p campaign)
      (MkLoop (unsupported_rows p campaign) Complete ($"campaign_stopped")) (first_calls policy env true) s calls ->
    cp_status r = ls_status s ->
    cp_mutants r = ls_results s ++ rows_missing p (selected_on p campaign) reason (ls_results s) ->
    cp_acceptance r = (acceptance_of (ls_status s) (ls_reason s) (map md_id (required_on_path p campaign)) (cp_mutants r)).1 ->
    ran_campaign p env campaign policy r calls.

Lemma boundedEvaluation_baseline policy p o c :
  exists called r, boundedEvaluation CorrectCase (Z.min (eachBudgetMs policy) (totalBudgetMs policy)) (cleanupBudgetMs policy) p o c =
    (r, c ++ if called : bool then [CallEvaluation CorrectCase (Z.min (eachBudgetMs policy) (totalBudgetMs policy)) (cleanupBudgetMs policy)] else []) /\
    match r with Ok b => Some b | Err _ => None end = settled_baseline p o /\
    (forall e, o = OutcomeReturned e -> called = true).
Proof.
  destruct o; cbn; first [exists false; eexists; rewrite app_nil_r; by split_and!|exists true; eexists; by split_and!].
Qed.

Lemma runMutationCampaign_ran input raw p env r calls :
  runMutationCampaign number_text input raw p env [] = (r, calls) ->
  match r with
  | Err _ => Forall (fun c => match c with CallObserve _ => True | _ => False end) calls
  | Ok r => exists campaign policy, started input raw p env campaign policy /\ ran_campaign p env campaign policy r calls
  end.
Proof.
  unfold runMutationCampaign, lift_res, mbind, method_mbind. 
  destruct (validateMutationCampaign _ _ _) as [campaign|x] eqn:Hc; [|intros [= <- <-]; constructor].
  destruct (check_policy _ _ _) as [policy|x] eqn:Hp; cbn [foreign other]; [|intros [= <- <-]; constructor].
  pose proof (checkProtected_cases number_text campaign policy (MkCaseEnv false 0 (ca_checked env) (ca_observation env) OutcomeRefused 0) []) as Hchk.
  cbn [ce_checked ce_observation] in Hchk. destruct (checkProtected _ _ _ _ _ _) as [[u|x] c1]; specialize (Hchk _ _ eq_refl); cycle 1.
  { intros [= <- <-]. destruct Hchk as [->| ->]; by repeat constructor. }
  destruct Hchk as (_ & Hobs & ->). destruct (limit policy <? mc_denominator campaign)%Z eqn:El; [intros [= <- <-]; by repeat constructor|].
  apply Z.ltb_ge in El. unfold attempt_, observation_of. cbn [ce_checked app].
  destruct (boundedEvaluation_baseline policy p (ca_baseline env) [CallObserve (next_budget policy (ca_checked env))]) as (called & b & -> & -> & Hcalled).
  cbv beta iota. destruct (bool_decide (cr_classification _ = Some Survived)) eqn:Hb; cbn [negb].
  - apply bool_decide_eq_true, baseline_accepted in Hb.
    assert (called = true) as -> by (destruct Hb as (e & He & _); by eapply Hcalled).
    edestruct (run_cases_ran number_text campaign policy p (ca_cases env)) as (s' & c' & E & Hran). cbn [app] in *. rewrite E.
    destruct (acceptance_of _ _ _ _) as [acc codes] eqn:Ha. intros [= <- <-]. exists campaign, policy. split; [by split|].
    eapply ran_mutants; [done|exact Hran|done|done|]. cbn. by rewrite Ha.
  - intros [= <- <-]. exists campaign, policy. split; [by split|]. apply (ran_refused p env campaign policy _ called); try done.
    + intros Hacc. apply bool_decide_eq_false in Hb. apply Hb. by apply baseline_accepted.
    + by cbn; destruct (ca_aborted env).
Qed.
Lemma next_budget_range policy raw elapsed : check_policy 256 "invalid mutation campaign policy" raw = Ok policy ->
  (1 <= next_budget policy elapsed <= eachBudgetMs policy)%Z /\
  (1 <= Z.min (eachBudgetMs policy) (totalBudgetMs policy) <= eachBudgetMs policy)%Z.
Proof.
  unfold check_policy. destruct (int_between 1 256 _); [|done].
  destruct (int_between 1 _ (raw_total raw)) as [t|] eqn:Et; [|done]. destruct (int_between 1 _ (raw_each raw)) as [e|] eqn:Ee; [|done].
  destruct (int_between 1 _ (raw_cleanup raw)); [|done]. intros [= <-]. unfold next_budget. cbn.
  assert (forall x y, int_between 1 0x7fffffff x = Some y -> (1 <= y)%Z) as Hpos.
  { intros x y. unfold int_between. destruct (num_safe_Z x); [|done]. destruct (_ && _) eqn:E; [|done]. intros [= <-]. lia. }
  apply Hpos in Et, Ee. lia.
Qed.

(** C5: isolation. Whatever a run ends with, an evaluation has a budget between one
    millisecond and that of the policy. The correct implementation is evaluated first,
    after the protected identities were observed to be the declared ones. A mutant is
    evaluated only after the correct implementation was accepted, while the signal is
    not aborted and the budget not spent, after the identities were observed again,
    and when every mutant that the path supports and that stands before it was
    evaluated, returned, and left a cleanup that is confirmed. *)
Theorem campaign_isolated input raw p env res calls pre scenario runMs cleanupMs post
    (H : runMutationCampaign number_text input raw p env [] = (res, calls))
    (Hcall : calls = pre ++ CallEvaluation scenario runMs cleanupMs :: post) :
  exists campaign policy, started input raw p env campaign policy /\
    (1 <= runMs <= eachBudgetMs policy)%Z /\ cleanupMs = cleanupBudgetMs policy /\
    match scenario with
    | CorrectCase => pre = [CallObserve (next_budget policy (ca_checked env))]
    | MutantCase m =>
        accepted_baseline p env /\
        exists done rest, selected_on p campaign = done ++ m :: rest /\ evaluated pre = done /\
          admitted number_text campaign policy (ca_cases env (length done)) /\
          forall j m', done !! j = Some m' -> exists row, left_clean number_text p m' (ca_cases env j) row
    end.
Proof.
  apply runMutationCampaign_ran in H. destruct res as [r|x]; cycle 1.
  { subst calls. apply Forall_app in H as [_ H]. by apply Forall_cons in H as [? _]. }
  destruct H as (campaign & policy & Hst & Hran). exists campaign, policy. split; [done|].
  pose proof (next_budget_range policy raw (ca_checked env) (st_policy _ _ _ _ _ _ Hst)) as [_ Hmin].
  destruct Hran as [r called _ _ _ _|r s reason calls Hbase Hran _ _ _].
  - destruct called; [|by destruct pre as [|? []]]. destruct pre as [|? [|? []]]; try done. by injection Hcall as <- <- <- <- _.
  - apply ran_calls in Hran as (tail & -> & Hall). destruct pre as [|x [|y pre]]; [done| |]; cbn in Hcall.
    + by injection Hcall as <- <- <- <- _.
    + injection Hcall as <- <- Ht. destruct (Hall _ _ _ _ _ Ht) as (done & m & rest & -> & Hsel & Hev & -> & -> & Hadm & Hbefore).
      split; [apply (next_budget_range _ _ _ (st_policy _ _ _ _ _ _ Hst))|]. split; [done|]. split; [done|].
      exists done, rest. by split_and!.
Qed.

Lemma unsupported_rows_ok p campaign :
  Forall2 (fun m row => cr_id row = md_id m /\ cr_disposition row = UnsupportedPath)
    (filter (fun m => supported_on p m = false) (mc_mutants campaign)) (unsupported_rows p campaign).
Proof.
  unfold unsupported_rows. induction (mc_mutants campaign) as [|m l IH]; [constructor|].
  rewrite filter_cons. cbn. unfold supported_on. destruct (path_support p m); cbn; [done|]. by constructor.
Qed.

Lemma skipped_rows_ok p d reason l :
  Forall2 (fun m row => cr_id row = md_id m /\ cr_disposition row = d) l (map (fun m => skipped_case m p d reason) l).
Proof. induction l; by constructor. Qed.

Lemma row_ids (P : MutationDefinition -> MutationCaseResult -> Prop) ms rows :
  (forall m row, P m row -> cr_id row = md_id m) -> Forall2 P ms rows -> map cr_id rows = map md_id ms.
Proof. intros HP. induction 1 as [|m row ms rows H _ IH]; [done|]. cbn. by rewrite IH, (HP _ _ H). Qed.
Lemma supported_split p (l : list MutationDefinition) :
  filter (fun m => supported_on p m = false) l ++ filter (fun m => supported_on p m = true) l ≡ₚ l.
Proof.
  induction l as [|m l IH]; [done|]. rewrite !filter_cons. destruct (supported_on p m); repeat case_decide; try congruence.
  - by rewrite <- Permutation_middle, IH.
  - cbn. by rewrite IH.
Qed.

Lemma missing_filter (ids : list ustring) (done rest : list MutationDefinition) :
  Forall (fun m => md_id m ∈ ids) done -> Forall (fun m => md_id m ∉ ids) rest ->
  filter (fun m => md_id m ∉ ids) (done ++ rest) = rest.
Proof.
  intros Hd Hr. rewrite filter_app. assert (filter (fun m => md_id m ∉ ids) done = []) as ->.
  { induction Hd as [|m l Hm _ IH]; [done|]. by rewrite filter_cons_False by tauto. }
  rewrite app_nil_l. induction Hr as [|m l Hm _ IH]; [done|]. rewrite filter_cons_True by done. by rewrite IH.
Qed.

Section declared.
Context (p : tested_path) (campaign : MutationCampaign).
Hypothesis (Hdup : NoDup (map md_id (mc_mutants campaign))).
Local Abbreviation unsupported := (filter (fun m => supported_on p m = false) (mc_mutants campaign)).

Lemma split_ids : map md_id unsupported ++ map md_id (selected_on p campaign) ≡ₚ map md_id (mc_mutants campaign).
Proof using. rewrite <- map_app. apply Permutation_map, supported_split. Qed.

(** The rows that are added at the end are those of the mutants that have none. *)
Lemma missing_rows done rest drows reason :
  selected_on p campaign = done ++ rest -> map cr_id drows = map md_id done ->
  rows_missing p (selected_on p campaign) reason (unsupported_rows p campaign ++ drows) =
  map (fun m => skipped_case m p NotRun reason) rest.
Proof using Hdup.
  intros Hsel Hids. unfold rows_missing. rewrite map_app, Hids.
  rewrite (row_ids _ _ _ (fun _ _ H => proj1 H) (unsupported_rows_ok p campaign)).
  rewrite <- split_ids, Hsel, map_app, app_assoc in Hdup. apply NoDup_app in Hdup as (_ & Hdis & _).
  rewrite Hsel, missing_filter; [done| |]; apply Forall_forall; intros m Hm.
  - apply elem_of_app. right. by apply list_elem_of_fmap_2.
  - intros Hin. apply (Hdis _ Hin). by apply list_elem_of_fmap_2.
Qed.
End declared.

(** C13: every mutant has exactly one row. The rows are those of the mutants the path
    does not support, of a first part of the others, which were attempted, and of the
    rest, which were not run; they are as many as the denominator says, and no two are
    about one mutant. Only attempted mutants were handed to the evaluator, in the
    order of the declaration; when the campaign is complete there is no rest. *)
Theorem campaign_rows input raw p env r calls (H : runMutationCampaign number_text input raw p env [] = (Ok r, calls)) :
  exists campaign policy done rest urows drows nrows,
    started input raw p env campaign policy /\ selected_on p campaign = done ++ rest /\
    cp_mutants r = urows ++ drows ++ nrows /\
    Forall2 (fun m row => cr_id row = md_id m /\ cr_disposition row = UnsupportedPath)
      (filter (fun m => supported_on p m = false) (mc_mutants campaign)) urows /\
    Forall2 (fun m row => cr_id row = md_id m /\ cr_disposition row = Attempted) done drows /\
    Forall2 (fun m row => cr_id row = md_id m /\ cr_disposition row = NotRun) rest nrows /\
    map cr_id (cp_mutants r) ≡ₚ map md_id (mc_mutants campaign) /\ NoDup (map cr_id (cp_mutants r)) /\
    Z.of_nat (length (cp_mutants r)) = mc_denominator campaign /\
    evaluated calls `prefix_of` done /\ (cp_status r = Complete -> rest = []).
Proof.
  apply runMutationCampaign_ran in H as (campaign & policy & Hst & Hran).
  pose proof (st_campaign _ _ _ _ _ _ Hst) as Hc. destruct (campaign_mutants _ _ _ _ Hc) as [Hdup _].
  apply campaign_parts in Hc as (_ & _ & l & probes & _ & Hden & _ & (Hlen & _)%validate_mutants_Ok).
  assert (exists done rest drows nrows, selected_on p campaign = done ++ rest /\
      cp_mutants r = unsupported_rows p campaign ++ drows ++ nrows /\
      Forall2 (fun m row => cr_id row = md_id m /\ cr_disposition row = Attempted) done drows /\
      Forall2 (fun m row => cr_id row = md_id m /\ cr_disposition row = NotRun) rest nrows /\
      evaluated calls `prefix_of` done /\ (cp_status r = Complete -> rest = [])) as (done & rest & drows & nrows & Hsel & Hrows & Hd & Hn & Hev & Hcomplete).
  { destruct Hran as [r called _ Hs _ Hrows|r s reason calls _ Hran Hs Hrows _].
    - exists [], (selected_on p campaign), [], (map (fun m => skipped_case m p NotRun ($"baseline_not_accepted")) (selected_on p campaign)).
      split_and!; [done|done|constructor|apply skipped_rows_ok| |done]. by destruct called.
    - apply ran_rows in Hran as (drows & done & rest & tail & Hres & Hsel & Hd & -> & Hev & Hcomplete & _). cbn in Hres.
      assert (Forall2 (fun m row => cr_id row = md_id m /\ cr_disposition row = Attempted) done drows) as Hd' by (eapply Forall2_impl; [exact Hd|]; intros ?? (? & ? & _); done).
      rewrite Hres, (missing_rows p campaign Hdup done rest) in Hrows; [|done|by eapply row_ids; [|exact Hd']; intros ?? []].
      exists done, rest, drows, (map (fun m => skipped_case m p NotRun reason) rest).
      split_and!; [done|by rewrite app_assoc|done|apply skipped_rows_ok|by rewrite evaluated_app|by rewrite Hs]. }
  assert (map cr_id (cp_mutants r) ≡ₚ map md_id (mc_mutants campaign)) as Hperm.
  { rewrite Hrows, !map_app. rewrite (row_ids _ _ _ (fun _ _ H => proj1 H) (unsupported_rows_ok p campaign)).
    rewrite (row_ids _ _ _ (fun _ _ H => proj1 H) Hd), (row_ids _ _ _ (fun _ _ H => proj1 H) Hn), <- map_app, <- Hsel. apply split_ids. }
  exists campaign, policy, done, rest, (unsupported_rows p campaign), drows, nrows.
  split_and!; try done; [apply unsupported_rows_ok|by rewrite Hperm|].
  rewrite Hden, <- Hlen, <- (length_map cr_id), Hperm, length_map. done.
Qed.
Lemma filter_ids (ids : list ustring) (rows : list MutationCaseResult) :
  length (filter (fun r => cr_id r ∈ ids) rows) = length (filter (fun id => id ∈ ids) (map cr_id rows)).
Proof. induction rows as [|r rows IH]; [done|]. cbn [map]. rewrite !filter_cons. case_decide; cbn; by rewrite IH. Qed.

Lemma existsb_none {A} (f : A -> bool) l : existsb f l = false <-> forall x, x ∈ l -> f x = false.
Proof.
  induction l as [|x l IH]; cbn; [by split; [intros _ y H%elem_of_nil|]|]. rewrite orb_false_iff, IH. split.
  - intros [Hx Hl] y [->|Hy]%elem_of_cons; [done|by apply Hl].
  - intros H. split; [apply H; left|]. intros y Hy. apply H. by right.
Qed.

Lemma acceptance_met status reason ids rows :
  (acceptance_of status reason ids rows).1 = Met <->
  status = Complete /\ length (filter (fun r => cr_id r ∈ ids) rows) = length (remove_dups ids) /\
  forall r, r ∈ rows -> cr_id r ∈ ids -> cr_disposition r = Attempted /\ cr_classification r = Some Killed.
Proof.
  unfold acceptance_of. set (required := filter _ rows).
  assert (forall r, r ∈ required <-> cr_id r ∈ ids /\ r ∈ rows) as Hin by (intros r; subst required; by rewrite list_elem_of_filter).
  split.
  - intros H. destruct (_ || _) eqn:E in H; [done|]. apply orb_false_iff in E as [[E1 E2]%orb_false_iff E3].
    destruct (existsb _ required) eqn:E4 in H; [done|]. destruct (existsb _ required) eqn:E5 in H; [done|].
    apply negb_false_iff, bool_decide_eq_true in E1. apply negb_false_iff, Nat.eqb_eq in E2. split_and!; [done|done|].
    intros r Hr Hid. assert (r ∈ required) as Hreq by by apply Hin.
    pose proof (proj1 (existsb_none _ _) E3 r Hreq) as Hd%negb_false_iff%bool_decide_eq_true.
    by pose proof (proj1 (existsb_none _ _) E5 r Hreq) as Hk%negb_false_iff%bool_decide_eq_true.
  - intros (-> & Hl & Hall). rewrite Hl, Nat.eqb_refl.
    assert (forall f : MutationCaseResult -> bool, (forall r, cr_disposition r = Attempted -> cr_classification r = Some Killed -> f r = false) ->
      existsb f required = false) as Hnone.
    { intros f Hf. apply existsb_none. intros r [Hid Hr]%Hin. destruct (Hall r Hr Hid). by apply Hf. }
    rewrite !Hnone; [done|..]; intros r Hd Hk; by rewrite ?Hd, ?Hk.
Qed.
(** The rows of a complete campaign. *)
Lemma complete_rows p env campaign policy s reason c calls :
  NoDup (map md_id (mc_mutants campaign)) ->
  ran number_text campaign policy p (ca_cases env) 0 (selected_on p campaign) (MkLoop (unsupported_rows p campaign) Complete ($"campaign_stopped")) c s calls ->
  ls_status s = Complete ->
  exists drows, ls_results s ++ rows_missing p (selected_on p campaign) reason (ls_results s) = unsupported_rows p campaign ++ drows /\
    map cr_id drows = map md_id (selected_on p campaign) /\
    forall m, m ∈ selected_on p campaign -> exists i row, row ∈ drows /\ left_clean number_text p m (ca_cases env i) row.
Proof.
  intros Hdup (drows & done & rest & tail & Hres & Hsel & Hd & _ & _ & Hrest & Hclean)%ran_rows Hs.
  rewrite (Hrest Hs), app_nil_r in Hsel. cbn [ls_results] in Hres. exists drows.
  assert (map cr_id drows = map md_id done) as Hids by (eapply row_ids; [|exact Hd]; by intros ?? []).
  rewrite Hres, (missing_rows p campaign Hdup done []); [|by rewrite app_nil_r|done]. cbn [map]. rewrite app_nil_r, Hsel.
  split_and!; [done|done|]. intros m [k Hk]%list_elem_of_lookup. destruct (Forall2_lookup_l _ _ _ _ _ Hd Hk) as (row & Hrow & _).
  destruct (Hclean k row Hrow) as (m' & Hm' & Hleft); [by left|]. simplify_eq. exists k, row. split; [by eapply list_elem_of_lookup_2|done].
Qed.

Lemma left_clean_row p m env row :
  left_clean number_text p m env row -> result_ok (match ce_outcome env with OutcomeReturned e => ev_suiteResult e | _ => MkSuiteResult true CSucceeded None None end) ->
  expected_ok (md_expected m) ->
  exists e, cr_rawEvaluation row = Some e /\ cr_id row = md_id m /\ cr_disposition row = Attempted /\
    (cr_classification row = Some Killed <-> kill p m e).
Proof.
  intros (e & -> & _ & H) Hok Hx. exists e. pose proof (classify_kill _ _ _ _ _ Hok Hx H) as HK.
  pose proof (classify_row _ _ _ _ _ _ H) as [(? & ? & _) _]. split_and!; try done; [|apply HK..].
  unfold classify in H. campaign_inv. by subst row.
Qed.

Lemma required_supported p campaign m : m ∈ required_on_path p campaign <-> m ∈ mc_mutants campaign /\ required_on p m = true.
Proof.
  unfold required_on_path, selected_on. rewrite !list_elem_of_filter. unfold required_on, supported_on.
  destruct (path_support p m); intuition done.
Qed.

(** As many rows are about required mutants as there are required mutants. *)
Lemma required_count p campaign rows :
  NoDup (map md_id (mc_mutants campaign)) -> map cr_id rows ≡ₚ map md_id (mc_mutants campaign) ->
  let ids := map md_id (required_on_path p campaign) in
  length (filter (fun r => cr_id r ∈ ids) rows) = length (remove_dups ids).
Proof.
  intros Hdup Hperm ids. rewrite filter_ids. apply Permutation_length, NoDup_Permutation.
  - apply NoDup_filter. by rewrite Hperm.
  - apply NoDup_remove_dups.
  - intros id. rewrite list_elem_of_filter, elem_of_remove_dups, Hperm. split; [tauto|]. intros Hid. split; [done|].
    apply list_elem_of_fmap in Hid as (m & -> & [Hm _]%required_supported). by apply list_elem_of_fmap_2.
Qed.

(** C3: the acceptance of a campaign. It is met exactly when the campaign is complete
    and each mutant that is required on the path has a row with an evaluation that is
    evidence of a kill: the suite failed with the mismatch at the very trace, state and
    action that were declared, its cleanup succeeded and is confirmed in the scope the
    path requires, and the probe passed. A complete campaign has an accepted baseline. *)
Theorem campaign_met input raw p env r calls
    (Hresults : forall i e, ce_outcome (ca_cases env i) = OutcomeReturned e -> result_ok (ev_suiteResult e))
    (H : runMutationCampaign number_text input raw p env [] = (Ok r, calls)) :
  exists campaign policy, started input raw p env campaign policy /\
    (cp_acceptance r = Met <->
      cp_status r = Complete /\
      forall m, m ∈ mc_mutants campaign -> required_on p m = true ->
        exists row e, row ∈ cp_mutants r /\ cr_id row = md_id m /\ cr_rawEvaluation row = Some e /\ kill p m e) /\
    (cp_status r = Complete -> accepted_baseline p env).
Proof.
  apply runMutationCampaign_ran in H as (campaign & policy & Hst & Hran). exists campaign, policy. split; [done|].
  destruct (campaign_mutants _ _ _ _ (st_campaign _ _ _ _ _ _ Hst)) as [Hdup Hexp]. rewrite Forall_forall in Hexp.
  destruct Hran as [r called _ Hs Ha _|r s reason calls Hbase Hran Hs Hrows Hacc]; [split; [rewrite Ha; by split; [|intros []]|done]|].
  split; [|done]. rewrite Hacc, acceptance_met, Hs, Hrows.
  destruct (decide (ls_status s = Complete)) as [Hcomplete|]; [|tauto].
  destruct (complete_rows _ _ _ _ _ reason _ _ Hdup Hran Hcomplete) as (drows & -> & Hids & Hclean).
  assert (map cr_id (unsupported_rows p campaign ++ drows) ≡ₚ map md_id (mc_mutants campaign)) as Hperm.
  { rewrite map_app, Hids, (row_ids _ _ _ (fun _ _ H => proj1 H) (unsupported_rows_ok p campaign)). apply split_ids. }
  assert (forall m, m ∈ mc_mutants campaign -> required_on p m = true -> exists row e, row ∈ unsupported_rows p campaign ++ drows /\
    cr_rawEvaluation row = Some e /\ cr_id row = md_id m /\ cr_disposition row = Attempted /\ (cr_classification row = Some Killed <-> kill p m e)) as Hrow.
  { intros m Hm Hreq. assert (m ∈ selected_on p campaign) as (i & row & Hin & Hleft)%Hclean.
    { assert (m ∈ required_on_path p campaign) as [_ ?]%list_elem_of_filter by by apply required_supported. done. }
    apply left_clean_row in Hleft as (e & Hraw & Hid & Hd & HK); [|destruct (ce_outcome _) eqn:Ho; [done..|by eapply Hresults|done|done|done]|by apply Hexp].
    exists row, e. split_and!; try done; [|apply HK..]. apply elem_of_app. by right. }
  split.
  - intros (_ & _ & Hall). split; [done|]. intros m Hm Hreq. destruct (Hrow m Hm Hreq) as (row & e & Hin & Hraw & Hid & Hd & HK).
    exists row, e. split_and!; try done; apply HK; apply Hall; try done; rewrite Hid; apply list_elem_of_fmap_2; by apply required_supported.
  - intros [_ Hall]. split_and!; [done|by apply required_count|]. intros row Hin (m & Hid & [Hm Hreq]%required_supported)%list_elem_of_fmap.
    destruct (Hrow m Hm Hreq) as (row' & e & Hin' & Hraw & Hid' & Hd & HK), (Hall m Hm Hreq) as (row'' & e' & Hin'' & Hid'' & Hraw' & Hkill).
    assert (NoDup (map cr_id (unsupported_rows p campaign ++ drows))) as Hnd by by rewrite Hperm.
    assert (row = row') as -> by (eapply NoDup_map_inj; [exact Hnd|done|done|congruence]).
    assert (row'' = row') as -> by (eapply NoDup_map_inj; [exact Hnd|done|done|congruence]).
    simplify_eq. split; [done|by apply HK].
Qed.
End run.

(** ** A campaign *)

Definition sample_digest : js := JStr (replicate 64 0x61%N).
Definition sample_identity (id : string) : js := JObj [($"id", JStr (lit id)); ($"sha256", sample_digest)].
Definition sample_support (s : js) : js := JObj [($"support", s)].

Definition sample_protected : object_t :=
  map (fun key => (lit key, sample_identity key)) single_identities ++
  [($"probes", JArr [sample_identity "probe"]); ($"executionProfiles", JArr [sample_identity "profile"])].

Definition sample_mutant (id : string) (state : Z) (support : js) : js :=
  JObj [($"id", JStr (lit id)); ($"implementation", sample_identity id);
        ($"expected", JObj [($"kind", JStr ($"behavioral_mismatch")); ($"code", JStr ($"replay_mismatch"));
                            ($"traceIndex", JNum (num_of_Z 0)); ($"stateIndex", JNum (num_of_Z state)); ($"action", JStr ($"enqueue"))]);
        ($"resetPlanId", JStr ($"reset")); ($"probeIds", JArr [JStr ($"probe")]);
        ($"paths", JObj [($"local", support); ($"gate", JObj [($"support", JStr ($"unsupported")); ($"reason", JStr ($"no service"))])])].

Definition sample_declaration (mutants : list js) : js :=
  JObj [($"schema", JStr ($"mirrorecma.mutation-campaign/v1")); ($"id", JStr ($"queue")); ($"revision", JNum (num_of_Z 2));
        ($"evidenceLinks", JObj [($"catalogSelectionRef", JObj [($"schemaVersion", JStr ($"mirrors.framework-catalog/v1"));
            ($"selectionKind", JStr ($"sha256")); ($"selectionValue", sample_digest)])]);
        ($"denominator", JNum (num_of_Z (Z.of_nat (length mutants)))); ($"protected", JObj sample_protected); ($"mutants", JArr mutants)].

Definition sample_input : js :=
  sample_declaration [sample_mutant "drops" 1 (sample_support (JStr ($"required"))); sample_mutant "stale" 4 (sample_support (JStr ($"optional")))].

Definition sample_evaluation (failure : option SuiteFailure) : MutationEvaluation :=
  MkEvaluation (MkSuiteResult (match failure with None => true | Some _ => false end) CSucceeded failure (Some ($"enqueue"))) None (MkProbe ProbePassed None).
Definition sample_mismatch (state : Z) : MutationEvaluation :=
  sample_evaluation (Some (MkSuiteFailure FReplay KMismatch ($"model_mismatch") (Some 0%Z) (Some state))).

(** The first mutant is killed, the second survives. *)
Definition sample_env : campaign_env :=
  MkCampaignEnv 0 (Observed (JObj (rev sample_protected))) (OutcomeReturned (sample_evaluation None)) 5 false
    (fun i => MkCaseEnv false 7 8 (Observed (JObj sample_protected))
       (OutcomeReturned (match i with O => sample_mismatch 1 | _ => sample_evaluation None end)) 3).

Definition sample_policy : raw_policy := RawPolicy (num_of_Z 256) (num_of_Z 10000) (num_of_Z 500) (num_of_Z 100).
Definition no_text (x : number) : ustring := [].

Definition campaign_of (r : res campaign_thrown MutationCampaign) : MutationCampaign :=
  match r with Ok c => c | Err _ => MkCampaign [] 0 JNull 0 [] [] end.
Definition sample_campaign : MutationCampaign := Eval vm_compute in campaign_of (validateMutationCampaign no_text None sample_input).

Definition result_of (r : res campaign_thrown MutationCampaignResult) : MutationCampaignResult :=
  match r with
  | Ok r => r
  | Err _ => MkCampaignResult [] 0 Local 0 0 BaselineFailed AcceptanceIncomplete [] (baseline_row Local 0 None) []
  end.
Definition sample_result : MutationCampaignResult :=
  Eval vm_compute in result_of (runMutationCampaign no_text sample_input sample_policy Local sample_env []).1.
Definition sample_calls : list campaign_call := Eval vm_compute in (runMutationCampaign no_text sample_input sample_policy Local sample_env []).2.

Lemma sample_validates : validateMutationCampaign no_text None sample_input = Ok sample_campaign.
Proof. vm_compute. reflexivity. Qed.

Lemma sample_runs : runMutationCampaign no_text sample_input sample_policy Local sample_env [] = (Ok sample_result, sample_calls).
Proof. vm_compute. reflexivity. Qed.

Example campaign_validated_witness :
  mc_denominator sample_campaign = 2%Z /\ NoDup (map md_id (mc_mutants sample_campaign)).
Proof. split; [reflexivity|]. apply (campaign_validated no_text None sample_input sample_campaign sample_validates). Defined.

Example campaign_rows_witness :
  map cr_disposition (cp_mutants sample_result) = [Attempted; Attempted] /\ NoDup (map cr_id (cp_mutants sample_result)).
Proof.
  split; [reflexivity|].
  destruct (campaign_rows no_text sample_input sample_policy Local sample_env sample_result sample_calls sample_runs)
    as (? & ? & ? & ? & ? & ? & ? & _ & _ & _ & _ & _ & _ & _ & H & _). exact H.
Defined.

Example campaign_met_witness :
  cp_acceptance sample_result = Met /\ cr_classification <$> cp_mutants sample_result = [Some Killed; Some Survived] /\
  accepted_baseline Local sample_env.
Proof.
  split; [reflexivity|]. split; [reflexivity|].
  destruct (campaign_met no_text sample_input sample_policy Local sample_env sample_result sample_calls) as (? & ? & _ & _ & H);
    [|exact sample_runs|by apply H].
  intros [|i] e [= <-]; (split; [cbn; apply js_string_lit|done]).
Defined.

Example campaign_isolated_witness :
  exists pre post m, sample_calls = pre ++ CallEvaluation (MutantCase m) 500 100 :: post /\ evaluated pre = [] /\ accepted_baseline Local sample_env.
Proof.
  eexists [_; _; _], _, _. split; [reflexivity|]. split; [reflexivity|].
  destruct (campaign_isolated no_text sample_input sample_policy Local sample_env _ sample_calls [_; _; _] _ _ _ _ sample_runs eq_refl)
    as (? & ? & _ & _ & _ & H & _). exact H.
Defined.

(** The list with the word "required" as its only element has the same text, so it is
    accepted as the support of a path; but it is not the word, so the mutant is not
    required: a campaign whose only mutant survives is accepted. *)
Definition listed_input : js := sample_declaration [sample_mutant "drops" 4 (sample_support (JArr [JStr ($"required")]))].

Example listed_support_not_required :
  let '(r, _) := runMutationCampaign no_text listed_input sample_policy Local
    (MkCampaignEnv 0 (Observed (JObj sample_protected)) (OutcomeReturned (sample_evaluation None)) 5 false (fun i => ca_cases sample_env (S i))) [] in
  cp_acceptance (result_of r) = Met /\ cp_requiredOnPath (result_of r) = 0%Z /\ map cr_classification (cp_mutants (result_of r)) = [Some Survived].
Proof. vm_compute. by split_and!. Qed.
