(* ===== verification/FrameworkText.v ===== *)
(** * Texts of the framework catalogue

    [src/src/framework-catalog.ts]: its refusals, the bounded parser that refuses
    repeated names ([strictJson]), the checks of fields, and the canonical text
    ([canonicalFrameworkJson]) that its digests are taken of.

    A refusal is its code and its predicate; the texts of the details are left out. Any
    other error is [Foreign]: the callers report it as an internal refusal. *)

From S2P Require Import Prelude JsNumber Utf16 JsData StrictJson Decode JsText Descriptor Transport Reproduction BundleText Bundle.

(** ** Refusals *)

Inductive FrameworkRefusalCode :=
| CatalogInvalid | CatalogSelectionMismatch | CombinationUnsupported | ComponentIdentityMismatch | DistributionIdentityMismatch
| ArtifactIdentityMismatch | PackageIdentityMismatch | ExecutableIdentityMismatch | RuntimeIdentityMismatch
| PlatformIdentityMismatch | CapabilityUnsupported.

Inductive framework_thrown := Refuse (code : FrameworkRefusalCode) (predicate : ustring) | Foreign (e : exn).

Definition refuse {A} (code : FrameworkRefusalCode) (predicate : ustring) : res framework_thrown A := Err (Refuse code predicate).
Definition refuse_unless (b : bool) (code : FrameworkRefusalCode) (predicate : ustring) : res framework_thrown unit :=
  if b then Ok tt else refuse code predicate.
Definition strange {A} (r : res exn A) : res framework_thrown A := match r with Ok a => Ok a | Err e => Err (Foreign e) end.

Definition scalarString (value path : ustring) : res framework_thrown ustring :=
  if well_formed value then Ok value else refuse CatalogInvalid path.

(** ** The parser *)

Definition MAX_BYTES : N := 4194304.
Definition MAX_DEPTH : nat := 32.
Definition MAX_NODES : N := 65536.
Definition MAX_STRING : N := 65536.
Definition MAX_ITEMS : N := 4096.

Section parser.
Context (label : ustring).

Abbreviation scanner A := (stres raw_state framework_thrown A).

Definition bad {A} : scanner A := fun _ => refuse CatalogInvalid label.
Definition look : scanner (option N) := fun s => Ok (head (rw_rest s), s).
Definition skip (n : nat) : scanner unit := fun s => Ok (tt, RawState (drop n (rw_rest s)) (rw_nodes s)).
Definition ws : scanner unit := fun s => skip (ws_length (rw_rest s)) s.

(** The units of a string token after its opening quote, up to and with the closing one. *)
Fixpoint token_length (escaped : bool) (t : ustring) : option nat :=
  match t with
  | [] => None
  | c :: t' =>
      if escaped then S <$> token_length false t'
      else if (c =? 0x5c)%N then S <$> token_length true t'
      else if (c =? 0x22)%N then Some 1%nat
      else if (c <? 0x20)%N then None
      else S <$> token_length false t'
  end.

Definition string_token : scanner ustring := fun s =>
  match rw_rest s with
  | 0x22%N :: t =>
      match token_length false t with
      | None => refuse CatalogInvalid label
      | Some n =>
          v ← strange (JSON_parse (take (S n) (rw_rest s)));
          match v with
          | JStr value =>
              value ← scalarString value label;
              _ ← refuse_unless (negb (MAX_STRING <? byteLength value)%N) CatalogInvalid label;
              Ok (value, RawState (drop (S n) (rw_rest s)) (rw_nodes s))
          | _ => Err (Foreign (Exn XSyntax []))
          end
      end
  | _ => refuse CatalogInvalid label
  end.

Definition expect (c : N) : scanner unit := u ← look; _ ← skip 1; if bool_decide (u = Some c) then mret tt else bad.

(** The loop over the members; [fuel] is more than the units that are left. *)
Fixpoint object_members (fuel : nat) (child : scanner unit) (names : list ustring) : scanner unit :=
  match fuel with
  | O => fun _ => Err (Foreign (Exn XFuel []))
  | S fuel' =>
      key ← string_token;
      if bool_decide (key ∈ names) then bad
      else
        let names' := key :: names in
        if (MAX_ITEMS <? N.of_nat (length names'))%N then bad
        else
          _ ← ws; _ ← expect 0x3a; _ ← child; _ ← ws; u ← look;
          if bool_decide (u = Some 0x7d%N) then skip 1
          else _ ← expect 0x2c; _ ← ws; object_members fuel' child names'
  end.

Fixpoint array_elements (fuel : nat) (child : scanner unit) (count : N) : scanner unit :=
  match fuel with
  | O => fun _ => Err (Foreign (Exn XFuel []))
  | S fuel' =>
      if (MAX_ITEMS <? count + 1)%N then bad
      else
        _ ← child; _ ← ws; u ← look;
        if bool_decide (u = Some 0x5d%N) then skip 1
        else _ ← expect 0x2c; _ ← ws; array_elements fuel' child (count + 1)
  end.

Definition scalar_token : scanner unit := fun s =>
  match raw_scalar_length (rw_rest s) with None => refuse CatalogInvalid label | Some n => skip n s end.

(** [depth_left]: one more than the nesting that is left. *)
Fixpoint json_value (depth_left : nat) : scanner unit :=
  match depth_left with
  | O => bad
  | S d => fun s0 =>
      let nodes' := (rw_nodes s0 + 1)%N in
      if (MAX_NODES <? nodes')%N then refuse CatalogInvalid label
      else
        (_ ← ws;
         u ← look;
         if bool_decide (u = Some 0x7b%N) then
           _ ← skip 1; _ ← ws; u2 ← look;
           if bool_decide (u2 = Some 0x7d%N) then skip 1
           else fun s => object_members (S (length (rw_rest s))) (json_value d) [] s
         else if bool_decide (u = Some 0x5b%N) then
           _ ← skip 1; _ ← ws; u2 ← look;
           if bool_decide (u2 = Some 0x5d%N) then skip 1
           else fun s => array_elements (S (length (rw_rest s))) (json_value d) 0 s
         else if bool_decide (u = Some 0x22%N) then _ ← string_token; mret tt
         else scalar_token) (RawState (rw_rest s0) nodes')
  end.

(** The values in a value, and whether its numbers are safe integers. *)
Fixpoint json_nodes (v : js) : N :=
  match v with
  | JArr l => fold_right (fun x n => json_nodes x + n)%N 1%N l
  | JObj o => fold_right (fun kv n => json_nodes kv.2 + n)%N 1%N o
  | _ => 1
  end.
Fixpoint json_safe (v : js) : bool :=
  match v with
  | JNum x => num_isSafeInteger x
  | JArr l => forallb json_safe l
  | JObj o => forallb (fun kv => json_safe kv.2) o
  | _ => true
  end.

Definition input_text (input : raw_input) : res framework_thrown ustring :=
  match input with
  | RawText t => scalarString t label
  | RawBytes bs => match text_decode bs with Some t => Ok t | None => refuse CatalogInvalid label end
  end.

Definition strictJson (input : raw_input) : res framework_thrown js :=
  raw ← input_text input;
  _ ← refuse_unless (negb (MAX_BYTES <? byteLength raw)%N) CatalogInvalid label;
  end_state ← snd <$> (_ ← json_value (S MAX_DEPTH); ws) (RawState raw 0);
  _ ← refuse_unless (match rw_rest end_state with [] => true | _ => false end) CatalogInvalid label;
  parsed ← match JSON_parse raw with Ok v => Ok v | Err _ => refuse CatalogInvalid label end;
  _ ← refuse_unless (negb (MAX_NODES <? json_nodes parsed)%N && json_safe parsed) CatalogInvalid label;
  mret parsed.
End parser.

Definition jsonInputBytes (input : raw_input) : list N := match input with RawText t => utf8_bytes t | RawBytes bs => bs end.

(** ** Fields *)

Definition object (value : js) (path : ustring) (names required : list string) : res framework_thrown object_t :=
  match value with
  | JObj o =>
      if forallb (fun k => bool_decide (k ∈ map lit names)) (keys o) && forallb (fun k => has_own o (lit k)) required then Ok o
      else refuse CatalogInvalid path
  | _ => refuse CatalogInvalid path
  end.

(** [object] with every name required. *)
Definition object_all (value : js) (path : ustring) (names : list string) : res framework_thrown object_t := object value path names names.

Definition text (value : js) (path : ustring) : res framework_thrown ustring :=
  match value with
  | JStr s =>
      if bool_decide (s = []) || (MAX_STRING <? byteLength s)%N || bool_decide (0%N ∈ s) then refuse CatalogInvalid path
      else scalarString s path
  | _ => refuse CatalogInvalid path
  end.

Definition id (value : js) (path : ustring) : res framework_thrown ustring :=
  result ← text value path;
  if (256 <? byteLength result)%N then refuse CatalogInvalid path else mret result.

Definition array (value : js) (path : ustring) (max : nat) : res framework_thrown (list js) :=
  match value with JArr l => if (max <? length l)%nat then refuse CatalogInvalid path else Ok l | _ => refuse CatalogInvalid path end.

(** [`${path}[${index}]`] *)
Definition at_index (path : ustring) (i : N) : ustring := path ++ $"[" ++ dec_of_N i ++ $"]".

Definition strings (value : js) (path : ustring) (max : nat) : res framework_thrown (list ustring) :=
  l ← array value path max;
  result ← mapMi (fun i v => id v (at_index path i)) l;
  if no_repeats result then mret result else refuse CatalogInvalid path.

Definition integer (value : js) (path : ustring) (min max : Z) : res framework_thrown Z :=
  match value with
  | JNum x =>
      match num_safe_Z x with
      | Some z => if ((min <=? z) && (z <=? max))%Z then Ok z else refuse DistributionIdentityMismatch path
      | None => refuse DistributionIdentityMismatch path
      end
  | _ => refuse DistributionIdentityMismatch path
  end.

Definition digest (value : js) (path : ustring) : res framework_thrown ustring :=
  result ← text value path; if is_sha256 result then mret result else refuse CatalogInvalid path.

Definition drive_letter (s : ustring) : bool := match s with c :: 0x3a%N :: _ => is_upper c || is_lower c | _ => false end.

Definition pathValue (value : js) (path : ustring) : res framework_thrown ustring :=
  result ← text value path;
  if prefixed ($"/") result || drive_letter result || contains [0x5c%N] result || contains ($"//") result ||
     existsb (fun c => (c <? 0x20)%N || (c =? 0x7f)%N) result ||
     existsb (fun part => bool_decide (part ∈ [[]; $"."; $".."])) (split_slash result)
  then refuse CatalogInvalid path
  else mret result.

(** [names.includes(v)] *)
Definition one_of (names : list string) (v : js) : bool := existsb (is_str v) names.
Definition one_of_text (names : list string) (s : ustring) : bool := bool_decide (s ∈ map lit names).

(** ** The canonical text *)

Definition hex4 (n : N) : ustring := [hex_digit (n / 4096); hex_digit (n / 256 mod 16); hex_digit (n / 16 mod 16); hex_digit (n mod 16)]%N.

Definition canonical_character (c : ustring) : ustring :=
  let code := codePointAt0 c in
  if (code =? 0x22)%N then [0x5c; 0x22]%N
  else if (code =? 0x5c)%N then [0x5c; 0x5c]%N
  else if (code <? 0x20)%N then $"\u" ++ hex4 code
  else c.

Definition quoted_text (value : ustring) : ustring := [0x22%N] ++ concat (map canonical_character (characters value)) ++ [0x22%N].

Definition canonicalString (value : ustring) : res framework_thrown ustring :=
  _ ← scalarString value ($"canonical string"); mret (quoted_text value).

(** [Buffer.compare] of two names. *)
Definition by_bytes {A} (a b : ustring * A) : comparison := compare_lists (utf8_bytes a.1) (utf8_bytes b.1).

Fixpoint canonicalFrameworkJson (value : js) : res framework_thrown ustring :=
  match value with
  | JNull => Ok ($"null")
  | JStr s => canonicalString s
  | JBool b => Ok (if b then $"true" else $"false")
  | JNum x => match num_safe_Z x with Some z => Ok (dec_of_Z z) | None => refuse CatalogInvalid ($"canonical") end
  | JArr l => items ← mapM canonicalFrameworkJson l; mret ($"[" ++ join ($",") items ++ $"]")
  | JObj o =>
      items ← mapM (fun e : ustring * res framework_thrown ustring =>
                      name ← canonicalString e.1; item ← e.2; mret (name ++ $":" ++ item))
                (sort_by by_bytes (map (fun kv => (kv.1, canonicalFrameworkJson kv.2)) o));
      mret ($"{" ++ join ($",") items ++ $"}")
  | JUndef | JBig _ => refuse CatalogInvalid ($"canonical")
  end.

Definition same (left right : js) : res framework_thrown bool :=
  l ← canonicalFrameworkJson left; r ← canonicalFrameworkJson right; mret (bool_decide (l = r)).

Section digest.
Context (sha256 : list N -> ustring).
Definition frameworkCatalogDigest (value : js) : res framework_thrown ustring :=
  text ← canonicalFrameworkJson value; mret (sha256 (utf8_bytes text)).
End digest.
