(* ===== verification/FrameworkCatalog.v ===== *)
(** * The framework catalogue

    [src/src/framework-catalog.ts]: references to catalogues and components, platforms
    ([selection], [componentRef], [platform]) and the catalogue itself ([parseCatalog]).
    What a parsed document is read as are records; the frozen copies of the source have
    no counterpart. *)

From S2P Require Import Prelude JsNumber Utf16 JsData StrictJson JsText Decode Descriptor Transport Reproduction BundleText Bundle FrameworkText.

(** ** Identities *)

Record CatalogSelectionRef := MkSelection { cs_schemaVersion : ustring; cs_selectionKind : ustring; cs_selectionValue : ustring }.

Record dirty_content := MkDirty {
  dc_algorithm : ustring;
  dc_digest : ustring;
  dc_method : ustring;
  dc_includedPaths : list ustring;
  dc_excludedPaths : list (ustring * ustring) }.

Record ComponentRef := MkComponent {
  cf_componentId : ustring;
  cf_repository : ustring;
  cf_revision : ustring;
  cf_dirty : bool;
  cf_dirtyContent : option dirty_content }.

Record PlatformIdentity := MkPlatform {
  pl_os : ustring;
  pl_osRelease : ustring;
  pl_architecture : ustring;
  pl_backend : option ustring }.

Definition CATALOG_SCHEMA : string := "mirrors.framework-catalog/v1".

Definition selection (value : js) (path : ustring) : res framework_thrown CatalogSelectionRef :=
  item ← object_all value path ["schemaVersion"; "selectionKind"; "selectionValue"]%string;
  _ ← refuse_unless (is_str (getf item ($"schemaVersion")) CATALOG_SCHEMA && is_str (getf item ($"selectionKind")) "sha256") CatalogInvalid path;
  d ← digest (getf item ($"selectionValue")) (path ++ $".selectionValue");
  mret (MkSelection (lit CATALOG_SCHEMA) ($"sha256") d).

Definition text_of (v : js) : ustring := match v with JStr s => s | _ => [] end.

Definition excluded_path (path : ustring) (index : N) (entry : js) : res framework_thrown (ustring * ustring) :=
  let here := at_index (path ++ $".dirtyContent.excludedPaths") index in
  record ← object_all entry here ["path"; "reasonCode"]%string;
  let reason := getf record ($"reasonCode") in
  _ ← refuse_unless (one_of ["pre-existing-unrelated"; "evidence-output"; "build-output"; "planning-documentation"]%string reason)
        CatalogInvalid (here ++ $".reasonCode");
  p ← pathValue (getf record ($"path")) (here ++ $".path");
  mret (p, text_of reason).

Definition dirtyContent (value : js) (path : ustring) : res framework_thrown dirty_content :=
  dirty ← object_all value (path ++ $".dirtyContent") ["algorithm"; "digest"; "method"; "includedPaths"; "excludedPaths"]%string;
  let method := getf dirty ($"method") in
  _ ← refuse_unless (is_str (getf dirty ($"algorithm")) "sha256" && one_of ["git-diff-and-untracked-manifest-v1"; "filesystem-tree-v1"]%string method)
        CatalogInvalid (path ++ $".dirtyContent");
  named ← strings (getf dirty ($"includedPaths")) (path ++ $".dirtyContent.includedPaths") 4096;
  included ← mapMi (fun i s => pathValue (JStr s) (at_index (path ++ $".dirtyContent.includedPaths") i)) named;
  listed ← array (getf dirty ($"excludedPaths")) (path ++ $".dirtyContent.excludedPaths") 4096;
  excluded ← mapMi (excluded_path path) listed;
  d ← digest (getf dirty ($"digest")) (path ++ $".dirtyContent.digest");
  mret (MkDirty ($"sha256") d (text_of method) included excluded).

Definition is_revision (s : ustring) : bool := is_git_revision s.

Definition componentRef (value : js) (path : ustring) : res framework_thrown ComponentRef :=
  item ← object value path ["componentId"; "repository"; "revision"; "dirty"; "dirtyContent"]%string
           ["componentId"; "repository"; "revision"; "dirty"]%string;
  revision ← text (getf item ($"revision")) (path ++ $".revision");
  _ ← refuse_unless (is_revision revision) CatalogInvalid (path ++ $".revision");
  dirty ← match getf item ($"dirty") with JBool b => Ok b | _ => refuse CatalogInvalid (path ++ $".dirty") end;
  content ← (if dirty : bool then Some <$> dirtyContent (getf item ($"dirtyContent")) path
             else match getf item ($"dirtyContent") with
                  | JUndef => Ok None
                  | _ => refuse CatalogInvalid (path ++ $".dirtyContent")
                  end);
  componentId ← id (getf item ($"componentId")) (path ++ $".componentId");
  repository ← text (getf item ($"repository")) (path ++ $".repository");
  mret (MkComponent componentId repository revision dirty content).

(** A field that may be absent. *)
Definition absent_or {A} (v : js) (f : js -> res framework_thrown A) : res framework_thrown (option A) :=
  match v with JUndef => Ok None | _ => Some <$> f v end.

Definition platform (value : js) (path : ustring) : res framework_thrown PlatformIdentity :=
  item ← object value path ["os"; "osRelease"; "architecture"; "backend"]%string ["os"; "osRelease"; "architecture"]%string;
  os ← id (getf item ($"os")) (path ++ $".os");
  release ← id (getf item ($"osRelease")) (path ++ $".osRelease");
  architecture ← id (getf item ($"architecture")) (path ++ $".architecture");
  backend ← absent_or (getf item ($"backend")) (fun v => id v (path ++ $".backend"));
  mret (MkPlatform os release architecture backend).

(** ** The catalogue *)

Record catalog_component := MkCatalogComponent { cc_componentRef : ComponentRef; cc_name : ustring; cc_version : ustring }.

Record capability_constraint := MkConstraint {
  ct_constraintId : ustring;
  ct_factKind : ustring;
  ct_factId : ustring;
  ct_operator : ustring;
  ct_values : list ustring }.

Record capability := MkCapability {
  cb_capabilityId : ustring;
  cb_ownerComponentId : ustring;
  cb_declarationState : ustring;
  cb_constraints : list capability_constraint;
  cb_observations : list (ustring * (ustring * option ustring)) }.

Record dependency := MkDependency { dp_dependencyId : ustring; dp_version : option ustring; dp_className : ustring }.

Record distribution_profile := MkProfile {
  df_profileId : ustring;
  df_platform : PlatformIdentity;
  df_requiredCapabilityIds : list ustring;
  df_optionalCapabilityIds : list ustring;
  df_requiredObservationDimensions : list ustring;
  df_dependencies : list dependency }.

Record combination := MkCombination {
  cn_combinationId : ustring;
  cn_componentIds : list ustring;
  cn_platform : PlatformIdentity;
  cn_capabilityIds : list ustring;
  cn_distributionProfileIds : list ustring;
  cn_declaredState : ustring }.

Record Catalog := MkCatalog {
  ca_catalogId : ustring;
  ca_visibility : ustring;
  ca_components : list catalog_component;
  ca_capabilities : list capability;
  ca_distributionProfiles : list distribution_profile;
  ca_combinations : list combination;
  ca_raw : js }.

Definition observationDimensions : list string :=
  ["sourceTested"; "locallyAccepted"; "installedConsumerAccepted"; "hostedCiAccepted"; "published"]%string.

Definition component_record (path : ustring) (index : N) (value : js) : res framework_thrown unit :=
  r ← object_all value (at_index (path ++ $".records") index) ["recordId"; "path"; "recordKind"]%string;
  _ ← id (getf r ($"recordId")) ($"recordId");
  _ ← pathValue (getf r ($"path")) ($"path");
  _ ← id (getf r ($"recordKind")) ($"recordKind");
  mret tt.

Definition parse_component (index : N) (entry : js) : res framework_thrown catalog_component :=
  let path := at_index ($"$.components") index in
  item ← object_all entry path ["componentRef"; "product"; "records"]%string;
  product ← object_all (getf item ($"product")) (path ++ $".product") ["name"; "version"]%string;
  records ← array (getf item ($"records")) (path ++ $".records") 256;
  _ ← mapMi (component_record path) records;
  reference ← componentRef (getf item ($"componentRef")) (path ++ $".componentRef");
  name ← text (getf product ($"name")) ($"product.name");
  version ← text (getf product ($"version")) ($"product.version");
  mret (MkCatalogComponent reference name version).

(** The evidence that is listed: [seen] are the ids before, last first. *)
Fixpoint parse_evidence (index : N) (seen : list ustring) (l : list js) : res framework_thrown (list ustring) :=
  match l with
  | [] => Ok seen
  | entry :: l' =>
      item ← object_all entry (at_index ($"$.evidenceRefs") index) ["evidenceId"; "runRef"]%string;
      evidenceId ← id (getf item ($"evidenceId")) ($"evidenceId");
      _ ← refuse_unless (negb (bool_decide (evidenceId ∈ seen))) CatalogInvalid ($"$.evidenceRefs");
      reference ← object_all (getf item ($"runRef")) ($"runRef") ["schemaVersion"; "runId"; "envelopeSha256"; "projectionKind"]%string;
      _ ← text (getf reference ($"schemaVersion")) ($"runRef.schemaVersion");
      _ ← id (getf reference ($"runId")) ($"runRef.runId");
      _ ← digest (getf reference ($"envelopeSha256")) ($"runRef.envelopeSha256");
      _ ← refuse_unless (one_of ["public"; "private"]%string (getf reference ($"projectionKind"))) CatalogInvalid ($"runRef.projectionKind");
      parse_evidence (index + 1) (evidenceId :: seen) l'
  end.

Definition parse_constraint (index : N) (value : js) : res framework_thrown capability_constraint :=
  c ← object_all value (at_index ($"constraint") index) ["constraintId"; "fact"; "operator"; "values"]%string;
  fact ← object_all (getf c ($"fact")) ($"fact") ["kind"; "id"]%string;
  operator ← id (getf c ($"operator")) ($"operator");
  _ ← refuse_unless (one_of_text ["equals"; "oneOf"; "atLeastSemver"]%string operator) CatalogInvalid ($"constraint.operator");
  constraintId ← id (getf c ($"constraintId")) ($"constraintId");
  kind ← id (getf fact ($"kind")) ($"fact.kind");
  factId ← id (getf fact ($"id")) ($"fact.id");
  values ← strings (getf c ($"values")) ($"values") 256;
  mret (MkConstraint constraintId kind factId operator values).

Definition source_location (index : N) (value : js) : res framework_thrown unit :=
  l ← object value (at_index ($"location") index) ["path"; "symbol"]%string ["path"]%string;
  _ ← pathValue (getf l ($"path")) ($"location.path");
  _ ← absent_or (getf l ($"symbol")) (fun v => text v ($"location.symbol"));
  mret tt.

(** Whether an observation in a state may, and must, name evidence that is listed. *)
Definition evidence_fits (evidenceIds : list ustring) (state : ustring) (evidence : option ustring) : bool :=
  negb (one_of_text ["accepted"; "rejected"]%string state && bool_decide (evidence = None)) &&
  negb (one_of_text ["notRun"; "unknown"]%string state && negb (bool_decide (evidence = None))) &&
  match evidence with Some e => bool_decide (e ∈ evidenceIds) | None => true end.

Definition parse_observation (evidenceIds : list ustring) (observations : object_t) (dimension : string)
    : res framework_thrown (ustring * (ustring * option ustring)) :=
  let d := lit dimension in
  observed ← object (getf observations d) ($"observations." ++ d) ["state"; "evidenceId"]%string ["state"]%string;
  state ← id (getf observed ($"state")) (d ++ $".state");
  _ ← refuse_unless (one_of_text ["accepted"; "rejected"; "unavailable"; "notRun"; "unknown"]%string state)
        CatalogInvalid ($"observations." ++ d ++ $".state");
  evidence ← absent_or (getf observed ($"evidenceId")) (fun v => id v (d ++ $".evidenceId"));
  _ ← refuse_unless (evidence_fits evidenceIds state evidence) CatalogInvalid ($"observations." ++ d ++ $".evidenceId");
  mret (d, (state, evidence)).

Definition parse_capability (evidenceIds : list ustring) (index : N) (entry : js) : res framework_thrown capability :=
  item ← object_all entry (at_index ($"$.capabilities") index)
           ["capabilityId"; "ownerComponentId"; "description"; "declaration"; "sourceImplementation"; "observations"]%string;
  declaration ← object_all (getf item ($"declaration")) ($"declaration") ["state"; "constraints"]%string;
  listed ← array (getf declaration ($"constraints")) ($"constraints") 256;
  constraints ← mapMi parse_constraint listed;
  source ← object_all (getf item ($"sourceImplementation")) ($"sourceImplementation") ["state"; "locations"]%string;
  _ ← id (getf source ($"state")) ($"source.state");
  locations ← array (getf source ($"locations")) ($"locations") 256;
  _ ← mapMi source_location locations;
  observations ← object_all (getf item ($"observations")) ($"observations") observationDimensions;
  decoded ← mapM (parse_observation evidenceIds observations) observationDimensions;
  state ← id (getf declaration ($"state")) ($"declaration.state");
  _ ← refuse_unless (one_of_text ["available"; "experimental"; "unavailable"]%string state) CatalogInvalid ($"declaration.state");
  capabilityId ← id (getf item ($"capabilityId")) ($"capabilityId");
  owner ← id (getf item ($"ownerComponentId")) ($"ownerComponentId");
  mret (MkCapability capabilityId owner state constraints decoded).

Definition parse_dependency (value : js) : res framework_thrown dependency :=
  d ← object value ($"dependency") ["dependencyId"; "version"; "class"]%string ["dependencyId"; "class"]%string;
  dependencyId ← id (getf d ($"dependencyId")) ($"dependencyId");
  className ← id (getf d ($"class")) ($"dependency.class");
  version ← absent_or (getf d ($"version")) (fun v => text v ($"dependency.version"));
  mret (MkDependency dependencyId version className).

Definition parse_profile (index : N) (entry : js) : res framework_thrown distribution_profile :=
  item ← object_all entry (at_index ($"$.distributionProfiles") index)
           ["profileId"; "platform"; "requiredCapabilityIds"; "optionalCapabilityIds"; "requiredObservationDimensions"; "dependencies"]%string;
  listed ← array (getf item ($"dependencies")) ($"dependencies") 256;
  dependencies ← mapM parse_dependency listed;
  profileId ← id (getf item ($"profileId")) ($"profileId");
  p ← platform (getf item ($"platform")) ($"profile.platform");
  required ← strings (getf item ($"requiredCapabilityIds")) ($"requiredCapabilityIds") 256;
  optional ← strings (getf item ($"optionalCapabilityIds")) ($"optionalCapabilityIds") 256;
  dimensions ← strings (getf item ($"requiredObservationDimensions")) ($"requiredObservationDimensions") 256;
  mret (MkProfile profileId p required optional dimensions dependencies).

Definition parse_combination (evidenceIds : list ustring) (entry : js) : res framework_thrown combination :=
  item ← object_all entry ($"combination")
           ["combinationId"; "componentIds"; "platform"; "capabilityIds"; "distributionProfileIds"; "declaredState"; "evidenceIds"]%string;
  evidence ← strings (getf item ($"evidenceIds")) ($"evidenceIds") 4096;
  _ ← refuse_unless (forallb (fun e => bool_decide (e ∈ evidenceIds)) evidence) CatalogInvalid ($"combination.evidenceIds");
  state ← id (getf item ($"declaredState")) ($"declaredState");
  _ ← refuse_unless (one_of_text ["candidate"; "supported"; "unsupported"]%string state) CatalogInvalid ($"combination.declaredState");
  combinationId ← id (getf item ($"combinationId")) ($"combinationId");
  components ← strings (getf item ($"componentIds")) ($"componentIds") 256;
  p ← platform (getf item ($"platform")) ($"combination.platform");
  capabilities ← strings (getf item ($"capabilityIds")) ($"capabilityIds") 256;
  profiles ← strings (getf item ($"distributionProfileIds")) ($"distributionProfileIds") 256;
  mret (MkCombination combinationId components p capabilities profiles state).

Definition unique (items : list ustring) (path : string) : res framework_thrown unit := refuse_unless (no_repeats items) CatalogInvalid (lit path).

Definition all_in (items known : list ustring) (predicate : string) : res framework_thrown unit :=
  refuse_unless (forallb (fun i => bool_decide (i ∈ known)) items) CatalogInvalid (lit predicate).

Definition component_id (c : catalog_component) : ustring := cf_componentId (cc_componentRef c).

(** What the parts of a catalogue refer to is there. *)
Definition check_references (components : list catalog_component) (capabilities : list capability) (profiles : list distribution_profile)
    (combinations : list combination) : res framework_thrown unit :=
  _ ← unique (map component_id components) "components";
  _ ← unique (map cb_capabilityId capabilities) "capabilities";
  _ ← unique (map df_profileId profiles) "profiles";
  _ ← unique (map cn_combinationId combinations) "combinations";
  _ ← mapM (fun c => all_in [cb_ownerComponentId c] (map component_id components) "capability.ownerComponentId") capabilities;
  _ ← mapM (fun c => _ ← all_in (cn_componentIds c) (map component_id components) "combination.componentIds";
                     _ ← all_in (cn_capabilityIds c) (map cb_capabilityId capabilities) "combination.capabilityIds";
                     all_in (cn_distributionProfileIds c) (map df_profileId profiles) "combination.distributionProfileIds") combinations;
  mret tt.

Definition root_names : list string :=
  ["schemaVersion"; "catalogId"; "visibility"; "components"; "evidenceRefs"; "capabilities"; "distributionProfiles"; "combinations"]%string.

Definition parseCatalog (raw : raw_input) : res framework_thrown Catalog :=
  parsed ← strictJson ($"catalog") raw;
  root ← object parsed ($"$") (root_names ++ ["extensions"]%string) root_names;
  _ ← refuse_unless (is_str (getf root ($"schemaVersion")) CATALOG_SCHEMA) CatalogInvalid ($"$.schemaVersion");
  _ ← refuse_unless (one_of ["public"; "private"]%string (getf root ($"visibility"))) CatalogInvalid ($"$.visibility");
  l ← array (getf root ($"components")) ($"$.components") 64;
  components ← mapMi parse_component l;
  l ← array (getf root ($"evidenceRefs")) ($"$.evidenceRefs") 4096;
  evidenceIds ← parse_evidence 0 [] l;
  l ← array (getf root ($"capabilities")) ($"$.capabilities") 4096;
  capabilities ← mapMi (parse_capability evidenceIds) l;
  l ← array (getf root ($"distributionProfiles")) ($"$.distributionProfiles") 256;
  profiles ← mapMi parse_profile l;
  l ← array (getf root ($"combinations")) ($"$.combinations") 1024;
  combinations ← mapM (parse_combination evidenceIds) l;
  _ ← check_references components capabilities profiles combinations;
  catalogId ← id (getf root ($"catalogId")) ($"catalogId");
  mret (MkCatalog catalogId (text_of (getf root ($"visibility"))) components capabilities profiles combinations parsed).

(** ** Installed distributions

    [src/src/framework-catalog.ts]: the manifest of a distribution ([parseManifest]), the
    index of its cache ([parseCache]), and the check that the one is what the other says
    ([validatedDistribution], [validateInstalledDistributionIdentity]).

    Numbers are integers: those of a document are safe, as [integer] demands. *)

(** ** Identities *)

Record ArtifactIdentity := MkArtifactIdentity {
  ai_artifactId : ustring;
  ai_path : ustring;
  ai_bytes : Z;
  ai_sha256 : ustring;
  ai_mode : ustring }.

Record RuntimeTreeIdentity := MkTree {
  rt_treeId : ustring;
  rt_sourceArtifactId : ustring;
  rt_selectionId : ustring;
  rt_path : ustring;
  rt_algorithm : ustring;
  rt_digest : ustring;
  rt_entryCount : Z;
  rt_bytes : Z }.

Record BuildInputIdentity := MkBuildInput { bi_inputId : ustring; bi_path : ustring; bi_bytes : Z; bi_sha256 : ustring }.

Record build_tool := MkTool { bt_toolId : ustring; bt_version : ustring; bt_bytes : Z; bt_sha256 : ustring }.
Record build_tree := MkBuildTree { bx_inputId : ustring; bx_digest : ustring; bx_entryCount : Z; bx_bytes : Z }.
Record BuildProvenance := MkProvenance { bp_snapshotIndexSha256 : ustring; bp_tools : list build_tool; bp_trees : list build_tree }.

Record manifest_artifact := MkManifestArtifact {
  ma_identity : ArtifactIdentity;
  ma_kind : ustring;
  ma_mediaType : ustring;
  ma_dynamicLibraries : option (list (ustring * ustring * ustring)) }.

Record DistributionManifest := MkManifest {
  dm_catalogSelectionRef : CatalogSelectionRef;
  dm_profileId : ustring;
  dm_componentRefs : list ComponentRef;
  dm_buildInputs : list BuildInputIdentity;
  dm_buildProvenance : BuildProvenance;
  dm_artifacts : list manifest_artifact;
  dm_runtimeTrees : list RuntimeTreeIdentity;
  dm_raw : js }.

Record cache_index := MkCache {
  ci_profileId : ustring;
  ci_catalogSelectionRef : CatalogSelectionRef;
  ci_distributionManifestSha256 : ustring;
  ci_entries : list ArtifactIdentity }.

(** ** The objects they are compared as *)

Definition str_field (name : string) (s : ustring) : ustring * js := (lit name, JStr s).
Definition int_field (name : string) (z : Z) : ustring * js := (lit name, JNum (num_of_Z z)).

Definition selection_js (s : CatalogSelectionRef) : js :=
  JObj [str_field "schemaVersion" (cs_schemaVersion s); str_field "selectionKind" (cs_selectionKind s); str_field "selectionValue" (cs_selectionValue s)].

Definition artifact_js (a : ArtifactIdentity) : js :=
  JObj [str_field "artifactId" (ai_artifactId a); str_field "path" (ai_path a); int_field "bytes" (ai_bytes a);
        str_field "sha256" (ai_sha256 a); str_field "mode" (ai_mode a)].

Definition dirty_js (d : dirty_content) : js :=
  JObj [str_field "algorithm" (dc_algorithm d); str_field "digest" (dc_digest d); str_field "method" (dc_method d);
        ($"includedPaths", JArr (map JStr (dc_includedPaths d)));
        ($"excludedPaths", JArr (map (fun e => JObj [str_field "path" e.1; str_field "reasonCode" e.2]) (dc_excludedPaths d)))].

Definition component_js (c : ComponentRef) : js :=
  JObj ([str_field "componentId" (cf_componentId c); str_field "repository" (cf_repository c); str_field "revision" (cf_revision c);
         ($"dirty", JBool (cf_dirty c))] ++
        match cf_dirtyContent c with Some d => [($"dirtyContent", dirty_js d)] | None => [] end).

Definition tree_js (t : RuntimeTreeIdentity) : js :=
  JObj [str_field "treeId" (rt_treeId t); str_field "sourceArtifactId" (rt_sourceArtifactId t); str_field "selectionId" (rt_selectionId t);
        str_field "path" (rt_path t); str_field "algorithm" (rt_algorithm t); str_field "digest" (rt_digest t);
        int_field "entryCount" (rt_entryCount t); int_field "bytes" (rt_bytes t)].

(** ** The manifest *)

Definition runtime_tree_algorithm : string := "mirrors-runtime-tree-v1".
Definition lock_inputs : list string := ["profiles-lock"; "component-lock"; "dependency-lock"]%string.

Definition parse_build_input (index : N) (entry : js) : res framework_thrown BuildInputIdentity :=
  let here := at_index ($"buildInputs") index in
  item ← object_all entry here ["inputId"; "path"; "bytes"; "sha256"]%string;
  let inputId := getf item ($"inputId") in
  _ ← refuse_unless (one_of lock_inputs inputId) DistributionIdentityMismatch (here ++ $".inputId");
  path ← pathValue (getf item ($"path")) (here ++ $".path");
  bytes ← integer (getf item ($"bytes")) (here ++ $".bytes") 1 (Z.of_N MAX_BYTES);
  sha ← digest (getf item ($"sha256")) (here ++ $".sha256");
  mret (MkBuildInput (text_of inputId) path bytes sha).

Definition parse_tool (index : N) (entry : js) : res framework_thrown build_tool :=
  tool ← object_all entry (at_index ($"buildProvenance.tools") index) ["toolId"; "version"; "bytes"; "sha256"]%string;
  toolId ← id (getf tool ($"toolId")) ($"buildProvenance.toolId");
  version ← text (getf tool ($"version")) ($"buildProvenance.tool.version");
  bytes ← integer (getf tool ($"bytes")) ($"buildProvenance.tool.bytes") 0 MAX_SAFE_INTEGER;
  sha ← digest (getf tool ($"sha256")) ($"buildProvenance.tool.sha256");
  mret (MkTool toolId version bytes sha).

Definition parse_build_tree (index : N) (entry : js) : res framework_thrown build_tree :=
  let here := at_index ($"buildProvenance.trees") index in
  tree ← object_all entry here ["inputId"; "algorithm"; "digest"; "entryCount"; "bytes"]%string;
  _ ← refuse_unless (is_str (getf tree ($"algorithm")) runtime_tree_algorithm) DistributionIdentityMismatch (here ++ $".algorithm");
  inputId ← id (getf tree ($"inputId")) ($"buildProvenance.tree.inputId");
  d ← digest (getf tree ($"digest")) ($"buildProvenance.tree.digest");
  entries ← integer (getf tree ($"entryCount")) ($"buildProvenance.tree.entryCount") 0 100000;
  bytes ← integer (getf tree ($"bytes")) ($"buildProvenance.tree.bytes") 0 2147483648;
  mret (MkBuildTree inputId d entries bytes).

Definition parse_provenance (value : js) : res framework_thrown BuildProvenance :=
  provenance ← object_all value ($"buildProvenance") ["snapshotIndexSha256"; "tools"; "trees"]%string;
  d ← digest (getf provenance ($"snapshotIndexSha256")) ($"buildProvenance.snapshotIndexSha256");
  l ← array (getf provenance ($"tools")) ($"buildProvenance.tools") 64;
  tools ← mapMi parse_tool l;
  l ← array (getf provenance ($"trees")) ($"buildProvenance.trees") 64;
  trees ← mapMi parse_build_tree l;
  mret (MkProvenance d tools trees).

Definition parse_library (path : ustring) (index : N) (value : js) : res framework_thrown (ustring * ustring * ustring) :=
  let here := at_index (path ++ $".dynamicLibraries") index in
  dynamic ← object_all value here ["soname"; "path"; "sha256"]%string;
  hostPath ← text (getf dynamic ($"path")) (here ++ $".path");
  _ ← refuse_unless (prefixed ($"/") hostPath) DistributionIdentityMismatch (here ++ $".path");
  soname ← text (getf dynamic ($"soname")) ($"dynamicLibrary.soname");
  sha ← digest (getf dynamic ($"sha256")) ($"dynamicLibrary.sha256");
  mret (soname, hostPath, sha).

Definition artifact_fields : list string := ["artifactId"; "path"; "kind"; "mediaType"; "bytes"; "sha256"; "mode"; "source"]%string.

Definition parse_artifact (index : N) (entry : js) : res framework_thrown manifest_artifact :=
  let here := at_index ($"artifacts") index in
  item ← object entry here (artifact_fields ++ ["dynamicLibraries"]%string) artifact_fields;
  let kind := getf item ($"kind") in
  let mode := getf item ($"mode") in
  _ ← refuse_unless (one_of ["file"; "archive"]%string kind && one_of ["0644"; "0755"]%string mode) DistributionIdentityMismatch here;
  source ← object_all (getf item ($"source")) ($"artifact.source") ["kind"; "id"]%string;
  _ ← refuse_unless (one_of ["component-build"; "dependency-lock"]%string (getf source ($"kind"))) DistributionIdentityMismatch ($"artifact.source.kind");
  _ ← id (getf source ($"id")) ($"source.id");
  libraries ← absent_or (getf item ($"dynamicLibraries")) (fun v => l ← array v (here ++ $".dynamicLibraries") 64; mapMi (parse_library here) l);
  _ ← refuse_unless (negb (is_str mode "0755" && match libraries with Some (_ :: _) => false | _ => true end))
        DistributionIdentityMismatch (here ++ $".dynamicLibraries");
  artifactId ← id (getf item ($"artifactId")) ($"artifactId");
  path ← pathValue (getf item ($"path")) ($"artifact.path");
  mediaType ← text (getf item ($"mediaType")) ($"artifact.mediaType");
  bytes ← integer (getf item ($"bytes")) ($"artifact.bytes") 0 536870912;
  sha ← digest (getf item ($"sha256")) ($"artifact.sha256");
  mret (MkManifestArtifact (MkArtifactIdentity artifactId path bytes sha (text_of mode)) (text_of kind) mediaType libraries).

Definition parse_tree (index : N) (entry : js) : res framework_thrown RuntimeTreeIdentity :=
  let here := at_index ($"runtimeTrees") index in
  item ← object_all entry here ["treeId"; "sourceArtifactId"; "selectionId"; "path"; "algorithm"; "digest"; "entryCount"; "bytes"]%string;
  _ ← refuse_unless (is_str (getf item ($"algorithm")) runtime_tree_algorithm) RuntimeIdentityMismatch (here ++ $".algorithm");
  treeId ← id (getf item ($"treeId")) ($"treeId");
  source ← id (getf item ($"sourceArtifactId")) ($"sourceArtifactId");
  selectionId ← id (getf item ($"selectionId")) ($"selectionId");
  path ← pathValue (getf item ($"path")) ($"runtime.path");
  d ← digest (getf item ($"digest")) ($"runtime.digest");
  entries ← integer (getf item ($"entryCount")) ($"entryCount") 1 100000;
  bytes ← integer (getf item ($"bytes")) ($"runtime.bytes") 1 2147483648;
  mret (MkTree treeId source selectionId path (lit runtime_tree_algorithm) d entries bytes).

Definition host_requirement (index : N) (entry : js) : res framework_thrown unit :=
  let here := at_index ($"hostRequirements") index in
  item ← object entry here ["id"; "minimumVersion"; "observedVersion"; "requirement"]%string ["id"]%string;
  _ ← id (getf item ($"id")) ($"host.id");
  let present name := match getf item (lit name) with JUndef => false | _ => true end in
  _ ← refuse_unless (present "minimumVersion"%string || present "observedVersion"%string || present "requirement"%string)
        DistributionIdentityMismatch here;
  _ ← absent_or (getf item ($"minimumVersion")) (fun v => text v ($"host.minimumVersion"));
  _ ← absent_or (getf item ($"observedVersion")) (fun v => text v ($"host.observedVersion"));
  _ ← absent_or (getf item ($"requirement")) (fun v => text v ($"host.requirement"));
  mret tt.

(** Each of the three lock inputs, once. *)
Definition exact_inputs (inputs : list BuildInputIdentity) : bool :=
  (length inputs =? 3)%nat && no_repeats (map bi_inputId inputs) && forallb (fun name => bool_decide (lit name ∈ map bi_inputId inputs)) lock_inputs.

Definition parseManifest (raw : raw_input) : res framework_thrown DistributionManifest :=
  parsed ← strictJson ($"distribution manifest") raw;
  root ← object_all parsed ($"manifest")
           ["schemaVersion"; "distributionId"; "catalogSelectionRef"; "profileId"; "componentRefs"; "buildInputs"; "buildProvenance"; "artifacts";
            "runtimeTrees"; "hostRequirements"; "publication"]%string;
  _ ← refuse_unless (is_str (getf root ($"schemaVersion")) "mirrors.reference-distribution-manifest/v1" && is_str (getf root ($"publication")) "unclaimed")
        DistributionIdentityMismatch ($"manifest.schemaVersion");
  _ ← id (getf root ($"distributionId")) ($"distributionId");
  l ← array (getf root ($"buildInputs")) ($"buildInputs") 3;
  buildInputs ← mapMi parse_build_input l;
  _ ← refuse_unless (exact_inputs buildInputs) DistributionIdentityMismatch ($"buildInputs");
  buildProvenance ← parse_provenance (getf root ($"buildProvenance"));
  l ← array (getf root ($"artifacts")) ($"artifacts") 1024;
  artifacts ← mapMi parse_artifact l;
  l ← array (getf root ($"runtimeTrees")) ($"runtimeTrees") 64;
  runtimeTrees ← mapMi parse_tree l;
  l ← array (getf root ($"hostRequirements")) ($"hostRequirements") 64;
  _ ← mapMi host_requirement l;
  reference ← selection (getf root ($"catalogSelectionRef")) ($"manifest.catalogSelectionRef");
  profileId ← id (getf root ($"profileId")) ($"manifest.profileId");
  l ← array (getf root ($"componentRefs")) ($"componentRefs") 64;
  componentRefs ← mapMi (fun i v => componentRef v (at_index ($"componentRefs") i)) l;
  mret (MkManifest reference profileId componentRefs buildInputs buildProvenance artifacts runtimeTrees parsed).

(** ** The index of the cache *)

Definition parse_entry (index : N) (entry : js) : res framework_thrown ArtifactIdentity :=
  let here := at_index ($"entries") index in
  item ← object_all entry here ["artifactId"; "path"; "bytes"; "sha256"; "mode"]%string;
  let mode := getf item ($"mode") in
  _ ← refuse_unless (one_of ["0644"; "0755"]%string mode) ArtifactIdentityMismatch (here ++ $".mode");
  artifactId ← id (getf item ($"artifactId")) ($"artifactId");
  path ← pathValue (getf item ($"path")) ($"entry.path");
  bytes ← integer (getf item ($"bytes")) ($"entry.bytes") 0 536870912;
  sha ← digest (getf item ($"sha256")) ($"entry.sha256");
  mret (MkArtifactIdentity artifactId path bytes sha (text_of mode)).

Definition parseCache (raw : raw_input) : res framework_thrown cache_index :=
  parsed ← strictJson ($"cache index") raw;
  root ← object_all parsed ($"cache") ["schemaVersion"; "profileId"; "catalogSelectionRef"; "distributionManifestSha256"; "entries"]%string;
  _ ← refuse_unless (is_str (getf root ($"schemaVersion")) "mirrors.reference-cache-index/v1") DistributionIdentityMismatch ($"cache.schemaVersion");
  l ← array (getf root ($"entries")) ($"cache.entries") 2048;
  entries ← mapMi parse_entry l;
  profileId ← id (getf root ($"profileId")) ($"cache.profileId");
  reference ← selection (getf root ($"catalogSelectionRef")) ($"cache.catalogSelectionRef");
  d ← digest (getf root ($"distributionManifestSha256")) ($"cache.distributionManifestSha256");
  mret (MkCache profileId reference d entries).

(** ** The two against each other *)

(** A [Map] from identities, in the order of insertion. *)
Fixpoint find_by {T} (key : T -> ustring) (k : ustring) (items : list T) : option T :=
  match items with [] => None | x :: items' => if bool_decide (key x = k) then Some x else find_by key k items' end.

(** [mapBy]: the items themselves, when no two have one key. *)
Definition mapBy {T} (items : list T) (key : T -> ustring) (path : string) : res framework_thrown (list T) :=
  refuse_unless (no_repeats (map key items)) DistributionIdentityMismatch (lit path) ≫= fun _ => mret items.

Definition artifact_id (a : manifest_artifact) : ustring := ai_artifactId (ma_identity a).

Record ValidatedDistribution := MkValidated { vd_manifest : DistributionManifest; vd_manifestDigest : ustring; vd_artifacts : list manifest_artifact }.

Inductive refusal_result (A : Type) := Matched (a : A) | Refused (code : FrameworkRefusalCode) (predicate : ustring).
Arguments Matched {A} a.
Arguments Refused {A} code predicate.

Section distribution.
Context (sha256 : list N -> ustring).

Definition check_artifact (entries : list ArtifactIdentity) (a : manifest_artifact) : res framework_thrown unit :=
  let predicate := $"artifact." ++ artifact_id a in
  match find_by ai_artifactId (artifact_id a) entries with
  | None => refuse ArtifactIdentityMismatch predicate
  | Some observed => equal ← same (artifact_js (ma_identity a)) (artifact_js observed); refuse_unless equal ArtifactIdentityMismatch predicate
  end.

Definition validatedDistribution (distributionManifestRaw cacheIndexRaw : raw_input) : res framework_thrown ValidatedDistribution :=
  manifest ← parseManifest distributionManifestRaw;
  cache ← parseCache cacheIndexRaw;
  manifestDigest ← frameworkCatalogDigest sha256 (dm_raw manifest);
  selected ← same (selection_js (ci_catalogSelectionRef cache)) (selection_js (dm_catalogSelectionRef manifest));
  _ ← refuse_unless (selected && bool_decide (ci_distributionManifestSha256 cache = manifestDigest) &&
                     bool_decide (ci_profileId cache = dm_profileId manifest)) DistributionIdentityMismatch ($"distribution.selection");
  artifacts ← mapBy (dm_artifacts manifest) artifact_id "manifest.artifacts";
  cacheEntries ← mapBy (ci_entries cache) ai_artifactId "cache.entries";
  _ ← refuse_unless (length artifacts =? length cacheEntries)%nat ArtifactIdentityMismatch ($"cache.entries");
  _ ← mapM (check_artifact cacheEntries) artifacts;
  mret (MkValidated manifest manifestDigest artifacts).

Record installed_distribution := MkInstalled {
  id_catalogSelectionRef : CatalogSelectionRef;
  id_profileId : ustring;
  id_distributionManifestSha256 : ustring;
  id_componentRefs : list ComponentRef;
  id_buildInputs : list BuildInputIdentity;
  id_buildProvenance : BuildProvenance;
  id_artifacts : list ArtifactIdentity;
  id_runtimeTrees : list RuntimeTreeIdentity }.

(** The [catch] of both entry points. *)
Definition refused_as {A} (internal : FrameworkRefusalCode) (r : res framework_thrown A) : refusal_result A :=
  match r with
  | Ok a => Matched a
  | Err (Refuse code predicate) => Refused code predicate
  | Err (Foreign _) => Refused internal ($"internal")
  end.

Definition validateInstalledDistributionIdentity (distributionManifestRaw cacheIndexRaw : raw_input) : refusal_result installed_distribution :=
  refused_as DistributionIdentityMismatch
    (v ← validatedDistribution distributionManifestRaw cacheIndexRaw;
     let manifest := vd_manifest v in
     mret (MkInstalled (dm_catalogSelectionRef manifest) (dm_profileId manifest) (vd_manifestDigest v) (dm_componentRefs manifest)
             (dm_buildInputs manifest) (dm_buildProvenance manifest) (map ma_identity (dm_artifacts manifest)) (dm_runtimeTrees manifest))).
End distribution.
