(* ===== verification/FrameworkPreflight.v ===== *)
(** * Preflight of a framework selection

    [preflightFrameworkSelection] of [src/src/framework-catalog.ts]: whether what is
    installed is the combination of a catalogue that was selected, by its digest, and
    whether that combination may be used. What was observed of the installation and the
    policy are typed records, as the types of the source say. *)

From S2P Require Import Prelude JsNumber Utf16 JsData StrictJson Decode JsText Descriptor Transport Reproduction BundleText Bundle FrameworkText FrameworkCatalog.

(** ** Versions *)

Definition version_part (s : ustring) : option Z :=
  match s with
  | [] => None
  | c :: rest =>
      if forallb is_digit s && (negb (c =? 0x30)%N || bool_decide (rest = [])) then
        let z := fold_left (fun n d => n * 10 + (Z.of_N d - 48))%Z s 0%Z in
        if (z <=? MAX_SAFE_INTEGER)%Z then Some z else None
      else None
  end.

(** [value.split(".")], in three parts. *)
Fixpoint split_dot (s : ustring) : list ustring :=
  match s with
  | [] => [[]]
  | c :: s' =>
      match split_dot s' with
      | part :: rest => if (c =? 0x2e)%N then [] :: part :: rest else (c :: part) :: rest
      | [] => []
      end
  end.

Definition semver (value : ustring) : option (Z * Z * Z) :=
  match split_dot value with
  | [a; b; c] =>
      match version_part a, version_part b, version_part c with Some x, Some y, Some z => Some (x, y, z) | _, _, _ => None end
  | _ => None
  end.

(** The comparison of two lists of parts, from the first on. *)
Fixpoint parts_at_least (left right : list Z) : bool :=
  match left, right with
  | x :: left', y :: right' => if (y <? x)%Z then true else if (x <? y)%Z then false else parts_at_least left' right'
  | _, _ => true
  end.

Definition semverAtLeast (actual minimum : ustring) : bool :=
  match semver actual, semver minimum with
  | Some (a, b, c), Some (x, y, z) => parts_at_least [a; b; c] [x; y; z]
  | _, _ => false
  end.

(** ** The observation of an installation *)

Inductive admission_policy := SupportRequired | QualificationCandidate | OtherAdmission.

#[export] Instance admission_eq_dec : EqDecision admission_policy.
Proof. solve_decision. Defined.

Record PackageObservation := MkPackage {
  pk_packageId : ustring;
  pk_componentId : ustring;
  pk_artifactId : ustring;
  pk_version : ustring;
  pk_sha256 : ustring }.

Record ExecutableObservation := MkExecutable {
  ex_role : ustring;
  ex_artifactId : ustring;
  ex_sha256 : ustring;
  ex_capabilityIds : list ustring }.

Record package_requirement := MkPackageRequirement { pq_packageId : ustring; pq_componentId : ustring; pq_artifactId : ustring }.
Record executable_requirement := MkExecutableRequirement { eq_role : ustring; eq_artifactId : ustring; eq_requiredCapabilityIds : list ustring }.
Record tree_requirement := MkTreeRequirement { tq_runtimeId : ustring; tq_treeId : ustring; tq_requiredCapabilityIds : list ustring }.

Record RuntimeSupportPolicy := MkPolicy {
  po_admission : admission_policy;
  po_manifestProfileId : ustring;
  po_catalogProfileId : ustring;
  po_packages : list package_requirement;
  po_executables : list executable_requirement;
  po_runtimeTrees : list tree_requirement }.

Record InstalledFrameworkObservation := MkObserved {
  ob_distributionManifestRaw : raw_input;
  ob_cacheIndexRaw : raw_input;
  ob_componentRefs : list ComponentRef;
  ob_packages : list PackageObservation;
  ob_executables : list ExecutableObservation;
  ob_runtimeTrees : list RuntimeTreeIdentity;
  ob_platform : PlatformIdentity;
  ob_policy : RuntimeSupportPolicy }.

Record public_run_ref := MkRunRef { rr_schemaVersion : ustring; rr_runId : ustring; rr_envelopeSha256 : ustring; rr_projectionKind : ustring }.

Record FrameworkApprovalDecision := MkApproval {
  ap_schemaVersion : ustring;
  ap_qualificationClass : ustring;
  ap_selectedCatalogRef : CatalogSelectionRef;
  ap_approvalCatalogRef : CatalogSelectionRef;
  ap_combinationId : ustring;
  ap_distributionManifestSha256 : ustring;
  ap_cacheIndexSha256 : ustring;
  ap_publicRunRef : public_run_ref;
  ap_qualification : ustring;
  ap_integrity : ustring;
  ap_executionProvenance : ustring }.

Record FrameworkPreflightInput := MkInput {
  in_selectionRef : CatalogSelectionRef;
  in_combinationId : ustring;
  in_observed : InstalledFrameworkObservation;
  in_approval : option FrameworkApprovalDecision }.

Record framework_match := MkMatch {
  fm_admission : admission_policy;
  fm_catalogState : ustring;
  fm_supportQualified : bool;
  fm_approval : option (CatalogSelectionRef * public_run_ref);
  fm_catalogSelectionRef : CatalogSelectionRef;
  fm_combinationId : ustring;
  fm_componentRefs : list ComponentRef;
  fm_profileIds : list ustring;
  fm_platform : PlatformIdentity;
  fm_capabilityIds : list ustring;
  fm_distributionManifestSha256 : ustring;
  fm_buildInputs : list BuildInputIdentity;
  fm_buildProvenance : BuildProvenance;
  fm_packages : list PackageObservation;
  fm_executables : list ExecutableObservation;
  fm_runtimeTrees : list RuntimeTreeIdentity }.

Definition platform_js (p : PlatformIdentity) : js :=
  JObj ([str_field "os" (pl_os p); str_field "osRelease" (pl_osRelease p); str_field "architecture" (pl_architecture p)] ++
        match pl_backend p with Some b => [str_field "backend" b] | None => [] end).

Definition components_js (l : list ComponentRef) : js := JArr (map component_js l).
Definition texts_js (l : list ustring) : js := JArr (map JStr l).

(** ** Parts of the preflight *)

Definition find_combination (catalog : Catalog) (combinationId : ustring) : res framework_thrown combination :=
  match find_by cn_combinationId combinationId (ca_combinations catalog) with
  | Some c => Ok c
  | None => refuse CombinationUnsupported ($"combination.declaredState")
  end.

Definition is_state (c : combination) (state : string) : bool := bool_decide (cn_declaredState c = lit state).
Definition support_required (input : FrameworkPreflightInput) : bool := bool_decide (po_admission (ob_policy (in_observed input)) = SupportRequired).

Definition check_admission (input : FrameworkPreflightInput) (c : combination) : res framework_thrown unit :=
  _ ← refuse_unless (negb (bool_decide (po_admission (ob_policy (in_observed input)) = OtherAdmission))) CombinationUnsupported ($"policy.admission");
  refuse_unless (negb (is_state c "unsupported" ||
                       support_required input && negb (is_state c "supported") && negb (bool_decide (is_Some (in_approval input)))))
    CombinationUnsupported ($"combination.declaredState").

(** The constraints of one required capability. *)
Definition capability_selected (c : combination) (capabilityId : ustring) : bool := bool_decide (capabilityId ∈ cn_capabilityIds c).

Definition find_capability (catalog : Catalog) (capabilityId : ustring) : option capability := find_by cb_capabilityId capabilityId (ca_capabilities catalog).
Definition find_component (catalog : Catalog) (componentId : ustring) : option catalog_component := find_by component_id componentId (ca_components catalog).

(** A [Map] made of all entries keeps the last of one key. *)
Definition dependency_version (profile : distribution_profile) (dependencyId : ustring) : option ustring :=
  find_by dp_dependencyId dependencyId (rev (df_dependencies profile)) ≫= dp_version.

Definition actual_fact (catalog : Catalog) (c : combination) (profile : distribution_profile) (k : capability_constraint) : option ustring :=
  let fact := ct_factId k in
  let kind name := bool_decide (ct_factKind k = lit name) in
  let named name := bool_decide (fact = lit name) in
  if kind "platformField"%string then
    if named "os"%string then Some (pl_os (cn_platform c))
    else if named "osRelease"%string then Some (pl_osRelease (cn_platform c))
    else if named "architecture"%string then Some (pl_architecture (cn_platform c))
    else if named "backend"%string then pl_backend (cn_platform c)
    else None
  else if kind "componentVersion"%string then cc_version <$> find_component catalog fact
  else if kind "dependencyVersion"%string then dependency_version profile fact
  else if kind "capabilitySelected"%string then Some (if capability_selected c fact then $"true" else $"false")
  else None.

Definition constraint_satisfied (k : capability_constraint) (actual : option ustring) : bool :=
  match actual with
  | None => false
  | Some a =>
      let operator name := bool_decide (ct_operator k = lit name) in
      if operator "equals"%string then bool_decide (ct_values k = [a])
      else if operator "oneOf"%string then bool_decide (a ∈ ct_values k)
      else if operator "atLeastSemver"%string then match ct_values k with [v] => semverAtLeast a v | _ => false end
      else false
  end.

(** [observation?.state === "accepted" && observation.evidenceId !== undefined] *)
Definition observation_accepted (k : capability) (dimension : ustring) : bool :=
  match find_by fst dimension (cb_observations k) with
  | Some (_, (state, Some _)) => bool_decide (state = $"accepted")
  | _ => false
  end.

Section preflight.
Context (sha256 : list N -> ustring) (catalog : Catalog) (c : combination) (input : FrameworkPreflightInput).

Abbreviation observed := (in_observed input).
Abbreviation policy := (ob_policy (in_observed input)).

Definition requireCap (predicate capabilityId : ustring) : res framework_thrown unit :=
  refuse_unless (capability_selected c capabilityId &&
                 negb (match find_capability catalog capabilityId with Some k => bool_decide (cb_declarationState k = $"unavailable") | None => false end))
    CapabilityUnsupported predicate.

Definition requireCaps (values : list ustring) (predicate : ustring) : res framework_thrown unit :=
  _ ← mapM (requireCap predicate) values; mret tt.

(** Approval B of a candidate: whether it binds this selection. *)
Definition approval_valid (v : ValidatedDistribution) (a : FrameworkApprovalDecision) : res framework_thrown bool :=
  let run := ap_publicRunRef a in
  let says (s : ustring) (name : string) := bool_decide (s = lit name) in
  if says (ap_schemaVersion a) "mirrors.evidence-catalog-link/v1"%string &&
     one_of_text ["local-candidate"; "release-candidate"]%string (ap_qualificationClass a)
  then
    selected ← same (selection_js (ap_selectedCatalogRef a)) (selection_js (in_selectionRef input));
    mret (selected && says (cs_schemaVersion (ap_approvalCatalogRef a)) CATALOG_SCHEMA && says (cs_selectionKind (ap_approvalCatalogRef a)) "sha256"%string &&
          is_sha256 (cs_selectionValue (ap_approvalCatalogRef a)) &&
          negb (bool_decide (cs_selectionValue (ap_approvalCatalogRef a) = cs_selectionValue (in_selectionRef input))) &&
          bool_decide (ap_combinationId a = cn_combinationId c) &&
          bool_decide (ap_distributionManifestSha256 a = vd_manifestDigest v) &&
          bool_decide (ap_cacheIndexSha256 a = sha256 (jsonInputBytes (ob_cacheIndexRaw observed))) &&
          says (ap_qualification a) "accepted"%string && says (ap_integrity a) "verified"%string &&
          says (ap_executionProvenance a) "evidence-observed"%string &&
          says (rr_schemaVersion run) "mirrors.evidence-public-summary/v1.0"%string && says (rr_projectionKind run) "public"%string &&
          negb (bool_decide (rr_runId run = [])) && is_sha256 (rr_envelopeSha256 run))
  else mret false.

(** Whether the combination is a candidate that an approval admits. *)
Definition approved_candidate (v : ValidatedDistribution) : res framework_thrown bool :=
  match in_approval input with
  | None => mret false
  | Some a =>
      valid ← approval_valid v a;
      _ ← refuse_unless valid CombinationUnsupported ($"approval");
      mret (is_state c "candidate")
  end.

Definition check_components (v : ValidatedDistribution) : res framework_thrown (list ComponentRef) :=
  expected ← mapM (fun componentId => match find_component catalog componentId with
                                      | Some k => Ok (cc_componentRef k)
                                      | None => refuse CatalogInvalid ($"combination.componentIds")
                                      end) (cn_componentIds c);
  declared ← same (components_js (dm_componentRefs (vd_manifest v))) (components_js expected);
  installed ← (if declared : bool then same (components_js (ob_componentRefs observed)) (components_js expected) else mret false);
  _ ← refuse_unless installed ComponentIdentityMismatch ($"componentRefs");
  mret expected.

Definition check_profile : res framework_thrown distribution_profile :=
  match find_by df_profileId (po_catalogProfileId policy) (ca_distributionProfiles catalog) with
  | None => refuse PlatformIdentityMismatch ($"platform")
  | Some profile =>
      equal ← (if bool_decide (df_profileId profile ∈ cn_distributionProfileIds c)
               then same (platform_js (df_platform profile)) (platform_js (ob_platform observed)) else mret false);
      _ ← refuse_unless equal PlatformIdentityMismatch ($"platform");
      _ ← refuse_unless (bool_decide (po_catalogProfileId policy ∈ cn_distributionProfileIds c)) DistributionIdentityMismatch ($"profileId");
      mret profile
  end.

Definition check_constraint (profile : distribution_profile) (capabilityId : ustring) (k : capability_constraint) : res framework_thrown unit :=
  refuse_unless (constraint_satisfied k (actual_fact catalog c profile k)) CapabilityUnsupported
    ($"capability." ++ capabilityId ++ $".constraint." ++ ct_constraintId k).

Definition check_capability (profile : distribution_profile) (approved : bool) (capabilityId : ustring) : res framework_thrown unit :=
  match find_capability catalog capabilityId with
  | None => Err (Foreign (Exn XType []))
  | Some k =>
      _ ← mapM (check_constraint profile capabilityId) (cb_constraints k);
      if support_required input && negb approved then
        _ ← mapM (fun dimension => refuse_unless (observation_accepted k dimension) CapabilityUnsupported
                                     ($"capability." ++ capabilityId ++ $".observations." ++ dimension))
              (df_requiredObservationDimensions profile);
        mret tt
      else mret tt
  end.

Definition check_package (artifacts : list manifest_artifact) (packages : list PackageObservation) (r : package_requirement)
    : res framework_thrown unit :=
  refuse_unless
    match find_by pk_packageId (pq_packageId r) packages, find_by artifact_id (pq_artifactId r) artifacts, find_component catalog (pq_componentId r) with
    | Some installed, Some artifact, Some component =>
        bool_decide (pk_componentId installed = pq_componentId r) && bool_decide (pk_artifactId installed = pq_artifactId r) &&
        bool_decide (pk_version installed = cc_version component) && bool_decide (pk_sha256 installed = ai_sha256 (ma_identity artifact))
    | _, _, _ => false
    end PackageIdentityMismatch ($"package." ++ pq_packageId r).

Definition check_executable (artifacts : list manifest_artifact) (executables : list ExecutableObservation) (r : executable_requirement)
    : res framework_thrown unit :=
  _ ← requireCaps (eq_requiredCapabilityIds r) ($"executable." ++ eq_role r ++ $".capabilities");
  fits ← match find_by ex_role (eq_role r) executables, find_by artifact_id (eq_artifactId r) artifacts with
         | Some installed, Some artifact =>
             if bool_decide (ex_artifactId installed = eq_artifactId r) && bool_decide (ex_sha256 installed = ai_sha256 (ma_identity artifact))
             then same (texts_js (ex_capabilityIds installed)) (texts_js (eq_requiredCapabilityIds r)) else mret false
         | _, _ => mret false
         end;
  refuse_unless fits ExecutableIdentityMismatch ($"executable." ++ eq_role r).

Definition check_tree (expected installed : list RuntimeTreeIdentity) (r : tree_requirement) : res framework_thrown unit :=
  _ ← requireCaps (tq_requiredCapabilityIds r) ($"runtime." ++ tq_runtimeId r ++ $".capabilities");
  fits ← match find_by rt_treeId (tq_treeId r) expected, find_by rt_treeId (tq_treeId r) installed with
         | Some e, Some i => same (tree_js e) (tree_js i)
         | _, _ => mret false
         end;
  refuse_unless fits RuntimeIdentityMismatch ($"runtime." ++ tq_runtimeId r).

Definition check_source (artifacts : list manifest_artifact) (t : RuntimeTreeIdentity) : res framework_thrown unit :=
  refuse_unless (bool_decide (is_Some (find_by artifact_id (rt_sourceArtifactId t) artifacts))) RuntimeIdentityMismatch
    ($"runtime." ++ rt_treeId t ++ $".sourceArtifactId").

(** The packages, executables and runtime trees of the installation. *)
Definition check_installation (v : ValidatedDistribution) : res framework_thrown unit :=
  packages ← mapBy (ob_packages observed) pk_packageId "installed.packages";
  _ ← mapM (check_package (vd_artifacts v) packages) (po_packages policy);
  _ ← refuse_unless (length packages =? length (po_packages policy))%nat PackageIdentityMismatch ($"packages");
  executables ← mapBy (ob_executables observed) ex_role "installed.executables";
  _ ← mapM (check_executable (vd_artifacts v) executables) (po_executables policy);
  _ ← refuse_unless (length executables =? length (po_executables policy))%nat ExecutableIdentityMismatch ($"executables");
  expected ← mapBy (dm_runtimeTrees (vd_manifest v)) rt_treeId "manifest.runtimeTrees";
  installed ← mapBy (ob_runtimeTrees observed) rt_treeId "installed.runtimeTrees";
  _ ← mapM (check_source (vd_artifacts v)) expected;
  _ ← mapM (check_tree expected installed) (po_runtimeTrees policy);
  refuse_unless (length installed =? length (po_runtimeTrees policy))%nat RuntimeIdentityMismatch ($"runtimeTrees").
End preflight.

Definition check_selection (catalogDigest : ustring) (s : CatalogSelectionRef) : res framework_thrown unit :=
  refuse_unless (bool_decide (cs_schemaVersion s = lit CATALOG_SCHEMA) && bool_decide (cs_selectionKind s = $"sha256") &&
                 bool_decide (cs_selectionValue s = catalogDigest)) CatalogSelectionMismatch ($"catalogSelectionRef").

Definition check_distribution (input : FrameworkPreflightInput) (v : ValidatedDistribution) : res framework_thrown unit :=
  selected ← same (selection_js (dm_catalogSelectionRef (vd_manifest v))) (selection_js (in_selectionRef input));
  refuse_unless (selected && bool_decide (dm_profileId (vd_manifest v) = po_manifestProfileId (ob_policy (in_observed input))))
    DistributionIdentityMismatch ($"distribution.selection").

Section entry.
Context (sha256 : list N -> ustring).

Definition preflight (catalogRaw : raw_input) (input : FrameworkPreflightInput) : res framework_thrown framework_match :=
  catalog ← parseCatalog catalogRaw;
  catalogDigest ← frameworkCatalogDigest sha256 (ca_raw catalog);
  _ ← check_selection catalogDigest (in_selectionRef input);
  c ← find_combination catalog (in_combinationId input);
  _ ← check_admission input c;
  v ← validatedDistribution sha256 (ob_distributionManifestRaw (in_observed input)) (ob_cacheIndexRaw (in_observed input));
  approved ← approved_candidate sha256 c input v;
  _ ← refuse_unless (negb (support_required input && negb (is_state c "supported") && negb approved)) CombinationUnsupported ($"approval");
  _ ← check_distribution input v;
  expected ← check_components catalog c input v;
  profile ← check_profile catalog c input;
  _ ← requireCaps catalog c (df_requiredCapabilityIds profile) ($"profile.requiredCapabilityIds");
  _ ← mapM (check_capability catalog c input profile approved) (df_requiredCapabilityIds profile);
  _ ← check_installation catalog c input v;
  mret (MkMatch (po_admission (ob_policy (in_observed input))) (cn_declaredState c)
          (support_required input && (is_state c "supported" || approved))
          ((fun a => (ap_approvalCatalogRef a, ap_publicRunRef a)) <$> in_approval input)
          (in_selectionRef input) (cn_combinationId c) expected (cn_distributionProfileIds c) (cn_platform c) (cn_capabilityIds c)
          (vd_manifestDigest v) (dm_buildInputs (vd_manifest v)) (dm_buildProvenance (vd_manifest v))
          (ob_packages (in_observed input)) (ob_executables (in_observed input)) (ob_runtimeTrees (in_observed input))).

Definition preflightFrameworkSelection (catalogRaw : raw_input) (input : FrameworkPreflightInput) : refusal_result framework_match :=
  refused_as CatalogInvalid (preflight catalogRaw input).
End entry.
