(* ===== verification/FrameworkFacts.v ===== *)
(** * What the framework preflight establishes

    The canonical texts of the catalogue tell values apart, so the comparisons of
    identities are equality; the index of a cache and its manifest list the same
    artifacts; and what a match of [preflightFrameworkSelection] says of the
    installation. *)

From S2P Require Import Prelude JsNumber Utf16 JsData StrictJson Decode JsText StrictJsonFacts StrictJsonRoundtrip ModelTypes Canonical Descriptor JsonText Transport Reproduction BundleText Bundle BundleValues BundleFacts FrameworkText FrameworkCatalog FrameworkPreflight.

(** ** Canonical texts *)

(** A value with its properties in the order of the canonical text, and its safe
    integers without a sign of zero. *)
Fixpoint normal (v : js) : js :=
  match v with
  | JNum x => match num_safe_Z x with Some z => JNum (num_of_Z z) | None => v end
  | JArr l => JArr (map normal l)
  | JObj o => JObj (sort_by by_bytes (map (fun kv => (kv.1, normal kv.2)) o))
  | _ => v
  end.

(** No repeated names, none that is an index. *)
Inductive named : js -> Prop :=
| named_undef : named JUndef
| named_null : named JNull
| named_bool b : named (JBool b)
| named_num x : named (JNum x)
| named_big z : named (JBig z)
| named_str s : named (JStr s)
| named_arr l : Forall named l -> named (JArr l)
| named_obj o : NoDup (keys o) -> Forall (fun kv => array_index kv.1 = None) o -> Forall (fun kv => named kv.2) o -> named (JObj o).

Lemma loop_step_hex u : (u < 0x20)%N -> loop_step strict (canonical_character [u]) [u].
Proof.
  intros Hu. destruct u as [|p]; [loop_step_escape|].
  do 5 try (destruct p as [p|p|]; [| |loop_step_escape]); lia.
Qed.

Lemma loop_step_canonical c : chunk_ok c -> loop_step strict (canonical_character c) c.
Proof.
  intros [(u & -> & Hh & Hl)|(h & l & -> & Hh & Hl)]; unfold canonical_character; cbn [codePointAt0].
  - destruct (N.lt_ge_cases u 0x20) as [?|Hge]; [by apply loop_step_hex|].
    destruct (N.eqb_spec u 0x22) as [->|?]; [loop_step_escape|].
    destruct (N.eqb_spec u 0x5c) as [->|?]; [loop_step_escape|].
    rewrite (proj2 (N.ltb_ge u 0x20)) by lia. by apply loop_step_raw.
  - rewrite Hh, Hl. cbn [andb]. unfold join_pair.
    do 2 (rewrite (proj2 (N.eqb_neq _ _)) by lia). rewrite (proj2 (N.ltb_ge _ _)) by lia. by apply loop_step_pair.
Qed.

Lemma quoted_text_reads s : well_formed s = true -> quoted strict (quoted_text s) s.
Proof. intros Hs. apply characters_quoted. eapply Forall_impl; [by apply characters_ok|]. apply loop_step_canonical. Qed.

Lemma canonicalString_Ok s t : canonicalString s = Ok t -> well_formed s = true /\ t = quoted_text s.
Proof. unfold canonicalString, scalarString. destruct (well_formed s); [|done]. by intros [= <-]. Qed.

Lemma canonical_head v t : canonicalFrameworkJson v = Ok t -> exists c t', t = c :: t' /\ is_ws c = false /\ c <> 0x5d%N.
Proof.
  destruct v as [| |b|x|z|s|l|o]; cbn [canonicalFrameworkJson]; intros H; try discriminate H.
  - injection H as <-. by do 2 eexists.
  - injection H as <-. destruct b; by do 2 eexists.
  - destruct (num_safe_Z x) as [z|]; [|discriminate H]. injection H as <-. destruct (dec_of_Z_head z) as (c & t & -> & Hc).
    exists c, t. unfold is_ws, is_digit in *. repeat split; lia.
  - apply canonicalString_Ok in H as [_ ->]. by do 2 eexists.
  - apply res_bind_Ok in H as (items & _ & H). injection H as <-. by do 2 eexists.
  - apply res_bind_Ok in H as (items & _ & H). injection H as <-. by do 2 eexists.
Qed.

Lemma num_safe_bound x z : num_safe_Z x = Some z -> (Z.abs z <= MAX_SAFE_INTEGER)%Z.
Proof. unfold num_safe_Z. destruct (num_to_Z x) as [y|]; [|done]. destruct (_ <=? _)%Z eqn:E; [|done]. intros [= <-]. lia. Qed.

(** The parser reads the text of a value, whatever nesting beyond its depth is allowed. *)
Definition text_reads (v : js) : Prop :=
  forall t, canonicalFrameworkJson v = Ok t -> exists d, forall a, (d <= a)%nat -> reads (value_ strict a) t (normal v).

Lemma canonical_texts_read {A} (get : A -> js) l texts :
  Forall (fun x => text_reads (get x)) l -> Forall2 (fun x t => canonicalFrameworkJson (get x) = Ok t) l texts ->
  exists d, forall a, (d <= a)%nat -> Forall2 (fun x t => reads (value_ strict a) t (normal (get x))) l texts.
Proof.
  intros Hall. induction 1 as [|x t l texts Ht _ IH]; [exists 0%nat; constructor|].
  apply Forall_cons in Hall as [Hx Hall]. destruct (Hx t Ht) as [d1 H1], (IH Hall) as [d2 H2].
  exists (max d1 d2). intros a Ha. constructor; [apply H1|apply H2]; lia.
Qed.

Lemma members_text so items :
  Forall (fun kv => text_reads kv.2) so ->
  Forall2 (fun kv y => (name ← canonicalString kv.1; item ← canonicalFrameworkJson kv.2; mret (name ++ $":" ++ item)) = Ok y) so items ->
  exists d, forall a, (d <= a)%nat -> Forall2 (fun kv y => member_reads strict (value_ strict a) y (kv.1, normal kv.2)) so items.
Proof.
  intros Hall. induction 1 as [|kv y so items Hy _ IH]; [exists 0%nat; constructor|].
  apply Forall_cons in Hall as [Hx Hall]. apply res_bind_Ok in Hy as (name & Hname & Hy). apply res_bind_Ok in Hy as (item & Hitem & Hy).
  injection Hy as <-. apply canonicalString_Ok in Hname as [Hw ->].
  destruct (Hx item Hitem) as [d1 H1], (IH Hall) as [d2 H2]. exists (max d1 d2). intros a Ha. constructor; [|apply H2; lia].
  exists (quoted_text kv.1), item. split; [done|]. split; [by apply quoted_text_reads|]. apply H1. lia.
Qed.

Lemma by_bytes_map {A B} (f : ustring * A -> B) (o : list (ustring * A)) :
  sort_by by_bytes (map (fun kv => (kv.1, f kv)) o) = map (fun kv => (kv.1, f kv)) (sort_by by_bytes o).
Proof. symmetry. by apply map_sort_by. Qed.

Lemma named_text_reads v : named v -> text_reads v.
Proof.
  induction v as [| |b|x|z|s|l IH|o IH] using js_ind'; intros Hn t H; cbn [canonicalFrameworkJson] in H; try discriminate H.
  - injection H as <-. exists 0%nat. intros a _. apply value_null_reads.
  - injection H as <-. exists 0%nat. intros a _. apply value_bool_reads.
  - cbn [normal]. destruct (num_safe_Z x) as [z|] eqn:E; [|discriminate H]. injection H as <-. exists 0%nat. intros a _.
    by apply value_num_reads, (num_safe_bound x).
  - apply canonicalString_Ok in H as [Hs ->]. exists 0%nat. intros a _. by apply value_str_reads, quoted_text_reads.
  - inversion Hn as [| | | | | |l' Hl|]; subst. apply res_bind_Ok in H as (items & Hitems & H). injection H as <-.
    apply mapM_res_Ok in Hitems. destruct (canonical_texts_read (fun x => x) l items) as [d Hd]; [|done|].
    { rewrite Forall_forall in *. auto. }
    exists (S d). intros [|a] Ha; [lia|]. apply value_arr_reads.
    + rewrite Forall2_fmap_r. apply Forall2_flip. apply Hd. lia.
    + clear -Hitems. induction Hitems as [|x t l ts Hx _ IHi]; constructor; [by eapply canonical_head|done].
  - inversion Hn as [| | | | | | |o' Hk Hi Ho]; subst. apply res_bind_Ok in H as (items & Hitems & H). injection H as <-.
    rewrite (by_bytes_map (fun kv => canonicalFrameworkJson kv.2)) in Hitems. apply mapM_res_Ok, Forall2_fmap_l in Hitems.
    cbn [normal]. rewrite (by_bytes_map (fun kv => normal kv.2)).
    assert (sort_by by_bytes o ≡ₚ o) as Hperm by apply sort_by_Permutation. set (so := sort_by by_bytes o) in *.
    destruct (members_text so items) as [d Hd]; [|done|].
    { rewrite Hperm. rewrite Forall_forall in *. auto. }
    exists (S d). intros [|a] Ha; [lia|]. apply value_obj_reads.
    + rewrite Forall2_fmap_r. apply Forall2_flip. apply Hd. lia.
    + apply textual_array_index_order; [|rewrite Forall_fmap, Hperm; exact Hi].
      rewrite map_map. cbn [fst]. change (NoDup (map fst so)). by rewrite Hperm.
Qed.

(** The canonical text of a value tells it apart, up to the order of properties. *)
Lemma canonical_injective a b t : named a -> named b -> canonicalFrameworkJson a = Ok t -> canonicalFrameworkJson b = Ok t -> normal a = normal b.
Proof.
  intros Ha Hb Hta Htb. destruct (named_text_reads a Ha t Hta) as [d1 H1], (named_text_reads b Hb t Htb) as [d2 H2].
  destruct (H1 (max d1 d2) ltac:(lia) 0%N [] I) as [o1 E1], (H2 (max d1 d2) ltac:(lia) 0%N [] I) as [o2 E2]. congruence.
Qed.

Lemma same_true a b : named a -> named b -> same a b = Ok true -> normal a = normal b.
Proof.
  intros Ha Hb H. apply res_bind_Ok in H as (ta & Hta & H). apply res_bind_Ok in H as (tb & Htb & H).
  injection H as H. apply bool_decide_eq_true in H as ->. by eapply canonical_injective.
Qed.

Lemma by_bytes_refl {A} k (v w : A) : by_bytes (k, v) (k, w) = Eq.
Proof. unfold by_bytes. by apply compare_lists_Eq. Qed.

Lemma getf_insert_bytes x o k : getf (insert_by by_bytes x o) k = getf (x :: o) k.
Proof.
  induction o as [|[k2 v2] o IH]; [done|]. destruct x as [k1 v1]. cbn [insert_by].
  destruct (by_bytes (k1, v1) (k2, v2)) eqn:E; [done..|]. cbn [getf] in *. rewrite IH. case_bool_decide; case_bool_decide; try done. subst.
  by rewrite by_bytes_refl in E.
Qed.

Lemma getf_normal o k : getf (sort_by by_bytes (map (fun kv => (kv.1, normal kv.2)) o)) k = normal (getf o k).
Proof.
  unfold sort_by. induction o as [|[k1 v1] o IH]; [done|]. cbn [map foldr]. rewrite getf_insert_bytes. cbn [getf fst snd]. rewrite IH. by case_bool_decide.
Qed.

Lemma normal_fields o o' k : normal (JObj o) = normal (JObj o') -> normal (getf o k) = normal (getf o' k).
Proof. cbn [normal]. intros H. injection H as H. by rewrite <- !getf_normal, H. Qed.

Lemma by_bytes_idem {A} (o : list (ustring * A)) : sort_by by_bytes (sort_by by_bytes o) = sort_by by_bytes o.
Proof.
  symmetry. apply (sort_by_same (fun kv : ustring * A => utf8_bytes kv.1) by_bytes); unfold by_bytes.
  - intros x y. apply compare_lists_Eq.
  - intros x y. apply compare_lists_op.
  - intros x y z. apply compare_lists_trans.
  - apply sort_by_stable. intros x y. apply compare_lists_Eq.
Qed.

Lemma canonical_normal v : canonicalFrameworkJson (normal v) = canonicalFrameworkJson v.
Proof.
  induction v as [| |b|x|z|s|l IH|o IH] using js_ind'; try done; cbn [normal].
  - destruct (num_safe_Z x) as [z|] eqn:E; [|done]. cbn [canonicalFrameworkJson]. rewrite E, num_of_Z_exact; [done|by eapply num_safe_bound].
  - cbn [canonicalFrameworkJson]. f_equal. induction IH as [|x l Hx _ IHl]; [done|]. cbn. by rewrite Hx, IHl.
  - cbn [canonicalFrameworkJson]. do 2 f_equal. rewrite (by_bytes_map (fun kv => normal kv.2)), map_map. cbn [fst snd].
    rewrite (by_bytes_map (fun kv => canonicalFrameworkJson (normal kv.2))), by_bytes_idem, (by_bytes_map (fun kv => canonicalFrameworkJson kv.2)).
    apply map_ext_Forall. rewrite (sort_by_Permutation by_bytes o). eapply Forall_impl; [exact IH|]. by intros kv ->.
Qed.

(** C29: the canonical text, and so the digest taken of it, identifies a value. Two
    values that have a canonical text have the same one exactly when they are the same
    up to the order of properties and the sign of zero. *)
Theorem canonical_identity (a b : js) (ta tb : ustring) (Ha : named a) (Hb : named b)
    (Hta : canonicalFrameworkJson a = Ok ta) (Htb : canonicalFrameworkJson b = Ok tb) :
  ta = tb <-> normal a = normal b.
Proof.
  split; [intros <-; by eapply canonical_injective|]. intros H.
  rewrite <-canonical_normal, H, canonical_normal in Hta. congruence.
Qed.

(** ** Comparisons of identities *)

(** An object with names that are written out. *)
Ltac named_object :=
  constructor; [refine (bool_decide_unpack _ _); vm_compute; exact I|repeat constructor|repeat (constructor; try done)].

Lemma named_texts l : named (JArr (map JStr l)).
Proof. constructor. apply Forall_fmap, Forall_forall. intros s _. constructor. Qed.

Lemma named_selection s : named (selection_js s).
Proof. named_object. Qed.
Lemma named_artifact a : named (artifact_js a).
Proof. named_object. Qed.
Lemma named_tree t : named (tree_js t).
Proof. named_object. Qed.
Lemma named_platform p : named (platform_js p).
Proof. destruct p as [os r a [b|]]; named_object. Qed.

Lemma named_dirty d : named (dirty_js d).
Proof.
  constructor; [refine (bool_decide_unpack _ _); vm_compute; exact I|repeat constructor|].
  repeat (apply Forall_cons; split; [first [constructor; done|apply named_texts|idtac]|]); [|constructor].
  constructor. apply Forall_fmap, Forall_forall. intros e _. named_object.
Qed.

Lemma named_component c : named (component_js c).
Proof.
  destruct c as [i r v b [d|]]; (constructor; [refine (bool_decide_unpack _ _); vm_compute; exact I|repeat constructor|]);
    repeat (apply Forall_cons; split; [first [apply named_dirty|constructor; done]|]); constructor.
Qed.

Lemma named_components l : named (components_js l).
Proof. constructor. apply Forall_fmap, Forall_forall. intros c _. apply named_component. Qed.

Lemma selection_equal a b : same (selection_js a) (selection_js b) = Ok true -> a = b.
Proof.
  intros H. apply same_true in H; [|apply named_selection..]. destruct a as [s k v], b as [s' k' v'].
  pose proof (normal_fields _ _ ($"schemaVersion") H : JStr s = JStr s'). pose proof (normal_fields _ _ ($"selectionKind") H : JStr k = JStr k').
  pose proof (normal_fields _ _ ($"selectionValue") H : JStr v = JStr v'). congruence.
Qed.

Lemma normal_int a b : safe a -> safe b -> normal (JNum (num_of_Z a)) = normal (JNum (num_of_Z b)) -> a = b.
Proof. intros Ha Hb. cbn [normal]. rewrite !num_of_Z_exact by done. intros H. injection H as H. by apply num_of_Z_inj. Qed.

Lemma artifact_equal a b : safe (ai_bytes a) -> safe (ai_bytes b) -> same (artifact_js a) (artifact_js b) = Ok true -> a = b.
Proof.
  intros Ha Hb H. apply same_true in H; [|apply named_artifact..]. destruct a as [i p n s m], b as [i' p' n' s' m'].
  pose proof (normal_fields _ _ ($"artifactId") H : JStr i = JStr i'). pose proof (normal_fields _ _ ($"path") H : JStr p = JStr p').
  pose proof (normal_fields _ _ ($"sha256") H : JStr s = JStr s'). pose proof (normal_fields _ _ ($"mode") H : JStr m = JStr m').
  pose proof (normal_int n n' Ha Hb (normal_fields _ _ ($"bytes") H)). congruence.
Qed.

Definition tree_safe (t : RuntimeTreeIdentity) : Prop := safe (rt_entryCount t) /\ safe (rt_bytes t).

Lemma tree_equal a b : tree_safe a -> tree_safe b -> same (tree_js a) (tree_js b) = Ok true -> a = b.
Proof.
  intros [Ha1 Ha2] [Hb1 Hb2] H. apply same_true in H; [|apply named_tree..]. destruct a as [i o s p g d n y], b as [i' o' s' p' g' d' n' y'].
  pose proof (normal_fields _ _ ($"treeId") H : JStr i = JStr i'). pose proof (normal_fields _ _ ($"sourceArtifactId") H : JStr o = JStr o').
  pose proof (normal_fields _ _ ($"selectionId") H : JStr s = JStr s'). pose proof (normal_fields _ _ ($"path") H : JStr p = JStr p').
  pose proof (normal_fields _ _ ($"algorithm") H : JStr g = JStr g'). pose proof (normal_fields _ _ ($"digest") H : JStr d = JStr d').
  pose proof (normal_int n n' Ha1 Hb1 (normal_fields _ _ ($"entryCount") H)). pose proof (normal_int y y' Ha2 Hb2 (normal_fields _ _ ($"bytes") H)). congruence.
Qed.

Lemma platform_equal a b : same (platform_js a) (platform_js b) = Ok true -> a = b.
Proof.
  intros H. apply same_true in H; [|apply named_platform..]. destruct a as [o r c k], b as [o' r' c' k'].
  assert (o = o' /\ r = r' /\ c = c') as (-> & -> & ->).
  { destruct k, k'; (split_and!; [injection (normal_fields _ _ ($"os") H : JStr o = JStr o')|
      injection (normal_fields _ _ ($"osRelease") H : JStr r = JStr r')|injection (normal_fields _ _ ($"architecture") H : JStr c = JStr c')]; done). }
  destruct k as [k|], k' as [k'|]; pose proof (normal_fields _ _ ($"backend") H) as Hk; [|discriminate Hk..|done].
  change (JStr k = JStr k') in Hk. congruence.
Qed.

Lemma normal_array {A} (f : A -> js) l k : (forall x y, normal (f x) = normal (f y) -> x = y) -> normal (JArr (map f l)) = normal (JArr (map f k)) -> l = k.
Proof.
  intros Hf. cbn [normal]. intros H. injection H as H. revert k H. induction l as [|x l IH]; intros [|y k] H; try done.
  cbn [map] in H. injection H as Hx H. f_equal; [by apply Hf|by apply IH].
Qed.

Lemma texts_equal l k : same (texts_js l) (texts_js k) = Ok true -> l = k.
Proof. intros H. apply same_true in H; [|apply named_texts..]. apply (normal_array JStr) in H; [done|]. by intros x y [= ->]. Qed.

Lemma dirty_equal a b : normal (dirty_js a) = normal (dirty_js b) -> a = b.
Proof.
  intros H. destruct a as [g d m i e], b as [g' d' m' i' e'].
  pose proof (normal_fields _ _ ($"algorithm") H : JStr g = JStr g'). pose proof (normal_fields _ _ ($"digest") H : JStr d = JStr d').
  pose proof (normal_fields _ _ ($"method") H : JStr m = JStr m').
  assert (i = i') as -> by (eapply (normal_array JStr), (normal_fields _ _ ($"includedPaths") H); by intros x y [= ->]).
  assert (e = e') as ->; [|congruence].
  eapply (normal_array (fun e => JObj [str_field "path" e.1; str_field "reasonCode" e.2])), (normal_fields _ _ ($"excludedPaths") H).
  intros [p r] [p' r'] Hx. pose proof (normal_fields _ _ ($"path") Hx : JStr p = JStr p'). pose proof (normal_fields _ _ ($"reasonCode") Hx : JStr r = JStr r'). congruence.
Qed.

Lemma component_equal a b : normal (component_js a) = normal (component_js b) -> a = b.
Proof.
  intros H. destruct a as [i r v d k], b as [i' r' v' d' k'].
  assert (i = i' /\ r = r' /\ v = v' /\ d = d') as (-> & -> & -> & ->).
  { destruct k, k'; (split_and!; [injection (normal_fields _ _ ($"componentId") H : JStr i = JStr i')|injection (normal_fields _ _ ($"repository") H : JStr r = JStr r')|
      injection (normal_fields _ _ ($"revision") H : JStr v = JStr v')|injection (normal_fields _ _ ($"dirty") H : JBool d = JBool d')]; done). }
  destruct k as [k|], k' as [k'|]; pose proof (normal_fields _ _ ($"dirtyContent") H) as Hk; [|discriminate Hk..|done].
  f_equal. f_equal. by apply dirty_equal.
Qed.

Lemma components_equal l k : same (components_js l) (components_js k) = Ok true -> l = k.
Proof. intros H. apply same_true in H; [|apply named_components..]. apply (normal_array component_js) in H; [done|]. apply component_equal. Qed.

(** ** The index of a cache and its manifest *)

Lemma not_refused_Ok b code p u : refuse_unless b code p = Ok u -> b = true.
Proof. by destruct b. Qed.

Lemma bounded_integer v p lo hi z : integer v p lo hi = Ok z -> (- MAX_SAFE_INTEGER <= lo)%Z -> safe z.
Proof.
  destruct v as [| | |x| | | |]; try done. cbn. destruct (num_safe_Z x) as [y|] eqn:E; [|done]. apply num_safe_bound in E.
  destruct (_ && _); [|done]. by intros [= <-] _.
Qed.

(** [framework_inv] goes through the steps of a parser that succeeded. *)
Ltac framework_inv1 :=
  match goal with
  | H : (_ ≫= _) = Ok _ |- _ => apply res_bind_Ok in H as (? & ? & H)
  | H : refuse_unless _ _ _ = Ok _ |- _ => apply not_refused_Ok in H
  | H : mret _ = Ok _ |- _ => injection H as H
  | H : Ok _ = Ok _ |- _ => injection H as H
  end.
Ltac framework_inv := repeat framework_inv1.

Lemma mapMi_all {A B} (f : N -> A -> res framework_thrown B) (P : B -> Prop) l ys :
  (forall i x y, f i x = Ok y -> P y) -> mapMi f l = Ok ys -> Forall P ys.
Proof.
  intros HP H. apply mapMi_from_Forall2 in H. induction H as [|x y l ys [i Hi] _ IH]; constructor; [by eapply HP|done].
Qed.

Lemma parse_artifact_safe i v a : parse_artifact i v = Ok a -> safe (ai_bytes (ma_identity a)).
Proof. unfold parse_artifact. intros H. framework_inv. subst a. eapply bounded_integer; [eassumption|done]. Qed.

Lemma parse_entry_safe i v a : parse_entry i v = Ok a -> safe (ai_bytes a).
Proof. unfold parse_entry. intros H. framework_inv. subst a. eapply bounded_integer; [eassumption|done]. Qed.

Lemma parse_tree_safe i v t : parse_tree i v = Ok t -> tree_safe t.
Proof. unfold parse_tree. intros H. framework_inv. subst t. split; (eapply bounded_integer; [eassumption|done]). Qed.

Lemma parseManifest_safe raw m : parseManifest raw = Ok m ->
  Forall (fun a => safe (ai_bytes (ma_identity a))) (dm_artifacts m) /\ Forall tree_safe (dm_runtimeTrees m).
Proof.
  unfold parseManifest. intros H. framework_inv. subst m. cbn.
  split; (eapply mapMi_all; [|eassumption]); [apply parse_artifact_safe|apply parse_tree_safe].
Qed.

Lemma parseCache_safe raw c : parseCache raw = Ok c -> Forall (fun a => safe (ai_bytes a)) (ci_entries c).
Proof. unfold parseCache. intros H. framework_inv. subst c. cbn. eapply mapMi_all; [|eassumption]. apply parse_entry_safe. Qed.

Lemma mapBy_Ok {T} (items items' : list T) key path : mapBy items key path = Ok items' -> items' = items /\ NoDup (map key items).
Proof. unfold mapBy, no_repeats. intros H. framework_inv. split; [done|]. by eapply bool_decide_eq_true. Qed.

Lemma find_by_Some {T} (key : T -> ustring) k items x : find_by key k items = Some x -> x ∈ items /\ key x = k.
Proof.
  induction items as [|y items IH]; [done|]. cbn [find_by]. case_bool_decide as E; [intros [= ->]; by split; [left|]|].
  intros [H1 H2]%IH. split; [by right|done].
Qed.

Lemma checks_all {A} (f : A -> res framework_thrown unit) l us : mapM f l = Ok us -> forall x, x ∈ l -> f x = Ok tt.
Proof.
  intros H%mapM_res_Ok. induction H as [|y u l us Hy _ IH]; intros x Hx; [by apply elem_of_nil in Hx|].
  apply elem_of_cons in Hx as [->|Hx]; [by destruct u|by apply IH].
Qed.

Section distribution.
Context (sha256 : list N -> ustring).

Lemma check_artifact_Ok entries a : safe (ai_bytes (ma_identity a)) -> Forall (fun e => safe (ai_bytes e)) entries ->
  check_artifact entries a = Ok tt -> ma_identity a ∈ entries.
Proof.
  intros Ha He. unfold check_artifact. destruct (find_by _ _ entries) as [e|] eqn:E; [|done]. intros H. framework_inv. subst.
  apply find_by_Some in E as [Hin _]. rewrite Forall_forall in He.
  match goal with H : same _ _ = Ok _ |- _ => apply artifact_equal in H as ->; [done|done|by apply He] end.
Qed.

(** What a distribution that was validated has: the parts of both documents. *)
Lemma validatedDistribution_Ok manifestRaw cacheRaw v :
  validatedDistribution sha256 manifestRaw cacheRaw = Ok v ->
  exists cache, parseManifest manifestRaw = Ok (vd_manifest v) /\ parseCache cacheRaw = Ok cache /\
    frameworkCatalogDigest sha256 (dm_raw (vd_manifest v)) = Ok (vd_manifestDigest v) /\
    ci_distributionManifestSha256 cache = vd_manifestDigest v /\ ci_profileId cache = dm_profileId (vd_manifest v) /\
    ci_catalogSelectionRef cache = dm_catalogSelectionRef (vd_manifest v) /\
    vd_artifacts v = dm_artifacts (vd_manifest v) /\ NoDup (map artifact_id (dm_artifacts (vd_manifest v))) /\
    NoDup (map ai_artifactId (ci_entries cache)) /\ length (dm_artifacts (vd_manifest v)) = length (ci_entries cache) /\
    (forall a, a ∈ dm_artifacts (vd_manifest v) -> ma_identity a ∈ ci_entries cache).
Proof.
  unfold validatedDistribution. intros H.
  apply res_bind_Ok in H as (manifest & Hm & H). apply res_bind_Ok in H as (cache & Hc & H). apply res_bind_Ok in H as (d & Hd & H).
  apply res_bind_Ok in H as (sel & Hs & H). apply res_bind_Ok in H as (u & Hall%not_refused_Ok & H). clear u.
  apply andb_true_iff in Hall as [[-> H1%bool_decide_eq_true]%andb_true_iff H2%bool_decide_eq_true]. apply selection_equal in Hs.
  apply res_bind_Ok in H as (artifacts & [-> Ha]%mapBy_Ok & H). apply res_bind_Ok in H as (entries & [-> He]%mapBy_Ok & H).
  apply res_bind_Ok in H as (u & Hlen%not_refused_Ok%Nat.eqb_eq & H). apply res_bind_Ok in H as (us & Hus & H). injection H as <-. cbn.
  exists cache. split_and!; try done. intros a Hin. pose proof (checks_all _ _ _ Hus a Hin) as Hcheck.
  destruct (parseManifest_safe _ _ Hm) as [Hsafe _]. rewrite Forall_forall in Hsafe.
  apply (check_artifact_Ok (ci_entries cache)); [by apply Hsafe|by eapply parseCache_safe|done].
Qed.

Lemma artifact_ids l : map artifact_id l = map ai_artifactId (map ma_identity l).
Proof. by rewrite map_map. Qed.

Lemma NoDup_map_list {A B} (f : A -> B) l : NoDup (map f l) -> NoDup l.
Proof. apply NoDup_fmap_1. Qed.

(** C12: an installed distribution that is accepted is what its manifest says. The
    result has the artifacts of the manifest, in its order, and its other parts as
    they are; the index of the cache lists exactly these artifacts: the same
    identities, with path, size, digest and mode, none missing, none more, no two
    with one id; and it names the digest of the canonical text of the manifest, its
    profile and the catalogue it was made for. *)
Theorem distribution_exact manifestRaw cacheRaw installed
    (H : validateInstalledDistributionIdentity sha256 manifestRaw cacheRaw = Matched installed) :
  exists manifest cache, parseManifest manifestRaw = Ok manifest /\ parseCache cacheRaw = Ok cache /\
    installed = MkInstalled (dm_catalogSelectionRef manifest) (dm_profileId manifest) (ci_distributionManifestSha256 cache)
      (dm_componentRefs manifest) (dm_buildInputs manifest) (dm_buildProvenance manifest) (map ma_identity (dm_artifacts manifest))
      (dm_runtimeTrees manifest) /\
    map ma_identity (dm_artifacts manifest) ≡ₚ ci_entries cache /\
    NoDup (map artifact_id (dm_artifacts manifest)) /\
    frameworkCatalogDigest sha256 (dm_raw manifest) = Ok (ci_distributionManifestSha256 cache) /\
    ci_profileId cache = dm_profileId manifest /\
    ci_catalogSelectionRef cache = dm_catalogSelectionRef manifest.
Proof.
  unfold validateInstalledDistributionIdentity in H.
  destruct (validatedDistribution sha256 manifestRaw cacheRaw) as [v|[code q|e]] eqn:E; try discriminate H. injection H as <-.
  apply validatedDistribution_Ok in E as (cache & Hm & Hc & Hd & Hsha & Hp & Hs & _ & Ha & He & Hlen & Hin).
  exists (vd_manifest v), cache. split_and!; try done; [by rewrite Hsha| |congruence].
  rewrite artifact_ids in Ha. apply submseteq_length_Permutation; [|rewrite length_map; lia].
  apply NoDup_submseteq; [by eapply NoDup_map_list|]. intros x (a & -> & Hx)%list_elem_of_fmap. by apply Hin.
Qed.
End distribution.

(** ** Preflight *)

Lemma every_one_required {A B} (f : A -> ustring) (g : B -> ustring) (l : list A) (k : list B) :
  NoDup (map f l) -> NoDup (map g k) -> length l = length k -> (forall x, x ∈ l -> exists y, y ∈ k /\ g y = f x) ->
  forall y, y ∈ k -> exists x, x ∈ l /\ f x = g y.
Proof.
  intros Hl Hk Hlen Hsub y Hy. assert (map f l ≡ₚ map g k) as Hperm.
  { apply submseteq_length_Permutation; [|rewrite !length_map; lia]. apply NoDup_submseteq; [done|].
    intros z (x & -> & Hx)%list_elem_of_fmap. destruct (Hsub x Hx) as (y' & Hy' & <-). by apply list_elem_of_fmap_2. }
  assert (g y ∈ map f l) as (x & Hx & Hin)%list_elem_of_fmap by (rewrite Hperm; by apply list_elem_of_fmap_2). by exists x.
Qed.

Section preflight.
Context (sha256 : list N -> ustring) (catalog : Catalog) (c : combination) (input : FrameworkPreflightInput).
Local Abbreviation observed := (in_observed input).
Local Abbreviation policy := (ob_policy (in_observed input)).

(** A capability that is selected and not declared unavailable. *)
Definition capability_usable (capabilityId : ustring) : Prop :=
  capabilityId ∈ cn_capabilityIds c /\ forall k, find_capability catalog capabilityId = Some k -> cb_declarationState k <> $"unavailable".

(** A required capability: declared, its constraints satisfied, and accepted in the
    dimensions that count. *)
Definition capability_fits (profile : distribution_profile) (dimensions : list ustring) (capabilityId : ustring) : Prop :=
  capability_usable capabilityId /\
  exists k, k ∈ ca_capabilities catalog /\ cb_capabilityId k = capabilityId /\
    (forall x, x ∈ cb_constraints k -> constraint_satisfied x (actual_fact catalog c profile x) = true) /\
    (forall d, d ∈ dimensions -> observation_accepted k d = true).

(** An approval that is about this catalogue, combination and distribution. *)
Definition approval_binds (v : ValidatedDistribution) (a : FrameworkApprovalDecision) : Prop :=
  ap_selectedCatalogRef a = in_selectionRef input /\
  cs_selectionValue (ap_approvalCatalogRef a) <> cs_selectionValue (in_selectionRef input) /\
  ap_combinationId a = cn_combinationId c /\ ap_distributionManifestSha256 a = vd_manifestDigest v /\
  ap_cacheIndexSha256 a = sha256 (jsonInputBytes (ob_cacheIndexRaw observed)) /\
  ap_qualification a = $"accepted" /\ ap_integrity a = $"verified" /\ ap_executionProvenance a = $"evidence-observed".

Definition package_fits (m : DistributionManifest) (r : package_requirement) : Prop :=
  exists installed artifact k,
    installed ∈ ob_packages observed /\ pk_packageId installed = pq_packageId r /\
    artifact ∈ dm_artifacts m /\ artifact_id artifact = pq_artifactId r /\ k ∈ ca_components catalog /\ component_id k = pq_componentId r /\
    pk_componentId installed = pq_componentId r /\ pk_artifactId installed = pq_artifactId r /\
    pk_version installed = cc_version k /\ pk_sha256 installed = ai_sha256 (ma_identity artifact).

Definition executable_fits (m : DistributionManifest) (r : executable_requirement) : Prop :=
  Forall capability_usable (eq_requiredCapabilityIds r) /\
  exists installed artifact,
    installed ∈ ob_executables observed /\ ex_role installed = eq_role r /\
    artifact ∈ dm_artifacts m /\ artifact_id artifact = eq_artifactId r /\
    ex_artifactId installed = eq_artifactId r /\ ex_sha256 installed = ai_sha256 (ma_identity artifact) /\
    ex_capabilityIds installed = eq_requiredCapabilityIds r.

Definition tree_fits (m : DistributionManifest) (r : tree_requirement) : Prop :=
  Forall capability_usable (tq_requiredCapabilityIds r) /\
  exists t, rt_treeId t = tq_treeId r /\ t ∈ dm_runtimeTrees m /\ t ∈ ob_runtimeTrees observed /\
    exists artifact, artifact ∈ dm_artifacts m /\ artifact_id artifact = rt_sourceArtifactId t.

(** What is installed is what the policy requires, with the identities of the manifest,
    and nothing else, as the policy names nothing twice. *)
Record installation_fits (m : DistributionManifest) : Prop := {
  if_packages : Forall (package_fits m) (po_packages policy);
  if_executables : Forall (executable_fits m) (po_executables policy);
  if_trees : Forall (tree_fits m) (po_runtimeTrees policy);
  if_no_package : NoDup (map pq_packageId (po_packages policy)) ->
    forall x, x ∈ ob_packages observed -> exists r, r ∈ po_packages policy /\ pq_packageId r = pk_packageId x;
  if_no_executable : NoDup (map eq_role (po_executables policy)) ->
    forall x, x ∈ ob_executables observed -> exists r, r ∈ po_executables policy /\ eq_role r = ex_role x;
  if_no_tree : NoDup (map tq_treeId (po_runtimeTrees policy)) ->
    forall x, x ∈ ob_runtimeTrees observed -> exists r, r ∈ po_runtimeTrees policy /\ tq_treeId r = rt_treeId x }.

Lemma requireCaps_Ok values q u : requireCaps catalog c values q = Ok u -> Forall capability_usable values.
Proof.
  unfold requireCaps. intros H. apply res_bind_Ok in H as (us & H & _). apply Forall_forall. intros i Hi.
  pose proof (checks_all _ _ _ H i Hi) as [Hs Hk]%not_refused_Ok%andb_true_iff. split; [by eapply bool_decide_eq_true|].
  intros k E. rewrite E in Hk. apply negb_true_iff, bool_decide_eq_false in Hk. done.
Qed.

Lemma check_capability_Ok profile approved i :
  capability_usable i -> check_capability catalog c input profile approved i = Ok tt ->
  capability_fits profile (if support_required input && negb approved then df_requiredObservationDimensions profile else []) i.
Proof.
  intros Hu. unfold check_capability. destruct (find_capability catalog i) as [k|] eqn:E; [|done]. intros H. apply res_bind_Ok in H as (us & Hus & H).
  split; [done|]. apply find_by_Some in E as [Hin Hid]. exists k. split_and!; try done.
  - intros x Hx. by pose proof (checks_all _ _ _ Hus x Hx) as Hc%not_refused_Ok.
  - destruct (support_required input && negb approved); [|by intros d Hd%elem_of_nil].
    apply res_bind_Ok in H as (us' & Hus' & _). intros d Hd. by pose proof (checks_all _ _ _ Hus' d Hd) as Hc%not_refused_Ok.
Qed.

Lemma check_package_Ok m r : check_package catalog (dm_artifacts m) (ob_packages observed) r = Ok tt -> package_fits m r.
Proof.
  unfold check_package. intros H%not_refused_Ok.
  destruct (find_by pk_packageId _ _) as [i|] eqn:Ei; [|done]. destruct (find_by artifact_id _ _) as [a|] eqn:Ea; [|done].
  destruct (find_component _ _) as [k|] eqn:Ek; [|done].
  apply find_by_Some in Ei as [Hi Hi'], Ea as [Ha Ha'], Ek as [Hk Hk'].
  apply andb_true_iff in H as [[[H1 H2]%andb_true_iff H3]%andb_true_iff H4]. apply bool_decide_eq_true in H1, H2, H3, H4.
  exists i, a, k. by split_and!.
Qed.

Lemma check_executable_Ok m r : check_executable catalog c (dm_artifacts m) (ob_executables observed) r = Ok tt -> executable_fits m r.
Proof.
  unfold check_executable. intros H. apply res_bind_Ok in H as (u & Hu%requireCaps_Ok & H). split; [done|].
  apply res_bind_Ok in H as (fits & Hf & ->%not_refused_Ok).
  destruct (find_by ex_role _ _) as [i|] eqn:Ei; [|done]. destruct (find_by artifact_id _ _) as [a|] eqn:Ea; [|done].
  apply find_by_Some in Ei as [Hi Hi'], Ea as [Ha Ha']. destruct (_ && _) eqn:E; [|done].
  apply andb_true_iff in E as [H1%bool_decide_eq_true H2%bool_decide_eq_true]. apply texts_equal in Hf. exists i, a. by split_and!.
Qed.

Lemma check_tree_Ok m r : Forall tree_safe (dm_runtimeTrees m) -> Forall tree_safe (ob_runtimeTrees observed) ->
  (forall t, t ∈ dm_runtimeTrees m -> check_source (dm_artifacts m) t = Ok tt) ->
  check_tree catalog c (dm_runtimeTrees m) (ob_runtimeTrees observed) r = Ok tt -> tree_fits m r.
Proof.
  intros He Ho Hsource. unfold check_tree. intros H. apply res_bind_Ok in H as (u & Hu%requireCaps_Ok & H). split; [done|].
  apply res_bind_Ok in H as (fits & Hf & ->%not_refused_Ok). rewrite Forall_forall in He, Ho.
  destruct (find_by _ _ (dm_runtimeTrees m)) as [e|] eqn:Ee; [|done]. destruct (find_by _ _ (ob_runtimeTrees _)) as [i|] eqn:Ei; [|done].
  apply find_by_Some in Ei as [Hi Hi'], Ee as [Hin Hid]. apply tree_equal in Hf; [|by apply He|by apply Ho]. subst i.
  exists e. split_and!; try done. specialize (Hsource e Hin). apply not_refused_Ok, bool_decide_eq_true in Hsource as [a Ha].
  apply find_by_Some in Ha as [??]. by exists a.
Qed.
Lemma check_installation_Ok v :
  vd_artifacts v = dm_artifacts (vd_manifest v) -> Forall tree_safe (dm_runtimeTrees (vd_manifest v)) -> Forall tree_safe (ob_runtimeTrees observed) ->
  check_installation catalog c input v = Ok tt -> installation_fits (vd_manifest v).
Proof.
  intros Hv He Ho. unfold check_installation. rewrite Hv. intros H.
  apply res_bind_Ok in H as (pk & [-> Hpk]%mapBy_Ok & H). apply res_bind_Ok in H as (u1 & H1 & H).
  apply res_bind_Ok in H as (u2 & H2%not_refused_Ok%Nat.eqb_eq & H). apply res_bind_Ok in H as (ex & [-> Hex]%mapBy_Ok & H).
  apply res_bind_Ok in H as (u3 & H3 & H). apply res_bind_Ok in H as (u4 & H4%not_refused_Ok%Nat.eqb_eq & H).
  apply res_bind_Ok in H as (et & [-> _]%mapBy_Ok & H). apply res_bind_Ok in H as (it & [-> Hit]%mapBy_Ok & H).
  apply res_bind_Ok in H as (u5 & H5 & H). apply res_bind_Ok in H as (u6 & H6 & H7%not_refused_Ok%Nat.eqb_eq).
  assert (forall r, r ∈ po_packages policy -> package_fits (vd_manifest v) r) as Fp by (intros r Hr; by apply check_package_Ok, (checks_all _ _ _ H1)).
  assert (forall r, r ∈ po_executables policy -> executable_fits (vd_manifest v) r) as Fe by (intros r Hr; by apply check_executable_Ok, (checks_all _ _ _ H3)).
  assert (forall r, r ∈ po_runtimeTrees policy -> tree_fits (vd_manifest v) r) as Ft.
  { intros r Hr. apply check_tree_Ok; [done|done|by apply (checks_all _ _ _ H5)|by apply (checks_all _ _ _ H6)]. }
  split; try (by apply Forall_forall).
  - intros Hn. apply every_one_required; [done|done|done|]. intros r (i & a & k & ? & ? & _)%Fp. by exists i.
  - intros Hn. apply every_one_required; [done|done|done|]. intros r (_ & i & a & ? & ? & _)%Fe. by exists i.
  - intros Hn. apply every_one_required; [done|done|done|]. intros r (_ & x & ? & _ & ? & _)%Ft. by exists x.
Qed.

Lemma approved_candidate_Ok v approved :
  approved_candidate sha256 c input v = Ok approved ->
  approved = true -> cn_declaredState c = $"candidate" /\ exists a, in_approval input = Some a /\ approval_binds v a.
Proof.
  unfold approved_candidate. destruct (in_approval input) as [a|]; [|by intros [= <-]]. intros H ->.
  apply res_bind_Ok in H as (valid & Hv & H). apply res_bind_Ok in H as (u & ->%not_refused_Ok & H). injection H as H%bool_decide_eq_true.
  split; [done|]. exists a. split; [done|]. unfold approval_valid in Hv. destruct (_ && _) in Hv; [|done].
  apply res_bind_Ok in Hv as (s & Hs & Hv). injection Hv as Hv.
  repeat match goal with H : _ && _ = true |- _ => apply andb_true_iff in H as [? ?] end. subst s. apply selection_equal in Hs.
  repeat match goal with
  | H : bool_decide _ = true |- _ => apply bool_decide_eq_true in H
  | H : negb (bool_decide _) = true |- _ => apply negb_true_iff, bool_decide_eq_false in H
  end. by split_and!.
Qed.

Lemma check_components_Ok v expected : check_components catalog c input v = Ok expected ->
  ob_componentRefs observed = dm_componentRefs (vd_manifest v) /\ expected = ob_componentRefs observed /\
  Forall2 (fun i r => exists k, k ∈ ca_components catalog /\ cc_componentRef k = r /\ cf_componentId r = i) (cn_componentIds c) expected.
Proof.
  unfold check_components. intros H. apply res_bind_Ok in H as (e & He & H). apply res_bind_Ok in H as (d & Hd & H).
  apply res_bind_Ok in H as (i & Hi & H). apply res_bind_Ok in H as (u & ->%not_refused_Ok & H). injection H as <-.
  destruct d; [|done]. apply components_equal in Hd, Hi. split_and!; [congruence|congruence|].
  apply mapM_res_Ok in He. eapply Forall2_impl; [exact He|]. cbn. intros x y. destruct (find_component catalog x) as [k|] eqn:E; [|done].
  intros [= <-]. apply find_by_Some in E as [Hin Hid]. by exists k.
Qed.

Lemma check_profile_Ok profile : check_profile catalog c input = Ok profile ->
  profile ∈ ca_distributionProfiles catalog /\ df_profileId profile = po_catalogProfileId policy /\
  df_profileId profile ∈ cn_distributionProfileIds c /\ df_platform profile = ob_platform observed.
Proof.
  unfold check_profile. destruct (find_by _ _ _) as [q|] eqn:E; [|done]. intros H. apply res_bind_Ok in H as (b & Hb & H).
  apply res_bind_Ok in H as (u & ->%not_refused_Ok & H). apply res_bind_Ok in H as (u' & _ & H). injection H as <-.
  apply find_by_Some in E as [Hin Hid]. case_bool_decide as Hm; [|done]. apply platform_equal in Hb. by split_and!.
Qed.
End preflight.

(** C6: what a match of the preflight says. The catalogue is the selected one, by the
    digest of its canonical text, and has the combination, which is not unsupported;
    where support is required it is supported, or it is a candidate with an approval
    that is about this catalogue, combination, distribution and cache, and the match
    is qualified exactly then. The manifest was made for the selection; the installed
    components are its components, those of the combination; the platform is that of
    the profile; every required capability is selected, available, with its
    constraints satisfied and, unless approved, accepted in each required dimension;
    and the packages, executables and runtime trees are those of the manifest. *)
Theorem preflight_matched (sha256 : list N -> ustring) (catalogRaw : raw_input) (input : FrameworkPreflightInput) (m : framework_match)
    (Htrees : Forall tree_safe (ob_runtimeTrees (in_observed input)))
    (H : preflightFrameworkSelection sha256 catalogRaw input = Matched m) :
  let observed := in_observed input in
  exists catalog c v profile approved,
    parseCatalog catalogRaw = Ok catalog /\
    frameworkCatalogDigest sha256 (ca_raw catalog) = Ok (cs_selectionValue (in_selectionRef input)) /\
    c ∈ ca_combinations catalog /\ cn_combinationId c = in_combinationId input /\ cn_declaredState c <> $"unsupported" /\
    fm_supportQualified m = support_required input /\
    (support_required input = true -> cn_declaredState c = $"supported" \/ approved = true) /\
    (approved = true -> cn_declaredState c = $"candidate" /\ exists a, in_approval input = Some a /\ approval_binds sha256 c input v a) /\
    validatedDistribution sha256 (ob_distributionManifestRaw observed) (ob_cacheIndexRaw observed) = Ok v /\
    dm_catalogSelectionRef (vd_manifest v) = in_selectionRef input /\
    dm_profileId (vd_manifest v) = po_manifestProfileId (ob_policy observed) /\
    ob_componentRefs observed = dm_componentRefs (vd_manifest v) /\
    Forall2 (fun i r => exists k, k ∈ ca_components catalog /\ cc_componentRef k = r /\ cf_componentId r = i) (cn_componentIds c) (ob_componentRefs observed) /\
    profile ∈ ca_distributionProfiles catalog /\ df_profileId profile = po_catalogProfileId (ob_policy observed) /\
    df_profileId profile ∈ cn_distributionProfileIds c /\ df_platform profile = ob_platform observed /\
    Forall (capability_fits catalog c profile (if support_required input && negb approved then df_requiredObservationDimensions profile else []))
      (df_requiredCapabilityIds profile) /\
    installation_fits catalog c input (vd_manifest v).
Proof.
  unfold preflightFrameworkSelection in H. destruct (preflight _ _ _) as [m'|[? ?|?]] eqn:E; try discriminate H. injection H as ->.
  unfold preflight in E. apply res_bind_Ok in E as (catalog & Hc & E). apply res_bind_Ok in E as (d & Hd & E).
  apply res_bind_Ok in E as (u & Hs%not_refused_Ok & E). apply andb_true_iff in Hs as [_ Hs%bool_decide_eq_true].
  apply res_bind_Ok in E as (c & Hf & E). unfold find_combination in Hf. destruct (find_by _ _ _) as [c'|] eqn:Hfind; [|done]. injection Hf as ->.
  apply find_by_Some in Hfind as [Hin Hid]. apply res_bind_Ok in E as (u1 & Hadm & E).
  apply res_bind_Ok in Hadm as (u2 & _ & [Hu _]%not_refused_Ok%negb_true_iff%orb_false_iff). apply bool_decide_eq_false in Hu.
  apply res_bind_Ok in E as (v & Hv & E). apply res_bind_Ok in E as (approved & Happ & E). apply res_bind_Ok in E as (u3 & Hq%not_refused_Ok & E).
  apply res_bind_Ok in E as (u4 & Hdist & E). apply res_bind_Ok in Hdist as (sel & Hsel & Hdist%not_refused_Ok).
  apply andb_true_iff in Hdist as [-> Hprof%bool_decide_eq_true]. apply selection_equal in Hsel.
  apply res_bind_Ok in E as (expected & (Hcomp & -> & Hex)%check_components_Ok & E).
  apply res_bind_Ok in E as (profile & (Hp1 & Hp2 & Hp3 & Hp4)%check_profile_Ok & E).
  apply res_bind_Ok in E as (u5 & Hcaps%requireCaps_Ok & E). apply res_bind_Ok in E as (us & Hchecks & E).
  apply res_bind_Ok in E as ([] & Hinst & E). injection E as <-. cbn [fm_supportQualified].
  pose proof (validatedDistribution_Ok _ _ _ _ Hv) as (cache & Hm & _ & _ & _ & _ & _ & Hva & _). destruct (parseManifest_safe _ _ Hm) as [_ Hts].
  assert (support_required input = true -> is_state c "supported" || approved = true) as Hqual by (intros Hsr; rewrite Hsr in Hq; by destruct (is_state c "supported"), approved).
  exists catalog, c, v, profile, approved. split_and!; try done; [congruence| | | | |].
  - destruct (support_required input) eqn:Hsr; [by rewrite Hqual|done].
  - intros [Hst%bool_decide_eq_true| ->]%Hqual%orb_true_iff; auto.
  - by apply approved_candidate_Ok.
  - apply Forall_forall. intros i Hi. rewrite Forall_forall in Hcaps. apply check_capability_Ok; [by apply Hcaps|by apply (checks_all _ _ _ Hchecks)].
  - by apply check_installation_Ok.
Qed.

(** ** A candidate that an approval admits *)

(** A digest for the examples: the sum of the bytes, in one digit repeated. *)
Definition demo_sha256 (bytes : list N) : ustring := replicate 64 (hex_digit (foldr N.add 0 bytes mod 16)%N).

Definition said (name value : string) : ustring * js := (lit name, JStr (lit value)).
Definition ids (l : list string) : js := JArr (map (fun s => JStr (lit s)) l).
Definition demo_digest : ustring := replicate 64 0x62%N.
Definition demo_document (v : js) : raw_input := RawText (default [] (match canonicalFrameworkJson v with Ok t => Some t | Err _ => None end)).

Definition demo_component : ComponentRef := MkComponent ($"mirrors") ($"https://example.test/mirrors") (replicate 40 0x31%N) false None.
Definition demo_platform (os : string) : PlatformIdentity := MkPlatform (lit os) ($"6.1") ($"x86_64") None.

Definition demo_capability : js :=
  JObj [said "capabilityId" "replay"; said "ownerComponentId" "mirrors"; said "description" "replay of a trace";
        ($"declaration", JObj [said "state" "available"; ($"constraints", JArr [
          JObj [said "constraintId" "version"; ($"fact", JObj [said "kind" "componentVersion"; said "id" "mirrors"]);
                said "operator" "atLeastSemver"; ($"values", ids ["1.9.0"]%string)]])]);
        ($"sourceImplementation", JObj [said "state" "implemented"; ($"locations", JArr [JObj [said "path" "src/replay.ts"]])]);
        ($"observations", JObj (map (fun d => (lit d, JObj [said "state" "notRun"])) observationDimensions))].

Definition demo_profile : js :=
  JObj [said "profileId" "linux"; ($"platform", platform_js (demo_platform "linux")); ($"requiredCapabilityIds", ids ["replay"]%string);
        ($"optionalCapabilityIds", ids []); ($"requiredObservationDimensions", ids ["locallyAccepted"]%string); ($"dependencies", JArr [])].

(** [os]: the system that the combination names. *)
Definition demo_combination (os : string) : js :=
  JObj [said "combinationId" "first"; ($"componentIds", ids ["mirrors"]%string); ($"platform", platform_js (demo_platform os));
        ($"capabilityIds", ids ["replay"]%string); ($"distributionProfileIds", ids ["linux"]%string); said "declaredState" "candidate";
        ($"evidenceIds", ids [])].

Definition demo_catalog (os : string) : js :=
  JObj [said "schemaVersion" CATALOG_SCHEMA; said "catalogId" "mirrors"; said "visibility" "public";
        ($"components", JArr [JObj [($"componentRef", component_js demo_component);
           ($"product", JObj [said "name" "Mirrors"; said "version" "1.10.0"]); ($"records", JArr [])]]);
        ($"evidenceRefs", JArr []); ($"capabilities", JArr [demo_capability]); ($"distributionProfiles", JArr [demo_profile]);
        ($"combinations", JArr [demo_combination os])].

Definition digest_of (v : js) : ustring := match frameworkCatalogDigest demo_sha256 v with Ok d => d | Err _ => [] end.
Definition demo_reference (os : string) : CatalogSelectionRef := MkSelection (lit CATALOG_SCHEMA) ($"sha256") (digest_of (demo_catalog os)).

Definition demo_artifact : ArtifactIdentity := MkArtifactIdentity ($"runtime.tar") ($"dist/runtime.tar") 4096 demo_digest ($"0644").
Definition demo_tree : RuntimeTreeIdentity :=
  MkTree ($"node") ($"runtime.tar") ($"node-22") ($"runtime/node") (lit runtime_tree_algorithm) demo_digest 12 8192.
Definition demo_input_file (name : string) : js :=
  JObj [said "inputId" name; said "path" name; int_field "bytes" 10; str_field "sha256" demo_digest].

Definition demo_manifest (os : string) : js :=
  JObj [said "schemaVersion" "mirrors.reference-distribution-manifest/v1"; said "distributionId" "reference";
        ($"catalogSelectionRef", selection_js (demo_reference os)); said "profileId" "linux-x64"; ($"componentRefs", components_js [demo_component]);
        ($"buildInputs", JArr (map demo_input_file lock_inputs));
        ($"buildProvenance", JObj [str_field "snapshotIndexSha256" demo_digest; ($"tools", JArr []); ($"trees", JArr [])]);
        ($"artifacts", JArr [JObj [said "artifactId" "runtime.tar"; said "path" "dist/runtime.tar"; said "kind" "archive";
           said "mediaType" "application/x-tar"; int_field "bytes" 4096; str_field "sha256" demo_digest; said "mode" "0644";
           ($"source", JObj [said "kind" "component-build"; said "id" "mirrors"])]]);
        ($"runtimeTrees", JArr [tree_js demo_tree]); ($"hostRequirements", JArr []); said "publication" "unclaimed"].

Definition demo_cache (os : string) : js :=
  JObj [said "schemaVersion" "mirrors.reference-cache-index/v1"; said "profileId" "linux-x64";
        ($"catalogSelectionRef", selection_js (demo_reference os)); str_field "distributionManifestSha256" (digest_of (demo_manifest os));
        ($"entries", JArr [artifact_js demo_artifact])].

Definition demo_policy : RuntimeSupportPolicy :=
  MkPolicy SupportRequired ($"linux-x64") ($"linux") [MkPackageRequirement ($"mirrors-runtime") ($"mirrors") ($"runtime.tar")]
    [MkExecutableRequirement ($"server") ($"runtime.tar") [$"replay"]] [MkTreeRequirement ($"node") ($"node") []].

Definition demo_observed (os : string) : InstalledFrameworkObservation :=
  MkObserved (demo_document (demo_manifest os)) (demo_document (demo_cache os)) [demo_component]
    [MkPackage ($"mirrors-runtime") ($"mirrors") ($"runtime.tar") ($"1.10.0") demo_digest]
    [MkExecutable ($"server") ($"runtime.tar") demo_digest [$"replay"]] [demo_tree] (demo_platform "linux") demo_policy.

Definition demo_approval (os : string) : FrameworkApprovalDecision :=
  MkApproval ($"mirrors.evidence-catalog-link/v1") ($"local-candidate") (demo_reference os)
    (MkSelection (lit CATALOG_SCHEMA) ($"sha256") (replicate 64 0x63%N)) ($"first") (digest_of (demo_manifest os))
    (demo_sha256 (jsonInputBytes (ob_cacheIndexRaw (demo_observed os))))
    (MkRunRef ($"mirrors.evidence-public-summary/v1.0") ($"run-1") demo_digest ($"public")) ($"accepted") ($"verified") ($"evidence-observed").

Definition demo_input (os : string) : FrameworkPreflightInput := MkInput (demo_reference os) ($"first") (demo_observed os) (Some (demo_approval os)).

(** The combination names a system that is not the one that is installed. *)
Lemma demo_matches :
  exists m, preflightFrameworkSelection demo_sha256 (demo_document (demo_catalog "plan9")) (demo_input "plan9") = Matched m /\
    fm_supportQualified m = true /\ fm_platform m = demo_platform "plan9" /\
    ob_platform (demo_observed "plan9") = demo_platform "linux".
Proof. vm_compute. eexists. by split_and!. Qed.

Lemma demo_installs :
  exists installed, validateInstalledDistributionIdentity demo_sha256 (demo_document (demo_manifest "linux")) (demo_document (demo_cache "linux")) =
    Matched installed /\ id_artifacts installed = [demo_artifact].
Proof. vm_compute. eexists. by split_and!. Qed.

Example preflight_matched_witness :
  exists m profile, preflightFrameworkSelection demo_sha256 (demo_document (demo_catalog "plan9")) (demo_input "plan9") = Matched m /\
    fm_supportQualified m = true /\ fm_platform m = demo_platform "plan9" /\
    df_platform profile = demo_platform "linux".
Proof.
  destruct demo_matches as (m & H & Hq & Hp & Ho). exists m.
  destruct (preflight_matched demo_sha256 (demo_document (demo_catalog "plan9")) (demo_input "plan9") m)
    as (? & ? & ? & profile & ? & _ & _ & _ & _ & _ & _ & _ & _ & _ & _ & _ & _ & _ & _ & _ & _ & Hplatform & _).
  - apply Forall_singleton. split; vm_compute; discriminate.
  - exact H.
  - exists profile. split_and!; [exact H|exact Hq|exact Hp|]. rewrite Hplatform. exact Ho.
Defined.

Example distribution_exact_witness :
  exists installed manifest cache, parseManifest (demo_document (demo_manifest "linux")) = Ok manifest /\
    parseCache (demo_document (demo_cache "linux")) = Ok cache /\ id_artifacts installed = [demo_artifact] /\
    map ma_identity (dm_artifacts manifest) ≡ₚ ci_entries cache.
Proof.
  destruct demo_installs as (installed & H & Ha). exists installed.
  destruct (distribution_exact demo_sha256 _ _ installed H) as (manifest & cache & Hm & Hc & _ & Hp & _).
  exists manifest, cache. exact (conj Hm (conj Hc (conj Ha Hp))).
Defined.

Definition two_fields (a b : string * Z) : js := JObj [int_field a.1 a.2; int_field b.1 b.2].

Example canonical_identity_witness : normal (two_fields ("b", 2%Z) ("a", 1%Z)) = normal (two_fields ("a", 1%Z) ("b", 2%Z)).
Proof.
  apply (canonical_identity _ _ ($"{" ++ quoted_text ($"a") ++ $":1," ++ quoted_text ($"b") ++ $":2}") ($"{" ++ quoted_text ($"a") ++ $":1," ++ quoted_text ($"b") ++ $":2}"));
    [named_object|named_object|vm_compute; reflexivity|vm_compute; reflexivity|reflexivity].
Defined.

(** A policy that requires one package twice lets in a package that it does not name: only
    the numbers are compared. *)
Definition repeated_input : FrameworkPreflightInput :=
  let o := demo_observed "linux" in
  let p := demo_policy in
  let extra := MkPackage ($"extra") ($"unknown") ($"unknown") ($"0") [] in
  MkInput (demo_reference "linux") ($"first")
    (MkObserved (ob_distributionManifestRaw o) (ob_cacheIndexRaw o) (ob_componentRefs o) (ob_packages o ++ [extra]) (ob_executables o)
       (ob_runtimeTrees o) (ob_platform o)
       (MkPolicy (po_admission p) (po_manifestProfileId p) (po_catalogProfileId p) (po_packages p ++ po_packages p) (po_executables p)
          (po_runtimeTrees p)))
    (Some (demo_approval "linux")).

Example repeated_requirement_not_noticed :
  exists m, preflightFrameworkSelection demo_sha256 (demo_document (demo_catalog "linux")) repeated_input = Matched m /\
    map pk_packageId (fm_packages m) = [$"mirrors-runtime"; $"extra"].
Proof. vm_compute. eexists. by split. Qed.
